(* ===== verification/_CoqProject ===== *)
-Q . S2P
Prelude.v
DeviceMemory.v
MurmurHash.v
AddDataKernel.v
StringsHashTable.v
PinnedMemPool.v
CityHashHost.v
CityHashDevice.v
HyperLogLog.v
StringsColumn.v
AggregateFunctions.v
ChunkProtocol.v
ChunkState.v
StringsAggregator.v
AggregatorResult.v
IOMonad.v
ReadBuffers.v
BufferSources.v
FileDescriptors.v
WriteBuffers.v
VarInt.v
HashingBuffers.v
CompressedBuffers.v
TextStrings.v
TextFormat.v
TextNumbers.v
ColumnsCommon.v
PODArray.v
ColumnString.v
ColumnVector.v
DataTypeBulk.v
Blocks.v
NativeFormat.v
AggregatorCalls.v
CudaAggregator.v
LinearProbing.v
Hash.v
MemoryTracker.v
Allocators.v
HashTableCells.v
HashTable.v
HashTableProofs.v
HashTableMap.v
HashMaps.v
HashTableIO.v
TwoLevelHashTable.v
SmallTable.v
CompactArray.v
HyperLogLogHost.v
Arena.v
