(* ===== verification/Prelude.v ===== *)
(** * Verification of clickhouse-gpu

    clickhouse-gpu is a ClickHouse server that runs GROUP BY over strings on a
    GPU.  This library is a shallow embedding of the device code with its host
    side, of the columns and blocks that the query pipeline hands to it, of the
    hash tables and the distinct counter that the aggregation of the server uses
    in its place, and of the layer of read and write buffers through which the
    server parses, prints, compresses and checksums data; paths below are
    relative to src/clickhouse-gpu/.

    ** The program

    Query pipeline.  [CudaAggregatingBlockInputStream] (dbms/src/DataStreams/Cuda)
    reads blocks ([Block], dbms/src/Core) of columns (dbms/src/Columns) and gives
    them to [CudaAggregator] (dbms/src/Interpreters/Cuda), which queues the
    strings of the key and of the argument in the strings aggregator and makes a
    block of its result.

    Aggregation.  [CudaStringsAggregator] (dbms/src/Interpreters/Cuda) takes
    blocks of strings and distributes them over chunks.  A chunk has a column
    of strings in device memory ([CudaColumnString], dbms/src/Columns/Cuda)
    that is filled from the calling thread, and a worker thread that launches
    kernels: [calcLengths] of the column, then [addData] of the hash table
    ([CudaStringsHashTable], dbms/src/Common/HashTable/Cuda), which gives each
    row a bucket, and then [cudaAddBulk] of the aggregate function
    (dbms/src/AggregateFunctions/Cuda), which adds the row's value to the
    state of its bucket; [uniq] keeps a HyperLogLog counter there.  At the end
    the tables of the chunks are merged.  Host buffers come from a pool of
    pinned memory (dbms/src/Common/Cuda).

    Aggregation without the GPU.  The server groups with hash tables
    (dbms/src/Common/HashTable): open addressing with linear probing, growth in
    place, a separate cell for the zero key; above a size, 256 of them as a two
    level table.  [uniqHLL12] keeps a set of 16 values without hashing and then
    a HyperLogLog counter over a [CompactArray] (dbms/src/Common).  Their memory
    comes from the pinned pool through [Allocator], counted by the hierarchy of
    memory trackers.  The tables and counters are sent between servers in binary
    form.

    Input and output.  [ReadBuffer] and [WriteBuffer] (dbms/src/IO) are
    cursors in a working buffer; derived classes refill or flush it.  Text
    formats, variable length integers and checksums are functions over them.

    ** The files

    - Prelude: machine integers as [Z] with their reductions ([wrap], the
      operators of [word_scope]), arrays [rd] and [wr], sums, permutations of
      updates; the tactic [dlia].
    - DeviceMemory: byte memory and [cudaReadStringUnaligned64]
      (Common/Cuda/cudaReadUnaligned.cuh), the string comparison of the
      insertion kernel.
    - MurmurHash, CityHashHost, CityHashDevice: the hash functions of
      Common/Cuda and contrib/libcityhash on the bytes of a string, with the
      kernels over rows.
    - AddDataKernel: [kerAddData] as an interleaving of the atomic accesses of
      its threads, with stale plain loads; StringsHashTable: the class around
      it.  The state of the class is the record [hash_table].
    - StringsColumn: the device column, the host buffer and [parallelMemcpy].
    - HyperLogLog: the counter with its small set, [insert] again as an
      interleaving; AggregateFunctions: the interface of aggregate functions
      as a class with laws, [count] and [uniq] as instances.
    - ChunkProtocol: the threads, mutexes and condition variables of
      [CudaStringsAggregator] as a transition system over what a chunk
      promises (a class).  ChunkState: the data of a chunk and the parts of
      [tryQueueData] and [processChunk] that work on it.  StringsAggregator:
      the chunks together, as an instance of that class, the merge of the
      chunks and the reading of the result.  AggregatorResult: the
      constructor, and the aggregator from there to its result.
    - PinnedMemPool: the pool with its headers and free list in the bytes it
      manages.
    - IOMonad: the monad of stateful code that throws.  ReadBuffers and
      WriteBuffers: the base classes; [nextImpl] is the operation of a class,
      and what a derived class promises is a class of laws.  BufferSources,
      FileDescriptors, HashingBuffers, CompressedBuffers: derived classes as
      instances.
    - ColumnsCommon: filters of columns (Columns/ColumnsCommon.cpp).
      ColumnString, ColumnVector: the columns of strings and of numbers.
      PODArray: the array that holds the data of a column (Common/PODArray.h).
      Blocks: constant columns, blocks with their index of names,
      [materializeBlock].  DataTypeBulk, NativeFormat: columns and blocks as
      bytes (DataTypes/DataTypeString.cpp and DataTypeNumberBase.cpp,
      DataStreams/NativeBlockOutputStream.cpp and NativeBlockInputStream.cpp).
      AggregatorCalls: the calls of the strings aggregator as an interface with
      laws, and an implementation that can be executed.  CudaAggregator: the
      class of that name and the stream that uses it, over that interface.
    - VarInt, TextStrings, TextFormat, TextNumbers: readers and writers
      (IO/VarInt.h, IO/ReadHelpers.h and .cpp, IO/WriteHelpers.h,
      IO/WriteIntText.h).

    - LinearProbing: probe sequences on a circle, without code.  Hash:
      [intHash64] and the hash functors.  MemoryTracker, Allocators: the
      classes of these names; what a table asks of an allocator is a class with
      laws, of which the pool behind the tracker is an instance.
      HashTableCells: what a table asks of a cell, as a class with laws, and the
      cells of sets, maps, saved hashes and clearable tables.  HashTable: the
      operations of Common/HashTable/HashTable.h over any cell and allocator,
      its state the record [HashTable] with the allocator next to it;
      HashTableProofs and HashTableMap: probing and growth, the invariant
      [table_ok] and the map [table_map]; HashMaps: maps and sets as used by
      clients, merge; HashTableIO: the binary forms.  TwoLevelHashTable,
      SmallTable: the headers of these names.
    - CompactArray: Common/CompactArray.h; HyperLogLogHost:
      Common/HyperLogLogCounter.h and HyperLogLogWithSmallSetOptimization.h.
    - Arena: Common/Arena.h, chunks with their bytes next to the allocator.

    ** What is shown

    The hash table is an interning map under every schedule: equal strings get
    equal buckets, different ones different buckets, no string moves; each
    thread returns after a bounded number of its own steps; errors are thrown
    exactly for lack of room; merging tables files every string of the source
    and reports where.  The column gives back the strings put in.  The counter
    represents exactly the inserted set after concurrent inserts; [count] and
    [uniq] extend each group by the values of its rows.  The chunk protocol
    does not deadlock, terminates, and hands every block to one worker once; every
    call comes to its end.
    Together: whatever the interleaving of the threads and of the kernels, when
    the workers have been joined the chunks hold the groups of the queued rows;
    after the merges [count] has the number of rows of every key; with one
    chunk the result has exactly the keys and the states of their values, also
    for [uniq]; with several chunks it has them when the first chunk knew all the
    keys, and otherwise a key is read from outside of the buffer.
    For the pipeline: a stream of blocks, with one chunk and [count], becomes one
    block with every key once and the number of its rows, or an error, never
    another block; queries that the device does not support are refused by the
    constructor.  A column of strings
    refines a list of strings under the operations that its caller may call, a block a list of named
    columns, and a constant column the column of equal values; the filters that
    work on 16 flags at a time are the filter of the list.  Arrays stay in their
    storage and keep its padding when the size of an element is a power of two.
    A block that is written in the Native format is read back, through
    compression too.
    The pool's live buffers are aligned, disjoint and inside the pool, and its
    operations return and leave the data of other clients alone.  The device's
    hashes are those of the host and read no byte outside of the string.

    The hash tables of the server refine finite maps: every sequence of calls
    returns the answers of the map or the exception of the allocator, and after
    an exception the table is still one of its map; growth in place moves every
    element to where it is found; a two level table is the union of its 256
    tables, and holds the elements of the table it was made of; tables that are
    written are read back and merged.  The distinct counter represents the set of
    the values inserted and merged, exactly up to sixteen; large, it has the
    ranks, the counts and the zeros of the GPU's counter of the same values,
    whatever the schedule of its threads.  The pieces that an arena has given
    stay in it, apart from each other, with their bytes.

    Readers are specified by the relation [reads]: for every derived class
    that has the laws, and so for every cutting of the data into portions, the
    function maps the data ahead of the cursor to a result and the data that
    is left.  Writers are specified by [writes].  On this basis: round trips of
    variable length integers, integers in text, escaped, quoted, CSV, JSON and
    binary strings; every string reader returns or throws on every input;
    checksums do not depend on the sizes of buffers; a read after a seek gives
    the bytes of the file at the target; what is written to a compressed stream
    is read back from it, and a block that does not have its checksum is
    refused.

    Some theorems state what the code does where that is hardly meant: keys
    read from outside of the buffer with several chunks, lost
    values in [merge] of small sets, writes behind the string buffer, blocks
    lost by the pool, a limit that rewinds its source, flushes that corrupt
    strings, numbers that a format truncates, malformed text that is accepted,
    uninitialised numbers in an enlarged column, elements written behind the
    storage of an array, a null pointer where the stream
    of a GROUP BY is empty, a process that ends where an exception leaves the
    aggregation, buffers of the pool that shrink, memory trackers that stay charged after a refusal, a
    table that is read with no memory for its elements, an arena that copies
    a piece without end.

    ** Bounds

    Loops that are not structural take fuel.  Threads of a kernel have none:
    a schedule is any list, and the bounds on the turns of a thread
    ([8 * buckets_num + 8], 1060) are theorems.  [digits10] divides at most
    once and the digit loops run at most 20 times on 64-bit numbers; hash loops
    are bounded by the length of the string; readers by the length of the data.
    Operations on columns and blocks recurse over their data and need none; their
    offsets have 64 bits, and theorems ask that the strings of a column have
    less than 2^64 bytes together ([bounded]).
    Probing in a table takes as much fuel as the table has cells, which is
    enough because one of them is empty; the passes of a growth and iterations
    are bounded by the number of cells, a reader of elements by their number.
    A continued allocation in an arena takes three rounds at most for pieces
    up to the linear growth threshold; for larger ones the loop need not end.
    In each case a theorem says that the fuel is enough, or the result of the
    theorem excludes the outcome [NO_FUEL].

    ** Not modelled

    Floating point (the estimate of large counters, float text), timing and
    profiling output, the text of exception messages; memory that cannot be
    allocated for the arrays of columns; threads that cannot be started; device streams, which
    the host synchronises before it uses results; file system, socket, HTTP
    and AIO buffers, which are input and output; the rest of the database
    (parsers, interpreters, storages, functions), which is the unmodified host
    of the aggregation; the sorting of columns, which is the library's sort with
    collations, and columns of floating point numbers; the index of Native
    files; of the hash tables the text forms, the destructors of cells that have
    one, the lookup table grower and the CRC32 hash, which is a machine
    instruction.  Signed overflow, undefined in C++, is taken to wrap,
    as the comments of IO/ReadHelpers.h do.  The kernel and the CUDA runtime
    are parameters: classes [Device] and the results of [cudaMalloc]; so are the
    LZ4 and ZSTD libraries: classes [Codecs] and [CodecLaws]; so are the function
    log2 of the C library ([log2], with [exact_log2] where it matters), the
    fault injection of the memory tracker ([fault]), and contents of memory that
    the code does not initialise ([garbage]). *)

From stdpp Require Import base list gmap.
From Stdlib Require Import ZArith Lia.
From stdpp Require Import numbers.

#[local] Open Scope Z_scope.

(** Linear arithmetic with divisions and remainders by constants. *)
Ltac dlia := Z.div_mod_to_equations; lia.

(** ** Machine integers

    A w-bit unsigned integer is a [Z]; the operations that can leave the
    range are followed by a reduction modulo [2 ^ w]. *)

Definition wrap (w x : Z) : Z := x mod 2 ^ w.

Abbreviation u8 := (wrap 8).
Abbreviation u16 := (wrap 16).
Abbreviation u32 := (wrap 32).
Abbreviation u64 := (wrap 64).

Declare Scope word_scope.
Delimit Scope word_scope with word.
Notation "x +64 y" := (u64 (x + y)) (at level 50, left associativity) : word_scope.
Notation "x -64 y" := (u64 (x - y)) (at level 50, left associativity) : word_scope.
Notation "x *64 y" := (u64 (x * y)) (at level 40, left associativity) : word_scope.
Notation "x <<64 n" := (u64 (Z.shiftl x n)) (at level 30, no associativity) : word_scope.
Notation "x >>64 n" := (Z.shiftr x n) (at level 30, no associativity) : word_scope.
Notation "x ^64 y" := (Z.lxor x y) (at level 45, left associativity) : word_scope.
Notation "x |64 y" := (Z.lor x y) (at level 45, left associativity) : word_scope.
Notation "x +32 y" := (u32 (x + y)) (at level 50, left associativity) : word_scope.
Notation "x -32 y" := (u32 (x - y)) (at level 50, left associativity) : word_scope.
Notation "x *32 y" := (u32 (x * y)) (at level 40, left associativity) : word_scope.

(** Range of a w-bit unsigned value, as a decidable proposition. *)
Definition fits (w x : Z) : Prop := 0 <= x < 2 ^ w.

#[export] Instance fits_dec w x : Decision (fits w x).
Proof. unfold fits. apply _. Defined.

Create HintDb word discriminated.

Lemma wrap_fits w x : 0 <= w -> fits w (wrap w x).
Proof. intros. unfold fits, wrap. apply Z.mod_pos_bound. lia. Qed.

Lemma wrap_small w x : fits w x -> wrap w x = x.
Proof. intros. unfold wrap. by apply Z.mod_small. Qed.

Lemma wrap_wrap w x : 0 <= w -> wrap w (wrap w x) = wrap w x.
Proof. intros. by apply wrap_small, wrap_fits. Qed.

Lemma wrap_add_l w x y : wrap w (wrap w x + y) = wrap w (x + y).
Proof. unfold wrap. by rewrite Zplus_mod_idemp_l. Qed.

Lemma wrap_add_r w x y : wrap w (x + wrap w y) = wrap w (x + y).
Proof. unfold wrap. by rewrite Zplus_mod_idemp_r. Qed.

Lemma wrap_sub_l w x y : wrap w (wrap w x - y) = wrap w (x - y).
Proof. unfold wrap. by rewrite Zminus_mod_idemp_l. Qed.

Lemma fits_mono v w x : 0 <= v <= w -> fits v x -> fits w x.
Proof.
  unfold fits. intros ? ?. pose proof (Z.pow_le_mono_r 2 v w ltac:(lia) ltac:(lia)). lia.
Qed.

Lemma log2_lt_width w x : 0 < w -> 0 <= x < 2 ^ w -> Z.log2 x < w.
Proof.
  intros. destruct (Z.eq_dec x 0) as [->|]; [simpl; lia|].
  apply Z.log2_lt_pow2; lia.
Qed.

Lemma fits_lxor w x y : 0 <= w -> fits w x -> fits w y -> fits w (Z.lxor x y).
Proof.
  intros Hw Hx Hy. unfold fits in *. split.
  - apply Z.lxor_nonneg. lia.
  - destruct (Z.eq_dec w 0) as [->|].
    { change (2 ^ 0) with 1 in *. replace x with 0 by lia. replace y with 0 by lia.
      reflexivity. }
    destruct (Z.eq_dec (Z.lxor x y) 0) as [->|]; [lia|].
    assert (0 <= Z.lxor x y) by (apply Z.lxor_nonneg; lia).
    apply Z.log2_lt_pow2; [lia|].
    eapply Z.le_lt_trans; [apply Z.log2_lxor; lia|].
    apply Z.max_lub_lt; apply log2_lt_width; lia.
Qed.

Lemma fits_shiftr w x n : 0 <= n -> fits w x -> fits w (Z.shiftr x n).
Proof.
  unfold fits. intros. rewrite Z.shiftr_div_pow2 by lia.
  pose proof (Z.pow_pos_nonneg 2 n ltac:(lia) ltac:(lia)). split.
  - apply Z.div_pos; lia.
  - apply Z.div_lt_upper_bound; nia.
Qed.

(** A property of bytes, checked on all of them. *)
Lemma all_bytes (P : Z -> bool) x : forallb P (seqZ 0 256) = true -> fits 8 x -> P x = true.
Proof.
  unfold fits. intros H Hx. rewrite forallb_forall in H. apply H. apply list_elem_of_In, elem_of_seqZ. lia.
Qed.

#[export] Hint Resolve wrap_fits fits_lxor fits_shiftr : word.
#[export] Hint Extern 1 (_ <= _) => lia : word.

(** A disjoint bitwise or is a sum: [hi] starts where [lo] ends. *)
Lemma lor_disjoint_add lo hi n :
  0 <= n -> 0 <= lo < 2 ^ n -> Z.lor lo (hi * 2 ^ n) = lo + hi * 2 ^ n.
Proof.
  intros Hn Hlo.
  assert (Z.land lo (hi * 2 ^ n) = 0) as Hd.
  { apply Z.bits_inj'. intros i Hi. rewrite Z.land_spec, Z.bits_0.
    destruct (Z.lt_ge_cases i n).
    - by rewrite Z.mul_pow2_bits_low, andb_false_r by lia.
    - rewrite <- (Z.mod_small lo (2 ^ n)) by lia.
      by rewrite Z.mod_pow2_bits_high by lia. }
  by rewrite Z.add_nocarry_lxor, Z.lxor_lor.
Qed.

(** ** Errors: a C++ function that can throw returns [result]. *)

Inductive result (E A : Type) : Type :=
| Ok (a : A)
| Throw (e : E).
Arguments Ok {E A} a.
Arguments Throw {E A} e.

(** ** Arrays of machine integers

    [rd l i] and [wr l i v] are [l[i]] and [l[i] = v] for an index within the
    array; the C++ code has no defined behaviour elsewhere, and every theorem
    that uses them shows or assumes the index in range. *)

Definition rd (l : list Z) (i : Z) : Z := nth (Z.to_nat i) l 0.

Definition wr (l : list Z) (i v : Z) : list Z := <[Z.to_nat i := v]> l.

#[global] Arguments rd : simpl never.
#[global] Arguments wr : simpl never.
#[global] Arguments wrap : simpl never.

Lemma length_wr l i v : length (wr l i v) = length l.
Proof. apply length_insert. Qed.

Lemma rd_lookup l i v : 0 <= i -> l !! Z.to_nat i = Some v -> rd l i = v.
Proof. intros _ H. unfold rd. by apply nth_lookup_Some. Qed.

Lemma rd_wr_eq l i v : 0 <= i < Z.of_nat (length l) -> rd (wr l i v) i = v.
Proof.
  intros. apply rd_lookup; [lia|]. apply list_lookup_insert_eq. lia.
Qed.

Lemma rd_wr_ne l i j v : 0 <= i -> 0 <= j -> i <> j -> rd (wr l i v) j = rd l j.
Proof.
  intros. unfold rd, wr. rewrite !nth_lookup, list_lookup_insert_ne by lia. done.
Qed.

Lemma rd_wr l i j v :
  0 <= i < Z.of_nat (length l) -> 0 <= j ->
  rd (wr l i v) j = if decide (i = j) then v else rd l j.
Proof.
  intros. case_decide as E; [subst; by apply rd_wr_eq|]. apply rd_wr_ne; lia.
Qed.

Create Rewrite HintDb arrays.
#[export] Hint Rewrite length_wr : arrays.

(** ** Numbers in bytes, the lowest first *)

Fixpoint le_bytes (n : nat) (v : Z) : list Z :=
  match n with
  | 0%nat => []
  | S n => v mod 256 :: le_bytes n (v / 256)
  end.

Fixpoint le_value (l : list Z) : Z :=
  match l with
  | [] => 0
  | x :: l => x + 256 * le_value l
  end.

Lemma length_le_bytes n v : length (le_bytes n v) = n.
Proof. revert v. induction n as [|n IH]; intros v; cbn; [done|]. by rewrite IH. Qed.

Lemma le_value_bytes n v : 0 <= v < 256 ^ Z.of_nat n -> le_value (le_bytes n v) = v.
Proof.
  revert v. induction n as [|n IH]; intros v Hv; cbn [le_bytes le_value]; [cbn in Hv; lia|].
  rewrite IH; [dlia|]. rewrite Nat2Z.inj_succ, Z.pow_succ_r in Hv by lia. dlia.
Qed.

(** ** Sums *)

Fixpoint zsum (l : list Z) : Z :=
  match l with [] => 0 | x :: l' => x + zsum l' end.

Definition nonneg (l : list Z) : Prop := Forall (fun x => 0 <= x) l.

Lemma zsum_app l k : zsum (l ++ k) = zsum l + zsum k.
Proof. induction l; simpl; lia. Qed.

Lemma zsum_nonneg l : nonneg l -> 0 <= zsum l.
Proof. induction 1; simpl; lia. Qed.

Lemma zsum_submseteq l k : nonneg k -> l ⊆+ k -> zsum l <= zsum k.
Proof.
  intros Hk H. apply submseteq_Permutation in H as [l' E].
  assert (zsum k = zsum (l ++ l')) as ->.
  { clear Hk. induction E; simpl in *; lia. }
  rewrite zsum_app. assert (nonneg l') as Hl'.
  { unfold nonneg in Hk. rewrite E in Hk. by apply Forall_app in Hk as [_ ?]. }
  pose proof (zsum_nonneg l' Hl'). lia.
Qed.

Lemma zsum_point {A} `{EqDecision A} (f f' : A -> Z) (l : list A) x :
  NoDup l -> x ∈ l -> (forall y, y <> x -> f' y = f y) ->
  zsum (map f' l) = zsum (map f l) - f x + f' x.
Proof.
  intros Hnd Hx Hf. induction Hnd as [|y l Hy Hnd IH]; [by apply elem_of_nil in Hx|]. cbn [map zsum].
  apply elem_of_cons in Hx as [<-|Hx].
  - assert (map f' l = map f l) as ->; [|lia]. apply map_ext_in. intros z Hz. apply Hf. intros ->.
    apply Hy. by apply list_elem_of_In.
  - rewrite IH by done. rewrite (Hf y); [lia|]. by intros ->.
Qed.

Lemma zsum_insert {A} (f : A -> Z) (l : list A) i x y :
  l !! i = Some x -> zsum (map f (<[i := y]> l)) = zsum (map f l) - f x + f y.
Proof.
  revert i. induction l as [|z l IH]; intros [|i] H; cbn in *; [done|done| |].
  - injection H as ->. lia.
  - rewrite IH by done. lia.
Qed.

Lemma zsum_zero {A} (f : A -> Z) (l : list A) : (forall x, x ∈ l -> f x = 0) -> zsum (map f l) = 0.
Proof.
  induction l as [|x l IH]; intros H; [done|]. cbn. rewrite (H x), IH; [done| |by left].
  intros y Hy. apply H. by right.
Qed.

Lemma zsum_map_nonneg {A} (f : A -> Z) (l : list A) : (forall x, 0 <= f x) -> 0 <= zsum (map f l).
Proof. intros H. induction l as [|x l IH]; [done|]. cbn. specialize (H x). lia. Qed.

Lemma zsum_map_ge {A} (f : A -> Z) (l : list A) i x : (forall x, 0 <= f x) -> l !! i = Some x -> f x <= zsum (map f l).
Proof.
  intros H. revert i. induction l as [|y l IH]; intros [|i] Hi; cbn in *; [done|done| |].
  - injection Hi as ->. pose proof (zsum_map_nonneg f l H). lia.
  - specialize (IH i Hi). specialize (H y). lia.
Qed.

(** ** Interleavings of the threads of a kernel *)

(** A schedule: which thread moves, and whether its load is stale. *)
Definition schedule : Type := list (nat * bool).

(** The number of times thread [i] is scheduled. *)
Fixpoint turns (i : nat) (s : schedule) : nat :=
  match s with
  | [] => 0
  | (k, _) :: s' => if decide (k = i) then S (turns i s') else turns i s'
  end.

(** [n] rounds of [k] threads. *)
Definition round_robin (k n : nat) : schedule :=
  concat (replicate n (map (fun i => (i, false)) (seq 0 k))).

Lemma turns_app i s s' : turns i (s ++ s') = (turns i s + turns i s')%nat.
Proof. induction s as [|[k o] s IH]; [done|]. cbn. case_decide; rewrite IH; lia. Qed.

Lemma turns_round i k j : turns i (map (fun i => (i, false)) (seq j k)) = if decide (j <= i < j + k)%nat then 1%nat else 0%nat.
Proof.
  revert j. induction k as [|k IH]; intros j; cbn; [by rewrite decide_False by lia|]. rewrite IH.
  repeat case_decide; lia.
Qed.

Lemma turns_round_robin i k n : (i < k)%nat -> turns i (round_robin k n) = n.
Proof.
  intros Hi. unfold round_robin. induction n as [|n IH]; [done|]. cbn [replicate concat].
  rewrite turns_app, turns_round, IH, decide_True by lia. lia.
Qed.

(** A grid in which thread [i], for every [i] below [k], runs [f i]. *)
Definition par_for {S} (k : nat) (f : nat -> S -> S) (s : S) : S :=
  foldl (fun s i => f i s) s (seq 0 k).

Lemma par_for_S {S} k (f : nat -> S -> S) s : par_for (Datatypes.S k) f s = f k (par_for k f s).
Proof. unfold par_for. by rewrite seq_S, foldl_app. Qed.

Lemma par_for_wr k (f : nat -> Z) l :
  let l' := par_for k (fun i l => wr l (Z.of_nat i) (f i)) l in
  length l' = length l /\
  forall b, 0 <= b < Z.of_nat (length l) ->
    rd l' b = if decide (b < Z.of_nat k) then f (Z.to_nat b) else rd l b.
Proof.
  cbn zeta. induction k as [|k [IHl IH]].
  - split; [done|]. intros b Hb. by destruct (decide _); [lia|].
  - rewrite !par_for_S. split; [by rewrite length_wr|]. intros b Hb.
    destruct (decide (b = Z.of_nat k)) as [->|Hne].
    + rewrite rd_wr_eq by lia. rewrite Nat2Z.id. by destruct (decide _); [|lia].
    + rewrite rd_wr_ne, IH by lia. by do 2 destruct (decide _); try lia.
Qed.
