(* ===== verification/DeviceMemory.v ===== *)
(** * Device memory and unaligned string reads

    Byte-addressed memory, little-endian words, and the two readers that every
    string kernel is built from:
    - [cudaReadStringUnaligned64] of Common/Cuda/cudaReadUnaligned.cuh, which
      reads a string in 64-bit words using only aligned loads;
    - the string comparison loop of [kerAddData]
      (Common/HashTable/Cuda/CudaStringsHashTable.cu).

    The theorems say that the aligned reader returns exactly the bytes of the
    string, eight at a time and zero padded, whatever the alignment of the
    string, and that the comparison loop decides equality of the bytes. *)

From stdpp Require Import base list numbers.
From Stdlib Require Import ZArith Lia.
From S2P Require Import Prelude.

#[local] Open Scope Z_scope.
#[local] Open Scope word_scope.

(** ** Memory *)

(** The contents of an address space, a byte per address. *)
Definition memory : Type := Z -> Z.

Definition mem_ok (m : memory) : Prop := forall a, fits 8 (m a).

(** The [n] bytes from address [a] on. *)
Fixpoint bytes (m : memory) (a : Z) (n : nat) : list Z :=
  match n with
  | O => []
  | S n' => m a :: bytes m (a + 1) n'
  end.

(** The number a list of bytes denotes, least significant byte first. *)
Fixpoint le_word (l : list Z) : Z :=
  match l with
  | [] => 0
  | b :: l' => b + 2 ^ 8 * le_word l'
  end.

(** [*((const UInt64 * )a)]. *)
Definition load64 (m : memory) (a : Z) : Z := le_word (bytes m a 8).

Definition store8 (m : memory) (a v : Z) : memory :=
  fun x => if x =? a then v else m x.

Fixpoint store_le (n : nat) (m : memory) (a v : Z) : memory :=
  match n with
  | O => m
  | S n' => store_le n' (store8 m a (v mod 2 ^ 8)) (a + 1) (v / 2 ^ 8)
  end.

(** [*((UInt64 * )a) = v]. *)
Definition store64 (m : memory) (a v : Z) : memory := store_le 8 m a v.

(** The 64-bit words of a string: eight bytes each, the last zero padded. *)
Fixpoint words_aux (fuel : nat) (l : list Z) : list Z :=
  match fuel, l with
  | S fuel', _ :: _ => le_word (take 8 l) :: words_aux fuel' (drop 8 l)
  | _, _ => []
  end.

Definition words (l : list Z) : list Z := words_aux (length l) l.

(** ** The reader: Common/Cuda/cudaReadUnaligned.cuh *)

(** The three variables a caller passes by reference. *)
Record reader := Reader {
  is_first_read : bool;
  tmp_buf : Z;
  ptr_curr : Z
}.

(** [x & ~(uintptr_t(7))]. *)
Definition align_down (x : Z) : Z := Z.land x (u64 (Z.lnot 7)).

(** The left shift by 64 that happens when [ptr_curr] is aligned yields 0 on
    the device (PTX [shl.b64] clamps the amount), which is what the reduction
    modulo [2 ^ 64] gives here. *)
Definition cudaReadStringUnaligned64 (m : memory) (r : reader) (ptr_end : Z) : Z * reader :=
  let base := align_down (ptr_curr r) in
  let tmp := if is_first_read r then load64 m base else tmp_buf r in
  let res := tmp >>64 (8 * Z.land (ptr_curr r) 7) in
  let '(tmp, res) :=
    if negb (base =? align_down (ptr_end - 1)) then
      let tmp := load64 m (base + 8) in
      (tmp, res |64 (tmp <<64 (8 * (8 - Z.land (ptr_curr r) 7))))
    else (tmp, res) in
  let res :=
    if ptr_end - ptr_curr r <? 8 then
      Z.land res ((1 <<64 (8 * (ptr_end - ptr_curr r))) -64 1)
    else res in
  let curr := if ptr_curr r + 8 <? ptr_end then ptr_curr r + 8 else ptr_end in
  (res, Reader false tmp curr).

(** A reader positioned at the beginning of a string. *)
Definition reader_init (p : Z) : reader := Reader true 0 p.

(** ** The comparison loop of [kerAddData] *)

Fixpoint compare_loop (fuel : nat) (m : memory)
    (r : reader) (end_ : Z) (r_next : reader) (end_next : Z) (hit : bool) : option bool :=
  if ptr_curr r =? end_ then Some hit
  else match fuel with
  | O => None
  | S fuel' =>
      let '(v, r) := cudaReadStringUnaligned64 m r end_ in
      let '(v_next, r_next) := cudaReadStringUnaligned64 m r_next end_next in
      compare_loop fuel' m r end_ r_next end_next (if negb (v =? v_next) then false else hit)
  end.

(** [hit] after the loop that starts with [hit == true]; a string of [len]
    bytes takes at most [len / 8 + 1] iterations. *)
Definition compare_strings (m : memory) (p q : Z) (len : nat) : option bool :=
  compare_loop (S (len / 8)) m (reader_init p) (p + Z.of_nat len)
    (reader_init q) (q + Z.of_nat len) true.

(** ** Lemmas on bytes and words *)

Create HintDb bytes discriminated.

Lemma length_bytes m a n : length (bytes m a n) = n.
Proof. revert a. induction n; intros; simpl; auto. Qed.

Lemma bytes_app m a i j : bytes m a (i + j) = bytes m a i ++ bytes m (a + Z.of_nat i) j.
Proof.
  revert a. induction i; intros a; simpl; [f_equal; lia|].
  rewrite IHi. do 3 f_equal. lia.
Qed.

Lemma take_bytes m a i n : (i <= n)%nat -> take i (bytes m a n) = bytes m a i.
Proof.
  intros. replace n with (i + (n - i))%nat by lia.
  by rewrite bytes_app, take_app_length' by (by rewrite length_bytes).
Qed.

Lemma drop_bytes m a i n :
  (i <= n)%nat -> drop i (bytes m a n) = bytes m (a + Z.of_nat i) (n - i).
Proof.
  intros. replace n with (i + (n - i))%nat at 1 by lia.
  by rewrite bytes_app, drop_app_length' by (by rewrite length_bytes).
Qed.

Lemma lookup_bytes m a n i :
  (i < n)%nat -> bytes m a n !! i = Some (m (a + Z.of_nat i)).
Proof.
  revert a i. induction n as [|n IH]; intros a i Hi; [lia|].
  destruct i as [|i]; simpl; [do 2 f_equal; lia|].
  rewrite IH by lia. do 2 f_equal. lia.
Qed.

Lemma bytes_ext m m' a a' n :
  (forall i, (i < n)%nat -> m (a + Z.of_nat i) = m' (a' + Z.of_nat i)) ->
  bytes m a n = bytes m' a' n.
Proof.
  intros H. apply list_eq_same_length with (n := n); try apply length_bytes.
  intros i x y Hi. rewrite !lookup_bytes by done. intros [= <-] [= <-]. auto.
Qed.

Lemma bytes_ok m a n : mem_ok m -> Forall (fits 8) (bytes m a n).
Proof. intros Hm. revert a. induction n; intros; simpl; auto. Qed.

Lemma le_word_bound l :
  Forall (fits 8) l -> 0 <= le_word l < 2 ^ (8 * Z.of_nat (length l)).
Proof.
  induction 1 as [|b l Hb _ IH]; [simpl; lia|]. cbn [le_word length].
  replace (8 * Z.of_nat (S (length l))) with (8 + 8 * Z.of_nat (length l)) by lia.
  rewrite Z.pow_add_r by lia. unfold fits in *. nia.
Qed.

Lemma le_word_app l k :
  le_word (l ++ k) = le_word l + 2 ^ (8 * Z.of_nat (length l)) * le_word k.
Proof.
  induction l as [|b l IH]; [simpl; lia|]. cbn [le_word length app]. rewrite IH.
  replace (8 * Z.of_nat (S (length l))) with (8 + 8 * Z.of_nat (length l)) by lia.
  rewrite (Z.pow_add_r 2 8) by lia. lia.
Qed.

Lemma le_word_inj l k :
  Forall (fits 8) l -> Forall (fits 8) k -> length l = length k ->
  le_word l = le_word k -> l = k.
Proof.
  intros Hl. revert k. induction Hl as [|b l Hb Hl IH]; intros k Hk Hlen Heq.
  - by destruct k.
  - destruct k as [|c k]; [done|]. inversion Hk as [|? ? Hc Hk']; subst.
    cbn [le_word length] in *. unfold fits in Hb, Hc.
    assert (b = c /\ le_word l = le_word k) as [-> Hw] by lia.
    f_equal. apply IH; auto.
Qed.

#[export] Hint Resolve bytes_ok length_bytes : bytes.

Lemma load64_bound m a : mem_ok m -> fits 64 (load64 m a).
Proof.
  intros Hm. unfold load64, fits.
  pose proof (le_word_bound (bytes m a 8) ltac:(auto with bytes)) as H.
  by rewrite length_bytes in H.
Qed.

Lemma align_down_spec x : fits 64 x -> align_down x = x - x mod 8.
Proof.
  intros Hx. unfold align_down, wrap.
  rewrite <- (Z.land_ones (Z.lnot 7) 64) by lia.
  rewrite (Z.land_comm (Z.lnot 7)), Z.land_assoc, Z.land_ones, (Z.mod_small x) by (unfold fits in Hx; lia).
  change 7 with (Z.ones 3). rewrite <- Z.ldiff_land, Z.ldiff_ones_r by lia.
  rewrite Z.shiftl_mul_pow2, Z.shiftr_div_pow2 by lia. change (2 ^ 3) with 8.
  pose proof (Z.div_mod x 8). lia.
Qed.

Lemma land_7 x : Z.land x 7 = x mod 8.
Proof. change 7 with (Z.ones 3). by rewrite Z.land_ones. Qed.

Lemma load64_shiftr m a k :
  mem_ok m -> (k <= 8)%nat ->
  Z.shiftr (load64 m a) (8 * Z.of_nat k) = le_word (bytes m (a + Z.of_nat k) (8 - k)).
Proof.
  intros Hm Hk. unfold load64. replace 8%nat with (k + (8 - k))%nat at 1 by lia.
  rewrite bytes_app, le_word_app, length_bytes, Z.shiftr_div_pow2 by lia.
  pose proof (le_word_bound (bytes m a k) ltac:(auto with bytes)) as Hb.
  rewrite length_bytes in Hb.
  rewrite Z.add_comm, Z.mul_comm, Z.div_add_l, Z.div_small by lia. lia.
Qed.

Lemma load64_shiftl m a k :
  mem_ok m -> (k <= 8)%nat ->
  u64 (Z.shiftl (load64 m a) (8 * (8 - Z.of_nat k))) =
  le_word (bytes m a k) * 2 ^ (8 * Z.of_nat (8 - k)).
Proof.
  intros Hm Hk. unfold load64. replace 8%nat with (k + (8 - k))%nat at 1 by lia.
  rewrite bytes_app, le_word_app, length_bytes, Z.shiftl_mul_pow2 by lia.
  replace (8 * (8 - Z.of_nat k)) with (8 * Z.of_nat (8 - k)) by lia.
  pose proof (le_word_bound (bytes m a k) ltac:(auto with bytes)) as Hb.
  rewrite length_bytes in Hb. unfold wrap.
  assert (2 ^ 64 = 2 ^ (8 * Z.of_nat k) * 2 ^ (8 * Z.of_nat (8 - k))) as E.
  { rewrite <- Z.pow_add_r by lia. f_equal. lia. }
  pose proof (Z.pow_pos_nonneg 2 (8 * Z.of_nat (8 - k)) ltac:(lia) ltac:(lia)).
  rewrite Z.mul_add_distr_r.
  replace (2 ^ (8 * Z.of_nat k) * le_word (bytes m (a + Z.of_nat k) (8 - k)) * 2 ^ (8 * Z.of_nat (8 - k)))
    with (le_word (bytes m (a + Z.of_nat k) (8 - k)) * 2 ^ 64) by (rewrite E; ring).
  rewrite Z.mod_add by lia. apply Z.mod_small. rewrite E. nia.
Qed.

(** The two aligned words around a position joined into the word at it. *)
Lemma load64_join m c k :
  mem_ok m -> (k < 8)%nat ->
  Z.lor (le_word (bytes m c (8 - k)))
    (u64 (Z.shiftl (load64 m (c - Z.of_nat k + 8)) (8 * (8 - Z.of_nat k)))) =
  le_word (bytes m c 8).
Proof.
  intros Hm Hk. rewrite load64_shiftl by (done || lia).
  pose proof (le_word_bound (bytes m c (8 - k)) ltac:(auto with bytes)) as Hb.
  rewrite length_bytes in Hb. rewrite lor_disjoint_add by lia.
  pose proof (bytes_app m c (8 - k) k) as B. rewrite Nat.sub_add in B by lia.
  rewrite B, le_word_app, length_bytes.
  replace (c + Z.of_nat (8 - k)) with (c - Z.of_nat k + 8) by lia. lia.
Qed.

Lemma le_word_mask l n :
  Forall (fits 8) l -> (n <= length l)%nat -> (n < 8)%nat ->
  Z.land (le_word l) (u64 (u64 (Z.shiftl 1 (8 * Z.of_nat n)) - 1)) = le_word (take n l).
Proof.
  intros Hl Hn Hn8. rewrite Z.shiftl_mul_pow2, Z.mul_1_l by lia.
  pose proof (Z.pow_lt_mono_r 2 (8 * Z.of_nat n) 64 ltac:(lia) ltac:(lia) ltac:(lia)).
  pose proof (Z.pow_pos_nonneg 2 (8 * Z.of_nat n) ltac:(lia) ltac:(lia)).
  rewrite (wrap_small 64 (2 ^ _)), wrap_small by (unfold fits; lia).
  replace (2 ^ (8 * Z.of_nat n) - 1) with (Z.ones (8 * Z.of_nat n)) by (rewrite Z.ones_equiv; lia).
  rewrite Z.land_ones by lia. rewrite <- (take_drop n l) at 1.
  rewrite le_word_app, length_take_le by lia.
  pose proof (le_word_bound (take n l) ltac:(by apply Forall_take)) as Hb.
  rewrite length_take_le in Hb by lia.
  rewrite (Z.mul_comm (2 ^ _)), Z.mod_add by lia. by apply Z.mod_small.
Qed.

(** The reader's invariant: after the first read [tmp_buf] caches the aligned
    word that holds the current byte. *)
Definition reader_ok (m : memory) (r : reader) (e : Z) : Prop :=
  0 <= ptr_curr r <= e /\ e <= 2 ^ 64 /\
  (is_first_read r = false -> ptr_curr r < e -> tmp_buf r = load64 m (align_down (ptr_curr r))).

(** The bytes still to be read. *)
Definition remaining (m : memory) (r : reader) (e : Z) : list Z :=
  bytes m (ptr_curr r) (Z.to_nat (e - ptr_curr r)).

Lemma reader_init_ok m p n :
  0 <= p -> p + Z.of_nat n <= 2 ^ 64 -> reader_ok m (reader_init p) (p + Z.of_nat n).
Proof. intros. unfold reader_ok, reader_init. simpl. split; [lia|split; [lia|discriminate]]. Qed.

Lemma remaining_init m p n : remaining m (reader_init p) (p + Z.of_nat n) = bytes m p n.
Proof. unfold remaining, reader_init. simpl. f_equal. lia. Qed.

(** The value of a read: the next (at most) eight bytes as a word. *)
Lemma read_value m r e :
  mem_ok m -> reader_ok m r e -> ptr_curr r < e ->
  (cudaReadStringUnaligned64 m r e).1 = le_word (take 8 (remaining m r e)).
Proof.
  intros Hm (Hc & He & Htmp) Hlt. destruct r as [fr tmp c]. simpl in *.
  assert (fits 64 c) as Fc by (unfold fits; lia).
  assert (fits 64 (e - 1)) as Fe by (unfold fits; lia).
  unfold cudaReadStringUnaligned64, remaining. cbn [is_first_read tmp_buf ptr_curr].
  replace (if fr then load64 m (align_down c) else tmp) with (load64 m (align_down c))
    by (destruct fr; [done|symmetry; auto]).
  rewrite !align_down_spec, !land_7 by done.
  set (n := Z.to_nat (e - c)). set (k := Z.to_nat (c mod 8)).
  assert (e - c = Z.of_nat n) as En by lia.
  assert (c mod 8 = Z.of_nat k /\ (k < 8)%nat) as [Ek Hk]
    by (pose proof (Z.mod_pos_bound c 8); lia).
  rewrite Ek, En, load64_shiftr by (done || lia).
  replace (c - Z.of_nat k + Z.of_nat k) with c by lia.
  pose proof (Z.mod_pos_bound (e - 1) 8 ltac:(lia)).
  pose proof (Z.div_mod (e - 1) 8 ltac:(lia)). pose proof (Z.div_mod c 8 ltac:(lia)).
  destruct (Z.eqb_spec (c - Z.of_nat k) (e - 1 - (e - 1) mod 8)) as [Heq|Hne]; cbn [negb fst];
    [|rewrite load64_join by done]; destruct (Z.ltb_spec (Z.of_nat n) 8);
    rewrite ?le_word_mask by (rewrite ?length_bytes; auto with bytes; lia).
  all: f_equal; rewrite ?take_bytes by lia.
  - rewrite take_ge; [done|rewrite length_bytes; lia].
  - f_equal. lia.
  - rewrite take_ge; [done|rewrite length_bytes; lia].
  - done.
Qed.

Lemma read_next m r e :
  mem_ok m -> reader_ok m r e -> ptr_curr r < e ->
  let r' := (cudaReadStringUnaligned64 m r e).2 in
  reader_ok m r' e /\ remaining m r' e = drop 8 (remaining m r e) /\
  ptr_curr r' = Z.min (ptr_curr r + 8) e.
Proof.
  intros Hm (Hc & He & Htmp) Hlt. destruct r as [fr tmp c]. simpl in *.
  assert (fits 64 c) as Fc by (unfold fits; lia).
  assert (fits 64 (e - 1)) as Fe by (unfold fits; lia).
  unfold cudaReadStringUnaligned64, remaining, reader_ok.
  cbn [is_first_read tmp_buf ptr_curr].
  destruct (Z.eqb_spec (align_down c) (align_down (e - 1))) as [Heq|Hne];
    cbn [negb snd is_first_read tmp_buf ptr_curr];
    destruct (Z.ltb_spec (c + 8) e); split_and!; try lia.
  all: try (rewrite drop_bytes by lia; repeat f_equal; lia).
  all: try (rewrite drop_ge by (rewrite length_bytes; lia);
            replace (Z.to_nat (e - e)) with 0%nat by lia; done).
  - rewrite !align_down_spec in Heq by done.
    pose proof (Z.mod_pos_bound (e - 1) 8). pose proof (Z.mod_pos_bound c 8). lia.
  - intros _ _. f_equal. rewrite !align_down_spec by (unfold fits in *; lia).
    replace (c + 8) with (c + 1 * 8) by lia. rewrite Z.mod_add by lia. lia.
Qed.

(** The comparison loop decides equality of what is left to read. *)
Lemma compare_loop_spec m e1 e2 fuel r1 r2 hit :
  mem_ok m -> reader_ok m r1 e1 -> reader_ok m r2 e2 ->
  e1 - ptr_curr r1 = e2 - ptr_curr r2 -> e1 - ptr_curr r1 <= 8 * Z.of_nat fuel ->
  compare_loop fuel m r1 e1 r2 e2 hit =
    Some (hit && bool_decide (remaining m r1 e1 = remaining m r2 e2)).
Proof.
  intros Hm. revert r1 r2 hit. induction fuel as [|fuel IH]; intros r1 r2 hit H1 H2 Hd Hf;
    simpl; (destruct (Z.eqb_spec (ptr_curr r1) e1) as [He|Hne];
      [unfold remaining; rewrite He; replace (Z.to_nat (e1 - e1)) with 0%nat by lia;
       replace (Z.to_nat (e2 - _)) with 0%nat by lia; simpl;
       by rewrite andb_true_r|]);
    assert (ptr_curr r1 < e1) by (destruct H1; lia); [lia|].
  assert (ptr_curr r2 < e2) by lia.
  pose proof (read_value m r1 e1 Hm H1 ltac:(lia)) as V1.
  pose proof (read_value m r2 e2 Hm H2 ltac:(lia)) as V2.
  pose proof (read_next m r1 e1 Hm H1 ltac:(lia)) as (N1 & R1 & P1).
  pose proof (read_next m r2 e2 Hm H2 ltac:(lia)) as (N2 & R2 & P2).
  destruct (cudaReadStringUnaligned64 m r1 e1) as [v1 r1'].
  destruct (cudaReadStringUnaligned64 m r2 e2) as [v2 r2']. simpl in *. subst v1 v2.
  rewrite IH by (done || lia). rewrite R1, R2. f_equal.
  set (l1 := remaining m r1 e1) in *. set (l2 := remaining m r2 e2) in *.
  assert (length l1 = length l2) as Hlen by (unfold l1, l2, remaining; rewrite !length_bytes; lia).
  assert (Forall (fits 8) l1 /\ Forall (fits 8) l2) as [F1 F2]
    by (unfold l1, l2, remaining; auto with bytes).
  destruct (Z.eqb_spec (le_word (take 8 l1)) (le_word (take 8 l2))) as [E|E]; simpl.
  - f_equal. apply bool_decide_ext. split; [|by intros ->].
    intros Hdrop. rewrite <- (take_drop 8 l1), <- (take_drop 8 l2). f_equal; [|done].
    apply le_word_inj; auto using Forall_take. by rewrite !length_take, Hlen.
  - rewrite (bool_decide_eq_false_2 (l1 = l2)), andb_false_r; [done|]. by intros ->.
Qed.

Lemma compare_strings_spec m p q len :
  mem_ok m -> 0 <= p -> p + Z.of_nat len <= 2 ^ 64 -> 0 <= q -> q + Z.of_nat len <= 2 ^ 64 ->
  compare_strings m p q len = Some (bool_decide (bytes m p len = bytes m q len)).
Proof.
  intros. unfold compare_strings.
  rewrite compare_loop_spec, !remaining_init; auto using reader_init_ok; [simpl; lia|].
  cbn [reader_init ptr_curr].
  pose proof (Nat.div_mod_eq len 8). pose proof (Nat.mod_upper_bound len 8 ltac:(lia)). lia.
Qed.

(** ** Storing words *)

Lemma store_le_outside k m p v x :
  x < p \/ p + Z.of_nat k <= x -> store_le k m p v x = m x.
Proof.
  revert m p v. induction k as [|k IH]; intros m p v Hx; [done|]. cbn [store_le].
  rewrite IH by lia. unfold store8. destruct (Z.eqb_spec x p); [lia|done].
Qed.

Lemma store_le_inside k m p v i :
  (i < k)%nat -> store_le k m p v (p + Z.of_nat i) = (v / 2 ^ (8 * Z.of_nat i)) mod 2 ^ 8.
Proof.
  revert m p v i. induction k as [|k IH]; intros m p v i Hi; [lia|]. cbn [store_le].
  destruct i as [|i].
  - rewrite store_le_outside by lia. unfold store8. rewrite Z.add_0_r, Z.eqb_refl.
    by rewrite Z.mul_0_r, Z.pow_0_r, Z.div_1_r.
  - replace (p + Z.of_nat (S i)) with (p + 1 + Z.of_nat i) by lia. rewrite IH by lia.
    rewrite Z.div_div by lia. rewrite <- Z.pow_add_r by lia. do 3 f_equal. lia.
Qed.

Lemma store64_ok m p v : mem_ok m -> mem_ok (store64 m p v).
Proof.
  intros Hm x. unfold store64.
  destruct (decide (x < p \/ p + 8 <= x)) as [Ho|Hi]; [by rewrite store_le_outside|].
  replace x with (p + Z.of_nat (Z.to_nat (x - p))) by lia. rewrite store_le_inside by lia.
  apply wrap_fits. lia.
Qed.

Lemma le_word_byte l i b :
  Forall (fits 8) l -> l !! i = Some b -> (le_word l / 2 ^ (8 * Z.of_nat i)) mod 2 ^ 8 = b.
Proof.
  intros Hl Hi. pose proof (take_drop_middle l i b Hi) as E. rewrite <- E, le_word_app.
  pose proof (lookup_lt_Some _ _ _ Hi) as Hlt. rewrite length_take_le by lia.
  pose proof (le_word_bound (take i l) ltac:(by apply Forall_take)) as Hb.
  rewrite length_take_le in Hb by lia.
  rewrite Z.add_comm, Z.mul_comm, Z.div_add_l, (Z.div_small (le_word (take i l))) by lia.
  cbn [le_word]. rewrite Z.add_0_r, Z.mul_comm, Z.mod_add by lia.
  apply Z.mod_small. rewrite Forall_lookup in Hl. exact (Hl i b Hi).
Qed.

Lemma store64_bytes m p l :
  Forall (fits 8) l -> (length l <= 8)%nat -> bytes (store64 m p (le_word l)) p (length l) = l.
Proof.
  intros Hl H8. apply list_eq_same_length with (n := length l); [done|apply length_bytes|].
  intros i x y Hi. rewrite lookup_bytes by done. unfold store64.
  rewrite store_le_inside by lia. intros [= <-] Hy. by apply le_word_byte.
Qed.

Lemma bytes_agree m m' p k :
  (forall x, p <= x < p + Z.of_nat k -> m' x = m x) -> bytes m' p k = bytes m p k.
Proof. intros H. apply bytes_ext. intros i Hi. apply H. lia. Qed.

Lemma load64_agree m m' a :
  (forall x, a <= x < a + 8 -> m' x = m x) -> load64 m' a = load64 m a.
Proof. intros H. unfold load64. f_equal. apply bytes_ext. intros i Hi. apply H. lia. Qed.

Lemma store64_outside m p v x : x < p \/ p + 8 <= x -> store64 m p v x = m x.
Proof. intros H. apply store_le_outside. lia. Qed.

Lemma load64_store64_ne m p q v : p + 8 <= q \/ q + 8 <= p -> load64 (store64 m p v) q = load64 m q.
Proof. intros H. apply load64_agree. intros x Hx. apply store64_outside. lia. Qed.

Lemma le_word_of_bytes m a k v :
  (forall i, (i < k)%nat -> m (a + Z.of_nat i) = (v / 2 ^ (8 * Z.of_nat i)) mod 2 ^ 8) ->
  le_word (bytes m a k) = v mod 2 ^ (8 * Z.of_nat k).
Proof.
  revert a v. induction k as [|k IH]; intros a v H; [cbn; symmetry; apply Z.mod_1_r|]. cbn [bytes le_word].
  rewrite (IH (a + 1) (v / 2 ^ 8)).
  - pose proof (H 0%nat ltac:(lia)) as H0. rewrite Z.add_0_r, Z.mul_0_r, Z.pow_0_r, Z.div_1_r in H0. rewrite H0.
    replace (8 * Z.of_nat (S k)) with (8 + 8 * Z.of_nat k) by lia. rewrite Z.pow_add_r by lia.
    pose proof (Z.pow_pos_nonneg 2 (8 * Z.of_nat k) ltac:(lia) ltac:(lia)).
    rewrite Z.rem_mul_r by lia. lia.
  - intros i Hi. replace (a + 1 + Z.of_nat i) with (a + Z.of_nat (S i)) by lia. rewrite H by lia.
    rewrite Z.div_div by lia. rewrite <- Z.pow_add_r by lia. do 3 f_equal. lia.
Qed.

Lemma load64_store64_eq m p v : fits 64 v -> load64 (store64 m p v) p = v.
Proof.
  intros Hv. unfold load64. rewrite (le_word_of_bytes _ p 8 v); [by apply Z.mod_small|].
  intros i Hi. apply store_le_inside. lia.
Qed.

Lemma store8_outside m p v x : x <> p -> store8 m p v x = m x.
Proof. intros H. unfold store8. by destruct (Z.eqb_spec x p). Qed.

(** ** What the reader does *)

(** [memcpy] between regions that do not overlap. *)
Definition memcpy (m : memory) (dst src n : Z) : memory :=
  fun x => if (dst <=? x) && (x <? dst + n) then m (src + (x - dst)) else m x.

Lemma memcpy_inside m dst src n x : dst <= x < dst + n -> memcpy m dst src n x = m (src + (x - dst)).
Proof. intros H. unfold memcpy. destruct (Z.leb_spec dst x), (Z.ltb_spec x (dst + n)); lia || done. Qed.

Lemma memcpy_outside m dst src n x : x < dst \/ dst + n <= x -> memcpy m dst src n x = m x.
Proof. intros H. unfold memcpy. destruct (Z.leb_spec dst x), (Z.ltb_spec x (dst + n)); lia || done. Qed.

Lemma memcpy_ok m dst src n : mem_ok m -> mem_ok (memcpy m dst src n).
Proof. intros H x. unfold memcpy. destruct (_ && _); apply H. Qed.

(** A read of [cudaReadStringUnaligned64] at any alignment returns the next
    eight bytes of the string, or the fewer that are left padded with zeros, as
    a little-endian word; it advances the reader over exactly these bytes and
    leaves it ready for the next read; and it loads nothing but aligned words
    that hold a byte of the string, so memory around the string is irrelevant. *)
Theorem cudaReadStringUnaligned64_correct m r e :
  mem_ok m -> reader_ok m r e -> ptr_curr r < e ->
  let '(v, r') := cudaReadStringUnaligned64 m r e in
  v = le_word (take 8 (remaining m r e)) /\
  reader_ok m r' e /\ remaining m r' e = drop 8 (remaining m r e) /\
  (forall m', (forall x, ptr_curr r - ptr_curr r mod 8 <= x < e - 1 - (e - 1) mod 8 + 8 -> m' x = m x) ->
     cudaReadStringUnaligned64 m' r e = (v, r')).
Proof.
  intros Hm Hr Hlt. pose proof (read_value m r e Hm Hr Hlt) as V.
  pose proof (read_next m r e Hm Hr Hlt) as (N & R & _).
  destruct (cudaReadStringUnaligned64 m r e) as [v r'] eqn:E. cbn [fst snd] in *.
  split_and!; auto. intros m' Hag. rewrite <- E. destruct Hr as (Hc & He & _).
  unfold cudaReadStringUnaligned64. rewrite !align_down_spec by (unfold fits; lia).
  rewrite (load64_agree m m' (ptr_curr r - ptr_curr r mod 8)) by (intros x Hx; apply Hag; dlia).
  destruct (Z.eqb_spec (ptr_curr r - ptr_curr r mod 8) (e - 1 - (e - 1) mod 8)) as [|Hne]; [done|]. cbn [negb].
  rewrite (load64_agree m m' (ptr_curr r - ptr_curr r mod 8 + 8)); [done|]. intros x Hx. apply Hag. dlia.
Qed.

Lemma cudaReadStringUnaligned64_correct_witness :
  let m := fun x => if x =? 5 then 7 else if x =? 6 then 9 else 1 in
  let '(v, r') := cudaReadStringUnaligned64 m (reader_init 5) 7 in
  v = 2311 /\ ptr_curr r' = 7.
Proof.
  cbv zeta. pose proof (cudaReadStringUnaligned64_correct
    (fun x => if x =? 5 then 7 else if x =? 6 then 9 else 1) (reader_init 5) 7) as T.
  destruct (cudaReadStringUnaligned64 _ _ _) as [v r'] eqn:E.
  destruct T as (V & _).
  - intros x. destruct (x =? 5), (x =? 6); unfold fits; lia.
  - apply (reader_init_ok _ 5 2); lia.
  - cbn. lia.
  - split; [rewrite V; vm_compute; reflexivity|].
    symmetry. exact (f_equal (fun p => ptr_curr p.2) E).
Defined.
