(* ===== verification/MurmurHash.v ===== *)
(** * The device string hash: MurmurHash64 over unaligned strings

    [cudaMurmurHash64] (Common/Cuda/cudaMurmurHash64.cuh), the kernel
    [kerCalcHash] and [cudaCalcMurmurHash64] (Common/Cuda/cudaCalcMurmurHash64.cu)
    and the 64 to 32 bit mixer [cudaIntHash32] (Common/Cuda/CudaIntHash32.h)
    with its host counterpart [intHash32] (Common/HashTable/Hash.h).

    The device hash is shown equal to a definition on the bytes of the string,
    so it does not depend on where the string lies or on what surrounds it. *)

From stdpp Require Import base list numbers.
From Stdlib Require Import ZArith Lia.
From S2P Require Import Prelude DeviceMemory.

#[local] Open Scope Z_scope.
#[local] Open Scope word_scope.

Definition murmur_m : Z := 0xc6a4a7935bd1e995.
Definition murmur_r : Z := 47.

(** [k *= m; k ^= k >> r; k *= m;] *)
Definition murmur_mix (k : Z) : Z :=
  let k := k *64 murmur_m in
  let k := k ^64 (k >>64 murmur_r) in
  k *64 murmur_m.

(** [h ^= h >> r; h *= m; h ^= h >> r;] *)
Definition murmur_final (h : Z) : Z :=
  let h := h ^64 (h >>64 murmur_r) in
  let h := h *64 murmur_m in
  h ^64 (h >>64 murmur_r).

Fixpoint murmur_loop (fuel : nat) (m : memory) (r : reader) (end_ h : Z) : option Z :=
  if ptr_curr r =? end_ then Some h
  else match fuel with
  | O => None
  | S fuel' =>
      let is_complete_uint64 := 8 <=? end_ - ptr_curr r in
      let '(k, r) := cudaReadStringUnaligned64 m r end_ in
      let k := if is_complete_uint64 then murmur_mix k else k in
      murmur_loop fuel' m r end_ ((h ^64 k) *64 murmur_m)
  end.

(** [len * m] multiplies a [UInt32] by a [UInt64]; [seed] is 32 bits wide. *)
Definition cudaMurmurHash64 (m : memory) (s : Z) (len : nat) (seed : Z) : option Z :=
  let h := seed ^64 (Z.of_nat len *64 murmur_m) in
  match murmur_loop (S (len / 8)) m (reader_init s) (s + Z.of_nat len) h with
  | Some h => Some (murmur_final h)
  | None => None
  end.

(** ** The kernel [kerCalcHash] and its launcher *)

(** One thread: [interpret_as_lengths == false] drops the terminating zero of
    the string, and the all-ones value is replaced by zero. *)
Definition kerCalcHash (m : memory) (arr : Z) (begs lens : list Z) (interpret_as_lengths : bool)
    (seed : Z) (i : nat) : option Z :=
  match lens !! i, begs !! i with
  | Some len, Some beg =>
      let len := if negb interpret_as_lengths then len -32 1 else len in
      match cudaMurmurHash64 m (arr + beg) (Z.to_nat len) seed with
      | Some h => Some (if h =? 0xFFFFFFFFFFFFFFFF then 0 else h)
      | None => None
      end
  | _, _ => None
  end.

(** The grid of [(str_num / 256) + 1] blocks of 256 threads runs one thread for
    every index below [str_num]; each writes its own cell of [res_hash]. *)
Definition cudaCalcMurmurHash64 (str_num : nat) (m : memory) (buf : Z) (interpret_as_lengths : bool)
    (lens offsets : list Z) (seed : Z) : option (list Z) :=
  mapM (kerCalcHash m buf offsets lens interpret_as_lengths seed) (seq 0 str_num).

(** ** The 64 to 32 bit mixers *)

Definition cudaIntHash32 (salt key : Z) : Z :=
  let key := key ^64 salt in
  let key := (u64 (Z.lnot key)) +64 (key <<64 18) in
  let key := key ^64 ((key >>64 31) |64 (key <<64 33)) in
  let key := key *64 21 in
  let key := key ^64 ((key >>64 11) |64 (key <<64 53)) in
  let key := key +64 (key <<64 6) in
  let key := key ^64 ((key >>64 22) |64 (key <<64 42)) in
  u32 key.

(** The host version, [intHash32] of Common/HashTable/Hash.h. *)
Definition intHash32 (salt key : Z) : Z :=
  let key := key ^64 salt in
  let key := (u64 (Z.lnot key)) +64 (key <<64 18) in
  let key := key ^64 ((key >>64 31) |64 (key <<64 33)) in
  let key := key *64 21 in
  let key := key ^64 ((key >>64 11) |64 (key <<64 53)) in
  let key := key +64 (key <<64 6) in
  let key := key ^64 ((key >>64 22) |64 (key <<64 42)) in
  u32 key.

(** ** The hash of a byte string *)

Fixpoint murmur_body (fuel : nat) (l : list Z) (h : Z) : Z :=
  match fuel, l with
  | S fuel', _ :: _ =>
      let k := le_word (take 8 l) in
      let k := if bool_decide (8 <= length l)%nat then murmur_mix k else k in
      murmur_body fuel' (drop 8 l) ((h ^64 k) *64 murmur_m)
  | _, _ => h
  end.

Definition murmur64A (l : list Z) (seed : Z) : Z :=
  murmur_final
    (murmur_body (length l) l (seed ^64 (Z.of_nat (length l) *64 murmur_m))).

(** ** Lemmas *)

Lemma murmur_body_fuel f1 f2 l h :
  (length l <= f1)%nat -> (length l <= f2)%nat -> murmur_body f1 l h = murmur_body f2 l h.
Proof.
  revert f2 l h. induction f1 as [|f1 IH]; intros f2 l h H1 H2.
  - destruct l; [by destruct f2|simpl in H1; lia].
  - destruct l as [|b l]; [by destruct f2|]. destruct f2 as [|f2]; [simpl in H2; lia|].
    cbn [murmur_body]. apply IH; rewrite length_drop; simpl in *; lia.
Qed.

Lemma murmur_loop_spec m e fuel r h :
  mem_ok m -> reader_ok m r e -> e - ptr_curr r <= 8 * Z.of_nat fuel ->
  murmur_loop fuel m r e h =
    Some (murmur_body (length (remaining m r e)) (remaining m r e) h).
Proof.
  intros Hm. revert r h. induction fuel as [|fuel IH]; intros r h Hr Hf; cbn [murmur_loop];
    (destruct (Z.eqb_spec (ptr_curr r) e) as [He|Hne];
      [unfold remaining; rewrite He; by replace (Z.to_nat (e - e)) with 0%nat by lia|]);
    assert (ptr_curr r < e) by (destruct Hr; lia); [lia|].
  pose proof (read_value m r e Hm Hr ltac:(lia)) as V.
  pose proof (read_next m r e Hm Hr ltac:(lia)) as (N & R & P).
  destruct (cudaReadStringUnaligned64 m r e) as [v r']. simpl in *. subst v.
  rewrite IH by (done || lia). rewrite R.
  assert (length (remaining m r e) = Z.to_nat (e - ptr_curr r)) as L by apply length_bytes.
  destruct (remaining m r e) as [|b l] eqn:E; [simpl in L; lia|].
  rewrite <- E in *. clear E.
  destruct (length (remaining m r e)) as [|n] eqn:E; [lia|].
  replace (murmur_body (S n) (remaining m r e) h) with
    (murmur_body n (drop 8 (remaining m r e))
       ((h ^64 (if bool_decide (8 <= length (remaining m r e))%nat
                then murmur_mix (le_word (take 8 (remaining m r e)))
                else le_word (take 8 (remaining m r e)))) *64 murmur_m)).
  2: { by destruct (remaining m r e). }
  f_equal. rewrite (murmur_body_fuel _ n) by (rewrite ?length_drop; lia). do 4 f_equal.
  destruct (Z.leb_spec 8 (e - ptr_curr r)), (bool_decide_reflect (8 <= length (remaining m r e))%nat);
    done || lia.
Qed.

Lemma cudaMurmurHash64_spec m s len seed :
  mem_ok m -> 0 <= s -> s + Z.of_nat len <= 2 ^ 64 ->
  cudaMurmurHash64 m s len seed = Some (murmur64A (bytes m s len) seed).
Proof.
  intros Hm Hs He. unfold cudaMurmurHash64, murmur64A.
  rewrite murmur_loop_spec, remaining_init, length_bytes; auto using reader_init_ok.
  cbn [reader_init ptr_curr].
  pose proof (Nat.div_mod_eq len 8). pose proof (Nat.mod_upper_bound len 8 ltac:(lia)). lia.
Qed.

Lemma murmur64A_fits l seed : fits 64 (murmur64A l seed).
Proof. unfold murmur64A, murmur_final, murmur_r. auto 10 with word. Qed.

(** ** The launcher *)

(** The bytes of row [i]: without the terminating zero when the third array
    holds the distances between offsets. *)
Definition hash_len (interpret_as_lengths : bool) (len : Z) : Z :=
  if interpret_as_lengths then len else len - 1.

Definition row_readable (buf : Z) (flag : bool) (lens offsets : list Z) (i : nat) : Prop :=
  exists len beg, lens !! i = Some len /\ offsets !! i = Some beg /\
    0 <= hash_len flag len < 2 ^ 32 /\ 0 <= buf + beg /\ buf + beg + hash_len flag len <= 2 ^ 64.

Definition row_bytes (m : memory) (buf : Z) (flag : bool) (lens offsets : list Z) (i : nat) : list Z :=
  bytes m (buf + rd offsets (Z.of_nat i)) (Z.to_nat (hash_len flag (rd lens (Z.of_nat i)))).

Lemma kerCalcHash_spec m buf flag lens offsets seed i :
  mem_ok m -> row_readable buf flag lens offsets i ->
  kerCalcHash m buf offsets lens flag seed i =
  Some (let h := murmur64A (row_bytes m buf flag lens offsets i) seed in
        if h =? 2 ^ 64 - 1 then 0 else h).
Proof.
  intros Hm (len & beg & El & Eb & Hl & Hp & He). unfold kerCalcHash, row_bytes. rewrite El, Eb.
  rewrite (rd_lookup lens _ len), (rd_lookup offsets _ beg) by (rewrite ?Nat2Z.id; done || lia).
  assert ((if negb flag then len -32 1 else len) = hash_len flag len) as ->.
  { unfold hash_len in *. destruct flag; [done|]. cbn. by apply wrap_small. }
  by rewrite cudaMurmurHash64_spec by (done || lia).
Qed.

(** [cudaCalcMurmurHash64] hashes every row: when all rows lie in memory
    it terminates with one value per row, the MurmurHash64A of exactly the
    row's bytes (in particular rows with equal bytes get equal hashes, wherever
    they lie), with the all-ones value replaced by zero. *)
Theorem cudaCalcMurmurHash64_rows str_num m buf flag lens offsets seed :
  mem_ok m -> (forall i, (i < str_num)%nat -> row_readable buf flag lens offsets i) ->
  exists res, cudaCalcMurmurHash64 str_num m buf flag lens offsets seed = Some res /\
    length res = str_num /\
    forall i, (i < str_num)%nat ->
      let h := murmur64A (row_bytes m buf flag lens offsets i) seed in
      res !! i = Some (if h =? 2 ^ 64 - 1 then 0 else h).
Proof.
  intros Hm Hr. set (f i := let h := murmur64A (row_bytes m buf flag lens offsets i) seed in
                            if h =? 2 ^ 64 - 1 then 0 else h).
  exists (map f (seq 0 str_num)). split_and!.
  - unfold cudaCalcMurmurHash64. apply mapM_Some, Forall2_fmap_r, Forall_Forall2_diag, Forall_seq.
    intros i Hi. apply kerCalcHash_spec; [done|]. apply Hr. lia.
  - by rewrite length_map, length_seq.
  - intros i Hi h. by rewrite list_lookup_fmap, lookup_seq_lt.
Qed.

Lemma cudaCalcMurmurHash64_rows_witness :
  exists res, cudaCalcMurmurHash64 2 (fun x => x mod 256) 1024 false [3; 6] [0; 256] 0 = Some res /\
    length res = 2%nat.
Proof.
  destruct (cudaCalcMurmurHash64_rows 2 (fun x => x mod 256) 1024 false [3; 6] [0; 256] 0)
    as (res & E & L & _).
  - intros x. apply Z.mod_pos_bound. lia.
  - intros [|[|i]] Hi; [..|lia]; do 2 eexists; (split; [reflexivity|]); (split; [reflexivity|]); cbn; lia.
  - exists res. split; [exact E|exact L].
Defined.
