(* ===== verification/AddDataKernel.v ===== *)
(** * The insertion kernel of the GPU string hash table

    [kerAddData] of Common/HashTable/Cuda/CudaStringsHashTable.cu: one thread
    per row finds or claims, by linear probing and three compare-and-swaps, the
    bucket of its string.  The kernel is modelled at the granularity of its
    accesses to the shared arrays: a thread is a program counter with its
    registers, a step of the grid executes one access of one thread, and a
    schedule is any sequence of thread numbers.

    Plain (non atomic) loads of the shared arrays may in addition be stale: a
    step carries a flag with which a load returns the value the cell had when
    the kernel was launched.  Compare-and-swaps always see the current value.

    Shown for every schedule: cells are written once and never change
    afterwards; every thread terminates within [8 * buckets_num + 8] of its own
    steps whatever the others do; when all have terminated, rows get the same
    bucket exactly when their strings are equal, rows whose string was in the
    table get its old bucket, and the table is again well formed. *)

From stdpp Require Import base list numbers.
From Stdlib Require Import ZArith Lia.
From S2P Require Import Prelude DeviceMemory MurmurHash.

#[local] Open Scope Z_scope.
#[local] Open Scope word_scope.

(** ** Data *)

Definition DBMS_CUDA_EMPTY_HASH_VAL : Z := 0.
Definition DBMS_CUDA_EMPTY_LEN_VAL : Z := 0.
Definition nullptr : Z := 0.

(** The arrays of the table that the kernel shares. *)
Record table := Table {
  hashes : list Z;
  table_lens : list Z;
  ptrs : list Z
}.

(** The read-only arguments of the kernel. *)
Record add_args := AddArgs {
  str_num : nat;
  buf : Z;
  offsets : list Z;
  lens : list Z;
  seed : Z;
  buckets_num : Z
}.

(** Why a thread has returned. *)
Inductive exit_reason := ESkip | EFull | EDone.

(** Where a thread is: before the load of its row, before each access to the
    shared arrays, at the string comparison, after the test of [hit]. *)
Inductive pc :=
| PRow
| PHash | PHashCas
| PLen | PLenCas
| PPtr | PPtrCas
| PCmp (ptr : Z)
| PMiss | PHit
| PExit (e : exit_reason).

#[export] Instance exit_reason_eq_dec : EqDecision exit_reason.
Proof. solve_decision. Defined.

#[export] Instance pc_eq_dec : EqDecision pc.
Proof. solve_decision. Defined.

Record thread := Thread {
  t_pc : pc;
  t_h : Z;
  t_bucket : Z;
  t_our : bool
}.

(** The whole state of the grid. *)
Record grid := Grid {
  tab : table;
  res_buckets : list Z;
  new_strings_lens : list Z;
  table_is_full : bool;
  threads : list thread
}.

Definition set_pc (t : thread) (p : pc) : thread := Thread p (t_h t) (t_bucket t) (t_our t).

Definition set_thread (g : grid) (i : nat) (t : thread) : grid :=
  Grid (tab g) (res_buckets g) (new_strings_lens g) (table_is_full g) (<[i := t]> (threads g)).

Definition set_tab (g : grid) (T : table) : grid :=
  Grid T (res_buckets g) (new_strings_lens g) (table_is_full g) (threads g).

(** ** The kernel *)

Definition row_len (a : add_args) (i : nat) : Z := rd (lens a) (Z.of_nat i).
Definition row_ptr (a : add_args) (i : nat) : Z := buf a + rd (offsets a) (Z.of_nat i).

(** [HashType h = cudaMurmurHash64(&(buf[offset]), len, seed);
     if (h == DBMS_CUDA_EMPTY_HASH_VAL) h++;] *)
Definition row_hash (m : memory) (a : add_args) (i : nat) : Z :=
  let h := default 0 (cudaMurmurHash64 m (row_ptr a i) (Z.to_nat (row_len a i)) (seed a)) in
  if h =? DBMS_CUDA_EMPTY_HASH_VAL then h +64 1 else h.

(** [(((len-1)/8)+1)*8] in 32 bits. *)
Definition padded_len (len : Z) : Z := (((len -32 1) / 8) +32 1) *32 8.

(** A plain load of [f]'s cell [b]. *)
Definition load (T0 : table) (stale : bool) (f : table -> list Z) (g : grid) (b : Z) : Z :=
  if stale then rd (f T0) b else rd (f (tab g)) b.

Definition thread_step (m : memory) (a : add_args) (T0 : table) (stale : bool) (i : nat) (g : grid) : grid :=
  match threads g !! i with
  | None => g
  | Some t =>
      let b := t_bucket t in
      let len := row_len a i in
      let T := tab g in
      let goto p := set_thread g i (set_pc t p) in
      match t_pc t with
      | PRow =>
          if negb (Nat.ltb i (str_num a)) then goto (PExit ESkip)
          else if len =? DBMS_CUDA_EMPTY_LEN_VAL then goto (PExit ESkip)
          else
            let h := row_hash m a i in
            set_thread g i (Thread PHash h (h mod buckets_num a) false)
      | PHash =>
          let x := load T0 stale hashes g b in
          if x =? DBMS_CUDA_EMPTY_HASH_VAL then goto PHashCas
          else if x =? t_h t then goto PLen else goto PMiss
      | PHashCas =>
          let old := rd (hashes T) b in
          let g := if old =? DBMS_CUDA_EMPTY_HASH_VAL
                   then set_tab g (Table (wr (hashes T) b (t_h t)) (table_lens T) (ptrs T)) else g in
          if (old =? DBMS_CUDA_EMPTY_HASH_VAL) || (old =? t_h t)
          then set_thread g i (set_pc t PLen) else set_thread g i (set_pc t PMiss)
      | PLen =>
          let len_in_bucket := load T0 stale table_lens g b in
          if len_in_bucket =? DBMS_CUDA_EMPTY_LEN_VAL then goto PLenCas
          else if negb (len_in_bucket =? len) then goto PMiss else goto PPtr
      | PLenCas =>
          let old := rd (table_lens T) b in
          let g := if old =? DBMS_CUDA_EMPTY_LEN_VAL
                   then set_tab g (Table (hashes T) (wr (table_lens T) b len) (ptrs T)) else g in
          let len_in_bucket := if old =? DBMS_CUDA_EMPTY_LEN_VAL then len else old in
          if negb (len_in_bucket =? len)
          then set_thread g i (set_pc t PMiss) else set_thread g i (set_pc t PPtr)
      | PPtr =>
          let ptr := load T0 stale ptrs g b in
          if ptr =? nullptr then goto PPtrCas else goto (PCmp ptr)
      | PPtrCas =>
          let old := rd (ptrs T) b in
          if old =? nullptr then
            set_thread (set_tab g (Table (hashes T) (table_lens T) (wr (ptrs T) b (row_ptr a i)))) i
              (Thread (PCmp (row_ptr a i)) (t_h t) b true)
          else goto (PCmp old)
      | PCmp ptr =>
          match compare_strings m (row_ptr a i) ptr (Z.to_nat len) with
          | Some true => goto PHit
          | _ => goto PMiss
          end
      | PMiss =>
          let b' := (b +32 1) mod buckets_num a in
          if b' =? t_h t mod buckets_num a then
            Grid T (res_buckets g) (new_strings_lens g) true
              (<[i := Thread (PExit EFull) (t_h t) b' (t_our t)]> (threads g))
          else set_thread g i (Thread PHash (t_h t) b' (t_our t))
      | PHit =>
          Grid T (wr (res_buckets g) (Z.of_nat i) b)
            (if t_our t then wr (new_strings_lens g) b (padded_len len) else new_strings_lens g)
            (table_is_full g) (<[i := set_pc t (PExit EDone)]> (threads g))
      | PExit _ => g
      end
  end.

Fixpoint run (m : memory) (a : add_args) (T0 : table) (s : schedule) (g : grid) : grid :=
  match s with
  | [] => g
  | (i, stale) :: s' => run m a T0 s' (thread_step m a T0 stale i g)
  end.

Definition thread_init : thread := Thread PRow 0 0 false.

(** [kerAddData<<<(str_num/256)+1,256>>>]: 256 threads for every block. *)
Definition grid_size (a : add_args) : nat := (str_num a / 256 + 1) * 256.

Definition launch (a : add_args) (T : table) (res nsl : list Z) (full : bool) : grid :=
  Grid T res nsl full (replicate (grid_size a) thread_init).

Definition exited (t : thread) : bool :=
  match t_pc t with PExit _ => true | _ => false end.

Definition all_exited (g : grid) : bool := forallb exited (threads g).

(** ** Specification: slots, probe sequences, invariants *)

(** The hash the table files a string under; it is never the empty mark. *)
Definition key_hash (sd : Z) (k : list Z) : Z :=
  let h := murmur64A k sd in if h =? 0 then 1 else h.

Section spec.
Context (m : memory) (a : add_args).

#[local] Abbreviation n := (buckets_num a).

(** The string of row [i], and the one that bucket [b] refers to. *)
Definition row_key (i : nat) : list Z := bytes m (row_ptr a i) (Z.to_nat (row_len a i)).

Definition slot_key (T : table) (b : Z) : list Z :=
  bytes m (rd (ptrs T) b) (Z.to_nat (rd (table_lens T) b)).

(** The [j]-th bucket probed for the string [k]. *)
Definition pos (k : list Z) (j : Z) : Z := (key_hash (seed a) k + j) mod n.

(** Bucket [b] holds [k]. *)
Definition holds (T : table) (b : Z) (k : list Z) : Prop :=
  rd (hashes T) b = key_hash (seed a) k /\ rd (table_lens T) b = Z.of_nat (length k) /\
  rd (ptrs T) b <> 0 /\ slot_key T b = k.

(** Bucket [b] is and stays taken by something other than [k]. *)
Definition rejects (T : table) (b : Z) (k : list Z) : Prop :=
  rd (hashes T) b <> 0 /\
  (rd (hashes T) b <> key_hash (seed a) k \/
   rd (table_lens T) b <> 0 /\
   (rd (table_lens T) b <> Z.of_nat (length k) \/
    rd (ptrs T) b <> 0 /\ slot_key T b <> k)).

(** The first [j] probes for [k] are rejected. *)
Definition probed (T : table) (k : list Z) (j : Z) : Prop :=
  forall j', 0 <= j' < j -> rejects T (pos k j') k.

(** What a claimed bucket satisfies at all times. *)
Definition slot_ok (T : table) (b : Z) : Prop :=
  0 <= rd (table_lens T) b < 2 ^ 32 /\
  (rd (table_lens T) b <> 0 -> rd (hashes T) b <> 0) /\
  (rd (ptrs T) b <> 0 -> rd (table_lens T) b <> 0 /\
    0 < rd (ptrs T) b /\ rd (ptrs T) b + rd (table_lens T) b <= 2 ^ 64 /\
    rd (hashes T) b = key_hash (seed a) (slot_key T b) /\
    exists j, 0 <= j < n /\ b = pos (slot_key T b) j /\ probed T (slot_key T b) j).

Definition table_len (T : table) : Prop :=
  Z.of_nat (length (hashes T)) = n /\ Z.of_nat (length (table_lens T)) = n /\
  Z.of_nat (length (ptrs T)) = n.

(** A table between two kernels: every bucket is empty or complete. *)
Definition table_ok (T : table) : Prop :=
  table_len T /\
  forall b, 0 <= b < n ->
    slot_ok T b /\ (rd (hashes T) b <> 0 -> rd (ptrs T) b <> 0).

(** What the kernel is launched on: a readable string for every row. *)
Definition args_ok : Prop :=
  mem_ok m /\ 0 < n < 2 ^ 32 /\
  forall i, (i < str_num a)%nat ->
    0 <= row_len a i < 2 ^ 32 /\
    (row_len a i <> 0 -> 0 < row_ptr a i /\ row_ptr a i + row_len a i <= 2 ^ 64).

(** Cells that are set stay as they are. *)
Definition cells_le (l l' : list Z) : Prop :=
  forall b, 0 <= b < n -> rd l b <> 0 -> rd l' b = rd l b.

Definition table_le (T T' : table) : Prop :=
  cells_le (hashes T) (hashes T') /\ cells_le (table_lens T) (table_lens T') /\
  cells_le (ptrs T) (ptrs T').

(** A thread that works on bucket [t_bucket t], having rejected the [j] before. *)
Definition at_probe (T : table) (i : nat) (t : thread) (j : Z) : Prop :=
  0 <= j < n /\ t_h t = key_hash (seed a) (row_key i) /\
  t_bucket t = pos (row_key i) j /\ probed T (row_key i) j.

Definition live (i : nat) : Prop := (i < str_num a)%nat /\ row_len a i <> 0.

Definition thread_inv (T : table) (i : nat) (t : thread) : Prop :=
  let b := t_bucket t in
  let k := row_key i in
  match t_pc t with
  | PRow => t_our t = false
  | PExit ESkip => t_our t = false /\ ~ live i
  | PHash | PHashCas => t_our t = false /\ live i /\ exists j, at_probe T i t j
  | PLen | PLenCas =>
      t_our t = false /\ live i /\ rd (hashes T) b = t_h t /\ exists j, at_probe T i t j
  | PPtr | PPtrCas =>
      t_our t = false /\ live i /\ rd (hashes T) b = t_h t /\ rd (table_lens T) b = row_len a i /\
      exists j, at_probe T i t j
  | PCmp p =>
      live i /\ rd (hashes T) b = t_h t /\ rd (table_lens T) b = row_len a i /\
      rd (ptrs T) b = p /\ p <> 0 /\ (t_our t = true -> p = row_ptr a i) /\
      exists j, at_probe T i t j
  | PMiss => t_our t = false /\ live i /\ rejects T b k /\ exists j, at_probe T i t j
  | PHit | PExit EDone =>
      live i /\ holds T b k /\ (t_our t = true -> rd (ptrs T) b = row_ptr a i) /\
      exists j, at_probe T i t j
  | PExit EFull => t_our t = false /\ live i /\ probed T k n
  end.

(** A thread about to give bucket [b] its length, or its pointer. *)
Definition gives_len (t : thread) (b : Z) : Prop :=
  t_bucket t = b /\ (t_pc t = PLen \/ t_pc t = PLenCas).
Definition gives_ptr (t : thread) (b : Z) : Prop :=
  t_bucket t = b /\ (t_pc t = PPtr \/ t_pc t = PPtrCas).

(** The thread whose string bucket [b] took, and what it leaves behind. *)
Definition owns (T : table) (nsl : list Z) (i : nat) (t : thread) (b : Z) : Prop :=
  t_bucket t = b /\ t_our t = true /\ rd (ptrs T) b = row_ptr a i /\
  ((exists p, t_pc t = PCmp p) \/ t_pc t = PHit \/
   t_pc t = PExit EDone /\ rd nsl b = padded_len (rd (table_lens T) b)).

Definition some_thread (g : grid) (P : nat -> thread -> Prop) : Prop :=
  exists i t, threads g !! i = Some t /\ P i t.

Record grid_inv (T0 : table) (full0 : bool) (g : grid) : Prop := {
  gi_len : table_len (tab g) /\ Z.of_nat (length (new_strings_lens g)) = n /\
           (str_num a <= length (res_buckets g))%nat;
  gi_le : table_le T0 (tab g);
  gi_slots : forall b, 0 <= b < n -> slot_ok (tab g) b;
  gi_threads : forall i t, threads g !! i = Some t -> thread_inv (tab g) i t;
  gi_gives_len : forall b, 0 <= b < n ->
    rd (hashes (tab g)) b <> 0 -> rd (table_lens (tab g)) b = 0 ->
    some_thread g (fun _ t => gives_len t b);
  gi_gives_ptr : forall b, 0 <= b < n ->
    rd (table_lens (tab g)) b <> 0 -> rd (ptrs (tab g)) b = 0 ->
    some_thread g (fun _ t => gives_ptr t b);
  gi_new : forall b, 0 <= b < n -> rd (ptrs (tab g)) b <> 0 -> rd (ptrs T0) b = 0 ->
    some_thread g (fun i t => owns (tab g) (new_strings_lens g) i t b);
  gi_our : forall i t, threads g !! i = Some t -> t_our t = true ->
    rd (ptrs T0) (t_bucket t) = 0;
  gi_old : forall b, 0 <= b < n -> rd (new_strings_lens g) b <> 0 ->
    rd (ptrs (tab g)) b <> 0 /\ rd (ptrs T0) b = 0;
  gi_res : forall i t, threads g !! i = Some t -> t_pc t = PExit EDone ->
    rd (res_buckets g) (Z.of_nat i) = t_bucket t;
  gi_full : table_is_full g = true <->
    full0 = true \/ some_thread g (fun _ t => t_pc t = PExit EFull)
}.

(** ** Elementary facts *)

Lemma key_hash_nonzero sd k : key_hash sd k <> 0.
Proof. unfold key_hash. destruct (Z.eqb_spec (murmur64A k sd) 0); lia. Qed.

Lemma row_hash_spec i : args_ok -> live i -> row_hash m a i = key_hash (seed a) (row_key i).
Proof.
  intros (Hm & _ & Hr) [Hi Hl]. destruct (Hr i Hi) as [Hlen [Hp Hend]]; [done|].
  unfold row_hash, key_hash, row_key, DBMS_CUDA_EMPTY_HASH_VAL.
  rewrite cudaMurmurHash64_spec by (done || lia). cbn [from_option]. unfold id.
  destruct (Z.eqb_spec (murmur64A (bytes m (row_ptr a i) (Z.to_nat (row_len a i))) (seed a)) 0)
    as [E|]; [|reflexivity]. rewrite E. reflexivity.
Qed.

Lemma length_row_key i : args_ok -> live i -> Z.of_nat (length (row_key i)) = row_len a i.
Proof.
  intros (_ & _ & Hr) [Hi Hl]. destruct (Hr i Hi) as [Hlen _].
  unfold row_key. rewrite length_bytes. lia.
Qed.

Lemma pos_range k j : 0 < n -> 0 <= pos k j < n.
Proof. intros. unfold pos. apply Z.mod_pos_bound. lia. Qed.

Lemma pos_succ k j : 0 < n < 2 ^ 32 -> (u32 (pos k j + 1)) mod n = pos k (j + 1).
Proof.
  intros Hn. pose proof (pos_range k j ltac:(lia)).
  rewrite wrap_small by (unfold fits; lia). unfold pos.
  rewrite Zplus_mod_idemp_l. f_equal. lia.
Qed.

Lemma pos_start k j : 0 < n -> 0 <= j < n -> pos k j = pos k 0 -> j = 0.
Proof.
  intros Hn Hj E. unfold pos in E. rewrite Z.add_0_r in E.
  assert ((key_hash (seed a) k + j - key_hash (seed a) k) mod n = 0) as H.
  { rewrite Zminus_mod, E, Z.sub_diag. apply Z.mod_0_l. lia. }
  replace (key_hash (seed a) k + j - key_hash (seed a) k) with j in H by lia.
  rewrite Z.mod_small in H; lia.
Qed.

Lemma pos_full k : 0 < n -> pos k n = pos k 0.
Proof. intros. unfold pos. rewrite Z.add_0_r. rewrite <- (Z.mul_1_l n) at 1. apply Z.mod_add. lia. Qed.

Lemma holds_not_rejects T b k : holds T b k -> ~ rejects T b k.
Proof. intros (?&?&?&?) (?&[?|[? [?|[? ?]]]]); congruence. Qed.

Lemma holds_inj T b k k' : holds T b k -> holds T b k' -> k = k'.
Proof. intros (?&?&?&?) (?&?&?&?). congruence. Qed.

(** Two probe positions of one string: only one of them can hold it. *)
Lemma holds_probe_unique T k j j' :
  0 <= j -> 0 <= j' -> probed T k j -> probed T k j' ->
  holds T (pos k j) k -> holds T (pos k j') k -> j = j'.
Proof.
  intros ? ? P P' H H'. destruct (Z.lt_trichotomy j j') as [L|[E|L]]; [|done|].
  - exfalso. eapply holds_not_rejects; [exact H|]. apply P'. lia.
  - exfalso. eapply holds_not_rejects; [exact H'|]. apply P. lia.
Qed.

(** ** Monotonicity *)

Lemma cells_le_refl l : cells_le l l.
Proof. by intros b ? ?. Qed.

Lemma cells_le_trans l1 l2 l3 : cells_le l1 l2 -> cells_le l2 l3 -> cells_le l1 l3.
Proof. intros H1 H2 b Hb Hz. rewrite <- (H1 b) by done. apply H2; [done|]. by rewrite H1. Qed.

Lemma cells_le_wr l b v :
  Z.of_nat (length l) = n -> 0 <= b < n -> rd l b = 0 -> cells_le l (wr l b v).
Proof.
  intros Hl Hb Hz b' Hb' Hz'. apply rd_wr_ne; [lia|lia|]. intros ->. done.
Qed.

Lemma table_le_refl T : table_le T T.
Proof. split_and!; apply cells_le_refl. Qed.

Lemma table_le_trans T1 T2 T3 : table_le T1 T2 -> table_le T2 T3 -> table_le T1 T3.
Proof. intros (?&?&?) (?&?&?). split_and!; by eapply cells_le_trans. Qed.

Section monotone.
Context (T T' : table) (Hle : table_le T T').

Lemma hashes_le b : 0 <= b < n -> rd (hashes T) b <> 0 -> rd (hashes T') b = rd (hashes T) b.
Proof. apply Hle. Qed.

Lemma lens_le b : 0 <= b < n -> rd (table_lens T) b <> 0 -> rd (table_lens T') b = rd (table_lens T) b.
Proof. apply Hle. Qed.

Lemma ptrs_le b : 0 <= b < n -> rd (ptrs T) b <> 0 -> rd (ptrs T') b = rd (ptrs T) b.
Proof. apply Hle. Qed.

Lemma slot_key_le b :
  0 <= b < n -> rd (ptrs T) b <> 0 -> rd (table_lens T) b <> 0 -> slot_key T' b = slot_key T b.
Proof. intros. unfold slot_key. by rewrite ptrs_le, lens_le. Qed.

Lemma rejects_le b k : 0 <= b < n -> rejects T b k -> rejects T' b k.
Proof.
  intros Hb [Hh H]. unfold rejects. rewrite hashes_le by done. split; [done|].
  destruct H as [H|[Hl H]]; [by left|right]. rewrite lens_le by done. split; [done|].
  destruct H as [H|[Hp H]]; [by left|right]. by rewrite ptrs_le, slot_key_le.
Qed.

Lemma holds_le b k : 0 <= b < n -> k <> [] -> holds T b k -> holds T' b k.
Proof.
  intros Hb Hk (Hh & Hl & Hp & Hs). pose proof (key_hash_nonzero (seed a) k).
  assert (Z.of_nat (length k) <> 0) by (destruct k; simpl; [done|lia]).
  assert (rd (table_lens T) b <> 0) by lia. assert (rd (hashes T) b <> 0) by lia.
  unfold holds. by rewrite hashes_le, lens_le, ptrs_le, slot_key_le.
Qed.

Lemma probed_le k j : 0 < n -> probed T k j -> probed T' k j.
Proof. intros Hn H j' Hj. apply rejects_le; [by apply pos_range|auto]. Qed.

Lemma at_probe_le i t j : 0 < n -> at_probe T i t j -> at_probe T' i t j.
Proof. intros ? (?&?&?&?). split_and!; auto using probed_le; lia. Qed.

End monotone.

Lemma at_probe_range T i t j : 0 < n -> at_probe T i t j -> 0 <= t_bucket t < n.
Proof. intros ? (?&?&->&?). by apply pos_range. Qed.
End spec.

(** ** Every step preserves the grid invariant *)

Section preservation.
Context (m : memory) (a : add_args) (T0 : table) (full0 : bool).
Context (Hargs : args_ok m a).

#[local] Abbreviation n := (buckets_num a).

#[local] Abbreviation inv := (grid_inv m a T0 full0).

Lemma n_pos : 0 < n.
Proof. destruct Hargs as (_ & ? & _). lia. Qed.

Lemma row_key_nonempty i : live a i -> row_key m a i <> [].
Proof.
  intros Hl E. pose proof (length_row_key m a i Hargs Hl) as L. rewrite E in L.
  destruct Hl. simpl in L. lia.
Qed.

Lemma thread_inv_le T T' i t : table_le a T T' -> thread_inv m a T i t -> thread_inv m a T' i t.
Proof.
  intros Hle Ht. pose proof n_pos as Hn. unfold thread_inv in *.
  assert (forall j, at_probe m a T i t j -> at_probe m a T' i t j) as AP
    by (intros; by eapply at_probe_le).
  assert (forall j, at_probe m a T i t j -> t_h t <> 0) as HH
    by (intros j (_ & -> & _); apply key_hash_nonzero).
  assert (forall j, at_probe m a T i t j -> 0 <= t_bucket t < n) as BR
    by (intros; by eapply at_probe_range).
  destruct (t_pc t) as [| | | | | | |p| | |[]]; try done.
  - destruct Ht as (?&?&j&?). split_and!; eauto.
  - destruct Ht as (?&?&j&?). split_and!; eauto.
  - destruct Ht as (?&?&Hh&j&A). rewrite (hashes_le a T T' Hle) by (rewrite ?Hh; eauto). split_and!; eauto.
  - destruct Ht as (?&?&Hh&j&A). rewrite (hashes_le a T T' Hle) by (rewrite ?Hh; eauto). split_and!; eauto.
  - destruct Ht as (?&[? ?]&Hh&Hl&j&A).
    rewrite (hashes_le a T T' Hle), (lens_le a T T' Hle) by (rewrite ?Hh, ?Hl; eauto). split_and!; eauto. by split.
  - destruct Ht as (?&[? ?]&Hh&Hl&j&A).
    rewrite (hashes_le a T T' Hle), (lens_le a T T' Hle) by (rewrite ?Hh, ?Hl; eauto). split_and!; eauto. by split.
  - destruct Ht as ([? ?]&Hh&Hl&Hp&?&?&j&A).
    rewrite (hashes_le a T T' Hle), (lens_le a T T' Hle), (ptrs_le a T T' Hle)
      by (rewrite ?Hh, ?Hl, ?Hp; eauto). split_and!; eauto. by split.
  - destruct Ht as (?&?&?&j&A). split_and!; eauto using rejects_le.
  - destruct Ht as (L&Hh&?&j&A). rewrite (ptrs_le a T T' Hle) by (destruct Hh as (?&?&?&?); eauto).
    split_and!; eauto using holds_le, row_key_nonempty.
  - destruct Ht as (?&?&?). split_and!; eauto using probed_le.
  - destruct Ht as (L&Hh&?&j&A). rewrite (ptrs_le a T T' Hle) by (destruct Hh as (?&?&?&?); eauto).
    split_and!; eauto using holds_le, row_key_nonempty.
Qed.

Lemma some_thread_set g g' i t' (P Q : nat -> thread -> Prop) :
  threads g' = <[i := t']> (threads g) -> (i < length (threads g))%nat ->
  some_thread g P -> (forall i0 t0, i0 <> i -> P i0 t0 -> Q i0 t0) ->
  (forall t, threads g !! i = Some t -> P i t -> Q i t') ->
  some_thread g' Q.
Proof.
  intros E Hi (i0 & t0 & Ht & HP) Ho Hs. destruct (decide (i0 = i)) as [->|Hne].
  - exists i, t'. rewrite E, list_lookup_insert_eq by done. eauto.
  - exists i0, t0. rewrite E, list_lookup_insert_ne by done. eauto.
Qed.

Lemma some_thread_self g' i t' ts (Q : nat -> thread -> Prop) :
  threads g' = <[i := t']> ts -> (i < length ts)%nat -> Q i t' -> some_thread g' Q.
Proof. intros E Hi HQ. exists i, t'. by rewrite E, list_lookup_insert_eq. Qed.

(** The frame of a step: thread [i] becomes [t'], the table grows to [T']. *)
Lemma grid_inv_update g g' i t t' :
  inv g -> threads g !! i = Some t -> threads g' = <[i := t']> (threads g) ->
  table_len a (tab g') /\ Z.of_nat (length (new_strings_lens g')) = n /\
    (str_num a <= length (res_buckets g'))%nat ->
  table_le a (tab g) (tab g') ->
  (forall b, 0 <= b < n -> slot_ok m a (tab g') b) ->
  thread_inv m a (tab g') i t' ->
  (forall b, 0 <= b < n -> rd (hashes (tab g')) b <> 0 -> rd (table_lens (tab g')) b = 0 ->
     gives_len t' b \/ rd (hashes (tab g)) b <> 0 /\ ~ gives_len t b) ->
  (forall b, 0 <= b < n -> rd (table_lens (tab g')) b <> 0 -> rd (ptrs (tab g')) b = 0 ->
     gives_ptr t' b \/ rd (table_lens (tab g)) b <> 0 /\ ~ gives_ptr t b) ->
  (forall b, 0 <= b < n -> rd (ptrs (tab g')) b <> 0 -> rd (ptrs T0) b = 0 ->
     owns a (tab g') (new_strings_lens g') i t' b \/
     rd (ptrs (tab g)) b <> 0 /\ ~ (t_our t = true /\ t_bucket t = b) /\
       rd (new_strings_lens g') b = rd (new_strings_lens g) b) ->
  (t_our t' = true -> rd (ptrs T0) (t_bucket t') = 0) ->
  (forall b, 0 <= b < n -> rd (new_strings_lens g') b <> 0 ->
     rd (ptrs (tab g')) b <> 0 /\ rd (ptrs T0) b = 0) ->
  (forall i0 t0, threads g' !! i0 = Some t0 -> t_pc t0 = PExit EDone ->
     rd (res_buckets g') (Z.of_nat i0) = t_bucket t0) ->
  (t_pc t <> PExit EFull) ->
  (table_is_full g' = true <-> table_is_full g = true \/ t_pc t' = PExit EFull) ->
  inv g'.
Proof.
  intros I Ht Eth Hlen Hle Hslots Hti Hgl Hgp Hnew Hour Hold Hres Hnf Hfull.
  assert (i < length (threads g))%nat as Hi by (by eapply lookup_lt_Some).
  split; auto.
  - eapply table_le_trans; [apply I|done].
  - intros i0 t0 H0. rewrite Eth in H0. destruct (decide (i0 = i)) as [->|Hne].
    + rewrite list_lookup_insert_eq in H0 by done. by simplify_eq.
    + rewrite list_lookup_insert_ne in H0 by done. eapply thread_inv_le; [done|]. by apply I.
  - intros b Hb Hh Hl. destruct (Hgl b Hb Hh Hl) as [G|[Hh' G]].
    + eapply some_thread_self; eauto.
    + assert (rd (table_lens (tab g)) b = 0) as Hz.
      { destruct (decide (rd (table_lens (tab g)) b = 0)) as [|Hz]; [done|].
        rewrite <- Hl. symmetry. by apply (lens_le a _ _ Hle). }
      apply (some_thread_set g g' i t' (fun _ t => gives_len t b)); [done|done|by apply I|done|].
      simpl. intros t1 Ht1 G1. by simplify_eq.
  - intros b Hb Hh Hl. destruct (Hgp b Hb Hh Hl) as [G|[Hh' G]].
    + eapply some_thread_self; eauto.
    + assert (rd (ptrs (tab g)) b = 0) as Hz.
      { destruct (decide (rd (ptrs (tab g)) b = 0)) as [|Hz]; [done|].
        rewrite <- Hl. symmetry. by apply (ptrs_le a _ _ Hle). }
      apply (some_thread_set g g' i t' (fun _ t => gives_ptr t b)); [done|done|by apply I|done|].
      simpl. intros t1 Ht1 G1. by simplify_eq.
  - intros b Hb Hp H0. destruct (Hnew b Hb Hp H0) as [O|(Hp' & Ho & Hn)].
    + eapply some_thread_self; eauto.
    + apply (some_thread_set g g' i t' (fun i t => owns a (tab g) (new_strings_lens g) i t b));
        [done|done|by apply I| |].
      * simpl. intros i0 t0 _ (?&?&?&O). unfold owns.
        assert (slot_ok m a (tab g) b) as (_ & _ & S) by (by apply I).
        destruct (S Hp') as [Hl _].
        rewrite Hn, (ptrs_le a _ _ Hle), (lens_le a _ _ Hle) by done. auto.
      * simpl. intros t1 Ht1 (? & ? & _). simplify_eq. tauto.
  - intros i0 t0 H0. rewrite Eth in H0. destruct (decide (i0 = i)) as [->|Hne].
    + rewrite list_lookup_insert_eq in H0 by done. by simplify_eq.
    + rewrite list_lookup_insert_ne in H0 by done. by eapply I.
  - rewrite Hfull. rewrite (gi_full _ _ _ _ _ I). split.
    + intros [[?|F]|F]; [by left|right|right].
      * apply (some_thread_set g g' i t' (fun _ t => t_pc t = PExit EFull)); [done..|].
        simpl. intros. congruence.
      * eapply some_thread_self; eauto.
    + intros [?|(i0 & t0 & H0 & F)]; [auto|]. rewrite Eth in H0.
      destruct (decide (i0 = i)) as [->|Hne].
      * rewrite list_lookup_insert_eq in H0 by done. simplify_eq. auto.
      * rewrite list_lookup_insert_ne in H0 by done. left. right. by exists i0, t0.
Qed.

#[local] Instance gives_len_dec t b : Decision (gives_len t b).
Proof. unfold gives_len. apply _. Defined.

#[local] Instance gives_ptr_dec t b : Decision (gives_ptr t b).
Proof. unfold gives_ptr. apply _. Defined.

(** A step that touches nothing but the thread's own registers. *)
Lemma grid_inv_move g i t t' :
  inv g -> threads g !! i = Some t -> exited t = false ->
  thread_inv m a (tab g) i t' ->
  (forall b, 0 <= b < n -> gives_len t b -> gives_len t' b \/ rd (table_lens (tab g)) b <> 0) ->
  (forall b, 0 <= b < n -> gives_ptr t b -> gives_ptr t' b \/ rd (ptrs (tab g)) b <> 0) ->
  t_our t' = t_our t ->
  (t_our t = true -> t_bucket t' = t_bucket t /\ t_pc t' = PHit) ->
  t_pc t' <> PExit EDone -> t_pc t' <> PExit EFull ->
  inv (set_thread g i t').
Proof.
  intros I Ht Hx Hti Hgl Hgp Hour Hkeep Hnd Hnf.
  assert (i < length (threads g))%nat as Hi by (by eapply lookup_lt_Some).
  assert (t_pc t <> PExit EFull) as Hnf' by (unfold exited in Hx; destruct (t_pc t); congruence).
  eapply grid_inv_update; try done; simpl.
  - apply I.
  - apply I.
  - intros b Hb Hh Hl. destruct (decide (gives_len t b)) as [G|G]; [|by right].
    destruct (Hgl b Hb G) as [|]; [by left|done].
  - intros b Hb Hh Hl. destruct (decide (gives_ptr t b)) as [G|G]; [|by right].
    destruct (Hgp b Hb G) as [|]; [by left|done].
  - intros b Hb Hp H0. destruct (decide (t_our t = true /\ t_bucket t = b)) as [[Ho <-]|]; [left|by right].
    destruct (Hkeep Ho) as [Eb Ep]. unfold thread_inv in Hti. rewrite Ep in Hti.
    destruct Hti as (_ & _ & Hp' & _). rewrite Eb in Hp'. split_and!; auto; congruence || auto.
    apply Hp'. congruence.
  - intros Ho. rewrite Hour in Ho. destruct (Hkeep Ho) as [-> _]. by eapply I.
  - apply I.
  - intros i0 t0 H0 Hd. destruct (decide (i0 = i)) as [->|Hne].
    + rewrite list_lookup_insert_eq in H0 by done. by simplify_eq.
    + rewrite list_lookup_insert_ne in H0 by done. by eapply I.
  - intuition.
Qed.

Lemma load_nonzero (f : table -> list Z) g stale b :
  cells_le a (f T0) (f (tab g)) -> 0 <= b < n -> load T0 stale f g b <> 0 ->
  rd (f (tab g)) b = load T0 stale f g b.
Proof. intros Hle Hb Hx. unfold load in *. destruct stale; [|done]. by apply Hle. Qed.

Lemma slot_ok_le T T' b :
  table_le a T T' -> 0 <= b < n ->
  rd (table_lens T') b = rd (table_lens T) b -> rd (ptrs T') b = rd (ptrs T) b ->
  slot_ok m a T b -> slot_ok m a T' b.
Proof.
  intros Hle Hb El Ep (Hl & Hh & Hp). unfold slot_ok, slot_key. rewrite El, Ep.
  split_and!; [lia|lia| |].
  - intros Hz. rewrite (hashes_le a T T' Hle); auto.
  - intros Hz. destruct (Hp Hz) as (?&?&?&Eh&j&Hj&Eb&Pj).
    rewrite (hashes_le a T T' Hle) by auto. split_and!; auto.
    exists j. split_and!; try done; [lia|lia|]. by apply (probed_le m a T T' Hle); [apply n_pos|].
Qed.

Lemma thread_inv_get g i t : inv g -> threads g !! i = Some t -> thread_inv m a (tab g) i t.
Proof. intros I Ht. by apply (gi_threads _ _ _ _ _ I). Qed.

(** Jumps of a thread that has not claimed a pointer. *)
Lemma grid_inv_goto g i t t' :
  inv g -> threads g !! i = Some t -> t_our t = false -> t_our t' = false ->
  exited t = false -> t_pc t' <> PExit EDone -> t_pc t' <> PExit EFull ->
  (t_pc t = PLen \/ t_pc t = PLenCas ->
   gives_len t' (t_bucket t) \/ rd (table_lens (tab g)) (t_bucket t) <> 0) ->
  (t_pc t = PPtr \/ t_pc t = PPtrCas ->
   gives_ptr t' (t_bucket t) \/ rd (ptrs (tab g)) (t_bucket t) <> 0) ->
  thread_inv m a (tab g) i t' -> inv (set_thread g i t').
Proof.
  intros I Ht Ho Ho' Hx Hd Hf Hl Hp V. apply (grid_inv_move g i t); auto; try congruence.
  - intros b _ [<- G]. auto.
  - intros b _ [<- G]. auto.
Qed.

(** Opens a case: the thread's invariant [V] at program counter [Hpc]. *)
Ltac open_step I Ht Hpc V :=
  pose proof (thread_inv_get _ _ _ I Ht) as V; pose proof n_pos as Hn;
  unfold thread_inv in V; rewrite Hpc in V;
  unfold thread_step; rewrite Ht, Hpc;
  unfold DBMS_CUDA_EMPTY_HASH_VAL, DBMS_CUDA_EMPTY_LEN_VAL, nullptr.

Ltac probe_range A := pose proof (at_probe_range _ _ _ _ _ _ n_pos A) as Hb.

Ltac goto_by I Ht Hpc :=
  apply (grid_inv_goto _ _ _ _ I Ht); auto; unfold exited, thread_inv, gives_len, gives_ptr; cbn;
  try (rewrite Hpc; done || (intros [?|?]; discriminate)); try discriminate;
  try (intros _; first [left; split; [done|by auto]|right; congruence]).

Lemma step_row g i t st :
  inv g -> threads g !! i = Some t -> t_pc t = PRow -> inv (thread_step m a T0 st i g).
Proof.
  intros I Ht Hpc. open_step I Ht Hpc V.
  destruct (Nat.ltb_spec i (str_num a)) as [Hi|Hi]; cbn [negb].
  - destruct (Z.eqb_spec (row_len a i) 0) as [E|E].
    + goto_by I Ht Hpc. split; [done|]. by intros [_ ?].
    + assert (live a i) as L by done. rewrite (row_hash_spec m a i Hargs L).
      goto_by I Ht Hpc. split_and!; [done|done|]. exists 0. split_and!; cbn; try lia; try done.
      * unfold pos. by rewrite Z.add_0_r.
      * intros j' ?. lia.
  - goto_by I Ht Hpc. split; [done|]. intros [? _]. lia.
Qed.

Lemma step_hash g i t st :
  inv g -> threads g !! i = Some t -> t_pc t = PHash -> inv (thread_step m a T0 st i g).
Proof.
  intros I Ht Hpc. open_step I Ht Hpc V. destruct V as (Ho & L & j & A). probe_range A.
  destruct (Z.eqb_spec (load T0 st hashes g (t_bucket t)) 0) as [E|E].
  - goto_by I Ht Hpc. eauto.
  - pose proof (load_nonzero hashes g st _ (proj1 (gi_le _ _ _ _ _ I)) Hb E) as El.
    destruct (Z.eqb_spec (load T0 st hashes g (t_bucket t)) (t_h t)) as [E'|E'];
      goto_by I Ht Hpc; split_and!; eauto; [congruence|].
    split; [congruence|]. left. destruct A as (_ & <- & _). congruence.
Qed.

Lemma step_len g i t st :
  inv g -> threads g !! i = Some t -> t_pc t = PLen -> inv (thread_step m a T0 st i g).
Proof.
  intros I Ht Hpc. open_step I Ht Hpc V. destruct V as (Ho & L & Hh & j & A). probe_range A.
  pose proof (length_row_key m a i Hargs L) as Lk.
  destruct (Z.eqb_spec (load T0 st table_lens g (t_bucket t)) 0) as [E|E].
  - goto_by I Ht Hpc. split_and!; eauto.
  - pose proof (load_nonzero table_lens g st _ (proj1 (proj2 (gi_le _ _ _ _ _ I))) Hb E) as El.
    destruct (Z.eqb_spec (load T0 st table_lens g (t_bucket t)) (row_len a i)) as [E'|E']; cbn [negb];
      goto_by I Ht Hpc; split_and!; eauto; [congruence|].
    split; [rewrite Hh; destruct A as (_ & -> & _); apply key_hash_nonzero|].
    right. split; [congruence|left; congruence].
Qed.

Lemma step_ptr g i t st :
  inv g -> threads g !! i = Some t -> t_pc t = PPtr -> inv (thread_step m a T0 st i g).
Proof.
  intros I Ht Hpc. open_step I Ht Hpc V. destruct V as (Ho & L & Hh & Hl & j & A). probe_range A.
  destruct (Z.eqb_spec (load T0 st ptrs g (t_bucket t)) 0) as [E|E].
  - goto_by I Ht Hpc. split_and!; eauto.
  - pose proof (load_nonzero ptrs g st _ (proj2 (proj2 (gi_le _ _ _ _ _ I))) Hb E) as El.
    goto_by I Ht Hpc. split_and!; eauto; congruence.
Qed.

Lemma step_cmp g i t st p :
  inv g -> threads g !! i = Some t -> t_pc t = PCmp p -> inv (thread_step m a T0 st i g).
Proof.
  intros I Ht Hpc. open_step I Ht Hpc V.
  destruct V as (L & Hh & Hl & Hp & Hz & Hown & j & A). probe_range A.
  assert (slot_ok m a (tab g) (t_bucket t)) as (_ & _ & S) by (by apply I).
  destruct S as (_ & Hp0 & Hpe & _); [congruence|].
  destruct Hargs as (Hm & _ & Hr). destruct (Hr i (proj1 L)) as [Hrl [Hrp Hre]]; [apply L|].
  rewrite compare_strings_spec by (done || lia).
  pose proof (length_row_key m a i Hargs L) as Lk.
  assert (bytes m p (Z.to_nat (row_len a i)) = slot_key m (tab g) (t_bucket t)) as Ek
    by (unfold slot_key; by rewrite Hp, Hl).
  fold (row_key m a i). rewrite Ek.
  destruct (bool_decide_reflect (row_key m a i = slot_key m (tab g) (t_bucket t))) as [E|E].
  - apply (grid_inv_move g i t); auto; cbn; try discriminate; unfold exited; rewrite ?Hpc; auto.
    + unfold thread_inv; cbn. split_and!; eauto; [|intros; congruence || (rewrite Hp; auto)].
      split_and!; try congruence. destruct A as (_ & <- & _). done.
    + intros b _ [_ [?|?]]; congruence.
    + intros b _ [_ [?|?]]; congruence.
  - assert (t_our t = false) as Ho.
    { destruct (t_our t); [|done]. exfalso. apply E. rewrite <- Ek, (Hown eq_refl). done. }
    goto_by I Ht Hpc. split_and!; eauto.
    split; [rewrite Hh; destruct A as (_ & -> & _); apply key_hash_nonzero|].
    right. split; [rewrite Hl; apply L|]. right. split; [congruence|]. congruence.
Qed.

(** A successful compare-and-swap: the table grows by one cell, the thread
    goes on, the other components stay. *)
Lemma grid_inv_cas g i t t' T' :
  inv g -> threads g !! i = Some t -> t_our t = false -> exited t = false ->
  t_pc t' <> PExit EDone -> t_pc t' <> PExit EFull ->
  table_len a T' -> table_le a (tab g) T' ->
  (forall b, 0 <= b < n -> slot_ok m a T' b) ->
  thread_inv m a T' i t' ->
  (forall b, 0 <= b < n -> rd (hashes T') b <> 0 -> rd (table_lens T') b = 0 ->
     gives_len t' b \/ rd (hashes (tab g)) b <> 0 /\ ~ gives_len t b) ->
  (forall b, 0 <= b < n -> rd (table_lens T') b <> 0 -> rd (ptrs T') b = 0 ->
     gives_ptr t' b \/ rd (table_lens (tab g)) b <> 0 /\ ~ gives_ptr t b) ->
  (forall b, 0 <= b < n -> rd (ptrs T') b <> 0 -> rd (ptrs (tab g)) b = 0 ->
     owns a T' (new_strings_lens g) i t' b) ->
  (t_our t' = true -> rd (ptrs T0) (t_bucket t') = 0) ->
  inv (set_thread (set_tab g T') i t').
Proof.
  intros I Ht Ho Hx Hd Hf Hlen Hle Hs V Hgl Hgp Hnew Hour.
  assert (i < length (threads g))%nat as Hi by (by eapply lookup_lt_Some).
  eapply grid_inv_update; eauto; cbn.
  - split; [done|]. apply I.
  - intros b Hb Hp H0. destruct (decide (rd (ptrs (tab g)) b = 0)); [left; auto|right].
    split_and!; [done| |done]. intros [? _]. congruence.
  - intros b Hb Hn. destruct (gi_old _ _ _ _ _ I b Hb Hn) as [Hp H0].
    by rewrite (ptrs_le a _ _ Hle).
  - intros i0 t0 H0 E. destruct (decide (i0 = i)) as [->|Hne].
    + rewrite list_lookup_insert_eq in H0 by done. by simplify_eq.
    + rewrite list_lookup_insert_ne in H0 by done. by eapply I.
  - unfold exited in Hx. intros E. by rewrite E in Hx.
  - intuition.
Qed.

Lemma step_hash_cas g i t st :
  inv g -> threads g !! i = Some t -> t_pc t = PHashCas -> inv (thread_step m a T0 st i g).
Proof.
  intros I Ht Hpc. open_step I Ht Hpc V. destruct V as (Ho & L & j & A). probe_range A.
  destruct (gi_len _ _ _ _ _ I) as ((L1 & L2 & L3) & _).
  assert (t_h t <> 0) as Hh by (destruct A as (_ & -> & _); apply key_hash_nonzero).
  destruct (Z.eqb_spec (rd (hashes (tab g)) (t_bucket t)) 0) as [E|E]; cbn [orb].
  - assert (table_le a (tab g) (Table (wr (hashes (tab g)) (t_bucket t) (t_h t)) (table_lens (tab g)) (ptrs (tab g)))) as Hle
      by (split_and!; cbn; first [apply cells_le_refl|by apply cells_le_wr]).
    apply (grid_inv_cas g i t); auto; try (cbn; congruence); unfold exited; rewrite ?Hpc; auto.
    + split_and!; cbn; rewrite ?length_wr; done.
    + intros b Hb'. apply (slot_ok_le (tab g)); auto. by apply I.
    + unfold thread_inv; cbn. split_and!; auto; [by rewrite rd_wr_eq by lia|].
      exists j. by apply (at_probe_le m a _ _ Hle).
    + cbn. intros b Hb' Hz Hl. rewrite rd_wr in Hz by lia. case_decide as D.
      * left. split; [done|by left].
      * right. split; [done|]. intros [_ [?|?]]; congruence.
    + cbn. intros b Hb' Hz Hl. right. split; [done|]. intros [_ [?|?]]; congruence.
  - destruct (Z.eqb_spec (rd (hashes (tab g)) (t_bucket t)) (t_h t)) as [E'|E'];
      goto_by I Ht Hpc; split_and!; eauto. split; [done|]. left. destruct A as (_ & <- & _). done.
Qed.

Lemma step_len_cas g i t st :
  inv g -> threads g !! i = Some t -> t_pc t = PLenCas -> inv (thread_step m a T0 st i g).
Proof.
  intros I Ht Hpc. open_step I Ht Hpc V. destruct V as (Ho & L & Hh & j & A). probe_range A.
  destruct (gi_len _ _ _ _ _ I) as ((L1 & L2 & L3) & _).
  pose proof (length_row_key m a i Hargs L) as Lk.
  assert (rd (hashes (tab g)) (t_bucket t) <> 0) as Hh0
    by (rewrite Hh; destruct A as (_ & -> & _); apply key_hash_nonzero).
  destruct (Z.eqb_spec (rd (table_lens (tab g)) (t_bucket t)) 0) as [E|E].
  - rewrite Z.eqb_refl. cbn [negb].
    assert (table_le a (tab g) (Table (hashes (tab g)) (wr (table_lens (tab g)) (t_bucket t) (row_len a i)) (ptrs (tab g)))) as Hle
      by (split_and!; cbn; first [apply cells_le_refl|by apply cells_le_wr]).
    assert (slot_ok m a (tab g) (t_bucket t)) as (_ & _ & Sp) by (by apply I).
    assert (rd (ptrs (tab g)) (t_bucket t) = 0) as Hp0.
    { destruct (decide (rd (ptrs (tab g)) (t_bucket t) = 0)) as [|Hz]; [done|].
      destruct (Sp Hz) as [? _]. done. }
    apply (grid_inv_cas g i t); auto; try (cbn; congruence); unfold exited; rewrite ?Hpc; auto.
    + split_and!; cbn; rewrite ?length_wr; done.
    + intros b Hb'. destruct (decide (t_bucket t = b)) as [<-|D].
      * unfold slot_ok; cbn. rewrite rd_wr_eq by lia.
        destruct Hargs as (_ & _ & Hr). destruct (Hr i (proj1 L)) as [Hrl _].
        split_and!; try lia; done.
      * apply (slot_ok_le (tab g)); auto; [cbn; apply rd_wr_ne; lia|by apply I].
    + unfold thread_inv; cbn. split_and!; auto; [by rewrite rd_wr_eq by lia|].
      exists j. by apply (at_probe_le m a _ _ Hle).
    + cbn. intros b Hb' Hz Hl. rewrite rd_wr in Hl by lia. case_decide as D.
      * destruct L. congruence.
      * right. split; [done|]. intros [? _]; congruence.
    + cbn. intros b Hb' Hz Hl. rewrite rd_wr in Hz by lia. case_decide as D.
      * left. split; [done|by left].
      * right. split; [done|]. intros [_ [?|?]]; congruence.
  - destruct (Z.eqb_spec (rd (table_lens (tab g)) (t_bucket t)) (row_len a i)) as [E'|E']; cbn [negb];
      goto_by I Ht Hpc; split_and!; eauto. split; [done|]. right. split; [done|left; congruence].
Qed.

Lemma step_ptr_cas g i t st :
  inv g -> threads g !! i = Some t -> t_pc t = PPtrCas -> inv (thread_step m a T0 st i g).
Proof.
  intros I Ht Hpc. open_step I Ht Hpc V. destruct V as (Ho & L & Hh & Hl & j & A). probe_range A.
  destruct (gi_len _ _ _ _ _ I) as ((L1 & L2 & L3) & _).
  destruct (Z.eqb_spec (rd (ptrs (tab g)) (t_bucket t)) 0) as [E|E].
  - assert (table_le a (tab g) (Table (hashes (tab g)) (table_lens (tab g)) (wr (ptrs (tab g)) (t_bucket t) (row_ptr a i)))) as Hle
      by (split_and!; cbn; first [apply cells_le_refl|by apply cells_le_wr]).
    destruct (proj2 (proj2 Hargs) i (proj1 L)) as [Hrl [Hrp Hre]]; [apply L|].
    assert (at_probe m a (Table (hashes (tab g)) (table_lens (tab g)) (wr (ptrs (tab g)) (t_bucket t) (row_ptr a i))) i t j) as A'
      by (by apply (at_probe_le m a _ _ Hle)).
    apply (grid_inv_cas g i t); auto; try (cbn; congruence); unfold exited; rewrite ?Hpc; auto.
    + split_and!; cbn; rewrite ?length_wr; done.
    + intros b Hb'. destruct (decide (t_bucket t = b)) as [<-|D].
      * unfold slot_ok, slot_key; cbn. rewrite rd_wr_eq, Hl by lia. fold (row_key m a i).
        destruct A' as (Hj & Eh & Eb & Pj). rewrite Hh.
        split_and!; [lia|lia| |].
        { intros _. rewrite Eh. apply key_hash_nonzero. }
        intros _. split_and!; [apply L|lia|lia|done|]. exists j. auto.
      * apply (slot_ok_le (tab g)); auto; [cbn; apply rd_wr_ne; lia|by apply I].
    + unfold thread_inv; cbn. split_and!; auto; [by rewrite rd_wr_eq by lia|lia|].
      exists j. exact A'.
    + cbn. intros b Hb' Hz Hl'. right. split; [done|]. intros [_ [?|?]]; congruence.
    + cbn. intros b Hb' Hz Hl'. rewrite rd_wr in Hl' by lia. case_decide as D; [lia|].
      right. split; [done|]. intros [? _]; congruence.
    + cbn. intros b Hb' Hz Hl'. rewrite rd_wr in Hz by lia. case_decide as D; [|done]. subst b.
      unfold owns; cbn. split_and!; auto; [by rewrite rd_wr_eq by lia|eauto].
    + cbn. intros _. destruct (decide (rd (ptrs T0) (t_bucket t) = 0)) as [|Hz]; [done|].
      exfalso. apply Hz. rewrite <- E. symmetry. apply (gi_le _ _ _ _ _ I); auto.
  - goto_by I Ht Hpc. split_and!; eauto. congruence.
Qed.

Lemma step_miss g i t st :
  inv g -> threads g !! i = Some t -> t_pc t = PMiss -> inv (thread_step m a T0 st i g).
Proof.
  intros I Ht Hpc. open_step I Ht Hpc V. destruct V as (Ho & L & R & j & A).
  destruct A as (Hj & Eh & Eb & Pj).
  assert (i < length (threads g))%nat as Hi by (by eapply lookup_lt_Some).
  assert (probed m a (tab g) (row_key m a i) (j + 1)) as Pj'.
  { intros j' Hj'. destruct (decide (j' = j)) as [->|]; [congruence|]. apply Pj. lia. }
  assert (t_h t mod n = pos a (row_key m a i) 0) as Es
    by (unfold pos; by rewrite Eh, Z.add_0_r).
  rewrite Eb, pos_succ, Es by apply Hargs.
  destruct (Z.eqb_spec (pos a (row_key m a i) (j + 1)) (pos a (row_key m a i) 0)) as [E|E].
  - assert (j + 1 = n) as Ej.
    { destruct (decide (j + 1 = n)) as [|D]; [done|].
      apply (pos_start a _ _ Hn) in E; lia. }
    rewrite Ej in Pj'.
    eapply (grid_inv_update g _ i t); eauto; cbn; try (intros; congruence).
    + apply I.
    + apply table_le_refl.
    + apply I.
    + unfold thread_inv; cbn. auto.
    + intros b Hb Hh Hl. right. split; [done|]. intros [_ [?|?]]; congruence.
    + intros b Hb Hh Hl. right. split; [done|]. intros [_ [?|?]]; congruence.
    + intros b Hb Hp H0. right. split_and!; [done| |done]. intros [? _]. congruence.
    + apply I.
    + intros i0 t0 H0 Ed. destruct (decide (i0 = i)) as [->|Hne].
      * rewrite list_lookup_insert_eq in H0 by done. by simplify_eq.
      * rewrite list_lookup_insert_ne in H0 by done. by eapply I.
    + tauto.
  - goto_by I Ht Hpc. split_and!; auto. exists (j + 1). split_and!; cbn; auto; try lia.
    destruct (decide (j + 1 = n)) as [D|]; [|lia]. exfalso. apply E. rewrite D. by apply pos_full.
Qed.

Lemma step_hit g i t st :
  inv g -> threads g !! i = Some t -> t_pc t = PHit -> inv (thread_step m a T0 st i g).
Proof.
  intros I Ht Hpc. open_step I Ht Hpc V. destruct V as (L & H & Hown & j & A). probe_range A.
  assert (i < length (threads g))%nat as Hi by (by eapply lookup_lt_Some).
  destruct (gi_len _ _ _ _ _ I) as (LT & LN & LR).
  assert (rd (table_lens (tab g)) (t_bucket t) = row_len a i) as Hl
    by (destruct H as (_ & -> & _); by apply length_row_key).
  assert (rd (ptrs (tab g)) (t_bucket t) <> 0) as Hp by apply H.
  set (nsl' := if t_our t then _ else _).
  assert (forall b, 0 <= b < n -> rd nsl' b =
    if decide (t_our t = true /\ t_bucket t = b) then padded_len (row_len a i)
    else rd (new_strings_lens g) b) as Ensl.
  { intros b Hb'. unfold nsl'. destruct (t_our t).
    - rewrite rd_wr by lia. repeat case_decide; tauto.
    - case_decide as D; [by destruct D|done]. }
  eapply (grid_inv_update g _ i t); eauto; cbn; try congruence.
  - split_and!; try apply LT; [|by rewrite length_wr].
    unfold nsl'. destruct (t_our t); by rewrite ?length_wr.
  - apply table_le_refl.
  - apply I.
  - unfold thread_inv; cbn. eauto.
  - intros b Hb' Hh Hz. right. split; [done|]. intros [_ [?|?]]; congruence.
  - intros b Hb' Hh Hz. right. split; [done|]. intros [_ [?|?]]; congruence.
  - intros b Hb' Hp' H0. destruct (decide (t_our t = true /\ t_bucket t = b)) as [[Ho <-]|D].
    + left. split_and!; cbn; auto. right. right. split; [done|].
      rewrite Ensl, decide_True by done. by rewrite Hl.
    + right. split_and!; auto. by rewrite Ensl, decide_False.
  - intros Ho. by eapply I.
  - intros b Hb'. destruct (decide (t_our t = true /\ t_bucket t = b)) as [[Ho <-]|D].
    + intros _. split; [done|by eapply I].
    + rewrite Ensl, decide_False by done. by apply I.
  - intros i0 t0 H0 Ed. destruct (decide (i0 = i)) as [->|Hne].
    + rewrite list_lookup_insert_eq in H0 by done. simplify_eq. cbn.
      apply rd_wr_eq. destruct L as [Hi' _]. lia.
    + rewrite list_lookup_insert_ne in H0 by done. rewrite rd_wr_ne by lia. by eapply I.
  - intuition congruence.
Qed.

Lemma thread_step_inv g i st : inv g -> inv (thread_step m a T0 st i g).
Proof.
  intros I. destruct (threads g !! i) as [t|] eqn:Ht.
  2: { unfold thread_step. by rewrite Ht. }
  destruct (t_pc t) eqn:Hpc;
    eauto using step_row, step_hash, step_hash_cas, step_len, step_len_cas, step_ptr, step_ptr_cas,
      step_cmp, step_miss, step_hit.
  unfold thread_step. by rewrite Ht, Hpc.
Qed.

Lemma run_inv s g : inv g -> inv (run m a T0 s g).
Proof. revert g. induction s as [|[i st] s IH]; intros g I; [done|]. simpl. apply IH, thread_step_inv, I. Qed.

(** The launch state satisfies the invariant: a well formed table, a zeroed
    [new_strings_lens]. *)
Lemma launch_inv res nsl :
  table_ok m a T0 -> Z.of_nat (length nsl) = n -> (forall b, 0 <= b < n -> rd nsl b = 0) ->
  (str_num a <= length res)%nat -> inv (launch a T0 res nsl full0).
Proof.
  intros [HL HT] Hn Hz Hr.
  assert (forall i t, replicate (grid_size a) thread_init !! i = Some t -> t = thread_init) as E
    by (intros i t H; by apply lookup_replicate in H as [-> _]).
  split; cbn; auto.
  - apply table_le_refl.
  - intros b Hb. by apply HT.
  - intros i t ->%E. done.
  - intros b Hb Hh Hl. destruct (HT b Hb) as [(_ & _ & S) C]. destruct (S (C Hh)) as [? _]. done.
  - intros b Hb Hl Hp. destruct (HT b Hb) as [(_ & S & _) C]. exfalso. apply C; auto.
  - intros b Hb Hp H0. done.
  - intros i t ->%E. done.
  - intros b Hb Hne. rewrite Hz in Hne by done. done.
  - intros i t ->%E. done.
  - split; [auto|]. intros [?|(i & t & ->%E & ?)]; done.
Qed.

(** ** When all threads have returned *)

Lemma exited_lookup g i t : all_exited g = true -> threads g !! i = Some t -> exited t = true.
Proof.
  unfold all_exited. rewrite forallb_forall. intros H Ht. apply H.
  apply list_elem_of_In. by eapply list_elem_of_lookup_2.
Qed.

Lemma final_table_ok g : inv g -> all_exited g = true -> table_ok m a (tab g).
Proof.
  intros I Hx. split; [apply I|]. intros b Hb.
  split; [by apply I|]. intros Hh Hp.
  assert (forall P, (forall t, P t -> exited t = false) -> ~ some_thread g (fun _ t => P t)) as K.
  { intros P HP (i & t & Ht & Q). pose proof (exited_lookup _ _ _ Hx Ht). rewrite HP in *; done. }
  destruct (decide (rd (table_lens (tab g)) b = 0)) as [Hl|Hl].
  - apply (K (fun t => gives_len t b)); [|by apply I].
    intros t [_ [E|E]]; unfold exited; by rewrite E.
  - apply (K (fun t => gives_ptr t b)); [|by apply I].
    intros t [_ [E|E]]; unfold exited; by rewrite E.
Qed.

Lemma table_ok_unique T b b' k :
  table_ok m a T -> 0 <= b < n -> 0 <= b' < n ->
  holds m a T b k -> holds m a T b' k -> b = b'.
Proof.
  intros [_ HT] Hb Hb' H H'.
  destruct (HT b Hb) as [(_ & _ & S) _]. destruct (HT b' Hb') as [(_ & _ & S') _].
  destruct S as (_ & _ & _ & _ & j & Hj & Eb & P); [apply H|].
  destruct S' as (_ & _ & _ & _ & j' & Hj' & Eb' & P'); [apply H'|].
  assert (slot_key m T b = k) as E by apply H. assert (slot_key m T b' = k) as E' by apply H'.
  rewrite E in *. rewrite E' in *. rewrite Eb, Eb' in *. f_equal.
  eapply (holds_probe_unique m a T k); eauto; lia.
Qed.

(** An occupied bucket of a well formed table holds exactly its slot's string. *)
Lemma table_ok_holds T b :
  table_ok m a T -> 0 <= b < n -> rd (ptrs T) b <> 0 -> holds m a T b (slot_key m T b).
Proof.
  intros [_ HT] Hb Hp. destruct (HT b Hb) as [(Hl & _ & S) _].
  destruct (S Hp) as (_ & _ & _ & Eh & _). split_and!; auto.
  unfold slot_key. rewrite length_bytes. lia.
Qed.

(** A string all of whose probes are rejected is rejected by every bucket. *)
Lemma probed_all_rejects T k b : probed m a T k n -> 0 <= b < n -> rejects m a T b k.
Proof.
  intros P Hb. set (h := key_hash (seed a) k). replace b with (pos a k ((b - h) mod n)).
  - apply P. apply Z.mod_pos_bound. lia.
  - unfold pos. fold h. rewrite Zplus_mod_idemp_r. replace (h + (b - h)) with b by lia.
    apply Z.mod_small. lia.
Qed.

Lemma done_row g i t :
  inv g -> all_exited g = true -> table_is_full g = false ->
  threads g !! i = Some t -> live a i ->
  0 <= rd (res_buckets g) (Z.of_nat i) < n /\
  holds m a (tab g) (rd (res_buckets g) (Z.of_nat i)) (row_key m a i).
Proof.
  intros I Hx Hf Ht L. pose proof (exited_lookup _ _ _ Hx Ht) as E. pose proof (thread_inv_get _ _ _ I Ht) as V.
  unfold exited in E. unfold thread_inv in V. destruct (t_pc t) as [| | | | | | |p| | |[]] eqn:Hpc; try done.
  - by destruct V.
  - exfalso. assert (table_is_full g = true); [|congruence].
    apply (gi_full _ _ _ _ _ I). right. by exists i, t.
  - destruct V as (_ & H & _ & j & A). rewrite (gi_res _ _ _ _ _ I _ _ Ht Hpc).
    split; [|done]. eapply at_probe_range; [apply n_pos|done].
Qed.

(** Where a bucket's string comes from. *)
Lemma holds_origin g b k :
  inv g -> all_exited g = true -> 0 <= b < n -> table_ok m a T0 -> holds m a (tab g) b k ->
  holds m a T0 b k \/ exists i, live a i /\ row_key m a i = k /\
    rd (ptrs T0) b = 0 /\ rd (ptrs (tab g)) b = row_ptr a i /\
    rd (res_buckets g) (Z.of_nat i) = b /\
    rd (new_strings_lens g) b = padded_len (rd (table_lens (tab g)) b).
Proof.
  intros I Hx Hb HT0 H. destruct (decide (rd (ptrs T0) b = 0)) as [E|E].
  - right. destruct (gi_new _ _ _ _ _ I b Hb) as (i & t & Ht & Eb & Ho & Ep & O); [apply H|done|].
    pose proof (exited_lookup _ _ _ Hx Ht) as Hxt. unfold exited in Hxt.
    destruct O as [[p O]|[O|[O On]]]; rewrite O in Hxt; try done.
    pose proof (thread_inv_get _ _ _ I Ht) as V. unfold thread_inv in V. rewrite O in V.
    destruct V as (L & Hk & _). exists i. rewrite Eb in Hk. split_and!; auto.
    + by eapply holds_inj.
    + rewrite (gi_res _ _ _ _ _ I _ _ Ht O). done.
  - left. pose proof (table_ok_holds T0 b HT0 Hb E) as H0.
    assert (slot_key m T0 b = k) as <-; [|done].
    eapply (holds_inj m a (tab g) b); [|done]. apply (holds_le m a T0); auto; [apply I|].
    destruct (proj2 HT0 b Hb) as [(Hl & _ & S) _]. destruct (S E) as [Hz _].
    intros E0. apply (f_equal length) in E0. unfold slot_key in E0. rewrite length_bytes in E0.
    simpl in E0. lia.
Qed.

(** ** Termination *)

Definition pc_rank (p : pc) : Z :=
  match p with
  | PHash => 7 | PHashCas => 6 | PLen => 5 | PLenCas => 4 | PPtr => 3 | PPtrCas => 2
  | PCmp _ => 1 | _ => 0
  end.

(** A bound on the steps a thread still has to make. *)
Definition steps_left (t : thread) : Z :=
  match t_pc t with
  | PExit _ => 0
  | PRow => 8 * n + 8
  | p => 8 * (n - (t_bucket t - t_h t) mod n) + pc_rank p
  end.

Lemma at_probe_dist T i t j : at_probe m a T i t j -> (t_bucket t - t_h t) mod n = j.
Proof.
  intros (Hj & Eh & Eb & _). rewrite Eb, Eh. unfold pos.
  rewrite Zminus_mod_idemp_l. replace (_ + j - _) with j by lia. by apply Z.mod_small.
Qed.

Lemma steps_left_bound g i t :
  inv g -> threads g !! i = Some t -> 0 <= steps_left t <= 8 * n + 8 /\ (exited t = false -> 0 < steps_left t).
Proof.
  intros I Ht. pose proof n_pos. unfold steps_left, exited.
  pose proof (Z.mod_pos_bound (t_bucket t - t_h t) n ltac:(lia)).
  destruct (t_pc t); cbn; split; lia || done.
Qed.

Lemma step_other g i k st : i <> k -> threads (thread_step m a T0 st i g) !! k = threads g !! k.
Proof.
  intros Hne. unfold thread_step. destruct (threads g !! i) as [t|]; [|done].
  repeat case_match; cbn; rewrite ?list_lookup_insert_ne; done.
Qed.

Lemma step_decreases g i t st :
  inv g -> threads g !! i = Some t -> exited t = false ->
  exists t', threads (thread_step m a T0 st i g) !! i = Some t' /\ steps_left t' < steps_left t.
Proof.
  intros I Ht Hx. pose proof n_pos as Hn. pose proof (lookup_lt_Some _ _ _ Ht) as Hi.
  pose proof (thread_inv_get _ _ _ I Ht) as V.
  pose proof (Z.mod_pos_bound (t_bucket t - t_h t) n Hn) as Hd.
  unfold thread_step. rewrite Ht. unfold thread_inv in V. unfold exited in Hx.
  assert (forall t' g', threads g' = <[i := t']> (threads g) -> steps_left t' < steps_left t ->
    exists t'', threads g' !! i = Some t'' /\ steps_left t'' < steps_left t) as K
    by (intros t' g' E ?; exists t'; by rewrite E, list_lookup_insert_eq).
  destruct (t_pc t) eqn:Hpc; try discriminate;
    repeat case_match; (eapply K; [reflexivity|]); unfold steps_left; rewrite ?Hpc; cbn; try lia.
  - pose proof (Z.mod_pos_bound (row_hash m a i mod n - row_hash m a i) n Hn). lia.
  - destruct V as (_ & _ & _ & j & A). rewrite (at_probe_dist _ _ _ _ A).
    destruct A as (Hj & Eh & Eb & Pj).
    match goal with E : (_ =? _) = false |- _ => apply Z.eqb_neq in E; rename E into Hne end.
    rewrite Eb, pos_succ in Hne |- * by apply Hargs.
    assert (j + 1 < n) as Hj'.
    { destruct (decide (j + 1 = n)) as [D|]; [|lia]. exfalso. apply Hne.
      rewrite D, pos_full by done. unfold pos. by rewrite Eh, Z.add_0_r. }
    unfold pos. rewrite Eh, Zminus_mod_idemp_l.
    replace (_ + (j + 1) - _) with (j + 1) by lia. rewrite Z.mod_small by lia. lia.
Qed.

Lemma run_exits s g i t :
  inv g -> threads g !! i = Some t -> steps_left t <= Z.of_nat (turns i s) ->
  exists t', threads (run m a T0 s g) !! i = Some t' /\ exited t' = true.
Proof.
  revert g t. induction s as [|[k st] s IH]; intros g t I Ht Hs.
  - exists t. split; [done|]. destruct (exited t) eqn:E; [done|].
    pose proof (proj2 (steps_left_bound _ _ _ I Ht) E). cbn in Hs. lia.
  - cbn [run]. cbn [turns] in Hs.
    assert (inv (thread_step m a T0 st k g)) as I' by (by apply thread_step_inv).
    case_decide as D.
    + subst k. destruct (exited t) eqn:E.
      * apply (IH _ t); [done| |].
        -- unfold thread_step. rewrite Ht. unfold exited in E. by destruct (t_pc t).
        -- unfold steps_left, exited in *. destruct (t_pc t); try done. lia.
      * destruct (step_decreases g i t st I Ht E) as (t' & Ht' & Hlt).
        apply (IH _ t'); auto. lia.
    + apply (IH _ t); auto. by rewrite step_other.
Qed.
End preservation.

(** ** Properties of the kernel *)

(** What a launch needs: readable rows, a well formed table, a zeroed
    [new_strings_lens] and a cell of [res_buckets] for every row. *)
Definition launch_ok (m : memory) (a : add_args) (T : table) (res nsl : list Z) : Prop :=
  args_ok m a /\ table_ok m a T /\ Z.of_nat (length nsl) = buckets_num a /\
  (forall b, 0 <= b < buckets_num a -> rd nsl b = 0) /\ (str_num a <= length res)%nat.

Lemma launched_inv m a T res nsl full s :
  launch_ok m a T res nsl -> grid_inv m a T full (run m a T s (launch a T res nsl full)).
Proof. intros (?&?&?&?&?). apply run_inv; [done|]. by apply launch_inv. Qed.

Lemma length_run m a T s g : length (threads (run m a T s g)) = length (threads g).
Proof.
  revert g. induction s as [|[i st] s IH]; intros g; [done|]. cbn [run]. rewrite IH.
  unfold thread_step. repeat case_match; cbn; by rewrite ?length_insert.
Qed.

Lemma live_thread m a T s res nsl full i :
  live a i -> exists t, threads (run m a T s (launch a T res nsl full)) !! i = Some t.
Proof.
  intros [Hi _]. apply lookup_lt_is_Some. rewrite length_run. cbn [launch threads].
  rewrite length_replicate. unfold grid_size. pose proof (Nat.div_mod_eq (str_num a) 256).
  pose proof (Nat.mod_upper_bound (str_num a) 256 ltac:(lia)). lia.
Qed.

Lemma table_ok_empty m a k :
  Z.of_nat k = buckets_num a ->
  table_ok m a (Table (replicate k 0) (replicate k 0) (replicate k 0)).
Proof.
  intros Hk.
  assert (forall b, rd (replicate k 0) b = 0) as Z0.
  { intros b. unfold rd. destruct (decide (Z.to_nat b < k)%nat).
    - by rewrite nth_lookup, lookup_replicate_2.
    - rewrite nth_overflow by (rewrite length_replicate; lia). done. }
  split; [split_and!; cbn; by rewrite length_replicate|]. intros b Hb.
  unfold slot_ok; cbn. rewrite !Z0. split; [|done].
  split_and!; [lia|lia|done|]. intros Hz. by destruct Hz.
Qed.

(** A schedule under which every thread returns. *)
Lemma round_robin_exits m a T res nsl full n :
  launch_ok m a T res nsl -> 8 * buckets_num a + 8 <= Z.of_nat n ->
  all_exited (run m a T (round_robin (grid_size a) n) (launch a T res nsl full)) = true.
Proof.
  intros Hl Hn. pose proof Hl as (Ha & HT & Hnsl & Hz & Hr). unfold all_exited. apply forallb_forall. intros t Ht.
  apply list_elem_of_In, list_elem_of_lookup in Ht as [i Hi]. pose proof (lookup_lt_Some _ _ _ Hi) as Hlt. rewrite length_run in Hlt.
  cbn [launch threads] in Hlt. rewrite length_replicate in Hlt.
  destruct (run_exits m a T full Ha (round_robin (grid_size a) n) (launch a T res nsl full) i thread_init) as (t' & Ht' & Hx).
  - by apply launch_inv.
  - by apply lookup_replicate_2.
  - rewrite turns_round_robin by done. unfold steps_left. cbn. lia.
  - rewrite Hi in Ht'. by injection Ht' as <-.
Qed.

(** A memory that holds the bytes [l] from address [base] on. *)
Definition mem_of (base : Z) (l : list Z) : memory := fun x => rd l (x - base).

Lemma mem_of_ok base l : Forall (fits 8) l -> mem_ok (mem_of base l).
Proof.
  intros Hl x. unfold mem_of, rd. destruct (nth_in_or_default (Z.to_nat (x - base)) l 0) as [H| ->].
  - eapply List.Forall_forall; eauto.
  - unfold fits. lia.
Qed.

(** Three rows, "a", "b" and "a" (each with its terminating zero), and an
    empty table of four buckets, scheduled round robin. *)
Definition demo_mem : memory := mem_of 16 [97; 0; 98; 0; 97; 0].
Definition demo_args : add_args := AddArgs 3 16 [0; 2; 4] [2; 2; 2] 0 4.
Definition demo_table : table := Table (replicate 4 0) (replicate 4 0) (replicate 4 0).
Definition demo_schedule (turns : nat) : schedule :=
  concat (replicate turns (map (fun i => (i, false)) (seq 0 256))).

Lemma demo_launch_ok : launch_ok demo_mem demo_args demo_table (replicate 3 0) (replicate 4 0).
Proof.
  split_and!; [split_and!|..].
  - apply mem_of_ok. repeat constructor; unfold fits; lia.
  - cbn. lia.
  - cbn. lia.
  - intros [|[|[|i]]] Hi; try (cbn in Hi; lia); vm_compute; split_and!; congruence || (intros; split; congruence).
  - by apply table_ok_empty.
  - done.
  - intros b Hb. cbn in Hb. assert (b = 0 \/ b = 1 \/ b = 2 \/ b = 3) as D by lia.
    destruct D as [->|[->|[->| ->]]]; done.
  - cbn. lia.
Qed.

Lemma demo_run_exits :
  all_exited (run demo_mem demo_args demo_table (demo_schedule 40)
    (launch demo_args demo_table (replicate 3 0) (replicate 4 0) false)) = true.
Proof. vm_compute. reflexivity. Qed.

(** C21: [kerAddData] is wait free.  Whatever the schedule does with the other
    threads and whichever plain loads are stale, a thread that has been
    scheduled [8 * buckets_num + 8] times has returned: a failed
    compare-and-swap never makes it repeat a probe. *)
Theorem kerAddData_wait_free m a T res nsl full s i :
  launch_ok m a T res nsl -> (i < grid_size a)%nat ->
  8 * buckets_num a + 8 <= Z.of_nat (turns i s) ->
  exists t, threads (run m a T s (launch a T res nsl full)) !! i = Some t /\ exited t = true.
Proof.
  intros (Ha & HT & Hn & Hz & Hr) Hi Ht.
  assert (grid_inv m a T full (launch a T res nsl full)) as I by (by apply launch_inv).
  assert (threads (launch a T res nsl full) !! i = Some thread_init) as E
    by (by apply lookup_replicate_2).
  by eapply run_exits.
Qed.

Lemma kerAddData_wait_free_witness :
  launch_ok demo_mem demo_args demo_table (replicate 3 0) (replicate 4 0) /\
  exists t, threads (run demo_mem demo_args demo_table (demo_schedule 40)
    (launch demo_args demo_table (replicate 3 0) (replicate 4 0) false)) !! 1%nat = Some t /\
    exited t = true.
Proof.
  split; [exact demo_launch_ok|].
  apply (kerAddData_wait_free demo_mem demo_args demo_table _ _ false (demo_schedule 40) 1).
  - exact demo_launch_ok.
  - vm_compute. lia.
  - vm_compute. congruence.
Defined.

(** C20: The buckets that the threads of [kerAddData] agree on.  For every
    schedule after which all threads have returned and no thread found the
    table full, each non-empty row has a bucket in range that holds its
    string, and two rows have the same bucket exactly when their strings are
    equal: concurrent threads never file one string twice, nor two strings
    together. *)
Theorem kerAddData_buckets m a T res nsl full s g :
  launch_ok m a T res nsl -> g = run m a T s (launch a T res nsl full) ->
  all_exited g = true -> table_is_full g = false ->
  (forall i, live a i ->
     0 <= rd (res_buckets g) (Z.of_nat i) < buckets_num a /\
     holds m a (tab g) (rd (res_buckets g) (Z.of_nat i)) (row_key m a i)) /\
  (forall i j, live a i -> live a j ->
     rd (res_buckets g) (Z.of_nat i) = rd (res_buckets g) (Z.of_nat j) <->
     row_key m a i = row_key m a j).
Proof.
  intros Hl -> Hx Hf. set (g := run _ _ _ _ _) in *.
  pose proof (launched_inv m a T res nsl full s Hl) as I. fold g in I.
  assert (forall i, live a i -> 0 <= rd (res_buckets g) (Z.of_nat i) < buckets_num a /\
     holds m a (tab g) (rd (res_buckets g) (Z.of_nat i)) (row_key m a i)) as R.
  { intros i L. destruct (live_thread m a T s res nsl full i L) as [t Ht].
    eapply done_row; eauto. apply Hl. }
  split; [done|]. intros i j Li Lj. destruct (R i Li) as [Bi Hi], (R j Lj) as [Bj Hj]. split; intros E.
  - rewrite E in Hi. by eapply holds_inj.
  - rewrite E in Hi. eapply (table_ok_unique m a); eauto. by eapply final_table_ok.
Qed.

Lemma kerAddData_buckets_witness :
  live demo_args 0 /\
  rd (res_buckets (run demo_mem demo_args demo_table (demo_schedule 40)
    (launch demo_args demo_table (replicate 3 0) (replicate 4 0) false))) 0 =
  rd (res_buckets (run demo_mem demo_args demo_table (demo_schedule 40)
    (launch demo_args demo_table (replicate 3 0) (replicate 4 0) false))) 2.
Proof.
  assert (live demo_args 0 /\ live demo_args 2) as [L0 L2] by (split; vm_compute; split; lia || congruence).
  split; [exact L0|].
  apply (proj2 (kerAddData_buckets demo_mem demo_args demo_table (replicate 3 0) (replicate 4 0) false
    (demo_schedule 40) _ demo_launch_ok eq_refl demo_run_exits ltac:(vm_compute; reflexivity)) 0%nat 2%nat L0 L2).
  vm_compute. reflexivity.
Defined.

(** [kerAddData] maintains the table.  After any complete schedule the
    table is well formed again (every bucket is empty or holds one string,
    reachable from its hash by probing buckets taken by other strings), a
    string that was in the table is still in its old bucket, and the table
    holds nothing but its old strings and strings of the rows. *)
Theorem kerAddData_table m a T res nsl full s g :
  launch_ok m a T res nsl -> g = run m a T s (launch a T res nsl full) ->
  all_exited g = true ->
  table_ok m a (tab g) /\
  (forall b k, 0 <= b < buckets_num a -> k <> [] -> holds m a T b k -> holds m a (tab g) b k) /\
  (forall b k, 0 <= b < buckets_num a -> holds m a (tab g) b k ->
     holds m a T b k \/ exists i, live a i /\ row_key m a i = k).
Proof.
  intros Hl -> Hx. pose proof (launched_inv m a T res nsl full s Hl) as I.
  destruct Hl as (Ha & HT & _). split_and!.
  - by eapply final_table_ok.
  - intros b k Hb Hk. apply holds_le; auto. apply I.
  - intros b k Hb H. destruct (holds_origin m a T full _ b k I Hx Hb HT H) as [?|(i & ? & ? & _)];
      eauto.
Qed.

Lemma kerAddData_table_witness :
  table_ok demo_mem demo_args (tab (run demo_mem demo_args demo_table (demo_schedule 40)
    (launch demo_args demo_table (replicate 3 0) (replicate 4 0) false))).
Proof.
  exact (proj1 (kerAddData_table demo_mem demo_args demo_table (replicate 3 0) (replicate 4 0) false
    (demo_schedule 40) _ demo_launch_ok eq_refl demo_run_exits)).
Defined.

(** The table is reported full only when it is.  If the flag was clear and
    is set after a complete schedule, then some row has a string such that
    every bucket of the table holds a string different from it. *)
Theorem kerAddData_full m a T res nsl s g :
  launch_ok m a T res nsl -> g = run m a T s (launch a T res nsl false) ->
  all_exited g = true -> table_is_full g = true ->
  exists i, live a i /\
    forall b, 0 <= b < buckets_num a -> exists k, holds m a (tab g) b k /\ k <> row_key m a i.
Proof.
  intros Hl -> Hx Hf. pose proof (launched_inv m a T res nsl false s Hl) as I.
  set (g := run _ _ _ _ _) in *. destruct Hl as (Ha & HT & _).
  pose proof (final_table_ok m a T false g I Hx) as FT.
  apply (gi_full _ _ _ _ _ I) in Hf as [?|(i & t & Ht & Hpc)]; [done|].
  pose proof (gi_threads _ _ _ _ _ I _ _ Ht) as V. unfold thread_inv in V. rewrite Hpc in V.
  destruct V as (_ & L & P). exists i. split; [done|]. intros b Hb.
  assert (rejects m a (tab g) b (row_key m a i)) as R by (by apply (probed_all_rejects m a)).
  exists (slot_key m (tab g) b).
  assert (holds m a (tab g) b (slot_key m (tab g) b)) as H.
  { apply table_ok_holds; auto. apply FT; [done|]. apply R. }
  split; [done|]. intros E. rewrite E in H. by eapply holds_not_rejects.
Qed.

(** Two rows with different strings and a single bucket. *)
Definition demo_args_full : add_args := AddArgs 2 16 [0; 2] [2; 2] 0 1.

Lemma kerAddData_full_witness :
  exists i, live demo_args_full i /\
    forall b, 0 <= b < 1 -> exists k,
      holds demo_mem demo_args_full
        (tab (run demo_mem demo_args_full (Table [0] [0] [0]) (demo_schedule 16)
           (launch demo_args_full (Table [0] [0] [0]) [0; 0] [0] false))) b k /\
      k <> row_key demo_mem demo_args_full i.
Proof.
  apply (kerAddData_full demo_mem demo_args_full (Table [0] [0] [0]) [0; 0] [0] (demo_schedule 16) _).
  - split_and!; [split_and!|..].
    + apply demo_launch_ok.
    + cbn. lia.
    + cbn. lia.
    + intros [|[|i]] Hi; try (cbn in Hi; lia); vm_compute; split_and!; congruence || (intros; split; congruence).
    + by apply (table_ok_empty _ _ 1).
    + done.
    + intros b Hb. cbn in Hb. assert (b = 0) as -> by lia. done.
    + cbn. lia.
  - reflexivity.
  - vm_compute. reflexivity.
  - vm_compute. reflexivity.
Defined.
