(* ===== verification/StringsHashTable.v ===== *)
(** * The GPU string hash table

    Class [CudaStringsHashTable] (Common/HashTable/Cuda/CudaStringsHashTable.h
    and .cu): [erase], [addData], [calcOffsets] and [mergeToOtherTable] with
    the kernels they launch.  [kerAddData] is the concurrent kernel of
    AddDataKernel; the other kernels write a cell of their own per thread and
    are modelled as loops over the threads, the one that copies the added
    strings in an arbitrary order.

    [addData] is shown to refine an interning map from strings to buckets:
    no string moves to another bucket, every row's string gets exactly one
    bucket, and the strings survive the copy into the table's own buffer. *)

From Stdlib Require Import ZArith Lia.
From stdpp Require Import base list gmap numbers.
From S2P Require Import Prelude DeviceMemory MurmurHash AddDataKernel.

#[local] Open Scope Z_scope.
#[local] Open Scope word_scope.

(** ** State *)

(** The fields of the class.  [buf1] and [buf2] are the scratch arrays of the
    added lengths and their offsets; [str_buf] is the address of the buffer. *)
Record hash_table := HashTable {
  ht_buckets_num : Z;
  ht_str_buf_sz : Z;
  ht_str_buf_max_sz : Z;
  ht_tab : table;
  ht_offsets : list Z;
  ht_buf1 : list Z;
  ht_buf2 : list Z;
  ht_str_buf : Z
}.

(** What the kernels of all tables share: the memory and the flag
    [__device__ bool table_is_full]. *)
Record device := Device {
  dev_mem : memory;
  dev_table_is_full : bool
}.

Inductive add_error := TableIsFull | StringBufferIsFull.

(** ** Kernels *)

Definition kerErase (n : Z) (T : table) : table :=
  par_for (Z.to_nat n) (fun i T =>
    Table (wr (hashes T) (Z.of_nat i) DBMS_CUDA_EMPTY_HASH_VAL)
          (wr (table_lens T) (Z.of_nat i) DBMS_CUDA_EMPTY_LEN_VAL)
          (wr (ptrs T) (Z.of_nat i) nullptr)) T.

Definition kerFillZero (n : Z) (arr : list Z) : list Z :=
  par_for (Z.to_nat n) (fun i arr => wr arr (Z.of_nat i) 0) arr.

(** [cub::DeviceScan::ExclusiveSum] on 32-bit values. *)
Fixpoint exclusive_sum (acc : Z) (l : list Z) : list Z :=
  match l with
  | [] => []
  | x :: l' => acc :: exclusive_sum (acc +32 x) l'
  end.

Fixpoint copy_loop (fuel : nat) (m : memory) (r : reader) (end_ : Z) (data_res : Z) : option memory :=
  if ptr_curr r =? end_ then Some m
  else match fuel with
  | O => None
  | S fuel' =>
      let '(v, r) := cudaReadStringUnaligned64 m r end_ in
      copy_loop fuel' (store64 m data_res v) r end_ (data_res + 8)
  end.

(** The thread of row [i]. *)
Definition copy_row (a : add_args) (buckets : list Z) (old_str_buf_sz : Z) (new_strings_offsets : list Z)
    (str_buf : Z) (i : nat) (s : memory * list Z) : memory * list Z :=
  let '(m, hash_table_ptrs) := s in
  if negb (Nat.ltb i (str_num a)) then s
  else
    let len := row_len a i in
    if len =? DBMS_CUDA_EMPTY_LEN_VAL then s
    else
      let bucket_i := rd buckets (Z.of_nat i) in
      if rd hash_table_ptrs bucket_i =? row_ptr a i then
        let dst := str_buf + (old_str_buf_sz +32 rd new_strings_offsets bucket_i) in
        match copy_loop (S (Z.to_nat len / 8)) m (reader_init (row_ptr a i)) (row_ptr a i + len) dst with
        | Some m' => (m', wr hash_table_ptrs bucket_i dst)
        | None => s
        end
      else s.

(** The threads run in the order [order]. *)
Definition kerCopyAddedStrings (a : add_args) (buckets : list Z) (old_str_buf_sz : Z)
    (new_strings_offsets : list Z) (str_buf : Z) (order : list nat) (s : memory * list Z) : memory * list Z :=
  foldl (fun s i => copy_row a buckets old_str_buf_sz new_strings_offsets str_buf i s) s order.

Definition kerCalcTotalAddedLen (n : Z) (new_strings_offsets new_strings_lens : list Z) : Z :=
  rd new_strings_offsets (n - 1) +32 rd new_strings_lens (n - 1).

Definition kerCalcOffsets (n : Z) (str_buf : Z) (p : list Z) (res_offsets : list Z) : list Z :=
  par_for (Z.to_nat n) (fun i res => wr res (Z.of_nat i) (u32 (rd p (Z.of_nat i) - str_buf))) res_offsets.

Definition kerFillEmptyResBucket (elements_num : Z) (res : list Z) : list Z :=
  par_for (Z.to_nat elements_num) (fun i res => wr res (Z.of_nat i) (u32 (Z.lnot 0))) res.

(** ** Methods *)

(** The constructor.  [cudaMalloc] leaves the arrays uninitialised: [alloc i k]
    is what the [i]-th array of [k] cells happens to hold, [p] the address of
    the string buffer.  The table is usable after [erase]. *)
Definition construct (alloc : nat -> nat -> list Z) (p : Z) (buckets_num_ str_buf_max_sz_ : Z) : hash_table :=
  let k := Z.to_nat buckets_num_ in
  HashTable buckets_num_ 0 str_buf_max_sz_ (Table (alloc 0%nat k) (alloc 1%nat k) (alloc 3%nat k))
    (alloc 2%nat k) (alloc 4%nat k) (alloc 5%nat k) p.

Definition erase (H : hash_table) : hash_table :=
  HashTable (ht_buckets_num H) 0 (ht_str_buf_max_sz H) (kerErase (ht_buckets_num H) (ht_tab H))
    (ht_offsets H) (ht_buf1 H) (ht_buf2 H) (ht_str_buf H).

(** [addData(str_num, buf, offsets, lens, res_buckets)]: the kernels run with
    schedule [s] and copy order [order].  The two exceptions are thrown after
    the kernels have changed the device state, which is returned with them. *)
Definition addData (s : schedule) (order : list nat) (d : device) (H : hash_table)
    (num : nat) (bf : Z) (offs ls : list Z) (res : list Z)
    : device * hash_table * list Z * option add_error :=
  let n := ht_buckets_num H in
  let a := AddArgs num bf offs ls 0 n in
  let buf1 := kerFillZero n (ht_buf1 H) in
  let g := run (dev_mem d) a (ht_tab H) s (launch a (ht_tab H) res buf1 (dev_table_is_full d)) in
  let buf1 := new_strings_lens g in
  let buf2 := exclusive_sum 0 buf1 in
  let '(m', ptrs') := kerCopyAddedStrings a (res_buckets g) (ht_str_buf_sz H) buf2 (ht_str_buf H) order
                        (dev_mem d, ptrs (tab g)) in
  let total := kerCalcTotalAddedLen n buf2 buf1 in
  let d' := Device m' (table_is_full g) in
  let with_sz sz := HashTable n sz (ht_str_buf_max_sz H)
    (Table (hashes (tab g)) (table_lens (tab g)) ptrs') (ht_offsets H) buf1 buf2 (ht_str_buf H) in
  if table_is_full g then (d', with_sz (ht_str_buf_sz H), res_buckets g, Some TableIsFull)
  else if ht_str_buf_max_sz H <? (ht_str_buf_sz H +32 total)
  then (d', with_sz (ht_str_buf_sz H), res_buckets g, Some StringBufferIsFull)
  else (d', with_sz (ht_str_buf_sz H +32 total), res_buckets g, None).

Definition calcOffsets (H : hash_table) : hash_table :=
  HashTable (ht_buckets_num H) (ht_str_buf_sz H) (ht_str_buf_max_sz H) (ht_tab H)
    (kerCalcOffsets (ht_buckets_num H) (ht_str_buf H) (ptrs (ht_tab H)) (ht_offsets H))
    (ht_buf1 H) (ht_buf2 H) (ht_str_buf H).

(** Adds the strings of [H] to the table [K]; the result is both tables. *)
Definition mergeToOtherTable (s : schedule) (order : list nat) (d : device) (H K : hash_table) (res : list Z)
    : device * hash_table * hash_table * list Z * option add_error :=
  let H := calcOffsets H in
  let res := kerFillEmptyResBucket (ht_buckets_num H) res in
  let '(d', K', res', e) := addData s order d K (Z.to_nat (ht_buckets_num H)) (ht_str_buf H)
    (ht_offsets H) (table_lens (ht_tab H)) res in
  (d', H, K', res', e).

(** ** The copy loop *)

Definition pad8 (z : Z) : Z := (z + 7) / 8 * 8.

(** The aligned words that hold the bytes from [p] to [e]. *)
Definition hull_apart (p e lo hi : Z) : Prop :=
  e - 1 - (e - 1) mod 8 + 8 <= lo \/ hi <= p - p mod 8.

Lemma reader_ok_agree m m' r e :
  (forall x, ptr_curr r - ptr_curr r mod 8 <= x < e - 1 - (e - 1) mod 8 + 8 -> m' x = m x) ->
  reader_ok m r e -> reader_ok m' r e.
Proof.
  intros H (Hc & He & Ht). split_and!; auto; [lia|lia|]. intros Hf Hlt. rewrite Ht by done.
  rewrite align_down_spec by (unfold fits; lia). unfold load64. f_equal. symmetry.
  apply bytes_agree. intros x Hx. apply H. dlia.
Qed.

Lemma copy_loop_spec fuel m r e dst :
  mem_ok m -> reader_ok m r e -> e - ptr_curr r <= 8 * Z.of_nat fuel ->
  hull_apart (ptr_curr r) e dst (dst + pad8 (e - ptr_curr r)) ->
  exists m', copy_loop fuel m r e dst = Some m' /\ mem_ok m' /\
    (forall x, x < dst \/ dst + pad8 (e - ptr_curr r) <= x -> m' x = m x) /\
    bytes m' dst (length (remaining m r e)) = remaining m r e.
Proof.
  revert m r dst. induction fuel as [|fuel IH]; intros m r dst Hm Hr Hf Ha; cbn [copy_loop];
    (destruct (Z.eqb_spec (ptr_curr r) e) as [He|Hne];
      [exists m; unfold remaining; rewrite He; by replace (Z.to_nat (e - e)) with 0%nat by lia|]);
    assert (ptr_curr r < e) by (destruct Hr; lia); [lia|].
  pose proof (read_value m r e Hm Hr ltac:(lia)) as V.
  pose proof (read_next m r e Hm Hr ltac:(lia)) as (N & R & P).
  destruct (cudaReadStringUnaligned64 m r e) as [v r']. cbn [fst snd] in *. subst v.
  set (m1 := store64 m dst (le_word (take 8 (remaining m r e)))).
  assert (forall x, x < dst \/ dst + 8 <= x -> m1 x = m x) as Hm1
    by (intros x Hx; apply store_le_outside; lia).
  assert (mem_ok m1) by (by apply store64_ok).
  unfold hull_apart, pad8 in *.
  assert (reader_ok m1 r' e) as N1.
  { eapply reader_ok_agree; [|exact N]. intros x Hx. apply Hm1. rewrite P in Hx. dlia. }
  destruct (IH m1 r' (dst + 8)) as (m' & E & Hok & Hout & Hb); auto.
  { lia. }
  { rewrite P. dlia. }
  exists m'. split_and!; auto.
  - intros x Hx. rewrite Hout by (rewrite P; dlia). apply Hm1. dlia.
  - set (l := remaining m r e) in *.
    assert (remaining m1 r' e = drop 8 l) as R1.
    { rewrite <- R. unfold remaining. apply bytes_agree. intros x Hx. apply Hm1. dlia. }
    rewrite R1 in Hb.
    assert (Forall (fits 8) l) as Hl by (unfold l, remaining; auto with bytes).
    rewrite <- (take_drop 8 l) at 2. rewrite <- (take_drop 8 l) at 1.
    rewrite length_app, bytes_app. f_equal.
    + rewrite <- (store64_bytes m dst (take 8 l)) at 2; [|by apply Forall_take|rewrite length_take; lia].
      apply bytes_agree. intros x Hx. rewrite length_take in Hx. apply Hout. lia.
    + destruct (decide (8 <= length l)%nat) as [H8|H8].
      * rewrite <- Hb at 2. f_equal. rewrite length_take. lia.
      * by rewrite (drop_ge l 8) by lia.
Qed.

(** ** Sums of cells *)

Lemma zsum_mod8 l : Forall (fun x => x mod 8 = 0) l -> zsum l mod 8 = 0.
Proof. induction 1; [done|]. cbn [zsum]. dlia. Qed.

(** The exclusive sums do not wrap when the total fits. *)
Lemma exclusive_sum_spec l acc i :
  nonneg l -> 0 <= acc -> acc + zsum l < 2 ^ 32 -> (i < length l)%nat ->
  rd (exclusive_sum acc l) (Z.of_nat i) = acc + zsum (take i l).
Proof.
  intros Hl. revert acc i. induction Hl as [|x l Hx Hl IH]; intros acc i Ha Hs Hi; simpl in *; [lia|].
  pose proof (zsum_nonneg l Hl). rewrite wrap_small by (unfold fits; lia).
  destruct i as [|i]; [unfold rd; simpl; lia|]. unfold rd in *. rewrite Nat2Z.id in *. simpl.
  specialize (IH (acc + x) i). rewrite Nat2Z.id in IH. rewrite IH by lia. lia.
Qed.

Lemma length_exclusive_sum l acc : length (exclusive_sum acc l) = length l.
Proof. revert acc. induction l; intros; simpl; auto. Qed.

Lemma zsum_take_S l i : (i < length l)%nat -> zsum (take (S i) l) = zsum (take i l) + rd l (Z.of_nat i).
Proof.
  intros Hi. destruct (lookup_lt_is_Some_2 l i Hi) as [x Hx].
  rewrite (take_S_r l i x) by done. rewrite zsum_app. simpl.
  rewrite (rd_lookup l (Z.of_nat i) x) by (rewrite ?Nat2Z.id; done || lia). lia.
Qed.

Lemma zsum_take_mono l i j : nonneg l -> (i <= j)%nat -> zsum (take i l) <= zsum (take j l).
Proof.
  intros Hl Hij. replace (take j l) with (take i l ++ drop i (take j l)).
  - rewrite zsum_app. pose proof (zsum_nonneg (drop i (take j l))) as H.
    specialize (H ltac:(by apply Forall_drop, Forall_take)). lia.
  - rewrite <- (take_drop i (take j l)) at 2. rewrite take_take. do 2 f_equal. lia.
Qed.

(** The areas reserved for two buckets do not overlap and lie in the total. *)
Lemma zsum_areas l i j :
  nonneg l -> (i < j < length l)%nat -> zsum (take i l) + rd l (Z.of_nat i) <= zsum (take j l).
Proof. intros Hl Hij. rewrite <- zsum_take_S by lia. apply zsum_take_mono; [done|lia]. Qed.

Lemma zsum_area_total l i :
  nonneg l -> (i < length l)%nat -> zsum (take i l) + rd l (Z.of_nat i) <= zsum l.
Proof.
  intros Hl Hi. rewrite <- zsum_take_S by done. rewrite <- (take_ge l (length l)) at 2 by done.
  apply zsum_take_mono; [done|lia].
Qed.

Lemma kerCalcTotalAddedLen_spec l :
  nonneg l -> zsum l < 2 ^ 32 -> l <> [] ->
  kerCalcTotalAddedLen (Z.of_nat (length l)) (exclusive_sum 0 l) l = zsum l.
Proof.
  intros Hl Hs Hne. unfold kerCalcTotalAddedLen.
  assert (0 < length l)%nat by (destruct l; [done|simpl; lia]).
  replace (Z.of_nat (length l) - 1) with (Z.of_nat (length l - 1)) by lia.
  rewrite exclusive_sum_spec by (done || lia). rewrite Z.add_0_l, <- zsum_take_S by lia.
  rewrite take_ge by lia. apply wrap_small. pose proof (zsum_nonneg l Hl). unfold fits. lia.
Qed.

(** A sum over the buckets [bs] bounded by a sum over rows, when each bucket
    that contributes has a row of its own. *)
Lemma zsum_owned (f : Z -> Z) (g : nat -> Z) (own : nat -> Z) (bs : list Z) (k : nat) :
  NoDup bs -> (forall i, 0 <= g i) ->
  (forall b, b ∈ bs -> f b <= 0 \/ exists i, (i < k)%nat /\ own i = b /\ f b <= g i) ->
  zsum (map f bs) <= zsum (map g (seq 0 k)).
Proof.
  intros Hnd Hg H.
  assert (exists rs, NoDup rs /\ (forall i, i ∈ rs -> (i < k)%nat /\ own i ∈ bs) /\
    zsum (map f bs) <= zsum (map g rs)) as (rs & N & S & L).
  { revert H. induction Hnd as [|b bs Hb Hnd IH]; intros H.
    - exists []. split_and!; [constructor|set_solver|done].
    - destruct IH as (rs & N & S & L); [set_solver|].
      destruct (H b ltac:(set_solver)) as [Hz|(i & Hi & Ho & Hf)].
      + exists rs. split_and!; [done|set_solver|simpl; lia].
      + exists (i :: rs). split_and!; [constructor; set_solver|set_solver|simpl; lia]. }
  etrans; [exact L|]. apply zsum_submseteq.
  - apply Forall_fmap, Forall_true. intros i. apply Hg.
  - apply fmap_submseteq, NoDup_submseteq; [done|]. intros i Hi. apply elem_of_seq. apply S in Hi. lia.
Qed.

(** ** Copying the added strings *)

Lemma padded_len_spec len : 0 <= len <= 2 ^ 32 - 8 -> padded_len len = pad8 len.
Proof.
  intros H. unfold padded_len, pad8. destruct (decide (len = 0)) as [->|]; [done|].
  rewrite (wrap_small 32 (len - 1)) by (unfold fits; lia).
  rewrite (wrap_small 32 (_ + 1)) by (unfold fits; dlia).
  rewrite wrap_small by (unfold fits; dlia). dlia.
Qed.

(** What [kerAddData] leaves for the copy: rows that know their bucket, and
    for every new bucket a row whose address and padded length it has. *)
Record added (m : memory) (a : add_args) (T0 T : table) (res nsl : list Z) : Prop := {
  ad_table : table_ok m a T;
  ad_le : table_le a T0 T;
  ad_rows : forall i, live a i -> 0 <= rd res (Z.of_nat i) < buckets_num a /\
    holds m a T (rd res (Z.of_nat i)) (row_key m a i);
  ad_new : forall b, 0 <= b < buckets_num a -> rd (ptrs T) b <> 0 -> rd (ptrs T0) b = 0 ->
    exists i, live a i /\ rd res (Z.of_nat i) = b /\ rd (ptrs T) b = row_ptr a i /\
      rd (table_lens T) b = row_len a i /\ rd nsl b = padded_len (row_len a i);
  ad_old : forall b, 0 <= b < buckets_num a -> rd nsl b <> 0 ->
    rd (ptrs T) b <> 0 /\ rd (ptrs T0) b = 0;
  ad_len : Z.of_nat (length nsl) = buckets_num a
}.

Section copy.
Context (m : memory) (a : add_args) (T0 T : table) (res nsl : list Z).
Context (Hargs : args_ok m a) (HT0 : table_ok m a T0) (Hadd : added m a T0 T res nsl).
Context (str_buf sz lim : Z).
Hypothesis Hbuf : 0 < str_buf /\ 0 <= sz /\ str_buf + lim <= 2 ^ 64 /\ lim < 2 ^ 32.
Hypothesis Hold : forall b, 0 <= b < buckets_num a -> rd (ptrs T0) b <> 0 ->
  str_buf <= rd (ptrs T0) b /\ rd (ptrs T0) b + rd (table_lens T0) b <= str_buf + sz.
Hypothesis Hrows : forall i, live a i -> row_len a i <= 2 ^ 32 - 8 /\
  hull_apart (row_ptr a i) (row_ptr a i + row_len a i) str_buf (str_buf + lim).
Hypothesis Hnsl : nonneg nsl /\ sz + zsum nsl <= lim.

#[local] Abbreviation n := (buckets_num a).
#[local] Abbreviation base := (str_buf + sz).

(** Where bucket [b]'s string is copied to. *)
Definition dst (b : Z) : Z := base + zsum (take (Z.to_nat b) nsl).

Lemma dst_spec b : 0 <= b < n -> str_buf + (sz +32 rd (exclusive_sum 0 nsl) b) = dst b.
Proof.
  intros Hb. pose proof (ad_len _ _ _ _ _ _ Hadd) as Hl. destruct Hnsl as [Hn Hs].
  rewrite <- (Z2Nat.id b) at 1 by lia. rewrite exclusive_sum_spec by (done || lia).
  pose proof (zsum_area_total nsl (Z.to_nat b) Hn ltac:(lia)).
  pose proof (zsum_nonneg (take (Z.to_nat b) nsl) ltac:(by apply Forall_take)).
  assert (0 <= rd nsl (Z.of_nat (Z.to_nat b))).
  { destruct (lookup_lt_is_Some_2 nsl (Z.to_nat b) ltac:(lia)) as [x Hx].
    rewrite (rd_lookup _ _ x) by (rewrite ?Nat2Z.id; done || lia).
    unfold nonneg in Hn. rewrite Forall_lookup in Hn. by apply (Hn (Z.to_nat b)). }
  unfold dst. rewrite wrap_small by (unfold fits; lia). lia.
Qed.

Lemma dst_range b : 0 <= b < n -> base <= dst b /\ dst b + rd nsl b <= base + zsum nsl.
Proof.
  intros Hb. pose proof (ad_len _ _ _ _ _ _ Hadd) as Hl. destruct Hnsl as [Hn Hs].
  pose proof (zsum_area_total nsl (Z.to_nat b) Hn ltac:(lia)) as H. rewrite Z2Nat.id in H by lia.
  pose proof (zsum_nonneg (take (Z.to_nat b) nsl) ltac:(by apply Forall_take)). unfold dst. lia.
Qed.

Lemma dst_disjoint b b' :
  0 <= b < n -> 0 <= b' < n -> b <> b' ->
  dst b + rd nsl b <= dst b' \/ dst b' + rd nsl b' <= dst b.
Proof.
  intros Hb Hb' Hne. pose proof (ad_len _ _ _ _ _ _ Hadd) as Hl. destruct Hnsl as [Hn Hs]. unfold dst.
  destruct (decide (b < b')).
  - pose proof (zsum_areas nsl (Z.to_nat b) (Z.to_nat b') Hn ltac:(lia)) as H.
    rewrite Z2Nat.id in H by lia. lia.
  - pose proof (zsum_areas nsl (Z.to_nat b') (Z.to_nat b) Hn ltac:(lia)) as H.
    rewrite Z2Nat.id in H by lia. lia.
Qed.

(** A bucket of this launch. *)
Definition new (b : Z) : Prop := 0 <= b < n /\ rd (ptrs T) b <> 0 /\ rd (ptrs T0) b = 0.

(** The state after the rows [seen] have been through the kernel. *)
Record copy_inv (seen : list nat) (s : memory * list Z) : Prop := {
  ci_mem : mem_ok s.1;
  ci_out : forall x, x < base \/ base + zsum nsl <= x -> s.1 x = m x;
  ci_len : length s.2 = length (ptrs T);
  ci_old : forall b, 0 <= b < n -> ~ new b -> rd s.2 b = rd (ptrs T) b;
  ci_new : forall b, new b ->
    (rd s.2 b = rd (ptrs T) b /\
     forall i, i ∈ seen -> live a i -> rd res (Z.of_nat i) = b -> row_ptr a i <> rd (ptrs T) b) \/
    (rd s.2 b = dst b /\ bytes s.1 (dst b) (Z.to_nat (rd (table_lens T) b)) = slot_key m T b)
}.

Lemma copy_inv_init : copy_inv [] (m, ptrs T).
Proof.
  split; cbn; auto; [apply Hargs|]. intros b Hb. left. split; [done|].
  intros i Hi. by apply elem_of_nil in Hi.
Qed.

(** The data of a live row whose bucket is [b]. *)
Lemma row_bucket i b :
  live a i -> rd res (Z.of_nat i) = b ->
  0 <= b < n /\ rd (ptrs T) b <> 0 /\ rd (table_lens T) b = row_len a i /\ 0 < row_len a i /\
  slot_key m T b = row_key m a i /\ 0 < row_ptr a i /\ row_ptr a i + row_len a i <= 2 ^ 64.
Proof.
  intros L E. destruct (ad_rows _ _ _ _ _ _ Hadd i L) as [Hb (_ & Hl & Hp & Hk)]. rewrite E in *.
  rewrite (length_row_key m a i Hargs L) in Hl. destruct L as [Hi Hz].
  destruct Hargs as (_ & _ & Hr). destruct (Hr i Hi) as [H1 H2]. specialize (H2 Hz).
  split_and!; auto; lia.
Qed.

Lemma new_padded b : new b -> rd nsl b = pad8 (rd (table_lens T) b).
Proof.
  intros (Hb & Hp & H0). destruct (ad_new _ _ _ _ _ _ Hadd b Hb Hp H0) as (i & L & _ & _ & El & ->).
  rewrite El. apply padded_len_spec. destruct Hargs as (_ & _ & Hr).
  destruct (Hr i (proj1 L)) as [? _]. destruct (Hrows i L). lia.
Qed.

(** An old bucket never has a row's address, nor has a copied string. *)
Lemma row_not_in_buf i x : live a i -> str_buf <= x < str_buf + lim -> row_ptr a i <> x.
Proof.
  intros L Hx E. destruct (Hrows i L) as [_ [H|H]].
  - destruct Hargs as (_ & _ & Hr). destruct (Hr i (proj1 L)) as [? _]. destruct L. dlia.
  - dlia.
Qed.

Lemma old_ptr_in_buf b :
  0 <= b < n -> rd (ptrs T) b <> 0 -> ~ new b ->
  str_buf <= rd (ptrs T) b /\ rd (ptrs T) b + rd (table_lens T) b <= base.
Proof.
  intros Hb Hp Hn. destruct (decide (rd (ptrs T0) b = 0)) as [E|E]; [by destruct Hn|].
  destruct (ad_le _ _ _ _ _ _ Hadd) as (_ & Hl & Hp'). rewrite (Hp' b Hb E).
  destruct HT0 as [_ HS]. destruct (HS b Hb) as [(_ & _ & S) _]. destruct (S E) as [Hz _].
  rewrite (Hl b Hb Hz). by apply Hold.
Qed.

Lemma copy_row_loop seen s i b :
  copy_inv seen s -> live a i -> new b -> rd res (Z.of_nat i) = b ->
  exists m2, copy_loop (S (Z.to_nat (row_len a i) / 8)) s.1 (reader_init (row_ptr a i))
      (row_ptr a i + row_len a i) (dst b) = Some m2 /\ mem_ok m2 /\
    (forall x, x < dst b \/ dst b + rd nsl b <= x -> m2 x = s.1 x) /\
    bytes m2 (dst b) (Z.to_nat (row_len a i)) = row_key m a i.
Proof.
  intros I L Nb E. destruct (row_bucket i b L E) as (Hb & Hp & El & Hl & Ek & Hr & Hr').
  pose proof (dst_range b Hb) as Db. pose proof (new_padded b Nb) as Pb. rewrite El in Pb.
  destruct (Hrows i L) as [_ Ha]. unfold hull_apart in Ha. destruct Hnsl as [_ Hs].
  destruct (copy_loop_spec (S (Z.to_nat (row_len a i) / 8)) s.1 (reader_init (row_ptr a i))
    (row_ptr a i + row_len a i) (dst b)) as (m2 & E2 & M2 & Out & Bs).
  - apply I.
  - rewrite <- (Z2Nat.id (row_len a i)) by lia. apply reader_init_ok; lia.
  - cbn [reader_init ptr_curr]. pose proof (Nat.div_mod_eq (Z.to_nat (row_len a i)) 8).
    pose proof (Nat.mod_upper_bound (Z.to_nat (row_len a i)) 8 ltac:(lia)). lia.
  - unfold hull_apart. cbn [reader_init ptr_curr]. replace (row_ptr a i + row_len a i - row_ptr a i) with (row_len a i) by lia. rewrite <- Pb. lia.
  - assert (forall m', remaining m' (reader_init (row_ptr a i)) (row_ptr a i + row_len a i) =
      bytes m' (row_ptr a i) (Z.to_nat (row_len a i))) as Rm.
    { intros m'. rewrite <- (Z2Nat.id (row_len a i)) at 1 by lia. apply remaining_init. }
    rewrite Rm, length_bytes in Bs. cbn [reader_init ptr_curr] in Out.
    replace (row_ptr a i + row_len a i - row_ptr a i) with (row_len a i) in Out by lia. rewrite <- Pb in Out.
    exists m2. split_and!; auto. rewrite Bs. apply bytes_agree. intros x Hx. apply I. dlia.
Qed.

Lemma copy_row_inv seen s i :
  copy_inv seen s ->
  copy_inv (i :: seen) (copy_row a res sz (exclusive_sum 0 nsl) str_buf i s).
Proof.
  destruct s as [m1 p1]. intros I.
  assert ((live a i -> rd p1 (rd res (Z.of_nat i)) <> row_ptr a i) -> copy_inv (i :: seen) (m1, p1)) as Skip.
  { intros Hs. split; try apply I. intros b Hb. destruct (ci_new _ _ I b Hb) as [[E H]|H]; [left|by right].
    split; [done|]. intros j [->|Hj]%elem_of_cons L Ej; [|by apply H].
    cbn in E. rewrite <- E, <- Ej. intros F. by apply Hs. }
  unfold copy_row. destruct (Nat.ltb_spec i (str_num a)) as [Hi|Hi]; cbn [negb];
    [|apply Skip; intros []; lia].
  destruct (Z.eqb_spec (row_len a i) DBMS_CUDA_EMPTY_LEN_VAL) as [Hz|Hz]; [apply Skip; by intros []|].
  assert (live a i) as L by done.
  destruct (Z.eqb_spec (rd p1 (rd res (Z.of_nat i))) (row_ptr a i)) as [Ep|]; [|by apply Skip].
  set (b := rd res (Z.of_nat i)) in *.
  destruct (row_bucket i b L eq_refl) as (Hb & Hp & El & Hl & Ek & Hr & Hr').
  assert (new b) as Nb.
  { destruct (decide (rd (ptrs T0) b = 0)); [by split; [|split]|]. assert (~ new b) as Nn by (by intros (_&_&?)).
    pose proof (ci_old _ _ I b Hb Nn) as E. cbn in E. rewrite E in Ep.
    destruct (old_ptr_in_buf b Hb Hp Nn). exfalso. apply (row_not_in_buf i (rd (ptrs T) b) L); [|done].
    destruct Hnsl as [Hn ?]. pose proof (zsum_nonneg _ Hn). lia. }
  rewrite dst_spec by done. pose proof (dst_range b Hb) as Db. pose proof (new_padded b Nb) as Pb.
  rewrite El in Pb.
  destruct (copy_row_loop seen (m1, p1) i b I L Nb eq_refl) as (m2 & E2 & M2 & Out & Bs). cbn [fst] in E2, Out.
  rewrite E2.
  pose proof (ci_len _ _ I) as Hlen. cbn in Hlen.
  assert (Z.of_nat (length p1) = n) as Hlp by (rewrite Hlen; apply (ad_table _ _ _ _ _ _ Hadd)).
  split; cbn; auto.
  - intros x Hx. rewrite Out by lia. by apply I.
  - by rewrite length_wr.
  - intros b' Hb' Nn. rewrite rd_wr_ne by (lia || (intros ->; done)). by apply I.
  - intros b' Nb'. destruct (decide (b' = b)) as [->|Hne].
    + right. rewrite rd_wr_eq by lia. by rewrite El, Ek.
    + assert (0 <= b' < n) as Hb' by apply Nb'. rewrite rd_wr_ne by lia.
      destruct (ci_new _ _ I b' Nb') as [[E H]|[E H]]; [left|right]; (split; [done|]).
      * intros j [->|Hj]%elem_of_cons Lj Ej; [by destruct Hne|by apply H].
      * rewrite <- H. apply bytes_agree. intros x Hx. apply Out.
        pose proof (dst_disjoint b b' Hb Hb' ltac:(congruence)). pose proof (new_padded b' Nb').
        unfold pad8 in *. dlia.
Qed.

Lemma copy_all_inv order seen s :
  copy_inv seen s ->
  copy_inv (rev order ++ seen) (kerCopyAddedStrings a res sz (exclusive_sum 0 nsl) str_buf order s).
Proof.
  revert seen s. induction order as [|i order IH]; intros seen s I; [done|]. cbn [rev].
  rewrite <- app_assoc. by apply IH, copy_row_inv.
Qed.

(** The kernel, whatever order its threads run in. *)
Lemma copy_final order :
  order ≡ₚ seq 0 (str_num a) ->
  let s := kerCopyAddedStrings a res sz (exclusive_sum 0 nsl) str_buf order (m, ptrs T) in
  mem_ok s.1 /\ (forall x, x < base \/ base + zsum nsl <= x -> s.1 x = m x) /\
  length s.2 = length (ptrs T) /\
  (forall b, 0 <= b < n -> ~ new b -> rd s.2 b = rd (ptrs T) b) /\
  (forall b, new b ->
    rd s.2 b = dst b /\ bytes s.1 (dst b) (Z.to_nat (rd (table_lens T) b)) = slot_key m T b).
Proof.
  intros Hp s. pose proof (copy_all_inv order [] _ copy_inv_init) as I. fold s in I.
  split_and!; try apply I. intros b Nb. destruct (ci_new _ _ I b Nb) as [[_ H]|H]; [exfalso|done].
  destruct Nb as (Hb & Hpb & H0). destruct (ad_new _ _ _ _ _ _ Hadd b Hb Hpb H0) as (i & L & Er & Ep & _).
  apply (H i); auto. rewrite app_nil_r. apply list_elem_of_In, in_rev, list_elem_of_In.
  rewrite rev_involutive. rewrite Hp, elem_of_seq. destruct L. lia.
Qed.
End copy.

(** A table whose strings have been moved: the same buckets hold the same
    strings. *)
Section move.
Context (m m' : memory) (a : add_args) (T : table) (p' : list Z).
#[local] Abbreviation n := (buckets_num a).
#[local] Abbreviation T' := (Table (hashes T) (table_lens T) p').
Hypothesis HT : table_ok m a T.
Hypothesis Hn : 0 < n.
Hypothesis Hlen : length p' = length (ptrs T).
Hypothesis Hempty : forall b, 0 <= b < n -> rd (ptrs T) b = 0 -> rd p' b = 0.
Hypothesis Hmoved : forall b, 0 <= b < n -> rd (ptrs T) b <> 0 ->
  0 < rd p' b /\ rd p' b + rd (table_lens T) b <= 2 ^ 64 /\
  bytes m' (rd p' b) (Z.to_nat (rd (table_lens T) b)) = slot_key m T b.

Lemma moved_occupied b : 0 <= b < n -> rd p' b <> 0 <-> rd (ptrs T) b <> 0.
Proof.
  intros Hb. split; intros H E; [auto|]. destruct (Hmoved b Hb H). lia.
Qed.

Lemma moved_slot_key b : 0 <= b < n -> rd (ptrs T) b <> 0 -> slot_key m' T' b = slot_key m T b.
Proof. intros Hb H. by apply Hmoved. Qed.

Lemma moved_rejects b k : 0 <= b < n -> rejects m a T b k -> rejects m' a T' b k.
Proof.
  intros Hb (Hh & R). split; [done|]. destruct R as [R|[Hl [R|[Hp R]]]]; auto.
  right. split; [done|]. right. cbn. rewrite moved_occupied, moved_slot_key; auto.
Qed.

Lemma moved_holds b k : 0 <= b < n -> holds m' a T' b k <-> holds m a T b k.
Proof.
  intros Hb. unfold holds. cbn [hashes table_lens ptrs]. rewrite moved_occupied by done.
  split; intros (?&?&?&?); split_and!; try done; [rewrite <- moved_slot_key|rewrite moved_slot_key]; done.
Qed.

Lemma moved_ok : table_ok m' a T'.
Proof.
  destruct HT as [(L1 & L2 & L3) HS]. split; [split_and!; cbn; congruence|].
  intros b Hb. destruct (HS b Hb) as [(S1 & S2 & S3) C]. split.
  - unfold slot_ok. cbn [hashes table_lens ptrs]. split; [done|split; [done|]].
    rewrite moved_occupied by done. intros Hp.
    rewrite moved_slot_key by done. destruct (S3 Hp) as (? & ? & ? & ? & j & Hj & Ej & P).
    destruct (Hmoved b Hb Hp) as (? & ? & _). split_and!; auto.
    exists j. split_and!; auto; [lia|lia|]. intros j' Hj'. apply moved_rejects; [by apply pos_range|auto].
  - cbn [hashes ptrs]. intros Hh. apply moved_occupied; auto.
Qed.
End move.

(** ** Invariant of the class and its contents *)

(** The parameters of the probe sequences; the rows play no part in them. *)
Definition table_args (n : Z) : add_args := AddArgs 0 0 [] [] 0 n.

Record ht_ok (m : memory) (H : hash_table) : Prop := {
  hk_num : 0 < ht_buckets_num H < 2 ^ 32;
  hk_tab : table_ok m (table_args (ht_buckets_num H)) (ht_tab H);
  hk_sz : 0 <= ht_str_buf_sz H <= ht_str_buf_max_sz H /\ ht_str_buf_max_sz H < 2 ^ 32;
  hk_buf : 0 < ht_str_buf H /\ ht_str_buf H + ht_str_buf_max_sz H <= 2 ^ 64;
  hk_align : ht_str_buf H mod 8 = 0 /\ ht_str_buf_sz H mod 8 = 0;
  hk_ptrs : forall b, 0 <= b < ht_buckets_num H -> rd (ptrs (ht_tab H)) b <> 0 ->
    rd (ptrs (ht_tab H)) b mod 8 = 0 /\ ht_str_buf H <= rd (ptrs (ht_tab H)) b /\
    rd (ptrs (ht_tab H)) b + rd (table_lens (ht_tab H)) b <= ht_str_buf H + ht_str_buf_sz H;
  hk_lens : Z.of_nat (length (ht_buf1 H)) = ht_buckets_num H /\
    Z.of_nat (length (ht_buf2 H)) = ht_buckets_num H /\
    Z.of_nat (length (ht_offsets H)) = ht_buckets_num H
}.

(** The buckets in use, and the map from strings to buckets they represent. *)
Definition used (H : hash_table) : list Z :=
  filter (fun b => rd (ptrs (ht_tab H)) b <> 0) (map Z.of_nat (seq 0 (Z.to_nat (ht_buckets_num H)))).

Definition contents (m : memory) (H : hash_table) : gmap (list Z) Z :=
  list_to_map (map (fun b => (slot_key m (ht_tab H) b, b)) (used H)).

Lemma elem_of_used H b :
  b ∈ used H <-> 0 <= b < ht_buckets_num H /\ rd (ptrs (ht_tab H)) b <> 0.
Proof.
  unfold used. rewrite list_elem_of_filter. split.
  - intros [Hp Hb]. apply list_elem_of_fmap in Hb as (i & -> & Hi). apply elem_of_seq in Hi. split; [lia|done].
  - intros [Hb Hp]. split; [done|]. apply list_elem_of_fmap. exists (Z.to_nat b). rewrite elem_of_seq. lia.
Qed.

Lemma NoDup_used H : NoDup (used H).
Proof.
  unfold used. apply list.NoDup_filter, (NoDup_fmap_2 Z.of_nat), NoDup_seq.
Qed.

Section contents.
Context (m : memory) (H : hash_table) (Hok : ht_ok m H).
#[local] Abbreviation a := (table_args (ht_buckets_num H)).

Lemma used_holds b : b ∈ used H -> holds m a (ht_tab H) b (slot_key m (ht_tab H) b).
Proof. rewrite elem_of_used. intros [Hb Hp]. apply (table_ok_holds m a); auto. apply Hok. Qed.

Lemma contents_lookup k b :
  contents m H !! k = Some b <->
  0 <= b < ht_buckets_num H /\ holds m a (ht_tab H) b k.
Proof.
  unfold contents. rewrite <- elem_of_list_to_map.
  - rewrite list_elem_of_fmap. split.
    + intros (b' & [= -> ->] & Hu). split; [by apply elem_of_used|by apply used_holds].
    + intros [Hb Hh]. exists b. split; [f_equal; symmetry; apply Hh|]. apply elem_of_used. split; [done|apply Hh].
  - rewrite <- list_fmap_compose. apply NoDup_fmap_2_strong; [|apply NoDup_used].
    intros b1 b2 H1 H2 E. cbn in E. pose proof (used_holds b1 H1) as U1. pose proof (used_holds b2 H2) as U2.
    rewrite <- E in U2. apply elem_of_used in H1 as [? _], H2 as [? _].
    eapply (table_ok_unique m a); eauto. apply Hok.
Qed.
End contents.

(** ** Grids that write one cell per thread *)

Lemma kerFillZero_spec k l :
  Z.of_nat (length l) = k ->
  Z.of_nat (length (kerFillZero k l)) = k /\ forall b, 0 <= b < k -> rd (kerFillZero k l) b = 0.
Proof.
  intros Hl. destruct (par_for_wr (Z.to_nat k) (fun _ => 0) l) as [L R]. unfold kerFillZero.
  split; [by rewrite L|]. intros b Hb. rewrite R by lia. by destruct (decide _); [|lia].
Qed.

(** ** From the insertion kernel to the copy *)

Section after_kernel.
Context (m : memory) (a : add_args) (T0 : table) (res nsl : list Z) (full : bool) (s : schedule).
Context (Hl : launch_ok m a T0 res nsl).
#[local] Abbreviation n := (buckets_num a).
#[local] Abbreviation g := (run m a T0 s (launch a T0 res nsl full)).
Context (Hx : all_exited g = true).

Lemma grid_new_row b :
  0 <= b < n -> rd (ptrs (tab g)) b <> 0 -> rd (ptrs T0) b = 0 ->
  exists i, live a i /\ rd (res_buckets g) (Z.of_nat i) = b /\ rd (ptrs (tab g)) b = row_ptr a i /\
    rd (table_lens (tab g)) b = row_len a i /\ rd (new_strings_lens g) b = padded_len (row_len a i).
Proof.
  intros Hb Hp H0. pose proof (launched_inv m a T0 res nsl full s Hl) as I.
  pose proof (final_table_ok m a T0 full g I Hx) as FT. destruct Hl as (Ha & HT & _).
  pose proof (table_ok_holds m a (tab g) b FT Hb Hp) as Hh.
  destruct (holds_origin m a T0 full _ b _ I Hx Hb HT Hh) as [(_&_&?&_)|(i & L & Ek & _ & Ep & Er & En)]; [done|].
  exists i. destruct Hh as (_ & El & _). rewrite <- Ek, length_row_key in El by done.
  split_and!; auto. by rewrite En, El.
Qed.

Lemma grid_added : table_is_full g = false -> added m a T0 (tab g) (res_buckets g) (new_strings_lens g).
Proof.
  intros Hf. pose proof (launched_inv m a T0 res nsl full s Hl) as I. split.
  - by eapply final_table_ok.
  - apply I.
  - intros i L. destruct (live_thread m a T0 s res nsl full i L) as [t Ht].
    eapply done_row; eauto. apply Hl.
  - intros b. apply grid_new_row.
  - intros b. apply I.
  - apply I.
Qed.

(** The bytes that the rows need at most, and what the new strings use. *)
Definition rows_size (a : add_args) : Z :=
  zsum (map (fun i => padded_len (row_len a i)) (seq 0 (str_num a))).

Lemma padded_len_range len : 0 <= padded_len len.
Proof. apply (wrap_fits 32). lia. Qed.

Lemma padded_len_mod8 len : padded_len len mod 8 = 0.
Proof. unfold padded_len, wrap. change (2 ^ 32) with (8 * 2 ^ 29). dlia. Qed.

Lemma nsl_cell b :
  0 <= b < n -> rd (new_strings_lens g) b = 0 \/
  exists i, live a i /\ rd (res_buckets g) (Z.of_nat i) = b /\
    rd (new_strings_lens g) b = padded_len (row_len a i).
Proof.
  intros Hb. destruct (decide (rd (new_strings_lens g) b = 0)) as [?|Hne]; [by left|right].
  pose proof (launched_inv m a T0 res nsl full s Hl) as I.
  destruct (gi_old _ _ _ _ _ I b Hb Hne) as [Hp H0].
  destruct (grid_new_row b Hb Hp H0) as (i & L & Er & _ & _ & En). eauto.
Qed.

Lemma nsl_all (P : Z -> Prop) :
  (forall b, 0 <= b < n -> P (rd (new_strings_lens g) b)) -> Forall P (new_strings_lens g).
Proof.
  intros HP. pose proof (launched_inv m a T0 res nsl full s Hl) as I.
  apply Forall_lookup. intros i x Hi. pose proof (lookup_lt_Some _ _ _ Hi).
  destruct (gi_len _ _ _ _ _ I) as (_ & Hn & _).
  rewrite <- (rd_lookup _ (Z.of_nat i) x) by (rewrite ?Nat2Z.id; done || lia). apply HP. lia.
Qed.

Lemma nsl_nonneg : nonneg (new_strings_lens g).
Proof.
  apply nsl_all. intros b Hb.
  destruct (nsl_cell b Hb) as [->|(i & _ & _ & ->)]; [done|apply padded_len_range].
Qed.

Lemma nsl_mod8 : Forall (fun x => x mod 8 = 0) (new_strings_lens g).
Proof.
  apply nsl_all. intros b Hb.
  destruct (nsl_cell b Hb) as [->|(i & _ & _ & ->)]; [done|apply padded_len_mod8].
Qed.

Lemma nsl_size : zsum (new_strings_lens g) <= rows_size a.
Proof.
  pose proof (launched_inv m a T0 res nsl full s Hl) as I. destruct (gi_len _ _ _ _ _ I) as (_ & Hn & _).
  set (l := new_strings_lens g) in *. set (bs := map Z.of_nat (seq 0 (length l))).
  assert (map (rd l) bs = l) as <-.
  { apply list_eq. intros i. unfold bs. rewrite !list_lookup_fmap. destruct (decide (i < length l)%nat).
    - rewrite lookup_seq_lt by done. cbn. destruct (lookup_lt_is_Some_2 l i) as [x Hx']; [done|].
      rewrite Hx'. f_equal. apply rd_lookup; [lia|]. by rewrite Nat2Z.id.
    - rewrite lookup_seq_ge, lookup_ge_None_2 by lia. done. }
  apply (zsum_owned _ _ (fun i => rd (res_buckets g) (Z.of_nat i))).
  - apply (NoDup_fmap_2 Z.of_nat), NoDup_seq.
  - intros i. apply padded_len_range.
  - intros b (i & -> & Hi)%list_elem_of_fmap. apply elem_of_seq in Hi.
    destruct (nsl_cell (Z.of_nat i) ltac:(lia)) as [E|(j & L & Er & E)]; [left; unfold l; lia|right].
    exists j. split_and!; [apply L|done|]. unfold l. lia.
Qed.
End after_kernel.

(** ** [addData] *)

Definition call_args (H : hash_table) (num : nat) (bf : Z) (offs ls : list Z) : add_args :=
  AddArgs num bf offs ls 0 (ht_buckets_num H).

(** The state of the grid when the insertion kernel has run. *)
Definition call_grid (s : schedule) (d : device) (H : hash_table) (a : add_args) (res : list Z) : grid :=
  run (dev_mem d) a (ht_tab H) s
    (launch a (ht_tab H) res (kerFillZero (ht_buckets_num H) (ht_buf1 H)) (dev_table_is_full d)).

(** What a caller provides: strings outside the table's buffer that can be
    read, whose padded lengths can be added up in 32 bits, and a place for
    each result. *)
Record rows_ok (m : memory) (H : hash_table) (a : add_args) (res : list Z) : Prop := {
  rk_args : args_ok m a;
  rk_len : forall i, live a i -> row_len a i <= 2 ^ 32 - 8 /\
    hull_apart (row_ptr a i) (row_ptr a i + row_len a i)
      (ht_str_buf H) (ht_str_buf H + ht_str_buf_max_sz H);
  rk_size : ht_str_buf_sz H + rows_size a < 2 ^ 32;
  rk_res : (str_num a <= length res)%nat
}.

(** The contract: an interning step from the map [M] to [M'], in which the
    rows [ks] get the numbers [res]. *)
Record interned (M M' : gmap (list Z) Z) (ks : list (list Z)) (res : list Z) : Prop := {
  in_old : M ⊆ M';
  in_rows : forall i k, ks !! i = Some k -> k <> [] -> M' !! k = Some (rd res (Z.of_nat i));
  in_new : forall k, is_Some (M' !! k) -> is_Some (M !! k) \/ k ∈ ks /\ k <> [];
  in_inj : forall k k' b, M' !! k = Some b -> M' !! k' = Some b -> k = k'
}.

Definition row_keys (m : memory) (a : add_args) : list (list Z) :=
  map (row_key m a) (seq 0 (str_num a)).

Section addData.
Context (s : schedule) (order : list nat) (d : device) (H : hash_table).
Context (num : nat) (bf : Z) (offs ls : list Z) (res : list Z).
#[local] Abbreviation a := (call_args H num bf offs ls).
#[local] Abbreviation n := (ht_buckets_num H).
#[local] Abbreviation g := (call_grid s d H a res).
Hypothesis Hok : ht_ok (dev_mem d) H.
Hypothesis Hrows : rows_ok (dev_mem d) H a res.
Hypothesis Horder : order ≡ₚ seq 0 num.
Hypothesis Hexit : all_exited g = true.

(** The rows play no part in what a well formed table is. *)
Lemma call_table_ok : table_ok (dev_mem d) a (ht_tab H).
Proof. exact (hk_tab _ _ Hok). Qed.

Lemma call_launch_ok :
  launch_ok (dev_mem d) a (ht_tab H) res (kerFillZero n (ht_buf1 H)).
Proof.
  destruct (kerFillZero_spec n (ht_buf1 H)) as [L Z0]; [apply Hok|].
  split_and!; auto using call_table_ok; apply Hrows.
Qed.

Lemma call_inv : grid_inv (dev_mem d) a (ht_tab H) (dev_table_is_full d) g.
Proof. apply launched_inv, call_launch_ok. Qed.

(** How many bytes the new strings of the call take in the buffer. *)
Definition new_size : Z := zsum (new_strings_lens g).

Lemma new_size_range : 0 <= new_size <= rows_size a /\ new_size mod 8 = 0.
Proof.
  split; [split|].
  - eapply zsum_nonneg, nsl_nonneg; [apply call_launch_ok|done].
  - eapply nsl_size; [apply call_launch_ok|done].
  - eapply zsum_mod8, nsl_mod8; [apply call_launch_ok|done].
Qed.

Lemma call_total :
  kerCalcTotalAddedLen n (exclusive_sum 0 (new_strings_lens g)) (new_strings_lens g) = new_size.
Proof.
  pose proof new_size_range. destruct (gi_len _ _ _ _ _ call_inv) as (_ & Hn & _).
  cbn in Hn. rewrite <- Hn. pose proof (hk_num _ _ Hok). pose proof (rk_size _ _ _ _ Hrows).
  pose proof (hk_sz _ _ Hok). apply kerCalcTotalAddedLen_spec.
  - eapply nsl_nonneg; [apply call_launch_ok|done].
  - fold new_size. lia.
  - intros E. rewrite E in Hn. simpl in Hn. lia.
Qed.

(** The device and the table after the copy. *)
Definition call_copy : memory * list Z :=
  kerCopyAddedStrings a (res_buckets g) (ht_str_buf_sz H)
    (exclusive_sum 0 (new_strings_lens g)) (ht_str_buf H) order (dev_mem d, ptrs (tab g)).

Definition call_table (sz : Z) : hash_table :=
  HashTable n sz (ht_str_buf_max_sz H) (Table (hashes (tab g)) (table_lens (tab g)) call_copy.2)
    (ht_offsets H) (new_strings_lens g) (exclusive_sum 0 (new_strings_lens g)) (ht_str_buf H).

Lemma addData_eq :
  addData s order d H num bf offs ls res =
  (Device call_copy.1 (table_is_full g),
   call_table (if table_is_full g || (ht_str_buf_max_sz H <? ht_str_buf_sz H + new_size)
               then ht_str_buf_sz H else ht_str_buf_sz H + new_size),
   res_buckets g,
   if table_is_full g then Some TableIsFull
   else if ht_str_buf_max_sz H <? ht_str_buf_sz H + new_size then Some StringBufferIsFull else None).
Proof.
  unfold addData, call_table. fold (call_args H num bf offs ls).
  change (run _ _ _ _ _) with g. fold call_copy.
  rewrite (surjective_pairing call_copy) at 1. rewrite call_total.
  rewrite (wrap_small 32 (_ + _)).
  - destruct (table_is_full g); [done|]. cbn [orb]. by destruct (_ <? _).
  - pose proof new_size_range. pose proof (rk_size _ _ _ _ Hrows). pose proof (hk_sz _ _ Hok). unfold fits. lia.
Qed.

Lemma addData_none d' H' res' :
  addData s order d H num bf offs ls res = (d', H', res', None) ->
  table_is_full g = false /\ ht_str_buf_sz H + new_size <= ht_str_buf_max_sz H /\
  dev_mem d' = call_copy.1 /\ H' = call_table (ht_str_buf_sz H + new_size) /\ res' = res_buckets g.
Proof.
  rewrite addData_eq. destruct (table_is_full g); [done|]. cbn [orb].
  destruct (Z.ltb_spec (ht_str_buf_max_sz H) (ht_str_buf_sz H + new_size)); [done|].
  intros [= <- <- <-]. done.
Qed.

(** When there is room. *)
Section success.
Hypothesis Hfull : table_is_full g = false.
Hypothesis Hfit : ht_str_buf_sz H + new_size <= ht_str_buf_max_sz H.

Lemma call_added : added (dev_mem d) a (ht_tab H) (tab g) (res_buckets g) (new_strings_lens g).
Proof. eapply grid_added; [apply call_launch_ok|done|done]. Qed.

#[local] Abbreviation base := (ht_str_buf H + ht_str_buf_sz H).
#[local] Abbreviation fresh := (new a (ht_tab H) (tab g)).
#[local] Abbreviation to := (dst (new_strings_lens g) (ht_str_buf H) (ht_str_buf_sz H)).

Lemma call_copied :
  mem_ok call_copy.1 /\
  (forall x, x < base \/ base + new_size <= x -> call_copy.1 x = dev_mem d x) /\
  length call_copy.2 = length (ptrs (tab g)) /\
  (forall b, 0 <= b < n -> ~ fresh b -> rd call_copy.2 b = rd (ptrs (tab g)) b) /\
  (forall b, fresh b -> rd call_copy.2 b = to b /\
    bytes call_copy.1 (to b) (Z.to_nat (rd (table_lens (tab g)) b)) = slot_key (dev_mem d) (tab g) b).
Proof.
  destruct (hk_sz _ _ Hok), (hk_buf _ _ Hok).
  apply (copy_final (dev_mem d) a (ht_tab H) (tab g) (res_buckets g) (new_strings_lens g))
    with (lim := ht_str_buf_max_sz H).
  - apply Hrows.
  - apply call_table_ok.
  - apply call_added.
  - lia.
  - intros b Hb Hp. by apply (hk_ptrs _ _ Hok b Hb).
  - apply Hrows.
  - split; [eapply nsl_nonneg; [apply call_launch_ok|done]|exact Hfit].
  - exact Horder.
Qed.

Lemma fresh_dec b : Decision (fresh b).
Proof. unfold new. apply _. Defined.

(** Every occupied bucket after the copy: its string lies in the used part of
    the buffer, aligned, and is what the bucket referred to before. *)
Lemma call_slot b :
  0 <= b < n -> rd (ptrs (tab g)) b <> 0 ->
  rd call_copy.2 b mod 8 = 0 /\ ht_str_buf H <= rd call_copy.2 b /\
  rd call_copy.2 b + rd (table_lens (tab g)) b <= base + new_size /\
  bytes call_copy.1 (rd call_copy.2 b) (Z.to_nat (rd (table_lens (tab g)) b)) =
    slot_key (dev_mem d) (tab g) b.
Proof.
  intros Hb Hp. destruct call_copied as (_ & Out & _ & Old & New). pose proof call_added as A.
  destruct (hk_sz _ _ Hok), (hk_buf _ _ Hok), (hk_align _ _ Hok). pose proof new_size_range.
  pose proof (proj1 (proj1 (proj2 (ad_table _ _ _ _ _ _ A) b Hb))) as Hl.
  destruct (fresh_dec b) as [F|F].
  - destruct (New b F) as [-> Eb].
    assert (nonneg (new_strings_lens g) /\ ht_str_buf_sz H + zsum (new_strings_lens g) <= ht_str_buf_max_sz H) as Hn
      by (split; [eapply nsl_nonneg; [apply call_launch_ok|done]|exact Hfit]).
    pose proof (dst_range _ _ _ _ _ _ A (ht_str_buf H) _ _ Hn b Hb) as [D1 D2].
    rewrite (new_padded _ _ _ _ _ _ (rk_args _ _ _ _ Hrows) A _ _ (rk_len _ _ _ _ Hrows) b F) in D2.
    fold new_size in D2. unfold pad8 in D2.
    assert (zsum (take (Z.to_nat b) (new_strings_lens g)) mod 8 = 0)
      by (eapply zsum_mod8, Forall_take, nsl_mod8; [apply call_launch_ok|done]).
    split_and!; [unfold dst; dlia|lia|dlia|done].
  - rewrite (Old b Hb F).
    destruct (old_ptr_in_buf _ _ _ _ _ _ call_table_ok A (ht_str_buf H) (ht_str_buf_sz H)
      (fun b Hb Hp => proj2 (hk_ptrs _ _ Hok b Hb Hp)) b Hb Hp F) as [O1 O2].
    split_and!; [|done|lia|].
    + destruct (decide (rd (ptrs (ht_tab H)) b = 0)) as [E|E]; [by destruct F|].
      destruct (ad_le _ _ _ _ _ _ A) as (_ & _ & Hp'). rewrite (Hp' b Hb E). by apply Hok.
    + unfold slot_key. apply bytes_agree. intros x Hx. apply Out. lia.
Qed.

Lemma call_moved :
  table_ok call_copy.1 a (Table (hashes (tab g)) (table_lens (tab g)) call_copy.2) /\
  forall b k, 0 <= b < n ->
    holds call_copy.1 a (Table (hashes (tab g)) (table_lens (tab g)) call_copy.2) b k <->
    holds (dev_mem d) a (tab g) b k.
Proof.
  destruct call_copied as (_ & _ & Hl & Old & _). pose proof call_added as A.
  destruct (hk_sz _ _ Hok), (hk_buf _ _ Hok).
  assert (forall b, 0 <= b < n -> rd (ptrs (tab g)) b = 0 -> rd call_copy.2 b = 0) as He.
  { intros b Hb E. rewrite Old; [done|done|]. by intros (_ & ? & _). }
  assert (forall b, 0 <= b < n -> rd (ptrs (tab g)) b <> 0 ->
    0 < rd call_copy.2 b /\ rd call_copy.2 b + rd (table_lens (tab g)) b <= 2 ^ 64 /\
    bytes call_copy.1 (rd call_copy.2 b) (Z.to_nat (rd (table_lens (tab g)) b)) =
      slot_key (dev_mem d) (tab g) b) as Hm.
  { intros b Hb Hp. destruct (call_slot b Hb Hp) as (_ & ? & ? & E). split_and!; [lia|lia|exact E]. }
  pose proof (hk_num _ _ Hok) as [Hn _]. split.
  - exact (moved_ok (dev_mem d) _ a (tab g) _ (ad_table _ _ _ _ _ _ A) Hn Hl He Hm).
  - intros b k Hb. exact (moved_holds (dev_mem d) _ a (tab g) _ Hl He Hm b k Hb).
Qed.

Lemma call_ok : ht_ok call_copy.1 (call_table (ht_str_buf_sz H + new_size)).
Proof.
  destruct call_moved as [MT _]. destruct call_copied as (_ & _ & _ & Old & _).
  pose proof new_size_range. destruct (hk_sz _ _ Hok), (hk_align _ _ Hok).
  destruct (gi_len _ _ _ _ _ call_inv) as (_ & Hn & _).
  split; cbn [call_table ht_buckets_num ht_tab ht_str_buf_sz ht_str_buf_max_sz ht_str_buf ht_buf1 ht_buf2
    ht_offsets ptrs table_lens].
  - apply Hok.
  - exact MT.
  - lia.
  - apply Hok.
  - dlia.
  - intros b Hb Hp. assert (rd (ptrs (tab g)) b <> 0) as Hp'.
    { intros E. apply Hp. rewrite Old; [done|done|]. by intros (_ & ? & _). }
    destruct (call_slot b Hb Hp') as (? & ? & ? & _). split_and!; [done|done|lia].
  - rewrite length_exclusive_sum. split_and!; [done|done|apply Hok].
Qed.

Lemma call_contents k b :
  contents call_copy.1 (call_table (ht_str_buf_sz H + new_size)) !! k = Some b <->
  0 <= b < n /\ holds (dev_mem d) a (tab g) b k.
Proof.
  rewrite (contents_lookup _ _ call_ok). split; intros [Hb Hh]; (split; [done|]);
    by apply call_moved.
Qed.

Lemma call_interned :
  interned (contents (dev_mem d) H) (contents call_copy.1 (call_table (ht_str_buf_sz H + new_size)))
    (row_keys (dev_mem d) a) (res_buckets g).
Proof.
  pose proof call_added as A. pose proof call_inv as I.
  assert (forall T b, table_ok (dev_mem d) a T -> 0 <= b < n -> ~ holds (dev_mem d) a T b []) as Ne.
  { intros T b [_ HT] Hb (_ & Hl & Hp & _). destruct (HT b Hb) as [(_ & _ & S3) _].
    destruct (S3 Hp) as [? _]. simpl in Hl. lia. }
  split.
  - apply map_subseteq_spec. intros k b Hk. apply (contents_lookup _ _ Hok) in Hk as [Hb Hh].
    apply call_contents. split; [done|]. apply (holds_le _ _ (ht_tab H)); auto; [apply I|].
    intros ->. by apply (Ne (ht_tab H) b call_table_ok Hb).
  - intros i k Hi Hne. unfold row_keys in Hi. apply list_lookup_fmap_Some in Hi as (j & -> & Hj).
    apply lookup_seq in Hj as [-> Hj]. apply call_contents. apply (ad_rows _ _ _ _ _ _ A).
    split; [done|]. intros E. apply Hne. unfold row_key. by rewrite E.
  - intros k [b [Hb Hh]%call_contents].
    destruct (holds_origin _ _ _ _ _ b k I Hexit Hb call_table_ok Hh) as [Ho|(i & L & <- & _)].
    + left. exists b. by apply (contents_lookup _ _ Hok).
    + right. split; [|by apply row_key_nonempty; [apply Hrows|]].
      apply list_elem_of_fmap. exists i. split; [done|]. apply elem_of_seq. destruct L. lia.
  - intros k k' b [_ H1]%call_contents [_ H2]%call_contents. by eapply holds_inj.
Qed.
End success.
End addData.

(** ** Rows that are skipped keep their result cell *)

Lemma step_res_skip m a T0 full0 g st j i :
  grid_inv m a T0 full0 g -> ~ live a i ->
  rd (res_buckets (thread_step m a T0 st j g)) (Z.of_nat i) = rd (res_buckets g) (Z.of_nat i).
Proof.
  intros I Hi. unfold thread_step. destruct (threads g !! j) as [t|] eqn:Ht; [|done].
  pose proof (gi_threads _ _ _ _ _ I _ _ Ht) as V. unfold thread_inv in V.
  destruct (t_pc t) eqn:Hpc; try (repeat case_match; done).
  destruct V as (L & _). cbn [res_buckets]. destruct (decide (i = j)) as [->|Hne]; [done|].
  destruct (gi_len _ _ _ _ _ I) as (_ & _ & Hr). apply rd_wr_ne; destruct L; lia.
Qed.

Lemma run_res_skip m a T0 full0 s g i :
  args_ok m a -> grid_inv m a T0 full0 g -> ~ live a i ->
  rd (res_buckets (run m a T0 s g)) (Z.of_nat i) = rd (res_buckets g) (Z.of_nat i).
Proof.
  intros Ha I Hi. revert g I. induction s as [|[j st] s IH]; intros g I; [done|]. cbn [run].
  rewrite IH by (by apply thread_step_inv). by eapply step_res_skip.
Qed.

(** The flag is only ever set. *)
Lemma run_full_sticky m a T0 s g : table_is_full g = true -> table_is_full (run m a T0 s g) = true.
Proof.
  revert g. induction s as [|[j st] s IH]; intros g Hf; [done|]. cbn [run]. apply IH.
  unfold thread_step. repeat case_match; done.
Qed.

(** ** A full table *)

Definition nonempty_keys (ks : list (list Z)) : gset (list Z) :=
  list_to_set (filter (fun k => k <> []) ks).

(** When a thread finds the table full there are more strings than buckets. *)
Lemma full_more_keys m a T0 res nsl s :
  launch_ok m a T0 res nsl ->
  let g := run m a T0 s (launch a T0 res nsl false) in
  all_exited g = true -> table_is_full g = true ->
  exists ks : list (list Z), NoDup ks /\ Z.of_nat (length ks) = buckets_num a + 1 /\
    forall k, k ∈ ks -> k <> [] /\
      ((exists b, 0 <= b < buckets_num a /\ holds m a T0 b k) \/ k ∈ row_keys m a).
Proof.
  intros Hl g Hx Hf. pose proof (launched_inv m a T0 res nsl false s Hl) as I. fold g in I.
  pose proof (final_table_ok m a T0 false g I Hx) as FT.
  destruct Hl as (Ha & HT & _). assert (0 < buckets_num a) as Hn by apply Ha.
  apply (gi_full _ _ _ _ _ I) in Hf as [?|(i & t & Ht & Hpc)]; [done|].
  pose proof (gi_threads _ _ _ _ _ I _ _ Ht) as V. unfold thread_inv in V. rewrite Hpc in V.
  destruct V as (_ & L & P).
  assert (forall b, 0 <= b < buckets_num a -> rejects m a (tab g) b (row_key m a i)) as R
    by (intros b Hb; by apply (probed_all_rejects m a)).
  set (bs := map Z.of_nat (seq 0 (Z.to_nat (buckets_num a)))).
  assert (forall b, b ∈ bs -> 0 <= b < buckets_num a /\ holds m a (tab g) b (slot_key m (tab g) b)) as Hbs.
  { intros b (j & -> & Hj)%list_elem_of_fmap. apply elem_of_seq in Hj. split; [lia|].
    apply table_ok_holds; auto; [lia|]. apply FT; [lia|]. apply R. lia. }
  exists (row_key m a i :: map (slot_key m (tab g)) bs). split_and!.
  - constructor.
    + intros (b & E & Hb)%list_elem_of_fmap. destruct (Hbs b Hb) as [Hr Hh]. rewrite <- E in Hh.
      by eapply holds_not_rejects, R.
    + apply NoDup_fmap_2_strong; [|apply (NoDup_fmap_2 Z.of_nat), NoDup_seq].
      intros b1 b2 H1 H2 E. destruct (Hbs b1 H1) as [? U1], (Hbs b2 H2) as [? U2].
      rewrite <- E in U2. by eapply (table_ok_unique m a).
  - unfold bs. cbn [length]. rewrite !length_map, length_seq. lia.
  - intros k [->|(b & -> & Hb)%list_elem_of_fmap]%elem_of_cons.
    + split; [by apply row_key_nonempty|]. right. apply list_elem_of_fmap. exists i.
      split; [done|]. apply elem_of_seq. destruct L. lia.
    + destruct (Hbs b Hb) as [Hr Hh]. split.
      * intros E. destruct Hh as (_ & El & Hp & _). rewrite E in El.
        destruct (proj2 FT b Hr) as [(_ & _ & S3) _]. by destruct (S3 Hp) as [? _].
      * destruct (holds_origin m a T0 false g b _ I Hx Hr HT Hh) as [Ho|(j & Lj & <- & _)]; [left; eauto|].
        right. apply list_elem_of_fmap. exists j. split; [done|]. apply elem_of_seq. destruct Lj. lia.
Qed.

(** ** Properties of [addData] *)

(** Three rows, "a", "b" and "a", a table of four buckets and a buffer of 64
    bytes at address 64. *)
Definition demo_ht : hash_table :=
  HashTable 4 0 64 demo_table (replicate 4 0) (replicate 4 0) (replicate 4 0) 64.
Definition demo_device : device := Device demo_mem false.

Lemma demo_ht_ok : ht_ok demo_mem demo_ht.
Proof.
  split; [cbn; lia|by apply table_ok_empty|cbn; lia|cbn; lia|done| |done].
  intros b Hb. cbn in Hb. assert (b = 0 \/ b = 1 \/ b = 2 \/ b = 3) as D by lia.
  destruct D as [->|[->|[->| ->]]]; intros []; done.
Qed.

Lemma demo_rows_ok : rows_ok demo_mem demo_ht demo_args (replicate 3 0).
Proof.
  split.
  - apply demo_launch_ok.
  - intros [|[|[|i]]] [Hi Hz]; try (cbn in Hi; lia); vm_compute;
      (split; [congruence|left; congruence]).
  - vm_compute. reflexivity.
  - cbn. lia.
Qed.

Lemma demo_call_exits :
  all_exited (call_grid (demo_schedule 40) demo_device demo_ht demo_args (replicate 3 0)) = true.
Proof. vm_compute. reflexivity. Qed.

(** C3: [addData] implements an interning map.  For every schedule of the
    insertion kernel and every order of the copying threads, and rows whose
    lengths, rounded up to words, stay below 2^32 together with the used size of
    the buffer, so that the 32-bit sum does not wrap around, a call that does
    not throw leaves a well formed table (strings aligned inside the used part
    of its buffer); every string that was in the table keeps its bucket, every
    non-empty row's string is in the table under the bucket reported for the
    row, nothing else is added, no bucket holds two strings; and no memory
    outside the part of the buffer that has become used is written. *)
Theorem addData_interns s order d H num bf offs ls res d' H' res' :
  ht_ok (dev_mem d) H -> rows_ok (dev_mem d) H (call_args H num bf offs ls) res ->
  order ≡ₚ seq 0 num ->
  all_exited (call_grid s d H (call_args H num bf offs ls) res) = true ->
  addData s order d H num bf offs ls res = (d', H', res', None) ->
  ht_ok (dev_mem d') H' /\
  interned (contents (dev_mem d) H) (contents (dev_mem d') H')
    (row_keys (dev_mem d) (call_args H num bf offs ls)) res' /\
  (forall x, x < ht_str_buf H + ht_str_buf_sz H \/ ht_str_buf H + ht_str_buf_sz H' <= x ->
     dev_mem d' x = dev_mem d x).
Proof.
  intros Hok Hr Ho Hx E. apply addData_none in E as (Hf & Hs & -> & -> & ->); [|done..]. split_and!.
  - by apply call_ok.
  - by apply call_interned.
  - intros x Hx'. apply call_copied; auto. cbn in Hx'. lia.
Qed.

Lemma addData_interns_witness :
  exists d' H' res',
    addData (demo_schedule 40) [2; 0; 1]%nat demo_device demo_ht 3 16 [0; 2; 4] [2; 2; 2] (replicate 3 0) =
      (d', H', res', None) /\
    interned (contents demo_mem demo_ht) (contents (dev_mem d') H') (row_keys demo_mem demo_args) res'.
Proof.
  destruct (addData (demo_schedule 40) [2; 0; 1]%nat demo_device demo_ht 3 16 [0; 2; 4] [2; 2; 2]
    (replicate 3 0)) as [[[d' H'] res'] e] eqn:E.
  assert (e = None) as -> by (apply (f_equal snd) in E; vm_compute in E; congruence).
  exists d', H', res'. split; [reflexivity|].
  apply (addData_interns (demo_schedule 40) [2; 0; 1]%nat demo_device demo_ht 3 16 [0; 2; 4] [2; 2; 2]
    (replicate 3 0) d' H' res'); [exact demo_ht_ok|exact demo_rows_ok| |exact demo_call_exits|exact E].
  cbn. apply (Permutation_app_comm [2%nat] [0; 1]%nat).
Defined.

(** The strings a call has to place, with those already there. *)
Definition all_keys (m : memory) (H : hash_table) (a : add_args) : gset (list Z) :=
  dom (contents m H) ∪ nonempty_keys (row_keys m a).

(** C26: [addData] throws only for lack of room.  If the flag of the device is
    clear, the strings of the table and of the rows are together no more than
    the buckets, and the padded rows fit in the rest of the string buffer, then
    the call succeeds under every schedule and leaves the flag clear. *)
Theorem addData_succeeds s order d H num bf offs ls res :
  ht_ok (dev_mem d) H -> rows_ok (dev_mem d) H (call_args H num bf offs ls) res ->
  order ≡ₚ seq 0 num ->
  all_exited (call_grid s d H (call_args H num bf offs ls) res) = true ->
  dev_table_is_full d = false ->
  Z.of_nat (size (all_keys (dev_mem d) H (call_args H num bf offs ls))) <= ht_buckets_num H ->
  ht_str_buf_sz H + rows_size (call_args H num bf offs ls) <= ht_str_buf_max_sz H ->
  exists d' H' res', addData s order d H num bf offs ls res = (d', H', res', None) /\
    dev_table_is_full d' = false.
Proof.
  intros Hok Hr Ho Hx Hd Hk Hs. rewrite addData_eq by done.
  pose proof (new_size_range s d H num bf offs ls res Hok Hr Hx) as Hsz.
  destruct (Z.ltb_spec (ht_str_buf_max_sz H) (ht_str_buf_sz H + new_size s d H num bf offs ls res)); [lia|].
  destruct (table_is_full _) eqn:Hf; cbn [orb]; [exfalso|by eauto 10].
  pose proof (call_launch_ok d H num bf offs ls res Hok Hr) as Hl. unfold call_grid in Hx, Hf. rewrite Hd in Hx, Hf.
  destruct (full_more_keys _ _ _ _ _ _ Hl Hx Hf) as (ks & Hnd & Hlen & Hks).
  assert (list_to_set ks ⊆ all_keys (dev_mem d) H (call_args H num bf offs ls)) as Hsub.
  { intros k Hin%elem_of_list_to_set. destruct (Hks k Hin) as [Hne [(b & Hb & Hh)|Hrow]]; apply elem_of_union.
    - left. apply elem_of_dom. exists b. by apply (contents_lookup _ _ Hok).
    - right. apply elem_of_list_to_set. by apply list_elem_of_filter. }
  apply subseteq_size in Hsub. rewrite size_list_to_set in Hsub by done. cbn in Hlen. lia.
Qed.

Lemma addData_succeeds_witness :
  exists d' H' res',
    addData (demo_schedule 40) [0; 1; 2]%nat demo_device demo_ht 3 16 [0; 2; 4] [2; 2; 2] (replicate 3 0) =
      (d', H', res', None) /\ dev_table_is_full d' = false.
Proof.
  apply (addData_succeeds (demo_schedule 40) [0; 1; 2]%nat demo_device demo_ht 3 16 [0; 2; 4] [2; 2; 2]
    (replicate 3 0)); [exact demo_ht_ok|exact demo_rows_ok|reflexivity|exact demo_call_exits|reflexivity| |].
  - vm_compute. congruence.
  - vm_compute. congruence.
Defined.

(** The errors of [addData].  The call throws "table is full" exactly when
    the flag was set before the call or is set by it, and otherwise "string
    buffer is full" exactly when the new strings do not fit; in both cases the
    recorded size of the buffer stays as it was. *)
Theorem addData_errors s order d H num bf offs ls res d' H' res' e :
  ht_ok (dev_mem d) H -> rows_ok (dev_mem d) H (call_args H num bf offs ls) res ->
  all_exited (call_grid s d H (call_args H num bf offs ls) res) = true ->
  addData s order d H num bf offs ls res = (d', H', res', e) ->
  (e = Some TableIsFull <-> dev_table_is_full d' = true) /\
  (e = Some StringBufferIsFull <-> dev_table_is_full d' = false /\
     ht_str_buf_max_sz H < ht_str_buf_sz H + new_size s d H num bf offs ls res) /\
  (e <> None -> ht_str_buf_sz H' = ht_str_buf_sz H) /\
  (dev_table_is_full d = true -> e = Some TableIsFull).
Proof.
  intros Hok Hr Hx. rewrite addData_eq by done. intros [= <- <- <- <-]. cbn [dev_table_is_full].
  assert (dev_table_is_full d = true ->
    table_is_full (call_grid s d H (call_args H num bf offs ls) res) = true) as St.
  { intros Hd. unfold call_grid. by apply run_full_sticky. }
  destruct (table_is_full _); cbn [orb]; destruct (Z.ltb_spec (ht_str_buf_max_sz H)
    (ht_str_buf_sz H + new_size s d H num bf offs ls res)); cbn; split_and!; try done;
    try (intros Hd; by specialize (St Hd)); split; try done; intros []; try done; lia.
Qed.

(** A buffer of eight bytes, too small for the strings "a" and "b". *)
Definition small_ht : hash_table :=
  HashTable 4 0 8 demo_table (replicate 4 0) (replicate 4 0) (replicate 4 0) 64.

Lemma small_ht_ok : ht_ok demo_mem small_ht.
Proof.
  destruct demo_ht_ok. split; try done; cbn; lia.
Qed.

Lemma small_rows_ok : rows_ok demo_mem small_ht demo_args (replicate 3 0).
Proof.
  destruct demo_rows_ok as [A L S R]. split; try done. intros i Li. destruct (L i Li) as [? [?|?]];
    (split; [done|]); unfold hull_apart in *; cbn in *; lia.
Qed.

Lemma addData_errors_witness :
  exists d' H' res',
    addData (demo_schedule 40) [0; 1; 2]%nat demo_device small_ht 3 16 [0; 2; 4] [2; 2; 2] (replicate 3 0) =
      (d', H', res', Some StringBufferIsFull) /\ ht_str_buf_sz H' = 0.
Proof.
  destruct (addData (demo_schedule 40) [0; 1; 2]%nat demo_device small_ht 3 16 [0; 2; 4] [2; 2; 2]
    (replicate 3 0)) as [[[d' H'] res'] e] eqn:E.
  assert (e = Some StringBufferIsFull) as -> by (apply (f_equal snd) in E; vm_compute in E; congruence).
  exists d', H', res'. split; [reflexivity|].
  apply (addData_errors (demo_schedule 40) [0; 1; 2]%nat demo_device small_ht 3 16 [0; 2; 4] [2; 2; 2]
    (replicate 3 0) d' H' res' (Some StringBufferIsFull) small_ht_ok small_rows_ok);
    [vm_compute; reflexivity|exact E|discriminate].
Defined.

(** The copy comes before the check.  In a call that throws "string buffer
    is full", a string has already been written behind the end of the buffer:
    the byte at [str_buf + str_buf_max_sz] changes. *)
Theorem addData_overflow_writes :
  let r := addData (demo_schedule 40) [0; 1; 2]%nat demo_device small_ht 3 16 [0; 2; 4] [2; 2; 2] (replicate 3 0) in
  r.2 = Some StringBufferIsFull /\
  dev_mem (r.1.1.1) (ht_str_buf small_ht + ht_str_buf_max_sz small_ht) <>
    demo_mem (ht_str_buf small_ht + ht_str_buf_max_sz small_ht).
Proof. vm_compute. split; [reflexivity|congruence]. Qed.

(** ** [erase] *)

Lemma kerErase_cells k T :
  let f v := par_for k (fun i l => wr l (Z.of_nat i) v) in
  par_for k (fun i T =>
    Table (wr (hashes T) (Z.of_nat i) DBMS_CUDA_EMPTY_HASH_VAL)
          (wr (table_lens T) (Z.of_nat i) DBMS_CUDA_EMPTY_LEN_VAL)
          (wr (ptrs T) (Z.of_nat i) nullptr)) T =
  Table (f DBMS_CUDA_EMPTY_HASH_VAL (hashes T)) (f DBMS_CUDA_EMPTY_LEN_VAL (table_lens T))
    (f nullptr (ptrs T)).
Proof. cbn zeta. induction k as [|k IH]; [by destruct T|]. by rewrite !par_for_S, IH. Qed.

Lemma kerErase_zero n T :
  table_len (table_args n) T ->
  table_len (table_args n) (kerErase n T) /\
  forall b, 0 <= b < n -> rd (hashes (kerErase n T)) b = 0 /\
    rd (table_lens (kerErase n T)) b = 0 /\ rd (ptrs (kerErase n T)) b = 0.
Proof.
  intros (L1 & L2 & L3). cbn in *. unfold kerErase. rewrite kerErase_cells.
  unfold table_len. cbn [hashes table_lens ptrs].
  destruct (par_for_wr (Z.to_nat n) (fun _ => DBMS_CUDA_EMPTY_HASH_VAL) (hashes T)) as [E1 R1].
  destruct (par_for_wr (Z.to_nat n) (fun _ => DBMS_CUDA_EMPTY_LEN_VAL) (table_lens T)) as [E2 R2].
  destruct (par_for_wr (Z.to_nat n) (fun _ => nullptr) (ptrs T)) as [E3 R3].
  split; [rewrite E1, E2, E3; by split_and!|].
  intros b Hb. rewrite R1, R2, R3 by lia. by destruct (decide _); [|lia].
Qed.

(** What the constructor establishes and no method changes: the sizes. *)
Record ht_sized (H : hash_table) : Prop := {
  hs_num : 0 < ht_buckets_num H < 2 ^ 32;
  hs_tab : table_len (table_args (ht_buckets_num H)) (ht_tab H);
  hs_max : 0 <= ht_str_buf_max_sz H < 2 ^ 32;
  hs_buf : 0 < ht_str_buf H /\ ht_str_buf H + ht_str_buf_max_sz H <= 2 ^ 64 /\ ht_str_buf H mod 8 = 0;
  hs_lens : Z.of_nat (length (ht_buf1 H)) = ht_buckets_num H /\
    Z.of_nat (length (ht_buf2 H)) = ht_buckets_num H /\
    Z.of_nat (length (ht_offsets H)) = ht_buckets_num H
}.

Lemma ht_ok_sized m H : ht_ok m H -> ht_sized H.
Proof. intros []. split; try done; [apply hk_tab0|lia|by destruct hk_buf0, hk_align0]. Qed.

Lemma construct_sized alloc p n lim :
  (forall i k, length (alloc i k) = k) -> 0 < n < 2 ^ 32 -> 0 <= lim < 2 ^ 32 ->
  0 < p -> p + lim <= 2 ^ 64 -> p mod 8 = 0 -> ht_sized (construct alloc p n lim).
Proof.
  intros Hl Hn Hlim Hp Hp' Hp8. split; cbn; try done; unfold table_len; cbn; rewrite ?Hl; split_and!; lia.
Qed.

(** [erase] makes any table empty: whatever the arrays held before, the
    result is well formed and represents the empty map. *)
Theorem erase_empty m H :
  ht_sized H -> ht_ok m (erase H) /\ contents m (erase H) = ∅.
Proof.
  intros [Hn Ht Hm Hb Hl]. destruct (kerErase_zero _ _ Ht) as [Ht' Hz].
  assert (ht_ok m (erase H)) as Hok.
  { split; cbn [erase ht_buckets_num ht_tab ht_str_buf_sz ht_str_buf_max_sz ht_str_buf ht_buf1 ht_buf2 ht_offsets];
      try done; try lia; try (by destruct Hb as (? & ? & ?)).
    - split; [done|]. intros b Hb'. destruct (Hz b Hb') as (Z1 & Z2 & Z3).
      unfold slot_ok. rewrite Z1, Z2, Z3. split; [|done]. split_and!; [lia|lia|done|]. intros Hc. by destruct Hc.
    - intros b Hb' Hp. destruct (Hz b Hb') as (_ & _ & Z3). done. }
  split; [done|]. apply map_empty. intros k. apply eq_None_not_Some. intros [b Hk].
  apply (contents_lookup _ _ Hok) in Hk as [Hb' (_ & _ & Hp & _)]. by apply Hp, Hz.
Qed.

Lemma erase_empty_witness :
  ht_ok demo_mem (erase (construct (fun _ k => replicate k 7) 64 4 64)) /\
  contents demo_mem (erase (construct (fun _ k => replicate k 7) 64 4 64)) = ∅.
Proof.
  apply (erase_empty demo_mem (construct (fun _ k => replicate k 7) 64 4 64)).
  apply construct_sized; [intros; apply length_replicate|lia..|done].
Defined.

(** ** [calcOffsets] and [mergeToOtherTable] *)

Lemma calcOffsets_spec m H b :
  ht_ok m H -> 0 <= b < ht_buckets_num H -> rd (ptrs (ht_tab H)) b <> 0 ->
  ht_str_buf H + rd (ht_offsets (calcOffsets H)) b = rd (ptrs (ht_tab H)) b.
Proof.
  intros Hok Hb Hp. cbn [calcOffsets ht_offsets]. unfold kerCalcOffsets.
  destruct (par_for_wr (Z.to_nat (ht_buckets_num H)) (fun i => u32 (rd (ptrs (ht_tab H)) (Z.of_nat i) - ht_str_buf H))
    (ht_offsets H)) as [_ R]. destruct (hk_lens _ _ Hok) as (_ & _ & Hl).
  rewrite R by lia. destruct (decide _); [|lia]. rewrite Z2Nat.id by lia.
  destruct (hk_ptrs _ _ Hok b Hb Hp) as (_ & H1 & H2). destruct (hk_sz _ _ Hok).
  destruct (proj2 (hk_tab _ _ Hok) b Hb) as [(? & _) _]. rewrite wrap_small by (unfold fits; lia). lia.
Qed.

(** The rows that the merge presents to the other table. *)
Definition merge_args (H K : hash_table) : add_args :=
  call_args K (Z.to_nat (ht_buckets_num H)) (ht_str_buf H) (ht_offsets (calcOffsets H)) (table_lens (ht_tab H)).

Lemma merge_live m H K b :
  ht_ok m H -> 0 <= b < ht_buckets_num H ->
  (live (merge_args H K) (Z.to_nat b) <-> rd (ptrs (ht_tab H)) b <> 0) /\
  (rd (ptrs (ht_tab H)) b <> 0 -> row_ptr (merge_args H K) (Z.to_nat b) = rd (ptrs (ht_tab H)) b) /\
  row_len (merge_args H K) (Z.to_nat b) = rd (table_lens (ht_tab H)) b.
Proof.
  intros Hok Hb. unfold live, row_len, row_ptr. cbn [merge_args call_args str_num buf offsets lens].
  rewrite !Z2Nat.id by lia. split_and!.
  - destruct (proj2 (hk_tab _ _ Hok) b Hb) as [(_ & S2 & S3) C]. split.
    + intros [_ Hz]. by apply C, S2.
    + intros Hp. split; [lia|]. by apply S3.
  - by apply calcOffsets_spec with m.
  - done.
Qed.

Lemma merge_row_key m H K b :
  ht_ok m H -> 0 <= b < ht_buckets_num H -> rd (ptrs (ht_tab H)) b <> 0 ->
  row_key m (merge_args H K) (Z.to_nat b) = slot_key m (ht_tab H) b.
Proof.
  intros Hok Hb Hp. destruct (merge_live m H K b Hok Hb) as (_ & E & L). unfold row_key, slot_key.
  by rewrite L, E.
Qed.

Lemma merge_rows_ok m H K res :
  mem_ok m -> ht_ok m H -> ht_ok m K ->
  ht_str_buf H + ht_str_buf_sz H <= ht_str_buf K \/ ht_str_buf K + ht_str_buf_max_sz K <= ht_str_buf H ->
  ht_str_buf_sz K + rows_size (merge_args H K) < 2 ^ 32 ->
  ht_buckets_num H <= Z.of_nat (length res) ->
  rows_ok m K (merge_args H K) res.
Proof.
  intros Hm Hok Kok Hap Hs Hr.
  destruct (hk_sz _ _ Hok), (hk_buf _ _ Hok), (hk_align _ _ Hok).
  assert (forall i, (i < str_num (merge_args H K))%nat -> 0 <= Z.of_nat i < ht_buckets_num H) as Hi
    by (intros i Hi; cbn in Hi; lia).
  split; [split_and!| |done|cbn; lia]; [done|apply Kok|apply Kok| |].
  - intros i Li. destruct (merge_live m H K (Z.of_nat i) Hok (Hi i Li)) as (L1 & L2 & L3).
    rewrite Nat2Z.id in *. rewrite L3. destruct (proj2 (hk_tab _ _ Hok) _ (Hi i Li)) as [(S1 & S2 & S3) C].
    split; [done|]. intros Hz. assert (rd (ptrs (ht_tab H)) (Z.of_nat i) <> 0) as Hp by (by apply C, S2).
    rewrite L2 by done. destruct (S3 Hp) as (_ & ? & ? & _). lia.
  - intros i Li. pose proof (Hi i (proj1 Li)) as Hb. destruct (merge_live m H K (Z.of_nat i) Hok Hb) as (L1 & L2 & L3).
    rewrite Nat2Z.id in *. apply L1 in Li. rewrite L3, L2 by done.
    destruct (hk_ptrs _ _ Hok _ Hb Li) as (? & ? & ?). destruct (hk_align _ _ Kok), (hk_buf _ _ Kok), (hk_sz _ _ Kok).
    destruct (proj2 (hk_tab _ _ Hok) _ Hb) as [(S1 & S2 & S3) C]. destruct (S3 Li) as (? & _).
    unfold hull_apart. split; [dlia|]. destruct Hap; [left|right]; dlia.
Qed.

Lemma kerFillEmptyResBucket_spec k res :
  k <= Z.of_nat (length res) ->
  length (kerFillEmptyResBucket k res) = length res /\
  forall b, 0 <= b < k -> rd (kerFillEmptyResBucket k res) b = 2 ^ 32 - 1.
Proof.
  intros Hl. destruct (par_for_wr (Z.to_nat k) (fun _ => u32 (Z.lnot 0)) res) as [L R].
  unfold kerFillEmptyResBucket. split; [done|]. intros b Hb. rewrite R by lia.
  by destruct (decide _); [|lia].
Qed.

Lemma merge_call s order d H K res d' H' K' res' :
  mem_ok (dev_mem d) -> ht_ok (dev_mem d) H -> ht_ok (dev_mem d) K ->
  ht_str_buf H + ht_str_buf_sz H <= ht_str_buf K \/ ht_str_buf K + ht_str_buf_max_sz K <= ht_str_buf H ->
  ht_str_buf_sz K + rows_size (merge_args H K) < 2 ^ 32 ->
  ht_buckets_num H <= Z.of_nat (length res) ->
  order ≡ₚ seq 0 (Z.to_nat (ht_buckets_num H)) ->
  all_exited (call_grid s d K (merge_args H K) (kerFillEmptyResBucket (ht_buckets_num H) res)) = true ->
  mergeToOtherTable s order d H K res = (d', H', K', res', None) ->
  ht_ok (dev_mem d') K' /\
  contents (dev_mem d) K ⊆ contents (dev_mem d') K' /\
  (forall b k, contents (dev_mem d) H !! k = Some b -> contents (dev_mem d') K' !! k = Some (rd res' b)) /\
  (forall k, is_Some (contents (dev_mem d') K' !! k) ->
     is_Some (contents (dev_mem d) H !! k) \/ is_Some (contents (dev_mem d) K !! k)) /\
  (forall b, 0 <= b < ht_buckets_num H -> rd (ptrs (ht_tab H)) b = 0 -> rd res' b = 2 ^ 32 - 1).
Proof.
  intros Hm Hok Kok Hap Hs Hr Ho Hx E. unfold mergeToOtherTable in E.
  destruct (kerFillEmptyResBucket_spec _ _ Hr) as [Lr Rr].
  assert (ht_buckets_num H <= Z.of_nat (length (kerFillEmptyResBucket (ht_buckets_num H) res))) as Lr' by lia.
  pose proof (merge_rows_ok _ H K _ Hm Hok Kok Hap Hs Lr') as Rok.
  cbn [calcOffsets ht_buckets_num ht_str_buf ht_tab] in E. fold (calcOffsets H) in E.
  destruct (addData _ _ _ _ _ _ _ _ _) as [[[d1 K1] res1] e] eqn:EA. injection E as -> <- -> -> ->.
  apply addData_none in EA as (Hf & Hfit & -> & -> & ->); [|done..].
  fold (merge_args H K) in *.
  pose proof (call_ok s order d K _ _ _ _ _ Kok Rok Ho Hx Hf Hfit) as COk.
  pose proof (call_interned s order d K _ _ _ _ _ Kok Rok Ho Hx Hf Hfit) as IN. fold (merge_args H K) in IN.
  assert (forall b, 0 <= b < ht_buckets_num H -> row_keys (dev_mem d) (merge_args H K) !! Z.to_nat b =
    Some (row_key (dev_mem d) (merge_args H K) (Z.to_nat b))) as RK.
  { intros b Hb. unfold row_keys. rewrite list_lookup_fmap, lookup_seq_lt; [done|]. cbn. lia. }
  split_and!; [exact COk|apply IN| | |].
  - intros b k Hk. apply (contents_lookup _ _ Hok) in Hk as [Hb (_ & Hl & Hp & Ek)].
    rewrite <- (Z2Nat.id b) by lia. apply (in_rows _ _ _ _ IN (Z.to_nat b)).
    + rewrite RK, merge_row_key by done. by rewrite Ek.
    + intros ->. destruct (proj2 (hk_tab _ _ Hok) b Hb) as [(_ & _ & S3) _]. by destruct (S3 Hp) as [? _].
  - intros k [?|[Hin Hne]]%(in_new _ _ _ _ IN); [by right|left].
    apply list_elem_of_fmap in Hin as (i & -> & Hi). apply elem_of_seq in Hi.
    assert (0 <= Z.of_nat i < ht_buckets_num H) as Hb by (cbn in Hi; lia).
    destruct (merge_live (dev_mem d) H K (Z.of_nat i) Hok Hb) as ([L1 _] & _). rewrite Nat2Z.id in L1.
    exists (Z.of_nat i). apply (contents_lookup _ _ Hok). split; [done|].
    assert (rd (ptrs (ht_tab H)) (Z.of_nat i) <> 0) as Hp.
    { apply L1. split; [lia|]. intros E. apply Hne. unfold row_key. by rewrite E. }
    rewrite <- (Nat2Z.id i), merge_row_key, Nat2Z.id by done. apply (table_ok_holds _ (table_args _)); auto. apply Hok.
  - intros b Hb Hp. destruct (merge_live (dev_mem d) H K b Hok Hb) as ([L1 _] & _).
    rewrite <- (Z2Nat.id b) by lia. unfold call_grid.
    erewrite run_res_skip; [|apply Rok|eapply (launched_inv _ _ _ _ _ _ []), call_launch_ok; done|].
    + cbn [run launch res_buckets]. apply Rr. lia.
    + intros L. by apply (L1 L).
Qed.

(** C27: [mergeToOtherTable] adds the strings of one table to another and
    reports where they went.  The buffers of the two tables are disjoint, and
    the lengths of the strings of the source, rounded up to words, stay below
    2^32 together with the used size of the destination, so that the 32-bit sum
    does not wrap around.  After a call that does not throw, every string
    of the source in bucket [b] is in the destination under the bucket [res' b],
    the destination's own strings keep their buckets, nothing else is added,
    and [res' b] is [0xFFFFFFFF] for every empty bucket of the source. *)
Theorem mergeToOtherTable_spec s order d H K res d' H' K' res' :
  mem_ok (dev_mem d) -> ht_ok (dev_mem d) H -> ht_ok (dev_mem d) K ->
  ht_str_buf H + ht_str_buf_sz H <= ht_str_buf K \/ ht_str_buf K + ht_str_buf_max_sz K <= ht_str_buf H ->
  ht_str_buf_sz K + rows_size (merge_args H K) < 2 ^ 32 ->
  ht_buckets_num H <= Z.of_nat (length res) ->
  order ≡ₚ seq 0 (Z.to_nat (ht_buckets_num H)) ->
  all_exited (call_grid s d K (merge_args H K) (kerFillEmptyResBucket (ht_buckets_num H) res)) = true ->
  mergeToOtherTable s order d H K res = (d', H', K', res', None) ->
  ht_ok (dev_mem d') K' /\
  contents (dev_mem d) K ⊆ contents (dev_mem d') K' /\
  (forall b k, contents (dev_mem d) H !! k = Some b -> contents (dev_mem d') K' !! k = Some (rd res' b)) /\
  (forall k, is_Some (contents (dev_mem d') K' !! k) ->
     is_Some (contents (dev_mem d) H !! k) \/ is_Some (contents (dev_mem d) K !! k)) /\
  (forall b, 0 <= b < ht_buckets_num H -> rd (ptrs (ht_tab H)) b = 0 -> rd res' b = 2 ^ 32 - 1).
Proof. apply merge_call. Qed.

(** The state after the rows "a", "b" and "a" have been added, and a second,
    empty table with its buffer at address 256. *)
Definition demo_added : device * hash_table * list Z * option add_error :=
  addData (demo_schedule 40) [0; 1; 2]%nat demo_device demo_ht 3 16 [0; 2; 4] [2; 2; 2] (replicate 3 0).
Definition demo_ht2 : hash_table :=
  HashTable 4 0 64 demo_table (replicate 4 0) (replicate 4 0) (replicate 4 0) 256.

Lemma demo_added_ok :
  mem_ok (dev_mem demo_added.1.1.1) /\ ht_ok (dev_mem demo_added.1.1.1) demo_added.1.1.2.
Proof.
  unfold demo_added. destruct (addData _ _ _ _ _ _ _ _ _) as [[[d' H'] res'] e] eqn:E. cbn [fst snd].
  assert (e = None) as -> by (apply (f_equal snd) in E; vm_compute in E; congruence).
  apply addData_none in E as (Hf & Hs & -> & -> & ->);
    [|exact demo_ht_ok|exact demo_rows_ok|exact demo_call_exits].
  split; [apply call_copied|apply call_ok]; auto using demo_ht_ok, demo_rows_ok, demo_call_exits.
Qed.

Lemma demo_ht2_ok m : ht_ok m demo_ht2.
Proof.
  split; [cbn; lia|by apply table_ok_empty|cbn; lia|cbn; lia|done| |done].
  intros b Hb. cbn in Hb. assert (b = 0 \/ b = 1 \/ b = 2 \/ b = 3) as D by lia.
  destruct D as [->|[->|[->| ->]]]; intros []; done.
Qed.

Lemma mergeToOtherTable_spec_witness :
  exists d' H' K' res',
    mergeToOtherTable (demo_schedule 40) [0; 1; 2; 3]%nat demo_added.1.1.1 demo_added.1.1.2 demo_ht2
      (replicate 4 0) = (d', H', K', res', None) /\
    contents (dev_mem demo_added.1.1.1) demo_ht2 ⊆ contents (dev_mem d') K'.
Proof.
  destruct (mergeToOtherTable (demo_schedule 40) [0; 1; 2; 3]%nat demo_added.1.1.1 demo_added.1.1.2 demo_ht2
    (replicate 4 0)) as [[[[d' H'] K'] res'] e] eqn:E.
  assert (e = None) as -> by (apply (f_equal snd) in E; vm_compute in E; congruence).
  exists d', H', K', res'. split; [reflexivity|].
  apply (mergeToOtherTable_spec (demo_schedule 40) [0; 1; 2; 3]%nat demo_added.1.1.1 demo_added.1.1.2 demo_ht2
    (replicate 4 0) d' H' K' res').
  - apply demo_added_ok.
  - apply demo_added_ok.
  - apply demo_ht2_ok.
  - left. vm_compute. congruence.
  - vm_compute. reflexivity.
  - vm_compute. congruence.
  - vm_compute. reflexivity.
  - vm_compute. reflexivity.
  - exact E.
Defined.
