(* ===== verification/PinnedMemPool.v ===== *)
(** * The pool of pinned host memory

    [CudaHostPinnedMemPool] (Common/Cuda/CudaHostPinnedMemPool.h and .cpp) with
    [SinglyLinkedList] and [CudaHostPinnedMemPoolUtils]: a first-fit allocator
    whose free list and headers live in the memory it manages.  The model keeps
    them there: nodes and headers are loads and stores of the byte memory.

    Shown: from [init] on, through any sequence of [alloc], [free], [realloc] to
    sizes that are not smaller, and writes of the clients to their own data, live allocations are aligned,
    disjoint and inside the pool, no operation of the pool touches their data,
    and [alloc] fails only when no free block is large enough.  The exceptions
    (alignments above 16, sizes that overflow, a free that leaks the block, a
    second [init], a reallocation to a smaller size) are exhibited as theorems. *)

From stdpp Require Import base list numbers relations.
From Stdlib Require Import ZArith Lia Sorting.Sorted.
From S2P Require Import Prelude DeviceMemory.

#[local] Open Scope Z_scope.
#[local] Open Scope word_scope.

(** ** Data *)

(** The fields of the class, [head] being that of [m_freeList], and the
    memory. *)
Record pool := Pool {
  m_totalSize : Z;
  m_used : Z;
  m_peak : Z;
  m_start_ptr : Z;
  head : Z;
  heap : memory
}.

(** [sizeof(Node)] and [sizeof(AllocationHeader)]. *)
Definition sizeof_Node : Z := 16.
Definition allocationHeaderSize : Z := 16.

(** [p->data.blockSize] and [p->next] of a node. *)
Definition blockSize (m : memory) (p : Z) : Z := load64 m p.
Definition next (m : memory) (p : Z) : Z := load64 m (p + 8).

(** The member [char padding] of an allocation header: a signed byte. *)
Definition header_padding (m : memory) (p : Z) : Z :=
  let c := m (p + 8) in if c <? 128 then c else c - 256.

Definition set_heap (P : pool) (m : memory) : pool :=
  Pool (m_totalSize P) (m_used P) (m_peak P) (m_start_ptr P) (head P) m.
Definition set_list (P : pool) (l : Z * memory) : pool :=
  Pool (m_totalSize P) (m_used P) (m_peak P) (m_start_ptr P) l.1 l.2.

(** ** [SinglyLinkedList]: the head and the memory of the nodes *)

Definition insert (l : Z * memory) (previousNode newNode : Z) : Z * memory :=
  let '(hd, m) := l in
  if previousNode =? 0 then
    if negb (hd =? 0) then (newNode, store64 m (newNode + 8) hd)
    else (newNode, store64 m (newNode + 8) 0)
  else if next m previousNode =? 0 then
    (hd, store64 (store64 m (previousNode + 8) newNode) (newNode + 8) 0)
  else
    let m := store64 m (newNode + 8) (next m previousNode) in
    (hd, store64 m (previousNode + 8) newNode).

Definition remove (l : Z * memory) (previousNode deleteNode : Z) : Z * memory :=
  let '(hd, m) := l in
  if previousNode =? 0 then
    if next m deleteNode =? 0 then (0, m) else (next m deleteNode, m)
  else (hd, store64 m (previousNode + 8) (next m deleteNode)).

(** ** [CudaHostPinnedMemPoolUtils] *)

Definition CalculatePadding (baseAddress alignment : Z) : Z :=
  let multiplier := (baseAddress / alignment) +64 1 in
  let alignedAddress := multiplier *64 alignment in
  alignedAddress -64 baseAddress.

Definition CalculatePaddingWithHeader (baseAddress alignment headerSize : Z) : Z :=
  let padding := CalculatePadding baseAddress alignment in
  let neededSpace := headerSize in
  if padding <? neededSpace then
    let neededSpace := neededSpace -64 padding in
    if 0 <? neededSpace mod alignment
    then padding +64 (alignment *64 (1 +64 (neededSpace / alignment)))
    else padding +64 (alignment *64 (neededSpace / alignment))
  else padding.

(** ** [CudaHostPinnedMemPool] *)

(** [find]: [padding], [previousNode] and [foundNode] on return. *)
Fixpoint find (fuel : nat) (m : memory) (size alignment padding itPrev it : Z) : option (Z * Z * Z) :=
  if it =? 0 then Some (padding, itPrev, it)
  else match fuel with
  | O => None
  | S fuel' =>
      let padding := CalculatePaddingWithHeader it alignment allocationHeaderSize in
      let requiredSpace := size +64 padding in
      if requiredSpace <=? blockSize m it then Some (padding, itPrev, it)
      else find fuel' m size alignment padding it (next m it)
  end.

(** A pool of [totalSize] bytes has at most one node for every 16 of them. *)
Definition list_fuel (P : pool) : nat := S (Z.to_nat (m_totalSize P / 16)).

Inductive pool_error := NotEnoughMemory | Diverges.

Definition alloc_size (size : Z) : Z := ((Z.max size sizeof_Node / 16) +64 1) *64 16.

Definition alloc (P : pool) (size alignment : Z) : result pool_error (pool * Z) :=
  let size := alloc_size size in
  let alignment := Z.max alignment 16 in
  match find (list_fuel P) (heap P) size alignment 0 0 (head P) with
  | None => Throw Diverges
  | Some (padding, previousNode, affectedNode) =>
      if affectedNode =? 0 then Throw NotEnoughMemory
      else
        let alignmentPadding := padding -64 allocationHeaderSize in
        let requiredSize := size +64 padding in
        let rest := blockSize (heap P) affectedNode -64 requiredSize in
        let l := (head P, heap P) in
        let l :=
          if 0 <? rest then
            let newFreeNode := affectedNode +64 requiredSize in
            let l := (l.1, store64 l.2 newFreeNode rest) in
            insert l affectedNode newFreeNode
          else l in
        let '(hd, m) := remove l previousNode affectedNode in
        let headerAddress := affectedNode +64 alignmentPadding in
        let dataAddress := headerAddress +64 allocationHeaderSize in
        let m := store64 m headerAddress requiredSize in
        let m := store8 m (headerAddress + 8) (u8 alignmentPadding) in
        let used := m_used P +64 requiredSize in
        Ok (Pool (m_totalSize P) used (Z.max (m_peak P) used) (m_start_ptr P) hd m, dataAddress)
  end.

(** The two tests of [coalescence], one after the other. *)
Definition coalesce_next (l : Z * memory) (freeNode : Z) : Z * memory :=
  let m := l.2 in
  if negb (next m freeNode =? 0) && (freeNode +64 blockSize m freeNode =? next m freeNode) then
    let m := store64 m freeNode (blockSize m freeNode +64 blockSize m (next m freeNode)) in
    remove (l.1, m) freeNode (next m freeNode)
  else l.

Definition coalesce_prev (l : Z * memory) (previousNode freeNode : Z) : Z * memory :=
  let m := l.2 in
  if negb (previousNode =? 0) && (previousNode +64 blockSize m previousNode =? freeNode) then
    let m := store64 m previousNode (blockSize m previousNode +64 blockSize m freeNode) in
    remove (l.1, m) previousNode freeNode
  else l.

Definition coalescence (l : Z * memory) (previousNode freeNode : Z) : Z * memory :=
  coalesce_prev (coalesce_next l freeNode) previousNode freeNode.

(** The loop of [free]: the node is linked in before the first one behind
    [ptr], if there is one; the second result is [itPrev] on exit. *)
Fixpoint free_loop (fuel : nat) (l : Z * memory) (ptr freeNode itPrev it : Z) : option (Z * memory * Z) :=
  if it =? 0 then Some (l, itPrev)
  else match fuel with
  | O => None
  | S fuel' =>
      if ptr <? it then Some (insert l itPrev freeNode, itPrev)
      else free_loop fuel' l ptr freeNode it (next l.2 it)
  end.

Definition free (P : pool) (ptr : Z) : result pool_error pool :=
  let headerAddress := ptr -64 allocationHeaderSize in
  let freeNode := headerAddress in
  let m := heap P in
  let m := store64 m freeNode (u64 (blockSize m headerAddress + header_padding m headerAddress)) in
  let m := store64 m (freeNode + 8) 0 in
  match free_loop (list_fuel P) (head P, m) ptr freeNode 0 (head P) with
  | None => Throw Diverges
  | Some (l, itPrev) =>
      let used := m_used P -64 blockSize l.2 freeNode in
      let l := coalescence l itPrev freeNode in
      Ok (Pool (m_totalSize P) used (m_peak P) (m_start_ptr P) l.1 l.2)
  end.

Definition realloc (P : pool) (buf old_size new_size alignment : Z) : result pool_error (pool * Z) :=
  if old_size =? new_size then Ok (P, buf)
  else match alloc P new_size alignment with
  | Throw e => Throw e
  | Ok (P, new_buf) =>
      let P := set_heap P (memcpy (heap P) new_buf buf old_size) in
      match free P buf with
      | Throw e => Throw e
      | Ok P => Ok (P, new_buf)
      end
  end.

Definition reset (P : pool) : pool :=
  let firstNode := m_start_ptr P in
  let m := store64 (heap P) firstNode (m_totalSize P) in
  let m := store64 m (firstNode + 8) 0 in
  let l := insert (0, m) 0 firstNode in
  Pool (m_totalSize P) 0 0 (m_start_ptr P) l.1 l.2.

(** [init]: [p] is the address that [cudaMallocHost] returns.  The call
    [free(m_start_ptr)] of the branch marked TODO is the member function. *)
Definition init (P : pool) (totalSize p : Z) : result pool_error pool :=
  match (if m_start_ptr P =? 0 then Ok P else free P (m_start_ptr P)) with
  | Throw e => Throw e
  | Ok P => Ok (reset (Pool totalSize 0 (m_peak P) p (head P) (heap P)))
  end.

(** The state of the singleton before [init]. *)
Definition pool_new (m : memory) (garbage : Z) : pool := Pool garbage garbage garbage 0 garbage m.

(** ** Blocks *)

Definition block : Type := Z * Z.

Definition disj (b c : block) : Prop := b.1 + b.2 <= c.1 \/ c.1 + c.2 <= b.1.

Fixpoint pairwise (l : list block) : Prop :=
  match l with [] => True | b :: l' => Forall (disj b) l' /\ pairwise l' end.

Definition size_of (l : list block) : Z := zsum (map snd l).

#[export] Instance disj_sym : Symmetric disj.
Proof. intros b c. unfold disj. lia. Qed.

#[export] Instance pairwise_proper : Proper ((≡ₚ) ==> iff) pairwise.
Proof.
  intros l k E. induction E as [|b l k E IH|b c l|l1 l2 l3 _ IH1 _ IH2]; cbn [pairwise];
    [done| | |by rewrite IH1].
  - assert (Forall (disj b) l <-> Forall (disj b) k) as -> by (by apply Forall_Permutation). by rewrite IH.
  - rewrite !list.Forall_cons. split; intros ((? & ?) & ? & ?); split_and!; auto; by symmetry.
Qed.

#[export] Instance size_of_proper : Proper ((≡ₚ) ==> (=)) size_of.
Proof. intros l k E. unfold size_of. induction E; cbn; lia. Qed.

Lemma pairwise_app l k :
  pairwise (l ++ k) <-> pairwise l /\ pairwise k /\ forall b c, b ∈ l -> c ∈ k -> disj b c.
Proof.
  induction l as [|b l IH]; cbn [app pairwise].
  - split; [|by intros (_&?&_)]. intros H. split_and!; auto. intros b c Hb. by apply elem_of_nil in Hb.
  - rewrite IH, Forall_app. split.
    + intros ((F1 & F2) & P1 & P2 & D). split_and!; auto. intros x y [->|Hx]%elem_of_cons Hy; [|by apply D].
      rewrite list.Forall_forall in F2. auto.
    + intros ((F1 & P1) & P2 & D). split_and!; auto.
      * apply list.Forall_forall. intros y Hy. apply D; [by left|done].
      * intros x y Hx Hy. apply D; [by right|done].
Qed.

Lemma pairwise_elem l b c : pairwise l -> b ∈ l -> c ∈ l -> b <> c -> disj b c.
Proof.
  intros Hp Hb Hc Hne. apply elem_of_Permutation in Hb as [k Ek]. rewrite Ek in Hp, Hc.
  destruct Hp as [Hp _]. apply elem_of_cons in Hc as [->|Hc]; [done|]. rewrite list.Forall_forall in Hp. auto.
Qed.

Lemma pairwise_lookup l i j b c :
  pairwise l -> l !! i = Some b -> l !! j = Some c -> i <> j -> disj b c.
Proof.
  revert i j. induction l as [|x l IH]; intros i j H Hi Hj Hne; [done|].
  destruct H as [Hx Hp]. rewrite list.Forall_forall in Hx.
  destruct i as [|i], j as [|j]; cbn in Hi, Hj; [done| | |by apply (IH i j); auto].
  - injection Hi as <-. apply Hx. by eapply list_elem_of_lookup_2.
  - injection Hj as <-. symmetry. apply Hx. by eapply list_elem_of_lookup_2.
Qed.

(** Pairwise disjoint blocks of an interval are together no longer than it. *)
Lemma pairwise_size lo hi l :
  lo <= hi -> pairwise l -> Forall (fun b => lo <= b.1 /\ b.1 + b.2 <= hi /\ 0 <= b.2) l -> size_of l <= hi - lo.
Proof.
  intros Hlh Hp Hl. set (cells (b : block) := seqZ b.1 b.2).
  assert (NoDup (concat (map cells l))) as Hnd.
  { clear Hl. induction l as [|b l IH]; [constructor|]. destruct Hp as [Hd Hp]. cbn. apply list.NoDup_app. split_and!; auto.
    - apply NoDup_seqZ.
    - intros x Hx Hc. apply list_elem_of_In in Hc. apply in_concat in Hc as (y & Hy & Hx').
      apply in_map_iff in Hy as (c & <- & Hc). apply list_elem_of_In in Hc, Hx'. apply elem_of_seqZ in Hx, Hx'.
      rewrite list.Forall_forall in Hd. specialize (Hd c Hc). unfold disj in Hd. lia. }
  assert (concat (map cells l) ⊆+ seqZ lo (hi - lo)) as Hs.
  { apply NoDup_submseteq; [done|]. intros x Hx. apply list_elem_of_In in Hx. apply in_concat in Hx as (y & Hy & Hx').
    apply in_map_iff in Hy as (c & <- & Hc). apply list_elem_of_In in Hc, Hx'. apply elem_of_seqZ in Hx'.
    rewrite list.Forall_forall in Hl. specialize (Hl c Hc). apply elem_of_seqZ. lia. }
  apply submseteq_length in Hs. rewrite length_seqZ in Hs. unfold size_of.
  assert (zsum (map snd l) = Z.of_nat (length (concat (map cells l)))) as ->; [|lia].
  clear -Hl. induction Hl as [|b l Hb Hl IH]; [done|]. cbn. rewrite length_app. unfold cells at 1.
  rewrite length_seqZ. rewrite IH. lia.
Qed.

(** ** The free list in memory *)

(** Nodes [l], linked from [h] on, the last one pointing to [x]. *)
Fixpoint lseg (m : memory) (h : Z) (l : list block) (x : Z) : Prop :=
  match l with
  | [] => h = x
  | b :: l' => h = b.1 /\ blockSize m b.1 = b.2 /\ lseg m (next m b.1) l' x
  end.

(** The 16 bytes of a node. *)
Definition node_block (b : block) : Prop := 0 < b.1 /\ b.1 + 16 <= 2 ^ 64.

Definition apart16 (b c : block) : Prop := b.1 + 16 <= c.1 \/ c.1 + 16 <= b.1.

Definition apart (l : list block) : Prop := pairwise (map (fun b => (b.1, 16)) l).

Lemma apart_app l k :
  apart (l ++ k) <-> apart l /\ apart k /\ forall b c, b ∈ l -> c ∈ k -> apart16 b c.
Proof.
  unfold apart. rewrite map_app, pairwise_app.
  assert ((forall b c : block, b ∈ map (fun b => (b.1, 16)) l -> c ∈ map (fun b => (b.1, 16)) k -> disj b c) <->
    (forall b c, b ∈ l -> c ∈ k -> apart16 b c)) as ->; [|done]. split.
  - intros H b c Hb Hc. apply (H (b.1, 16) (c.1, 16)); apply list_elem_of_fmap; eauto.
  - intros H b c (x & -> & Hx)%list_elem_of_fmap (y & -> & Hy)%list_elem_of_fmap. exact (H x y Hx Hy).
Qed.

Lemma apart_pairwise l : pairwise l -> Forall (fun b => 16 <= b.2) l -> apart l.
Proof.
  intros Hp Hl. unfold apart. induction Hl as [|b l Hb Hl IH]; [done|]. destruct Hp as [Hd Hp]. split; [|by apply IH].
  apply Forall_fmap. rewrite list.Forall_forall in Hd, Hl. apply list.Forall_forall. intros c Hc.
  specialize (Hd c Hc). specialize (Hl c Hc). unfold disj in *. cbn in *. lia.
Qed.

Definition last_addr (l : list block) : Z :=
  match list.last l with Some b => b.1 | None => 0 end.

Lemma lseg_app m h l k x :
  lseg m h (l ++ k) x <-> exists y, lseg m h l y /\ lseg m y k x.
Proof.
  revert h. induction l as [|b l IH]; intros h; cbn [app lseg].
  - split; [by exists h|]. by intros (y & -> & ?).
  - rewrite IH. split.
    + intros (-> & ? & y & ? & ?). exists y. by split_and!.
    + intros (y & (-> & ? & ?) & ?). split_and!; auto. by exists y.
Qed.

Lemma lseg_frame m m' h l x :
  (forall b y, b ∈ l -> b.1 <= y < b.1 + 16 -> m' y = m y) -> lseg m h l x -> lseg m' h l x.
Proof.
  revert h. induction l as [|b l IH]; intros h Hf; [done|]. cbn [lseg]. unfold blockSize, next.
  intros (-> & E & H). split_and!; [done| |].
  - rewrite (load64_agree m m'); [done|]. intros y Hy. apply (Hf b); [by left|lia].
  - rewrite (load64_agree m m'); [|intros y Hy; apply (Hf b); [by left|lia]].
    apply IH; [|done]. intros c y Hc. apply Hf. by right.
Qed.

Lemma lseg_zero m h l : Forall node_block l -> lseg m h l 0 -> h = 0 -> l = [].
Proof. intros Hl H ->. destruct Hl as [|b l Hb _]; [done|]. destruct H as [E _], Hb as [? _]. lia. Qed.

Lemma last_addr_zero l : Forall node_block l -> last_addr l = 0 -> l = [].
Proof.
  intros Hl. unfold last_addr. destruct (list.last l) as [b|] eqn:E; [|by apply last_None in E].
  apply last_Some in E as [k ->]. apply Forall_app in Hl as [_ Hb]. inversion Hb as [|? ? [? _]]; subst. lia.
Qed.

Lemma apart_mid l b k : apart (l ++ b :: k) -> forall c, c ∈ l ++ k -> apart16 b c.
Proof.
  intros H c Hc. change (b :: k) with ([b] ++ k) in H. apply apart_app in H as (_ & H & H1).
  apply apart_app in H as (_ & _ & H2). apply elem_of_app in Hc as [Hc|Hc].
  - specialize (H1 c b Hc ltac:(by left)). unfold apart16 in *. lia.
  - apply H2; [by left|done].
Qed.

(** Redirecting the last link of a segment (or the head, when it is empty). *)
Definition relink (l : Z * memory) (previousNode x : Z) : Z * memory :=
  if previousNode =? 0 then (x, l.2) else (l.1, store64 l.2 (previousNode + 8) x).

Lemma relink_spec m hd l y x :
  Forall node_block l -> apart l -> fits 64 x -> lseg m hd l y ->
  let '(hd', m') := relink (hd, m) (last_addr l) x in
  lseg m' hd' l x /\
  (forall z, (forall b, b ∈ l -> z < b.1 + 8 \/ b.1 + 16 <= z) -> m' z = m z).
Proof.
  intros Hl Hp Hx H. unfold relink. destruct (Z.eqb_spec (last_addr l) 0) as [E|E].
  - apply last_addr_zero in E as ->; [|done]. done.
  - unfold last_addr in *. destruct (list.last l) as [b|] eqn:Eb; [|done]. apply last_Some in Eb as [k ->]. cbn [fst snd].
    apply lseg_app in H as (z & H1 & -> & H2 & _). apply apart_app in Hp as (_ & _ & Hd).
    apply Forall_app in Hl as [Hk Hb]. rewrite list.Forall_singleton in Hb.
    split.
    + apply lseg_app. exists b.1. split.
      * eapply lseg_frame; [|exact H1]. intros c z Hc Hz. apply store64_outside.
        rewrite list.Forall_forall in Hk. destruct (Hk c Hc) as (? & ?), Hb as (? & ?).
        specialize (Hd c b Hc ltac:(by left)). unfold apart16 in Hd. lia.
      * cbn [lseg]. unfold blockSize, next. rewrite load64_store64_ne by lia. by rewrite load64_store64_eq.
    + intros z Hz. apply store64_outside. specialize (Hz b ltac:(apply elem_of_app; right; by left)). lia.
Qed.

Lemma store64_inside m m' p v x : p <= x < p + 8 -> store64 m p v x = store64 m' p v x.
Proof.
  intros H. replace x with (p + Z.of_nat (Z.to_nat (x - p))) by lia. unfold store64.
  by rewrite !store_le_inside by lia.
Qed.

Lemma store64_comm m p q v w x :
  p + 8 <= q \/ q + 8 <= p -> store64 (store64 m p v) q w x = store64 (store64 m q w) p v x.
Proof.
  intros H. destruct (decide (p <= x < p + 8)).
  - rewrite store64_outside by lia. by apply store64_inside.
  - rewrite (store64_outside (store64 m q w)) by lia. destruct (decide (q <= x < q + 8)).
    + by apply store64_inside.
    + rewrite !store64_outside; lia || done.
Qed.

(** The words that hold the links of [l]. *)
Definition off_links (l : list block) (x : Z) : Prop :=
  forall b, b ∈ l -> x < b.1 + 8 \/ b.1 + 16 <= x.

Lemma lseg_end_fits m h l x : mem_ok m -> fits 64 h -> lseg m h l x -> fits 64 x.
Proof.
  intros Hm. revert h. induction l as [|b l IH]; intros h Hh; cbn [lseg]; [by intros <-|].
  intros (_ & _ & H). apply (IH (next m b.1)); [by apply load64_bound|done].
Qed.

(** Both operations of the list are a [relink], the insertion after the link
    of the new node has been set. *)
Lemma insert_relink m hd l1 n y :
  Forall node_block l1 -> lseg m hd l1 y -> last_addr l1 <> n ->
  apart16 (last_addr l1, 16) (n, 16) \/ l1 = [] ->
  let '(hd', m') := insert (hd, m) (last_addr l1) n in
  let '(hd2, m2) := relink (hd, store64 m (n + 8) y) (last_addr l1) n in
  hd' = hd2 /\ forall x, m' x = m2 x.
Proof.
  intros Hl H Hne Hd. unfold insert, relink. destruct (Z.eqb_spec (last_addr l1) 0) as [E|E].
  - apply last_addr_zero in E as ->; [|done]. cbn in H. subst y. cbn [fst snd].
    by destruct (Z.eqb_spec hd 0) as [->|]; cbn [negb].
  - assert (next m (last_addr l1) = y) as Ey.
    { unfold last_addr in *. destruct (list.last l1) as [b|] eqn:Eb; [|done]. apply last_Some in Eb as [k ->].
      apply lseg_app in H as (z & _ & _ & _ & H). exact H. }
    rewrite Ey. destruct (Z.eqb_spec y 0) as [->|]; [|done]. split; [done|]. intros x. cbn [fst snd].
    apply store64_comm. destruct Hd as [Hd| ->]; [|done]. unfold apart16 in Hd. cbn in Hd. lia.
Qed.

Lemma last_addr_elem l : Forall node_block l -> l = [] \/ exists b, b ∈ l /\ last_addr l = b.1 /\ node_block b.
Proof.
  intros Hl. unfold last_addr. destruct (list.last l) as [b|] eqn:E; [right|left; by apply last_None in E].
  exists b. assert (b ∈ l) as Hb by (apply last_Some in E as [k ->]; apply elem_of_app; right; by left).
  rewrite list.Forall_forall in Hl. auto.
Qed.

Lemma insert_ok m hd p n :
  mem_ok m -> fits 64 hd -> fits 64 n -> mem_ok (insert (hd, m) p n).2 /\ fits 64 (insert (hd, m) p n).1.
Proof.
  intros Hm Hh Hn. unfold insert.
  destruct (p =? 0); [destruct (negb (hd =? 0))|destruct (next m p =? 0)]; cbn [fst snd];
    split; try done; repeat apply store64_ok; done.
Qed.

Lemma remove_ok m hd p n :
  mem_ok m -> fits 64 hd -> mem_ok (remove (hd, m) p n).2 /\ fits 64 (remove (hd, m) p n).1.
Proof.
  intros Hm Hh. unfold remove.
  destruct (p =? 0); [destruct (next m n =? 0)|]; cbn [fst snd]; split; try done.
  - by apply load64_bound.
  - by apply store64_ok.
Qed.

Lemma insert_spec m hd l1 l2 b :
  mem_ok m -> fits 64 hd -> Forall node_block (l1 ++ b :: l2) -> apart (l1 ++ b :: l2) ->
  lseg m hd (l1 ++ l2) 0 -> blockSize m b.1 = b.2 ->
  let '(hd', m') := insert (hd, m) (last_addr l1) b.1 in
  lseg m' hd' (l1 ++ b :: l2) 0 /\ (forall x, off_links (l1 ++ [b]) x -> m' x = m x).
Proof.
  intros Hm Hhd Hn Hp H Hb. pose proof (apart_mid _ _ _ Hp) as Hd.
  apply Forall_app in Hn as [Hn1 Hn2]. apply list.Forall_cons in Hn2 as [Hnb Hn2].
  apply lseg_app in H as (y & H1 & H2). pose proof (lseg_end_fits _ _ _ _ Hm Hhd H1) as Hy.
  assert (apart l1) as Hp1 by (by apply apart_app in Hp as (? & _)).
  assert (forall c, c ∈ l1 ++ l2 -> node_block c) as Hnode.
  { intros c [Hc|Hc]%elem_of_app; [by rewrite list.Forall_forall in Hn1; auto|by rewrite list.Forall_forall in Hn2; auto]. }
  assert (last_addr l1 <> b.1 /\ (apart16 (last_addr l1, 16) (b.1, 16) \/ l1 = [])) as [Hne Hla].
  { destruct (last_addr_elem l1 Hn1) as [->|(c & Hc & -> & Hcn)]; [split; [|by right]; cbn; destruct Hnb; lia|].
    specialize (Hd c ltac:(apply elem_of_app; by left)). unfold apart16 in *. destruct Hcn as (? & ?), Hnb as (? & ?).
    cbn. split; [lia|left; lia]. }
  set (m1 := store64 m (b.1 + 8) y).
  assert (forall c z, c ∈ l1 ++ l2 -> c.1 <= z < c.1 + 16 -> m1 z = m z) as Fr.
  { intros c z Hc Hz. apply store64_outside. specialize (Hd c Hc). destruct (Hnode c Hc) as (? & ?), Hnb as (? & ?).
    unfold apart16 in Hd. lia. }
  pose proof (insert_relink m hd l1 b.1 y Hn1 H1 Hne Hla) as R.
  pose proof (relink_spec m1 hd l1 y b.1 Hn1 Hp1 ltac:(destruct Hnb as (? & ?); unfold fits; lia)
    ltac:(eapply lseg_frame; [|exact H1]; intros c z Hc; apply Fr, elem_of_app; by left)) as S.
  destruct (insert (hd, m) (last_addr l1) b.1) as [hd' m']. fold m1 in R.
  destruct (relink (hd, m1) (last_addr l1) b.1) as [hd2 m2] eqn:E2. destruct R as [-> R], S as [S Out].
  assert (forall z, off_links l1 z -> m' z = m1 z) as Out1 by (intros z Hz; rewrite R; by apply Out).
  split_and!.
  - apply lseg_app. exists b.1. split; [eapply lseg_frame; [|exact S]; intros; by rewrite R|].
    cbn [lseg]. assert (forall z, b.1 <= z < b.1 + 16 -> m' z = m1 z) as Fb.
    { intros z Hz. apply Out1. intros c Hc. specialize (Hd c ltac:(apply elem_of_app; by left)).
      destruct (Hnode c ltac:(apply elem_of_app; by left)) as (? & ?), Hnb as (? & ?). unfold apart16 in Hd. lia. }
    split_and!; [done| |].
    + unfold blockSize. rewrite (load64_agree m1) by (intros; apply Fb; lia). unfold m1. by rewrite load64_store64_ne by lia.
    + unfold next. rewrite (load64_agree m1) by (intros; apply Fb; lia). unfold m1. rewrite load64_store64_eq by done.
      eapply lseg_frame; [|exact H2]. intros c z Hc Hz. rewrite Out1.
      * apply (Fr c); [apply elem_of_app; by right|done].
      * intros d Hdl. apply apart_app in Hp as (_ & _ & Hp). specialize (Hp d c Hdl ltac:(by right)).
        destruct (Hnode d ltac:(apply elem_of_app; by left)) as (? & ?).
        destruct (Hnode c ltac:(apply elem_of_app; by right)) as (? & ?). unfold apart16 in Hp. lia.
  - intros x Hx. rewrite Out1; [apply store64_outside|].
    + specialize (Hx b ltac:(apply elem_of_app; right; by left)). lia.
    + intros c Hc. apply Hx. apply elem_of_app. by left.
Qed.

Lemma remove_spec m hd l1 l2 b :
  mem_ok m -> Forall node_block (l1 ++ b :: l2) -> apart (l1 ++ b :: l2) ->
  lseg m hd (l1 ++ b :: l2) 0 ->
  let '(hd', m') := remove (hd, m) (last_addr l1) b.1 in
  lseg m' hd' (l1 ++ l2) 0 /\ (forall x, off_links l1 x -> m' x = m x).
Proof.
  intros Hm Hn Hp H. apply Forall_app in Hn as [Hn1 Hn2]. apply list.Forall_cons in Hn2 as [Hnb Hn2].
  apply apart_app in Hp as (Hp1 & _ & Hd). apply lseg_app in H as (y & H1 & -> & Hb & H2).
  assert (remove (hd, m) (last_addr l1) b.1 = relink (hd, m) (last_addr l1) (next m b.1)) as ->.
  { unfold remove, relink. destruct (_ =? 0); [|done]. by destruct (Z.eqb_spec (next m b.1) 0) as [->|]. }
  pose proof (relink_spec m hd l1 b.1 (next m b.1) Hn1 Hp1 ltac:(by apply load64_bound) H1) as S.
  destruct (relink _ _ _) as [hd' m']. destruct S as [S Out]. split; [|exact Out].
  apply lseg_app. exists (next m b.1). split; [done|]. eapply lseg_frame; [|exact H2].
  intros c z Hc Hz. apply Out. intros d Hdl. specialize (Hd d c Hdl ltac:(by right)).
  rewrite list.Forall_forall in Hn1, Hn2. destruct (Hn1 d Hdl) as (? & ?), (Hn2 c Hc) as (? & ?).
  unfold apart16 in Hd. lia.
Qed.

(** Changing the size of one node. *)
Lemma lseg_resize m hd l1 l2 b v x :
  apart (l1 ++ b :: l2) -> fits 64 v -> lseg m hd (l1 ++ b :: l2) x ->
  lseg (store64 m b.1 v) hd (l1 ++ (b.1, v) :: l2) x.
Proof.
  intros Ha Hv H. pose proof (apart_mid _ _ _ Ha) as Hd. apply lseg_app in H as (y & H1 & -> & Hb & H2).
  assert (forall c z, c ∈ l1 ++ l2 -> c.1 <= z < c.1 + 16 -> store64 m b.1 v z = m z) as Fr.
  { intros c z Hc Hz. apply store64_outside. specialize (Hd c Hc). unfold apart16 in Hd. lia. }
  apply lseg_app. exists b.1. split.
  - eapply lseg_frame; [|exact H1]. intros c z Hc. apply Fr, elem_of_app. by left.
  - cbn [lseg fst snd]. split_and!; [done| |].
    + by apply load64_store64_eq.
    + unfold next. rewrite load64_store64_ne by lia. eapply lseg_frame; [|exact H2].
      intros c z Hc. apply Fr, elem_of_app. by right.
Qed.

Lemma last_addr_snoc l b : last_addr (l ++ [b]) = b.1.
Proof. unfold last_addr. by rewrite last_snoc. Qed.

(** ** The pool's invariant *)

Definition in_pool (P : pool) (b : block) : Prop :=
  b.1 mod 16 = 0 /\ b.2 mod 16 = 0 /\ 16 <= b.2 /\
  m_start_ptr P <= b.1 /\ b.1 + b.2 <= m_start_ptr P + m_totalSize P.

Definition header_ok (m : memory) (b : block) : Prop :=
  32 <= b.2 /\ blockSize m b.1 = b.2 /\ m (b.1 + 8) = 0.

(** [L] are the live allocations with their headers, [F] the free blocks in
    the order of the list. *)
Record pool_inv (P : pool) (L F : list block) : Prop := {
  pv_pool : 0 < m_start_ptr P /\ m_start_ptr P mod 16 = 0 /\ 0 < m_totalSize P /\
    m_totalSize P mod 16 = 0 /\ m_start_ptr P + m_totalSize P < 2 ^ 64;
  pv_mem : mem_ok (heap P) /\ fits 64 (head P);
  pv_list : lseg (heap P) (head P) F 0;
  pv_sorted : StronglySorted (fun b c : block => b.1 < c.1) F;
  pv_blocks : Forall (in_pool P) (F ++ L);
  pv_disj : pairwise (F ++ L);
  pv_headers : Forall (header_ok (heap P)) L;
  pv_used : m_used P = size_of L
}.

Section facts.
Context (P : pool) (L F : list block) (I : pool_inv P L F).

Lemma pv_block b : b ∈ F ++ L -> in_pool P b.
Proof. pose proof (pv_blocks _ _ _ I) as H. rewrite list.Forall_forall in H. apply H. Qed.

Lemma pv_nodes : Forall node_block F.
Proof.
  apply list.Forall_forall. intros b Hb. destruct (pv_pool _ _ _ I) as (? & ? & ? & ? & ?).
  destruct (pv_block b ltac:(apply elem_of_app; by left)) as (? & ? & ? & ? & ?). unfold node_block. lia.
Qed.

Lemma pv_apart : apart F.
Proof.
  pose proof (pv_disj _ _ _ I) as H. apply pairwise_app in H as (H & _). apply apart_pairwise; [done|].
  apply list.Forall_forall. intros b Hb. by destruct (pv_block b ltac:(apply elem_of_app; by left)) as (? & ? & ? & ? & ?).
Qed.

(** The sizes add up to at most the pool, so there are few nodes. *)
Lemma pv_size : size_of F + size_of L <= m_totalSize P.
Proof.
  destruct (pv_pool _ _ _ I) as (? & ? & ? & ? & ?).
  assert (size_of F + size_of L = size_of (F ++ L)) as -> by (unfold size_of; by rewrite map_app, zsum_app).
  replace (m_totalSize P) with (m_start_ptr P + m_totalSize P - m_start_ptr P) by lia.
  apply pairwise_size; [lia|apply I|]. apply list.Forall_forall. intros b Hb.
  destruct (pv_block b Hb) as (? & ? & ? & ? & ?). lia.
Qed.

Lemma size_of_length l : Forall (fun b : block => 16 <= b.2) l -> 16 * Z.of_nat (length l) <= size_of l.
Proof. induction 1; [done|]. unfold size_of in *. cbn [map zsum length]. lia. Qed.

Lemma size_of_nonneg l : Forall (in_pool P) l -> 0 <= size_of l.
Proof.
  intros H. apply zsum_nonneg, Forall_fmap. apply list.Forall_forall. intros b Hb.
  rewrite list.Forall_forall in H. destruct (H b Hb) as (? & ? & ? & ?). cbn. lia.
Qed.

Lemma pv_length : (length F <= list_fuel P)%nat.
Proof.
  pose proof pv_size as Hs. pose proof (pv_blocks _ _ _ I) as Hb. apply Forall_app in Hb as [HF HL].
  pose proof (size_of_nonneg L HL).
  assert (16 * Z.of_nat (length F) <= size_of F) as Hl.
  { apply size_of_length. eapply list.Forall_impl; [exact HF|]. intros b (? & ? & ? & ?). lia. }
  unfold list_fuel. assert (Z.of_nat (length F) <= m_totalSize P / 16) by (apply Z.div_le_lower_bound; lia). lia.
Qed.
End facts.

(** ** [find] *)

Lemma padding_16 p : 0 <= p -> p mod 16 = 0 -> p + 16 < 2 ^ 64 -> CalculatePaddingWithHeader p 16 16 = 16.
Proof.
  intros Hp Hm Hb. unfold CalculatePaddingWithHeader, CalculatePadding.
  rewrite (wrap_small 64 (p / 16 + 1)) by (unfold fits; dlia).
  rewrite (wrap_small 64 ((p / 16 + 1) * 16)) by (unfold fits; dlia).
  rewrite wrap_small by (unfold fits; dlia). replace ((p / 16 + 1) * 16 - p) with 16 by dlia. done.
Qed.

Lemma find_spec m size l0 l h pad fuel :
  Forall (fun b : block => 0 < b.1 /\ b.1 mod 16 = 0 /\ b.1 + 16 < 2 ^ 64) l ->
  0 <= size -> size + 16 < 2 ^ 64 -> (length l <= fuel)%nat -> lseg m h l 0 ->
  (exists l1 b l2, l = l1 ++ b :: l2 /\ size + 16 <= b.2 /\
     find fuel m size 16 pad (last_addr l0) h = Some (16, last_addr (l0 ++ l1), b.1)) \/
  (Forall (fun b : block => b.2 < size + 16) l /\
     exists pad' prev', find fuel m size 16 pad (last_addr l0) h = Some (pad', prev', 0)).
Proof.
  intros Hl Hs Hs'. revert l0 h pad fuel. induction Hl as [|b l (Hb & Hb16 & Hb') Hl IH]; intros l0 h pad fuel Hf H.
  - cbn in H. subst h. right. split; [constructor|]. destruct fuel; cbn; eauto.
  - destruct H as (-> & Hsz & H). destruct fuel as [|fuel]; [cbn in Hf; lia|]. cbn [find].
    destruct (Z.eqb_spec b.1 0) as [?|_]; [lia|]. unfold allocationHeaderSize. rewrite padding_16 by lia.
    rewrite (wrap_small 64) by (unfold fits; lia). rewrite Hsz.
    destruct (Z.leb_spec (size + 16) b.2) as [Hle|Hgt].
    + left. exists [], b, l. by rewrite app_nil_r.
    + specialize (IH (l0 ++ [b]) (next m b.1) 16 fuel ltac:(cbn in Hf; lia) H). rewrite last_addr_snoc in IH.
      destruct IH as [(l1 & c & l2 & -> & Hc & E)|[HF E]].
      * left. exists (b :: l1), c, l2. split_and!; [done|done|]. rewrite E. do 3 f_equal. by rewrite <- app_assoc.
      * right. split; [by constructor|done].
Qed.

(** ** [alloc] *)

Lemma sorted_app (R : block -> block -> Prop) l k :
  StronglySorted R (l ++ k) <-> StronglySorted R l /\ StronglySorted R k /\ forall b c, b ∈ l -> c ∈ k -> R b c.
Proof.
  induction l as [|b l IH]; cbn [app].
  - split; [|by intros (_&?&_)]. intros H. split_and!; auto; [constructor|]. intros b c Hb. by apply elem_of_nil in Hb.
  - split.
    + intros H. inversion H as [|? ? S Fa]; subst. apply IH in S as (S1 & S2 & S3). apply Forall_app in Fa as [F1 F2].
      split_and!; [by constructor|done|]. intros x y [->|Hx]%elem_of_cons Hy; [|by apply S3].
      rewrite list.Forall_forall in F2. auto.
    + intros (S1 & S2 & S3). inversion S1 as [|? ? S Fa]; subst. constructor.
      * apply IH. split_and!; auto. intros x y Hx. apply S3. by right.
      * apply Forall_app. split; [done|]. apply list.Forall_forall. intros y Hy. apply S3; [by left|done].
Qed.

Lemma size_of_app l k : size_of (l ++ k) = size_of l + size_of k.
Proof. unfold size_of. by rewrite map_app, zsum_app. Qed.

Lemma size_of_cons b l : size_of (b :: l) = b.2 + size_of l.
Proof. done. Qed.

(** Outside the blocks [l]. *)
Definition off_blocks (l : list block) (x : Z) : Prop :=
  forall b, b ∈ l -> x < b.1 \/ b.1 + b.2 <= x.

Lemma off_blocks_links l x : Forall (fun b : block => 16 <= b.2) l -> off_blocks l x -> off_links l x.
Proof.
  intros Hl H b Hb. rewrite list.Forall_forall in Hl. specialize (Hl b Hb). specialize (H b Hb). lia.
Qed.

(** What replaces the block [b] in the list when [req] bytes are taken. *)
Definition leftover (b : block) (req : Z) : list block :=
  if 0 <? b.2 - req then [(b.1 + req, b.2 - req)] else [].

(** The list operations of [alloc]. *)
Definition alloc_list (l : Z * memory) (prev a req rest : Z) : Z * memory :=
  remove (if 0 <? rest then insert (l.1, store64 l.2 (a +64 req) rest) a (a +64 req) else l) prev a.

Lemma leftover_apart l1 b l2 req :
  apart (l1 ++ b :: l2) -> pairwise (l1 ++ b :: l2) -> Forall (fun c : block => 16 <= c.2) (l1 ++ b :: l2) ->
  16 <= req -> 16 <= b.2 - req -> apart (l1 ++ b :: (b.1 + req, b.2 - req) :: l2).
Proof.
  intros Ha Hp Hs Hr Hr'. apply apart_app in Ha as (A1 & A2 & A3). apply pairwise_app in Hp as (_ & Hp & Hd).
  change (b :: l2) with ([b] ++ l2) in A2, Hp. apply apart_app in A2 as (_ & A2 & A4). apply pairwise_app in Hp as (_ & _ & Hp).
  apply Forall_app in Hs as [Hs1 Hs2]. apply list.Forall_cons in Hs2 as [_ Hs2].
  change (b :: (b.1 + req, b.2 - req) :: l2) with ([b] ++ [(b.1 + req, b.2 - req)] ++ l2).
  rewrite !apart_app. split_and!; try done.
  - intros x y ->%list_elem_of_singleton Hy. specialize (Hp b y ltac:(by left) Hy).
    rewrite list.Forall_forall in Hs2. specialize (Hs2 y Hy). unfold disj, apart16 in *. cbn in *. lia.
  - intros x y ->%list_elem_of_singleton [->%list_elem_of_singleton|Hy]%elem_of_app; [unfold apart16; cbn; lia|].
    apply A4; [by left|done].
  - intros x y Hx [->%list_elem_of_singleton|[->%list_elem_of_singleton|Hy]%elem_of_app]%elem_of_app.
    + apply A3; [done|by left].
    + specialize (Hd x b Hx ltac:(by left)). rewrite list.Forall_forall in Hs1. specialize (Hs1 x Hx).
      unfold disj, apart16 in *. cbn. lia.
    + apply A3; [done|by right].
Qed.

Section alloc_list.
Context (m : memory) (hd : Z) (l1 l2 : list block) (b : block) (req : Z).
Hypothesis Hm : mem_ok m.
Hypothesis Hh : fits 64 hd.
Hypothesis H : lseg m hd (l1 ++ b :: l2) 0.
Hypothesis Hn : Forall node_block (l1 ++ b :: l2).
Hypothesis Hp : pairwise (l1 ++ b :: l2).
Hypothesis Hs : Forall (fun c : block => 16 <= c.2 /\ c.2 mod 16 = 0 /\ c.1 + c.2 < 2 ^ 64) (l1 ++ b :: l2).
Hypothesis Hreq : 16 <= req <= b.2 /\ req mod 16 = 0.

Lemma alloc_sizes : Forall (fun c : block => 16 <= c.2) (l1 ++ b :: l2).
Proof. eapply list.Forall_impl; [exact Hs|intros c (?&?&?); lia]. Qed.

Lemma alloc_apart : apart (l1 ++ b :: l2).
Proof. apply apart_pairwise; [exact Hp|exact alloc_sizes]. Qed.

Lemma alloc_block : 16 <= b.2 /\ b.2 mod 16 = 0 /\ b.1 + b.2 < 2 ^ 64 /\ 0 < b.1.
Proof.
  assert (b ∈ l1 ++ b :: l2) as Hin by (apply elem_of_app; right; by left).
  rewrite list.Forall_forall in Hs, Hn. destruct (Hs b Hin) as (? & ? & ?), (Hn b Hin). lia.
Qed.

(** The remainder of the block linked in behind it. *)
Lemma alloc_insert_spec n :
  n = (b.1 + req, b.2 - req) -> 0 < b.2 - req ->
  let '(hd', m') := insert (hd, store64 m n.1 n.2) b.1 n.1 in
  lseg m' hd' (l1 ++ b :: n :: l2) 0 /\ mem_ok m' /\ fits 64 hd' /\
  Forall node_block (l1 ++ b :: n :: l2) /\ apart (l1 ++ b :: n :: l2) /\
  (forall x, off_blocks (l1 ++ b :: l2) x -> m' x = m x).
Proof.
  intros En Hpos. pose proof alloc_block as (Hb1 & Hb2 & Hb3 & Hb4).
  assert (n.1 = b.1 + req /\ n.2 = b.2 - req) as [En1 En2] by (by subst).
  assert (16 <= b.2 - req) as Hrest by dlia.
  assert (apart ((l1 ++ [b]) ++ n :: l2)) as Ha.
  { subst n. rewrite <- app_assoc. apply leftover_apart; auto using alloc_sizes, alloc_apart; lia. }
  assert (Forall node_block ((l1 ++ [b]) ++ n :: l2)) as Hn2.
  { apply Forall_app in Hn as [? Hn']. apply list.Forall_cons in Hn' as [? ?]. rewrite <- app_assoc.
    apply Forall_app. split; [done|]. repeat constructor; try done; lia. }
  assert (lseg (store64 m n.1 n.2) hd ((l1 ++ [b]) ++ l2) 0) as H1.
  { rewrite <- app_assoc. eapply lseg_frame; [|exact H]. intros c y Hc Hy. apply store64_outside.
    assert (c ∈ (l1 ++ [b]) ++ l2) as Hc' by (by rewrite <- app_assoc).
    pose proof (apart_mid _ _ _ Ha c Hc') as A. unfold apart16 in A. lia. }
  pose proof (insert_spec _ hd (l1 ++ [b]) l2 n (store64_ok m n.1 n.2 Hm) Hh Hn2 Ha H1
    ltac:(apply load64_store64_eq; unfold fits; lia)) as HI.
  destruct (insert_ok _ hd b.1 n.1 (store64_ok m n.1 n.2 Hm) Hh ltac:(unfold fits; lia)) as [HIm HIf].
  rewrite last_addr_snoc in HI. destruct (insert _ b.1 n.1) as [hd2 m2]. destruct HI as [HI HIo].
  rewrite <- app_assoc in HI, Ha, Hn2. cbn [fst snd app] in *. split_and!; auto.
  intros x Hx. pose proof (off_blocks_links _ _ alloc_sizes Hx) as Ho.
  specialize (Hx b ltac:(apply elem_of_app; right; by left)).
  rewrite HIo; [apply store64_outside; lia|].
  intros c [[Hc|Hc]%elem_of_app| ->%list_elem_of_singleton]%elem_of_app; [apply Ho, elem_of_app; by left| |lia].
  apply Ho, elem_of_app. apply list_elem_of_singleton in Hc as ->. right. by left.
Qed.

Lemma alloc_list_spec :
  let '(hd', m') := alloc_list (hd, m) (last_addr l1) b.1 req (b.2 - req) in
  lseg m' hd' (l1 ++ leftover b req ++ l2) 0 /\ mem_ok m' /\ fits 64 hd' /\
  (forall x, off_blocks (l1 ++ b :: l2) x -> m' x = m x).
Proof.
  pose proof alloc_block as (Hb1 & Hb2 & Hb3 & Hb4).
  assert (forall x, off_blocks (l1 ++ b :: l2) x -> off_links l1 x) as Off.
  { intros x Hx c Hc. apply (off_blocks_links _ _ alloc_sizes Hx), elem_of_app. by left. }
  unfold alloc_list, leftover. cbn [fst snd]. destruct (Z.ltb_spec 0 (b.2 - req)) as [Hpos|Hz].
  - rewrite (wrap_small 64 (b.1 + req)) by (unfold fits; lia).
    pose proof (alloc_insert_spec _ eq_refl Hpos) as HI. cbn [fst snd] in HI.
    destruct (insert _ _ _) as [hd2 m2]. destruct HI as (HI & HIm & HIf & HIn & HIa & HIo).
    pose proof (remove_spec m2 hd2 l1 _ b HIm HIn HIa HI) as HR.
    destruct (remove_ok m2 hd2 (last_addr l1) b.1 HIm HIf) as [HRm HRf].
    destruct (remove _ _ _) as [hd3 m3]. destruct HR as [HR HRo]. cbn [fst snd] in *.
    split_and!; auto. intros x Hx. rewrite HRo; auto.
  - pose proof (remove_spec m hd l1 l2 b Hm Hn alloc_apart H) as HR.
    destruct (remove_ok m hd (last_addr l1) b.1 Hm Hh) as [HRm HRf].
    destruct (remove (hd, m) (last_addr l1) b.1) as [hd3 m3]. destruct HR as [HR HRo]. cbn [fst snd app] in *.
    split_and!; auto.
Qed.
End alloc_list.

Lemma alloc_size_spec size :
  0 <= size -> size + 64 < 2 ^ 64 ->
  alloc_size size mod 16 = 0 /\ 32 <= alloc_size size /\ size < alloc_size size /\ alloc_size size + 16 < 2 ^ 64.
Proof.
  intros H1 H2. unfold alloc_size, sizeof_Node.
  rewrite (wrap_small 64 (_ / 16 + 1)) by (unfold fits; dlia).
  rewrite wrap_small by (unfold fits; dlia). dlia.
Qed.

Lemma pairwise_split b req R :
  pairwise (b :: R) -> 0 <= req <= b.2 -> pairwise (leftover b req ++ (b.1, req) :: R).
Proof.
  intros [Hd Hp] Hr. rewrite list.Forall_forall in Hd.
  assert (pairwise ((b.1, req) :: R)) as H1.
  { split; [|done]. apply list.Forall_forall. intros c Hc. specialize (Hd c Hc). unfold disj in *. cbn. lia. }
  unfold leftover. destruct (Z.ltb_spec 0 (b.2 - req)); [|done]. split; [|exact H1]. constructor.
  - unfold disj. cbn. lia.
  - apply list.Forall_forall. intros c Hc. specialize (Hd c Hc). unfold disj in *. cbn. lia.
Qed.

Lemma leftover_perm l1 b l2 L req :
  (l1 ++ leftover b req ++ l2) ++ (b.1, req) :: L ≡ₚ leftover b req ++ (b.1, req) :: (l1 ++ l2 ++ L).
Proof. solve_Permutation. Qed.

Lemma leftover_in_pool P b req :
  in_pool P b -> 0 <= req <= b.2 -> req mod 16 = 0 -> Forall (in_pool P) (leftover b req).
Proof.
  intros (? & ? & ? & ? & ?) Hr Hm. unfold leftover. destruct (Z.ltb_spec 0 (b.2 - req)); [|constructor].
  repeat constructor; cbn; dlia.
Qed.

Lemma leftover_sorted l1 b l2 req :
  pairwise (l1 ++ b :: l2) -> Forall (fun c : block => 16 <= c.2) (l1 ++ b :: l2) -> 0 <= req ->
  StronglySorted (fun b c : block => b.1 < c.1) (l1 ++ b :: l2) ->
  StronglySorted (fun b c : block => b.1 < c.1) (l1 ++ leftover b req ++ l2).
Proof.
  intros Hp Hs Hr Ho. change (b :: l2) with ([b] ++ l2) in Ho. rewrite !sorted_app in *.
  destruct Ho as (O1 & (O2 & O3 & O4) & O5). apply pairwise_app in Hp as (_ & Hp & _).
  change (b :: l2) with ([b] ++ l2) in Hp. apply pairwise_app in Hp as (_ & _ & Hp).
  apply Forall_app in Hs as [_ Hs]. apply list.Forall_cons in Hs as [Hsb Hs]. rewrite list.Forall_forall in Hs.
  assert (forall c, c ∈ leftover b req -> c.1 = b.1 + req /\ req < b.2) as Lo.
  { intros c. unfold leftover. destruct (Z.ltb_spec 0 (b.2 - req)); [|by intros ?%elem_of_nil].
    intros ->%list_elem_of_singleton. cbn. lia. }
  split_and!; auto.
  - unfold leftover. destruct (_ <? _); repeat constructor.
  - intros x y Hx Hy. destruct (Lo x Hx) as [-> ?]. specialize (O4 b y ltac:(by left) Hy).
    specialize (Hp b y ltac:(by left) Hy). specialize (Hs y Hy). unfold disj in Hp. lia.
  - intros x y Hx [Hy|Hy]%elem_of_app.
    + destruct (Lo y Hy) as [-> ?]. specialize (O5 x b Hx ltac:(by left)). lia.
    + apply O5; [done|]. by right.
Qed.

Lemma leftover_size l1 b l2 req :
  0 <= req <= b.2 -> size_of (l1 ++ leftover b req ++ l2) = size_of (l1 ++ b :: l2) - req.
Proof.
  intros Hr. change (b :: l2) with ([b] ++ l2). rewrite !size_of_app. unfold leftover.
  destruct (Z.ltb_spec 0 (b.2 - req)); unfold size_of; cbn; lia.
Qed.

(** Headers of live blocks are out of reach of writes to the other blocks. *)
Lemma headers_frame m m' l L :
  pairwise (l ++ L) -> (forall x, off_blocks l x -> m' x = m x) ->
  Forall (header_ok m) L -> Forall (header_ok m') L.
Proof.
  intros Hp Hf HL. apply pairwise_app in Hp as (_ & _ & Hd). rewrite list.Forall_forall in HL |- *.
  intros c Hc. destruct (HL c Hc) as (H32 & Hc1 & Hc2).
  assert (forall x, c.1 <= x < c.1 + 16 -> m' x = m x) as Fr.
  { intros x Hx. apply Hf. intros f Hfl. specialize (Hd f c Hfl Hc). unfold disj in Hd. lia. }
  split_and!; [done| |by rewrite Fr by lia]. unfold blockSize. rewrite (load64_agree m) by (intros; apply Fr; lia).
  exact Hc1.
Qed.

(** The state after a successful [alloc] of [req] bytes from the block [b]. *)
Section alloc_state.
Context (P : pool) (L l1 l2 : list block) (b : block) (req hd : Z) (m : memory).
#[local] Abbreviation F := (l1 ++ b :: l2).
#[local] Abbreviation F' := (l1 ++ leftover b req ++ l2).
#[local] Abbreviation m' := (store8 (store64 m b.1 req) (b.1 + 8) 0).
Hypothesis I : pool_inv P L F.
Hypothesis Hr : 48 <= req <= b.2 /\ req mod 16 = 0.
Hypothesis E : alloc_list (head P, heap P) (last_addr l1) b.1 req (b.2 - req) = (hd, m).

Lemma alloc_perm : F ++ L ≡ₚ b :: (l1 ++ l2 ++ L).
Proof. solve_Permutation. Qed.

Lemma alloc_elem : b ∈ F /\ in_pool P b.
Proof.
  assert (b ∈ F) as Hb by (apply elem_of_app; right; by left). split; [done|].
  apply (pv_block _ _ _ I), elem_of_app. by left.
Qed.

Lemma alloc_listed :
  lseg m hd F' 0 /\ mem_ok m /\ fits 64 hd /\ (forall x, off_blocks F x -> m x = heap P x).
Proof.
  assert (Forall (fun c : block => 16 <= c.2 /\ c.2 mod 16 = 0 /\ c.1 + c.2 < 2 ^ 64) F) as Hs.
  { apply list.Forall_forall. intros c Hc. destruct (pv_block _ _ _ I c ltac:(apply elem_of_app; by left)) as (?&?&?&?&?).
    destruct (pv_pool _ _ _ I) as (?&?&?&?&?). lia. }
  destruct (pv_mem _ _ _ I) as [Hm Hh].
  pose proof (alloc_list_spec (heap P) (head P) l1 l2 b req Hm Hh (pv_list _ _ _ I) (pv_nodes _ _ _ I)
    (proj1 (proj1 (pairwise_app _ _) (pv_disj _ _ _ I))) Hs ltac:(lia)) as S. by rewrite E in S.
Qed.

Lemma alloc_pairwise : pairwise (F' ++ (b.1, req) :: L).
Proof.
  rewrite leftover_perm. apply pairwise_split; [|lia]. rewrite <- alloc_perm. apply I.
Qed.

Lemma alloc_in_pool : Forall (in_pool P) (F' ++ (b.1, req) :: L).
Proof.
  destruct alloc_elem as [_ Hb]. rewrite leftover_perm. pose proof (pv_blocks _ _ _ I) as Hbl. rewrite alloc_perm in Hbl.
  apply list.Forall_cons in Hbl as [_ Hbl]. apply Forall_app. split; [apply leftover_in_pool; auto; lia|].
  constructor; [|exact Hbl]. destruct Hb as (?&?&?&?&?). unfold in_pool. cbn. lia.
Qed.

Lemma alloc_header x : x < b.1 \/ b.1 + 16 <= x -> m' x = m x.
Proof. intros Hx. rewrite store8_outside by lia. apply store64_outside. lia. Qed.

Lemma alloc_frame x : off_blocks F x -> m' x = heap P x.
Proof.
  intros Hx. rewrite alloc_header; [by apply alloc_listed|]. specialize (Hx b (proj1 alloc_elem)). lia.
Qed.

Lemma alloc_state :
  pool_inv (Pool (m_totalSize P) (m_used P + req) (Z.max (m_peak P) (m_used P + req)) (m_start_ptr P) hd m')
    ((b.1, req) :: L) F'.
Proof.
  destruct alloc_listed as (S & Sm & Sh & _), alloc_elem as [HbF Hb]. pose proof alloc_pairwise as Hd'.
  pose proof alloc_in_pool as Hi. pose proof (pv_disj _ _ _ I) as Hd. pose proof (proj1 (proj1 (pairwise_app _ _) Hd)) as HdF.
  split; cbn [m_totalSize m_used m_peak m_start_ptr head heap]; auto.
  - apply I.
  - split; [|done]. intros x. unfold store8. destruct (x =? b.1 + 8); [unfold fits; lia|]. by apply store64_ok.
  - eapply lseg_frame; [|exact S]. intros c y Hc Hy. apply alloc_header.
    apply pairwise_app in Hd' as (_ & _ & Hx). specialize (Hx c (b.1, req) Hc ltac:(by left)).
    rewrite list.Forall_forall in Hi. destruct (Hi c ltac:(apply elem_of_app; by left)) as (?&?&?&?&?).
    unfold disj in Hx. cbn in Hx. lia.
  - apply leftover_sorted; [done| |lia|apply I]. apply list.Forall_forall. intros c Hc.
    by destruct (pv_block _ _ _ I c ltac:(apply elem_of_app; by left)) as (?&?&?&?&?).
  - constructor.
    + unfold header_ok. cbn [fst snd]. split_and!; [lia| |unfold store8; by rewrite Z.eqb_refl]. unfold blockSize.
      rewrite (load64_agree (store64 m b.1 req)) by (intros; apply store8_outside; lia).
      apply load64_store64_eq. destruct Hb as (?&?&?&?&?), (pv_pool _ _ _ I) as (?&?&?&?&?). unfold fits. lia.
    + apply (headers_frame (heap P) _ F); [done|exact alloc_frame|apply I].
  - rewrite (pv_used _ _ _ I), size_of_cons. cbn. lia.
Qed.
End alloc_state.

Lemma alloc_spec P L F size alignment :
  pool_inv P L F -> 0 <= size -> size + 64 < 2 ^ 64 -> alignment <= 16 ->
  let req := alloc_size size + 16 in
  (exists P' b F', alloc P size alignment = Ok (P', b.1 + 16) /\ b ∈ F /\ req <= b.2 /\
     pool_inv P' ((b.1, req) :: L) F' /\ size_of F' = size_of F - req /\
     m_start_ptr P' = m_start_ptr P /\ m_totalSize P' = m_totalSize P /\
     (forall x, off_blocks F x -> heap P' x = heap P x)) \/
  (alloc P size alignment = Throw NotEnoughMemory /\ Forall (fun b : block => b.2 < req) F).
Proof.
  intros I H1 H2 Hal req. destruct (alloc_size_spec size H1 H2) as (A1 & A2 & A3 & A4).
  unfold alloc. replace (Z.max alignment 16) with 16 by lia.
  assert (Forall (fun b : block => 0 < b.1 /\ b.1 mod 16 = 0 /\ b.1 + 16 < 2 ^ 64) F) as Hf.
  { apply list.Forall_forall. intros c Hc. destruct (pv_block _ _ _ I c ltac:(apply elem_of_app; by left)) as (?&?&?&?&?).
    destruct (pv_pool _ _ _ I) as (?&?&?&?&?). lia. }
  destruct (find_spec (heap P) (alloc_size size) [] F (head P) 0 (list_fuel P) Hf ltac:(lia) A4 (pv_length _ _ _ I)
    (pv_list _ _ _ I)) as [(l1 & b & l2 & -> & Hb & Ef)|[Hn (pad & prev & Ef)]];
    cbn [last_addr list.last app] in Ef; change (last_addr []) with 0 in Ef; rewrite Ef; [left|by right].
  destruct (alloc_elem P L l1 l2 b I) as [HbF (?&?&?&?&?)]. destruct (pv_pool _ _ _ I) as (?&?&?&?&?).
  destruct (Z.eqb_spec b.1 0) as [|_]; [lia|]. unfold allocationHeaderSize.
  rewrite !(wrap_small 64 (alloc_size size + 16)) by (unfold fits; lia). fold req.
  assert (blockSize (heap P) b.1 = b.2) as Es.
  { pose proof (pv_list _ _ _ I) as Hl. apply lseg_app in Hl as (? & _ & _ & Hl & _). exact Hl. }
  rewrite Es, (wrap_small 64 (b.2 - req)) by (unfold fits; lia).
  change (remove _ (last_addr l1) b.1) with (alloc_list (head P, heap P) (last_addr l1) b.1 req (b.2 - req)).
  destruct (alloc_list _ _ _ _ _) as [hd m] eqn:E. change (16 -64 16) with 0. rewrite Z.add_0_r.
  pose proof (alloc_state P L l1 l2 b req hd m I ltac:(split; [lia|dlia]) E) as I'.
  pose proof (pv_size _ _ _ I') as Hsz. pose proof (pv_blocks _ _ _ I') as HB. apply Forall_app in HB as [HB1 HB2].
  pose proof (size_of_nonneg _ _ HB1). rewrite size_of_cons in Hsz. cbn [m_totalSize snd] in Hsz.
  pose proof (pv_blocks _ _ _ I) as HB. apply Forall_app in HB as [_ HB]. pose proof (size_of_nonneg _ _ HB).
  rewrite (wrap_small 64 b.1), (wrap_small 64 (b.1 + 16)), (wrap_small 64 (m_used P + req))
    by (rewrite ?(pv_used _ _ _ I); unfold fits; lia).
  change (u8 0) with 0. eexists _, b, _. split; [reflexivity|]. split_and!; [done|lia|exact I'| |done|done|].
  - apply leftover_size. lia.
  - apply (alloc_frame P L l1 l2 b req hd m I ltac:(split; [lia|dlia]) E).
Qed.

(** ** [free] *)

(** What the free blocks satisfy besides being linked. *)
Definition blocks_ok (P : pool) (l L : list block) : Prop :=
  Forall (in_pool P) (l ++ L) /\ pairwise (l ++ L) /\ StronglySorted (fun b c : block => b.1 < c.1) l.

Lemma blocks_ok_merge P l x y k L :
  blocks_ok P (l ++ x :: y :: k) L -> x.1 + x.2 = y.1 ->
  blocks_ok P (l ++ (x.1, x.2 + y.2) :: k) L /\
  size_of (l ++ (x.1, x.2 + y.2) :: k) = size_of (l ++ x :: y :: k).
Proof.
  intros (Hb & Hp & Hs) E. split; [split_and!|].
  - assert ((l ++ x :: y :: k) ++ L ≡ₚ x :: y :: (l ++ k ++ L)) as Ep by solve_Permutation. rewrite Ep in Hb.
    assert ((l ++ (x.1, x.2 + y.2) :: k) ++ L ≡ₚ (x.1, x.2 + y.2) :: (l ++ k ++ L)) as Ep' by solve_Permutation.
    rewrite Ep'. rewrite !list.Forall_cons in Hb. destruct Hb as ((?&?&?&?&?) & (?&?&?&?&?) & Hb).
    constructor; [|done]. unfold in_pool. cbn. dlia.
  - assert ((l ++ x :: y :: k) ++ L ≡ₚ x :: y :: (l ++ k ++ L)) as Ep by solve_Permutation. rewrite Ep in Hp.
    assert ((l ++ (x.1, x.2 + y.2) :: k) ++ L ≡ₚ (x.1, x.2 + y.2) :: (l ++ k ++ L)) as Ep' by solve_Permutation.
    rewrite Ep'. destruct Hp as (Hx & Hy & Hp). split; [|done]. apply list.Forall_cons in Hx as [_ Hx].
    rewrite list.Forall_forall in Hx, Hy |- *. intros c Hc. specialize (Hx c Hc). specialize (Hy c Hc).
    assert (Hsz : 16 <= c.2 /\ 16 <= x.2 /\ 16 <= y.2).
    { assert ((l ++ x :: y :: k) ++ L ≡ₚ x :: y :: (l ++ k ++ L)) as Ep2 by solve_Permutation. rewrite Ep2 in Hb.
      rewrite !list.Forall_cons in Hb. destruct Hb as ((?&?&?&?&?) & (?&?&?&?&?) & Hb).
      rewrite list.Forall_forall in Hb. destruct (Hb c Hc) as (?&?&?&?&?). lia. }
    unfold disj in *. cbn. lia.
  - change (x :: y :: k) with ([x] ++ [y] ++ k) in Hs. change ((x.1, x.2 + y.2) :: k) with ([(x.1, x.2 + y.2)] ++ k).
    rewrite !sorted_app in *. destruct Hs as (S1 & (S2 & (S3 & S4 & S5) & S6) & S7). split_and!; auto.
    + repeat constructor.
    + intros b c ->%list_elem_of_singleton Hc. apply (S6 x c); [by left|by right].
    + intros b c Hb' [->%list_elem_of_singleton|Hc]%elem_of_app.
      * apply (S7 b x Hb'). by left.
      * apply (S7 b c Hb'). right. by right.
  - change (x :: y :: k) with ([x] ++ [y] ++ k). change ((x.1, x.2 + y.2) :: k) with ([(x.1, x.2 + y.2)] ++ k).
    rewrite !size_of_app. unfold size_of. cbn. lia.
Qed.

Lemma blocks_ok_nodes P l L :
  0 < m_start_ptr P -> m_start_ptr P + m_totalSize P < 2 ^ 64 -> blocks_ok P l L -> Forall node_block l /\ apart l.
Proof.
  intros H1 H2 (Hb & Hp & _). apply Forall_app in Hb as [Hb _]. apply pairwise_app in Hp as (Hp & _). split.
  - eapply list.Forall_impl; [exact Hb|]. intros c (?&?&?&?&?). unfold node_block. lia.
  - apply apart_pairwise; [done|]. eapply list.Forall_impl; [exact Hb|]. by intros c (?&?&?&?&?).
Qed.

(** Two neighbouring nodes become one. *)
Lemma merge_spec m hd l x y k :
  mem_ok m -> fits 64 hd -> Forall node_block (l ++ x :: y :: k) -> apart (l ++ x :: y :: k) ->
  lseg m hd (l ++ x :: y :: k) 0 -> fits 64 (x.2 + y.2) ->
  let '(hd', m') := remove (hd, store64 m x.1 (x.2 + y.2)) x.1 y.1 in
  lseg m' hd' (l ++ (x.1, x.2 + y.2) :: k) 0 /\ mem_ok m' /\ fits 64 hd' /\
  (forall z, z < x.1 \/ x.1 + 16 <= z -> m' z = m z).
Proof.
  intros Hm Hh Hn Ha H Hf. set (x' := (x.1, x.2 + y.2) : block).
  pose proof (lseg_resize m hd l (y :: k) x (x.2 + y.2) 0 Ha Hf H) as H'. fold x' in H'.
  assert (apart ((l ++ [x']) ++ y :: k)) as Ha'.
  { rewrite <- app_assoc. unfold apart in *. rewrite map_app in *. exact Ha. }
  assert (Forall node_block ((l ++ [x']) ++ y :: k)) as Hn'.
  { rewrite <- app_assoc. apply Forall_app in Hn as [? Hn]. apply list.Forall_cons in Hn as [? ?].
    apply Forall_app. split; [done|]. by constructor. }
  assert (lseg (store64 m x.1 (x.2 + y.2)) hd ((l ++ [x']) ++ y :: k) 0) as H2 by (rewrite <- app_assoc; exact H').
  pose proof (store64_ok m x.1 (x.2 + y.2) Hm) as Hm'.
  pose proof (remove_spec _ hd (l ++ [x']) k y Hm' Hn' Ha' H2) as HR.
  destruct (remove_ok _ hd x.1 y.1 Hm' Hh) as [HRm HRf]. rewrite last_addr_snoc in HR. cbn [fst x'] in HR.
  assert (x.1 <> 0) as Hx0.
  { rewrite list.Forall_forall in Hn. destruct (Hn x ltac:(apply elem_of_app; right; by left)). lia. }
  unfold remove in *. destruct (Z.eqb_spec x.1 0) as [|_]; [done|]. cbn [fst snd] in *. destruct HR as [HR _].
  rewrite <- app_assoc in HR. split_and!; auto. intros z Hz. rewrite !store64_outside; lia || done.
Qed.

Lemma free_loop_spec m hd ptr freeNode l0 l h fuel :
  Forall node_block l -> (length l <= fuel)%nat -> lseg m h l 0 ->
  exists l1 l2, l = l1 ++ l2 /\ Forall (fun c : block => c.1 <= ptr) l1 /\
    (forall c k, l2 = c :: k -> ptr < c.1) /\
    free_loop fuel (hd, m) ptr freeNode (last_addr l0) h =
      Some (match l2 with [] => (hd, m) | _ => insert (hd, m) (last_addr (l0 ++ l1)) freeNode end,
            last_addr (l0 ++ l1)).
Proof.
  intros Hl. revert l0 h fuel. induction Hl as [|b l [Hb _] Hl IH]; intros l0 h fuel Hf H.
  - cbn in H. subst h. exists [], []. rewrite (app_nil_r l0). split_and!; [done|constructor|done|]. by destruct fuel.
  - destruct H as (-> & _ & H). destruct fuel as [|fuel]; [cbn in Hf; lia|]. cbn [free_loop].
    destruct (Z.eqb_spec b.1 0) as [|_]; [lia|]. destruct (Z.ltb_spec ptr b.1) as [Hlt|Hge].
    + exists [], (b :: l). rewrite (app_nil_r l0). split_and!; [done|constructor| |done]. by intros c k [= <- <-].
    + destruct (IH (l0 ++ [b]) (next m b.1) fuel ltac:(cbn in Hf; lia) H) as (l1 & l2 & -> & F1 & F2 & E).
      rewrite last_addr_snoc, <- app_assoc in E. exists (b :: l1), l2. split_and!; [done|by constructor|done|exact E].
Qed.

(** [coalescence] on a node that is in the list. *)
Section coalescence.
Context (P : pool) (L : list block).
Hypothesis Hpool : 0 < m_start_ptr P /\ m_start_ptr P + m_totalSize P < 2 ^ 64.

(** A state of the list that represents the blocks [l], reached from the
    memory [m] by writes to the blocks [F] only. *)
Definition listed (m : memory) (F : list block) (s : Z * memory) (l : list block) : Prop :=
  lseg s.2 s.1 l 0 /\ blocks_ok P l L /\ mem_ok s.2 /\ fits 64 s.1 /\
  (forall z, off_blocks F z -> s.2 z = m z).

Lemma lseg_size m hd l b k x : lseg m hd (l ++ b :: k) x -> blockSize m b.1 = b.2 /\ lseg m (next m b.1) k x.
Proof. intros H. by apply lseg_app in H as (y & _ & _ & ? & ?). Qed.

Lemma blocks_ok_bounds l b : blocks_ok P l L -> b ∈ l -> 0 < b.1 /\ 16 <= b.2 /\ b.1 + b.2 < 2 ^ 64.
Proof.
  intros (Hb & _) Hin. rewrite list.Forall_forall in Hb. destruct (Hb b ltac:(apply elem_of_app; by left)) as (?&?&?&?&?). lia.
Qed.

Lemma merge_listed m F s l x y k :
  listed m F s (l ++ x :: y :: k) -> x.1 + x.2 = y.1 -> x ∈ F ->
  let s' := remove (s.1, store64 s.2 x.1 (x.2 +64 y.2)) x.1 y.1 in
  listed m F s' (l ++ (x.1, x.2 + y.2) :: k) /\ size_of (l ++ (x.1, x.2 + y.2) :: k) = size_of (l ++ x :: y :: k).
Proof.
  intros (H & Hb & Hm & Hh & Hf) E Hx. destruct Hpool as [Hp1 Hp2].
  destruct (blocks_ok_nodes P _ L Hp1 Hp2 Hb) as [Hn Ha]. destruct (blocks_ok_merge _ _ _ _ _ _ Hb E) as [Hb' Hsz].
  destruct (blocks_ok_bounds _ x Hb) as (?&?&?); [apply elem_of_app; right; by left|].
  destruct (blocks_ok_bounds _ y Hb) as (?&?&?); [apply elem_of_app; right; right; by left|].
  rewrite wrap_small by (unfold fits; lia).
  pose proof (merge_spec s.2 s.1 l x y k Hm Hh Hn Ha H ltac:(unfold fits; lia)) as M.
  destruct (remove _ _ _) as [hd' m']. destruct M as (M1 & M2 & M3 & M4). cbn zeta. split; [|done].
  split_and!; auto. cbn. intros z Hz. rewrite M4; [by apply Hf|].
  specialize (Hz x Hx). lia.
Qed.

Lemma coalesce_next_spec m F s l1 b l2 :
  listed m F s (l1 ++ b :: l2) -> b ∈ F ->
  exists b' l2', listed m F (coalesce_next s b.1) (l1 ++ b' :: l2') /\ b'.1 = b.1 /\
    size_of (l1 ++ b' :: l2') = size_of (l1 ++ b :: l2).
Proof.
  intros H HbF. pose proof H as (Hl & Hb & _). destruct (lseg_size _ _ _ _ _ _ Hl) as [Es Hl2]. unfold coalesce_next.
  destruct (blocks_ok_bounds _ b Hb) as (?&?&?); [apply elem_of_app; right; by left|].
  rewrite Es, (wrap_small 64 (b.1 + b.2)) by (unfold fits; lia).
  destruct (Z.eqb_spec (next s.2 b.1) 0) as [|Hnz]; cbn [negb andb]; [by exists b, l2|].
  destruct (Z.eqb_spec (b.1 + b.2) (next s.2 b.1)) as [Eadj|]; [|by exists b, l2].
  destruct l2 as [|c l2]; [cbn in Hl2; done|]. destruct Hl2 as (Enx & Ec & _). rewrite Enx, Ec in *.
  exists (b.1, b.2 + c.2), l2.
  assert (next (store64 s.2 b.1 (b.2 +64 c.2)) b.1 = c.1) as ->.
  { unfold next in *. by rewrite load64_store64_ne by lia. }
  destruct (merge_listed m F s l1 b c l2 H Eadj HbF) as [M1 M2]. split_and!; auto.
Qed.

Lemma coalesce_prev_spec m F s l1 b l2 :
  listed m F s (l1 ++ b :: l2) -> (forall p, p ∈ l1 -> p ∈ F) ->
  exists F', listed m F (coalesce_prev s (last_addr l1) b.1) F' /\ size_of F' = size_of (l1 ++ b :: l2).
Proof.
  intros H HF. unfold coalesce_prev. pose proof H as (Hl & Hb & _).
  destruct Hpool as [Hp1 Hp2]. destruct (blocks_ok_nodes P _ L Hp1 Hp2 Hb) as [Hn _]. apply Forall_app in Hn as [Hn _].
  destruct (Z.eqb_spec (last_addr l1) 0) as [|Hnz]; cbn [negb andb]; [by exists (l1 ++ b :: l2)|].
  unfold last_addr in *. destruct (list.last l1) as [p|] eqn:El; [|done]. apply last_Some in El as [l0 ->].
  rewrite <- app_assoc in *. cbn [app] in *. destruct (lseg_size _ _ _ _ _ _ Hl) as [Ep _].
  destruct (lseg_size s.2 s.1 (l0 ++ [p]) b l2 0 ltac:(rewrite <- app_assoc; exact Hl)) as [Eb _].
  destruct (blocks_ok_bounds _ p Hb) as (?&?&?); [apply elem_of_app; right; by left|].
  rewrite Ep, Eb, (wrap_small 64 (p.1 + p.2)) by (unfold fits; lia).
  destruct (Z.eqb_spec (p.1 + p.2) b.1) as [Eadj|]; [|by exists (l0 ++ p :: b :: l2)].
  exists (l0 ++ (p.1, p.2 + b.2) :: l2).
  apply (merge_listed m F s l0 p b l2 H Eadj). apply HF, elem_of_app. right. by left.
Qed.

Lemma coalescence_linked m F s l1 b l2 :
  listed m F s (l1 ++ b :: l2) -> b ∈ F -> (forall p, p ∈ l1 -> p ∈ F) ->
  exists F', listed m F (coalescence s (last_addr l1) b.1) F' /\ size_of F' = size_of (l1 ++ b :: l2).
Proof.
  intros H HbF HF. unfold coalescence.
  destruct (coalesce_next_spec m F s l1 b l2 H HbF) as (b' & l2' & H' & E1 & Es). rewrite <- E1 in *.
  destruct (coalesce_prev_spec m F _ l1 b' l2' H' HF) as (F' & H'' & Es'). exists F'. split; [done|]. lia.
Qed.

(** [coalescence] on a node that [free] has not linked in: it is added to the
    last node of the list when that is its neighbour, and lost otherwise. *)
Lemma coalescence_unlinked m F s l b :
  lseg s.2 s.1 l 0 -> mem_ok s.2 -> fits 64 s.1 -> (forall z, off_blocks F z -> s.2 z = m z) ->
  blocks_ok P (l ++ [b]) L -> blockSize s.2 b.1 = b.2 -> next s.2 b.1 = 0 -> (forall p, p ∈ l -> p ∈ F) ->
  let s' := coalescence s (last_addr l) b.1 in
  (exists p l0, l = l0 ++ [p] /\ p.1 + p.2 = b.1 /\ listed m F s' (l0 ++ [(p.1, p.2 + b.2)])) \/
  ((forall p, p ∈ l -> p.1 + p.2 < b.1) /\ s' = s).
Proof.
  intros Hl Hm Hh Hf Hb Es En HF. destruct Hpool as [Hp1 Hp2]. cbn zeta. unfold coalescence.
  assert (coalesce_next s b.1 = s) as -> by (unfold coalesce_next; by rewrite En).
  destruct (blocks_ok_nodes P _ L Hp1 Hp2 Hb) as [Hn Ha]. unfold coalesce_prev.
  destruct (decide (l = [])) as [->|Hne]; [right; split; [by intros p ?%elem_of_nil|done]|].
  destruct (exists_last Hne) as (l0 & p & ->). rewrite last_addr_snoc. rewrite <- app_assoc in *. cbn [app] in *.
  destruct (lseg_size _ _ _ _ _ _ Hl) as [Ep _].
  destruct (blocks_ok_bounds _ p Hb) as (?&?&?); [apply elem_of_app; right; by left|].
  destruct (blocks_ok_bounds _ b Hb) as (?&?&?); [apply elem_of_app; right; right; by left|].
  destruct (Z.eqb_spec p.1 0) as [|_]; [lia|]. cbn [negb andb].
  rewrite Ep, Es, (wrap_small 64 (p.1 + p.2)) by (unfold fits; lia).
  pose proof Hb as (_ & Hpw & Hso). apply pairwise_app in Hpw as (Hpw & _).
  destruct (Z.eqb_spec (p.1 + p.2) b.1) as [Eadj|Hnadj].
  - left. exists p, l0. split_and!; [done|done|]. rewrite (wrap_small 64 (p.2 + b.2)) by (unfold fits; lia).
    destruct (blocks_ok_merge _ _ _ _ _ _ Hb Eadj) as [Hb' _].
    set (p' := (p.1, p.2 + b.2) : block). set (m1 := store64 s.2 p.1 (p.2 + b.2)).
    assert (apart (l0 ++ [p])) as Ha1 by (apply apart_app in Ha as (? & A & ?); apply apart_app; split_and!;
      [done|by apply (apart_app [p] [b])|]; intros x y Hx ->%list_elem_of_singleton; auto using list_elem_of_here).
    pose proof (lseg_resize s.2 s.1 l0 [] p (p.2 + b.2) 0 Ha1 ltac:(unfold fits; lia) Hl) as Hl1.
    destruct (blocks_ok_nodes P _ L Hp1 Hp2 Hb') as [Hn' Ha'].
    pose proof (relink_spec m1 s.1 (l0 ++ [p']) 0 0 Hn' Ha' ltac:(unfold fits; lia) Hl1) as R.
    unfold remove, relink in *. rewrite last_addr_snoc in R. cbn [fst snd p'] in R.
    destruct (Z.eqb_spec p.1 0) as [|_]; [lia|]. destruct R as [R _].
    assert (next m1 b.1 = 0) as ->.
    { unfold next, m1 in *. rewrite load64_store64_ne; [done|lia]. }
    unfold listed. cbn [fst snd]. split_and!; auto using store64_ok; [by repeat apply store64_ok|].
    intros z Hz. rewrite <- (Hf z Hz). specialize (Hz p ltac:(apply HF, elem_of_app; right; by left)).
    unfold m1. rewrite !store64_outside; lia || done.
  - right. split; [|done]. intros q Hq.
    assert (forall x, x ∈ l0 ++ [p] -> x.1 < b.1 /\ disj x b) as Hlt.
    { intros x Hx. replace (l0 ++ [p; b]) with ((l0 ++ [p]) ++ [b]) in Hso, Hpw by (by rewrite <- app_assoc).
      apply sorted_app in Hso as (_ & _ & Hso). apply pairwise_app in Hpw as (_ & _ & Hpw).
      split; [apply Hso|apply Hpw]; (done || by left). }
    destruct (Hlt q Hq) as [? Hd]. destruct (decide (q.1 + q.2 = b.1)) as [Eq|]; [|unfold disj in Hd; lia].
    exfalso. apply elem_of_app in Hq as [Hq| ->%list_elem_of_singleton]; [|done].
    apply sorted_app in Hso as (_ & _ & Hso). specialize (Hso q p Hq ltac:(by left)).
    apply pairwise_app in Hpw as (_ & _ & Hpw). specialize (Hpw q p Hq ltac:(by left)).
    destruct (Hlt p ltac:(apply elem_of_app; right; by left)) as [? Hdp]. unfold disj in *.
    destruct (blocks_ok_bounds _ q Hb) as (?&?&?); [apply elem_of_app; by left|]. lia.
Qed.
End coalescence.

(** The condition under which [free] loses the block. *)
Definition leaks (F : list block) (b : block) : Prop := forall f, f ∈ F -> f.1 + f.2 < b.1.

Section free.
Context (P : pool) (L L' F : list block) (b : block).
Hypothesis I : pool_inv P L F.
Hypothesis HL : L ≡ₚ b :: L'.

#[local] Abbreviation m1 := (store64 (store64 (heap P) b.1 b.2) (b.1 + 8) 0).

Lemma free_block : in_pool P b /\ header_ok (heap P) b /\ 0 < b.1 /\ b.1 + b.2 < 2 ^ 64.
Proof.
  assert (b ∈ L) as Hb by (rewrite HL; by left).
  pose proof (pv_block _ _ _ I b ltac:(apply elem_of_app; by right)) as Hi.
  pose proof (pv_headers _ _ _ I) as Hh. rewrite list.Forall_forall in Hh. specialize (Hh b Hb).
  destruct (pv_pool _ _ _ I) as (?&?&?&?&?). pose proof Hi as (?&?&?&?&?). split_and!; auto; lia.
Qed.

Lemma free_perm l1 l2 : F = l1 ++ l2 -> F ++ L ≡ₚ (l1 ++ b :: l2) ++ L'.
Proof. intros ->. rewrite HL. solve_Permutation. Qed.

(** The position of the block among the free ones. *)
Lemma free_position l1 l2 :
  F = l1 ++ l2 -> Forall (fun c : block => c.1 <= b.1 + 16) l1 -> (forall c k, l2 = c :: k -> b.1 + 16 < c.1) ->
  blocks_ok P (l1 ++ b :: l2) L'.
Proof.
  intros EF H1 H2. pose proof (pv_blocks _ _ _ I) as Hb. pose proof (pv_disj _ _ _ I) as Hp.
  rewrite (free_perm l1 l2 EF) in Hb, Hp. split_and!; [done|done|].
  pose proof (pv_sorted _ _ _ I) as Hs. rewrite EF in Hs. apply sorted_app in Hs as (S1 & S2 & S3).
  apply pairwise_app in Hp as (Hp & _). destruct free_block as (_ & (H32 & _) & _).
  change (b :: l2) with ([b] ++ l2) in *. apply pairwise_app in Hp as (_ & Hp2 & Hp1). apply pairwise_app in Hp2 as (_ & _ & Hp2).
  apply sorted_app. split_and!; [done| |].
  - apply sorted_app. split_and!; [repeat constructor|done|]. intros x y ->%list_elem_of_singleton Hy.
    destruct l2 as [|c l2]; [by apply elem_of_nil in Hy|]. specialize (H2 c l2 eq_refl).
    inversion S2 as [|? ? _ Sc]; subst. rewrite list.Forall_forall in Sc.
    apply elem_of_cons in Hy as [->|Hy]; [lia|]. specialize (Sc y Hy). lia.
  - intros x y Hx [->%list_elem_of_singleton|Hy]%elem_of_app; [|by apply S3].
    rewrite list.Forall_forall in H1. specialize (H1 x Hx). specialize (Hp1 x b Hx ltac:(by left)).
    assert (16 <= x.2).
    { destruct (pv_block _ _ _ I x) as (?&?&?&?&?); [|done]. rewrite EF, <- app_assoc. apply elem_of_app. by left. }
    unfold disj in Hp1. lia.
Qed.

Lemma free_memory :
  mem_ok m1 /\ blockSize m1 b.1 = b.2 /\ next m1 b.1 = 0 /\ lseg m1 (head P) F 0 /\
  (forall x, x < b.1 \/ b.1 + 16 <= x -> m1 x = heap P x).
Proof.
  destruct free_block as (Hi & (H32 & _) & Hb). destruct (pv_mem _ _ _ I) as [Hm _].
  assert (forall x, x < b.1 \/ b.1 + 16 <= x -> m1 x = heap P x) as Fr
    by (intros x Hx; rewrite !store64_outside; lia || done).
  split_and!; auto using store64_ok.
  - unfold blockSize. rewrite load64_store64_ne by lia. apply load64_store64_eq. unfold fits. lia.
  - unfold next. apply load64_store64_eq. unfold fits. lia.
  - eapply lseg_frame; [|apply I]. intros c y Hc Hy. apply Fr.
    pose proof (pv_disj _ _ _ I) as Hp. apply pairwise_app in Hp as (_ & _ & Hp).
    specialize (Hp c b Hc ltac:(rewrite HL; by left)).
    destruct (pv_block _ _ _ I c ltac:(apply elem_of_app; by left)) as (?&?&?&?&?). unfold disj in Hp. lia.
Qed.

(** The state in which [free] leaves the pool. *)
Lemma free_state s F' :
  listed P L' (heap P) (b :: F) s F' ->
  let P' := Pool (m_totalSize P) (m_used P - b.2) (m_peak P) (m_start_ptr P) s.1 s.2 in
  pool_inv P' L' F' /\ (forall x, off_blocks (b :: F) x -> heap P' x = heap P x).
Proof.
  intros (Hl & (Hb & Hp & Hs) & Hm & Hh & Hf) P'. split; [|exact Hf]. split; auto; cbn.
  - apply I.
  - pose proof (pv_headers _ _ _ I) as Hhd. rewrite HL in Hhd. apply list.Forall_cons in Hhd as [_ Hhd].
    eapply (headers_frame (heap P) _ (b :: F)); [|exact Hf|done].
    assert ((b :: F) ++ L' ≡ₚ F ++ L) as ->; [rewrite HL; solve_Permutation|apply I].
  - rewrite (pv_used _ _ _ I), HL, size_of_cons. lia.
Qed.

(** The block is linked in before the first free block behind it. *)
Lemma free_linked l1 c l2 :
  F = l1 ++ c :: l2 -> Forall (fun c : block => c.1 <= b.1 + 16) l1 -> b.1 + 16 < c.1 ->
  let s := insert (head P, m1) (last_addr l1) b.1 in
  blockSize s.2 b.1 = b.2 /\ ~ leaks F b /\
  exists F', listed P L' (heap P) (b :: F) (coalescence s (last_addr l1) b.1) F' /\ size_of F' = size_of F + b.2.
Proof.
  intros EF F1 F2. destruct free_memory as (Mm & Ms & Mn & Ml & Mf). destruct free_block as (Hi & (H32 & _) & Hb0 & Hb1).
  destruct (pv_pool _ _ _ I) as (P1&P2&P3&P4&P5). destruct (pv_mem _ _ _ I) as [_ Hh].
  pose proof (free_position l1 (c :: l2) EF F1 ltac:(by intros ? ? [= <- <-])) as Hbk.
  destruct (blocks_ok_nodes P _ L' P1 P5 Hbk) as [Hn Ha].
  pose proof (insert_spec m1 (head P) l1 (c :: l2) b Mm Hh Hn Ha ltac:(by rewrite <- EF) Ms) as HI.
  destruct (insert_ok m1 (head P) (last_addr l1) b.1 Mm Hh ltac:(unfold fits; lia)) as [HIm HIf].
  destruct (insert _ _ _) as [hd2 m2]. destruct HI as [HI HIo]. cbn [fst snd] in *.
  destruct (lseg_size _ _ _ _ _ _ HI) as [Es _]. split_and!; [done| |].
  - intros Hlk. specialize (Hlk c ltac:(rewrite EF; apply elem_of_app; right; by left)).
    destruct (blocks_ok_bounds P L' ltac:(lia) _ c Hbk) as (?&?&?); [apply elem_of_app; right; right; by left|]. lia.
  - assert (forall p, p ∈ l1 -> p ∈ b :: F) as Hsub by (intros p Hp; rewrite EF; right; apply elem_of_app; by left).
    assert (listed P L' (heap P) (b :: F) (hd2, m2) (l1 ++ b :: c :: l2)) as Hls.
    { split_and!; auto. cbn. intros z Hz. pose proof (Hz b ltac:(by left)) as Hzb. rewrite HIo; [apply Mf; lia|].
      intros d [Hd| ->%list_elem_of_singleton]%elem_of_app; [|lia]. specialize (Hz d (Hsub d Hd)).
      destruct (blocks_ok_bounds P L' ltac:(lia) _ d Hbk) as (?&?&?); [apply elem_of_app; by left|]. lia. }
    destruct (coalescence_linked P L' ltac:(lia) _ _ _ l1 b (c :: l2) Hls ltac:(by left) Hsub) as (F' & HF' & Esz).
    exists F'. split; [exact HF'|]. rewrite Esz, EF. change (b :: c :: l2) with ([b] ++ c :: l2).
    rewrite !size_of_app. unfold size_of at 2. cbn [map zsum snd]. lia.
Qed.

(** There is no free block behind it. *)
Lemma free_unlinked :
  Forall (fun c : block => c.1 <= b.1 + 16) F ->
  exists F', listed P L' (heap P) (b :: F) (coalescence (head P, m1) (last_addr F) b.1) F' /\
    (leaks F b /\ F' = F \/ ~ leaks F b /\ size_of F' = size_of F + b.2).
Proof.
  intros F1. destruct free_memory as (Mm & Ms & Mn & Ml & Mf). destruct (pv_mem _ _ _ I) as [_ Hh].
  destruct (pv_pool _ _ _ I) as (P1&P2&P3&P4&P5). destruct free_block as (Hi & (H32 & _) & Hb0 & Hb1).
  pose proof (free_position F [] ltac:(by rewrite app_nil_r) F1 ltac:(done)) as Hbk.
  assert (forall z, off_blocks (b :: F) z -> m1 z = heap P z) as Hfr.
  { intros z Hz. apply Mf. specialize (Hz b ltac:(by left)). lia. }
  destruct (coalescence_unlinked P L' ltac:(lia) (heap P) (b :: F) (head P, m1) F b Ml Mm Hh Hfr Hbk Ms Mn
    ltac:(intros; by right)) as [(p & l0 & EF & Eadj & HF')|[Hlk ->]].
  - exists (l0 ++ [(p.1, p.2 + b.2)]). split; [exact HF'|]. right. split.
    + intros Hlk. specialize (Hlk p ltac:(rewrite EF; apply elem_of_app; right; by left)). lia.
    + rewrite EF, !size_of_app. unfold size_of. cbn. lia.
  - exists F. split; [|by left]. split_and!; auto. destruct Hbk as (B1 & B2 & B3). split_and!.
    + rewrite <- app_assoc in B1. apply Forall_app in B1 as [? B1]. apply list.Forall_cons in B1 as [_ B1].
      by apply Forall_app.
    + assert ((F ++ [b]) ++ L' ≡ₚ b :: (F ++ L')) as Ep by solve_Permutation. rewrite Ep in B2. apply B2.
    + by apply sorted_app in B3 as (? & _).
Qed.

Lemma free_spec :
  exists P' F', free P (b.1 + 16) = Ok P' /\ pool_inv P' L' F' /\
    m_start_ptr P' = m_start_ptr P /\ m_totalSize P' = m_totalSize P /\
    (forall x, off_blocks (b :: F) x -> heap P' x = heap P x) /\
    (leaks F b /\ F' = F \/ ~ leaks F b /\ size_of F' = size_of F + b.2).
Proof.
  destruct free_block as (Hi & (H32 & Hsz & Hpad) & Hb0 & Hb1). destruct free_memory as (Mm & Ms & Mn & Ml & Mf).
  destruct (pv_pool _ _ _ I) as (P1&P2&P3&P4&P5). destruct (pv_mem _ _ _ I) as [_ Hh].
  assert (m_used P - b.2 = size_of L') as Hu by (rewrite (pv_used _ _ _ I), HL, size_of_cons; lia).
  assert (fits 64 (m_used P - b.2)) as Huf.
  { pose proof (pv_size _ _ _ I) as Hs. pose proof (pv_blocks _ _ _ I) as Hbl. rewrite HL in Hbl, Hs. rewrite size_of_cons in Hs.
    apply Forall_app in Hbl as [HF Hbl]. apply list.Forall_cons in Hbl as [_ Hbl].
    pose proof (size_of_nonneg _ _ HF). pose proof (size_of_nonneg _ _ Hbl). rewrite Hu. unfold fits. lia. }
  destruct (free_loop_spec m1 (head P) (b.1 + 16) b.1 [] F (head P) (list_fuel P) (pv_nodes _ _ _ I)
    (pv_length _ _ _ I) Ml) as (l1 & l2 & EF & F1 & F2 & EL). change (last_addr []) with 0 in EL. cbn [app] in EL.
  unfold free, allocationHeaderSize, header_padding. replace (b.1 + 16 - 16) with b.1 by lia.
  rewrite (wrap_small 64 b.1) by (unfold fits; lia). rewrite Hsz, Hpad.
  change (0 <? 128) with true. cbv iota. rewrite Z.add_0_r, (wrap_small 64 b.2) by (unfold fits; lia).
  rewrite EL. destruct l2 as [|c l2].
  - rewrite app_nil_r in EF. subst l1. cbn [snd]. rewrite Ms, (wrap_small 64 (m_used P - b.2)) by done.
    destruct (free_unlinked F1) as (F' & HF' & Hres). destruct (free_state _ _ HF') as [I' Fr].
    eexists _, F'. split; [reflexivity|]. by split_and!.
  - destruct (free_linked l1 c l2 EF F1 (F2 c l2 eq_refl)) as (Es & Hnl & F' & HF' & Hsz').
    rewrite Es, (wrap_small 64 (m_used P - b.2)) by done. destruct (free_state _ _ HF') as [I' Fr].
    eexists _, F'. split; [reflexivity|]. split_and!; auto.
Qed.
End free.

(** ** [reset], [init] and writes of the clients *)

Lemma reset_spec P :
  0 < m_start_ptr P /\ m_start_ptr P mod 16 = 0 /\ 0 < m_totalSize P /\ m_totalSize P mod 16 = 0 /\
    m_start_ptr P + m_totalSize P < 2 ^ 64 ->
  mem_ok (heap P) -> pool_inv (reset P) [] [(m_start_ptr P, m_totalSize P)].
Proof.
  intros Hp Hm. unfold reset, insert. cbn [Z.eqb negb fst snd].
  split; cbn [m_totalSize m_used m_peak m_start_ptr head heap fst snd app].
  - done.
  - split; [by repeat apply store64_ok|unfold fits; lia].
  - cbn [lseg fst snd]. unfold blockSize, next. split_and!; [done| |].
    + rewrite !load64_store64_ne by lia. apply load64_store64_eq. unfold fits. lia.
    + apply load64_store64_eq. unfold fits. lia.
  - repeat constructor.
  - repeat constructor; cbn; dlia.
  - repeat constructor.
  - constructor.
  - done.
Qed.

(** A live block's data: what is behind its header. *)
Definition in_data (L : list block) (x : Z) : Prop :=
  exists b, b ∈ L /\ b.1 + 16 <= x < b.1 + b.2.

Lemma write_spec P L F m' :
  pool_inv P L F -> mem_ok m' -> (forall x, ~ in_data L x -> m' x = heap P x) ->
  pool_inv (set_heap P m') L F.
Proof.
  intros I Hm Hf. destruct I as [I1 I2 I3 I4 I5 I6 I7 I8]. split; cbn; auto.
  - split; [done|apply I2].
  - eapply lseg_frame; [|exact I3]. intros b y Hb Hy. apply Hf. intros (c & Hc & Hx).
    pose proof I6 as Hd. apply pairwise_app in Hd as (_ & _ & Hd). specialize (Hd b c Hb Hc).
    rewrite list.Forall_forall in I5. destruct (I5 b ltac:(apply elem_of_app; by left)) as (?&?&?&?&?). unfold disj in Hd. lia.
  - rewrite list.Forall_forall in I7 |- *. intros b Hb. destruct (I7 b Hb) as (H32 & E1 & E2).
    assert (forall x, b.1 <= x < b.1 + 16 -> m' x = heap P x) as Fr.
    { intros x Hx. apply Hf. intros (c & Hc & Hx'). destruct (decide (b = c)) as [->|Hne]; [lia|].
      apply pairwise_app in I6 as (_ & Hd & _). pose proof (pairwise_elem L b c Hd Hb Hc Hne) as D.
      unfold disj in D. lia. }
    split_and!; [done| |by rewrite Fr by lia]. unfold blockSize. rewrite (load64_agree (heap P)); [done|].
    intros; apply Fr; lia.
Qed.

(** ** [realloc] *)

(** Live blocks are not among the free ones. *)
Lemma live_off P L F b x : pool_inv P L F -> b ∈ L -> b.1 <= x < b.1 + b.2 -> off_blocks F x.
Proof.
  intros I Hb Hx f Hf. pose proof (pv_disj _ _ _ I) as Hd. apply pairwise_app in Hd as (_ & _ & Hd).
  specialize (Hd f b Hf Hb). unfold disj in Hd. lia.
Qed.

Lemma live_off_other P L L' F b c x :
  pool_inv P L F -> L ≡ₚ b :: L' -> c ∈ L' -> c.1 <= x < c.1 + c.2 -> off_blocks (b :: F) x.
Proof.
  intros I HL Hc Hx f [->|Hf]%elem_of_cons.
  - pose proof (pv_disj _ _ _ I) as Hd. rewrite HL in Hd. apply pairwise_app in Hd as (_ & [Hd _] & _).
    rewrite list.Forall_forall in Hd. specialize (Hd c Hc). unfold disj in Hd. lia.
  - apply (live_off P L F c x I); [rewrite HL; by right|done|done].
Qed.

Lemma realloc_spec P L L' F b old new al :
  pool_inv P L F -> L ≡ₚ b :: L' -> al <= 16 -> 0 <= old <= new -> new + 64 < 2 ^ 64 -> old <> new ->
  old <= b.2 - 16 ->
  let req := alloc_size new + 16 in
  (exists P' c F', realloc P (b.1 + 16) old new al = Ok (P', c + 16) /\ pool_inv P' ((c, req) :: L') F' /\
     m_start_ptr P' = m_start_ptr P /\ m_totalSize P' = m_totalSize P /\
     (forall i, 0 <= i < old -> heap P' (c + 16 + i) = heap P (b.1 + 16 + i)) /\
     (forall d x, d ∈ L' -> d.1 <= x < d.1 + d.2 -> heap P' x = heap P x)) \/
  (realloc P (b.1 + 16) old new al = Throw NotEnoughMemory /\ Forall (fun f : block => f.2 < req) F).
Proof.
  intros I HL Hal Ho Hn Hne Hob req. unfold realloc. destruct (Z.eqb_spec old new) as [|_]; [done|].
  destruct (alloc_spec P L F new al I ltac:(lia) Hn Hal) as [(P1 & c & F1 & -> & Hc & Hcr & I1 & _ & E1 & E2 & Fr)|[-> HF]];
    [left|by right].
  destruct (alloc_size_spec new ltac:(lia) Hn) as (A1 & A2 & A3 & A4).
  assert (b ∈ L) as HbL by (rewrite HL; by left).
  assert (forall d x, d ∈ L -> d.1 <= x < d.1 + d.2 -> heap P1 x = heap P x /\ (x < c.1 \/ c.1 + c.2 <= x)) as Keep.
  { intros d x Hd Hx. pose proof (live_off P L F d x I Hd Hx) as Hoff. split; [by apply Fr|by apply Hoff]. }
  set (m2 := memcpy (heap P1) (c.1 + 16) (b.1 + 16) old).
  assert (pool_inv (set_heap P1 m2) ((c.1, alloc_size new + 16) :: L) F1) as I2.
  { apply write_spec; [exact I1|apply memcpy_ok, I1|]. intros x Hx. apply memcpy_outside.
    destruct (decide (c.1 + 16 <= x < c.1 + 16 + old)) as [Hin|]; [|lia]. exfalso. apply Hx.
    exists (c.1, alloc_size new + 16). cbn. split; [by left|lia]. }
  assert ((c.1, alloc_size new + 16) :: L ≡ₚ b :: (c.1, alloc_size new + 16) :: L') as HL2
    by (rewrite HL; solve_Permutation).
  destruct (free_spec _ _ _ _ _ I2 HL2) as (P3 & F3 & -> & I3 & E3 & E4 & Fr3 & _).
  exists P3, c.1, F3. cbn in E3, E4. split_and!; [done|exact I3|congruence|congruence| |].
  - intros i Hi. rewrite Fr3.
    + cbn. unfold m2. rewrite memcpy_inside by lia. replace (b.1 + 16 + (c.1 + 16 + i - (c.1 + 16))) with (b.1 + 16 + i) by lia.
      apply (Keep b); [done|lia].
    + apply (live_off_other _ _ _ _ b (c.1, alloc_size new + 16) _ I2 HL2); [by left|cbn; lia].
  - intros d x Hd Hx. assert (d ∈ L) as HdL by (rewrite HL; by right). destruct (Keep d x HdL Hx) as [K1 K2].
    rewrite Fr3.
    + cbn. unfold m2. rewrite memcpy_outside by lia. exact K1.
    + apply (live_off_other _ _ _ _ b d _ I2 HL2); [by right|done].
Qed.

Lemma pool_inv_perm P L L' F : L ≡ₚ L' -> pool_inv P L F -> pool_inv P L' F.
Proof. intros EL [? ? ? ? B1 B2 B3 B4]. rewrite EL in B1, B2, B3, B4. by split. Qed.

(** ** Clients of the pool *)

(** The pool with the data addresses and requested sizes of its live
    allocations. *)
Record clients := Clients { c_pool : pool; c_live : list (Z * Z) }.

Definition block_of (a : Z * Z) : block := (a.1 - 16, alloc_size a.2 + 16).

Inductive step : clients -> clients -> Prop :=
| step_alloc P live size al P' p :
    0 <= size -> size + 64 < 2 ^ 64 -> al <= 16 -> alloc P size al = Ok (P', p) ->
    step (Clients P live) (Clients P' ((p, size) :: live))
| step_free P live live' p size P' :
    live ≡ₚ (p, size) :: live' -> free P p = Ok P' ->
    step (Clients P live) (Clients P' live')
| step_realloc P live live' p old new al P' p' :
    live ≡ₚ (p, old) :: live' -> old <= new -> new + 64 < 2 ^ 64 -> al <= 16 ->
    realloc P p old new al = Ok (P', p') ->
    step (Clients P live) (Clients P' ((p', new) :: live'))
| step_write P live p size x v :
    (p, size) ∈ live -> p <= x < p + size -> fits 8 v ->
    step (Clients P live) (Clients (set_heap P (store8 (heap P) x v)) live).

Definition clients_inv (lo hi : Z) (c : clients) : Prop :=
  (exists F, pool_inv (c_pool c) (map block_of (c_live c)) F) /\
  m_start_ptr (c_pool c) = lo /\ m_totalSize (c_pool c) = hi /\
  Forall (fun a : Z * Z => 0 <= a.2 /\ a.2 + 64 < 2 ^ 64) (c_live c).

Lemma block_of_data p size : (block_of (p, size)).1 + 16 = p.
Proof. cbn. lia. Qed.

Lemma step_inv lo hi c c' : clients_inv lo hi c -> step c c' -> clients_inv lo hi c'.
Proof.
  intros ((F & I) & E1 & E2 & Hs) H. destruct H as [P live size al P' p H1 H2 H3 E|P live live' p size P' EL E|
    P live live' p old new al P' p' EL H1 H2 H3 E|P live p size x v Hin Hx Hv]; cbn [c_pool c_live] in *.
  - destruct (alloc_spec P _ F size al I H1 H2 H3) as [(P1 & b & F1 & EA & _ & _ & I1 & _ & ? & ? & _)|[EA _]];
      rewrite EA in E; [|done]. injection E as <- <-. split_and!; cbn; try congruence; [|by constructor].
    exists F1. unfold block_of at 1. cbn. by replace (b.1 + 16 - 16) with b.1 by lia.
  - assert (map block_of live ≡ₚ block_of (p, size) :: map block_of live') as EL' by (by rewrite EL).
    destruct (free_spec P _ _ F _ I EL') as (P1 & F1 & EA & I1 & ? & ? & _). rewrite block_of_data in EA.
    rewrite EA in E. injection E as <-. rewrite EL in Hs. apply list.Forall_cons in Hs as [_ Hs].
    split_and!; cbn; eauto; congruence.
  - assert (map block_of live ≡ₚ block_of (p, old) :: map block_of live') as EL' by (by rewrite EL).
    rewrite EL in Hs. apply list.Forall_cons in Hs as [[Ho1 Ho2] Hs]. cbn in Ho1, Ho2.
    destruct (decide (old = new)) as [<-|Hne].
    + unfold realloc in E. rewrite Z.eqb_refl in E. injection E as <- <-.
      split; [|split; [done|split; [done|by constructor]]]. cbn.
      exists F. by apply (pool_inv_perm _ _ _ _ EL').
    + destruct (alloc_size_spec old Ho1 Ho2) as (A1 & A2 & A3 & A4).
      destruct (realloc_spec P _ _ F (block_of (p, old)) old new al I EL' H3 ltac:(lia) H2 Hne ltac:(cbn; lia))
        as [(P1 & b & F1 & EA & I1 & ? & ? & _)|[EA _]]; rewrite block_of_data in EA; rewrite EA in E; [|done].
      injection E as <- <-. split; [|split; [cbn; congruence|split; [cbn; congruence|constructor; [cbn; lia|done]]]].
      exists F1. unfold block_of at 1. cbn. by replace (b + 16 - 16) with b by lia.
  - split_and!; cbn; auto. exists F. apply write_spec; [done| |].
    + intros y. unfold store8. destruct (y =? x); [done|]. apply I.
    + intros y Hy. apply store8_outside. intros ->. apply Hy. exists (block_of (p, size)).
      rewrite list.Forall_forall in Hs. destruct (Hs _ Hin) as [S1 S2]. cbn in S1, S2.
      destruct (alloc_size_spec size S1 S2) as (A1 & A2 & A3 & A4).
      split; [apply list_elem_of_fmap; eauto|cbn; lia].
Qed.

(** ** Properties *)

(** States reached from [init] on a fresh pool. *)
Definition reachable (m : memory) (garbage totalSize p : Z) (c : clients) : Prop :=
  exists P0, init (pool_new m garbage) totalSize p = Ok P0 /\ rtc step (Clients P0 []) c.

(** What [cudaMallocHost] gives: a range of the address space, aligned. *)
Definition range_ok (totalSize p : Z) : Prop :=
  0 < p /\ p mod 16 = 0 /\ 0 < totalSize /\ totalSize mod 16 = 0 /\ p + totalSize < 2 ^ 64.

Lemma reachable_inv m g n p c : mem_ok m -> range_ok n p -> reachable m g n p c -> clients_inv p n c.
Proof.
  intros Hm Hr (P0 & E & H). injection E as <-.
  assert (clients_inv p n (Clients (reset (Pool n 0 (m_peak (pool_new m g)) p (head (pool_new m g)) m)) [])) as I0.
  { split_and!; [|done|done|constructor]. exists [(p, n)]. by apply reset_spec. }
  cbn [pool_new m_peak head heap] in *. revert I0. induction H as [|c c1 c2 S _ IH]; [done|].
  intros I0. apply IH. by eapply step_inv.
Qed.

Lemma live_data lo hi c a :
  clients_inv lo hi c -> a ∈ c_live c ->
  block_of a ∈ map block_of (c_live c) /\ 0 <= a.2 /\ a.1 + a.2 < (block_of a).1 + (block_of a).2.
Proof.
  intros (_ & _ & _ & Hs) Ha. rewrite list.Forall_forall in Hs. destruct (Hs a Ha) as [S1 S2].
  destruct (alloc_size_spec a.2 S1 S2) as (A1 & A2 & A3 & A4). split_and!; [|done|cbn; lia].
  apply list_elem_of_fmap. eauto.
Qed.

(** C14: The pool hands out memory safely.  The address and the size of the pool
    are multiples of 16.  In every state reached from [init] by allocations
    (alignment up to 16, sizes whose rounding does not overflow), frees of live
    buffers, reallocations of live buffers to sizes that are not smaller than the
    old ones, and writes of the clients into their buffers, each live buffer is
    16-byte aligned and lies inside the pool, and any two of them, with the
    headers in front of them, are disjoint. *)
Theorem pool_safe m g n p c :
  mem_ok m -> range_ok n p -> reachable m g n p c ->
  (forall a, a ∈ c_live c -> a.1 mod 16 = 0 /\ p + 16 <= a.1 /\ a.1 + a.2 <= p + n) /\
  (forall i j a b, c_live c !! i = Some a -> c_live c !! j = Some b -> i <> j ->
     a.1 + a.2 <= b.1 - 16 \/ b.1 + b.2 <= a.1 - 16).
Proof.
  intros Hm Hr Hc. pose proof (reachable_inv m g n p c Hm Hr Hc) as I. pose proof I as ((F & IP) & E1 & E2 & Hs). split.
  - intros a Ha. destruct (live_data _ _ _ _ I Ha) as (Hb & _ & Hlt).
    destruct (pv_block _ _ _ IP (block_of a) ltac:(apply elem_of_app; by right)) as (B1&B2&B3&B4&B5).
    rewrite E1, ?E2 in *. cbn in *. split_and!; [dlia|lia|lia].
  - intros i j a b Hi Hj Hne.
    destruct (live_data _ _ _ a I ltac:(by eapply list_elem_of_lookup_2)) as (_ & _ & La).
    destruct (live_data _ _ _ b I ltac:(by eapply list_elem_of_lookup_2)) as (_ & _ & Lb).
    assert (disj (block_of a) (block_of b)) as D.
    { pose proof (pv_disj _ _ _ IP) as Hd. apply pairwise_app in Hd as (_ & Hd & _).
      apply (pairwise_lookup _ i j _ _ Hd); [by rewrite list_lookup_fmap, Hi|by rewrite list_lookup_fmap, Hj|done]. }
    unfold disj in D. cbn in *. lia.
Qed.

(** A pool of 4096 bytes at address 4096, a buffer of 100 bytes and one of
    200, of which the first is enlarged to 300. *)
Definition demo_pool : pool := reset (Pool 4096 0 0 4096 0 (fun _ => 7)).

Definition ok_or {A} (d : A) (r : result pool_error A) : A :=
  match r with Ok a => a | Throw _ => d end.

Definition is_ok {A} (r : result pool_error A) : bool :=
  match r with Ok _ => true | Throw _ => false end.

Lemma is_ok_eq {A} (d : A * Z) r : is_ok r = true -> r = Ok ((ok_or d r).1, (ok_or d r).2).
Proof. destruct r as [[a z]|]; done. Qed.

Definition demo_a : pool * Z := ok_or (demo_pool, 0) (alloc demo_pool 100 8).
Definition demo_b : pool * Z := ok_or (demo_pool, 0) (alloc demo_a.1 200 8).
Definition demo_c : pool * Z := ok_or (demo_pool, 0) (realloc demo_b.1 demo_a.2 100 300 8).

Lemma demo_reachable :
  reachable (fun _ => 7) 0 4096 4096 (Clients demo_c.1 [(demo_c.2, 300); (demo_b.2, 200)]).
Proof.
  exists demo_pool. split; [reflexivity|].
  eapply rtc_l; [apply (step_alloc _ _ 100 8 demo_a.1 demo_a.2); [lia|lia|lia|]|].
  { apply is_ok_eq. vm_compute. reflexivity. }
  eapply rtc_l; [apply (step_alloc _ _ 200 8 demo_b.1 demo_b.2); [lia|lia|lia|]|].
  { apply is_ok_eq. vm_compute. reflexivity. }
  eapply rtc_l; [|apply rtc_refl].
  apply (step_realloc _ _ [(demo_b.2, 200)] demo_a.2 100 300 8); [apply perm_swap|lia|lia|lia|].
  apply is_ok_eq. vm_compute. reflexivity.
Qed.

(** A reallocation to a smaller size copies [old_size] bytes all the same.  Here
    the copy of a buffer of 300 bytes into one of 16 goes over the header of the
    free block behind it, and the next allocation succeeds with a buffer that
    ends outside of the pool, which ends at 8192. *)
Definition shrink_a : pool * Z := ok_or (demo_pool, 0) (alloc demo_pool 16 8).
Definition shrink_b : pool * Z := ok_or (demo_pool, 0) (alloc shrink_a.1 300 8).
Definition shrink_c : pool * Z := ok_or (demo_pool, 0) (realloc shrink_b.1 shrink_b.2 300 16 8).

Lemma shrink_corrupts :
  is_ok (realloc shrink_b.1 shrink_b.2 300 16 8) = true /\ is_ok (alloc shrink_c.1 3900 8) = true /\
  (8192 <? (ok_or (demo_pool, 0) (alloc shrink_c.1 3900 8)).2 + 3900) = true.
Proof. vm_compute. done. Qed.

Lemma pool_safe_witness :
  demo_c.2 mod 16 = 0 /\ (demo_c.2 + 300 <= demo_b.2 - 16 \/ demo_b.2 + 200 <= demo_c.2 - 16).
Proof.
  destruct (pool_safe (fun _ => 7) 0 4096 4096 (Clients demo_c.1 [(demo_c.2, 300); (demo_b.2, 200)])) as [H1 H2].
  - intros x. unfold fits. lia.
  - unfold range_ok. split_and!; lia || reflexivity.
  - exact demo_reachable.
  - split.
    + apply (H1 (demo_c.2, 300)). by left.
    + exact (H2 0%nat 1%nat (demo_c.2, 300) (demo_b.2, 200) eq_refl eq_refl ltac:(discriminate)).
Defined.



(** The pool does not touch the clients' data.  In every reachable state an
    allocation and a free leave the bytes of every other live buffer as they
    are, and a reallocation in addition moves the contents: the first
    [old] bytes of the new buffer are those of the old one. *)
Theorem pool_keeps_data m g n p c :
  mem_ok m -> range_ok n p -> reachable m g n p c ->
  (forall size al P' q a x, 0 <= size -> size + 64 < 2 ^ 64 -> al <= 16 ->
     alloc (c_pool c) size al = Ok (P', q) -> a ∈ c_live c -> a.1 <= x < a.1 + a.2 ->
     heap P' x = heap (c_pool c) x) /\
  (forall b live' P' a x, c_live c ≡ₚ b :: live' -> free (c_pool c) b.1 = Ok P' ->
     a ∈ live' -> a.1 <= x < a.1 + a.2 -> heap P' x = heap (c_pool c) x) /\
  (forall b live' new al P' q, c_live c ≡ₚ b :: live' -> b.2 <= new -> new + 64 < 2 ^ 64 -> al <= 16 ->
     realloc (c_pool c) b.1 b.2 new al = Ok (P', q) ->
     (forall i, 0 <= i < b.2 -> heap P' (q + i) = heap (c_pool c) (b.1 + i)) /\
     (forall a x, a ∈ live' -> a.1 <= x < a.1 + a.2 -> heap P' x = heap (c_pool c) x)).
Proof.
  intros Hm Hr Hc. pose proof (reachable_inv m g n p c Hm Hr Hc) as IC. pose proof IC as ((F & I) & E1 & E2 & Hs).
  split_and!.
  - intros size al P' q a x H1 H2 H3 EA Ha Hx. destruct (live_data _ _ _ _ IC Ha) as (Hb & H0 & Hlt).
    destruct (alloc_spec _ _ F size al I H1 H2 H3) as [(P1 & b & F' & E & _ & _ & _ & _ & _ & _ & Fr)|[E _]];
      rewrite E in EA; [|done]. injection EA as <- <-. apply Fr, (live_off _ _ _ _ _ I Hb). cbn in *. lia.
  - intros b live' P' a x EL EF Ha Hx.
    assert (map block_of (c_live c) ≡ₚ block_of b :: map block_of live') as EL' by (by rewrite EL).
    destruct (free_spec _ _ _ F _ I EL') as (P1 & F' & E & _ & _ & _ & Fr & _).
    replace ((block_of b).1 + 16) with b.1 in E by (cbn; lia). rewrite E in EF. injection EF as <-.
    destruct (live_data _ _ _ a IC ltac:(rewrite EL; by right)) as (_ & H0 & Hlt).
    apply Fr, (live_off_other _ _ _ _ _ (block_of a) _ I EL'); [apply list_elem_of_fmap; eauto|cbn in *; lia].
  - intros b live' new al P' q EL Hn1 Hn2 Hal ER. destruct (decide (b.2 = new)) as [<-|Hne].
    { unfold realloc in ER. rewrite Z.eqb_refl in ER. injection ER as <- <-. done. }
    assert (map block_of (c_live c) ≡ₚ block_of b :: map block_of live') as EL' by (by rewrite EL).
    destruct (live_data _ _ _ b IC ltac:(rewrite EL; by left)) as (_ & H0 & Hlt).
    destruct (realloc_spec _ _ _ F _ b.2 new al I EL' Hal ltac:(lia) Hn2 Hne ltac:(cbn in *; lia))
      as [(P1 & k & F' & E & _ & _ & _ & Hcp & Hfr)|[E _]];
      replace ((block_of b).1 + 16) with b.1 in * by (cbn; lia); rewrite E in ER; [|done].
    injection ER as <- <-. split; [exact Hcp|]. intros a x Ha Hx.
    destruct (live_data _ _ _ a IC ltac:(rewrite EL; by right)) as (_ & H1 & Hlta).
    apply (Hfr (block_of a)); [apply list_elem_of_fmap; eauto|cbn in *; lia].
Qed.

Lemma pool_keeps_data_witness :
  exists P' q, realloc demo_c.1 demo_b.2 200 500 8 = Ok (P', q) /\
    forall i, 0 <= i < 200 -> heap P' (q + i) = heap demo_c.1 (demo_b.2 + i).
Proof.
  destruct (pool_keeps_data (fun _ => 7) 0 4096 4096 (Clients demo_c.1 [(demo_c.2, 300); (demo_b.2, 200)]))
    as (_ & _ & H).
  - intros x. unfold fits. lia.
  - unfold range_ok. split_and!; lia || reflexivity.
  - exact demo_reachable.
  - exists (ok_or (demo_pool, 0) (realloc demo_c.1 demo_b.2 200 500 8)).1,
      (ok_or (demo_pool, 0) (realloc demo_c.1 demo_b.2 200 500 8)).2.
    assert (E : realloc demo_c.1 demo_b.2 200 500 8 =
      Ok ((ok_or (demo_pool, 0) (realloc demo_c.1 demo_b.2 200 500 8)).1,
          (ok_or (demo_pool, 0) (realloc demo_c.1 demo_b.2 200 500 8)).2))
      by (apply is_ok_eq; vm_compute; reflexivity).
    split; [exact E|].
    apply (H (demo_b.2, 200) [(demo_c.2, 300)] 500 8 _ _ (perm_swap _ _ _)); [cbn; lia|lia|lia|exact E].
Defined.

(** A freed block can be lost.  [free] links a block in only in front of a
    free block with a higher address; when all free blocks lie below it and
    none ends where it begins, the free list stays as it is although the
    block is no longer counted as used. *)
Theorem free_leaks_block P L L' F b :
  pool_inv P L F -> L ≡ₚ b :: L' -> leaks F b ->
  exists P', free P (b.1 + 16) = Ok P' /\ pool_inv P' L' F /\ m_used P' = m_used P - b.2.
Proof.
  intros I HL Hlk. destruct (free_spec P L L' F b I HL) as (P' & F' & E & I' & _ & _ & _ & [[_ ->]|[Hn _]]); [|done].
  exists P'. split_and!; auto. rewrite (pv_used _ _ _ I), (pv_used _ _ _ I'), HL, size_of_cons. lia.
Qed.

(** A pool of 48 bytes, used up by one allocation of 16. *)
Definition tiny_pool : pool := reset (Pool 48 0 0 4096 0 (fun _ => 7)).
Definition tiny_full : pool * Z := ok_or (tiny_pool, 0) (alloc tiny_pool 16 8).

Lemma tiny_full_inv : pool_inv tiny_full.1 [(4096, 48)] [].
Proof.
  assert (pool_inv tiny_pool [] [(4096, 48)]) as I.
  { apply (reset_spec (Pool 48 0 0 4096 0 (fun _ => 7))); [cbn; split_and!; lia || reflexivity|].
    intros x. cbn. unfold fits. lia. }
  destruct (alloc_spec tiny_pool [] [(4096, 48)] 16 8 I ltac:(lia) ltac:(lia) ltac:(lia))
    as [(P' & b & F' & E & Hb & _ & I' & Hs & _)|[E _]].
  - apply list_elem_of_singleton in Hb as ->. change (alloc_size 16 + 16) with 48 in *.
    assert (F' = []) as ->.
    { destruct F' as [|f F']; [done|]. pose proof (pv_blocks _ _ _ I') as Hb. apply Forall_app in Hb as [Hb _].
      rewrite size_of_cons in Hs. apply list.Forall_cons in Hb as [(?&?&?&?) Hb].
      pose proof (size_of_nonneg _ _ Hb). cbn in Hs. lia. }
    unfold tiny_full. rewrite E. exact I'.
  - exfalso. apply (f_equal is_ok) in E. vm_compute in E. discriminate.
Qed.

Lemma free_leaks_block_witness :
  exists P', free tiny_full.1 (4096 + 16) = Ok P' /\ pool_inv P' [] [] /\ m_used P' = m_used tiny_full.1 - 48.
Proof.
  apply (free_leaks_block tiny_full.1 [(4096, 48)] [] [] (4096, 48)); [exact tiny_full_inv|reflexivity|].
  intros f Hf. by apply elem_of_nil in Hf.
Defined.

(** With an alignment above 16, [free] takes the header's address for the
    block's and counts the padding twice. *)
Definition wide_a : pool * Z := ok_or (demo_pool, 0) (alloc demo_pool 16 64).
Definition wide_b : pool * Z := ok_or (demo_pool, 0) (alloc wide_a.1 16 8).
Definition wide_c : pool := ok_or demo_pool (free wide_b.1 wide_a.2).
Definition wide_d : pool * Z := ok_or (demo_pool, 0) (alloc wide_c 60 8).

(** Alignments above 16 break the pool.  After a buffer with alignment 64
    is allocated and freed, a later allocation overlaps a buffer that is
    still live. *)
Theorem wide_alignment_overlaps :
  is_ok (alloc demo_pool 16 64) = true /\ is_ok (alloc wide_a.1 16 8) = true /\
  is_ok (free wide_b.1 wide_a.2) = true /\ is_ok (alloc wide_c 60 8) = true /\
  wide_d.2 < wide_b.2 < wide_d.2 + 60.
Proof. vm_compute. split_and!; reflexivity. Qed.

(** The rounding of the size overflows.  An allocation of [2 ^ 64 - 16]
    bytes is rounded to 0 and succeeds in a pool of 4096 bytes. *)
Theorem alloc_size_overflows :
  alloc_size (2 ^ 64 - 16) = 0 /\ is_ok (alloc demo_pool (2 ^ 64 - 16) 8) = true.
Proof. vm_compute. split; reflexivity. Qed.

(** A second [init] writes outside the pool: its call [free(m_start_ptr)]
    is the pool's own [free], which takes the 16 bytes in front of the pool
    for a header. *)
Theorem init_twice_writes_outside :
  exists P, init demo_pool 4096 8192 = Ok P /\ heap P (4096 - 8) <> heap demo_pool (4096 - 8).
Proof.
  exists (ok_or demo_pool (init demo_pool 4096 8192)). split.
  - assert (is_ok (init demo_pool 4096 8192) = true) as H by (vm_compute; reflexivity).
    by destruct (init demo_pool 4096 8192).
  - vm_compute. congruence.
Qed.
