(* ===== verification/CityHashHost.v ===== *)
(** * CityHash on the host

    [CityHash64] and [CityHash128] of contrib/libcityhash/src/city.cc (version
    1.0.2, little endian), over the byte memory.  They are the reference for
    the device version and the checksum of compressed blocks.

    Shown: both functions return for every length and read only the bytes of
    the string, also where [CityHash128WithSeed] steps back over bytes it has
    already hashed. *)

From stdpp Require Import base list numbers.
From Stdlib Require Import ZArith Lia.
From S2P Require Import Prelude DeviceMemory.

#[local] Open Scope Z_scope.
#[local] Open Scope word_scope.

(** ** Loads and mixers *)

Definition Fetch64 (m : memory) (p : Z) : Z := le_word (bytes m p 8).
Definition Fetch32 (m : memory) (p : Z) : Z := le_word (bytes m p 4).

Definition k0 : Z := 0xc3a5c85c97cb3127.
Definition k1 : Z := 0xb492b66fbe98f273.
Definition k2 : Z := 0x9ae16a3b2f90404f.
Definition k3 : Z := 0xc949d7c7509e6557.

Definition Rotate (val shift : Z) : Z :=
  if shift =? 0 then val else (val >>64 shift) |64 (val <<64 (64 - shift)).

Definition RotateByAtLeast1 (val shift : Z) : Z :=
  (val >>64 shift) |64 (val <<64 (64 - shift)).

Definition ShiftMix (val : Z) : Z := val ^64 (val >>64 47).

(** [uint128] is a pair of words, the low one first. *)
Definition Hash128to64 (x : Z * Z) : Z :=
  let kMul := 0x9ddfea08eb382d69 in
  let a := (x.1 ^64 x.2) *64 kMul in
  let a := a ^64 (a >>64 47) in
  let b := (x.2 ^64 a) *64 kMul in
  let b := b ^64 (b >>64 47) in
  b *64 kMul.

Definition HashLen16 (u v : Z) : Z := Hash128to64 (u, v).

Definition HashLen0to16 (m : memory) (s len : Z) : Z :=
  if 8 <? len then
    let a := Fetch64 m s in
    let b := Fetch64 m (s + len - 8) in
    HashLen16 a (RotateByAtLeast1 (b +64 len) len) ^64 b
  else if 4 <=? len then
    let a := Fetch32 m s in
    HashLen16 (len +64 (a <<64 3)) (Fetch32 m (s + len - 4))
  else if 0 <? len then
    let a := m s in
    let b := m (s + Z.shiftr len 1) in
    let c := m (s + len - 1) in
    let y := a +32 u32 (Z.shiftl b 8) in
    let z := u32 (len + u32 (Z.shiftl c 2)) in
    ShiftMix ((y *64 k2) ^64 (z *64 k3)) *64 k2
  else k2.

Definition HashLen17to32 (m : memory) (s len : Z) : Z :=
  let a := Fetch64 m s *64 k1 in
  let b := Fetch64 m (s + 8) in
  let c := Fetch64 m (s + len - 8) *64 k2 in
  let d := Fetch64 m (s + len - 16) *64 k0 in
  HashLen16 ((Rotate (a -64 b) 43 +64 Rotate c 30) +64 d)
            (((a +64 Rotate (b ^64 k3) 20) -64 c) +64 len).

Definition WeakHash (w x y z a b : Z) : Z * Z :=
  let a := a +64 w in
  let b := Rotate ((b +64 a) +64 z) 21 in
  let c := a in
  let a := a +64 x in
  let a := a +64 y in
  let b := b +64 Rotate a 44 in
  (a +64 z, b +64 c).

Definition WeakHashLen32WithSeeds (m : memory) (s a b : Z) : Z * Z :=
  WeakHash (Fetch64 m s) (Fetch64 m (s + 8)) (Fetch64 m (s + 16)) (Fetch64 m (s + 24)) a b.

Definition HashLen33to64 (m : memory) (s len : Z) : Z :=
  let z := Fetch64 m (s + 24) in
  let a := Fetch64 m s +64 ((len +64 Fetch64 m (s + len - 16)) *64 k0) in
  let b := Rotate (a +64 z) 52 in
  let c := Rotate a 37 in
  let a := a +64 Fetch64 m (s + 8) in
  let c := c +64 Rotate a 7 in
  let a := a +64 Fetch64 m (s + 16) in
  let vf := a +64 z in
  let vs := (b +64 Rotate a 31) +64 c in
  let a := Fetch64 m (s + 16) +64 Fetch64 m (s + len - 32) in
  let z := Fetch64 m (s + len - 8) in
  let b := Rotate (a +64 z) 52 in
  let c := Rotate a 37 in
  let a := a +64 Fetch64 m (s + len - 24) in
  let c := c +64 Rotate a 7 in
  let a := a +64 Fetch64 m (s + len - 16) in
  let wf := a +64 z in
  let ws := (b +64 Rotate a 31) +64 c in
  let r := ShiftMix (((vf +64 ws) *64 k2) +64 ((wf +64 vs) *64 k0)) in
  ShiftMix ((r *64 k0) +64 vs) *64 k2.

(** ** [CityHash64] *)

(** The 56 bytes of state. *)
Record state := State { st_x : Z; st_y : Z; st_z : Z; st_v : Z * Z; st_w : Z * Z }.

(** The body of the loop, over the 64 bytes at [s]. *)
Definition round (m : memory) (s : Z) (t : state) : state :=
  let '(State x y z v w) := t in
  let x := Rotate (((x +64 y) +64 v.1) +64 Fetch64 m (s + 16)) 37 *64 k1 in
  let y := Rotate ((y +64 v.2) +64 Fetch64 m (s + 48)) 42 *64 k1 in
  let x := x ^64 w.2 in
  let y := y ^64 v.1 in
  let z := Rotate (z ^64 w.1) 33 in
  let v := WeakHashLen32WithSeeds m s (v.2 *64 k1) (x +64 w.1) in
  let w := WeakHashLen32WithSeeds m (s + 32) (z +64 w.2) y in
  State z y x v w.

Fixpoint CityHash64_loop (fuel : nat) (m : memory) (s len : Z) (t : state) : option state :=
  match fuel with
  | O => None
  | S fuel' =>
      let t := round m s t in
      let len := len -64 64 in
      if negb (len =? 0) then CityHash64_loop fuel' m (s + 64) len t else Some t
  end.

Definition CityHash64 (m : memory) (s len : Z) : option Z :=
  if len <=? 32 then
    if len <=? 16 then Some (HashLen0to16 m s len) else Some (HashLen17to32 m s len)
  else if len <=? 64 then Some (HashLen33to64 m s len)
  else
    let x := Fetch64 m s in
    let y := Fetch64 m (s + len - 16) ^64 k1 in
    let z := Fetch64 m (s + len - 56) ^64 k0 in
    let v := WeakHashLen32WithSeeds m (s + len - 64) len y in
    let w := WeakHashLen32WithSeeds m (s + len - 32) (len *64 k1) k0 in
    let z := z +64 (ShiftMix v.2 *64 k1) in
    let x := Rotate (z +64 x) 39 *64 k1 in
    let y := Rotate y 33 *64 k1 in
    let len := Z.land (len -64 1) (u64 (Z.lnot 63)) in
    match CityHash64_loop (S (Z.to_nat (len / 64))) m s len (State x y z v w) with
    | None => None
    | Some (State x y z v w) =>
        Some (HashLen16 ((HashLen16 v.1 w.1 +64 (ShiftMix y *64 k1)) +64 z) (HashLen16 v.2 w.2 +64 x))
    end.

Definition CityHash64WithSeeds (m : memory) (s len seed0 seed1 : Z) : option Z :=
  match CityHash64 m s len with
  | Some h => Some (HashLen16 (h -64 seed0) seed1)
  | None => None
  end.

Definition CityHash64WithSeed (m : memory) (s len seed : Z) : option Z :=
  CityHash64WithSeeds m s len k2 seed.

(** ** [CityHash128] *)

(** The loop of [CityMurmur]; [l] is signed. *)
Fixpoint CityMurmur_loop (fuel : nat) (m : memory) (s l a b c d : Z) : option (Z * Z * Z * Z) :=
  match fuel with
  | O => None
  | S fuel' =>
      let a := a ^64 (ShiftMix (Fetch64 m s *64 k1) *64 k1) in
      let a := a *64 k1 in
      let b := b ^64 a in
      let c := c ^64 (ShiftMix (Fetch64 m (s + 8) *64 k1) *64 k1) in
      let c := c *64 k1 in
      let d := d ^64 c in
      let l := l - 16 in
      if 0 <? l then CityMurmur_loop fuel' m (s + 16) l a b c d else Some (a, b, c, d)
  end.

Definition CityMurmur (m : memory) (s len : Z) (seed : Z * Z) : option (Z * Z) :=
  let a := seed.1 in
  let b := seed.2 in
  let l := len - 16 in
  let r :=
    if l <=? 0 then
      let a := ShiftMix (a *64 k1) *64 k1 in
      let c := (b *64 k1) +64 HashLen0to16 m s len in
      let d := ShiftMix (a +64 (if 8 <=? len then Fetch64 m s else c)) in
      Some (a, b, c, d)
    else
      let c := HashLen16 (Fetch64 m (s + len - 8) +64 k1) a in
      let d := HashLen16 (b +64 len) (c +64 Fetch64 m (s + len - 16)) in
      let a := a +64 d in
      CityMurmur_loop (S (Z.to_nat (l / 16))) m s l a b c d in
  match r with
  | None => None
  | Some (a, b, c, d) =>
      let a := HashLen16 a c in
      let b := HashLen16 d b in
      Some (a ^64 b, HashLen16 b a)
  end.

(** The unrolled loop: two rounds for every 128 bytes.  It ends with the
    pointer, the length that is left and the state. *)
Fixpoint CityHash128_loop (fuel : nat) (m : memory) (s len : Z) (t : state) : option (Z * Z * state) :=
  match fuel with
  | O => None
  | S fuel' =>
      let t := round m s t in
      let s := s + 64 in
      let t := round m s t in
      let s := s + 64 in
      let len := len -64 128 in
      if 128 <=? len then CityHash128_loop fuel' m s len t else Some (s, len, t)
  end.

(** The chunks of 32 bytes at the end of the string. *)
Fixpoint CityHash128_tail (fuel : nat) (m : memory) (s len tail_done : Z) (t : state) : option state :=
  if tail_done <? len then
    match fuel with
    | O => None
    | S fuel' =>
        let '(State x y z v w) := t in
        let tail_done := tail_done +64 32 in
        let y := (Rotate (y -64 x) 42 *64 k0) +64 v.2 in
        let w := (w.1 +64 Fetch64 m (s + len - tail_done + 16), w.2) in
        let x := (Rotate x 49 *64 k0) +64 w.1 in
        let w := (w.1 +64 v.1, w.2) in
        let v := WeakHashLen32WithSeeds m (s + len - tail_done) v.1 v.2 in
        CityHash128_tail fuel' m s len tail_done (State x y z v w)
    end
  else Some t.

Definition CityHash128WithSeed (m : memory) (s len : Z) (seed : Z * Z) : option (Z * Z) :=
  if len <? 128 then CityMurmur m s len seed
  else
    let x := seed.1 in
    let y := seed.2 in
    let z := len *64 k1 in
    let v1 := (Rotate (y ^64 k1) 49 *64 k1) +64 Fetch64 m s in
    let v2 := (Rotate v1 42 *64 k1) +64 Fetch64 m (s + 8) in
    let w1 := (Rotate (y +64 z) 35 *64 k1) +64 x in
    let w2 := Rotate (x +64 Fetch64 m (s + 88)) 53 *64 k1 in
    match CityHash128_loop (S (Z.to_nat (len / 128))) m s len (State x y z (v1, v2) (w1, w2)) with
    | None => None
    | Some (s, len, State x y z v w) =>
        let y := y +64 ((Rotate w.1 37 *64 k0) +64 z) in
        let x := x +64 (Rotate (v.1 +64 z) 49 *64 k0) in
        match CityHash128_tail 4 m s len 0 (State x y z v w) with
        | None => None
        | Some (State x y z v w) =>
            let x := HashLen16 x v.1 in
            let y := HashLen16 y w.1 in
            Some (HashLen16 (x +64 v.2) w.2 +64 y, HashLen16 (x +64 w.2) (y +64 v.2))
        end
    end.

(** The pointer that is passed with length 0 is [NULL]. *)
Definition CityHash128 (m : memory) (s len : Z) : option (Z * Z) :=
  if 16 <=? len then
    CityHash128WithSeed m (s + 16) (len - 16) (Fetch64 m s ^64 k3, Fetch64 m (s + 8))
  else if 8 <=? len then
    CityHash128WithSeed m 0 0 (Fetch64 m s ^64 (len *64 k0), Fetch64 m (s + len - 8) ^64 k1)
  else CityHash128WithSeed m s len (k0, k1).

(** ** Only the bytes of the string are read *)

Lemma bytes_pointwise m m' s s' n :
  bytes m s (Z.to_nat n) = bytes m' s' (Z.to_nat n) -> forall o, 0 <= o < n -> m (s + o) = m' (s' + o).
Proof.
  intros H o Ho. apply (f_equal (fun l => l !! Z.to_nat o)) in H. rewrite !lookup_bytes in H by lia.
  rewrite !Z2Nat.id in H by lia. congruence.
Qed.

Section agree.
Context (m m' : memory) (s s' n : Z).
Hypothesis Hag : forall o, 0 <= o < n -> m (s + o) = m' (s' + o).

Lemma bytes_at o k : 0 <= o -> o + Z.of_nat k <= n -> bytes m (s + o) k = bytes m' (s' + o) k.
Proof. intros H1 H2. apply bytes_ext. intros i Hi. rewrite <- !Z.add_assoc. apply Hag. lia. Qed.

Lemma Fetch64_at o : 0 <= o -> o + 8 <= n -> Fetch64 m (s + o) = Fetch64 m' (s' + o).
Proof. intros. unfold Fetch64. by rewrite bytes_at by lia. Qed.

Lemma Fetch32_at o : 0 <= o -> o + 4 <= n -> Fetch32 m (s + o) = Fetch32 m' (s' + o).
Proof. intros. unfold Fetch32. by rewrite bytes_at by lia. Qed.

Lemma Fetch64_0 : 8 <= n -> Fetch64 m s = Fetch64 m' s'.
Proof. intros. pose proof (Fetch64_at 0 ltac:(lia) ltac:(lia)) as E. by rewrite !Z.add_0_r in E. Qed.

Lemma Fetch32_0 : 4 <= n -> Fetch32 m s = Fetch32 m' s'.
Proof. intros. pose proof (Fetch32_at 0 ltac:(lia) ltac:(lia)) as E. by rewrite !Z.add_0_r in E. Qed.

Lemma HashLen0to16_at : 0 <= n <= 16 -> HashLen0to16 m s n = HashLen0to16 m' s' n.
Proof.
  intros Hn. unfold HashLen0to16. rewrite <- !Z.add_sub_assoc.
  destruct (Z.ltb_spec 8 n); [rewrite Fetch64_0, (Fetch64_at (n - 8)) by lia; done|].
  destruct (Z.leb_spec 4 n); [rewrite Fetch32_0, (Fetch32_at (n - 4)) by lia; done|].
  destruct (Z.ltb_spec 0 n); [|done]. pose proof (Hag 0 ltac:(lia)) as E0. rewrite !Z.add_0_r in E0.
  rewrite E0, (Hag (n - 1)) by lia. rewrite (Hag (Z.shiftr n 1)); [done|].
  rewrite Z.shiftr_div_pow2 by lia. change (2 ^ 1) with 2. dlia.
Qed.

Lemma HashLen17to32_at : 16 < n -> HashLen17to32 m s n = HashLen17to32 m' s' n.
Proof.
  intros Hn. unfold HashLen17to32. rewrite <- !Z.add_sub_assoc.
  by rewrite Fetch64_0, (Fetch64_at 8), (Fetch64_at (n - 8)), (Fetch64_at (n - 16)) by lia.
Qed.

Lemma WeakHashLen32WithSeeds_at o a b :
  0 <= o -> o + 32 <= n -> WeakHashLen32WithSeeds m (s + o) a b = WeakHashLen32WithSeeds m' (s' + o) a b.
Proof.
  intros H1 H2. unfold WeakHashLen32WithSeeds. rewrite <- !Z.add_assoc. by rewrite !Fetch64_at by lia.
Qed.

Lemma HashLen33to64_at : 32 < n -> HashLen33to64 m s n = HashLen33to64 m' s' n.
Proof.
  intros Hn. unfold HashLen33to64. rewrite <- !Z.add_sub_assoc.
  by rewrite Fetch64_0, (Fetch64_at 24), (Fetch64_at (n - 16)), (Fetch64_at 8), (Fetch64_at 16), (Fetch64_at (n - 32)),
    (Fetch64_at (n - 8)), (Fetch64_at (n - 24)) by lia.
Qed.

Lemma round_at o t : 0 <= o -> o + 64 <= n -> round m (s + o) t = round m' (s' + o) t.
Proof.
  intros H1 H2. unfold round. destruct t as [x y z v w]. rewrite <- !Z.add_assoc.
  rewrite (Fetch64_at (o + 16)), (Fetch64_at (o + 48)) by lia.
  rewrite !WeakHashLen32WithSeeds_at by lia. done.
Qed.

(** The loops read the chunks they have been given lengths for and end. *)
Lemma CityHash64_loop_at fuel o len t :
  0 <= o -> 0 < len -> len mod 64 = 0 -> o + len <= n -> n < 2 ^ 64 -> len <= 64 * Z.of_nat fuel ->
  exists t', CityHash64_loop fuel m (s + o) len t = Some t' /\ CityHash64_loop fuel m' (s' + o) len t = Some t'.
Proof.
  intros H1 H2 H3 H4 Hn. revert o len t H1 H2 H3 H4. induction fuel as [|fuel IH]; intros o len t H1 H2 H3 H4 Hf; [lia|].
  cbn [CityHash64_loop]. rewrite round_at by dlia. rewrite (wrap_small 64 (len - 64)) by (unfold fits; dlia).
  destruct (Z.eqb_spec (len - 64) 0); cbn [negb]; [by eauto|]. rewrite <- !Z.add_assoc. apply IH; dlia.
Qed.

Lemma mask_63 : 64 < n < 2 ^ 64 -> Z.land (n -64 1) (u64 (Z.lnot 63)) = (n - 1) / 64 * 64.
Proof.
  intros Hn. rewrite (wrap_small 64 (n - 1)) by (unfold fits; lia). unfold wrap.
  rewrite <- (Z.land_ones (Z.lnot 63) 64) by lia.
  rewrite (Z.land_comm (Z.lnot 63)), Z.land_assoc, Z.land_ones, Z.mod_small by lia.
  change 63 with (Z.ones 6). rewrite <- Z.ldiff_land, Z.ldiff_ones_r by lia.
  rewrite Z.shiftl_mul_pow2, Z.shiftr_div_pow2 by lia. done.
Qed.

Lemma CityHash64_at : 0 <= n < 2 ^ 64 -> exists h, CityHash64 m s n = Some h /\ CityHash64 m' s' n = Some h.
Proof.
  intros Hn. unfold CityHash64.
  destruct (Z.leb_spec n 32); [destruct (Z.leb_spec n 16)|destruct (Z.leb_spec n 64)].
  - rewrite HashLen0to16_at by lia. eauto.
  - rewrite HashLen17to32_at by lia. eauto.
  - rewrite HashLen33to64_at by lia. eauto.
  - rewrite mask_63 by lia. rewrite <- !Z.add_sub_assoc.
    rewrite Fetch64_0, (Fetch64_at (n - 16)), (Fetch64_at (n - 56)), !WeakHashLen32WithSeeds_at by lia. cbn zeta.
    match goal with |- context [CityHash64_loop ?f m s ?l ?t] =>
      destruct (CityHash64_loop_at f 0 l t) as (t' & E1 & E2); try dlia end.
    rewrite Z.add_0_r in E1, E2. rewrite E1, E2. destruct t'. eauto.
Qed.

Lemma CityMurmur_loop_at fuel o l a b c d :
  0 <= o -> 0 < l -> o + 16 + l <= n -> l <= 16 * Z.of_nat fuel ->
  exists r, CityMurmur_loop fuel m (s + o) l a b c d = Some r /\ CityMurmur_loop fuel m' (s' + o) l a b c d = Some r.
Proof.
  revert o l a b c d. induction fuel as [|fuel IH]; intros o l a b c d H1 H2 H3 Hf; [lia|]. cbn [CityMurmur_loop].
  rewrite <- !Z.add_assoc. rewrite !Fetch64_at by lia. destruct (Z.ltb_spec 0 (l - 16)); [|by eauto]. apply IH; lia.
Qed.

Lemma CityMurmur_at seed :
  0 <= n -> exists r, CityMurmur m s n seed = Some r /\ CityMurmur m' s' n seed = Some r.
Proof.
  intros Hn. unfold CityMurmur. destruct (Z.leb_spec (n - 16) 0).
  - rewrite HashLen0to16_at by lia. destruct (Z.leb_spec 8 n); [rewrite Fetch64_0 by lia|]; eauto.
  - rewrite <- !Z.add_sub_assoc. rewrite !Fetch64_at by lia. cbn zeta.
    match goal with |- context [CityMurmur_loop ?f m s ?l ?a ?b ?c ?d] =>
      destruct (CityMurmur_loop_at f 0 l a b c d) as (r & E1 & E2); try dlia end.
    rewrite Z.add_0_r in E1, E2. rewrite E1, E2. destruct r as [[[a b] c] d]. eauto.
Qed.

Lemma CityHash128_loop_at fuel o len t :
  0 <= o -> 128 <= len -> o + len = n -> n < 2 ^ 64 -> len <= 128 * Z.of_nat fuel ->
  exists o' len' t', 128 <= o' /\ 0 <= len' < 128 /\ o' + len' = n /\
    CityHash128_loop fuel m (s + o) len t = Some (s + o', len', t') /\
    CityHash128_loop fuel m' (s' + o) len t = Some (s' + o', len', t').
Proof.
  intros H1 H2 H3 Hn. revert o len t H1 H2 H3. induction fuel as [|fuel IH]; intros o len t H1 H2 H3 Hf; [lia|].
  cbn [CityHash128_loop]. rewrite <- !Z.add_assoc. rewrite !round_at by lia.
  rewrite (wrap_small 64 (len - 128)) by (unfold fits; lia).
  destruct (Z.leb_spec 128 (len - 128)); [apply IH; lia|].
  eexists (o + (64 + 64)), (len - 128), _. split_and!; try done; lia.
Qed.

Lemma CityHash128_tail_at fuel o len td t :
  128 <= o -> 0 <= len < 128 -> o + len = n -> 0 <= td -> td mod 32 = 0 -> 128 <= td + 32 * Z.of_nat fuel ->
  exists t', CityHash128_tail fuel m (s + o) len td t = Some t' /\ CityHash128_tail fuel m' (s' + o) len td t = Some t'.
Proof.
  revert td t. induction fuel as [|fuel IH]; intros td t H1 H2 H3 H4 H5 Hf; cbn [CityHash128_tail];
    destruct (Z.ltb_spec td len); [lia|eauto|..|eauto]. destruct t as [x y z v w].
  rewrite (wrap_small 64 (td + 32)) by (unfold fits; lia).
  replace (s + o + len - (td + 32) + 16) with (s + (o + len - (td + 32) + 16)) by lia.
  replace (s' + o + len - (td + 32) + 16) with (s' + (o + len - (td + 32) + 16)) by lia.
  replace (s + o + len - (td + 32)) with (s + (o + len - (td + 32))) by lia.
  replace (s' + o + len - (td + 32)) with (s' + (o + len - (td + 32))) by lia.
  rewrite Fetch64_at, WeakHashLen32WithSeeds_at by lia. apply IH; lia || dlia.
Qed.

Lemma CityHash128WithSeed_at seed :
  0 <= n < 2 ^ 64 ->
  exists r, CityHash128WithSeed m s n seed = Some r /\ CityHash128WithSeed m' s' n seed = Some r.
Proof.
  intros Hn. unfold CityHash128WithSeed. destruct (Z.ltb_spec n 128); [apply CityMurmur_at; lia|].
  rewrite Fetch64_0, !Fetch64_at by lia. cbn zeta.
  match goal with |- context [CityHash128_loop ?f m s ?l ?t] =>
    destruct (CityHash128_loop_at f 0 l t) as (o & l' & t' & Ho & Hl & El & E1 & E2); try dlia end.
  rewrite Z.add_0_r in E1, E2. rewrite E1, E2. destruct t' as [x y z v w].
  match goal with |- context [CityHash128_tail 4 m _ _ _ ?t] =>
    destruct (CityHash128_tail_at 4 o l' 0 t) as (t' & -> & ->); try done end.
  destruct t'. eauto.
Qed.
End agree.

(** [CityHash128], the checksum of compressed blocks, returns for every
    length and is a function of the bytes of the string: strings with equal
    bytes have equal hashes wherever they lie, so no byte outside is read. *)
Theorem CityHash128_reads_string m s m' s' len :
  0 <= len < 2 ^ 64 -> bytes m s (Z.to_nat len) = bytes m' s' (Z.to_nat len) ->
  exists r, CityHash128 m s len = Some r /\ CityHash128 m' s' len = Some r.
Proof.
  intros Hn Hb. pose proof (bytes_pointwise m m' s s' len Hb) as Hag.
  unfold CityHash128. destruct (Z.leb_spec 16 len); [|destruct (Z.leb_spec 8 len)].
  - rewrite (Fetch64_0 m m' s s' len), (Fetch64_at m m' s s' len) by (done || lia).
    apply CityHash128WithSeed_at; [|lia]. intros o Ho. rewrite <- !Z.add_assoc. apply Hag. lia.
  - rewrite <- !Z.add_sub_assoc.
    rewrite (Fetch64_0 m m' s s' len), (Fetch64_at m m' s s' len Hag (len - 8)) by (done || lia).
    apply CityHash128WithSeed_at; lia.
  - apply CityHash128WithSeed_at; [done|lia].
Qed.

Lemma CityHash128_reads_string_witness :
  exists r, CityHash128 (fun x => x mod 256) 1024 300 = Some r /\ CityHash128 (fun x => x mod 256) 8192 300 = Some r.
Proof.
  apply (CityHash128_reads_string (fun x => x mod 256) 1024 (fun x => x mod 256) 8192 300); [lia|].
  vm_compute. reflexivity.
Defined.
