(* ===== verification/CityHashDevice.v ===== *)
(** * CityHash on the device

    [cudaCityHash64] (Common/Cuda/City_Hash/cudaCityHash.cuh), a port of the
    host's [CityHash64], and the kernel and launcher of
    Common/Cuda/cudaCalcCityHash64.cu.

    Shown: the port computes the host's function on equal bytes, in different
    memories and at different addresses, for every length; and what the kernel
    stores for every row. *)

From stdpp Require Import base list numbers.
From Stdlib Require Import ZArith Lia.
From S2P Require Import Prelude DeviceMemory MurmurHash.
From S2P Require CityHashHost.

#[local] Open Scope Z_scope.
#[local] Open Scope word_scope.

(** ** The port *)

Record uint128 := U128 { first : Z; second : Z }.

Definition k0 : Z := 0xc3a5c85c97cb3127.
Definition k1 : Z := 0xb492b66fbe98f273.
Definition k2 : Z := 0x9ae16a3b2f90404f.
Definition k3 : Z := 0xc949d7c7509e6557.

(** [memcpy] of eight and of four bytes. *)
Definition Fetch64 (m : memory) (p : Z) : Z := le_word (bytes m p 8).
Definition Fetch32 (m : memory) (p : Z) : Z := le_word (bytes m p 4).

Definition Rotate (val shift : Z) : Z :=
  if shift =? 0 then val else (val >>64 shift) |64 (val <<64 (64 - shift)).

Definition RotateByAtLeast1 (val shift : Z) : Z :=
  (val >>64 shift) |64 (val <<64 (64 - shift)).

Definition ShiftMix (val : Z) : Z := val ^64 (val >>64 47).

Definition Hash128to64 (x : uint128) : Z :=
  let kMul := 0x9ddfea08eb382d69 in
  let a := (first x ^64 second x) *64 kMul in
  let a := a ^64 (a >>64 47) in
  let b := (second x ^64 a) *64 kMul in
  let b := b ^64 (b >>64 47) in
  let b := b *64 kMul in
  b.

Definition HashLen16 (u v : Z) : Z := Hash128to64 (U128 u v).

Definition HashLen0to16 (m : memory) (s len : Z) : Z :=
  if 8 <? len then
    let a := Fetch64 m s in
    let s_shifted := s + len - 8 in
    let b := Fetch64 m s_shifted in
    HashLen16 a (RotateByAtLeast1 (b +64 len) len) ^64 b
  else if 4 <=? len then
    let a := Fetch32 m s in
    let p_updated := s + len - 4 in
    let b := Fetch32 m p_updated in
    let c := len +64 (a <<64 3) in
    HashLen16 c b
  else if 0 <? len then
    let a := m s in
    let b := m (s + Z.shiftr len 1) in
    let c := m (s + len - 1) in
    let y := a +32 u32 (Z.shiftl b 8) in
    let z := u32 (len + u32 (Z.shiftl c 2)) in
    ShiftMix ((y *64 k2) ^64 (z *64 k3)) *64 k2
  else k2.

Definition HashLen17to32 (m : memory) (s len : Z) : Z :=
  let a := Fetch64 m s *64 k1 in
  let b := Fetch64 m (s + 8) in
  let c := Fetch64 m (s + len - 8) *64 k2 in
  let d := Fetch64 m (s + len - 16) *64 k0 in
  HashLen16 ((Rotate (a -64 b) 43 +64 Rotate c 30) +64 d)
            (((a +64 Rotate (b ^64 k3) 20) -64 c) +64 len).

Definition WeakHash (w x y z a b : Z) : uint128 :=
  let a := a +64 w in
  let b := Rotate ((b +64 a) +64 z) 21 in
  let c := a in
  let a := a +64 x in
  let a := a +64 y in
  let b := b +64 Rotate a 44 in
  U128 (a +64 z) (b +64 c).

Definition WeakHashLen32WithSeeds (m : memory) (s a b : Z) : uint128 :=
  WeakHash (Fetch64 m s) (Fetch64 m (s + 8)) (Fetch64 m (s + 16)) (Fetch64 m (s + 24)) a b.

Definition HashLen33to64 (m : memory) (s len : Z) : Z :=
  let z := Fetch64 m (s + 24) in
  let a := Fetch64 m s in
  let a_t1 := Fetch64 m (s + len - 16) in
  let a := a +64 ((len +64 a_t1) *64 k0) in
  let b := Rotate (a +64 z) 52 in
  let c := Rotate a 37 in
  let a := a +64 Fetch64 m (s + 8) in
  let c := c +64 Rotate a 7 in
  let a := a +64 Fetch64 m (s + 16) in
  let vf := a +64 z in
  let vs := (b +64 Rotate a 31) +64 c in
  let a := Fetch64 m (s + 16) +64 Fetch64 m (s + len - 32) in
  let z := Fetch64 m (s + len - 8) in
  let b := Rotate (a +64 z) 52 in
  let c := Rotate a 37 in
  let a := a +64 Fetch64 m (s + len - 24) in
  let c := c +64 Rotate a 7 in
  let a := a +64 Fetch64 m (s + len - 16) in
  let wf := a +64 z in
  let ws := (b +64 Rotate a 31) +64 c in
  let r := ShiftMix (((vf +64 ws) *64 k2) +64 ((wf +64 vs) *64 k0)) in
  ShiftMix ((r *64 k0) +64 vs) *64 k2.

Record state := State { st_x : Z; st_y : Z; st_z : Z; st_v : uint128; st_w : uint128 }.

(** The body of the loop; the swap goes through [temp]. *)
Definition round (m : memory) (s : Z) (t : state) : state :=
  let '(State x y z v w) := t in
  let x := Rotate (((x +64 y) +64 first v) +64 Fetch64 m (s + 16)) 37 *64 k1 in
  let y := Rotate ((y +64 second v) +64 Fetch64 m (s + 48)) 42 *64 k1 in
  let x := x ^64 second w in
  let y := y ^64 first v in
  let z := Rotate (z ^64 first w) 33 in
  let v := WeakHashLen32WithSeeds m s (second v *64 k1) (x +64 first w) in
  let w := WeakHashLen32WithSeeds m (s + 32) (z +64 second w) y in
  let temp := x in
  let x := z in
  let z := temp in
  State x y z v w.

Fixpoint cudaCityHash64_loop (fuel : nat) (m : memory) (s len : Z) (t : state) : option state :=
  match fuel with
  | O => None
  | S fuel' =>
      let t := round m s t in
      let len := len -64 64 in
      if negb (len =? 0) then cudaCityHash64_loop fuel' m (s + 64) len t else Some t
  end.

Definition cudaCityHash64 (m : memory) (s len : Z) : option Z :=
  if len <=? 32 then
    if len <=? 16 then Some (HashLen0to16 m s len) else Some (HashLen17to32 m s len)
  else if len <=? 64 then Some (HashLen33to64 m s len)
  else
    let x := Fetch64 m s in
    let y := Fetch64 m (s + len - 16) ^64 k1 in
    let z := Fetch64 m (s + len - 56) ^64 k0 in
    let v := WeakHashLen32WithSeeds m (s + len - 64) len y in
    let w := WeakHashLen32WithSeeds m (s + len - 32) (len *64 k1) k0 in
    let z := z +64 (ShiftMix (second v) *64 k1) in
    let x := Rotate (z +64 x) 39 *64 k1 in
    let y := Rotate y 33 *64 k1 in
    let len := Z.land (len -64 1) (u64 (Z.lnot 63)) in
    match cudaCityHash64_loop (S (Z.to_nat (len / 64))) m s len (State x y z v w) with
    | None => None
    | Some (State x y z v w) =>
        Some (HashLen16 ((HashLen16 (first v) (first w) +64 (ShiftMix y *64 k1)) +64 z)
                        (HashLen16 (second v) (second w) +64 x))
    end.

(** ** The kernel and its launcher *)

Definition kerCalcHash (m : memory) (arr : Z) (begs lens : list Z) (interpret_as_lengths : bool)
    (i : nat) : option Z :=
  match lens !! i, begs !! i with
  | Some len, Some beg =>
      let len := if negb interpret_as_lengths then len -32 1 else len in
      match cudaCityHash64 m (arr + beg) len with
      | Some h => Some (if h =? 0xFFFFFFFFFFFFFFFF then 0 else h)
      | None => None
      end
  | _, _ => None
  end.

Definition cudaCalcCityHash64 (str_num : nat) (m : memory) (buf : Z) (interpret_as_lengths : bool)
    (lens offsets : list Z) : option (list Z) :=
  mapM (kerCalcHash m buf offsets lens interpret_as_lengths) (seq 0 str_num).

(** ** The port against the original *)

(** The states of the two versions. *)
Definition to_pair (x : uint128) : Z * Z := (first x, second x).
Definition to_host (t : state) : CityHashHost.state :=
  CityHashHost.State (st_x t) (st_y t) (st_z t) (to_pair (st_v t)) (to_pair (st_w t)).

(** The helpers that are the same text in both versions. *)
Lemma k0_host : CityHashHost.k0 = k0. Proof. reflexivity. Qed.
Lemma k1_host : CityHashHost.k1 = k1. Proof. reflexivity. Qed.
Lemma k2_host : CityHashHost.k2 = k2. Proof. reflexivity. Qed.
Lemma k3_host : CityHashHost.k3 = k3. Proof. reflexivity. Qed.
Lemma Fetch64_host : CityHashHost.Fetch64 = Fetch64. Proof. reflexivity. Qed.
Lemma Fetch32_host : CityHashHost.Fetch32 = Fetch32. Proof. reflexivity. Qed.
Lemma Rotate_host : CityHashHost.Rotate = Rotate. Proof. reflexivity. Qed.
Lemma RotateByAtLeast1_host : CityHashHost.RotateByAtLeast1 = RotateByAtLeast1. Proof. reflexivity. Qed.
Lemma ShiftMix_host : CityHashHost.ShiftMix = ShiftMix. Proof. reflexivity. Qed.

Ltac same :=
  rewrite ?k0_host, ?k1_host, ?k2_host, ?k3_host, ?Fetch64_host, ?Fetch32_host, ?Rotate_host,
    ?RotateByAtLeast1_host, ?ShiftMix_host.

Lemma HashLen16_host u v : CityHashHost.HashLen16 u v = HashLen16 u v.
Proof.
  unfold CityHashHost.HashLen16, HashLen16, CityHashHost.Hash128to64, Hash128to64. cbn [fst snd first second].
  reflexivity.
Qed.

Lemma HashLen0to16_host m s len : CityHashHost.HashLen0to16 m s len = HashLen0to16 m s len.
Proof.
  unfold CityHashHost.HashLen0to16, HashLen0to16. same. cbv zeta. rewrite !HashLen16_host. reflexivity.
Qed.

Lemma HashLen17to32_host m s len : CityHashHost.HashLen17to32 m s len = HashLen17to32 m s len.
Proof. unfold CityHashHost.HashLen17to32, HashLen17to32. same. cbv zeta. by rewrite HashLen16_host. Qed.

Lemma HashLen33to64_host m s len : CityHashHost.HashLen33to64 m s len = HashLen33to64 m s len.
Proof. unfold CityHashHost.HashLen33to64, HashLen33to64. same. cbv zeta. reflexivity. Qed.

Lemma WeakHash_host m s a b :
  CityHashHost.WeakHashLen32WithSeeds m s a b = to_pair (WeakHashLen32WithSeeds m s a b).
Proof.
  unfold CityHashHost.WeakHashLen32WithSeeds, WeakHashLen32WithSeeds, CityHashHost.WeakHash, WeakHash, to_pair. same.
  cbv zeta. cbn [first second]. reflexivity.
Qed.

Lemma round_host m s t : CityHashHost.round m s (to_host t) = to_host (round m s t).
Proof.
  destruct t as [x y z v w]. unfold to_host at 1. cbn [st_x st_y st_z st_v st_w].
  unfold CityHashHost.round, round, to_host. same. cbv zeta. cbn [st_x st_y st_z st_v st_w].
  rewrite !WeakHash_host. unfold to_pair. cbn [fst snd]. reflexivity.
Qed.

Lemma loop_host fuel m s len t :
  CityHashHost.CityHash64_loop fuel m s len (to_host t) =
  option_map to_host (cudaCityHash64_loop fuel m s len t).
Proof.
  revert s len t. induction fuel as [|fuel IH]; intros s len t; [done|].
  cbn [cudaCityHash64_loop CityHashHost.CityHash64_loop]. rewrite round_host.
  destruct (negb _); [apply IH|done].
Qed.

Lemma cudaCityHash64_host m s len : CityHashHost.CityHash64 m s len = cudaCityHash64 m s len.
Proof.
  unfold cudaCityHash64, CityHashHost.CityHash64. rewrite HashLen0to16_host, HashLen17to32_host, HashLen33to64_host.
  destruct (len <=? 32); [done|]. destruct (len <=? 64); [done|]. same. cbv zeta.
  rewrite !WeakHash_host. unfold to_pair at 1 2. cbn [fst snd].
  match goal with |- _ = match cudaCityHash64_loop ?f m s ?l ?t with _ => _ end =>
    pose proof (loop_host f m s l t) as E end.
  unfold to_host at 1 in E. cbn [st_x st_y st_z st_v st_w] in E. rewrite E. clear E.
  destruct (cudaCityHash64_loop _ _ _ _ _) as [[x y z v w]|]; [|reflexivity].
  cbn [option_map to_host to_pair st_x st_y st_z st_v st_w fst snd]. by rewrite !HashLen16_host.
Qed.

(** C40: The device's CityHash is the host's.  For every length, the port
    returns and gives the value that the host's [CityHash64] computes on a
    string with the same bytes in the host's memory, whatever surrounds the
    two strings. *)
Theorem cudaCityHash64_is_CityHash64 md pd mh ph len :
  0 <= len < 2 ^ 64 -> bytes md pd (Z.to_nat len) = bytes mh ph (Z.to_nat len) ->
  exists h, cudaCityHash64 md pd len = Some h /\ CityHashHost.CityHash64 mh ph len = Some h.
Proof.
  intros Hn Hb. pose proof (CityHashHost.bytes_pointwise _ _ _ _ _ Hb) as Hag.
  destruct (CityHashHost.CityHash64_at md mh pd ph len Hag Hn) as (h & E1 & E2).
  exists h. by rewrite <- cudaCityHash64_host.
Qed.

Lemma cudaCityHash64_is_CityHash64_witness :
  exists h, cudaCityHash64 (fun x => x mod 256) 1024 100 = Some h /\
    CityHashHost.CityHash64 (fun x => (x + 1) mod 256) 8191 100 = Some h.
Proof.
  apply (cudaCityHash64_is_CityHash64 (fun x => x mod 256) 1024 (fun x => (x + 1) mod 256) 8191 100); [lia|].
  vm_compute. reflexivity.
Defined.

Lemma kerCalcHash_city m buf flag lens offsets i :
  row_readable buf flag lens offsets i ->
  exists h, CityHashHost.CityHash64 m (buf + rd offsets (Z.of_nat i)) (hash_len flag (rd lens (Z.of_nat i))) = Some h /\
    kerCalcHash m buf offsets lens flag i = Some (if h =? 2 ^ 64 - 1 then 0 else h).
Proof.
  intros (len & beg & El & Eb & Hl & _ & _). unfold kerCalcHash. rewrite El, Eb.
  rewrite (rd_lookup lens _ len), (rd_lookup offsets _ beg) by (rewrite ?Nat2Z.id; done || lia).
  assert ((if negb flag then len -32 1 else len) = hash_len flag len) as ->.
  { unfold hash_len in *. destruct flag; [done|]. cbn. by apply wrap_small. }
  destruct (CityHashHost.CityHash64_at m m (buf + beg) (buf + beg) (hash_len flag len)) as (h & E & _); [done|lia|].
  exists h. split; [done|]. by rewrite <- cudaCityHash64_host, E.
Qed.

(** [cudaCalcCityHash64] stores for every readable row the host's
    [CityHash64] of the row's bytes, except that the all-ones value is
    replaced by zero. *)
Theorem cudaCalcCityHash64_rows str_num m buf flag lens offsets :
  (forall i, (i < str_num)%nat -> row_readable buf flag lens offsets i) ->
  exists res, cudaCalcCityHash64 str_num m buf flag lens offsets = Some res /\ length res = str_num /\
    forall i, (i < str_num)%nat -> exists h,
      CityHashHost.CityHash64 m (buf + rd offsets (Z.of_nat i)) (hash_len flag (rd lens (Z.of_nat i))) = Some h /\
      res !! i = Some (if h =? 2 ^ 64 - 1 then 0 else h).
Proof.
  intros Hr. unfold cudaCalcCityHash64.
  destruct (mapM (kerCalcHash m buf offsets lens flag) (seq 0 str_num)) as [res|] eqn:E.
  - exists res. apply mapM_Some in E. pose proof (list.Forall2_length _ _ _ E) as L. rewrite length_seq in L.
    split_and!; [done|done|]. intros i Hi. destruct (kerCalcHash_city m buf flag lens offsets i (Hr i Hi)) as (h & E1 & E2).
    exists h. split; [done|]. rewrite <- E2.
    destruct (Forall2_lookup_l _ _ _ i i E) as (x & Hx & Ex); [by apply lookup_seq|]. congruence.
  - exfalso. apply mapM_None in E. apply list.Exists_exists in E as (i & Hi & E). apply elem_of_seq in Hi.
    destruct (kerCalcHash_city m buf flag lens offsets i (Hr i ltac:(lia))) as (h & _ & E2). congruence.
Qed.

Lemma cudaCalcCityHash64_rows_witness :
  exists res, cudaCalcCityHash64 2 (fun x => x mod 256) 1024 false [3; 90] [0; 256] = Some res /\ length res = 2%nat.
Proof.
  destruct (cudaCalcCityHash64_rows 2 (fun x => x mod 256) 1024 false [3; 90] [0; 256]) as (res & E & L & _).
  - intros [|[|i]] Hi; [..|lia]; do 2 eexists; (split; [reflexivity|]); (split; [reflexivity|]); cbn; lia.
  - exists res. split; [exact E|exact L].
Defined.
