(* ===== verification/HyperLogLog.v ===== *)
(** * The GPU distinct counter

    [CudaHyperLogLogWithSmallSetOptimization] with [CudaSmallSet],
    [CudaHyperLogLogCounter] and the byte and halfword atomics of
    Common/Cuda/CudaAtomics.cuh, in the instance that
    [CudaAggregateFunctionUniqHLL12Data] uses: keys of 64 bits, a small set of
    16, precision 12, 32-bit hashes, the stable denominator.

    Many threads insert into one counter at once.  [insert] is modelled at the
    granularity of its accesses to the shared object, as the insertion kernel
    of the hash table is: plain loads may return the value the cell had when
    the kernel was launched, compare-and-swaps and atomic additions see the
    current one.

    Shown for every schedule: each thread returns after a bounded number of
    its own steps, and when all have returned the counter represents exactly
    the set of values that it represented before together with the inserted
    ones, so the result does not depend on the interleaving.  [merge] is shown
    to drop elements of a small set. *)

From stdpp Require Import base list gmap numbers.
From Stdlib Require Import ZArith QArith Lia.
From S2P Require Import Prelude MurmurHash.

#[local] Open Scope Z_scope.
#[local] Open Scope word_scope.

(** ** Atomics on parts of a word: Common/Cuda/CudaAtomics.cuh *)

Definition byte (k w : Z) : Z := (w / 2 ^ (8 * k)) mod 256.

(** [__byte_perm(x, y, s)]: the four low nibbles of [s] select bytes of [y:x];
    the top bit of a nibble replicates the sign. *)
Definition nibble (j s : Z) : Z := Z.land (Z.shiftr s (4 * j)) 15.

Definition perm_byte (x y nib : Z) : Z :=
  let b := if (nib mod 8) <? 4 then byte (nib mod 8) x else byte (nib mod 8 - 4) y in
  if nib <? 8 then b else if 128 <=? b then 255 else 0.

Definition byte_perm (x y s : Z) : Z :=
  perm_byte x y (nibble 0 s) + perm_byte x y (nibble 1 s) * 256 +
  perm_byte x y (nibble 2 s) * 256 ^ 2 + perm_byte x y (nibble 3 s) * 256 ^ 3.

Definition selectors : list Z := [0x3214; 0x3240; 0x3410; 0x4210].

(** [(UInt8)__byte_perm(old, 0, k | 0x4440)], [k] being the byte's number. *)
Definition get_byte (old k : Z) : Z := u8 (byte_perm old 0 (Z.lor k 0x4440)).

(** The new word that [atomicMax<UInt8>] tries to store. *)
Definition max_word (old k val : Z) : Z :=
  byte_perm old (Z.max val (get_byte old k)) (rd selectors k).

(** [atomicSub<UInt16>] on the word that holds the halfword, [hi] telling
    which half it is: the new word and the value returned. *)
Definition atomicSub16 (word : Z) (hi : bool) (val : Z) : Z * Z :=
  let long_val := if hi then u32 (Z.shiftl val 16) else val in
  let long_old := word in
  (long_old -32 long_val, if hi then u16 (Z.shiftr long_old 16) else u16 (Z.land long_old 0xffff)).

(** ** The counter's hash values: CudaHyperLogLogCounter.h *)

Definition precision : Z := 12.
Definition bucket_count : Z := 2 ^ precision.
Definition max_rank : Z := 32 - precision + 1.

Definition extractBitSequence (val begin_ end_ : Z) : Z :=
  u32 (Z.land (Z.shiftr val begin_) (u64 (Z.shiftl 1 (end_ - begin_)) - 1)).

(** [__ffs]: one more than the number of trailing zeros. *)
Fixpoint ffs_pos (p : positive) : Z :=
  match p with
  | xO p' => 1 + ffs_pos p'
  | _ => 1
  end.

Definition ffs (v : Z) : Z := match v with Zpos p => ffs_pos p | _ => 0 end.

Definition calculateRank (val : Z) : Z :=
  if val =? 0 then max_rank
  else
    let zeros_plus_one := ffs val - 1 + 1 in
    if max_rank <? zeros_plus_one then max_rank else zeros_plus_one.

Definition getHash (key : Z) : Z := cudaIntHash32 0 key.

(** The two parts of the hash of a value in [insert]. *)
Definition bucket_of (value : Z) : Z := extractBitSequence (getHash value) 0 precision.
Definition rank_of (value : Z) : Z := calculateRank (extractBitSequence (getHash value) precision 32).

(** ** The object *)

Definition capacity : nat := 16.

(** [is_large], the small set, and the three fields of the large counter: the
    rank store as the words the atomics work on, the numbers of buckets with
    each rank, and the word whose low half is [zeros]. *)
Record uniq := Uniq {
  is_large : bool;
  has_zero_elem : bool;
  buf : list Z;
  rank_words : list Z;
  rank_count : list Z;
  zeros_word : Z
}.

(** The rank of a bucket. *)
Definition rank (U : uniq) (b : Z) : Z := byte (b mod 4) (rd (rank_words U) (b / 4)).
Definition zeros (U : uniq) : Z := zeros_word U mod 2 ^ 16.

Definition set_words (U : uniq) (ws : list Z) : uniq :=
  Uniq (is_large U) (has_zero_elem U) (buf U) ws (rank_count U) (zeros_word U).
Definition set_count (U : uniq) (c : list Z) : uniq :=
  Uniq (is_large U) (has_zero_elem U) (buf U) (rank_words U) c (zeros_word U).
Definition set_buf (U : uniq) (l : list Z) : uniq :=
  Uniq (is_large U) (has_zero_elem U) l (rank_words U) (rank_count U) (zeros_word U).

(** [initNonzeroData] after the [cudaMemset] of the place to zero. *)
Definition initNonzeroData (U : uniq) : uniq :=
  Uniq false false (buf U) (rank_words U) (wr (rank_count U) 0 bucket_count)
    (zeros_word U - zeros U + bucket_count).

Definition uniq_memset : uniq :=
  Uniq false false (replicate capacity 0) (replicate 1024 0) (replicate 22 0) 0.

Definition uniq_init : uniq := initNonzeroData uniq_memset.

(** ** [insert] by many threads *)

(** Where a thread of [kerCudaAddBulk] is: in [atomicMax] (before the load of
    the word, before the compare-and-swap), in [update] and the denominator
    after it, at the test of [is_large], in [tryInsert], before the store of
    [is_large], finished. *)
Inductive pc :=
| PLoad
| PCas (old : Z)
| PZeros (old_rank : Z)
| PDecr (old_rank : Z)
| PIncr
| PIsLarge
| PZeroElem
| PSmall (i : nat)
| PSmallCas (i : nat)
| PSetLarge
| PDone.

Record thread := Thread { t_val : Z; t_pc : pc }.

Record grid := Grid { place : uniq; threads : list thread }.

(** After [atomicMax] has returned [old_rank]. *)
Definition after_max (v old_rank : Z) : pc :=
  if old_rank <? rank_of v then
    if old_rank =? 0 then PZeros old_rank else PDecr old_rank
  else PIsLarge.

(** One step of a thread with value [v]: the object and the next position.
    [U0] is the object at the launch, which stale loads see. *)
Definition insert_step (U0 : uniq) (stale : bool) (v : Z) (p : pc) (U : uniq) : uniq * pc :=
  let b := bucket_of v in
  let r := rank_of v in
  let L := if stale then U0 else U in
  match p with
  | PLoad => (U, PCas (rd (rank_words L) (b / 4)))
  | PCas old =>
      let new := max_word old (b mod 4) r in
      if new =? old then (U, after_max v (get_byte old (b mod 4)))
      else
        let cur := rd (rank_words U) (b / 4) in
        if cur =? old then
          (set_words U (wr (rank_words U) (b / 4) new), after_max v (get_byte old (b mod 4)))
        else (U, PCas cur)
  | PZeros old_rank =>
      (Uniq (is_large U) (has_zero_elem U) (buf U) (rank_words U) (rank_count U)
         (atomicSub16 (zeros_word U) false 1).1, PDecr old_rank)
  | PDecr old_rank =>
      (set_count U (wr (rank_count U) old_rank (rd (rank_count U) old_rank -32 1)), PIncr)
  | PIncr => (set_count U (wr (rank_count U) r (rd (rank_count U) r +32 1)), PIsLarge)
  | PIsLarge => if is_large L then (U, PDone) else if v =? 0 then (U, PZeroElem) else (U, PSmall 0)
  | PZeroElem =>
      (Uniq (is_large U) true (buf U) (rank_words U) (rank_count U) (zeros_word U), PDone)
  | PSmall i =>
      if (i <? capacity)%nat then
        let x := rd (buf L) (Z.of_nat i) in
        if x =? v then (U, PDone)
        else if x =? 0 then (U, PSmallCas i) else (U, PSmall (S i))
      else (U, PSetLarge)
  | PSmallCas i =>
      let old := rd (buf U) (Z.of_nat i) in
      let U' := if old =? 0 then set_buf U (wr (buf U) (Z.of_nat i) v) else U in
      if (old =? 0) || (old =? v) then (U', PDone) else (U', PSmall (S i))
  | PSetLarge =>
      (Uniq true (has_zero_elem U) (buf U) (rank_words U) (rank_count U) (zeros_word U), PDone)
  | PDone => (U, PDone)
  end.

Definition done (t : thread) : bool := match t_pc t with PDone => true | _ => false end.

Definition grid_step (U0 : uniq) (stale : bool) (i : nat) (g : grid) : grid :=
  match threads g !! i with
  | None => g
  | Some t =>
      if done t then g
      else
        let '(U, p) := insert_step U0 stale (t_val t) (t_pc t) (place g) in
        Grid U (<[i := Thread (t_val t) p]> (threads g))
  end.

Fixpoint run (U0 : uniq) (s : schedule) (g : grid) : grid :=
  match s with
  | [] => g
  | (i, stale) :: s' => run U0 s' (grid_step U0 stale i g)
  end.

(** The threads of [kerCudaAddBulk] whose row belongs to this place. *)
Definition launch (U : uniq) (values : list Z) : grid :=
  Grid U (map (fun v => Thread v PLoad) values).

Definition all_done (g : grid) : bool := forallb done (threads g).

(** ** [insert] and [merge] by one thread, and the sizes *)

(** [insert] as a single thread runs it. *)
Definition insert (U : uniq) (value : Z) : uniq :=
  place (run U (replicate 1060 (0%nat, false)) (launch U [value])).

(** [CudaHyperLogLogCounter::update] by a single thread. *)
Definition update (U : uniq) (bucket r : Z) : uniq :=
  let w := rd (rank_words U) (bucket / 4) in
  let old_rank := get_byte w (bucket mod 4) in
  let U1 := set_words U (wr (rank_words U) (bucket / 4) (max_word w (bucket mod 4) r)) in
  if old_rank <? r then
    let U2 :=
      if old_rank =? 0 then
        Uniq (is_large U1) (has_zero_elem U1) (buf U1) (rank_words U1) (rank_count U1)
          (atomicSub16 (zeros_word U1) false 1).1
      else U1 in
    let U3 := set_count U2 (wr (rank_count U2) old_rank (rd (rank_count U2) old_rank -32 1)) in
    set_count U3 (wr (rank_count U3) r (rd (rank_count U3) r +32 1))
  else U1.

(** [CudaHyperLogLogCounter::merge]. *)
Definition merge_large (U R : uniq) : uniq :=
  fold_left (fun U bucket => update U bucket (rank R bucket)) (seqZ 0 bucket_count) U.

(** The number of used cells. *)
Fixpoint used (l : list Z) : nat :=
  match l with
  | [] => 0
  | x :: l' => if x =? 0 then 0 else S (used l')
  end.

(** [CudaSmallSet::size], [CudaSmallSet::sizeWithoutZeroElem]: the latter
    returns its count as a [bool]. *)
Definition small_size (U : uniq) : Z := u8 (Z.of_nat (used (buf U)) + if has_zero_elem U then 1 else 0).
Definition sizeWithoutZeroElem (U : uniq) : bool := negb (Nat.eqb (used (buf U)) 0).

(** [CudaHyperLogLogWithSmallSetOptimization::merge]; the loop compares its
    index with the [bool]. *)
Definition merge (U R : uniq) : uniq :=
  if is_large R then
    merge_large (Uniq true (has_zero_elem U) (buf U) (rank_words U) (rank_count U) (zeros_word U)) R
  else
    let U1 := fold_left (fun U i => insert U (rd (buf R) i)) (seqZ 0 (Z.b2z (sizeWithoutZeroElem R))) U in
    if has_zero_elem R then insert U1 0 else U1.

(** [Denominator::get]: Horner's rule on the rank counts, from the last. *)
Fixpoint horner (counts : list Z) : Q :=
  match counts with
  | [] => 0%Q
  | [c] => inject_Z c
  | c :: counts' => (horner counts' / 2 + inject_Z c)%Q
  end.

Definition denominator_get (U : uniq) : Q := horner (rank_count U).

(** ** Bytes of words *)

Definition set_byte (k v w : Z) : Z := w + (v - byte k w) * 2 ^ (8 * k).

Lemma byte_range k w : 0 <= byte k w < 256.
Proof. apply Z.mod_pos_bound. lia. Qed.

Lemma word_bytes w :
  fits 32 w -> w = byte 0 w + byte 1 w * 256 + byte 2 w * 256 ^ 2 + byte 3 w * 256 ^ 3.
Proof.
  unfold fits, byte. change (8 * 0) with 0. change (8 * 1) with 8. change (8 * 2) with 16. change (8 * 3) with 24.
  change (2 ^ 0) with 1. change (2 ^ 8) with 256. change (2 ^ 16) with 65536. change (2 ^ 24) with 16777216.
  change (2 ^ 32) with 4294967296. change (256 ^ 2) with 65536. change (256 ^ 3) with 16777216. intros. dlia.
Qed.

(** The four positions. *)
Ltac each_byte k :=
  let D := fresh in assert (k = 0 \/ k = 1 \/ k = 2 \/ k = 3) as D by lia;
  destruct D as [->|[->|[->| ->]]].

Lemma byte_of_parts a b c d k :
  0 <= a < 256 -> 0 <= b < 256 -> 0 <= c < 256 -> 0 <= d < 256 -> 0 <= k < 4 ->
  byte k (a + b * 256 + c * 256 ^ 2 + d * 256 ^ 3) =
  if k =? 0 then a else if k =? 1 then b else if k =? 2 then c else d.
Proof.
  intros. unfold byte. change (256 ^ 2) with 65536. change (256 ^ 3) with 16777216.
  each_byte k; cbn [Z.eqb Z.mul Pos.mul]; cbn; dlia.
Qed.

Lemma perm_byte_x x y : 
  perm_byte x y 0 = byte 0 x /\ perm_byte x y 1 = byte 1 x /\ perm_byte x y 2 = byte 2 x /\
  perm_byte x y 3 = byte 3 x /\ perm_byte x y 4 = byte 0 y.
Proof. done. Qed.

Lemma get_byte_spec w k : fits 32 w -> 0 <= k < 4 -> get_byte w k = byte k w.
Proof.
  intros Hw Hk. unfold get_byte, byte_perm. destruct (perm_byte_x w 0) as (E0 & E1 & E2 & E3 & E4).
  change (byte 0 0) with 0 in E4.
  each_byte k; [change (nibble 0 _) with 0|change (nibble 0 _) with 1|change (nibble 0 _) with 2|change (nibble 0 _) with 3];
    change (nibble 1 _) with 4; change (nibble 2 _) with 4; change (nibble 3 _) with 4;
    rewrite ?E0, ?E1, ?E2, ?E3, E4, !Z.mul_0_l, !Z.add_0_r; apply wrap_small, byte_range.
Qed.

Lemma byte_small v : 0 <= v < 256 -> byte 0 v = v.
Proof. intros. unfold byte. change (2 ^ (8 * 0)) with 1. rewrite Z.div_1_r. by apply Z.mod_small. Qed.

Lemma byte_perm_set w v k :
  fits 32 w -> 0 <= v < 256 -> 0 <= k < 4 -> byte_perm w v (rd selectors k) = set_byte k v w.
Proof.
  intros Hw Hv Hk. pose proof (word_bytes w Hw) as E. unfold byte_perm, set_byte.
  destruct (perm_byte_x w v) as (E0 & E1 & E2 & E3 & E4). rewrite byte_small in E4 by lia.
  change (256 ^ 2) with (2 ^ (8 * 2)) in *. change (256 ^ 3) with (2 ^ (8 * 3)) in *. change 256 with (2 ^ (8 * 1)) in E |- *.
  each_byte k;
    [change (nibble 0 _) with 4; change (nibble 1 _) with 1; change (nibble 2 _) with 2; change (nibble 3 _) with 3
    |change (nibble 0 _) with 0; change (nibble 1 _) with 4; change (nibble 2 _) with 2; change (nibble 3 _) with 3
    |change (nibble 0 _) with 0; change (nibble 1 _) with 1; change (nibble 2 _) with 4; change (nibble 3 _) with 3
    |change (nibble 0 _) with 0; change (nibble 1 _) with 1; change (nibble 2 _) with 2; change (nibble 3 _) with 4];
    rewrite ?E0, ?E1, ?E2, ?E3, E4; change (2 ^ (8 * 0)) with 1; lia.
Qed.

Lemma set_byte_spec w v k j :
  fits 32 w -> 0 <= v < 256 -> 0 <= k < 4 -> 0 <= j < 4 ->
  fits 32 (set_byte k v w) /\ byte j (set_byte k v w) = if j =? k then v else byte j w.
Proof.
  intros Hw Hv Hk Hj. pose proof (word_bytes w Hw) as E.
  pose proof (byte_range 0 w). pose proof (byte_range 1 w). pose proof (byte_range 2 w). pose proof (byte_range 3 w).
  set (p (i : Z) := if i =? k then v else byte i w).
  assert (set_byte k v w = p 0 + p 1 * 256 + p 2 * 256 ^ 2 + p 3 * 256 ^ 3) as ->.
  { unfold set_byte, p. each_byte k; cbn -[byte Z.pow]; change (2 ^ 0) with 1; change (2 ^ 8) with 256;
      change (2 ^ 16) with (256 ^ 2); change (2 ^ 24) with (256 ^ 3); lia. }
  assert (forall i, 0 <= i < 4 -> 0 <= p i < 256) as Hp.
  { intros i Hi. unfold p. destruct (i =? k); [lia|]. apply byte_range. }
  pose proof (Hp 0 ltac:(lia)). pose proof (Hp 1 ltac:(lia)). pose proof (Hp 2 ltac:(lia)). pose proof (Hp 3 ltac:(lia)).
  split.
  - unfold fits. change (2 ^ 32) with 4294967296. change (256 ^ 2) with 65536. change (256 ^ 3) with 16777216. lia.
  - rewrite byte_of_parts by lia. unfold p. each_byte j; done.
Qed.

(** [atomicMax]'s new word: the byte raised to the maximum, the rest kept. *)
Lemma max_word_spec w k v :
  fits 32 w -> 0 <= v < 256 -> 0 <= k < 4 -> max_word w k v = set_byte k (Z.max v (byte k w)) w.
Proof.
  intros Hw Hv Hk. unfold max_word. rewrite get_byte_spec by done. pose proof (byte_range k w).
  apply byte_perm_set; [done|lia|done].
Qed.


Lemma max_word_same w k v :
  fits 32 w -> 0 <= v < 256 -> 0 <= k < 4 -> max_word w k v = w <-> v <= byte k w.
Proof.
  intros Hw Hv Hk. rewrite max_word_spec by done. unfold set_byte.
  pose proof (Z.pow_pos_nonneg 2 (8 * k) ltac:(lia) ltac:(lia)). split; intros; nia.
Qed.

(** The sum of a word's bytes, which every change of a word raises. *)
Definition byte_sum (w : Z) : Z := byte 0 w + byte 1 w + byte 2 w + byte 3 w.

Lemma byte_sum_range w : 0 <= byte_sum w <= 1020.
Proof. unfold byte_sum. pose proof (byte_range 0 w). pose proof (byte_range 1 w).
  pose proof (byte_range 2 w). pose proof (byte_range 3 w). lia. Qed.

(** ** Hash values *)

Lemma bucket_of_range v : 0 <= bucket_of v < 4096.
Proof.
  unfold bucket_of, extractBitSequence, precision. rewrite Z.shiftr_0_r.
  change (u64 (Z.shiftl 1 (12 - 0)) - 1) with (Z.ones 12). rewrite Z.land_ones by lia.
  change (2 ^ 12) with 4096. pose proof (Z.mod_pos_bound (getHash v) 4096 ltac:(lia)).
  rewrite wrap_small by (unfold fits; lia). lia.
Qed.

Lemma ffs_pos_ge p : 1 <= ffs_pos p.
Proof. induction p; cbn [ffs_pos]; lia. Qed.

Lemma rank_of_range v : 1 <= rank_of v <= 21.
Proof.
  unfold rank_of, calculateRank. change max_rank with 21. set (x := extractBitSequence _ _ _).
  assert (0 <= x) by (apply (wrap_fits 32); lia).
  destruct (Z.eqb_spec x 0); [lia|]. destruct (Z.ltb_spec 21 (ffs x - 1 + 1)); [lia|].
  destruct x as [|p|p]; [lia| |lia]. cbn [ffs] in *. pose proof (ffs_pos_ge p). lia.
Qed.

(** ** What a counter represents *)

(** The number of buckets with rank [r]. *)
Definition cnt (U : uniq) (r : Z) : Z :=
  zsum (map (fun b => if rank U b =? r then 1 else 0) (seqZ 0 4096)).

Definition cell (U : uniq) (i : nat) : Z := rd (buf U) (Z.of_nat i).

Definition in_small (U : uniq) (v : Z) : Prop :=
  v = 0 /\ has_zero_elem U = true \/ v <> 0 /\ exists i, (i < capacity)%nat /\ cell U i = v.

(** Sizes of the arrays and ranges of their elements; the used cells of the
    small set are a prefix without repetitions. *)
Record shape (U : uniq) : Prop := {
  sh_buf : length (buf U) = capacity;
  sh_words : length (rank_words U) = 1024%nat;
  sh_fits : Forall (fits 32) (rank_words U);
  sh_count : length (rank_count U) = 22%nat;
  sh_cfits : Forall (fits 32) (rank_count U);
  sh_zeros : fits 32 (zeros_word U);
  sh_prefix : forall i j, (i < j < capacity)%nat -> cell U j <> 0 -> cell U i <> 0 /\ cell U i <> cell U j
}.

Definition nonzero (V : gset Z) : gset Z := V ∖ {[0]}.

(** The counter after the values [V] have been inserted. *)
Record repr (U : uniq) (V : gset Z) : Prop := {
  rp_shape : shape U;
  rp_rank : forall b, 0 <= b < 4096 ->
    (forall v, v ∈ V -> bucket_of v = b -> rank_of v <= rank U b) /\
    (rank U b = 0 \/ exists v, v ∈ V /\ bucket_of v = b /\ rank_of v = rank U b);
  rp_zeros : zeros U = cnt U 0;
  rp_count : forall r, 0 <= r < 22 -> rd (rank_count U) r = cnt U r;
  rp_sub : forall v, in_small U v -> v ∈ V;
  rp_small : is_large U = false -> forall v, v ∈ V -> in_small U v;
  rp_large : is_large U = true -> (capacity < size (nonzero V))%nat
}.

Lemma nonzero_size (V W : gset Z) : V ⊆ W -> (size (nonzero V) <= size (nonzero W))%nat.
Proof. intros H. apply subseteq_size. unfold nonzero. set_solver. Qed.

Lemma cnt_range U r : 0 <= cnt U r <= 4096.
Proof.
  unfold cnt. split; [apply zsum_map_nonneg; intros b; destruct (_ =? r); lia|].
  assert (forall l : list Z, zsum (map (fun b => if rank U b =? r then 1 else 0) l) <= Z.of_nat (length l)) as H.
  { induction l as [|b l IH]; [done|]. cbn [map zsum length]. destruct (_ =? r); lia. }
  specialize (H (seqZ 0 4096)). rewrite length_seqZ in H. lia.
Qed.

(** ** Changing the rank of one bucket *)

Lemma word_fits U b : shape U -> 0 <= b < 4096 -> fits 32 (rd (rank_words U) (b / 4)).
Proof.
  intros [_ L F _ _ _ _] Hb. destruct (lookup_lt_is_Some_2 (rank_words U) (Z.to_nat (b / 4))) as [w Hw]; [dlia|].
  rewrite (rd_lookup _ _ w) by (done || dlia). rewrite Forall_lookup in F. eauto.
Qed.

Lemma rank_range U b : 0 <= rank U b < 256.
Proof. apply byte_range. Qed.

Definition raise (U : uniq) (b v : Z) : uniq :=
  set_words U (wr (rank_words U) (b / 4) (set_byte (b mod 4) v (rd (rank_words U) (b / 4)))).

Lemma rank_raise U b v b' :
  shape U -> 0 <= b < 4096 -> 0 <= b' < 4096 -> 0 <= v < 256 ->
  rank (raise U b v) b' = if b' =? b then v else rank U b'.
Proof.
  intros S Hb Hb' Hv. pose proof (word_fits U b S Hb) as Hw. destruct S as [_ L _ _ _ _ _].
  unfold rank, raise. cbn [rank_words set_words]. destruct (decide (b' / 4 = b / 4)) as [E|E].
  - rewrite E, rd_wr_eq by dlia.
    destruct (set_byte_spec (rd (rank_words U) (b / 4)) v (b mod 4) (b' mod 4) Hw Hv ltac:(dlia) ltac:(dlia)) as [_ ->].
    destruct (Z.eqb_spec (b' mod 4) (b mod 4)), (Z.eqb_spec b' b); done || dlia.
  - rewrite rd_wr_ne by dlia. destruct (Z.eqb_spec b' b); [subst; done|done].
Qed.

Lemma raise_shape U b v : shape U -> 0 <= b < 4096 -> 0 <= v < 256 -> shape (raise U b v).
Proof.
  intros S Hb Hv. pose proof (word_fits U b S Hb) as Hw. destruct S as [S1 S2 S3 S4 S5 S6 S7].
  split; cbn; auto; [by rewrite length_wr|]. unfold wr. apply Forall_insert; [done|].
  apply (set_byte_spec _ v (b mod 4) 0 Hw Hv); dlia.
Qed.

Lemma cnt_raise U b v r :
  shape U -> 0 <= b < 4096 -> 0 <= v < 256 ->
  cnt (raise U b v) r = cnt U r - (if rank U b =? r then 1 else 0) + (if v =? r then 1 else 0).
Proof.
  intros S Hb Hv. unfold cnt.
  assert (map (fun b' => if rank (raise U b v) b' =? r then 1 else 0) (seqZ 0 4096) =
    map (fun b' => if (if b' =? b then v else rank U b') =? r then 1 else 0) (seqZ 0 4096)) as ->.
  { apply map_ext_in. intros b' Hb'. apply list_elem_of_In, elem_of_seqZ in Hb'. by rewrite rank_raise by (done || lia). }
  rewrite (zsum_point (fun b' => if rank U b' =? r then 1 else 0) _ (seqZ 0 4096) b).
  - by rewrite Z.eqb_refl.
  - apply NoDup_seqZ.
  - apply elem_of_seqZ. lia.
  - intros y Hy. by destruct (Z.eqb_spec y b).
Qed.

(** Words whose bytes have only grown. *)
Definition word_le (w w' : Z) : Prop := forall k, 0 <= k < 4 -> byte k w <= byte k w'.

Lemma word_le_raise U b v b' :
  shape U -> 0 <= b < 4096 -> rank U b <= v < 256 -> 0 <= b' < 4096 ->
  word_le (rd (rank_words U) (b' / 4)) (rd (rank_words (raise U b v)) (b' / 4)).
Proof.
  intros S Hb Hv Hb' k Hk. pose proof (rank_raise U b v (b' / 4 * 4 + k) S Hb ltac:(dlia) ltac:(pose proof (rank_range U b); lia)) as E.
  unfold rank in E at 1 2. replace ((b' / 4 * 4 + k) mod 4) with k in E by dlia.
  replace ((b' / 4 * 4 + k) / 4) with (b' / 4) in E by dlia. rewrite E.
  destruct (Z.eqb_spec (b' / 4 * 4 + k) b) as [Eb|]; [|lia]. rewrite <- Eb in Hv. unfold rank in Hv.
  replace ((b' / 4 * 4 + k) mod 4) with k in Hv by dlia. replace ((b' / 4 * 4 + k) / 4) with (b' / 4) in Hv by dlia. lia.
Qed.

(** ** Growth of the object *)

Record uniq_le (U U' : uniq) : Prop := {
  le_words : forall b, 0 <= b < 4096 -> word_le (rd (rank_words U) (b / 4)) (rd (rank_words U') (b / 4));
  le_cells : forall i, (i < capacity)%nat -> cell U i <> 0 -> cell U' i = cell U i;
  le_large : is_large U = true -> is_large U' = true;
  le_zero : has_zero_elem U = true -> has_zero_elem U' = true
}.

#[export] Instance uniq_le_preorder : PreOrder uniq_le.
Proof.
  split.
  - intros U. split; try done. by intros b Hb k Hk.
  - intros U1 U2 U3 [A1 A2 A3 A4] [B1 B2 B3 B4]. split; auto.
    + intros b Hb k Hk. specialize (A1 b Hb k Hk). specialize (B1 b Hb k Hk). lia.
    + intros i Hi Hc. rewrite <- (A2 i Hi Hc). apply B2; [done|]. by rewrite A2.
Qed.

Lemma rank_le U U' b : uniq_le U U' -> 0 <= b < 4096 -> rank U b <= rank U' b.
Proof. intros H Hb. apply H; [done|]. dlia. Qed.

Lemma in_small_le U U' v : uniq_le U U' -> in_small U v -> in_small U' v.
Proof.
  intros H [[-> Hz]|[Hv (i & Hi & E)]]; [left; split; [done|by apply H]|right]. split; [done|]. exists i. split; [done|].
  rewrite <- E. apply H; [done|]. by rewrite E.
Qed.

(** ** Invariants of a thread *)

Definition passed (U : uniq) (v : Z) : Prop := rank_of v <= rank U (bucket_of v).

Definition scanned (U : uniq) (v : Z) (i : nat) : Prop :=
  v <> 0 /\ forall j, (j < i)%nat -> cell U j <> 0 /\ cell U j <> v.

Definition tinv (U : uniq) (t : thread) : Prop :=
  let v := t_val t in
  match t_pc t with
  | PLoad => True
  | PCas old => fits 32 old /\ word_le old (rd (rank_words U) (bucket_of v / 4))
  | PZeros o => o = 0 /\ passed U v
  | PDecr o => 0 <= o < rank_of v /\ passed U v
  | PIncr | PIsLarge => passed U v
  | PZeroElem => v = 0 /\ passed U v
  | PSmall i => (scanned U v i /\ (i <= capacity)%nat) /\ passed U v
  | PSmallCas i => (scanned U v i /\ (i < capacity)%nat) /\ passed U v
  | PSetLarge => scanned U v capacity /\ passed U v
  | PDone => (is_large U = true \/ in_small U v) /\ passed U v
  end.

Lemma passed_le U U' v : uniq_le U U' -> passed U v -> passed U' v.
Proof. intros H Hp. pose proof (rank_le U U' _ H (bucket_of_range v)). unfold passed in *. lia. Qed.

Lemma scanned_le U U' v i : uniq_le U U' -> (i <= capacity)%nat -> scanned U v i -> scanned U' v i.
Proof.
  intros H Hi [Hv Hs]. split; [done|]. intros j Hj. destruct (Hs j Hj) as [H1 H2].
  rewrite (le_cells _ _ H j) by (done || lia). done.
Qed.

Lemma tinv_le U U' t : uniq_le U U' -> tinv U t -> tinv U' t.
Proof.
  intros H. pose proof (passed_le U U' (t_val t) H) as Hp. unfold tinv. destruct (t_pc t) as [|old|o|o| | | |i|i| |]; try done; try tauto.
  - intros [Hf Hw]. split; [done|]. intros k Hk. specialize (Hw k Hk).
    pose proof (le_words _ _ H _ (bucket_of_range (t_val t)) k Hk). lia.
  - intros [[? ?] ?]. split; [|tauto]. split; [|done]. by apply (scanned_le U).
  - intros [[? ?] ?]. split; [|tauto]. split; [|done]. apply (scanned_le U); [done|lia|done].
  - intros [? ?]. split; [|tauto]. by apply (scanned_le U).
  - intros [[Hl|Hs] ?]; (split; [|tauto]); [left; by apply H|right; by apply (in_small_le U)].
Qed.

(** The changes of the counters that a thread still has to make. *)
Definition pend_zero (t : thread) : Z := match t_pc t with PZeros _ => 1 | _ => 0 end.

Definition pend_count (r : Z) (t : thread) : Z :=
  match t_pc t with
  | PZeros o | PDecr o => (if o =? r then 1 else 0) - (if rank_of (t_val t) =? r then 1 else 0)
  | PIncr => - (if rank_of (t_val t) =? r then 1 else 0)
  | _ => 0
  end.

(** What a step of a thread may do to the object. *)
Record ok_step (v : Z) (U : uniq) (p : pc) (U' : uniq) (p' : pc) : Prop := {
  ok_shape : shape U';
  ok_le : uniq_le U U';
  ok_tinv : tinv U' (Thread v p');
  ok_rank : forall b, 0 <= b < 4096 -> rank U' b = rank U b \/ bucket_of v = b /\ rank U' b = rank_of v;
  ok_zeros : zeros U' - cnt U' 0 - pend_zero (Thread v p') = zeros U - cnt U 0 - pend_zero (Thread v p);
  ok_count : forall r, 0 <= r < 22 ->
    u32 (rd (rank_count U') r - cnt U' r - pend_count r (Thread v p')) =
    u32 (rd (rank_count U) r - cnt U r - pend_count r (Thread v p));
  ok_small : forall w, in_small U' w -> in_small U w \/ w = v;
  ok_large : is_large U' = true -> is_large U = true \/ scanned U v capacity
}.

Lemma ok_same v U p p' :
  shape U -> tinv U (Thread v p') -> pend_zero (Thread v p') = pend_zero (Thread v p) ->
  (forall r, pend_count r (Thread v p') = pend_count r (Thread v p)) -> ok_step v U p U p'.
Proof.
  intros S T Z C. split; auto; [done|by rewrite Z|]. intros. by rewrite C.
Qed.

(** Steps that leave the ranks alone. *)
Lemma rank_words_same U U' : rank_words U' = rank_words U -> (forall b, rank U' b = rank U b) /\ (forall r, cnt U' r = cnt U r).
Proof. intros E. assert (forall b, rank U' b = rank U b) as R by (intros; unfold rank; by rewrite E).
  split; [done|]. intros. unfold cnt. f_equal. apply map_ext. intros. by rewrite R. Qed.

Lemma uniq_le_same U U' :
  rank_words U' = rank_words U -> buf U' = buf U -> (is_large U = true -> is_large U' = true) ->
  (has_zero_elem U = true -> has_zero_elem U' = true) -> uniq_le U U'.
Proof. intros E1 E2 E3 E4. split; auto; [intros b Hb k Hk; rewrite E1; lia|]. intros. unfold cell. by rewrite E2. Qed.

#[local] Opaque cnt bucket_of rank_of.

Lemma passed_same U U' v : rank_words U' = rank_words U -> passed U v -> passed U' v.
Proof. intros E. unfold passed, rank. by rewrite E. Qed.

(** *** The steps of [atomicMax] *)

Lemma ok_load v (U0 : uniq) (stale : bool) (U : uniq) :
  shape U -> shape U0 -> uniq_le U0 U ->
  ok_step v U PLoad U (PCas (rd (rank_words (if stale then U0 else U)) (bucket_of v / 4))).
Proof.
  intros S S0 H. apply ok_same; try done. pose proof (bucket_of_range v). split.
  - destruct stale; by apply word_fits.
  - destruct stale; cbn; [by apply H|]. intros k Hk. lia.
Qed.

Lemma after_max_passed v U o : shape U -> rank_of v <= o -> passed U v -> ok_step v U (PCas o) U (after_max v o).
Proof.
  intros S Ho Hp. unfold after_max. destruct (Z.ltb_spec o (rank_of v)); [lia|]. by apply ok_same.
Qed.

Lemma ok_pc v U p q U' p' :
  ok_step v U p U' p' -> pend_zero (Thread v q) = pend_zero (Thread v p) ->
  (forall r, pend_count r (Thread v q) = pend_count r (Thread v p)) -> ok_step v U q U' p'.
Proof. intros [] Z C. split; auto; [by rewrite Z|]. intros. rewrite C; auto. Qed.

Lemma ok_raise v U old :
  shape U -> rank U (bucket_of v) < rank_of v ->
  ok_step v U (PCas old) (raise U (bucket_of v) (rank_of v)) (after_max v (rank U (bucket_of v))).
Proof.
  intros S Hlt. pose proof (bucket_of_range v) as Hb. pose proof (rank_of_range v) as Hr.
  pose proof (rank_range U (bucket_of v)) as Ho. set (b := bucket_of v) in *. set (r := rank_of v) in *.
  assert (rank (raise U b r) b = r) as E by (rewrite rank_raise by (done || lia); by rewrite Z.eqb_refl).
  assert (passed (raise U b r) v) as Hp by (unfold passed; fold b r; lia).
  unfold after_max. fold r. destruct (Z.ltb_spec (rank U b) r); [|lia].
  split.
  - by apply raise_shape; [| |lia].
  - split; try done. intros b' Hb'. apply word_le_raise; (done || lia).
  - destruct (Z.eqb_spec (rank U b) 0); cbn; (split; [|done]); lia.
  - intros b' Hb'. rewrite rank_raise by (done || lia). destruct (Z.eqb_spec b' b); [right|left]; subst; auto.
  - rewrite cnt_raise by (done || lia). change (zeros (raise U b r)) with (zeros U).
    destruct (Z.eqb_spec (rank U b) 0), (Z.eqb_spec r 0); cbn; lia.
  - intros x Hx. rewrite cnt_raise by (done || lia). change (rank_count (raise U b r)) with (rank_count U). f_equal.
    destruct (Z.eqb_spec (rank U b) 0) as [E0|]; cbn [pend_count t_pc t_val]; fold r; lia.
  - by left.
  - by left.
Qed.

Lemma ok_cas v U0 stale U old :
  shape U -> tinv U (Thread v (PCas old)) ->
  let '(U', p') := insert_step U0 stale v (PCas old) U in ok_step v U (PCas old) U' p'.
Proof.
  intros S [Hf Hw]. cbn [t_val] in Hw. unfold insert_step.
  pose proof (bucket_of_range v) as Hb. pose proof (rank_of_range v) as Hr.
  pose proof (Hw (bucket_of v mod 4) ltac:(dlia)) as Hle. fold (rank U (bucket_of v)) in Hle.
  rewrite get_byte_spec by (done || dlia).
  destruct (max_word_same old (bucket_of v mod 4) (rank_of v) Hf ltac:(lia) ltac:(dlia)) as [Hs1 Hs2].
  destruct (Z.eqb_spec (max_word old (bucket_of v mod 4) (rank_of v)) old) as [E|E].
  - eapply ok_pc; [apply after_max_passed|..]; [done|by apply Hs1|unfold passed; specialize (Hs1 E); lia|done|done].
  - destruct (Z.eqb_spec (rd (rank_words U) (bucket_of v / 4)) old) as [<-|].
    + rewrite max_word_spec by (done || lia || dlia). fold (rank U (bucket_of v)) in *.
      destruct (Z_lt_le_dec (rank U (bucket_of v)) (rank_of v)) as [Hlt|]; [|destruct E; by apply Hs2].
      rewrite Z.max_l by lia. by apply ok_raise.
    + apply ok_same; try done. split; [by apply word_fits|]. intros k Hk. cbn. lia.
Qed.

(** *** The counters *)

Lemma u32_sub_same a b c : u32 a = u32 b -> u32 (a - c) = u32 (b - c).
Proof. intros H. by rewrite <- (wrap_sub_l 32 a), H, wrap_sub_l. Qed.

Lemma ok_fields v U p U' p' :
  rank_words U' = rank_words U -> uniq_le U U' -> shape U' -> tinv U' (Thread v p') ->
  zeros U' - pend_zero (Thread v p') = zeros U - pend_zero (Thread v p) ->
  (forall r, 0 <= r < 22 -> u32 (rd (rank_count U') r - pend_count r (Thread v p')) =
     u32 (rd (rank_count U) r - pend_count r (Thread v p))) ->
  (forall w, in_small U' w -> in_small U w \/ w = v) ->
  (is_large U' = true -> is_large U = true \/ scanned U v capacity) ->
  ok_step v U p U' p'.
Proof.
  intros E Hle S T Z C A B. destruct (rank_words_same U U' E) as [R1 R2]. split.
  - exact S.
  - exact Hle.
  - exact T.
  - intros b _. left. apply R1.
  - rewrite R2. lia.
  - intros r Hr. rewrite R2. specialize (C r Hr). apply (u32_sub_same _ _ (cnt U r)) in C.
    rewrite <- !Z.sub_add_distr in *. by rewrite !(Z.add_comm (cnt U r)).
  - exact A.
  - exact B.
Qed.

Lemma shape_count U r x : shape U -> fits 32 x -> shape (set_count U (wr (rank_count U) r x)).
Proof.
  intros [] Hx. split; auto; cbn; [by rewrite length_wr|]. unfold wr. by apply Forall_insert.
Qed.

(** A change of one rank counter that pays a pending change. *)
Lemma ok_counter v U p p' r d :
  shape U -> 0 <= r < 22 ->
  tinv U (Thread v p') -> pend_zero (Thread v p') = pend_zero (Thread v p) ->
  (forall x, pend_count x (Thread v p') = pend_count x (Thread v p) + if r =? x then d else 0) ->
  ok_step v U p (set_count U (wr (rank_count U) r (u32 (rd (rank_count U) r + d)))) p'.
Proof.
  intros S Hr T Z C. assert (uniq_le U (set_count U (wr (rank_count U) r (u32 (rd (rank_count U) r + d))))) as Hle by (by apply uniq_le_same).
  apply ok_fields; try done; try by left.
  - apply shape_count; [done|]. apply (wrap_fits 32). lia.
  - rewrite Z. done.
  - intros x Hx. rewrite C. cbn [rank_count set_count]. destruct S. destruct (Z.eqb_spec r x) as [->|].
    + rewrite rd_wr_eq by lia. rewrite wrap_sub_l. f_equal. lia.
    + rewrite rd_wr_ne by lia. by rewrite Z.add_0_r.
Qed.

Lemma ok_decr v U0 stale U o :
  shape U -> tinv U (Thread v (PDecr o)) ->
  let '(U', p') := insert_step U0 stale v (PDecr o) U in ok_step v U (PDecr o) U' p'.
Proof.
  intros S [Ho Hp]. pose proof (rank_of_range v). cbn [t_val] in Ho. apply (ok_counter v U _ _ o (-1)); try done; [lia|].
  intros x. cbn. destruct (o =? x), (rank_of v =? x); lia.
Qed.

Lemma ok_incr v U0 stale U :
  shape U -> tinv U (Thread v PIncr) ->
  let '(U', p') := insert_step U0 stale v PIncr U in ok_step v U PIncr U' p'.
Proof.
  intros S Hp. pose proof (rank_of_range v). apply (ok_counter v U _ _ (rank_of v) 1); try done; [lia|].
  intros x. cbn. destruct (rank_of v =? x); lia.
Qed.

Lemma zeros_dec w : fits 32 w -> 1 <= w mod 65536 ->
  u32 (w - 1) = w - 1 /\ fits 32 (w - 1) /\ (w - 1) mod 65536 = w mod 65536 - 1.
Proof.
  unfold fits. change (2 ^ 32) with 4294967296. intros. assert (0 <= w - 1 < 4294967296) by dlia.
  split; [by apply wrap_small|]. split; [done|dlia].
Qed.

Lemma ok_zero_dec v U0 stale U o :
  shape U -> tinv U (Thread v (PZeros o)) -> 1 <= zeros U ->
  let '(U', p') := insert_step U0 stale v (PZeros o) U in ok_step v U (PZeros o) U' p'.
Proof.
  intros [S1 S2 S3 S4 S5 S6 S7] [Ho Hp] Hz. cbn [insert_step atomicSub16 fst t_val] in *. pose proof (rank_of_range v).
  destruct (zeros_dec (zeros_word U) S6 Hz) as (-> & Hf & E).
  set (U' := Uniq _ _ _ _ _ _). assert (uniq_le U U') as Hle by (by apply uniq_le_same).
  apply ok_fields; try done; try by left.
  - split; [cbn [t_val]; lia|by apply (passed_le U)].
  - unfold zeros. cbn [zeros_word U']. change (2 ^ 16) with 65536. rewrite E. cbn. lia.
Qed.

(** *** The small set *)

Lemma ok_is_large v (U0 : uniq) (stale : bool) (U : uniq) :
  shape U -> uniq_le U0 U -> tinv U (Thread v PIsLarge) ->
  let '(U', p') := insert_step U0 stale v PIsLarge U in ok_step v U PIsLarge U' p'.
Proof.
  intros S H Hp. cbn [insert_step]. set (L := if stale then U0 else U).
  assert (uniq_le L U) as HL by (subst L; by destruct stale).
  destruct (is_large L) eqn:E; [|destruct (Z.eqb_spec v 0)]; apply ok_same; try done.
  - split; [left; by apply HL|done].
  - split; [|done]. split; [split; [done|]|]; intros; lia.
Qed.

Lemma ok_zero_elem v U0 stale U :
  shape U -> tinv U (Thread v PZeroElem) ->
  let '(U', p') := insert_step U0 stale v PZeroElem U in ok_step v U PZeroElem U' p'.
Proof.
  intros [] [Hv Hp]. cbn [t_val] in Hv. subst v. cbn [insert_step]. set (U' := Uniq _ _ _ _ _ _).
  assert (uniq_le U U') as Hle by (by apply uniq_le_same). apply ok_fields; try done; try by left.
  - split; [right; by left|by apply (passed_le U)].
  - intros w [[-> _]|Hw]; [by right|]. left. by right.
Qed.

Lemma ok_set_large v U0 stale U :
  shape U -> tinv U (Thread v PSetLarge) ->
  let '(U', p') := insert_step U0 stale v PSetLarge U in ok_step v U PSetLarge U' p'.
Proof.
  intros [] [Hv Hp]. cbn [insert_step]. set (U' := Uniq _ _ _ _ _ _).
  assert (uniq_le U U') as Hle by (by apply uniq_le_same). apply ok_fields; try done; try by left.
  - split; [by left|by apply (passed_le U)].
  - by right.
Qed.

Lemma scanned_next U v i : scanned U v i -> cell U i <> 0 -> cell U i <> v -> scanned U v (S i).
Proof. intros [Hv Hs] H1 H2. split; [done|]. intros j Hj. destruct (decide (j = i)) as [->|]; [done|]. apply Hs. lia. Qed.

Lemma ok_small_load v (U0 : uniq) (stale : bool) (U : uniq) i :
  shape U -> uniq_le U0 U -> tinv U (Thread v (PSmall i)) ->
  let '(U', p') := insert_step U0 stale v (PSmall i) U in ok_step v U (PSmall i) U' p'.
Proof.
  intros S H [[Hs Hi] Hp]. cbn [t_val] in Hs, Hp. cbn [insert_step]. set (L := if stale then U0 else U).
  assert (uniq_le L U) as HL by (subst L; by destruct stale). pose proof (proj1 Hs) as Hv.
  destruct (Nat.ltb_spec i capacity) as [Hlt|]; [|apply ok_same; try done; split; [|done]; by replace capacity with i by lia].
  fold (cell L i). pose proof (le_cells _ _ HL i Hlt) as Hc.
  destruct (Z.eqb_spec (cell L i) v) as [E|]; [|destruct (Z.eqb_spec (cell L i) 0)]; apply ok_same; try done.
  - split; [|done]. right. right. split; [done|]. exists i. split; [done|]. cbn. rewrite Hc; congruence.
  - split; [|done]. split; [|cbn; lia]. cbn. apply scanned_next; [done|..]; rewrite Hc by done; done.
Qed.

Lemma cell_set U i v j :
  shape U -> (i < capacity)%nat -> cell (set_buf U (wr (buf U) (Z.of_nat i) v)) j = if decide (j = i) then v else cell U j.
Proof.
  intros [L _ _ _ _ _ _] Hi. unfold cell. cbn [buf set_buf]. case_decide as E.
  - subst j. by rewrite rd_wr_eq by lia.
  - by rewrite rd_wr_ne by lia.
Qed.

(** The next free cell filled with a value that the earlier ones do not have. *)
Lemma shape_fill U i v :
  shape U -> (i < capacity)%nat -> cell U i = 0 -> scanned U v i ->
  shape (set_buf U (wr (buf U) (Z.of_nat i) v)).
Proof.
  intros S Hi Hc [Hv Hs]. pose proof (cell_set U i v) as C. destruct S as [S1 S2 S3 S4 S5 S6 S7].
  split; auto; [cbn; by rewrite length_wr|]. intros a b Hab. rewrite !C by (done || lia).
  destruct (decide (b = i)) as [->|]; [rewrite decide_False by lia; intros _; apply Hs; lia|].
  destruct (decide (a = i)) as [->|]; [|by apply S7]. intros Hb. by destruct (S7 i b Hab Hb).
Qed.

Lemma ok_small_cas v (U0 : uniq) (stale : bool) (U : uniq) i :
  shape U -> tinv U (Thread v (PSmallCas i)) ->
  let '(U', p') := insert_step U0 stale v (PSmallCas i) U in ok_step v U (PSmallCas i) U' p'.
Proof.
  intros S [[Hs Hi] Hp]. cbn [t_val] in Hs, Hp. cbn [insert_step]. fold (cell U i). pose proof (proj1 Hs) as Hv.
  destruct (Z.eqb_spec (cell U i) 0) as [E|E]; cbn [orb].
  - pose proof (cell_set U i v) as C. pose proof (shape_fill U i v S Hi E Hs) as S'. set (U' := set_buf _ _) in *.
    assert (uniq_le U U') as Hle.
    { split; try done; [intros b Hb k Hk; cbn; lia|]. intros j Hj Hne. rewrite C by done. case_decide; [by subst|done]. }
    apply ok_fields; try done; try by left.
    + split; [|by apply (passed_le U)]. right. right. split; [done|]. exists i. split; [done|]. rewrite C by done. by rewrite decide_True.
    + intros w [[-> Hz]|[Hw (j & Hj & Ej)]]; [left; by left|]. rewrite C in Ej by done. case_decide; [by right|].
      left. right. eauto.
  - destruct (Z.eqb_spec (cell U i) v) as [Ev|]; apply ok_same; try done.
    + split; [|done]. right. right. eauto.
    + split; [|done]. split; [by apply scanned_next|cbn; lia].
Qed.

Lemma insert_step_ok v U0 stale U p :
  shape U -> shape U0 -> uniq_le U0 U -> tinv U (Thread v p) -> pend_zero (Thread v p) <= zeros U ->
  let '(U', p') := insert_step U0 stale v p U in ok_step v U p U' p'.
Proof.
  intros S S0 H T Hz. destruct p.
  - by apply ok_load.
  - by apply ok_cas.
  - by apply ok_zero_dec.
  - by apply ok_decr.
  - by apply ok_incr.
  - by apply ok_is_large.
  - by apply ok_zero_elem.
  - by apply ok_small_load.
  - by apply ok_small_cas.
  - by apply ok_set_large.
  - by apply ok_same.
Qed.

(** ** The grid *)

(** The counter while the threads with the values [vals] run, [V] being the
    values it represents in the end. *)
Record ginv (U0 : uniq) (V : gset Z) (vals : list Z) (g : grid) : Prop := {
  g_shape : shape (place g);
  g_le : uniq_le U0 (place g);
  g_vals : map t_val (threads g) = vals;
  g_threads : Forall (tinv (place g)) (threads g);
  g_rank : forall b, 0 <= b < 4096 ->
    rank (place g) b = 0 \/ exists v, v ∈ V /\ bucket_of v = b /\ rank_of v = rank (place g) b;
  g_zeros : zeros (place g) = cnt (place g) 0 + zsum (map pend_zero (threads g));
  g_count : forall r, 0 <= r < 22 ->
    u32 (rd (rank_count (place g)) r - cnt (place g) r - zsum (map (pend_count r) (threads g))) = 0;
  g_small : forall v, in_small (place g) v -> v ∈ V;
  g_large : is_large (place g) = true -> (capacity < size (nonzero V))%nat
}.

(** Sixteen cells and one more value. *)
Lemma scanned_many U v V :
  shape U -> scanned U v capacity -> v ∈ V -> (forall w, in_small U w -> w ∈ V) ->
  (capacity < size (nonzero V))%nat.
Proof.
  intros S [Hv Hs] HvV Hsub. destruct S as [_ _ _ _ _ _ Hpre].
  set (l := v :: map (cell U) (seq 0 capacity)).
  assert (NoDup l) as Hnd.
  { apply list.NoDup_cons. split.
    - intros Hin. apply list_elem_of_fmap in Hin as (j & -> & Hj). apply elem_of_seq in Hj. by destruct (Hs j ltac:(lia)).
    - apply NoDup_fmap_2_strong; [|apply NoDup_seq]. intros a b Ha Hb E. apply elem_of_seq in Ha, Hb.
      destruct (Nat.lt_trichotomy a b) as [|[|]]; [|done|].
      + by destruct (Hpre a b ltac:(lia) ltac:(apply Hs; lia)).
      + by destruct (Hpre b a ltac:(lia) ltac:(apply Hs; lia)). }
  assert (list_to_set l ⊆ nonzero V) as Hin.
  { intros w Hw. apply elem_of_list_to_set, elem_of_cons in Hw. unfold nonzero. apply elem_of_difference. rewrite elem_of_singleton.
    destruct Hw as [->|Hw]; [done|]. apply list_elem_of_fmap in Hw as (j & -> & Hj). apply elem_of_seq in Hj.
    destruct (Hs j ltac:(lia)). split; [|done]. apply Hsub. right. split; [done|]. exists j. split; [lia|done]. }
  apply subseteq_size in Hin. rewrite size_list_to_set in Hin by done. cbn in Hin. unfold capacity in *. lia.
Qed.

Section grid.
Context (U0 : uniq) (V0 : gset Z) (vals : list Z) (H0 : repr U0 V0).

Definition inserted : gset Z := V0 ∪ list_to_set vals.

Lemma ginv_launch : ginv U0 inserted vals (launch U0 vals).
Proof.
  destruct H0 as [S R Zs C Sub Sm La].
  assert (forall f : thread -> Z, (forall v, f (Thread v PLoad) = 0) -> zsum (map f (threads (launch U0 vals))) = 0) as E.
  { intros f Hf. apply zsum_zero. intros t Ht. apply list_elem_of_fmap in Ht as (v & -> & _). apply Hf. }
  split; cbn [place launch].
  - exact S.
  - done.
  - cbn. rewrite map_map. apply map_id.
  - cbn. apply list.Forall_forall. intros t Ht. by apply list_elem_of_fmap in Ht as (v & -> & _).
  - intros b Hb. destruct (R b Hb) as [_ [?|(v & ? & ?)]]; [by left|right]. exists v. split; [by apply elem_of_union_l|done].
  - rewrite E by done. lia.
  - intros r Hr. rewrite E by done. rewrite C by done. by rewrite Z.sub_diag.
  - intros v Hv. by apply elem_of_union_l, Sub.
  - intros Hl. apply La in Hl. eapply Nat.lt_le_trans; [exact Hl|]. apply nonzero_size, union_subseteq_l.
Qed.

Lemma ginv_vals g t : ginv U0 inserted vals g -> t ∈ threads g -> t_val t ∈ inserted.
Proof.
  intros [_ _ E _ _ _ _ _ _] Ht. apply elem_of_union. right. apply elem_of_list_to_set. rewrite <- E.
  apply list_elem_of_fmap. eauto.
Qed.

Lemma ginv_step g stale i : ginv U0 inserted vals g -> ginv U0 inserted vals (grid_step U0 stale i g).
Proof.
  intros G. unfold grid_step. destruct (threads g !! i) as [[v p]|] eqn:Ei; [|done]. destruct (done _); [done|]. cbn [t_val t_pc].
  pose proof (ginv_vals g _ G (list_elem_of_lookup_2 _ _ _ Ei)) as Hv. cbn [t_val] in Hv. destruct G as [S L Ev T R Zs C Sm La].
  pose proof (insert_step_ok v U0 stale (place g) p S (rp_shape _ _ H0) L) as O.
  destruct (insert_step U0 stale v p (place g)) as [U' p'].
  destruct O as [O1 O2 O3 O4 O5 O6 O7 O8].
  { by apply (Forall_lookup_1 _ _ _ _ T Ei). }
  { pose proof (zsum_map_ge pend_zero (threads g) i _ ltac:(intros [? []]; cbn; lia) Ei). pose proof (cnt_range (place g) 0). lia. }
  split; cbn [place threads].
  - exact O1.
  - by etrans.
  - rewrite <- Ev. change (map t_val) with (fmap (M := list) t_val). rewrite list_fmap_insert. apply list_insert_id. by rewrite list_lookup_fmap, Ei.
  - apply Forall_insert; [|exact O3]. eapply list.Forall_impl; [exact T|]. intros t. by apply tinv_le.
  - intros b Hb. destruct (O4 b Hb) as [->|[E1 E2]]; [by apply R|]. right. exists v. auto.
  - rewrite (zsum_insert _ _ _ _ _ Ei). lia.
  - intros r Hr. rewrite (zsum_insert _ _ _ _ _ Ei). rewrite <- (C r Hr).
    specialize (O6 r Hr). apply (u32_sub_same _ _ (zsum (map (pend_count r) (threads g)) - pend_count r (Thread v p))) in O6.
    etrans; [|etrans; [exact O6|]]; f_equal; lia.
  - intros w Hw. destruct (O7 w Hw) as [?| ->]; auto.
  - intros Hl. destruct (O8 Hl) as [?|Hs]; [auto|]. by apply (scanned_many (place g) v).
Qed.

Lemma ginv_run s g : ginv U0 inserted vals g -> ginv U0 inserted vals (run U0 s g).
Proof. revert g. induction s as [|[i st] s IH]; intros g G; [done|]. cbn. by apply IH, ginv_step. Qed.

Lemma ginv_done g : ginv U0 inserted vals g -> all_done g = true -> repr (place g) inserted.
Proof.
  intros [S L Ev T R Zs C Sm La] D.
  assert (forall t, t ∈ threads g -> t_pc t = PDone) as D'.
  { intros t Ht. unfold all_done in D. rewrite forallb_forall in D. specialize (D t (proj1 (list_elem_of_In _ _) Ht)).
    unfold done in D. by destruct (t_pc t). }
  assert (forall v, v ∈ vals -> (is_large (place g) = true \/ in_small (place g) v) /\ passed (place g) v) as P.
  { intros v Hv. rewrite <- Ev in Hv. apply list_elem_of_fmap in Hv as (t & -> & Ht). rewrite list.Forall_forall in T.
    specialize (T t Ht). unfold tinv in T. by rewrite (D' t Ht) in T. }
  split; auto.
  - intros b Hb. split; [|by apply R]. intros v Hv <-. apply elem_of_union in Hv as [Hv|Hv].
    + pose proof (proj1 (rp_rank _ _ H0 _ Hb) v Hv eq_refl). pose proof (rank_le _ _ _ L Hb). lia.
    + apply elem_of_list_to_set in Hv. apply P, Hv.
  - rewrite Zs, zsum_zero; [lia|]. intros t Ht. unfold pend_zero. by rewrite D'.
  - intros r Hr. specialize (C r Hr). rewrite zsum_zero in C by (intros t Ht; unfold pend_count; by rewrite D').
    pose proof (cnt_range (place g) r). destruct S. assert (fits 32 (rd (rank_count (place g)) r)) as F.
    { destruct (lookup_lt_is_Some_2 (rank_count (place g)) (Z.to_nat r)) as [w Hw]; [lia|].
      rewrite (rd_lookup _ _ w) by (done || lia). by apply (Forall_lookup_1 _ _ _ _ sh_cfits0 Hw). }
    unfold fits, wrap in *. change (2 ^ 32) with 4294967296 in *. dlia.
  - intros Hf v Hv. apply elem_of_union in Hv as [Hv|Hv].
    + apply (in_small_le U0); [done|]. apply (rp_small _ _ H0); [|done]. destruct (is_large U0) eqn:E; [|done].
      apply L in E. congruence.
    + apply elem_of_list_to_set, P in Hv. destruct Hv as [[?|?] _]; [congruence|done].
Qed.

End grid.

(** ** Termination *)

(** An upper bound on the steps a thread still takes. *)
Definition steps_left (p : pc) : Z :=
  match p with
  | PLoad => 1060
  | PCas old => 39 + (1020 - byte_sum old)
  | PZeros _ => 38
  | PDecr _ => 37
  | PIncr => 36
  | PIsLarge => 35
  | PZeroElem => 1
  | PSmall i => 2 * (Z.of_nat capacity - Z.of_nat i) + 2
  | PSmallCas i => 2 * (Z.of_nat capacity - Z.of_nat i) + 1
  | PSetLarge => 1
  | PDone => 0
  end.

Lemma byte_sum_lt w w' : fits 32 w -> fits 32 w' -> word_le w w' -> w <> w' -> byte_sum w < byte_sum w'.
Proof.
  intros Hw Hw' H Hne. pose proof (word_bytes w Hw). pose proof (word_bytes w' Hw').
  pose proof (H 0 ltac:(lia)). pose proof (H 1 ltac:(lia)). pose proof (H 2 ltac:(lia)). pose proof (H 3 ltac:(lia)).
  unfold byte_sum. lia.
Qed.

Lemma after_max_left v o : steps_left (after_max v o) <= 38.
Proof. unfold after_max. destruct (o <? rank_of v), (o =? 0); cbn; lia. Qed.

Lemma step_left v U0 stale U p :
  shape U -> tinv U (Thread v p) -> p <> PDone -> steps_left (insert_step U0 stale v p U).2 < steps_left p.
Proof.
  intros S T Hp. unfold insert_step. destruct p as [|old|o|o| | | |i|i| |]; try (cbn; lia); try done.
  - cbn [snd steps_left]. pose proof (byte_sum_range (rd (rank_words (if stale then U0 else U)) (bucket_of v / 4))). lia.
  - cbn zeta. cbn [steps_left]. pose proof (byte_sum_range old). pose proof (after_max_left v (get_byte old (bucket_of v mod 4))).
    destruct (_ =? old); [cbn [snd]; lia|]. destruct (Z.eqb_spec (rd (rank_words U) (bucket_of v / 4)) old) as [|Hne]; [cbn [snd]; lia|].
    destruct T as [Hf Hw]. pose proof (byte_sum_lt old _ Hf (word_fits U _ S (bucket_of_range v)) Hw ltac:(auto)). cbn [snd steps_left]. lia.
  - destruct (is_large _); [|destruct (v =? 0)]; cbn [steps_left snd]; unfold capacity; lia.
  - destruct (Nat.ltb_spec i capacity); [|destruct T as [[_ ?] _]; cbn [steps_left snd] in *; lia].
    destruct (_ =? v); [|destruct (_ =? 0)]; cbn [steps_left snd]; lia.
  - destruct T as [[_ Hi] _]. destruct (_ || _); cbn [steps_left snd]; unfold capacity in *; lia.
Qed.

Lemma steps_left_pos U v p : tinv U (Thread v p) -> p <> PDone -> 0 < steps_left p.
Proof.
  destruct p; cbn [steps_left]; try lia; try done.
  - pose proof (byte_sum_range old). lia.
  - intros [[_ ?] _]. lia.
  - intros [[_ ?] _]. lia.
Qed.

Lemma run_done U0 V0 vals (H0 : repr U0 V0) s g i t :
  ginv U0 (inserted V0 vals) vals g -> threads g !! i = Some t -> steps_left (t_pc t) <= Z.of_nat (turns i s) ->
  exists t', threads (run U0 s g) !! i = Some t' /\ done t' = true.
Proof.
  revert g t. induction s as [|[k st] s IH]; intros g t G Ht Hs; pose proof (Forall_lookup_1 _ _ _ _ (g_threads _ _ _ _ G) Ht) as T.
  - exists t. split; [done|]. destruct t as [v p]. cbn in Hs. pose proof (steps_left_pos _ _ _ T) as P.
    destruct p; try done; cbn in *; specialize (P ltac:(done)); lia.
  - cbn [run turns] in *. pose proof (ginv_step U0 V0 vals H0 g st k G) as G'. case_decide as D.
    + subst k. destruct t as [v p]. pose proof (step_left v U0 st (place g) p (g_shape _ _ _ _ G) T) as Hlt.
      destruct (done (Thread v p)) eqn:Hd.
      { apply (IH _ (Thread v p)); [done| |destruct p; try done; cbn; lia]. unfold grid_step. by rewrite Ht, Hd. }
      apply (IH _ (Thread v (insert_step U0 st v p (place g)).2)); [done| |].
      * unfold grid_step. rewrite Ht, Hd. cbn [t_val t_pc]. destruct (insert_step _ _ _ _ _). cbn. apply list_lookup_insert_eq.
        by eapply lookup_lt_Some.
      * cbn [t_pc] in *. assert (p <> PDone) as Hne by (by intros ->). specialize (Hlt Hne). lia.
    + apply (IH _ t); [done| |done]. unfold grid_step. destruct (threads g !! k) as [u|]; [|done].
      destruct (done u); [done|]. destruct (insert_step _ _ _ _ _). cbn. by rewrite list_lookup_insert_ne.
Qed.

(** ** Properties of concurrent insertion *)

Lemma rd_replicate n i : rd (replicate n 0) i = 0.
Proof.
  unfold rd. generalize (Z.to_nat i). clear i.
  induction n as [|n IH]; intros [|k]; cbn; auto.
Qed.

Lemma uniq_init_rank b : rank uniq_init b = 0.
Proof.
  unfold rank. change (rank_words uniq_init) with (replicate 1024 0). rewrite rd_replicate. unfold byte. by rewrite Z.div_0_l by (apply Z.pow_nonzero; dlia).
Qed.

#[local] Transparent cnt.

Lemma uniq_init_cnt r : cnt uniq_init r = if 0 =? r then 4096 else 0.
Proof.
  unfold cnt. assert (forall b, (if rank uniq_init b =? r then 1 else 0) = if 0 =? r then 1 else 0) as E by (intros; by rewrite uniq_init_rank).
  rewrite (map_ext _ _ E). by destruct (0 =? r); vm_compute.
Qed.

#[local] Opaque cnt.

Lemma uniq_init_cells i : cell uniq_init i = 0.
Proof. apply (rd_replicate 16). Qed.

(** The initialised place represents the empty set. *)
Lemma uniq_init_repr : repr uniq_init ∅.
Proof.
  split.
  - split; try done.
    + by apply Forall_replicate.
    + apply (Forall_insert _ (replicate 22 0)); [by apply Forall_replicate|done].
    + intros i j _ H. by rewrite uniq_init_cells in H.
  - intros b _. split; [set_solver|left; apply uniq_init_rank].
  - by rewrite uniq_init_cnt.
  - intros r Hr. rewrite uniq_init_cnt. cbn [rank_count uniq_init initNonzeroData uniq_memset]. 
    destruct (Z.eqb_spec 0 r) as [<-|]; [done|]. rewrite rd_wr_ne by lia. apply rd_replicate.
  - intros v [[_ H]|[H (i & _ & E)]]; [done|]. by rewrite uniq_init_cells in E.
  - set_solver.
  - done.
Qed.

Lemma grid_repr U V vals s :
  repr U V -> all_done (run U s (launch U vals)) = true ->
  repr (place (run U s (launch U vals))) (V ∪ list_to_set vals).
Proof. intros H D. apply (ginv_done U V vals); auto. apply ginv_run; [done|]. by apply ginv_launch. Qed.



(** Concurrent [insert]s are wait free.  A thread that has been scheduled
    1060 times has returned, whatever the other threads do: each failed
    compare-and-swap of [atomicMax] has seen the sum of the four bytes of the
    word grow, and the scan of the small set never repeats a cell. *)
Theorem insert_wait_free U V vals s i :
  repr U V -> (i < length vals)%nat -> (1060 <= turns i s)%nat ->
  exists t, threads (run U s (launch U vals)) !! i = Some t /\ done t = true.
Proof.
  intros H Hi Hs. destruct (lookup_lt_is_Some_2 vals i Hi) as [v Hv].
  apply (run_done U V vals H s _ i (Thread v PLoad)).
  - by apply ginv_launch.
  - cbn. change (map ?f vals) with (f <$> vals). by rewrite list_lookup_fmap, Hv.
  - cbn. lia.
Qed.

Lemma insert_wait_free_witness :
  exists t, threads (run uniq_init (round_robin 2 1060) (launch uniq_init [5; 7])) !! 1%nat = Some t /\ done t = true.
Proof.
  apply (insert_wait_free uniq_init ∅ [5; 7] (round_robin 2 1060) 1).
  - exact uniq_init_repr.
  - cbn. lia.
  - vm_compute. lia.
Defined.

(** ** One thread *)

Lemma turns_solo n : turns 0 (replicate n (0%nat, false)) = n.
Proof. induction n as [|n IH]; cbn; [done|]. by rewrite IH. Qed.

Lemma insert_repr U V v : repr U V -> repr (insert U v) (V ∪ {[v]}).
Proof.
  intros H. assert (V ∪ {[v]} = inserted V [v]) as -> by (clear; unfold inserted; set_solver).
  set (s := replicate 1060 (0%nat, false)). pose proof (ginv_launch U V [v] H) as G.
  destruct (run_done U V [v] H s (launch U [v]) 0 (Thread v PLoad) G eq_refl) as (t & Ht & Hd).
  { unfold s. rewrite turns_solo. cbn. lia. }
  pose proof (ginv_run U V [v] H s _ G) as G'. unfold insert. fold s. apply (ginv_done U); [done|done|].
  pose proof (f_equal length (g_vals _ _ _ _ G')) as L. rewrite length_map in L. unfold all_done.
  destruct (threads (run U s (launch U [v]))) as [|t' [|]]; try done. injection Ht as ->. cbn. by rewrite Hd.
Qed.

(** The counters agree with the buckets. *)
Definition counted (U : uniq) : Prop := zeros U = cnt U 0 /\ forall r, 0 <= r < 22 -> rd (rank_count U) r = cnt U r.

Definition same_small (U U' : uniq) : Prop :=
  is_large U' = is_large U /\ has_zero_elem U' = has_zero_elem U /\ buf U' = buf U.

Lemma cnt_pos U b : 0 <= b < 4096 -> 1 <= cnt U (rank U b).
Proof.
  intros Hb. Transparent cnt. unfold cnt. Opaque cnt.
  destruct (list_elem_of_lookup_1 (seqZ 0 4096) b) as [i Hi]; [apply elem_of_seqZ; lia|].
  etrans; [|apply (zsum_map_ge (fun b' => if rank U b' =? rank U b then 1 else 0) _ i b); [intros; destruct (_ =? _); lia|done]].
  by rewrite Z.eqb_refl.
Qed.

Lemma update_same U b r : shape U -> 0 <= b < 4096 -> 0 <= r <= rank U b -> update U b r = U.
Proof.
  intros S Hb Hr. pose proof (word_fits U b S Hb) as Hw. unfold update. rewrite get_byte_spec by (done || dlia). fold (rank U b).
  rewrite (proj2 (max_word_same _ (b mod 4) r Hw ltac:(pose proof (rank_range U b); lia) ltac:(dlia))) by (fold (rank U b); lia).
  destruct (Z.ltb_spec (rank U b) r); [lia|]. unfold set_words, wr.
  rewrite list_insert_id; [by destruct U|]. destruct S.
  destruct (lookup_lt_is_Some_2 (rank_words U) (Z.to_nat (b / 4))) as [w E]; [dlia|]. rewrite E. f_equal. symmetry. apply rd_lookup; [dlia|done].
Qed.

Lemma update_spec U b r :
  shape U -> counted U -> 0 <= b < 4096 -> 0 <= r < 22 ->
  shape (update U b r) /\ counted (update U b r) /\ same_small U (update U b r) /\
  (forall b', 0 <= b' < 4096 -> rank (update U b r) b' = if b' =? b then Z.max r (rank U b) else rank U b').
Proof.
  intros S [Cz Cr] Hb Hr. destruct (Z_le_gt_dec r (rank U b)) as [Hle|Hgt].
  { rewrite update_same by (done || lia). split_and!; try done. intros b' _. destruct (Z.eqb_spec b' b); [subst; lia|done]. }
  pose proof (word_fits U b S Hb) as Hw. pose proof (rank_range U b) as Ho. pose proof (cnt_pos U b Hb) as Hpos.
  assert (exists z, update U b r = Uniq (is_large U) (has_zero_elem U) (buf U) (rank_words (raise U b r))
    (let c := wr (rank_count U) (rank U b) (rd (rank_count U) (rank U b) -32 1) in wr c r (rd c r +32 1)) z /\
    fits 32 z /\ z mod 65536 = zeros U - if rank U b =? 0 then 1 else 0) as (z & -> & Hz & Ez).
  { unfold update. rewrite get_byte_spec by (done || dlia). fold (rank U b). rewrite max_word_spec by (done || lia || dlia). fold (rank U b).
    rewrite Z.max_l by lia. destruct (Z.ltb_spec (rank U b) r); [|lia]. destruct S as [S1 S2 S3 S4 S5 S6 S7].
    destruct (Z.eqb_spec (rank U b) 0) as [E|E].
    - rewrite E in Hpos. destruct (zeros_dec (zeros_word U) S6) as (E1 & E2 & E3); [change (1 <= zeros U); lia|].
      exists (zeros_word U - 1). split; [|done]. cbn. rewrite E1. done.
    - exists (zeros_word U). split; [done|]. split; [done|]. unfold zeros. change (2 ^ 16) with 65536. lia. }
  pose proof (raise_shape U b r S Hb ltac:(lia)) as S'. set (c := wr (rank_count U) (rank U b) _). cbn zeta.
  set (U' := Uniq _ _ _ _ _ _). destruct (rank_words_same (raise U b r) U' eq_refl) as [R1 R2].
  assert (0 <= rank U b < 22) as Ho' by lia.
  split; [|split; [split|split; [done|]]].
  - destruct S'. split; auto; cbn; unfold c; [by rewrite !length_wr|]. unfold wr. repeat apply Forall_insert; try done; apply wrap_fits; lia.
  - rewrite R2, cnt_raise by (done || lia). unfold zeros. cbn [zeros_word U']. change (2 ^ 16) with 65536. rewrite Ez, Cz.
    destruct (Z.eqb_spec r 0); lia.
  - intros x Hx. rewrite R2, cnt_raise by (done || lia). cbn [rank_count U']. rewrite <- (Cr x Hx). pose proof (cnt_range U x) as Hc. rewrite <- (Cr x Hx) in Hc.
    assert (forall y, 0 <= y <= 4097 -> u32 y = y) as W by (intros; apply wrap_small; unfold fits; lia).
    assert (length (rank_count U) = 22%nat) as L by apply S.
    assert (rd c x = rd (rank_count U) x - if rank U b =? x then 1 else 0) as Ec.
    { unfold c. destruct (Z.eqb_spec (rank U b) x) as [E|]; [subst x|rewrite rd_wr_ne by lia; lia].
      rewrite rd_wr_eq by lia. apply W. rewrite <- Cr in Hpos by done. lia. }
    destruct (Z.eqb_spec r x) as [E|]; [subst x|rewrite rd_wr_ne by lia; lia]. rewrite rd_wr_eq by (unfold c; rewrite length_wr; lia).
    rewrite Ec. destruct (Z.eqb_spec (rank U b) r); [lia|]. rewrite W; lia.
  - intros b' Hb'. rewrite R1, rank_raise by (done || lia). destruct (b' =? b); lia.
Qed.

Lemma merge_large_loop R l : forall U,
  (forall b, 0 <= b < 4096 -> rank R b < 22) ->
  NoDup l -> (forall b, b ∈ l -> 0 <= b < 4096) -> shape U -> counted U ->
  let U' := fold_left (fun U bucket => update U bucket (rank R bucket)) l U in
  shape U' /\ counted U' /\ same_small U U' /\
  (forall b, 0 <= b < 4096 -> rank U' b = if decide (b ∈ l) then Z.max (rank R b) (rank U b) else rank U b).
Proof.
  induction l as [|b l IH]; intros U HR Hnd Hl S C; cbn [fold_left].
  - split_and!; try done.
  - apply list.NoDup_cons in Hnd as [Hb Hnd]. assert (0 <= b < 4096) as Hbr by (apply Hl; by left).
    pose proof (HR b Hbr). pose proof (rank_range R b).
    destruct (update_spec U b (rank R b) S C Hbr ltac:(lia)) as (S1 & C1 & (E1 & E2 & E3) & R1).
    destruct (IH (update U b (rank R b)) HR Hnd) as (S2 & C2 & (F1 & F2 & F3) & R2); auto.
    { intros x Hx. apply Hl. by right. }
    cbn zeta in *. split; [done|]. split; [done|]. split; [split_and!; congruence|].
    intros x Hx. rewrite R2, R1 by done. destruct (Z.eqb_spec x b) as [->|Hne].
    + rewrite decide_False by done. by rewrite decide_True by (by left).
    + case_decide as D; [by rewrite decide_True by (by right)|]. rewrite decide_False; [done|].
      intros [?|?]%elem_of_cons; done.
Qed.

Lemma repr_rank_max U V b : repr U V -> 0 <= b < 4096 -> rank U b < 22.
Proof.
  intros H Hb. destruct (proj2 (rp_rank _ _ H b Hb)) as [->|(v & _ & _ & <-)]; [lia|]. pose proof (rank_of_range v). lia.
Qed.

Lemma merge_large_spec R U :
  (forall b, 0 <= b < 4096 -> rank R b < 22) -> shape U -> counted U ->
  shape (merge_large U R) /\ counted (merge_large U R) /\ same_small U (merge_large U R) /\
  (forall b, 0 <= b < 4096 -> rank (merge_large U R) b = Z.max (rank R b) (rank U b)).
Proof.
  intros HR S C. assert (forall b, b ∈ seqZ 0 bucket_count <-> 0 <= b < 4096) as E.
  { intros b. rewrite elem_of_seqZ. by change (0 + bucket_count) with 4096. }
  pose proof (NoDup_seqZ 0 bucket_count) as Hnd. unfold merge_large. generalize dependent (seqZ 0 bucket_count). intros l E Hnd.
  destruct (merge_large_loop R l U HR Hnd (fun b => proj1 (E b)) S C) as (H1 & H2 & H3 & H4).
  split; [done|]. split; [done|]. split; [done|]. intros b Hb. rewrite H4 by done. by rewrite decide_True by (by apply E).
Qed.

Lemma merge_large_repr U V R W :
  repr U V -> repr R W -> is_large R = true -> repr (merge U R) (V ∪ W).
Proof.
  intros HU HR L. unfold merge. rewrite L. set (U1 := Uniq _ _ _ _ _ _).
  assert (shape U1) as S1 by (destruct HU as [[] _ _ _ _ _ _]; by split).
  destruct (rank_words_same U U1 eq_refl) as [Q1 Q2].
  assert (counted U1) as C1.
  { destruct HU. split; [rewrite Q2; done|]. intros. rewrite Q2. auto. }
  destruct (merge_large_spec R U1) as (S & C & (E1 & E2 & E3) & Rk); auto.
  { intros. by eapply repr_rank_max. }
  assert (forall b, 0 <= b < 4096 -> rank (merge_large U1 R) b = Z.max (rank R b) (rank U b)) as Rk'.
  { intros b Hb. rewrite Rk by done. by rewrite Q1. }
  generalize dependent (merge_large U1 R). intros M S C E1 E2 E3 _ Rk'.
  split.
  - exact S.
  - intros b Hb. rewrite Rk' by done. destruct (rp_rank _ _ HU b Hb) as [A1 A2], (rp_rank _ _ HR b Hb) as [B1 B2]. split.
    + intros v [Hv|Hv]%elem_of_union Ev; [specialize (A1 v Hv Ev)|specialize (B1 v Hv Ev)]; lia.
    + destruct (Z_le_gt_dec (rank R b) (rank U b)).
      * rewrite Z.max_r by lia. destruct A2 as [?|(v & Hv & E)]; [by left|right]. exists v. split; [by apply elem_of_union_l|exact E].
      * rewrite Z.max_l by lia. destruct B2 as [?|(v & Hv & E)]; [by left|right]. exists v. split; [by apply elem_of_union_r|exact E].
  - apply C.
  - apply C.
  - intros v Hv. apply elem_of_union_l, (rp_sub _ _ HU). unfold in_small, cell in *. rewrite E2, E3 in Hv. done.
  - rewrite E1. done.
  - intros _. eapply Nat.lt_le_trans; [apply (rp_large _ _ HR L)|]. apply nonzero_size, union_subseteq_r.
Qed.

(** *** The small set's values *)

Lemma used_spec l i : (i < used l)%nat <-> (i < length l)%nat /\ forall j, (j <= i)%nat -> nth j l 0 <> 0.
Proof.
  revert i. induction l as [|x l IH]; intros i; cbn [used length]; [split; lia|].
  destruct (Z.eqb_spec x 0) as [->|Hx]; [split; [lia|]; intros [_ H]; by destruct (H 0%nat ltac:(lia))|].
  destruct i as [|i].
  - split; [|lia]. intros _. split; [lia|]. intros j Hj. by replace j with 0%nat by lia.
  - rewrite <- !Nat.succ_lt_mono, IH. split.
    + intros [H1 H2]. split; [done|]. intros [|j] Hj; [done|]. apply H2. lia.
    + intros [H1 H2]. split; [done|]. intros j Hj. apply (H2 (S j)). lia.
Qed.

Lemma used_length l : (used l <= length l)%nat.
Proof. induction l as [|x l IH]; cbn; [done|]. destruct (x =? 0); lia. Qed.

(** The used cells are those that are not zero. *)
Lemma used_cells U i : shape U -> (i < used (buf U))%nat <-> (i < capacity)%nat /\ cell U i <> 0.
Proof.
  intros S. assert (forall j, cell U j = nth j (buf U) 0) as E by (intros; unfold cell, rd; by rewrite Nat2Z.id).
  destruct S as [L _ _ _ _ _ P]. rewrite used_spec, L. split.
  - intros [H1 H2]. rewrite E. auto.
  - intros [H1 H2]. split; [done|]. intros j Hj. rewrite <- E. destruct (decide (j = i)) as [->|]; [done|]. apply (P j i); [lia|done].
Qed.

Definition cells (U : uniq) : list Z := map (cell U) (seq 0 (used (buf U))).

Lemma elem_of_cells U v : shape U -> v ∈ cells U <-> v <> 0 /\ exists i, (i < capacity)%nat /\ cell U i = v.
Proof.
  intros S. unfold cells. rewrite list_elem_of_fmap. split.
  - intros (i & -> & Hi). apply elem_of_seq in Hi as [_ Hi]. apply used_cells in Hi as [H1 H2]; [|done]. eauto.
  - intros [Hv (i & Hi & E)]. exists i. split; [done|]. apply elem_of_seq. split; [lia|]. apply used_cells; [done|]. split; [done|congruence].
Qed.

Lemma NoDup_cells U : shape U -> NoDup (cells U).
Proof.
  intros S. apply NoDup_fmap_2_strong; [|apply NoDup_seq]. intros a b Ha Hb E.
  apply elem_of_seq in Ha as [_ Ha], Hb as [_ Hb]. apply used_cells in Ha as [Ha Ha'], Hb as [Hb Hb']; [|done..].
  destruct S as [_ _ _ _ _ _ P]. destruct (Nat.lt_trichotomy a b) as [|[|]]; [|done|].
  - by destruct (P a b ltac:(lia) Hb').
  - by destruct (P b a ltac:(lia) Ha').
Qed.

Lemma nonzero_cells U V : repr U V -> is_large U = false -> nonzero V = list_to_set (cells U).
Proof.
  intros H L. apply set_eq. intros v. rewrite elem_of_list_to_set, (elem_of_cells U v (rp_shape _ _ H)). unfold nonzero.
  rewrite elem_of_difference, elem_of_singleton. split.
  - intros [Hv Hne]. by destruct (rp_small _ _ H L v Hv) as [[? _]|?].
  - intros Hv. split; [|apply Hv]. apply (rp_sub _ _ H). by right.
Qed.

(** *** The denominator *)

(** [horner] without the divisions. *)
Fixpoint horner_scaled (counts : list Z) : Z :=
  match counts with
  | [] => 0
  | c :: counts' => horner_scaled counts' + c * 2 ^ Z.of_nat (length counts')
  end.

Lemma horner_spec c l : (horner (c :: l) == inject_Z (horner_scaled (c :: l)) / inject_Z (2 ^ Z.of_nat (length l)))%Q.
Proof.
  revert c. induction l as [|d l IH]; intros c.
  - cbn [horner horner_scaled length]. change (Z.of_nat 0) with 0. rewrite Z.pow_0_r, Z.add_0_l, Z.mul_1_r. change (inject_Z 1) with 1%Q. field.
  - change (horner (c :: d :: l)) with (horner (d :: l) / 2 + inject_Z c)%Q. rewrite IH.
    change (horner_scaled (c :: d :: l)) with (horner_scaled (d :: l) + c * 2 ^ Z.of_nat (S (length l))).
    cbn [length]. rewrite Nat2Z.inj_succ, Z.pow_succ_r by lia. rewrite inject_Z_plus, !inject_Z_mult. change (inject_Z 2) with 2%Q.
    field. change 0%Q with (inject_Z 0). rewrite inject_Z_injective. apply Z.pow_nonzero; lia.
Qed.

Lemma horner_scaled_add (f g : Z -> Z) l :
  horner_scaled (map (fun r => f r + g r) l) = horner_scaled (map f l) + horner_scaled (map g l).
Proof. induction l as [|x l IH]; [done|]. cbn [map horner_scaled]. rewrite IH, !length_map. lia. Qed.

Lemma horner_scaled_point k :
  0 <= k < 22 -> horner_scaled (map (fun r => if k =? r then 1 else 0) (seqZ 0 22)) = 2 ^ (21 - k).
Proof.
  intros Hk. assert (forallb (fun k => horner_scaled (map (fun r => if k =? r then 1 else 0) (seqZ 0 22)) =? 2 ^ (21 - k)) (seqZ 0 22) = true) as H
    by (vm_compute; reflexivity).
  rewrite forallb_forall in H. apply Z.eqb_eq, H. apply list_elem_of_In, elem_of_seqZ. lia.
Qed.

Lemma horner_scaled_buckets (f : Z -> Z) (bs : list Z) :
  (forall b, b ∈ bs -> 0 <= f b < 22) ->
  horner_scaled (map (fun r => zsum (map (fun b => if f b =? r then 1 else 0) bs)) (seqZ 0 22)) =
  zsum (map (fun b => 2 ^ (21 - f b)) bs).
Proof.
  intros H. induction bs as [|b bs IH]; [by vm_compute|]. cbn [map zsum].
  rewrite (horner_scaled_add (fun r => if f b =? r then 1 else 0)), horner_scaled_point by (apply H; by left).
  rewrite IH; [lia|]. intros. apply H. by right.
Qed.

Lemma rd_all l n : length l = n -> l = map (rd l) (seqZ 0 (Z.of_nat n)).
Proof.
  intros L. apply list_eq. intros i. change (map ?f ?k) with (f <$> k). rewrite list_lookup_fmap.
  destruct (decide (i < n)%nat) as [Hi|Hi].
  - destruct (lookup_lt_is_Some_2 l i ltac:(lia)) as [x Hx]. rewrite Hx, lookup_seqZ_lt by lia. cbn. f_equal. symmetry.
    apply rd_lookup; [lia|]. by rewrite Z.add_0_l, Nat2Z.id.
  - rewrite lookup_ge_None_2, lookup_seqZ_ge by lia. done.
Qed.

Lemma denominator_scaled U V :
  repr U V -> horner_scaled (rank_count U) = zsum (map (fun b => 2 ^ (21 - rank U b)) (seqZ 0 4096)).
Proof.
  intros H. rewrite (rd_all (rank_count U) 22) by apply (rp_shape _ _ H). change (Z.of_nat 22) with 22.
  rewrite (map_ext_in _ (cnt U)).
  - rewrite <- (horner_scaled_buckets (rank U) (seqZ 0 4096)); [done|]. intros b Hb. apply elem_of_seqZ in Hb.
    split; [apply rank_range|]. eapply repr_rank_max; [done|lia].
  - intros r Hr. apply list_elem_of_In, elem_of_seqZ in Hr. apply (rp_count _ _ H). lia.
Qed.

(** ** Properties of one thread *)

Definition insert_all (U : uniq) (vals : list Z) : uniq := fold_left insert vals U.

Lemma insert_all_repr vals : forall U V, repr U V -> repr (insert_all U vals) (V ∪ list_to_set vals).
Proof.
  induction vals as [|v vals IH]; intros U V H.
  - rewrite list_to_set_nil, union_empty_r_L. exact H.
  - rewrite list_to_set_cons, union_assoc_L. apply (IH (insert U v)). exact (insert_repr U V v H).
Qed.

Lemma insert_all_init vals : repr (insert_all uniq_init vals) (list_to_set vals).
Proof.
  pose proof (insert_all_repr vals uniq_init ∅ uniq_init_repr) as H. rewrite union_empty_l_L in H. exact H.
Qed.

(** Seventeen values make a counter large. *)
Definition large_demo : uniq := insert_all uniq_init (seqZ 1 17).

Lemma large_demo_repr : repr large_demo (list_to_set (seqZ 1 17)).
Proof. exact (insert_all_init (seqZ 1 17)). Qed.

(** [merge] with a counter that has become large represents the union of
    the two sets of values: bucket by bucket the larger rank, with [zeros] and
    the rank counts still in agreement. *)
Theorem merge_of_large U V R W :
  repr U V -> repr R W -> is_large R = true -> repr (merge U R) (V ∪ W).
Proof. apply merge_large_repr. Qed.

Lemma merge_of_large_witness : repr (merge uniq_init large_demo) (∅ ∪ list_to_set (seqZ 1 17)).
Proof. apply (merge_of_large uniq_init ∅ large_demo); [exact uniq_init_repr|exact large_demo_repr|vm_compute; reflexivity]. Defined.

(** [merge] with a counter that is still small loses values.  Because
    [sizeWithoutZeroElem] returns [bool], the loop runs at most once: the
    result represents the left side with the first cell of the small set and
    with zero if it is there, and with nothing else of the right side. *)
Theorem merge_of_small U V R W :
  repr U V -> repr R W -> is_large R = false ->
  repr (merge U R) (V ∪ list_to_set (take 1 (cells R)) ∪ (if has_zero_elem R then {[0]} else ∅)).
Proof.
  intros HU HR L. unfold merge. rewrite L. assert (forall X : gset Z, X ∪ ∅ = X) as E by (intros; apply union_empty_r_L).
  assert (repr (fold_left (fun U i => insert U (rd (buf R) i)) (seqZ 0 (Z.b2z (sizeWithoutZeroElem R))) U)
    (V ∪ list_to_set (take 1 (cells R)))) as H.
  { unfold sizeWithoutZeroElem, cells. destruct (used (buf R)) as [|n]; cbn -[insert rd]; [by rewrite E|].
    rewrite E. by apply insert_repr. }
  cbn zeta. destruct (has_zero_elem R); [by apply insert_repr|by rewrite E].
Qed.

Lemma merge_of_small_witness :
  repr (merge uniq_init (insert_all uniq_init [5; 7])) (∅ ∪ list_to_set [5] ∪ ∅) /\
  repr (insert_all uniq_init [5; 7]) (∅ ∪ list_to_set [5; 7]).
Proof.
  pose proof (insert_all_repr [5; 7] uniq_init ∅ uniq_init_repr) as H. split; [|exact H].
  exact (merge_of_small uniq_init ∅ (insert_all uniq_init [5; 7]) _ uniq_init_repr H ltac:(vm_compute; reflexivity)).
Defined.

Lemma small_size_repr U V : repr U V -> is_large U = false -> small_size U = Z.of_nat (size V).
Proof.
  intros H L. pose proof (NoDup_cells U (rp_shape _ _ H)) as Hnd. pose proof (nonzero_cells U V H L) as E.
  assert (size (nonzero V) = used (buf U)) as En.
  { rewrite E, size_list_to_set by done. unfold cells. by rewrite length_map, length_seq. }
  pose proof (used_length (buf U)) as Hu. rewrite (sh_buf _ (rp_shape _ _ H)) in Hu.
  assert (0 ∈ V <-> has_zero_elem U = true) as Hz.
  { split; [|intros Hz; apply (rp_sub _ _ H); by left]. intros Hv. by destruct (rp_small _ _ H L 0 Hv) as [[_ ?]|[? _]]. }
  assert (size V = used (buf U) + if has_zero_elem U then 1 else 0)%nat as ->.
  { rewrite <- En. unfold nonzero. destruct (has_zero_elem U).
    - rewrite (union_difference_singleton_L 0 V) at 1 by (by apply Hz). rewrite size_union by set_solver. rewrite size_singleton. lia.
    - rewrite difference_disjoint_L; [lia|]. apply disjoint_singleton_r. intros Hv. by apply Hz in Hv. }
  unfold small_size. unfold capacity in Hu. rewrite wrap_small; [destruct (has_zero_elem U); lia|].
  unfold fits. destruct (has_zero_elem U); lia.
Qed.

(** [size] of a counter that is not large is exact: the number of values
    it represents. *)
Theorem small_size_exact U V : repr U V -> is_large U = false -> small_size U = Z.of_nat (size V).
Proof. apply small_size_repr. Qed.

Lemma small_size_exact_witness : small_size (insert_all uniq_init [5; 7; 5; 0]) = 3.
Proof.
  rewrite (small_size_exact _ (∅ ∪ list_to_set [5; 7; 5; 0])); [vm_compute; reflexivity| |vm_compute; reflexivity].
  apply insert_all_repr, uniq_init_repr.
Defined.

(** The denominator of the estimate is exact: Horner's rule on the rank
    counts gives the sum over the buckets of 2^-rank, the numerator of which
    has 34 bits. *)
Theorem denominator_exact U V :
  repr U V ->
  (denominator_get U == inject_Z (zsum (map (fun b => 2 ^ (21 - rank U b))%Z (seqZ 0 4096))) / inject_Z (2 ^ 21))%Q.
Proof.
  intros H. pose proof (denominator_scaled U V H) as E. pose proof (sh_count _ (rp_shape _ _ H)) as L.
  unfold denominator_get. destruct (rank_count U) as [|c l]; [done|]. rewrite horner_spec, E. cbn in L. by replace (length l) with 21%nat by lia.
Qed.

Lemma denominator_exact_witness :
  (denominator_get large_demo ==
   inject_Z (zsum (map (fun b => 2 ^ (21 - rank large_demo b))%Z (seqZ 0 4096))) / inject_Z (2 ^ 21))%Q.
Proof. exact (denominator_exact large_demo _ large_demo_repr). Defined.
