(* ===== verification/StringsColumn.v ===== *)
(** * String columns for the device

    [CudaColumnString] (Columns/Cuda/CudaColumnString.h, .cu), the column of
    strings on the device into which host blocks are appended, and
    [CudaHostStringsBuffer] with [parallelMemcpy] (Columns/Cuda).

    A block arrives as the host's [ColumnString] has it: the bytes of its
    strings one after another and, for each string, the 64-bit offset of its
    end within the block.  [calcLengths] turns the offsets of all blocks into
    32-bit begins and lengths within the whole buffer.

    Shown: blocks that [hasSpace] lets in are stored without overrun, and
    after [calcLengths] row [i] of the column is the [i]-th string of the
    appended blocks; the constructor frees what it has allocated on each of its
    failures; [parallelMemcpy] copies exactly the range it is given, whatever
    the number and order of its threads. *)

From stdpp Require Import base list numbers.
From Stdlib Require Import ZArith Lia.
From S2P Require Import Prelude DeviceMemory.

#[local] Open Scope Z_scope.
#[local] Open Scope word_scope.

(** ** [CudaColumnString] *)

Record column := Column {
  str_num : Z;
  max_str_num : Z;
  sz : Z;
  max_sz : Z;
  buf : Z;
  lens : list Z;
  offsets : list Z;
  offsets64 : list Z;
  blocks_sizes : list Z;
  blocks_buf_sizes : list Z
}.

Inductive column_error :=
| ZeroSizeBuffer
| FailedStrings
| FailedLengths
| FailedOffsets
| FailedOffsets64.

(** The constructor.  [cudaMalloc i] is the result of the [i]-th allocation,
    an address or a failure; [garbage k] is what [k] fresh cells hold.  An
    exception comes with the addresses that have been freed. *)
Definition construct (cudaMalloc : nat -> option Z) (garbage : nat -> list Z) (max_str_num_ max_sz_ : Z)
    : (column_error * list Z) + column :=
  if (max_str_num_ =? 0) || (max_sz_ =? 0) then inl (ZeroSizeBuffer, [])
  else
    match cudaMalloc 0%nat with
    | None => inl (FailedStrings, [])
    | Some b =>
        match cudaMalloc 1%nat with
        | None => inl (FailedLengths, [b])
        | Some l =>
            match cudaMalloc 2%nat with
            | None => inl (FailedOffsets, [b; l])
            | Some o =>
                match cudaMalloc 3%nat with
                | None => inl (FailedOffsets64, [b; l; o])
                | Some o64 =>
                    let k := Z.to_nat max_str_num_ in
                    inr (Column 0 max_str_num_ 0 max_sz_ b (garbage k) (garbage k) (garbage k) [] [])
                end
            end
        end
    end.

Definition empty (c : column) : bool := (str_num c =? 0) || (sz c =? 0).

Definition hasSpace (c : column) (str_num_ str_buf_sz_ : Z) : bool :=
  if max_str_num c <? (str_num c +64 str_num_) then false
  else if max_sz c <? (sz c +64 str_buf_sz_) then false
  else true.

(** [cudaMemcpyAsync] of host bytes to the device. *)
Definition store_bytes (m : memory) (p : Z) (l : list Z) : memory :=
  fun x => if (p <=? x) && (x <? p + Z.of_nat (length l)) then rd l (x - p) else m x.

(** The cells from [i] on replaced by [l]. *)
Definition write_cells (cells : list Z) (i : Z) (l : list Z) : list Z :=
  take (Z.to_nat i) cells ++ l ++ drop (Z.to_nat i + length l) cells.

(** [addData(str_num_, str_buf_sz_, str_buf_, offsets_)], the host's arrays
    being given as lists of [str_buf_sz_] bytes and of [str_num_] offsets. *)
Definition addData (m : memory) (c : column) (str_buf_ offsets_ : list Z) : memory * column :=
  let str_num_ := Z.of_nat (length offsets_) in
  let str_buf_sz_ := Z.of_nat (length str_buf_) in
  (store_bytes m (buf c + sz c) str_buf_,
   Column (str_num c +64 str_num_) (max_str_num c) (sz c +64 str_buf_sz_) (max_sz c) (buf c) (lens c) (offsets c)
     (write_cells (offsets64 c) (str_num c) offsets_)
     (blocks_sizes c ++ [u32 str_num_]) (blocks_buf_sizes c ++ [u32 str_buf_sz_])).

Definition setSize (c : column) (str_num_ sz_ : Z) : column :=
  Column str_num_ (max_str_num c) sz_ (max_sz c) (buf c) (lens c) (offsets c) (offsets64 c)
    (blocks_sizes c) (blocks_buf_sizes c).

Definition reset (c : column) : column :=
  Column 0 (max_str_num c) 0 (max_sz c) (buf c) (lens c) (offsets c) (offsets64 c) [] [].

(** Thread [i] of [kerCalcLengths] for one block. *)
Definition kerCalcLengths (block_begin block_size block_offset block_buf_size : Z) (offsets64_ : list Z)
    (s : list Z * list Z) : list Z * list Z :=
  par_for (Z.to_nat block_size) (fun i '(lens_, offsets_) =>
    let i := Z.of_nat i in
    let local_offset_next := u32 (rd offsets64_ (block_begin +32 i)) in
    let local_offset := if 0 <? i then u32 (rd offsets64_ (block_begin +32 i -32 1)) else 0 in
    (wr lens_ (block_begin +32 i) (local_offset_next -32 local_offset),
     wr offsets_ (block_begin +32 i) (local_offset +32 block_offset))) s.

(** The loop of [calcLengths] over the blocks. *)
Fixpoint calc_blocks (block_begin block_offset : Z) (sizes buf_sizes : list Z) (offsets64_ : list Z)
    (s : list Z * list Z) : list Z * list Z :=
  match sizes, buf_sizes with
  | n :: sizes', k :: buf_sizes' =>
      calc_blocks (block_begin +32 n) (block_offset +32 k) sizes' buf_sizes' offsets64_
        (kerCalcLengths block_begin n block_offset k offsets64_ s)
  | _, _ => s
  end.

Definition calcLengths (c : column) : column :=
  let '(l, o) := calc_blocks 0 0 (blocks_sizes c) (blocks_buf_sizes c) (offsets64 c) (lens c, offsets c) in
  Column (str_num c) (max_str_num c) (sz c) (max_sz c) (buf c) l o (offsets64 c)
    (blocks_sizes c) (blocks_buf_sizes c).

(** ** [parallelMemcpy] *)

(** The range of thread [id]. *)
Definition my_start (id n threads_num : Z) : Z := (id *64 n) / threads_num.
Definition my_size (id n threads_num : Z) : Z :=
  (((id +64 1) *64 n) / threads_num) -64 my_start id n threads_num.

(** The caller copies the last range itself; [order] is the order in which
    the threads, the caller included, do their copies. *)
Definition parallelMemcpy (order : list nat) (m : memory) (x y n : Z) (threads_num : nat) : memory :=
  foldl (fun m id =>
    let s := my_start (Z.of_nat id) n (Z.of_nat threads_num) in
    memcpy m (x + s) (y + s) (my_size (Z.of_nat id) n (Z.of_nat threads_num))) m order.

(** ** [CudaHostStringsBuffer] *)

(** [buf] and [offsets64] are the addresses of pinned arrays. *)
Record host_buffer := HostBuffer {
  hb_str_num : Z;
  hb_max_str_num : Z;
  hb_sz : Z;
  hb_max_sz : Z;
  hb_buf : Z;
  hb_offsets64 : Z;
  hb_blocks_sizes : list Z;
  hb_blocks_buf_sizes : list Z
}.

Definition hb_empty (h : host_buffer) : bool := (hb_str_num h =? 0) || (hb_sz h =? 0).

Definition hb_hasSpace (h : host_buffer) (str_num_ str_buf_sz_ : Z) : bool :=
  if hb_max_str_num h <? (hb_str_num h +64 str_num_) then false
  else if hb_max_sz h <? (hb_sz h +64 str_buf_sz_) then false
  else true.

Definition hb_addData (order1 order2 : list nat) (m : memory) (h : host_buffer)
    (str_num_ str_buf_sz_ str_buf_ offsets_ : Z) (memcpy_threads_num_ : nat) : memory * host_buffer :=
  let m := parallelMemcpy order1 m (hb_buf h + hb_sz h) str_buf_ str_buf_sz_ memcpy_threads_num_ in
  let m := parallelMemcpy order2 m (hb_offsets64 h + 8 * hb_str_num h) offsets_ (str_num_ *64 8) memcpy_threads_num_ in
  (m, HostBuffer (hb_str_num h +64 str_num_) (hb_max_str_num h) (hb_sz h +64 str_buf_sz_) (hb_max_sz h)
        (hb_buf h) (hb_offsets64 h) (hb_blocks_sizes h ++ [u32 str_num_]) (hb_blocks_buf_sizes h ++ [u32 str_buf_sz_])).

Definition hb_reset (h : host_buffer) : host_buffer :=
  HostBuffer 0 (hb_max_str_num h) 0 (hb_max_sz h) (hb_buf h) (hb_offsets64 h) [] [].

Definition hb_setSize (h : host_buffer) (str_num_ sz_ : Z) : host_buffer :=
  HostBuffer str_num_ (hb_max_str_num h) sz_ (hb_max_sz h) (hb_buf h) (hb_offsets64 h)
    (hb_blocks_sizes h) (hb_blocks_buf_sizes h).

(** ** Blocks *)

(** A block is a list of strings, each a list of bytes with its terminating
    zero.  Where its rows start and end among its bytes. *)
Definition zlen {A} (l : list A) : Z := Z.of_nat (length l).

Definition row_start {A} (rows : list (list A)) (i : nat) : Z := zlen (concat (take i rows)).

Fixpoint ends {A} (acc : Z) (rows : list (list A)) : list Z :=
  match rows with
  | [] => []
  | r :: rows' => (acc + zlen r) :: ends (acc + zlen r) rows'
  end.

Lemma zlen_app {A} (l k : list A) : zlen (l ++ k) = zlen l + zlen k.
Proof. unfold zlen. rewrite length_app. lia. Qed.

Lemma zlen_nonneg {A} (l : list A) : 0 <= zlen l.
Proof. unfold zlen. lia. Qed.

Lemma length_ends {A} acc (rows : list (list A)) : length (ends acc rows) = length rows.
Proof. revert acc. induction rows as [|r rows IH]; intros acc; cbn; [done|]. by rewrite IH. Qed.

Lemma row_start_S {A} (rows : list (list A)) i r : rows !! i = Some r -> row_start rows (S i) = row_start rows i + zlen r.
Proof.
  intros H. unfold row_start. rewrite (take_S_r _ _ _ H), concat_app, zlen_app. cbn. by rewrite app_nil_r.
Qed.

Lemma ends_lookup {A} acc (rows : list (list A)) i : (i < length rows)%nat -> ends acc rows !! i = Some (acc + row_start rows (S i)).
Proof.
  revert acc i. induction rows as [|r rows IH]; intros acc i Hi; cbn in Hi; [lia|]. destruct i as [|i].
  - cbn. unfold row_start. cbn. by rewrite app_nil_r.
  - cbn [ends lookup list_lookup]. rewrite IH by lia. f_equal. unfold row_start. cbn [take concat]. rewrite zlen_app. lia.
Qed.

Lemma row_start_le {A} (rows : list (list A)) i : row_start rows i <= zlen (concat rows).
Proof.
  unfold row_start. rewrite <- (take_drop i rows) at 2. rewrite concat_app, zlen_app. pose proof (zlen_nonneg (concat (drop i rows))). lia.
Qed.

Lemma row_start_app {A} (rows k : list (list A)) i : row_start (rows ++ k) (length rows + i) = zlen (concat rows) + row_start k i.
Proof. unfold row_start. by rewrite take_app_add, concat_app, zlen_app. Qed.

(** The bytes of a row. *)
Lemma row_slice {A} (rows : list (list A)) i r :
  rows !! i = Some r -> take (length r) (drop (Z.to_nat (row_start rows i)) (concat rows)) = r.
Proof.
  intros H. rewrite <- (take_drop_middle rows i r H) at 2. rewrite concat_app. unfold row_start, zlen. rewrite Nat2Z.id.
  rewrite drop_app_length. cbn [concat]. apply take_app_length.
Qed.

(** ** Arrays *)

Lemma par_for_ext {S} k (f g : nat -> S -> S) s : (forall i s, (i < k)%nat -> f i s = g i s) -> par_for k f s = par_for k g s.
Proof.
  induction k as [|k IH]; intros H; [done|]. rewrite !par_for_S, IH by (intros; apply H; lia). apply H. lia.
Qed.

Lemma par_for_pair {S T} k (f : nat -> S -> S) (g : nat -> T -> T) s t :
  par_for k (fun i '(s, t) => (f i s, g i t)) (s, t) = (par_for k f s, par_for k g t).
Proof. induction k as [|k IH]; [done|]. by rewrite !par_for_S, IH. Qed.

(** Threads that write neighbouring cells from [B] on. *)
Lemma par_for_wr_at k B (f : nat -> Z) l :
  0 <= B ->
  let l' := par_for k (fun i l => wr l (B + Z.of_nat i) (f i)) l in
  length l' = length l /\
  forall b, 0 <= b < zlen l ->
    rd l' b = if decide (B <= b < B + Z.of_nat k) then f (Z.to_nat (b - B)) else rd l b.
Proof.
  intros HB. cbn zeta. induction k as [|k [IHl IH]].
  - split; [done|]. intros b Hb. by destruct (decide _); [lia|].
  - rewrite !par_for_S. split; [by rewrite length_wr|]. intros b Hb. unfold zlen in *.
    destruct (decide (b = B + Z.of_nat k)) as [->|Hne].
    + rewrite rd_wr_eq by lia. destruct (decide _); [|lia]. f_equal. lia.
    + rewrite rd_wr_ne, IH by lia. by do 2 destruct (decide _); try lia.
Qed.

Lemma length_write_cells l i k :
  0 <= i -> i + zlen k <= zlen l -> length (write_cells l i k) = length l.
Proof. unfold zlen, write_cells. intros. rewrite !length_app, length_take, length_drop. lia. Qed.

Lemma take_write_cells l i k :
  0 <= i -> i + zlen k <= zlen l -> take (Z.to_nat i + length k) (write_cells l i k) = take (Z.to_nat i) l ++ k.
Proof.
  unfold zlen, write_cells. intros. rewrite take_app_ge by (rewrite length_take; lia). rewrite length_take_le by lia.
  f_equal. rewrite take_app_le by lia. rewrite take_ge by lia. done.
Qed.

Lemma store_bytes_inside m p l : bytes (store_bytes m p l) p (length l) = l.
Proof.
  apply list_eq. intros i. destruct (decide (i < length l)%nat) as [Hi|Hi].
  - rewrite lookup_bytes by lia. destruct (lookup_lt_is_Some_2 l i Hi) as [x Hx]. rewrite Hx. f_equal. unfold store_bytes.
    destruct (Z.leb_spec p (p + Z.of_nat i)), (Z.ltb_spec (p + Z.of_nat i) (p + Z.of_nat (length l))); try lia. cbn.
    apply rd_lookup; [lia|]. by replace (Z.to_nat (p + Z.of_nat i - p)) with i by lia.
  - rewrite !lookup_ge_None_2; rewrite ?length_bytes; try lia. done.
Qed.

Lemma store_bytes_outside m p l x : x < p \/ p + zlen l <= x -> store_bytes m p l x = m x.
Proof. unfold store_bytes, zlen. intros. destruct (Z.leb_spec p x), (Z.ltb_spec x (p + Z.of_nat (length l))); done || lia. Qed.

(** ** What a column holds *)

(** The column [c] holds the strings of [blocks]. *)
Record col_rows (m : memory) (c : column) (blocks : list (list (list Z))) : Prop := {
  cr_num : str_num c = zlen (concat blocks) /\ str_num c <= max_str_num c < 2 ^ 32;
  cr_sz : sz c = zlen (concat (concat blocks)) /\ sz c <= max_sz c < 2 ^ 32;
  cr_bytes : bytes m (buf c) (Z.to_nat (sz c)) = concat (concat blocks);
  cr_offsets64 : take (Z.to_nat (str_num c)) (offsets64 c) = concat (map (ends 0) blocks);
  cr_arrays : zlen (lens c) = max_str_num c /\ zlen (offsets c) = max_str_num c /\ zlen (offsets64 c) = max_str_num c;
  cr_blocks : blocks_sizes c = map zlen blocks /\ blocks_buf_sizes c = map (fun b => zlen (concat b)) blocks
}.

Lemma hasSpace_spec c n k :
  0 <= str_num c < 2 ^ 32 -> 0 <= sz c < 2 ^ 32 -> 0 <= n < 2 ^ 63 -> 0 <= k < 2 ^ 63 ->
  hasSpace c n k = true <-> str_num c + n <= max_str_num c /\ sz c + k <= max_sz c.
Proof.
  intros H1 H2 Hn Hk. unfold hasSpace. rewrite !wrap_small by (unfold fits; lia).
  destruct (Z.ltb_spec (max_str_num c) (str_num c + n)), (Z.ltb_spec (max_sz c) (sz c + k)); split; (lia || done).
Qed.

Lemma addData_rows m c blocks b :
  col_rows m c blocks -> zlen b < 2 ^ 63 -> zlen (concat b) < 2 ^ 63 ->
  hasSpace c (zlen b) (zlen (concat b)) = true ->
  col_rows (addData m c (concat b) (ends 0 b)).1 (addData m c (concat b) (ends 0 b)).2 (blocks ++ [b]).
Proof.
  intros [[N1 N2] [S1 S2] B O (L1 & L2 & L3) [K1 K2]] Hb Hcb Hsp.
  pose proof (zlen_nonneg b) as Pb. pose proof (zlen_nonneg (concat b)) as Pc.
  pose proof (zlen_nonneg (concat blocks)) as Pn. pose proof (zlen_nonneg (concat (concat blocks))) as Ps.
  apply hasSpace_spec in Hsp as [H1 H2]; [|lia..].
  assert (zlen (concat (blocks ++ [b])) = str_num c + zlen b) as EN by (rewrite concat_app, zlen_app; cbn; rewrite app_nil_r; lia).
  assert (concat (concat (blocks ++ [b])) = concat (concat blocks) ++ concat b) as EC.
  { rewrite !concat_app. cbn. by rewrite app_nil_r. }
  assert (zlen (ends 0 b) = zlen b) as EE by (unfold zlen; by rewrite length_ends).
  split; cbn; fold (zlen (ends 0 b)); rewrite ?EE; fold (zlen (concat b)).
  - rewrite wrap_small by (unfold fits; lia). rewrite EN. lia.
  - rewrite wrap_small by (unfold fits; lia). rewrite EC, zlen_app. lia.
  - rewrite wrap_small by (unfold fits; lia). rewrite EC.
    replace (Z.to_nat (sz c + zlen (concat b))) with (Z.to_nat (sz c) + length (concat b))%nat by (unfold zlen in *; lia).
    rewrite bytes_app. f_equal.
    + rewrite <- B. apply bytes_agree. intros x Hx. apply store_bytes_outside. lia.
    + rewrite Z2Nat.id by lia. apply store_bytes_inside.
  - rewrite wrap_small by (unfold fits; lia).
    replace (Z.to_nat (str_num c + zlen b)) with (Z.to_nat (str_num c) + length (ends 0 b))%nat by (unfold zlen in *; rewrite ?length_ends; lia).
    rewrite take_write_cells by lia. rewrite O, map_app, concat_app. cbn. by rewrite app_nil_r.
  - rewrite L1, L2. split; [done|]. split; [done|]. unfold zlen in *. rewrite length_write_cells; unfold zlen; lia.
  - rewrite K1, K2, !map_app. cbn. rewrite !wrap_small by (unfold fits; lia). done.
Qed.

Lemma reset_rows m c blocks : col_rows m c blocks -> col_rows m (reset c) [].
Proof.
  intros [[N1 N2] [S1 S2] B O L K]. pose proof (zlen_nonneg (concat blocks)). pose proof (zlen_nonneg (concat (concat blocks))).
  split; cbn; try done; unfold zlen in *; cbn; try lia.
Qed.

Section calc.
Context (blocks : list (list (list Z))) (offs : list Z).
Let rows := concat blocks.
Hypothesis Hnum : zlen rows < 2 ^ 32.
Hypothesis Hsz : zlen (concat rows) < 2 ^ 32.
Hypothesis Hoffs : take (length rows) offs = concat (map (ends 0) blocks).

(** The rows below [k] have been given their begin and length. *)
Definition calculated (k : Z) (s : list Z * list Z) : Prop :=
  forall i r, rows !! i = Some r -> Z.of_nat i < k ->
    rd s.1 (Z.of_nat i) = zlen r /\ rd s.2 (Z.of_nat i) = row_start rows i.

Lemma rows_of pre b post : blocks = pre ++ b :: post -> rows = concat pre ++ b ++ concat post.
Proof. intros E. unfold rows. rewrite E, concat_app. done. Qed.

Lemma rd_offs pre b post i :
  blocks = pre ++ b :: post -> (i < length b)%nat ->
  rd offs (zlen (concat pre) + Z.of_nat i) = row_start b (S i).
Proof.
  intros E Hi. assert (length (concat (map (ends 0) pre)) = length (concat pre)) as Lp.
  { clear. induction pre as [|p pre IH]; cbn; [done|]. by rewrite !length_app, length_ends, IH. }
  assert (take (length rows) offs !! (length (concat pre) + i)%nat = Some (row_start b (S i))) as Hl.
  { rewrite Hoffs, E, map_app, concat_app. rewrite lookup_app_r by lia. cbn [map concat].
    rewrite lookup_app_l by (rewrite length_ends; lia). rewrite Lp. replace (length (concat pre) + i - length (concat pre))%nat with i by lia.
    by rewrite ends_lookup. }
  apply lookup_take_Some in Hl as [Hl _]. apply rd_lookup; [unfold zlen; lia|].
  replace (Z.to_nat _) with (length (concat pre) + i)%nat by (unfold zlen; lia). done.
Qed.

Lemma block_bounds pre b post :
  blocks = pre ++ b :: post ->
  zlen (concat pre) + zlen b <= zlen rows /\ zlen (concat (concat pre)) + zlen (concat b) <= zlen (concat rows).
Proof.
  intros E. rewrite (rows_of pre b post E), !concat_app, !zlen_app.
  pose proof (zlen_nonneg (concat post)). pose proof (zlen_nonneg (concat (concat post))). lia.
Qed.

(** One launch of the kernel, on a block. *)
Lemma kerCalcLengths_rows pre b post l o :
  blocks = pre ++ b :: post -> zlen rows <= zlen l -> zlen rows <= zlen o ->
  calculated (zlen (concat pre)) (l, o) ->
  let s := kerCalcLengths (zlen (concat pre)) (zlen b) (zlen (concat (concat pre))) (zlen (concat b)) offs (l, o) in
  calculated (zlen (concat pre) + zlen b) s /\ length s.1 = length l /\ length s.2 = length o.
Proof.
  intros E Hl Ho C. destruct (block_bounds pre b post E) as [B1 B2]. set (P := zlen (concat pre)) in *.
  pose proof (zlen_nonneg (concat pre)). pose proof (zlen_nonneg (concat (concat pre))). pose proof (zlen_nonneg b).
  set (Q := zlen (concat (concat pre))) in *.
  unfold kerCalcLengths. rewrite (par_for_ext _ _ (fun i '(lens_, offsets_) =>
    (wr lens_ (P + Z.of_nat i) (row_start b (S i) - row_start b i), wr offsets_ (P + Z.of_nat i) (Q + row_start b i)))).
  2:{ intros i [l' o'] Hi. assert (i < length b)%nat as Hi' by (unfold zlen in *; lia).
    pose proof (row_start_le b (S i)). pose proof (row_start_le b i). pose proof (zlen_nonneg (concat (take i b))). fold (row_start b i) in *.
    destruct (lookup_lt_is_Some_2 b i Hi') as [r Hr]. pose proof (row_start_S b i r Hr). pose proof (zlen_nonneg r).
    assert (forall z, 0 <= z < 2 ^ 32 -> u32 z = z) as W by (intros; by apply wrap_small).
    pose proof (rd_offs pre b post) as RO. fold P in RO.
    rewrite (W (P + Z.of_nat i)), (RO i E Hi') by (unfold zlen in *; lia).
    assert ((if 0 <? Z.of_nat i then u32 (rd offs (P + Z.of_nat i -32 1)) else 0) = row_start b i) as ->.
    { destruct i as [|i]; [done|]. destruct (Z.ltb_spec 0 (Z.of_nat (S i))); [|lia].
      rewrite (W (P + Z.of_nat (S i) - 1)) by (unfold zlen in *; lia).
      replace (P + Z.of_nat (S i) - 1) with (P + Z.of_nat i) by lia. rewrite (RO i E) by lia. apply W. lia. }
    rewrite (W (row_start b (S i))) by lia. rewrite !W by lia. by rewrite (Z.add_comm Q). }
  rewrite par_for_pair. cbn [fst snd].
  destruct (par_for_wr_at (Z.to_nat (zlen b)) P (fun i => row_start b (S i) - row_start b i) l ltac:(lia)) as [L1 R1].
  destruct (par_for_wr_at (Z.to_nat (zlen b)) P (fun i => Q + row_start b i) o ltac:(lia)) as [L2 R2].
  split; [|done]. intros i r Hr Hi. cbn [fst snd]. assert (Z.of_nat i < zlen rows) as Hin by (apply lookup_lt_Some in Hr; unfold zlen; lia).
  rewrite R1, R2 by lia. destruct (decide _) as [D|D]; [|apply C; [done|lia]].
  pose proof (rows_of pre b post E) as ER. unfold P, zlen in D.
  assert (exists j, i = (length (concat pre) + j)%nat /\ b !! j = Some r) as (j & -> & Hj).
  { exists (i - length (concat pre))%nat. split; [lia|]. rewrite ER in Hr. rewrite lookup_app_r in Hr by lia.
    rewrite lookup_app_l in Hr by lia. done. }
  replace (Z.to_nat (Z.of_nat (length (concat pre) + j) - P)) with j by (unfold P, zlen; lia).
  rewrite (row_start_S b j r Hj). split; [lia|]. rewrite ER, row_start_app. unfold Q. f_equal. unfold row_start.
  rewrite take_app_le; [done|]. apply lookup_lt_Some in Hj. lia.
Qed.

Lemma calc_blocks_rows post : forall pre l o,
  blocks = pre ++ post -> zlen rows <= zlen l -> zlen rows <= zlen o ->
  calculated (zlen (concat pre)) (l, o) ->
  let s := calc_blocks (zlen (concat pre)) (zlen (concat (concat pre))) (map zlen post)
             (map (fun b => zlen (concat b)) post) offs (l, o) in
  calculated (zlen rows) s /\ length s.1 = length l /\ length s.2 = length o.
Proof.
  induction post as [|b post IH]; intros pre l o E Hl Ho C; cbn [map calc_blocks].
  - cbn zeta. rewrite app_nil_r in E. unfold rows. rewrite E. done.
  - destruct (block_bounds pre b post E) as [B1 B2].
    pose proof (zlen_nonneg (concat pre)). pose proof (zlen_nonneg b). pose proof (zlen_nonneg (concat (concat pre))). pose proof (zlen_nonneg (concat b)).
    destruct (kerCalcLengths_rows pre b post l o E Hl Ho C) as (C' & L1 & L2).
    destruct (kerCalcLengths _ _ _ _ _ _) as [l' o']. cbn [fst snd] in *.
    assert (zlen (concat (pre ++ [b])) = zlen (concat pre) + zlen b) as E1 by (rewrite concat_app, zlen_app; cbn; by rewrite app_nil_r).
    assert (zlen (concat (concat (pre ++ [b]))) = zlen (concat (concat pre)) + zlen (concat b)) as E2 by (rewrite !concat_app, zlen_app; cbn; by rewrite app_nil_r).
    rewrite !wrap_small by (unfold fits; lia). rewrite <- E1, <- E2.
    destruct (IH (pre ++ [b]) l' o') as (C2 & M1 & M2).
    + rewrite E. by rewrite <- app_assoc.
    + unfold zlen in *. lia.
    + unfold zlen in *. lia.
    + by rewrite E1.
    + cbn zeta in *. split; [done|]. lia.
Qed.

End calc.

Lemma calcLengths_col m c blocks i r :
  col_rows m c blocks -> concat blocks !! i = Some r ->
  rd (lens (calcLengths c)) (Z.of_nat i) = zlen r /\
  rd (offsets (calcLengths c)) (Z.of_nat i) = row_start (concat blocks) i /\
  bytes m (buf c + row_start (concat blocks) i) (length r) = r.
Proof.
  intros [[N1 N2] [S1 S2] B O (L1 & L2 & L3) [K1 K2]] Hr. unfold calcLengths. rewrite K1, K2.
  destruct (calc_blocks_rows blocks (offsets64 c) ltac:(lia) ltac:(lia)
    ltac:(rewrite <- O; f_equal; unfold zlen in *; lia) blocks [] (lens c) (offsets c) eq_refl) as (C & M1 & M2);
    [lia|lia|intros ? ? ? ?; unfold zlen in *; cbn in *; lia|].
  cbn [concat] in C, M1, M2. change (zlen (@nil (list Z))) with 0 in *. change (zlen (@nil Z)) with 0 in *.
  destruct (calc_blocks _ _ _ _ _ _) as [l o]. cbn [lens offsets fst snd] in *.
  destruct (C i r Hr) as [E1 E2]; [apply lookup_lt_Some in Hr; unfold zlen; lia|]. split; [done|]. split; [done|].
  pose proof (row_slice (concat blocks) i r Hr) as E. rewrite <- B in E.
  pose proof (row_start_S (concat blocks) i r Hr). pose proof (row_start_le (concat blocks) (S i)).
  assert (0 <= row_start (concat blocks) i) by apply zlen_nonneg.
  rewrite drop_bytes, take_bytes in E by (unfold zlen in *; lia). rewrite Z2Nat.id in E by lia. done.
Qed.

Lemma calcLengths_keeps m c blocks : col_rows m c blocks -> col_rows m (calcLengths c) blocks.
Proof.
  intros [[N1 N2] [S1 S2] B O (L1 & L2 & L3) [K1 K2]]. unfold calcLengths. rewrite K1, K2.
  destruct (calc_blocks_rows blocks (offsets64 c) ltac:(lia) ltac:(lia)
    ltac:(rewrite <- O; f_equal; unfold zlen in *; lia) blocks [] (lens c) (offsets c) eq_refl) as (C & M1 & M2);
    [lia|lia|intros ? ? ? ?; unfold zlen in *; cbn in *; lia|].
  cbn [concat] in M1, M2. change (zlen (@nil (list Z))) with 0 in *. change (zlen (@nil Z)) with 0 in *.
  destruct (calc_blocks _ _ _ _ _ _) as [l o]. cbn [fst snd] in *. split; cbn; try done. unfold zlen in *. lia.
Qed.

(** A sequence of blocks appended the way the aggregator does it, each when
    [hasSpace] has agreed. *)
Fixpoint append (m : memory) (c : column) (blocks : list (list (list Z))) : option (memory * column) :=
  match blocks with
  | [] => Some (m, c)
  | b :: blocks' =>
      if hasSpace c (zlen b) (zlen (concat b)) then
        let '(m', c') := addData m c (concat b) (ends 0 b) in append m' c' blocks'
      else None
  end.

Definition block_small (b : list (list Z)) : Prop := zlen b < 2 ^ 63 /\ zlen (concat b) < 2 ^ 63.

Lemma addData_outside m c blocks b x :
  col_rows m c blocks -> block_small b -> hasSpace c (zlen b) (zlen (concat b)) = true ->
  x < buf c \/ buf c + max_sz c <= x -> (addData m c (concat b) (ends 0 b)).1 x = m x.
Proof.
  intros [[N1 N2] [S1 S2] _ _ _ _] [Hb1 Hb2] H Hx. pose proof (zlen_nonneg (concat blocks)). pose proof (zlen_nonneg (concat (concat blocks))).
  pose proof (zlen_nonneg b). pose proof (zlen_nonneg (concat b)).
  apply hasSpace_spec in H as [_ H]; [|lia..]. apply store_bytes_outside. lia.
Qed.

Lemma append_rows new : forall m c blocks m' c',
  col_rows m c blocks -> Forall block_small new -> append m c new = Some (m', c') ->
  col_rows m' c' (blocks ++ new) /\ buf c' = buf c /\ max_sz c' = max_sz c /\
  (forall x, x < buf c \/ buf c + max_sz c <= x -> m' x = m x).
Proof.
  induction new as [|b new IH]; intros m c blocks m' c' C F E; cbn [append] in E.
  - injection E as <- <-. rewrite app_nil_r. done.
  - apply list.Forall_cons in F as [Hb F]. destruct (hasSpace _ _ _) eqn:Hs; [|done].
    destruct (addData m c (concat b) (ends 0 b)) as [m1 c1] eqn:Ea.
    pose proof (addData_rows m c blocks b C (proj1 Hb) (proj2 Hb) Hs) as C1.
    pose proof (fun x => addData_outside m c blocks b x C Hb Hs) as Out. rewrite Ea in C1, Out. cbn [fst snd] in *.
    assert (buf c1 = buf c /\ max_sz c1 = max_sz c) as [Eb Em] by (injection Ea as _ <-; done).
    destruct (IH _ _ _ _ _ C1 F E) as (C2 & E1 & E2 & E3). rewrite <- app_assoc in C2. split; [done|]. split; [congruence|].
    split; [congruence|]. intros x Hx. rewrite E3, Out; [done|done|]. rewrite Eb, Em. done.
Qed.

Lemma construct_rows cudaMalloc garbage n k c m :
  (forall j, length (garbage j) = j) -> 0 <= n < 2 ^ 32 -> 0 <= k < 2 ^ 32 ->
  construct cudaMalloc garbage n k = inr c -> col_rows m c [].
Proof.
  intros G Hn Hk E. unfold construct in E. destruct (_ || _); [done|].
  destruct (cudaMalloc 0%nat), (cudaMalloc 1%nat), (cudaMalloc 2%nat), (cudaMalloc 3%nat); try done.
  injection E as <-. split; cbn; try done. unfold zlen. rewrite G. lia.
Qed.

(** ** Properties *)

(** The column gives back the strings that were put in.  After any blocks
    have been appended to a new column, each when [hasSpace] agreed, and
    [calcLengths] has run, row [i] lies at its offset with its length: its
    bytes are those of the [i]-th string of the blocks together.  Nothing
    outside the column's buffer has been written. *)
Theorem column_roundtrip cudaMalloc garbage n k c m blocks m' c' :
  (forall j, length (garbage j) = j) -> 0 <= n < 2 ^ 32 -> 0 <= k < 2 ^ 32 ->
  construct cudaMalloc garbage n k = inr c -> Forall block_small blocks -> append m c blocks = Some (m', c') ->
  (forall i r, concat blocks !! i = Some r ->
     rd (lens (calcLengths c')) (Z.of_nat i) = zlen r /\
     bytes m' (buf c' + rd (offsets (calcLengths c')) (Z.of_nat i)) (length r) = r) /\
  (forall x, x < buf c \/ buf c + max_sz c <= x -> m' x = m x).
Proof.
  intros G Hn Hk Ec F Ea. pose proof (construct_rows _ _ _ _ _ m G Hn Hk Ec) as C.
  destruct (append_rows blocks m c [] m' c' C F Ea) as (C' & _ & _ & Out). split; [|done].
  intros i r Hr. destruct (calcLengths_col m' c' blocks i r C' Hr) as (E1 & E2 & E3). by rewrite E2.
Qed.

Definition demo_column : column := Column 0 4 0 64 4096 [7; 7; 7; 7] [7; 7; 7; 7] [7; 7; 7; 7] [] [].
Definition demo_blocks : list (list (list Z)) := [[[65; 66; 0]; [0]]; [[67; 0]]].

Lemma column_roundtrip_witness :
  match append (fun _ => 0) demo_column demo_blocks with
  | Some (m', c') => bytes m' (4096 + rd (offsets (calcLengths c')) 2) 2 = [67; 0]
  | None => False
  end.
Proof.
  assert (option_map (fun p => buf p.2) (append (fun _ => 0) demo_column demo_blocks) = Some 4096) as Eb by (vm_compute; reflexivity).
  destruct (append (fun _ => 0) demo_column demo_blocks) as [[m' c']|] eqn:E; [|discriminate Eb]. injection Eb as Eb.
  destruct (column_roundtrip (fun i => Some (4096 * (1 + Z.of_nat i))) (fun k => replicate k 7) 4 64 demo_column (fun _ => 0) demo_blocks m' c') as [H _].
  - intros j. apply length_replicate.
  - lia.
  - lia.
  - reflexivity.
  - repeat constructor; vm_compute; reflexivity.
  - exact E.
  - destruct (H 2%nat [67; 0] eq_refl) as [_ H2]. rewrite Eb in H2. exact H2.
Defined.

(** The constructor does not leak.  When an allocation fails, the
    exception thrown is the one for that allocation, and exactly the buffers
    that had been allocated before it have been freed. *)
Theorem construct_no_leak cudaMalloc garbage n k e freed :
  construct cudaMalloc garbage n k = inl (e, freed) ->
  match e with
  | ZeroSizeBuffer => (n = 0 \/ k = 0) /\ freed = []
  | FailedStrings => cudaMalloc 0%nat = None /\ freed = []
  | FailedLengths => cudaMalloc 1%nat = None /\ Some <$> freed = cudaMalloc <$> [0%nat]
  | FailedOffsets => cudaMalloc 2%nat = None /\ Some <$> freed = cudaMalloc <$> [0; 1]%nat
  | FailedOffsets64 => cudaMalloc 3%nat = None /\ Some <$> freed = cudaMalloc <$> [0; 1; 2]%nat
  end.
Proof.
  unfold construct. destruct (Z.eqb_spec n 0), (Z.eqb_spec k 0); cbn [orb]; try (intros [= <- <-]; auto; fail).
  destruct (cudaMalloc 0%nat) eqn:E0; [|by intros [= <- <-]].
  destruct (cudaMalloc 1%nat) eqn:E1; [|intros [= <- <-]; cbn; by rewrite E0].
  destruct (cudaMalloc 2%nat) eqn:E2; [|intros [= <- <-]; cbn; by rewrite E0, E1].
  destruct (cudaMalloc 3%nat) eqn:E3; [done|intros [= <- <-]; cbn; by rewrite E0, E1, E2].
Qed.

Lemma construct_no_leak_witness :
  None = @None Z /\ Some <$> [16; 32] = (fun i => if Nat.eqb i 2 then None else Some (16 * (1 + Z.of_nat i))) <$> [0; 1]%nat.
Proof.
  exact (construct_no_leak (fun i => if Nat.eqb i 2 then None else Some (16 * (1 + Z.of_nat i))) (fun k => replicate k 0) 4 64
    FailedOffsets [16; 32] eq_refl).
Defined.

(** *** [parallelMemcpy] *)

Lemma start_mono id n t : 0 < t -> 0 <= n -> 0 <= id -> id * n / t <= (id + 1) * n / t.
Proof. intros. apply Z.div_le_mono; nia. Qed.

Section memcpy.
Context (x y n : Z) (k : nat).
Hypothesis Hk : (0 < k)%nat.
Hypothesis Hn : 0 <= n.
Hypothesis Hov : Z.of_nat k * n < 2 ^ 64 /\ Z.of_nat k < 2 ^ 64.
Hypothesis Hap : x + n <= y \/ y + n <= x.

Let T := Z.of_nat k.

Lemma range_of id :
  (id < k)%nat -> my_start (Z.of_nat id) n T = Z.of_nat id * n / T /\
  my_size (Z.of_nat id) n T = (Z.of_nat id + 1) * n / T - Z.of_nat id * n / T /\
  0 <= Z.of_nat id * n / T <= (Z.of_nat id + 1) * n / T /\ (Z.of_nat id + 1) * n / T <= n.
Proof.
  intros Hid. assert (0 < T) by lia. assert (Z.of_nat id * n < 2 ^ 64) by nia. assert ((Z.of_nat id + 1) * n < 2 ^ 64) by nia.
  assert (0 <= Z.of_nat id * n / T) by (apply Z.div_pos; nia). pose proof (start_mono (Z.of_nat id) n T ltac:(lia) Hn ltac:(lia)).
  assert ((Z.of_nat id + 1) * n / T <= n) as Hle by (apply Z.div_le_upper_bound; nia).
  assert (n < 2 ^ 64) by nia. unfold my_size, my_start.
  rewrite (wrap_small 64 (Z.of_nat id * n)), (wrap_small 64 (Z.of_nat id + 1)), (wrap_small 64 ((Z.of_nat id + 1) * n)) by (unfold fits; nia).
  rewrite wrap_small by (unfold fits; lia). done.
Qed.

(** The offset [j] is in the range of one of the threads [done]. *)
Definition covered (done : list nat) (j : Z) : Prop :=
  exists id, id ∈ done /\ Z.of_nat id * n / T <= j < (Z.of_nat id + 1) * n / T.

Lemma pieces_copied m0 order : Forall (fun id => (id < k)%nat) order ->
  let m := parallelMemcpy order m0 x y n k in
  (forall a, a < x \/ x + n <= a -> m a = m0 a) /\
  (forall j, 0 <= j < n -> covered order j -> m (x + j) = m0 (y + j)).
Proof.
  intros F. unfold parallelMemcpy. fold T. induction order as [|id order IH] using rev_ind; cbn zeta in *.
  - split; [done|]. intros j _ (id & Hid & _). by apply elem_of_nil in Hid.
  - apply Forall_app in F as [F Fid]. rewrite list.Forall_singleton in Fid. destruct (IH F) as [O1 O2]. clear IH.
    rewrite foldl_app. cbn [foldl]. set (m := foldl _ m0 order) in *.
    destruct (range_of id Fid) as (-> & -> & R1 & R2). split.
    + intros a Ha. rewrite memcpy_outside by lia. by apply O1.
    + intros j Hj (id' & Hid' & Hr). destruct (decide (Z.of_nat id * n / T <= j < (Z.of_nat id + 1) * n / T)) as [D|D].
      * rewrite memcpy_inside by lia. rewrite O1 by lia. f_equal. lia.
      * rewrite memcpy_outside by lia. apply O2; [done|]. exists id'. split; [|done].
        apply elem_of_app in Hid' as [?|Hid']; [done|]. apply list_elem_of_singleton in Hid'. subst id'. lia.
Qed.

Lemma pieces_cover order : order ≡ₚ seq 0 k -> forall j, 0 <= j < n -> covered order j.
Proof.
  intros P j Hj. assert (0 < T) by lia.
  assert (exists id, (id < k)%nat /\ Z.of_nat id * n / T <= j < (Z.of_nat id + 1) * n / T) as (id & Hid & Hr).
  { assert (forall c : nat, Z.of_nat c <= T -> j < Z.of_nat c * n / T ->
      exists id, (id < c)%nat /\ Z.of_nat id * n / T <= j < (Z.of_nat id + 1) * n / T) as Hex.
    { induction c as [|c IH]; intros Hc Hjc; [change (Z.of_nat 0) with 0 in Hjc; rewrite Z.mul_0_l, Zdiv_0_l in Hjc; lia|].
      destruct (Z_lt_le_dec j (Z.of_nat c * n / T)) as [D|D].
      - destruct (IH ltac:(lia) D) as (id & ? & ?). exists id. split; [lia|done].
      - exists c. split; [lia|]. split; [done|]. by replace (Z.of_nat c + 1) with (Z.of_nat (S c)) by lia. }
    destruct (Hex k) as (id & Hid & Hr); [done| |exists id; done]. fold T. rewrite (Z.mul_comm T), Z.div_mul by lia. lia. }
  exists id. split; [|done]. rewrite P. apply elem_of_seq. lia.
Qed.

End memcpy.

(** [parallelMemcpy] is [memcpy].  For every number of threads and every
    order in which they get to run, the destination holds the source's bytes
    afterwards and nothing else has changed, as long as the product of the
    size and the number of threads does not overflow. *)
Theorem parallelMemcpy_correct order m x y n k :
  (0 < k)%nat -> 0 <= n -> Z.of_nat k * n < 2 ^ 64 /\ Z.of_nat k < 2 ^ 64 -> x + n <= y \/ y + n <= x ->
  order ≡ₚ seq 0 k ->
  forall a, parallelMemcpy order m x y n k a = memcpy m x y n a.
Proof.
  intros Hk Hn Hov Hap P a.
  assert (Forall (fun id => (id < k)%nat) order) as F.
  { apply list.Forall_forall. intros id Hid. rewrite P in Hid. apply elem_of_seq in Hid. lia. }
  destruct (pieces_copied x y n k Hk Hn Hov Hap m order F) as [O1 O2].
  destruct (decide (x <= a < x + n)) as [D|D].
  - rewrite memcpy_inside by lia. specialize (O2 (a - x) ltac:(lia)). replace (x + (a - x)) with a in O2 by lia. apply O2.
    by apply pieces_cover; try lia.
  - rewrite memcpy_outside by lia. apply O1. lia.
Qed.

Lemma parallelMemcpy_correct_witness : parallelMemcpy [2; 0; 1]%nat (fun z => z mod 256) 1000 2000 10 3 1004 = 2004 mod 256.
Proof.
  rewrite (parallelMemcpy_correct [2; 0; 1]%nat (fun z => z mod 256) 1000 2000 10 3); [reflexivity|lia|lia|lia|lia|].
  exact (Permutation_app_comm [2%nat] [0; 1]%nat).
Defined.
