(* ===== verification/AggregateFunctions.v ===== *)
(** * Aggregate functions on the device

    [ICudaAggregateFunction] and its two implementations, [count] and [uniq]
    (AggregateFunctions/Cuda).  The interface is the class
    [CudaAggregateFunction]; what the aggregator may rely on is the class
    [AggregateLaws]: a place stands for the list of the values of its group,
    initialisation gives places that stand for no values, and [cudaAddBulk]
    extends each place by the values of the rows whose bucket it is, for every
    interleaving of the kernel's threads.  Both functions have these laws.
    [MergeLaws], that [cudaMergeBulk] joins the lists, holds for [count]; for
    [uniq] it does not, since its [merge] drops values of small sets. *)

From stdpp Require Import base list gmap numbers.
From Stdlib Require Import ZArith Lia.
From S2P Require Import Prelude DeviceMemory MurmurHash.
From S2P Require CityHashHost.
From S2P Require Import CityHashDevice HyperLogLog.
From S2P Require StringsColumn.

#[local] Open Scope Z_scope.
#[local] Open Scope word_scope.

(** ** Kernels whose threads make one atomic addition *)

(** [act i] is what thread [i] does: nothing, or an addition to a cell.  The
    state is the cells and which threads have returned. *)
Definition atomic_step (act : nat -> option (Z * Z)) (s : list Z * list bool) (turn : nat * bool) : list Z * list bool :=
  let i := turn.1 in
  match s.2 !! i with
  | Some false =>
      (match act i with Some (b, v) => wr s.1 b (rd s.1 b +64 v) | None => s.1 end, <[i := true]> s.2)
  | _ => s
  end.

Definition grid_size (n : nat) : nat := 256 * (n / 256 + 1).

Lemma grid_size_ge n : (n <= grid_size n)%nat.
Proof. unfold grid_size. pose proof (Nat.div_mod n 256 ltac:(lia)). pose proof (Nat.mod_upper_bound n 256 ltac:(lia)). lia. Qed.

(** The cells when all threads have returned. *)
Definition atomic_kernel (act : nat -> option (Z * Z)) (threads_num : nat) (s : schedule) (cells : list Z) : option (list Z) :=
  let '(cells', returned) := foldl (atomic_step act) (cells, replicate threads_num false) s in
  if forallb id returned then Some cells' else None.

(** ** [CudaAggregateFunctionCount] *)

Definition add_one (elements_num : nat) (res_buckets : list Z) (i : nat) : option (Z * Z) :=
  if negb (i <? elements_num)%nat then None else Some (rd res_buckets (Z.of_nat i), 1).

Definition kerCudaAddBulkCount (s : schedule) (places : list Z) (elements_num : nat) (res_buckets : list Z) : option (list Z) :=
  atomic_kernel (add_one elements_num res_buckets) (grid_size elements_num) s places.

Definition add_from (elements_num : nat) (places_from res_buckets : list Z) (i : nat) : option (Z * Z) :=
  if negb (i <? elements_num)%nat then None
  else
    let res_bucket := rd res_buckets (Z.of_nat i) in
    if res_bucket =? u32 (Z.lnot 0) then None
    else Some (res_bucket, rd places_from (Z.of_nat i)).

Definition kerCudaMergeBulkCount (s : schedule) (places : list Z) (elements_num : nat) (places_from res_buckets : list Z)
    : option (list Z) :=
  atomic_kernel (add_from elements_num places_from res_buckets) (grid_size elements_num) s places.

(** ** [CudaAggregateFunctionUniq] *)

(** The threads of [kerCudaAddBulk] with the number of the place each works
    on; within a place they are the threads of the distinct counter. *)
Record bulk := Bulk { bulk_places : list uniq; bulk_threads : list (Z * thread) }.

Definition bulk_step (P0 : list uniq) (g : bulk) (turn : nat * bool) : bulk :=
  match bulk_threads g !! turn.1 with
  | None => g
  | Some (b, t) =>
      if done t then g
      else
        match bulk_places g !! Z.to_nat b, P0 !! Z.to_nat b with
        | Some U, Some U0 =>
            let '(U', p) := insert_step U0 turn.2 (t_val t) (t_pc t) U in
            Bulk (<[Z.to_nat b := U']> (bulk_places g)) (<[turn.1 := (b, Thread (t_val t) p)]> (bulk_threads g))
        | _, _ => g
        end
  end.

Definition bulk_done (g : bulk) : bool := forallb (fun t => done t.2) (bulk_threads g).

Definition bulk_launch (places : list uniq) (elements_num : nat) (hashes res_buckets : list Z) : bulk :=
  Bulk places (map (fun i => (rd res_buckets (Z.of_nat i), Thread (rd hashes (Z.of_nat i)) PLoad)) (seq 0 elements_num)).

Definition kerCudaAddBulk (s : schedule) (places : list uniq) (elements_num : nat) (hashes res_buckets : list Z)
    : option (list uniq) :=
  let g := foldl (bulk_step places) (bulk_launch places elements_num hashes res_buckets) s in
  if bulk_done g then Some (bulk_places g) else None.

(** Thread [i] of [kerCudaMergeBulk]. *)
Definition merge_row (elements_num : nat) (places_from : list uniq) (res_buckets : list Z) (places : list uniq) (i : nat)
    : list uniq :=
  if negb (i <? elements_num)%nat then places
  else
    let res_bucket := rd res_buckets (Z.of_nat i) in
    if res_bucket =? u32 (Z.lnot 0) then places
    else match places !! Z.to_nat res_bucket, places_from !! i with
    | Some U, Some R => <[Z.to_nat res_bucket := merge U R]> places
    | _, _ => places
    end.

Definition kerCudaMergeBulk (order : list nat) (places : list uniq) (elements_num : nat) (places_from : list uniq)
    (res_buckets : list Z) : list uniq :=
  foldl (merge_row elements_num places_from res_buckets) places order.

(** [cudaMemset], then [kerCudaInitAggregateData]. *)
Definition uniq_cudaInitAggregateData (places_num : nat) : list uniq :=
  map initNonzeroData (replicate places_num uniq_memset).

Definition uniq_cudaAddBulk (s : schedule) (m : memory) (str_column : StringsColumn.column) (elements_num : nat)
    (res_buckets : list Z) (places : list uniq) : option (list uniq) :=
  match cudaCalcCityHash64 elements_num m (StringsColumn.buf str_column) false
          (StringsColumn.lens str_column) (StringsColumn.offsets str_column) with
  | Some hashes => kerCudaAddBulk s places elements_num hashes res_buckets
  | None => None
  end.

(** ** The interface *)

(** [cudaMergeBulk] takes a schedule; where a thread merges a whole place at
    once every thread has one turn, and only the order of the threads matters.  [getResult] is not given for
    a counter that has become large, whose size is a floating point estimate. *)
Class CudaAggregateFunction := {
  agg_data : Type;
  cudaSizeOfData : Z;
  isDataNeeded : bool;
  cudaInitAggregateData : nat -> list agg_data;
  cudaSizeOfAddBulkInternalBuf : Z -> Z;
  cudaAddBulk : schedule -> memory -> StringsColumn.column -> nat -> list Z -> list agg_data -> option (list agg_data);
  cudaMergeBulk : schedule -> list agg_data -> nat -> list agg_data -> list Z -> option (list agg_data);
  getResult : agg_data -> option Z
}.

Definition CudaAggregateFunctionCount : CudaAggregateFunction := {|
  agg_data := Z;
  cudaSizeOfData := 8;
  isDataNeeded := false;
  cudaInitAggregateData places_num := replicate places_num 0;
  cudaSizeOfAddBulkInternalBuf _ := 0;
  cudaAddBulk s m str_column elements_num res_buckets places := kerCudaAddBulkCount s places elements_num res_buckets;
  cudaMergeBulk s places elements_num places_from res_buckets :=
    kerCudaMergeBulkCount s places elements_num places_from res_buckets;
  getResult place := Some place
|}.

Definition CudaAggregateFunctionUniq : CudaAggregateFunction := {|
  agg_data := uniq;
  cudaSizeOfData := 4336;
  isDataNeeded := true;
  cudaInitAggregateData := uniq_cudaInitAggregateData;
  cudaSizeOfAddBulkInternalBuf max_elements_num := 8 * max_elements_num;
  cudaAddBulk := uniq_cudaAddBulk;
  cudaMergeBulk s places elements_num places_from res_buckets :=
    if forallb (fun i => turns i s =? 1)%nat (seq 0 elements_num) then
      Some (kerCudaMergeBulk (map fst s) places elements_num places_from res_buckets)
    else None;
  getResult U := if is_large U then None else Some (u32 (small_size U))
|}.

(** ** Atomic additions *)

(** What thread [i] adds to cell [b]. *)
Definition contribution (act : nat -> option (Z * Z)) (b : Z) (i : nat) : Z :=
  match act i with Some (b', v) => if b' =? b then v else 0 | None => 0 end.

Section atomic.
Context (act : nat -> option (Z * Z)) (n : nat) (cells : list Z).
Hypothesis Hact : forall i b v, act i = Some (b, v) -> 0 <= b < Z.of_nat (length cells).

Definition atomic_inv (s : list Z * list bool) : Prop :=
  length s.1 = length cells /\ length s.2 = n /\
  forall b, 0 <= b < Z.of_nat (length cells) -> fits 64 (rd cells b) ->
    rd s.1 b = u64 (rd cells b + zsum (map (fun i => if nth i s.2 false then contribution act b i else 0) (seq 0 n))).

Lemma atomic_step_inv s t : atomic_inv s -> atomic_inv (atomic_step act s t).
Proof.
  intros (L1 & L2 & R). unfold atomic_step. destruct (s.2 !! t.1) as [[|]|] eqn:E; [by split| |by split].
  pose proof (lookup_lt_Some _ _ _ E) as Hlt.
  split; [|split; [cbn; by rewrite length_insert|]]; cbn [fst snd].
  { destruct (act t.1) as [[b v]|]; [by rewrite length_wr|done]. }
  intros b Hb Hf. rewrite (zsum_point (fun i => if nth i s.2 false then contribution act b i else 0) _ (seq 0 n) t.1).
  - assert (nth t.1 s.2 false = false) as -> by (by apply nth_lookup_Some).
    assert (nth t.1 (<[t.1:=true]> s.2) false = true) as -> by (apply nth_lookup_Some; by apply list_lookup_insert_eq).
    set (S0 := zsum _) in *. specialize (R b Hb Hf). unfold contribution. destruct (act t.1) as [[b' v]|] eqn:Ea.
    + pose proof (Hact _ _ _ Ea). destruct (Z.eqb_spec b' b) as [->|].
      * rewrite rd_wr_eq by lia. rewrite R, wrap_add_l. f_equal. lia.
      * rewrite rd_wr_ne by lia. rewrite R. f_equal. lia.
    + rewrite R. f_equal. lia.
  - apply NoDup_seq.
  - apply elem_of_seq. lia.
  - intros y Hy. assert (nth y (<[t.1:=true]> s.2) false = nth y s.2 false) as ->; [|done].
    rewrite !nth_lookup. by rewrite list_lookup_insert_ne.
Qed.

Lemma atomic_kernel_spec s cells' :
  atomic_kernel act n s cells = Some cells' ->
  length cells' = length cells /\
  forall b, 0 <= b < Z.of_nat (length cells) -> fits 64 (rd cells b) ->
    rd cells' b = u64 (rd cells b + zsum (map (contribution act b) (seq 0 n))).
Proof.
  intros E. unfold atomic_kernel in E.
  assert (atomic_inv (cells, replicate n false)) as I.
  { split; [done|]. split; [apply length_replicate|]. intros b Hb Hf. rewrite zsum_zero; [by rewrite Z.add_0_r, wrap_small|].
    intros i Hi. apply elem_of_seq in Hi. cbn. by rewrite (nth_lookup_Some _ _ _ false) by (apply lookup_replicate_2; lia). }
  assert (forall s0 st, atomic_inv st -> atomic_inv (foldl (atomic_step act) st s0)) as Run.
  { induction s0 as [|t s0 IH]; intros st Hst; [done|]. cbn. by apply IH, atomic_step_inv. }
  specialize (Run s _ I). destruct (foldl _ _ s) as [c' r]. destruct (forallb id r) eqn:D; [|done]. injection E as ->.
  destruct Run as (L1 & L2 & R). cbn [fst snd] in *. split; [done|]. intros b Hb Hf. rewrite R by done. do 3 f_equal.
  apply map_ext_in. intros i Hi. apply list_elem_of_In, elem_of_seq in Hi. rewrite forallb_forall in D.
  destruct (lookup_lt_is_Some_2 r i ltac:(lia)) as [x Hx]. rewrite (nth_lookup_Some _ _ _ _ Hx).
  specialize (D x). change (id x) with x in D. rewrite D; [done|]. apply list_elem_of_In. by eapply list_elem_of_lookup_2.
Qed.

End atomic.

(** ** The places of the distinct counters *)

(** The threads and turns that concern place [b]. *)
Definition of_place {A} (b : Z) (l : list (Z * A)) : list A := map snd (filter (fun t => t.1 = b) l).

Definition place_turns (b : Z) (buckets : list Z) (s : schedule) : schedule :=
  omap (fun t => match buckets !! t.1 with
                 | Some b' => if decide (b' = b) then Some (length (filter (fun c => c = b) (take t.1 buckets)), t.2) else None
                 | None => None
                 end) s.

Lemma of_place_lookup {A} b (l : list (Z * A)) i x :
  l !! i = Some (b, x) -> of_place b l !! length (filter (fun c => c = b) (take i l.*1)) = Some x.
Proof.
  revert i. induction l as [|[c y] l IH]; intros [|i] H; cbn in H; [done|done| |].
  - injection H as -> ->. unfold of_place. cbn. by rewrite decide_True.
  - specialize (IH i H). unfold of_place in *. rewrite fmap_cons. cbn [take]. rewrite !filter_cons. cbn [fst].
    destruct (decide (c = b)); [|done]. cbn. done.
Qed.

Lemma of_place_insert {A} b (l : list (Z * A)) i x y :
  l !! i = Some (b, x) ->
  of_place b (<[i := (b, y)]> l) = <[length (filter (fun c => c = b) (take i l.*1)) := y]> (of_place b l).
Proof.
  revert i. induction l as [|[c z] l IH]; intros [|i] H; cbn in H; [done|done| |].
  - injection H as -> ->. unfold of_place. cbn [list_insert base.insert]. rewrite !filter_cons. cbn [fst]. by rewrite !decide_True.
  - specialize (IH i H). unfold of_place in *. cbn [list_insert base.insert]. rewrite fmap_cons. cbn [take]. rewrite !filter_cons. cbn [fst].
    destruct (decide (c = b)); [|done]. exact (f_equal (cons z) IH).
Qed.

Lemma of_place_other {A} b c (l : list (Z * A)) i x y :
  l !! i = Some (c, x) -> c <> b -> of_place b (<[i := (c, y)]> l) = of_place b l.
Proof.
  intros H Hne. revert i H. induction l as [|[d z] l IH]; intros [|i] H; cbn in H; [done|done| |].
  - injection H as -> ->. unfold of_place. cbn [list_insert base.insert]. rewrite !filter_cons. cbn [fst]. by rewrite !decide_False.
  - specialize (IH i H). unfold of_place in *. cbn [list_insert base.insert]. rewrite !filter_cons. cbn [fst].
    destruct (decide (d = b)); [|done]. exact (f_equal (cons z) IH).
Qed.

(** What the threads do to place [b] is a run of its own threads. *)
Lemma bulk_project P0 b U0 (s : schedule) : forall g U,
  0 <= b -> Forall (fun t => 0 <= t.1) (bulk_threads g) ->
  P0 !! Z.to_nat b = Some U0 -> bulk_places g !! Z.to_nat b = Some U ->
  let g' := foldl (bulk_step P0) g s in
  let r := run U0 (place_turns b (bulk_threads g).*1 s) (Grid U (of_place b (bulk_threads g))) in
  bulk_places g' !! Z.to_nat b = Some (place r) /\ of_place b (bulk_threads g') = threads r.
Proof.
  induction s as [|[i st] s IH]; intros g U Hb Hpos H0 HU; [done|]. cbn [foldl].
  assert (place_turns b (bulk_threads g).*1 ((i, st) :: s) =
    match (bulk_threads g).*1 !! i with
    | Some b' => if decide (b' = b) then (length (filter (fun c => c = b) (take i (bulk_threads g).*1)), st) :: place_turns b (bulk_threads g).*1 s
                 else place_turns b (bulk_threads g).*1 s
    | None => place_turns b (bulk_threads g).*1 s end) as ->.
  { unfold place_turns. cbn. destruct ((bulk_threads g).*1 !! i); [|done]. by destruct (decide _). }
  rewrite list_lookup_fmap. unfold bulk_step at 2 4. cbn [fst snd].
  destruct (bulk_threads g !! i) as [[c t]|] eqn:Ei; cbn [fmap option_fmap option_map fst]; [|by apply IH].
  assert (0 <= c) as Hc by (apply (Forall_lookup_1 _ _ _ _ Hpos Ei)).
  destruct (decide (c = b)) as [->|Hne].
  - cbn [run]. unfold grid_step at 1 2. cbn [threads place]. rewrite (of_place_lookup b _ i t Ei).
    destruct (done t); [by apply IH|]. rewrite HU, H0. destruct (insert_step U0 st (t_val t) (t_pc t) U) as [U' p] eqn:Es.
    specialize (IH (Bulk (<[Z.to_nat b:=U']> (bulk_places g)) (<[i:=(b, Thread (t_val t) p)]> (bulk_threads g))) U').
    cbn [bulk_threads bulk_places] in IH. rewrite (of_place_insert b _ i t _ Ei) in IH.
    rewrite list_fmap_insert in IH. cbn [fst] in IH. rewrite (list_insert_id (bulk_threads g).*1) in IH by (by rewrite list_lookup_fmap, Ei).
    apply IH; [done| |done|]; [by apply Forall_insert|]. apply list_lookup_insert_eq. by eapply lookup_lt_Some.
  - destruct (done t); [by apply IH|]. destruct (bulk_places g !! Z.to_nat c) as [Uc|] eqn:Ec; [|by apply IH].
    destruct (P0 !! Z.to_nat c) as [U0c|]; [|by apply IH]. destruct (insert_step _ _ _ _ _) as [U' p].
    specialize (IH (Bulk (<[Z.to_nat c:=U']> (bulk_places g)) (<[i:=(c, Thread (t_val t) p)]> (bulk_threads g))) U).
    cbn [bulk_threads bulk_places] in IH. rewrite (of_place_other b c _ i t _ Ei Hne) in IH.
    rewrite list_fmap_insert in IH. cbn [fst] in IH. rewrite (list_insert_id (bulk_threads g).*1) in IH by (by rewrite list_lookup_fmap, Ei).
    apply IH; [done| |done|]; [by apply Forall_insert|]. by rewrite list_lookup_insert_ne by lia.
Qed.

(** ** What the aggregator relies on *)

(** The rows of a column after [calcLengths]. *)
Definition column_holds (m : memory) (c : StringsColumn.column) (rows : list (list Z)) : Prop :=
  forall i r, rows !! i = Some r ->
    row_readable (StringsColumn.buf c) false (StringsColumn.lens c) (StringsColumn.offsets c) i /\
    rd (StringsColumn.lens c) (Z.of_nat i) = Z.of_nat (length r) /\
    bytes m (StringsColumn.buf c + rd (StringsColumn.offsets c) (Z.of_nat i)) (length r) = r.

(** The values of the rows whose bucket is [b]. *)
Definition values_of {A} (b : Z) (buckets : list Z) (vals : list A) : list A :=
  of_place b (zip (take (length vals) buckets) vals).

Definition buckets_ok {A} (places : list A) (n : nat) (buckets : list Z) : Prop :=
  (n <= length buckets)%nat /\ forall i, (i < n)%nat -> 0 <= rd buckets (Z.of_nat i) < Z.of_nat (length places).

(** A place stands for the list of its group's values. *)
Class AggregateLaws (F : CudaAggregateFunction) := {
  agg_repr : agg_data -> list (list Z) -> Prop;
  init_repr : forall n, length (cudaInitAggregateData n) = n /\ Forall (fun p => agg_repr p []) (cudaInitAggregateData n);
  add_repr : forall s m c n buckets places vals places',
    (isDataNeeded = true -> column_holds m c vals) -> length vals = n -> buckets_ok places n buckets ->
    cudaAddBulk s m c n buckets places = Some places' ->
    length places' = length places /\
    forall b p l, places !! Z.to_nat b = Some p -> 0 <= b -> agg_repr p l ->
      exists p', places' !! Z.to_nat b = Some p' /\ agg_repr p' (l ++ values_of b buckets vals)
}.

(** Every place of the source goes to a place of its own or nowhere. *)
Definition merge_ok {A} (places places_from : list A) (n : nat) (buckets : list Z) : Prop :=
  (n <= length buckets)%nat /\ length places_from = n /\
  (forall i, (i < n)%nat -> rd buckets (Z.of_nat i) <> 2 ^ 32 - 1 -> 0 <= rd buckets (Z.of_nat i) < Z.of_nat (length places)) /\
  (forall i j, (i < n)%nat -> (j < n)%nat -> rd buckets (Z.of_nat i) <> 2 ^ 32 - 1 ->
     rd buckets (Z.of_nat i) = rd buckets (Z.of_nat j) -> i = j).

Class MergeLaws (F : CudaAggregateFunction) (L : AggregateLaws F) := {
  merge_repr : forall s places places_from n buckets places',
    merge_ok places places_from n buckets -> cudaMergeBulk s places n places_from buckets = Some places' ->
    length places' = length places /\
    forall b p l, places !! Z.to_nat b = Some p -> 0 <= b < 2 ^ 32 - 1 -> agg_repr p l ->
      exists p', places' !! Z.to_nat b = Some p' /\
        ((forall i, (i < n)%nat -> rd buckets (Z.of_nat i) <> b) -> agg_repr p' l) /\
        (forall i q k, (i < n)%nat -> rd buckets (Z.of_nat i) = b -> places_from !! i = Some q -> agg_repr q k -> agg_repr p' (l ++ k))
}.

(** ** [count] has the laws *)

Definition count_repr (p : Z) (l : list (list Z)) : Prop := p = u64 (Z.of_nat (length l)).

Lemma values_of_cons {A} b c (buckets : list Z) (v : A) vals :
  values_of b (c :: buckets) (v :: vals) = if decide (c = b) then v :: values_of b buckets vals else values_of b buckets vals.
Proof. unfold values_of, of_place. cbn [length take zip zip_with]. rewrite filter_cons. cbn [fst]. by destruct (decide (c = b)). Qed.

Lemma zsum_add_one b n buckets (vals : list (list Z)) :
  length vals = n -> (n <= length buckets)%nat ->
  zsum (map (contribution (add_one n buckets) b) (seq 0 (grid_size n))) = Z.of_nat (length (values_of b buckets vals)).
Proof.
  intros Hv Hb. assert (grid_size n = n + (grid_size n - n))%nat as ->.
  { pose proof (grid_size_ge n). lia. }
  rewrite seq_app, map_app, zsum_app. rewrite (zsum_zero _ (seq (0 + n) _)).
  2:{ intros i Hi. apply elem_of_seq in Hi. unfold contribution, add_one. by rewrite (proj2 (Nat.ltb_ge i n)) by lia. }
  rewrite Z.add_0_r, (map_ext_in _ (fun i => if rd buckets (Z.of_nat i) =? b then 1 else 0)).
  2:{ intros i Hi. apply list_elem_of_In, elem_of_seq in Hi. unfold contribution, add_one. by rewrite (proj2 (Nat.ltb_lt i n)) by lia. }
  subst n. clear - Hb. revert buckets Hb. induction vals as [|v vals IH]; intros [|c buckets] Hb; cbn in Hb; [done|done|lia|].
  rewrite values_of_cons. cbn [length seq map zsum]. rewrite <- seq_shift, map_map.
  rewrite (map_ext _ (fun i => if rd buckets (Z.of_nat i) =? b then 1 else 0)).
  2:{ intros i. unfold rd. by replace (Z.to_nat (Z.of_nat (S i))) with (S i) by lia; rewrite Nat2Z.id. }
  rewrite IH by lia. change (rd (c :: buckets) (Z.of_nat 0)) with c. destruct (Z.eqb_spec c b), (decide (c = b)); try done; cbn [length]; lia.
Qed.

Lemma list_rd (l : list Z) b : 0 <= b < Z.of_nat (length l) -> l !! Z.to_nat b = Some (rd l b).
Proof. intros H. destruct (lookup_lt_is_Some_2 l (Z.to_nat b) ltac:(lia)) as [x Hx]. rewrite Hx. f_equal. symmetry. apply rd_lookup; [lia|done]. Qed.

Lemma count_repr_fits p l : count_repr p l -> fits 64 p.
Proof. intros ->. apply wrap_fits. lia. Qed.

#[export] Instance count_laws : AggregateLaws CudaAggregateFunctionCount.
Proof.
  refine (Build_AggregateLaws CudaAggregateFunctionCount count_repr _ _).
  - intros n. cbn. split; [apply length_replicate|]. by apply Forall_replicate.
  - intros s m c n buckets places vals places' _ Hv [Hl Hb] E. cbn in E. unfold kerCudaAddBulkCount in E.
    apply atomic_kernel_spec in E as [L R].
    + split; [done|]. intros b p l Hp Hb0 Hr. pose proof (lookup_lt_Some _ _ _ Hp) as Hlt. cbn [agg_data CudaAggregateFunctionCount] in *.
      exists (rd places' b). split; [apply list_rd; rewrite L; lia|].
      assert (rd places b = p) as Ep by (by apply rd_lookup).
      rewrite R by (rewrite ?Ep; try lia; by eapply count_repr_fits).
      rewrite (zsum_add_one b n buckets vals) by done. rewrite Ep, Hr. unfold count_repr. rewrite wrap_add_l, length_app. f_equal. lia.
    + intros i b v Hi. unfold add_one in Hi. destruct (Nat.ltb_spec i n) as [Hi'|]; [|done]. injection Hi as <- <-. by apply Hb.
Defined.

Lemma zsum_add_from b n places_from buckets i :
  (forall i j, (i < n)%nat -> (j < n)%nat -> rd buckets (Z.of_nat i) <> 2 ^ 32 - 1 ->
     rd buckets (Z.of_nat i) = rd buckets (Z.of_nat j) -> i = j) ->
  0 <= b < 2 ^ 32 - 1 -> (i < n)%nat -> rd buckets (Z.of_nat i) = b ->
  zsum (map (contribution (add_from n places_from buckets) b) (seq 0 (grid_size n))) = rd places_from (Z.of_nat i).
Proof.
  intros Hinj Hb Hi Eb.
  assert (n <= grid_size n)%nat as Hg.
  { pose proof (grid_size_ge n). lia. }
  assert (forall j, contribution (add_from n places_from buckets) b j =
    if decide (j = i) then rd places_from (Z.of_nat i) else 0) as E.
  { intros j. unfold contribution, add_from. change (u32 (Z.lnot 0)) with (2 ^ 32 - 1). destruct (decide (j = i)) as [->|Hne].
    - rewrite (proj2 (Nat.ltb_lt i n)) by lia. cbn [negb]. destruct (Z.eqb_spec (rd buckets (Z.of_nat i)) (2 ^ 32 - 1)); [lia|].
      by rewrite Eb, Z.eqb_refl.
    - destruct (Nat.ltb_spec j n); [|done]. cbn [negb]. destruct (Z.eqb_spec (rd buckets (Z.of_nat j)) (2 ^ 32 - 1)); [done|].
      destruct (Z.eqb_spec (rd buckets (Z.of_nat j)) b); [|done]. destruct Hne. apply Hinj; try done. congruence. }
  rewrite (map_ext _ _ E), (zsum_point (fun _ => 0) _ _ i).
  - rewrite decide_True by done. rewrite zsum_zero by done. lia.
  - apply NoDup_seq.
  - apply elem_of_seq. lia.
  - intros y Hy. by rewrite decide_False.
Qed.

#[export] Instance count_merge_laws : MergeLaws CudaAggregateFunctionCount count_laws.
Proof.
  refine (Build_MergeLaws CudaAggregateFunctionCount count_laws _).
  intros s places from n buckets places' (Hl & Hf & Hr & Hinj) E. cbn in E. unfold kerCudaMergeBulkCount in E.
  apply atomic_kernel_spec in E as [L R].
  - split; [done|]. intros b p l Hp Hb0 Hrp. pose proof (lookup_lt_Some _ _ _ Hp) as Hlt. cbn [agg_data CudaAggregateFunctionCount agg_repr count_laws] in *.
    assert (rd places b = p) as Ep by (by apply rd_lookup; [lia|]).
    exists (rd places' b). split; [apply list_rd; rewrite L; lia|].
    assert (fits 64 (rd places b)) as Hfit by (rewrite Ep; by eapply count_repr_fits). split.
    + intros Hno. rewrite R by (done || lia). rewrite zsum_zero; [rewrite Z.add_0_r, wrap_small by done; by rewrite Ep|].
      intros i _. unfold contribution, add_from. destruct (Nat.ltb_spec i n) as [Hi|]; [|done]. cbn [negb].
      destruct (_ =? _); [done|]. destruct (Z.eqb_spec (rd buckets (Z.of_nat i)) b) as [Eb|]; [|done]. by destruct (Hno i Hi).
    + intros i q k Hi Eb Hq Hk. rewrite R by (done || lia). rewrite (zsum_add_from b n from buckets i) by done.
      rewrite (rd_lookup from _ q) by (rewrite ?Nat2Z.id; done || lia). rewrite Ep, Hrp, Hk. unfold count_repr.
      rewrite wrap_add_l, wrap_add_r, length_app. f_equal. lia.
  - intros i b v Hi. unfold add_from in Hi. destruct (Nat.ltb_spec i n) as [Hi'|]; [|done]. cbn [negb] in Hi.
    change (u32 (Z.lnot 0)) with (2 ^ 32 - 1) in Hi. destruct (Z.eqb_spec (rd buckets (Z.of_nat i)) (2 ^ 32 - 1)); [done|].
    injection Hi as <- <-. by apply Hr.
Defined.

(** ** [uniq] has the laws of insertion *)

(** The value that [uniq] inserts for a row: the hash of the string without
    its terminating zero. *)
Definition value_hash (r : list Z) : Z :=
  match CityHashHost.CityHash64 (rd r) 0 (Z.of_nat (length r) - 1) with
  | Some h => if h =? 2 ^ 64 - 1 then 0 else h
  | None => 0
  end.

Lemma bytes_rd r k : (k <= length r)%nat -> bytes (rd r) 0 k = take k r.
Proof.
  intros Hk. apply list_eq. intros i. destruct (decide (i < k)%nat) as [Hi|Hi].
  - rewrite lookup_bytes, lookup_take_lt by lia. destruct (lookup_lt_is_Some_2 r i ltac:(lia)) as [x Hx]. rewrite Hx. f_equal.
    apply rd_lookup; [lia|]. by replace (Z.to_nat (0 + Z.of_nat i)) with i by lia.
  - rewrite !lookup_ge_None_2; rewrite ?length_bytes, ?length_take; try lia. done.
Qed.

Lemma kerCalcHash_value m c i r :
  row_readable (StringsColumn.buf c) false (StringsColumn.lens c) (StringsColumn.offsets c) i ->
  rd (StringsColumn.lens c) (Z.of_nat i) = Z.of_nat (length r) ->
  bytes m (StringsColumn.buf c + rd (StringsColumn.offsets c) (Z.of_nat i)) (length r) = r ->
  CityHashDevice.kerCalcHash m (StringsColumn.buf c) (StringsColumn.offsets c) (StringsColumn.lens c) false i = Some (value_hash r).
Proof.
  intros Hr Hl Hb. destruct (CityHashDevice.kerCalcHash_city m _ _ _ _ i Hr) as (h & E1 & E2). rewrite E2. f_equal.
  assert (0 <= Z.of_nat (length r) - 1 < 2 ^ 32) as Hn.
  { destruct Hr as (len & beg & El & _ & Hlen & _). rewrite (rd_lookup _ _ len) in Hl by (rewrite ?Nat2Z.id; done || lia). cbn in Hlen. lia. }
  unfold value_hash. rewrite Hl in E1. cbn [hash_len] in E1.
  destruct (CityHashHost.CityHash64_at m (rd r) (StringsColumn.buf c + rd (StringsColumn.offsets c) (Z.of_nat i)) 0 (Z.of_nat (length r) - 1)) as (h' & F1 & F2).
  - apply CityHashHost.bytes_pointwise. rewrite bytes_rd by lia.
    rewrite <- (take_bytes _ _ _ (length r)) by lia. by rewrite Hb.
  - lia.
  - rewrite F2. rewrite F1 in E1. by injection E1 as ->.
Qed.

Lemma hashes_of_rows m c vals hashes :
  column_holds m c vals ->
  cudaCalcCityHash64 (length vals) m (StringsColumn.buf c) false (StringsColumn.lens c) (StringsColumn.offsets c) = Some hashes ->
  hashes = map value_hash vals.
Proof.
  intros H E. unfold cudaCalcCityHash64 in E. apply mapM_Some in E. pose proof (list.Forall2_length _ _ _ E) as L. rewrite length_seq in L.
  apply list_eq. intros i. change (map value_hash vals) with (value_hash <$> vals). rewrite list_lookup_fmap.
  destruct (vals !! i) as [r|] eqn:Ei.
  - pose proof (lookup_lt_Some _ _ _ Ei). destruct (Forall2_lookup_l _ _ _ i i E) as (x & Hx & Ex); [apply lookup_seq; lia|].
    destruct (H i r Ei) as (H1 & H2 & H3). rewrite (kerCalcHash_value m c i r H1 H2 H3) in Ex. cbn. congruence.
  - apply lookup_ge_None in Ei. apply lookup_ge_None_2. lia.
Qed.

Lemma of_place_map {A B} (f : A -> B) b bs (l : list A) : of_place b (zip bs (map f l)) = map f (of_place b (zip bs l)).
Proof.
  revert bs. induction l as [|x l IH]; intros [|c bs]; try done. unfold of_place in *. cbn [map zip zip_with]. rewrite !filter_cons. cbn [fst].
  destruct (decide (c = b)); [|apply IH]. cbn [map snd]. f_equal. apply IH.
Qed.

Lemma launch_threads n buckets hashes places :
  length hashes = n -> (n <= length buckets)%nat ->
  bulk_threads (bulk_launch places n hashes buckets) = zip (take n buckets) (map (fun v => Thread v PLoad) hashes).
Proof.
  intros <- Hb. cbn. revert buckets Hb. induction hashes as [|h hashes IH]; intros [|b buckets] Hb; cbn in Hb; [done|done|lia|].
  cbn [length seq map take zip zip_with]. f_equal. rewrite <- seq_shift, map_map, <- IH by lia. apply map_ext. intros i. unfold rd.
  by replace (Z.to_nat (Z.of_nat (S i))) with (S i) by lia; rewrite Nat2Z.id.
Qed.

Definition uniq_repr (p : uniq) (l : list (list Z)) : Prop := repr p (list_to_set (map value_hash l)).

Lemma bulk_length P0 s : forall g, length (bulk_places (foldl (bulk_step P0) g s)) = length (bulk_places g).
Proof.
  induction s as [|t s IH]; intros g; [done|]. cbn [foldl]. rewrite IH. unfold bulk_step.
  destruct (bulk_threads g !! t.1) as [[b th]|]; [|done]. destruct (done th); [done|].
  destruct (bulk_places g !! Z.to_nat b), (P0 !! Z.to_nat b); try done. destruct (insert_step _ _ _ _ _). cbn. by rewrite length_insert.
Qed.

Lemma kerCudaAddBulk_repr s places hashes buckets places' :
  buckets_ok places (length hashes) buckets -> kerCudaAddBulk s places (length hashes) hashes buckets = Some places' ->
  forall b U V, 0 <= b -> places !! Z.to_nat b = Some U -> repr U V ->
  exists U', places' !! Z.to_nat b = Some U' /\ repr U' (V ∪ list_to_set (values_of b buckets hashes)).
Proof.
  intros [Hl Hb] E b U V Hb0 HU HV. unfold kerCudaAddBulk in E. set (g0 := bulk_launch _ _ _ _) in *.
  destruct (bulk_done _) eqn:D; [|done]. injection E as <-.
  assert (Forall (fun t => 0 <= t.1) (bulk_threads g0)) as Hpos.
  { apply list.Forall_forall. intros t Ht. apply list_elem_of_fmap in Ht as (i & -> & Hi). apply elem_of_seq in Hi. apply Hb. lia. }
  destruct (bulk_project places b U s g0 U Hb0 Hpos HU HU) as [P1 P2]. cbn zeta in *.
  assert (of_place b (bulk_threads g0) = map (fun v => Thread v PLoad) (values_of b buckets hashes)) as Et.
  { unfold g0. rewrite launch_threads by done. apply of_place_map. }
  rewrite Et in P1, P2. fold (launch U (values_of b buckets hashes)) in P1, P2. eexists. split; [exact P1|].
  apply grid_repr; [done|]. unfold all_done. rewrite <- P2. apply forallb_forall. intros t Ht. apply list_elem_of_In in Ht.
  unfold of_place in Ht. apply list_elem_of_fmap in Ht as (t' & -> & Ht'). apply list_elem_of_filter in Ht' as [_ Ht'].
  unfold bulk_done in D. rewrite forallb_forall in D. apply D. by apply list_elem_of_In.
Qed.

#[export] Instance uniq_laws : AggregateLaws CudaAggregateFunctionUniq.
Proof.
  refine (Build_AggregateLaws CudaAggregateFunctionUniq uniq_repr _ _).
  - intros n. cbn. unfold uniq_cudaInitAggregateData. split; [by rewrite length_map, length_replicate|].
    apply list.Forall_forall. intros p Hp. apply list_elem_of_fmap in Hp as (q & -> & Hq). apply elem_of_replicate in Hq as [-> _].
    exact uniq_init_repr.
  - intros s m c n buckets places vals places' Hc Hv Hb E. cbn in Hc. specialize (Hc eq_refl). cbn [cudaAddBulk CudaAggregateFunctionUniq] in E.
    unfold uniq_cudaAddBulk in E. subst n. destruct (cudaCalcCityHash64 _ _ _ _ _ _) as [hashes|] eqn:Eh; [|done].
    apply (hashes_of_rows m c vals hashes Hc) in Eh.
    assert (length vals = length hashes) as Ln by (by rewrite Eh, length_map). split.
    { unfold kerCudaAddBulk in E. destruct (bulk_done _); [|done]. injection E as <-. apply (bulk_length places s). }
    intros b p l Hp Hb0 Hr. rewrite Ln in E, Hb. destruct (kerCudaAddBulk_repr s places hashes buckets places' Hb E b p _ Hb0 Hp Hr) as (p' & E' & R').
    exists p'. split; [done|]. cbn. unfold uniq_repr. rewrite map_app, list_to_set_app_L.
    assert (values_of b buckets hashes = map value_hash (values_of b buckets vals)) as <-; [|done].
    unfold values_of. rewrite <- Ln, Eh. apply of_place_map.
Defined.

(** ** The kernels return *)

Lemma atomic_kernel_returns act n s cells :
  (forall i, (i < n)%nat -> (1 <= turns i s)%nat) -> is_Some (atomic_kernel act n s cells).
Proof.
  intros H. unfold atomic_kernel.
  assert (forall s0 st, length st.2 = n ->
    length (foldl (atomic_step act) st s0).2 = n /\
    forall i, (i < n)%nat -> st.2 !! i = Some true \/ (1 <= turns i s0)%nat -> (foldl (atomic_step act) st s0).2 !! i = Some true) as Run.
  { induction s0 as [|[j o] s0 IH]; intros st L.
    - split; [done|]. intros i Hi [?|Hd]; [done|]. cbn in Hd. lia.
    - cbn [foldl]. assert (length (atomic_step act st (j, o)).2 = n) as L'.
      { unfold atomic_step. cbn [fst]. destruct (st.2 !! j) as [[|]|]; try done. cbn. by rewrite length_insert. }
      destruct (IH _ L') as [L2 R]. split; [done|]. intros i Hi Hd. apply R; [done|].
      assert (st.2 !! i = Some true \/ i = j -> (atomic_step act st (j, o)).2 !! i = Some true) as Hstep.
      { intros D. unfold atomic_step. cbn [fst]. destruct (st.2 !! j) as [[|]|] eqn:Ej.
        - destruct D as [D| ->]; done.
        - cbn. destruct (decide (i = j)) as [->|]; [apply list_lookup_insert_eq; lia|]. rewrite list_lookup_insert_ne by done. by destruct D.
        - destruct D as [D| ->]; [done|]. apply lookup_ge_None in Ej. lia. }
      cbn [turns] in Hd. case_decide as Dj; [subst j; left; apply Hstep; by right|]. destruct Hd as [Hd|Hd]; [left; apply Hstep; by left|by right]. }
  destruct (Run s (cells, replicate n false) (length_replicate _ _)) as [L R]. destruct (foldl _ _ s) as [c' r]. cbn [snd] in *.
  assert (forallb id r = true) as ->; [|done]. apply forallb_forall. intros x Hx. apply list_elem_of_In, list_elem_of_lookup in Hx as [i Hi].
  pose proof (lookup_lt_Some _ _ _ Hi) as Hlt. rewrite R in Hi by (try lia; right; apply H; lia). by injection Hi as <-.
Qed.

(** Positions of the rows of one bucket. *)
Lemma place_index_inj b (bs : list Z) i j :
  bs !! i = Some b -> bs !! j = Some b ->
  length (filter (fun c => c = b) (take i bs)) = length (filter (fun c => c = b) (take j bs)) -> i = j.
Proof.
  revert i j. induction bs as [|c bs IH]; intros [|i] [|j] Hi Hj; cbn in Hi, Hj; try done; cbn [take]; rewrite ?filter_cons.
  - injection Hi as ->. by rewrite decide_True.
  - injection Hj as ->. by rewrite decide_True.
  - destruct (decide (c = b)); cbn [length]; intros E; f_equal; apply IH; auto.
Qed.

Lemma place_turns_turns b bs i s :
  bs !! i = Some b -> turns (length (filter (fun c => c = b) (take i bs))) (place_turns b bs s) = turns i s.
Proof.
  intros Hi. induction s as [|[j o] s IH]; [done|]. unfold place_turns in *. cbn [omap list_omap fst snd turns].
  destruct (bs !! j) as [b'|] eqn:Ej.
  - destruct (decide (b' = b)) as [->|Hne].
    + cbn [turns]. rewrite IH. destruct (decide (j = i)) as [->|Hne].
      * by rewrite decide_True.
      * rewrite decide_False; [done|]. intros E. apply Hne. by eapply place_index_inj.
    + rewrite IH. rewrite decide_False; [done|]. intros ->. congruence.
  - rewrite IH. rewrite decide_False; [done|]. intros ->. congruence.
Qed.

Lemma bulk_buckets P0 s : forall g, (bulk_threads (foldl (bulk_step P0) g s)).*1 = (bulk_threads g).*1.
Proof.
  induction s as [|t s IH]; intros g; [done|]. cbn [foldl]. rewrite IH. unfold bulk_step.
  destruct (bulk_threads g !! t.1) as [[b th]|] eqn:E; [|done]. destruct (done th); [done|].
  destruct (bulk_places g !! Z.to_nat b), (P0 !! Z.to_nat b); try done. destruct (insert_step _ _ _ _ _). cbn [bulk_threads].
  rewrite list_fmap_insert. cbn. apply list_insert_id. by rewrite list_lookup_fmap, E.
Qed.

Lemma kerCudaAddBulk_returns s places hashes buckets :
  buckets_ok places (length hashes) buckets -> Forall (fun U => exists V, repr U V) places ->
  (forall i, (i < length hashes)%nat -> (1060 <= turns i s)%nat) ->
  is_Some (kerCudaAddBulk s places (length hashes) hashes buckets).
Proof.
  intros [Hl Hb] F Ht. unfold kerCudaAddBulk. set (g0 := bulk_launch _ _ _ _). set (g := foldl _ g0 s).
  assert (bulk_done g = true) as ->; [|done]. unfold bulk_done. apply forallb_forall. intros [b t] Hin.
  apply list_elem_of_In, list_elem_of_lookup in Hin as [i Hi]. cbn [snd].
  pose proof (bulk_buckets places s g0) as Eb. fold g in Eb.
  assert ((bulk_threads g0).*1 !! i = Some b) as Hbi by (rewrite <- Eb, list_lookup_fmap, Hi; done).
  assert (exists h, bulk_threads g0 !! i = Some (b, Thread h PLoad) /\ (i < length hashes)%nat /\ b = rd buckets (Z.of_nat i)) as (h & Hi0 & Hlt & Erd).
  { rewrite list_lookup_fmap in Hbi. destruct (bulk_threads g0 !! i) as [[b' t0]|] eqn:E0; [|done]. injection Hbi as ->.
    cbn in E0. change (map ?f ?l) with (f <$> l) in E0. rewrite list_lookup_fmap in E0. destruct (seq 0 (length hashes) !! i) as [k|] eqn:Ek; [|done].
    apply lookup_seq in Ek as [-> Hk]. injection E0 as <- <-. eauto. }
  pose proof (Hb i Hlt) as Hrange. rewrite <- Erd in Hrange.
  destruct (lookup_lt_is_Some_2 places (Z.to_nat b) ltac:(lia)) as [U HU].
  destruct (Forall_lookup_1 _ _ _ _ F HU) as [V HV].
  assert (Forall (fun t => 0 <= t.1) (bulk_threads g0)) as Hpos.
  { apply list.Forall_forall. intros t' Ht'. apply list_elem_of_fmap in Ht' as (k & -> & Hk). apply elem_of_seq in Hk. apply Hb. lia. }
  destruct (bulk_project places b U s g0 U ltac:(lia) Hpos HU HU) as [_ P2]. cbn zeta in P2. fold g in P2.
  set (idx := length (filter (fun c => c = b) (take i (bulk_threads g0).*1))).
  assert (of_place b (bulk_threads g0) = map (fun v => Thread v PLoad) (values_of b buckets hashes)) as Et.
  { unfold g0. rewrite launch_threads by done. apply of_place_map. }
  pose proof (of_place_lookup b _ i t Hi) as Hg. rewrite Eb in Hg. fold idx in Hg. rewrite P2 in Hg.
  pose proof (of_place_lookup b _ i _ Hi0) as Hg0. fold idx in Hg0.
  destruct (run_done U V (values_of b buckets hashes) HV (place_turns b (bulk_threads g0).*1 s)
    (launch U (values_of b buckets hashes)) idx (Thread h PLoad)) as (t' & Ht' & Hd).
  - by apply ginv_launch.
  - cbn [launch threads]. by rewrite <- Et.
  - unfold idx. rewrite place_turns_turns by done. specialize (Ht i Hlt). cbn. lia.
  - unfold launch in Ht'. rewrite <- Et in Ht'. rewrite Hg in Ht'. by injection Ht' as <-.
Qed.

Lemma hashes_return m c vals :
  column_holds m c vals ->
  is_Some (cudaCalcCityHash64 (length vals) m (StringsColumn.buf c) false (StringsColumn.lens c) (StringsColumn.offsets c)).
Proof.
  intros Hc. destruct (cudaCalcCityHash64 _ _ _ _ _ _) eqn:Eh; [done|]. exfalso. apply mapM_None in Eh.
  apply list.Exists_exists in Eh as (i & Hi & E). apply elem_of_seq in Hi.
  destruct (lookup_lt_is_Some_2 vals i ltac:(lia)) as [r Hr]. destruct (Hc i r Hr) as (H1 & H2 & H3).
  by rewrite (kerCalcHash_value m c i r H1 H2 H3) in E.
Qed.

Lemma uniq_cudaAddBulk_returns s m c buckets places vals :
  column_holds m c vals -> buckets_ok places (length vals) buckets -> Forall (fun U => exists V, repr U V) places ->
  (forall i, (i < length vals)%nat -> (1060 <= turns i s)%nat) ->
  is_Some (uniq_cudaAddBulk s m c (length vals) buckets places).
Proof.
  intros Hc Hb F Ht. unfold uniq_cudaAddBulk. destruct (hashes_return m c vals Hc) as [hashes Eh]. rewrite Eh.
  apply (hashes_of_rows m c vals hashes Hc) in Eh. assert (length vals = length hashes) as Ln by (by rewrite Eh, length_map).
  rewrite Ln in *. by apply kerCudaAddBulk_returns.
Qed.

(** The kernels return when every thread has turns enough, so a caller that
    waits for them goes on. *)
Class BulkReturns (F : CudaAggregateFunction) (L : AggregateLaws F) :=
  bulk_returns : forall m c n buckets places vals,
    (isDataNeeded = true -> column_holds m c vals) -> length vals = n -> buckets_ok places n buckets ->
    Forall (fun p => exists l, agg_repr p l) places ->
    is_Some (cudaAddBulk (round_robin (grid_size n) 1060) m c n buckets places).

#[export] Instance count_returns : BulkReturns CudaAggregateFunctionCount count_laws.
Proof.
  intros m c n buckets places vals _ _ _ _. apply atomic_kernel_returns. intros i Hi. rewrite turns_round_robin by done. lia.
Defined.

#[export] Instance uniq_returns : BulkReturns CudaAggregateFunctionUniq uniq_laws.
Proof.
  intros m c n buckets places vals Hc <- Hb F. apply uniq_cudaAddBulk_returns; [by apply Hc|done| |].
  - eapply list.Forall_impl; [exact F|]. intros U [l Hl]. exists (list_to_set (map value_hash l)). exact Hl.
  - intros i Hi. rewrite turns_round_robin; [done|]. pose proof (grid_size_ge (length vals)). lia.
Defined.

(** So do those of [cudaMergeBulk]. *)
Class MergeReturns (F : CudaAggregateFunction) :=
  merge_bulk_returns : forall places n places_from buckets, exists s, is_Some (cudaMergeBulk s places n places_from buckets).

#[export] Instance count_merge_returns : MergeReturns CudaAggregateFunctionCount.
Proof.
  intros places n places_from buckets. exists (round_robin (grid_size n) 1). apply atomic_kernel_returns. intros i Hi. by rewrite turns_round_robin.
Defined.

#[export] Instance uniq_merge_returns : MergeReturns CudaAggregateFunctionUniq.
Proof.
  intros places n places_from buckets. exists (round_robin n 1). cbn [cudaMergeBulk CudaAggregateFunctionUniq]. rewrite (proj2 (forallb_forall _ _)); [by eexists|].
  intros i Hi%list_elem_of_In%elem_of_seq. rewrite turns_round_robin by lia. done.
Defined.

(** ** Properties *)

(** Bounds of concrete numbers. *)
Ltac concrete := split; vm_compute; congruence.

(** [count] counts rows.  For every schedule in which each thread of
    [kerCudaAddBulkCount] gets a turn the kernel returns, and every place has
    grown, modulo 2^64, by the number of rows whose bucket it is. *)
Theorem count_addBulk_counts s places buckets (vals : list (list Z)) :
  buckets_ok places (length vals) buckets -> Forall (fits 64) places ->
  (forall i, (i < grid_size (length vals))%nat -> (1 <= turns i s)%nat) ->
  exists places', kerCudaAddBulkCount s places (length vals) buckets = Some places' /\
    forall b, 0 <= b < Z.of_nat (length places) ->
      rd places' b = rd places b +64 Z.of_nat (length (values_of b buckets vals)).
Proof.
  intros [Hl Hb] F Ht. destruct (atomic_kernel_returns (add_one (length vals) buckets) _ s places Ht) as [places' E].
  exists places'. split; [exact E|]. apply atomic_kernel_spec in E as [_ R].
  - intros b Hr. rewrite R by (try done; apply (Forall_lookup_1 _ _ _ _ F (list_rd _ _ Hr))). by rewrite (zsum_add_one b _ buckets vals).
  - intros i b v Hi. unfold add_one in Hi. destruct (Nat.ltb_spec i (length vals)) as [Hi'|]; [|done]. injection Hi as <- <-. by apply Hb.
Qed.

Lemma count_addBulk_counts_witness :
  exists places', kerCudaAddBulkCount (round_robin 256 1) [5; 2 ^ 64 - 1] 3 [1; 0; 1] = Some places' /\ rd places' 1 = 1.
Proof.
  destruct (count_addBulk_counts (round_robin 256 1) [5; 2 ^ 64 - 1] [1; 0; 1] [[65; 0]; [66; 0]; [67; 0]]) as (p & E & R).
  - split; [cbn; lia|]. intros [|[|[|i]]] Hi; [concrete..|cbn in Hi; lia].
  - repeat constructor; vm_compute; congruence.
  - assert (forallb (fun i => Nat.leb 1 (turns i (round_robin 256 1))) (seq 0 256) = true) as C by (vm_compute; reflexivity).
    rewrite forallb_forall in C. intros i Hi. apply Nat.leb_le, C. apply list_elem_of_In, elem_of_seq. cbn in Hi. lia.
  - exists p. split; [exact E|]. rewrite (R 1); [reflexivity|cbn; lia].
Defined.

(** C31: [uniq] inserts the hash of every row into its group's counter.  For
    every schedule in which each thread of [kerCudaAddBulk] gets 1060 turns
    the call returns, and each place then represents the values it represented
    before together with the hashes of the rows whose bucket it is, however
    the threads of its and of other places were interleaved. *)
Theorem uniq_addBulk_groups s m c buckets places vals :
  column_holds m c vals -> buckets_ok places (length vals) buckets -> Forall (fun U => exists V, repr U V) places ->
  (forall i, (i < length vals)%nat -> (1060 <= turns i s)%nat) ->
  exists places', uniq_cudaAddBulk s m c (length vals) buckets places = Some places' /\
    forall b U V, 0 <= b -> places !! Z.to_nat b = Some U -> repr U V ->
      exists U', places' !! Z.to_nat b = Some U' /\
        repr U' (V ∪ list_to_set (map value_hash (values_of b buckets vals))).
Proof.
  intros Hc Hb F Ht. destruct (uniq_cudaAddBulk_returns s m c buckets places vals Hc Hb F Ht) as [places' E].
  exists places'. split; [done|]. unfold uniq_cudaAddBulk in E. destruct (cudaCalcCityHash64 _ _ _ _ _ _) as [hashes|] eqn:Eh; [|done].
  apply (hashes_of_rows m c vals hashes Hc) in Eh. assert (length vals = length hashes) as Ln by (by rewrite Eh, length_map).
  intros b U V Hb0 HU HV. rewrite Ln in *. destruct (kerCudaAddBulk_repr s places hashes buckets places' Hb E b U V Hb0 HU HV) as (U' & E' & R').
  exists U'. split; [done|]. assert (values_of b buckets hashes = map value_hash (values_of b buckets vals)) as <-; [|done].
  unfold values_of. rewrite Ln, Eh. apply of_place_map.
Qed.

(** Three strings in a buffer at 16. *)
Definition demo_vals : list (list Z) := [[65; 0]; [66; 67; 0]; [65; 0]].
Definition demo_bytes : memory := StringsColumn.store_bytes (fun _ => 0) 16 (concat demo_vals).
Definition demo_col : StringsColumn.column := StringsColumn.Column 3 3 7 64 16 [2; 3; 2] [0; 2; 5] [2; 5; 7] [3] [7].

Lemma demo_col_holds : column_holds demo_bytes demo_col demo_vals.
Proof.
  intros [|[|[|i]]] r Hr; cbn in Hr; try done; injection Hr as <-;
    (split; [do 2 eexists; split; [reflexivity|]; split; [reflexivity|]; cbn; lia|split; [reflexivity|vm_compute; reflexivity]]).
Qed.

Lemma uniq_addBulk_groups_witness :
  exists places', uniq_cudaAddBulk (round_robin 3 1060) demo_bytes demo_col 3 [1; 0; 1] [uniq_init; uniq_init] = Some places' /\
    exists U', places' !! 1%nat = Some U' /\ repr U' (∅ ∪ list_to_set (map value_hash [[65; 0]; [65; 0]])).
Proof.
  destruct (uniq_addBulk_groups (round_robin 3 1060) demo_bytes demo_col [1; 0; 1] [uniq_init; uniq_init] demo_vals) as (p & E & R).
  - exact demo_col_holds.
  - split; [cbn; lia|]. intros [|[|[|i]]] Hi; [concrete..|cbn in Hi; lia].
  - repeat constructor; exists ∅; exact uniq_init_repr.
  - intros [|[|[|i]]] Hi; [vm_compute; lia..|cbn in Hi; lia].
  - exists p. split; [exact E|]. exact (R 1 uniq_init ∅ ltac:(lia) eq_refl uniq_init_repr).
Defined.

(** [count]'s [cudaMergeBulk] adds the groups of two tables.  When every
    place of the source has a place of its own in the destination or, being
    empty, the mark [0xFFFFFFFF], then in every complete schedule each place
    receives exactly the count of the source's place that is mapped to it. *)
Theorem count_mergeBulk_adds s places from n buckets places' b i :
  merge_ok places from n buckets -> kerCudaMergeBulkCount s places n from buckets = Some places' ->
  0 <= b < 2 ^ 32 - 1 -> (i < n)%nat -> rd buckets (Z.of_nat i) = b -> fits 64 (rd places b) ->
  rd places' b = rd places b +64 rd from (Z.of_nat i).
Proof.
  intros (Hl & Hf & Hr & Hinj) E Hb Hi Eb Hfit. unfold kerCudaMergeBulkCount in E. apply atomic_kernel_spec in E as [L R].
  - rewrite R; [by rewrite (zsum_add_from b n from buckets i)| |done]. rewrite <- Eb. apply Hr; [done|]. lia.
  - intros j c v Hj. unfold add_from in Hj. destruct (Nat.ltb_spec j n) as [Hj'|]; [|done]. cbn [negb] in Hj.
    change (u32 (Z.lnot 0)) with (2 ^ 32 - 1) in Hj. destruct (Z.eqb_spec (rd buckets (Z.of_nat j)) (2 ^ 32 - 1)); [done|].
    injection Hj as <- <-. by apply Hr.
Qed.

Lemma count_mergeBulk_adds_witness :
  exists places', kerCudaMergeBulkCount (round_robin 256 1) [10; 20] 3 [1; 2; 3] [1; 2 ^ 32 - 1; 0] = Some places' /\ rd places' 1 = 21.
Proof.
  destruct (kerCudaMergeBulkCount (round_robin 256 1) [10; 20] 3 [1; 2; 3] [1; 2 ^ 32 - 1; 0]) as [p|] eqn:E; [|vm_compute in E; discriminate E].
  exists p. split; [reflexivity|].
  rewrite (count_mergeBulk_adds (round_robin 256 1) [10; 20] [1; 2; 3] 3 [1; 2 ^ 32 - 1; 0] p 1 0); [reflexivity| |exact E|lia|lia|reflexivity|vm_compute; split; congruence].
  split; [cbn; lia|]. split; [reflexivity|]. split.
  - intros [|[|[|i]]] Hi Hn; [concrete|by destruct Hn|concrete|lia].
  - intros [|[|[|i]]] [|[|[|j]]] Hi Hj; try lia; intros _ Ej; vm_compute in Ej; congruence.
Defined.

(** [uniq]'s [cudaMergeBulk] does not join groups.  The law that [count]
    has fails for it: a group with two values, still small, merged into an
    empty place gives a place with one value. *)
Theorem uniq_merge_loses : ~ MergeLaws CudaAggregateFunctionUniq uniq_laws.
Proof.
  intros M. set (k := [[65; 0]; [66; 0]]). set (R := insert_all uniq_init (map value_hash k)).
  assert (uniq_repr R k) as HR.
  { exact (insert_all_init (map value_hash k)). }
  destruct (@merge_repr CudaAggregateFunctionUniq uniq_laws M [(0%nat, false)] [uniq_init] [R] 1 [0] [merge uniq_init R]) as [_ H].
  - split; [cbn; lia|]. split; [done|]. split; [intros [|i] Hi; [intros _; concrete|lia]|]. intros [|i] [|j] Hi Hj; try lia; done.
  - reflexivity.
  - destruct (H 0 uniq_init [] eq_refl ltac:(lia) uniq_init_repr) as (p' & E & _ & Hm).
    change (Some (merge uniq_init R) = Some p') in E. apply (inj Some) in E. subst p'.
    specialize (Hm 0%nat R k ltac:(lia) eq_refl eq_refl HR). change (repr (merge uniq_init R) (list_to_set (map value_hash k))) in Hm.
    assert (is_large (merge uniq_init R) = false) as Hl by (vm_compute; reflexivity).
    pose proof (small_size_repr _ _ Hm Hl) as Hs. assert (small_size (merge uniq_init R) = 1) as E1 by (vm_compute; reflexivity).
    rewrite E1 in Hs. assert (size (list_to_set (map value_hash k) : gset Z) = 2%nat) as E2 by (vm_compute; reflexivity). lia.
Qed.
