(* ===== verification/ChunkProtocol.v ===== *)
(** * The chunk protocol of the strings aggregator

    [CudaStringsAggregator] (Interpreters/Cuda/CudaStringsAggregator.h, .cu)
    owns several chunks, each with a buffer and a worker thread.  The calling
    thread fills the buffer of the current chunk ([tryQueueData]); when the
    next block does not fit it sets the chunk's [cuda_processing_state], wakes
    the worker and goes on with the next chunk.  The worker ([processChunk])
    aggregates the buffer, empties it, clears the state and wakes the caller.
    [waitProcessed] sends the last buffer, then an empty buffer to every
    worker as the signal to finish, and joins the threads.

    The data of the chunks is behind the class [ChunkData]: the theorems here
    hold for every implementation of it.  The critical sections run under the
    chunk's mutex, so each is one step; waiting on a condition variable is a
    state of its own, left on a notification or spuriously.

    Shown: no notification is lost and there is no deadlock; every step except
    a spurious wakeup decreases a measure, so processing ends after a number of
    steps linear in the numbers of blocks and chunks; the exception "host buffer is not
    empty after transfer" is unreachable; at the end every block has been
    processed by exactly one worker. *)

From stdpp Require Import base list numbers relations.
From Stdlib Require Import ZArith Lia.
From S2P Require Import Prelude.

(** ** The data behind the protocol *)

(** [pending g i] are the blocks in the buffer of chunk [i], [processed g i]
    those its worker has aggregated; [rows b] is the number of rows of a block.
    [start] is what a worker does before its loop, [process] the aggregation
    of a buffer followed by its reset, with [None] for an exception, [finish]
    what it does after the loop; [finished] tells that it has been done. *)
Class ChunkData (block G : Type) := {
  chunks_num : nat;
  rows : block -> nat;
  data_ok : G -> Prop;
  started : G -> nat -> bool;
  pending : G -> nat -> list block;
  processed : G -> nat -> list block;
  finished : G -> nat -> bool;
  has_space : G -> nat -> block -> bool;
  is_empty : G -> nat -> bool;
  append : G -> nat -> block -> G;
  start : G -> nat -> G;
  process : G -> nat -> option G -> Prop;
  finish : G -> nat -> G;

  chunks_pos : (0 < chunks_num)%nat;
  empty_spec : forall g i, data_ok g -> (i < chunks_num)%nat ->
    is_empty g i = true <-> Forall (fun b => rows b = 0%nat) (pending g i);
  append_ok : forall g i b, data_ok g -> (i < chunks_num)%nat -> has_space g i b = true ->
    data_ok (append g i b) /\ started (append g i b) = started g /\
    pending (append g i b) i = pending g i ++ [b] /\
    (forall j, (j < chunks_num)%nat -> j <> i -> pending (append g i b) j = pending g j) /\
    (forall j, (j < chunks_num)%nat -> processed (append g i b) j = processed g j);
  start_ok : forall g i, data_ok g -> (i < chunks_num)%nat -> started g i = false ->
    data_ok (start g i) /\ started (start g i) i = true /\
    (forall j, j <> i -> started (start g i) j = started g j /\ finished (start g i) j = finished g j) /\
    (forall j, (j < chunks_num)%nat -> pending (start g i) j = pending g j /\ processed (start g i) j = processed g j);
  process_ok : forall g i g', data_ok g -> (i < chunks_num)%nat -> started g i = true -> is_empty g i = false ->
    process g i (Some g') ->
    data_ok g' /\ started g' = started g /\ pending g' i = [] /\ processed g' i = processed g i ++ pending g i /\
    (forall j, (j < chunks_num)%nat -> j <> i -> pending g' j = pending g j /\ processed g' j = processed g j) /\
    (forall j, j <> i -> finished g' j = finished g j);
  process_total : forall g i, data_ok g -> (i < chunks_num)%nat -> started g i = true -> is_empty g i = false ->
    exists r, process g i r;
  finish_ok : forall g i, data_ok g -> (i < chunks_num)%nat -> started g i = true ->
    data_ok (finish g i) /\ started (finish g i) = started g /\ finished (finish g i) i = true /\
    (forall j, j <> i -> finished (finish g i) j = finished g j) /\
    (forall j, (j < chunks_num)%nat -> pending (finish g i) j = pending g j /\ processed (finish g i) j = processed g j)
}.

Section protocol.
Context {block G : Type} {D : ChunkData block G}.

(** ** States *)

Inductive agg_error := NotEnoughSpace | BufferNotEmpty.

(** The calling thread: in [queueData] with the blocks still to be queued, in
    the first part of [waitProcessed], in its two loops, behind them, or
    ended by an exception. *)
Inductive main_pc :=
| MQueue (blocks : list block)
| MFlush
| MSignal (i : nat)
| MJoin (i : nat)
| MDone
| MThrow (e : agg_error).

(** A worker: before [erase] and the initialisation, at the test of the
    condition, waiting on [cv_buffer_append_end], behind the loop, ended. *)
Inductive worker_pc := WStart | WCheck | WBlocked | WFinish | WExited.

(** [blocked] tells that the calling thread waits on the
    [cv_cuda_processing_end] of the chunk it is concerned with. *)
Record sys := Sys {
  data : G;
  curr_filling_chunk : nat;
  cuda_processing_state : nat -> bool;
  worker : nat -> worker_pc;
  main : main_pc;
  blocked : bool;
  terminated : bool
}.

Definition upd {A} (f : nat -> A) (i : nat) (v : A) : nat -> A := fun j => if decide (j = i) then v else f j.

(** The chunk on which the calling thread works. *)
Definition main_chunk (s : sys) : option nat :=
  match main s with
  | MQueue (_ :: _) | MFlush => Some (curr_filling_chunk s)
  | MSignal i => if decide (i < chunks_num)%nat then Some i else None
  | _ => None
  end.

(** [cv_buffer_append_end.notify_one()]. *)
Definition wake (w : worker_pc) : worker_pc := match w with WBlocked => WCheck | _ => w end.

(** [cuda_processing_state = true; cv_buffer_append_end.notify_one()]. *)
Definition send (s : sys) (i : nat) (c : nat) (m : main_pc) : sys :=
  Sys (data s) c (upd (cuda_processing_state s) i true) (upd (worker s) i (wake (worker s i))) m false (terminated s).

Definition goto (s : sys) (m : main_pc) : sys :=
  Sys (data s) (curr_filling_chunk s) (cuda_processing_state s) (worker s) m false (terminated s).

(** [tryQueueData] behind the wait. *)
Definition tryQueueData (s : sys) (b : block) (bs : list block) : sys :=
  let c := curr_filling_chunk s in
  if has_space (data s) c b then
    Sys (append (data s) c b) c (cuda_processing_state s) (worker s) (MQueue bs) false (terminated s)
  else if is_empty (data s) c then goto s (MThrow NotEnoughSpace)
  else send s c ((c + 1) mod chunks_num)%nat (MQueue (b :: bs)).

(** One step of the calling thread, [None] if it cannot move. *)
Definition main_step (s : sys) : option sys :=
  if blocked s then None
  else
    match main_chunk s with
    | Some i =>
        if cuda_processing_state s i then
          Some (Sys (data s) (curr_filling_chunk s) (cuda_processing_state s) (worker s) (main s) true (terminated s))
        else
          match main s with
          | MQueue (b :: bs) => Some (tryQueueData s b bs)
          | MFlush =>
              if is_empty (data s) i then Some (goto s (MSignal 0))
              else Some (send s i (curr_filling_chunk s) (MSignal 0))
          | MSignal i =>
              if is_empty (data s) i then Some (send s i (curr_filling_chunk s) (MSignal (S i)))
              else Some (goto s (MThrow BufferNotEmpty))
          | _ => None
          end
    | None =>
        match main s with
        | MQueue [] => Some (goto s MFlush)
        | MSignal _ => Some (goto s (MJoin 0))
        | MJoin i =>
            if decide (i < chunks_num)%nat then
              match worker s i with WExited => Some (goto s (MJoin (S i))) | _ => None end
            else Some (goto s MDone)
        | _ => None
        end
    end.

(** [cv_cuda_processing_end.notify_one()] of chunk [i]. *)
Definition notify_main (s : sys) (i : nat) : bool :=
  if blocked s then if decide (main_chunk s = Some i) then false else true else false.

(** One step of the worker of chunk [i]. *)
Inductive worker_step (s : sys) (i : nat) : sys -> Prop :=
| worker_start : worker s i = WStart ->
    worker_step s i (Sys (start (data s) i) (curr_filling_chunk s) (cuda_processing_state s) (upd (worker s) i WCheck)
      (main s) (blocked s) (terminated s))
| worker_wait : worker s i = WCheck -> cuda_processing_state s i = false ->
    worker_step s i (Sys (data s) (curr_filling_chunk s) (cuda_processing_state s) (upd (worker s) i WBlocked)
      (main s) (blocked s) (terminated s))
| worker_process g' : worker s i = WCheck -> cuda_processing_state s i = true -> is_empty (data s) i = false ->
    process (data s) i (Some g') ->
    worker_step s i (Sys g' (curr_filling_chunk s) (upd (cuda_processing_state s) i false) (worker s)
      (main s) (notify_main s i) (terminated s))
| worker_throw : worker s i = WCheck -> cuda_processing_state s i = true -> is_empty (data s) i = false ->
    process (data s) i None ->
    worker_step s i (Sys (data s) (curr_filling_chunk s) (cuda_processing_state s) (worker s) (main s) (blocked s) true)
| worker_break : worker s i = WCheck -> cuda_processing_state s i = true -> is_empty (data s) i = true ->
    worker_step s i (Sys (data s) (curr_filling_chunk s) (cuda_processing_state s) (upd (worker s) i WFinish)
      (main s) (blocked s) (terminated s))
| worker_end : worker s i = WFinish ->
    worker_step s i (Sys (finish (data s) i) (curr_filling_chunk s) (cuda_processing_state s) (upd (worker s) i WExited)
      (main s) (blocked s) (terminated s)).

Inductive step (s : sys) : sys -> Prop :=
| step_main s' : terminated s = false -> main_step s = Some s' -> step s s'
| step_worker i s' : terminated s = false -> (i < chunks_num)%nat -> worker_step s i s' -> step s s'.

(** Wakeups without a notification. *)
Inductive spurious (s : sys) : sys -> Prop :=
| spurious_main : terminated s = false -> blocked s = true ->
    spurious s (Sys (data s) (curr_filling_chunk s) (cuda_processing_state s) (worker s) (main s) false (terminated s))
| spurious_worker i : terminated s = false -> (i < chunks_num)%nat -> worker s i = WBlocked ->
    spurious s (Sys (data s) (curr_filling_chunk s) (cuda_processing_state s) (upd (worker s) i WCheck)
      (main s) (blocked s) (terminated s)).

Definition any_step (s s' : sys) : Prop := step s s' \/ spurious s s'.

(** After [startProcessing]. *)
Definition startProcessing (g : G) (blocks : list block) : sys :=
  Sys g 0 (fun _ => false) (fun _ => WStart) (MQueue blocks) false false.

(** The data before the threads are started. *)
Definition fresh (g : G) : Prop :=
  data_ok g /\ forall i, (i < chunks_num)%nat -> started g i = false /\ pending g i = [] /\ processed g i = [].

(** ** The invariant *)

(** Chunk [i] has been sent the empty buffer. *)
Definition signalled (s : sys) (i : nat) : Prop :=
  match main s with
  | MSignal k => (i < k)%nat
  | MJoin _ | MDone => True
  | _ => False
  end.

(** The buffer of the current chunk may be filled and not yet sent. *)
Definition filling (s : sys) : Prop :=
  match main s with MQueue _ | MFlush | MThrow _ => True | _ => False end.

Definition to_queue (m : main_pc) : list block := match m with MQueue bs => bs | _ => [] end.

Definition all_processed (g : G) : list block := concat (map (processed g) (seq 0 chunks_num)).
Definition all_pending (g : G) : list block := concat (map (pending g) (seq 0 chunks_num)).

Record inv (blocks : list block) (s : sys) : Prop := {
  i_data : data_ok (data s);
  i_curr : (curr_filling_chunk s < chunks_num)%nat;
  i_started : forall i, (i < chunks_num)%nat -> started (data s) i = false <-> worker s i = WStart;
  i_blocked : blocked s = true -> exists i, main_chunk s = Some i /\ cuda_processing_state s i = true;
  i_wblocked : forall i, (i < chunks_num)%nat -> worker s i = WBlocked -> cuda_processing_state s i = false;
  i_true : forall i, (i < chunks_num)%nat -> cuda_processing_state s i = true -> is_empty (data s) i = false \/ signalled s i;
  i_signalled : forall i, (i < chunks_num)%nat -> signalled s i -> cuda_processing_state s i = true /\ is_empty (data s) i = true;
  i_exit : forall i, (i < chunks_num)%nat -> worker s i = WFinish \/ worker s i = WExited -> signalled s i;
  i_finished : forall i, (i < chunks_num)%nat -> worker s i = WExited -> finished (data s) i = true;
  i_false : forall i, (i < chunks_num)%nat -> cuda_processing_state s i = false ->
    is_empty (data s) i = true \/ i = curr_filling_chunk s /\ filling s;
  i_blocks : (forall e, main s <> MThrow e) -> all_processed (data s) ++ all_pending (data s) ++ to_queue (main s) ≡ₚ blocks;
  i_throw : main s <> MThrow BufferNotEmpty;
  i_joined : match main s with
             | MJoin k => forall i, (i < k)%nat -> (i < chunks_num)%nat -> worker s i = WExited
             | MDone => forall i, (i < chunks_num)%nat -> worker s i = WExited
             | _ => True
             end
}.

Lemma upd_eq {A} (f : nat -> A) i v : upd f i v i = v.
Proof. unfold upd. by rewrite decide_True. Qed.

Lemma upd_ne {A} (f : nat -> A) i v j : j <> i -> upd f i v j = f j.
Proof. intros. unfold upd. by rewrite decide_False. Qed.

(** Emptiness only depends on the pending blocks. *)
Lemma is_empty_same g g' i j :
  data_ok g -> data_ok g' -> (i < chunks_num)%nat -> (j < chunks_num)%nat -> pending g' j = pending g i ->
  is_empty g' j = is_empty g i.
Proof.
  intros Hg Hg' Hi Hj E. pose proof (empty_spec g i Hg Hi) as A. pose proof (empty_spec g' j Hg' Hj) as B. rewrite E in B.
  destruct (is_empty g i), (is_empty g' j); try done; [by apply B, A|symmetry; by apply A, B].
Qed.

Lemma is_empty_nil g i : data_ok g -> (i < chunks_num)%nat -> pending g i = [] -> is_empty g i = true.
Proof. intros Hg Hi E. apply empty_spec; [done..|]. rewrite E. by constructor. Qed.

(** The blocks of all chunks when those of one chunk change. *)
Lemma concat_change {A} (f f' : nat -> list A) i l n :
  (i < n)%nat -> f' i = f i ++ l -> (forall j, (j < n)%nat -> j <> i -> f' j = f j) ->
  concat (map f' (seq 0 n)) ≡ₚ concat (map f (seq 0 n)) ++ l.
Proof.
  intros Hi Ei Eo. assert (n = i + S (n - S i))%nat as -> by lia. rewrite seq_app, !map_app, !concat_app. cbn [seq map concat].
  assert (forall k m, (forall j, (k <= j < k + m)%nat -> j <> i /\ (j < n)%nat) -> map f' (seq k m) = map f (seq k m)) as E.
  { intros k m H. apply map_ext_in. intros j Hj. apply list_elem_of_In, elem_of_seq in Hj. destruct (H j Hj). by apply Eo; [lia|]. }
  rewrite (E 0%nat i), (E (S (0 + i)) (n - S i)%nat) by (intros; lia). cbn [Nat.add]. rewrite Ei.
  rewrite <- !app_assoc. do 2 f_equiv. apply Permutation_app_comm.
Qed.

Lemma concat_same {A} (f f' : nat -> list A) n :
  (forall j, (j < n)%nat -> f' j = f j) -> concat (map f' (seq 0 n)) = concat (map f (seq 0 n)).
Proof. intros H. f_equal. apply map_ext_in. intros j Hj. apply list_elem_of_In, elem_of_seq in Hj. apply H. lia. Qed.

Lemma inv_start g blocks : fresh g -> inv blocks (startProcessing g blocks).
Proof.
  intros [Hg H]. split; cbn; try done.
  - apply chunks_pos.
  - intros i Hi. by destruct (H i Hi) as (-> & _).
  - intros i Hi [?|?]; done.
  - intros i Hi _. left. apply is_empty_nil; [done..|]. by apply H.
  - intros _. unfold all_processed, all_pending. 
    rewrite (concat_same (fun _ => [])), (concat_same (fun _ => []) (pending g)) by (intros j Hj; by apply H).
    assert (concat (map (fun _ : nat => @nil block) (seq 0 chunks_num)) = []) as ->; [|done].
    generalize (seq 0 chunks_num). intros l. induction l; done.
Qed.

(** ** Preservation *)

Lemma main_chunk_lt blocks s i : inv blocks s -> main_chunk s = Some i -> (i < chunks_num)%nat.
Proof.
  intros I. unfold main_chunk. pose proof (i_curr _ _ I). destruct (main s) as [[|]| | | | |]; try done; try (by intros [= <-]).
  destruct (decide _); [by intros [= <-]|done].
Qed.

(** The calling thread goes to sleep, or moves on without touching a chunk. *)
Lemma inv_block blocks s i :
  inv blocks s -> main_chunk s = Some i -> cuda_processing_state s i = true ->
  inv blocks (Sys (data s) (curr_filling_chunk s) (cuda_processing_state s) (worker s) (main s) true (terminated s)).
Proof. intros [] Hm Hs. split; auto. intros _. by exists i. Qed.

Lemma inv_unblock blocks s :
  inv blocks s -> inv blocks (Sys (data s) (curr_filling_chunk s) (cuda_processing_state s) (worker s) (main s) false (terminated s)).
Proof. intros []. split; auto. done. Qed.

Lemma inv_goto blocks s m :
  inv blocks s ->
  (forall i, (i < chunks_num)%nat -> signalled s i <-> signalled (goto s m) i) ->
  (forall i, (i < chunks_num)%nat -> cuda_processing_state s i = false -> i = curr_filling_chunk s -> filling s ->
     is_empty (data s) i = true \/ filling (goto s m)) ->
  ((forall e, m <> MThrow e) -> (forall e, main s <> MThrow e) /\ to_queue m = to_queue (main s)) -> m <> MThrow BufferNotEmpty ->
  match m with
  | MJoin k => forall i, (i < k)%nat -> (i < chunks_num)%nat -> worker s i = WExited
  | MDone => forall i, (i < chunks_num)%nat -> worker s i = WExited
  | _ => True
  end -> inv blocks (goto s m).
Proof.
  intros [] Hsig Hfill Hq Ht Hj. split; auto.
  - done.
  - intros i Hi H. destruct (i_true0 i Hi H); [by left|right]. by apply Hsig.
  - intros i Hi H. apply i_signalled0; [done|]. by apply Hsig.
  - intros i Hi H. apply Hsig; [done|]. by apply i_exit0.
  - intros i Hi H. destruct (i_false0 i Hi H) as [?|[Ec Hf]]; [by left|]. destruct (Hfill i Hi H Ec Hf); [by left|by right].
  - intros Hne. destruct (Hq Hne) as [Hne' E]. cbn [main goto data]. rewrite E. by apply i_blocks0.
Qed.

(** A buffer is sent to a worker. *)
Lemma inv_send blocks s i c m :
  inv blocks s -> (i < chunks_num)%nat -> cuda_processing_state s i = false -> (c < chunks_num)%nat ->
  (forall e, m <> MThrow e) -> (forall e, main s <> MThrow e) -> to_queue m = to_queue (main s) ->
  (forall j, (j < chunks_num)%nat -> j <> i -> signalled s j <-> signalled (goto s m) j) ->
  (signalled (goto s m) i <-> is_empty (data s) i = true) ->
  (forall j, (j < chunks_num)%nat -> j <> i -> j = curr_filling_chunk s -> filling s ->
     is_empty (data s) j = true \/ j = c /\ filling (goto s m)) ->
  match m with MJoin _ | MDone => False | _ => True end ->
  inv blocks (send s i c m).
Proof.
  intros [] Hi Hf Hc Hm Hm0 Hq Hsig Hsi Hfill Hnj.
  assert (forall j, signalled (send s i c m) j = signalled (goto s m) j) as Es by done.
  assert (forall j, wake (worker s j) = WStart <-> worker s j = WStart) as Ew by (intros; destruct (worker s j); done).
  split; auto; cbn [data curr_filling_chunk cuda_processing_state worker main blocked send].
  - intros j Hj. unfold upd. case_decide; [subst; rewrite Ew|]; auto.
  - done.
  - intros j Hj. unfold upd. case_decide; [subst; by destruct (worker s i)|]. auto.
  - intros j Hj. rewrite Es. unfold upd. case_decide as Dj.
    + intros _. subst. destruct (is_empty (data s) i) eqn:E; [right; by apply Hsi|by left].
    + intros H. destruct (i_true0 j Hj H); [by left|right]. by apply Hsig.
  - intros j Hj. rewrite Es. unfold upd. case_decide as Dj; intros H.
    + subst. split; [done|by apply Hsi].
    + apply i_signalled0; [done|]. by apply Hsig.
  - intros j Hj. rewrite Es. unfold upd. case_decide as Dj; intros H.
    + exfalso. assert (worker s i = WFinish \/ worker s i = WExited) as H' by (subst; destruct (worker s i), H; auto; done).
      destruct (i_signalled0 i Hi (i_exit0 i Hi H')). congruence.
    + apply Hsig; [done..|]. by apply i_exit0.
  - intros j Hj. unfold upd. case_decide as Dj; [|by apply i_finished0]. subst. intros H. apply i_finished0; [done|].
    by destruct (worker s i).
  - intros j Hj. unfold upd. case_decide as Dj; [done|]. intros H. destruct (i_false0 j Hj H) as [?|[Ec Hfl]]; [by left|].
    destruct (Hfill j Hj Dj Ec Hfl) as [?|[? ?]]; [by left|by right].
  - intros _. rewrite Hq. by apply i_blocks0.
  - by destruct m.
Qed.

(** Steps that change the data of chunk [i] and leave the pending blocks of
    the others. *)
Lemma empty_others g g' i :
  data_ok g -> data_ok g' -> (forall j, (j < chunks_num)%nat -> j <> i -> pending g' j = pending g j) ->
  forall j, (j < chunks_num)%nat -> j <> i -> is_empty g' j = is_empty g j.
Proof. intros Hg Hg' H j Hj Hne. apply is_empty_same; auto. Qed.

Lemma inv_append blocks s b bs :
  inv blocks s -> main s = MQueue (b :: bs) -> cuda_processing_state s (curr_filling_chunk s) = false ->
  has_space (data s) (curr_filling_chunk s) b = true ->
  inv blocks (Sys (append (data s) (curr_filling_chunk s) b) (curr_filling_chunk s) (cuda_processing_state s) (worker s)
    (MQueue bs) false (terminated s)).
Proof.
  intros [] Hm Hs Hsp. destruct (append_ok (data s) _ b i_data0 i_curr0 Hsp) as (A1 & A2 & A3 & A4 & A5).
  pose proof (empty_others _ _ _ i_data0 A1 A4) as Eo. set (c := curr_filling_chunk s) in *.
  assert (forall j, signalled s j <-> False) as Sg by (intros; unfold signalled; by rewrite Hm).
  split; auto; cbn [data curr_filling_chunk cuda_processing_state worker main blocked].
  - by rewrite A2.
  - done.
  - intros j Hj H. destruct (decide (j = c)) as [->|Hne]; [congruence|]. rewrite Eo by done.
    destruct (i_true0 j Hj H) as [?|?%Sg]; [by left|done].
  - intros j Hj H. destruct (proj1 (Sg j) (i_exit0 j Hj H)).
  - intros j Hj H. destruct (proj1 (Sg j) (i_exit0 j Hj (or_intror H))).
  - intros j Hj H. destruct (decide (j = c)) as [->|Hne]; [by right|]. rewrite Eo by done.
    destruct (i_false0 j Hj H) as [?|[? _]]; [by left|done].
  - intros _. unfold all_processed, all_pending in *. rewrite (concat_same _ _ _ A5), (concat_change _ _ c [b] _ i_curr0 A3 A4).
    specialize (i_blocks0 ltac:(rewrite Hm; done)). rewrite Hm in i_blocks0. cbn [to_queue] in *. rewrite <- i_blocks0, <- !app_assoc. done.
  - done.
Qed.

Lemma inv_main_step blocks s s' : inv blocks s -> main_step s = Some s' -> inv blocks s'.
Proof.
  intros I H. unfold main_step in H. destruct (blocked s); [done|].
  assert (forall e, main s <> MThrow e) as Hm0.
  { intros e E. unfold main_chunk in H. rewrite E in H. by destruct e. }
  destruct (main_chunk s) as [i|] eqn:Ec.
  - pose proof (main_chunk_lt _ _ _ I Ec) as Hi. destruct (cuda_processing_state s i) eqn:Es.
    { injection H as <-. by eapply inv_block. }
    unfold main_chunk in Ec. destruct (main s) as [[|b bs]| |k| | |] eqn:Em; try done.
    + injection Ec as <-. injection H as <-. unfold tryQueueData. destruct (has_space _ _ _) eqn:Hsp; [by apply inv_append|].
      destruct (is_empty _ _) eqn:He.
      * apply inv_goto; try done; [intros; unfold signalled; by rewrite Em|intros; by right|intros Hn; by destruct (Hn NotEnoughSpace)].
      * apply inv_send; [done|done|done| |done|by rewrite Em|by rewrite Em| | | |done].
        -- apply Nat.mod_upper_bound. pose proof chunks_pos. lia.
        -- intros. unfold signalled. by rewrite Em.
        -- unfold signalled. cbn. by rewrite He.
        -- intros j Hj Hne Ej. by destruct Hne.
    + injection Ec as <-. destruct (is_empty _ _) eqn:He; injection H as <-.
      * apply inv_goto; try done; [intros j Hj; unfold signalled; rewrite Em; cbn; lia|intros j Hj Hs Ej _; subst; by left|by rewrite Em].
      * apply inv_send; [done|done|done|apply I|done|by rewrite Em|by rewrite Em| | | |done].
        -- intros. unfold signalled. rewrite Em. cbn. split; [done|lia].
        -- unfold signalled. cbn. rewrite He. split; [lia|done].
        -- intros j Hj Hne Ej. by destruct Hne.
    + destruct (decide _); [|done]. injection Ec as ->. destruct (is_empty _ _) eqn:He; injection H as <-.
      * apply inv_send; [done|done|done|apply I|done|by rewrite Em|by rewrite Em| | | |done].
        -- intros. unfold signalled. rewrite Em. cbn. lia.
        -- unfold signalled. cbn. rewrite He. split; [done|lia].
        -- intros j Hj Hne Ej Hf. unfold filling in Hf. by rewrite Em in Hf.
      * exfalso. destruct (i_false _ _ I i Hi Es) as [?|[_ Hf]]; [congruence|]. unfold filling in Hf. by rewrite Em in Hf.
  - unfold main_chunk in Ec. destruct (main s) as [[|b bs]| |k|k| |] eqn:Em; try done.
    + injection H as <-. apply inv_goto; try done; [intros; unfold signalled; by rewrite Em|intros; by right|by rewrite Em].
    + destruct (decide _); [done|]. injection H as <-. apply inv_goto; try done; [intros; unfold signalled; rewrite Em; cbn; lia| |by rewrite Em|intros; lia].
      intros j Hj Hs Ej Hf. unfold filling in Hf. by rewrite Em in Hf.
    + pose proof (i_joined _ _ I) as J. rewrite Em in J.
      assert (forall j : nat, signalled s j <-> True) as Sg by (intros; unfold signalled; by rewrite Em).
      destruct (decide _) as [Hk|Hk].
      * destruct (worker s k) eqn:Ew; try done. injection H as <-. apply inv_goto; [done|by intros; rewrite Sg| |by rewrite Em|done|].
        -- intros j Hj Hs Ej Hf. unfold filling in Hf. by rewrite Em in Hf.
        -- intros j Hj Hjn. destruct (decide (j = k)) as [->|]; [done|]. apply J; [lia|done].
      * injection H as <-. apply inv_goto; [done|by intros; rewrite Sg| |by rewrite Em|done|].
        -- intros j Hj Hs Ej Hf. unfold filling in Hf. by rewrite Em in Hf.
        -- intros j Hj. apply J; [lia|done].
Qed.

(** A worker's step that keeps the pending and processed blocks. *)
Lemma inv_worker_move blocks s i g' w :
  inv blocks s -> (i < chunks_num)%nat -> data_ok g' ->
  (forall j, (j < chunks_num)%nat -> pending g' j = pending (data s) j /\ processed g' j = processed (data s) j) ->
  (forall j, (j < chunks_num)%nat -> started g' j = false <-> upd (worker s) i w j = WStart) ->
  (w = WBlocked -> cuda_processing_state s i = false) ->
  (w = WFinish \/ w = WExited -> signalled s i) -> (worker s i = WExited -> w = WExited) ->
  (w = WExited -> finished g' i = true) -> (forall j, j <> i -> finished g' j = finished (data s) j) ->
  inv blocks (Sys g' (curr_filling_chunk s) (cuda_processing_state s) (upd (worker s) i w) (main s) (blocked s) (terminated s)).
Proof.
  intros [] Hi Hg' Hp Hst Hb Hx He Hf Hfo.
  assert (forall j, (j < chunks_num)%nat -> is_empty g' j = is_empty (data s) j) as Eo by (intros j Hj; apply is_empty_same; auto; by apply Hp).
  split; cbn [data curr_filling_chunk cuda_processing_state worker main blocked]; try assumption.
  - intros j Hj. unfold upd. case_decide; [subst; done|]. auto.
  - intros j Hj. rewrite Eo by done. exact (i_true0 j Hj).
  - intros j Hj. rewrite Eo by done. exact (i_signalled0 j Hj).
  - intros j Hj. unfold upd. case_decide; [subst; exact Hx|]. exact (i_exit0 j Hj).
  - intros j Hj. unfold upd. case_decide as Dj; [subst; exact Hf|]. rewrite Hfo by done. exact (i_finished0 j Hj).
  - intros j Hj. rewrite Eo by done. exact (i_false0 j Hj).
  - intros H. unfold all_processed, all_pending. rewrite (concat_same (processed (data s))), (concat_same (pending (data s)) (pending g')) by (intros; by apply Hp).
    by apply i_blocks0.
  - destruct (main s); try done; intros j; [intros Hj|]; intros Hjn; unfold upd; case_decide; subst; auto.
Qed.

Lemma main_chunk_data s g st w b t :
  main_chunk (Sys g (curr_filling_chunk s) st w (main s) b t) = main_chunk s.
Proof. done. Qed.

Lemma inv_process blocks s i g' :
  inv blocks s -> (i < chunks_num)%nat -> worker s i = WCheck -> cuda_processing_state s i = true ->
  is_empty (data s) i = false -> process (data s) i (Some g') ->
  inv blocks (Sys g' (curr_filling_chunk s) (upd (cuda_processing_state s) i false) (worker s) (main s) (notify_main s i) (terminated s)).
Proof.
  intros I Hi Hw Hs He Hp. destruct I.
  assert (started (data s) i = true) as St.
  { destruct (started (data s) i) eqn:E; [done|]. apply i_started0 in E; [|done]. congruence. }
  destruct (process_ok _ _ _ i_data0 Hi St He Hp) as (P1 & P2 & P3 & P4 & P5 & P6).
  assert (is_empty g' i = true) as E1 by (by apply is_empty_nil).
  assert (forall j, (j < chunks_num)%nat -> j <> i -> is_empty g' j = is_empty (data s) j) as Eo.
  { intros j Hj Hne. apply is_empty_same; auto. by apply P5. }
  assert (~ signalled s i) as Ns by (intros H; destruct (i_signalled0 i Hi H); congruence).
  split; cbn [data curr_filling_chunk cuda_processing_state worker main blocked]; auto.
  - by rewrite P2.
  - unfold notify_main. destruct (blocked s) eqn:Eb; [|done]. destruct (decide _) as [|Hne]; [done|]. intros _.
    destruct (i_blocked0 eq_refl) as (k & Hk & Ek). exists k. split; [done|]. rewrite upd_ne; [done|]. congruence.
  - intros j Hj H. unfold upd. case_decide; [done|]. auto.
  - intros j Hj. unfold upd. case_decide as Dj; [done|]. rewrite Eo by done. by apply i_true0.
  - intros j Hj H. destruct (decide (j = i)) as [->|Hne]; [done|]. rewrite upd_ne, Eo by done. by apply i_signalled0.
  - intros j Hj H. rewrite P6 by congruence. by apply i_finished0.
  - intros j Hj. unfold upd. case_decide as Dj; [intros _; left; by subst|]. rewrite Eo by done. by apply i_false0.
  - intros H. rewrite <- (i_blocks0 H). unfold all_processed, all_pending.
    rewrite (concat_change (processed (data s)) _ i (pending (data s) i) _ Hi P4) by (intros; by apply P5).
    rewrite (concat_change (pending g') (pending (data s)) i (pending (data s) i) _ Hi) by (rewrite ?P3; try done; intros; symmetry; by apply P5).
    rewrite <- !app_assoc. f_equiv. rewrite !app_assoc. f_equiv. apply Permutation_app_comm.
Qed.

Lemma inv_worker_step blocks s i s' : inv blocks s -> (i < chunks_num)%nat -> worker_step s i s' -> inv blocks s'.
Proof.
  intros I Hi H. pose proof (i_data _ _ I) as Hd. pose proof (i_started _ _ I) as Hst.
  assert (forall w, w <> WStart -> worker s i <> WStart -> forall j, (j < chunks_num)%nat ->
    started (data s) j = false <-> upd (worker s) i w j = WStart) as Hu.
  { intros w Hw Hne j Hj. rewrite Hst by done. unfold upd. case_decide; [subst; done|done]. }
  destruct H as [Hw|Hw Hs|g' Hw Hs He Hp|Hw Hs He Hp|Hw Hs He|Hw].
  - destruct (start_ok _ _ Hd Hi) as (A1 & A2 & A3 & A4); [by apply Hst|]. apply inv_worker_move; try done; [|by intros [?|?]|congruence|intros j Hne; by apply A3].
    intros j Hj. unfold upd. case_decide as Dj; [subst; by rewrite A2|]. rewrite (proj1 (A3 j Dj)). by apply Hst.
  - apply inv_worker_move; try done; [by apply Hu; [|rewrite Hw]|by intros [?|?]|congruence].
  - by apply inv_process.
  - destruct I. by split.
  - apply inv_worker_move; try done; [by apply Hu; [|rewrite Hw]| |congruence].
    intros _. destruct (i_true _ _ I i Hi Hs); [congruence|done].
  - assert (started (data s) i = true) as St by (destruct (started (data s) i) eqn:E; [done|apply Hst in E; [congruence|done]]).
    destruct (finish_ok _ _ Hd Hi St) as (A1 & A2 & A3 & A4 & A5). apply inv_worker_move; try done.
    + intros j Hj. rewrite A2. apply Hu; [done|by rewrite Hw|done].
    + intros _. apply (i_exit _ _ I); [done|]. by left.
Qed.

Lemma inv_any_step blocks s s' : inv blocks s -> any_step s s' -> inv blocks s'.
Proof.
  intros I [[s1 _ H|i s1 _ Hi H]|[_ Hb|i _ Hi Hw]].
  - by eapply inv_main_step.
  - by eapply inv_worker_step.
  - by apply inv_unblock.
  - apply inv_worker_move; try done; [apply I| |by intros [?|?]|congruence].
    intros j Hj. rewrite (i_started _ _ I) by done. unfold upd. case_decide; [subst; by rewrite Hw|done].
Qed.

Lemma inv_reachable blocks g s : fresh g -> rtc any_step (startProcessing g blocks) s -> inv blocks s.
Proof.
  intros Hf H. apply (inv_start g blocks) in Hf as I. clear Hf. induction H as [|s1 s2 s3 H1 H2 IH]; [done|].
  apply IH. by eapply inv_any_step.
Qed.

(** ** Progress *)

Lemma progress blocks s :
  inv blocks s -> terminated s = false -> main s <> MDone -> (forall e, main s <> MThrow e) -> exists s', step s s'.
Proof.
  intros I Ht Hd Hth.
  (* a worker whose state is set can move unless it has ended *)
  assert (forall i, (i < chunks_num)%nat -> cuda_processing_state s i = true -> worker s i <> WExited -> exists s', step s s') as Hwk.
  { intros i Hi Hs Hx. destruct (worker s i) eqn:Hw; [| | | |done].
    - eexists. eapply step_worker; [done..|]. by apply worker_start.
    - destruct (is_empty (data s) i) eqn:He.
      + eexists. eapply step_worker; [done..|]. by apply worker_break.
      + destruct (process_total (data s) i (i_data _ _ I) Hi) as [[g'|] Hp]; [|done| |].
        * destruct (started (data s) i) eqn:E; [done|]. apply (i_started _ _ I) in E; [|done]. congruence.
        * eexists. eapply step_worker; [done..|]. by eapply worker_process.
        * eexists. eapply step_worker; [done..|]. by eapply worker_throw.
    - pose proof (i_wblocked _ _ I i Hi Hw). congruence.
    - eexists. eapply step_worker; [done..|]. by apply worker_end. }
  destruct (main_step s) as [s'|] eqn:Em; [exists s'; by apply step_main|].
  unfold main_step in Em. destruct (blocked s) eqn:Hb.
  - destruct (i_blocked _ _ I Hb) as (i & Hc & Hs). pose proof (main_chunk_lt _ _ _ I Hc) as Hi. apply (Hwk i Hi Hs). intros Hw.
    assert (signalled s i) as Sg by (apply (i_exit _ _ I); auto). unfold signalled, main_chunk in *.
    destruct (main s) as [[|]| |k| | |]; try done. destruct (decide _); [|done]. injection Hc as ->. lia.
  - destruct (main_chunk s) as [i|] eqn:Ec.
    + destruct (cuda_processing_state s i); [done|]. unfold main_chunk in Ec.
      destruct (main s) as [[|]| |k| | |]; try done; destruct (is_empty _ _); done.
    + unfold main_chunk in Ec. destruct (main s) as [[|]| |k|k| |e] eqn:Es; try done; [|by destruct (Hth e)].
      destruct (decide _) as [Hk|]; [|done].
      destruct (i_signalled _ _ I k Hk) as [Hst _]; [unfold signalled; by rewrite Es|]. apply (Hwk k Hk Hst).
      intros Hw. by rewrite Hw in Em.
Qed.

(** ** Termination *)

Local Open Scope Z_scope.

Definition chunk_left (s : sys) (i : nat) : Z :=
  if is_empty (data s) i then 0 else if cuda_processing_state s i then 3 else 5.

Definition worker_left (w : worker_pc) : Z :=
  match w with WStart => 4 | WCheck => 3 | WBlocked => 2 | WFinish => 1 | WExited => 0 end.

Definition main_left (m : main_pc) : Z :=
  let n := Z.of_nat chunks_num in
  match m with
  | MQueue bs => 6 * Z.of_nat (length bs) + 4 * n + 5
  | MFlush => 4 * n + 4
  | MSignal i => 3 * Z.of_nat (chunks_num - i) + n + 3
  | MJoin i => Z.of_nat (chunks_num - i) + 1
  | MDone | MThrow _ => 0
  end.

Definition left (s : sys) : Z :=
  main_left (main s) + (if blocked s then 0 else 1) + (if terminated s then 0 else 1) +
  zsum (map (fun i => chunk_left s i + worker_left (worker s i)) (seq 0 chunks_num)).

Lemma left_nonneg s : 0 <= left s.
Proof.
  unfold left. assert (0 <= main_left (main s)) by (unfold main_left; destruct (main s); lia).
  assert (0 <= zsum (map (fun i => chunk_left s i + worker_left (worker s i)) (seq 0 chunks_num))).
  { apply zsum_map_nonneg. intros i. unfold chunk_left, worker_left. destruct (is_empty _ _), (cuda_processing_state s i), (worker s i); lia. }
  destruct (blocked s), (terminated s); lia.
Qed.

(** The sum when one chunk changes. *)
Lemma chunks_left_change s s' i :
  (i < chunks_num)%nat ->
  (forall j, (j < chunks_num)%nat -> j <> i -> chunk_left s' j + worker_left (worker s' j) = chunk_left s j + worker_left (worker s j)) ->
  zsum (map (fun i => chunk_left s' i + worker_left (worker s' i)) (seq 0 chunks_num)) =
  zsum (map (fun i => chunk_left s i + worker_left (worker s i)) (seq 0 chunks_num)) -
  (chunk_left s i + worker_left (worker s i)) + (chunk_left s' i + worker_left (worker s' i)).
Proof.
  intros Hi H. rewrite (map_ext_in _ (fun j => if decide (j < chunks_num)%nat then chunk_left s' j + worker_left (worker s' j) else chunk_left s j + worker_left (worker s j))).
  - rewrite (zsum_point (fun i => chunk_left s i + worker_left (worker s i)) _ _ i); [|apply NoDup_seq|apply elem_of_seq; lia|].
    + by rewrite decide_True.
    + intros j Hne. case_decide; [by apply H|done].
  - intros j Hj. apply list_elem_of_In, elem_of_seq in Hj. by rewrite decide_True by lia.
Qed.

Lemma chunks_left_same s s' :
  (forall j, (j < chunks_num)%nat -> chunk_left s' j + worker_left (worker s' j) = chunk_left s j + worker_left (worker s j)) ->
  zsum (map (fun i => chunk_left s' i + worker_left (worker s' i)) (seq 0 chunks_num)) =
  zsum (map (fun i => chunk_left s i + worker_left (worker s i)) (seq 0 chunks_num)).
Proof. intros H. f_equal. apply map_ext_in. intros j Hj. apply list_elem_of_In, elem_of_seq in Hj. apply H. lia. Qed.

Lemma left_goto s m : blocked s = false -> main_left m < main_left (main s) -> left (goto s m) < left s.
Proof.
  intros Hb H. unfold left. rewrite Hb. rewrite (chunks_left_same s (goto s m)) by done. cbn [goto main blocked terminated].
  destruct (terminated s); lia.
Qed.

Lemma left_send s i c m :
  (i < chunks_num)%nat -> blocked s = false -> cuda_processing_state s i = false ->
  main_left m + (if is_empty (data s) i then 1 else -1) < main_left (main s) ->
  left (send s i c m) < left s.
Proof.
  intros Hi Hb Hs H. unfold left. rewrite Hb. rewrite (chunks_left_change s (send s i c m) i Hi).
  - unfold chunk_left. cbn [send main blocked terminated data cuda_processing_state worker]. rewrite !upd_eq, Hs.
    assert (worker_left (wake (worker s i)) <= worker_left (worker s i) + 1) by (destruct (worker s i); cbn; lia).
    destruct (terminated s), (is_empty (data s) i); lia.
  - intros j Hj Hne. unfold chunk_left. cbn [send data cuda_processing_state worker]. by rewrite !upd_ne.
Qed.

Lemma left_append blocks s b bs :
  inv blocks s -> main s = MQueue (b :: bs) -> blocked s = false ->
  has_space (data s) (curr_filling_chunk s) b = true -> cuda_processing_state s (curr_filling_chunk s) = false ->
  left (Sys (append (data s) (curr_filling_chunk s) b) (curr_filling_chunk s) (cuda_processing_state s) (worker s)
    (MQueue bs) false (terminated s)) < left s.
Proof.
  intros I Hm Hb Hsp Hs. destruct (append_ok (data s) _ b (i_data _ _ I) (i_curr _ _ I) Hsp) as (A1 & A2 & A3 & A4 & A5).
  pose proof (empty_others _ _ _ (i_data _ _ I) A1 A4) as Eo. unfold left. rewrite Hb, Hm.
  rewrite (chunks_left_change s _ (curr_filling_chunk s) (i_curr _ _ I)).
  - unfold chunk_left. cbn [main blocked terminated data cuda_processing_state worker main_left length]. rewrite Hs.
    destruct (terminated s), (is_empty (data s) _), (is_empty (append _ _ _) _); lia.
  - intros j Hj Hne. unfold chunk_left. cbn [data cuda_processing_state worker]. by rewrite Eo.
Qed.

Lemma left_main_step blocks s s' : inv blocks s -> main_step s = Some s' -> left s' < left s.
Proof.
  intros I H. unfold main_step in H. destruct (blocked s) eqn:Hb; [done|]. destruct (main_chunk s) as [i|] eqn:Ec.
  - pose proof (main_chunk_lt _ _ _ I Ec) as Hi. destruct (cuda_processing_state s i) eqn:Es.
    { injection H as <-. unfold left. rewrite Hb. rewrite chunks_left_same with (s := s) by done. cbn [main blocked terminated]. lia. }
    unfold main_chunk in Ec. destruct (main s) as [[|b bs]| |k| | |] eqn:Em; try done.
    + injection Ec as <-. injection H as <-. unfold tryQueueData. destruct (has_space _ _ _) eqn:Hsp; [by eapply left_append|].
      destruct (is_empty _ _) eqn:He.
      * apply left_goto; [done|]. rewrite Em. cbn [main_left]. lia.
      * apply left_send; [done..|]. rewrite Em, He. lia.
    + injection Ec as <-. destruct (is_empty _ _) eqn:He; injection H as <-.
      * apply left_goto; [done|]. rewrite Em. cbn [main_left]. lia.
      * apply left_send; [done..|]. rewrite Em, He. cbn [main_left]. lia.
    + destruct (decide _); [|done]. injection Ec as ->. destruct (is_empty _ _) eqn:He; injection H as <-.
      * apply left_send; [done..|]. rewrite Em, He. cbn [main_left]. lia.
      * apply left_goto; [done|]. rewrite Em. cbn [main_left]. lia.
  - unfold main_chunk in Ec. destruct (main s) as [[|b bs]| |k|k| |] eqn:Em; try done.
    + injection H as <-. apply left_goto; [done|]. rewrite Em. cbn [main_left length]. lia.
    + injection H as <-. apply left_goto; [done|]. rewrite Em. cbn [main_left]. lia.
    + destruct (decide _) as [Hk|Hk]; [destruct (worker s k); try done|]; injection H as <-; (apply left_goto; [done|]);
        rewrite Em; cbn [main_left]; lia.
Qed.

Lemma left_worker_move blocks s i g' w :
  inv blocks s -> (i < chunks_num)%nat -> data_ok g' ->
  (forall j, (j < chunks_num)%nat -> pending g' j = pending (data s) j) -> worker_left w < worker_left (worker s i) ->
  left (Sys g' (curr_filling_chunk s) (cuda_processing_state s) (upd (worker s) i w) (main s) (blocked s) (terminated s)) < left s.
Proof.
  intros I Hi Hg Hp Hw. assert (forall j, (j < chunks_num)%nat -> is_empty g' j = is_empty (data s) j) as Eo.
  { intros j Hj. apply is_empty_same; auto. apply I. }
  unfold left. rewrite (chunks_left_change s _ i Hi).
  - unfold chunk_left. cbn [main blocked terminated data cuda_processing_state worker]. rewrite upd_eq, Eo by done.
    destruct (blocked s), (terminated s); lia.
  - intros j Hj Hne. unfold chunk_left. cbn [data cuda_processing_state worker]. by rewrite upd_ne, Eo.
Qed.

Lemma left_worker_step blocks s i s' :
  inv blocks s -> terminated s = false -> (i < chunks_num)%nat -> worker_step s i s' -> left s' < left s.
Proof.
  intros I Ht Hi H. pose proof (i_data _ _ I) as Hd.
  assert (worker s i <> WStart -> started (data s) i = true) as St.
  { intros Hw. destruct (started (data s) i) eqn:E; [done|]. by apply (i_started _ _ I) in E. }
  destruct H as [Hw|Hw Hs|g' Hw Hs He Hp|Hw Hs He Hp|Hw Hs He|Hw].
  - destruct (start_ok _ _ Hd Hi) as (A1 & A2 & A3 & A4); [by apply (i_started _ _ I)|].
    eapply left_worker_move; [done..|intros; by apply A4|by rewrite Hw].
  - eapply left_worker_move; [done..|by rewrite Hw].
  - rewrite Hw in St. destruct (process_ok _ _ _ Hd Hi (St ltac:(done)) He Hp) as (P1 & P2 & P3 & P4 & P5 & P6).
    assert (is_empty g' i = true) as E1 by (by apply is_empty_nil). unfold left. rewrite (chunks_left_change s _ i Hi).
    + unfold chunk_left. cbn [main blocked terminated data cuda_processing_state worker]. rewrite upd_eq, E1, He, Hs.
      unfold notify_main. destruct (blocked s), (terminated s); try destruct (decide _); lia.
    + intros j Hj Hne. unfold chunk_left. cbn [data cuda_processing_state worker]. rewrite upd_ne by done.
      rewrite (is_empty_same (data s) g' j j); auto. by apply P5.
  - unfold left. rewrite Ht. rewrite chunks_left_same with (s := s) by done. cbn [main blocked terminated]. lia.
  - eapply left_worker_move; [done..|by rewrite Hw].
  - rewrite Hw in St. destruct (finish_ok _ _ Hd Hi (St ltac:(done))) as (A1 & A2 & A3 & A4 & A5). eapply left_worker_move; [done..|intros; by apply A5|by rewrite Hw].
Qed.

Lemma left_step blocks s s' : inv blocks s -> step s s' -> left s' < left s.
Proof. intros I [s1 Ht H|i s1 Ht Hi H]; [by eapply left_main_step|by eapply left_worker_step]. Qed.

Lemma left_start g blocks :
  fresh g -> left (startProcessing g blocks) = 6 * Z.of_nat (length blocks) + 8 * Z.of_nat chunks_num + 7.
Proof.
  intros [Hg Hf]. unfold left. cbn [startProcessing main blocked terminated main_left].
  rewrite (map_ext_in _ (fun _ => 4)).
  - assert (forall l : list nat, zsum (map (fun _ => 4) l) = 4 * Z.of_nat (length l)) as -> by (intros l; induction l; cbn [map zsum length]; lia).
    rewrite length_seq. lia.
  - intros j Hj. apply list_elem_of_In, elem_of_seq in Hj. unfold chunk_left. cbn [startProcessing data worker worker_left].
    rewrite is_empty_nil; [done|done|lia|]. apply Hf. lia.
Qed.

(** ** Runs *)

(** A worker's step as a function; [proc] gives the result of the aggregation,
    or nothing when its kernels have not returned. *)
Definition worker_exec (proc : G -> nat -> option (option G)) (s : sys) (i : nat) : option sys :=
  match worker s i with
  | WStart => Some (Sys (start (data s) i) (curr_filling_chunk s) (cuda_processing_state s) (upd (worker s) i WCheck)
                      (main s) (blocked s) (terminated s))
  | WCheck =>
      if cuda_processing_state s i then
        if is_empty (data s) i then
          Some (Sys (data s) (curr_filling_chunk s) (cuda_processing_state s) (upd (worker s) i WFinish)
                  (main s) (blocked s) (terminated s))
        else
          r ← proc (data s) i;
          match r with
          | Some g' =>
              Some (Sys g' (curr_filling_chunk s) (upd (cuda_processing_state s) i false) (worker s)
                      (main s) (notify_main s i) (terminated s))
          | None => Some (Sys (data s) (curr_filling_chunk s) (cuda_processing_state s) (worker s) (main s) (blocked s) true)
          end
      else Some (Sys (data s) (curr_filling_chunk s) (cuda_processing_state s) (upd (worker s) i WBlocked)
                   (main s) (blocked s) (terminated s))
  | WFinish => Some (Sys (finish (data s) i) (curr_filling_chunk s) (cuda_processing_state s) (upd (worker s) i WExited)
                       (main s) (blocked s) (terminated s))
  | WBlocked | WExited => None
  end.

Lemma worker_exec_step proc s i s' :
  (forall r, is_empty (data s) i = false -> worker s i = WCheck -> proc (data s) i = Some r -> process (data s) i r) ->
  worker_exec proc s i = Some s' -> worker_step s i s'.
Proof.
  intros Hp E. unfold worker_exec in E. destruct (worker s i) eqn:Hw; try done.
  - injection E as <-. cbn. by apply worker_start.
  - destruct (cuda_processing_state s i) eqn:Hs; [destruct (is_empty (data s) i) eqn:He|].
    + injection E as <-. by apply worker_break.
    + destruct (proc (data s) i) as [[g'|]|] eqn:Ep; [| |done]; injection E as <-; [apply worker_process|apply worker_throw]; auto.
    + injection E as <-. by apply worker_wait.
  - injection E as <-. cbn. by apply worker_end.
Qed.

(** A run: [None] is the calling thread, [Some i] a worker; a thread that
    cannot move is passed over. *)
Fixpoint exec (proc : G -> nat -> option (option G)) (turns : list (option nat)) (s : sys) : sys :=
  match turns with
  | [] => s
  | t :: turns' =>
      exec proc turns'
        (if terminated s then s
         else match t with
         | None => default s (main_step s)
         | Some i => if decide (i < chunks_num)%nat then default s (worker_exec proc s i) else s
         end)
  end.

Lemma exec_rtc proc turns s :
  (forall g i r, proc g i = Some r -> process g i r) -> rtc step s (exec proc turns s).
Proof.
  intros Hp. revert s. induction turns as [|t turns IH]; intros s; [done|]. cbn [exec].
  destruct (terminated s) eqn:Ht; [apply IH|]. destruct t as [i|].
  - destruct (decide _) as [Hi|]; [|apply IH]. destruct (worker_exec proc s i) as [s'|] eqn:E; [|apply IH]. cbn [default from_option].
    eapply rtc_l; [|apply IH]. eapply step_worker; [done|done|]. eapply worker_exec_step; [|exact E]. auto.
  - destruct (main_step s) as [s'|] eqn:E; [|apply IH]. cbn. eapply rtc_l; [|apply IH]. by apply step_main.
Qed.

(** ** Calls of the calling thread *)

(** Steps during [queueData], or between two calls of it, when the other threads
    go on. *)
Definition between (s s' : sys) : Prop := any_step s s' /\ (main s = MQueue [] -> main s' = MQueue []).

(** The state with the calling thread somewhere else. *)
Definition at_main (s : sys) (m : main_pc) : sys :=
  Sys (data s) (curr_filling_chunk s) (cuda_processing_state s) (worker s) m (blocked s) (terminated s).

(** More blocks to be queued. *)
Definition more (rest : list block) (s : sys) : sys :=
  match main s with MQueue bs => at_main s (MQueue (bs ++ rest)) | _ => s end.

Lemma more_other rest s : (forall bs, main s <> MQueue bs) -> more rest s = s.
Proof. intros H. unfold more. destruct (main s) eqn:E; try done. by destruct (H blocks). Qed.

Lemma more_queue rest s bs : main s = MQueue bs -> more rest s = at_main s (MQueue (bs ++ rest)).
Proof. intros H. unfold more. by rewrite H. Qed.

(** The calling thread does not come back to [queueData]. *)
Definition queueing (m : main_pc) : bool := match m with MQueue _ | MThrow NotEnoughSpace => true | _ => false end.

Lemma worker_step_main s i s' : worker_step s i s' -> main s' = main s.
Proof. by destruct 1. Qed.

Lemma main_step_queueing s s' : main_step s = Some s' -> queueing (main s) = false -> queueing (main s') = false.
Proof.
  unfold main_step. destruct (blocked s); [done|]. destruct (main_chunk s) as [i|].
  - destruct (cuda_processing_state s i); [by intros [= <-]|]. destruct (main s) as [[|]| |k|k| |[]]; try done; destruct (is_empty _ _); by intros [= <-].
  - destruct (main s) as [[|]| |k|k| |[]] eqn:E; try done; [by intros [= <-]|]. destruct (decide _); [destruct (worker s k)|]; try done; by intros [= <-].
Qed.

Lemma any_step_queueing s s' : any_step s s' -> queueing (main s) = false -> queueing (main s') = false.
Proof.
  intros [[s1 _ Hm|i s1 _ _ Hw]|[_ _|i _ _ _]]; [by apply main_step_queueing| |done..]. by rewrite (worker_step_main _ _ _ Hw).
Qed.

Lemma rtc_queueing s s' : rtc any_step s s' -> queueing (main s) = false -> queueing (main s') = false.
Proof. induction 1 as [|s1 s2 s3 H1 _ IH]; [done|]. intros H. apply IH. by apply (any_step_queueing s1). Qed.

Lemma main_step_more rest s b bs s' : main s = MQueue (b :: bs) -> main_step s = Some s' -> main_step (more rest s) = Some (more rest s').
Proof.
  intros Em. rewrite (more_queue rest s _ Em). unfold main_step, main_chunk. cbn [at_main blocked main cuda_processing_state curr_filling_chunk app]. rewrite Em.
  destruct (blocked s); [done|]. destruct (cuda_processing_state s _); [by intros [= <-]|].
  intros [= <-]. unfold tryQueueData, more. cbn [at_main data curr_filling_chunk]. destruct (has_space _ _ _); [done|]. destruct (is_empty _ _); done.
Qed.

Lemma worker_step_more rest s i s' : (blocked s = true -> main s <> MQueue []) -> worker_step s i s' -> worker_step (more rest s) i (more rest s').
Proof.
  intros Hb Hw. pose proof (worker_step_main _ _ _ Hw) as Em. destruct (main s) as [bs| | | | |] eqn:E; [|rewrite !more_other by congruence; done..].
  rewrite (more_queue rest s _ E), (more_queue rest s' bs) by done.
  assert (notify_main (at_main s (MQueue (bs ++ rest))) i = notify_main s i) as Hn.
  { unfold notify_main. cbn [at_main blocked]. destruct (blocked s); [|done]. unfold main_chunk. rewrite E. cbn [main at_main]. by destruct bs; [destruct Hb|]. }
  destruct Hw as [W|W S1|g' W S1 S2 S3|W S1 S2 S3|W S1 S2|W]; [by apply worker_start|by apply worker_wait| |by apply worker_throw|by apply worker_break|by apply worker_end].
  unfold at_main. cbn. rewrite <- Hn. by apply (worker_process (at_main s (MQueue (bs ++ rest)))).
Qed.

Lemma spurious_more rest s s' : spurious s s' -> spurious (more rest s) (more rest s').
Proof.
  intros [Ht Hb|i Ht Hi Hw]; (destruct (main s) as [bs| | | | |] eqn:E; [|rewrite !more_other by (cbn; congruence); rewrite <- E; by constructor..]);
    rewrite !(more_queue rest _ bs) by done; [by apply (spurious_main (at_main s (MQueue (bs ++ rest))))|by apply (spurious_worker (at_main s (MQueue (bs ++ rest))))].
Qed.

Lemma between_more rest s s' : (blocked s = true -> main s <> MQueue []) -> between s s' -> between (more rest s) (more rest s').
Proof.
  intros Hb [H Hq]. split.
  - revert Hq. destruct H as [[s1 Ht Hm|i s1 Ht Hi Hw]|Hsp]; intros Hq.
    + left. assert (queueing (main s) = false -> forall bs, main s1 <> MQueue bs) as Hother.
      { intros Q%(main_step_queueing s s1 Hm) bs Eb. by rewrite Eb in Q. }
      destruct (main s) as [[|b bs]| | | | |] eqn:E.
      * exfalso. unfold main_step, main_chunk in Hm. rewrite E in Hm. destruct (blocked s); [done|]. injection Hm as <-. by specialize (Hq eq_refl).
      * apply step_main; [by rewrite (more_queue _ _ _ E)|]. by apply (main_step_more rest s b bs).
      * by rewrite !more_other; [apply step_main|apply Hother|]; rewrite ?E.
      * by rewrite !more_other; [apply step_main|apply Hother|]; rewrite ?E.
      * by rewrite !more_other; [apply step_main|apply Hother|]; rewrite ?E.
      * unfold main_step, main_chunk in Hm. rewrite E in Hm. by destruct (blocked s).
      * unfold main_step, main_chunk in Hm. rewrite E in Hm. by destruct (blocked s).
    + left. eapply step_worker; [|done|by apply worker_step_more]. unfold more. by destruct (main s).
    + right. by apply spurious_more.
  - unfold more at 1. destruct (main s) as [bs| | | | |] eqn:E; cbn [at_main main]; try congruence.
    intros [= [-> ->]%app_eq_nil]. rewrite (more_queue [] s' []) by (by apply Hq). done.
Qed.

Lemma quiet_more rest blocks s s' : inv blocks s -> rtc between s s' -> rtc between (more rest s) (more rest s').
Proof.
  intros I H. induction H as [|s1 s2 s3 H1 _ IH]; [done|]. eapply rtc_l; [|apply IH; eapply inv_any_step; [done|apply H1]].
  apply between_more; [|done]. intros Hb Em. destruct (i_blocked _ _ I Hb) as (i & Hi & _). unfold main_chunk in Hi. by rewrite Em in Hi.
Qed.

Lemma between_any s s' : rtc between s s' -> rtc any_step s s'.
Proof. apply rtc_subrel. by intros ? ? [? _]. Qed.

(** A block more. *)
Lemma quiet_queue g bs b s s' :
  fresh g -> rtc between (startProcessing g bs) s -> rtc between (more [b] s) s' -> rtc between (startProcessing g (bs ++ [b])) s'.
Proof.
  intros Hf Hr H. etrans; [|exact H]. change (startProcessing g (bs ++ [b])) with (more [b] (startProcessing g bs)).
  apply (quiet_more [b] bs); [|exact Hr]. by apply inv_start.
Qed.

Lemma between_queueing s s' : between s s' -> queueing (main s) = true -> queueing (main s') = true.
Proof.
  intros [H Hq]. revert Hq. destruct H as [[s1 _ Hm|i s1 _ _ Hw]|[_ _|i _ _ _]]; [|by rewrite (worker_step_main _ _ _ Hw)|done..].
  unfold main_step, main_chunk in Hm. destruct (blocked s); [done|]. destruct (main s) as [[|b bs]| | | | |[]] eqn:E; try done; [by intros ->|].
  intros _ _. destruct (cuda_processing_state s _); injection Hm as <-; [done|]. unfold tryQueueData.
  destruct (has_space _ _ _); [done|]. by destruct (is_empty _ _).
Qed.

Lemma quiet_queueing s s' : rtc between s s' -> queueing (main s) = true -> queueing (main s') = true.
Proof. induction 1 as [|s1 s2 s3 H1 _ IH]; [done|]. intros H. apply IH. by apply (between_queueing s1). Qed.

(** ** A scheduler *)

(** The call in which the calling thread is has ended. *)
Definition over (s : sys) : bool :=
  terminated s || match main s with MQueue [] | MDone | MThrow _ => true | _ => false end.

(** The calling thread moves if it can, otherwise the first worker that can. *)
Definition sched_step (proc : G -> nat -> option (option G)) (s : sys) : option sys :=
  match main_step s with
  | Some s' => Some s'
  | None => head (omap (worker_exec proc s) (seq 0 chunks_num))
  end.

Fixpoint run_call (fuel : nat) (proc : G -> nat -> option (option G)) (s : sys) : sys :=
  match fuel with
  | O => s
  | S fuel => if over s then s else match sched_step proc s with Some s' => run_call fuel proc s' | None => s end
  end.

(** The measure bounds the number of steps. *)
Definition call (proc : G -> nat -> option (option G)) (s : sys) : sys := run_call (S (Z.to_nat (left s))) proc s.

Section scheduler.
Context (proc : G -> nat -> option (option G)).
Hypothesis proc_ok : forall g i r, proc g i = Some r -> process g i r.
Hypothesis proc_returns : forall g i, data_ok g -> (i < chunks_num)%nat -> started g i = true -> is_Some (proc g i).

Lemma worker_step_exec blocks s i s' : inv blocks s -> (i < chunks_num)%nat -> worker_step s i s' -> is_Some (worker_exec proc s i).
Proof.
  intros I Hi Hw. assert (worker s i = WCheck -> is_Some (proc (data s) i)) as Hp.
  { intros W. apply proc_returns; [apply I|done|]. destruct (started (data s) i) eqn:E; [done|]. apply (i_started _ _ I) in E; [congruence|done]. }
  unfold worker_exec. destruct Hw as [W|W S1|g' W S1 S2 S3|W S1 S2 S3|W S1 S2|W]; rewrite W, ?S1, ?S2; try (by eexists);
    destruct (Hp W) as [[g2|] ->]; by eexists.
Qed.

Lemma sched_step_moves blocks s : inv blocks s -> over s = false -> exists s', sched_step proc s = Some s' /\ step s s'.
Proof.
  intros I Ho. apply orb_false_iff in Ho as [Ht Ho]. unfold sched_step.
  destruct (main_step s) as [s1|] eqn:Em; [exists s1; split; [done|by apply step_main]|].
  destruct (progress blocks s I Ht) as [s1 [s2 _ Hm|i s2 _ Hi Hw]]; [intros E; by rewrite E in Ho|intros e E; by rewrite E in Ho|congruence|].
  destruct (worker_step_exec blocks s i s2 I Hi Hw) as [s3 Hs3]. destruct (omap (worker_exec proc s) (seq 0 chunks_num)) as [|s4 l] eqn:El.
  - exfalso. assert (s3 ∈ omap (worker_exec proc s) (seq 0 chunks_num)) as Hin by (apply list_elem_of_omap; exists i; split; [apply elem_of_seq; lia|done]).
    rewrite El in Hin. by apply not_elem_of_nil in Hin.
  - exists s4. split; [done|]. assert (s4 ∈ omap (worker_exec proc s) (seq 0 chunks_num)) as (j & Hj & Ej)%list_elem_of_omap by (rewrite El; by left).
    apply elem_of_seq in Hj. eapply (step_worker s j); [done|lia|]. eapply worker_exec_step; [|exact Ej]. auto.
Qed.

Lemma run_call_over blocks fuel s :
  inv blocks s -> left s < Z.of_nat fuel -> over (run_call fuel proc s) = true /\ rtc between s (run_call fuel proc s).
Proof.
  revert s. induction fuel as [|fuel IH]; intros s I Hf; [pose proof (left_nonneg s); lia|]. cbn [run_call].
  destruct (over s) eqn:Ho; [done|]. destruct (sched_step_moves blocks s I Ho) as (s' & -> & Hs).
  destruct (IH s') as [H1 H2]; [eapply inv_any_step; [done|by left]|pose proof (left_step _ _ _ I Hs); lia|]. split; [done|].
  eapply rtc_l; [|exact H2]. split; [by left|]. intros Em. apply orb_false_iff in Ho as [_ Ho]. by rewrite Em in Ho.
Qed.

(** Every call comes to its end. *)
Lemma call_over blocks s : inv blocks s -> over (call proc s) = true /\ rtc between s (call proc s).
Proof. intros I. apply (run_call_over blocks); [done|]. pose proof (left_nonneg s). lia. Qed.
End scheduler.

Lemma processed_at_end g blocks s :
  fresh g -> rtc any_step (startProcessing g blocks) s -> main s = MDone ->
  (forall i, (i < chunks_num)%nat -> worker s i = WExited /\ is_empty (data s) i = true) /\
  filter (fun b => rows b <> 0%nat) (all_processed (data s)) ≡ₚ filter (fun b => rows b <> 0%nat) blocks.
Proof.
  intros Hf H Hm. destruct (inv_reachable blocks g s Hf H).
  assert (forall i, (i < chunks_num)%nat -> is_empty (data s) i = true) as He.
  { intros i Hi. apply i_signalled0; [done|]. unfold signalled. by rewrite Hm. }
  split; [intros i Hi; split; [rewrite Hm in i_joined0; auto|auto]|].
  specialize (i_blocks0 ltac:(rewrite Hm; done)). rewrite Hm in i_blocks0. cbn [to_queue] in i_blocks0. rewrite app_nil_r in i_blocks0.
  rewrite <- i_blocks0, filter_app. assert (filter (fun b => rows b <> 0%nat) (all_pending (data s)) = []) as ->; [|by rewrite app_nil_r].
  unfold all_pending. assert (forall l, (forall i, i ∈ l -> (i < chunks_num)%nat) ->
    filter (fun b => rows b <> 0%nat) (concat (map (pending (data s)) l)) = []) as Hl; [|apply Hl; intros i Hi; apply elem_of_seq in Hi; lia].
  induction l as [|i l IH]; intros Hl; [done|]. cbn [map concat]. rewrite filter_app, IH by (intros; apply Hl; by right).
  rewrite app_nil_r. pose proof (proj1 (empty_spec (data s) i i_data0 (Hl i ltac:(by left))) (He i (Hl i ltac:(by left)))) as F.
  clear - F. induction F as [|b l Hb F IH]; [done|]. rewrite filter_cons, decide_False by (rewrite Hb; auto). done.
Qed.

(** ** Properties *)

(** Processing has ended: normally, by the exception for a block that does
    not fit into an empty buffer, or by an exception in a worker. *)
Definition ended (s : sys) : Prop := main s = MDone \/ main s = MThrow NotEnoughSpace \/ terminated s = true.

(** C22: There is no deadlock and no lost wakeup.  In every state reachable from
    [startProcessing], also after spurious wakeups, either processing has ended
    or some thread can make a step; the exception about a buffer that is not
    empty after the transfer is never thrown. *)
Theorem no_deadlock g blocks s :
  fresh g -> rtc any_step (startProcessing g blocks) s ->
  (ended s \/ exists s', step s s') /\ main s <> MThrow BufferNotEmpty.
Proof.
  intros Hf H. pose proof (inv_reachable blocks g s Hf H) as I. split; [|apply I].
  destruct (terminated s) eqn:Ht; [left; by right; right|].
  destruct (main s) as [bs| |k|k| |[]] eqn:Em; try (right; eapply progress; [done|done|by rewrite Em|by rewrite Em]).
  - left. by left.
  - left. by right; left.
  - by destruct (i_throw _ _ I).
Qed.

(** C23: Processing ends.  A run from [startProcessing] without spurious wakeups
    has at most 6 steps for a block and 8 for a chunk, and 7 more. *)
Theorem processing_terminates g blocks k s :
  fresh g -> nsteps step k (startProcessing g blocks) s ->
  Z.of_nat k <= 6 * Z.of_nat (length blocks) + 8 * Z.of_nat chunks_num + 7.
Proof.
  intros Hf H. rewrite <- (left_start g blocks Hf). pose proof (inv_start g blocks Hf) as I. clear Hf.
  revert H I. generalize (startProcessing g blocks). intros s0 H. induction H as [s0|k s0 s1 s2 H1 H2 IH]; intros I.
  - apply left_nonneg.
  - pose proof (left_step _ _ _ I H1). assert (inv blocks s1) as I1 by (eapply inv_any_step; [done|by left]). specialize (IH I1). lia.
Qed.

(** C7: Every block is aggregated exactly once.  When [waitProcessed] has joined
    the workers, all of them have ended, no buffer holds a row, and the blocks
    with rows that the workers have processed are, up to their order, those
    that were queued. *)
Theorem blocks_processed_once g blocks s :
  fresh g -> rtc any_step (startProcessing g blocks) s -> main s = MDone ->
  (forall i, (i < chunks_num)%nat -> worker s i = WExited /\ is_empty (data s) i = true) /\
  filter (fun b => rows b <> 0%nat) (all_processed (data s)) ≡ₚ filter (fun b => rows b <> 0%nat) blocks.
Proof. apply processed_at_end. Qed.


End protocol.

(** ** An instance for the witnesses *)

(** Blocks are their numbers of rows; a buffer takes four rows. *)
Record toy := Toy { toy_started : list nat; toy_finished : list nat; toy_pending : nat -> list nat; toy_processed : nat -> list nat }.

Definition toy_proc (g : toy) (i : nat) : toy :=
  Toy (toy_started g) (toy_finished g) (upd (toy_pending g) i []) (upd (toy_processed g) i (toy_processed g i ++ toy_pending g i)).

#[local, refine] Instance toy_chunks : ChunkData nat toy := {
  chunks_num := 2;
  rows b := b;
  data_ok _ := True;
  started g i := bool_decide (i ∈ toy_started g);
  finished g i := bool_decide (i ∈ toy_finished g);
  pending := toy_pending;
  processed := toy_processed;
  has_space g i b := Nat.leb (list_sum (toy_pending g i) + b) 4;
  is_empty g i := Nat.eqb (list_sum (toy_pending g i)) 0;
  append g i b := Toy (toy_started g) (toy_finished g) (upd (toy_pending g) i (toy_pending g i ++ [b])) (toy_processed g);
  start g i := Toy (i :: toy_started g) (toy_finished g) (toy_pending g) (toy_processed g);
  process g i r := r = Some (toy_proc g i);
  finish g i := Toy (toy_started g) (i :: toy_finished g) (toy_pending g) (toy_processed g);
  chunks_pos := _; empty_spec := _; append_ok := _; start_ok := _; process_ok := _; process_total := _; finish_ok := _
}.
Proof.
  - lia.
  - intros g i _ _. rewrite Nat.eqb_eq. induction (toy_pending g i) as [|b l IH]; [done|]. rewrite list.Forall_cons, <- IH. cbn. unfold list_sum. lia.
  - intros g i b _ _ _. cbn. rewrite upd_eq. split_and!; try done. intros j _ Hne. by rewrite upd_ne.
  - intros g i _ _ _. cbn. split_and!; try done.
    + apply bool_decide_eq_true. by left.
    + intros j Hne. split; [|done]. apply bool_decide_ext. rewrite elem_of_cons. naive_solver.
  - intros g i g' _ _ _ _ [= ->]. cbn. rewrite !upd_eq. split_and!; try done. intros j _ Hne. by rewrite !upd_ne.
  - intros. by eexists.
  - intros g i _ _ _. cbn. split_and!; try done.
    + apply bool_decide_eq_true. by left.
    + intros j Hne. apply bool_decide_ext. rewrite elem_of_cons. naive_solver.
Defined.

Definition toy_proc_opt (g : toy) (i : nat) : option (option toy) := Some (Some (toy_proc g i)).

Definition toy_init : toy := Toy [] [] (fun _ => []) (fun _ => []).

Definition toy_turns : list (option nat) := concat (replicate 30 [None; Some 0; Some 1])%nat.

Lemma toy_fresh : fresh toy_init.
Proof. split; [done|]. intros i Hi. by split_and!. Qed.

Definition toy_end : sys := exec toy_proc_opt toy_turns (startProcessing toy_init [3; 0; 2; 2; 4])%nat.

Lemma toy_run : rtc any_step (startProcessing toy_init [3; 0; 2; 2; 4]%nat) toy_end.
Proof.
  apply (rtc_subrel step); [by left|]. apply exec_rtc. by intros g i r [= <-].
Qed.

Lemma no_deadlock_witness : (ended toy_end \/ exists s', step toy_end s') /\ main toy_end <> MThrow BufferNotEmpty.
Proof. exact (no_deadlock toy_init [3; 0; 2; 2; 4]%nat toy_end toy_fresh toy_run). Defined.

Lemma processing_terminates_witness :
  (Z.of_nat 1 <= 6 * Z.of_nat (length [1; 2]%nat) + 8 * Z.of_nat 2 + 7)%Z.
Proof.
  apply (processing_terminates toy_init [1; 2]%nat 1 (exec toy_proc_opt [None] (startProcessing toy_init [1; 2]%nat)) toy_fresh).
  eapply nsteps_l; [|apply nsteps_O]. apply step_main; reflexivity.
Defined.

Lemma blocks_processed_once_witness :
  filter (fun b => rows b <> 0%nat) (all_processed (data toy_end)) ≡ₚ filter (fun b => rows b <> 0%nat) [3; 0; 2; 2; 4]%nat.
Proof. exact (proj2 (blocks_processed_once toy_init [3; 0; 2; 2; 4]%nat toy_end toy_fresh toy_run eq_refl)). Defined.

