(* ===== verification/ChunkState.v ===== *)
(** * The chunks of the strings aggregator

    A chunk of [CudaStringsAggregator] (Interpreters/Cuda/CudaStringsAggregator.h,
    [WorkChunkInfo]) puts the components together: blocks are appended to its
    columns, and its worker gives every row a bucket of the hash table and adds
    the row's value to the aggregate state of the bucket.  This file has the
    data of a chunk, the parts of [tryQueueData] and [processChunk] that work
    on it, and what they do in terms of the rows: after any sequence of buffers
    the table holds exactly the keys of the rows, and the state of a bucket
    stands for the values of the rows with its key ([table_repr]).

    All chunks share the memory of the device; the ranges of their buffers are
    apart, and an operation writes only in ranges of its own chunk. *)

From Stdlib Require Import ZArith Lia.
From stdpp Require Import base list gmap numbers.
From S2P Require Import Prelude DeviceMemory.
From S2P Require MurmurHash StringsColumn HyperLogLog.
From S2P Require Import AddDataKernel StringsHashTable.
From S2P Require AggregateFunctions.
Import AggregateFunctions (CudaAggregateFunction, agg_data, isDataNeeded, cudaInitAggregateData, cudaAddBulk, cudaMergeBulk,
  AggregateLaws, agg_repr, MergeLaws, BulkReturns, bulk_returns).

#[local] Open Scope Z_scope.
#[local] Open Scope word_scope.

(** ** Blocks *)

(** A string of [ColumnString]: bytes that end with a zero. *)
Definition row_okb (r : list Z) : bool :=
  forallb (fun x => (0 <=? x) && (x <? 256)) r && match reverse r with x :: _ => x =? 0 | [] => false end.

(** A key and a value for every row, as the caller of [queueData] has them. *)
Definition block_okb (ks vs : list (list Z)) : bool :=
  (length ks =? length vs)%nat && forallb row_okb ks && forallb row_okb vs &&
  (Z.of_nat (length ks) <? 2 ^ 63) && (Z.of_nat (length (concat ks)) <? 2 ^ 63) && (Z.of_nat (length (concat vs)) <? 2 ^ 63).

Record block := Block {
  b_keys : list (list Z);
  b_vals : list (list Z);
  b_ok : block_okb b_keys b_vals = true
}.

(** ** The data of a chunk *)

Record chunk (F : CudaAggregateFunction) := Chunk {
  cuda_buffer_keys : StringsColumn.column;
  cuda_buffer_vals : StringsColumn.column;
  cuda_hash_table : hash_table;
  group_nums : list Z;
  group_agg_res : list agg_data
}.
Arguments Chunk {F}.
Arguments cuda_buffer_keys {F}.
Arguments cuda_buffer_vals {F}.
Arguments cuda_hash_table {F}.
Arguments group_nums {F}.
Arguments group_agg_res {F}.

Section operations.
Context {F : CudaAggregateFunction}.

(** The condition of [tryQueueData]. *)
Definition chunk_hasSpace (c : chunk F) (b : block) : bool :=
  StringsColumn.hasSpace (cuda_buffer_keys c) (Z.of_nat (length (b_keys b))) (Z.of_nat (length (concat (b_keys b)))) &&
  StringsColumn.hasSpace (cuda_buffer_vals c) (Z.of_nat (length (b_keys b))) (Z.of_nat (length (concat (b_vals b)))).

(** The two calls of [addData]. *)
Definition chunk_append (m : memory) (c : chunk F) (b : block) : memory * chunk F :=
  let '(m, ks) := StringsColumn.addData m (cuda_buffer_keys c) (concat (b_keys b)) (StringsColumn.ends 0 (b_keys b)) in
  let '(m, vs) :=
    if isDataNeeded then StringsColumn.addData m (cuda_buffer_vals c) (concat (b_vals b)) (StringsColumn.ends 0 (b_vals b))
    else (m, cuda_buffer_vals c) in
  (m, Chunk ks vs (cuda_hash_table c) (group_nums c) (group_agg_res c)).

(** [processChunk] before its loop. *)
Definition chunk_start (c : chunk F) : chunk F :=
  Chunk (cuda_buffer_keys c) (cuda_buffer_vals c) (erase (cuda_hash_table c)) (group_nums c)
    (cudaInitAggregateData (Z.to_nat (ht_buckets_num (cuda_hash_table c)))).

(** The choices of the device: how the kernels of [addData] and of
    [cudaAddBulk] are interleaved. *)
Record launches := Launches { sched_add : schedule; sched_copy : list nat; sched_bulk : schedule }.

(** The rows that [addData] of the table is given. *)
Definition chunk_args (c : chunk F) : add_args :=
  let ks := StringsColumn.calcLengths (cuda_buffer_keys c) in
  call_args (cuda_hash_table c) (Z.to_nat (StringsColumn.str_num ks)) (StringsColumn.buf ks)
    (StringsColumn.offsets ks) (StringsColumn.lens ks).

(** The aggregation of a buffer, the body of the loop of [processChunk]; [None]
    when some thread has not returned after the given turns. *)
Definition process_buffer (o : launches) (d : device) (c : chunk F) : option (add_error + device * chunk F) :=
  let ks := StringsColumn.calcLengths (cuda_buffer_keys c) in
  let vs := if isDataNeeded then StringsColumn.calcLengths (cuda_buffer_vals c) else cuda_buffer_vals c in
  let n := Z.to_nat (StringsColumn.str_num ks) in
  if negb (all_exited (call_grid (sched_add o) d (cuda_hash_table c) (chunk_args c) (group_nums c))) then None
  else
    let '(d', H', nums, e) := addData (sched_add o) (sched_copy o) d (cuda_hash_table c) n (StringsColumn.buf ks)
      (StringsColumn.offsets ks) (StringsColumn.lens ks) (group_nums c) in
    match e with
    | Some e => Some (inl e)
    | None =>
        places ← cudaAddBulk (sched_bulk o) (dev_mem d') vs n nums (group_agg_res c);
        Some (inr (d', Chunk (StringsColumn.reset ks) (StringsColumn.reset vs) H' nums places))
    end.

(** [processChunk] behind its loop. *)
Definition chunk_finish (c : chunk F) : chunk F :=
  Chunk (cuda_buffer_keys c) (cuda_buffer_vals c) (calcOffsets (cuda_hash_table c)) (group_nums c) (group_agg_res c).
End operations.

(** ** The memory of the device *)

Definition range_ok (r : Z * Z) : Prop := 0 < r.1 /\ r.1 mod 8 = 0 /\ 0 <= r.2 < 2 ^ 32 /\ r.1 + pad8 r.2 <= 2 ^ 64.

(** Apart, counted in aligned words, as [cudaMalloc] hands them out. *)
Definition apart (a b : Z * Z) : Prop := a.1 + pad8 a.2 <= b.1 \/ b.1 + pad8 b.2 <= a.1.

Definition inside (r : Z * Z) (x : Z) : Prop := r.1 <= x < r.1 + r.2.

Definition column_range (c : StringsColumn.column) : Z * Z := (StringsColumn.buf c, StringsColumn.max_sz c).
Definition table_range (H : hash_table) : Z * Z := (ht_str_buf H, ht_str_buf_max_sz H).

(** [m'] differs from [m] only in the ranges [rs]. *)
Definition writes_in (rs : list (Z * Z)) (m m' : memory) : Prop := forall x, Forall (fun r => ~ inside r x) rs -> m' x = m x.

Lemma pad8_ge z : z <= pad8 z.
Proof. unfold pad8. dlia. Qed.

Lemma apart_outside a b x : apart a b -> inside a x -> ~ inside b x.
Proof. unfold apart, inside. pose proof (pad8_ge a.2). pose proof (pad8_ge b.2). lia. Qed.

Lemma apart_sym a b : apart a b -> apart b a.
Proof. unfold apart. tauto. Qed.

Lemma writes_in_refl rs m : writes_in rs m m.
Proof. done. Qed.

Lemma writes_in_trans rs m m1 m2 : writes_in rs m m1 -> writes_in rs m1 m2 -> writes_in rs m m2.
Proof. intros H1 H2 x Hx. by rewrite H2, H1. Qed.

Lemma writes_in_weaken rs rs' m m' : rs ⊆ rs' -> writes_in rs m m' -> writes_in rs' m m'.
Proof. intros Hs H x Hx. apply H. apply list.Forall_forall. intros r Hr. rewrite list.Forall_forall in Hx. by apply Hx, Hs. Qed.

Lemma writes_in_apart rs m m' r x : writes_in rs m m' -> Forall (apart r) rs -> inside r x -> m' x = m x.
Proof. intros H Ha Hx. apply H. eapply list.Forall_impl; [exact Ha|]. intros b Hb. by eapply apart_outside. Qed.

Lemma col_rows_frame m m' c bl :
  (forall x, inside (column_range c) x -> m' x = m x) -> StringsColumn.col_rows m c bl -> StringsColumn.col_rows m' c bl.
Proof.
  intros Ha [N S B O L K]. split; try done. rewrite <- B. apply bytes_agree. intros x Hx. apply Ha. unfold inside. cbn.
  pose proof (StringsColumn.zlen_nonneg (concat (concat bl))). lia.
Qed.

Lemma slot_key_frame m m' H b :
  ht_ok m H -> (forall x, inside (table_range H) x -> m' x = m x) -> 0 <= b < ht_buckets_num H -> rd (ptrs (ht_tab H)) b <> 0 ->
  slot_key m' (ht_tab H) b = slot_key m (ht_tab H) b.
Proof.
  intros Hok Ha Hb Hp. destruct (hk_ptrs _ _ Hok b Hb Hp) as (_ & H1 & H2). destruct (hk_sz _ _ Hok).
  destruct (proj2 (hk_tab _ _ Hok) b Hb) as [(? & _) _]. apply bytes_agree. intros x Hx. apply Ha. unfold inside. cbn. lia.
Qed.

Lemma ht_ok_frame m m' H :
  ht_ok m H -> (forall x, inside (table_range H) x -> m' x = m x) -> ht_ok m' H /\ contents m' H = contents m H.
Proof.
  intros Hok Ha. pose proof (fun b => slot_key_frame m m' H b Hok Ha) as Sk. destruct Hok as [Hn Ht Hs Hb Hal Hp Hl]. split.
  - split; try done. pose proof Ht as [_ Ht'].
    pose proof (moved_ok m m' (table_args (ht_buckets_num H)) (ht_tab H) (ptrs (ht_tab H)) Ht (proj1 Hn) eq_refl (fun _ _ E => E)) as Mv.
    destruct (ht_tab H) as [h l p] eqn:ET. cbn in *. apply Mv. intros b Hbr Hpb. destruct (Ht' b Hbr) as [(? & _ & S3) _].
    destruct (S3 Hpb) as (_ & ? & ? & _). split_and!; [done|done|]. exact (Sk b Hbr Hpb).
  - unfold contents. f_equal. apply map_ext_in. intros b Hin%list_elem_of_In%elem_of_used. f_equal. destruct Hin. by apply Sk.
Qed.

(** ** What a table with its places stands for *)

(** The rows of blocks, a key and a value each. *)
Definition rows_of (bs : list block) : list (list Z * list Z) := concat (map (fun b => zip (b_keys b) (b_vals b)) bs).

(** The values of the rows whose key is in bucket [b]. *)
Definition group (M : gmap (list Z) Z) (rs : list (list Z * list Z)) (b : Z) : list (list Z) :=
  map snd (filter (fun r => M !! r.1 = Some b) rs).

(** What the strings of a table take in its buffer. *)
Definition table_size (H : hash_table) : Z := zsum (map padded_len (table_lens (ht_tab H))).

Record table_repr {F : CudaAggregateFunction} {L : AggregateLaws F} (m : memory) (H : hash_table) (places : list agg_data)
    (rs : list (list Z * list Z)) : Prop := {
  tr_ok : ht_ok m H;
  tr_keys : forall k, is_Some (contents m H !! k) <-> k ∈ rs.*1;
  tr_places : Z.of_nat (length places) = ht_buckets_num H;
  tr_groups : forall b p, 0 <= b -> places !! Z.to_nat b = Some p -> agg_repr p (group (contents m H) rs b);
  tr_size : table_size H <= ht_str_buf_sz H
}.

Lemma block_ok_spec b :
  length (b_keys b) = length (b_vals b) /\
  (forall r, r ∈ b_keys b \/ r ∈ b_vals b -> Forall (fits 8) r /\ exists r', r = r' ++ [0]) /\
  StringsColumn.block_small (b_keys b) /\ StringsColumn.block_small (b_vals b).
Proof.
  destruct b as [ks vs Hb]. cbn. unfold block_okb in Hb. rewrite !andb_true_iff, !forallb_forall, Nat.eqb_eq, !Z.ltb_lt in Hb.
  destruct Hb as [[[[[E Hk] Hv] H1] H2] H3]. split; [done|]. split.
  - intros r Hr. assert (row_okb r = true) as Ho by (destruct Hr as [Hr|Hr]; apply list_elem_of_In in Hr; auto).
    unfold row_okb in Ho. apply andb_true_iff in Ho as [Hf Hz]. split.
    + rewrite forallb_forall in Hf. apply list.Forall_forall. intros x Hx. apply list_elem_of_In in Hx. specialize (Hf x Hx).
      apply andb_true_iff in Hf as [?%Z.leb_le ?%Z.ltb_lt]. done.
    + destruct (reverse r) as [|x l] eqn:Er; [done|]. apply Z.eqb_eq in Hz as ->. exists (reverse l).
      rewrite <- (reverse_involutive r), Er. by rewrite reverse_cons.
  - unfold StringsColumn.block_small, StringsColumn.zlen. rewrite <- E. done.
Qed.

Lemma rows_of_keys bs : (rows_of bs).*1 = concat (map b_keys bs).
Proof.
  unfold rows_of. induction bs as [|b bs IH]; [done|]. cbn [map concat]. rewrite fmap_app, IH. f_equal. apply fst_zip.
  destruct (block_ok_spec b) as [-> _]. done.
Qed.

Lemma rows_of_vals bs : (rows_of bs).*2 = concat (map b_vals bs).
Proof.
  unfold rows_of. induction bs as [|b bs IH]; [done|]. cbn [map concat]. rewrite fmap_app, IH. f_equal. apply snd_zip.
  destruct (block_ok_spec b) as [-> _]. done.
Qed.

Lemma rows_of_app bs bs' : rows_of (bs ++ bs') = rows_of bs ++ rows_of bs'.
Proof. unfold rows_of. by rewrite map_app, concat_app. Qed.

Lemma key_row bs k :
  k ∈ concat (map b_keys bs) -> Forall (fits 8) k /\ exists r, k = r ++ [0].
Proof.
  intros Hk. apply list_elem_of_In, in_concat in Hk as (ks & Hks & Hk). apply in_map_iff in Hks as (b & <- & _).
  destruct (block_ok_spec b) as (_ & Hr & _). apply Hr. left. by apply list_elem_of_In.
Qed.

Lemma group_app M rs rs' b : group M (rs ++ rs') b = group M rs b ++ group M rs' b.
Proof. unfold group. by rewrite list.filter_app, map_app. Qed.

(** Adding keys to the map does not change the groups of rows whose keys it has. *)
Lemma group_mono M M' rs b : M ⊆ M' -> (forall k, k ∈ rs.*1 -> is_Some (M !! k)) -> group M' rs b = group M rs b.
Proof.
  intros Hs Hk. unfold group. f_equal. induction rs as [|[k v] rs IH]; [done|]. rewrite !filter_cons. cbn [fst].
  destruct (Hk k ltac:(by left)) as [c Hc]. rewrite Hc, (lookup_weaken _ _ _ _ Hc Hs).
  rewrite IH by (intros; apply Hk; by right). done.
Qed.

(** The groups of rows that were just given their buckets. *)
Lemma group_values M rs nums b :
  (length rs <= length nums)%nat -> (forall i k, rs.*1 !! i = Some k -> M !! k = Some (rd nums (Z.of_nat i))) ->
  group M rs b = AggregateFunctions.values_of b nums rs.*2.
Proof.
  revert nums. induction rs as [|[k v] rs IH]; intros [|c nums] Hl Hi; cbn in Hl; [done|done|lia|].
  cbn [fmap list_fmap snd]. rewrite AggregateFunctions.values_of_cons.
  rewrite <- IH; [|lia|].
  - pose proof (Hi 0%nat k eq_refl) as H0. change (rd (c :: nums) (Z.of_nat 0)) with c in H0.
    unfold group. rewrite filter_cons. cbn [fst]. rewrite H0. destruct (decide (c = b)) as [->|Hne].
    + by rewrite decide_True.
    + rewrite decide_False by congruence. done.
  - intros i k' Hi'. rewrite (Hi (S i) k' Hi'). f_equal. unfold rd. by replace (Z.to_nat (Z.of_nat (S i))) with (S i) by lia; rewrite Nat2Z.id.
Qed.

(** ** The rows of a column as arguments of the kernels *)

Section column.
Context (m : memory) (c : StringsColumn.column) (bl : list (list (list Z))).
Context (Hc : StringsColumn.col_rows m c bl) (Hr : range_ok (column_range c)).

#[local] Abbreviation calc := (StringsColumn.calcLengths c).

Lemma column_row i r :
  concat bl !! i = Some r ->
  StringsColumn.lens calc !! i = Some (Z.of_nat (length r)) /\
  StringsColumn.offsets calc !! i = Some (StringsColumn.row_start (concat bl) i) /\
  0 <= StringsColumn.row_start (concat bl) i /\ StringsColumn.row_start (concat bl) i + Z.of_nat (length r) <= StringsColumn.sz c /\
  bytes m (StringsColumn.buf c + StringsColumn.row_start (concat bl) i) (length r) = r.
Proof.
  intros Hi. destruct (StringsColumn.calcLengths_col m c bl i r Hc Hi) as (E1 & E2 & E3).
  pose proof (StringsColumn.calcLengths_keeps m c bl Hc) as Hk. destruct (StringsColumn.cr_arrays _ _ _ Hk) as (L1 & L2 & _).
  destruct (StringsColumn.cr_num _ _ _ Hc) as [N1 N2]. destruct (StringsColumn.cr_sz _ _ _ Hc) as [S1 S2].
  pose proof (lookup_lt_Some _ _ _ Hi) as Hlt. unfold StringsColumn.calcLengths in *.
  destruct (StringsColumn.calc_blocks _ _ _ _ _ _) as [l o]. cbn in *. unfold StringsColumn.zlen in *.
  pose proof (StringsColumn.row_start_S _ _ _ Hi) as RS. pose proof (StringsColumn.row_start_le (concat bl) (S i)) as RL.
  unfold StringsColumn.zlen in RS, RL.
  split_and!; try done.
  - destruct (lookup_lt_is_Some_2 l i ltac:(lia)) as [x Hx]. rewrite Hx. f_equal. rewrite <- E1. symmetry. apply rd_lookup; [lia|]. by rewrite Nat2Z.id.
  - destruct (lookup_lt_is_Some_2 o i ltac:(lia)) as [x Hx]. rewrite Hx. f_equal. rewrite <- E2. symmetry. apply rd_lookup; [lia|]. by rewrite Nat2Z.id.
  - unfold StringsColumn.row_start, StringsColumn.zlen. lia.
  - lia.
Qed.

Lemma column_end : StringsColumn.buf c + StringsColumn.sz c <= 2 ^ 64 /\ 0 < StringsColumn.buf c /\ 0 <= StringsColumn.sz c <= StringsColumn.max_sz c /\ StringsColumn.max_sz c < 2 ^ 32.
Proof.
  destruct Hr as (? & ? & ? & ?). destruct (StringsColumn.cr_sz _ _ _ Hc) as [S1 S2]. cbn in *. pose proof (pad8_ge (StringsColumn.max_sz c)).
  pose proof (StringsColumn.zlen_nonneg (concat (concat bl))). lia.
Qed.

(** The columns that [cudaAddBulk] is given. *)
Lemma column_values : (forall r, r ∈ concat bl -> r <> []) -> AggregateFunctions.column_holds m calc (concat bl).
Proof.
  intros Hne i r Hi. destruct (column_row i r Hi) as (E1 & E2 & H0 & H1 & E3). destruct column_end as (H2 & H3 & H4 & H5).
  assert (r <> []) as Hr0 by (apply Hne; by eapply list_elem_of_lookup_2).
  assert (StringsColumn.buf calc = StringsColumn.buf c) as Eb by (unfold StringsColumn.calcLengths; by destruct (StringsColumn.calc_blocks _ _ _ _ _ _)).
  rewrite Eb. split_and!.
  - do 2 eexists. split; [exact E1|]. split; [exact E2|]. destruct r; [done|]. cbn [MurmurHash.hash_len length] in *. lia.
  - apply rd_lookup; [lia|]. by rewrite Nat2Z.id.
  - rewrite (rd_lookup _ _ (StringsColumn.row_start (concat bl) i)) by (rewrite ?Nat2Z.id; done || lia). done.
Qed.
End column.

(** ** The configuration of a chunk *)

(** What the constructor of the aggregator establishes and no operation
    changes.  The sizes are such that the padded strings of a buffer or of
    another table can be added to the string buffer of the table in 32 bits,
    that [group_nums] has room for the rows of a buffer, and that the arrays of
    a table are not larger than those of a column, as they are with the default
    settings. *)
Record chunk_conf {F} (c : chunk F) : Prop := {
  cc_keys : range_ok (column_range (cuda_buffer_keys c));
  cc_vals : range_ok (column_range (cuda_buffer_vals c));
  cc_table : range_ok (table_range (cuda_hash_table c));
  cc_apart : apart (column_range (cuda_buffer_keys c)) (table_range (cuda_hash_table c)) /\
    apart (column_range (cuda_buffer_vals c)) (table_range (cuda_hash_table c)) /\
    apart (column_range (cuda_buffer_keys c)) (column_range (cuda_buffer_vals c));
  cc_nums : StringsColumn.max_str_num (cuda_buffer_keys c) <= Z.of_nat (length (group_nums c));
  cc_size : ht_str_buf_max_sz (cuda_hash_table c) + StringsColumn.max_sz (cuda_buffer_keys c) +
    8 * StringsColumn.max_str_num (cuda_buffer_keys c) < 2 ^ 32;
  cc_merge : 2 * ht_str_buf_max_sz (cuda_hash_table c) < 2 ^ 32 /\
    ht_str_buf_max_sz (cuda_hash_table c) <= StringsColumn.max_sz (cuda_buffer_keys c) /\
    ht_buckets_num (cuda_hash_table c) <= StringsColumn.max_str_num (cuda_buffer_keys c)
}.

Section args.
Context {F : CudaAggregateFunction} (m : memory) (c : chunk F) (bs : list block).
Hypothesis Hm : mem_ok m.
Hypothesis Hconf : chunk_conf c.
Hypothesis Hcol : StringsColumn.col_rows m (cuda_buffer_keys c) (map b_keys bs).
Hypothesis Hok : ht_ok m (cuda_hash_table c).

#[local] Abbreviation a := (chunk_args c).
#[local] Abbreviation keys := (concat (map b_keys bs)).

Lemma chunk_args_num : str_num a = length keys /\ Z.of_nat (length keys) <= StringsColumn.max_str_num (cuda_buffer_keys c).
Proof.
  destruct (StringsColumn.cr_num _ _ _ Hcol) as [N1 N2]. unfold chunk_args, call_args, StringsColumn.calcLengths.
  destruct (StringsColumn.calc_blocks _ _ _ _ _ _) as [l o]. cbn. unfold StringsColumn.zlen in *. lia.
Qed.

Lemma chunk_args_row i r :
  keys !! i = Some r ->
  row_len a i = Z.of_nat (length r) /\ row_key m a i = r /\ 0 < row_len a i /\
  StringsColumn.buf (cuda_buffer_keys c) <= row_ptr a i /\
  row_ptr a i + row_len a i <= StringsColumn.buf (cuda_buffer_keys c) + StringsColumn.max_sz (cuda_buffer_keys c).
Proof.
  intros Hi. destruct (column_row m _ _ Hcol i r Hi) as (E1 & E2 & H0 & H1 & E3).
  destruct (column_end m _ _ Hcol (cc_keys _ Hconf)) as (H2 & H3 & H4 & H5).
  assert (row_len a i = Z.of_nat (length r)) as El by (apply rd_lookup; [lia|]; by rewrite Nat2Z.id).
  assert (row_ptr a i = StringsColumn.buf (cuda_buffer_keys c) + StringsColumn.row_start keys i) as Ep.
  { unfold row_ptr, chunk_args, call_args. cbn [buf offsets]. rewrite (rd_lookup _ (Z.of_nat i) (StringsColumn.row_start keys i)) by (rewrite ?Nat2Z.id; done || lia).
    unfold StringsColumn.calcLengths. by destruct (StringsColumn.calc_blocks _ _ _ _ _ _). }
  destruct (key_row bs r ltac:(by eapply list_elem_of_lookup_2)) as [_ (r' & ->)]. rewrite length_app in *. cbn [length] in *.
  split_and!; [done| |lia|lia|lia]. unfold row_key. rewrite El, Ep, Nat2Z.id. done.
Qed.

Lemma chunk_row_keys : row_keys m a = keys.
Proof.
  apply list_eq. intros i. unfold row_keys. change (map ?f ?l) with (f <$> l) at 1. rewrite list_lookup_fmap. destruct chunk_args_num as [En _].
  destruct (keys !! i) as [r|] eqn:Ei.
  - pose proof (lookup_lt_Some _ _ _ Ei). rewrite lookup_seq_lt by lia. cbn. f_equal. by apply chunk_args_row.
  - apply lookup_ge_None in Ei. rewrite lookup_seq_ge by lia. done.
Qed.

Lemma chunk_rows_size : rows_size a <= StringsColumn.sz (cuda_buffer_keys c) + 8 * StringsColumn.max_str_num (cuda_buffer_keys c).
Proof.
  destruct chunk_args_num as [En Hn]. destruct (StringsColumn.cr_sz _ _ _ Hcol) as [S1 S2]. pose proof (cc_size _ Hconf) as Hsz.
  destruct (hk_sz _ _ Hok) as [? ?].
  assert (zsum (map (fun i => padded_len (row_len a i)) (seq 0 (str_num a))) <= Z.of_nat (length (concat keys)) + 8 * Z.of_nat (length keys)) as Hle;
    [|unfold rows_size, StringsColumn.zlen in *; lia].
  assert (forall k, (k <= length keys)%nat ->
    zsum (map (fun i => padded_len (row_len a i)) (seq 0 k)) <= Z.of_nat (length (concat (take k keys))) + 8 * Z.of_nat k) as Hk.
  { induction k as [|k IH]; intros Hle; [done|]. rewrite seq_S, map_app, zsum_app. destruct (lookup_lt_is_Some_2 keys k ltac:(lia)) as [r Hr].
    rewrite (take_S_r _ _ _ Hr), concat_app, length_app. cbn [map zsum concat]. rewrite app_nil_r. specialize (IH ltac:(lia)).
    destruct (chunk_args_row k r Hr) as (El & _ & Hp & Hb & He). replace (0 + k)%nat with k by lia.
    rewrite padded_len_spec by lia. unfold pad8. rewrite El in *. dlia. }
  rewrite En. specialize (Hk (length keys) ltac:(lia)). by rewrite firstn_all in Hk.
Qed.

Lemma chunk_rows_ok : rows_ok m (cuda_hash_table c) a (group_nums c).
Proof.
  destruct chunk_args_num as [En Hn]. pose proof (cc_size _ Hconf) as Hsz. destruct (hk_sz _ _ Hok) as [Hs1 Hs2].
  destruct (column_end m _ _ Hcol (cc_keys _ Hconf)) as (H2 & H3 & H4 & H5).
  destruct (cc_keys _ Hconf) as (K1 & K2 & K3 & K4). cbn in K1, K2, K3, K4. pose proof (pad8_ge (StringsColumn.max_sz (cuda_buffer_keys c))).
  assert (forall i, (i < str_num a)%nat -> exists r, keys !! i = Some r) as Hrow by (intros i Hi; apply lookup_lt_is_Some_2; lia).
  split.
  - split_and!; [done|apply Hok|apply Hok|]. intros i Hi. destruct (Hrow i Hi) as [r Hr]. destruct (chunk_args_row i r Hr) as (El & _ & Hp & Hb & He). lia.
  - intros i [Hi _]. destruct (Hrow i Hi) as [r Hr]. destruct (chunk_args_row i r Hr) as (El & _ & Hp & Hb & He).
    split; [lia|]. destruct (cc_apart _ Hconf) as (Ha & _). destruct (cc_table _ Hconf) as (T1 & T2 & T3 & T4). unfold hull_apart, apart, pad8 in *. cbn in *. dlia.
  - pose proof chunk_rows_size. destruct (StringsColumn.cr_sz _ _ _ Hcol) as [S1 S2]. lia.
  - rewrite En. pose proof (cc_nums _ Hconf). lia.
Qed.
End args.

(** ** The aggregation of a buffer *)

Lemma zsum_pointwise l l1 l2 :
  length l1 = length l -> length l2 = length l ->
  (forall b, 0 <= b < Z.of_nat (length l) -> rd l b <= rd l1 b + rd l2 b) -> zsum l <= zsum l1 + zsum l2.
Proof.
  revert l1 l2. induction l as [|x l IH]; intros [|y l1] [|z l2] H1 H2 H; cbn in H1, H2; try done. change (x + zsum l <= y + zsum l1 + (z + zsum l2)).
  pose proof (H 0 ltac:(cbn [length]; lia)) as H0. change (x <= y + z) in H0. specialize (IH l1 l2 ltac:(lia) ltac:(lia)).
  assert (zsum l <= zsum l1 + zsum l2); [|lia]. apply IH. intros b Hb. specialize (H (b + 1) ltac:(cbn [length]; lia)). unfold rd in *.
  by replace (Z.to_nat (b + 1)) with (S (Z.to_nat b)) in H by lia.
Qed.

Lemma rd_map (f : Z -> Z) l b : 0 <= b < Z.of_nat (length l) -> rd (map f l) b = f (rd l b).
Proof.
  intros Hb. destruct (lookup_lt_is_Some_2 l (Z.to_nat b) ltac:(lia)) as [x Hx]. rewrite (rd_lookup l b x) by (done || lia).
  apply rd_lookup; [lia|]. change (map f l) with (f <$> l). by rewrite list_lookup_fmap, Hx.
Qed.

Lemma padded_len_0 : padded_len 0 = 0.
Proof. reflexivity. Qed.

Lemma empty_len m a T b : table_ok m a T -> 0 <= b < buckets_num a -> rd (ptrs T) b = 0 -> rd (table_lens T) b = 0.
Proof.
  intros [_ HT] Hb Hp. destruct (HT b Hb) as [(_ & S2 & _) C]. destruct (decide (rd (table_lens T) b = 0)) as [|Hne]; [done|].
  by destruct (C (S2 Hne)).
Qed.

(** The new strings of a call are counted once. *)
Lemma added_size m a T0 T res nsl :
  table_ok m a T0 -> added m a T0 T res nsl -> Z.of_nat (length nsl) = buckets_num a -> nonneg nsl ->
  zsum (map padded_len (table_lens T)) <= zsum (map padded_len (table_lens T0)) + zsum nsl.
Proof.
  intros H0 A Hn Hp. pose proof (ad_table _ _ _ _ _ _ A) as HT. pose proof H0 as [(_ & L0 & _) H0']. pose proof HT as [(_ & L1 & _) HT'].
  apply zsum_pointwise; rewrite ?length_map; [lia|lia|]. intros b Hb. rewrite !rd_map by lia.
  assert (0 <= rd nsl b) as Hnb.
  { unfold nonneg in Hp. destruct (lookup_lt_is_Some_2 nsl (Z.to_nat b) ltac:(lia)) as [x Hx]. rewrite (rd_lookup _ _ x) by (done || lia).
    by eapply (Forall_lookup_1 _ _ _ _ Hp). }
  destruct (decide (rd (ptrs T) b = 0)) as [Ez|Ez].
  - rewrite (empty_len m a T b) by (done || lia). rewrite padded_len_0. pose proof (padded_len_range (rd (table_lens T0) b)). lia.
  - destruct (decide (rd (ptrs T0) b = 0)) as [E|E].
    + destruct (ad_new _ _ _ _ _ _ A b ltac:(lia) Ez E) as (i & _ & _ & _ & -> & ->). rewrite (empty_len m a T0 b) by (done || lia).
      rewrite padded_len_0. lia.
    + destruct (ad_le _ _ _ _ _ _ A) as (_ & Hle & _). destruct (H0' b ltac:(lia)) as [(_ & _ & S3) _]. destruct (S3 E) as [Hl _].
      rewrite (Hle b ltac:(lia) Hl). lia.
Qed.

Lemma step_res_length m a T0 st i g : length (res_buckets (thread_step m a T0 st i g)) = length (res_buckets g).
Proof. unfold thread_step. repeat case_match; cbn; rewrite ?length_wr; done. Qed.

Lemma run_res_length m a T0 s g : length (res_buckets (run m a T0 s g)) = length (res_buckets g).
Proof. revert g. induction s as [|[i st] s IH]; intros g; [done|]. cbn [run]. by rewrite IH, step_res_length. Qed.

(** Everything that a successful call of [addData] leaves. *)
(** The strings that a table has stay where they are, and its offsets are not
    computed anew. *)
Definition table_kept (d : device) (H : hash_table) (d' : device) (H' : hash_table) : Prop :=
  ht_offsets H' = ht_offsets H /\ ht_str_buf H' = ht_str_buf H /\ ht_buckets_num H' = ht_buckets_num H /\ ht_str_buf_max_sz H' = ht_str_buf_max_sz H /\
  ht_str_buf_sz H <= ht_str_buf_sz H' /\ (forall x, ht_str_buf H <= x < ht_str_buf H + ht_str_buf_sz H -> dev_mem d' x = dev_mem d x) /\
  contents (dev_mem d) H ⊆ contents (dev_mem d') H'.

Record add_done (d : device) (H : hash_table) (ks : list (list Z)) (nums : list Z) (d' : device) (H' : hash_table) (nums' : list Z) : Prop := {
  an_ok : ht_ok (dev_mem d') H';
  an_interned : interned (contents (dev_mem d) H) (contents (dev_mem d') H') ks nums';
  an_mem : mem_ok (dev_mem d') /\ writes_in [table_range H] (dev_mem d) (dev_mem d');
  an_nums : length nums' = length nums;
  an_size : table_size H <= ht_str_buf_sz H -> table_size H' <= ht_str_buf_sz H';
  an_conf : ht_buckets_num H' = ht_buckets_num H /\ table_range H' = table_range H;
  an_kept : table_kept d H d' H'
}.

Lemma addData_done s order d H num bf offs ls res d' H' res' :
  ht_ok (dev_mem d) H -> rows_ok (dev_mem d) H (call_args H num bf offs ls) res -> order ≡ₚ seq 0 num ->
  all_exited (call_grid s d H (call_args H num bf offs ls) res) = true ->
  addData s order d H num bf offs ls res = (d', H', res', None) ->
  add_done d H (row_keys (dev_mem d) (call_args H num bf offs ls)) res d' H' res'.
Proof.
  intros Hok Hr Ho Hx E. apply addData_none in E as (Hf & Hs & Ed & -> & ->); [|done..].
  pose proof (call_copied s order d H num bf offs ls res Hok Hr Ho Hx Hf Hs) as (Hm & Out & _).
  pose proof (new_size_range s d H num bf offs ls res Hok Hr Hx) as Hsz.
  pose proof (call_added s d H num bf offs ls res Hok Hr Hx Hf) as A.
  destruct (hk_sz _ _ Hok). rewrite <- Ed in *. split.
  - rewrite Ed. by apply call_ok.
  - rewrite Ed. by apply call_interned.
  - split; [done|]. intros x Hx'. apply Out. rewrite list.Forall_singleton in Hx'. unfold inside in Hx'. cbn in Hx'. lia.
  - unfold call_grid. by rewrite run_res_length.
  - unfold table_size. cbn [ht_tab call_table table_lens ht_str_buf_sz]. intros Ht.
    pose proof (added_size _ _ _ _ _ _ (call_table_ok d H num bf offs ls Hok) A (ad_len _ _ _ _ _ _ A)) as As.
    specialize (As ltac:(eapply nsl_nonneg; [apply call_launch_ok|]; done)). unfold new_size in *. lia.
  - done.
  - unfold table_kept. cbn [call_table ht_offsets ht_str_buf ht_buckets_num ht_str_buf_max_sz ht_str_buf_sz]. split_and!; try done; [lia| |].
    + intros x Hx'. apply Out. lia.
    + rewrite Ed. by apply call_interned.
Qed.

(** What the columns of a chunk hold. *)
Definition columns_hold {F : CudaAggregateFunction} (m : memory) (c : chunk F) (bs : list block) : Prop :=
  StringsColumn.col_rows m (cuda_buffer_keys c) (map b_keys bs) /\
  StringsColumn.col_rows m (cuda_buffer_vals c) (if isDataNeeded then map b_vals bs else []).

Lemma column_range_calc c : column_range (StringsColumn.calcLengths c) = column_range c.
Proof. unfold StringsColumn.calcLengths. by destruct (StringsColumn.calc_blocks _ _ _ _ _ _). Qed.

Lemma max_str_num_calc c : StringsColumn.max_str_num (StringsColumn.calcLengths c) = StringsColumn.max_str_num c.
Proof. unfold StringsColumn.calcLengths. by destruct (StringsColumn.calc_blocks _ _ _ _ _ _). Qed.

(** The same buffers of the same sizes. *)
Definition same_conf {F} (c c' : chunk F) : Prop :=
  column_range (cuda_buffer_keys c') = column_range (cuda_buffer_keys c) /\
  column_range (cuda_buffer_vals c') = column_range (cuda_buffer_vals c) /\
  table_range (cuda_hash_table c') = table_range (cuda_hash_table c) /\
  StringsColumn.max_str_num (cuda_buffer_keys c') = StringsColumn.max_str_num (cuda_buffer_keys c) /\
  length (group_nums c') = length (group_nums c) /\
  ht_buckets_num (cuda_hash_table c') = ht_buckets_num (cuda_hash_table c).

Lemma same_conf_ok {F} (c c' : chunk F) : same_conf c c' -> chunk_conf c -> chunk_conf c'.
Proof.
  intros (E1 & E2 & E3 & E4 & E5 & E6) [K V T A N Z M]. split; rewrite ?E1, ?E2, ?E3, ?E4, ?E5, ?E6; try done;
    injection E1 as _ E1; injection E3 as _ E3; congruence.
Qed.

Section process.
Context {F : CudaAggregateFunction} {L : AggregateLaws F}.

Lemma nums_in_range m H (ks : list (list Z)) nums i k :
  ht_ok m H -> (forall i k, ks !! i = Some k -> contents m H !! k = Some (rd nums (Z.of_nat i))) -> ks !! i = Some k ->
  0 <= rd nums (Z.of_nat i) < ht_buckets_num H.
Proof. intros Hok Hi Hk. specialize (Hi i k Hk). by apply (contents_lookup _ _ Hok) in Hi as [? _]. Qed.

Lemma chunk_vals_length bs : length (concat (map b_vals bs)) = length (concat (map b_keys bs)).
Proof. by rewrite <- rows_of_keys, <- rows_of_vals, !length_fmap. Qed.

Lemma val_nonempty bs r : r ∈ concat (map b_vals bs) -> r <> [].
Proof.
  intros Hr ->. apply list_elem_of_In, in_concat in Hr as (vs & Hvs & Hr). apply in_map_iff in Hvs as (b & <- & _).
  destruct (block_ok_spec b) as (_ & Hrb & _). apply list_elem_of_In in Hr. destruct (Hrb [] (or_intror Hr)) as [_ ([|] & ?)]; done.
Qed.

(** After [addData] the arguments of [cudaAddBulk] are as it needs them. *)
Lemma bulk_ready d c bs rs d1 H1 nums :
  chunk_conf c -> columns_hold (dev_mem d) c bs -> table_repr (dev_mem d) (cuda_hash_table c) (group_agg_res c) rs ->
  add_done d (cuda_hash_table c) (concat (map b_keys bs)) (group_nums c) d1 H1 nums ->
  (forall i k, concat (map b_keys bs) !! i = Some k -> contents (dev_mem d1) H1 !! k = Some (rd nums (Z.of_nat i))) /\
  columns_hold (dev_mem d1) c bs /\
  (isDataNeeded = true ->
    AggregateFunctions.column_holds (dev_mem d1) (StringsColumn.calcLengths (cuda_buffer_vals c)) (concat (map b_vals bs))) /\
  AggregateFunctions.buckets_ok (group_agg_res c) (length (concat (map b_vals bs))) nums.
Proof.
  intros Hc [Hk Hv] [To Tk Tp Tg Ts] [Ao Ai [Am Aw] An As [Ac _]]. pose proof (chunk_args_num _ c bs Hk) as [En Hmax].
  assert (forall i k, concat (map b_keys bs) !! i = Some k -> contents (dev_mem d1) H1 !! k = Some (rd nums (Z.of_nat i))) as Hrow.
  { intros i k Hi. apply (in_rows _ _ _ _ Ai); [done|]. intros ->. destruct (key_row bs [] ltac:(by eapply list_elem_of_lookup_2)) as [_ ([|] & ?)]; done. }
  destruct (cc_apart _ Hc) as (Ap1 & Ap2 & _).
  assert (columns_hold (dev_mem d1) c bs) as [Hk1 Hv1].
  { split; (eapply col_rows_frame; [|done]); intros x Hx; (eapply writes_in_apart; [exact Aw| |exact Hx]); by apply list.Forall_singleton. }
  split_and!; try done.
  - intros Hneed. rewrite Hneed in Hv1. apply column_values; [done|apply Hc|apply val_nonempty].
  - rewrite chunk_vals_length. split; [pose proof (cc_nums _ Hc); lia|].
    intros i Hi. destruct (lookup_lt_is_Some_2 _ i Hi) as [k Hki]. pose proof (nums_in_range _ _ _ _ i k Ao Hrow Hki). lia.
Qed.

(** The table and the places after the bulk. *)
Lemma bulk_repr d c bs rs d1 H1 nums s vs places :
  chunk_conf c -> columns_hold (dev_mem d) c bs -> table_repr (dev_mem d) (cuda_hash_table c) (group_agg_res c) rs ->
  add_done d (cuda_hash_table c) (concat (map b_keys bs)) (group_nums c) d1 H1 nums ->
  (isDataNeeded = true -> vs = StringsColumn.calcLengths (cuda_buffer_vals c)) ->
  cudaAddBulk s (dev_mem d1) vs (length (concat (map b_vals bs))) nums (group_agg_res c) = Some places ->
  table_repr (dev_mem d1) H1 places (rs ++ rows_of bs).
Proof.
  intros Hc Hcol HT A Evs Eb. destruct (bulk_ready _ _ _ _ _ _ _ Hc Hcol HT A) as (Hrow & _ & Hvals & Hbk).
  pose proof (chunk_args_num _ c bs (proj1 Hcol)) as [_ Hmax]. destruct HT as [To Tk Tp Tg Ts], A as [Ao Ai _ An As [Ac _]].
  apply AggregateFunctions.add_repr with (vals := concat (map b_vals bs)) in Eb as [Lp Gp]; [|intros Hn; rewrite (Evs Hn); auto|done|done].
  assert ((length (rows_of bs) <= length nums)%nat) as Hln.
  { rewrite <- (length_fmap fst), rows_of_keys. pose proof (cc_nums _ Hc). lia. }
  split; [done| |lia| |auto].
  - intros k. rewrite fmap_app, elem_of_app, <- Tk, rows_of_keys. split.
    + intros [Hs|[Hin _]]%(in_new _ _ _ _ Ai); [by left|by right].
    + intros [[b Hs]|[i Hin]%list_elem_of_lookup]; [exists b; by eapply lookup_weaken, Ai|eauto].
  - intros b p' Hb Hp'. destruct (lookup_lt_is_Some_2 (group_agg_res c) (Z.to_nat b)) as [p Hp].
    { apply lookup_lt_Some in Hp'. lia. }
    destruct (Gp b p _ Hp Hb (Tg b p Hb Hp)) as (p2 & Hp2 & R). assert (p2 = p') as -> by congruence.
    rewrite group_app, (group_mono (contents (dev_mem d) (cuda_hash_table c))); [|apply Ai|intros k; by rewrite Tk].
    rewrite (group_values _ (rows_of bs) nums), rows_of_vals; [done|done|]. intros i k Hi. apply Hrow. by rewrite rows_of_keys in Hi.
Qed.

Lemma calc_num m (c : chunk F) bs :
  StringsColumn.col_rows m (cuda_buffer_keys c) (map b_keys bs) ->
  Z.to_nat (StringsColumn.str_num (StringsColumn.calcLengths (cuda_buffer_keys c))) = length (concat (map b_keys bs)).
Proof. intros Hk. exact (proj1 (chunk_args_num m c bs Hk)). Qed.

Lemma process_buffer_done o d c d' c' bs rs :
  mem_ok (dev_mem d) -> chunk_conf c -> columns_hold (dev_mem d) c bs ->
  table_repr (dev_mem d) (cuda_hash_table c) (group_agg_res c) rs ->
  sched_copy o ≡ₚ seq 0 (length (concat (map b_keys bs))) ->
  process_buffer o d c = Some (inr (d', c')) ->
  table_repr (dev_mem d') (cuda_hash_table c') (group_agg_res c') (rs ++ rows_of bs) /\
  columns_hold (dev_mem d') c' [] /\ same_conf c c' /\
  mem_ok (dev_mem d') /\ writes_in [table_range (cuda_hash_table c)] (dev_mem d) (dev_mem d').
Proof.
  intros Hm Hc Hcol HT Ho E. pose proof (calc_num _ c bs (proj1 Hcol)) as En.
  unfold process_buffer in E. destruct (all_exited _) eqn:Hx; [|done]. cbn [negb] in E.
  destruct (addData _ _ _ _ _ _ _ _ _) as [[[d1 H1] nums] e] eqn:Ea. destruct e as [e|]; [done|].
  apply addData_done in Ea as A; [|apply HT|exact (chunk_rows_ok _ c bs Hm Hc (proj1 Hcol) (tr_ok _ _ _ _ HT))|by rewrite En|exact Hx].
  fold (chunk_args c) in A. rewrite (chunk_row_keys _ c bs Hc (proj1 Hcol)) in A.
  destruct (cudaAddBulk _ _ _ _ _ _) as [places|] eqn:Eb; [|done]. cbn [mbind option_bind] in E. injection E as <- <-.
  rewrite En, <- chunk_vals_length in Eb. destruct (bulk_ready _ _ _ _ _ _ _ Hc Hcol HT A) as (_ & [Hk1 Hv1] & _).
  cbn [cuda_hash_table group_agg_res]. split_and!; [|split| |apply A|apply A].
  - eapply bulk_repr; [done..| |exact Eb]. by intros ->.
  - by eapply StringsColumn.reset_rows, StringsColumn.calcLengths_keeps.
  - cbn [cuda_buffer_vals]. destruct isDataNeeded; eapply StringsColumn.reset_rows; [apply StringsColumn.calcLengths_keeps|]; exact Hv1.
  - unfold same_conf. cbn. rewrite <- (column_range_calc (cuda_buffer_keys c)), <- (max_str_num_calc (cuda_buffer_keys c)), (an_nums _ _ _ _ _ _ _ A).
    destruct (an_conf _ _ _ _ _ _ _ A) as [Ac1 Ac2]. split_and!; try done. destruct isDataNeeded; [|done]. apply (column_range_calc (cuda_buffer_vals c)).
Qed.

(** Launches with turns enough for every thread to return. *)
Definition full_launches (c : chunk F) : launches :=
  Launches (round_robin (AddDataKernel.grid_size (chunk_args c)) (Z.to_nat (8 * ht_buckets_num (cuda_hash_table c) + 8)))
    (seq 0 (str_num (chunk_args c))) (round_robin (AggregateFunctions.grid_size (str_num (chunk_args c))) 1060).

(** A buffer can always be processed: the table may turn out to be full, but
    the kernels return. *)
Lemma process_buffer_returns `{!BulkReturns F L} d c bs rs :
  mem_ok (dev_mem d) -> chunk_conf c -> columns_hold (dev_mem d) c bs ->
  table_repr (dev_mem d) (cuda_hash_table c) (group_agg_res c) rs ->
  exists r, process_buffer (full_launches c) d c = Some r.
Proof.
  intros Hm Hc Hcol HT. pose proof (calc_num _ c bs (proj1 Hcol)) as En.
  pose proof (chunk_rows_ok _ c bs Hm Hc (proj1 Hcol) (tr_ok _ _ _ _ HT)) as Rok.
  set (s := sched_add (full_launches c)).
  assert (all_exited (call_grid s d (cuda_hash_table c) (chunk_args c) (group_nums c)) = true) as Hx.
  { apply round_robin_exits; [|cbn; lia]. exact (call_launch_ok d _ _ _ _ _ _ (tr_ok _ _ _ _ HT) Rok). }
  unfold process_buffer. fold s. rewrite Hx. cbn [negb].
  assert (sched_copy (full_launches c) = seq 0 (length (concat (map b_keys bs)))) as Es
    by (unfold full_launches; cbn [sched_copy]; by rewrite (proj1 (chunk_args_num _ c bs (proj1 Hcol)))).
  rewrite Es, En.
  destruct (addData s (seq 0 (length (concat (map b_keys bs)))) d (cuda_hash_table c) (length (concat (map b_keys bs)))
    (StringsColumn.buf (StringsColumn.calcLengths (cuda_buffer_keys c))) (StringsColumn.offsets (StringsColumn.calcLengths (cuda_buffer_keys c)))
    (StringsColumn.lens (StringsColumn.calcLengths (cuda_buffer_keys c))) (group_nums c)) as [[[d1 H1] nums] [e|]] eqn:Ea; [by eexists|].
  pose proof Ea as A. rewrite <- En in A at 2. apply addData_done in A; [|apply HT|exact Rok|by rewrite En|exact Hx].
  fold (chunk_args c) in A. rewrite (chunk_row_keys _ c bs Hc (proj1 Hcol)) in A.
  destruct (bulk_ready _ _ _ _ _ _ _ Hc Hcol HT A) as (_ & _ & Hvals & Hbk).
  destruct (bulk_returns (dev_mem d1) (if isDataNeeded then StringsColumn.calcLengths (cuda_buffer_vals c) else cuda_buffer_vals c)
    (length (concat (map b_vals bs))) nums (group_agg_res c) (concat (map b_vals bs))) as [places Eb]; [|done|done| |].
  - intros Hn. rewrite Hn. auto.
  - apply list.Forall_forall. intros p [i Hi]%list_elem_of_lookup. eexists. apply (tr_groups _ _ _ _ HT (Z.of_nat i)); [lia|]. by rewrite Nat2Z.id.
  - unfold full_launches. cbn [sched_bulk]. rewrite (proj1 (chunk_args_num _ c bs (proj1 Hcol))), <- chunk_vals_length, Eb. by eexists.
Qed.
End process.

(** ** The other operations *)

Section others.
Context {F : CudaAggregateFunction} {L : AggregateLaws F}.

Lemma table_repr_frame m m' H (places : list agg_data) rs :
  (forall x, inside (table_range H) x -> m' x = m x) -> table_repr m H places rs -> table_repr m' H places rs.
Proof.
  intros Ha [To Tk Tp Tg Ts]. destruct (ht_ok_frame m m' H To Ha) as [To' Ec]. split; try done; rewrite Ec; done.
Qed.

Lemma columns_hold_frame m m' (c : chunk F) bs :
  (forall x, inside (column_range (cuda_buffer_keys c)) x \/ inside (column_range (cuda_buffer_vals c)) x -> m' x = m x) ->
  columns_hold m c bs -> columns_hold m' c bs.
Proof. intros Ha [Hk Hv]. split; (eapply col_rows_frame; [|done]); intros x Hx; apply Ha; auto. Qed.

Lemma store_bytes_ok m p l : mem_ok m -> Forall (fits 8) l -> mem_ok (StringsColumn.store_bytes m p l).
Proof.
  intros Hm Hl x. unfold StringsColumn.store_bytes. destruct (_ && _) eqn:E; [|apply Hm].
  apply andb_true_iff in E as [?%Z.leb_le ?%Z.ltb_lt]. destruct (lookup_lt_is_Some_2 l (Z.to_nat (x - p)) ltac:(lia)) as [y Hy].
  rewrite (rd_lookup _ _ y) by (done || lia). by eapply (Forall_lookup_1 _ _ _ _ Hl).
Qed.

Lemma block_bytes b : Forall (fits 8) (concat (b_keys b)) /\ Forall (fits 8) (concat (b_vals b)).
Proof.
  destruct (block_ok_spec b) as (_ & Hr & _). split; apply List.Forall_concat; apply list.Forall_forall; intros r Hin; apply Hr; auto.
Qed.

(** One column takes its part of the block. *)
Lemma column_append m c bl rows :
  mem_ok m -> StringsColumn.col_rows m c bl -> StringsColumn.block_small rows -> Forall (fits 8) (concat rows) ->
  StringsColumn.hasSpace c (Z.of_nat (length rows)) (Z.of_nat (length (concat rows))) = true ->
  let r := StringsColumn.addData m c (concat rows) (StringsColumn.ends 0 rows) in
  StringsColumn.col_rows r.1 r.2 (bl ++ [rows]) /\ mem_ok r.1 /\ writes_in [column_range c] m r.1 /\
  column_range r.2 = column_range c /\ StringsColumn.max_str_num r.2 = StringsColumn.max_str_num c.
Proof.
  intros Hm Hc Hb Hf Hs. cbn zeta. split_and!; try done.
  - apply StringsColumn.addData_rows; [done|apply Hb|apply Hb|exact Hs].
  - cbn. by apply store_bytes_ok.
  - intros x Hx. rewrite list.Forall_singleton in Hx. eapply StringsColumn.addData_outside; [done|done|exact Hs|].
    unfold inside in Hx. cbn in Hx. lia.
Qed.

Lemma chunk_append_done m (c : chunk F) b bs :
  mem_ok m -> chunk_conf c -> columns_hold m c bs -> chunk_hasSpace c b = true ->
  let r := chunk_append m c b in
  columns_hold r.1 r.2 (bs ++ [b]) /\ same_conf c r.2 /\ cuda_hash_table r.2 = cuda_hash_table c /\ group_agg_res r.2 = group_agg_res c /\
  mem_ok r.1 /\ writes_in [column_range (cuda_buffer_keys c); column_range (cuda_buffer_vals c)] m r.1.
Proof.
  intros Hm Hc [Hk Hv] Hs. cbn zeta. unfold chunk_hasSpace in Hs. apply andb_true_iff in Hs as [Hs1 Hs2].
  destruct (block_ok_spec b) as (El & _ & Bk & Bv). destruct (block_bytes b) as [Fk Fv]. rewrite El in Hs2. destruct (cc_apart _ Hc) as (_ & _ & Ap).
  destruct (column_append m _ _ _ Hm Hk Bk Fk Hs1) as (K1 & K2 & K3 & K4 & K5). unfold chunk_append, columns_hold, same_conf.
  destruct (StringsColumn.addData m (cuda_buffer_keys c) _ _) as [m1 ks]. cbn [fst snd] in *.
  assert (StringsColumn.col_rows m1 (cuda_buffer_vals c) (if isDataNeeded then map b_vals bs else [])) as Hv1.
  { eapply col_rows_frame; [|exact Hv]. intros x Hx. eapply writes_in_apart; [exact K3| |exact Hx].
    apply list.Forall_singleton. by apply apart_sym. }
  destruct isDataNeeded.
  - destruct (column_append m1 _ _ _ K2 Hv1 Bv Fv Hs2) as (V1 & V2 & V3 & V4 & V5).
    destruct (StringsColumn.addData m1 (cuda_buffer_vals c) _ _) as [m2 vs]. cbn [fst snd] in *. cbn.
    rewrite !map_app. cbn [map]. split_and!; try done.
    + eapply col_rows_frame; [|exact K1]. intros x Hx. eapply writes_in_apart; [exact V3| |exact Hx]. apply list.Forall_singleton. by rewrite K4.
    + apply (writes_in_trans _ m m1); [apply (writes_in_weaken [column_range (cuda_buffer_keys c)])|
        apply (writes_in_weaken [column_range (cuda_buffer_vals c)])]; try done; intros r; rewrite !elem_of_cons; tauto.
  - cbn. rewrite map_app. cbn [map]. split_and!; try done. apply (writes_in_weaken [column_range (cuda_buffer_keys c)]); [|done]. intros r. rewrite !elem_of_cons. tauto.
Qed.

Lemma chunk_start_done m (c : chunk F) :
  ht_sized (cuda_hash_table c) -> table_repr m (cuda_hash_table (chunk_start c)) (group_agg_res (chunk_start c)) [].
Proof.
  intros Hs. destruct (erase_empty m _ Hs) as [Ho Ec]. destruct (AggregateFunctions.init_repr (Z.to_nat (ht_buckets_num (cuda_hash_table c)))) as [Li Fi].
  pose proof (hs_num _ Hs). split; cbn [chunk_start cuda_hash_table group_agg_res].
  - done.
  - intros k. rewrite Ec, lookup_empty. cbn. split; [by intros []|by intros ?%not_elem_of_nil].
  - rewrite Li. cbn. lia.
  - intros b p _ Hp. unfold group. cbn. by apply (Forall_lookup_1 _ _ _ _ Fi Hp).
  - unfold table_size, erase. cbn [ht_tab ht_str_buf_sz]. destruct (kerErase_zero _ _ (hs_tab _ Hs)) as [(_ & Ll & _) Hz]. cbn in Ll.
    rewrite (zsum_zero padded_len); [done|]. intros l [i Hi]%list_elem_of_lookup. pose proof (lookup_lt_Some _ _ _ Hi).
    destruct (Hz (Z.of_nat i) ltac:(lia)) as (_ & El & _). rewrite (rd_lookup _ _ l) in El by (rewrite ?Nat2Z.id; done || lia). by subst.
Qed.

Lemma chunk_finish_done m (c : chunk F) rs :
  table_repr m (cuda_hash_table c) (group_agg_res c) rs ->
  table_repr m (cuda_hash_table (chunk_finish c)) (group_agg_res (chunk_finish c)) rs.
Proof.
  intros [To Tk Tp Tg Ts]. split; try done. destruct To as [Hn Ht Hs Hb Ha Hp Hl]. split; try done.
  cbn. unfold kerCalcOffsets. destruct (par_for_wr (Z.to_nat (ht_buckets_num (cuda_hash_table c)))
    (fun i => u32 (rd (ptrs (ht_tab (cuda_hash_table c))) (Z.of_nat i) - ht_str_buf (cuda_hash_table c))) (ht_offsets (cuda_hash_table c))) as [-> _]. done.
Qed.
End others.
