(* ===== verification/StringsAggregator.v ===== *)
(** * The strings aggregator

    [CudaStringsAggregator] (Interpreters/Cuda/CudaStringsAggregator.cu) as a
    whole: the chunks of [ChunkState] behind the protocol of [ChunkProtocol],
    and the end of [waitProcessed], which merges the tables of the chunks into
    the first one and reads the result back.

    The operations of a chunk are steps of the protocol.  A worker runs its
    kernels while others run theirs; since they write only to the memory of
    their own chunk ([process_buffer_done]), the aggregation of a buffer can be
    taken as one step.  The flag [table_is_full] of the device is shared, but
    is only ever set, and setting it ends in an exception of a worker, which
    terminates the program whichever worker sees it first.

    Shown: for every interleaving of threads, for every schedule of the
    kernels and for both aggregate functions, when the workers have been
    joined each table holds exactly the keys of the blocks that its chunk was
    given and the states of their groups; all blocks have been given to some
    chunk; merging the chunks gives the groups of all rows. *)

From Stdlib Require Import ZArith Lia.
From stdpp Require Import base list gmap numbers relations.
From S2P Require Import Prelude DeviceMemory.
From S2P Require MurmurHash StringsColumn HyperLogLog.
From S2P Require Import AddDataKernel StringsHashTable.
From S2P Require AggregateFunctions.
Import AggregateFunctions (CudaAggregateFunction, agg_data, isDataNeeded, cudaInitAggregateData, cudaAddBulk, cudaMergeBulk,
  AggregateLaws, agg_repr, MergeLaws, merge_repr, MergeReturns, merge_bulk_returns, BulkReturns, bulk_returns, CudaAggregateFunctionCount, CudaAggregateFunctionUniq).
From S2P Require Import ChunkState.
From S2P Require ChunkProtocol.
Import ChunkProtocol (ChunkData, upd, upd_eq, upd_ne).

#[local] Existing Instances AggregateFunctions.count_laws AggregateFunctions.count_merge_laws AggregateFunctions.count_returns
  AggregateFunctions.count_merge_returns AggregateFunctions.uniq_laws AggregateFunctions.uniq_returns AggregateFunctions.uniq_merge_returns.

#[local] Open Scope Z_scope.
#[local] Open Scope word_scope.

(** ** All chunks *)

(** The device with the chunks, and the history: which workers have started,
    and the blocks that each chunk has in its buffer and has aggregated. *)
Record agg (F : CudaAggregateFunction) := Agg {
  agg_dev : device;
  agg_chunks : list (chunk F);
  agg_started : nat -> bool;
  agg_pending : nat -> list block;
  agg_processed : nat -> list block
}.
Arguments Agg {F}.
Arguments agg_dev {F}.
Arguments agg_chunks {F}.
Arguments agg_started {F}.
Arguments agg_pending {F}.
Arguments agg_processed {F}.

Section state.
Context {F : CudaAggregateFunction}.

Definition agg_hasSpace (g : agg F) (i : nat) (b : block) : bool :=
  match agg_chunks g !! i with Some c => chunk_hasSpace c b | None => false end.

Definition agg_empty (g : agg F) (i : nat) : bool :=
  match agg_chunks g !! i with Some c => StringsColumn.empty (cuda_buffer_keys c) | None => true end.

Definition agg_append (g : agg F) (i : nat) (b : block) : agg F :=
  match agg_chunks g !! i with
  | Some c =>
      let '(m, c') := chunk_append (dev_mem (agg_dev g)) c b in
      Agg (Device m (dev_table_is_full (agg_dev g))) (<[i := c']> (agg_chunks g)) (agg_started g)
        (upd (agg_pending g) i (agg_pending g i ++ [b])) (agg_processed g)
  | None => g
  end.

Definition agg_start (g : agg F) (i : nat) : agg F :=
  match agg_chunks g !! i with
  | Some c => Agg (agg_dev g) (<[i := chunk_start c]> (agg_chunks g)) (upd (agg_started g) i true) (agg_pending g) (agg_processed g)
  | None => g
  end.

(** The chunks after the aggregation of a buffer, [None] if it throws. *)
Definition processed_agg (g : agg F) (i : nat) (r : add_error + device * chunk F) : option (agg F) :=
  match r with
  | inl _ => None
  | inr (d', c') => Some (Agg d' (<[i := c']> (agg_chunks g)) (agg_started g) (upd (agg_pending g) i []) (upd (agg_processed g) i (agg_processed g i ++ agg_pending g i)))
  end.

(** The aggregation of the buffer of chunk [i] under some schedule. *)
Definition agg_process (g : agg F) (i : nat) (r : option (agg F)) : Prop :=
  exists c o x, agg_chunks g !! i = Some c /\ sched_copy o ≡ₚ seq 0 (str_num (chunk_args c)) /\
    process_buffer o (agg_dev g) c = Some x /\ r = processed_agg g i x.

Definition agg_finish (g : agg F) (i : nat) : agg F :=
  match agg_chunks g !! i with
  | Some c => Agg (agg_dev g) (<[i := chunk_finish c]> (agg_chunks g)) (agg_started g) (agg_pending g) (agg_processed g)
  | None => g
  end.

(** The offsets of the table have been computed from its pointers. *)
Definition offsets_ok (H : hash_table) : bool :=
  forallb (fun b => rd (ht_offsets H) b =? u32 (rd (ptrs (ht_tab H)) b - ht_str_buf H)) (map Z.of_nat (seq 0 (Z.to_nat (ht_buckets_num H)))).

Definition agg_finished (g : agg F) (i : nat) : bool :=
  match agg_chunks g !! i with Some c => offsets_ok (cuda_hash_table c) | None => false end.

(** ** The invariant *)

Definition chunk_ranges (c : chunk F) : list (Z * Z) :=
  [column_range (cuda_buffer_keys c); column_range (cuda_buffer_vals c); table_range (cuda_hash_table c)].

Definition chunks_apart (cs : list (chunk F)) : Prop :=
  forall i j c c', cs !! i = Some c -> cs !! j = Some c' -> i <> j ->
    Forall (fun r => Forall (apart r) (chunk_ranges c')) (chunk_ranges c).

Context {L : AggregateLaws F}.

Record chunk_ok (g : agg F) (i : nat) (c : chunk F) : Prop := {
  ck_conf : chunk_conf c;
  ck_sized : ht_sized (cuda_hash_table c);
  ck_columns : columns_hold (dev_mem (agg_dev g)) c (agg_pending g i);
  ck_table : agg_started g i = true ->
    table_repr (dev_mem (agg_dev g)) (cuda_hash_table c) (group_agg_res c) (rows_of (agg_processed g i));
  ck_fresh : agg_started g i = false -> agg_processed g i = []
}.

Record agg_ok (N : nat) (g : agg F) : Prop := {
  ag_num : length (agg_chunks g) = N;
  ag_mem : mem_ok (dev_mem (agg_dev g));
  ag_apart : chunks_apart (agg_chunks g);
  ag_chunks : forall i c, agg_chunks g !! i = Some c -> chunk_ok g i c
}.

Lemma chunk_ranges_conf (c c' : chunk F) : same_conf c c' -> chunk_ranges c' = chunk_ranges c.
Proof. intros (E1 & E2 & E3 & _). unfold chunk_ranges. by rewrite E1, E2, E3. Qed.

(** A step of chunk [i] leaves the other chunks as they are. *)
Lemma agg_ok_update N g g' i c c' :
  agg_ok N g -> agg_chunks g !! i = Some c -> agg_chunks g' = <[i := c']> (agg_chunks g) -> same_conf c c' ->
  mem_ok (dev_mem (agg_dev g')) -> writes_in (chunk_ranges c) (dev_mem (agg_dev g)) (dev_mem (agg_dev g')) ->
  (forall j, j <> i -> agg_started g' j = agg_started g j /\ agg_pending g' j = agg_pending g j /\ agg_processed g' j = agg_processed g j) ->
  chunk_ok g' i c' -> agg_ok N g'.
Proof.
  intros [Hn Hm Ha Hc] Hi Ec Hs Hm' Hw Hh Hc'.
  assert (i < length (agg_chunks g))%nat as Hlt by (by eapply lookup_lt_Some).
  split; [by rewrite Ec, length_insert|done| |].
  - assert (forall j d, agg_chunks g' !! j = Some d -> exists d0, agg_chunks g !! j = Some d0 /\ chunk_ranges d = chunk_ranges d0) as Hr.
    { intros j d Hj. rewrite Ec in Hj. destruct (decide (j = i)) as [->|Hne].
      - rewrite list_lookup_insert_eq in Hj by done. injection Hj as <-. exists c. split; [done|]. by apply chunk_ranges_conf.
      - rewrite list_lookup_insert_ne in Hj by done. by exists d. }
    intros j k d d' Hj Hk Hne. destruct (Hr j d Hj) as (d0 & Hj0 & ->), (Hr k d' Hk) as (d1 & Hk0 & ->). by eapply Ha.
  - intros j d Hj. rewrite Ec in Hj. destruct (decide (j = i)) as [->|Hne].
    { rewrite list_lookup_insert_eq in Hj by done. by injection Hj as <-. }
    rewrite list_lookup_insert_ne in Hj by done. destruct (Hc j d Hj) as [Kc Ks Kl Kt Kf]. destruct (Hh j Hne) as (E1 & E2 & E3).
    assert (forall r x, r ∈ chunk_ranges d -> inside r x -> dev_mem (agg_dev g') x = dev_mem (agg_dev g) x) as Fr.
    { intros r x Hin Hx. eapply writes_in_apart; [exact Hw| |exact Hx]. specialize (Ha j i d c Hj Hi Hne). rewrite list.Forall_forall in Ha. by apply Ha. }
    split; rewrite ?E1, ?E2, ?E3; try done.
    + eapply columns_hold_frame; [|done]. intros x [Hx|Hx]; (eapply Fr; [|exact Hx]); unfold chunk_ranges; rewrite !elem_of_cons; auto.
    + intros Hst. eapply table_repr_frame; [|by apply Kt]. intros x Hx. eapply Fr; [|exact Hx]. unfold chunk_ranges. rewrite !elem_of_cons. auto.
Qed.
End state.

Lemma offsets_ok_all H b : offsets_ok H = true -> 0 <= b < ht_buckets_num H -> rd (ht_offsets H) b = u32 (rd (ptrs (ht_tab H)) b - ht_str_buf H).
Proof.
  unfold offsets_ok. rewrite forallb_forall. intros Ho Hb. apply Z.eqb_eq, Ho, in_map_iff. exists (Z.to_nat b). split; [lia|]. apply in_seq. lia.
Qed.

Lemma offsets_ok_spec m H b :
  ht_ok m H -> offsets_ok H = true -> 0 <= b < ht_buckets_num H -> rd (ptrs (ht_tab H)) b <> 0 ->
  ht_str_buf H + rd (ht_offsets H) b = rd (ptrs (ht_tab H)) b.
Proof.
  intros Hok Ho Hb Hp. rewrite (offsets_ok_all H b Ho Hb). destruct (hk_ptrs _ _ Hok b Hb Hp) as (_ & H1 & H2). destruct (hk_sz _ _ Hok).
  destruct (proj2 (hk_tab _ _ Hok) b Hb) as [(? & _) _]. rewrite wrap_small by (unfold fits; lia). lia.
Qed.

Lemma calcOffsets_ok m H : ht_ok m H -> offsets_ok (calcOffsets H) = true.
Proof.
  intros Hok. apply forallb_forall. intros b (i & <- & Hi%in_seq)%in_map_iff. apply Z.eqb_eq. cbn [calcOffsets ht_offsets ht_tab ht_str_buf ht_buckets_num] in *. unfold kerCalcOffsets.
  destruct (par_for_wr (Z.to_nat (ht_buckets_num H)) (fun i => u32 (rd (ptrs (ht_tab H)) (Z.of_nat i) - ht_str_buf H)) (ht_offsets H)) as [_ R].
  destruct (hk_lens _ _ Hok) as (_ & _ & Hl). rewrite R by lia. destruct (decide _); [|lia]. by rewrite Nat2Z.id.
Qed.

Lemma agg_finished_insert {F} (g g' : agg F) i c j :
  agg_chunks g' = <[i := c]> (agg_chunks g) -> j <> i -> agg_finished g' j = agg_finished g j.
Proof. intros E Hne. unfold agg_finished. by rewrite E, list_lookup_insert_ne. Qed.

(** ** The operations keep it *)

Section steps.
Context {F : CudaAggregateFunction} {L : AggregateLaws F} (N : nat).

Lemma agg_lookup (g : agg F) i : agg_ok N g -> (i < N)%nat -> exists c, agg_chunks g !! i = Some c /\ chunk_ok g i c.
Proof.
  intros Hg Hi. destruct (lookup_lt_is_Some_2 (agg_chunks g) i) as [c Hc]; [by rewrite (ag_num _ _ Hg)|]. exists c. split; [done|]. by apply Hg.
Qed.

Lemma agg_append_ok (g : agg F) i b :
  agg_ok N g -> (i < N)%nat -> agg_hasSpace g i b = true ->
  agg_ok N (agg_append g i b) /\ agg_started (agg_append g i b) = agg_started g /\
  agg_pending (agg_append g i b) = upd (agg_pending g) i (agg_pending g i ++ [b]) /\
  agg_processed (agg_append g i b) = agg_processed g.
Proof.
  intros Hg Hi Hs. destruct (agg_lookup g i Hg Hi) as (c & Hc & Kc). unfold agg_hasSpace in Hs. rewrite Hc in Hs.
  destruct (chunk_append_done _ c b (agg_pending g i) (ag_mem _ _ Hg) (ck_conf _ _ _ Kc) (ck_columns _ _ _ Kc) Hs) as (Co & Cf & Eh & Ea & Cm & Cw).
  unfold agg_append. rewrite Hc. destruct (chunk_append _ c b) as [m c'] eqn:E. cbn [fst snd] in *. split; [|done].
  eapply (agg_ok_update N g); cbn [agg_chunks agg_dev dev_mem]; try done.
  - eapply writes_in_weaken; [|exact Cw]. intros r. unfold chunk_ranges. rewrite !elem_of_cons. tauto.
  - intros j Hne. cbn. by rewrite upd_ne.
  - split; cbn.
    + by eapply same_conf_ok, Kc.
    + rewrite Eh. apply Kc.
    + by rewrite upd_eq.
    + intros Hst. rewrite Eh, Ea. eapply table_repr_frame; [|by apply Kc]. intros x Hx.
      destruct (cc_apart _ (ck_conf _ _ _ Kc)) as (A1 & A2 & _). eapply writes_in_apart; [exact Cw| |exact Hx].
      repeat (apply list.Forall_cons; split; [by apply apart_sym|]). by apply list.Forall_nil.
    + apply Kc.
Qed.

Lemma agg_start_ok (g : agg F) i :
  agg_ok N g -> (i < N)%nat -> agg_started g i = false ->
  agg_ok N (agg_start g i) /\ agg_started (agg_start g i) = upd (agg_started g) i true /\
  agg_pending (agg_start g i) = agg_pending g /\ agg_processed (agg_start g i) = agg_processed g.
Proof.
  intros Hg Hi Hst. destruct (agg_lookup g i Hg Hi) as (c & Hc & Kc). unfold agg_start. rewrite Hc. split; [|done].
  pose proof (chunk_start_done (dev_mem (agg_dev g)) c (ck_sized _ _ _ Kc)) as Hr.
  eapply (agg_ok_update N g); cbn [agg_chunks agg_dev dev_mem]; try done; [apply Hg| |].
  - intros j Hne. cbn. by rewrite upd_ne.
  - split; cbn.
    + apply (same_conf_ok c); [by unfold same_conf|apply Kc].
    + eapply ht_ok_sized, Hr.
    + apply Kc.
    + intros _. by rewrite (ck_fresh _ _ _ Kc Hst).
    + by rewrite upd_eq.
Qed.

Lemma agg_process_ok (g : agg F) i g' :
  agg_ok N g -> (i < N)%nat -> agg_started g i = true -> agg_process g i (Some g') ->
  agg_ok N g' /\ agg_started g' = agg_started g /\ agg_pending g' = upd (agg_pending g) i [] /\
  agg_processed g' = upd (agg_processed g) i (agg_processed g i ++ agg_pending g i).
Proof.
  intros Hg Hi Hst (c & o & x & Hc & Ho & Ep & E). pose proof (ag_chunks _ _ Hg i c Hc) as Kc.
  destruct x as [e|[d' c']]; [done|]. injection E as ->.
  rewrite (proj1 (chunk_args_num _ c _ (proj1 (ck_columns _ _ _ Kc)))) in Ho.
  destruct (process_buffer_done o (agg_dev g) c d' c' _ _ (ag_mem _ _ Hg) (ck_conf _ _ _ Kc) (ck_columns _ _ _ Kc) (ck_table _ _ _ Kc Hst) Ho Ep)
    as (T & Co & Cf & Cm & Cw).
  split; [|done]. eapply (agg_ok_update N g); cbn [agg_chunks agg_dev dev_mem]; try done.
  - eapply writes_in_weaken; [|exact Cw]. intros r. unfold chunk_ranges. rewrite !elem_of_cons. tauto.
  - intros j Hne. cbn. by rewrite !upd_ne.
  - split; cbn [agg_dev agg_pending agg_processed agg_started]; rewrite ?upd_eq.
    + by eapply same_conf_ok, Kc.
    + eapply ht_ok_sized, T.
    + done.
    + intros _. by rewrite rows_of_app.
    + congruence.
Qed.

(** The aggregation of the buffer with launches that let all threads return. *)
Definition full_process (g : agg F) (i : nat) : option (option (agg F)) :=
  c ← agg_chunks g !! i;
  r ← process_buffer (full_launches c) (agg_dev g) c;
  Some (processed_agg g i r).

Lemma full_process_spec (g : agg F) i r : full_process g i = Some r -> agg_process g i r.
Proof.
  unfold full_process. destruct (agg_chunks g !! i) as [c|] eqn:Hc; [|done]. cbn [mbind option_bind]. intros E.
  destruct (process_buffer (full_launches c) (agg_dev g) c) as [x|] eqn:Ex; [|done]. injection E as <-. by exists c, (full_launches c), x.
Qed.

Lemma full_process_returns `{!BulkReturns F L} (g : agg F) i : agg_ok N g -> (i < N)%nat -> agg_started g i = true -> is_Some (full_process g i).
Proof.
  intros Hg Hi Hst. destruct (agg_lookup g i Hg Hi) as (c & Hc & Kc). unfold full_process. rewrite Hc. cbn [mbind option_bind].
  destruct (process_buffer_returns (agg_dev g) c _ _ (ag_mem _ _ Hg) (ck_conf _ _ _ Kc) (ck_columns _ _ _ Kc) (ck_table _ _ _ Kc Hst)) as (r & ->).
  by eexists.
Qed.

Lemma agg_finish_ok (g : agg F) i :
  agg_ok N g -> (i < N)%nat -> agg_started g i = true ->
  agg_ok N (agg_finish g i) /\ agg_started (agg_finish g i) = agg_started g /\
  agg_pending (agg_finish g i) = agg_pending g /\ agg_processed (agg_finish g i) = agg_processed g.
Proof.
  intros Hg Hi Hst. destruct (agg_lookup g i Hg Hi) as (c & Hc & Kc). unfold agg_finish. rewrite Hc. split; [|done].
  pose proof (chunk_finish_done _ c _ (ck_table _ _ _ Kc Hst)) as Hr.
  eapply (agg_ok_update N g); cbn [agg_chunks agg_dev dev_mem]; try done; [apply Hg|].
  split; cbn; try apply Kc; [|eapply ht_ok_sized, Hr|done]. apply (same_conf_ok c); [by unfold same_conf|apply Kc].
Qed.

Lemma agg_empty_spec (g : agg F) i :
  agg_ok N g -> (i < N)%nat -> agg_empty g i = true <-> Forall (fun b => length (b_keys b) = 0%nat) (agg_pending g i).
Proof.
  intros Hg Hi. destruct (agg_lookup g i Hg Hi) as (c & Hc & Kc). unfold agg_empty. rewrite Hc. destruct (ck_columns _ _ _ Kc) as [Hk _].
  destruct (StringsColumn.cr_num _ _ _ Hk) as [N1 _]. destruct (StringsColumn.cr_sz _ _ _ Hk) as [S1 _]. unfold StringsColumn.empty. rewrite N1, S1.
  unfold StringsColumn.zlen. generalize (agg_pending g i). intros bs. rewrite orb_true_iff, !Z.eqb_eq.
  assert (length (concat (map b_keys bs)) = 0%nat <-> Forall (fun b => length (b_keys b) = 0%nat) bs) as <-.
  { induction bs as [|b bs IH]; [split; [constructor|done]|]. cbn [map concat]. rewrite length_app, list.Forall_cons, <- IH. lia. }
  split; [|lia]. intros [H0|H0]; [lia|]. destruct (concat (map b_keys bs)) as [|k ks] eqn:Ek; [done|]. exfalso.
  destruct (key_row bs k) as [_ (r & ->)]; [rewrite Ek; by left|]. cbn [concat] in H0. rewrite !length_app in H0. cbn in H0. lia.
Qed.
End steps.

(** The chunks implement what the protocol relies on. *)
#[export, refine] Instance agg_chunk_data {F : CudaAggregateFunction} {L : AggregateLaws F} {B : BulkReturns F L} (N : nat) (HN : (0 < N)%nat)
  : ChunkData block (agg F) := {
  chunks_num := N;
  rows b := length (b_keys b);
  data_ok := agg_ok N;
  started := agg_started;
  finished := agg_finished;
  pending := agg_pending;
  processed := agg_processed;
  has_space := agg_hasSpace;
  is_empty := agg_empty;
  append := agg_append;
  start := agg_start;
  process := agg_process;
  finish := agg_finish;
  chunks_pos := HN; empty_spec := agg_empty_spec N; append_ok := _; start_ok := _; process_ok := _; process_total := _; finish_ok := _
}.
Proof.
  - intros g i b Hg Hi Hs. destruct (agg_append_ok N g i b Hg Hi Hs) as (H1 & H2 & H3 & H4). rewrite H3, H4, upd_eq.
    split_and!; try done. intros j _ Hne. by rewrite upd_ne.
  - intros g i Hg Hi Hs. destruct (agg_start_ok N g i Hg Hi Hs) as (H1 & H2 & H3 & H4). rewrite H2, H3, H4, upd_eq.
    split_and!; try done. intros j Hne. rewrite upd_ne by done. split; [done|]. destruct (agg_lookup N g i Hg Hi) as (c & Hc & _).
    eapply (agg_finished_insert g); [|exact Hne]. unfold agg_start. by rewrite Hc.
  - intros g i g' Hg Hi Hs _ Hp. destruct (agg_process_ok N g i g' Hg Hi Hs Hp) as (H1 & H2 & H3 & H4). rewrite H3, H4, !upd_eq.
    split_and!; try done; [intros j _ Hne; by rewrite !upd_ne|]. intros j Hne. destruct Hp as (c & o & [e|[d' c']] & _ & _ & _ & Hp); [done|].
    injection Hp as ->. by eapply agg_finished_insert.
  - intros g i Hg Hi Hs _. destruct (full_process_returns N g i Hg Hi Hs) as [r Hr]. exists r. by apply full_process_spec.
  - intros g i Hg Hi Hs. destruct (agg_finish_ok N g i Hg Hi Hs) as (H1 & H2 & H3 & H4). rewrite H3, H4.
    destruct (agg_lookup N g i Hg Hi) as (c & Hc & Kc). split_and!; try done.
    + unfold agg_finished, agg_finish. rewrite Hc. cbn [agg_chunks]. rewrite list_lookup_insert_eq by (by eapply lookup_lt_Some).
      cbn. eapply calcOffsets_ok, Kc, Hs.
    + intros j Hne. eapply (agg_finished_insert g); [|exact Hne]. unfold agg_finish. by rewrite Hc.
Defined.

(** ** Combining the chunks *)

Section combining.
Context {F : CudaAggregateFunction}.

(** One round of the loop at the end of [waitProcessed]: the table of [c] is
    merged into the one of chunk 0, and its states into those of the buckets
    where its strings went. *)
Definition combine_chunk (o : launches) (d : device) (c0 c : chunk F) : option (add_error + device * chunk F * chunk F) :=
  let H := cuda_hash_table c in
  let K := cuda_hash_table c0 in
  if negb (all_exited (call_grid (sched_add o) d K (merge_args H K) (kerFillEmptyResBucket (ht_buckets_num H) (group_nums c)))) then None
  else
    let '(d', H', K', nums, e) := mergeToOtherTable (sched_add o) (sched_copy o) d H K (group_nums c) in
    match e with
    | Some e => Some (inl e)
    | None =>
        places ← cudaMergeBulk (sched_bulk o) (group_agg_res c0) (Z.to_nat (ht_buckets_num H)) (group_agg_res c) nums;
        Some (inr (d', Chunk (cuda_buffer_keys c0) (cuda_buffer_vals c0) K' (group_nums c0) places,
                   Chunk (cuda_buffer_keys c) (cuda_buffer_vals c) H' nums (group_agg_res c)))
    end.

(** The loop, with the choices of the device for every round. *)
Fixpoint combine_chunks (os : list launches) (d : device) (c0 : chunk F) (cs : list (chunk F)) {struct cs}
    : option (add_error + device * chunk F * list (chunk F)) :=
  match cs, os with
  | [], _ => Some (inr (d, c0, []))
  | _ :: _, [] => None
  | c :: cs', o :: os' =>
      r ← combine_chunk o d c0 c;
      match r with
      | inl e => Some (inl e)
      | inr (d', c0', c') =>
          r' ← combine_chunks os' d' c0' cs';
          match r' with
          | inl e => Some (inl e)
          | inr (d'', c0'', cs'') => Some (inr (d'', c0'', c' :: cs''))
          end
      end
  end.

(** What can go wrong with the result: the arrays of the table do not fit into
    those of the host, or a string is read that is not in them; and the
    exception about duplicates. *)
Inductive read_error := OutsideOfBuffer | Duplicates.

(** One round of the loop that fills [agg_result] from the arrays copied to
    the host. *)
Definition read_bucket (m : memory) (c : chunk F) (acc : read_error + gmap (list Z) agg_data) (j : nat) : read_error + gmap (list Z) agg_data :=
  match acc with
  | inl e => inl e
  | inr agg_result =>
      let H := cuda_hash_table c in
      let len := rd (table_lens (ht_tab H)) (Z.of_nat j) in
      let offset := rd (ht_offsets H) (Z.of_nat j) in
      if len =? DBMS_CUDA_EMPTY_LEN_VAL then inr agg_result
      else if ht_str_buf_sz H <? offset + (len -32 1) then inl OutsideOfBuffer
      else
        let key_str := bytes m (ht_str_buf H + offset) (Z.to_nat (len -32 1)) in
        match agg_result !! key_str, group_agg_res c !! j with
        | None, Some res => inr (<[key_str := res]> agg_result)
        | Some _, _ => inl Duplicates
        | None, None => inl OutsideOfBuffer
        end
  end.

(** The copies and the loop.  The arrays of the host have the sizes of those
    of a column. *)
Definition read_result (m : memory) (c : chunk F) : read_error + gmap (list Z) agg_data :=
  let H := cuda_hash_table c in
  if (StringsColumn.max_sz (cuda_buffer_keys c) <? ht_str_buf_sz H) || (StringsColumn.max_str_num (cuda_buffer_keys c) <? ht_buckets_num H)
  then inl OutsideOfBuffer
  else foldl (read_bucket m c) (inr ∅) (seq 0 (Z.to_nat (ht_buckets_num H))).

(** [waitProcessed] behind the joins. *)
Definition waitProcessed_result (os : list launches) (d : device) (cs : list (chunk F))
    : option (add_error + (read_error + gmap (list Z) agg_data)) :=
  match cs with
  | [] => None
  | c0 :: cs' =>
      r ← combine_chunks os d c0 cs';
      match r with
      | inl e => Some (inl e)
      | inr (d', c0', _) => Some (inr (read_result (dev_mem d') c0'))
      end
  end.
End combining.

Lemma merge_rows_size m H K : ht_ok m H -> rows_size (merge_args H K) = table_size H.
Proof.
  intros Hok. pose proof (proj1 (hk_tab _ _ Hok)) as (_ & Ll & _). cbn in Ll. pose proof (hk_num _ _ Hok).
  unfold rows_size, table_size. f_equal. apply list_eq. intros i. change (map ?f ?l) with (f <$> l). rewrite !list_lookup_fmap. cbn [merge_args call_args str_num].
  destruct (table_lens (ht_tab H) !! i) as [l|] eqn:Ei.
  - pose proof (lookup_lt_Some _ _ _ Ei). rewrite lookup_seq_lt by lia. cbn. do 2 f_equal. apply rd_lookup; [lia|]. by rewrite Nat2Z.id.
  - apply lookup_ge_None in Ei. rewrite lookup_seq_ge by lia. done.
Qed.

Lemma table_kept_trans d H d' H' d'' H'' : table_kept d H d' H' -> table_kept d' H' d'' H'' -> table_kept d H d'' H''.
Proof.
  intros (A1 & A2 & A3 & A4 & A5 & A6 & A7) (B1 & B2 & B3 & B4 & B5 & B6 & B7). unfold table_kept. split_and!; try congruence; [lia| |by etrans].
  intros x Hx. rewrite B6 by lia. apply A6. lia.
Qed.

Section combined.
Context {F : CudaAggregateFunction} {L : AggregateLaws F} {ML : MergeLaws F L}.

(** Where the groups of the source go. *)
Lemma merged_groups (M M' : gmap (list Z) Z) rs nums b i :
  (forall k k' b, M' !! k = Some b -> M' !! k' = Some b -> k = k') ->
  (forall b k, M !! k = Some b -> M' !! k = Some (rd nums b)) -> (forall k, k ∈ rs.*1 -> is_Some (M !! k)) ->
  (exists k, M !! k = Some i) -> rd nums i = b -> group M' rs b = group M rs i.
Proof.
  intros Hinj Hm Hk [k0 H0] Hb. unfold group. f_equal. induction rs as [|[k v] rs IH]; [done|]. rewrite !filter_cons. cbn [fst].
  rewrite IH by (intros; apply Hk; by right). destruct (Hk k ltac:(by left)) as [j Hj].
  assert (M' !! k = Some b <-> M !! k = Some i) as E.
  { split; intros E.
    - pose proof (Hm i k0 H0) as H1. rewrite Hb in H1. by rewrite (Hinj k k0 b E H1).
    - rewrite <- Hb. by apply Hm. }
  destruct (decide (M' !! k = Some b)) as [D|D]; [rewrite decide_True by tauto|rewrite decide_False by tauto]; done.
Qed.

Lemma no_merged_group (M M' : gmap (list Z) Z) rs nums b :
  (forall b k, M !! k = Some b -> M' !! k = Some (rd nums b)) -> (forall k, k ∈ rs.*1 -> is_Some (M !! k)) ->
  (forall i k, M !! k = Some i -> rd nums i <> b) -> group M' rs b = [].
Proof.
  intros Hm Hk Hno. unfold group. induction rs as [|[k v] rs IH]; [done|]. rewrite filter_cons. cbn [fst].
  destruct (Hk k ltac:(by left)) as [j Hj]. rewrite (Hm j k Hj). rewrite decide_False by (intros [=]; by eapply Hno).
  apply IH. intros; apply Hk; by right.
Qed.

(** What a successful merge leaves, for the table and for the buckets. *)
Lemma merge_done s order d H K res d' H' K' res' :
  mem_ok (dev_mem d) -> ht_ok (dev_mem d) H -> ht_ok (dev_mem d) K -> apart (table_range H) (table_range K) ->
  table_size H <= ht_str_buf_sz H -> ht_str_buf_max_sz H + ht_str_buf_max_sz K < 2 ^ 32 ->
  ht_buckets_num H <= Z.of_nat (length res) -> order ≡ₚ seq 0 (Z.to_nat (ht_buckets_num H)) ->
  all_exited (call_grid s d K (merge_args H K) (kerFillEmptyResBucket (ht_buckets_num H) res)) = true ->
  mergeToOtherTable s order d H K res = (d', H', K', res', None) ->
  add_done d K (row_keys (dev_mem d) (merge_args H K)) res d' K' res' /\
  (forall b k, contents (dev_mem d) H !! k = Some b -> contents (dev_mem d') K' !! k = Some (rd res' b)) /\
  (forall k, is_Some (contents (dev_mem d') K' !! k) ->
     is_Some (contents (dev_mem d) H !! k) \/ is_Some (contents (dev_mem d) K !! k)) /\
  (forall b, 0 <= b < ht_buckets_num H -> rd (ptrs (ht_tab H)) b = 0 -> rd res' b = 2 ^ 32 - 1) /\
  H' = calcOffsets H.
Proof.
  intros Hm Hok Kok Hap Hsz Hmax Hr Ho Hx E. pose proof (merge_rows_size _ H K Hok) as Rs.
  destruct (hk_sz _ _ Hok) as [Z1 Z2], (hk_sz _ _ Kok) as [Z3 Z4].
  assert (ht_str_buf H + ht_str_buf_sz H <= ht_str_buf K \/ ht_str_buf K + ht_str_buf_max_sz K <= ht_str_buf H) as Hap'.
  { unfold apart in Hap. cbn in Hap. pose proof (pad8_ge (ht_str_buf_max_sz H)). pose proof (pad8_ge (ht_str_buf_max_sz K)). lia. }
  destruct (merge_call _ _ _ _ _ _ _ _ _ _ Hm Hok Kok Hap' ltac:(lia) Hr Ho Hx E) as (_ & _ & Hc & Hn & He).
  destruct (kerFillEmptyResBucket_spec _ _ Hr) as [Lr _].
  pose proof (merge_rows_ok _ H K (kerFillEmptyResBucket (ht_buckets_num H) res) Hm Hok Kok Hap' ltac:(lia) ltac:(lia)) as Rok.
  unfold mergeToOtherTable in E. cbn [calcOffsets ht_buckets_num ht_str_buf ht_tab] in E. fold (calcOffsets H) in E.
  destruct (addData _ _ _ _ _ _ _ _ _) as [[[d1 K1] res1] e] eqn:EA. injection E as -> <- -> -> ->.
  apply addData_done in EA as [A1 A2 A3 A4 A5 A6]; [|done..]. split; [|done]. split; try done. by rewrite A4.
Qed.

(** The buckets that [cudaMergeBulk] is given. *)
Lemma merge_buckets d H K (places places_from : list agg_data) rs rs' d' K' res res' :
  table_repr (dev_mem d) K places rs -> table_repr (dev_mem d) H places_from rs' ->
  add_done d K (row_keys (dev_mem d) (merge_args H K)) res d' K' res' -> ht_buckets_num H <= Z.of_nat (length res) ->
  (forall b k, contents (dev_mem d) H !! k = Some b -> contents (dev_mem d') K' !! k = Some (rd res' b)) ->
  (forall b, 0 <= b < ht_buckets_num H -> rd (ptrs (ht_tab H)) b = 0 -> rd res' b = 2 ^ 32 - 1) ->
  AggregateFunctions.merge_ok places places_from (Z.to_nat (ht_buckets_num H)) res' /\
  (forall i, 0 <= i < ht_buckets_num H -> rd res' i <> 2 ^ 32 - 1 -> exists k, contents (dev_mem d) H !! k = Some i).
Proof.
  intros [Ko _ Kp _ _] [Ho _ Hp _ _] A Hr Hc He. pose proof (hk_num _ _ Ho).
  assert (forall i, 0 <= i < ht_buckets_num H -> rd res' i <> 2 ^ 32 - 1 -> exists k, contents (dev_mem d) H !! k = Some i) as Hk.
  { intros i Hi Hne. eexists. apply (contents_lookup _ _ Ho). split; [done|]. apply (table_ok_holds _ (table_args _)); [apply Ho|done|].
    intros Hz. by apply Hne, He. }
  split; [|done]. split_and!.
  - rewrite (an_nums _ _ _ _ _ _ _ A). lia.
  - lia.
  - intros i Hi Hne. destruct (Hk (Z.of_nat i) ltac:(lia) Hne) as [k Hki]. apply Hc in Hki.
    apply (contents_lookup _ _ (an_ok _ _ _ _ _ _ _ A)) in Hki as [? _]. rewrite (proj1 (an_conf _ _ _ _ _ _ _ A)) in *. lia.
  - intros i j Hi Hj Hne E. destruct (Hk (Z.of_nat i) ltac:(lia) Hne) as [k Hki].
    destruct (Hk (Z.of_nat j) ltac:(lia) ltac:(by rewrite <- E)) as [k' Hkj].
    assert (k = k') as ->; [|enough (Z.of_nat i = Z.of_nat j) by lia; congruence].
    pose proof (Hc _ _ Hki) as H1. pose proof (Hc _ _ Hkj) as H2. rewrite <- E in H2.
    apply (contents_lookup _ _ (an_ok _ _ _ _ _ _ _ A)) in H1 as [_ (_ & _ & _ & <-)], H2 as [_ (_ & _ & _ & <-)]. done.
Qed.

(** The states of the buckets after [cudaMergeBulk]. *)
Lemma merge_groups d H K (places places_from places' : list agg_data) rs rs' d' K' res res' s :
  table_repr (dev_mem d) K places rs -> table_repr (dev_mem d) H places_from rs' ->
  add_done d K (row_keys (dev_mem d) (merge_args H K)) res d' K' res' -> ht_buckets_num H <= Z.of_nat (length res) ->
  (forall b k, contents (dev_mem d) H !! k = Some b -> contents (dev_mem d') K' !! k = Some (rd res' b)) ->
  (forall b, 0 <= b < ht_buckets_num H -> rd (ptrs (ht_tab H)) b = 0 -> rd res' b = 2 ^ 32 - 1) ->
  cudaMergeBulk s places (Z.to_nat (ht_buckets_num H)) places_from res' = Some places' ->
  length places' = length places /\
  forall b p, 0 <= b -> places' !! Z.to_nat b = Some p -> agg_repr p (group (contents (dev_mem d') K') (rs ++ rs') b).
Proof.
  intros HK HH A Hr Hc He Em. destruct (merge_buckets _ _ _ _ _ _ _ _ _ _ _ HK HH A Hr Hc He) as [Mok Hk].
  apply merge_repr in Em as [Lp Gp]; [|done]. split; [done|]. intros b p' Hb Hp'.
  destruct HK as [Ko Kk Kp Kg _], HH as [Ho Hkk Hp Hg _]. pose proof (hk_num _ _ Ko) as Nk. pose proof (hk_num _ _ Ho) as Nh.
  pose proof (lookup_lt_Some _ _ _ Hp') as Hlt. destruct (lookup_lt_is_Some_2 places (Z.to_nat b) ltac:(lia)) as [p Hpp].
  destruct (Gp b p _ Hpp ltac:(lia) (Kg b p Hb Hpp)) as (p2 & Hp2 & R1 & R2). assert (p2 = p') as -> by congruence.
  rewrite group_app, (group_mono (contents (dev_mem d) K) (contents (dev_mem d') K') rs); [|apply A|intros k; by rewrite Kk].
  assert (forall k, k ∈ rs'.*1 -> is_Some (contents (dev_mem d) H !! k)) as Hrs by (intros k; by rewrite Hkk).
  destruct (decide (Exists (fun i => rd res' (Z.of_nat i) = b) (seq 0 (Z.to_nat (ht_buckets_num H))))) as [(i & Hi & E)%Exists_exists|Hno].
  - apply elem_of_seq in Hi. destruct (lookup_lt_is_Some_2 places_from i ltac:(lia)) as [q Hq].
    rewrite (merged_groups (contents (dev_mem d) H) _ rs' res' b (Z.of_nat i)); [|intros k k' c H1 H2|done|done|apply Hk; lia|done].
    + apply (R2 i q); [lia|done|done|]. apply Hg; [lia|]. by rewrite Nat2Z.id.
    + apply (contents_lookup _ _ (an_ok _ _ _ _ _ _ _ A)) in H1 as [_ (_ & _ & _ & <-)], H2 as [_ (_ & _ & _ & <-)]. done.
  - assert (forall i, (i < Z.to_nat (ht_buckets_num H))%nat -> rd res' (Z.of_nat i) <> b) as Hno'.
    { intros i Hi E. apply Hno, Exists_exists. exists i. split; [|done]. apply elem_of_seq. lia. }
    rewrite (no_merged_group (contents (dev_mem d) H) _ rs' res' b); [rewrite app_nil_r; by apply R1|done|done|].
    intros i k Hi E. apply (contents_lookup _ _ Ho) in Hi as [Hi _]. apply (Hno' (Z.to_nat i)); [lia|]. by rewrite Z2Nat.id by lia.
Qed.

(** The sizes with which the tables of two chunks can be merged. *)
Definition mergeable (c0 c : chunk F) : Prop :=
  apart (table_range (cuda_hash_table c)) (table_range (cuda_hash_table c0)) /\
  ht_str_buf_max_sz (cuda_hash_table c) + ht_str_buf_max_sz (cuda_hash_table c0) < 2 ^ 32 /\
  ht_buckets_num (cuda_hash_table c) <= Z.of_nat (length (group_nums c)).

Lemma combine_chunk_done o d c0 c d' c0' c' rs0 rs :
  mem_ok (dev_mem d) -> mergeable c0 c ->
  table_repr (dev_mem d) (cuda_hash_table c0) (group_agg_res c0) rs0 -> table_repr (dev_mem d) (cuda_hash_table c) (group_agg_res c) rs ->
  sched_copy o ≡ₚ seq 0 (Z.to_nat (ht_buckets_num (cuda_hash_table c))) ->
  combine_chunk o d c0 c = Some (inr (d', c0', c')) ->
  table_repr (dev_mem d') (cuda_hash_table c0') (group_agg_res c0') (rs0 ++ rs) /\
  mem_ok (dev_mem d') /\ writes_in [table_range (cuda_hash_table c0)] (dev_mem d) (dev_mem d') /\ same_conf c0 c0' /\
  table_kept d (cuda_hash_table c0) d' (cuda_hash_table c0').
Proof.
  intros Hm (Hap & Hmax & Hr) HK HH Ho E. unfold combine_chunk in E. destruct (all_exited _) eqn:Hx; [|done]. cbn [negb] in E.
  destruct (mergeToOtherTable _ _ _ _ _ _) as [[[[d1 H1] K1] nums] e] eqn:Em. destruct e as [e|]; [done|].
  destruct (merge_done _ _ _ _ _ _ _ _ _ _ Hm (tr_ok _ _ _ _ HH) (tr_ok _ _ _ _ HK) Hap (tr_size _ _ _ _ HH) Hmax Hr Ho Hx Em) as (A & Hc & Hn & He & _).
  destruct (cudaMergeBulk _ _ _ _ _) as [places|] eqn:Eb; [|done]. cbn [mbind option_bind] in E. injection E as <- <- _.
  destruct (merge_groups _ _ _ _ _ _ _ _ _ _ _ _ _ HK HH A Hr Hc He Eb) as [Lp Gp]. destruct (an_conf _ _ _ _ _ _ _ A) as [Ac1 Ac2].
  cbn [cuda_hash_table group_agg_res]. split_and!; [|apply A|apply A|unfold same_conf; cbn; by rewrite Ac1, Ac2|apply A].
  destruct HK as [Ko Kk Kp Kg Ks]. split; [apply A| |lia|done|by apply A].
  intros k. rewrite fmap_app, elem_of_app, <- Kk, <- (tr_keys _ _ _ _ HH). split.
  - intros Hk. destruct (Hn k Hk); auto.
  - intros [[b Hb]|[b Hb]]; [exists b; by eapply lookup_weaken, (an_interned _ _ _ _ _ _ _ A)|eexists; by apply Hc].
Qed.

(** The choices of the device for a round. *)
Definition copies (o : launches) (c : chunk F) : Prop := sched_copy o ≡ₚ seq 0 (Z.to_nat (ht_buckets_num (cuda_hash_table c))).

Definition holds_rows (d : device) (c : chunk F) (rs : list (list Z * list Z)) : Prop :=
  table_repr (dev_mem d) (cuda_hash_table c) (group_agg_res c) rs.

Lemma holds_rows_kept d d' c0 cs rss :
  writes_in [table_range (cuda_hash_table c0)] (dev_mem d) (dev_mem d') -> Forall (mergeable c0) cs ->
  Forall2 (holds_rows d) cs rss -> Forall2 (holds_rows d') cs rss.
Proof.
  intros Hw Hf H2. induction H2 as [|c rs cs rss Hc H2 IH]; [done|]. rewrite list.Forall_cons in Hf. destruct Hf as [(Ha & _) Hf].
  constructor; [|auto]. eapply table_repr_frame; [|exact Hc]. intros x Hx. eapply writes_in_apart; [exact Hw| |exact Hx]. by apply list.Forall_singleton.
Qed.

Lemma mergeable_conf c0 c0' cs : same_conf c0 c0' -> Forall (mergeable c0) cs -> Forall (mergeable c0') cs.
Proof.
  intros (_ & _ & E & _) Hf. eapply list.Forall_impl; [exact Hf|]. intros c (H1 & H2 & H3). unfold mergeable. rewrite E.
  injection E as _ E. rewrite E. done.
Qed.

Lemma combine_chunks_done os d c0 cs d' c0' cs' rs0 rss :
  mem_ok (dev_mem d) -> Forall (mergeable c0) cs -> holds_rows d c0 rs0 -> Forall2 (holds_rows d) cs rss -> Forall2 copies os cs ->
  combine_chunks os d c0 cs = Some (inr (d', c0', cs')) ->
  holds_rows d' c0' (rs0 ++ concat rss) /\ same_conf c0 c0' /\ table_kept d (cuda_hash_table c0) d' (cuda_hash_table c0').
Proof.
  revert os d c0 cs' rs0 rss. induction cs as [|c cs IH]; intros os d c0 cs' rs0 rss Hm Hf H0 H2 Ho E.
  - inversion H2; subst. cbn in E. injection E as -> -> _. rewrite app_nil_r. split; [done|]. split; [by unfold same_conf|]. unfold table_kept. by split_and!; try lia.
  - inversion H2 as [|? rs ? rss' Hc H2']; subst. inversion Ho as [|o ? os' ? Ho1 Ho2]; subst. cbn [combine_chunks] in E.
    destruct (combine_chunk o d c0 c) as [[e|[[d1 c1] c2]]|] eqn:E1; [done| |done]. cbn [mbind option_bind] in E.
    destruct (combine_chunks os' d1 c1 cs) as [[e|[[d2 c3] cs2]]|] eqn:E2; [done| |done]. cbn [mbind option_bind] in E. injection E as -> -> _.
    rewrite list.Forall_cons in Hf. destruct Hf as [Hmc Hf].
    destruct (combine_chunk_done _ _ _ _ _ _ _ _ _ Hm Hmc H0 Hc Ho1 E1) as (T & M & W & S & KT). cbn [concat]. rewrite app_assoc.
    destruct (IH os' d1 c1 cs2 (rs0 ++ rs) rss' M) as (IH1 & IH2 & IH3); [by eapply mergeable_conf|done|by eapply holds_rows_kept|done|done|].
    split_and!; [done| |by eapply table_kept_trans]. destruct S as (S1 & S2 & S3 & S4 & S5 & S6), IH2 as (R1 & R2 & R3 & R4 & R5 & R6). unfold same_conf. by rewrite R1, R2, R3, R4, R5, R6.
Qed.

(** The kernels of a round return under some schedule. *)
Lemma combine_chunk_returns `{!MergeReturns F} d c0 c rs0 rs :
  mem_ok (dev_mem d) -> mergeable c0 c -> holds_rows d c0 rs0 -> holds_rows d c rs ->
  exists o r, copies o c /\ combine_chunk o d c0 c = Some r.
Proof.
  intros Hm (Hap & Hmax & Hr) HK HH. set (H := cuda_hash_table c) in *. set (K := cuda_hash_table c0) in *.
  pose proof (merge_rows_size _ H K (tr_ok _ _ _ _ HH)) as Rs. pose proof (tr_size _ _ _ _ HH : table_size H <= ht_str_buf_sz H) as Ts.
  destruct (hk_sz _ H (tr_ok _ _ _ _ HH)) as [Z1 Z2], (hk_sz _ K (tr_ok _ _ _ _ HK)) as [Z3 Z4].
  destruct (kerFillEmptyResBucket_spec _ _ Hr) as [Lr _].
  assert (rows_ok (dev_mem d) K (merge_args H K) (kerFillEmptyResBucket (ht_buckets_num H) (group_nums c))) as Rok.
  { apply merge_rows_ok; [done|apply HH|apply HK| |lia|lia].
    unfold apart in Hap. cbn in Hap. pose proof (pad8_ge (ht_str_buf_max_sz H)). pose proof (pad8_ge (ht_str_buf_max_sz K)). lia. }
  set (s := round_robin (AddDataKernel.grid_size (merge_args H K)) (Z.to_nat (8 * ht_buckets_num K + 8))).
  assert (all_exited (call_grid s d K (merge_args H K) (kerFillEmptyResBucket (ht_buckets_num H) (group_nums c))) = true) as Hx.
  { apply round_robin_exits; [|cbn; lia]. exact (call_launch_ok d _ _ _ _ _ _ (tr_ok _ _ _ _ HK) Rok). }
  set (order := seq 0 (Z.to_nat (ht_buckets_num H))).
  destruct (mergeToOtherTable s order d H K (group_nums c)) as [[[[d1 H1] K1] nums] e] eqn:Em.
  destruct (merge_bulk_returns (group_agg_res c0) (Z.to_nat (ht_buckets_num H)) (group_agg_res c) nums) as [s2 [places Eb]].
  destruct e as [e|]; eexists (Launches s order s2), _; (split; [unfold copies; reflexivity|]); unfold combine_chunk; cbn [sched_add sched_copy sched_bulk]; fold H K;
    rewrite Hx, Em; cbn [negb]; [done|by rewrite Eb].
Qed.

Lemma combine_chunks_return `{!MergeReturns F} d c0 cs rs0 rss :
  mem_ok (dev_mem d) -> Forall (mergeable c0) cs -> holds_rows d c0 rs0 -> Forall2 (holds_rows d) cs rss ->
  exists os r, Forall2 copies os cs /\ combine_chunks os d c0 cs = Some r.
Proof.
  revert d c0 rs0 rss. induction cs as [|c cs IH]; intros d c0 rs0 rss Hm Hf H0 H2.
  { exists [], (inr (d, c0, [])). by split. }
  inversion H2 as [|? rs ? rss' Hc H2']; subst. rewrite list.Forall_cons in Hf. destruct Hf as [Hmc Hf].
  destruct (combine_chunk_returns d c0 c rs0 rs Hm Hmc H0 Hc) as (o & [e|[[d1 c1] c2]] & Ho & E).
  - exists (o :: map (fun c => Launches [] (seq 0 (Z.to_nat (ht_buckets_num (cuda_hash_table c)))) []) cs), (inl e). split.
    + constructor; [done|]. clear. induction cs as [|c0 cs IH]; cbn [map]; [constructor|]. constructor; [unfold copies; reflexivity|exact IH].
    + cbn [combine_chunks]. by rewrite E.
  - destruct (combine_chunk_done _ _ _ _ _ _ _ _ _ Hm Hmc H0 Hc Ho E) as (T & M & W & S & _).
    destruct (IH d1 c1 (rs0 ++ rs) rss' M) as (os & r & Hos & Er); [by eapply mergeable_conf|exact T|by eapply holds_rows_kept|].
    exists (o :: os). cbn [combine_chunks]. rewrite E. cbn [mbind option_bind]. rewrite Er. cbn [mbind option_bind].
    destruct r as [e|[[d2 c3] cs2]]; eexists; (split; [by constructor|done]).
Qed.
End combined.

(** ** Reading the result *)

Section result.
Context {F : CudaAggregateFunction} (m : memory) (c : chunk F).
#[local] Abbreviation H := (cuda_hash_table c).
Hypothesis Hok : ht_ok m H.
Hypothesis Hplaces : Z.of_nat (length (group_agg_res c)) = ht_buckets_num H.
Hypothesis Hzero : forall k b, contents m H !! k = Some b -> exists r, k = r ++ [0].

(** What the bucket [j] contributes. *)
Definition bucket_result (j : nat) (k : list Z) (p : agg_data) : Prop :=
  contents m H !! (k ++ [0]) = Some (Z.of_nat j) /\ group_agg_res c !! j = Some p.

(** The string at the offset of the bucket is the one in the bucket. *)
Definition readable (j : Z) : Prop :=
  contents m H !! (bytes m (ht_str_buf H + rd (ht_offsets H) j) (Z.to_nat (rd (table_lens (ht_tab H)) j -32 1)) ++ [0]) = Some j /\
  rd (ht_offsets H) j + (rd (table_lens (ht_tab H)) j -32 1) <= ht_str_buf_sz H.

Lemma bucket_string j : offsets_ok H = true -> 0 <= j < ht_buckets_num H -> rd (table_lens (ht_tab H)) j <> 0 -> readable j.
Proof.
  intros Hoff Hj Hl. destruct (proj2 (hk_tab _ _ Hok) j Hj) as [(Hr & S2 & S3) C]. pose proof (C (S2 Hl)) as Hp.
  pose proof (offsets_ok_spec m H j Hok Hoff Hj Hp) as Eo. destruct (hk_ptrs _ _ Hok j Hj Hp) as (_ & P1 & P2).
  unfold readable. rewrite wrap_small by (unfold fits; lia). split; [|lia].
  rewrite Eo. pose proof (table_ok_holds _ (table_args _) _ j (hk_tab _ _ Hok) Hj Hp) as Hh.
  assert (contents m H !! slot_key m (ht_tab H) j = Some j) as Hs by (apply (contents_lookup _ _ Hok); done).
  destruct (Hzero _ _ Hs) as [r Er]. rewrite Er in Hs. rewrite <- Hs. do 2 f_equal. unfold slot_key in Er.
  replace (Z.to_nat (rd (table_lens (ht_tab H)) j)) with (Z.to_nat (rd (table_lens (ht_tab H)) j - 1) + 1)%nat in Er by lia.
  rewrite bytes_app in Er. by apply app_inj_tail in Er as [? _].
Qed.

(** The loop so far has read the buckets before [n], and none of them twice. *)
Lemma read_buckets n :
  (n <= Z.to_nat (ht_buckets_num H))%nat -> (forall j, 0 <= j < Z.of_nat n -> rd (table_lens (ht_tab H)) j <> 0 -> readable j) ->
  exists R, foldl (read_bucket m c) (inr ∅) (seq 0 n) = inr R /\
    forall k p, R !! k = Some p <-> exists j, (j < n)%nat /\ bucket_result j k p.
Proof.
  induction n as [|n IH]; intros Hn Hread.
  { exists ∅. split; [done|]. intros k p. rewrite lookup_empty. split; [done|]. intros (j & ? & _). lia. }
  destruct (IH ltac:(lia)) as (R & ER & HR); [intros j Hj; apply Hread; lia|]. rewrite seq_S, foldl_app, ER. cbn [foldl]. rewrite Nat.add_0_l. unfold read_bucket.
  assert (0 <= Z.of_nat n < ht_buckets_num H) as Hb by lia.
  destruct (Z.eqb_spec (rd (table_lens (ht_tab H)) (Z.of_nat n)) DBMS_CUDA_EMPTY_LEN_VAL) as [Ez|Ez].
  - exists R. split; [done|]. intros k p. rewrite HR. split; intros (j & Hj & Hjr); exists j; (split; [|done]); [lia|].
    assert (j <> n); [|lia]. intros ->. destruct Hjr as [Hc _]. apply (contents_lookup _ _ Hok) in Hc as [_ (_ & El & _)].
    rewrite Ez in El. rewrite length_app in El. cbn in El. unfold DBMS_CUDA_EMPTY_LEN_VAL in El. lia.
  - destruct (Hread (Z.of_nat n) ltac:(lia) Ez) as [Hs Hin]. rewrite (proj2 (Z.ltb_ge _ _) Hin). set (r := bytes m _ _) in *.
    destruct (lookup_lt_is_Some_2 (group_agg_res c) n ltac:(lia)) as [q Hq]. rewrite Hq.
    destruct (R !! r) as [p|] eqn:Er.
    { exfalso. apply HR in Er as (j & Hj & Hc & _). rewrite Hs in Hc. injection Hc. lia. }
    exists (<[r := q]> R). split; [done|]. intros k p. rewrite lookup_insert_Some, HR. split.
    + intros [[<- <-]|[Hne (j & Hj & Hjr)]]; [exists n; split; [lia|done]|exists j; split; [lia|done]].
    + intros (j & Hj & Hc & Hp). destruct (decide (r = k)) as [->|Hne].
      * left. split; [done|]. rewrite Hs in Hc. injection Hc as Hc. assert (j = n) as -> by lia. congruence.
      * right. split; [done|]. exists j. split; [|done]. assert (j <> n); [|lia]. intros ->.
        apply (contents_lookup _ _ Hok) in Hc as [_ (_ & _ & _ & E1)], Hs as [_ (_ & _ & _ & E2)]. rewrite E1 in E2.
        apply app_inj_tail in E2 as [E2 _]. by apply Hne.
Qed.

Lemma read_failed e l : foldl (read_bucket m c) (inl e) l = inl e.
Proof. by induction l. Qed.

(** The first bucket whose offset lies behind the strings ends the loop. *)
Lemma read_outside n :
  (n < Z.to_nat (ht_buckets_num H))%nat -> (forall j, 0 <= j < Z.of_nat n -> rd (table_lens (ht_tab H)) j <> 0 -> readable j) ->
  rd (table_lens (ht_tab H)) (Z.of_nat n) <> 0 -> ht_str_buf_sz H < rd (ht_offsets H) (Z.of_nat n) + (rd (table_lens (ht_tab H)) (Z.of_nat n) -32 1) ->
  foldl (read_bucket m c) (inr ∅) (seq 0 (Z.to_nat (ht_buckets_num H))) = inl OutsideOfBuffer.
Proof.
  intros Hn Hread Hl Hout. destruct (read_buckets n ltac:(lia) Hread) as (R & ER & _).
  replace (Z.to_nat (ht_buckets_num H)) with (n + S (Z.to_nat (ht_buckets_num H) - S n))%nat by lia.
  rewrite seq_app, foldl_app, ER. cbn [seq foldl Nat.add]. unfold read_bucket at 2. rewrite (proj2 (Z.eqb_neq _ DBMS_CUDA_EMPTY_LEN_VAL) Hl), (proj2 (Z.ltb_lt _ _) Hout). apply read_failed.
Qed.
End result.

(** *** The result of several chunks *)

(** The offsets are those of before the merges: the buckets that were in use
    are read right. *)
Lemma kept_readable {F : CudaAggregateFunction} d d' (c c' : chunk F) j k :
  ht_ok (dev_mem d) (cuda_hash_table c) -> ht_ok (dev_mem d') (cuda_hash_table c') -> offsets_ok (cuda_hash_table c) = true ->
  table_kept d (cuda_hash_table c) d' (cuda_hash_table c') -> contents (dev_mem d) (cuda_hash_table c) !! (k ++ [0]) = Some j -> readable (dev_mem d') c' j.
Proof.
  intros Hok Hok' Hoff (E1 & E2 & E3 & _ & Hsz & Hmem & Hsub) Hk. pose proof Hk as [Hj (_ & Hl & Hp & Hs)]%(contents_lookup _ _ Hok). set (H := cuda_hash_table c) in *. set (H' := cuda_hash_table c') in *.
  pose proof (offsets_ok_spec _ H j Hok Hoff Hj Hp) as Eo. destruct (hk_ptrs _ _ Hok j Hj Hp) as (_ & P1 & P2). pose proof (lookup_weaken _ _ _ _ Hk Hsub) as Hk'.
  pose proof Hk' as [_ (_ & Hl' & _)]%(contents_lookup _ _ Hok'). rewrite length_app in Hl, Hl'. cbn [length] in Hl, Hl'.
  assert (0 <= j < ht_buckets_num H') as Hj' by lia. destruct (proj2 (hk_tab _ _ Hok') j Hj') as [(Hr & _) _]. unfold readable. fold H'. rewrite E1, E2, wrap_small by (unfold fits; lia). split; [|lia].
  rewrite Eo. rewrite <- Hk'. do 2 f_equal. unfold slot_key in Hs. replace (Z.to_nat (rd (table_lens (ht_tab H)) j)) with (length k + 1)%nat in Hs by lia.
  rewrite bytes_app in Hs. apply app_inj_tail in Hs as [<- _]. replace (Z.to_nat (rd (table_lens (ht_tab H')) j - 1)) with (length k) by lia. apply bytes_agree. intros x Hx. apply Hmem. lia.
Qed.

(** A bucket that was in use has the key that it had. *)
Lemma old_bucket d d' H H' b k :
  ht_ok (dev_mem d) H -> ht_ok (dev_mem d') H' -> table_kept d H d' H' -> contents (dev_mem d') H' !! k = Some b -> rd (ptrs (ht_tab H)) b <> 0 ->
  contents (dev_mem d) H !! k = Some b.
Proof.
  intros Hok Hok' (_ & _ & E3 & _ & _ & _ & Hsub) Hk Hp. pose proof Hk as [Hb (_ & _ & _ & E2)]%(contents_lookup _ _ Hok'). rewrite E3 in Hb.
  assert (contents (dev_mem d) H !! slot_key (dev_mem d) (ht_tab H) b = Some b) as Ho.
  { apply (contents_lookup _ _ Hok). split; [done|]. by apply (table_ok_holds _ (table_args _)); [apply Hok|..]. }
  pose proof (lookup_weaken _ _ _ _ Ho Hsub) as [_ (_ & _ & _ & E1)]%(contents_lookup _ _ Hok'). rewrite E1 in E2. by rewrite <- E2.
Qed.

(** A bucket that the merges have taken into use has the offset of a null
    pointer. *)
Lemma new_outside {F : CudaAggregateFunction} d d' (c c' : chunk F) j k :
  ht_ok (dev_mem d) (cuda_hash_table c) -> ht_ok (dev_mem d') (cuda_hash_table c') -> offsets_ok (cuda_hash_table c) = true ->
  table_kept d (cuda_hash_table c) d' (cuda_hash_table c') ->
  0 < ht_str_buf (cuda_hash_table c) mod 2 ^ 32 -> ht_str_buf (cuda_hash_table c) mod 2 ^ 32 + ht_str_buf_max_sz (cuda_hash_table c) < 2 ^ 32 ->
  contents (dev_mem d') (cuda_hash_table c') !! k = Some j -> contents (dev_mem d) (cuda_hash_table c) !! k = None ->
  rd (table_lens (ht_tab (cuda_hash_table c'))) j <> 0 /\
  ht_str_buf_sz (cuda_hash_table c') < rd (ht_offsets (cuda_hash_table c')) j + (rd (table_lens (ht_tab (cuda_hash_table c'))) j -32 1).
Proof.
  intros Hok Hok' Hoff Hkept B1 B2 Hk Hnew. set (H := cuda_hash_table c) in *. set (H' := cuda_hash_table c') in *.
  assert (rd (ptrs (ht_tab H)) j = 0) as Hz.
  { destruct (decide (rd (ptrs (ht_tab H)) j = 0)) as [|Hne]; [done|]. by rewrite (old_bucket _ _ _ _ _ _ Hok Hok' Hkept Hk Hne) in Hnew. }
  destruct Hkept as (E1 & _ & E3 & E4 & _). pose proof Hk as [Hj (_ & Hl & Hp & _)]%(contents_lookup _ _ Hok'). pose proof Hj as Hj'. rewrite E3 in Hj.
  rewrite E1, (offsets_ok_all H j Hoff Hj), Hz. destruct (proj2 (hk_tab _ _ Hok') j Hj') as [(Hr & _ & Hnz) _]. destruct (Hnz Hp) as [Hnz0 _]. destruct (hk_sz _ _ Hok') as [[S1 S2] S3].
  assert (0 < rd (table_lens (ht_tab H')) j) as Hpos by lia. split; [lia|]. rewrite (wrap_small 32 (rd _ j - 1)) by (unfold fits; lia).
  assert (u32 (0 - ht_str_buf H) = 2 ^ 32 - ht_str_buf H mod 2 ^ 32) as -> by (unfold wrap; rewrite Z.sub_0_l, Z.mod_opp_l_nz; lia). lia.
Qed.


(** ** When the workers have been joined *)

(** The values of the rows with key [k]. *)
Definition rows_with (k : list Z) (rs : list (list Z * list Z)) : list (list Z) := map snd (filter (fun r => r.1 = k) rs).

Lemma group_rows_with m H k b rs : ht_ok m H -> contents m H !! k = Some b -> group (contents m H) rs b = rows_with k rs.
Proof.
  intros Hok Hk. unfold group, rows_with. f_equal. apply list_filter_iff. intros [k' v]. cbn [fst]. split; [|by intros ->].
  intros Hk'. apply (contents_lookup _ _ Hok) in Hk as [_ (_ & _ & _ & <-)], Hk' as [_ (_ & _ & _ & <-)]. done.
Qed.

Lemma rows_with_nil k rs : rows_with k rs = [] <-> k ∉ rs.*1.
Proof.
  unfold rows_with. induction rs as [|[k' v] rs IH].
  - split; [intros _; apply not_elem_of_nil|done].
  - rewrite filter_cons. cbn [fst fmap list_fmap]. rewrite not_elem_of_cons, <- IH. case_decide as D; cbn [map]; [by subst; split; [|intros []]|].
    split; [by auto|by intros []].
Qed.

Lemma rows_with_perm k rs rs' : rs ≡ₚ rs' -> rows_with k rs ≡ₚ rows_with k rs'.
Proof. intros H. unfold rows_with. apply Permutation_map. by rewrite H. Qed.

Lemma rows_of_perm bs bs' : bs ≡ₚ bs' -> rows_of bs ≡ₚ rows_of bs'.
Proof.
  unfold rows_of. induction 1 as [|b bs bs' H IH|b b' bs|]; cbn [map concat]; [done|by f_equiv| |by etrans].
  rewrite !app_assoc. f_equiv. apply Permutation_app_comm.
Qed.

Lemma rows_of_filter bs : rows_of (filter (fun b => length (b_keys b) <> 0%nat) bs) = rows_of bs.
Proof.
  induction bs as [|b bs IH]; [done|]. rewrite filter_cons. case_decide as D; unfold rows_of in *; cbn [map concat]; rewrite IH; [done|].
  destruct (b_keys b); [done|]. cbn in D. lia.
Qed.

Lemma rows_of_concat (f : nat -> list block) l : rows_of (concat (map f l)) = concat (map (fun i => rows_of (f i)) l).
Proof. induction l as [|i l IH]; [done|]. cbn [map concat]. by rewrite rows_of_app, IH. Qed.

(** The groups of a table, key by key. *)
Lemma table_groups {F : CudaAggregateFunction} {L : AggregateLaws F} m H (places : list agg_data) rs k :
  table_repr m H places rs ->
  match contents m H !! k with
  | Some b => rows_with k rs <> [] /\ exists p, places !! Z.to_nat b = Some p /\ agg_repr p (rows_with k rs)
  | None => rows_with k rs = []
  end.
Proof.
  intros [To Tk Tp Tg _]. specialize (Tk k). destruct (contents m H !! k) as [b|] eqn:Eb.
  - rewrite rows_with_nil. split; [intros Hn; apply Hn, Tk; by eexists|].
    pose proof Eb as [Hb _]%(contents_lookup _ _ To). destruct (lookup_lt_is_Some_2 places (Z.to_nat b) ltac:(lia)) as [p Hp].
    exists p. split; [done|]. rewrite <- (group_rows_with m H k b) by done. apply Tg; [lia|done].
  - apply rows_with_nil. intros Hn. apply Tk in Hn as [b Hb]. congruence.
Qed.

Lemma keys_end_zero {F : CudaAggregateFunction} {L : AggregateLaws F} d (c : chunk F) bs k b :
  holds_rows d c (rows_of bs) -> contents (dev_mem d) (cuda_hash_table c) !! k = Some b -> exists r, k = r ++ [0].
Proof.
  intros T Hk. apply (key_row bs). rewrite <- rows_of_keys. apply (tr_keys _ _ _ _ T). by eexists.
Qed.

Section joined.
Context {F : CudaAggregateFunction} {L : AggregateLaws F} {B : BulkReturns F L} (N : nat) (HN : (0 < N)%nat).
#[local] Instance chunk_data : ChunkData block (agg F) := agg_chunk_data N HN.

Lemma joined_state (g : agg F) blocks s :
  ChunkProtocol.fresh g -> rtc ChunkProtocol.any_step (ChunkProtocol.startProcessing g blocks) s -> ChunkProtocol.main s = ChunkProtocol.MDone ->
  agg_ok N (ChunkProtocol.data s) /\
  (forall i c, agg_chunks (ChunkProtocol.data s) !! i = Some c ->
     holds_rows (agg_dev (ChunkProtocol.data s)) c (rows_of (agg_processed (ChunkProtocol.data s) i)) /\ offsets_ok (cuda_hash_table c) = true) /\
  concat (map (fun i => rows_of (agg_processed (ChunkProtocol.data s) i)) (seq 0 N)) ≡ₚ rows_of blocks.
Proof.
  intros Hf Hr Hm. pose proof (ChunkProtocol.inv_reachable blocks g s Hf Hr) as I.
  destruct (ChunkProtocol.processed_at_end g blocks s Hf Hr Hm) as [Hx Hp]. pose proof (ChunkProtocol.i_data _ _ I) as Hg. cbn in Hg.
  split; [done|]. split.
  - intros i c Hc. assert (i < N)%nat as Hi by (rewrite <- (ag_num _ _ Hg); by eapply lookup_lt_Some).
    destruct (Hx i Hi) as [Hw _]. pose proof (ChunkProtocol.i_finished _ _ I i Hi Hw) as Hfin. cbn in Hfin. unfold agg_finished in Hfin. rewrite Hc in Hfin.
    split; [|done]. apply (ag_chunks _ _ Hg i c Hc). destruct (agg_started _ i) eqn:Es; [done|].
    apply (ChunkProtocol.i_started _ _ I i Hi) in Es. congruence.
  - rewrite <- (rows_of_concat (agg_processed (ChunkProtocol.data s))), <- rows_of_filter, <- (rows_of_filter blocks). by apply rows_of_perm.
Qed.

(** The chunks of one aggregator can be merged. *)
Lemma chunks_mergeable (g : agg F) c0 cs : agg_ok N g -> agg_chunks g = c0 :: cs -> Forall (mergeable c0) cs.
Proof.
  intros Hg E. apply list.Forall_forall. intros c [i Hi]%list_elem_of_lookup.
  assert (agg_chunks g !! 0%nat = Some c0) as H0 by (by rewrite E). assert (agg_chunks g !! S i = Some c) as H1 by (by rewrite E).
  pose proof (ck_conf _ _ _ (ag_chunks _ _ Hg _ _ H0)) as K0. pose proof (ck_conf _ _ _ (ag_chunks _ _ Hg _ _ H1)) as K1.
  pose proof (ag_apart _ _ Hg (S i) 0%nat c c0 H1 H0 ltac:(done)) as Ha. split_and!.
  - unfold chunk_ranges in Ha. rewrite !list.Forall_cons in Ha. tauto.
  - pose proof (proj1 (cc_merge _ K0)). pose proof (proj1 (cc_merge _ K1)). lia.
  - pose proof (proj2 (proj2 (cc_merge _ K1))). pose proof (cc_nums _ K1). lia.
Qed.

Lemma joined_rows (g : agg F) blocks s :
  ChunkProtocol.fresh g -> rtc ChunkProtocol.any_step (ChunkProtocol.startProcessing g blocks) s -> ChunkProtocol.main s = ChunkProtocol.MDone ->
  exists rss, Forall2 (holds_rows (agg_dev (ChunkProtocol.data s))) (agg_chunks (ChunkProtocol.data s)) rss /\ concat rss ≡ₚ rows_of blocks.
Proof.
  intros Hf Hr Hm. destruct (joined_state g blocks s Hf Hr Hm) as (Hg & Hc & Hp). eexists. split; [|exact Hp].
  apply Forall2_same_length_lookup_2; [by rewrite length_map, length_seq, (ag_num _ _ Hg)|]. intros i c rs Hi Hrs.
  change (map ?f ?l) with (f <$> l) in Hrs. rewrite list_lookup_fmap in Hrs. pose proof (lookup_lt_Some _ _ _ Hi) as Hlt. rewrite (ag_num _ _ Hg) in Hlt.
  rewrite lookup_seq_lt in Hrs by done. injection Hrs as <-. by apply Hc.
Qed.

Lemma combined_rows {ML : MergeLaws F L} {MR : MergeReturns F} (g : agg F) blocks s c0 cs :
  ChunkProtocol.fresh g -> rtc ChunkProtocol.any_step (ChunkProtocol.startProcessing g blocks) s -> ChunkProtocol.main s = ChunkProtocol.MDone ->
  agg_chunks (ChunkProtocol.data s) = c0 :: cs ->
  (exists os r, Forall2 copies os cs /\ combine_chunks os (agg_dev (ChunkProtocol.data s)) c0 cs = Some r) /\
  forall os d' c0' cs', Forall2 copies os cs -> combine_chunks os (agg_dev (ChunkProtocol.data s)) c0 cs = Some (inr (d', c0', cs')) ->
    exists rs, rs ≡ₚ rows_of blocks /\ holds_rows d' c0' rs.
Proof.
  intros Hf Hr Hm E. destruct (joined_rows g blocks s Hf Hr Hm) as (rss & H2 & Hp). destruct (joined_state g blocks s Hf Hr Hm) as (Hg & _).
  rewrite E in H2. inversion H2 as [|? rs0 ? rss' H0 H2']; subst. pose proof (chunks_mergeable _ c0 cs Hg E) as Hmg. split.
  - eapply combine_chunks_return; [apply Hg|done..].
  - intros os d' c0' cs' Ho Ec. exists (rs0 ++ concat rss'). split; [done|]. eapply combine_chunks_done in Ec; [apply Ec|apply Hg|done..].
Qed.
End joined.

(** The arrays of a table of the aggregator fit into those of the host. *)
Lemma read_result_loop {F : CudaAggregateFunction} m (c : chunk F) :
  chunk_conf c -> ht_ok m (cuda_hash_table c) ->
  read_result m c = foldl (read_bucket m c) (inr ∅) (seq 0 (Z.to_nat (ht_buckets_num (cuda_hash_table c)))).
Proof.
  intros Hc Hok. destruct (cc_merge _ Hc) as (_ & M2 & M3). destruct (hk_sz _ _ Hok) as [S1 S2]. unfold read_result.
  by rewrite (proj2 (Z.ltb_ge _ _)), (proj2 (Z.ltb_ge _ _)) by lia.
Qed.
