(* ===== verification/AggregatorResult.v ===== *)
(** * The aggregator from its construction to its result

    The constructor of [CudaStringsAggregator], and what the aggregator as a
    whole gives: the groups in the chunks when the workers have been joined,
    the counts when the chunks have been combined, and the result with one
    chunk and with several.  The state after the constructor is one from which
    the protocol can start, so these hold for every run of a constructed aggregator.

    With several chunks, as the default settings have them, the result is read
    with offsets that were computed before the chunks were combined: it is right
    when chunk 0 had all the keys before that, and a key that chunk 0 did not
    have is read outside of the buffer ([several_chunks_result]). *)

From Stdlib Require Import ZArith Lia.
From stdpp Require Import base list gmap numbers relations.
From S2P Require Import Prelude DeviceMemory.
From S2P Require StringsColumn.
From S2P Require Import AddDataKernel StringsHashTable.
From S2P Require AggregateFunctions.
Import AggregateFunctions (CudaAggregateFunction, agg_data, AggregateLaws, agg_repr, BulkReturns, MergeLaws, CudaAggregateFunctionCount, CudaAggregateFunctionUniq).
From S2P Require Import ChunkState.
From S2P Require ChunkProtocol.
Import ChunkProtocol (ChunkData, upd).
From S2P Require Import StringsAggregator.

#[local] Existing Instances AggregateFunctions.count_laws AggregateFunctions.count_merge_laws AggregateFunctions.count_returns
  AggregateFunctions.count_merge_returns AggregateFunctions.uniq_laws AggregateFunctions.uniq_returns AggregateFunctions.uniq_merge_returns.

#[local] Open Scope Z_scope.
#[local] Open Scope word_scope.

(** ** The constructor *)

(** What the allocations of a chunk give: the addresses of the string buffer of
    the table and of the buffers of the columns, and what the cells of fresh
    arrays hold. *)
Record allocations (F : CudaAggregateFunction) := Allocations {
  a_table : Z;
  a_keys : nat -> option Z;
  a_vals : nat -> option Z;
  a_cells : nat -> nat -> list Z;
  a_places : nat -> list agg_data
}.
Arguments Allocations {F}.
Arguments a_table {F}.
Arguments a_keys {F}.
Arguments a_vals {F}.
Arguments a_cells {F}.
Arguments a_places {F}.

Section construct.
Context {F : CudaAggregateFunction} (hash_table_max_size_ hash_table_str_buffer_max_size_ buffer_max_str_num_ buffer_max_size_ : Z).

(** The body of the loop of the constructor; [group_nums] is a
    [thrust::device_vector], whose cells are zero. *)
Definition construct_chunk (a : allocations F) : (StringsColumn.column_error * list Z) + chunk F :=
  let H := StringsHashTable.construct (a_cells a) (a_table a) hash_table_max_size_ hash_table_str_buffer_max_size_ in
  match StringsColumn.construct (a_keys a) (a_cells a 6%nat) buffer_max_str_num_ buffer_max_size_ with
  | inl e => inl e
  | inr ks =>
      match StringsColumn.construct (a_vals a) (a_cells a 7%nat) buffer_max_str_num_ buffer_max_size_ with
      | inl e => inl e
      | inr vs => inr (Chunk ks vs H (replicate (Z.to_nat buffer_max_str_num_) 0) (a_places a (Z.to_nat hash_table_max_size_)))
      end
  end.

Fixpoint construct_chunks (l : list (allocations F)) : (StringsColumn.column_error * list Z) + list (chunk F) :=
  match l with
  | [] => inr []
  | a :: l' =>
      match construct_chunk a with
      | inl e => inl e
      | inr c => match construct_chunks l' with inl e => inl e | inr cs => inr (c :: cs) end
      end
  end.

(** [CudaStringsAggregator(dev_number_, chunks_num_, ...)], with an entry of
    [l] for every chunk, on a device with state [d]. *)
Definition construct (d : device) (l : list (allocations F)) : (StringsColumn.column_error * list Z) + agg F :=
  match construct_chunks l with
  | inl e => inl e
  | inr cs => inr (Agg d cs (fun _ => false) (fun _ => []) (fun _ => []))
  end.

(** Settings with which the aggregator can work; the defaults are such. *)
Definition sizes_ok : Prop :=
  0 < hash_table_max_size_ <= buffer_max_str_num_ /\ 0 <= hash_table_str_buffer_max_size_ <= buffer_max_size_ /\
  hash_table_str_buffer_max_size_ + buffer_max_size_ + 8 * buffer_max_str_num_ < 2 ^ 32 /\ 2 * hash_table_str_buffer_max_size_ < 2 ^ 32.

(** The buffers of a chunk. *)
Definition alloc_ranges (a : allocations F) : list (Z * Z) :=
  [(default 0 (a_keys a 0%nat), buffer_max_size_); (default 0 (a_vals a 0%nat), buffer_max_size_); (a_table a, hash_table_str_buffer_max_size_)].

(** [cudaMalloc] gives aligned memory, and memory of its own to everyone. *)
Record alloc_ok (l : list (allocations F)) : Prop := {
  al_cells : forall a, a ∈ l -> forall i k, length (a_cells a i k) = k;
  al_ranges : forall a, a ∈ l -> Forall range_ok (alloc_ranges a);
  al_own : forall a, a ∈ l -> forall i j r r', alloc_ranges a !! i = Some r -> alloc_ranges a !! j = Some r' -> i <> j -> apart r r';
  al_apart : forall i j a b, l !! i = Some a -> l !! j = Some b -> i <> j ->
    Forall (fun r => Forall (apart r) (alloc_ranges b)) (alloc_ranges a)
}.
End construct.

(** ** It establishes the invariant *)

Section constructed.
Context {F : CudaAggregateFunction} {L : AggregateLaws F} (n str n_buf sz_buf : Z).
Hypothesis Hsz : sizes_ok n str n_buf sz_buf.

Lemma construct_column_spec (mal : nat -> option Z) garbage c :
  StringsColumn.construct mal garbage n_buf sz_buf = inr c ->
  column_range c = (default 0 (mal 0%nat), sz_buf) /\ StringsColumn.max_str_num c = n_buf.
Proof.
  unfold StringsColumn.construct. intros E. destruct (_ || _); [done|].
  destruct (mal 0%nat), (mal 1%nat), (mal 2%nat), (mal 3%nat); try done. by injection E as <-.
Qed.

Lemma construct_chunk_spec a c m l :
  alloc_ok str sz_buf l -> a ∈ l -> construct_chunk n str n_buf sz_buf a = inr c ->
  chunk_conf c /\ ht_sized (cuda_hash_table c) /\ columns_hold m c [] /\ chunk_ranges c = alloc_ranges str sz_buf a.
Proof.
  intros Al Ha E. unfold construct_chunk in E. destruct Hsz as (S1 & S2 & S3 & S4).
  destruct (StringsColumn.construct (a_keys a) _ _ _) as [|ks] eqn:Ek; [done|].
  destruct (StringsColumn.construct (a_vals a) _ _ _) as [|vs] eqn:Ev; [done|]. injection E as <-.
  destruct (construct_column_spec _ _ _ Ek) as [Rk Nk]. destruct (construct_column_spec _ _ _ Ev) as [Rv Nv].
  pose proof (al_ranges _ _ _ Al a Ha) as Hr. pose proof (al_own _ _ _ Al a Ha) as Hown. pose proof (al_cells _ _ _ Al a Ha) as Hcells.
  unfold alloc_ranges in Hr. rewrite !list.Forall_cons in Hr. destruct Hr as (R1 & R2 & R3 & _).
  pose proof R3 as (T1 & T2 & T3 & T4). cbn in T1, T2, T3, T4. pose proof (pad8_ge str).
  injection Rk as Rk1 Rk2. unfold alloc_ranges. split_and!.
  - split; cbn [cuda_buffer_keys cuda_buffer_vals cuda_hash_table group_nums].
    + unfold column_range. by rewrite Rk1, Rk2.
    + by rewrite Rv.
    + done.
    + rewrite Rv. unfold column_range. rewrite Rk1, Rk2.
      split_and!; [apply (Hown 0%nat 2%nat)|apply (Hown 1%nat 2%nat)|apply (Hown 0%nat 1%nat)]; done.
    + rewrite Nk, length_replicate. lia.
    + rewrite Nk, Rk2. cbn. lia.
    + rewrite Nk, Rk2. cbn. lia.
  - cbn [cuda_hash_table]. apply construct_sized; [done|lia..|done].
  - split; cbn [cuda_buffer_keys cuda_buffer_vals map]; [|destruct AggregateFunctions.isDataNeeded];
      (eapply StringsColumn.construct_rows; [..|done]); auto; lia.
  - unfold chunk_ranges. cbn. rewrite Rv. unfold column_range. by rewrite Rk1, Rk2.
Qed.

Lemma construct_chunks_lookup l cs i c :
  construct_chunks n str n_buf sz_buf l = inr cs -> cs !! i = Some c ->
  exists a, l !! i = Some a /\ construct_chunk n str n_buf sz_buf a = inr c.
Proof.
  revert cs i. induction l as [|a l IH]; intros cs i E Hi; cbn [construct_chunks] in E.
  - injection E as <-. done.
  - destruct (construct_chunk n str n_buf sz_buf a) as [|c0] eqn:Ec; [done|]. destruct (construct_chunks _ _ _ _ l) as [|cs0] eqn:El; [done|].
    injection E as <-. destruct i as [|i]; cbn in Hi; [injection Hi as ->; by exists a|]. by destruct (IH cs0 i eq_refl Hi) as (a' & ? & ?); exists a'.
Qed.

Lemma construct_chunks_length l cs : construct_chunks n str n_buf sz_buf l = inr cs -> length cs = length l.
Proof.
  revert cs. induction l as [|a l IH]; intros cs E; cbn [construct_chunks] in E; [by injection E as <-|].
  destruct (construct_chunk n str n_buf sz_buf a) as [|c0]; [done|]. destruct (construct_chunks _ _ _ _ l) as [|cs0] eqn:El; [done|].
  injection E as <-. cbn. by rewrite (IH cs0).
Qed.

Lemma construct_ok d l g :
  mem_ok (dev_mem d) -> alloc_ok str sz_buf l -> construct n str n_buf sz_buf d l = inr g ->
  agg_ok (length l) g /\ (forall i, agg_started g i = false) /\ (forall i, agg_pending g i = []) /\ (forall i, agg_processed g i = []).
Proof.
  intros Hm Al E. unfold construct in E. destruct (construct_chunks _ _ _ _ l) as [|cs] eqn:Ec; [done|]. injection E as <-.
  split; [|done]. split; cbn [agg_chunks agg_dev].
  - by eapply construct_chunks_length.
  - done.
  - intros i j c c' Hi Hj Hne. destruct (construct_chunks_lookup _ _ _ _ Ec Hi) as (a & Ha & Ea).
    destruct (construct_chunks_lookup _ _ _ _ Ec Hj) as (b & Hb & Eb).
    destruct (construct_chunk_spec a c (dev_mem d) l Al ltac:(by eapply list_elem_of_lookup_2) Ea) as (_ & _ & _ & ->).
    destruct (construct_chunk_spec b c' (dev_mem d) l Al ltac:(by eapply list_elem_of_lookup_2) Eb) as (_ & _ & _ & ->).
    by apply (al_apart _ _ _ Al i j).
  - intros i c Hi. destruct (construct_chunks_lookup _ _ _ _ Ec Hi) as (a & Ha & Ea).
    destruct (construct_chunk_spec a c (dev_mem d) l Al ltac:(by eapply list_elem_of_lookup_2) Ea) as (K1 & K2 & K3 & _). by split.
Qed.
End constructed.

Lemma construct_fresh {F : CudaAggregateFunction} {L : AggregateLaws F} {B : BulkReturns F L} n str n_buf sz_buf d l (HN : (0 < length l)%nat) g :
  sizes_ok n str n_buf sz_buf -> mem_ok (dev_mem d) -> alloc_ok str sz_buf l -> construct n str n_buf sz_buf d l = inr g ->
  ChunkProtocol.fresh (D := agg_chunk_data (length l) HN) g.
Proof.
  intros Hsz Hm Al E. destruct (construct_ok n str n_buf sz_buf Hsz d l g Hm Al E) as (Hg & H1 & H2 & H3). split; [exact Hg|].
  intros i _. cbn. auto.
Qed.

(** ** Runs *)

(** Launches in which all threads have a turn, and those with a row some more. *)
Definition demo_launches (grid n : nat) : launches := Launches (round_robin grid 1 ++ round_robin n 24) (seq 0 n) (round_robin grid 1).
Definition fair_launches {F : CudaAggregateFunction} (c : chunk F) : launches :=
  demo_launches (AddDataKernel.grid_size (chunk_args c)) (str_num (chunk_args c)).

Definition fair_process {F : CudaAggregateFunction} (g : agg F) (i : nat) : option (option (agg F)) :=
  c ← agg_chunks g !! i;
  r ← process_buffer (fair_launches c) (agg_dev g) c;
  Some (processed_agg g i r).

Lemma fair_process_ok {F : CudaAggregateFunction} (g : agg F) i r : fair_process g i = Some r -> agg_process g i r.
Proof.
  unfold fair_process. destruct (agg_chunks g !! i) as [c|] eqn:Hc; [|done]. cbn [mbind option_bind]. intros E.
  destruct (process_buffer (fair_launches c) (agg_dev g) c) as [x|] eqn:Ex; [|done]. injection E as <-. by exists c, (fair_launches c), x.
Qed.

(** Two chunks with tables of four buckets, and buffers for four rows. *)
Definition demo_allocations (F : CudaAggregateFunction) (places : list agg_data) (i : nat) : allocations F :=
  let p := 1024 * Z.of_nat i in
  Allocations (p + 64) (fun j => Some (p + 256 + 64 * Z.of_nat j)) (fun j => Some (p + 512 + 64 * Z.of_nat j)) (fun _ k => replicate k 7) (fun _ => places).

Definition demo_memory : device := Device (fun _ => 0) false.

Definition demo_count : agg CudaAggregateFunctionCount :=
  match construct 4 64 4 64 demo_memory (map (demo_allocations CudaAggregateFunctionCount []) [0; 1]%nat) with
  | inr g => g
  | inl _ => Agg demo_memory [] (fun _ => false) (fun _ => []) (fun _ => [])
  end.

(** The rows "a", "b", "a" and then "a", "c". *)
Definition demo_block1 : block := Block [[97; 0]; [98; 0]; [97; 0]] [[0]; [0]; [0]] eq_refl.
Definition demo_block2 : block := Block [[97; 0]; [99; 0]] [[0]; [0]] eq_refl.

Definition demo_turns : list (option nat) := concat (replicate 16 [None; Some 0; Some 1])%nat.

Definition demo_count_end : ChunkProtocol.sys (G := agg CudaAggregateFunctionCount) :=
  ChunkProtocol.exec (D := agg_chunk_data 2 Nat.lt_0_2) fair_process demo_turns
    (ChunkProtocol.startProcessing demo_count [demo_block1; demo_block2]).

Lemma demo_sizes : sizes_ok 4 64 4 64.
Proof. unfold sizes_ok. lia. Qed.

Lemma demo_alloc_ok F places : alloc_ok 64 64 (map (demo_allocations F places) [0; 1]%nat).
Proof.
  assert (forall a, a ∈ map (demo_allocations F places) [0; 1]%nat -> exists i, (i < 2)%nat /\ a = demo_allocations F places i) as Hin.
  { intros a. cbn [map]. rewrite !elem_of_cons. intros [->|[->|[]%not_elem_of_nil]]; eexists; (split; [|done]); lia. }
  split.
  - intros a (i & _ & ->)%Hin j k. cbn. apply length_replicate.
  - intros a (i & Hi & ->)%Hin. unfold alloc_ranges, range_ok, pad8. cbn. repeat constructor; cbn; dlia.
  - intros a (i & Hi & ->)%Hin j k r r' Hj Hk Hne.
    assert (j < 3 /\ k < 3)%nat by (apply lookup_lt_Some in Hj, Hk; cbn in Hj, Hk; lia). unfold apart, pad8.
    destruct j as [|[|[|]]], k as [|[|[|]]]; try lia; injection Hj as <-; injection Hk as <-; cbn; dlia.
  - intros i j a b Hi Hj Hne. change (map ?f ?l) with (f <$> l) in Hi, Hj. rewrite list_lookup_fmap in Hi, Hj.
    destruct i as [|[|]], j as [|[|]]; try done; injection Hi as <-; injection Hj as <-; unfold alloc_ranges, apart;
      rewrite !list.Forall_cons, !list.Forall_nil; cbn [fst snd a_table a_keys a_vals demo_allocations default from_option id]; change (pad8 64) with 64; lia.
Qed.

Lemma demo_count_constructed :
  construct 4 64 4 64 demo_memory (map (demo_allocations CudaAggregateFunctionCount []) [0; 1]%nat) = inr demo_count.
Proof. reflexivity. Qed.

Lemma demo_memory_ok : mem_ok (dev_mem demo_memory).
Proof. intros x. cbn. done. Qed.

Lemma demo_count_run :
  rtc (ChunkProtocol.any_step (D := agg_chunk_data 2 Nat.lt_0_2)) (ChunkProtocol.startProcessing demo_count [demo_block1; demo_block2]) demo_count_end.
Proof. apply (rtc_subrel (ChunkProtocol.step (D := agg_chunk_data 2 Nat.lt_0_2))); [by left|]. apply ChunkProtocol.exec_rtc. exact fair_process_ok. Qed.

Lemma demo_count_done : ChunkProtocol.main demo_count_end = ChunkProtocol.MDone.
Proof. vm_compute. reflexivity. Qed.

(** What is read from a table all of whose strings are at their offsets. *)
Lemma read_groups {F : CudaAggregateFunction} {L : AggregateLaws F} d (c : chunk F) rs :
  chunk_conf c -> holds_rows d c rs -> (forall k b, contents (dev_mem d) (cuda_hash_table c) !! k = Some b -> exists r, k = r ++ [0]) ->
  (forall j, 0 <= j < ht_buckets_num (cuda_hash_table c) -> rd (table_lens (ht_tab (cuda_hash_table c))) j <> 0 -> readable (dev_mem d) c j) ->
  exists R, read_result (dev_mem d) c = inr R /\
    forall k, match R !! k with
      | Some p => rows_with (k ++ [0]) rs <> [] /\ agg_repr p (rows_with (k ++ [0]) rs)
      | None => rows_with (k ++ [0]) rs = []
      end.
Proof.
  intros Hc T Hz Hread. pose proof (hk_num _ _ (tr_ok _ _ _ _ T)) as Hn.
  destruct (read_buckets _ c (tr_ok _ _ _ _ T) (tr_places _ _ _ _ T) _ (Nat.le_refl _)) as (R & ER & HR).
  { intros j Hj Hl. apply Hread; [lia|done]. }
  exists R. split; [rewrite read_result_loop; [done|done|apply T]|].
  intros k. pose proof (table_groups _ _ _ _ (k ++ [0]) T) as Hk. destruct (R !! k) as [p|] eqn:Ek.
  - apply HR in Ek as (j & _ & Hj & Hpl). rewrite Hj, Nat2Z.id in Hk. destruct Hk as (Hne & q & Hq & Hrep). split; [done|].
    assert (p = q) as -> by congruence. done.
  - destruct (contents _ _ !! (k ++ [0])) as [b|] eqn:Eb; [|done]. exfalso. destruct Hk as (_ & q & Hq & _).
    pose proof Eb as [Hb _]%(contents_lookup _ _ (tr_ok _ _ _ _ T)).
    assert (R !! k = Some q) as Hs; [|congruence]. apply HR. exists (Z.to_nat b). split; [lia|]. split; [|done]. by rewrite Z2Nat.id by lia.
Qed.

(** The result that [waitProcessed] reads from a single chunk. *)
Lemma one_chunk_rows {F : CudaAggregateFunction} {L : AggregateLaws F} {B : BulkReturns F L} n str n_buf sz_buf d a (HN : (0 < 1)%nat) (g : agg F) blocks s :
  sizes_ok n str n_buf sz_buf -> mem_ok (dev_mem d) -> alloc_ok str sz_buf [a] -> construct n str n_buf sz_buf d [a] = inr g ->
  rtc (ChunkProtocol.any_step (D := agg_chunk_data 1 HN)) (ChunkProtocol.startProcessing g blocks) s -> ChunkProtocol.main s = ChunkProtocol.MDone ->
  exists rs R, rs ≡ₚ rows_of blocks /\
    waitProcessed_result [] (agg_dev (ChunkProtocol.data s)) (agg_chunks (ChunkProtocol.data s)) = Some (inr (inr R)) /\
    forall k, match R !! k with
      | Some p => rows_with (k ++ [0]) rs <> [] /\ agg_repr p (rows_with (k ++ [0]) rs)
      | None => rows_with (k ++ [0]) rs = []
      end.
Proof.
  intros Hsz Hd Al Eg Hr Hm. pose proof (construct_fresh n str n_buf sz_buf d [a] HN g Hsz Hd Al Eg) as Hf.
  destruct (joined_state 1 HN g blocks s Hf Hr Hm) as (Hg & Hc & Hp).
  destruct (agg_chunks (ChunkProtocol.data s)) as [|c [|]] eqn:E; pose proof (ag_num _ _ Hg) as En; rewrite E in En; try done.
  destruct (Hc 0%nat c eq_refl) as [T Ho]. cbn [seq map concat] in Hp. rewrite app_nil_r in Hp.
  assert (agg_chunks (ChunkProtocol.data s) !! 0%nat = Some c) as E0 by (by rewrite E). pose proof (fun k b => keys_end_zero _ _ _ k b T) as Hz.
  destruct (read_groups _ c _ (ck_conf _ _ _ (ag_chunks _ _ Hg 0%nat c E0)) T Hz) as (R & ER & HR).
  { intros j Hj Hl. apply bucket_string; [apply T|done..]. }
  exists (rows_of (agg_processed (ChunkProtocol.data s) 0)), R. split_and!; [done| |done].
  cbn [waitProcessed_result combine_chunks mbind option_bind]. by rewrite ER.
Qed.

(** The table of chunk 0 before and after the merges. *)
Lemma combined_state {F : CudaAggregateFunction} {L : AggregateLaws F} {B : BulkReturns F L} {ML : MergeLaws F L} N (HN : (0 < N)%nat) (g : agg F) blocks s c0 cs os d' c0' cs' :
  ChunkProtocol.fresh (D := agg_chunk_data N HN) g ->
  rtc (ChunkProtocol.any_step (D := agg_chunk_data N HN)) (ChunkProtocol.startProcessing g blocks) s -> ChunkProtocol.main s = ChunkProtocol.MDone ->
  agg_chunks (ChunkProtocol.data s) = c0 :: cs -> Forall2 copies os cs -> combine_chunks os (agg_dev (ChunkProtocol.data s)) c0 cs = Some (inr (d', c0', cs')) ->
  exists rs, rs ≡ₚ rows_of blocks /\ holds_rows d' c0' rs /\ chunk_conf c0' /\ ht_ok (dev_mem (agg_dev (ChunkProtocol.data s))) (cuda_hash_table c0) /\
    offsets_ok (cuda_hash_table c0) = true /\ table_kept (agg_dev (ChunkProtocol.data s)) (cuda_hash_table c0) d' (cuda_hash_table c0') /\
    forall k b, contents (dev_mem d') (cuda_hash_table c0') !! k = Some b -> exists r, k = r ++ [0].
Proof.
  intros Hf Hr Hm E Ho Ec. destruct (joined_rows _ HN g blocks s Hf Hr Hm) as (rss & H2 & Hp). destruct (joined_state _ HN g blocks s Hf Hr Hm) as (Hg & Hc & _).
  rewrite E in H2. inversion H2 as [|? rs0 ? rss' H0 H2']; subst. pose proof (chunks_mergeable _ HN _ c0 cs Hg E) as Hmg.
  assert (agg_chunks (ChunkProtocol.data s) !! 0%nat = Some c0) as E0 by (by rewrite E). destruct (Hc 0%nat c0 E0) as [T0 Ho0].
  destruct (combine_chunks_done os _ c0 cs d' c0' cs' rs0 rss' (ag_mem _ _ Hg) Hmg H0 H2' Ho Ec) as (T & Hs & Hk).
  exists (rs0 ++ concat rss'). split_and!; [done|done|eapply same_conf_ok; [exact Hs|apply (ag_chunks _ _ Hg 0%nat c0 E0)]|apply T0|done|done|].
  intros k b Hb. apply (key_row blocks). rewrite <- rows_of_keys, <- Hp. apply (tr_keys _ _ _ _ T). by eexists.
Qed.

(** A bucket in use has a key. *)
Lemma in_use_key m H j : ht_ok m H -> 0 <= j < ht_buckets_num H -> rd (table_lens (ht_tab H)) j <> 0 -> exists k, contents m H !! k = Some j.
Proof.
  intros Hok Hj Hl. destruct (proj2 (hk_tab _ _ Hok) j Hj) as [(_ & Hh & _) Hp]. eexists. apply (contents_lookup _ _ Hok). split; [done|].
  apply (table_ok_holds _ (table_args _)); [apply Hok|done|]. auto.
Qed.

(** The first bucket in use for which [P] does not hold. *)
Lemma first_bucket (H : hash_table) (P : Z -> Prop) `{!forall j, Decision (P j)} n :
  (forall j, 0 <= j < Z.of_nat n -> rd (table_lens (ht_tab H)) j <> 0 -> P j) \/
  exists i, (i < n)%nat /\ rd (table_lens (ht_tab H)) (Z.of_nat i) <> 0 /\ ~ P (Z.of_nat i) /\ forall j, 0 <= j < Z.of_nat i -> rd (table_lens (ht_tab H)) j <> 0 -> P j.
Proof.
  induction n as [|n [IH|(i & Hi & Hu & Hp & Hall)]]; [left; lia| |right; exists i; split_and!; auto; lia].
  destruct (decide (rd (table_lens (ht_tab H)) (Z.of_nat n) <> 0 /\ ~ P (Z.of_nat n))) as [[Hu Hp]|Hn]; [right; exists n; by split_and!; [lia|..]|].
  left. intros j Hj Hl. destruct (decide (j = Z.of_nat n)) as [->|]; [|apply IH; [lia|done]]. destruct (decide (P (Z.of_nat n))); [done|]. by exfalso; apply Hn.
Qed.

(** A key that came by the merges ends the reading. *)
Lemma unknown_key {F : CudaAggregateFunction} {L : AggregateLaws F} d d' (c c' : chunk F) rs k j :
  chunk_conf c' -> holds_rows d' c' rs -> ht_ok (dev_mem d) (cuda_hash_table c) -> offsets_ok (cuda_hash_table c) = true ->
  table_kept d (cuda_hash_table c) d' (cuda_hash_table c') -> (forall k b, contents (dev_mem d') (cuda_hash_table c') !! k = Some b -> exists r, k = r ++ [0]) ->
  0 < ht_str_buf (cuda_hash_table c) mod 2 ^ 32 -> ht_str_buf (cuda_hash_table c) mod 2 ^ 32 + ht_str_buf_max_sz (cuda_hash_table c) < 2 ^ 32 ->
  contents (dev_mem d') (cuda_hash_table c') !! k = Some j -> contents (dev_mem d) (cuda_hash_table c) !! k = None ->
  read_result (dev_mem d') c' = inl OutsideOfBuffer.
Proof.
  intros Hconf T Hok Hoff Hk Hz B1 B2 Hj Hnew. pose proof (tr_ok _ _ _ _ T) as Hok'. rewrite read_result_loop by done. pose proof (hk_num _ _ Hok') as Hn.
  pose proof Hj as [Hjr _]%(contents_lookup _ _ Hok'). destruct (new_outside _ _ _ _ _ _ Hok Hok' Hoff Hk B1 B2 Hj Hnew) as [Hlj _].
  set (P := fun b => rd (ptrs (ht_tab (cuda_hash_table c))) b <> 0). destruct (first_bucket (cuda_hash_table c') P (Z.to_nat (ht_buckets_num (cuda_hash_table c')))) as [Hall|(i & Hi & Hu & Hp & Hall)].
  - assert (P j) as Hpj by (apply Hall; [lia|done]). by rewrite (old_bucket _ _ _ _ _ _ Hok Hok' Hk Hj Hpj) in Hnew.
  - destruct (in_use_key _ _ (Z.of_nat i) Hok' ltac:(lia) Hu) as [ki Hki].
    assert (contents (dev_mem d) (cuda_hash_table c) !! ki = None) as Hni.
    { destruct (contents _ (cuda_hash_table c) !! ki) as [b|] eqn:Eb; [|done]. exfalso. pose proof (lookup_weaken _ _ _ _ Eb (proj2 (proj2 (proj2 (proj2 (proj2 (proj2 Hk))))))) as Hb'.
      assert (b = Z.of_nat i) as -> by congruence. apply Hp. by apply (contents_lookup _ _ Hok) in Eb as [_ (_ & _ & ? & _)]. }
    destruct (new_outside _ _ _ _ _ _ Hok Hok' Hoff Hk B1 B2 Hki Hni) as [_ Hout]. apply (read_outside _ c' Hok' (tr_places _ _ _ _ T) i); [done| |done|done].
    intros b Hb Hl. destruct (in_use_key _ _ b Hok' ltac:(lia) Hl) as [kb Hkb]. destruct (Hz kb b Hkb) as [r ->].
    apply (kept_readable d d' c c' b r Hok Hok' Hoff Hk). by apply (old_bucket _ _ _ _ _ _ Hok Hok' Hk Hkb), Hall.
Qed.

(** ** Properties *)

(** C12: The chunks hold the groups of all rows.  When [waitProcessed] has
    joined the workers, whatever the interleaving of the threads and of the
    kernels, the table of every chunk has exactly the keys of the rows that
    were given to this chunk, each bucket has the state of the values with its
    key, and the rows given to the chunks are, up to their order, those of the
    queued blocks. *)
Theorem chunks_hold_rows {F : CudaAggregateFunction} {L : AggregateLaws F} {B : BulkReturns F L} n str n_buf sz_buf d l (HN : (0 < length l)%nat) (g : agg F) blocks s :
  sizes_ok n str n_buf sz_buf -> mem_ok (dev_mem d) -> alloc_ok str sz_buf l -> construct n str n_buf sz_buf d l = inr g ->
  rtc (ChunkProtocol.any_step (D := agg_chunk_data (length l) HN)) (ChunkProtocol.startProcessing g blocks) s -> ChunkProtocol.main s = ChunkProtocol.MDone ->
  exists rss, concat rss ≡ₚ rows_of blocks /\
    Forall2 (fun c rs => forall k,
      match contents (dev_mem (agg_dev (ChunkProtocol.data s))) (cuda_hash_table c) !! k with
      | Some b => rows_with k rs <> [] /\ exists p, group_agg_res c !! Z.to_nat b = Some p /\ agg_repr p (rows_with k rs)
      | None => rows_with k rs = []
      end) (agg_chunks (ChunkProtocol.data s)) rss.
Proof.
  intros Hsz Hd Al Hg Hr Hm. pose proof (construct_fresh n str n_buf sz_buf d l HN g Hsz Hd Al Hg) as Hf. destruct (joined_rows _ HN g blocks s Hf Hr Hm) as (rss & H2 & Hp). exists rss. split; [done|].
  eapply Forall2_impl; [exact H2|]. intros c rs Hc k. by apply table_groups.
Qed.
(** C2: [count] counts the rows of every key.  With any number of chunks, when
    [waitProcessed] has joined the workers the merges of the chunks return, and
    if none of them finds the table of chunk 0 too small, that table has exactly
    the keys of the queued rows, and the state of the bucket of a key is the
    number, modulo 2^64, of the queued rows with this key. *)
Theorem count_combined n str n_buf sz_buf d l (HN : (0 < length l)%nat) (g : agg CudaAggregateFunctionCount) blocks s c0 cs :
  sizes_ok n str n_buf sz_buf -> mem_ok (dev_mem d) -> alloc_ok str sz_buf l -> construct n str n_buf sz_buf d l = inr g ->
  rtc (ChunkProtocol.any_step (D := agg_chunk_data (length l) HN)) (ChunkProtocol.startProcessing g blocks) s -> ChunkProtocol.main s = ChunkProtocol.MDone ->
  agg_chunks (ChunkProtocol.data s) = c0 :: cs ->
  (exists os r, Forall2 copies os cs /\ combine_chunks os (agg_dev (ChunkProtocol.data s)) c0 cs = Some r) /\
  forall os d' c0' cs', Forall2 copies os cs -> combine_chunks os (agg_dev (ChunkProtocol.data s)) c0 cs = Some (inr (d', c0', cs')) ->
    forall k, match contents (dev_mem d') (cuda_hash_table c0') !! k with
      | Some b => rows_with k (rows_of blocks) <> [] /\
          group_agg_res c0' !! Z.to_nat b = Some (u64 (Z.of_nat (length (rows_with k (rows_of blocks)))))
      | None => rows_with k (rows_of blocks) = []
      end.
Proof.
  intros Hsz Hd Al Hg Hr Hm E. pose proof (construct_fresh n str n_buf sz_buf d l HN g Hsz Hd Al Hg) as Hf.
  destruct (combined_rows _ HN g blocks s c0 cs Hf Hr Hm E) as [H1 H2]. split; [done|].
  intros os d' c0' cs' Ho Ec k. destruct (H2 os d' c0' cs' Ho Ec) as (rs & Hp & Hh). pose proof (table_groups _ _ _ _ k Hh) as Hk.
  apply (rows_with_perm k) in Hp. destruct (contents _ _ !! k) as [b|].
  - destruct Hk as (Hne & p & Hpl & Hrep). split; [intros En; rewrite En in Hp; by apply Permutation_nil_r in Hp|].
    refine (eq_trans Hpl _). rewrite <- Hp. f_equal. exact Hrep.
  - rewrite Hk in Hp. by apply Permutation_nil_l in Hp.
Qed.

(** C5: The result with one chunk.  The settings are such that the aggregator can
    work: the table is not larger than the buffer, neither in rows nor in bytes,
    and the sizes stay below 2^32 ([sizes_ok]).  Then, with a single chunk and
    for both aggregate functions, once the worker has been joined without an
    exception, so that no block was too large for the buffer and the table did
    not become full, the rest of [waitProcessed] returns without an exception and
    without reading outside of its buffers, and [agg_result] has exactly the keys
    of the queued rows, without their terminating zero, each with the aggregate
    state of the values of its rows. *)
Theorem one_chunk_result {F : CudaAggregateFunction} {L : AggregateLaws F} {B : BulkReturns F L} n str n_buf sz_buf d a (HN : (0 < 1)%nat) (g : agg F) blocks s :
  sizes_ok n str n_buf sz_buf -> mem_ok (dev_mem d) -> alloc_ok str sz_buf [a] -> construct n str n_buf sz_buf d [a] = inr g ->
  rtc (ChunkProtocol.any_step (D := agg_chunk_data 1 HN)) (ChunkProtocol.startProcessing g blocks) s -> ChunkProtocol.main s = ChunkProtocol.MDone ->
  exists rs R, rs ≡ₚ rows_of blocks /\
    waitProcessed_result [] (agg_dev (ChunkProtocol.data s)) (agg_chunks (ChunkProtocol.data s)) = Some (inr (inr R)) /\
    forall k, match R !! k with
      | Some p => rows_with (k ++ [0]) rs <> [] /\ agg_repr p (rows_with (k ++ [0]) rs)
      | None => rows_with (k ++ [0]) rs = []
      end.
Proof. apply one_chunk_rows. Qed.

(** ** Witnesses *)

Lemma chunks_hold_rows_witness :
  exists rss, concat rss ≡ₚ rows_of [demo_block1; demo_block2] /\
    Forall2 (fun c rs => forall k,
      match contents (dev_mem (agg_dev (ChunkProtocol.data demo_count_end))) (cuda_hash_table c) !! k with
      | Some b => rows_with k rs <> [] /\ exists p, group_agg_res c !! Z.to_nat b = Some p /\ agg_repr p (rows_with k rs)
      | None => rows_with k rs = []
      end) (agg_chunks (ChunkProtocol.data demo_count_end)) rss.
Proof.
  exact (chunks_hold_rows 4 64 4 64 demo_memory (map (demo_allocations CudaAggregateFunctionCount []) [0; 1]%nat) Nat.lt_0_2 demo_count
    [demo_block1; demo_block2] demo_count_end demo_sizes demo_memory_ok (demo_alloc_ok _ _) demo_count_constructed demo_count_run demo_count_done).
Defined.

Definition demo_chunk (i : nat) : chunk CudaAggregateFunctionCount :=
  default (Chunk StringsColumn.demo_column StringsColumn.demo_column demo_ht [] []) (agg_chunks (ChunkProtocol.data demo_count_end) !! i).

Lemma demo_chunks : agg_chunks (ChunkProtocol.data demo_count_end) = [demo_chunk 0; demo_chunk 1].
Proof.
  assert (length (agg_chunks (ChunkProtocol.data demo_count_end)) = 2%nat) as En by (vm_compute; reflexivity). unfold demo_chunk.
  revert En. generalize (agg_chunks (ChunkProtocol.data demo_count_end)). intros cs En. destruct cs as [|c [|c' [|]]]; done.
Qed.

Lemma demo_copies : Forall2 copies [demo_launches 256 4] [demo_chunk 1].
Proof.
  constructor; [|constructor]. unfold copies.
  assert (Z.to_nat (ht_buckets_num (cuda_hash_table (demo_chunk 1))) = 4%nat) as -> by (vm_compute; reflexivity). reflexivity.
Qed.

Lemma demo_combines :
  exists d' c0' cs', combine_chunks [demo_launches 256 4] (agg_dev (ChunkProtocol.data demo_count_end)) (demo_chunk 0) [demo_chunk 1] = Some (inr (d', c0', cs')).
Proof.
  assert (match combine_chunks [demo_launches 256 4] (agg_dev (ChunkProtocol.data demo_count_end)) (demo_chunk 0) [demo_chunk 1] with
    Some (inr _) => true | _ => false end = true) as H by (vm_compute; reflexivity).
  revert H. generalize (combine_chunks [demo_launches 256 4] (agg_dev (ChunkProtocol.data demo_count_end)) (demo_chunk 0) [demo_chunk 1]).
  intros r H. destruct r as [[e|[[d' c0'] cs']]|]; [done| |done]. by exists d', c0', cs'.
Qed.

Lemma count_combined_witness :
  u64 (Z.of_nat (length (rows_with [97; 0] (rows_of [demo_block1; demo_block2])))) = 3 /\
  exists d' c0' cs', combine_chunks [demo_launches 256 4] (agg_dev (ChunkProtocol.data demo_count_end)) (demo_chunk 0) [demo_chunk 1] = Some (inr (d', c0', cs')) /\
    match contents (dev_mem d') (cuda_hash_table c0') !! [97; 0] with
    | Some b => rows_with [97; 0] (rows_of [demo_block1; demo_block2]) <> [] /\
        group_agg_res c0' !! Z.to_nat b = Some (u64 (Z.of_nat (length (rows_with [97; 0] (rows_of [demo_block1; demo_block2])))))
    | None => rows_with [97; 0] (rows_of [demo_block1; demo_block2]) = []
    end.
Proof.
  split; [vm_compute; reflexivity|]. destruct demo_combines as (d' & c0' & cs' & E). exists d', c0', cs'. split; [exact E|].
  exact (proj2 (count_combined 4 64 4 64 demo_memory (map (demo_allocations CudaAggregateFunctionCount []) [0; 1]%nat) Nat.lt_0_2 demo_count
    [demo_block1; demo_block2] demo_count_end (demo_chunk 0) [demo_chunk 1] demo_sizes demo_memory_ok (demo_alloc_ok _ _) demo_count_constructed
    demo_count_run demo_count_done demo_chunks) [demo_launches 256 4] d' c0' cs' demo_copies E [97; 0]).
Defined.

(** One chunk, which gets both blocks. *)
Definition demo_one : agg CudaAggregateFunctionCount :=
  match construct 4 64 8 64 demo_memory [demo_allocations CudaAggregateFunctionCount [] 0] with
  | inr g => g
  | inl _ => Agg demo_memory [] (fun _ => false) (fun _ => []) (fun _ => [])
  end.

Definition demo_one_end : ChunkProtocol.sys (G := agg CudaAggregateFunctionCount) :=
  ChunkProtocol.exec (D := agg_chunk_data 1 Nat.lt_0_1) fair_process demo_turns
    (ChunkProtocol.startProcessing demo_one [demo_block1; demo_block2]).

Lemma demo_one_constructed : construct 4 64 8 64 demo_memory [demo_allocations CudaAggregateFunctionCount [] 0] = inr demo_one.
Proof. reflexivity. Qed.

Lemma demo_one_sizes : sizes_ok 4 64 8 64.
Proof. unfold sizes_ok. lia. Qed.

Lemma demo_one_alloc_ok : alloc_ok 64 64 [demo_allocations CudaAggregateFunctionCount [] 0].
Proof.
  destruct (demo_alloc_ok CudaAggregateFunctionCount []) as [A1 A2 A3 A4]. cbn [map] in *.
  split; [intros a Ha; apply A1|intros a Ha; apply A2|intros a Ha; apply A3|]; [apply list_elem_of_singleton in Ha as ->; by left..|].
  intros [|] [|] a b Hi Hj Hne; done.
Qed.

Lemma demo_one_run :
  rtc (ChunkProtocol.any_step (D := agg_chunk_data 1 Nat.lt_0_1)) (ChunkProtocol.startProcessing demo_one [demo_block1; demo_block2]) demo_one_end.
Proof. apply (rtc_subrel (ChunkProtocol.step (D := agg_chunk_data 1 Nat.lt_0_1))); [by left|]. apply ChunkProtocol.exec_rtc. exact fair_process_ok. Qed.

Lemma demo_one_done : ChunkProtocol.main demo_one_end = ChunkProtocol.MDone.
Proof. vm_compute. reflexivity. Qed.

Lemma one_chunk_result_witness :
  exists rs R, rs ≡ₚ rows_of [demo_block1; demo_block2] /\
    waitProcessed_result [] (agg_dev (ChunkProtocol.data demo_one_end)) (agg_chunks (ChunkProtocol.data demo_one_end)) = Some (inr (inr R)) /\
    forall k, match R !! k with
      | Some p => rows_with (k ++ [0]) rs <> [] /\ agg_repr p (rows_with (k ++ [0]) rs)
      | None => rows_with (k ++ [0]) rs = []
      end.
Proof.
  exact (one_chunk_result 4 64 8 64 demo_memory (demo_allocations CudaAggregateFunctionCount [] 0) Nat.lt_0_1 demo_one [demo_block1; demo_block2]
    demo_one_end demo_one_sizes demo_memory_ok demo_one_alloc_ok demo_one_constructed demo_one_run demo_one_done).
Defined.

(** ** Several chunks *)

(** C28: With several chunks the result depends on which chunk got which rows.
    Suppose that the settings are such that the aggregator can work ([sizes_ok]),
    that the workers have been joined without an exception, that the merges into
    the table of chunk 0 succeed, and that merging states of the function joins
    their values ([MergeLaws]), as with [count].  If chunk 0 had all keys of the
    queued rows before the merges, [agg_result] has exactly these keys, each with
    the aggregate state of the values of its rows.  If another chunk had a key
    that chunk 0 did not have, [waitProcessed] reads a key from outside of the
    buffer into which the strings were copied, since the offset of a string that
    came by a merge is never computed; this holds when the string buffer of
    chunk 0 neither begins at a multiple of 2^32 nor reaches the next one. *)
Theorem several_chunks_result {F : CudaAggregateFunction} {L : AggregateLaws F} {B : BulkReturns F L} {ML : MergeLaws F L}
    n str n_buf sz_buf d l (HN : (0 < length l)%nat) (g : agg F) blocks s c0 cs os d' c0' cs' :
  sizes_ok n str n_buf sz_buf -> mem_ok (dev_mem d) -> alloc_ok str sz_buf l -> construct n str n_buf sz_buf d l = inr g ->
  rtc (ChunkProtocol.any_step (D := agg_chunk_data (length l) HN)) (ChunkProtocol.startProcessing g blocks) s -> ChunkProtocol.main s = ChunkProtocol.MDone ->
  agg_chunks (ChunkProtocol.data s) = c0 :: cs -> Forall2 copies os cs -> combine_chunks os (agg_dev (ChunkProtocol.data s)) c0 cs = Some (inr (d', c0', cs')) ->
  let known k := is_Some (contents (dev_mem (agg_dev (ChunkProtocol.data s))) (cuda_hash_table c0) !! k) in
  let result := waitProcessed_result os (agg_dev (ChunkProtocol.data s)) (agg_chunks (ChunkProtocol.data s)) in
  ((forall k, k ∈ (rows_of blocks).*1 -> known k) ->
   exists rs R, rs ≡ₚ rows_of blocks /\ result = Some (inr (inr R)) /\
     forall k, match R !! k with
       | Some p => rows_with (k ++ [0]) rs <> [] /\ agg_repr p (rows_with (k ++ [0]) rs)
       | None => rows_with (k ++ [0]) rs = []
       end) /\
  ((exists k, k ∈ (rows_of blocks).*1 /\ ~ known k) ->
   0 < ht_str_buf (cuda_hash_table c0) mod 2 ^ 32 -> ht_str_buf (cuda_hash_table c0) mod 2 ^ 32 + ht_str_buf_max_sz (cuda_hash_table c0) < 2 ^ 32 ->
   result = Some (inr (inl OutsideOfBuffer))).
Proof.
  intros Hsz Hd Al Hg Hr Hm E Ho Ec known result. pose proof (construct_fresh n str n_buf sz_buf d l HN g Hsz Hd Al Hg) as Hf.
  destruct (combined_state _ HN g blocks s c0 cs os d' c0' cs' Hf Hr Hm E Ho Ec) as (rs & Hp & T & Hconf & Hok & Hoff & Hk & Hz).
  assert (result = Some (inr (read_result (dev_mem d') c0'))) as ->.
  { unfold result. rewrite E. cbn [waitProcessed_result]. rewrite Ec. done. }
  assert (forall k, is_Some (contents (dev_mem d') (cuda_hash_table c0') !! k) <-> k ∈ (rows_of blocks).*1) as Hkeys by (intros k; rewrite <- Hp; apply T).
  assert (forall j k, contents (dev_mem d') (cuda_hash_table c0') !! k = Some j -> known k -> readable (dev_mem d') c0' j) as Hread.
  { intros j k Hj [b Hb]. pose proof (lookup_weaken _ _ _ _ Hb (proj2 (proj2 (proj2 (proj2 (proj2 (proj2 Hk))))))) as Hb'. assert (b = j) as -> by congruence.
    destruct (Hz k j Hj) as [r ->]. by apply (kept_readable (agg_dev (ChunkProtocol.data s)) d' c0 c0' j r Hok (tr_ok _ _ _ _ T)). }
  split.
  - intros Hall. destruct (read_groups d' c0' rs Hconf T Hz) as (R & -> & HR); [|by exists rs, R].
    intros j Hj Hl. destruct (in_use_key _ _ j (tr_ok _ _ _ _ T) Hj Hl) as [k Hk']. apply (Hread j k Hk'), Hall, Hkeys. by eexists.
  - intros (k & Hin & Hnew) B1 B2. apply Hkeys in Hin as [j Hj]. f_equal. f_equal.
    apply (unknown_key (agg_dev (ChunkProtocol.data s)) d' c0 c0' rs k j); try done. by apply eq_None_not_Some.
Qed.

(** The key c was given to chunk 1 only. *)
Lemma several_chunks_result_witness :
  waitProcessed_result [demo_launches 256 4] (agg_dev (ChunkProtocol.data demo_count_end)) (agg_chunks (ChunkProtocol.data demo_count_end)) = Some (inr (inl OutsideOfBuffer)).
Proof.
  destruct demo_combines as (d' & c0' & cs' & Ec).
  apply (several_chunks_result 4 64 4 64 demo_memory (map (demo_allocations CudaAggregateFunctionCount []) [0; 1]%nat) Nat.lt_0_2 demo_count
    [demo_block1; demo_block2] demo_count_end (demo_chunk 0) [demo_chunk 1] [demo_launches 256 4] d' c0' cs'
    demo_sizes demo_memory_ok (demo_alloc_ok _ _) demo_count_constructed demo_count_run demo_count_done demo_chunks demo_copies Ec).
  - exists [99; 0]. split; [apply (bool_decide_unpack _); vm_compute; exact I|]. apply eq_None_not_Some. vm_compute. reflexivity.
  - apply Z.ltb_lt. vm_compute. reflexivity.
  - apply Z.ltb_lt. vm_compute. reflexivity.
Defined.
