(* ===== verification/IOMonad.v ===== *)
(** * Stateful code that throws

    The IO layer of the server (dbms/src/IO) is C++ code that changes buffer
    objects and throws exceptions.  It is translated into the monad [M S]:
    a computation takes the state of the objects it works on and yields an
    outcome and the state at that moment, also when it throws, since the
    callers go on using the objects after an exception.  Code that computes
    a new value and throws is in the monad [outcome].

    [RUNTIME_ERROR] stands for a std::runtime_error or std::logic_error and
    [NO_CODE] for a DB::Exception made without an error code.

    Five outcomes are not exceptions of the program.  [BUFFER_OVERRUN] marks a
    dereference outside a buffer and [NULL_POINTER] that of a null pointer,
    undefined in C++: a theorem that gives another outcome shows that it does
    not happen.  [ASSERTION_FAILED] is the end of the process by an assert,
    [TERMINATED] that by std::terminate.  [NO_FUEL] marks a loop that was cut
    off by the bound of the model. *)

From stdpp Require Import base list option numbers.
From Stdlib Require Import ZArith Lia.
From S2P Require Import Prelude.

#[local] Open Scope Z_scope.

(** The error codes that the modelled functions throw. *)
Inductive error :=
  | ATTEMPT_TO_READ_AFTER_EOF
  | CANNOT_READ_ALL_DATA
  | CANNOT_WRITE_AFTER_END_OF_BUFFER
  | CANNOT_READ_FROM_FILE_DESCRIPTOR
  | CANNOT_WRITE_TO_FILE_DESCRIPTOR
  | CANNOT_SEEK_THROUGH_FILE
  | ARGUMENT_OUT_OF_BOUND
  | CHECKSUM_DOESNT_MATCH
  | TOO_LARGE_SIZE_COMPRESSED
  | TOO_LARGE_STRING_SIZE
  | TOO_LARGE_ARRAY_SIZE
  | UNKNOWN_COMPRESSION_METHOD
  | CANNOT_COMPRESS
  | CANNOT_DECOMPRESS
  | CANNOT_PARSE_INPUT_ASSERTION_FAILED
  | CANNOT_PARSE_ESCAPE_SEQUENCE
  | CANNOT_PARSE_QUOTED_STRING
  | CANNOT_PARSE_NUMBER
  | CANNOT_PARSE_BOOL
  | CANNOT_PARSE_DATE
  | CANNOT_PARSE_DATETIME
  | CANNOT_PARSE_UUID
  | INCORRECT_DATA
  | PARAMETER_OUT_OF_BOUND
  | POSITION_OUT_OF_BOUND
  | SIZES_OF_COLUMNS_DOESNT_MATCH
  | NOT_FOUND_COLUMN_IN_BLOCK
  | CUDA_UNSUPPORTED_CASE
  | CUDA_UNSUPPORTED_AGGREGATE_FUNCTION
  | LOGICAL_ERROR
  | NULL_POINTER
  | BAD_CAST
  | UNKNOWN_TYPE
  | UNKNOWN_BLOCK_INFO_FIELD
  | NO_AVAILABLE_DATA
  | MEMORY_LIMIT_EXCEEDED
  | RUNTIME_ERROR
  | NO_CODE
  | BUFFER_OVERRUN
  | ASSERTION_FAILED
  | TERMINATED
  | NO_FUEL.

#[export] Instance error_eq_dec : EqDecision error.
Proof. solve_decision. Defined.

(** The stack is unwound. *)
Definition is_exception (e : error) : bool :=
  match e with
  | NULL_POINTER | BUFFER_OVERRUN | ASSERTION_FAILED | TERMINATED | NO_FUEL => false
  | _ => true
  end.

Inductive outcome (A : Type) :=
  | Returns (a : A)
  | Throws (e : error).
Arguments Returns {A} a.
Arguments Throws {A} e.

(** Code without state that throws. *)
#[export] Instance outcome_ret : MRet outcome := fun A a => Returns a.

#[export] Instance outcome_bind : MBind outcome := fun A B k m =>
  match m with
  | Returns a => k a
  | Throws e => Throws e
  end.

Definition M (S A : Type) : Type := S -> outcome A * S.

#[export] Instance M_ret S : MRet (M S) := fun A a s => (Returns a, s).

#[export] Instance M_bind S : MBind (M S) := fun A B k m s =>
  match m s with
  | (Returns a, s') => k a s'
  | (Throws e, s') => (Throws e, s')
  end.

Section Operations.
Context {S : Type}.

Definition throw {A} (e : error) : M S A := fun s => (Throws e, s).
Definition get {A} (f : S -> A) : M S A := fun s => (Returns (f s), s).
Definition modify (f : S -> S) : M S unit := fun s => (Returns tt, f s).

(** A function without state. *)
Definition lift {A} (r : outcome A) : M S A := fun s => (r, s).

(** The outcome of [m], with its exception as a value. *)
Definition try_catch {A} (m : M S A) (h : error -> M S A) : M S A := fun s =>
  match m s with
  | (Returns a, s') => (Returns a, s')
  | (Throws e, s') => h e s'
  end.

Lemma bind_ret {A B} (a : A) (k : A -> M S B) s : (mret a ≫= k) s = k a s.
Proof. reflexivity. Qed.

Lemma bind_returns {A B} (m : M S A) (k : A -> M S B) s a s' :
  m s = (Returns a, s') -> (m ≫= k) s = k a s'.
Proof. intros E. unfold mbind, M_bind. by rewrite E. Qed.

Lemma bind_throws {A B} (m : M S A) (k : A -> M S B) s e s' :
  m s = (Throws e, s') -> (m ≫= k) s = (Throws e, s').
Proof. intros E. unfold mbind, M_bind. by rewrite E. Qed.

Lemma bind_modify {B} f (k : unit -> M S B) s : (modify f ≫= k) s = k tt (f s).
Proof. reflexivity. Qed.

Lemma bind_get {A B} (f : S -> A) (k : A -> M S B) s : (get f ≫= k) s = k (f s) s.
Proof. reflexivity. Qed.

Lemma bind_lift {A B} (a : A) (k : A -> M S B) s : (lift (Returns a) ≫= k) s = k a s.
Proof. reflexivity. Qed.

Lemma bind_ext {A B} (m : M S A) (k h : A -> M S B) s : (forall a s', k a s' = h a s') -> (m ≫= k) s = (m ≫= h) s.
Proof. intros E. unfold mbind, M_bind. destruct (m s) as [[a|e] s']; [apply E|done]. Qed.

Lemma bind_assoc {A B C} (m : M S A) (k : A -> M S B) (h : B -> M S C) s :
  ((m ≫= k) ≫= h) s = (m ≫= (fun a => k a ≫= h)) s.
Proof. unfold mbind, M_bind. by destruct (m s) as [[a|e] s']. Qed.
End Operations.

(** Running a computation on a part of the state: a buffer that holds a
    reference to another one calls its methods. *)
Definition zoom {S T A} (g : S -> T) (put : T -> S -> S) (m : M T A) : M S A := fun s =>
  let r := m (g s) in (r.1, put r.2 s).
