(* ===== verification/ReadBuffers.v ===== *)
(** * Read buffers

    [BufferBase] and [ReadBuffer] of dbms/src/IO.  A buffer is a cursor in a
    working buffer, a range of a block of memory, and derived classes refill
    the working buffer through the virtual method [nextImpl].  The data of a
    stream arrives in portions of any size, and every function that parses a
    stream has to give the same result however the data is cut.

    The class [ReadBufferLaws] states what a derived class promises: the data
    it delivers, [tail], as one list, and that [next] moves a non-empty portion of
    it into the working buffer.  The relation [reads] states what a function
    does in terms of the data ahead of the cursor only; its rules are the
    symbolic execution of buffer code.  Files that model parsers prove their
    theorems with these rules, so that they hold for every derived class and
    for every way of cutting the data. *)

From stdpp Require Import base list option numbers.
From Stdlib Require Import ZArith Lia.
From S2P Require Import Prelude IOMonad.

#[local] Open Scope Z_scope.
#[local] Open Scope word_scope.

Create HintDb rbuf discriminated.

(** Pointers into the block [rb_mem] are indices. *)
Record rbuf (D : Type) := RBuf {
  rb_mem : list Z;
  rb_begin : nat;
  rb_end : nat;
  rb_pos : nat;
  rb_bytes : Z;
  working_buffer_offset : nat;
  rb_src : D }.
Arguments RBuf {D}.
Arguments rb_mem {D}.
Arguments rb_begin {D}.
Arguments rb_end {D}.
Arguments rb_pos {D}.
Arguments rb_bytes {D}.
Arguments working_buffer_offset {D}.
Arguments rb_src {D}.

Definition slice {A} (b e : nat) (l : list A) : list A := take (e - b) (drop b l).

Section Base.
Context {D : Type}.

Definition set_pos (p : nat) (b : rbuf D) : rbuf D :=
  RBuf (rb_mem b) (rb_begin b) (rb_end b) p (rb_bytes b) (working_buffer_offset b) (rb_src b).
Definition set_bytes (n : Z) (b : rbuf D) : rbuf D :=
  RBuf (rb_mem b) (rb_begin b) (rb_end b) (rb_pos b) n (working_buffer_offset b) (rb_src b).
Definition set_src (s : D) (b : rbuf D) : rbuf D :=
  RBuf (rb_mem b) (rb_begin b) (rb_end b) (rb_pos b) (rb_bytes b) (working_buffer_offset b) s.
Definition set_start (n : nat) (b : rbuf D) : rbuf D :=
  RBuf (rb_mem b) (rb_begin b) (rb_end b) (rb_pos b) (rb_bytes b) n (rb_src b).

(** [working_buffer = Buffer(begin, end)], in the block [m]. *)
Definition set_buffer (m : list Z) (bg en : nat) (b : rbuf D) : rbuf D :=
  RBuf m bg en (rb_pos b) (rb_bytes b) (working_buffer_offset b) (rb_src b).
Definition resize (n : nat) (b : rbuf D) : rbuf D :=
  set_buffer (rb_mem b) (rb_begin b) (rb_begin b + n) b.

Definition size (b : rbuf D) : nat := rb_end b - rb_begin b.
Definition offset (b : rbuf D) : nat := rb_pos b - rb_begin b.
Definition count (b : rbuf D) : Z := rb_bytes b +64 Z.of_nat (offset b).
Definition hasPendingData (b : rbuf D) : bool := negb (rb_pos b =? rb_end b)%nat.
Definition available (b : rbuf D) : nat := rb_end b - rb_pos b.

(** The bytes between the cursor and the end of the working buffer. *)
Definition pending (b : rbuf D) : list Z := slice (rb_pos b) (rb_end b) (rb_mem b).

(** [*position()] and [position() += n]. *)
Definition peek : M (rbuf D) Z := fun b =>
  match pending b with
  | x :: _ => (Returns x, b)
  | [] => (Throws BUFFER_OVERRUN, b)
  end.
Definition advance (n : nat) : M (rbuf D) unit := fun b =>
  if (n <=? available b)%nat then (Returns tt, set_pos (rb_pos b + n) b)
  else (Throws BUFFER_OVERRUN, b).

(** The position of the first byte with [stop], or the end. *)
Fixpoint find_first (stop : Z -> bool) (l : list Z) : nat :=
  match l with
  | [] => 0
  | x :: l => if stop x then 0 else S (find_first stop l)
  end.

(** The step that the string readers share: find the first stop symbol in the
    working buffer, append what precedes it, move the cursor to it. *)
Definition scan (stop : Z -> bool) : M (rbuf D) (list Z) :=
  n ← get (fun b => find_first stop (pending b));
  s ← get (fun b => take n (pending b));
  _ ← advance n;
  mret s.
End Base.

(** [ReadBuffer(ptr, size)] with the bytes of the block, and
    [ReadBuffer(ptr, size, offset)]. *)
Definition ReadBuffer_empty {D} (m : list Z) (s : D) : rbuf D := RBuf m 0 0 0 0 0 s.
Definition ReadBuffer_full {D} (m : list Z) (off : nat) (s : D) : rbuf D := RBuf m 0 (length m) off 0 0 s.

(** ** The operations of [ReadBuffer] over the virtual method *)

Class ReadBuffer (D : Type) := nextImpl : M (rbuf D) bool.

Section Operations.
Context {D : Type} `{ReadBuffer D}.

Definition next : M (rbuf D) bool :=
  _ ← modify (fun b => set_bytes (rb_bytes b +64 Z.of_nat (offset b)) b);
  res ← nextImpl;
  _ ← modify (fun b => if res : bool then b else resize 0 b);
  _ ← modify (fun b => set_pos (rb_begin b + working_buffer_offset b) b);
  _ ← modify (set_start 0);
  mret res.

Definition nextIfAtEnd : M (rbuf D) unit :=
  p ← get hasPendingData;
  if p : bool then mret tt else _ ← next; mret tt.

Definition eof : M (rbuf D) bool :=
  p ← get hasPendingData;
  if p : bool then mret false else r ← next; mret (negb r).

Definition ignore1 : M (rbuf D) unit :=
  e ← eof;
  if negb e then advance 1 else throw ATTEMPT_TO_READ_AFTER_EOF.

Fixpoint ignore_loop (fuel : nat) (n : nat) : M (rbuf D) nat :=
  match fuel with
  | 0%nat => throw NO_FUEL
  | S f =>
      if (n =? 0)%nat then mret n
      else
        e ← eof;
        if e : bool then mret n
        else
          k ← get (fun b => Nat.min (available b) n);
          _ ← advance k;
          ignore_loop f (n - k)
  end.

Definition ignore (n : nat) : M (rbuf D) unit :=
  r ← ignore_loop (S n) n;
  if (r =? 0)%nat then mret tt else throw ATTEMPT_TO_READ_AFTER_EOF.

Fixpoint tryIgnore_loop (fuel : nat) (n bytes_ignored : nat) : M (rbuf D) nat :=
  match fuel with
  | 0%nat => throw NO_FUEL
  | S f =>
      if (bytes_ignored <? n)%nat then
        e ← eof;
        if e : bool then mret bytes_ignored
        else
          k ← get (fun b => Nat.min (available b) (n - bytes_ignored));
          _ ← advance k;
          tryIgnore_loop f n (bytes_ignored + k)
      else mret bytes_ignored
  end.

Definition tryIgnore (n : nat) : M (rbuf D) nat := tryIgnore_loop (S n) n 0.

(** The destination is the list [to] of the bytes copied so far; its length is
    [bytes_copied]. *)
Fixpoint read_loop (fuel : nat) (n : nat) (to : list Z) : M (rbuf D) (list Z) :=
  match fuel with
  | 0%nat => throw NO_FUEL
  | S f =>
      if (length to <? n)%nat then
        e ← eof;
        if e : bool then mret to
        else
          k ← get (fun b => Nat.min (available b) (n - length to));
          s ← get (fun b => take k (pending b));
          _ ← advance k;
          read_loop f n (to ++ s)
      else mret to
  end.

Definition read (n : nat) : M (rbuf D) (list Z) := read_loop (S n) n [].

Definition readStrict (n : nat) : M (rbuf D) (list Z) :=
  s ← read n;
  if (n =? length s)%nat then mret s else throw CANNOT_READ_ALL_DATA.
End Operations.

(** ** What a derived class promises *)

Definition wf {D} (b : rbuf D) : Prop :=
  (rb_begin b <= rb_pos b <= rb_end b)%nat /\ (rb_end b <= length (rb_mem b))%nat.

(** [coming b] is the data that the derived class will put into the working
    buffer after the present one.  At the end of the working buffer [next]
    returns whether there is such data, moves a non-empty portion of it into
    the working buffer, and keeps [count()]. *)
Class ReadBufferLaws (D : Type) `{ReadBuffer D} := {
  src_ok : rbuf D -> Prop;
  coming : rbuf D -> list Z;
  src_move : forall b p, wf b -> src_ok b -> (rb_pos b <= p <= rb_end b)%nat ->
    src_ok (set_pos p b) /\ coming (set_pos p b) = coming b;
  src_next : forall b, wf b -> src_ok b -> rb_pos b = rb_end b ->
    exists b', next b = (Returns (bool_decide (coming b <> [])), b') /\
      wf b' /\ src_ok b' /\ pending b' ++ coming b' = coming b /\ rb_pos b' = rb_begin b' /\
      (coming b <> [] -> rb_pos b' < rb_end b')%nat /\ count b' = count b }.

Section Reads.
Context {D : Type} `{L : ReadBufferLaws D}.

(** The buffer [b] stands in front of the data [l]; [t] is its position in the
    stream counted from the end of the data, which no read changes. *)
Definition state (b : rbuf D) (l : list Z) (t : Z) : Prop :=
  wf b /\ src_ok b /\ pending b ++ coming b = l /\ count b +64 Z.of_nat (length l) = t.

(** [m] in front of the data [l] has the outcome [r] and stops in front of
    [l'].  In [reads_here] the working buffer is known not to be used up. *)
Definition reads {A} (m : M (rbuf D) A) (l : list Z) (r : outcome A) (l' : list Z) : Prop :=
  forall b t, state b l t -> exists b', m b = (r, b') /\ state b' l' t.
Definition reads_here {A} (m : M (rbuf D) A) (l : list Z) (r : outcome A) (l' : list Z) : Prop :=
  forall b t, state b l t -> (rb_pos b < rb_end b)%nat -> exists b', m b = (r, b') /\ state b' l' t.

Lemma state_intro (b : rbuf D) :
  wf b -> src_ok b -> state b (pending b ++ coming b) (count b +64 Z.of_nat (length (pending b ++ coming b))).
Proof. intros W Hs. by split_and!. Qed.

Lemma length_pending (b : rbuf D) : wf b -> length (pending b) = available b.
Proof. intros [? ?]. unfold pending, slice, available. rewrite length_take, length_drop. lia. Qed.

Lemma state_data (b : rbuf D) l t : state b l t -> coming b = drop (available b) l /\ pending b = take (available b) l.
Proof.
  intros (W & _ & <- & _). rewrite <- (length_pending b W). by rewrite drop_app_length, take_app_length.
Qed.

Lemma state_available (b : rbuf D) l t : state b l t -> (available b <= length l)%nat.
Proof. intros (W & _ & <- & _). rewrite length_app, (length_pending b W). lia. Qed.

Lemma pending_move (b : rbuf D) n : wf b -> (n <= available b)%nat -> pending (set_pos (rb_pos b + n) b) = drop n (pending b).
Proof.
  intros W Hn. unfold pending, slice, available in *. cbn.
  rewrite skipn_firstn_comm, drop_drop. f_equal; lia.
Qed.

Lemma state_advance (b : rbuf D) l t n :
  state b l t -> (n <= available b)%nat -> state (set_pos (rb_pos b + n) b) (drop n l) t.
Proof.
  intros St Hn. pose proof (state_available _ _ _ St) as Ha. pose proof St as (W & Hs & E & Ec). unfold state.
  assert (rb_pos b <= rb_pos b + n <= rb_end b)%nat as Hp by (destruct W; unfold available in Hn; lia).
  destruct (src_move b _ W Hs Hp) as [Hs' E'].
  split_and!; [destruct W; split; cbn; lia|done| |].
  - rewrite E', (pending_move b n W Hn), <- E. rewrite drop_app_le; [done|]. by rewrite (length_pending b W).
  - rewrite <- Ec. unfold count. rewrite !wrap_add_l. cbn. f_equal. rewrite length_drop.
    unfold offset. cbn. destruct W. lia.
Qed.

(** *** Rules *)

Lemma reads_ret {A} (a : A) l : reads (mret a) l (Returns a) l.
Proof. intros b t St. by exists b. Qed.

Lemma reads_throw {A} e l : reads (A := A) (throw e) l (Throws e) l.
Proof. intros b t St. by exists b. Qed.

Lemma reads_bind {A B} (m : M (rbuf D) A) (k : A -> M (rbuf D) B) l a l1 r l2 :
  reads m l (Returns a) l1 -> reads (k a) l1 r l2 -> reads (m ≫= k) l r l2.
Proof.
  intros H1 H2 b t St. destruct (H1 b t St) as (b1 & E1 & St1).
  destruct (H2 b1 t St1) as (b2 & E2 & St2). exists b2. by rewrite (bind_returns _ _ _ _ _ E1).
Qed.

Lemma reads_bind_throws {A B} (m : M (rbuf D) A) (k : A -> M (rbuf D) B) l e l1 :
  reads m l (Throws e) l1 -> reads (m ≫= k) l (Throws e) l1.
Proof.
  intros H1 b t St. destruct (H1 b t St) as (b1 & E1 & St1). exists b1. by rewrite (bind_throws _ _ _ _ _ E1).
Qed.

Lemma here_bind {A B} (m : M (rbuf D) A) (k : A -> M (rbuf D) B) l a l1 r l2 :
  reads_here m l (Returns a) l1 -> reads (k a) l1 r l2 -> reads_here (m ≫= k) l r l2.
Proof.
  intros H1 H2 b t St Hb. destruct (H1 b t St Hb) as (b1 & E1 & St1).
  destruct (H2 b1 t St1) as (b2 & E2 & St2). exists b2. by rewrite (bind_returns _ _ _ _ _ E1).
Qed.

Lemma reads_here_reads {A} (m : M (rbuf D) A) l r l' : reads m l r l' -> reads_here m l r l'.
Proof. intros Hm b t St _. by apply Hm. Qed.

Lemma reads_ret_bind {A B} (a : A) (k : A -> M (rbuf D) B) l r l' :
  reads (k a) l r l' -> reads (mret a ≫= k) l r l'.
Proof. intros Hk. exact Hk. Qed.

Lemma reads_assoc {A B C} (m : M (rbuf D) A) (k : A -> M (rbuf D) B) (h : B -> M (rbuf D) C) l r l' :
  reads (m ≫= (fun a => k a ≫= h)) l r l' -> reads ((m ≫= k) ≫= h) l r l'.
Proof. intros Hm b t St. rewrite bind_assoc. by apply Hm. Qed.

Lemma here_assoc {A B C} (m : M (rbuf D) A) (k : A -> M (rbuf D) B) (h : B -> M (rbuf D) C) l r l' :
  reads_here (m ≫= (fun a => k a ≫= h)) l r l' -> reads_here ((m ≫= k) ≫= h) l r l'.
Proof. intros Hm b t St Hb. rewrite bind_assoc. by apply Hm. Qed.

(** [eof]: at the end of the data it is true; otherwise it is false and the
    next byte is in the working buffer. *)
Lemma eof_spec (b : rbuf D) l t :
  state b l t -> exists b', eof b = (Returns (bool_decide (l = [])), b') /\ state b' l t /\
    (l <> [] -> rb_pos b' < rb_end b')%nat.
Proof.
  intros St. pose proof St as (W & Hs & E & Ec). unfold eof.
  rewrite (bind_returns _ _ _ (hasPendingData b) b) by done. unfold hasPendingData.
  destruct (Nat.eqb_spec (rb_pos b) (rb_end b)) as [E0|E0]; cbn [negb].
  - assert (pending b = []) as Ep by (unfold pending, slice; by rewrite E0, Nat.sub_diag).
    rewrite Ep in E. cbn in E.
    destruct (src_next b W Hs E0) as (b' & En & W' & Hs' & E' & _ & Hp & Ec').
    exists b'. rewrite (bind_returns _ _ _ _ _ En). unfold mret, M_ret. split_and!.
    + repeat f_equal. rewrite E. repeat case_bool_decide; subst; done.
    + split_and!; [done..|by rewrite E', E|by rewrite Ec', Ec].
    + by rewrite <- E.
  - exists b. assert (rb_pos b < rb_end b)%nat as Hlt by (destruct W; lia). split_and!; [|done|done].
    rewrite bool_decide_eq_false_2; [done|]. intros ->. pose proof (state_available _ _ _ St). unfold available in *. cbn in *. lia.
Qed.

Lemma reads_eof l : reads eof l (Returns (bool_decide (l = []))) l.
Proof. intros b t St. destruct (eof_spec b l t St) as (b' & E & St' & _). by exists b'. Qed.

Lemma reads_eof_nil {A} (k : bool -> M (rbuf D) A) r l' : reads (k true) [] r l' -> reads (eof ≫= k) [] r l'.
Proof. intros Hk. exact (reads_bind _ _ _ _ _ _ _ (reads_eof []) Hk). Qed.

Lemma reads_eof_cons {A} (k : bool -> M (rbuf D) A) x l r l' :
  reads_here (k false) (x :: l) r l' -> reads (eof ≫= k) (x :: l) r l'.
Proof.
  intros Hk b t St. destruct (eof_spec b _ t St) as (b1 & E1 & St1 & Hb1).
  destruct (Hk b1 t St1 (Hb1 ltac:(done))) as (b2 & E2 & St2). exists b2. by rewrite (bind_returns _ _ _ _ _ E1).
Qed.

Lemma here_peek {A} (k : Z -> M (rbuf D) A) x l r l' :
  reads_here (k x) (x :: l) r l' -> reads_here (peek ≫= k) (x :: l) r l'.
Proof.
  intros Hk b t St Hb. destruct (Hk b t St Hb) as (b2 & E2 & St2). exists b2. split; [|done].
  rewrite (bind_returns _ _ _ x b); [done|]. destruct (state_data _ _ _ St) as [_ Ep]. unfold peek. rewrite Ep.
  unfold available. by destruct (rb_end b - rb_pos b)%nat eqn:E; [lia|].
Qed.

Lemma here_advance {A} (k : unit -> M (rbuf D) A) x l r l' :
  reads (k tt) l r l' -> reads_here (advance 1 ≫= k) (x :: l) r l'.
Proof.
  intros Hk b t St Hb. assert (1 <= available b)%nat as H1 by (unfold available; lia).
  destruct (Hk _ t (state_advance b _ t 1 St H1)) as (b2 & E2 & St2). exists b2.
  rewrite (bind_returns _ _ _ tt (set_pos (rb_pos b + 1) b)); [done|]. unfold advance. by rewrite (proj2 (Nat.leb_le _ _) H1).
Qed.

Lemma here_advance_last x l : reads_here (advance 1) (x :: l) (Returns tt) l.
Proof.
  intros b t St Hb. assert (1 <= available b)%nat as H1 by (unfold available; lia).
  eexists. split; [|exact (state_advance b _ t 1 St H1)]. unfold advance. by rewrite (proj2 (Nat.leb_le _ _) H1).
Qed.

(** A portion of at most [n] bytes of the working buffer is copied out. *)
Lemma take_portion (b : rbuf D) l t n :
  state b l t -> (rb_pos b < rb_end b)%nat -> (0 < n)%nat ->
  let k := Nat.min (available b) n in
  (0 < k <= length l)%nat /\ take k (pending b) = take k l /\
  advance k b = (Returns tt, set_pos (rb_pos b + k) b) /\ state (set_pos (rb_pos b + k) b) (drop k l) t.
Proof.
  intros St Hb Hn k. pose proof (state_available _ _ _ St) as Ha. destruct (state_data _ _ _ St) as [_ Ep].
  assert (k <= available b)%nat as Hk by lia. split_and!; [unfold k, available in *; lia|unfold k, available in *; lia| | |].
  - rewrite Ep, take_take. f_equal. lia.
  - unfold advance. by rewrite (proj2 (Nat.leb_le _ _) Hk).
  - by apply state_advance.
Qed.
End Reads.

(** Symbolic execution: one rule per step, chosen by the shape of the program
    and of the data. *)
Ltac rstep :=
  lazymatch goal with
  | |- reads (mret _ ≫= _) _ _ _ => apply reads_ret_bind; cbn beta
  | |- reads ((_ ≫= _) ≫= _) _ _ _ => apply reads_assoc
  | |- reads_here ((_ ≫= _) ≫= _) _ _ _ => apply here_assoc
  | |- reads (eof ≫= _) [] _ _ => apply reads_eof_nil; cbn beta
  | |- reads (eof ≫= _) (_ :: _) _ _ => apply reads_eof_cons; cbn beta
  | |- reads_here (peek ≫= _) (_ :: _) _ _ => apply here_peek; cbn beta
  | |- reads_here (advance 1 ≫= _) (_ :: _) _ _ => apply here_advance; cbn beta
  | |- reads_here (advance 1) (_ :: _) _ _ => apply here_advance_last
  | |- reads (mret _) _ _ _ => apply reads_ret
  | |- reads (throw _) _ _ _ => apply reads_throw
  | |- reads_here (mret _) _ _ _ => apply reads_here_reads, reads_ret
  | |- reads_here (throw _) _ _ _ => apply reads_here_reads, reads_throw
  end.
Ltac rsteps := repeat (rstep; cbn [negb]).

Section OperationSpecs.
Context {D : Type} `{L : ReadBufferLaws D}.

Lemma reads_nextIfAtEnd l : reads nextIfAtEnd l (Returns tt) l.
Proof.
  intros b t St. destruct (eof_spec b l t St) as (b' & E & St' & _). exists b'. split; [|done].
  unfold nextIfAtEnd, eof, mbind, M_bind, get in *. destruct (hasPendingData b).
  - unfold mret, M_ret in *. by inversion E.
  - destruct (next b) as [[r|e] b1]; unfold mret, M_ret in *; by inversion E.
Qed.

Lemma reads_ignore1 x l : reads ignore1 (x :: l) (Returns tt) l.
Proof. unfold ignore1. rsteps. Qed.

Lemma reads_ignore1_eof : reads ignore1 [] (Throws ATTEMPT_TO_READ_AFTER_EOF) [].
Proof. unfold ignore1. rsteps. Qed.

Lemma reads_ignore_loop fuel n l :
  (n < fuel)%nat -> reads (ignore_loop fuel n) l (Returns (n - length l)%nat) (drop n l).
Proof.
  revert n l. induction fuel as [|fuel IH]; intros n l Hf; [lia|]. cbn [ignore_loop].
  destruct (Nat.eqb_spec n 0) as [->|Hn]; [rewrite drop_0; apply reads_ret|].
  destruct l as [|x l]; [rstep; rewrite drop_nil, Nat.sub_0_r; rstep|].
  rstep. intros b t St Hb. destruct (take_portion b _ t n St Hb ltac:(lia)) as (Hk & _ & Ea & St').
  set (k := Nat.min (available b) n) in *.
  destruct (IH (n - k)%nat (drop k (x :: l)) ltac:(lia) _ _ St') as (b' & E & St2). exists b'.
  rewrite (bind_returns _ _ _ k b) by done. rewrite (bind_returns _ _ _ _ _ Ea), E.
  rewrite length_drop in *. rewrite drop_drop in St2. split; [do 2 f_equal; lia|].
  by replace (k + (n - k))%nat with n in St2 by lia.
Qed.

Lemma reads_ignore n l :
  reads (ignore n) l (if (n <=? length l)%nat then Returns tt else Throws ATTEMPT_TO_READ_AFTER_EOF) (drop n l).
Proof.
  eapply reads_bind; [apply reads_ignore_loop; lia|].
  destruct (Nat.leb_spec n (length l)).
  - replace (n - length l)%nat with 0%nat by lia. apply reads_ret.
  - destruct (Nat.eqb_spec (n - length l) 0); [lia|]. apply reads_throw.
Qed.

Lemma reads_tryIgnore_loop fuel n i l :
  (n - i < fuel)%nat -> (i <= n)%nat ->
  reads (tryIgnore_loop fuel n i) l (Returns (i + Nat.min (n - i) (length l))%nat) (drop (n - i) l).
Proof.
  revert i l. induction fuel as [|fuel IH]; intros i l Hf Hi; [lia|]. cbn [tryIgnore_loop].
  destruct (Nat.ltb_spec i n) as [Hn|Hn]; [|replace (n - i)%nat with 0%nat by lia; cbn; rewrite drop_0, Nat.add_0_r; apply reads_ret].
  destruct l as [|x l]; [rstep; rewrite drop_nil, Nat.min_0_r, Nat.add_0_r; rstep|].
  rstep. intros b t St Hb. destruct (take_portion b _ t (n - i) St Hb ltac:(lia)) as (Hk & _ & Ea & St').
  set (k := Nat.min (available b) (n - i)) in *.
  destruct (IH (i + k)%nat (drop k (x :: l)) ltac:(lia) ltac:(lia) _ _ St') as (b' & E & St2). exists b'.
  rewrite (bind_returns _ _ _ k b) by done. rewrite (bind_returns _ _ _ _ _ Ea), E.
  rewrite length_drop in *. rewrite drop_drop in St2. split; [do 2 f_equal; lia|].
  by replace (k + (n - (i + k)))%nat with (n - i)%nat in St2 by lia.
Qed.

Lemma reads_tryIgnore n l : reads (tryIgnore n) l (Returns (Nat.min n (length l))) (drop n l).
Proof.
  pose proof (reads_tryIgnore_loop (S n) n 0 l ltac:(lia) ltac:(lia)) as Hr. by rewrite Nat.sub_0_r in Hr.
Qed.

Lemma reads_read_loop fuel n to l :
  (n - length to < fuel)%nat -> (length to <= n)%nat ->
  reads (read_loop fuel n to) l (Returns (to ++ take (n - length to) l)) (drop (n - length to) l).
Proof.
  revert to l. induction fuel as [|fuel IH]; intros to l Hf Hi; [lia|]. cbn [read_loop].
  destruct (Nat.ltb_spec (length to) n) as [Hn|Hn]; [|replace (n - length to)%nat with 0%nat by lia; rewrite drop_0; cbn; rewrite app_nil_r; apply reads_ret].
  destruct l as [|x l]; [rstep; rewrite drop_nil, take_nil, app_nil_r; rstep|].
  rstep. intros b t St Hb. destruct (take_portion b _ t (n - length to) St Hb ltac:(lia)) as (Hk & Et & Ea & St').
  set (k := Nat.min (available b) (n - length to)) in *.
  assert (length (take k (x :: l)) = k) as El by (rewrite length_take; lia).
  destruct (IH (to ++ take k (x :: l)) (drop k (x :: l)) ltac:(rewrite length_app, El; lia) ltac:(rewrite length_app, El; lia) _ _ St') as (b' & E & St2).
  exists b'. rewrite (bind_returns _ _ _ k b) by done. rewrite (bind_returns _ _ _ (take k (pending b)) b) by done.
  rewrite (bind_returns _ _ _ _ _ Ea), Et, E. rewrite length_app, El in *.
  rewrite drop_drop in St2. rewrite <- app_assoc. rewrite take_take_drop.
  by replace (k + (n - (length to + k)))%nat with (n - length to)%nat in * by lia.
Qed.

Lemma reads_read n l : reads (read n) l (Returns (take n l)) (drop n l).
Proof.
  pose proof (reads_read_loop (S n) n [] l ltac:(cbn; lia) ltac:(cbn; lia)) as Hr. cbn [length app] in Hr. by rewrite Nat.sub_0_r in Hr.
Qed.

Lemma reads_readStrict n l :
  reads (readStrict n) l (if (n <=? length l)%nat then Returns (take n l) else Throws CANNOT_READ_ALL_DATA) (drop n l).
Proof.
  eapply reads_bind; [apply reads_read|]. rewrite length_take.
  destruct (Nat.leb_spec n (length l)).
  - rewrite (proj2 (Nat.eqb_eq _ _)) by lia. apply reads_ret.
  - rewrite (proj2 (Nat.eqb_neq _ _)) by lia. apply reads_throw.
Qed.

(** The scanning step: it stops in front of a stop symbol or at the end of the
    working buffer, and in the second case it has consumed something. *)
Lemma find_first_split stop (l : list Z) :
  Forall (fun x => stop x = false) (take (find_first stop l) l) /\ (find_first stop l <= length l)%nat /\
  (forall x l', drop (find_first stop l) l = x :: l' -> stop x = true).
Proof.
  induction l as [|x l (H1 & H2 & H3)]; cbn; [split_and!; [constructor|lia|done]|].
  destruct (stop x) eqn:E; cbn; [split_and!; [constructor|lia|congruence]|].
  split_and!; [by constructor|lia|exact H3].
Qed.

Lemma scan_spec (b : rbuf D) l t stop :
  state b l t -> (rb_pos b < rb_end b)%nat ->
  exists pre post b', l = pre ++ post /\ Forall (fun x => stop x = false) pre /\
    scan stop b = (Returns pre, b') /\ state b' post t /\
    ((hasPendingData b' = false /\ pre <> []) \/
     (exists x post', post = x :: post' /\ stop x = true /\ (rb_pos b' < rb_end b')%nat)).
Proof.
  intros St Hb. pose proof St as (W & _). destruct (state_data _ _ _ St) as [Et Ep]. pose proof (length_pending b W) as El.
  destruct (find_first_split stop (pending b)) as (H1 & H2 & H3). set (n := find_first stop (pending b)) in *.
  rewrite El in H2. pose proof (state_advance b l t n St H2) as St'. pose proof (state_available _ _ _ St) as Ha.
  exists (take n l), (drop n l), (set_pos (rb_pos b + n) b).
  assert (take n (pending b) = take n l) as Etk by (rewrite Ep, take_take; f_equal; lia).
  split_and!; [by rewrite take_drop|by rewrite <- Etk| |done|].
  - unfold scan. rewrite (bind_returns _ _ _ n b) by done. rewrite (bind_returns _ _ _ (take n (pending b)) b) by done.
    rewrite (bind_returns _ _ _ tt (set_pos (rb_pos b + n) b)); [by rewrite Etk|].
    unfold advance. by rewrite (proj2 (Nat.leb_le _ _) H2).
  - destruct (decide (n = available b)) as [En|En]; unfold available in *.
    + left. split; [unfold hasPendingData; cbn; rewrite (proj2 (Nat.eqb_eq _ _)); [done|lia]|].
      intros E0. apply (f_equal length) in E0. rewrite length_take in E0. cbn in E0. lia.
    + right. destruct (drop n (pending b)) as [|x q] eqn:Ed.
      { apply (f_equal length) in Ed. rewrite length_drop, El in Ed. cbn in Ed. lia. }
      exists x, (q ++ coming b). split_and!; [|by apply (H3 x q)|cbn; lia].
      destruct St as (_ & _ & <- & _). rewrite drop_app_le by lia. by rewrite Ed.
Qed.
End OperationSpecs.
