(* ===== verification/BufferSources.v ===== *)
(** * Derived read buffers

    [ReadBufferFromMemory], [LimitReadBuffer] and [ConcatReadBuffer] of
    dbms/src/IO.  The last two have no memory of their own: their working
    buffer is a range of the block of the buffer they read from, and they
    exchange cursors with it.  Pointers are indices of that block, so that
    [in.position() = position()] is an assignment of indices. *)

From stdpp Require Import base list option numbers.
From Stdlib Require Import ZArith Lia.
From S2P Require Import Prelude IOMonad ReadBuffers.

#[local] Open Scope Z_scope.
#[local] Open Scope word_scope.

(** What [next] does after [nextImpl] has returned. *)
Definition refilled {D} (res : bool) (b : rbuf D) : rbuf D :=
  let b1 := if res then b else resize 0 b in
  set_start 0 (set_pos (rb_begin b1 + working_buffer_offset b1) b1).

Definition entered {D} (b : rbuf D) : rbuf D := set_bytes (rb_bytes b +64 Z.of_nat (offset b)) b.

Lemma next_returns {D} `{ReadBuffer D} (b : rbuf D) r b1 :
  nextImpl (entered b) = (Returns r, b1) -> next b = (Returns r, refilled r b1).
Proof.
  intros E. unfold next. rewrite (bind_returns _ _ _ tt (entered b)) by done.
  by rewrite (bind_returns _ _ _ _ _ E).
Qed.

(** Derived classes whose [next] depends on the source only, not on where the
    cursor was left. *)
Class CursorFree (D : Type) `{L : ReadBufferLaws D} := {
  any_coming : forall (b : rbuf D) p, coming (set_pos p b) = coming b;
  any_next : forall (b : rbuf D) p, src_ok b ->
    exists b', next (set_pos p b) = (Returns (bool_decide (coming b <> [])), b') /\
      wf b' /\ src_ok b' /\ pending b' ++ coming b' = coming b /\ rb_pos b' = rb_begin b' /\
      (coming b <> [] -> rb_pos b' < rb_end b')%nat }.

Lemma set_pos_same {D} (b : rbuf D) : set_pos (rb_pos b) b = b.
Proof. by destruct b. Qed.

(** ** Memory *)

Inductive from_memory := FromMemory.

#[export] Instance memory_nextImpl : ReadBuffer from_memory := mret false.

Definition ReadBufferFromMemory (data : list Z) : rbuf from_memory := ReadBuffer_full data 0 FromMemory.

Definition memory_ok (b : rbuf from_memory) : Prop :=
  (rb_begin b <= rb_end b <= length (rb_mem b))%nat /\ working_buffer_offset b = 0%nat.

Lemma memory_next (b : rbuf from_memory) :
  memory_ok b -> exists b', next b = (Returns false, b') /\ wf b' /\ memory_ok b' /\ pending b' = [] /\ rb_pos b' = rb_begin b' /\ count b' = count b.
Proof.
  intros [H1 H2]. exists (refilled false (entered b)). split; [by apply next_returns|].
  unfold memory_ok, refilled, entered, wf, pending, slice, count, offset. cbn. rewrite H2, !Nat.add_0_r, !Nat.sub_diag.
  split_and!; try done; try lia. rewrite Z.add_0_r, wrap_wrap by lia. done.
Qed.

#[export, refine] Instance memory_laws : ReadBufferLaws from_memory := {|
  src_ok := memory_ok; coming _ := [] |}.
Proof.
  - intros b p W Hs Hp. done.
  - intros b W Hs E. destruct (memory_next b Hs) as (b' & E1 & W' & Hs' & E2 & E3 & E4).
    exists b'. split_and!; try done. by rewrite E2.
Defined.

#[export, refine] Instance memory_any : CursorFree from_memory := {| any_next := _ |}.
Proof.
  - done.
  - intros b p Hs. destruct (memory_next (set_pos p b) Hs) as (b' & E1 & W' & Hs' & E2 & E3 & E4).
    exists b'. split_and!; try done. by rewrite E2.
Qed.

Lemma memory_state data : state (ReadBufferFromMemory data) data (u64 (Z.of_nat (length data))).
Proof.
  unfold state, wf, pending, slice, count, offset. cbn. unfold memory_ok. cbn.
  rewrite Nat.sub_0_r, firstn_all, app_nil_r. split_and!; try lia; done.
Qed.

(** ** [LimitReadBuffer] *)

Record limited (D : Type) := Limited { l_in : rbuf D; limit : Z }.
Arguments Limited {D}.
Arguments l_in {D}.
Arguments limit {D}.

Section Limit.
Context {D : Type} `{ReadBuffer D}.

Definition set_in (i : rbuf D) (b : rbuf (limited D)) : rbuf (limited D) := set_src (Limited i (limit (rb_src b))) b.
Definition in_buf (b : rbuf (limited D)) : rbuf D := l_in (rb_src b).

#[export] Instance limit_nextImpl : ReadBuffer (limited D) :=
  _ ← modify (fun b => set_in (set_pos (rb_pos b) (in_buf b)) b);
  stop ← get (fun b => limit (rb_src b) <=? rb_bytes b);
  if stop : bool then mret false
  else
    r ← zoom in_buf set_in next;
    if negb r then mret false
    else
      _ ← modify (fun b => set_buffer (rb_mem (in_buf b)) (rb_begin (in_buf b)) (rb_end (in_buf b)) b);
      _ ← modify (fun b =>
             let left := limit (rb_src b) - rb_bytes b in
             if left <? Z.of_nat (size b) then resize (Z.to_nat left) b else b);
      mret true.

Definition LimitReadBuffer (i : rbuf D) (n : Z) : rbuf (limited D) :=
  let remaining := if n <? Z.of_nat (available i) then Z.to_nat n else available i in
  RBuf (rb_mem i) (rb_pos i) (rb_pos i + remaining) (rb_pos i) 0 0 (Limited i n).

(** The destructor: the state it leaves the underlying buffer in. *)
Definition destroy (b : rbuf (limited D)) : rbuf D :=
  if (size b =? 0)%nat then in_buf b else set_pos (rb_pos b) (in_buf b).
End Limit.

Section LimitLaws.
Context {D : Type} `{C : CursorFree D}.

Definition limit_left (b : rbuf (limited D)) : Z := limit (rb_src b) - rb_bytes b - Z.of_nat (size b).

Definition limit_ok (b : rbuf (limited D)) : Prop :=
  working_buffer_offset b = 0%nat /\ (rb_begin b <= rb_end b)%nat /\ (exists p, src_ok (set_pos p (in_buf b))) /\
  0 <= rb_bytes b /\ 0 <= limit_left b /\ limit (rb_src b) < 2 ^ 64.

Definition limit_coming (b : rbuf (limited D)) : list Z := take (Z.to_nat (limit_left b)) (coming (in_buf b)).

Lemma limit_stops (b : rbuf (limited D)) :
  limit_ok b -> wf b -> rb_pos b = rb_end b -> limit_left b = 0 ->
  exists b', next b = (Returns false, b') /\ wf b' /\ limit_ok b' /\ pending b' = [] /\ limit_left b' = 0 /\ rb_pos b' = rb_begin b' /\ count b' = count b /\
    in_buf b' = set_pos (rb_pos b) (in_buf b) /\ rb_begin b' = rb_begin b /\ size b' = 0%nat.
Proof.
  intros (H1 & H2 & H3 & H4 & H5 & H6) [W1 W2] E El. unfold limit_left, size in *.
  assert (entered b = set_bytes (limit (rb_src b)) b) as Ee.
  { unfold entered, offset. f_equal. rewrite wrap_small; unfold fits; lia. }
  assert (nextImpl (entered b) = (Returns false, set_in (set_pos (rb_pos b) (in_buf b)) (entered b))) as En.
  { unfold nextImpl, limit_nextImpl. rewrite Ee, bind_modify, bind_get.
    cbn. by rewrite Z.leb_refl. }
  rewrite (next_returns b _ _ En), Ee. eexists. split; [done|].
  unfold wf, limit_ok, refilled, set_in, pending, slice, count, offset, limit_left, size, in_buf in *. cbn.
  rewrite H1, !Nat.add_0_r, !Nat.sub_diag.
  split_and!; try done; try lia. rewrite Z.add_0_r. f_equal. lia.
Qed.

Lemma limit_asks (b : rbuf (limited D)) n i r :
  working_buffer_offset b = 0%nat -> n < limit (rb_src b) -> wf i ->
  next (set_pos (rb_pos b) (in_buf b)) = (Returns r, i) ->
  exists b1, nextImpl (set_bytes n b) = (Returns r, b1) /\ rb_src b1 = Limited i (limit (rb_src b)) /\
    rb_bytes b1 = n /\ working_buffer_offset b1 = 0%nat /\
    (r = true -> rb_mem b1 = rb_mem i /\ rb_begin b1 = rb_begin i /\
      rb_end b1 = (rb_begin i + Nat.min (rb_end i - rb_begin i) (Z.to_nat (limit (rb_src b) - n)))%nat) /\
    (r = false -> rb_mem b1 = rb_mem b /\ rb_begin b1 = rb_begin b).
Proof.
  intros Hw Hn Wi Ei. unfold nextImpl, limit_nextImpl. rewrite bind_modify, bind_get.
  set (b0 := set_in _ _). replace (limit (rb_src b0) <=? rb_bytes b0) with false by (symmetry; apply Z.leb_gt; cbn; lia).
  rewrite (bind_returns _ _ _ r (set_in i b0)); [|unfold zoom; change (in_buf b0) with (set_pos (rb_pos b) (in_buf b)); by rewrite Ei].
  destruct r; cbn [negb].
  - eexists. split; [reflexivity|]. cbn. unfold size. cbn.
    destruct (Z.ltb_spec (limit (rb_src b) - n) (Z.of_nat (rb_end i - rb_begin i))); cbn; split_and!; try done;
      intros _; split_and!; try done; destruct Wi; lia.
  - eexists. split; [reflexivity|]. by cbn.
Qed.

Lemma limit_refill (b : rbuf (limited D)) :
  limit_ok b -> wf b -> rb_pos b = rb_end b -> 0 < limit_left b ->
  exists b', next b = (Returns (bool_decide (coming (in_buf b) <> [])), b') /\ wf b' /\ limit_ok b' /\
    pending b' ++ limit_coming b' = limit_coming b /\ (coming (in_buf b) <> [] -> rb_pos b' < rb_end b')%nat /\
    rb_pos b' = rb_begin b' /\ count b' = count b.
Proof.
  intros (H1 & H2 & (p0 & H3) & H4 & H5 & H6) [W1 W2] E El. unfold limit_coming. unfold limit_left, size in *.
  set (n := rb_bytes b + Z.of_nat (rb_end b - rb_begin b)).
  assert (entered b = set_bytes n b) as Ee.
  { unfold entered, offset. f_equal. rewrite wrap_small; unfold fits; lia. }
  destruct (any_next _ (rb_pos b) H3) as (i & Ei & Wi & Hi & Ec & Ep & Hp).
  rewrite any_coming in Ei, Ec, Hp. change (set_pos (rb_pos b) (set_pos p0 (in_buf b))) with (set_pos (rb_pos b) (in_buf b)) in Ei.
  set (r := bool_decide (coming (in_buf b) <> [])) in *.
  destruct (limit_asks b n i r H1 ltac:(lia) Wi Ei) as (b1 & En & Es & Eb & Ew & Ht & Hf). rewrite <- Ee in En.
  exists (refilled r b1). rewrite (next_returns b _ _ En). split; [done|].
  destruct r eqn:Er; unfold r in Er.
  - apply bool_decide_eq_true in Er. destruct (Ht eq_refl) as (M1 & M2 & M3). specialize (Hp Er). destruct Wi as [Wi1 Wi2].
    set (k := Nat.min (rb_end i - rb_begin i) (Z.to_nat (limit (rb_src b) - n))) in *.
    unfold wf, limit_ok, refilled, pending, slice, count, offset, limit_left, size, in_buf in *. cbn. rewrite Ew, !Nat.add_0_r, !Nat.sub_diag, Es, Eb, M1, M2, M3. cbn.
    split_and!; try done; try lia; [exists (rb_pos i); by rewrite set_pos_same| |f_equal; lia].
    replace (rb_begin i + k - rb_begin i)%nat with k by lia. rewrite <- Ec, Ep.
    replace (Z.to_nat (limit (rb_src b) - n - Z.of_nat k)) with (Z.to_nat (limit (rb_src b) - n) - k)%nat by lia.
    replace (Z.to_nat (limit (rb_src b) - rb_bytes b - Z.of_nat (rb_end b - rb_begin b))) with (Z.to_nat (limit (rb_src b) - n)) by lia.
    rewrite take_app, take_take, length_take, length_drop.
    destruct (Nat.le_gt_cases (rb_end i - rb_begin i) (Z.to_nat (limit (rb_src b) - n))).
    + do 2 f_equal; lia.
    + replace (Z.to_nat (limit (rb_src b) - n) - k)%nat with 0%nat by lia. rewrite take_0, app_nil_r.
      replace (Z.to_nat (limit (rb_src b) - n) - Nat.min (rb_end i - rb_begin i) (length (rb_mem i) - rb_begin i))%nat with 0%nat by lia.
      rewrite take_0, app_nil_r. f_equal. lia.
  - apply bool_decide_eq_false in Er. destruct (Hf eq_refl) as (M1 & M2).
    assert (coming (in_buf b) = []) as E0 by (destruct (coming (in_buf b)); [done|by destruct Er]).
    rewrite E0 in *. apply app_nil in Ec as [_ Ec].
    unfold wf, limit_ok, refilled, pending, slice, count, offset, limit_left, size, in_buf in *. cbn. rewrite Ew, !Nat.add_0_r, !Nat.sub_diag, Es, Eb. cbn. rewrite Ec, !take_nil.
    split_and!; try done; try lia; rewrite ?M1, ?M2; try lia; [|f_equal; lia].
    exists (rb_pos i). by rewrite set_pos_same.
Qed.

#[export, refine] Instance limit_laws : ReadBufferLaws (limited D) := {|
  src_ok := limit_ok; coming := limit_coming |}.
Proof.
  - intros b p W Hs Hp. done.
  - intros b W Hs E. destruct (Z.eq_dec (limit_left b) 0) as [E0|E0].
    + destruct (limit_stops b Hs W E E0) as (b' & En & W' & Hs' & Ep & El & Eb & Ec & _). exists b'.
      assert (limit_coming b = []) as -> by (unfold limit_coming; by rewrite E0).
      assert (limit_coming b' = []) as -> by (unfold limit_coming; by rewrite El). rewrite Ep.
      by split_and!.
    + destruct (limit_refill b Hs W E) as (b' & En & W' & Hs' & Ed & Hp & Eb & Ec); [destruct Hs; lia|]. exists b'.
      assert (limit_coming b <> [] <-> coming (in_buf b) <> []) as Hc.
      { unfold limit_coming. split; intros Hn; contradict Hn; [by rewrite Hn, take_nil|].
        destruct (coming (in_buf b)); [done|]. destruct (Z.to_nat (limit_left b)) eqn:E1; [destruct Hs as (_ & _ & _ & _ & ? & _); lia|done]. }
      split_and!; try done.
      * rewrite En. do 2 f_equal. by apply bool_decide_ext.
      * by rewrite Hc.
Defined.

(** The constructor puts the buffer in front of the first [n] bytes. *)
Lemma limit_state (i : rbuf D) l t n :
  state i l t -> 0 <= n < 2 ^ 64 ->
  state (LimitReadBuffer i n) (take (Z.to_nat n) l) (u64 (Z.of_nat (length (take (Z.to_nat n) l)))).
Proof.
  intros St Hn. pose proof St as ([W1 W2] & Hs & E & Ec). pose proof (state_available _ _ _ St) as Ha.
  unfold state, wf. cbn [coming src_ok limit_laws]. unfold limit_ok, limit_coming, limit_left, LimitReadBuffer, size, pending, slice, count, offset, in_buf. cbn.
  unfold available, pending, slice in *.
  set (a := if n <? _ then _ else _). assert (a = Nat.min (rb_end i - rb_pos i) (Z.to_nat n)) as Ea.
  { unfold a. destruct (Z.ltb_spec n (Z.of_nat (rb_end i - rb_pos i))); lia. }
  clearbody a. subst a. rewrite Nat.sub_diag. change (Z.of_nat 0) with 0.
  split_and!; try done; try lia; [exists (rb_pos i); by rewrite set_pos_same|].
  rewrite <- E, take_app, take_take, length_take, length_drop.
  replace (rb_pos i + Nat.min (rb_end i - rb_pos i) (Z.to_nat n) - rb_pos i)%nat with (Nat.min (rb_end i - rb_pos i) (Z.to_nat n)) by lia.
  f_equal; [|f_equal]; f_equal; lia.
Qed.

Lemma limit_eof (b : rbuf (limited D)) :
  limit_ok b -> wf b -> rb_pos b = rb_end b -> limit_left b = 0 ->
  exists b', eof b = (Returns true, b') /\ limit_ok b' /\ wf b' /\ rb_pos b' = rb_end b' /\ limit_left b' = 0 /\
    destroy b' = set_pos (rb_pos b) (in_buf b) /\ rb_begin b' = rb_begin b /\ rb_pos b' = rb_begin b.
Proof.
  intros Hs W E El. destruct (limit_stops b Hs W E El) as (b' & En & W' & Hs' & Ep & El' & Eb & Ec & Ei & Eb' & Ez).
  exists b'. unfold eof. rewrite bind_get. unfold hasPendingData. rewrite (proj2 (Nat.eqb_eq _ _) E). cbn [negb].
  rewrite (bind_returns _ _ _ _ _ En). unfold destroy. rewrite Ez, Ei. cbn [Nat.eqb].
  split_and!; try done; [|congruence]. destruct W' as [? _]. unfold size in Ez. lia.
Qed.
End LimitLaws.

(** Asking a [LimitReadBuffer] for the end twice rewinds the buffer below it.
    When the limit has been reached, the first [eof()] leaves the underlying
    buffer behind the last byte read; the second one moves it back to where
    the working buffer began, and data is read again. *)
Theorem limit_second_eof_rewinds {D} `{C : CursorFree D} (b : rbuf (limited D)) :
  limit_ok b -> wf b -> rb_pos b = rb_end b -> limit_left b = 0 ->
  exists b1 b2, eof b = (Returns true, b1) /\ destroy b1 = set_pos (rb_end b) (in_buf b) /\
    eof b1 = (Returns true, b2) /\ rb_pos (destroy b2) = rb_begin b.
Proof.
  intros Hs W E El. destruct (limit_eof b Hs W E El) as (b1 & E1 & Hs1 & W1 & Ep1 & El1 & Ed1 & Eb1 & Ec1).
  destruct (limit_eof b1 Hs1 W1 Ep1 El1) as (b2 & E2 & _ & _ & _ & _ & Ed2 & _ & _).
  exists b1, b2. rewrite Ed1, Ed2, E. by split_and!.
Qed.

(** Five bytes limited to two, which have been read. *)
Definition demo_limit : rbuf (limited from_memory) := (read 2 (LimitReadBuffer (ReadBufferFromMemory [1; 2; 3; 4; 5]) 2)).2.

Lemma limit_second_eof_rewinds_witness :
  exists b1 b2, eof demo_limit = (Returns true, b1) /\ pending (destroy b1) = [3; 4; 5] /\
    eof b1 = (Returns true, b2) /\ pending (destroy b2) = [1; 2; 3; 4; 5].
Proof.
  destruct (limit_second_eof_rewinds demo_limit) as (b1 & b2 & E1 & D1 & E2 & D2).
  - unfold limit_ok. cbn. unfold memory_ok. cbn. split_and!; try done; try lia; try (vm_compute; lia).
    exists 0%nat. split; vm_compute; [lia|done].
  - split; vm_compute; lia.
  - reflexivity.
  - reflexivity.
  - exists b1, b2. rewrite D1. split_and!; try done.
    injection E1 as <-. injection E2 as <-. reflexivity.
Defined.


(** ** [ConcatReadBuffer] *)

(** The vector [buffers] with the iterator [current], which points to the first
    buffer of [c_left]. *)
Record concatenated (D : Type) := Concatenated { c_passed : list (rbuf D); c_left : list (rbuf D) }.
Arguments Concatenated {D}.
Arguments c_passed {D}.
Arguments c_left {D}.

Section Concat.
Context {D : Type} `{ReadBuffer D}.

(** The loop over ended buffers: [++current], and leave when it is the end. *)
Fixpoint skip_ended (passed left : list (rbuf D)) : outcome bool * concatenated D :=
  match left with
  | [] => (Returns false, Concatenated passed [])
  | i :: left' =>
      match eof i with
      | (Returns true, i') => skip_ended (passed ++ [i']) left'
      | (Returns false, i') => (Returns true, Concatenated passed (i' :: left'))
      | (Throws e, i') => (Throws e, Concatenated passed (i' :: left'))
      end
  end.

(** [working_buffer = Buffer(current->position(), current->buffer().end())] *)
Definition use_current (b : rbuf (concatenated D)) : rbuf (concatenated D) :=
  match c_left (rb_src b) with
  | [] => b
  | i :: _ => set_buffer (rb_mem i) (rb_pos i) (rb_end i) b
  end.

#[export] Instance concat_nextImpl : ReadBuffer (concatenated D) := fun b =>
  match c_left (rb_src b) with
  | [] => (Returns false, b)
  | i :: left' =>
      if (size b =? 0)%nat && hasPendingData i then (Returns true, use_current b)
      else
        match next i with
        | (Throws e, i') => (Throws e, set_src (Concatenated (c_passed (rb_src b)) (i' :: left')) b)
        | (Returns true, i') => (Returns true, use_current (set_src (Concatenated (c_passed (rb_src b)) (i' :: left')) b))
        | (Returns false, i') =>
            match skip_ended (c_passed (rb_src b) ++ [i']) left' with
            | (Returns true, c) => (Returns true, use_current (set_src c b))
            | (r, c) => (r, set_src c b)
            end
        end
  end.

Definition ConcatReadBuffer (buffers : list (rbuf D)) : rbuf (concatenated D) :=
  RBuf [] 0 0 0 0 0 (Concatenated [] buffers).
End Concat.

Section ConcatLaws.
Context {D : Type} `{C : CursorFree D}.

(** The data of the buffers from the current one on; the working buffer of the
    current one is ours as soon as ours is not empty. *)
Definition buffer_data (i : rbuf D) : list Z := pending i ++ coming i.

Definition concat_coming (b : rbuf (concatenated D)) : list Z :=
  match c_left (rb_src b) with
  | [] => []
  | i :: left' => (if (size b =? 0)%nat then pending i else []) ++ coming i ++ concat (map buffer_data left')
  end.

Definition concat_ok (b : rbuf (concatenated D)) : Prop :=
  working_buffer_offset b = 0%nat /\ Forall (fun i => wf i /\ src_ok i) (c_left (rb_src b)).

Lemma skip_ended_spec passed left :
  Forall (fun i : rbuf D => wf i /\ src_ok i) left ->
  exists c, skip_ended passed left = (Returns (bool_decide (concat (map buffer_data left) <> [])), c) /\
    Forall (fun i => wf i /\ src_ok i) (c_left c) /\ concat (map buffer_data (c_left c)) = concat (map buffer_data left) /\
    (concat (map buffer_data left) = [] -> c_left c = []) /\
    (concat (map buffer_data left) <> [] -> exists i l, c_left c = i :: l /\ (rb_pos i < rb_end i)%nat).
Proof.
  intros Hl. revert passed. induction left as [|i left IH]; intros passed.
  { exists (Concatenated passed []). cbn. by split_and!. }
  apply list.Forall_cons in Hl as [[Wi Hi] Hl]. cbn [skip_ended map concat].
  destruct (eof_spec i (buffer_data i) _ (state_intro i Wi Hi)) as (i' & E & (Wi' & Hi' & Ed & _) & Hp).
  rewrite E. destruct (buffer_data i) as [|x q] eqn:Eq.
  - rewrite bool_decide_eq_true_2 by done. destruct (IH Hl (passed ++ [i'])) as (c & Ec & Hc). exists c. by rewrite Ec.
  - rewrite bool_decide_eq_false_2 by done. eexists. split; [rewrite bool_decide_eq_true_2 by done; reflexivity|]. cbn.
    split_and!; [by constructor|unfold buffer_data at 1; by rewrite Ed|done|]. intros _. do 2 eexists. split; [done|]. by apply Hp.
Qed.

Lemma use_current_spec (b : rbuf (concatenated D)) i left' :
  concat_ok b -> c_left (rb_src b) = i :: left' -> (rb_pos i < rb_end i)%nat ->
  let b' := refilled true (use_current b) in
  wf b' /\ concat_ok b' /\ pending b' = pending i /\ concat_coming b' = coming i ++ concat (map buffer_data left') /\
  rb_pos b' = rb_begin b' /\ (rb_pos b' < rb_end b')%nat /\ count b' = wrap 64 (rb_bytes b).
Proof.
  intros [Hw Hc] E Hp. rewrite E in Hc. pose proof (proj1 (proj1 (list.Forall_cons _ _ _) Hc)) as [[W1 W2] Hi].
  unfold use_current. rewrite E. unfold concat_ok, refilled, concat_coming, wf, pending, slice, count, offset, size. cbn.
  rewrite Hw, E, Nat.add_0_r, Nat.sub_diag, Z.add_0_r. cbn.
  rewrite (proj2 (Nat.eqb_neq (rb_end i - rb_pos i) 0)) by lia. split_and!; try done; lia.
Qed.

(** What [next] promises. *)
Definition concat_goal (b : rbuf (concatenated D)) : Prop :=
  exists b', next b = (Returns (bool_decide (concat_coming b <> [])), b') /\
    wf b' /\ concat_ok b' /\ pending b' ++ concat_coming b' = concat_coming b /\ rb_pos b' = rb_begin b' /\
    (concat_coming b <> [] -> rb_pos b' < rb_end b')%nat /\ count b' = count b.

(** [nextImpl] returns false: there is no data. *)
Lemma concat_stop (b : rbuf (concatenated D)) c :
  wf b -> concat_ok b -> c_left c = [] -> concat_coming b = [] ->
  nextImpl (entered b) = (Returns false, set_src c (entered b)) -> concat_goal b.
Proof.
  intros [W1 W2] [Hw _] Ec E0 En. exists (refilled false (set_src c (entered b))). rewrite E0.
  split; [exact (next_returns _ _ _ En)|]. clear En.
  unfold concat_ok, refilled, concat_coming, wf, pending, slice, count, entered, offset, size in *. cbn in *.
  rewrite Hw, !Nat.add_0_r, !Nat.sub_diag, Ec. rewrite Z.add_0_r, wrap_wrap by lia.
  split_and!; try done; lia.
Qed.

(** [nextImpl] returns true: the current buffer has data. *)
Lemma concat_use (b : rbuf (concatenated D)) c i left' :
  concat_ok (set_src c b) -> c_left c = i :: left' -> (rb_pos i < rb_end i)%nat ->
  concat_coming b = concat (map buffer_data (i :: left')) ->
  nextImpl (entered b) = (Returns true, use_current (set_src c (entered b))) -> concat_goal b.
Proof.
  intros Hok Ec Hp E0 En.
  destruct (use_current_spec (set_src c (entered b)) i left' Hok Ec Hp) as (S1 & S2 & S3 & S4 & S5 & S6 & S7).
  assert (pending i <> []) as Hne.
  { intros Ep. destruct Hok as [_ Hc]. cbn in Hc. rewrite Ec in Hc. apply list.Forall_cons in Hc as [[Wi _] _].
    apply (f_equal length) in Ep. rewrite (length_pending i Wi) in Ep. unfold available in Ep. cbn in Ep. lia. }
  exists (refilled true (use_current (set_src c (entered b)))). rewrite E0, S3, S4, S7.
  rewrite bool_decide_eq_true_2; [|cbn; unfold buffer_data; by destruct (pending i)].
  split_and!; try done; [exact (next_returns _ _ _ En)|cbn; unfold buffer_data at 2; by rewrite app_assoc|].
  unfold entered, count. cbn. by rewrite wrap_wrap by lia.
Qed.

(** The branch in which the current buffer is asked for its next portion. *)
Lemma concat_advance (b : rbuf (concatenated D)) i left' :
  wf b -> concat_ok b -> c_left (rb_src b) = i :: left' -> (size b =? 0)%nat && hasPendingData i = false ->
  concat_coming b = coming i ++ concat (map buffer_data left') -> concat_goal b.
Proof.
  intros W [Hw Hc] El Efirst Ecom. rewrite El in Hc. pose proof (proj1 (list.Forall_cons _ _ _) Hc) as [[Wi Hi] Hleft].
  destruct (any_next i (rb_pos i) Hi) as (i' & En & Wi' & Hi' & Ed & Eb & Hp).
  rewrite set_pos_same in En.
  assert (nextImpl (entered b) = nextImpl (entered b)) as Hn by done. unfold nextImpl at 2, concat_nextImpl in Hn.
  change (rb_src (entered b)) with (rb_src b) in Hn. change (size (entered b)) with (size b) in Hn. rewrite El, Efirst, En in Hn.
  destruct (coming i) as [|x q] eqn:Ex.
  - rewrite bool_decide_eq_false_2 in Hn by (intros Hx; by apply Hx). cbn [app] in Ecom.
    destruct (skip_ended_spec (c_passed (rb_src b) ++ [i']) left' Hleft) as (c & Esk & Hc1 & Hc2 & Hc3 & Hc4). rewrite Esk in Hn.
    destruct (decide (concat (map buffer_data left') = [])) as [Ez|Ez].
    + rewrite bool_decide_eq_false_2 in Hn by (intros Hx; by apply Hx).
      apply (concat_stop b c); [done|by split; [|rewrite El]|by apply Hc3|by rewrite Ecom|done].
    + rewrite bool_decide_eq_true_2 in Hn by done. destruct (Hc4 Ez) as (j & l & Ej & Hj).
      apply (concat_use b c j l); [by split|done..|by rewrite Ecom, <- Hc2, Ej|done].
  - rewrite bool_decide_eq_true_2 in Hn by done.
    apply (concat_use b (Concatenated (c_passed (rb_src b)) (i' :: left')) i' left');
      [split; [done|by constructor]|done|by apply Hp| |done].
    rewrite Ecom. cbn. unfold buffer_data at 2. by rewrite Ed.
Qed.

Lemma concat_next (b : rbuf (concatenated D)) : wf b -> concat_ok b -> rb_pos b = rb_end b -> concat_goal b.
Proof.
  intros W Hok _. pose proof Hok as [Hw Hc]. destruct (c_left (rb_src b)) as [|i left'] eqn:El.
  { apply (concat_stop b (rb_src b)); [done..|unfold concat_coming; by rewrite El|].
    unfold nextImpl, concat_nextImpl. cbn. by rewrite El. }
  destruct ((size b =? 0)%nat && hasPendingData i) eqn:Efirst.
  - pose proof Efirst as [Es Ep]%andb_true_iff.
    assert (rb_pos i < rb_end i)%nat as Hp.
    { unfold hasPendingData in Ep. destruct (Nat.eqb_spec (rb_pos i) (rb_end i)); [done|].
      apply list.Forall_cons in Hc as [[[? _] _] _]. lia. }
    apply (concat_use b (rb_src b) i left'); [by split; [|cbn; rewrite El]|done..| |].
    + unfold concat_coming. rewrite El, Es. cbn. unfold buffer_data at 2. by rewrite app_assoc.
    + unfold nextImpl, concat_nextImpl. change (rb_src (entered b)) with (rb_src b). change (size (entered b)) with (size b).
      by rewrite El, Efirst.
  - apply (concat_advance b i left'); [done..|]. unfold concat_coming. rewrite El.
    destruct (size b =? 0)%nat; [|done]. cbn in Efirst. unfold hasPendingData in Efirst.
    destruct (Nat.eqb_spec (rb_pos i) (rb_end i)) as [Ei|]; [|done]. unfold pending, slice. by rewrite Ei, Nat.sub_diag.
Qed.

#[export, refine] Instance concat_laws : ReadBufferLaws (concatenated D) := {|
  src_ok := concat_ok; coming := concat_coming |}.
Proof.
  - done.
  - exact concat_next.
Defined.

Lemma concat_state (buffers : list (rbuf D)) :
  Forall (fun i => wf i /\ src_ok i) buffers ->
  state (ConcatReadBuffer buffers) (concat (map buffer_data buffers)) (u64 (Z.of_nat (length (concat (map buffer_data buffers))))).
Proof.
  intros Hb. unfold state, wf. cbn [coming src_ok concat_laws]. unfold concat_ok, concat_coming, ConcatReadBuffer, pending, slice, count, offset, size. cbn.
  split_and!; try done; try lia. destruct buffers as [|i l]; [done|]. cbn. unfold buffer_data at 2. by rewrite <- app_assoc.
Qed.
End ConcatLaws.

(** [ConcatReadBuffer] over a [LimitReadBuffer] ignores the limit.  It takes
    over the working buffer without moving the cursor of the buffer it came
    from, and [LimitReadBuffer] counts by its cursor: of four bytes limited
    to three all four are delivered. *)
Theorem concat_ignores_limit :
  let four := ConcatReadBuffer [ReadBufferFromMemory [1; 2]; ReadBufferFromMemory [3; 4]] in
  (read 10 (LimitReadBuffer four 3)).1 = Returns [1; 2; 3] /\
  (read 10 (ConcatReadBuffer [LimitReadBuffer four 3])).1 = Returns [1; 2; 3; 4].
Proof. by vm_compute. Qed.
