(* ===== verification/FileDescriptors.v ===== *)
(** * Buffers over file descriptors

    [ReadBufferFromFileDescriptor] with its [doSeek], dbms/src/IO.  The kernel
    is a parameter, the class [Device], and [DeviceLaws] states what POSIX
    says of [read] and [lseek] on a regular file: a call may be interrupted,
    may deliver fewer bytes than asked for, and delivers none only at the end
    of the file. *)

From stdpp Require Import base list option numbers.
From Stdlib Require Import ZArith Lia.
From S2P Require Import Prelude IOMonad ReadBuffers BufferSources.

#[local] Open Scope Z_scope.
#[local] Open Scope word_scope.

Inductive sys_result (A : Type) :=
  | SysDone (a : A)
  | SysInterrupted
  | SysFailed.
Arguments SysDone {A} a.
Arguments SysInterrupted {A}.
Arguments SysFailed {A}.

Class Device (F : Type) := {
  sys_read : F -> nat -> sys_result (list Z) * F;
  sys_lseek : F -> Z -> option F }.

(** [interruptions] bounds how often calls in a row are interrupted. *)
Class DeviceLaws (F : Type) `{Device F} := {
  contents : F -> list Z;
  file_offset : F -> Z;
  interruptions : F -> nat;
  sys_read_spec : forall f n, (0 < n)%nat -> 0 <= file_offset f ->
    match sys_read f n with
    | (SysDone l, f') =>
        l = take (length l) (drop (Z.to_nat (file_offset f)) (contents f)) /\ (length l <= n)%nat /\
        (l = [] -> drop (Z.to_nat (file_offset f)) (contents f) = []) /\
        contents f' = contents f /\ file_offset f' = file_offset f + Z.of_nat (length l) /\
        (interruptions f' <= interruptions f)%nat
    | (SysInterrupted, f') =>
        contents f' = contents f /\ file_offset f' = file_offset f /\ (interruptions f' < interruptions f)%nat
    | (SysFailed, _) => False
    end;
  sys_lseek_spec : forall f p, 0 <= p ->
    exists f', sys_lseek f p = Some f' /\ contents f' = contents f /\ file_offset f' = p /\
      (interruptions f' <= interruptions f)%nat }.

(** [retries] bounds the loop over interrupted calls. *)
Record fd_source (F : Type) := FdSource { fd : F; pos_in_file : Z; retries : nat }.
Arguments FdSource {F}.
Arguments fd {F}.
Arguments pos_in_file {F}.
Arguments retries {F}.

Inductive seek_whence := SEEK_SET | SEEK_CUR | SEEK_END.

Section Reading.
Context {F : Type} `{Device F}.

Definition set_fd (f : F) (b : rbuf (fd_source F)) : rbuf (fd_source F) :=
  set_src (FdSource f (pos_in_file (rb_src b)) (retries (rb_src b))) b.
Definition set_pos_in_file (p : Z) (b : rbuf (fd_source F)) : rbuf (fd_source F) :=
  set_src (FdSource (fd (rb_src b)) p (retries (rb_src b))) b.

(** [internal_buffer] is the whole block; a call of [read] fills its beginning. *)
Definition internal_read : M (rbuf (fd_source F)) (sys_result (list Z)) := fun b =>
  match sys_read (fd (rb_src b)) (length (rb_mem b)) with
  | (SysDone l, f) => (Returns (SysDone l), set_buffer (l ++ drop (length l) (rb_mem b)) (rb_begin b) (rb_end b) (set_fd f b))
  | (r, f) => (Returns r, set_fd f b)
  end.

Fixpoint fd_read_loop (fuel : nat) : M (rbuf (fd_source F)) nat :=
  match fuel with
  | 0%nat => throw NO_FUEL
  | S fuel' =>
      r ← internal_read;
      match r with
      | SysDone l => mret (length l)
      | SysInterrupted => fd_read_loop fuel'
      | SysFailed => throw CANNOT_READ_FROM_FILE_DESCRIPTOR
      end
  end.

#[export] Instance fd_nextImpl : ReadBuffer (fd_source F) :=
  n ← get (fun b => retries (rb_src b));
  bytes_read ← fd_read_loop n;
  _ ← modify (fun b => set_pos_in_file (pos_in_file (rb_src b) + Z.of_nat bytes_read) b);
  if (bytes_read =? 0)%nat then mret false
  else
    _ ← modify (resize bytes_read);
    mret true.

Definition doSeek (off : Z) (whence : seek_whence) : M (rbuf (fd_source F)) Z :=
  new_pos ←
    match whence with
    | SEEK_CUR => get (fun b => pos_in_file (rb_src b) - Z.of_nat (available b) + off)
    | SEEK_SET => mret off
    | SEEK_END => throw ARGUMENT_OUT_OF_BOUND
    end;
  same ← get (fun b => new_pos + Z.of_nat (available b) =? pos_in_file (rb_src b));
  if same : bool then mret new_pos
  else
    inside ← get (fun b => hasPendingData b && (new_pos <=? pos_in_file (rb_src b)) &&
                             (pos_in_file (rb_src b) - Z.of_nat (size b) <=? new_pos));
    if inside : bool then
      _ ← modify (fun b => set_pos (rb_begin b + Z.to_nat (new_pos - (pos_in_file (rb_src b) - Z.of_nat (size b)))) b);
      mret new_pos
    else
      _ ← modify (fun b => set_pos (rb_end b) b);
      r ← get (fun b => sys_lseek (fd (rb_src b)) new_pos);
      match r with
      | None => throw CANNOT_SEEK_THROUGH_FILE
      | Some f =>
          _ ← modify (set_fd f);
          _ ← modify (set_pos_in_file new_pos);
          mret new_pos
      end.

(** A buffer of [n] bytes, the contents of the fresh memory being arbitrary. *)
Definition ReadBufferFromFileDescriptor (f : F) (memory : list Z) (fuel : nat) : rbuf (fd_source F) :=
  RBuf memory 0 0 0 0 0 (FdSource f 0 fuel).
End Reading.

Section ReadingLaws.
Context {F : Type} `{L : DeviceLaws F}.

Definition file (b : rbuf (fd_source F)) : list Z := contents (fd (rb_src b)).
Definition in_file (b : rbuf (fd_source F)) : nat := Z.to_nat (pos_in_file (rb_src b)).

(** Unless it is used up, the working buffer shows the part of the file in front
    of [pos_in_file]. *)
Definition fd_shows (b : rbuf (fd_source F)) : Prop :=
  (rb_end b <= in_file b)%nat /\ take (rb_end b) (rb_mem b) = take (rb_end b) (drop (in_file b - rb_end b) (file b)).

Definition fd_ok (b : rbuf (fd_source F)) : Prop :=
  rb_begin b = 0%nat /\ (rb_end b <= length (rb_mem b))%nat /\ (0 < length (rb_mem b))%nat /\
  working_buffer_offset b = 0%nat /\ (interruptions (fd (rb_src b)) < retries (rb_src b))%nat /\
  0 <= pos_in_file (rb_src b) /\ file_offset (fd (rb_src b)) = pos_in_file (rb_src b) /\
  (hasPendingData b = true -> fd_shows b).

Definition fd_coming (b : rbuf (fd_source F)) : list Z := drop (in_file b) (file b).

Lemma fd_read_loop_spec fuel (b : rbuf (fd_source F)) :
  (0 < length (rb_mem b))%nat -> (interruptions (fd (rb_src b)) < fuel)%nat -> 0 <= file_offset (fd (rb_src b)) ->
  exists f l, fd_read_loop fuel b =
      (Returns (length l), set_buffer (l ++ drop (length l) (rb_mem b)) (rb_begin b) (rb_end b) (set_fd f b)) /\
    l = take (length l) (drop (Z.to_nat (file_offset (fd (rb_src b)))) (file b)) /\ (length l <= length (rb_mem b))%nat /\
    (l = [] -> drop (Z.to_nat (file_offset (fd (rb_src b)))) (file b) = []) /\ contents f = file b /\
    file_offset f = file_offset (fd (rb_src b)) + Z.of_nat (length l) /\
    (interruptions f <= interruptions (fd (rb_src b)))%nat.
Proof.
  revert b. induction fuel as [|fuel IH]; intros b Hm Hi Ho; [lia|]. cbn [fd_read_loop].
  pose proof (sys_read_spec (fd (rb_src b)) (length (rb_mem b)) Hm Ho) as Hr.
  unfold internal_read at 1, mbind, M_bind.
  destruct (sys_read (fd (rb_src b)) (length (rb_mem b))) as [[l| |] f]; [| |done].
  - destruct Hr as (H1 & H2 & H3 & H4 & H5 & H6). by exists f, l.
  - destruct Hr as (H1 & H2 & H3). destruct (IH (set_fd f b)) as (f' & l & E & G); [done|cbn; lia|cbn; lia|].
    exists f', l. rewrite E. split; [done|]. unfold file in *. cbn in G. rewrite H1, H2 in G.
    destruct G as (G1 & G2 & G3 & G4 & G5 & G6). split_and!; try done. lia.
Qed.

(** [nextImpl] called by [next] with the cursor at [p]. *)
Lemma fd_refill (b : rbuf (fd_source F)) p :
  fd_ok b -> exists b1 f l, nextImpl (entered (set_pos p b)) = (Returns (negb (length l =? 0)%nat), b1) /\
    rb_src b1 = FdSource f (pos_in_file (rb_src b) + Z.of_nat (length l)) (retries (rb_src b)) /\
    rb_mem b1 = l ++ drop (length l) (rb_mem b) /\ rb_begin b1 = 0%nat /\ working_buffer_offset b1 = 0%nat /\
    rb_bytes b1 = count (set_pos p b) /\ (length l <> 0%nat -> rb_end b1 = length l) /\
    l = take (length l) (drop (in_file b) (file b)) /\ (length l <= length (rb_mem b))%nat /\
    (l = [] -> drop (in_file b) (file b) = []) /\ contents f = file b /\
    file_offset f = pos_in_file (rb_src b) + Z.of_nat (length l) /\ (interruptions f < retries (rb_src b))%nat.
Proof.
  intros (H1 & H2 & H3 & H4 & H5 & H6 & H7 & H8).
  destruct (fd_read_loop_spec (retries (rb_src b)) (entered (set_pos p b))) as (f & l & El & G1 & G2 & G3 & G4 & G5 & G6); [done|done|cbn; lia|].
  change (fd (rb_src (entered (set_pos p b)))) with (fd (rb_src b)) in *. change (file (entered (set_pos p b))) with (file b) in *.
  change (rb_mem (entered (set_pos p b))) with (rb_mem b) in *. rewrite H7 in *. change (Z.to_nat (pos_in_file (rb_src b))) with (in_file b) in *.
  unfold nextImpl, fd_nextImpl. rewrite bind_get. change (retries (rb_src (entered (set_pos p b)))) with (retries (rb_src b)).
  rewrite (bind_returns _ _ _ _ _ El), bind_modify. exists
    (if (length l =? 0)%nat then set_pos_in_file (pos_in_file (rb_src b) + Z.of_nat (length l))
        (set_buffer (l ++ drop (length l) (rb_mem b)) (rb_begin b) (rb_end b) (set_fd f (entered (set_pos p b))))
     else resize (length l) (set_pos_in_file (pos_in_file (rb_src b) + Z.of_nat (length l))
        (set_buffer (l ++ drop (length l) (rb_mem b)) (rb_begin b) (rb_end b) (set_fd f (entered (set_pos p b)))))), f, l.
  destruct (Nat.eqb_spec (length l) 0) as [E0|E0]; cbn; split_and!; try done; lia.
Qed.

(** From whatever position of the cursor. *)
Lemma fd_next (b : rbuf (fd_source F)) p :
  fd_ok b -> exists b', next (set_pos p b) = (Returns (bool_decide (fd_coming b <> [])), b') /\
    wf b' /\ fd_ok b' /\ pending b' ++ fd_coming b' = fd_coming b /\ rb_pos b' = rb_begin b' /\
    (fd_coming b <> [] -> rb_pos b' < rb_end b')%nat /\ count b' = count (set_pos p b) /\ file b' = file b.
Proof.
  intros Hok. pose proof Hok as (H1 & H2 & H3 & H4 & H5 & H6 & H7 & H8).
  destruct (fd_refill b p Hok) as (b1 & f & l & En & E1 & E2 & E3 & E4 & E5 & E6 & G1 & G2 & G3 & G4 & G5 & G6).
  assert (length (rb_mem b1) = length (rb_mem b)) as Elen by (rewrite E2, length_app, length_drop; lia).
  assert (in_file b1 = in_file b + length l)%nat as Ein by (unfold in_file; rewrite E1; cbn; lia).
  assert (file b1 = file b) as Ef by (unfold file; by rewrite E1).
  assert (fd_coming b = l ++ fd_coming b1) as Ec.
  { unfold fd_coming. rewrite Ein, Ef, <- drop_drop. rewrite G1 at 1. by rewrite take_drop. }
  assert (bool_decide (fd_coming b <> []) = negb (length l =? 0)%nat) as Er.
  { destruct l; cbn; [rewrite bool_decide_eq_false_2; [done|]; intros Hx; apply Hx, G3; done|].
    rewrite Ec. by apply bool_decide_eq_true_2. }
  exists (refilled (negb (length l =? 0)%nat) b1). rewrite Er, Ec, (next_returns _ _ _ En). split; [done|].
  assert (forall r, count (refilled r b1) = count (set_pos p b)) as Ecnt.
  { intros r. unfold count at 1, offset, refilled. destruct r; cbn; rewrite E4, E5, Nat.add_0_r, Nat.sub_diag, Z.add_0_r;
      unfold count; by rewrite wrap_wrap by lia. }
  rewrite Ecnt. clear Ecnt E5 En.
  unfold refilled, wf, fd_ok, pending, slice, fd_shows, hasPendingData, file, in_file, fd_coming in *.
  destruct (Nat.eqb_spec (length l) 0) as [E0|E0]; cbn [negb].
  - destruct l; [|done]. cbn. rewrite E1, E3, E4 in *. cbn in *.
    split_and!; try done; try lia. rewrite <- Ec. intros Hn. by apply bool_decide_eq_false in Er.
  - specialize (E6 E0). cbn. rewrite E1, E3, E4, E6 in *. cbn in *.
    assert (take (length l) (rb_mem b1) = l) as Et by (rewrite E2; apply take_app_length).
    split_and!; try done; try lia.
    + intros _. split; [lia|]. rewrite Et. rewrite G1 at 1. rewrite Ein, Nat.add_sub, G4. done.
    + rewrite drop_0, Nat.sub_0_r, Et. done.
Qed.

#[export, refine] Instance fd_laws : ReadBufferLaws (fd_source F) := {|
  src_ok := fd_ok; coming := fd_coming |}.
Proof.
  - intros b p W (H1 & H2 & H3 & H4 & H5 & H6 & H7 & H8) Hp. split; [|done]. unfold fd_ok. split_and!; try done.
    intros Hd. apply H8. unfold hasPendingData in *. cbn in Hd. destruct W. apply negb_true_iff, Nat.eqb_neq.
    apply negb_true_iff, Nat.eqb_neq in Hd. lia.
  - intros b W Hok E. destruct (fd_next b (rb_pos b) Hok) as (b' & E1 & E2 & E3 & E4 & E5 & E6 & E7 & _).
    rewrite set_pos_same in *. exists b'. by split_and!.
Defined.

#[export, refine] Instance fd_any : CursorFree (fd_source F) := {| any_next := _ |}.
Proof.
  - done.
  - intros b p Hok. destruct (fd_next b p Hok) as (b' & E1 & E2 & E3 & E4 & E5 & E6 & E7 & _). exists b'. by split_and!.
Qed.

(** The data ahead of the cursor is the file from its position on. *)
Definition position (b : rbuf (fd_source F)) : Z := pos_in_file (rb_src b) - Z.of_nat (available b).

Lemma fd_data (b : rbuf (fd_source F)) :
  wf b -> fd_ok b -> 0 <= position b /\ pending b ++ fd_coming b = drop (Z.to_nat (position b)) (file b).
Proof.
  intros [W1 W2] (H1 & H2 & H3 & H4 & H5 & H6 & H7 & H8). unfold position, pending, slice, available, fd_coming, hasPendingData, fd_shows in *.
  destruct (Nat.eqb_spec (rb_pos b) (rb_end b)) as [E|E].
  { rewrite E, Nat.sub_diag, Z.sub_0_r. done. }
  destruct (H8 eq_refl) as [Hle Hs]. split; [unfold in_file in Hle; lia|].
  assert (length (take (rb_end b) (rb_mem b)) = rb_end b) as El by (rewrite length_take; lia).
  rewrite take_drop_commute. replace (rb_pos b + (rb_end b - rb_pos b))%nat with (rb_end b) by lia.
  set (X := drop (in_file b - rb_end b) (file b)) in *. replace (drop (in_file b) (file b)) with (drop (rb_end b) X)
    by (unfold X; rewrite drop_drop; f_equal; lia).
  rewrite Hs in El |- *. rewrite <- drop_app_le by lia. rewrite take_drop. unfold X. rewrite drop_drop. f_equal. unfold in_file in *. lia.
Qed.

(** [doSeek] to a position of the file, from any state of the buffer. *)
Lemma doSeek_spec (b : rbuf (fd_source F)) off whence :
  let target := match whence with SEEK_CUR => position b + off | _ => off end in
  wf b -> fd_ok b -> whence <> SEEK_END -> 0 <= target ->
  exists b', doSeek off whence b = (Returns target, b') /\ wf b' /\ fd_ok b' /\ file b' = file b /\
    pending b' ++ fd_coming b' = drop (Z.to_nat target) (file b).
Proof.
  intros target W Hok Hw Ht. unfold doSeek.
  rewrite (bind_returns _ _ _ target b); [|unfold target, position; by destruct whence]. rewrite bind_get.
  destruct (fd_data b W Hok) as [Hp Ed]. pose proof W as [W1 W2]. pose proof Hok as (H1 & H2 & H3 & H4 & H5 & H6 & H7 & H8).
  destruct (Z.eqb_spec (target + Z.of_nat (available b)) (pos_in_file (rb_src b))) as [E|E].
  { exists b. split_and!; try done. rewrite Ed. repeat f_equal. unfold position. lia. }
  rewrite bind_get. destruct (hasPendingData b && _ && _) eqn:Ein.
  - apply andb_true_iff in Ein as [[Hd Hle]%andb_true_iff Hge]. apply Z.leb_le in Hle, Hge.
    set (q := (rb_begin b + Z.to_nat (target - (pos_in_file (rb_src b) - Z.of_nat (size b))))%nat).
    exists (set_pos q b). rewrite bind_modify. unfold size in *.
    assert (wf (set_pos q b)) as W' by (split; cbn; lia).
    assert (fd_ok (set_pos q b)) as Hok' by (unfold fd_ok; split_and!; try done; intros _; exact (H8 Hd)).
    destruct (fd_data _ W' Hok') as [_ Ed']. split_and!; try done. rewrite Ed'. f_equal. unfold position, available. cbn. lia.
  - destruct (sys_lseek_spec (fd (rb_src b)) target Ht) as (f & Ef & Ec & Eo & Hi).
    exists (set_pos_in_file target (set_fd f (set_pos (rb_end b) b))).
    rewrite bind_modify, bind_get. cbn [fd rb_src set_pos]. rewrite Ef, !bind_modify.
    split_and!; [done|split; cbn; lia| |unfold file; cbn; by rewrite Ec|].
    + unfold fd_ok, hasPendingData. cbn. rewrite Nat.eqb_refl. split_and!; try done; lia.
    + unfold pending, slice, fd_coming, file, in_file. cbn. by rewrite Nat.sub_diag, Ec.
Qed.
End ReadingLaws.

(** Seeking in a file.  From any state of the buffer, whether the target lies in
    the working buffer or not, a read after [doSeek] returns the bytes of the
    file at the target, with every device that may interrupt calls and
    deliver the data in portions. *)
Theorem seek_then_read {F} `{L : DeviceLaws F} (b : rbuf (fd_source F)) off whence n :
  let target := match whence with SEEK_CUR => position b + off | _ => off end in
  wf b -> fd_ok b -> whence <> SEEK_END -> 0 <= target ->
  exists b', (_ ← doSeek off whence; read n) b = (Returns (take n (drop (Z.to_nat target) (file b))), b').
Proof.
  intros target W Hok Hw Ht. destruct (doSeek_spec b off whence W Hok Hw Ht) as (b1 & E1 & W1 & Hok1 & _ & Ed).
  destruct (reads_read n _ b1 _ (state_intro (L := fd_laws) b1 W1 Hok1)) as (b2 & E2 & _).
  exists b2. rewrite (bind_returns _ _ _ _ _ E1), E2. cbn [coming fd_laws]. by rewrite Ed.
Qed.

(** A device that gives at most three bytes at a time and interrupts every other
    call of a number of calls. *)
Record script := Script { sc_data : list Z; sc_pos : Z; sc_intr : nat }.

Definition portion (n : nat) : nat := Nat.min 3 n.
Arguments portion : simpl never.

#[export] Instance script_device : Device script := {|
  sys_read f n :=
    if Nat.odd (sc_intr f) then (SysInterrupted, Script (sc_data f) (sc_pos f) (Nat.pred (sc_intr f)))
    else
      let l := take (portion n) (drop (Z.to_nat (sc_pos f)) (sc_data f)) in
      (SysDone l, Script (sc_data f) (sc_pos f + Z.of_nat (length l)) (Nat.pred (sc_intr f)));
  sys_lseek f p := if p <? 0 then None else Some (Script (sc_data f) p (sc_intr f)) |}.

Lemma take_length_take {A} k (r : list A) : take k r = take (length (take k r)) r.
Proof.
  rewrite length_take. destruct (Nat.min_spec k (length r)) as [[? ->]|[? ->]]; [done|].
  rewrite firstn_all. by apply take_ge.
Qed.

#[export, refine] Instance script_laws : DeviceLaws script := {|
  contents := sc_data; file_offset := sc_pos; interruptions := sc_intr |}.
Proof.
  - intros f n Hn Ho. cbn. destruct (Nat.odd (sc_intr f)) eqn:E.
    + cbn. split_and!; try done. destruct (sc_intr f); [done|cbn; lia].
    + cbn. set (r := drop _ _). split_and!; try done; try lia.
      * apply take_length_take.
      * rewrite length_take. unfold portion. lia.
      * intros E0. destruct r; [done|]. by destruct n; [lia|].
  - intros f p Hp. cbn. rewrite (proj2 (Z.ltb_ge _ _)) by lia. eexists. split; [done|]. cbn. split_and!; done.
Defined.

Definition demo_fd : rbuf (fd_source script) :=
  (read 5 (ReadBufferFromFileDescriptor (Script [10; 11; 12; 13; 14; 15; 16; 17] 0 4) [0; 0; 0; 0] 10)).2.

Lemma seek_then_read_witness :
  exists b', (_ ← doSeek (-2) SEEK_CUR; read 4) demo_fd = (Returns [13; 14; 15; 16], b').
Proof.
  replace [13; 14; 15; 16] with (take 4 (drop (Z.to_nat (position demo_fd + -2)) (file demo_fd))) by (vm_compute; reflexivity).
  apply (seek_then_read demo_fd (-2) SEEK_CUR 4).
  - split; vm_compute; lia.
  - unfold fd_ok. split_and!; try (vm_compute; lia || done). intros _. split; vm_compute; [lia|done].
  - done.
  - vm_compute. done.
Defined.
