(* ===== verification/WriteBuffers.v ===== *)
(** * Write buffers

    [WriteBuffer] of dbms/src/IO with the derived classes that write into a
    fixed range of memory, into a string or vector
    ([WriteBufferFromString], [WriteBufferFromVector]) and to a file
    descriptor.  The class [WriteBufferLaws] states what a derived class
    promises, and the relation [writes] what a function appends to the data
    written so far; the formatting functions are proved against it. *)

From stdpp Require Import base list option numbers.
From Stdlib Require Import ZArith Lia.
From S2P Require Import Prelude IOMonad ReadBuffers FileDescriptors.

#[local] Open Scope Z_scope.
#[local] Open Scope word_scope.

Record wbuf (D : Type) := WBuf {
  wb_mem : list Z;
  wb_begin : nat;
  wb_end : nat;
  wb_pos : nat;
  wb_bytes : Z;
  wb_sink : D }.
Arguments WBuf {D}.
Arguments wb_mem {D}.
Arguments wb_begin {D}.
Arguments wb_end {D}.
Arguments wb_pos {D}.
Arguments wb_bytes {D}.
Arguments wb_sink {D}.

Section Base.
Context {D : Type}.

Definition wset_pos (p : nat) (b : wbuf D) : wbuf D :=
  WBuf (wb_mem b) (wb_begin b) (wb_end b) p (wb_bytes b) (wb_sink b).
Definition wset_bytes (n : Z) (b : wbuf D) : wbuf D :=
  WBuf (wb_mem b) (wb_begin b) (wb_end b) (wb_pos b) n (wb_sink b).
Definition wset_mem (m : list Z) (b : wbuf D) : wbuf D :=
  WBuf m (wb_begin b) (wb_end b) (wb_pos b) (wb_bytes b) (wb_sink b).
Definition wset_sink (s : D) (b : wbuf D) : wbuf D :=
  WBuf (wb_mem b) (wb_begin b) (wb_end b) (wb_pos b) (wb_bytes b) s.
Definition wset_buffer (m : list Z) (bg en : nat) (b : wbuf D) : wbuf D :=
  WBuf m bg en (wb_pos b) (wb_bytes b) (wb_sink b).

Definition woffset (b : wbuf D) : nat := wb_pos b - wb_begin b.
Definition wcount (b : wbuf D) : Z := wb_bytes b +64 Z.of_nat (woffset b).
Definition whasPendingData (b : wbuf D) : bool := negb (wb_pos b =? wb_end b)%nat.
Definition wavailable (b : wbuf D) : nat := wb_end b - wb_pos b.

(** The bytes between the beginning of the working buffer and the cursor. *)
Definition buffered (b : wbuf D) : list Z := slice (wb_begin b) (wb_pos b) (wb_mem b).

(** [memcpy(pos, from, length(from))] and [pos += length(from)]. *)
Definition store (from : list Z) (b : wbuf D) : list Z :=
  take (wb_pos b) (wb_mem b) ++ from ++ drop (wb_pos b + length from) (wb_mem b).
Definition put (from : list Z) : M (wbuf D) unit := fun b =>
  if (length from <=? wavailable b)%nat then
    (Returns tt, wset_pos (wb_pos b + length from) (wset_mem (store from b) b))
  else (Throws BUFFER_OVERRUN, b).
End Base.

(** [WriteBuffer(ptr, size)] *)
Definition WriteBuffer_on {D} (m : list Z) (s : D) : wbuf D := WBuf m 0 (length m) 0 0 s.

Class WriteBuffer (D : Type) := flushImpl : M (wbuf D) unit.

Section Operations.
Context {D : Type} `{WriteBuffer D}.

Definition wnext : M (wbuf D) unit :=
  n ← get woffset;
  if (n =? 0)%nat then mret tt
  else
    _ ← modify (fun b => wset_bytes (wb_bytes b +64 Z.of_nat n) b);
    _ ← try_catch flushImpl (fun e => _ ← modify (fun b => wset_pos (wb_begin b) b); throw e);
    modify (fun b => wset_pos (wb_begin b) b).

Definition wnextIfAtEnd : M (wbuf D) unit :=
  p ← get whasPendingData;
  if p : bool then mret tt else wnext.

(** [from] is what is left of the source. *)
Fixpoint write_loop (fuel : nat) (from : list Z) : M (wbuf D) unit :=
  match from with
  | [] => mret tt
  | _ =>
      match fuel with
      | 0%nat => throw NO_FUEL
      | S f =>
          _ ← wnextIfAtEnd;
          k ← get (fun b => Nat.min (wavailable b) (length from));
          _ ← put (take k from);
          write_loop f (drop k from)
      end
  end.

Definition write (from : list Z) : M (wbuf D) unit := write_loop (length from) from.

(** [write(char)] and [writeChar]. *)
Definition writeChar (x : Z) : M (wbuf D) unit :=
  _ ← wnextIfAtEnd;
  put [x].
End Operations.

(** ** What a derived class promises *)

Definition wwf {D} (b : wbuf D) : Prop :=
  (wb_begin b <= wb_pos b <= wb_end b)%nat /\ (wb_end b <= length (wb_mem b))%nat /\ (wb_begin b < wb_end b)%nat.

(** [emitted b] is what has gone out of the working buffer.  It does not depend
    on the working buffer itself, and [next] on a full buffer appends the
    buffer to it and leaves room. *)
Class WriteBufferLaws (D : Type) `{WriteBuffer D} := {
  sink_ok : wbuf D -> Prop;
  emitted : wbuf D -> list Z;
  sink_put : forall b m p, wwf b -> sink_ok b -> length m = length (wb_mem b) ->
    take (wb_begin b) m = take (wb_begin b) (wb_mem b) -> (wb_begin b <= p <= wb_end b)%nat ->
    sink_ok (wset_pos p (wset_mem m b)) /\ emitted (wset_pos p (wset_mem m b)) = emitted b;
  sink_next : forall b, wwf b -> sink_ok b -> wb_pos b = wb_end b ->
    exists b', wnext b = (Returns tt, b') /\ wwf b' /\ sink_ok b' /\ wb_pos b' = wb_begin b' /\
      emitted b' = emitted b ++ buffered b /\ wcount b' = wcount b }.

(** Derived classes that can be flushed at any time. *)
Class Flushable (D : Type) `{L : WriteBufferLaws D} :=
  flush_next : forall b, wwf b -> sink_ok b ->
    exists b', wnext b = (Returns tt, b') /\ wwf b' /\ sink_ok b' /\ wb_pos b' = wb_begin b' /\
      emitted b' = emitted b ++ buffered b /\ wcount b' = wcount b.

Section Writes.
Context {D : Type} `{L : WriteBufferLaws D}.

(** [b] has been given the data [d]; [t] is the number of bytes written before. *)
Definition wstate (b : wbuf D) (d : list Z) (t : Z) : Prop :=
  wwf b /\ sink_ok b /\ emitted b ++ buffered b = d /\ wcount b = t +64 Z.of_nat (length d).

(** [m] returns [a] and appends [w]. *)
Definition writes {A} (m : M (wbuf D) A) (a : A) (w : list Z) : Prop :=
  forall b d t, wstate b d t -> exists b', m b = (Returns a, b') /\ wstate b' (d ++ w) t.

Lemma writes_ret {A} (a : A) : writes (mret a) a [].
Proof. intros b d t St. exists b. by rewrite app_nil_r. Qed.

Lemma writes_bind {A B} (m : M (wbuf D) A) (k : A -> M (wbuf D) B) a c w1 w2 :
  writes m a w1 -> writes (k a) c w2 -> writes (m ≫= k) c (w1 ++ w2).
Proof.
  intros H1 H2 b d t St. destruct (H1 b d t St) as (b1 & E1 & St1). destruct (H2 b1 _ t St1) as (b2 & E2 & St2).
  exists b2. rewrite (bind_returns _ _ _ _ _ E1), E2. by rewrite app_assoc.
Qed.

Lemma writes_eq {A} (m : M (wbuf D) A) a w w' : writes m a w -> w = w' -> writes m a w'.
Proof. by intros ? <-. Qed.

Lemma wstate_put (b : wbuf D) d t from :
  wstate b d t -> (length from <= wavailable b)%nat ->
  exists b', put from b = (Returns tt, b') /\ wstate b' (d ++ from) t.
Proof.
  intros (W & Hs & E & Ec) Hl. unfold put. rewrite (proj2 (Nat.leb_le _ _) Hl). eexists. split; [reflexivity|].
  pose proof W as (W1 & W2 & W3). unfold wavailable in Hl.
  assert (length (store from b) = length (wb_mem b)) as El by (unfold store; rewrite !length_app, length_take, length_drop; lia).
  destruct (sink_put b (store from b) (wb_pos b + length from) W Hs El) as [Hs' Ee]; [|lia|].
  { unfold store. rewrite take_app_le by (rewrite length_take; lia). rewrite take_take. f_equal. lia. }
  split_and!; [|done| |].
  - unfold wwf. cbn. rewrite El. lia.
  - rewrite Ee, <- E, <- app_assoc. f_equal. unfold buffered, slice, store. cbn.
    rewrite drop_app_le by (rewrite length_take; lia). rewrite skipn_firstn_comm.
    rewrite take_app, length_take, length_drop, take_ge by (rewrite length_take, length_drop; lia). f_equal.
    rewrite take_app_le by lia. apply take_ge. lia.
  - unfold wcount, woffset in *. cbn. rewrite length_app.
    assert (wb_bytes b +64 Z.of_nat (wb_pos b + length from - wb_begin b) =
            (wb_bytes b +64 Z.of_nat (wb_pos b - wb_begin b)) +64 Z.of_nat (length from)) as ->.
    { rewrite wrap_add_l. f_equal. lia. }
    rewrite Ec, wrap_add_l. f_equal. lia.
Qed.

Lemma writes_nextIfAtEnd (b : wbuf D) d t :
  wstate b d t -> exists b', wnextIfAtEnd b = (Returns tt, b') /\ wstate b' d t /\ (0 < wavailable b')%nat.
Proof.
  intros St. pose proof St as (W & Hs & E & Ec). unfold wnextIfAtEnd. rewrite bind_get. unfold whasPendingData, wavailable.
  destruct (Nat.eqb_spec (wb_pos b) (wb_end b)) as [E0|E0]; cbn [negb].
  - destruct (sink_next b W Hs E0) as (b' & En & W' & Hs' & Ep & Ee & Ec'). exists b'. split; [done|]. destruct W' as (W1 & W2 & W3).
    split; [|lia]. split_and!; [by unfold wwf|done| |by rewrite Ec']. rewrite Ee, E. unfold buffered, slice. by rewrite Ep, Nat.sub_diag, app_nil_r.
  - exists b. destruct W as (W1 & W2 & W3). split_and!; try done. lia.
Qed.

Lemma writes_writeChar x : writes (writeChar x) tt [x].
Proof.
  intros b d t St. destruct (writes_nextIfAtEnd b d t St) as (b1 & E1 & St1 & Ha).
  destruct (wstate_put b1 d t [x] St1 Ha) as (b2 & E2 & St2). exists b2. unfold writeChar. by rewrite (bind_returns _ _ _ _ _ E1).
Qed.

Lemma writes_write_loop fuel from : (length from <= fuel)%nat -> writes (write_loop fuel from) tt from.
Proof.
  revert from. induction fuel as [|fuel IH]; intros [|x from] Hf; cbn [length] in Hf; try (apply writes_ret || lia).
  intros b d t St. cbn [write_loop]. destruct (writes_nextIfAtEnd b d t St) as (b1 & E1 & St1 & Ha).
  rewrite (bind_returns _ _ _ _ _ E1), bind_get. set (k := Nat.min (wavailable b1) (length (x :: from))).
  assert (0 < k)%nat as Hk by (unfold k; cbn [length]; lia).
  destruct (wstate_put b1 d t (take k (x :: from)) St1) as (b2 & E2 & St2); [rewrite length_take; lia|].
  rewrite (bind_returns _ _ _ _ _ E2). destruct (IH (drop k (x :: from)) ltac:(rewrite length_drop; cbn [length]; lia) b2 _ t St2) as (b3 & E3 & St3).
  exists b3. rewrite E3. split; [done|]. by rewrite <- app_assoc, take_drop in St3.
Qed.

Lemma writes_write from : writes (write from) tt from.
Proof. by apply writes_write_loop. Qed.
End Writes.

Create HintDb writes discriminated.
#[export] Hint Resolve writes_ret writes_writeChar writes_write : writes.

(** Sequences of writes, the data in the same order. *)
Ltac wsteps := repeat first [apply writes_write | apply writes_writeChar | apply writes_ret | eapply writes_bind].

(** ** A fixed range of memory

    [WriteBuffer] itself: [nextImpl] throws. *)

Inductive fixed_memory := FixedMemory.

#[export] Instance fixed_flush : WriteBuffer fixed_memory := throw CANNOT_WRITE_AFTER_END_OF_BUFFER.

(** Writing past the end throws, what fits has been stored, and the cursor goes
    back to the beginning, so that a later [next] does not write again. *)
Lemma fixed_write_overflow m x w :
  (0 < length m)%nat ->
  exists b, write (m ++ x :: w) (WriteBuffer_on m FixedMemory) = (Throws CANNOT_WRITE_AFTER_END_OF_BUFFER, b) /\
    wb_mem b = m /\ woffset b = 0%nat.
Proof.
  intros Hm. set (b0 := WriteBuffer_on m FixedMemory). set (b1 := wset_pos (length m) (wset_mem m b0)).
  assert (put m b0 = (Returns tt, b1)) as E1.
  { unfold put, store, wavailable, b0. cbn. rewrite Nat.sub_0_r, Nat.leb_refl, drop_all, app_nil_r. done. }
  assert (exists b, wnextIfAtEnd b1 = (Throws CANNOT_WRITE_AFTER_END_OF_BUFFER, b) /\ wb_mem b = m /\ woffset b = 0%nat) as (b & E2 & Hb).
  { unfold wnextIfAtEnd. rewrite bind_get. unfold whasPendingData, b1. cbn. rewrite Nat.eqb_refl. cbn [negb].
    unfold wnext. rewrite bind_get. unfold woffset at 1 2. cbn. rewrite Nat.sub_0_r.
    destruct (Nat.eqb_spec (length m) 0); [lia|]. eexists. by split. }
  exists b. split; [|done]. unfold write. rewrite length_app. cbn [length].
  destruct m as [|y m]; [cbn in Hm; lia|]. cbn [length app Nat.add write_loop].
  rewrite (bind_returns _ _ _ tt b0) by done. rewrite bind_get.
  replace (Nat.min (wavailable b0) (S (length (m ++ x :: w)))) with (S (length m))
    by (unfold wavailable, b0; cbn [wb_end wb_pos WriteBuffer_on length]; rewrite length_app; lia).
  cbn [take drop]. rewrite take_app_length, drop_app_length, (bind_returns _ _ _ _ _ E1), Nat.add_succ_r.
  cbn [write_loop]. by rewrite (bind_throws _ _ _ _ _ E2).
Qed.

(** ** Strings and vectors

    The block is the string itself; [nextImpl] doubles it.  The contents of the
    bytes that [resize] adds are zero. *)

Inductive from_string := FromString.

#[export] Instance string_flush : WriteBuffer from_string :=
  modify (fun b =>
    let old_size := length (wb_mem b) in
    let m := wb_mem b ++ replicate old_size 0 in
    wset_buffer m old_size (length m) b).

Definition WriteBufferFromString (s : list Z) : wbuf from_string :=
  match s with
  | [] => WriteBuffer_on (replicate 32 0) FromString
  | _ => WriteBuffer_on s FromString
  end.

(** [finish()], and with it [str()]: [s.resize(count())]. *)
Definition str (b : wbuf from_string) : list Z :=
  let n := Z.to_nat (wcount b) in take n (wb_mem b) ++ replicate (n - length (wb_mem b)) 0.

Definition string_ok (b : wbuf from_string) : Prop :=
  wb_end b = length (wb_mem b) /\ wb_bytes b = u64 (Z.of_nat (wb_begin b)).

#[export, refine] Instance string_laws : WriteBufferLaws from_string := {|
  sink_ok := string_ok; emitted b := take (wb_begin b) (wb_mem b) |}.
Proof.
  - intros b m p W [H1 H2] El Et Hp. unfold string_ok. cbn. by rewrite El.
  - intros b (W1 & W2 & W3) [H1 H2] E. unfold wnext. rewrite bind_get. unfold woffset.
    destruct (Nat.eqb_spec (wb_pos b - wb_begin b) 0); [lia|]. eexists. split; [reflexivity|].
    unfold wwf, string_ok, buffered, slice, wcount, woffset. cbn. rewrite !length_app, length_replicate. rewrite Nat.sub_diag.
    split_and!; try done; try lia.
    + rewrite H2, wrap_add_l. f_equal. lia.
    + rewrite take_app_length, take_take_drop. symmetry. apply take_ge. lia.
    + rewrite wrap_add_l. f_equal. lia.
Defined.

Lemma string_state : wstate (WriteBufferFromString []) [] 0.
Proof. unfold wstate, wwf. cbn. split_and!; try lia; done. Qed.

(** [str()] is the data written, as long as it is shorter than [2 ^ 64] bytes. *)
Lemma str_data (b : wbuf from_string) d : wstate b d 0 -> fits 64 (Z.of_nat (length d)) -> str b = d.
Proof.
  intros ((W1 & W2 & W3) & [H1 H2] & E & Ec) Hf. cbn in E. unfold buffered, slice in E. rewrite take_take_drop in E.
  replace (wb_begin b + (wb_pos b - wb_begin b))%nat with (wb_pos b) in E by lia.
  assert (length d = wb_pos b) as El by (rewrite <- E, length_take; lia).
  unfold str. cbn zeta. rewrite Ec, Z.add_0_l, wrap_small by done. rewrite Nat2Z.id, El, E.
  replace (wb_pos b - length (wb_mem b))%nat with 0%nat by lia. apply app_nil_r.
Qed.

(** A sequence of writes into a fresh string: [str()] gives what was written. *)
Lemma string_written {A} (m : M (wbuf from_string) A) a w :
  writes m a w -> fits 64 (Z.of_nat (length w)) ->
  exists b, m (WriteBufferFromString []) = (Returns a, b) /\ str b = w.
Proof.
  intros Hw Hf. destruct (Hw _ _ _ string_state) as (b & E & St). exists b. split; [done|]. by apply str_data.
Qed.

(** A write that fits into the working buffer. *)
Lemma write_fits {D} `{WriteBuffer D} (b : wbuf D) w :
  (0 < length w <= wavailable b)%nat ->
  write w b = (Returns tt, wset_pos (wb_pos b + length w) (wset_mem (store w b) b)).
Proof.
  intros Hw. destruct w as [|y w]; [cbn in Hw; lia|]. unfold write. cbn [length write_loop].
  rewrite (bind_returns _ _ _ tt b).
  2: { unfold wnextIfAtEnd. rewrite bind_get. unfold whasPendingData, wavailable in *. by destruct (Nat.eqb_spec (wb_pos b) (wb_end b)); [lia|]. }
  rewrite bind_get, Nat.min_r by (cbn in *; lia). change (S (length w)) with (length (y :: w)). rewrite firstn_all, drop_all.
  unfold put. rewrite (bind_returns _ _ _ tt (wset_pos (wb_pos b + length (y :: w)) (wset_mem (store (y :: w) b) b))); [by destruct (length w)|].
  by rewrite (proj2 (Nat.leb_le _ _)) by lia.
Qed.

(** A flush in the middle corrupts a string.  [nextImpl] of
    [WriteBufferFromString] takes the working buffer to be full; after an
    explicit [next()] the bytes written next go behind the old end, and
    [str()] returns zeros in their place. *)
Theorem string_flush_corrupts x w :
  (length w < 31)%nat ->
  exists b, (_ ← writeChar x; _ ← wnext; write w) (WriteBufferFromString []) = (Returns tt, b) /\
    str b = x :: replicate (length w) 0.
Proof.
  intros Hw. set (b2 := WBuf (x :: replicate 63 0) 32 64 32 1 FromString).
  assert (forall k, (_ ← writeChar x; _ ← wnext; k) (WriteBufferFromString []) = (k : M _ unit) b2) as E by done.
  rewrite E. clear E. destruct w as [|y w]; [by exists b2|].
  eexists. split; [apply write_fits; cbn in *; lia|].
  unfold str, store, wcount, woffset, wavailable. cbn [wb_mem wb_pos wset_pos wset_mem wb_bytes wb_begin b2].
  assert ((32 + length (y :: w) - 32)%nat = length (y :: w)) as -> by lia.
  rewrite wrap_small by (unfold fits; cbn in *; lia).
  replace (Z.to_nat (1 + Z.of_nat (length (y :: w)))) with (S (length (y :: w))) by lia.
  rewrite take_app_le by (cbn in *; lia). rewrite take_take, Nat.min_l by (cbn in *; lia).
  rewrite !length_app. replace (S (length (y :: w)) - _)%nat with 0%nat by (cbn in *; lia). rewrite app_nil_r.
  cbn [take]. f_equal. rewrite take_replicate. f_equal. cbn in *; lia.
Qed.

Lemma string_flush_corrupts_witness :
  exists b, (_ ← writeChar 65; _ ← wnext; write [66; 67]) (WriteBufferFromString []) = (Returns tt, b) /\ str b = [65; 0; 0].
Proof. apply (string_flush_corrupts 65 [66; 67]). cbn. lia. Defined.

(** After a failed flush the data is not written a second time. *)
Lemma failed_flush_once {D} `{WriteBuffer D} (b b1 : wbuf D) e :
  wnext b = (Throws e, b1) -> wb_pos b1 = wb_begin b1 /\ wnext b1 = (Returns tt, b1).
Proof.
  intros E. assert (wb_pos b1 = wb_begin b1) as Ep.
  { unfold wnext in E. rewrite bind_get in E. destruct (woffset b =? 0)%nat; [done|]. rewrite bind_modify in E.
    unfold try_catch, mbind, M_bind in E. destruct (flushImpl _) as [[[]|e'] b2]; cbn in E; by inversion E. }
  split; [done|]. unfold wnext. rewrite bind_get. unfold woffset. by rewrite Ep, Nat.sub_diag.
Qed.

(** ** File descriptors *)

Class OutDevice (F : Type) := sys_write : F -> list Z -> sys_result nat * F.

Class OutDeviceLaws (F : Type) `{OutDevice F} := {
  accepted : F -> list Z;
  out_interruptions : F -> nat;
  sys_write_spec : forall f l, l <> [] ->
    match sys_write f l with
    | (SysDone n, f') => (0 < n <= length l)%nat /\ accepted f' = accepted f ++ take n l /\
        (out_interruptions f' <= out_interruptions f)%nat
    | (SysInterrupted, f') => accepted f' = accepted f /\ (out_interruptions f' < out_interruptions f)%nat
    | (SysFailed, _) => False
    end }.

Record fd_sink (F : Type) := FdSink { out_fd : F; out_retries : nat }.
Arguments FdSink {F}.
Arguments out_fd {F}.
Arguments out_retries {F}.

Section FdWriting.
Context {F : Type} `{OutDevice F}.

Definition set_out (f : F) (b : wbuf (fd_sink F)) : wbuf (fd_sink F) := wset_sink (FdSink f (out_retries (wb_sink b))) b.

Fixpoint fd_write_loop (fuel : nat) (bytes_written : nat) : M (wbuf (fd_sink F)) unit := fun b =>
  if (bytes_written =? woffset b)%nat then (Returns tt, b)
  else
    match fuel with
    | 0%nat => (Throws NO_FUEL, b)
    | S fuel' =>
        match sys_write (out_fd (wb_sink b)) (drop bytes_written (buffered b)) with
        | (SysDone n, f) => fd_write_loop fuel' (bytes_written + n) (set_out f b)
        | (SysInterrupted, f) => fd_write_loop fuel' bytes_written (set_out f b)
        | (SysFailed, f) => (Throws CANNOT_WRITE_TO_FILE_DESCRIPTOR, set_out f b)
        end
    end.

#[export] Instance fd_flush : WriteBuffer (fd_sink F) :=
  n ← get woffset;
  if (n =? 0)%nat then mret tt
  else
    r ← get (fun b => out_retries (wb_sink b));
    fd_write_loop (n + r) 0.
End FdWriting.

Section FdWritingLaws.
Context {F : Type} `{L : OutDeviceLaws F}.

Lemma fd_write_loop_spec fuel k (b : wbuf (fd_sink F)) :
  wwf b -> (k <= woffset b)%nat -> (woffset b - k + out_interruptions (out_fd (wb_sink b)) <= fuel)%nat ->
  exists f, fd_write_loop fuel k b = (Returns tt, set_out f b) /\
    accepted f = accepted (out_fd (wb_sink b)) ++ drop k (buffered b) /\
    (out_interruptions f <= out_interruptions (out_fd (wb_sink b)))%nat.
Proof.
  intros W. assert (length (buffered b) = woffset b) as El.
  { unfold buffered, slice, woffset. rewrite length_take, length_drop. destruct W as (? & ? & ?). lia. }
  revert k b W El. induction fuel as [|fuel IH]; intros k b W El Hk Hf.
  - assert (k = woffset b) as -> by lia. exists (out_fd (wb_sink b)). cbn. rewrite Nat.eqb_refl.
    rewrite <- El, drop_all, app_nil_r. split_and!; try done. by destruct b as [? ? ? ? ? []].
  - cbn [fd_write_loop]. destruct (Nat.eqb_spec k (woffset b)) as [->|Hne].
    { exists (out_fd (wb_sink b)). rewrite <- El, drop_all, app_nil_r. split_and!; try done. by destruct b as [? ? ? ? ? []]. }
    assert (drop k (buffered b) <> []) as Hnil by (intros E0; apply (f_equal length) in E0; rewrite length_drop, El in E0; cbn in E0; lia).
    pose proof (sys_write_spec (out_fd (wb_sink b)) _ Hnil) as Hw.
    destruct (sys_write (out_fd (wb_sink b)) (drop k (buffered b))) as [[n| |] f]; [| |done].
    + destruct Hw as (H1 & H2 & H3). rewrite length_drop, El in H1.
      destruct (IH (k + n)%nat (set_out f b) W El) as (f' & E & Ea & Ei); [unfold woffset in *; cbn; lia|unfold woffset in *; cbn; lia|].
      exists f'. rewrite E. split_and!; [done| |cbn in Ei; lia]. rewrite Ea. cbn [out_fd wb_sink set_out wset_sink]. rewrite H2, <- app_assoc. f_equal.
      change (buffered (set_out f b)) with (buffered b). rewrite <- drop_drop. apply take_drop.
    + destruct Hw as (H1 & H2). destruct (IH k (set_out f b) W El) as (f' & E & Ea & Ei); [done|unfold woffset in *; cbn; lia|].
      exists f'. rewrite E. split_and!; [done| |cbn in Ei; lia]. rewrite Ea. cbn [out_fd wb_sink set_out wset_sink]. by rewrite H1.
Qed.

Definition fd_sink_ok (b : wbuf (fd_sink F)) : Prop :=
  (out_interruptions (out_fd (wb_sink b)) <= out_retries (wb_sink b))%nat.

Lemma fd_flush_next (b : wbuf (fd_sink F)) :
  wwf b -> fd_sink_ok b -> exists b', wnext b = (Returns tt, b') /\ wwf b' /\ fd_sink_ok b' /\ wb_pos b' = wb_begin b' /\
    accepted (out_fd (wb_sink b')) = accepted (out_fd (wb_sink b)) ++ buffered b /\ wcount b' = wcount b.
Proof.
  intros W Hs. unfold wnext. rewrite bind_get. destruct (Nat.eqb_spec (woffset b) 0) as [E0|E0].
  { exists b. unfold buffered, slice. unfold woffset in E0. rewrite E0. cbn. rewrite app_nil_r.
    split_and!; try done. destruct W as (? & ? & ?). lia. }
  rewrite bind_modify. set (b1 := wset_bytes _ b).
  destruct (fd_write_loop_spec (woffset b1 + out_retries (wb_sink b1)) 0 b1 W) as (f & E & Ea & Ei);
    [lia|unfold fd_sink_ok in Hs; change (out_fd (wb_sink b1)) with (out_fd (wb_sink b)); change (out_retries (wb_sink b1)) with (out_retries (wb_sink b)); lia|].
  assert (flushImpl b1 = (Returns tt, set_out f b1)) as Ef.
  { unfold flushImpl, fd_flush. rewrite bind_get. change (woffset b1) with (woffset b) in *. rewrite (proj2 (Nat.eqb_neq _ _) E0), bind_get. exact E. }
  unfold mbind at 1, M_bind at 1, try_catch. rewrite Ef. eexists. split; [reflexivity|].
  destruct W as (W1 & W2 & W3). unfold wwf, fd_sink_ok, wcount, woffset in *. cbn. cbn in Ei, Ea. rewrite Nat.sub_diag, Z.add_0_r, wrap_wrap by lia.
  split_and!; try done; lia.
Qed.

#[export, refine] Instance fd_sink_laws : WriteBufferLaws (fd_sink F) := {|
  sink_ok := fd_sink_ok; emitted b := accepted (out_fd (wb_sink b)) |}.
Proof.
  - done.
  - intros b W Hs _. by apply fd_flush_next.
Defined.

#[export] Instance fd_sink_flushable : Flushable (fd_sink F).
Proof. intros b W Hs. by apply fd_flush_next. Qed.
End FdWritingLaws.

(** A device that accepts at most three bytes at a time and interrupts some
    calls. *)
Record out_script := OutScript { os_data : list Z; os_intr : nat }.

#[export] Instance out_script_device : OutDevice out_script := fun f l =>
  if Nat.odd (os_intr f) then (SysInterrupted, OutScript (os_data f) (Nat.pred (os_intr f)))
  else (SysDone (portion (length l)), OutScript (os_data f ++ take (portion (length l)) l) (Nat.pred (os_intr f))).

#[export, refine] Instance out_script_laws : OutDeviceLaws out_script := {|
  accepted := os_data; out_interruptions := os_intr |}.
Proof.
  intros f l Hl. unfold sys_write, out_script_device. destruct (Nat.odd (os_intr f)) eqn:E; cbn.
  - split; [done|]. destruct (os_intr f); [done|cbn; lia].
  - assert (0 < length l)%nat by (destruct l; [done|cbn; lia]). unfold portion. split_and!; done || lia.
Defined.

Definition demo_out : wbuf (fd_sink out_script) := WriteBuffer_on [0; 0; 0; 0] (FdSink (OutScript [] 2) 2).

Lemma demo_out_state : wstate demo_out [] 0.
Proof. unfold wstate, wwf. cbn. unfold fd_sink_ok. cbn. split_and!; try lia; done. Qed.
