(* ===== verification/VarInt.v ===== *)
(** * Variable length integers

    The base-128 format of dbms/src/IO/VarInt.h: writing to and reading from
    buffers, memory and streams, the length functions and the signed (zigzag)
    variants. *)

From stdpp Require Import base list option numbers.
From Stdlib Require Import ZArith Lia.
From S2P Require Import Prelude IOMonad ReadBuffers BufferSources WriteBuffers.

#[local] Open Scope Z_scope.
#[local] Open Scope word_scope.

(** [char] is signed: a byte is sign-extended when it is widened. *)
Definition schar (x : Z) : Z := if x <? 128 then x else x - 256.

Definition is_byte (x : Z) : Prop := fits 8 x.

(** [x |= (byte & 0x7F) << (7 * i)] *)
Definition add_group (x byte i : Z) : Z := x |64 (Z.land byte 127 <<64 (7 * i)).
Definition last_group (byte : Z) : bool := Z.land byte 128 =? 0.

(** ** Memory: the [char *] overloads

    The source is the list of the bytes up to [end]; what is left of it is
    returned with the value. *)

Fixpoint readVarUInt_mem_loop (n : nat) (i x : Z) (istr : list Z) : outcome (Z * list Z) :=
  match n with
  | 0%nat => Returns (x, istr)
  | S n' =>
      match istr with
      | [] => Throws ATTEMPT_TO_READ_AFTER_EOF
      | c :: istr' =>
          let byte := u64 (schar c) in
          let x' := add_group x byte i in
          if last_group byte then Returns (x', istr') else readVarUInt_mem_loop n' (i + 1) x' istr'
      end
  end.

Definition readVarUInt_mem (istr : list Z) : outcome (Z * list Z) := readVarUInt_mem_loop 9 0 0 istr.

Definition group (x : Z) : Z :=
  let byte := Z.land x 127 in if 127 <? x then Z.lor byte 128 else byte.

Fixpoint writeVarUInt_mem_loop (n : nat) (x : Z) : list Z :=
  match n with
  | 0%nat => []
  | S n' =>
      let x' := x >>64 7 in
      group x :: (if x' =? 0 then [] else writeVarUInt_mem_loop n' x')
  end.

Definition writeVarUInt_mem (x : Z) : list Z := writeVarUInt_mem_loop 9 x.

(** ** Buffers *)

Section Buffers.
Context {D : Type}.

Fixpoint readVarUInt_loop `{ReadBuffer D} (n : nat) (i x : Z) : M (rbuf D) Z :=
  match n with
  | 0%nat => mret x
  | S n' =>
      e ← eof;
      if e : bool then throw ATTEMPT_TO_READ_AFTER_EOF
      else
        c ← peek;
        _ ← advance 1;
        let byte := u64 (schar c) in
        let x' := add_group x byte i in
        if last_group byte then mret x' else readVarUInt_loop n' (i + 1) x'
  end.

Definition readVarUInt `{ReadBuffer D} : M (rbuf D) Z := readVarUInt_loop 9 0 0.

Fixpoint writeVarUInt_loop `{WriteBuffer D} (n : nat) (x : Z) : M (wbuf D) unit :=
  match n with
  | 0%nat => mret tt
  | S n' =>
      let byte := group x in
      _ ← wnextIfAtEnd;
      _ ← put [byte];
      let x' := x >>64 7 in
      if x' =? 0 then mret tt else writeVarUInt_loop n' x'
  end.

Definition writeVarUInt `{WriteBuffer D} (x : Z) : M (wbuf D) unit := writeVarUInt_loop 9 x.

(** The overloads for narrower types keep the low bits. *)
Definition readVarUInt_width `{ReadBuffer D} (w : Z) : M (rbuf D) Z :=
  tmp ← readVarUInt;
  mret (wrap w tmp).

(** [Int64] as its two's complement value; [x << 1 ^ x >> 63] and back. *)
Definition signed (w x : Z) : Z := if x <? 2 ^ (w - 1) then x else x - 2 ^ w.
Definition zigzag (x : Z) : Z := u64 (Z.shiftl x 1) ^64 u64 (Z.shiftr x 63).
Definition unzigzag (u : Z) : Z := signed 64 ((u >>64 1) ^64 u64 (- Z.land u 1)).

Definition writeVarInt `{WriteBuffer D} (x : Z) : M (wbuf D) unit := writeVarUInt (zigzag x).
Definition readVarInt `{ReadBuffer D} : M (rbuf D) Z :=
  u ← readVarUInt;
  mret (unzigzag u).
Definition readVarInt_width `{ReadBuffer D} (w : Z) : M (rbuf D) Z :=
  tmp ← readVarInt;
  mret (signed w (wrap w tmp)).
End Buffers.

(** ** Streams: [std::istream::get] returns -1 at the end. *)

Definition stream_get (s : list Z) : Z * list Z :=
  match s with
  | [] => (-1, [])
  | c :: s' => (c, s')
  end.

Fixpoint readVarUInt_stream_loop (n : nat) (i x : Z) (s : list Z) : Z * list Z :=
  match n with
  | 0%nat => (x, s)
  | S n' =>
      let g := stream_get s in
      let byte := u64 g.1 in
      let x' := add_group x byte i in
      if last_group byte then (x', g.2) else readVarUInt_stream_loop n' (i + 1) x' g.2
  end.

Definition readVarUInt_stream (s : list Z) : Z * list Z := readVarUInt_stream_loop 9 0 0 s.

(** ** Lengths *)

Definition getLengthOfVarUInt (x : Z) : Z :=
  if x <? Z.shiftl 1 7 then 1
  else if x <? Z.shiftl 1 14 then 2
  else if x <? Z.shiftl 1 21 then 3
  else if x <? Z.shiftl 1 28 then 4
  else if x <? Z.shiftl 1 35 then 5
  else if x <? Z.shiftl 1 42 then 6
  else if x <? Z.shiftl 1 49 then 7
  else if x <? Z.shiftl 1 56 then 8
  else 9.

Definition getLengthOfVarInt (x : Z) : Z := getLengthOfVarUInt (zigzag x).

(** ** Facts on groups *)

Lemma land_mod x n : 0 <= n -> Z.land x (2 ^ n - 1) = x mod 2 ^ n.
Proof. intros Hn. rewrite <- Z.land_ones by lia. f_equal. rewrite Z.ones_equiv. lia. Qed.

Lemma land_127 x : Z.land x 127 = x mod 128.
Proof. exact (land_mod x 7 ltac:(lia)). Qed.

Lemma land_128 x : fits 8 x -> (Z.land x 128 =? 0) = (x <? 128).
Proof.
  intros Hx. apply eqb_prop, (all_bytes (fun x => Bool.eqb (Z.land x 128 =? 0) (x <? 128))); [by vm_compute|done].
Qed.

Lemma group_spec x : 0 <= x -> fits 8 (group x) /\ group x mod 128 = x mod 128 /\ (group x <? 128) = (x <=? 127).
Proof.
  intros Hx. unfold group, fits. rewrite land_127. pose proof (Z.mod_pos_bound x 128 ltac:(lia)) as Hm.
  destruct (Z.ltb_spec 127 x) as [Hlt|Hle].
  - pose proof (lor_disjoint_add (x mod 128) 1 7 ltac:(lia) ltac:(lia)) as E. change (1 * 2 ^ 7) with 128 in E. rewrite E.
    split_and!; [lia|lia|dlia|]. destruct (Z.leb_spec x 127); [lia|]. apply Z.ltb_ge. lia.
  - rewrite Z.mod_mod by lia. split_and!; [lia|lia|done|]. rewrite (proj2 (Z.ltb_lt _ _)) by lia. symmetry. apply Z.leb_le. lia.
Qed.

(** The byte read is the byte of the buffer, whatever the sign extension. *)
Lemma byte_groups c : is_byte c -> Z.land (u64 (schar c)) 127 = c mod 128 /\ last_group (u64 (schar c)) = (c <? 128).
Proof.
  unfold is_byte, last_group. intros Hc.
  pose proof (all_bytes (fun c => (Z.land (u64 (schar c)) 127 =? c mod 128) && Bool.eqb (Z.land (u64 (schar c)) 128 =? 0) (c <? 128)) c
    ltac:(by vm_compute) Hc) as [H1 H2]%andb_true_iff.
  split; [by apply Z.eqb_eq|by apply eqb_prop].
Qed.

Lemma add_group_spec x g i :
  0 <= i -> 7 * i + 7 <= 64 -> 0 <= x < 2 ^ (7 * i) ->
  Z.lor x (u64 (Z.shiftl (g mod 128) (7 * i))) = x + (g mod 128) * 2 ^ (7 * i) /\
  x + (g mod 128) * 2 ^ (7 * i) < 2 ^ (7 * i + 7).
Proof.
  intros Hi H7 Hx. pose proof (Z.mod_pos_bound g 128 ltac:(lia)) as Hg. rewrite Z.shiftl_mul_pow2 by lia.
  assert (0 < 2 ^ (7 * i)) as Hp by (apply Z.pow_pos_nonneg; lia).
  assert (2 ^ (7 * i + 7) = 2 ^ (7 * i) * 128) as E by (rewrite Z.pow_add_r by lia; done).
  assert (2 ^ (7 * i + 7) <= 2 ^ 64) as H64 by (apply Z.pow_le_mono_r; lia).
  rewrite wrap_small by (unfold fits; nia). rewrite lor_disjoint_add by lia. split; [done|nia].
Qed.

(** ** Memory round trip *)

Lemma write_loop_bytes n x : 0 <= x -> Forall is_byte (writeVarUInt_mem_loop n x).
Proof.
  revert x. induction n as [|n IH]; intros x Hx; cbn; constructor.
  - apply (group_spec x Hx).
  - destruct (_ =? 0); [constructor|]. apply IH. by apply Z.shiftr_nonneg.
Qed.

Lemma mem_loop_roundtrip n i acc x l :
  0 <= i -> 7 * (i + Z.of_nat n) <= 63 -> 0 <= acc < 2 ^ (7 * i) -> 0 <= x -> (0 < n)%nat ->
  readVarUInt_mem_loop n i acc (writeVarUInt_mem_loop n x ++ l) =
    Returns (acc + (x mod 2 ^ (7 * Z.of_nat n)) * 2 ^ (7 * i), l).
Proof.
  revert i acc x. induction n as [|n IH]; intros i acc x Hi Hn Ha Hx Hpos; [lia|].
  cbn [readVarUInt_mem_loop writeVarUInt_mem_loop app]. destruct (group_spec x Hx) as (Hf & Hm & Hl).
  destruct (byte_groups (group x) Hf) as [Hb1 Hb2]. unfold add_group. rewrite Hb1, Hb2, Hm, Hl.
  destruct (add_group_spec acc x i Hi ltac:(lia) Ha) as [-> Hlt].
  assert (x >>64 7 = x / 128) as E7 by (rewrite Z.shiftr_div_pow2 by lia; done). rewrite E7.
  assert (x mod 2 ^ (7 * Z.of_nat (S n)) = x mod 128 + 128 * ((x / 128) mod 2 ^ (7 * Z.of_nat n))) as Es.
  { replace (2 ^ (7 * Z.of_nat (S n))) with (128 * 2 ^ (7 * Z.of_nat n))
      by (rewrite Nat2Z.inj_succ, Z.mul_succ_r, Z.add_comm, Z.pow_add_r by lia; done).
    apply Z.rem_mul_r; [lia|apply Z.pow_pos_nonneg; lia]. }
  pose proof (Z.mod_pos_bound x 128 ltac:(lia)) as Hmb.
  destruct (Z.leb_spec x 127) as [Hs|Hs].
  - rewrite Z.div_small by lia. cbn [Z.eqb app]. do 2 f_equal. rewrite Es, (Z.div_small x 128) by lia.
    rewrite Z.mod_0_l by (apply Z.pow_nonzero; lia). lia.
  - destruct (Z.eqb_spec (x / 128) 0) as [E0|E0]; [dlia|].
    assert (0 < 2 ^ (7 * i)) as Hp by (apply Z.pow_pos_nonneg; lia).
    destruct n as [|n].
    + done.
    + rewrite IH; [|lia|lia|split; [nia|replace (7 * (i + 1)) with (7 * i + 7) by lia; lia]|apply Z.div_pos; lia|lia].
      do 2 f_equal. rewrite Es. replace (7 * (i + 1)) with (7 * i + 7) by lia. rewrite (Z.pow_add_r 2 (7 * i) 7) by lia.
      change (2 ^ 7) with 128. lia.
Qed.

Lemma varuint_roundtrip x l : 0 <= x -> readVarUInt_mem (writeVarUInt_mem x ++ l) = Returns (x mod 2 ^ 63, l).
Proof.
  intros Hx. unfold readVarUInt_mem, writeVarUInt_mem.
  rewrite mem_loop_roundtrip by (try lia; done). by rewrite Z.add_0_l, Z.mul_1_r.
Qed.

(** ** The buffers do what the memory overloads do *)

Lemma readVarUInt_loop_spec {D} `{L : ReadBufferLaws D} n i x l :
  reads (readVarUInt_loop n i x) l
    (match readVarUInt_mem_loop n i x l with Returns (v, _) => Returns v | Throws e => Throws e end)
    (match readVarUInt_mem_loop n i x l with Returns (_, l') => l' | Throws _ => [] end).
Proof.
  revert i x l. induction n as [|n IH]; intros i x l; cbn; [apply reads_ret|].
  destruct l as [|c l]; rsteps. destruct (last_group _); [rstep|]. apply IH.
Qed.

Lemma readVarUInt_spec {D} `{L : ReadBufferLaws D} l :
  reads readVarUInt l
    (match readVarUInt_mem l with Returns (v, _) => Returns v | Throws e => Throws e end)
    (match readVarUInt_mem l with Returns (_, l') => l' | Throws _ => [] end).
Proof. apply readVarUInt_loop_spec. Qed.

Lemma writes_putChar {D} `{L : WriteBufferLaws D} {B} x (k : unit -> M (wbuf D) B) c w :
  writes (k tt) c w -> writes (_ ← wnextIfAtEnd; _ ← put [x]; k tt) c (x :: w).
Proof.
  intros Hk b d t St. destruct (writes_bind (writeChar x) k tt c [x] w (writes_writeChar x) Hk b d t St) as (b' & E & St').
  exists b'. split; [|done]. rewrite <- E. unfold writeChar. rewrite bind_assoc. unfold mbind, M_bind.
  destruct (wnextIfAtEnd b) as [[[]|] b1]; [|done]. by destruct (put [x] b1) as [[[]|] b2].
Qed.

Lemma writeVarUInt_loop_spec {D} `{L : WriteBufferLaws D} n x :
  writes (writeVarUInt_loop n x) tt (writeVarUInt_mem_loop n x).
Proof.
  revert x. induction n as [|n IH]; intros x; cbn; [apply writes_ret|].
  apply (writes_putChar (group x) (fun _ => if x >>64 7 =? 0 then mret tt else writeVarUInt_loop n (x >>64 7))).
  destruct (_ =? 0); [apply writes_ret|apply IH].
Qed.

Lemma writeVarUInt_spec {D} `{L : WriteBufferLaws D} x : writes (writeVarUInt x) tt (writeVarUInt_mem x).
Proof. apply writeVarUInt_loop_spec. Qed.

#[export] Hint Resolve writeVarUInt_spec : writes.

Lemma reads_varuint {D} `{L : ReadBufferLaws D} x l :
  0 <= x -> reads readVarUInt (writeVarUInt_mem x ++ l) (Returns (x mod 2 ^ 63)) l.
Proof. intros Hx. pose proof (readVarUInt_spec (writeVarUInt_mem x ++ l)) as Hr. by rewrite (varuint_roundtrip x l Hx) in Hr. Qed.

(** ** Lengths *)

Lemma write_loop_length n x :
  0 <= x -> (0 < n)%nat ->
  forall k, (0 < k <= n)%nat -> (k = n \/ x < 2 ^ (7 * Z.of_nat k)) -> (k = 1%nat \/ 2 ^ (7 * (Z.of_nat k - 1)) <= x) ->
  length (writeVarUInt_mem_loop n x) = k.
Proof.
  revert x. induction n as [|n IH]; intros x Hx Hn k Hk Hlo Hhi; [lia|]. cbn.
  rewrite Z.shiftr_div_pow2 by lia. change (2 ^ 7) with 128.
  destruct (Z.eqb_spec (x / 128) 0) as [E0|E0].
  - destruct (decide (k = 1%nat)) as [->|Hk1]; [done|]. destruct Hhi as [->|Hhi]; [done|]. exfalso.
    assert (2 ^ 7 <= 2 ^ (7 * (Z.of_nat k - 1))) as Hge by (apply Z.pow_le_mono_r; lia). change (2 ^ 7) with 128 in Hge. dlia.
  - cbn. destruct (decide (k = 1%nat)) as [->|Hk1].
    { destruct Hlo as [Hlo|Hlo]; [by assert (n = 0%nat) as -> by lia|]. change (2 ^ (7 * Z.of_nat 1)) with 128 in Hlo. dlia. }
    destruct k as [|k]; [lia|]. f_equal. apply IH; [apply Z.div_pos; lia|lia|lia| |].
    + destruct Hlo as [Hlo|Hlo]; [left; lia|right]. apply Z.div_lt_upper_bound; [lia|].
      replace (7 * Z.of_nat (S k)) with (7 + 7 * Z.of_nat k) in Hlo by lia. rewrite Z.pow_add_r in Hlo by lia. exact Hlo.
    + right. destruct Hhi as [Hhi|Hhi]; [lia|]. apply Z.div_le_lower_bound; [lia|].
      replace (7 * (Z.of_nat (S k) - 1)) with (7 + 7 * (Z.of_nat k - 1)) in Hhi by lia. rewrite Z.pow_add_r in Hhi by lia. exact Hhi.
Qed.

Lemma length_writeVarUInt x :
  fits 64 x -> Z.of_nat (length (writeVarUInt_mem x)) = getLengthOfVarUInt x.
Proof.
  intros [Hx Hx']. unfold writeVarUInt_mem, getLengthOfVarUInt.
  repeat match goal with |- context [Z.shiftl 1 ?n] => let v := eval vm_compute in (Z.shiftl 1 n) in change (Z.shiftl 1 n) with v end.
  repeat match goal with |- context [if ?x <? ?y then _ else _] => destruct (Z.ltb_spec x y) end;
  (match goal with |- _ = ?v => rewrite (write_loop_length 9 x Hx ltac:(lia) (Z.to_nat v)) end; [lia|lia| |]);
  repeat match goal with |- context [2 ^ ?e] => let v := eval vm_compute in (2 ^ e) in change (2 ^ e) with v end;
  first [right; lia | left; reflexivity].
Qed.

(** ** Zigzag *)

Lemma lxor_ones w x : 0 < w -> fits w x -> Z.lxor x (Z.ones w) = 2 ^ w - 1 - x.
Proof.
  unfold fits. intros Hw Hx. assert (Z.ones w = 2 ^ w - 1) as Eo by (rewrite Z.ones_equiv; lia). rewrite <- Eo.
  assert (Z.log2 x < w) as Hl by (apply log2_lt_width; lia).
  rewrite Z.sub_nocarry_ldiff by (apply Z.ldiff_ones_r_low; lia).
  apply Z.bits_inj'. intros i Hi. rewrite Z.lxor_spec, Z.ldiff_spec. destruct (Z.lt_ge_cases i w).
  - rewrite Z.ones_spec_low by lia. by destruct (Z.testbit x i).
  - rewrite Z.ones_spec_high, (Z.bits_above_log2 x i) by lia. done.
Qed.

Lemma zigzag_nonneg x : 0 <= x < 2 ^ 63 -> zigzag x = 2 * x.
Proof.
  intros Hx. unfold zigzag. rewrite Z.shiftl_mul_pow2, Z.shiftr_div_pow2 by lia. rewrite (Z.div_small x) by lia.
  rewrite wrap_small by (unfold fits; lia). change (u64 0) with 0. rewrite Z.lxor_0_r. lia.
Qed.

Lemma zigzag_neg x : - 2 ^ 63 <= x < 0 -> zigzag x = - 2 * x - 1.
Proof.
  intros Hx. unfold zigzag. rewrite Z.shiftl_mul_pow2, Z.shiftr_div_pow2 by lia.
  replace (x / 2 ^ 63) with (-1) by (apply Z.div_unique with (x + 2 ^ 63); lia).
  assert (u64 (x * 2 ^ 1) = x * 2 + 2 ^ 64) as -> by (unfold wrap; symmetry; apply Z.mod_unique with (-1); lia).
  change (u64 (-1)) with (Z.ones 64). rewrite lxor_ones by (unfold fits; lia). lia.
Qed.

Lemma unzigzag_even u : 0 <= u < 2 ^ 63 -> unzigzag (2 * u) = u.
Proof.
  intros Hu. unfold unzigzag. pose proof (land_mod (2 * u) 1 ltac:(lia)) as E. change (2 ^ 1 - 1) with 1 in E. rewrite E.
  replace ((2 * u) mod 2 ^ 1) with 0 by (change (2 ^ 1) with 2; dlia).
  change (u64 (- 0)) with 0. rewrite Z.lxor_0_r, Z.shiftr_div_pow2 by lia. change (2 ^ 1) with 2.
  replace (2 * u / 2) with u by dlia. unfold signed. change (64 - 1) with 63. by rewrite (proj2 (Z.ltb_lt _ _)) by lia.
Qed.

Lemma unzigzag_odd u : 0 <= u < 2 ^ 63 -> unzigzag (2 * u + 1) = - u - 1.
Proof.
  intros Hu. unfold unzigzag. pose proof (land_mod (2 * u + 1) 1 ltac:(lia)) as E. change (2 ^ 1 - 1) with 1 in E. rewrite E.
  replace ((2 * u + 1) mod 2 ^ 1) with 1 by (change (2 ^ 1) with 2; dlia).
  change (u64 (- (1))) with (Z.ones 64). rewrite Z.shiftr_div_pow2 by lia. change (2 ^ 1) with 2.
  replace ((2 * u + 1) / 2) with u by dlia. rewrite lxor_ones by (unfold fits; lia).
  unfold signed. change (64 - 1) with 63. rewrite (proj2 (Z.ltb_ge _ _)) by lia. lia.
Qed.

Lemma zigzag_fits x : - 2 ^ 62 <= x < 2 ^ 62 -> 0 <= zigzag x < 2 ^ 63 /\ unzigzag (zigzag x) = x.
Proof.
  intros Hx. destruct (Z.lt_ge_cases x 0) as [Hn|Hn].
  - rewrite zigzag_neg by lia. split; [lia|]. replace (-2 * x - 1) with (2 * (- x - 1) + 1) by lia. rewrite unzigzag_odd by lia. lia.
  - rewrite zigzag_nonneg by lia. split; [lia|]. by rewrite unzigzag_even by lia.
Qed.

(** ** Theorems *)

(** Writing and reading a [UInt64].  What [writeVarUInt] puts into any write
    buffer, [readVarUInt] reads back from any read buffer, however the bytes
    are cut into portions, and stops right behind them; the bytes are as many
    as [getLengthOfVarUInt] says.  Numbers from [2 ^ 63] on lose their top
    bit, as the note in the header says. *)
Theorem varuint_write_read {W R} `{LW : WriteBufferLaws W} `{LR : ReadBufferLaws R} x l :
  fits 64 x ->
  exists w, writes (D := W) (writeVarUInt x) tt w /\ reads (D := R) readVarUInt (w ++ l) (Returns (x mod 2 ^ 63)) l /\
    Z.of_nat (length w) = getLengthOfVarUInt x.
Proof.
  intros Hx. exists (writeVarUInt_mem x). split_and!; [apply writeVarUInt_spec|apply reads_varuint, Hx|by apply length_writeVarUInt].
Qed.

Lemma varuint_write_read_witness :
  exists w, writes (D := from_string) (writeVarUInt 300) tt w /\
    reads (D := concatenated from_memory) readVarUInt (w ++ [7]) (Returns 300) [7] /\ Z.of_nat (length w) = 2.
Proof. apply (varuint_write_read 300 [7]). split; lia. Defined.

(** Writing and reading an [Int64] gives back the number when it lies in
    [-2 ^ 62, 2 ^ 62). *)
Theorem varint_write_read {W R} `{LW : WriteBufferLaws W} `{LR : ReadBufferLaws R} x l :
  - 2 ^ 62 <= x < 2 ^ 62 ->
  exists w, writes (D := W) (writeVarInt x) tt w /\ reads (D := R) readVarInt (w ++ l) (Returns x) l /\
    Z.of_nat (length w) = getLengthOfVarInt x.
Proof.
  intros Hx. destruct (zigzag_fits x Hx) as [Hz Eu]. exists (writeVarUInt_mem (zigzag x)). split_and!.
  - apply writeVarUInt_spec.
  - unfold readVarInt. eapply reads_bind; [apply reads_varuint; lia|]. rewrite Z.mod_small, Eu by lia. apply reads_ret.
  - apply length_writeVarUInt. unfold fits. lia.
Qed.

Lemma varint_write_read_witness :
  exists w, writes (D := from_string) (writeVarInt (-65)) tt w /\
    reads (D := from_memory) readVarInt (w ++ []) (Returns (-65)) [] /\ Z.of_nat (length w) = 2.
Proof. apply (varint_write_read (-65) []). lia. Defined.

(** The signed format loses numbers outside that range: the greatest [Int64]
    comes back as [2 ^ 62 - 1]. *)
Theorem varint_truncates {W R} `{LW : WriteBufferLaws W} `{LR : ReadBufferLaws R} :
  exists w, writes (D := W) (writeVarInt (2 ^ 63 - 1)) tt w /\
    reads (D := R) readVarInt w (Returns (2 ^ 62 - 1)) [].
Proof.
  exists (writeVarUInt_mem (zigzag (2 ^ 63 - 1))). split; [apply writeVarUInt_spec|].
  unfold readVarInt. rewrite <- (app_nil_r (writeVarUInt_mem _)).
  eapply reads_bind; [apply reads_varuint; by vm_compute|].
  replace (unzigzag _) with (2 ^ 62 - 1) by (by vm_compute). apply reads_ret.
Qed.

(** The stream overload does not notice the end: on an empty stream it
    returns [2 ^ 63 - 1], where the other overloads throw. *)
Theorem varuint_stream_eof :
  readVarUInt_stream [] = (2 ^ 63 - 1, []) /\ readVarUInt_mem [] = Throws ATTEMPT_TO_READ_AFTER_EOF.
Proof. by vm_compute. Qed.
