(* ===== verification/HashingBuffers.v ===== *)
(** * Hashing buffers

    [IHashingBuffer], [HashingWriteBuffer] and [HashingReadBuffer] of
    dbms/src/IO: buffers that compute a checksum of the data that passes
    through them.  The hash is taken block by block, each block seeding the
    next, and must not depend on how the data is cut into portions: the
    checksums of table parts are compared between servers. *)

From stdpp Require Import base list option numbers.
From Stdlib Require Import ZArith Lia.
From S2P Require Import Prelude IOMonad ReadBuffers BufferSources WriteBuffers.
From S2P Require Import DeviceMemory.
From S2P Require CityHashHost.

#[local] Open Scope Z_scope.
#[local] Open Scope word_scope.

(** [CityHash128WithSeed] on a block of bytes. *)
Definition uint128 : Type := Z * Z.

Definition city128 (l : list Z) (seed : uint128) : uint128 :=
  match CityHashHost.CityHash128WithSeed (fun p => rd l p) 0 (Z.of_nat (length l)) seed with
  | Some r => r
  | None => seed
  end.

(** The hash of a block is the one of the memory it lies in, and the function
    returns. *)
Lemma city128_memory m s n seed :
  Z.of_nat n < 2 ^ 64 -> CityHashHost.CityHash128WithSeed m s (Z.of_nat n) seed = Some (city128 (bytes m s n) seed).
Proof.
  intros Hn. unfold city128. rewrite length_bytes.
  destruct (CityHashHost.CityHash128WithSeed_at m (fun p => rd (bytes m s n) p) s 0 (Z.of_nat n)) with (seed := seed) as (r & E1 & E2).
  - intros o Ho. unfold rd. pose proof (lookup_bytes m s n (Z.to_nat o) ltac:(lia)) as Hl.
    rewrite Z.add_0_l, (nth_lookup_Some _ _ _ _ Hl). f_equal. lia.
  - lia.
  - by rewrite E1, E2.
Qed.

(** ** [IHashingBuffer] *)

Record hasher := Hasher {
  memory : list Z;
  block_pos : nat;
  block_size : nat;
  hash_state : uint128 }.

Definition IHashingBuffer (mem : list Z) (bs : nat) : hasher := Hasher mem 0 bs (0, 0).

Definition getHash (h : hasher) : uint128 :=
  if (block_pos h =? 0)%nat then hash_state h else city128 (take (block_pos h) (memory h)) (hash_state h).

(** [memcpy(&memory[at], data, n)] *)
Definition copy_in (at_ : nat) (data : list Z) (m : list Z) : list Z :=
  take at_ m ++ data ++ drop (at_ + length data) m.
Arguments copy_in : simpl never.

Definition append (data : list Z) (h : hasher) : hasher :=
  Hasher (memory h) (block_pos h) (block_size h) (city128 (take (block_size h) data) (hash_state h)).

(** The loop over whole blocks: what is left of the data with the hasher. *)
Fixpoint hash_blocks (fuel : nat) (data : list Z) (h : hasher) : list Z * hasher :=
  match fuel with
  | 0%nat => (data, h)
  | S f =>
      if (block_size h <=? length data)%nat
      then hash_blocks f (drop (block_size h) data) (append data h)
      else (data, h)
  end.

Definition calculateHash (data : list Z) (h : hasher) : hasher :=
  if (length data =? 0)%nat then h
  else if (block_pos h + length data <? block_size h)%nat then
    Hasher (copy_in (block_pos h) data (memory h)) (block_pos h + length data) (block_size h) (hash_state h)
  else
    let '(data1, h1) :=
      if (block_pos h =? 0)%nat then (data, h)
      else
        let n := (block_size h - block_pos h)%nat in
        let m := copy_in (block_pos h) (take n data) (memory h) in
        let h' := append m (Hasher m (block_pos h) (block_size h) (hash_state h)) in
        (drop n data, Hasher (memory h') 0 (block_size h') (hash_state h')) in
    let '(data2, h2) := hash_blocks (length data1) data1 h1 in
    if (length data2 =? 0)%nat then h2
    else Hasher (copy_in 0 data2 (memory h2)) (length data2) (block_size h2) (hash_state h2).

(** ** The reference

    Complete blocks of [bs] bytes one after the other and an incomplete one at
    the end. *)
Fixpoint blockwise_loop (fuel bs : nat) (data : list Z) (s : uint128) : uint128 :=
  match fuel with
  | 0%nat => s
  | S f =>
      if (bs <=? length data)%nat then blockwise_loop f bs (drop bs data) (city128 (take bs data) s)
      else match data with [] => s | _ => city128 data s end
  end.

Definition blockwise (bs : nat) (data : list Z) : uint128 := blockwise_loop (S (length data)) bs data (0, 0).

(** [s] is the state after the complete blocks of [q]. *)
Inductive absorbed (bs : nat) : list Z -> uint128 -> Prop :=
  | absorbed_nil : absorbed bs [] (0, 0)
  | absorbed_block q s blk : absorbed bs q s -> length blk = bs -> absorbed bs (q ++ blk) (city128 blk s).

(** The hasher has been given the data [d]. *)
Definition hashed (h : hasher) (d : list Z) : Prop :=
  (0 < block_size h)%nat /\ length (memory h) = block_size h /\ (block_pos h < block_size h)%nat /\
  exists q, absorbed (block_size h) q (hash_state h) /\ d = q ++ take (block_pos h) (memory h).

Lemma hashed_start mem bs : (0 < bs)%nat -> length mem = bs -> hashed (IHashingBuffer mem bs) [].
Proof. intros H1 H2. split_and!; try done. exists []. split; [constructor|done]. Qed.

Lemma blockwise_fuel bs f g data s :
  (0 < bs)%nat -> (length data < f)%nat -> (length data < g)%nat -> blockwise_loop f bs data s = blockwise_loop g bs data s.
Proof.
  intros Hb. revert g data s. induction f as [|f IH]; intros [|g] data s Hf Hg; try lia. cbn.
  destruct (Nat.leb_spec bs (length data)); [|done]. apply IH; rewrite length_drop; lia.
Qed.

Lemma absorbed_blockwise bs q s r f :
  (0 < bs)%nat -> absorbed bs q s -> (length q + length r < f)%nat ->
  blockwise_loop f bs (q ++ r) (0, 0) = blockwise_loop f bs r s.
Proof.
  intros Hb Ha. revert r. induction Ha as [|q s blk Ha IH Hl]; intros r Hf; [done|].
  rewrite length_app in Hf. rewrite <- app_assoc, IH by (rewrite length_app; lia).
  destruct f as [|f]; [lia|]. cbn [blockwise_loop]. rewrite length_app, Hl.
  rewrite (proj2 (Nat.leb_le bs (bs + length r))) by lia. rewrite take_app_length', drop_app_length' by done.
  change (if (bs <=? length r)%nat then blockwise_loop f bs (drop bs r) (city128 (take bs r) (city128 blk s))
          else match r with [] => city128 blk s | _ => city128 r (city128 blk s) end)
    with (blockwise_loop (S f) bs r (city128 blk s)).
  apply blockwise_fuel; lia.
Qed.

Lemma getHash_blockwise h d : hashed h d -> getHash h = blockwise (block_size h) d.
Proof.
  intros (Hb & Hm & Hp & q & Ha & ->). unfold blockwise. rewrite (absorbed_blockwise _ q (hash_state h)); [|done..|rewrite length_app; lia].
  assert (length (take (block_pos h) (memory h)) = block_pos h) as El by (rewrite length_take; lia).
  cbn [blockwise_loop]. rewrite El. rewrite (proj2 (Nat.leb_gt _ _) Hp). unfold getHash.
  destruct (Nat.eqb_spec (block_pos h) 0) as [E|E]; [by rewrite E|].
  destruct (take (block_pos h) (memory h)); [cbn in El; lia|done].
Qed.

Lemma hash_blocks_spec fuel data h q :
  (0 < block_size h)%nat -> (length data <= fuel)%nat -> absorbed (block_size h) q (hash_state h) ->
  exists q' rest s, hash_blocks fuel data h = (rest, Hasher (memory h) (block_pos h) (block_size h) s) /\
    absorbed (block_size h) q' s /\ q' ++ rest = q ++ data /\ (length rest < block_size h)%nat.
Proof.
  revert data h q. induction fuel as [|fuel IH]; intros data h q Hb Hf Ha.
  { exists q, data, (hash_state h). cbn. split_and!; try done; [by destruct h|lia]. }
  cbn [hash_blocks]. destruct (Nat.leb_spec (block_size h) (length data)) as [Hle|Hlt].
  - destruct (IH (drop (block_size h) data) (append data h) (q ++ take (block_size h) data)) as (q' & rest & s & E & Ha' & Eq & Hl).
    + done.
    + rewrite length_drop. lia.
    + cbn. apply absorbed_block; [done|]. rewrite length_take. lia.
    + exists q', rest, s. rewrite E. split_and!; try done. by rewrite Eq, <- app_assoc, take_drop.
  - exists q, data, (hash_state h). split_and!; try done. by destruct h.
Qed.

Lemma length_copy_in p data m : (p + length data <= length m)%nat -> length (copy_in p data m) = length m.
Proof. intros. unfold copy_in. rewrite !length_app, length_take, length_drop. lia. Qed.

Lemma take_copy_in p data m : (p <= length m)%nat -> take (p + length data) (copy_in p data m) = take p m ++ data.
Proof.
  intros Hp. unfold copy_in. rewrite app_assoc. apply take_app_length'. rewrite length_app, length_take. lia.
Qed.

(** The blocks and the remainder, once nothing is kept in [memory]. *)
Lemma hash_whole data h q :
  (0 < block_size h)%nat -> length (memory h) = block_size h -> block_pos h = 0%nat -> absorbed (block_size h) q (hash_state h) ->
  let r := hash_blocks (length data) data h in
  hashed (if (length r.1 =? 0)%nat then r.2
          else Hasher (copy_in 0 r.1 (memory r.2)) (length r.1) (block_size r.2) (hash_state r.2)) (q ++ data).
Proof.
  intros Hb Hm Hp Ha. destruct (hash_blocks_spec (length data) data h q Hb (le_n _) Ha) as (q' & rest & s & E & Ha' & Eq & Hl).
  rewrite E. cbn. rewrite <- Eq, Hp. destruct (Nat.eqb_spec (length rest) 0) as [E0|E0].
  - split_and!; try done. exists q'. split; [done|]. by rewrite (nil_length_inv _ E0).
  - unfold hashed. cbn [block_size memory block_pos hash_state]. rewrite length_copy_in by (rewrite Hm; lia). split_and!; try done.
    exists q'. split; [done|]. f_equal. symmetry. apply (take_copy_in 0). lia.
Qed.

Lemma calculateHash_hashed h d e : hashed h d -> hashed (calculateHash e h) (d ++ e).
Proof.
  intros (Hb & Hm & Hp & q & Ha & ->). unfold calculateHash. destruct (Nat.eqb_spec (length e) 0) as [E0|E0].
  { rewrite (nil_length_inv _ E0), app_nil_r. split_and!; try done. by exists q. }
  destruct (Nat.ltb_spec (block_pos h + length e) (block_size h)) as [Hlt|Hge].
  { unfold hashed. cbn [block_size memory block_pos hash_state]. rewrite length_copy_in by lia. split_and!; try done.
    exists q. split; [done|]. rewrite take_copy_in by lia. by rewrite <- app_assoc. }
  destruct (Nat.eqb_spec (block_pos h) 0) as [E1|E1].
  - pose proof (hash_whole e h q Hb Hm E1 Ha) as Hw. rewrite E1. cbn. rewrite app_nil_r.
    by destruct (hash_blocks (length e) e h).
  - set (n := (block_size h - block_pos h)%nat). set (m := copy_in (block_pos h) (take n e) (memory h)).
    assert (length (take n e) = n) as En by (rewrite length_take; lia).
    assert (length m = block_size h) as Em by (unfold m; rewrite length_copy_in by lia; done).
    assert (take (block_size h) m = take (block_pos h) (memory h) ++ take n e) as Et.
    { unfold m. rewrite <- take_copy_in by lia. f_equal. lia. }
    set (h1 := Hasher m 0 (block_size h) (city128 (take (block_size h) m) (hash_state h))).
    pose proof (hash_whole (drop n e) h1 (q ++ take (block_size h) m) Hb Em eq_refl) as Hw.
    cbn [append memory block_size hash_state block_pos]. fold h1. destruct (hash_blocks (length (drop n e)) (drop n e) h1) as [d2 h2].
    replace ((q ++ take (block_pos h) (memory h)) ++ e) with ((q ++ take (block_size h) m) ++ drop n e)
      by (rewrite Et, <- !app_assoc; do 2 f_equal; apply take_drop).
    apply Hw. cbn. apply absorbed_block; [done|]. rewrite length_take. lia.
Qed.

Lemma hash_blocks_size fuel data h : block_size (hash_blocks fuel data h).2 = block_size h.
Proof. revert data h. induction fuel as [|f IH]; intros; cbn; [done|]. destruct (_ <=? _)%nat; [by rewrite IH|done]. Qed.

Lemma calculateHash_size e h : block_size (calculateHash e h) = block_size h.
Proof.
  unfold calculateHash. destruct (length e =? 0)%nat; [done|]. destruct (_ <? _)%nat; [done|].
  set (p := if (block_pos h =? 0)%nat then _ else _).
  assert (block_size p.2 = block_size h) as E by (unfold p; by destruct (_ =? _)%nat). destruct p as [d1 h1].
  pose proof (hash_blocks_size (length d1) d1 h1) as E2. destruct (hash_blocks _ _ _) as [d2 h2]. cbn in *.
  destruct (_ =? _)%nat; cbn; congruence.
Qed.

(** ** [HashingWriteBuffer] *)

(** The working buffer is the one of [out]: both see the same block. *)
Record hashing_sink (D : Type) := HashingSink { hw_out : wbuf D; hw_hasher : hasher }.
Arguments HashingSink {D}.
Arguments hw_out {D}.
Arguments hw_hasher {D}.

Section Writing.
Context {D : Type} `{WriteBuffer D}.

Definition out_buf (b : wbuf (hashing_sink D)) : wbuf D := hw_out (wb_sink b).
Definition set_out_buf (o : wbuf D) (b : wbuf (hashing_sink D)) : wbuf (hashing_sink D) :=
  wset_sink (HashingSink o (hw_hasher (wb_sink b))) b.
Definition set_hasher (h : hasher) (b : wbuf (hashing_sink D)) : wbuf (hashing_sink D) :=
  wset_sink (HashingSink (out_buf b) h) b.

(** [working_buffer = out.buffer()] *)
Definition share_out (b : wbuf (hashing_sink D)) : wbuf (hashing_sink D) :=
  wset_buffer (wb_mem (out_buf b)) (wb_begin (out_buf b)) (wb_end (out_buf b)) b.

#[export] Instance hashing_flush : WriteBuffer (hashing_sink D) :=
  _ ← modify (fun b => set_hasher (calculateHash (buffered b) (hw_hasher (wb_sink b))) b);
  _ ← modify (fun b => set_out_buf (wset_pos (wb_pos b) (wset_mem (wb_mem b) (out_buf b))) b);
  _ ← zoom out_buf set_out_buf wnext;
  modify share_out.

(** The constructor flushes [out] first. *)
Definition HashingWriteBuffer (out : wbuf D) (mem : list Z) (bs : nat) : outcome unit * wbuf (hashing_sink D) :=
  match wnext out with
  | (r, o) => (r, WBuf (wb_mem o) (wb_begin o) (wb_end o) (wb_begin o) 0 (HashingSink o (IHashingBuffer mem bs)))
  end.

Definition hw_getHash : M (wbuf (hashing_sink D)) uint128 :=
  _ ← wnext;
  get (fun b => getHash (hw_hasher (wb_sink b))).
End Writing.

Section WritingLaws.
Context {D : Type} `{Fl : Flushable D} (d0 : list Z) (bs : nat).

(** [d0] is what [out] had received before; everything after it is hashed. *)
Definition hw_ok (b : wbuf (hashing_sink D)) : Prop :=
  let o := out_buf b in
  wwf o /\ sink_ok o /\ wb_begin b = wb_begin o /\ wb_end b = wb_end o /\ length (wb_mem b) = length (wb_mem o) /\
  take (wb_begin b) (wb_mem b) = take (wb_begin b) (wb_mem o) /\ block_size (hw_hasher (wb_sink b)) = bs /\
  exists d, emitted o = d0 ++ d /\ hashed (hw_hasher (wb_sink b)) d.

Lemma hw_flush_next (b : wbuf (hashing_sink D)) :
  wwf b -> hw_ok b -> exists b', wnext b = (Returns tt, b') /\ wwf b' /\ hw_ok b' /\ wb_pos b' = wb_begin b' /\
    drop (length d0) (emitted (out_buf b')) = drop (length d0) (emitted (out_buf b)) ++ buffered b /\ wcount b' = wcount b /\
    emitted (out_buf b') = emitted (out_buf b) ++ buffered b.
Proof.
  intros W (Wo & Ho & E1 & E2 & E3 & E4 & E5 & d & Ed & Hh). pose proof W as (W1 & W2 & W3). unfold wnext. rewrite bind_get.
  destruct (Nat.eqb_spec (woffset b) 0) as [E0|E0].
  { exists b. unfold buffered, slice. unfold woffset in E0. rewrite E0. cbn. rewrite !app_nil_r.
    split_and!; try done; [|lia]. unfold hw_ok. split_and!; try done. by exists d. }
  rewrite bind_modify. set (b1 := wset_bytes _ b). set (o1 := wset_pos (wb_pos b) (wset_mem (wb_mem b) (out_buf b))).
  destruct (sink_put (out_buf b) (wb_mem b) (wb_pos b) Wo Ho E3) as [Ho1 Ee1]; [by rewrite <- E1|lia|].
  destruct (flush_next o1) as (o2 & En & W2' & Ho2 & Ep & Ee & Ec); [unfold wwf, o1; cbn; lia|exact Ho1|].
  assert (buffered o1 = buffered b) as Eb by (unfold buffered, o1; cbn; by rewrite <- E1).
  set (h := calculateHash (buffered b) (hw_hasher (wb_sink b))).
  assert (flushImpl b1 = (Returns tt, share_out (set_out_buf o2 (set_hasher h b1)))) as Ef.
  { unfold flushImpl, hashing_flush. rewrite !bind_modify. set (b3 := set_out_buf _ _).
    rewrite (bind_returns _ _ _ tt (set_out_buf o2 b3)); [done|]. unfold zoom. change (out_buf b3) with o1. by rewrite En. }
  unfold mbind at 1, M_bind at 1, try_catch. rewrite Ef. eexists. split; [reflexivity|].
  pose proof W2' as (V1 & V2 & V3). unfold hw_ok, wwf, wcount, woffset, out_buf. cbn. rewrite Nat.sub_diag, Z.add_0_r, wrap_wrap by lia.
  assert (emitted o2 = emitted (out_buf b) ++ buffered b) as Ee' by (by rewrite Ee, Eb; f_equal).
  split_and!; try done; try lia.
  - unfold h. by rewrite calculateHash_size.
  - exists (d ++ buffered b). split; [by rewrite Ee', Ed, app_assoc|]. by apply calculateHash_hashed.
  - change (hw_out (wb_sink b)) with (out_buf b). rewrite Ee', Ed, <- app_assoc, !drop_app_length. done.
Qed.

Definition hashing_write_laws : WriteBufferLaws (hashing_sink D).
Proof.
  refine {| sink_ok := hw_ok; emitted b := drop (length d0) (emitted (out_buf b)) |}.
  - intros b m p W (Wo & Ho & E1 & E2 & E3 & E4 & E5 & E6) El Et Hp. split; [|done]. unfold hw_ok. cbn.
    split_and!; try done; [by rewrite El|by rewrite Et].
  - intros b W Hok _. destruct (hw_flush_next b W Hok) as (b' & ? & ? & ? & ? & ? & ? & _). exists b'. by split_and!.
Defined.

Lemma hashing_write_state (out : wbuf D) t mem :
  wstate out d0 t -> (0 < bs)%nat -> length mem = bs ->
  exists b, HashingWriteBuffer out mem bs = (Returns tt, b) /\ wstate (L := hashing_write_laws) b [] 0.
Proof.
  intros (W & Ho & E & Ec) Hb Hm. destruct (flush_next out W Ho) as (o & En & Wo & Hoo & Ep & Ee & _).
  unfold HashingWriteBuffer. rewrite En. eexists. split; [reflexivity|]. pose proof Wo as (V1 & V2 & V3).
  unfold wstate, wwf. cbn [sink_ok emitted hashing_write_laws]. unfold hw_ok, out_buf, buffered, slice, wcount, woffset. cbn.
  rewrite Nat.sub_diag. rewrite E in Ee. cbn. split_and!; try done; try lia.
  - exists []. rewrite app_nil_r. split; [done|by apply hashed_start].
  - rewrite app_nil_r. apply drop_ge. rewrite Ee. done.
Qed.

Lemma hw_getHash_spec (b : wbuf (hashing_sink D)) w t :
  wstate (L := hashing_write_laws) b w t ->
  exists b', hw_getHash b = (Returns (blockwise bs w), b') /\ emitted (out_buf b') = d0 ++ w.
Proof.
  intros (W & Hok & E & _). cbn [emitted hashing_write_laws] in E.
  destruct (hw_flush_next b W Hok) as (b' & En & _ & (_ & _ & _ & _ & _ & _ & Es & d & Ed & Hh) & _ & Ee & _ & Eo).
  exists b'. unfold hw_getHash. rewrite (bind_returns _ _ _ _ _ En). unfold get. rewrite (getHash_blockwise _ _ Hh), Es.
  rewrite Ed, drop_app_length, E in Ee. subst d. by rewrite Ed.
Qed.
End WritingLaws.

(** ** [HashingReadBuffer] *)

Record hashing_source (D : Type) := HashingSource { hr_in : rbuf D; hr_hasher : hasher }.
Arguments HashingSource {D}.
Arguments hr_in {D}.
Arguments hr_hasher {D}.

Section Reading.
Context {D : Type} `{ReadBuffer D}.

Definition hr_buf (b : rbuf (hashing_source D)) : rbuf D := hr_in (rb_src b).
Definition set_hr_in (i : rbuf D) (b : rbuf (hashing_source D)) : rbuf (hashing_source D) :=
  set_src (HashingSource i (hr_hasher (rb_src b))) b.

Definition HashingReadBuffer (i : rbuf D) (mem : list Z) (bs : nat) : rbuf (hashing_source D) :=
  let h := IHashingBuffer mem bs in
  let h' := if (size i =? 0)%nat then h else calculateHash (pending i) h in
  RBuf (rb_mem i) (rb_begin i) (rb_end i) (rb_pos i) 0 0 (HashingSource i h').

#[export] Instance hashing_nextImpl : ReadBuffer (hashing_source D) :=
  _ ← modify (fun b => set_hr_in (set_pos (rb_pos b) (hr_buf b)) b);
  res ← zoom hr_buf set_hr_in next;
  _ ← modify (fun b => set_buffer (rb_mem (hr_buf b)) (rb_begin (hr_buf b)) (rb_end (hr_buf b)) b);
  _ ← modify (fun b => set_pos (rb_pos (hr_buf b)) b);
  _ ← modify (fun b =>
        set_src (HashingSource (hr_buf b) (calculateHash (slice (rb_begin b) (rb_end b) (rb_mem b)) (hr_hasher (rb_src b)))) b);
  mret res.

Definition hr_getHash (b : rbuf (hashing_source D)) : uint128 := getHash (hr_hasher (rb_src b)).
End Reading.

Section ReadingLaws.
Context {D : Type} `{L : ReadBufferLaws D} (l0 : list Z) (bs : nat).

(** Of the data [l0] that was ahead at the construction, what is no longer
    ahead of [in] has been hashed. *)
Definition hr_ok (b : rbuf (hashing_source D)) : Prop :=
  let i := hr_buf b in
  working_buffer_offset b = 0%nat /\ wf i /\ src_ok i /\ rb_mem b = rb_mem i /\ rb_begin b = rb_begin i /\ rb_end b = rb_end i /\
  block_size (hr_hasher (rb_src b)) = bs /\ exists d, l0 = d ++ coming i /\ hashed (hr_hasher (rb_src b)) d.

Lemma hr_next (b : rbuf (hashing_source D)) :
  wf b -> hr_ok b -> rb_pos b = rb_end b ->
  exists b', next b = (Returns (bool_decide (coming (hr_buf b) <> [])), b') /\
    wf b' /\ hr_ok b' /\ pending b' ++ coming (hr_buf b') = coming (hr_buf b) /\ rb_pos b' = rb_begin b' /\
    (coming (hr_buf b) <> [] -> rb_pos b' < rb_end b')%nat /\ count b' = count b.
Proof.
  intros W (Hw & Wi & Hi & E1 & E2 & E3 & E4 & d & Ed & Hh) Ep.
  destruct (src_move (hr_buf b) (rb_pos b) Wi Hi) as [Hi1 Ec1]; [destruct Wi; lia|].
  destruct (src_next (set_pos (rb_pos b) (hr_buf b))) as (i & En & Wi' & Hi' & Edt & Eb & Hp & _);
    [destruct Wi, W; split; cbn; lia|done|cbn; lia|]. rewrite Ec1 in *.
  set (r := bool_decide (coming (hr_buf b) <> [])) in *.
  set (h := calculateHash (slice (rb_begin i) (rb_end i) (rb_mem i)) (hr_hasher (rb_src b))).
  assert (nextImpl (entered b) = (Returns r, set_src (HashingSource i h) (set_pos (rb_pos i) (set_buffer (rb_mem i) (rb_begin i) (rb_end i) (entered b))))) as Ei.
  { unfold nextImpl, hashing_nextImpl. rewrite bind_modify. set (b0 := set_hr_in _ _).
    rewrite (bind_returns _ _ _ r (set_hr_in i b0)); [done|]. unfold zoom.
    change (hr_buf b0) with (set_pos (rb_pos b) (hr_buf b)). by rewrite En. }
  rewrite (next_returns _ _ _ Ei). set (b1 := set_src _ _). exists (refilled r b1). split; [reflexivity|].
  assert (pending i = slice (rb_begin i) (rb_end i) (rb_mem i)) as Epd by (unfold pending; by rewrite Eb).
  assert (r = false -> rb_end i = rb_begin i) as Hend.
  { intros Er. unfold r in Er. apply bool_decide_eq_false in Er.
    assert (coming (hr_buf b) = []) as E0 by (destruct (coming (hr_buf b)); [done|by destruct Er]).
    rewrite E0 in Edt. apply app_nil in Edt as [Hz _]. apply (f_equal length) in Hz. rewrite (length_pending i Wi') in Hz.
    unfold available in Hz. cbn in Hz. destruct Wi'. lia. }
  assert (refilled r b1 = set_pos (rb_begin i) b1) as Er.
  { unfold refilled, b1, resize, set_start, set_pos, set_src, set_buffer. destruct r; cbn; rewrite Hw, ?Nat.add_0_r; [done|].
    by rewrite (Hend eq_refl). }
  assert (block_size h = bs /\ hashed h (d ++ pending i)) as [Hbs Hhd].
  { unfold h. rewrite <- Epd, calculateHash_size. split; [done|by apply calculateHash_hashed]. }
  clearbody h. rewrite Er. destruct Wi' as [V1 V2]. unfold wf, hr_ok, hr_buf, count, offset, pending. unfold b1. cbn.
  rewrite Nat.sub_diag, Z.add_0_r, wrap_wrap by lia. fold (hr_buf b). rewrite Eb in *.
  split_and!; try done; try lia.
  - split; rewrite ?Eb; done.
  - exists (d ++ pending i). split; [by rewrite Ed, <- Edt, app_assoc|done].
  - rewrite <- Edt, Epd. done.
Qed.

Definition hashing_read_laws : ReadBufferLaws (hashing_source D).
Proof.
  refine {| src_ok := hr_ok; coming b := coming (hr_buf b) |}.
  - done.
  - exact hr_next.
Defined.

Lemma hashing_read_state (i : rbuf D) t mem :
  state i l0 t -> (0 < bs)%nat -> length mem = bs ->
  state (L := hashing_read_laws) (HashingReadBuffer i mem bs) l0 (Z.of_nat (offset i) +64 Z.of_nat (length l0)).
Proof.
  intros (W & Hi & E & _) Hb Hm. unfold state. cbn [coming src_ok hashing_read_laws].
  unfold hr_ok, HashingReadBuffer, hr_buf, count, offset, pending in *. cbn. rewrite wrap_add_l.
  set (h := if (size i =? 0)%nat then _ else _).
  assert (hashed h (slice (rb_pos i) (rb_end i) (rb_mem i)) /\ block_size h = bs) as [Hh Hs].
  { unfold h. pose proof (hashed_start mem bs Hb Hm) as H0. destruct (Nat.eqb_spec (size i) 0) as [E0|E0].
    - split; [|done]. replace (slice _ _ _) with (@nil Z); [done|]. unfold slice. destruct W. unfold size in E0.
      replace (rb_end i - rb_pos i)%nat with 0%nat by lia. done.
    - split; [|by rewrite calculateHash_size]. by apply (calculateHash_hashed _ []). }
  split_and!; try done. exists (slice (rb_pos i) (rb_end i) (rb_mem i)). by rewrite E.
Qed.

Lemma hr_getHash_spec (b : rbuf (hashing_source D)) t :
  state (L := hashing_read_laws) b [] t -> hr_getHash b = blockwise bs l0.
Proof.
  intros (W & (_ & _ & _ & _ & _ & _ & Es & d & Ed & Hh) & E & _). cbn [coming hashing_read_laws] in E.
  apply app_nil in E as [_ E]. rewrite E, app_nil_r in Ed. unfold hr_getHash. by rewrite (getHash_blockwise _ _ Hh), Es, Ed.
Qed.
End ReadingLaws.

(** ** Theorems *)

(** The checksum of written data.  Whatever functions [m] write through a
    [HashingWriteBuffer], [getHash] returns the blockwise [CityHash128] of the
    bytes written, independent of the sizes of the buffers, and all bytes
    have gone out. *)
Theorem hash_of_writes {D A} `{Fl : Flushable D} (out : wbuf D) d0 t mem bs (m : M (wbuf (hashing_sink D)) A) a w :
  wstate out d0 t -> (0 < bs)%nat -> length mem = bs ->
  writes (L := hashing_write_laws d0 bs) m a w ->
  exists b b' b'', HashingWriteBuffer out mem bs = (Returns tt, b) /\ m b = (Returns a, b') /\
    hw_getHash b' = (Returns (blockwise bs w), b'') /\ emitted (out_buf b'') = d0 ++ w.
Proof.
  intros St Hb Hm Hw. destruct (hashing_write_state d0 bs out t mem St Hb Hm) as (b & E & St1).
  destruct (Hw b [] 0 St1) as (b' & E' & St2). destruct (hw_getHash_spec d0 bs b' w 0 St2) as (b'' & E'' & Ee).
  exists b, b', b''. by split_and!.
Qed.

(** The checksum of read data.  When a function has read a stream through a
    [HashingReadBuffer] to its end, the hash is the blockwise [CityHash128] of
    the data of the stream, the same as the one of a [HashingWriteBuffer]
    through which that data was written. *)
Theorem hash_of_reads {D A} `{L : ReadBufferLaws D} (i : rbuf D) l t mem bs (m : M (rbuf (hashing_source D)) A) r :
  state i l t -> (0 < bs)%nat -> length mem = bs -> reads (L := hashing_read_laws l bs) m l r [] ->
  exists b, m (HashingReadBuffer i mem bs) = (r, b) /\ hr_getHash b = blockwise bs l.
Proof.
  intros St Hb Hm Hr. destruct (Hr _ _ (hashing_read_state l bs i t mem St Hb Hm)) as (b & E & St').
  exists b. split; [done|]. exact (hr_getHash_spec l bs b _ St').
Qed.

Lemma hash_of_reads_witness :
  exists b, read 5 (HashingReadBuffer (ReadBufferFromMemory [1; 2; 3; 4; 5]) [0; 0] 2) = (Returns [1; 2; 3; 4; 5], b) /\
    hr_getHash b = blockwise 2 [1; 2; 3; 4; 5].
Proof.
  apply (hash_of_reads (ReadBufferFromMemory [1; 2; 3; 4; 5]) [1; 2; 3; 4; 5] 5 [0; 0] 2 (read 5) (Returns [1; 2; 3; 4; 5])).
  - apply (memory_state [1; 2; 3; 4; 5]).
  - lia.
  - reflexivity.
  - exact (reads_read (L := hashing_read_laws _ _) 5 [1; 2; 3; 4; 5]).
Defined.

Lemma hash_of_writes_witness :
  exists b b' b'', HashingWriteBuffer demo_out [0; 0] 2 = (Returns tt, b) /\ write [1; 2; 3; 4; 5] b = (Returns tt, b') /\
    hw_getHash b' = (Returns (blockwise 2 [1; 2; 3; 4; 5]), b'') /\ emitted (out_buf b'') = [] ++ [1; 2; 3; 4; 5].
Proof.
  apply (hash_of_writes demo_out [] 0 [0; 0] 2 (write [1; 2; 3; 4; 5]) tt [1; 2; 3; 4; 5]).
  - exact demo_out_state.
  - lia.
  - reflexivity.
  - exact (writes_write (L := hashing_write_laws [] 2) [1; 2; 3; 4; 5]).
Defined.
