(* ===== verification/CompressedBuffers.v ===== *)
(** * Compressed streams

    [CompressedWriteBuffer], [CompressedReadBufferBase] and
    [CompressedReadBuffer] of dbms/src/IO.  A compressed stream is a sequence of
    frames: a checksum of sixteen bytes, then a block with the method, the size
    of the block and the size of its data, and the compressed data.

    The codecs are the LZ4 and ZSTD libraries, which are not part of the
    sources: the class [Codecs] has their functions, and [CodecLaws] what their
    documentation promises.

    Shown: what is written through a [CompressedWriteBuffer] is read back
    through a [CompressedReadBuffer], for every method, every size of the
    buffers and every cutting of the compressed data into portions, whether a
    block lies in the working buffer of the source or has to be copied;
    [readBig] gives the same as [read]; a frame whose checksum is not that of
    its block is refused. *)

From stdpp Require Import base list option numbers.
From Stdlib Require Import ZArith Lia.
From S2P Require Import Prelude IOMonad ReadBuffers BufferSources WriteBuffers.
From S2P Require CityHashHost.
From S2P Require Import HashingBuffers.

#[local] Open Scope Z_scope.
#[local] Open Scope word_scope.

(** ** The checksum *)

(** [CityHash128] of a block. *)
Definition block_hash (l : list Z) : uint128 :=
  match CityHashHost.CityHash128 (fun p => rd l p) 0 (Z.of_nat (length l)) with
  | Some r => r
  | None => (0, 0)
  end.

(** The bytes of a [uint128], and the value of sixteen bytes. *)
Definition uint128_bytes (h : uint128) : list Z := le_bytes 8 h.1 ++ le_bytes 8 h.2.
Definition uint128_value (l : list Z) : uint128 := (le_value (take 8 l), le_value (drop 8 l)).

(** ** The format *)

Definition DBMS_MAX_COMPRESSED_SIZE : Z := 0x40000000.
Definition COMPRESSED_BLOCK_HEADER_SIZE : nat := 9.

Inductive CompressionMethod := LZ4 | LZ4HC | ZSTD | NONE.

Record CompressionSettings := Settings { method : CompressionMethod; level : Z }.

Definition getDefaultLevel (m : CompressionMethod) : Z :=
  match m with LZ4 => -1 | LZ4HC => 0 | ZSTD => 1 | NONE => -1 end.

Definition CompressionSettings_of (m : CompressionMethod) : CompressionSettings := Settings m (getDefaultLevel m).

(** [CompressionMethodByte] *)
Definition BYTE_NONE : Z := 0x02.
Definition BYTE_LZ4 : Z := 0x82.
Definition BYTE_ZSTD : Z := 0x90.

(** ** The codecs *)

(** A compressor takes the data and the capacity of the destination and gives
    the bytes it writes; LZ4 returns their number, zero when it fails.
    [LZ4_decompress_fast] is given no size of the source, so it gets all bytes
    behind its pointer; it fills the destination.  [ZSTD_decompress] may give
    fewer bytes than the destination has.  [uninitialised n] is what [n] bytes
    of memory hold that nobody has written yet. *)
Class Codecs := {
  LZ4_COMPRESSBOUND : nat -> nat;
  LZ4_compress_default : list Z -> nat -> list Z;
  LZ4_compress_HC : list Z -> nat -> Z -> list Z;
  LZ4_decompress_fast : list Z -> nat -> option (list Z);
  ZSTD_compressBound : nat -> nat;
  ZSTD_compress : list Z -> nat -> Z -> option (list Z);
  ZSTD_decompress : list Z -> nat -> option (list Z);
  uninitialised : nat -> list Z
}.

(** ** Writing *)

Record compressed_sink (D : Type) := CompressedSink { cw_out : wbuf D; cw_settings : CompressionSettings }.
Arguments CompressedSink {D}.
Arguments cw_out {D}.
Arguments cw_settings {D}.

Section Writing.
Context {D : Type} `{WriteBuffer D} `{Codecs}.

(** The header in front of the compressed data. *)
Definition block_of (byte : Z) (data compressed : list Z) : list Z :=
  let compressed_size := Z.of_nat (COMPRESSED_BLOCK_HEADER_SIZE + length compressed) in
  byte :: le_bytes 4 (u32 compressed_size) ++ le_bytes 4 (u32 (Z.of_nat (length data))) ++ compressed.

Definition compress_block (s : CompressionSettings) (data : list Z) : outcome (list Z) :=
  let uncompressed_size := length data in
  match method s with
  | LZ4 => Returns (block_of BYTE_LZ4 data (LZ4_compress_default data (LZ4_COMPRESSBOUND uncompressed_size)))
  | LZ4HC => Returns (block_of BYTE_LZ4 data (LZ4_compress_HC data (LZ4_COMPRESSBOUND uncompressed_size) (level s)))
  | ZSTD =>
      match ZSTD_compress data (ZSTD_compressBound uncompressed_size) (level s) with
      | Some res => Returns (block_of BYTE_ZSTD data res)
      | None => Throws CANNOT_COMPRESS
      end
  | NONE => Returns (block_of BYTE_NONE data data)
  end.

Definition cw_out_buf (b : wbuf (compressed_sink D)) : wbuf D := cw_out (wb_sink b).
Definition set_cw_out (o : wbuf D) (b : wbuf (compressed_sink D)) : wbuf (compressed_sink D) :=
  wset_sink (CompressedSink o (cw_settings (wb_sink b))) b.

#[export] Instance compressed_flush : WriteBuffer (compressed_sink D) :=
  n ← get woffset;
  if (n =? 0)%nat then mret tt
  else
    r ← get (fun b => compress_block (cw_settings (wb_sink b)) (buffered b));
    match r with
    | Throws e => throw e
    | Returns compressed_buffer =>
        _ ← zoom cw_out_buf set_cw_out (write (uint128_bytes (block_hash compressed_buffer)));
        zoom cw_out_buf set_cw_out (write compressed_buffer)
    end.

(** [CompressedWriteBuffer(out_, compression_settings_, buf_size)], with the
    bytes of its memory. *)
Definition CompressedWriteBuffer (out : wbuf D) (s : CompressionSettings) (mem : list Z) : wbuf (compressed_sink D) :=
  WriteBuffer_on mem (CompressedSink out s).

Definition getCompressedBytes : M (wbuf (compressed_sink D)) Z :=
  _ ← wnextIfAtEnd;
  get (fun b => wcount (cw_out_buf b)).

Definition getUncompressedBytes : M (wbuf (compressed_sink D)) Z := get wcount.

Definition getRemainingBytes : M (wbuf (compressed_sink D)) nat :=
  _ ← wnextIfAtEnd;
  get woffset.
End Writing.

(** ** Reading *)

(** [compressed_buffer] is the memory from that pointer on, to the end of the
    block it points into: that of [compressed_in] or [own_compressed_buffer]. *)
Record compressed_source (D : Type) := CompressedSource {
  compressed_in : rbuf D;
  compressed_buffer : list Z;
  disable_checksum : bool;
  size_compressed : Z
}.
Arguments CompressedSource {D}.
Arguments compressed_in {D}.
Arguments compressed_buffer {D}.
Arguments disable_checksum {D}.
Arguments size_compressed {D}.

Section Reading.
Context {D : Type} `{ReadBuffer D} `{Codecs}.

Definition cr_in (b : rbuf (compressed_source D)) : rbuf D := compressed_in (rb_src b).
Definition set_cr_in (i : rbuf D) (b : rbuf (compressed_source D)) : rbuf (compressed_source D) :=
  let s := rb_src b in set_src (CompressedSource i (compressed_buffer s) (disable_checksum s) (size_compressed s)) b.
Definition set_compressed (l : list Z) (b : rbuf (compressed_source D)) : rbuf (compressed_source D) :=
  let s := rb_src b in set_src (CompressedSource (compressed_in s) l (disable_checksum s) (size_compressed s)) b.
Definition set_size (n : Z) (b : rbuf (compressed_source D)) : rbuf (compressed_source D) :=
  let s := rb_src b in set_src (CompressedSource (compressed_in s) (compressed_buffer s) (disable_checksum s) n) b.
Definition inner {A} (m : M (rbuf D) A) : M (rbuf (compressed_source D)) A := zoom cr_in set_cr_in m.

Definition disableChecksumming : M (rbuf (compressed_source D)) unit :=
  modify (fun b => let s := rb_src b in set_src (CompressedSource (compressed_in s) (compressed_buffer s) true (size_compressed s)) b).

(** Is the whole block in the working buffer of [compressed_in]? *)
Definition block_here (i : rbuf D) (size : nat) : bool :=
  (COMPRESSED_BLOCK_HEADER_SIZE <=? offset i)%nat && (rb_pos i + size <=? rb_end i + COMPRESSED_BLOCK_HEADER_SIZE)%nat.

(** The part of [readCompressedData] that finds the block of [size] bytes whose
    header has been read.  A size below that of the header makes
    [size_compressed - COMPRESSED_BLOCK_HEADER_SIZE] wrap around; the read then
    goes beyond [own_compressed_buffer]. *)
Definition locate_block (header : list Z) (size : nat) : M (rbuf (compressed_source D)) unit :=
  h ← get (fun b => block_here (cr_in b) size);
  if h : bool then
    _ ← modify (fun b => set_compressed (drop (rb_pos (cr_in b) - COMPRESSED_BLOCK_HEADER_SIZE) (rb_mem (cr_in b))) b);
    modify (fun b => set_cr_in (set_pos (rb_pos (cr_in b) - COMPRESSED_BLOCK_HEADER_SIZE + size) (cr_in b)) b)
  else if (size <? COMPRESSED_BLOCK_HEADER_SIZE)%nat then throw BUFFER_OVERRUN
  else
    rest ← inner (readStrict (size - COMPRESSED_BLOCK_HEADER_SIZE));
    modify (set_compressed (header ++ rest)).

(** The result and the two sizes that are returned by reference; the result is
    zero at the end of the data. *)
Definition readCompressedData : M (rbuf (compressed_source D)) (Z * nat * nat) :=
  e ← inner eof;
  if e : bool then mret (0, 0%nat, 0%nat)
  else
    checksum ← inner (readStrict 16);
    header ← inner (readStrict COMPRESSED_BLOCK_HEADER_SIZE);
    let m := rd header 0 in
    if (m =? BYTE_LZ4) || (m =? BYTE_ZSTD) || (m =? BYTE_NONE) then
      let size := le_value (take 4 (drop 1 header)) in
      let size_decompressed := le_value (take 4 (drop 5 header)) in
      if DBMS_MAX_COMPRESSED_SIZE <? size then throw TOO_LARGE_SIZE_COMPRESSED
      else
        _ ← locate_block header (Z.to_nat size);
        dis ← get (fun b => disable_checksum (rb_src b));
        hash ← get (fun b => block_hash (take (Z.to_nat size) (compressed_buffer (rb_src b))));
        if negb dis && negb (bool_decide (uint128_value checksum = hash)) then throw CHECKSUM_DOESNT_MATCH
        else mret (size + 16, Z.to_nat size_decompressed, Z.to_nat size)
    else throw UNKNOWN_COMPRESSION_METHOD.

(** The memory [to] after [decompress].  A ZSTD block smaller than its header,
    or uncompressed data that is longer than what lies behind the header, make
    it read outside. *)
Definition decompress (to : list Z) (size_decompressed size : nat) : M (rbuf (compressed_source D)) (list Z) :=
  buf ← get (fun b => compressed_buffer (rb_src b));
  let m := rd buf 0 in
  let source := drop COMPRESSED_BLOCK_HEADER_SIZE buf in
  if m =? BYTE_LZ4 then
    match LZ4_decompress_fast source size_decompressed with
    | Some d => mret (copy_in 0 d to)
    | None => throw CANNOT_DECOMPRESS
    end
  else if m =? BYTE_ZSTD then
    if (size <? COMPRESSED_BLOCK_HEADER_SIZE)%nat then throw BUFFER_OVERRUN
    else
      match ZSTD_decompress (take (size - COMPRESSED_BLOCK_HEADER_SIZE) source) size_decompressed with
      | Some d => mret (copy_in 0 d to)
      | None => throw CANNOT_DECOMPRESS
      end
  else if m =? BYTE_NONE then
    if (size_decompressed <=? length source)%nat then mret (copy_in 0 (take size_decompressed source) to)
    else throw BUFFER_OVERRUN
  else throw UNKNOWN_COMPRESSION_METHOD.

(** [memory.resize(n)], with [working_buffer = Buffer(&memory[0], &memory[n])]. *)
Definition own_memory (n : nat) (b : rbuf (compressed_source D)) : rbuf (compressed_source D) :=
  set_buffer (rb_mem b ++ uninitialised (n - length (rb_mem b))) 0 n b.

(** [decompress(working_buffer.begin(), ...)] *)
Definition decompress_here (size_decompressed size : nat) : M (rbuf (compressed_source D)) unit :=
  _ ← modify (own_memory size_decompressed);
  to ← get rb_mem;
  m ← decompress to size_decompressed size;
  modify (fun b => set_buffer m (rb_begin b) (rb_end b) b).

#[export] Instance compressed_nextImpl : ReadBuffer (compressed_source D) :=
  r ← readCompressedData;
  let '(res, size_decompressed, size) := r in
  _ ← modify (set_size res);
  if res =? 0 then mret false
  else
    _ ← decompress_here size_decompressed size;
    mret true.

(** The loop of [readBig]; [to] is what has been read. *)
Fixpoint readBig_loop (fuel : nat) (n : nat) (to : list Z) : M (rbuf (compressed_source D)) (list Z) :=
  match fuel with
  | 0%nat => throw NO_FUEL
  | S f =>
      if (length to <? n)%nat then
        r ← readCompressedData;
        let '(res, size_decompressed, size) := r in
        if res =? 0 then mret to
        else if (size_decompressed <=? n - length to)%nat then
          d ← decompress (uninitialised size_decompressed) size_decompressed size;
          _ ← modify (fun b => set_bytes (rb_bytes b +64 Z.of_nat size_decompressed) b);
          readBig_loop f n (to ++ d)
        else
          _ ← modify (fun b => set_bytes (rb_bytes b +64 Z.of_nat (offset b)) b);
          _ ← modify (own_memory size_decompressed);
          _ ← modify (fun b => set_pos (rb_begin b) b);
          m ← get rb_mem;
          m ← decompress m size_decompressed size;
          _ ← modify (fun b => set_buffer m (rb_begin b) (rb_end b) b);
          more ← read (n - length to);
          mret (to ++ more)
      else mret to
  end.

Definition readBig (n : nat) : M (rbuf (compressed_source D)) (list Z) :=
  p ← get hasPendingData;
  k ← get (fun b => Nat.min (available b) n);
  to ← if p : bool then read k else mret [];
  readBig_loop (S n) n to.

(** [CompressedReadBuffer(in_)] *)
Definition CompressedReadBuffer (i : rbuf D) : rbuf (compressed_source D) :=
  ReadBuffer_empty [] (CompressedSource i [] false 0).

Definition getSizeCompressed (b : rbuf (compressed_source D)) : Z := size_compressed (rb_src b).
End Reading.

(** ** What the codecs promise *)

(** With a destination of the size that the library asks for, compression
    succeeds, and decompression gives back the data, for LZ4 whatever follows
    the compressed bytes in memory.  [LZ4_MAX_INPUT_SIZE] is the largest input. *)
Definition LZ4_MAX_INPUT_SIZE : Z := 0x7E000000.

Class CodecLaws `{Codecs} := {
  length_uninitialised : forall n, length (uninitialised n) = n;
  lz4_bound : forall n, Z.of_nat n <= LZ4_MAX_INPUT_SIZE -> Z.of_nat (LZ4_COMPRESSBOUND n) <= Z.of_nat n + Z.of_nat n / 255 + 16;
  lz4_size : forall x c, (length (LZ4_compress_default x c) <= c)%nat;
  lz4hc_size : forall x c l, (length (LZ4_compress_HC x c l) <= c)%nat;
  lz4_inverse : forall x rest, x <> [] -> Z.of_nat (length x) <= LZ4_MAX_INPUT_SIZE ->
    LZ4_decompress_fast (LZ4_compress_default x (LZ4_COMPRESSBOUND (length x)) ++ rest) (length x) = Some x;
  lz4hc_inverse : forall x l rest, x <> [] -> Z.of_nat (length x) <= LZ4_MAX_INPUT_SIZE ->
    LZ4_decompress_fast (LZ4_compress_HC x (LZ4_COMPRESSBOUND (length x)) l ++ rest) (length x) = Some x;
  zstd_bound : forall n, Z.of_nat (ZSTD_compressBound n) <= Z.of_nat n + Z.of_nat n / 256 + 64;
  zstd_inverse : forall x l, exists z, ZSTD_compress x (ZSTD_compressBound (length x)) l = Some z /\
    (length z <= ZSTD_compressBound (length x))%nat /\ ZSTD_decompress z (length x) = Some x
}.

(** ** The format as a relation, and as a function *)

Section Format.
Context `{Codecs}.

(** [block] is a block of the format that holds [data]. *)
Record block_data (block data : list Z) : Prop := {
  bd_size : (9 <= length block)%nat /\ Z.of_nat (length block) <= DBMS_MAX_COMPRESSED_SIZE;
  bd_compressed : le_value (take 4 (drop 1 block)) = Z.of_nat (length block);
  bd_decompressed : le_value (take 4 (drop 5 block)) = Z.of_nat (length data);
  bd_data :
    (rd block 0 = BYTE_LZ4 /\ forall rest, LZ4_decompress_fast (drop 9 block ++ rest) (length data) = Some data) \/
    (rd block 0 = BYTE_ZSTD /\ ZSTD_decompress (drop 9 block) (length data) = Some data) \/
    (rd block 0 = BYTE_NONE /\ take (length data) (drop 9 block) = data)
}.

Definition frame (block : list Z) : list Z := uint128_bytes (block_hash block) ++ block.

Inductive stream : list Z -> list Z -> Prop :=
| stream_nil : stream [] []
| stream_frame block data raw rest :
    block_data block data -> data <> [] -> stream raw rest -> stream (frame block ++ raw) (data ++ rest).

Definition decode_block (block : list Z) : list Z :=
  let n := Z.to_nat (le_value (take 4 (drop 5 block))) in
  if rd block 0 =? BYTE_LZ4 then default [] (LZ4_decompress_fast (drop 9 block) n)
  else if rd block 0 =? BYTE_ZSTD then default [] (ZSTD_decompress (drop 9 block) n)
  else take n (drop 9 block).

Fixpoint decode (fuel : nat) (raw : list Z) : list Z :=
  match fuel, raw with
  | 0%nat, _ | _, [] => []
  | S f, _ =>
      let size := Z.to_nat (le_value (take 4 (drop 17 raw))) in
      decode_block (take size (drop 16 raw)) ++ decode f (drop (16 + size) raw)
  end.

Lemma length_checksum h : length (uint128_bytes h) = 16%nat.
Proof. unfold uint128_bytes. by rewrite length_app, !length_le_bytes. Qed.

Lemma length_frame block : length (frame block) = (16 + length block)%nat.
Proof. unfold frame. by rewrite length_app, length_checksum. Qed.

Lemma decode_block_data block data : block_data block data -> decode_block block = data.
Proof.
  intros [_ _ Hd Hb]. unfold decode_block. rewrite Hd, Nat2Z.id.
  destruct Hb as [[-> E]|[[-> E]|[-> E]]]; cbn.
  - specialize (E []). rewrite app_nil_r in E. by rewrite E.
  - by rewrite E.
  - done.
Qed.

Lemma decode_stream raw data fuel : stream raw data -> (length raw <= fuel)%nat -> decode fuel raw = data.
Proof.
  intros Hs. revert fuel. induction Hs as [|block data raw rest Hb Hne Hs IH]; intros fuel Hf; [by destruct fuel|].
  rewrite length_app, length_frame in Hf. destruct fuel as [|fuel]; [lia|].
  destruct (frame block ++ raw) as [|x l] eqn:E; [apply (f_equal length) in E; rewrite length_app, length_frame in E; cbn in E; lia|].
  cbn [decode]. rewrite <- E. clear E x l. unfold frame. rewrite <- !app_assoc.
  assert (drop 16 (uint128_bytes (block_hash block) ++ block ++ raw) = block ++ raw) as E16 by (apply drop_app_length'; by rewrite length_checksum).
  change 17%nat with (16 + 1)%nat. rewrite <- drop_drop, E16. pose proof (bd_size _ _ Hb) as [Hlen _].
  assert (take 4 (drop 1 (block ++ raw)) = take 4 (drop 1 block)) as E4.
  { rewrite drop_app_le by lia. apply take_app_le. rewrite length_drop. lia. }
  rewrite E4, (bd_compressed _ _ Hb), Nat2Z.id, <- drop_drop, E16, take_app_length, drop_app_length.
  f_equal; [by apply decode_block_data|]. apply IH. lia.
Qed.

Lemma stream_nonempty raw data : stream raw data -> raw = [] <-> data = [].
Proof.
  intros [|block d raw' rest Hb Hne Hs]; [done|]. split; intros E; apply app_nil in E as [E _]; [|done].
  apply (f_equal length) in E. rewrite length_frame in E. done.
Qed.

Lemma stream_app raw data raw' data' : stream raw data -> stream raw' data' -> stream (raw ++ raw') (data ++ data').
Proof. induction 1; intros; [done|]. rewrite <- !app_assoc. constructor; auto. Qed.
End Format.

(** ** The checksum of a frame is recognised *)

Lemma HashLen16_fits u v : fits 64 (CityHashHost.HashLen16 u v).
Proof. unfold CityHashHost.HashLen16, CityHashHost.Hash128to64. apply wrap_fits. lia. Qed.

Lemma CityHash128WithSeed_fits m s len seed r : CityHashHost.CityHash128WithSeed m s len seed = Some r -> fits 64 r.1 /\ fits 64 r.2.
Proof.
  unfold CityHashHost.CityHash128WithSeed. destruct (len <? 128).
  - unfold CityHashHost.CityMurmur. intros E. match type of E with match ?x with _ => _ end = _ => destruct x as [[[[a b] c] d]|] end; [|done].
    injection E as <-. cbn [fst snd]. split; [|apply HashLen16_fits]. apply fits_lxor; [lia|apply HashLen16_fits..].
  - destruct (CityHashHost.CityHash128_loop _ _ _ _ _) as [[[s' l'] [x y z v w]]|]; [|done].
    destruct (CityHashHost.CityHash128_tail _ _ _ _ _ _) as [[x' y' z' v' w']|]; [|done]. intros [= <-]. cbn [fst snd].
    split; [apply wrap_fits; lia|apply HashLen16_fits].
Qed.

Lemma block_hash_fits l : fits 64 (block_hash l).1 /\ fits 64 (block_hash l).2.
Proof.
  unfold block_hash. destruct (CityHashHost.CityHash128 _ _ _) as [r|] eqn:E; [|unfold fits; cbn; lia].
  unfold CityHashHost.CityHash128 in E. repeat case_match; by eapply CityHash128WithSeed_fits.
Qed.

Lemma checksum_value l : uint128_value (uint128_bytes (block_hash l)) = block_hash l.
Proof.
  destruct (block_hash_fits l) as [H1 H2]. unfold uint128_value, uint128_bytes.
  rewrite take_app_length', drop_app_length' by (by rewrite length_le_bytes). rewrite !le_value_bytes by done. by destruct (block_hash l).
Qed.

(** ** Reading a frame *)

Section ReadingFrames.
Context {D : Type} `{L : ReadBufferLaws D} `{Codecs}.

(** What the inner operations do to the outer buffer. *)
Lemma inner_reads {A} (m : M (rbuf D) A) l r l' (b : rbuf (compressed_source D)) t :
  reads m l r l' -> state (cr_in b) l t -> exists i, inner m b = (r, set_cr_in i b) /\ state i l' t.
Proof. intros Hm St. destruct (Hm _ _ St) as (i & E & St'). exists i. unfold inner, zoom. by rewrite E. Qed.

Lemma header_split block :
  (9 <= length block)%nat ->
  take 9 block ++ drop 9 block = block /\ length (take 9 block) = 9%nat /\ rd (take 9 block) 0 = rd block 0 /\
  take 4 (drop 1 (take 9 block)) = take 4 (drop 1 block) /\ take 4 (drop 5 (take 9 block)) = take 4 (drop 5 block).
Proof. intros Hl. do 9 (destruct block as [|? block]; [cbn in Hl; lia|]). done. Qed.

(** The bytes of the working buffer in front of the cursor. *)
Definition passed (b : rbuf D) : list Z := slice (rb_begin b) (rb_pos b) (rb_mem b).

Lemma passed_advance (b : rbuf D) k : wf b -> (k <= available b)%nat -> passed (set_pos (rb_pos b + k) b) = passed b ++ take k (pending b).
Proof.
  intros [W1 W2] Hk. unfold passed, pending, slice, available in *. cbn.
  replace (rb_pos b + k - rb_begin b)%nat with ((rb_pos b - rb_begin b) + k)%nat by lia.
  rewrite <- take_take_drop, drop_drop, take_take. replace (rb_begin b + (rb_pos b - rb_begin b))%nat with (rb_pos b) by lia. do 2 f_equal. lia.
Qed.

(** Refilling forgets what has been passed; reading appends to it. *)
Lemma read_loop_passed fuel n to l (b : rbuf D) t c b' :
  state b l t -> read_loop fuel n to b = (Returns c, b') -> exists d, c = to ++ d /\ passed b' `suffix_of` passed b ++ d.
Proof.
  revert to l b. induction fuel as [|fuel IH]; intros to l b St E; [done|]. cbn [read_loop] in E.
  destruct (length to <? n)%nat; [|injection E as <- <-; exists []; by rewrite !app_nil_r].
  destruct (eof_spec b l t St) as (b1 & E1 & St1 & Hne). rewrite (bind_returns _ _ _ _ _ E1) in E.
  assert (passed b1 `suffix_of` passed b) as Hs1.
  { unfold eof in E1. rewrite bind_get in E1. destruct (hasPendingData b) eqn:Eh; [by injection E1 as _ <-|].
    pose proof St as (W & Hs & _). unfold hasPendingData in Eh. apply negb_false_iff, Nat.eqb_eq in Eh.
    destruct (src_next b W Hs Eh) as (b2 & En & _ & _ & _ & Ep & _). rewrite (bind_returns _ _ _ _ _ En) in E1. injection E1 as _ <-.
    unfold passed, slice. rewrite Ep, Nat.sub_diag. apply suffix_nil. }
  case_bool_decide as El; [injection E as <- <-; exists []; by rewrite !app_nil_r|].
  rewrite !bind_get in E. set (k := Nat.min (available b1) (n - length to)) in *.
  assert (k <= available b1)%nat as Hk by lia. unfold advance in E. rewrite (bind_returns _ _ _ tt (set_pos (rb_pos b1 + k) b1)) in E
    by (by rewrite (proj2 (Nat.leb_le _ _) Hk)).
  destruct (IH _ _ _ (state_advance _ _ _ _ St1 Hk) E) as (d & -> & Hd). exists (take k (pending b1) ++ d). split; [by rewrite app_assoc|].
  etrans; [exact Hd|]. rewrite (passed_advance b1 k (proj1 St1) Hk), <- app_assoc. destruct Hs1 as [q ->]. exists q. by rewrite <- !app_assoc.
Qed.

Lemma readStrict_passed n l (b : rbuf D) t c b' :
  state b l t -> readStrict n b = (Returns c, b') -> (n <= offset b')%nat -> exists q, passed b' = q ++ c.
Proof.
  intros St E Hn. unfold readStrict, read in E. unfold mbind at 1, M_bind at 1 in E.
  destruct (read_loop (S n) n [] b) as [[c'|e] b1] eqn:E1; [|done]. destruct (n =? length c')%nat eqn:En; [|done]. injection E as -> <-.
  apply Nat.eqb_eq in En. destruct (reads_read_loop (S n) n [] l ltac:(cbn; lia) ltac:(cbn; lia) b t St) as (b2 & E2 & St2).
  rewrite E1 in E2. injection E2 as _ <-. destruct (read_loop_passed _ _ _ _ _ _ _ _ St E1) as (d & Ed & q & Hq). cbn in Ed. subst d.
  apply app_eq_inv in Hq as [(x & H1 & H2)|(x & H1 & H2)]; [by exists x|].
  assert (x = []) as ->; [|exists []; by subst]. apply (f_equal length) in H2.
  assert (length (passed b1) = offset b1) as El.
  { unfold passed, slice, offset. rewrite length_take, length_drop. pose proof (proj1 St2) as [? ?]. lia. }
  rewrite length_app in H2. destruct x; [done|]. cbn in H2. lia.
Qed.

(** The cursor of [i] behind the header, the rest of the block ahead. *)
Lemma locate_block_spec (b : rbuf (compressed_source D)) header rest raw t :
  length header = 9%nat -> state (cr_in b) (rest ++ raw) t -> ((9 <= offset (cr_in b))%nat -> exists q, passed (cr_in b) = q ++ header) ->
  exists i tail, locate_block header (9 + length rest) b = (Returns tt, set_cr_in i (set_compressed (header ++ rest ++ tail) b)) /\ state i raw t.
Proof.
  intros Hh St Hback. unfold locate_block. rewrite bind_get. unfold COMPRESSED_BLOCK_HEADER_SIZE.
  destruct (block_here (cr_in b) (9 + length rest)) eqn:Eh.
  - unfold block_here, COMPRESSED_BLOCK_HEADER_SIZE in Eh. apply andb_true_iff in Eh as [H1%Nat.leb_le H2%Nat.leb_le].
    destruct (Hback H1) as [q Hq]. pose proof St as ([W1 W2] & _). set (i := cr_in b) in *.
    assert (length rest <= available i)%nat as Ha by (unfold available; lia).
    pose proof (state_advance _ _ _ _ St Ha) as St'. rewrite drop_app_length in St'. destruct (state_data _ _ _ St) as [_ Ep].
    rewrite bind_modify. exists (set_pos (rb_pos i + length rest) i), (drop (rb_pos i + length rest) (rb_mem i)). split; [|exact St'].
    assert (drop (rb_pos i - 9) (rb_mem i) = header ++ rest ++ drop (rb_pos i + length rest) (rb_mem i)) as Em.
    { assert (length (passed i) = offset i) as El by (unfold passed, slice, offset; rewrite length_take, length_drop; lia).
      rewrite Hq, length_app, Hh in El. unfold offset in El.
      replace (rb_pos i - 9)%nat with (rb_begin i + length q)%nat by lia. rewrite <- drop_drop.
      rewrite <- (take_drop (rb_pos i - rb_begin i) (drop (rb_begin i) (rb_mem i))). change (take _ (drop _ _)) with (passed i).
      rewrite Hq, drop_drop, <- app_assoc, drop_app_length. f_equal. replace (rb_begin i + (rb_pos i - rb_begin i))%nat with (rb_pos i) by lia.
      rewrite <- (take_drop (length rest) (drop (rb_pos i) (rb_mem i))), drop_drop. f_equal.
      assert (take (length rest) (pending i) = rest) as Er by (rewrite Ep, take_take, Nat.min_l by lia; by rewrite take_app_length).
      rewrite <- Er at 2. unfold pending, slice. rewrite take_take. f_equal. unfold available in Ha. lia. }
    unfold modify, set_cr_in, set_compressed, cr_in. cbn. fold (cr_in b). fold i. rewrite Em.
    replace (rb_pos i - 9 + S (S (S (S (S (S (S (S (S (length rest))))))))))%nat with (rb_pos i + length rest)%nat; [done|].
    unfold offset in H1. lia.
  - rewrite (proj2 (Nat.ltb_ge (9 + length rest) 9)) by lia. replace (9 + length rest - 9)%nat with (length rest) by lia.
    pose proof (reads_readStrict (length rest) (rest ++ raw)) as Hr. rewrite length_app, (proj2 (Nat.leb_le _ _)) in Hr by lia.
    rewrite take_app_length, drop_app_length in Hr.
    destruct (inner_reads _ _ _ _ b t Hr St) as (i & E & St'). exists i, []. rewrite (bind_returns _ _ _ _ _ E). rewrite app_nil_r. done.
Qed.

Lemma readCompressedData_eof (b : rbuf (compressed_source D)) t :
  state (cr_in b) [] t -> exists i, readCompressedData b = (Returns (0, 0%nat, 0%nat), set_cr_in i b) /\ state i [] t.
Proof.
  intros St. destruct (inner_reads _ _ _ _ b t (reads_eof []) St) as (i & E & St'). exists i. unfold readCompressedData.
  by rewrite (bind_returns _ _ _ _ _ E).
Qed.

(** The header of a block that readers accept. *)
Definition head_ok (block : list Z) : Prop :=
  (9 <= length block)%nat /\ Z.of_nat (length block) <= DBMS_MAX_COMPRESSED_SIZE /\
  le_value (take 4 (drop 1 block)) = Z.of_nat (length block) /\
  (rd block 0 = BYTE_LZ4 \/ rd block 0 = BYTE_ZSTD \/ rd block 0 = BYTE_NONE).

(** A block is read, whether it lies in the working buffer or not, and refused
    if the checksum [c] in front of it is not its own. *)
Lemma readCompressedData_block (b : rbuf (compressed_source D)) c block raw t :
  length c = 16%nat -> head_ok block -> state (cr_in b) (c ++ block ++ raw) t ->
  exists i tail,
    readCompressedData b =
      (if negb (disable_checksum (rb_src b)) && negb (bool_decide (uint128_value c = block_hash block)) then Throws CHECKSUM_DOESNT_MATCH
       else Returns (Z.of_nat (length block) + 16, Z.to_nat (le_value (take 4 (drop 5 block))), length block),
       set_cr_in i (set_compressed (block ++ tail) b)) /\
    state i raw t.
Proof.
  intros Hc (Hl & Hmax & Hsz & Hmt) St. destruct (header_split block Hl) as (Es & Hh & B0 & B1 & B5).
  unfold readCompressedData. destruct (inner_reads _ _ _ _ b t (reads_eof _) St) as (i1 & E1 & St1).
  rewrite (bind_returns _ _ _ _ _ E1). rewrite bool_decide_eq_false_2 by (destruct c; done).
  pose proof (reads_readStrict 16 (c ++ block ++ raw)) as Hr2. rewrite length_app, (proj2 (Nat.leb_le _ _)) in Hr2 by lia.
  rewrite take_app_length', drop_app_length' in Hr2 by done.
  destruct (inner_reads _ _ _ _ (set_cr_in i1 b) t Hr2 St1) as (i2 & E2 & St2). rewrite (bind_returns _ _ _ _ _ E2).
  pose proof (reads_readStrict 9 (block ++ raw)) as Hr3. rewrite length_app, (proj2 (Nat.leb_le _ _)) in Hr3 by lia.
  rewrite take_app_le, drop_app_le in Hr3 by lia. destruct (Hr3 i2 t St2) as (i3 & E3 & St3).
  assert (inner (readStrict COMPRESSED_BLOCK_HEADER_SIZE) (set_cr_in i2 (set_cr_in i1 b)) = (Returns (take 9 block), set_cr_in i3 b)) as E3'.
  { unfold inner, zoom. change (cr_in (set_cr_in i2 _)) with i2. unfold COMPRESSED_BLOCK_HEADER_SIZE. by rewrite E3. }
  rewrite (bind_returns _ _ _ _ _ E3'). rewrite B0, B1, B5, Hsz, !Nat2Z.id.
  assert (((rd block 0 =? BYTE_LZ4) || (rd block 0 =? BYTE_ZSTD) || (rd block 0 =? BYTE_NONE)) = true) as -> by (destruct Hmt as [-> | [-> | ->]]; done).
  rewrite (proj2 (Z.ltb_ge _ _) Hmax).
  destruct (locate_block_spec (set_cr_in i3 b) (take 9 block) (drop 9 block) raw t Hh St3) as (i & tail & E4 & St4).
  { exact (readStrict_passed 9 _ i2 t _ i3 St2 E3). }
  replace (9 + length (drop 9 block))%nat with (length block) in E4 by (rewrite length_drop; lia).
  rewrite (bind_returns _ _ _ _ _ E4). rewrite !bind_get. rewrite app_assoc, Es. exists i, tail. split; [|done].
  cbn [rb_src set_cr_in set_compressed set_src compressed_buffer disable_checksum]. rewrite take_app_length.
  by destruct (negb _ && negb _).
Qed.

Lemma block_data_head block data : block_data block data -> head_ok block.
Proof. intros [[H1 H2] H3 _ H4]. split_and!; try done. destruct H4 as [[E _]|[[E _]|[E _]]]; auto. Qed.

Lemma readCompressedData_frame (b : rbuf (compressed_source D)) block data raw t :
  block_data block data -> state (cr_in b) (frame block ++ raw) t ->
  exists i tail, readCompressedData b = (Returns (Z.of_nat (length block) + 16, length data, length block), set_cr_in i (set_compressed (block ++ tail) b)) /\
    state i raw t.
Proof.
  intros Hb St. unfold frame in St. rewrite <- app_assoc in St.
  destruct (readCompressedData_block b _ block raw t (length_checksum _) (block_data_head _ _ Hb) St) as (i & tail & E & St').
  exists i, tail. split; [|done]. rewrite E, bool_decide_eq_true_2, andb_false_r by apply checksum_value.
  by rewrite (bd_decompressed _ _ Hb), Nat2Z.id.
Qed.

Lemma decompress_frame (b : rbuf (compressed_source D)) block data tail to :
  block_data block data -> compressed_buffer (rb_src b) = block ++ tail ->
  decompress to (length data) (length block) b = (Returns (copy_in 0 data to), b).
Proof.
  intros Hb Ec. pose proof (bd_size _ _ Hb) as [Hl _]. unfold decompress. rewrite bind_get, Ec. unfold COMPRESSED_BLOCK_HEADER_SIZE.
  assert (rd (block ++ tail) 0 = rd block 0) as -> by (destruct block; [cbn in Hl; lia|done]).
  rewrite drop_app_le by lia. destruct (bd_data _ _ Hb) as [[E Hd]|[[E Hd]|[E Hd]]]; rewrite E; cbn [Z.eqb].
  - change (BYTE_LZ4 =? BYTE_LZ4) with true. cbv iota. by rewrite Hd.
  - change (BYTE_ZSTD =? BYTE_LZ4) with false. change (BYTE_ZSTD =? BYTE_ZSTD) with true. cbv iota.
    rewrite (proj2 (Nat.ltb_ge _ _) Hl). rewrite take_app_length' by (rewrite length_drop; lia). by rewrite Hd.
  - change (BYTE_NONE =? BYTE_LZ4) with false. change (BYTE_NONE =? BYTE_ZSTD) with false. change (BYTE_NONE =? BYTE_NONE) with true. cbv iota.
    assert (length data <= length (drop 9 block))%nat as Hle by (rewrite <- Hd at 1; rewrite length_take; lia).
    rewrite (proj2 (Nat.leb_le _ _)) by (rewrite length_app; lia). rewrite take_app_le by lia. by rewrite Hd.
Qed.
End ReadingFrames.

(** ** [CompressedReadBuffer] has the laws *)

Section ReadingLaws.
Context {D : Type} `{L : ReadBufferLaws D} `{C : Codecs} `{CL : !CodecLaws}.

(** The compressed data ahead. *)
Definition cr_raw (b : rbuf (compressed_source D)) : list Z := pending (cr_in b) ++ coming (cr_in b).

Definition cr_ok (b : rbuf (compressed_source D)) : Prop :=
  working_buffer_offset b = 0%nat /\ wf (cr_in b) /\ src_ok (cr_in b) /\ exists data, stream (cr_raw b) data.

Definition cr_coming (b : rbuf (compressed_source D)) : list Z := decode (length (cr_raw b)) (cr_raw b).

(** The buffer once a block with [data] has been unpacked into it, [raw] being
    ahead of [i]. *)
Definition unpacked (i : rbuf D) (buf data : list Z) (b : rbuf (compressed_source D)) : rbuf (compressed_source D) :=
  let m := rb_mem b ++ uninitialised (length data - length (rb_mem b)) in
  set_buffer (copy_in 0 data m) 0 (length data) (set_cr_in i (set_compressed buf b)).

Lemma decompress_here_frame (b : rbuf (compressed_source D)) i block data tail :
  block_data block data ->
  decompress_here (length data) (length block) (set_cr_in i (set_compressed (block ++ tail) b)) = (Returns tt, unpacked i (block ++ tail) data b).
Proof.
  intros Hb. unfold decompress_here. rewrite bind_modify, bind_get. set (b1 := own_memory _ _).
  rewrite (bind_returns _ _ _ _ _ (decompress_frame b1 block data tail (rb_mem b1) Hb eq_refl)). done.
Qed.

Lemma unpacked_memory data (m : list Z) :
  slice 0 (length data) (copy_in 0 data (m ++ uninitialised (length data - length m))) = data /\
  (length data <= length (copy_in 0 data (m ++ uninitialised (length data - length m))))%nat.
Proof.
  unfold slice. rewrite drop_0, Nat.sub_0_r. pose proof (take_copy_in 0 data (m ++ uninitialised (length data - length m)) ltac:(lia)) as E.
  rewrite length_copy_in by (rewrite length_app, length_uninitialised; lia). split; [exact E|].
  rewrite length_app, length_uninitialised. lia.
Qed.

Lemma cr_state (b : rbuf (compressed_source D)) raw t data :
  state (cr_in b) raw t -> working_buffer_offset b = 0%nat -> stream raw data -> cr_ok b /\ cr_coming b = data.
Proof.
  intros (W & Hs & E & _) H0 Hst. unfold cr_ok, cr_coming, cr_raw. rewrite E. split; [split_and!; try done; by exists data|]. by apply decode_stream.
Qed.

Lemma cr_next (b : rbuf (compressed_source D)) :
  wf b -> cr_ok b -> rb_pos b = rb_end b ->
  exists b', next b = (Returns (bool_decide (cr_coming b <> [])), b') /\
    wf b' /\ cr_ok b' /\ pending b' ++ cr_coming b' = cr_coming b /\ rb_pos b' = rb_begin b' /\
    (cr_coming b <> [] -> rb_pos b' < rb_end b')%nat /\ count b' = count b.
Proof.
  intros W (Hw & Wi & Hi & data & Hs) Ep. pose proof (state_intro (cr_in b) Wi Hi) as St. fold (cr_raw b) in St.
  assert (cr_coming b = data) as Ec by (by apply decode_stream). rewrite Ec. set (t := count _ +64 _) in St. clearbody t.
  destruct Hs as [|block data raw rest Hb Hne Hs].
  - destruct (readCompressedData_eof (entered b) t St) as (i & E & St').
    assert (nextImpl (entered b) = (Returns false, set_size 0 (set_cr_in i (entered b)))) as En.
    { unfold nextImpl, compressed_nextImpl. by rewrite (bind_returns _ _ _ _ _ E). }
    rewrite (next_returns _ _ _ En). rewrite bool_decide_eq_false_2 by auto. eexists. split; [reflexivity|].
    destruct (cr_state (refilled false (set_size 0 (set_cr_in i (entered b)))) [] t [] St' eq_refl stream_nil) as [Hok Hc].
    rewrite Hc. destruct W as [W1 W2]. unfold wf, pending, slice, count, offset. cbn. rewrite Hw, !Nat.add_0_r, !Nat.sub_diag, Z.add_0_r, wrap_wrap by lia.
    split_and!; try done; lia.
  - destruct (readCompressedData_frame (entered b) block data raw t Hb St) as (i & tail & E & St').
    assert (nextImpl (entered b) = (Returns true, unpacked i (block ++ tail) data (set_size (Z.of_nat (length block) + 16) (entered b)))) as En.
    { unfold nextImpl, compressed_nextImpl. rewrite (bind_returns _ _ _ _ _ E), bind_modify.
      destruct (Z.eqb_spec (Z.of_nat (length block) + 16) 0); [lia|].
      pose proof (decompress_here_frame (set_size (Z.of_nat (length block) + 16) (entered b)) i block data tail Hb) as Ed.
      by rewrite (bind_returns _ _ _ _ _ Ed). }
    rewrite (next_returns _ _ _ En). rewrite bool_decide_eq_true_2 by (intros E0; apply app_nil in E0 as [E0 _]; by apply Hne).
    destruct (unpacked_memory data (rb_mem b)) as [Em El]. eexists. split; [reflexivity|]. set (b' := refilled _ _).
    destruct (cr_state b' raw t rest St' eq_refl Hs) as [Hok ->].
    assert (rb_begin b' = 0 /\ rb_pos b' = 0 /\ rb_end b' = length data)%nat as (B1 & B2 & B3) by (unfold b'; cbn; by rewrite Hw).
    assert (0 < length data)%nat by (destruct data; [done|cbn; lia]).
    unfold wf, pending, count, offset. rewrite B1, B2, B3. split_and!; try done; try lia; [by f_equal|].
    unfold b'. cbn. rewrite Z.add_0_r, wrap_wrap by lia. done.
Qed.

Definition compressed_read_laws : ReadBufferLaws (compressed_source D).
Proof.
  refine {| src_ok := cr_ok; coming := cr_coming |}.
  - done.
  - exact cr_next.
Defined.

Lemma compressed_read_state (i : rbuf D) raw data t :
  state i raw t -> stream raw data -> state (L := compressed_read_laws) (CompressedReadBuffer i) data (u64 (Z.of_nat (length data))).
Proof.
  intros St Hs. destruct (cr_state (CompressedReadBuffer i) raw t data St eq_refl Hs) as [Hok Hc].
  unfold state. cbn [src_ok coming compressed_read_laws]. rewrite Hc. split_and!; [split; cbn; lia|done|done|]. unfold count, offset. cbn. done.
Qed.

(** A read that the working buffer can serve. *)
Lemma read_here (b : rbuf (compressed_source D)) k :
  wf b -> (0 < k <= available b)%nat -> read k b = (Returns (take k (pending b)), set_pos (rb_pos b + k) b).
Proof.
  intros W Hk. unfold read. cbn [read_loop length]. rewrite (proj2 (Nat.ltb_lt 0 k)) by lia.
  rewrite (bind_returns _ _ _ false b).
  2: { unfold eof. rewrite bind_get. unfold hasPendingData. destruct (Nat.eqb_spec (rb_pos b) (rb_end b)); [unfold available in Hk; lia|done]. }
  rewrite !bind_get, Nat.sub_0_r, Nat.min_r by lia. unfold advance. rewrite (bind_returns _ _ _ tt (set_pos (rb_pos b + k) b)) by (by rewrite (proj2 (Nat.leb_le _ _)) by lia).
  cbn [app]. destruct k as [|k]; [lia|]. cbn [read_loop]. rewrite length_take, (length_pending b W), Nat.min_l by lia.
  by rewrite (proj2 (Nat.ltb_ge _ _)) by lia.
Qed.

(** A block that goes directly to the destination. *)
Lemma state_skip (b : rbuf (compressed_source D)) i buf data rest raw t u :
  state (L := compressed_read_laws) b (data ++ rest) t -> rb_pos b = rb_end b -> state i raw u -> stream raw rest ->
  state (L := compressed_read_laws) (set_bytes (rb_bytes b +64 Z.of_nat (length data)) (set_cr_in i (set_compressed buf b))) rest t.
Proof.
  intros ([W1 W2] & (Hw & _) & _ & Ec) Ep St Hs. set (b1 := set_bytes _ _). destruct (cr_state b1 raw u rest St Hw Hs) as [Hok Hc].
  unfold state. cbn [src_ok coming compressed_read_laws]. rewrite Hc. split_and!; [by split|done| |].
  - unfold pending, slice, b1. cbn. by rewrite Ep, Nat.sub_diag.
  - rewrite <- Ec, length_app. unfold count, offset, b1. cbn. repeat (rewrite wrap_add_l || rewrite <- Z.add_assoc). f_equal. lia.
Qed.

(** A block that is unpacked into the working buffer. *)
Lemma state_unpacked (b : rbuf (compressed_source D)) i buf data rest raw t u :
  state (L := compressed_read_laws) b (data ++ rest) t -> rb_pos b = rb_end b -> state i raw u -> stream raw rest ->
  state (L := compressed_read_laws) (set_pos 0 (set_bytes (rb_bytes b +64 Z.of_nat (offset b)) (unpacked i buf data b))) (data ++ rest) t.
Proof.
  intros ([W1 W2] & (Hw & _) & _ & Ec) Ep St Hs. set (b1 := set_pos _ _). destruct (cr_state b1 raw u rest St Hw Hs) as [Hok Hc].
  destruct (unpacked_memory data (rb_mem b)) as [Em El].
  unfold state. cbn [src_ok coming compressed_read_laws]. rewrite Hc. split_and!; [split; unfold b1; cbn; lia|done| |].
  - unfold pending, b1. cbn [rb_pos rb_end rb_mem set_pos set_bytes unpacked set_buffer set_cr_in set_compressed set_src]. by rewrite Em.
  - rewrite <- Ec. unfold count, offset, b1. cbn. repeat (rewrite wrap_add_l || rewrite <- Z.add_assoc). by rewrite ?Z.add_0_l.
Qed.

Lemma readBig_loop_spec fuel n to l (b : rbuf (compressed_source D)) t :
  state (L := compressed_read_laws) b l t -> rb_pos b = rb_end b -> (length to <= n)%nat -> (n - length to < fuel)%nat ->
  exists b', readBig_loop fuel n to b = (Returns (to ++ take (n - length to) l), b') /\
    state (L := compressed_read_laws) b' (drop (n - length to) l) t.
Proof.
  revert to l b. induction fuel as [|fuel IH]; intros to l b St Ep Hto Hf; [lia|]. cbn [readBig_loop].
  destruct (Nat.ltb_spec (length to) n) as [Hlt|Hge].
  2: { replace (n - length to)%nat with 0%nat by lia. cbn. rewrite app_nil_r, drop_0. by exists b. }
  pose proof St as (W & (Hw & Wi & Hi & data0 & Hs) & El & _).
  assert (l = data0) as ->.
  { rewrite <- El. cbn [coming compressed_read_laws]. unfold cr_coming. rewrite (decode_stream _ _ _ Hs) by lia.
    unfold pending, slice. by rewrite Ep, Nat.sub_diag. }
  pose proof (state_intro (cr_in b) Wi Hi) as Si. fold (cr_raw b) in Si. set (u := count _ +64 _) in Si. clearbody u.
  remember (cr_raw b) as r eqn:Er. destruct Hs as [|block data raw rest Hb Hne Hs].
  - destruct (readCompressedData_eof b u Si) as (i & E & Si'). rewrite (bind_returns _ _ _ _ _ E). cbn. rewrite take_nil, drop_nil, app_nil_r.
    eexists. split; [reflexivity|]. destruct (cr_state (set_cr_in i b) [] u [] Si' Hw stream_nil) as [Hok Hc].
    destruct St as (_ & _ & _ & Ec). unfold state. cbn [src_ok coming compressed_read_laws]. rewrite Hc.
    split_and!; try done. unfold pending, slice. cbn. by rewrite Ep, Nat.sub_diag.
  - destruct (readCompressedData_frame b block data raw u Hb Si) as (i & tail & E & Si'). rewrite (bind_returns _ _ _ _ _ E).
    destruct (Z.eqb_spec (Z.of_nat (length block) + 16) 0); [lia|]. set (b1 := set_cr_in i _) in *.
    assert (0 < length data)%nat as Hpos by (destruct data; [done|cbn; lia]).
    destruct (Nat.leb_spec (length data) (n - length to)) as [Hle|Hgt].
    + rewrite (bind_returns _ _ _ _ _ (decompress_frame b1 block data tail _ Hb eq_refl)), bind_modify.
      assert (copy_in 0 data (uninitialised (length data)) = data) as ->.
      { unfold copy_in. rewrite take_0, Nat.add_0_l, drop_ge by (rewrite length_uninitialised; lia). by rewrite app_nil_l, app_nil_r. }
      destruct (IH (to ++ data) rest _ (state_skip b i (block ++ tail) data rest raw t u St Ep Si' Hs) Ep) as (b' & E' & St').
      { rewrite length_app. lia. }
      { rewrite length_app. lia. }
      exists b'. rewrite length_app in E', St'. fold b1 in E'. change (rb_bytes b1) with (rb_bytes b). rewrite E'.
      rewrite take_app, (take_ge data), <- app_assoc by lia. rewrite drop_app, (drop_ge data) by lia.
      by replace (n - (length to + length data))%nat with (n - length to - length data)%nat in * by lia.
    + rewrite !bind_modify, bind_get. set (b2 := set_pos _ _).
      rewrite (bind_returns _ _ _ _ _ (decompress_frame b2 block data tail (rb_mem b2) Hb eq_refl)), bind_modify.
      pose proof (state_unpacked b i (block ++ tail) data rest raw t u St Ep Si' Hs) as St2.
      match goal with |- exists b', (read ?k ≫= _) ?x = _ /\ _ => change x with (set_pos 0 (set_bytes (rb_bytes b +64 Z.of_nat (offset b)) (unpacked i (block ++ tail) data b))) end.
      destruct (reads_read (L := compressed_read_laws) (n - length to) (data ++ rest) _ t St2) as (b' & E' & St').
      exists b'. by rewrite (bind_returns _ _ _ _ _ E').
Qed.

Lemma reads_readBig n l : reads (L := compressed_read_laws) (readBig n) l (Returns (take n l)) (drop n l).
Proof.
  intros b t St. pose proof St as (W & _). unfold readBig. rewrite !bind_get. pose proof (state_available (L := compressed_read_laws) _ _ _ St) as Ha.
  destruct (state_data (L := compressed_read_laws) _ _ _ St) as [_ Epd].
  unfold hasPendingData. destruct (Nat.eqb_spec (rb_pos b) (rb_end b)) as [Ep|Ep]; cbn [negb].
  - rewrite bind_ret. pose proof (readBig_loop_spec (S n) n [] l b t St Ep ltac:(cbn; lia) ltac:(cbn; lia)) as Hr. cbn [length app] in Hr. by rewrite Nat.sub_0_r in Hr.
  - destruct n as [|n]; [rewrite Nat.min_0_r; exists b; cbn; by rewrite drop_0|].
    set (k := Nat.min (available b) (S n)). assert (0 < k <= available b)%nat as Hk by (destruct W; unfold k, available; lia).
    rewrite (bind_returns _ _ _ _ _ (read_here b k W Hk)). pose proof (state_advance (L := compressed_read_laws) _ _ _ k St ltac:(lia)) as St1.
    assert (take k (pending b) = take k l) as Et by (rewrite Epd, take_take; f_equal; lia). rewrite Et.
    assert (length (take k l) = k) as El by (rewrite length_take; lia).
    destruct (decide (available b <= S n)%nat) as [Hle|Hgt].
    + destruct (readBig_loop_spec (S (S n)) (S n) (take k l) (drop k l) _ t St1) as (b' & E & St'); [unfold k, available in *; cbn; destruct W; lia|lia|lia|].
      exists b'. rewrite E, El in *. rewrite drop_drop in St'. rewrite take_take_drop. by replace (k + (S n - k))%nat with (S n) in * by lia.
    + assert (k = S n) as Ek by lia. cbn [readBig_loop]. rewrite El, (proj2 (Nat.ltb_ge k (S n))) by lia. eexists. split; [by rewrite Ek|]. by rewrite <- Ek.
Qed.
End ReadingLaws.

(** ** [CompressedWriteBuffer] has the laws *)

Section WritingLaws.
Context {D : Type} `{L : WriteBufferLaws D} `{C : Codecs} `{CL : !CodecLaws} (d0 : list Z).

(** Sizes of the working buffer for which every block stays below the limit of
    the readers. *)
Definition size_ok (n : nat) : Prop := 9 + Z.of_nat n + Z.of_nat n / 255 + 64 <= DBMS_MAX_COMPRESSED_SIZE.

Lemma size_ok_le n k : (k <= n)%nat -> size_ok n -> size_ok k.
Proof. unfold size_ok. intros. dlia. Qed.

Lemma length_block_of byte data z : length (block_of byte data z) = (9 + length z)%nat.
Proof. unfold block_of. cbn [length]. rewrite !length_app, !length_le_bytes. lia. Qed.

Lemma block_of_fields byte data z :
  Z.of_nat (9 + length z) < 2 ^ 32 -> Z.of_nat (length data) < 2 ^ 32 ->
  rd (block_of byte data z) 0 = byte /\ drop 9 (block_of byte data z) = z /\
  le_value (take 4 (drop 1 (block_of byte data z))) = Z.of_nat (length (block_of byte data z)) /\
  le_value (take 4 (drop 5 (block_of byte data z))) = Z.of_nat (length data).
Proof.
  intros H1 H2. rewrite length_block_of. unfold block_of. cbn [drop]. split; [done|].
  set (a := le_bytes 4 _). set (c := le_bytes 4 (u32 (Z.of_nat (length data)))).
  assert (length a = 4%nat /\ length c = 4%nat) as [La Lc] by (split; apply length_le_bytes).
  change (drop 8 (a ++ c ++ z)) with (drop (4 + 4) (a ++ c ++ z)). rewrite <- drop_drop, !(drop_app_length' a), (drop_app_length' c) by done.
  rewrite drop_0, !take_app_length' by done. unfold a, c. rewrite !wrap_small by (unfold fits, COMPRESSED_BLOCK_HEADER_SIZE; lia).
  rewrite !le_value_bytes by (unfold COMPRESSED_BLOCK_HEADER_SIZE; lia). done.
Qed.

Lemma compress_block_data s data :
  data <> [] -> size_ok (length data) -> exists block, compress_block s data = Returns block /\ block_data block data.
Proof.
  intros Hne Hs. unfold size_ok, DBMS_MAX_COMPRESSED_SIZE in Hs. pose proof (lz4_bound (length data) ltac:(unfold LZ4_MAX_INPUT_SIZE; dlia)) as Hb.
  assert (forall byte z, Z.of_nat (length z) <= Z.of_nat (length data) + Z.of_nat (length data) / 255 + 64 ->
    (byte = BYTE_LZ4 /\ (forall rest, LZ4_decompress_fast (z ++ rest) (length data) = Some data) \/
     byte = BYTE_ZSTD /\ ZSTD_decompress z (length data) = Some data \/ byte = BYTE_NONE /\ z = data) -> block_data (block_of byte data z) data) as Hbd.
  { intros byte z Hz Hd. destruct (block_of_fields byte data z ltac:(dlia) ltac:(dlia)) as (F1 & F2 & F3 & F4).
    split; [rewrite length_block_of; unfold DBMS_MAX_COMPRESSED_SIZE; dlia|done|done|]. rewrite F1, F2.
    destruct Hd as [?|[?|[-> ->]]]; [by left|by right; left|right; right]. by rewrite firstn_all. }
  unfold compress_block. destruct (method s).
  - eexists. split; [reflexivity|]. apply Hbd; [pose proof (lz4_size data (LZ4_COMPRESSBOUND (length data))); lia|]. left. split; [done|].
    intros rest. apply lz4_inverse; [done|unfold LZ4_MAX_INPUT_SIZE; dlia].
  - eexists. split; [reflexivity|]. apply Hbd; [pose proof (lz4hc_size data (LZ4_COMPRESSBOUND (length data)) (level s)); lia|]. left. split; [done|].
    intros rest. apply lz4hc_inverse; [done|unfold LZ4_MAX_INPUT_SIZE; dlia].
  - destruct (zstd_inverse data (level s)) as (z & -> & Hz & Hd). pose proof (zstd_bound (length data)). eexists. split; [reflexivity|].
    apply Hbd; [dlia|]. right; left. done.
  - eexists. split; [reflexivity|]. apply Hbd; [dlia|]. right; right. done.
Qed.

(** [d0] is what [out] had received before. *)
Definition cw_ok (b : wbuf (compressed_sink D)) : Prop :=
  size_ok (wb_end b - wb_begin b) /\ exists raw data t, wstate (cw_out_buf b) (d0 ++ raw) t /\ stream raw data.

Definition cw_raw (b : wbuf (compressed_sink D)) : list Z := drop (length d0) (emitted (cw_out_buf b) ++ buffered (cw_out_buf b)).

Definition cw_emitted (b : wbuf (compressed_sink D)) : list Z := decode (length (cw_raw b)) (cw_raw b).

Lemma cw_state (b : wbuf (compressed_sink D)) raw data t :
  wstate (cw_out_buf b) (d0 ++ raw) t -> stream raw data -> cw_raw b = raw /\ cw_emitted b = data.
Proof.
  intros (_ & _ & E & _) Hs. assert (cw_raw b = raw) as Er by (unfold cw_raw; by rewrite E, drop_app_length).
  split; [done|]. unfold cw_emitted. rewrite Er. by apply decode_stream.
Qed.

Lemma cw_next (b : wbuf (compressed_sink D)) :
  wwf b -> cw_ok b -> exists b', wnext b = (Returns tt, b') /\ wwf b' /\ cw_ok b' /\ wb_pos b' = wb_begin b' /\
    cw_emitted b' = cw_emitted b ++ buffered b /\ wcount b' = wcount b.
Proof.
  intros W (Hsz & raw & data & t & St & Hs). pose proof W as (W1 & W2 & W3). destruct (cw_state b raw data t St Hs) as [_ Ee].
  unfold wnext. rewrite bind_get. destruct (Nat.eqb_spec (woffset b) 0) as [E0|E0].
  { exists b. unfold buffered, slice. unfold woffset in E0. rewrite E0. cbn. rewrite app_nil_r. split_and!; try done; [|lia].
    split; [done|]. by exists raw, data, t. }
  rewrite bind_modify. set (b1 := wset_bytes _ b).
  assert (length (buffered b) = woffset b) as El by (unfold buffered, slice, woffset; rewrite length_take, length_drop; lia).
  destruct (compress_block_data (cw_settings (wb_sink b)) (buffered b)) as (block & Ec & Hb).
  { intros E. rewrite E in El. cbn in El. lia. }
  { rewrite El. apply (size_ok_le (wb_end b - wb_begin b)); [unfold woffset; lia|done]. }
  destruct (writes_write (uint128_bytes (block_hash block)) (cw_out_buf b) _ _ St) as (o1 & E1 & St1).
  destruct (writes_write block o1 _ _ St1) as (o2 & E2 & St2). rewrite <- !app_assoc in St2. fold (frame block) in St2.
  assert (flushImpl b1 = (Returns tt, set_cw_out o2 b1)) as Ef.
  { unfold flushImpl, compressed_flush. rewrite bind_get. change (woffset b1) with (woffset b). rewrite (proj2 (Nat.eqb_neq _ _) E0), bind_get.
    change (compress_block _ (buffered b1)) with (compress_block (cw_settings (wb_sink b)) (buffered b)). rewrite Ec.
    rewrite (bind_returns _ _ _ tt (set_cw_out o1 b1)) by (unfold zoom; change (cw_out_buf b1) with (cw_out_buf b); by rewrite E1).
    unfold zoom. change (cw_out_buf (set_cw_out o1 b1)) with o1. by rewrite E2. }
  unfold mbind at 1, M_bind at 1, try_catch. rewrite Ef. eexists. split; [reflexivity|]. set (b' := wset_pos _ _).
  assert (stream (raw ++ frame block) (data ++ buffered b)) as Hs'.
  { apply stream_app; [done|]. rewrite <- (app_nil_r (frame block)), <- (app_nil_r (buffered b)). constructor; [done| |constructor].
    intros E. rewrite E in El. cbn in El. lia. }
  destruct (cw_state b' (raw ++ frame block) _ t St2 Hs') as [_ Ee']. rewrite Ee', Ee. unfold wcount, woffset, wwf, cw_ok. cbn.
  rewrite Nat.sub_diag, Z.add_0_r, wrap_wrap by lia. split_and!; try done; try lia. by exists (raw ++ frame block), (data ++ buffered b), t.
Qed.

Definition compressed_write_laws : WriteBufferLaws (compressed_sink D).
Proof.
  refine {| sink_ok := cw_ok; emitted := cw_emitted |}.
  - done.
  - intros b W Hok _. by apply cw_next.
Defined.

#[local] Instance compressed_flushable : Flushable (L := compressed_write_laws) (compressed_sink D).
Proof. intros b W Hok. by apply cw_next. Qed.

Lemma compressed_write_state (out : wbuf D) t s mem :
  wstate out d0 t -> (0 < length mem)%nat -> size_ok (length mem) ->
  wstate (L := compressed_write_laws) (CompressedWriteBuffer out s mem) [] 0.
Proof.
  intros St Hm Hs. set (b := CompressedWriteBuffer out s mem).
  assert (wstate (cw_out_buf b) (d0 ++ []) t) as St' by (by rewrite app_nil_r).
  destruct (cw_state b [] [] t St' stream_nil) as [_ Ee]. unfold wstate. cbn [sink_ok emitted compressed_write_laws]. rewrite Ee.
  split_and!; try done.
  - unfold wwf. cbn. lia.
  - split; [apply (size_ok_le (length mem)); [cbn; lia|done]|]. exists [], [], t. split; [exact St'|constructor].
Qed.
End WritingLaws.

(** From the writer to the reader. *)
Lemma compressed_pipe {D A} `{LD : WriteBufferLaws D} `{CL : CodecLaws} (out : wbuf D) t s mem (m : M (wbuf (compressed_sink D)) A) a w :
  wstate out [] t -> (0 < length mem)%nat -> size_ok (length mem) -> writes (L := compressed_write_laws []) m a w ->
  exists b b' raw, m (CompressedWriteBuffer out s mem) = (Returns a, b) /\ wnext b = (Returns tt, b') /\ (exists t', wstate (cw_out_buf b') raw t') /\
    forall D' A' (RD : ReadBuffer D') (LR : ReadBufferLaws D') (i : rbuf D') u (m' : M (rbuf (compressed_source D')) A') r l,
      state i raw u -> reads (L := compressed_read_laws) m' w r l -> exists b'', m' (CompressedReadBuffer i) = (r, b'').
Proof.
  intros St Hm Hs Hw. destruct (Hw _ _ _ (compressed_write_state [] out t s mem St Hm Hs)) as (b & E & (W & Hok & Ed & _)).
  destruct (cw_next [] b W Hok) as (b' & En & W' & Hok' & Ep & Ee & _). pose proof Hok' as (_ & raw & data & t' & St' & Hst).
  destruct (cw_state [] b' raw data t' St' Hst) as [_ Ee']. cbn [emitted compressed_write_laws] in Ed. cbn in Ed, St'.
  assert (data = w) as -> by (by rewrite <- Ee', Ee).
  exists b, b', raw. split_and!; [done|done|by exists t'|]. intros D' A' RD LR i u m' r l Si Hr.
  destruct (Hr _ _ (compressed_read_state i raw w u Si Hst)) as (b'' & E'' & _). by exists b''.
Qed.

(** ** Properties *)

(** C38: What is written through a [CompressedWriteBuffer] is read back through
    a [CompressedReadBuffer].  Whatever functions [m] write the data [w], with
    any compression method and any size of the working buffer for which blocks
    stay below the limit of the readers, [out] receives some bytes [raw]; and
    any function that reads [w] gives the same result on a
    [CompressedReadBuffer] over any buffer that delivers [raw], however it cuts
    them into portions. *)
Theorem compressed_write_read {D A} `{LD : WriteBufferLaws D} `{CL : CodecLaws} (out : wbuf D) t s mem (m : M (wbuf (compressed_sink D)) A) a w :
  wstate out [] t -> (0 < length mem)%nat -> size_ok (length mem) -> writes (L := compressed_write_laws []) m a w ->
  exists b b' raw, m (CompressedWriteBuffer out s mem) = (Returns a, b) /\ wnext b = (Returns tt, b') /\ (exists t', wstate (cw_out_buf b') raw t') /\
    forall D' A' (RD : ReadBuffer D') (LR : ReadBufferLaws D') (i : rbuf D') u (m' : M (rbuf (compressed_source D')) A') r l,
      state i raw u -> reads (L := compressed_read_laws) m' w r l -> exists b'', m' (CompressedReadBuffer i) = (r, b'').
Proof. apply compressed_pipe. Qed.

(** [readBig] is [read].  In front of the data [l] of a compressed stream
    it returns the first [n] bytes of [l] and stops behind them, whether blocks
    are unpacked directly into the destination or into the working buffer, and
    counts the bytes it has read. *)
Theorem readBig_reads {D} `{LR : ReadBufferLaws D} `{CL : CodecLaws} n l :
  reads (L := compressed_read_laws (D := D)) (readBig n) l (Returns (take n l)) (drop n l).
Proof. apply reads_readBig. Qed.

(** Corrupted blocks are refused.  If the sixteen bytes in front of a block
    with a proper header are not the checksum of the block, reading the next
    portion throws [CHECKSUM_DOESNT_MATCH], unless checksums were disabled. *)
Theorem corrupted_block_refused {D} `{LR : ReadBufferLaws D} `{C : Codecs} (b : rbuf (compressed_source D)) c block raw t :
  length c = 16%nat -> head_ok block -> state (cr_in b) (c ++ block ++ raw) t -> disable_checksum (rb_src b) = false ->
  uint128_value c <> block_hash block ->
  exists b', next b = (Throws CHECKSUM_DOESNT_MATCH, b').
Proof.
  intros Hc Hh St Hd Hne. destruct (readCompressedData_block (entered b) c block raw t Hc Hh St) as (i & tail & E & _).
  change (rb_src (entered b)) with (rb_src b) in E. rewrite Hd, bool_decide_eq_false_2 in E by done. cbn [negb andb] in E.
  assert (nextImpl (entered b) = (Throws CHECKSUM_DOESNT_MATCH, set_cr_in i (set_compressed (block ++ tail) (entered b)))) as En.
  { unfold nextImpl, compressed_nextImpl. by rewrite (bind_throws _ _ _ _ _ E). }
  eexists. unfold next. rewrite bind_modify. fold (entered b). by rewrite (bind_throws _ _ _ _ _ En).
Qed.

(** ** Witnesses *)

(** Codecs that store the data as it is. *)
#[local] Instance storing : Codecs := {|
  LZ4_COMPRESSBOUND n := n;
  LZ4_compress_default x c := take c x;
  LZ4_compress_HC x c _ := take c x;
  LZ4_decompress_fast z n := if (n <=? length z)%nat then Some (take n z) else None;
  ZSTD_compressBound n := n;
  ZSTD_compress x c _ := if (length x <=? c)%nat then Some x else None;
  ZSTD_decompress z n := if (length z <=? n)%nat then Some z else None;
  uninitialised n := replicate n 7
|}.

#[local] Instance storing_laws : CodecLaws.
Proof.
  split; cbn -[Z.div]; intros.
  - apply length_replicate.
  - dlia.
  - rewrite length_take. lia.
  - rewrite length_take. lia.
  - rewrite firstn_all, length_app, (proj2 (Nat.leb_le _ _)) by lia. by rewrite take_app_length.
  - rewrite firstn_all, length_app, (proj2 (Nat.leb_le _ _)) by lia. by rewrite take_app_length.
  - dlia.
  - exists x. by rewrite Nat.leb_refl.
Qed.

Lemma compressed_write_read_witness :
  exists b b' raw, write [1; 2; 3; 4; 5] (CompressedWriteBuffer demo_out (CompressionSettings_of ZSTD) [0; 0]) = (Returns tt, b) /\
    wnext b = (Returns tt, b') /\ (exists t', wstate (cw_out_buf b') raw t') /\
    forall D' A' (RD : ReadBuffer D') (LR : ReadBufferLaws D') (i : rbuf D') u (m' : M (rbuf (compressed_source D')) A') r l,
      state i raw u -> reads (L := compressed_read_laws) m' [1; 2; 3; 4; 5] r l -> exists b'', m' (CompressedReadBuffer i) = (r, b'').
Proof.
  apply (compressed_write_read demo_out 0 (CompressionSettings_of ZSTD) [0; 0] (write [1; 2; 3; 4; 5]) tt [1; 2; 3; 4; 5]).
  - exact demo_out_state.
  - cbn. lia.
  - vm_compute. congruence.
  - exact (writes_write (L := compressed_write_laws []) [1; 2; 3; 4; 5]).
Defined.

Lemma readBig_reads_witness :
  reads (L := compressed_read_laws (D := from_memory)) (readBig 2) [1; 2; 3] (Returns [1; 2]) [3].
Proof. exact (readBig_reads 2 [1; 2; 3]). Defined.

(** A block that stores the byte 7 and says that it has [n] bytes. *)
Definition stored_block (n : Z) : list Z := [BYTE_NONE; 10; 0; 0; 0; n; 0; 0; 0; 7].

Lemma corrupted_block_refused_witness :
  exists b', next (CompressedReadBuffer (ReadBufferFromMemory (replicate 16 0 ++ stored_block 1 ++ []))) = (Throws CHECKSUM_DOESNT_MATCH, b').
Proof.
  refine (corrupted_block_refused (CompressedReadBuffer (ReadBufferFromMemory (replicate 16 0 ++ stored_block 1 ++ []))) (replicate 16 0) (stored_block 1) [] _
    eq_refl _ (memory_state _) eq_refl _).
  - split_and!; [cbn; lia|unfold DBMS_MAX_COMPRESSED_SIZE; cbn; lia|reflexivity|right; right; reflexivity].
  - vm_compute. congruence.
Defined.

(** ** A size that is not checked *)

(** [decompress] copies as many bytes of a stored block as its header says,
    which is not compared with the size of the block: data that lies behind the
    block in memory becomes part of the result. *)
Theorem stored_block_leaks x y z :
  exists b, read 4 (CompressedReadBuffer (ReadBufferFromMemory (frame (stored_block 4) ++ [x; y; z]))) = (Returns [7; x; y; z], b).
Proof. eexists. vm_compute. reflexivity. Qed.
