(* ===== verification/TextStrings.v ===== *)
(** * Reading strings from text

    The string readers of dbms/src/IO/ReadHelpers.h and ReadHelpers.cpp:
    plain and escaped fields of the tab separated formats, quoted strings,
    CSV and JSON strings, and the checks for fixed strings.  All of them scan
    the working buffer for the next symbol of interest, append what precedes
    it and go on when the working buffer ends in between; [scan_while] is
    that loop, and [scanned] says what it does in terms of the data alone. *)

From stdpp Require Import base list option numbers.
From Stdlib Require Import ZArith Lia.
From S2P Require Import Prelude IOMonad ReadBuffers BufferSources VarInt.

#[local] Open Scope Z_scope.

(** ** Characters *)

Abbreviation TAB := 9.
Abbreviation NEWLINE := 10.
Abbreviation RETURN := 13.
Abbreviation SPACE := 32.
Abbreviation DQUOTE := 34.
Abbreviation QUOTE := 39.
Abbreviation COMMA := 44.
Abbreviation BACKSLASH := 92.
Abbreviation BACKQUOTE := 96.

Definition is_in (symbols : list Z) (x : Z) : bool := existsb (Z.eqb x) symbols.

Definition isAlphaASCII (c : Z) : bool := ((97 <=? c) && (c <=? 122)) || ((65 <=? c) && (c <=? 90)).
Definition isNumericASCII (c : Z) : bool := (48 <=? c) && (c <=? 57).
Definition alternateCaseIfAlphaASCII (c : Z) : Z := Z.lxor c 32.
Definition equalsCaseInsensitive (a b : Z) : bool :=
  (a =? b) || (isAlphaASCII a && (alternateCaseIfAlphaASCII a =? b)).

Definition parseEscapeSequence (c : Z) : Z :=
  if c =? 97 then 7           (* \a *)
  else if c =? 98 then 8      (* \b *)
  else if c =? 101 then 27    (* \e *)
  else if c =? 102 then 12    (* \f *)
  else if c =? 110 then 10    (* \n *)
  else if c =? 114 then 13    (* \r *)
  else if c =? 116 then 9     (* \t *)
  else if c =? 118 then 11    (* \v *)
  else if c =? 48 then 0      (* \0 *)
  else c.

(** The table of [unhex] has 0xff for everything that is not a digit; the
    result is a [char], hence sign-extended by the casts of [unhex4]. *)
Definition unhex (c : Z) : Z :=
  if (48 <=? c) && (c <=? 57) then c - 48
  else if (65 <=? c) && (c <=? 70) then c - 55
  else if (97 <=? c) && (c <=? 102) then c - 87
  else 255.
Definition unhex2 (data : list Z) : Z := u8 (unhex (rd data 0) * 16 + unhex (rd data 1)).
Definition unhex4 (data : list Z) : Z :=
  let d i := u16 (schar (unhex (rd data i))) in
  u16 (d 0 * 4096 + d 1 * 256 + d 2 * 16 + d 3).

(** ** The readers *)

Inductive action (A : Type) :=
  | Go (s : list Z)
  | Done (a : A).
Arguments Go {A} s.
Arguments Done {A} a.

Section Readers.
Context {D : Type} `{ReadBuffer D}.

Definition readChar : M (rbuf D) Z :=
  e ← eof;
  if negb e then x ← peek; _ ← advance 1; mret x else throw ATTEMPT_TO_READ_AFTER_EOF.

Definition readStringBinary (MAX_STRING_SIZE : Z) : M (rbuf D) (list Z) :=
  size ← readVarUInt;
  if MAX_STRING_SIZE <? size then throw TOO_LARGE_STRING_SIZE
  else readStrict (Z.to_nat size).

Fixpoint readVector_loop {A} (readBinary : M (rbuf D) A) (n : nat) : M (rbuf D) (list A) :=
  match n with
  | 0%nat => mret []
  | S n' => x ← readBinary; v ← readVector_loop readBinary n'; mret (x :: v)
  end.

Definition readVectorBinary {A} (readBinary : M (rbuf D) A) (MAX_VECTOR_SIZE : Z) : M (rbuf D) (list A) :=
  size ← readVarUInt;
  if MAX_VECTOR_SIZE <? size then throw TOO_LARGE_ARRAY_SIZE
  else readVector_loop readBinary (Z.to_nat size).

(** [s] is a C string without its terminator. *)
Fixpoint checkString (s : list Z) : M (rbuf D) bool :=
  match s with
  | [] => mret true
  | c :: s' =>
      e ← eof;
      if e : bool then mret false
      else
        x ← peek;
        if x =? c then _ ← advance 1; checkString s' else mret false
  end.

Fixpoint checkStringCaseInsensitive (s : list Z) : M (rbuf D) bool :=
  match s with
  | [] => mret true
  | c :: s' =>
      e ← eof;
      if e : bool then mret false
      else
        x ← peek;
        if negb (equalsCaseInsensitive c x) then mret false
        else _ ← advance 1; checkStringCaseInsensitive s'
  end.

(** The message of the exception calls [buf.eof()]. *)
Definition throwAtAssertionFailed {A} : M (rbuf D) A :=
  _ ← eof;
  throw CANNOT_PARSE_INPUT_ASSERTION_FAILED.

Definition assertString (s : list Z) : M (rbuf D) unit :=
  r ← checkString s;
  if negb r then throwAtAssertionFailed else mret tt.

Definition assertChar (symbol : Z) : M (rbuf D) unit :=
  e ← eof;
  if e : bool then throwAtAssertionFailed
  else
    x ← peek;
    if negb (x =? symbol) then throwAtAssertionFailed else advance 1.

Definition assertEOF : M (rbuf D) unit :=
  e ← eof;
  if negb e then throwAtAssertionFailed else mret tt.

Definition assertStringCaseInsensitive (s : list Z) : M (rbuf D) unit :=
  r ← checkStringCaseInsensitive s;
  if negb r then throwAtAssertionFailed else mret tt.

Definition checkChar (c : Z) : M (rbuf D) bool :=
  e ← eof;
  if e : bool then mret false
  else
    x ← peek;
    if negb (x =? c) then mret false else _ ← advance 1; mret true.

Definition checkStringByFirstCharacterAndAssertTheRest (s : list Z) : M (rbuf D) bool :=
  e ← eof;
  if e : bool then mret false
  else
    x ← peek;
    if negb (x =? rd s 0) then mret false
    else _ ← assertString s; mret true.

Definition checkStringByFirstCharacterAndAssertTheRestCaseInsensitive (s : list Z) : M (rbuf D) bool :=
  e ← eof;
  if e : bool then mret false
  else
    c ← peek;
    if negb (equalsCaseInsensitive (rd s 0) c) then mret false
    else _ ← assertStringCaseInsensitive s; mret true.

Definition readBoolText : M (rbuf D) bool :=
  tmp ← readChar;
  mret (negb (tmp =? 48)).

Definition readBoolTextWord : M (rbuf D) bool :=
  e ← eof;
  if e : bool then throw ATTEMPT_TO_READ_AFTER_EOF
  else
    c ← peek;
    if c =? 116 then _ ← assertString [116; 114; 117; 101]; mret true
    else _ ← assertString [102; 97; 108; 115; 101]; mret false.

(** The scanning loop.  [s] is the string read so far, [body] is called with
    the cursor on a stop symbol, [final] at the end of the data. *)
Fixpoint scan_while {A} (fuel : nat) (stop : Z -> bool) (body : list Z -> M (rbuf D) (action A))
    (final : list Z -> M (rbuf D) A) (s : list Z) : M (rbuf D) A :=
  match fuel with
  | 0%nat => throw NO_FUEL
  | S fuel' =>
      e ← eof;
      if e : bool then final s
      else
        t ← scan stop;
        p ← get hasPendingData;
        if negb p then scan_while fuel' stop body final (s ++ t)
        else
          a ← body (s ++ t);
          match a with
          | Go s' => scan_while fuel' stop body final s'
          | Done x => mret x
          end
  end.

Context (fuel : nat).

Definition readStringInto (s : list Z) : M (rbuf D) (list Z) :=
  scan_while fuel (is_in [TAB; NEWLINE]) (fun s => mret (Done s)) mret s.

Definition readStringUntilEOFInto (s : list Z) : M (rbuf D) (list Z) :=
  scan_while fuel (fun _ => false) (fun s => mret (Done s)) mret s.

(** The cursor is on the backslash. *)
Definition parseComplexEscapeSequence (s : list Z) : M (rbuf D) (list Z) :=
  _ ← advance 1;
  e ← eof;
  if e : bool then throw CANNOT_PARSE_ESCAPE_SEQUENCE
  else
    c ← peek;
    if c =? 120 then
      _ ← advance 1;
      hex_code ← readStrict 2;
      mret (s ++ [unhex2 hex_code])
    else if c =? 78 then
      _ ← advance 1;
      mret s
    else
      _ ← advance 1;
      mret (s ++ [parseEscapeSequence c]).

(** The bodies of the loops are definitions of their own. *)
Definition escaped_body (s : list Z) : M (rbuf D) (action (list Z)) :=
  c ← peek;
  if (c =? TAB) || (c =? NEWLINE) then mret (Done s)
  else if c =? BACKSLASH then s' ← parseComplexEscapeSequence s; mret (Go s')
  else mret (Go s).

Definition readEscapedStringInto (s : list Z) : M (rbuf D) (list Z) :=
  scan_while fuel (is_in [TAB; NEWLINE; BACKSLASH]) escaped_body mret s.

Definition quoted_body (quote : Z) (enable_sql_style_quoting : bool) (s : list Z) : M (rbuf D) (action (list Z)) :=
  c ← peek;
  if c =? quote then
    _ ← advance 1;
    if enable_sql_style_quoting then
      e ← eof;
      if e : bool then mret (Done s)
      else
        c' ← peek;
        if c' =? quote then _ ← advance 1; mret (Go (s ++ [quote])) else mret (Done s)
    else mret (Done s)
  else if c =? BACKSLASH then s' ← parseComplexEscapeSequence s; mret (Go s')
  else mret (Go s).

Definition readAnyQuotedStringInto (quote : Z) (enable_sql_style_quoting : bool) (s : list Z) : M (rbuf D) (list Z) :=
  e ← eof;
  if e : bool then throw CANNOT_PARSE_QUOTED_STRING
  else
    c ← peek;
    if negb (c =? quote) then throw CANNOT_PARSE_QUOTED_STRING
    else
      _ ← advance 1;
      scan_while fuel (is_in [BACKSLASH; quote]) (quoted_body quote enable_sql_style_quoting)
        (fun _ => throw CANNOT_PARSE_QUOTED_STRING) s.

(** Trailing spaces and tabs of an unquoted field. *)
Definition trim_right (s : list Z) : list Z :=
  reverse ((fix go l := match l with x :: l' => if (x =? SPACE) || (x =? TAB) then go l' else l | [] => [] end) (reverse s)).

(** The cursor is on the quotation mark. *)
Definition csv_body (maybe_quote : Z) (s : list Z) : M (rbuf D) (action (list Z)) :=
  _ ← advance 1;
  e ← eof;
  if e : bool then mret (Done s)
  else
    c ← peek;
    if c =? maybe_quote then _ ← advance 1; mret (Go (s ++ [maybe_quote])) else mret (Done s).

Definition readCSVStringInto (delimiter : Z) (s : list Z) : M (rbuf D) (list Z) :=
  e ← eof;
  if e : bool then throw ATTEMPT_TO_READ_AFTER_EOF
  else
    maybe_quote ← peek;
    if maybe_quote =? delimiter then mret s
    else if (maybe_quote =? QUOTE) || (maybe_quote =? DQUOTE) then
      _ ← advance 1;
      scan_while fuel (Z.eqb maybe_quote) (csv_body maybe_quote) mret s
    else
      scan_while fuel (is_in [delimiter; RETURN; NEWLINE]) (fun s => mret (Done (trim_right s))) mret s.

(** [ReturnType] is [void] ([throw_exception]) or [bool]: in the second case an
    error is the result false. *)
Definition json_error (throw_exception : bool) (e : error) (s : list Z) : M (rbuf D) (bool * list Z) :=
  if throw_exception then throw e else mret (false, s).

Definition utf8_3 (code_point : Z) : list Z :=
  [Z.lor (Z.land (Z.shiftr code_point 12) 15) 224; Z.lor (Z.land (Z.shiftr code_point 6) 63) 128;
   Z.lor (Z.land code_point 63) 128].
Definition utf8_4 (full_code_point : Z) : list Z :=
  [Z.lor (Z.land (Z.shiftr full_code_point 18) 7) 240; Z.lor (Z.land (Z.shiftr full_code_point 12) 63) 128;
   Z.lor (Z.land (Z.shiftr full_code_point 6) 63) 128; Z.lor (Z.land full_code_point 63) 128].

(** The [case 'u'] of the switch: the cursor is behind the [u]. *)
Definition parseJSONUnicode (throw_exception : bool) (s : list Z) : M (rbuf D) (bool * list Z) :=
  hex_code ← read 4;
  if negb (length hex_code =? 4)%nat then json_error throw_exception CANNOT_PARSE_ESCAPE_SEQUENCE s
  else if bool_decide (hex_code = [48; 48; 48; 48]) then mret (true, s ++ [0])
  else
    let code_point := unhex4 hex_code in
    if code_point <=? 127 then mret (true, s ++ [code_point])
    else if code_point <=? 2047 then
      mret (true, s ++ [Z.lor (Z.land (Z.shiftr code_point 6) 31) 192; Z.lor (Z.land code_point 63) 128])
    else if (55296 <=? code_point) && (code_point <=? 56319) then
      r ← checkString [BACKSLASH; 117];
      if negb r then json_error throw_exception CANNOT_PARSE_ESCAPE_SEQUENCE s
      else
        second_hex_code ← read 4;
        if negb (length second_hex_code =? 4)%nat then json_error throw_exception CANNOT_PARSE_ESCAPE_SEQUENCE s
        else
          let second_code_point := unhex4 second_hex_code in
          if (56320 <=? second_code_point) && (second_code_point <=? 57343) then
            mret (true, s ++ utf8_4 (65536 + (code_point - 55296) * 1024 + (second_code_point - 56320)))
          else json_error throw_exception CANNOT_PARSE_ESCAPE_SEQUENCE s
    else mret (true, s ++ utf8_3 code_point).

Definition parseJSONEscapeSequence (throw_exception : bool) (s : list Z) : M (rbuf D) (bool * list Z) :=
  _ ← advance 1;
  e ← eof;
  if e : bool then json_error throw_exception CANNOT_PARSE_ESCAPE_SEQUENCE s
  else
    c ← peek;
    if c =? 117 then
      _ ← advance 1;
      parseJSONUnicode throw_exception s
    else
      let x :=
        if c =? 98 then 8          (* \b *)
        else if c =? 102 then 12   (* \f *)
        else if c =? 110 then 10   (* \n *)
        else if c =? 114 then 13   (* \r *)
        else if c =? 116 then 9    (* \t *)
        else c in                  (* the quote, the backslash, the slash and the default *)
      _ ← advance 1;
      mret (true, s ++ [x]).

Definition json_body (throw_exception : bool) (s : list Z) : M (rbuf D) (action (bool * list Z)) :=
  c ← peek;
  if c =? DQUOTE then _ ← advance 1; mret (Done (true, s))
  else if c =? BACKSLASH then
    r ← parseJSONEscapeSequence throw_exception s;
    mret (Go r.2)
  else mret (Go s).

Definition readJSONStringInto (throw_exception : bool) (s : list Z) : M (rbuf D) (bool * list Z) :=
  e ← eof;
  if e : bool then json_error throw_exception CANNOT_PARSE_QUOTED_STRING s
  else
    c ← peek;
    if negb (c =? DQUOTE) then json_error throw_exception CANNOT_PARSE_QUOTED_STRING s
    else
      _ ← advance 1;
      scan_while fuel (is_in [BACKSLASH; DQUOTE]) (json_body throw_exception)
        (json_error throw_exception CANNOT_PARSE_QUOTED_STRING) s.

Definition skipToNextLineOrEOF : M (rbuf D) unit :=
  scan_while fuel (is_in [NEWLINE])
    (fun s =>
       c ← peek;
       if c =? NEWLINE then _ ← advance 1; mret (Done tt) else mret (Go s))
    (fun _ => mret tt) [].

Definition skipToUnescapedNextLineOrEOF : M (rbuf D) unit :=
  scan_while fuel (is_in [NEWLINE; BACKSLASH])
    (fun s =>
       c ← peek;
       if c =? NEWLINE then _ ← advance 1; mret (Done tt)
       else if c =? BACKSLASH then
         _ ← advance 1;
         e ← eof;
         if e : bool then mret (Done tt) else _ ← advance 1; mret (Go s)
       else mret (Go s))
    (fun _ => mret tt) [].
End Readers.

(** ** What the scanning loop does *)

Section Scanning.
Context {D : Type} `{L : ReadBufferLaws D} {A : Type}.
Context (stop : Z -> bool) (body : list Z -> M (rbuf D) (action A)) (final : list Z -> M (rbuf D) A).

(** [scanned s l r l']: started with [s] in front of [l] the loop has the
    outcome [r] and stops in front of [l'].  A call of [body] that goes on
    has consumed something. *)
Inductive scanned : list Z -> list Z -> outcome A -> list Z -> Prop :=
  | scanned_end s r : reads (final s) [] r [] -> scanned s [] r []
  | scanned_char s x l r l' : stop x = false -> scanned (s ++ [x]) l r l' -> scanned s (x :: l) r l'
  | scanned_go s x l s' l1 r l' : stop x = true -> reads_here (body s) (x :: l) (Returns (Go s')) l1 ->
      (length l1 <= length l)%nat -> scanned s' l1 r l' -> scanned s (x :: l) r l'
  | scanned_done s x l a l' : stop x = true -> reads_here (body s) (x :: l) (Returns (Done a)) l' ->
      scanned s (x :: l) (Returns a) l'
  | scanned_throws s x l e l' : stop x = true -> reads_here (body s) (x :: l) (Throws e) l' ->
      scanned s (x :: l) (Throws e) l'.

Lemma scanned_prefix s pre post r l' :
  Forall (fun x => stop x = false) pre -> scanned s (pre ++ post) r l' -> scanned (s ++ pre) post r l'.
Proof.
  revert s. induction pre as [|x pre IH]; intros s Hp Hs; [by rewrite app_nil_r|].
  apply list.Forall_cons in Hp as [Hx Hp]. inversion Hs as [|? ? ? ? ? ? Hs' | | |]; simplify_eq; try congruence.
  rewrite cons_middle, app_assoc. by apply IH.
Qed.

Lemma scan_while_reads fuel s l r l' :
  scanned s l r l' -> (length l < fuel)%nat -> reads (scan_while fuel stop body final s) l r l'.
Proof.
  revert s l. induction fuel as [|fuel IH]; intros s l Hs Hf; [lia|]. cbn [scan_while].
  destruct l as [|x l]; [rstep; by inversion Hs|]. rstep.
  intros b t St Hb. destruct (scan_spec b _ t stop St Hb) as (pre & post & b1 & E & Hpre & Es & St1 & Hcase).
  rewrite E in Hs, Hf. apply scanned_prefix in Hs; [|done]. rewrite length_app in Hf.
  rewrite (bind_returns _ _ _ _ _ Es), bind_get.
  destruct Hcase as [[Hp Hne]|(y & q & -> & Hy & Hlt)].
  - rewrite Hp. cbn [negb]. destruct pre; [done|]. apply (IH _ post Hs ltac:(cbn in Hf; lia) b1 t St1).
  - assert (hasPendingData b1 = true) as -> by (unfold hasPendingData; apply negb_true_iff, Nat.eqb_neq; lia). cbn [negb].
    cbn [length] in Hf. inversion Hs as [|? ? ? ? ? ? _|? ? ? s' l1 ? ? _ Hb1 Hl Hs'|? ? ? a ? _ Hb1|? ? ? e ? _ Hb1]; simplify_eq; try congruence.
    + destruct (Hb1 b1 t St1 Hlt) as (b2 & E2 & St2). destruct (IH s' l1 Hs' ltac:(lia) b2 t St2) as (b3 & E3 & St3).
      exists b3. by rewrite (bind_returns _ _ _ _ _ E2).
    + destruct (Hb1 b1 t St1 Hlt) as (b2 & E2 & St2). exists b2. by rewrite (bind_returns _ _ _ _ _ E2).
    + destruct (Hb1 b1 t St1 Hlt) as (b2 & E2 & St2). exists b2. by rewrite (bind_throws _ _ _ _ _ E2).
Qed.
End Scanning.

(** ** Fixed strings *)

Section Fixed.
Context {D : Type} `{L : ReadBufferLaws D}.

(** The part of [l] that agrees with [s]. *)
Fixpoint common (s l : list Z) : nat :=
  match s, l with
  | c :: s', x :: l' => if x =? c then S (common s' l') else 0
  | _, _ => 0
  end.

Lemma reads_checkString s l :
  reads (checkString s) l (Returns (common s l =? length s)%nat) (drop (common s l) l).
Proof.
  revert l. induction s as [|c s IH]; intros l; cbn [checkString]; [apply reads_ret|].
  destruct l as [|x l]; rsteps. cbn. destruct (x =? c).
  - apply here_advance. apply IH.
  - cbn. apply reads_here_reads, reads_ret.
Qed.

Lemma common_app s l : common s (s ++ l) = length s.
Proof. induction s as [|c s IH]; cbn; [by destruct l|]. by rewrite Z.eqb_refl, IH. Qed.

Lemma reads_checkString_app s l : reads (checkString s) (s ++ l) (Returns true) l.
Proof.
  pose proof (reads_checkString s (s ++ l)) as Hr. by rewrite common_app, Nat.eqb_refl, drop_app_length in Hr.
Qed.

Lemma reads_assertString s l :
  reads (assertString s) l
    (if (common s l =? length s)%nat then Returns tt else Throws CANNOT_PARSE_INPUT_ASSERTION_FAILED) (drop (common s l) l).
Proof.
  unfold assertString. eapply reads_bind; [apply reads_checkString|]. destruct (_ =? _)%nat; cbn; [apply reads_ret|].
  unfold throwAtAssertionFailed. eapply reads_bind; [apply reads_eof|apply reads_throw].
Qed.

Lemma reads_readStringBinary s max l :
  Z.of_nat (length s) <= max -> Z.of_nat (length s) < 2 ^ 63 ->
  reads (readStringBinary max) (writeVarUInt_mem (Z.of_nat (length s)) ++ s ++ l) (Returns s) l.
Proof.
  intros Hmax H63. unfold readStringBinary. eapply reads_bind; [apply reads_varuint; lia|]. rewrite Z.mod_small by lia.
  rewrite (proj2 (Z.ltb_ge _ _)) by lia. rewrite Nat2Z.id. pose proof (reads_readStrict (length s) (s ++ l)) as Hr.
  rewrite take_app_length, drop_app_length, (proj2 (Nat.leb_le _ _)) in Hr by (rewrite length_app; lia). exact Hr.
Qed.

Lemma reads_readStringBinary_large n max l :
  0 <= n < 2 ^ 63 -> max < n -> reads (readStringBinary max) (writeVarUInt_mem n ++ l) (Throws TOO_LARGE_STRING_SIZE) l.
Proof.
  intros Hn Hmax. unfold readStringBinary. eapply reads_bind; [apply reads_varuint; lia|]. rewrite Z.mod_small by lia.
  rewrite (proj2 (Z.ltb_lt _ _)) by lia. apply reads_throw.
Qed.
End Fixed.
