(* ===== verification/TextFormat.v ===== *)
(** * Writing strings as text, and reading them back

    The string writers of dbms/src/IO/WriteHelpers.h: escaped, quoted, CSV,
    JSON, XML and binary strings.  Each is shown to append a list that is a
    simple function of the string, and the readers of [TextStrings] to give
    the string back, from any read buffer and any write buffer. *)

From stdpp Require Import base list option numbers sets.
From Stdlib Require Import ZArith Lia.
From S2P Require Import Prelude IOMonad ReadBuffers BufferSources WriteBuffers VarInt TextStrings.

#[local] Open Scope Z_scope.

(** ** The writers *)

Section Writers.
Context {D : Type} `{WriteBuffer D}.

Definition writeStringBinary (s : list Z) : M (wbuf D) unit :=
  _ ← writeVarUInt (Z.of_nat (length s));
  write s.

Fixpoint writeVector_loop {A} (writeBinary : A -> M (wbuf D) unit) (v : list A) : M (wbuf D) unit :=
  match v with
  | [] => mret tt
  | x :: v' => _ ← writeBinary x; writeVector_loop writeBinary v'
  end.

Definition writeVectorBinary {A} (writeBinary : A -> M (wbuf D) unit) (v : list A) : M (wbuf D) unit :=
  _ ← writeVarUInt (Z.of_nat (length v));
  writeVector_loop writeBinary v.

Definition writeBoolText (x : bool) : M (wbuf D) unit := writeChar (if x then 49 else 48).

(** The characters that [writeAnyEscapedString<c>] escapes, and what it puts
    behind the backslash. *)
Definition escaped_symbols (c : Z) : list Z := [8; 12; NEWLINE; RETURN; TAB; 0; BACKSLASH; c].

Definition escape_letter (x : Z) : Z :=
  if x =? 8 then 98
  else if x =? 12 then 102
  else if x =? NEWLINE then 110
  else if x =? RETURN then 114
  else if x =? TAB then 116
  else if x =? 0 then 48
  else x.                      (* the backslash and [c] *)

(** [pos] is what is left of the string. *)
Fixpoint writeAnyEscaped_loop (fuel : nat) (c : Z) (pos : list Z) : M (wbuf D) unit :=
  match fuel with
  | 0%nat => throw NO_FUEL
  | S fuel' =>
      let n := find_first (is_in (escaped_symbols c)) pos in
      match drop n pos with
      | [] => write (take n pos)
      | x :: pos' =>
          _ ← write (take n pos);
          _ ← writeChar BACKSLASH;
          _ ← writeChar (escape_letter x);
          writeAnyEscaped_loop fuel' c pos'
      end
  end.

Definition writeAnyEscapedString (c : Z) (s : list Z) : M (wbuf D) unit := writeAnyEscaped_loop (S (length s)) c s.

Definition writeEscapedString (s : list Z) : M (wbuf D) unit := writeAnyEscapedString QUOTE s.

Definition writeAnyQuotedString (c : Z) (s : list Z) : M (wbuf D) unit :=
  _ ← writeChar c;
  _ ← writeAnyEscapedString c s;
  writeChar c.

Definition isWordCharASCII (c : Z) : bool := isAlphaASCII c || isNumericASCII c || (c =? 95).
Definition isValidIdentifierBegin (c : Z) : bool := isAlphaASCII c || (c =? 95).

Definition writeProbablyBackQuotedString (s : list Z) : M (wbuf D) unit :=
  match s with
  | [] => writeAnyQuotedString BACKQUOTE s
  | c :: s' =>
      if negb (isValidIdentifierBegin c) then writeAnyQuotedString BACKQUOTE s
      else if negb (forallb isWordCharASCII s') then writeAnyQuotedString BACKQUOTE s
      else write s
  end.

Fixpoint writeCSV_loop (fuel : nat) (quote : Z) (pos : list Z) : M (wbuf D) unit :=
  match fuel with
  | 0%nat => throw NO_FUEL
  | S fuel' =>
      let n := find_first (is_in [quote]) pos in
      match drop n pos with
      | [] => write pos
      | _ :: pos' =>
          _ ← write (take (S n) pos);
          _ ← writeChar quote;
          writeCSV_loop fuel' quote pos'
      end
  end.

Definition writeCSVString (quote : Z) (s : list Z) : M (wbuf D) unit :=
  _ ← writeChar quote;
  _ ← writeCSV_loop (S (length s)) quote s;
  writeChar quote.

(** The replacements are [&lt;] and [&amp;]. *)
Fixpoint writeXML_loop (fuel : nat) (pos : list Z) : M (wbuf D) unit :=
  match fuel with
  | 0%nat => throw NO_FUEL
  | S fuel' =>
      let n := find_first (is_in [60; 38]) pos in
      match drop n pos with
      | [] => write pos
      | x :: pos' =>
          _ ← write (take n pos);
          _ ← write (if x =? 60 then [38; 108; 116; 59] else [38; 97; 109; 112; 59]);
          writeXML_loop fuel' pos'
      end
  end.

Definition writeXMLString (s : list Z) : M (wbuf D) unit := writeXML_loop (S (length s)) s.

Definition hex_digit (x : Z) : Z := if x <=? 9 then 48 + x else 65 + x - 10.

(** One round of the loop of [writeJSONString]: what is left of the string. *)
Definition writeJSON_char (it : list Z) : M (wbuf D) (list Z) :=
  match it with
  | [] => mret []
  | x :: it' =>
      let two c := _ ← writeChar BACKSLASH; _ ← writeChar c; mret it' in
      if x =? 8 then two 98
      else if x =? 12 then two 102
      else if x =? NEWLINE then two 110
      else if x =? RETURN then two 114
      else if x =? TAB then two 116
      else if x =? BACKSLASH then two BACKSLASH
      else if x =? 47 then two 47
      else if x =? DQUOTE then two DQUOTE
      else if x <=? 31 then
        let higher_half := Z.shiftr x 4 in
        let lower_half := Z.land x 15 in
        _ ← write [BACKSLASH; 117; 48; 48];
        _ ← writeChar (48 + higher_half);
        _ ← writeChar (hex_digit lower_half);
        mret it'
      else
        match it' with
        | y :: z :: it'' =>
            if (x =? 226) && (y =? 128) && ((z =? 168) || (z =? 169)) then
              _ ← write (if z =? 168 then [BACKSLASH; 117; 50; 48; 50; 56] else [BACKSLASH; 117; 50; 48; 50; 57]);
              mret it''
            else _ ← writeChar x; mret it'
        | _ => _ ← writeChar x; mret it'
        end
  end.

Fixpoint writeJSON_loop (fuel : nat) (it : list Z) : M (wbuf D) unit :=
  match it with
  | [] => mret tt
  | _ =>
      match fuel with
      | 0%nat => throw NO_FUEL
      | S fuel' => it' ← writeJSON_char it; writeJSON_loop fuel' it'
      end
  end.

Definition writeJSONString (s : list Z) : M (wbuf D) unit :=
  _ ← writeChar DQUOTE;
  _ ← writeJSON_loop (length s) s;
  writeChar DQUOTE.
End Writers.

(** ** What they write *)

Definition escape1 (c x : Z) : list Z :=
  if is_in (escaped_symbols c) x then [BACKSLASH; escape_letter x] else [x].
Definition escape (c : Z) (s : list Z) : list Z := concat (map (escape1 c) s).

Definition csv_escape (quote : Z) (s : list Z) : list Z := concat (map (fun x => if x =? quote then [x; x] else [x]) s).

Definition xml1 (x : Z) : list Z :=
  if x =? 60 then [38; 108; 116; 59] else if x =? 38 then [38; 97; 109; 112; 59] else [x].
Definition xml_escape (s : list Z) : list Z := concat (map xml1 s).

Lemma concat_map_plain {A} (f : A -> list A) (p : A -> bool) l :
  (forall x, p x = false -> f x = [x]) -> Forall (fun x => p x = false) l -> concat (map f l) = l.
Proof. intros Hf Hl. induction Hl as [|x l Hx Hl IH]; cbn; [done|]. by rewrite Hf, IH. Qed.

(** A string up to its first stop symbol and the rest. *)
Lemma find_first_cases stop (l : list Z) :
  (drop (find_first stop l) l = [] /\ Forall (fun x => stop x = false) l /\ take (find_first stop l) l = l) \/
  (exists x l', drop (find_first stop l) l = x :: l' /\ stop x = true /\
     Forall (fun x => stop x = false) (take (find_first stop l) l) /\ l = take (find_first stop l) l ++ x :: l' /\
     take (S (find_first stop l)) l = take (find_first stop l) l ++ [x]).
Proof.
  destruct (find_first_split stop l) as (H1 & H2 & H3). destruct (drop (find_first stop l) l) as [|x l'] eqn:E.
  - left. pose proof (take_drop (find_first stop l) l) as Et. rewrite E, app_nil_r in Et.
    split_and!; try done. by rewrite Et in H1.
  - right. exists x, l'. split; [done|]. split; [by apply (H3 x l')|]. split; [done|]. split; [rewrite <- E; by rewrite take_drop|].
    apply take_S_r. rewrite <- (Nat.add_0_r (find_first stop l)), <- lookup_drop, E. done.
Qed.

Section Written.
Context {D : Type} `{L : WriteBufferLaws D}.

Lemma writes_escaped_loop fuel c s :
  (length s < fuel)%nat -> writes (D := D) (writeAnyEscaped_loop fuel c s) tt (escape c s).
Proof.
  revert s. induction fuel as [|fuel IH]; intros s Hf; [lia|]. cbn [writeAnyEscaped_loop].
  assert (forall x, is_in (escaped_symbols c) x = false -> escape1 c x = [x]) as Hp by (intros x Hx; unfold escape1; by rewrite Hx).
  destruct (find_first_cases (is_in (escaped_symbols c)) s) as [(Ed & Hall & Et)|(x & s' & Ed & Hx & Hpre & Es & _)]; rewrite Ed.
  - rewrite Et. unfold escape. rewrite (concat_map_plain _ _ _ Hp Hall). apply writes_write.
  - assert (length s' < fuel)%nat as Hl by (rewrite Es, length_app in Hf; cbn in Hf; lia).
    set (pre := take _ s) in *. clearbody pre. subst s. unfold escape. rewrite map_app, concat_app. rewrite (concat_map_plain _ _ _ Hp Hpre).
    cbn [map concat]. unfold escape1 at 1. rewrite Hx. eapply writes_bind; [apply writes_write|].
    apply (writes_bind (writeChar BACKSLASH) _ tt tt [BACKSLASH]); [apply writes_writeChar|].
    apply (writes_bind (writeChar (escape_letter x)) _ tt tt [escape_letter x]); [apply writes_writeChar|]. by apply IH.
Qed.

Lemma writes_escaped c s : writes (D := D) (writeAnyEscapedString c s) tt (escape c s).
Proof. apply writes_escaped_loop. lia. Qed.

Lemma writes_quoted c s : writes (D := D) (writeAnyQuotedString c s) tt (c :: escape c s ++ [c]).
Proof.
  apply (writes_bind (writeChar c) _ tt tt [c]); [apply writes_writeChar|].
  eapply writes_bind; [apply writes_escaped|apply writes_writeChar].
Qed.

Lemma writes_csv_loop fuel q s : (length s < fuel)%nat -> writes (D := D) (writeCSV_loop fuel q s) tt (csv_escape q s).
Proof.
  revert s. induction fuel as [|fuel IH]; intros s Hf; [lia|]. cbn [writeCSV_loop].
  assert (forall x, is_in [q] x = false -> (if x =? q then [x; x] else [x]) = [x]) as Hp.
  { intros x Hx. cbn in Hx. by destruct (x =? q). }
  destruct (find_first_cases (is_in [q]) s) as [(Ed & Hall & Et)|(x & s' & Ed & Hx & Hpre & Es & Et)]; rewrite Ed.
  - unfold csv_escape. rewrite (concat_map_plain _ _ _ Hp Hall). apply writes_write.
  - assert (length s' < fuel)%nat as Hl by (rewrite Es, length_app in Hf; cbn in Hf; lia).
    assert (x = q) as -> by (cbn in Hx; by destruct (Z.eqb_spec x q)).
    rewrite Et. set (pre := take _ s) in *. clearbody pre. clear Et. subst s. unfold csv_escape. rewrite map_app, concat_app. rewrite (concat_map_plain _ _ _ Hp Hpre).
    cbn [map concat]. rewrite Z.eqb_refl. eapply writes_eq.
    + eapply writes_bind; [apply writes_write|]. eapply writes_bind; [apply writes_writeChar|by apply IH].
    + rewrite <- app_assoc. done.
Qed.

Lemma writes_csv q s : writes (D := D) (writeCSVString q s) tt (q :: csv_escape q s ++ [q]).
Proof.
  apply (writes_bind (writeChar q) _ tt tt [q]); [apply writes_writeChar|].
  eapply writes_bind; [apply writes_csv_loop; lia|apply writes_writeChar].
Qed.

Lemma writes_xml_loop fuel s : (length s < fuel)%nat -> writes (D := D) (writeXML_loop fuel s) tt (xml_escape s).
Proof.
  revert s. induction fuel as [|fuel IH]; intros s Hf; [lia|]. cbn [writeXML_loop].
  assert (forall x, is_in [60; 38] x = false -> xml1 x = [x]) as Hp.
  { intros x Hx. unfold xml1. cbn in Hx. destruct (x =? 60); [done|]. by destruct (x =? 38). }
  destruct (find_first_cases (is_in [60; 38]) s) as [(Ed & Hall & Et)|(x & s' & Ed & Hx & Hpre & Es & _)]; rewrite Ed.
  - unfold xml_escape. rewrite (concat_map_plain xml1 _ _ Hp Hall). apply writes_write.
  - assert (length s' < fuel)%nat as Hl by (rewrite Es, length_app in Hf; cbn in Hf; lia).
    set (pre := take _ s) in *. clearbody pre. subst s. unfold xml_escape. rewrite map_app, concat_app. rewrite (concat_map_plain xml1 _ _ Hp Hpre).
    cbn [map concat]. eapply writes_bind; [apply writes_write|]. eapply writes_bind; [|by apply IH].
    unfold xml1. cbn in Hx. destruct (x =? 60); [apply writes_write|]. destruct (x =? 38); [apply writes_write|done].
Qed.

Lemma writes_xml s : writes (D := D) (writeXMLString s) tt (xml_escape s).
Proof. apply writes_xml_loop. lia. Qed.

Lemma writes_stringBinary s : writes (D := D) (writeStringBinary s) tt (writeVarUInt_mem (Z.of_nat (length s)) ++ s).
Proof. eapply writes_bind; [apply writeVarUInt_spec|apply writes_write]. Qed.
End Written.

(** ** Reading back *)

(** The characters used as quotes. *)
Definition quote_char (c : Z) : Prop := c = QUOTE \/ c = DQUOTE \/ c = BACKQUOTE.

Lemma is_in_elem symbols x : is_in symbols x = true <-> x ∈ symbols.
Proof.
  unfold is_in. rewrite existsb_exists. split.
  - intros (y & Hy & E). apply Z.eqb_eq in E as ->. by apply list_elem_of_In.
  - intros Hx. exists x. split; [by apply list_elem_of_In|apply Z.eqb_refl].
Qed.

Lemma is_in_not symbols x : is_in symbols x = false <-> x ∉ symbols.
Proof. rewrite <- is_in_elem. by destruct (is_in symbols x). Qed.

Ltac not_in := unfold is_in; cbn [existsb]; rewrite !(proj2 (Z.eqb_neq _ _)) by assumption; reflexivity.

Lemma escape_letter_back c x :
  quote_char c -> is_in (escaped_symbols c) x = true ->
  (escape_letter x =? 120) = false /\ (escape_letter x =? 78) = false /\ parseEscapeSequence (escape_letter x) = x.
Proof.
  intros Hc Hx. apply is_in_elem in Hx. unfold escaped_symbols in Hx. unfold quote_char in Hc.
  repeat (apply elem_of_cons in Hx as [->|Hx]; [try done; destruct Hc as [->|[->| ->]]; done|]). by apply not_elem_of_nil in Hx.
Qed.

Section ReadBack.
Context {D : Type} `{L : ReadBufferLaws D}.

Lemma here_escape c x s l :
  quote_char c -> is_in (escaped_symbols c) x = true ->
  reads_here (D := D) (parseComplexEscapeSequence s) (BACKSLASH :: escape_letter x :: l) (Returns (s ++ [x])) l.
Proof.
  intros Hc Hx. destruct (escape_letter_back c x Hc Hx) as (E1 & E2 & E3). unfold parseComplexEscapeSequence.
  rsteps. rewrite E1, E2. rsteps. rewrite E3. rsteps.
Qed.

(** What may follow an escaped field: the end, a tab or a newline. *)
Definition ends_field (rest : list Z) : Prop :=
  match rest with [] => True | x :: _ => x = TAB \/ x = NEWLINE end.

Lemma escape_plain c x : is_in (escaped_symbols c) x = false -> x <> TAB /\ x <> NEWLINE /\ x <> BACKSLASH /\ x <> c.
Proof. intros Hx. apply is_in_not in Hx. unfold escaped_symbols in Hx. set_solver. Qed.

Lemma snoc_app {A} (s0 s : list A) x : s0 ++ x :: s = (s0 ++ [x]) ++ s.
Proof. by rewrite <- app_assoc. Qed.

Lemma scanned_escaped s0 s rest :
  ends_field rest ->
  scanned (D := D) (is_in [TAB; NEWLINE; BACKSLASH]) escaped_body mret s0 (escape QUOTE s ++ rest) (Returns (s0 ++ s)) rest.
Proof.
  intros Hr. revert s0. induction s as [|x s IH]; intros s0.
  - cbn [escape map concat app]. rewrite app_nil_r. destruct rest as [|y rest]; [apply scanned_end, reads_ret|].
    apply scanned_done; [by destruct Hr as [->| ->]|].
    apply here_peek. destruct Hr as [->| ->]; cbn; apply reads_here_reads, reads_ret.
  - unfold escape. cbn [map concat]. fold (escape QUOTE s). unfold escape1. rewrite (snoc_app s0 s x).
    destruct (is_in (escaped_symbols QUOTE) x) eqn:Hx; cbn [app].
    + apply (scanned_go _ _ _ _ _ _ (s0 ++ [x]) (escape QUOTE s ++ rest)); [done| |apply Nat.le_succ_diag_r|apply IH].
      apply here_peek. cbn. eapply here_bind; [apply (here_escape QUOTE x); [by left|done]|]. apply reads_ret.
    + apply scanned_char; [|apply IH]. apply escape_plain in Hx as (? & ? & ? & _). not_in.
Qed.

Lemma reads_escaped fuel s rest :
  ends_field rest -> (length (escape QUOTE s ++ rest) < fuel)%nat ->
  reads (D := D) (readEscapedStringInto fuel []) (escape QUOTE s ++ rest) (Returns s) rest.
Proof. intros Hr Hf. apply scan_while_reads; [|done]. by apply (scanned_escaped [] s rest). Qed.

(** What follows a quoted string must not continue it. *)
Definition ends_quoted (quote : Z) (sql : bool) (rest : list Z) : Prop :=
  match rest with x :: _ => sql = true -> x <> quote | [] => True end.

Lemma scanned_quoted final quote sql s0 s rest :
  quote_char quote -> ends_quoted quote sql rest ->
  scanned (D := D) (is_in [BACKSLASH; quote]) (quoted_body quote sql) final s0 (escape quote s ++ quote :: rest) (Returns (s0 ++ s)) rest.
Proof.
  intros Hq Hr. assert ((BACKSLASH =? quote) = false) as Hbq by (destruct Hq as [->|[->| ->]]; done).
  revert s0. induction s as [|x s IH]; intros s0.
  - cbn [escape map concat app]. rewrite app_nil_r. apply scanned_done; [apply is_in_elem; set_solver|].
    unfold quoted_body. rstep. rewrite Z.eqb_refl. rstep. destruct sql; [|rstep]. destruct rest as [|y rest]; rsteps.
    destruct (Z.eqb_spec y quote) as [->|]; [by destruct (Hr eq_refl)|]. apply reads_here_reads, reads_ret.
  - unfold escape. cbn [map concat]. fold (escape quote s). unfold escape1. rewrite (snoc_app s0 s x).
    destruct (is_in (escaped_symbols quote) x) eqn:Hx; cbn [app].
    + apply (scanned_go _ _ _ _ _ _ (s0 ++ [x]) (escape quote s ++ quote :: rest)); [apply is_in_elem; set_solver| |apply Nat.le_succ_diag_r|apply IH].
      unfold quoted_body. rstep. rewrite Hbq, Z.eqb_refl. eapply here_bind; [apply (here_escape quote x); done|]. apply reads_ret.
    + apply scanned_char; [|apply IH]. apply escape_plain in Hx as (_ & _ & ? & ?). not_in.
Qed.

Lemma reads_quoted fuel quote sql s rest :
  quote_char quote -> ends_quoted quote sql rest -> (length (escape quote s ++ quote :: rest) < fuel)%nat ->
  reads (D := D) (readAnyQuotedStringInto fuel quote sql []) (quote :: escape quote s ++ quote :: rest) (Returns s) rest.
Proof.
  intros Hq Hr Hf. unfold readAnyQuotedStringInto. rstep. rstep. rewrite Z.eqb_refl. cbn [negb]. rstep.
  apply scan_while_reads; [|done]. by apply (scanned_quoted _ quote sql [] s rest).
Qed.

Lemma scanned_csv quote s0 s rest :
  match rest with x :: _ => x <> quote | [] => True end ->
  scanned (D := D) (Z.eqb quote) (csv_body quote) mret s0 (csv_escape quote s ++ quote :: rest) (Returns (s0 ++ s)) rest.
Proof.
  intros Hr. revert s0. induction s as [|x s IH]; intros s0.
  - cbn [csv_escape map concat app]. rewrite app_nil_r. apply scanned_done; [apply Z.eqb_refl|].
    unfold csv_body. rstep. destruct rest as [|y rest]; rsteps. rewrite (proj2 (Z.eqb_neq _ _) Hr). apply reads_here_reads, reads_ret.
  - unfold csv_escape. cbn [map concat]. fold (csv_escape quote s). rewrite (snoc_app s0 s x).
    destruct (Z.eqb_spec x quote) as [->|Hx]; cbn [app].
    + apply (scanned_go _ _ _ _ _ _ (s0 ++ [quote]) (csv_escape quote s ++ quote :: rest)); [apply Z.eqb_refl| |apply Nat.le_succ_diag_r|apply IH].
      unfold csv_body. rsteps. rewrite Z.eqb_refl. rsteps.
    + apply scanned_char; [by apply Z.eqb_neq|apply IH].
Qed.

Lemma reads_csv fuel quote delimiter s rest :
  quote = QUOTE \/ quote = DQUOTE -> quote <> delimiter ->
  match rest with x :: _ => x <> quote | [] => True end -> (length (csv_escape quote s ++ quote :: rest) < fuel)%nat ->
  reads (D := D) (readCSVStringInto fuel delimiter []) (quote :: csv_escape quote s ++ quote :: rest) (Returns s) rest.
Proof.
  intros Hq Hd Hr Hf. unfold readCSVStringInto. rstep. rstep. rewrite (proj2 (Z.eqb_neq _ _) Hd).
  assert ((quote =? QUOTE) || (quote =? DQUOTE) = true) as -> by (destruct Hq as [->| ->]; done). rstep.
  apply scan_while_reads; [|done]. by apply (scanned_csv quote [] s rest).
Qed.
End ReadBack.

(** ** JSON *)

(** The characters that are escaped by a letter. *)
Definition json_letter (x : Z) : option Z :=
  if x =? 8 then Some 98
  else if x =? 12 then Some 102
  else if x =? NEWLINE then Some 110
  else if x =? RETURN then Some 114
  else if x =? TAB then Some 116
  else if x =? BACKSLASH then Some BACKSLASH
  else if x =? 47 then Some 47
  else if x =? DQUOTE then Some DQUOTE
  else None.

Definition control_escape (x : Z) : list Z :=
  [BACKSLASH; 117; 48; 48; 48 + Z.shiftr x 4; hex_digit (Z.land x 15)].
Definition separator_escape (z : Z) : list Z := [BACKSLASH; 117; 50; 48; 50; if z =? 168 then 56 else 57].
Definition is_separator (x y z : Z) : bool := (x =? 226) && (y =? 128) && ((z =? 168) || (z =? 169)).

Fixpoint json_escape (s : list Z) : list Z :=
  match s with
  | [] => []
  | x :: s' =>
      match json_letter x with
      | Some c => BACKSLASH :: c :: json_escape s'
      | None =>
          if x <=? 31 then control_escape x ++ json_escape s'
          else
            match s' with
            | y :: ((z :: s'') as r) =>
                if is_separator x y z then separator_escape z ++ json_escape s'' else x :: json_escape s'
            | _ => x :: json_escape s'
            end
      end
  end.

Lemma writes_json_char {D} `{L : WriteBufferLaws D} x it :
  exists w it', writes (D := D) (writeJSON_char (x :: it)) it' w /\ (length it' <= length it)%nat /\
    json_escape (x :: it) = w ++ json_escape it'.
Proof.
  assert (forall c, writes (D := D) (_ ← writeChar BACKSLASH; _ ← writeChar c; mret it) it [BACKSLASH; c]) as Two.
  { intros c. apply (writes_bind (writeChar BACKSLASH) _ tt it [BACKSLASH]); [apply writes_writeChar|].
    apply (writes_bind (writeChar c) _ tt it [c] []); [apply writes_writeChar|apply writes_ret]. }
  assert (writes (D := D) (_ ← writeChar x; mret it) it [x]) as One.
  { apply (writes_bind (writeChar x) _ tt it [x] []); [apply writes_writeChar|apply writes_ret]. }
  cbn [writeJSON_char json_escape]. unfold json_letter.
  repeat match goal with |- context [if x =? ?c then Some _ else _] => destruct (x =? c); [eexists _, it; split; [apply Two|by split]|] end.
  destruct (x <=? 31).
  - exists (control_escape x), it. split; [|by split]. unfold control_escape.
    apply (writes_bind (write _) _ tt it [BACKSLASH; 117; 48; 48]); [apply writes_write|].
    apply (writes_bind (writeChar _) _ tt it [48 + Z.shiftr x 4]); [apply writes_writeChar|].
    apply (writes_bind (writeChar _) _ tt it [hex_digit (Z.land x 15)] []); [apply writes_writeChar|apply writes_ret].
  - destruct it as [|y [|z it]]; [by exists [x], []; split_and!|by exists [x], [y]; split_and!|]. unfold is_separator.
    destruct ((x =? 226) && (y =? 128) && _); [|by exists [x], (y :: z :: it); split_and!].
    exists (separator_escape z), it. split; [|by split; [cbn; lia|]].
    apply (writes_bind (write _) _ tt it (separator_escape z) []); [|apply writes_ret].
    unfold separator_escape. destruct (z =? 168); apply writes_write.
Qed.

Lemma writes_json_loop {D} `{L : WriteBufferLaws D} fuel s :
  (length s <= fuel)%nat -> writes (D := D) (writeJSON_loop fuel s) tt (json_escape s).
Proof.
  revert s. induction fuel as [|fuel IH]; intros [|x s] Hf; try (apply writes_ret); [cbn in Hf; lia|].
  cbn [writeJSON_loop]. destruct (writes_json_char (D := D) x s) as (w & it' & Hw & Hl & ->).
  eapply writes_bind; [exact Hw|]. apply IH. cbn in Hf. lia.
Qed.

Lemma writes_json {D} `{L : WriteBufferLaws D} s :
  writes (D := D) (writeJSONString s) tt (DQUOTE :: json_escape s ++ [DQUOTE]).
Proof.
  apply (writes_bind (writeChar DQUOTE) _ tt tt [DQUOTE]); [apply writes_writeChar|].
  eapply writes_bind; [by apply writes_json_loop|apply writes_writeChar].
Qed.

(** Digits and letters read back. *)
Lemma json_letter_back x c :
  json_letter x = Some c -> (c =? 117) = false /\
  (if c =? 98 then 8 else if c =? 102 then 12 else if c =? 110 then 10 else if c =? 114 then 13 else if c =? 116 then 9 else c) = x.
Proof.
  unfold json_letter. intros E.
  repeat match type of E with context [if x =? ?k then _ else _] => destruct (Z.eqb_spec x k); [injection E as <-; by subst|] end.
  discriminate.
Qed.

Lemma control_back x : 0 <= x <= 31 -> unhex4 [48; 48; 48 + Z.shiftr x 4; hex_digit (Z.land x 15)] = x.
Proof.
  intros Hx. apply Z.eqb_eq.
  assert (negb (x <=? 31) || (unhex4 [48; 48; 48 + Z.shiftr x 4; hex_digit (Z.land x 15)] =? x) = true) as Hb.
  { apply (all_bytes (fun x => negb (x <=? 31) || (unhex4 [48; 48; 48 + Z.shiftr x 4; hex_digit (Z.land x 15)] =? x))); [by vm_compute|].
    unfold fits. lia. }
  by rewrite (proj2 (Z.leb_le _ _)) in Hb by lia.
Qed.

Section ReadJSON.
Context {D : Type} `{L : ReadBufferLaws D}.

Lemma reads_read4 a b c d l : reads (D := D) (read 4) (a :: b :: c :: d :: l) (Returns [a; b; c; d]) l.
Proof. exact (reads_read 4 (a :: b :: c :: d :: l)). Qed.

Lemma here_json_letter te x c s l :
  json_letter x = Some c ->
  reads_here (D := D) (parseJSONEscapeSequence te s) (BACKSLASH :: c :: l) (Returns (true, s ++ [x])) l.
Proof.
  intros Hc. destruct (json_letter_back x c Hc) as [E1 E2]. unfold parseJSONEscapeSequence. rsteps. rewrite E1, E2. rsteps.
Qed.

Lemma here_json_control te x s l :
  0 <= x <= 31 ->
  reads_here (D := D) (parseJSONEscapeSequence te s) (control_escape x ++ l) (Returns (true, s ++ [x])) l.
Proof.
  intros Hx. unfold parseJSONEscapeSequence, control_escape. cbn [app]. rsteps. cbn. rstep. unfold parseJSONUnicode.
  eapply reads_bind; [apply reads_read4|]. cbn [length negb Nat.eqb]. pose proof (control_back x Hx) as E.
  case_bool_decide as E0.
  - rewrite E0 in E. replace x with 0 by (rewrite <- E; by vm_compute). rstep.
  - rewrite E. rewrite (proj2 (Z.leb_le x 127)) by lia. rstep.
Qed.

Lemma here_json_separator te z s l :
  (z =? 168) || (z =? 169) = true ->
  reads_here (D := D) (parseJSONEscapeSequence te s) (separator_escape z ++ l) (Returns (true, s ++ [226; 128; z])) l.
Proof.
  intros Hz. unfold parseJSONEscapeSequence, separator_escape. cbn [app]. rsteps. cbn. rstep. unfold parseJSONUnicode.
  eapply reads_bind; [apply reads_read4|]. cbn [length negb Nat.eqb].
  destruct (Z.eqb_spec z 168) as [->|].
  - replace (s ++ [226; 128; 168]) with (s ++ utf8_3 8232) by done. apply reads_ret.
  - destruct (Z.eqb_spec z 169) as [->|]; [|done]. replace (s ++ [226; 128; 169]) with (s ++ utf8_3 8233) by done. apply reads_ret.
Qed.

Lemma here_json_body te s s' l l' :
  reads_here (D := D) (parseJSONEscapeSequence te s) (BACKSLASH :: l) (Returns (true, s')) l' ->
  reads_here (D := D) (json_body te s) (BACKSLASH :: l) (Returns (Go s')) l'.
Proof. intros Hp. unfold json_body. rstep. cbn. eapply here_bind; [exact Hp|]. apply reads_ret. Qed.

Lemma scanned_json te s0 s rest :
  Forall is_byte s ->
  scanned (D := D) (is_in [BACKSLASH; DQUOTE]) (json_body te) (json_error te CANNOT_PARSE_QUOTED_STRING)
    s0 (json_escape s ++ DQUOTE :: rest) (Returns (true, s0 ++ s)) rest.
Proof.
  remember (length s) as n eqn:En. assert (length s <= n)%nat as Hn by lia. clear En.
  revert s s0 Hn. induction n as [|n IH]; intros s s0 Hn Hb.
  { destruct s; [|cbn in Hn; lia]. cbn [json_escape app]. rewrite app_nil_r. apply scanned_done; [done|]. unfold json_body. rsteps. cbn. rsteps. }
  destruct s as [|x s].
  { cbn [json_escape app]. rewrite app_nil_r. apply scanned_done; [done|]. unfold json_body. rsteps. cbn. rsteps. }
  cbn in Hn. apply list.Forall_cons in Hb as [Hx Hb]. cbn [json_escape]. destruct (json_letter x) as [c|] eqn:Ec.
  - rewrite (snoc_app s0 s x). cbn [app].
    apply (scanned_go _ _ _ _ _ _ (s0 ++ [x]) (json_escape s ++ DQUOTE :: rest)); [done| |apply Nat.le_succ_diag_r|apply IH; [lia|done]].
    apply here_json_body. by apply here_json_letter.
  - assert (x <> BACKSLASH /\ x <> DQUOTE) as [Hnb Hnq].
    { unfold json_letter in Ec. split; intros ->; discriminate Ec. }
    destruct (Z.leb_spec x 31) as [Hc|Hc].
    + rewrite (snoc_app s0 s x), <- app_assoc.
      apply (scanned_go _ _ _ _ _ _ (s0 ++ [x]) (json_escape s ++ DQUOTE :: rest)); [done| | |apply IH; [lia|done]].
      * apply here_json_body. apply (here_json_control te x). destruct Hx. lia.
      * cbn [app length]. lia.
    + assert (scanned (D := D) (is_in [BACKSLASH; DQUOTE]) (json_body te) (json_error te CANNOT_PARSE_QUOTED_STRING)
        s0 ((x :: json_escape s) ++ DQUOTE :: rest) (Returns (true, s0 ++ x :: s)) rest) as Plain.
      { rewrite (snoc_app s0 s x). apply scanned_char; [not_in|]. apply IH; [lia|done]. }
      destruct s as [|y [|z s]]; [exact Plain..|]. destruct (is_separator x y z) eqn:Es; [|exact Plain].
      unfold is_separator in Es. apply andb_true_iff in Es as [[Ex Ey]%andb_true_iff Ez]. apply Z.eqb_eq in Ex as ->, Ey as ->.
      rewrite <- app_assoc. replace (s0 ++ 226 :: 128 :: z :: s) with ((s0 ++ [226; 128; z]) ++ s) by (by rewrite <- app_assoc).
      apply (scanned_go _ _ _ _ _ _ (s0 ++ [226; 128; z]) (json_escape s ++ DQUOTE :: rest)); [done| | |].
      * apply here_json_body. by apply (here_json_separator te z).
      * cbn [app length]. lia.
      * apply IH; [cbn in Hn; lia|]. by apply list.Forall_cons in Hb as [_ [_ Hb]%list.Forall_cons].
Qed.

Lemma reads_json fuel te s rest :
  Forall is_byte s -> (length (json_escape s ++ DQUOTE :: rest) < fuel)%nat ->
  reads (D := D) (readJSONStringInto fuel te []) (DQUOTE :: json_escape s ++ DQUOTE :: rest) (Returns (true, s)) rest.
Proof.
  intros Hb Hf. unfold readJSONStringInto. rstep. rstep. cbn [negb Z.eqb Pos.eqb]. rstep.
  apply scan_while_reads; [|done]. by apply (scanned_json te [] s rest).
Qed.
End ReadJSON.

(** ** Every input is read or rejected

    [settles m l n]: on the data [l] the function returns or throws one of the
    exceptions of the program, without leaving the working buffer and without
    running out of fuel, and leaves at most [n] bytes. *)

Definition fine {A} (r : outcome A) : Prop :=
  match r with Returns _ => True | Throws e => e <> BUFFER_OVERRUN /\ e <> NO_FUEL end.

Section Settles.
Context {D : Type} `{L : ReadBufferLaws D}.

Definition settles {A} (m : M (rbuf D) A) (l : list Z) (n : nat) : Prop :=
  exists r l', reads m l r l' /\ fine r /\ (length l' <= n)%nat.
Definition settles_here {A} (m : M (rbuf D) A) (x : Z) (l : list Z) (n : nat) : Prop :=
  exists r l', reads_here m (x :: l) r l' /\ fine r /\ (length l' <= n)%nat.

Lemma settles_reads {A} (m : M (rbuf D) A) l n r l' :
  reads m l r l' -> fine r -> (length l' <= n)%nat -> settles m l n.
Proof. by exists r, l'. Qed.

Lemma settles_ret {A} (a : A) l n : (length l <= n)%nat -> settles (mret a) l n.
Proof. intros Hl. exists (Returns a), l. split_and!; [apply reads_ret|done..]. Qed.

Lemma settles_throw {A} e l n : e <> BUFFER_OVERRUN -> e <> NO_FUEL -> (length l <= n)%nat -> settles (A := A) (throw e) l n.
Proof. intros H1 H2 Hl. exists (Throws e), l. split_and!; [apply reads_throw|done..]. Qed.

Lemma settles_bind {A B} (m : M (rbuf D) A) (k : A -> M (rbuf D) B) l n1 n :
  (n1 <= n)%nat -> settles m l n1 -> (forall a l', (length l' <= n1)%nat -> settles (k a) l' n) -> settles (m ≫= k) l n.
Proof.
  intros Hn ([a|e] & l1 & Hm & Hf & Hl) Hk.
  - destruct (Hk a l1 Hl) as (r & l2 & Hr & Hf2 & Hl2). exists r, l2. split_and!; [by eapply reads_bind|done..].
  - exists (Throws e), l1. split_and!; [by apply reads_bind_throws|apply Hf..|lia].
Qed.

Lemma settles_here_bind {A B} (m : M (rbuf D) A) (k : A -> M (rbuf D) B) x l n1 n :
  (n1 <= n)%nat -> settles_here m x l n1 -> (forall a l', (length l' <= n1)%nat -> settles (k a) l' n) -> settles_here (m ≫= k) x l n.
Proof.
  intros Hn ([a|e] & l1 & Hm & Hf & Hl) Hk.
  - destruct (Hk a l1 Hl) as (r & l2 & Hr & Hf2 & Hl2). exists r, l2. split_and!; [by eapply here_bind|done..].
  - exists (Throws e), l1. split_and!; [|apply Hf..|lia]. intros b t St Hb. destruct (Hm b t St Hb) as (b1 & E1 & St1).
    exists b1. by rewrite (bind_throws _ _ _ _ _ E1).
Qed.

Lemma settles_eof {A} (k : bool -> M (rbuf D) A) l n :
  (l = [] -> settles (k true) [] n) -> (forall x q, l = x :: q -> settles_here (k false) x q n) -> settles (eof ≫= k) l n.
Proof.
  destruct l as [|x q]; intros H1 H2.
  - destruct (H1 eq_refl) as (r & l' & Hr & Hf). exists r, l'. split; [by apply reads_eof_nil|done].
  - destruct (H2 x q eq_refl) as (r & l' & Hr & Hf). exists r, l'. split; [by apply reads_eof_cons|done].
Qed.

Lemma settles_peek {A} (k : Z -> M (rbuf D) A) x l n : settles_here (k x) x l n -> settles_here (peek ≫= k) x l n.
Proof. intros (r & l' & Hr & Hf). exists r, l'. split; [by apply here_peek|done]. Qed.

Lemma settles_advance {A} (k : unit -> M (rbuf D) A) x l n : settles (k tt) l n -> settles_here (advance 1 ≫= k) x l n.
Proof. intros (r & l' & Hr & Hf). exists r, l'. split; [by apply here_advance|done]. Qed.

Lemma settles_here_settles {A} (m : M (rbuf D) A) x l n : settles m (x :: l) n -> settles_here m x l n.
Proof. intros (r & l' & Hr & Hf). exists r, l'. split; [by apply reads_here_reads|done]. Qed.

Lemma settles_read n l k : (length l <= k)%nat -> settles (read n) l k.
Proof. intros Hl. eapply settles_reads; [apply reads_read|done|]. rewrite length_drop. lia. Qed.

Lemma settles_readStrict n l k : (length l <= k)%nat -> settles (readStrict n) l k.
Proof. intros Hl. eapply settles_reads; [apply reads_readStrict|by destruct (_ <=? _)%nat|]. rewrite length_drop. lia. Qed.

Lemma settles_checkString s l k : (length l <= k)%nat -> settles (checkString s) l k.
Proof. intros Hl. eapply settles_reads; [apply reads_checkString|done|]. rewrite length_drop. lia. Qed.

(** A body of the scanning loop: it consumes something when the loop goes on. *)
Definition settles_body {A} (m : M (rbuf D) (action A)) (x : Z) (l : list Z) : Prop :=
  exists r l', reads_here m (x :: l) r l' /\ fine r /\
    (length l' <= match r with Returns (Go _) => length l | _ => S (length l) end)%nat.

Lemma body_here {A} (m : M (rbuf D) (action A)) x l : settles_here m x l (length l) -> settles_body m x l.
Proof. intros (r & l' & Hr & Hf & Hl). exists r, l'. split_and!; try done. destruct r as [[]|]; lia. Qed.

Lemma body_peek {A} (k : Z -> M (rbuf D) (action A)) x l : settles_body (k x) x l -> settles_body (peek ≫= k) x l.
Proof. intros (r & l' & Hr & Hf). exists r, l'. split; [by apply here_peek|done]. Qed.

Lemma body_done {A} (a : A) x l : settles_body (mret (Done a)) x l.
Proof. exists (Returns (Done a)), (x :: l). split_and!; [apply reads_here_reads, reads_ret|done|done]. Qed.

Lemma scanned_settles {A} stop (body : list Z -> M (rbuf D) (action A)) final s l :
  (forall s, exists r, reads (final s) [] r [] /\ fine r) ->
  (forall s x l, stop x = true -> settles_body (body s) x l) ->
  exists r l', scanned stop body final s l r l' /\ fine r /\ (length l' <= length l)%nat.
Proof.
  intros Hfin Hbody. remember (length l) as n eqn:En. assert (length l <= n)%nat as Hn by lia. clear En.
  revert s l Hn. induction n as [|n IH]; intros s l Hn.
  { destruct l; [|cbn in Hn; lia]. destruct (Hfin s) as (r & Hr & Hf). exists r, []. split_and!; [by apply scanned_end|done..]. }
  destruct l as [|x l]; [destruct (Hfin s) as (r & Hr & Hf); exists r, []; split_and!; [by apply scanned_end|done|cbn; lia]|]. cbn in Hn.
  destruct (stop x) eqn:Ex.
  - destruct (Hbody s x l Ex) as ([[s'|a]|e] & l1 & Hr & Hf & Hl).
    + destruct (IH s' l1 ltac:(lia)) as (r & l2 & Hs & Hf2 & Hl2). exists r, l2. split_and!; [by eapply scanned_go|done|lia].
    + exists (Returns a), l1. split_and!; [by apply scanned_done|done|lia].
    + exists (Throws e), l1. split_and!; [by apply scanned_throws|apply Hf..|lia].
  - destruct (IH (s ++ [x]) l ltac:(lia)) as (r & l2 & Hs & Hf2 & Hl2). exists r, l2. split_and!; [by apply scanned_char|done|lia].
Qed.

Lemma scan_while_settles {A} fuel stop (body : list Z -> M (rbuf D) (action A)) final s l n :
  (forall s, exists r, reads (final s) [] r [] /\ fine r) ->
  (forall s x l, stop x = true -> settles_body (body s) x l) ->
  (length l < fuel)%nat -> (length l <= n)%nat -> settles (scan_while fuel stop body final s) l n.
Proof.
  intros Hfin Hbody Hf Hn. destruct (scanned_settles stop body final s l Hfin Hbody) as (r & l' & Hs & Hr & Hl).
  exists r, l'. split_and!; [by apply scan_while_reads|done|lia].
Qed.
End Settles.

Ltac settle1 :=
  lazymatch goal with
  | |- settles (mret _) _ _ => apply settles_ret; try lia
  | |- settles (throw _) _ _ => apply settles_throw; [discriminate|discriminate|try lia]
  | |- settles_here (mret _) _ _ _ => apply settles_here_settles
  | |- settles_here (throw _) _ _ _ => apply settles_here_settles
  | |- settles (eof ≫= _) _ _ => apply settles_eof; [intros ?; subst|intros ? ? ?; subst]; cbn beta
  | |- settles_here (peek ≫= _) _ _ _ => apply settles_peek; cbn beta
  | |- settles_here (advance 1 ≫= _) _ _ _ => apply settles_advance; cbn beta
  | |- settles_here (if ?c then _ else _) _ _ _ => destruct c eqn:?
  | |- settles (if ?c then _ else _) _ _ => destruct c eqn:?
  end.
Ltac settle := repeat (settle1; cbn [negb length] in * ); try (cbn [length] in *; lia).

Section ReadersSettle.
Context {D : Type} `{L : ReadBufferLaws D}.

Lemma escape_settles s l : settles_here (D := D) (parseComplexEscapeSequence s) BACKSLASH l (length l).
Proof.
  unfold parseComplexEscapeSequence. settle.
  eapply settles_bind; [|by apply settles_readStrict|]; [lia|]. intros. settle.
Qed.

Lemma return_settles (s : list Z) : exists r, reads (D := D) (mret s) [] r [] /\ fine r.
Proof. exists (Returns s). split; [apply reads_ret|done]. Qed.

Lemma escaped_settles fuel s l n :
  (length l < fuel)%nat -> (length l <= n)%nat -> settles (D := D) (readEscapedStringInto fuel s) l n.
Proof.
  intros Hf Hn. apply scan_while_settles; [apply return_settles| |done|done].
  intros s1 x q Hx. apply body_peek. destruct (_ || _) eqn:E1; [apply body_done|]. apply body_here.
  destruct (Z.eqb_spec x BACKSLASH) as [->|E2].
  - eapply settles_here_bind; [|apply escape_settles|]; [done|]. intros. settle.
  - apply orb_false_iff in E1 as [?%Z.eqb_neq ?%Z.eqb_neq].
    assert (is_in [TAB; NEWLINE; BACKSLASH] x = false) by not_in. congruence.
Qed.

Lemma quoted_settles fuel quote sql l n :
  (length l <= fuel)%nat -> (length l <= n)%nat -> settles (D := D) (readAnyQuotedStringInto fuel quote sql []) l n.
Proof.
  intros Hf Hn. unfold readAnyQuotedStringInto. settle. apply scan_while_settles.
  - intros s. exists (Throws CANNOT_PARSE_QUOTED_STRING). split; [apply reads_throw|done].
  - intros s1 y q' Hy. apply body_peek, body_here. destruct (Z.eqb_spec y quote) as [->|E1]; [settle|].
    destruct (Z.eqb_spec y BACKSLASH) as [->|E2]; [|assert (is_in [BACKSLASH; quote] y = false) by not_in; congruence].
    eapply settles_here_bind; [|apply escape_settles|]; [done|]. intros. settle.
  - cbn in Hf. lia.
  - cbn in Hn. lia.
Qed.

Lemma csv_settles fuel delimiter l n :
  (length l < fuel)%nat -> (length l <= n)%nat -> settles (D := D) (readCSVStringInto fuel delimiter []) l n.
Proof.
  intros Hf Hn. unfold readCSVStringInto. settle.
  - apply scan_while_settles; [apply return_settles| |cbn in *; lia|cbn in *; lia].
    intros s1 y q' Hy. apply body_here. unfold csv_body. settle.
  - apply settles_here_settles. apply scan_while_settles; [apply return_settles| |cbn in *; lia|cbn in *; lia].
    intros s1 y q' Hy. apply body_done.
Qed.

Lemma json_unicode_settles te s l n : (length l <= n)%nat -> settles (D := D) (parseJSONUnicode te s) l n.
Proof.
  intros Hn. unfold parseJSONUnicode. eapply settles_bind; [|apply (settles_read 4 l (length l)); lia|]; [lia|].
  intros h l1 Hl1. unfold json_error. settle.
  eapply settles_bind; [|apply (settles_checkString _ l1 (length l1)); lia|]; [lia|]. intros r l2 Hl2. settle.
  eapply settles_bind; [|apply (settles_read 4 l2 (length l2)); lia|]; [lia|]. intros h2 l3 Hl3. settle.
Qed.

Lemma json_escape_settles te s l : settles_here (D := D) (parseJSONEscapeSequence te s) BACKSLASH l (length l).
Proof. unfold parseJSONEscapeSequence, json_error. settle. apply json_unicode_settles. lia. Qed.

Lemma json_settles fuel te l n :
  (length l <= fuel)%nat -> (length l <= n)%nat -> settles (D := D) (readJSONStringInto fuel te []) l n.
Proof.
  intros Hf Hn. unfold readJSONStringInto, json_error. settle. apply scan_while_settles; [| |cbn in *; lia|cbn in *; lia].
  - intros s1. destruct te; [exists (Throws CANNOT_PARSE_QUOTED_STRING)|exists (Returns (false, s1))];
      (split; [apply reads_throw || apply reads_ret|done]).
  - intros s1 y q' Hy. apply body_peek, body_here. destruct (Z.eqb_spec y DQUOTE) as [->|E1]; [settle|].
    destruct (Z.eqb_spec y BACKSLASH) as [->|E2]; [|assert (is_in [BACKSLASH; DQUOTE] y = false) by not_in; congruence].
    eapply settles_here_bind; [|apply json_escape_settles|]; [done|]. intros. settle.
Qed.
End ReadersSettle.

(** ** Theorems *)

(** C19: Fields of the tab separated formats.  What [writeEscapedString] writes,
    followed by a tab, a newline or the end, [readEscapedString] reads back,
    for every string, through every write and read buffer. *)
Theorem escaped_write_read {W R} `{LW : WriteBufferLaws W} `{LR : ReadBufferLaws R} s rest fuel :
  ends_field rest ->
  exists w, writes (D := W) (writeEscapedString s) tt w /\
    ((length (w ++ rest) < fuel)%nat -> reads (D := R) (readEscapedStringInto fuel []) (w ++ rest) (Returns s) rest).
Proof. intros Hr. exists (escape QUOTE s). split; [apply writes_escaped|]. by apply reads_escaped. Qed.

Lemma escaped_write_read_witness :
  exists w, writes (D := from_string) (writeEscapedString [97; TAB; 0; BACKSLASH]) tt w /\
    ((length (w ++ [TAB; 98]%Z) < 20)%nat ->
     reads (D := concatenated from_memory) (readEscapedStringInto 20 []) (w ++ [TAB; 98]) (Returns [97; TAB; 0; BACKSLASH]) [TAB; 98]).
Proof. apply (escaped_write_read [97; TAB; 0; BACKSLASH] [TAB; 98] 20). by left. Defined.

(** Quoted strings.  What [writeAnyQuotedString] writes in single, double or
    back quotes is read back by the reader for the same quote, with and
    without SQL style doubling; with it the string must not be followed by
    another quote. *)
Theorem quoted_write_read {W R} `{LW : WriteBufferLaws W} `{LR : ReadBufferLaws R} quote sql s rest fuel :
  quote_char quote -> ends_quoted quote sql rest ->
  exists w, writes (D := W) (writeAnyQuotedString quote s) tt w /\
    ((length (w ++ rest) <= fuel)%nat -> reads (D := R) (readAnyQuotedStringInto fuel quote sql []) (w ++ rest) (Returns s) rest).
Proof.
  intros Hq Hr. exists (quote :: escape quote s ++ [quote]). split; [apply writes_quoted|]. cbn [app length]. rewrite <- app_assoc. cbn [app].
  intros Hf. apply reads_quoted; [done..|lia].
Qed.

Lemma quoted_write_read_witness :
  exists w, writes (D := from_string) (writeAnyQuotedString DQUOTE [DQUOTE; 10; QUOTE]) tt w /\
    ((length (w ++ [44]%Z) <= 20)%nat ->
     reads (D := from_memory) (readAnyQuotedStringInto 20 DQUOTE true []) (w ++ [44]) (Returns [DQUOTE; 10; QUOTE]) [44]).
Proof. apply (quoted_write_read DQUOTE true [DQUOTE; 10; QUOTE] [44] 20); [by right; left|by intros _]. Defined.

(** CSV fields.  What [writeCSVString] writes is read back by
    [readCSVString] with any delimiter other than the quote. *)
Theorem csv_write_read {W R} `{LW : WriteBufferLaws W} `{LR : ReadBufferLaws R} quote delimiter s rest fuel :
  quote = QUOTE \/ quote = DQUOTE -> quote <> delimiter -> match rest with x :: _ => x <> quote | [] => True end ->
  exists w, writes (D := W) (writeCSVString quote s) tt w /\
    ((length (w ++ rest) <= fuel)%nat -> reads (D := R) (readCSVStringInto fuel delimiter []) (w ++ rest) (Returns s) rest).
Proof.
  intros Hq Hd Hr. exists (quote :: csv_escape quote s ++ [quote]). split; [apply writes_csv|]. cbn [app length]. rewrite <- app_assoc. cbn [app].
  intros Hf. apply reads_csv; [done..|lia].
Qed.

Lemma csv_write_read_witness :
  exists w, writes (D := from_string) (writeCSVString DQUOTE [97; DQUOTE; COMMA]) tt w /\
    ((length (w ++ [COMMA]) <= 20)%nat ->
     reads (D := from_memory) (readCSVStringInto 20 COMMA []) (w ++ [COMMA]) (Returns [97; DQUOTE; COMMA]) [COMMA]).
Proof. apply (csv_write_read DQUOTE COMMA [97; DQUOTE; COMMA] [COMMA] 20); [by right|done|done]. Defined.

(** JSON strings.  What [writeJSONString] writes, with its unicode escapes for
    control characters and for the two line separators, [readJSONString]
    reads back for every string of bytes. *)
Theorem json_write_read {W R} `{LW : WriteBufferLaws W} `{LR : ReadBufferLaws R} te s rest fuel :
  Forall is_byte s ->
  exists w, writes (D := W) (writeJSONString s) tt w /\
    ((length (w ++ rest) <= fuel)%nat -> reads (D := R) (readJSONStringInto fuel te []) (w ++ rest) (Returns (true, s)) rest).
Proof.
  intros Hb. exists (DQUOTE :: json_escape s ++ [DQUOTE]). split; [apply writes_json|]. cbn [app length]. rewrite <- app_assoc. cbn [app].
  intros Hf. apply reads_json; [done|lia].
Qed.

Lemma json_write_read_witness :
  exists w, writes (D := from_string) (writeJSONString [47; 1; 226; 128; 168]) tt w /\
    ((length (w ++ []) <= 40)%nat ->
     reads (D := from_memory) (readJSONStringInto 40 true []) (w ++ []) (Returns (true, [47; 1; 226; 128; 168])) []).
Proof. apply (json_write_read true [47; 1; 226; 128; 168] [] 40). repeat constructor; vm_compute; done. Defined.

(** Binary strings: the length as a variable length integer and the bytes. *)
Theorem binary_write_read {W R} `{LW : WriteBufferLaws W} `{LR : ReadBufferLaws R} s max rest :
  Z.of_nat (length s) <= max -> Z.of_nat (length s) < 2 ^ 63 ->
  exists w, writes (D := W) (writeStringBinary s) tt w /\ reads (D := R) (readStringBinary max) (w ++ rest) (Returns s) rest.
Proof.
  intros Hm Hl. eexists. split; [apply writes_stringBinary|]. rewrite <- app_assoc. by apply reads_readStringBinary.
Qed.

Lemma binary_write_read_witness :
  exists w, writes (D := from_string) (writeStringBinary [1; 2; 3]) tt w /\
    reads (D := from_memory) (readStringBinary 1024) (w ++ [9]) (Returns [1; 2; 3]) [9].
Proof. apply (binary_write_read [1; 2; 3] 1024 [9]); cbn; lia. Defined.

(** Every input is read or rejected.  On arbitrary data each string reader
    returns a string or throws one of its exceptions: it ends, and it never
    looks outside the working buffer, however the data is cut. *)
Theorem string_readers_settle {R} `{LR : ReadBufferLaws R} quote sql delimiter te l fuel :
  (length l < fuel)%nat ->
  settles (D := R) (readEscapedStringInto fuel []) l (length l) /\
  settles (D := R) (readAnyQuotedStringInto fuel quote sql []) l (length l) /\
  settles (D := R) (readCSVStringInto fuel delimiter []) l (length l) /\
  settles (D := R) (readJSONStringInto fuel te []) l (length l).
Proof.
  intros Hf. split_and!; [apply escaped_settles|apply quoted_settles|apply csv_settles|apply json_settles]; lia.
Qed.

Lemma string_readers_settle_witness :
  settles (D := concatenated from_memory) (readEscapedStringInto 4 []) [92; 120; 52] 3 /\
  settles (D := concatenated from_memory) (readAnyQuotedStringInto 4 QUOTE false []) [92; 120; 52] 3 /\
  settles (D := concatenated from_memory) (readCSVStringInto 4 COMMA []) [92; 120; 52] 3 /\
  settles (D := concatenated from_memory) (readJSONStringInto 4 true []) [92; 120; 52] 3.
Proof. apply (string_readers_settle QUOTE false COMMA true [92; 120; 52] 4). cbn. lia. Defined.

(** The boolean variant of [readJSONStringInto] accepts strings that the other
    one rejects: it does not look at the result of
    [parseJSONEscapeSequence].  A lone surrogate is dropped from the string. *)
Theorem json_bad_escape_accepted :
  let text := [DQUOTE; BACKSLASH; 117; 68; 56; 48; 48; 97; DQUOTE] in
  (readJSONStringInto 20 true [] (ReadBufferFromMemory text)).1 = Throws CANNOT_PARSE_ESCAPE_SEQUENCE /\
  (readJSONStringInto 20 false [] (ReadBufferFromMemory text)).1 = Returns (true, [97]).
Proof. by vm_compute. Qed.

(** At the end of the data a CSV field is treated differently: trailing spaces
    are kept, and a missing closing quote is not noticed. *)
Theorem csv_end_of_data :
  (readCSVStringInto 20 COMMA [] (ReadBufferFromMemory [97; SPACE; COMMA])).1 = Returns [97] /\
  (readCSVStringInto 20 COMMA [] (ReadBufferFromMemory [97; SPACE])).1 = Returns [97; SPACE] /\
  (readCSVStringInto 20 COMMA [] (ReadBufferFromMemory [DQUOTE; 97])).1 = Returns [97].
Proof. by vm_compute. Qed.
