(* ===== verification/TextNumbers.v ===== *)
(** * Integers as text

    [writeIntText] (dbms/src/IO/WriteIntText.h) with its fast path that
    converts two digits at a time in place and the fallback used near the end
    of the buffer, and the readers [readIntText] and [readIntTextUnsafe]
    (dbms/src/IO/ReadHelpers.h), for signed and unsigned types of any width
    up to 64 bits. *)

From stdpp Require Import base list option numbers.
From Stdlib Require Import ZArith Lia.
From S2P Require Import Prelude IOMonad ReadBuffers BufferSources WriteBuffers VarInt TextStrings.

#[local] Open Scope Z_scope.
#[local] Open Scope word_scope.

(** The value of an arithmetic result in the type [T]: [sgn] is
    [std::is_signed_v<T>] and [w] its width. *)
Definition norm (sgn : bool) (w x : Z) : Z := if sgn then signed w (wrap w x) else wrap w x.

(** ** Writing *)

Fixpoint digits10_loop (fuel : nat) (x : Z) : Z :=
  match fuel with
  | 0%nat => 0
  | S fuel' =>
      if x <? 10 then 1
      else if x <? 100 then 2
      else if x <? 1000 then 3
      else if x <? 1000000000000 then
        if x <? 100000000 then
          if x <? 1000000 then
            if x <? 10000 then 4 else 5 + (if 100000 <=? x then 1 else 0)
          else 7 + (if 10000000 <=? x then 1 else 0)
        else if x <? 10000000000 then 9 + (if 1000000000 <=? x then 1 else 0)
        else 11 + (if 100000000000 <=? x then 1 else 0)
      else 12 + digits10_loop fuel' (x / 1000000000000)
  end.

(** A 64-bit number is divided at most once. *)
Definition digits10 (x : Z) : Z := digits10_loop 2 x.

(** The table ["000102...9899"]. *)
Definition digits_table : list Z := concat (map (fun k => [48 + k / 10; 48 + k mod 10]) (seqZ 0 100)).

(** [dst[i] = c]; an index outside is a write outside the buffer. *)
Definition set_at (dst : list Z) (i c : Z) : option (list Z) :=
  if (0 <=? i) && (i <? Z.of_nat (length dst)) then Some (<[Z.to_nat i := c]> dst) else None.

(** The loop over pairs of digits: [dst], [next] and [x] at its end. *)
Fixpoint pairs_loop (fuel : nat) (dst : list Z) (next x : Z) : option (list Z * Z * Z) :=
  match fuel with
  | 0%nat => None
  | S fuel' =>
      if 100 <=? x then
        let i := (x mod 100) * 2 in
        dst1 ← set_at dst next (rd digits_table (i + 1));
        dst2 ← set_at dst1 (next -32 1) (rd digits_table i);
        pairs_loop fuel' dst2 (next -32 2) (x / 100)
      else Some (dst, next, x)
  end.

(** [writeUIntText(x, dst)], for a [dst] with room for the digits. *)
Definition writeUIntText_mem (x : Z) (dst : list Z) : option (list Z) :=
  let len := digits10 x in
  '(dst1, next, y) ← pairs_loop 11 dst (len -32 1) x;
  if y <? 10 then set_at dst1 next (48 + y)
  else
    let i := y * 2 in
    dst2 ← set_at dst1 next (rd digits_table (i + 1));
    set_at dst2 (next -32 1) (rd digits_table i).

Fixpoint fallback_loop (fuel : nat) (tmp : list Z) (pos x : Z) : option (list Z * Z) :=
  match fuel with
  | 0%nat => None
  | S fuel' =>
      if x =? 0 then Some (tmp, pos)
      else
        tmp1 ← set_at tmp pos (48 + x mod 10);
        fallback_loop fuel' tmp1 (pos - 1) (x / 10)
  end.

Definition MAX_INT_WIDTH : nat := 20.

Section Writing.
Context {D : Type} `{WriteBuffer D}.

Definition writeUIntTextFallback (x : Z) : M (wbuf D) unit :=
  if x =? 0 then
    _ ← wnextIfAtEnd;
    put [48]
  else
    match fallback_loop 21 (replicate MAX_INT_WIDTH 0) 19 x with
    | None => throw BUFFER_OVERRUN
    | Some (tmp, pos) => write (drop (Z.to_nat (pos + 1)) tmp)
    end.

(** The fast path writes the digits at the cursor. *)
Definition writeUIntText (x : Z) : M (wbuf D) unit :=
  room ← get (fun b => (wb_pos b + MAX_INT_WIDTH <? wb_end b)%nat);
  if room : bool then
    dst ← get (fun b => take (Z.to_nat (digits10 x)) (drop (wb_pos b) (wb_mem b)));
    match writeUIntText_mem x dst with
    | None => throw BUFFER_OVERRUN
    | Some s => put s
    end
  else writeUIntTextFallback x.

Definition min_text (w : Z) : list Z :=
  if w =? 8 then [45; 49; 50; 56]
  else if w =? 16 then [45; 51; 50; 55; 54; 56]
  else if w =? 32 then [45; 50; 49; 52; 55; 52; 56; 51; 54; 52; 56]
  else [45; 57; 50; 50; 51; 51; 55; 50; 48; 51; 54; 56; 53; 52; 55; 55; 53; 56; 48; 56].

Definition writeSIntText (w x : Z) : M (wbuf D) unit :=
  if x =? - 2 ^ (w - 1) then write (min_text w)
  else if x <? 0 then
    _ ← wnextIfAtEnd;
    _ ← put [45];
    writeUIntText (wrap w (- x))
  else writeUIntText (wrap w x).

Definition writeIntText (sgn : bool) (w x : Z) : M (wbuf D) unit :=
  if sgn then writeSIntText w x else writeUIntText x.
End Writing.

(** ** Reading *)

Section Reading.
Context {D : Type} `{ReadBuffer D}.
Context (fuel : nat) (sgn : bool) (w : Z).

Definition finish (negative : bool) (x : Z) : Z := if negative then norm sgn w (- x) else x.

(** [None] is the result false of the variant that does not throw. *)
Fixpoint int_loop (throw_exception : bool) (n : nat) (negative : bool) (x : Z) : M (rbuf D) (option Z) :=
  match n with
  | 0%nat => throw NO_FUEL
  | S n' =>
      e ← eof;
      if e : bool then mret (Some (finish negative x))
      else
        c ← peek;
        if c =? 43 then _ ← advance 1; int_loop throw_exception n' negative x
        else if c =? 45 then
          if sgn then _ ← advance 1; int_loop throw_exception n' true x
          else if throw_exception then throw CANNOT_PARSE_NUMBER
          else mret None
        else if isNumericASCII c then
          let x' := norm sgn w (norm sgn w (x * 10) + (c - 48)) in
          _ ← advance 1;
          int_loop throw_exception n' negative x'
        else mret (Some (finish negative x))
  end.

Definition readIntTextImpl (throw_exception : bool) : M (rbuf D) (option Z) :=
  e ← eof;
  if e : bool then
    if throw_exception then throw ATTEMPT_TO_READ_AFTER_EOF else mret None
  else int_loop throw_exception fuel false 0.

Fixpoint unsafe_loop (n : nat) (x : Z) : M (rbuf D) Z :=
  match n with
  | 0%nat => throw NO_FUEL
  | S n' =>
      e ← eof;
      if e : bool then mret x
      else
        c ← peek;
        if Z.land c 240 =? 48 then
          let x' := norm sgn w (norm sgn w (x * 10) + Z.land c 15) in
          _ ← advance 1;
          unsafe_loop n' x'
        else mret x
  end.

(** From the digits on. *)
Definition unsafe_number (negative : bool) : M (rbuf D) Z :=
  c ← peek;
  if c =? 48 then _ ← advance 1; mret 0
  else
    x ← unsafe_loop fuel 0;
    mret (if sgn && negative then norm sgn w (- x) else x).

Definition readIntTextUnsafe (throw_on_error : bool) : M (rbuf D) Z :=
  let on_error := if throw_on_error then throw ATTEMPT_TO_READ_AFTER_EOF else mret 0 in
  e ← eof;
  if e : bool then on_error
  else
    c ← peek;
    if sgn && (c =? 45) then
      _ ← advance 1;
      e ← eof;
      if e : bool then on_error else unsafe_number true
    else unsafe_number false.
End Reading.

(** ** The digits of a number *)

(** The [n] low decimal digits of [x]. *)
Fixpoint digits (n : nat) (x : Z) : list Z :=
  match n with
  | 0%nat => []
  | S n' => digits n' (x / 10) ++ [48 + x mod 10]
  end.

Definition decimal (x : Z) : list Z := digits (Z.to_nat (digits10 x)) x.

Definition value (ds : list Z) (x : Z) : Z := foldl (fun x d => x * 10 + (d - 48)) x ds.

Lemma length_digits n x : length (digits n x) = n.
Proof. revert x. induction n as [|n IH]; intros x; cbn; [done|]. rewrite length_app, IH. cbn. lia. Qed.

Lemma digits_numeric n x : Forall (fun d => 48 <= d <= 57) (digits n x).
Proof.
  revert x. induction n as [|n IH]; intros x; cbn; [constructor|]. apply list.Forall_app. split; [apply IH|].
  apply list.Forall_singleton. pose proof (Z.mod_pos_bound x 10). lia.
Qed.

Lemma value_digits n x y : 0 <= x -> value (digits n x) y = y * 10 ^ Z.of_nat n + x mod 10 ^ Z.of_nat n.
Proof.
  revert x y. induction n as [|n IH]; intros x y Hx; [cbn; rewrite Z.mod_1_r; lia|].
  cbn [digits]. unfold value. rewrite foldl_app. fold (value (digits n (x / 10)) y). rewrite IH by (apply Z.div_pos; lia). cbn [foldl].
  rewrite Nat2Z.inj_succ, Z.pow_succ_r by lia.
  rewrite (Z.rem_mul_r x 10 (10 ^ Z.of_nat n)) by (try apply Z.pow_pos_nonneg; lia). lia.
Qed.

Lemma digits_split n k x : digits (n + k) x = digits n (x / 10 ^ Z.of_nat k) ++ digits k x.
Proof.
  revert x. induction k as [|k IH]; intros x; [cbn; by rewrite Nat.add_0_r, app_nil_r, Z.div_1_r|].
  rewrite Nat.add_succ_r. cbn [digits]. rewrite IH, <- app_assoc. f_equal. f_equal.
  rewrite Nat2Z.inj_succ, Z.pow_succ_r, Z.div_div by lia. done.
Qed.

(** [n] is the number of digits of [x]. *)
Definition has_digits (n : Z) (x : Z) : Prop := 1 <= n /\ 0 <= x < 10 ^ n /\ (n = 1 \/ 10 ^ (n - 1) <= x).

Ltac pow_consts :=
  repeat match goal with
  | |- context [10 ^ Z.pos ?p] => let v := eval vm_compute in (10 ^ Z.pos p) in change (10 ^ Z.pos p) with v
  | H : context [10 ^ Z.pos ?p] |- _ => let v := eval vm_compute in (10 ^ Z.pos p) in change (10 ^ Z.pos p) with v in H
  end.

Lemma digits10_first x : 0 <= x < 10 ^ 12 -> forall fuel, has_digits (digits10_loop (S fuel) x) x /\ digits10_loop (S fuel) x <= 12.
Proof.
  intros Hx fuel. cbn [digits10_loop]. unfold has_digits.
  repeat match goal with
  | |- context [if ?a <? ?b then _ else _] => destruct (Z.ltb_spec a b)
  | |- context [if ?a <=? ?b then _ else _] => destruct (Z.leb_spec a b)
  end; cbn [Z.add Pos.add Pos.succ Z.sub Z.opp Pos.sub Z.pos_sub Pos.pred_double Z.pred_double]; pow_consts; try lia.
Qed.

Lemma digits10_spec x : fits 64 x -> has_digits (digits10 x) x /\ digits10 x <= 20.
Proof.
  intros [Hx Hx']. unfold digits10. destruct (Z.lt_ge_cases x (10 ^ 12)) as [Hlt|Hge].
  { destruct (digits10_first x ltac:(lia) 1). split; [done|lia]. }
  cbn [digits10_loop]. pow_consts.
  rewrite (proj2 (Z.ltb_ge x 10)), (proj2 (Z.ltb_ge x 100)), (proj2 (Z.ltb_ge x 1000)), (proj2 (Z.ltb_ge x 1000000000000)) by lia.
  set (y := x / 1000000000000). assert (0 <= y < 10 ^ 8) as Hy by (unfold y; pow_consts; dlia).
  destruct (digits10_first y ltac:(pow_consts; lia) 0) as [(H1 & H2 & H3) H12]. cbn [digits10_loop] in *.
  set (n := if y <? 10 then _ else _) in *.
  assert (n <= 8) as H8.
  { destruct (Z.le_gt_cases n 8); [done|]. destruct H3 as [->|H3]; [lia|]. pose proof (Z.pow_le_mono_r 10 8 (n - 1) ltac:(lia) ltac:(lia)). lia. }
  split; [|lia]. unfold has_digits. split_and!; [lia|lia| |right].
  - rewrite Z.pow_add_r by lia. pow_consts. assert (y + 1 <= 10 ^ n) by lia. unfold y in *. dlia.
  - destruct H3 as [E|H3].
    + rewrite E. change (12 + 1 - 1) with 12. pow_consts. lia.
    + replace (12 + n - 1) with (12 + (n - 1)) by lia. rewrite Z.pow_add_r by lia. pow_consts. unfold y in H3. dlia.
Qed.

Lemma rd_table k : 0 <= k < 100 -> rd digits_table (k * 2) = 48 + k / 10 /\ rd digits_table (k * 2 + 1) = 48 + k mod 10.
Proof.
  intros Hk. assert (negb (k <? 100) || ((rd digits_table (k * 2) =? 48 + k / 10) && (rd digits_table (k * 2 + 1) =? 48 + k mod 10)) = true) as Hb.
  { apply (all_bytes (fun k => negb (k <? 100) || ((rd digits_table (k * 2) =? 48 + k / 10) && (rd digits_table (k * 2 + 1) =? 48 + k mod 10))));
      [by vm_compute|unfold fits; lia]. }
  rewrite (proj2 (Z.ltb_lt _ _)) in Hb by lia. cbn [negb orb] in Hb. apply andb_true_iff in Hb as [?%Z.eqb_eq ?%Z.eqb_eq]. done.
Qed.

Lemma digits_2 x : 0 <= x -> digits 2 x = [rd digits_table ((x mod 100) * 2); rd digits_table ((x mod 100) * 2 + 1)].
Proof.
  intros Hx. destruct (rd_table (x mod 100)) as [-> ->]; [apply Z.mod_pos_bound; lia|]. cbn [digits app]. f_equal; [|f_equal]; f_equal; dlia.
Qed.

Lemma set_at_app q a l c i : i = Z.of_nat (length q) -> set_at (q ++ a :: l) i c = Some (q ++ c :: l).
Proof.
  intros ->. unfold set_at. rewrite length_app. cbn [length].
  rewrite (proj2 (Z.leb_le _ _)), (proj2 (Z.ltb_lt _ _)) by lia. cbn. by rewrite Nat2Z.id, insert_app_r_alt, Nat.sub_diag by lia.
Qed.

Lemma set_at_0 a l c : set_at (a :: l) 0 c = Some (c :: l).
Proof. exact (set_at_app [] a l c 0 eq_refl). Qed.

Lemma set_at_1 a b l c : set_at (a :: b :: l) 1 c = Some (a :: c :: l).
Proof. exact (set_at_app [a] b l c 1 eq_refl). Qed.

Lemma snoc_inv (l : list Z) n : length l = S n -> exists q a, l = q ++ [a] /\ length q = n.
Proof.
  intros Hl. destruct l as [|x l] using rev_ind; [done|]. rewrite length_app in Hl. cbn in Hl. exists l, x. split; [done|lia].
Qed.

Lemma digits_step n k x : has_digits n x -> 10 ^ k <= x -> 0 <= k -> k < n /\ has_digits (n - k) (x / 10 ^ k).
Proof.
  intros (H1 & H2 & H3) Hx Hk. assert (0 < 10 ^ k) as Hp by (apply Z.pow_pos_nonneg; lia).
  assert (k < n) as Hkn.
  { apply (Z.pow_lt_mono_r_iff 10); lia. }
  split; [done|]. unfold has_digits. assert (10 ^ n = 10 ^ (n - k) * 10 ^ k) as En by (rewrite <- Z.pow_add_r by lia; f_equal; lia).
  split_and!; [lia|apply Z.div_pos; lia|apply Z.div_lt_upper_bound; lia|].
  destruct (Z.eq_dec (n - k) 1) as [|Hne]; [by left|right]. destruct H3 as [->|H3]; [lia|].
  apply Z.div_le_lower_bound; [lia|]. rewrite <- Z.pow_add_r by lia. replace (k + (n - k - 1)) with (n - 1) by lia. done.
Qed.

Lemma pairs_loop_S fuel dst next x :
  pairs_loop (S fuel) dst next x =
    if 100 <=? x then
      dst1 ← set_at dst next (rd digits_table ((x mod 100) * 2 + 1));
      dst2 ← set_at dst1 (next -32 1) (rd digits_table ((x mod 100) * 2));
      pairs_loop fuel dst2 (next -32 2) (x / 100)
    else Some (dst, next, x).
Proof. reflexivity. Qed.

Lemma pairs_loop_spec fuel n x pre post :
  has_digits (Z.of_nat n) x -> length pre = n -> (n <= 2 * fuel)%nat -> (n <= 20)%nat ->
  exists pre' m y, pairs_loop (S fuel) (pre ++ post) (Z.of_nat n - 1) x = Some (pre' ++ digits (n - m) x ++ post, Z.of_nat m - 1, y) /\
    y = x / 10 ^ Z.of_nat (n - m) /\ y < 100 /\ length pre' = m /\ (m <= n)%nat /\ has_digits (Z.of_nat m) y.
Proof.
  revert n x pre post. induction fuel as [|fuel IH]; intros n x pre post Hn Hl Hf H20; [destruct Hn; lia|].
  rewrite pairs_loop_S. destruct (Z.leb_spec 100 x) as [Hge|Hlt].
  - destruct (digits_step _ 2 x Hn Hge ltac:(lia)) as [H2 Hn2]. change (10 ^ 2) with 100 in Hn2.
    destruct (snoc_inv pre (n - 1)) as (pre1 & b & -> & Hl1); [lia|]. destruct (snoc_inv pre1 (n - 2)) as (q & a & -> & Hl2); [lia|].
    rewrite <- !app_assoc. cbn [app].
    replace (q ++ a :: b :: post) with ((q ++ [a]) ++ b :: post) by (by rewrite <- app_assoc).
    rewrite set_at_app by (rewrite length_app; cbn; lia). cbn [mbind option_bind].
    rewrite <- app_assoc. cbn [app]. rewrite set_at_app by (rewrite wrap_small by (unfold fits; lia); lia). cbn [mbind option_bind].
    rewrite wrap_small by (unfold fits; lia).
    destruct (IH (n - 2)%nat (x / 100) q (rd digits_table ((x mod 100) * 2) :: rd digits_table ((x mod 100) * 2 + 1) :: post)) as
      (pre' & m & y & E & Ey & Hy & Hlm & Hm & Hd); [by replace (Z.of_nat (n - 2)) with (Z.of_nat n - 2) by lia|lia|lia|lia|].
    replace (Z.of_nat n - 1 - 2) with (Z.of_nat (n - 2) - 1) by lia. rewrite E.
    exists pre', m, y. split_and!; try done; try lia.
    + do 4 f_equal. replace (n - m)%nat with (n - 2 - m + 2)%nat by lia. rewrite digits_split, <- app_assoc. f_equal.
      destruct Hn as (_ & ? & _). by rewrite digits_2 by lia.
    + rewrite Ey. destruct Hn as (_ & ? & _). rewrite Z.div_div by (try apply Z.pow_pos_nonneg; lia).
      f_equal. change 100 with (10 ^ 2). rewrite <- Z.pow_add_r by lia. f_equal. lia.
  - exists pre, n, x. rewrite Nat.sub_diag. cbn. rewrite Z.div_1_r. by split_and!.
Qed.

Lemma writeUIntText_mem_spec x dst :
  fits 64 x -> length dst = Z.to_nat (digits10 x) -> writeUIntText_mem x dst = Some (decimal x).
Proof.
  intros Hx Hl. destruct (digits10_spec x Hx) as [Hd H20]. unfold writeUIntText_mem, decimal. pose proof Hd as (H1 & _).
  set (n := Z.to_nat (digits10 x)) in *. assert (digits10 x = Z.of_nat n) as En by lia. rewrite En in *.
  rewrite wrap_small by (unfold fits; lia).
  destruct (pairs_loop_spec 10 n x dst []) as (pre & m & y & E & Ey & Hy & Hlm & Hm & Hdy); [done|done|lia|lia|].
  rewrite app_nil_r in E. rewrite E. cbn [mbind option_bind]. rewrite app_nil_r.
  assert (digits n x = digits m y ++ digits (n - m) x) as ->.
  { replace n with (m + (n - m))%nat at 1 by lia. by rewrite digits_split, <- Ey. }
  destruct Hdy as (Hm1 & Hym & Hm2). destruct (Z.ltb_spec y 10) as [Hlt|Hge].
  - assert (m = 1%nat) as ->.
    { destruct Hm2 as [|Hm2]; [lia|]. destruct (Z.le_gt_cases (Z.of_nat m) 1); [lia|]. pose proof (Z.pow_le_mono_r 10 1 (Z.of_nat m - 1) ltac:(lia) ltac:(lia)). lia. }
    destruct pre as [|a [|]]; try done. change (Z.of_nat 1 - 1) with 0. cbn [app]. rewrite set_at_0. cbn. rewrite Z.mod_small by lia. done.
  - assert (m = 2%nat) as ->.
    { destruct (decide (m = 1%nat)) as [->|]; [cbn in Hym; lia|]. destruct Hm2 as [|Hm2]; [lia|].
      destruct (Z.le_gt_cases (Z.of_nat m) 2); [lia|]. pose proof (Z.pow_le_mono_r 10 2 (Z.of_nat m - 1) ltac:(lia) ltac:(lia)). lia. }
    destruct pre as [|a [|b [|]]]; try done. change (Z.of_nat 2 - 1) with 1. cbn [app]. rewrite set_at_1. cbn [mbind option_bind app].
    change (1 -32 1) with 0. rewrite set_at_0. rewrite digits_2 by lia. rewrite Z.mod_small by lia. done.
Qed.

Lemma fallback_loop_spec fuel n x pre post :
  (x = 0 /\ n = 0%nat) \/ (0 < x /\ has_digits (Z.of_nat n) x) -> (n <= length pre)%nat -> (n < fuel)%nat ->
  exists pre', fallback_loop fuel (pre ++ post) (Z.of_nat (length pre) - 1) x = Some (pre' ++ digits n x ++ post, Z.of_nat (length pre') - 1) /\
    length pre' = (length pre - n)%nat.
Proof.
  revert n x pre post. induction fuel as [|fuel IH]; intros n x pre post Hn Hl Hf; [lia|]. cbn [fallback_loop].
  destruct Hn as [[-> ->]|[Hx Hn]]; [exists pre; rewrite Nat.sub_0_r; done|].
  destruct (Z.eqb_spec x 0); [lia|]. destruct n as [|n]; [destruct Hn; lia|].
  destruct (snoc_inv pre (length pre - 1)) as (q & a & -> & Hq); [lia|]. rewrite length_app in *. cbn [length] in *.
  rewrite <- app_assoc. cbn [app]. rewrite set_at_app by lia. cbn [mbind option_bind].
  destruct (IH n (x / 10) q ((48 + x mod 10) :: post)) as (pre' & E & Hl'); [|lia|lia|].
  { destruct (Z.lt_ge_cases x 10) as [Hlt|Hge].
    - left. rewrite Z.div_small by lia. split; [done|]. destruct Hn as (_ & _ & [Hn|Hn]); [lia|].
      destruct n; [done|]. pose proof (Z.pow_le_mono_r 10 1 (Z.of_nat (S (S n)) - 1) ltac:(lia) ltac:(lia)). lia.
    - right. destruct (digits_step _ 1 x Hn Hge ltac:(lia)) as [_ H1]. change (10 ^ 1) with 10 in H1. split; [dlia|].
      by replace (Z.of_nat n) with (Z.of_nat (S n) - 1) by lia. }
  replace (Z.of_nat (length q + 1) - 1 - 1) with (Z.of_nat (length q) - 1) by lia. rewrite E. exists pre'. split; [|lia].
  do 3 f_equal. cbn [digits]. by rewrite <- app_assoc.
Qed.

Section Writes.
Context {D : Type} `{L : WriteBufferLaws D}.

Lemma writes_put_here c {B} (k : M (wbuf D) B) a s :
  writes k a s -> writes (_ ← wnextIfAtEnd; _ ← put [c]; k) a (c :: s).
Proof. intros Hk. by apply (writes_putChar c (fun _ => k)). Qed.

Lemma writes_fallback x : fits 64 x -> writes (D := D) (writeUIntTextFallback x) tt (decimal x).
Proof.
  intros Hx. unfold writeUIntTextFallback. destruct (Z.eqb_spec x 0) as [->|Hne]; [apply (writes_writeChar 48)|].
  destruct (digits10_spec x Hx) as [Hd H20]. pose proof Hd as (H1 & _).
  assert (Z.of_nat (Z.to_nat (digits10 x)) = digits10 x) as En by lia. rewrite <- En in Hd.
  destruct (fallback_loop_spec 21 (Z.to_nat (digits10 x)) x (replicate MAX_INT_WIDTH 0) []) as (pre & E & Hl);
    [right; split; [destruct Hx; lia|done]|rewrite length_replicate; unfold MAX_INT_WIDTH; lia|lia|].
  rewrite length_replicate, app_nil_r in *. change (Z.of_nat MAX_INT_WIDTH - 1) with 19 in E. rewrite E, app_nil_r.
  replace (Z.to_nat (Z.of_nat (length pre) - 1 + 1)) with (length pre) by lia. rewrite drop_app_length. apply writes_write.
Qed.

(** The fast path and the fallback write the same digits. *)
Lemma writes_uint x : fits 64 x -> writes (D := D) (writeUIntText x) tt (decimal x).
Proof.
  intros Hx b d t St. unfold writeUIntText. rewrite bind_get.
  destruct (Nat.ltb_spec (wb_pos b + MAX_INT_WIDTH) (wb_end b)) as [Hlt|Hge]; [|by apply writes_fallback].
  rewrite bind_get. destruct (digits10_spec x Hx) as [Hd H20]. pose proof St as ((_ & W & _) & _). unfold MAX_INT_WIDTH in Hlt.
  rewrite writeUIntText_mem_spec by (done || (rewrite length_take, length_drop; lia)).
  apply wstate_put; [done|]. unfold decimal. rewrite length_digits. unfold wavailable. lia.
Qed.

(** The text of a number of [T]. *)
Definition int_text (sgn : bool) (x : Z) : list Z := if sgn && (x <? 0) then 45 :: decimal (- x) else decimal x.

Definition in_type (sgn : bool) (w x : Z) : Prop := if sgn then - 2 ^ (w - 1) <= x < 2 ^ (w - 1) else 0 <= x < 2 ^ w.
Definition int_width (w : Z) : Prop := w = 8 \/ w = 16 \/ w = 32 \/ w = 64.

Lemma writes_int sgn w x : int_width w -> in_type sgn w x -> writes (D := D) (writeIntText sgn w x) tt (int_text sgn x).
Proof.
  intros Hw Hx. unfold writeIntText, int_text. destruct sgn; cbn [andb] in *.
  - assert (2 ^ w = 2 * 2 ^ (w - 1) /\ 2 ^ w <= 2 ^ 64) as [Ew H64] by (destruct Hw as [->|[->|[->| ->]]]; done).
    unfold writeSIntText. destruct (Z.eqb_spec x (- 2 ^ (w - 1))) as [->|Hne].
    + destruct Hw as [->|[->|[->| ->]]]; apply writes_write.
    + cbn in Hx. destruct (Z.ltb_spec x 0).
      * apply writes_put_here. rewrite wrap_small by (unfold fits; lia). apply writes_uint. unfold fits. lia.
      * rewrite wrap_small by (unfold fits; lia). apply writes_uint. unfold fits. lia.
  - apply writes_uint. destruct Hx. split; [done|]. assert (2 ^ w <= 2 ^ 64) by (destruct Hw as [->|[->|[->| ->]]]; done). lia.
Qed.
End Writes.

(** ** Reading back *)

Lemma signed_wrap w x : 0 < w -> wrap w (signed w (wrap w x)) = wrap w x.
Proof.
  intros Hw. unfold signed, wrap. destruct (_ <? _); [apply Z.mod_mod; lia|].
  rewrite <- (Z.mod_add (x mod 2 ^ w - 2 ^ w) 1 (2 ^ w)) by lia. replace (x mod 2 ^ w - 2 ^ w + 1 * 2 ^ w) with (x mod 2 ^ w) by lia.
  apply Z.mod_mod. lia.
Qed.

Lemma norm_wrap sgn w x : 0 < w -> wrap w (norm sgn w x) = wrap w x.
Proof. intros Hw. unfold norm. destruct sgn; [by apply signed_wrap|]. apply wrap_wrap. lia. Qed.

Lemma norm_ext sgn w x y : wrap w x = wrap w y -> norm sgn w x = norm sgn w y.
Proof. unfold norm. by intros ->. Qed.

Lemma norm_step sgn w x d : 0 < w -> norm sgn w (norm sgn w (norm sgn w x * 10) + d) = norm sgn w (x * 10 + d).
Proof.
  intros Hw. apply norm_ext. rewrite <- wrap_add_l, norm_wrap, wrap_add_l by done.
  unfold wrap. rewrite <- Zplus_mod_idemp_l, <- Zmult_mod_idemp_l. fold (wrap w (norm sgn w x)). rewrite norm_wrap by done.
  unfold wrap. by rewrite Zmult_mod_idemp_l, Zplus_mod_idemp_l.
Qed.

Lemma norm_id sgn w x : int_width w -> in_type sgn w x -> norm sgn w x = x.
Proof.
  intros Hw Hx. assert (2 ^ w = 2 * 2 ^ (w - 1) /\ 0 < 2 ^ (w - 1)) as [Ew Hp] by (destruct Hw as [->|[->|[->| ->]]]; done).
  unfold norm, in_type in *. destruct sgn; [|by apply wrap_small].
  unfold signed, wrap. destruct (Z.lt_ge_cases x 0) as [Hn|Hn].
  - replace (x mod 2 ^ w) with (x + 2 ^ w) by (apply Z.mod_unique with (-1); lia).
    rewrite (proj2 (Z.ltb_ge _ _)) by lia. lia.
  - rewrite Z.mod_small by lia. by rewrite (proj2 (Z.ltb_lt _ _)) by lia.
Qed.

(** What may follow a number. *)
Definition ends_number (rest : list Z) : Prop :=
  match rest with [] => True | c :: _ => c <> 43 /\ c <> 45 /\ isNumericASCII c = false end.

Section Reads.
Context {D : Type} `{L : ReadBufferLaws D} (sgn : bool) (w : Z).

Lemma reads_int_loop te n neg ds x rest :
  0 < w -> Forall (fun d => 48 <= d <= 57) ds -> ends_number rest -> (length (ds ++ rest) < n)%nat ->
  reads (D := D) (int_loop sgn w te n neg (norm sgn w x)) (ds ++ rest)
    (Returns (Some (finish sgn w neg (norm sgn w (value ds x))))) rest.
Proof.
  intros Hw. revert n x. induction ds as [|d ds IH]; intros n x Hd Hr Hf; (destruct n as [|n]; [lia|]); cbn [int_loop app].
  - destruct rest as [|c rest]; rsteps. destruct Hr as (H1 & H2 & H3).
    rewrite (proj2 (Z.eqb_neq _ _) H1), (proj2 (Z.eqb_neq _ _) H2), H3. apply reads_here_reads, reads_ret.
  - apply list.Forall_cons in Hd as [Hd Hds]. rstep. rstep.
    rewrite (proj2 (Z.eqb_neq d 43)), (proj2 (Z.eqb_neq d 45)) by lia.
    unfold isNumericASCII. rewrite !(proj2 (Z.leb_le _ _)) by lia. cbn [andb]. rstep.
    rewrite norm_step by done. apply (IH n (x * 10 + (d - 48))); [done|done|cbn in Hf; lia].
Qed.

Lemma reads_unsafe_loop n ds x rest :
  0 < w -> Forall (fun d => 48 <= d <= 57) ds -> match rest with [] => True | c :: _ => Z.land c 240 <> 48 end ->
  (length (ds ++ rest) < n)%nat ->
  reads (D := D) (unsafe_loop sgn w n (norm sgn w x)) (ds ++ rest) (Returns (norm sgn w (value ds x))) rest.
Proof.
  intros Hw. revert n x. induction ds as [|d ds IH]; intros n x Hd Hr Hf; (destruct n as [|n]; [lia|]); cbn [unsafe_loop app].
  - destruct rest as [|c rest]; rsteps. rewrite (proj2 (Z.eqb_neq _ _) Hr). apply reads_here_reads, reads_ret.
  - apply list.Forall_cons in Hd as [Hd Hds]. rstep. rstep.
    assert (Z.land d 240 = 48 /\ Z.land d 15 = d - 48) as [E1 E2].
    { assert (negb ((48 <=? d) && (d <=? 57)) || ((Z.land d 240 =? 48) && (Z.land d 15 =? d - 48)) = true) as Hb.
      { apply (all_bytes (fun d => negb ((48 <=? d) && (d <=? 57)) || ((Z.land d 240 =? 48) && (Z.land d 15 =? d - 48))));
          [by vm_compute|unfold fits; lia]. }
      rewrite !(proj2 (Z.leb_le _ _)) in Hb by lia. cbn [negb orb andb] in Hb. apply andb_true_iff in Hb as [?%Z.eqb_eq ?%Z.eqb_eq]. done. }
    rewrite E1, E2, Z.eqb_refl. rstep. rewrite norm_step by done. apply (IH n (x * 10 + (d - 48))); [done|done|cbn in Hf; lia].
Qed.
End Reads.

Lemma decimal_numeric x : Forall (fun d => 48 <= d <= 57) (decimal x).
Proof. apply digits_numeric. Qed.

Lemma value_decimal x : fits 64 x -> value (decimal x) 0 = x.
Proof.
  intros Hx. destruct (digits10_spec x Hx) as [(H1 & H2 & _) _]. unfold decimal. rewrite value_digits by lia.
  rewrite Z2Nat.id, Z.mod_small by lia. lia.
Qed.

(** The first digit of a positive number is not zero. *)
Lemma decimal_head x : fits 64 x -> 0 < x -> exists d ds, decimal x = d :: ds /\ 49 <= d <= 57.
Proof.
  intros Hx Hp. destruct (digits10_spec x Hx) as [(H1 & H2 & H3) _]. unfold decimal.
  destruct (Z.to_nat (digits10 x)) as [|n] eqn:En; [lia|]. change (S n) with (1 + n)%nat. rewrite digits_split. cbn [digits app].
  do 2 eexists. split; [done|]. replace (digits10 x) with (Z.succ (Z.of_nat n)) in * by lia.
  assert (0 < 10 ^ Z.of_nat n) by (apply Z.pow_pos_nonneg; lia). rewrite Z.pow_succ_r in H2 by lia.
  assert (x / 10 ^ Z.of_nat n < 10) by (apply Z.div_lt_upper_bound; lia).
  assert (1 <= x / 10 ^ Z.of_nat n).
  { apply Z.div_le_lower_bound; [lia|]. destruct H3 as [E|H3]; [|by replace (Z.succ (Z.of_nat n) - 1) with (Z.of_nat n) in H3 by lia; lia].
    replace (Z.of_nat n) with 0 by lia. lia. }
  rewrite Z.mod_small by lia. lia.
Qed.

Lemma in_type_fits sgn w x : int_width w -> in_type sgn w x -> fits 64 (if sgn && (x <? 0) then - x else x).
Proof.
  intros Hw Hx. unfold in_type, fits in *. destruct sgn; cbn [andb]; [destruct (Z.ltb_spec x 0)|]; destruct Hw as [->|[->|[->| ->]]]; lia.
Qed.

Lemma finish_norm sgn w neg x : 0 < w -> finish sgn w neg (norm sgn w x) = norm sgn w (if neg : bool then - x else x).
Proof.
  intros Hw. unfold finish. destruct neg; [|done]. apply norm_ext. unfold wrap.
  rewrite <- (Z.sub_0_l (norm _ _ _)), <- (Z.sub_0_l x), <- Zminus_mod_idemp_r, <- (Zminus_mod_idemp_r 0 x).
  fold (wrap w (norm sgn w x)). by rewrite norm_wrap.
Qed.

Section ReadBack.
Context {D : Type} `{L : ReadBufferLaws D}.

(** Digits after the sign, for the first reader. *)
Lemma reads_signed_digits sgn w te n neg x rest :
  int_width w -> fits 64 x -> ends_number rest -> (length (decimal x ++ rest) < n)%nat ->
  reads (D := D) (int_loop sgn w te n neg 0) (decimal x ++ rest) (Returns (Some (norm sgn w (if neg : bool then - x else x)))) rest.
Proof.
  intros Hw Hx Hr Hf. assert (0 < w) by (destruct Hw as [->|[->|[->| ->]]]; lia).
  replace (if neg then - x else x) with (if neg then - value (decimal x) 0 else value (decimal x) 0) by (by rewrite value_decimal).
  rewrite <- finish_norm by done.
  assert (norm sgn w 0 = 0) as E0 by (apply norm_id; [done|destruct Hw as [->|[->|[->| ->]]], sgn; cbn; lia]).
  rewrite <- E0 at 1. by apply reads_int_loop; [|apply decimal_numeric| |].
Qed.

Lemma decimal_nonempty x : fits 64 x -> exists d ds, decimal x = d :: ds.
Proof.
  intros Hx. destruct (decimal x) as [|d ds] eqn:E; [|eauto]. apply (f_equal length) in E. unfold decimal in E. rewrite length_digits in E.
  destruct (digits10_spec x Hx) as [(H1 & _) _]. cbn [length] in E. lia.
Qed.

Lemma reads_int sgn w te x rest fuel :
  int_width w -> in_type sgn w x -> ends_number rest -> (length (int_text sgn x ++ rest) < fuel)%nat ->
  reads (D := D) (readIntTextImpl fuel sgn w te) (int_text sgn x ++ rest) (Returns (Some x)) rest.
Proof.
  intros Hw Hx Hr. pose proof (in_type_fits _ _ _ Hw Hx) as Hx'. unfold int_text, readIntTextImpl.
  destruct (sgn && (x <? 0)) eqn:Es.
  - apply andb_true_iff in Es as [-> Hn%Z.ltb_lt]. intros Hf. cbn [app]. rstep. apply reads_here_reads. destruct fuel as [|fuel]; [cbn in Hf; lia|].
    cbn [int_loop]. rstep. rstep. cbn [Z.eqb Pos.eqb]. rstep.
    rewrite <- (norm_id true w x) at 2 by done. replace x with (- - x) at 2 by lia.
    apply (reads_signed_digits true w te fuel true); [done..|cbn in Hf; lia].
  - intros Hf. destruct (decimal_nonempty x Hx') as (d & ds & E). rewrite E in *. cbn [app]. rstep. change (d :: ds ++ rest) with ((d :: ds) ++ rest).
    rewrite <- E in *. rewrite <- (norm_id sgn w x) at 2 by done. apply reads_here_reads.
    by apply (reads_signed_digits sgn w te fuel false).
Qed.
End ReadBack.

(** What may follow a number for the unsafe reader: none of [0-9:;<=>?]. *)
Definition ends_unsafe (rest : list Z) : Prop := match rest with [] => True | c :: _ => Z.land c 240 <> 48 end.

Section ReadUnsafe.
Context {D : Type} `{L : ReadBufferLaws D}.

Lemma reads_unsafe_number fuel sgn w neg x rest :
  int_width w -> fits 64 x -> ends_unsafe rest -> (length (decimal x ++ rest) < fuel)%nat ->
  reads_here (D := D) (unsafe_number fuel sgn w neg) (decimal x ++ rest)
    (Returns (norm sgn w (if sgn && neg then - x else x))) rest.
Proof.
  intros Hw Hx Hr Hf. assert (0 < w) as Hw0 by (destruct Hw as [->|[->|[->| ->]]]; lia).
  assert (norm sgn w 0 = 0) as E0 by (apply norm_id; [done|destruct Hw as [->|[->|[->| ->]]], sgn; cbn; lia]).
  destruct (Z.eq_dec x 0) as [->|Hne].
  - change (decimal 0) with [48]. unfold unsafe_number. cbn [app]. rstep. cbn [Z.eqb Pos.eqb]. rstep.
    replace (norm _ _ _) with 0 by (by destruct (sgn && neg)). apply reads_ret.
  - destruct (decimal_head x Hx) as (d & ds & E & Hd); [destruct Hx; lia|]. unfold unsafe_number. rewrite E. cbn [app]. rstep.
    rewrite (proj2 (Z.eqb_neq d 48)) by lia. apply reads_here_reads. change (d :: ds ++ rest) with ((d :: ds) ++ rest). rewrite <- E.
    eapply reads_bind; [rewrite <- E0 at 1; apply reads_unsafe_loop; [done|apply decimal_numeric|done|done]|].
    rewrite value_decimal by done. pose proof (finish_norm sgn w (sgn && neg) x Hw0) as Ef. unfold finish in Ef. rewrite Ef. apply reads_ret.
Qed.

Lemma reads_unsafe sgn w te x rest fuel :
  int_width w -> in_type sgn w x -> ends_unsafe rest -> (length (int_text sgn x ++ rest) < fuel)%nat ->
  reads (D := D) (readIntTextUnsafe fuel sgn w te) (int_text sgn x ++ rest) (Returns x) rest.
Proof.
  intros Hw Hx Hr. pose proof (in_type_fits _ _ _ Hw Hx) as Hx'. unfold int_text, readIntTextUnsafe.
  destruct (sgn && (x <? 0)) eqn:Es; intros Hf.
  - apply andb_true_iff in Es as [-> Hn%Z.ltb_lt]. destruct (decimal_nonempty (- x) Hx') as (d & ds & E).
    cbn [app]. rstep. rstep. cbn [Z.eqb Pos.eqb andb]. rstep. rewrite E. cbn [app]. rstep. change (d :: ds ++ rest) with ((d :: ds) ++ rest). rewrite <- E.
    rewrite <- (norm_id true w x) at 2 by done. replace x with (- - x) at 2 by lia.
    apply (reads_unsafe_number fuel true w true); [done..|cbn in Hf; lia].
  - destruct (decimal_nonempty x Hx') as (d & ds & E). pose proof (decimal_numeric x) as Hd. rewrite E in Hd.
    apply list.Forall_cons in Hd as [Hd _]. rewrite E. cbn [app]. rstep. rstep. rewrite (proj2 (Z.eqb_neq d 45)) by lia. rewrite andb_false_r.
    change (d :: ds ++ rest) with ((d :: ds) ++ rest). rewrite <- E. pose proof (reads_unsafe_number fuel sgn w false x rest Hw Hx' Hr Hf) as H1.
    rewrite andb_false_r, norm_id in H1 by done. done.
Qed.
End ReadUnsafe.

(** ** The properties *)

(** Integers of every type survive the text formats.  [writeIntText] writes,
    into any buffer and by either of its paths, a text that both readers read
    back as the same number, when a character follows that is not taken for
    a part of the number. *)
Theorem int_write_read {W R} `{LW : WriteBufferLaws W} `{LR : ReadBufferLaws R} sgn w x rest te fuel :
  int_width w -> in_type sgn w x -> ends_number rest -> ends_unsafe rest ->
  exists t, writes (D := W) (writeIntText sgn w x) tt t /\ (length t <= 20 + (if sgn : bool then 1 else 0))%nat /\
    ((length (t ++ rest) < fuel)%nat ->
     reads (D := R) (readIntTextImpl fuel sgn w te) (t ++ rest) (Returns (Some x)) rest /\
     reads (D := R) (readIntTextUnsafe fuel sgn w te) (t ++ rest) (Returns x) rest).
Proof.
  intros Hw Hx Hr Hr'. exists (int_text sgn x). split_and!; [by apply writes_int| |].
  - pose proof (in_type_fits _ _ _ Hw Hx) as Hf. unfold int_text.
    destruct (sgn && (x <? 0)) eqn:Es; destruct (digits10_spec _ Hf) as [_ H20]; unfold decimal; cbn [length]; rewrite length_digits;
      [destruct sgn; [|done]|destruct sgn]; lia.
  - intros Hf. split; [by apply reads_int|by apply reads_unsafe].
Qed.

Lemma int_write_read_witness :
  exists t, writes (D := from_string) (writeIntText true 64 (- 2 ^ 63)) tt t /\ (length t <= 21)%nat /\
    ((length (t ++ [44]%Z) < 30)%nat ->
     reads (D := concatenated from_memory) (readIntTextImpl 30 true 64 true) (t ++ [44]) (Returns (Some (- 2 ^ 63))) [44] /\
     reads (D := concatenated from_memory) (readIntTextUnsafe 30 true 64 true) (t ++ [44]) (Returns (- 2 ^ 63)) [44]).
Proof.
  apply (int_write_read true 64 (- 2 ^ 63) [44] true 30); [by do 3 right|by cbn|by cbn|by cbn].
Defined.

(** [readIntText] checks less than the format of a number: signs are
    accepted anywhere, a text without digits is zero, and numbers that do not
    fit wrap around. *)
Theorem int_reader_accepts :
  let read sgn w text := (readIntTextImpl 20 sgn w true (ReadBufferFromMemory text)).1 in
  read true 32 [49; 50; 45; 51; 43; 52] = Returns (Some (-1234)) /\
  read true 32 [120] = Returns (Some 0) /\
  read false 8 [50; 53; 54] = Returns (Some 0).
Proof. by vm_compute. Qed.
