(* ===== verification/ColumnsCommon.v ===== *)
(** * Filters and arrays of host columns

    dbms/src/Columns/ColumnsCommon.cpp: [countBytesInFilter], [memoryIsZero] and
    [filterArraysImpl], with the SSE2 code that the server is compiled with.
    Arrays (a [PODArray]) are lists; [cell] and [load] read one cell and a range
    and give [BUFFER_OVERRUN] outside.

    Arrays of arrays are kept flat, as a [ColumnString] has its strings: the
    elements one after another, and for every array the offset of its end.

    Shown: the count of a filter is the number of its positive bytes; a filter
    of bytes below 128 keeps exactly the arrays whose byte is not zero, with or
    without offsets.  Above that the vector code and the scalar code differ, and
    [memoryIsZero] takes some memory for zero that is not. *)

From stdpp Require Import base list option numbers.
From Stdlib Require Import ZArith Lia.
From S2P Require Import Prelude IOMonad.
From S2P Require StringsColumn.
Import StringsColumn (zlen, ends, row_start).

#[local] Open Scope Z_scope.
#[local] Open Scope word_scope.

(** ** Arrays *)

Definition cell {A} (l : list A) (i : nat) : outcome A :=
  match l !! i with Some x => Returns x | None => Throws BUFFER_OVERRUN end.

Definition load {A} (l : list A) (p n : Z) : outcome (list A) :=
  if (0 <=? p) && (0 <=? n) && (p + n <=? zlen l) then Returns (take (Z.to_nat n) (drop (Z.to_nat p) l))
  else Throws BUFFER_OVERRUN.

(** Where array [i] begins; [offset_ptr == offsets_begin ? 0 : offset_ptr[-1]]. *)
Definition offset_at (offsets : list Z) (i : nat) : outcome Z :=
  match i with O => Returns 0 | S j => cell offsets j end.

(** ** Vector instructions *)

(** [_mm_cmpgt_epi8] with zero: a byte above zero as a signed number. *)
Definition positive (b : Z) : bool := (0 <? b) && (b <? 128).

(** [_mm_movemask_epi8] and [_mm_movemask_ps], a bit for every lane. *)
Fixpoint movemask (l : list bool) : Z :=
  match l with
  | [] => 0
  | b :: l => Z.b2z b + 2 * movemask l
  end.

Definition mask16 (l : list Z) : Z := movemask (map positive (take 16 l)).

(** [__builtin_popcountll] *)
Fixpoint popcount (bits : nat) (m : Z) : Z :=
  match bits with
  | O => 0
  | S k => m mod 2 + popcount k (m / 2)
  end.

(** ** [countBytesInFilter] *)

Definition mask64 (filt : list Z) : Z :=
  Z.lor (Z.lor (Z.lor (mask16 filt) (mask16 (drop 16 filt) <<64 16)) (mask16 (drop 32 filt) <<64 32)) (mask16 (drop 48 filt) <<64 48).

Fixpoint count_blocks (blocks : nat) (filt : list Z) (count : Z) : Z :=
  match blocks with
  | O => count
  | S k => count_blocks k (drop 64 filt) (count +64 popcount 64 (mask64 filt))
  end.

Fixpoint count_rest (filt : list Z) (count : Z) : Z :=
  match filt with
  | [] => count
  | b :: filt => count_rest filt (count +64 Z.b2z (positive b))
  end.

Definition countBytesInFilter (filt : list Z) : Z :=
  let blocks := (length filt / 64)%nat in
  count_rest (drop (blocks * 64) filt) (count_blocks blocks filt 0).

(** [countColumnsSizeInSelector] *)
Fixpoint count_selector (selector : list nat) (counts : list Z) : outcome (list Z) :=
  match selector with
  | [] => mret counts
  | idx :: selector =>
      n ← cell counts idx;
      count_selector selector (<[idx := n +64 1]> counts)
  end.

Definition countColumnsSizeInSelector (num_columns : nat) (selector : list nat) : outcome (list Z) :=
  count_selector selector (replicate num_columns 0).

(** ** [memoryIsZero] *)

(** [_mm_cmpneq_ps] with zero: the four bytes as a float, not equal to zero.
    Positive and negative zero are equal to zero. *)
Definition float_neq_zero (w : Z) : bool := negb ((w =? 0) || (w =? 0x80000000)).

Fixpoint words (n : nat) (l : list Z) : list Z :=
  match n with
  | O => []
  | S k => le_value (take 4 l) :: words k (drop 4 l)
  end.

Definition mask4 (l : list Z) : Z := movemask (map float_neq_zero (words 4 l)).

Fixpoint zero_blocks (blocks : nat) (l : list Z) : bool :=
  match blocks with
  | O => true
  | S k =>
      if negb (Z.lor (Z.lor (Z.lor (mask4 l) (mask4 (drop 16 l))) (mask4 (drop 32 l))) (mask4 (drop 48 l)) =? 0) then false
      else zero_blocks k (drop 64 l)
  end.

Definition memoryIsZero (l : list Z) : bool :=
  let blocks := (length l / 64)%nat in
  zero_blocks blocks l && forallb (Z.eqb 0) (drop (blocks * 64) l).

(** ** [filterArraysImpl] *)

(** [ResultOffsetsBuilder] and [NoResultOffsetsBuilder], the two parameters of
    the template; [insertChunk] is given the sixteen offsets of the chunk. *)
Record OffsetsBuilder := Builder {
  builder : Type;
  insertOne : Z -> builder -> builder;
  insertChunk : list Z -> bool -> Z -> Z -> builder -> builder
}.

Record offsets_builder := OffsetsSoFar { res_offsets : list Z; current_src_offset : Z }.

Definition ResultOffsetsBuilder : OffsetsBuilder := {|
  builder := offsets_builder;
  insertOne array_size b :=
    let current := current_src_offset b +64 array_size in
    OffsetsSoFar (res_offsets b ++ [current]) current;
  insertChunk src_offsets first chunk_offset chunk_size b :=
    let diff_offset := chunk_offset -64 current_src_offset b in
    let copied := if negb first && (0 <? diff_offset) then map (fun o => o -64 diff_offset) src_offsets else src_offsets in
    OffsetsSoFar (res_offsets b ++ copied) (current_src_offset b +64 chunk_size)
|}.

Definition NoResultOffsetsBuilder : OffsetsBuilder := {|
  builder := unit;
  insertOne _ b := b;
  insertChunk _ _ _ _ b := b
|}.

Section Filter.
Context {A : Type} (B : OffsetsBuilder) (src_elems : list A) (src_offsets : list Z).

(** The lambda [copy_array] on the array of number [i]. *)
Definition copy_array (i : nat) (st : list A * builder B) : outcome (list A * builder B) :=
  offset ← offset_at src_offsets i;
  array_end ← cell src_offsets i;
  let size := array_end -64 offset in
  elems ← load src_elems offset size;
  mret (st.1 ++ elems, insertOne B size st.2).

(** The loops over single bytes of the filter. *)
Fixpoint copy_flags (filt : list Z) (i : nat) (st : list A * builder B) : outcome (list A * builder B) :=
  match filt with
  | [] => mret st
  | f :: filt =>
      st ← if f =? 0 then mret st else copy_array i st;
      copy_flags filt (S i) st
  end.

(** Sixteen arrays at once. *)
Definition copy_chunk (i : nat) (st : list A * builder B) : outcome (list A * builder B) :=
  chunk_offset ← offset_at src_offsets i;
  chunk_end ← cell src_offsets (i + 15);
  let chunk_size := chunk_end -64 chunk_offset in
  elems ← load src_elems chunk_offset chunk_size;
  mret (st.1 ++ elems, insertChunk B (take 16 (drop i src_offsets)) (i =? 0)%nat chunk_offset chunk_size st.2).

Fixpoint filter_chunks (chunks : nat) (filt : list Z) (i : nat) (st : list A * builder B) : outcome (list A * builder B) :=
  match chunks with
  | O => mret st
  | S k =>
      let mask := mask16 filt in
      st ← if mask =? 0 then mret st else if mask =? 0xffff then copy_chunk i st else copy_flags (take 16 filt) i st;
      filter_chunks k (drop 16 filt) (i + 16) st
  end.

Definition filterArraysImplGeneric (filt : list Z) (st : list A * builder B) : outcome (list A * builder B) :=
  let size := length src_offsets in
  if negb (size =? length filt)%nat then Throws SIZES_OF_COLUMNS_DOESNT_MATCH
  else
    let chunks := (size / 16)%nat in
    st ← filter_chunks chunks filt 0 st;
    copy_flags (drop (chunks * 16) filt) (chunks * 16) st.
End Filter.

Definition filterArraysImpl {A} (src_elems : list A) (src_offsets filt : list Z) : outcome (list A * list Z) :=
  r ← filterArraysImplGeneric ResultOffsetsBuilder src_elems src_offsets filt ([], OffsetsSoFar [] 0);
  mret (r.1, res_offsets r.2).

Definition filterArraysImplOnlyData {A} (src_elems : list A) (src_offsets filt : list Z) : outcome (list A) :=
  r ← filterArraysImplGeneric NoResultOffsetsBuilder src_elems src_offsets filt ([], tt);
  mret r.1.

(** ** Reading arrays *)

Lemma cell_lookup {A} (l : list A) i x : l !! i = Some x -> cell l i = Returns x.
Proof. unfold cell. by intros ->. Qed.

Lemma load_slice {A} (l k r : list A) p n : p = zlen l -> n = zlen k -> load (l ++ k ++ r) p n = Returns k.
Proof.
  intros -> ->. unfold load. rewrite !StringsColumn.zlen_app.
  pose proof (StringsColumn.zlen_nonneg l). pose proof (StringsColumn.zlen_nonneg k). pose proof (StringsColumn.zlen_nonneg r).
  rewrite !(proj2 (Z.leb_le _ _)) by lia. cbn [andb]. unfold zlen. by rewrite !Nat2Z.id, drop_app_length, take_app_length.
Qed.

(** ** Arrays of arrays *)

Section Arrays.
Context {A : Type}.
Implicit Types rows : list (list A).

Lemma ends_app acc rows rows' : ends acc (rows ++ rows') = ends acc rows ++ ends (acc + zlen (concat rows)) rows'.
Proof.
  revert acc. induction rows as [|r rows IH]; intros acc; cbn; [by rewrite Z.add_0_r|]. rewrite IH, StringsColumn.zlen_app. by rewrite Z.add_assoc.
Qed.

Lemma ends_shift acc d rows : ends (acc + d) rows = map (fun o => o + d) (ends acc rows).
Proof. revert acc. induction rows as [|r rows IH]; intros acc; cbn; [done|]. rewrite <- IH. f_equal; [lia|f_equal; lia]. Qed.

Lemma ends_range acc rows : Forall (fun o => acc <= o <= acc + zlen (concat rows)) (ends acc rows).
Proof.
  revert acc. induction rows as [|r rows IH]; intros acc; cbn; [done|]. rewrite StringsColumn.zlen_app.
  pose proof (StringsColumn.zlen_nonneg r). pose proof (StringsColumn.zlen_nonneg (concat rows)).
  constructor; [lia|]. eapply list.Forall_impl; [apply IH|]. cbn. intros. lia.
Qed.

Lemma offset_at_ends rows i : (i <= length rows)%nat -> offset_at (ends 0 rows) i = Returns (row_start rows i).
Proof.
  intros Hi. destruct i as [|i]; [done|]. cbn [offset_at]. apply cell_lookup. rewrite StringsColumn.ends_lookup by lia. done.
Qed.

Lemma cell_ends rows i : (i < length rows)%nat -> cell (ends 0 rows) i = Returns (row_start rows (S i)).
Proof. intros Hi. apply cell_lookup. by rewrite StringsColumn.ends_lookup. Qed.

Lemma row_start_mid rows i k : row_start rows (i + k) = row_start rows i + zlen (concat (take k (drop i rows))).
Proof. unfold row_start. by rewrite <- StringsColumn.zlen_app, <- concat_app, take_take_drop. Qed.

(** The elements of neighbouring arrays. *)
Lemma load_rows rows i k : load (concat rows) (row_start rows i) (zlen (concat (take k (drop i rows)))) = Returns (concat (take k (drop i rows))).
Proof.
  rewrite <- (take_drop i rows) at 1. rewrite <- (take_drop k (drop i rows)) at 1. rewrite !concat_app. by apply load_slice.
Qed.

Lemma drop_ends rows i : drop i (ends 0 rows) = ends (row_start rows i) (drop i rows).
Proof.
  rewrite <- (take_drop i rows) at 1. rewrite ends_app. unfold row_start.
  destruct (decide (i <= length rows)%nat).
  - rewrite drop_app_length'; [done|]. rewrite StringsColumn.length_ends, length_take. lia.
  - rewrite (take_ge rows), (drop_ge rows) by lia. cbn. rewrite app_nil_r, drop_ge; [done|]. rewrite StringsColumn.length_ends. lia.
Qed.

Lemma take_ends acc rows k : take k (ends acc rows) = ends acc (take k rows).
Proof. revert acc k. induction rows as [|r rows IH]; intros acc [|k]; cbn; [done..|]. by rewrite IH. Qed.
End Arrays.

(** ** Masks *)

Lemma movemask_app l k : movemask (l ++ k) = movemask l + 2 ^ zlen l * movemask k.
Proof.
  induction l as [|b l IH]; [change (2 ^ zlen []) with 1; cbn [app movemask]; lia|]. cbn [app movemask]. rewrite IH. unfold zlen. cbn [length].
  rewrite Nat2Z.inj_succ, Z.pow_succ_r by lia. lia.
Qed.

Lemma movemask_range l : 0 <= movemask l < 2 ^ zlen l.
Proof.
  induction l as [|b l IH]; [change (2 ^ zlen []) with 1; cbn [movemask]; lia|]. unfold zlen in *. cbn [length movemask]. rewrite Nat2Z.inj_succ, Z.pow_succ_r by lia.
  destruct b; cbn [Z.b2z]; lia.
Qed.

Lemma movemask_zero l : movemask l = 0 <-> Forall (fun b => b = false) l.
Proof.
  induction l as [|b l IH]; [done|]. rewrite list.Forall_cons, <- IH. cbn [movemask].
  pose proof (movemask_range l). destruct b; cbn [Z.b2z]; split; [lia|intros [? ?]; done|split; [done|lia]|lia].
Qed.

Lemma movemask_full l : movemask l = 2 ^ zlen l - 1 <-> Forall (fun b => b = true) l.
Proof.
  induction l as [|b l IH]; [done|]. rewrite list.Forall_cons, <- IH. unfold zlen in *. cbn [length movemask].
  rewrite Nat2Z.inj_succ, Z.pow_succ_r by lia. pose proof (movemask_range l). unfold zlen in *.
  destruct b; cbn [Z.b2z]; split; [split; [done|lia]|lia|lia|intros [? ?]; done].
Qed.

Lemma popcount_movemask n l : (length l <= n)%nat -> popcount n (movemask l) = zsum (map Z.b2z l).
Proof.
  revert l. induction n as [|n IH]; intros [|b l] Hl; cbn [length] in Hl; try lia; [done| |].
  - cbn [popcount map zsum movemask]. change (0 mod 2) with 0. change (0 / 2) with 0. pose proof (IH [] ltac:(cbn; lia)) as E. cbn in E. by rewrite E.
  - cbn [popcount map zsum movemask].
    replace ((Z.b2z b + 2 * movemask l) mod 2) with (Z.b2z b) by (destruct b; cbn [Z.b2z]; dlia).
    replace ((Z.b2z b + 2 * movemask l) / 2) with (movemask l) by (destruct b; cbn [Z.b2z]; dlia). by rewrite IH by lia.
Qed.

Lemma positive_byte b : 0 <= b < 128 -> positive b = negb (b =? 0).
Proof. unfold positive. destruct (Z.ltb_spec 0 b), (Z.ltb_spec b 128), (Z.eqb_spec b 0); done || lia. Qed.

Lemma mask16_zero l : mask16 l = 0 <-> Forall (fun b => positive b = false) (take 16 l).
Proof. unfold mask16. by rewrite movemask_zero, Forall_map. Qed.

Lemma mask16_full l : (16 <= length l)%nat -> mask16 l = 0xffff <-> Forall (fun b => positive b = true) (take 16 l).
Proof.
  intros Hl. unfold mask16. rewrite <- (Forall_map positive (fun b => b = true)), <- movemask_full. unfold zlen. rewrite length_map, length_take_le by lia. done.
Qed.

Lemma mask16_range l : 0 <= mask16 l < 2 ^ 16.
Proof.
  unfold mask16. pose proof (movemask_range (map positive (take 16 l))) as H. unfold zlen in H. rewrite length_map, length_take in H.
  assert (2 ^ Z.of_nat (16 `min` length l) <= 2 ^ 16) by (apply Z.pow_le_mono_r; lia). lia.
Qed.

Lemma lor_shift16 (x y k : Z) : 0 <= k -> k + 16 <= 64 -> 0 <= x < 2 ^ k -> 0 <= y < 2 ^ 16 -> Z.lor x (y <<64 k) = x + 2 ^ k * y.
Proof.
  intros Hk1 Hk2 Hx Hy. rewrite Z.shiftl_mul_pow2 by lia. rewrite wrap_small; [rewrite lor_disjoint_add by lia; lia|].
  unfold fits. assert (2 ^ 64 = 2 ^ (64 - k) * 2 ^ k) as -> by (rewrite <- Z.pow_add_r by lia; f_equal; lia).
  assert (2 ^ 16 <= 2 ^ (64 - k)) by (apply Z.pow_le_mono_r; lia). nia.
Qed.

Lemma mask64_movemask l : (64 <= length l)%nat -> mask64 l = movemask (map positive (take 64 l)).
Proof.
  intros Hl. unfold mask64. pose proof (mask16_range l). pose proof (mask16_range (drop 16 l)). pose proof (mask16_range (drop 32 l)).
  pose proof (mask16_range (drop 48 l)).
  rewrite (lor_shift16 _ _ 16), (lor_shift16 _ _ 32), (lor_shift16 _ _ 48) by lia.
  replace (take 64 l) with (take 16 l ++ take 16 (drop 16 l) ++ take 16 (drop 32 l) ++ take 16 (drop 48 l)).
  - rewrite !map_app, !movemask_app. fold (mask16 l) (mask16 (drop 16 l)) (mask16 (drop 32 l)) (mask16 (drop 48 l)).
    unfold zlen. rewrite !length_map, !length_take_le by (rewrite ?length_drop; lia). lia.
  - replace (drop 48 l) with (drop 16 (drop 32 l)) by (by rewrite drop_drop). rewrite take_take_drop.
    replace (drop 32 l) with (drop 16 (drop 16 l)) by (by rewrite drop_drop). by rewrite !take_take_drop.
Qed.

(** ** Counting *)

Definition positives (filt : list Z) : Z := zsum (map (fun b => Z.b2z (positive b)) filt).

Lemma positives_app l k : positives (l ++ k) = positives l + positives k.
Proof. unfold positives. by rewrite map_app, zsum_app. Qed.

Lemma positives_range l : 0 <= positives l <= zlen l.
Proof.
  unfold positives, zlen. induction l as [|b l IH]; [done|]. cbn [map zsum length]. destruct (positive b); cbn [Z.b2z]; lia.
Qed.

Lemma count_blocks_spec k filt count :
  (k * 64 <= length filt)%nat -> count_blocks k filt count = if (k =? 0)%nat then count else u64 (count + positives (take (k * 64) filt)).
Proof.
  revert filt count. induction k as [|k IH]; intros filt count Hl; [done|]. cbn [count_blocks Nat.eqb].
  rewrite IH by (rewrite length_drop; lia). rewrite mask64_movemask by lia.
  rewrite popcount_movemask by (rewrite length_map, length_take; lia). rewrite map_map. fold (positives (take 64 filt)).
  replace (take (S k * 64) filt) with (take 64 filt ++ take (k * 64) (drop 64 filt)) by (rewrite take_take_drop; f_equal; lia).
  rewrite positives_app. destruct k as [|k]; cbn [Nat.eqb].
  - cbn [Nat.mul]. change (take 0 (drop 64 filt)) with (@nil Z). change (positives []) with 0. f_equal. lia.
  - rewrite wrap_add_l. f_equal. lia.
Qed.

Lemma count_rest_spec filt count : fits 64 count -> count_rest filt count = u64 (count + positives filt).
Proof.
  revert count. induction filt as [|b filt IH]; intros count Hc; cbn [count_rest].
  - cbn. by rewrite Z.add_0_r, wrap_small.
  - rewrite IH by (apply wrap_fits; lia). rewrite wrap_add_l. f_equal. unfold positives. cbn [map zsum]. lia.
Qed.

(** [countBytesInFilter] is the number of bytes above zero, as signed numbers. *)
Lemma countBytesInFilter_counts filt : zlen filt < 2 ^ 64 -> countBytesInFilter filt = positives filt.
Proof.
  intros Hl. unfold countBytesInFilter. set (k := (length filt / 64)%nat).
  assert (k * 64 <= length filt)%nat as Hk by (unfold k; rewrite Nat.mul_comm; apply Nat.Div0.mul_div_le).
  pose proof (positives_range (take (k * 64) filt)) as R1. pose proof (positives_range (drop (k * 64) filt)) as R2.
  unfold zlen in *. rewrite length_take, length_drop in *.
  rewrite count_rest_spec; rewrite count_blocks_spec by done.
  - rewrite <- (take_drop (k * 64) filt) at 3. rewrite positives_app. destruct (Nat.eqb_spec k 0) as [E|E].
    + rewrite E in *. cbn [Nat.mul] in *. change (take 0 filt) with (@nil Z) in *. change (positives []) with 0 in *.
      apply wrap_small. unfold fits. lia.
    + rewrite wrap_add_l, Z.add_0_l. apply wrap_small. unfold fits. lia.
  - destruct (Nat.eqb_spec k 0); [unfold fits; lia|]. apply wrap_fits. lia.
Qed.

(** ** Zero memory *)

Lemma words_zero n l : (4 * n <= length l)%nat -> Forall (fun b => b = 0 \/ b = 1) l -> Forall (fun w => float_neq_zero w = false) (words n l) -> Forall (eq 0) (take (4 * n) l).
Proof.
  revert l. induction n as [|n IH]; intros l Hl Hb Hw; [done|]. cbn [words] in Hw. apply list.Forall_cons in Hw as [Hw Hws].
  replace (4 * S n)%nat with (4 + 4 * n)%nat by lia. rewrite <- take_take_drop. apply Forall_app. split.
  - destruct l as [|a [|b [|c [|d l]]]]; cbn [length] in Hl; try lia. cbn [take le_value] in *. rewrite !list.Forall_cons in Hb.
    destruct Hb as (Ha & Hb & Hc & Hd & _). unfold float_neq_zero in Hw. apply negb_false_iff, orb_true_iff in Hw as [Hw%Z.eqb_eq|Hw%Z.eqb_eq]; [|lia].
    repeat constructor; lia.
  - apply IH; [rewrite length_drop; lia|by apply Forall_drop|done].
Qed.

Lemma zero_words n l : Forall (eq 0) l -> Forall (fun w => float_neq_zero w = false) (words n l).
Proof.
  assert (forall l, Forall (eq 0) l -> le_value l = 0) as Hz.
  { clear. induction 1 as [|x l <- _ IH]; [done|]. cbn [le_value]. by rewrite IH. }
  revert l. induction n as [|n IH]; intros l Hl; cbn [words]; constructor; [|by apply IH, Forall_drop].
  by rewrite Hz by (by apply Forall_take).
Qed.

Lemma block_zero l : Z.lor (Z.lor (Z.lor (mask4 l) (mask4 (drop 16 l))) (mask4 (drop 32 l))) (mask4 (drop 48 l)) = 0 <->
  Forall (fun w => float_neq_zero w = false) (words 16 l).
Proof.
  rewrite !Z.lor_eq_0_iff. unfold mask4. rewrite !movemask_zero, !Forall_map.
  change (words 16 l) with (words 4 l ++ words 4 (drop 4 (drop 4 (drop 4 (drop 4 l)))) ++
    words 4 (drop 4 (drop 4 (drop 4 (drop 4 (drop 4 (drop 4 (drop 4 (drop 4 l)))))))) ++
    words 4 (drop 4 (drop 4 (drop 4 (drop 4 (drop 4 (drop 4 (drop 4 (drop 4 (drop 4 (drop 4 (drop 4 (drop 4 l))))))))))))).
  rewrite !drop_drop. cbn [Nat.add]. rewrite !Forall_app. tauto.
Qed.

Lemma zero_blocks_spec k l :
  (k * 64 <= length l)%nat -> Forall (fun b => b = 0 \/ b = 1) l -> zero_blocks k l = true <-> Forall (eq 0) (take (k * 64) l).
Proof.
  revert l. induction k as [|k IH]; intros l Hl Hb; [done|]. cbn [zero_blocks].
  replace (S k * 64)%nat with (64 + k * 64)%nat by lia. rewrite <- take_take_drop, Forall_app.
  rewrite <- IH by (try apply Forall_drop; rewrite ?length_drop; try done; lia).
  destruct (Z.eqb_spec (Z.lor (Z.lor (Z.lor (mask4 l) (mask4 (drop 16 l))) (mask4 (drop 32 l))) (mask4 (drop 48 l))) 0) as [E|E]; cbn [negb].
  - apply block_zero, (words_zero 16) in E; [|lia|done]. tauto.
  - split; [done|]. intros [H _]. exfalso. apply E, block_zero. assert (words 16 l = words 16 (take 64 l)) as ->; [|by apply zero_words].
    clear. change 64%nat with (4 * 16)%nat. generalize 16%nat. intros n. revert l. induction n as [|n IH]; intros l; [done|]. cbn [words].
    rewrite take_take. replace (4 `min` (4 * S n))%nat with 4%nat by lia. f_equal. rewrite skipn_firstn_comm. replace (4 * S n - 4)%nat with (4 * n)%nat by lia. apply IH.
Qed.

(** ** Filtering *)

(** The elements whose byte of the filter is not zero. *)
Fixpoint select {X} (filt : list Z) (l : list X) : list X :=
  match filt, l with
  | f :: filt, x :: l => if f =? 0 then select filt l else x :: select filt l
  | _, _ => []
  end.

Lemma select_app {X} f g (l k : list X) : length f = length l -> select (f ++ g) (l ++ k) = select f l ++ select g k.
Proof.
  revert l. induction f as [|x f IH]; intros [|y l] Hl; cbn in Hl; try lia; [done|]. cbn. rewrite IH by lia. by destruct (x =? 0).
Qed.

Lemma select_none {X} f (l : list X) : Forall (eq 0) f -> select f l = [].
Proof. intros H. revert l. induction H as [|x f <- _ IH]; intros [|y l]; cbn; [done..|]. apply IH. Qed.

Lemma select_all {X} f (l : list X) : length f = length l -> Forall (fun x => x <> 0) f -> select f l = l.
Proof.
  intros Hl H. revert l Hl. induction H as [|x f Hx _ IH]; intros [|y l] Hl; cbn in Hl; try lia; [done|]. cbn.
  rewrite (proj2 (Z.eqb_neq _ _)) by done. by rewrite IH by lia.
Qed.

(** A step of the scan over the filter, at array [i] of [rows]. *)
Lemma select_step {X} filt (rows : list X) i k :
  length filt = length rows -> (i + k <= length rows)%nat ->
  select (take (i + k) filt) (take (i + k) rows) = select (take i filt) (take i rows) ++ select (take k (drop i filt)) (take k (drop i rows)).
Proof.
  intros Hl Hi. rewrite <- !take_take_drop. apply select_app. rewrite !length_take. lia.
Qed.

(** What a builder has after the arrays of [sel] have been inserted. *)
Class BuilderLaws (B : OffsetsBuilder) := {
  built : list Z -> builder B -> Prop;
  built_one : forall sizes b n, built sizes b -> 0 <= n -> zsum sizes + n < 2 ^ 64 -> built (sizes ++ [n]) (insertOne B n b);
  built_chunk : forall sizes b (rows : list (list unit)) first chunk_offset,
    built sizes b -> nonneg sizes -> zsum sizes <= chunk_offset -> (first = true -> chunk_offset = 0) -> chunk_offset + zlen (concat rows) < 2 ^ 64 ->
    built (sizes ++ map zlen rows) (insertChunk B (ends chunk_offset rows) first chunk_offset (zlen (concat rows)) b)
}.

(** The offsets of arrays of the given sizes. *)
Definition shapes (sizes : list Z) : list (list unit) := map (fun n => replicate (Z.to_nat n) tt) sizes.

Lemma zlen_shapes sizes : nonneg sizes -> map zlen (shapes sizes) = sizes.
Proof.
  unfold shapes, nonneg. induction 1 as [|n sizes Hn _ IH]; [done|]. cbn [map]. rewrite IH. f_equal. unfold zlen. rewrite length_replicate. lia.
Qed.

Lemma zlen_concat {A} (rows : list (list A)) : zlen (concat rows) = zsum (map zlen rows).
Proof. induction rows as [|r rows IH]; [done|]. cbn [concat map zsum]. by rewrite StringsColumn.zlen_app, IH. Qed.

Lemma ends_sizes {A B} acc (rows : list (list A)) (rows' : list (list B)) : map zlen rows = map zlen rows' -> ends acc rows = ends acc rows'.
Proof.
  revert acc rows'. induction rows as [|r rows IH]; intros acc [|r' rows'] E; try done. cbn [map] in E. injection E as E1 E2. cbn [ends].
  rewrite E1. by rewrite (IH _ rows').
Qed.

#[export] Instance result_offsets_laws : BuilderLaws ResultOffsetsBuilder.
Proof.
  apply (Build_BuilderLaws ResultOffsetsBuilder
    (fun sizes (b : offsets_builder) => nonneg sizes /\ res_offsets b = ends 0 (shapes sizes) /\ current_src_offset b = zsum sizes)).
  - intros sizes [os cur] n (H1 & E1 & E2) Hn Hs. cbn in *. subst os cur. rewrite wrap_small by (unfold fits; pose proof (zsum_nonneg sizes H1); lia).
    split_and!; [apply Forall_app; split; [done|by constructor]|..]; [|by rewrite zsum_app; cbn; lia].
    unfold shapes. rewrite map_app, ends_app. cbn [map ends]. rewrite zlen_concat. fold (shapes sizes). rewrite zlen_shapes by done.
    unfold zlen. rewrite length_replicate, Z2Nat.id by lia. done.
  - intros sizes [os cur] rows first off (H1 & E1 & E2) _ Hle Hf Hs. cbn in *. subst os cur. pose proof (zsum_nonneg sizes H1). pose proof (StringsColumn.zlen_nonneg (concat rows)).
    assert (nonneg (map zlen rows)) as Hn by (apply Forall_map, Forall_forall; intros r _; apply StringsColumn.zlen_nonneg).
    split_and!; [by apply Forall_app| |rewrite zsum_app, <- zlen_concat; apply wrap_small; unfold fits; lia].
    unfold shapes. rewrite map_app. fold (shapes sizes). fold (shapes (map zlen rows)). rewrite ends_app, zlen_concat, zlen_shapes, Z.add_0_l by done. f_equal.
    rewrite (ends_sizes _ (shapes (map zlen rows)) rows) by (by apply zlen_shapes).
    rewrite wrap_small by (unfold fits; lia). replace (zsum sizes) with (off - (off - zsum sizes)) at 2 by lia.
    replace (ends (off - (off - zsum sizes)) rows) with (map (fun o => o - (off - zsum sizes)) (ends off rows))
      by (unfold Z.sub at 3; rewrite ends_shift; apply map_ext; intros; lia).
    destruct (negb first && (0 <? off - zsum sizes)) eqn:E.
    + apply map_ext_in. intros o Ho. pose proof (proj1 (Forall_forall _ _) (ends_range off rows) o Ho) as Hr. cbv beta in Hr. apply wrap_small. unfold fits. lia.
    + assert (off - zsum sizes = 0) as ->.
      { apply andb_false_iff in E as [E%negb_false_iff|E%Z.ltb_ge]; [specialize (Hf E); lia|lia]. }
      rewrite <- (map_id (ends off rows)) at 1. apply map_ext. intros. lia.
Defined.

#[export] Instance no_offsets_laws : BuilderLaws NoResultOffsetsBuilder.
Proof. by apply (Build_BuilderLaws NoResultOffsetsBuilder (fun _ _ => True)). Defined.

Section FilterSpec.
Context {A : Type} {B : OffsetsBuilder} {L : BuilderLaws B} (rows : list (list A)) (filt : list Z).
Hypothesis Hlen : length filt = length rows.
Hypothesis Hsize : zlen (concat rows) < 2 ^ 64.

(** The arrays kept among the first [i]. *)
Definition kept (i : nat) : list (list A) := select (take i filt) (take i rows).

Definition filtered (i : nat) (st : list A * builder B) : Prop := st.1 = concat (kept i) /\ built (map zlen (kept i)) st.2.

Lemma kept_size i : zlen (concat (kept i)) <= row_start rows i.
Proof.
  unfold kept, row_start. rewrite !zlen_concat. generalize (take i rows). generalize (take i filt). clear. intros f.
  induction f as [|x f IH]; intros [|r l]; cbn [select map zsum]; try lia; pose proof (StringsColumn.zlen_nonneg r).
  - apply Z.add_nonneg_nonneg; [done|]. apply zsum_map_nonneg. intros. apply StringsColumn.zlen_nonneg.
  - specialize (IH l). destruct (x =? 0); cbn [map zsum]; lia.
Qed.

Lemma copy_array_spec i row st :
  rows !! i = Some row -> filtered i st ->
  copy_array B (concat rows) (ends 0 rows) i st = Returns (st.1 ++ row, insertOne B (zlen row) st.2) /\ built (map zlen (kept i ++ [row])) (insertOne B (zlen row) st.2).
Proof.
  intros Hr [_ Hb]. pose proof (lookup_lt_Some _ _ _ Hr) as Hi. unfold copy_array. rewrite offset_at_ends, cell_ends by lia. cbn [mbind outcome_bind].
  pose proof (StringsColumn.row_start_S _ _ _ Hr) as ES. pose proof (StringsColumn.row_start_le rows (S i)) as Hle. pose proof (StringsColumn.zlen_nonneg row).
  assert (0 <= row_start rows i) by apply StringsColumn.zlen_nonneg. pose proof (kept_size i) as Hk. rewrite zlen_concat in Hk.
  replace (row_start rows (S i) -64 row_start rows i) with (zlen row) by (rewrite wrap_small; unfold fits; lia).
  assert (take 1 (drop i rows) = [row]) as E1 by (by rewrite (drop_S _ _ _ Hr)).
  pose proof (load_rows rows i 1) as El. rewrite E1 in El. cbn [concat] in El. rewrite app_nil_r in El. rewrite El. cbn [mbind outcome_bind]. split; [done|].
  rewrite map_app. cbn [map]. apply built_one; [done|done|lia].
Qed.

Lemma kept_one i row : rows !! i = Some row -> kept (S i) = if rd filt (Z.of_nat i) =? 0 then kept i else kept i ++ [row].
Proof.
  intros Hr. pose proof (lookup_lt_Some _ _ _ Hr) as Hi. destruct (lookup_lt_is_Some_2 filt i ltac:(lia)) as [f Hf].
  unfold kept. replace (S i) with (i + 1)%nat by lia. rewrite select_step by lia. rewrite (drop_S _ _ _ Hr), (drop_S _ _ _ Hf).
  rewrite (rd_lookup _ _ f); [|lia|by rewrite Nat2Z.id]. cbn. destruct (f =? 0); [by rewrite app_nil_r|done].
Qed.

Lemma copy_flags_spec k i st :
  (i + k <= length rows)%nat -> filtered i st ->
  exists st', copy_flags B (concat rows) (ends 0 rows) (take k (drop i filt)) i st = Returns st' /\ filtered (i + k) st'.
Proof.
  revert i st. induction k as [|k IH]; intros i st Hk Hst.
  - exists st. rewrite Nat.add_0_r. split; [done|done].
  - destruct (lookup_lt_is_Some_2 rows i ltac:(lia)) as [row Hr]. destruct (lookup_lt_is_Some_2 filt i ltac:(lia)) as [f Hf].
    rewrite (drop_S _ _ _ Hf). cbn [take copy_flags]. pose proof (kept_one i row Hr) as Ek.
    rewrite (rd_lookup _ _ f) in Ek; [|lia|by rewrite Nat2Z.id]. replace (i + S k)%nat with (S i + k)%nat by lia.
    destruct (f =? 0).
    + apply IH; [lia|]. unfold filtered. by rewrite Ek.
    + destruct (copy_array_spec i row st Hr Hst) as [-> Hb]. apply IH; [lia|]. destruct Hst as [E1 _]. unfold filtered. rewrite Ek. cbn [fst snd].
      split; [|done]. rewrite E1, concat_app. cbn. by rewrite app_nil_r.
Qed.

Lemma built_rows sizes b (rs : list (list A)) first chunk_offset :
  built sizes b -> nonneg sizes -> zsum sizes <= chunk_offset -> (first = true -> chunk_offset = 0) -> chunk_offset + zlen (concat rs) < 2 ^ 64 ->
  built (sizes ++ map zlen rs) (insertChunk B (ends chunk_offset rs) first chunk_offset (zlen (concat rs)) b).
Proof.
  intros. assert (nonneg (map zlen rs)) as Hn by (apply Forall_map, Forall_forall; intros r _; apply StringsColumn.zlen_nonneg).
  pose proof (zlen_shapes _ Hn) as Es. set (rs' := shapes (map zlen rs)) in *. clearbody rs'.
  assert (zlen (concat rs) = zlen (concat rs')) as Ec by (by rewrite !zlen_concat, Es).
  rewrite <- Es, Ec, (ends_sizes _ rs rs') by done. apply built_chunk; try done. by rewrite <- Ec.
Qed.

Lemma copy_chunk_spec i st :
  (i + 16 <= length rows)%nat -> filtered i st -> Forall (fun x => x <> 0) (take 16 (drop i filt)) ->
  exists st', copy_chunk B (concat rows) (ends 0 rows) i st = Returns st' /\ filtered (i + 16) st'.
Proof.
  intros Hi [E1 Hb] Hf. unfold copy_chunk. rewrite offset_at_ends, cell_ends by lia. cbn [mbind outcome_bind].
  replace (S (i + 15)) with (i + 16)%nat by lia. pose proof (row_start_mid rows i 16) as Em. pose proof (StringsColumn.row_start_le rows (i + 16)) as Hle.
  assert (0 <= row_start rows i) by apply StringsColumn.zlen_nonneg. pose proof (StringsColumn.zlen_nonneg (concat (take 16 (drop i rows)))).
  pose proof (kept_size i) as Hk. rewrite zlen_concat in Hk.
  replace (row_start rows (i + 16) -64 row_start rows i) with (zlen (concat (take 16 (drop i rows)))) by (rewrite wrap_small; unfold fits; lia).
  rewrite load_rows. cbn [mbind outcome_bind]. rewrite drop_ends, take_ends. eexists. split; [done|].
  unfold filtered, kept. cbn [fst snd]. rewrite select_step by lia. rewrite (select_all (take 16 (drop i filt))) by (try done; rewrite !length_take, !length_drop; lia).
  fold (kept i). rewrite concat_app, map_app, E1. split; [done|]. apply built_rows; try done.
  - apply Forall_map, Forall_forall. intros r _. apply StringsColumn.zlen_nonneg.
  - intros E%Nat.eqb_eq. by rewrite E.
  - lia.
Qed.

Hypothesis Hbytes : Forall (fun b => 0 <= b < 128) filt.

Lemma filter_chunks_spec k i st :
  (i + k * 16 <= length rows)%nat -> filtered i st ->
  exists st', filter_chunks B (concat rows) (ends 0 rows) k (drop i filt) i st = Returns st' /\ filtered (i + k * 16) st'.
Proof.
  revert i st. induction k as [|k IH]; intros i st Hk Hst; [exists st; by rewrite Nat.add_0_r|]. cbn [filter_chunks]. cbn [Nat.mul] in Hk.
  assert (Forall (fun b => 0 <= b < 128) (take 16 (drop i filt))) as Hb by (by apply Forall_take, Forall_drop).
  assert (exists st', (if mask16 (drop i filt) =? 0 then mret st
    else if mask16 (drop i filt) =? 0xffff then copy_chunk B (concat rows) (ends 0 rows) i st
    else copy_flags B (concat rows) (ends 0 rows) (take 16 (drop i filt)) i st) = Returns st' /\ filtered (i + 16) st') as (st' & -> & Hst').
  { destruct (Z.eqb_spec (mask16 (drop i filt)) 0) as [E|_]; [|destruct (Z.eqb_spec (mask16 (drop i filt)) 0xffff) as [E|_]].
    - exists st. split; [done|]. apply mask16_zero in E. unfold filtered, kept. rewrite select_step by lia. rewrite (select_none (take 16 (drop i filt))); [by rewrite app_nil_r|].
      eapply Forall_impl; [|apply Forall_and; [exact Hb|exact E]]. cbn. intros b [Hb' Eb]. rewrite positive_byte in Eb by done. destruct (Z.eqb_spec b 0); done.
    - apply mask16_full in E; [|rewrite length_drop; lia]. apply copy_chunk_spec; [lia|done|].
      eapply Forall_impl; [|exact E]. cbn. intros b Eb ->. done.
    - apply copy_flags_spec; [lia|done]. }
  cbn [mbind outcome_bind]. rewrite drop_drop. replace (i + S k * 16)%nat with (i + 16 + k * 16)%nat by lia. apply IH; [lia|done].
Qed.

(** The arrays that the filter keeps. *)
Lemma filterArraysImplGeneric_spec b0 :
  built [] b0 -> exists b, filterArraysImplGeneric B (concat rows) (ends 0 rows) filt ([], b0) = Returns (concat (select filt rows), b) /\ built (map zlen (select filt rows)) b.
Proof.
  intros H0. unfold filterArraysImplGeneric. rewrite StringsColumn.length_ends. rewrite (proj2 (Nat.eqb_eq _ _)) by done. cbn [negb].
  set (k := (length rows / 16)%nat). assert (k * 16 <= length rows)%nat by (unfold k; rewrite Nat.mul_comm; apply Nat.Div0.mul_div_le).
  destruct (filter_chunks_spec k 0 ([], b0) ltac:(lia) ltac:(done)) as (st & Ec & Hst). cbn [Nat.add] in Hst. change (drop 0 filt) with filt in Ec. rewrite Ec. cbn [mbind outcome_bind].
  destruct (copy_flags_spec (length rows - k * 16) (k * 16) st ltac:(lia) Hst) as ([es b] & Ef & E1 & Hb).
  rewrite take_ge in Ef by (rewrite length_drop; lia). rewrite Ef. replace (k * 16 + (length rows - k * 16))%nat with (length rows) in * by lia.
  unfold kept in *. rewrite !take_ge in * by lia. cbn [fst snd] in *. subst es. by exists b.
Qed.
End FilterSpec.

Lemma filterArraysImpl_keeps {A} (rows : list (list A)) filt :
  length filt = length rows -> zlen (concat rows) < 2 ^ 64 -> Forall (fun b => 0 <= b < 128) filt ->
  filterArraysImpl (concat rows) (ends 0 rows) filt = Returns (concat (select filt rows), ends 0 (select filt rows)).
Proof.
  intros Hl Hs Hb. unfold filterArraysImpl. change (@pair (list A) offsets_builder) with (@pair (list A) (builder ResultOffsetsBuilder)).
  destruct (filterArraysImplGeneric_spec (B := ResultOffsetsBuilder) rows filt Hl Hs Hb (OffsetsSoFar [] 0)) as (b & -> & Hn & E & _).
  { cbn. split_and!; [constructor|done|done]. }
  cbn [mbind outcome_bind fst snd]. rewrite E. unfold mret, outcome_ret. do 2 f_equal. apply ends_sizes. by rewrite zlen_shapes.
Qed.

Lemma filterArraysImplOnlyData_keeps {A} (rows : list (list A)) filt :
  length filt = length rows -> zlen (concat rows) < 2 ^ 64 -> Forall (fun b => 0 <= b < 128) filt ->
  filterArraysImplOnlyData (concat rows) (ends 0 rows) filt = Returns (concat (select filt rows)).
Proof.
  intros Hl Hs Hb. unfold filterArraysImplOnlyData. change (@pair (list A) unit) with (@pair (list A) (builder NoResultOffsetsBuilder)).
  by destruct (filterArraysImplGeneric_spec (L := no_offsets_laws) rows filt Hl Hs Hb tt I) as (b & -> & _).
Qed.

Lemma filterArraysImpl_sizes {A} (elems : list A) offsets filt :
  length offsets <> length filt -> filterArraysImpl elems offsets filt = Throws SIZES_OF_COLUMNS_DOESNT_MATCH.
Proof. intros H. unfold filterArraysImpl, filterArraysImplGeneric. by rewrite (proj2 (Nat.eqb_neq _ _)). Qed.

(** On bytes that are zero or one, as filters and null maps have them,
    [memoryIsZero] says whether all are zero. *)
Lemma memoryIsZero_flags l : Forall (fun b => b = 0 \/ b = 1) l -> memoryIsZero l = true <-> Forall (eq 0) l.
Proof.
  intros Hb. unfold memoryIsZero. set (k := (length l / 64)%nat).
  assert (k * 64 <= length l)%nat as Hk by (unfold k; rewrite Nat.mul_comm; apply Nat.Div0.mul_div_le).
  rewrite andb_true_iff, zero_blocks_spec, forallb_forall by done. transitivity (Forall (eq 0) (take (k * 64) l ++ drop (k * 64) l)); [|by rewrite take_drop]. rewrite Forall_app, (Forall_forall _ (drop _ l)).
  split; (intros [H1 H2]; split; [done|]); intros x Hx; specialize (H2 x Hx); [by apply Z.eqb_eq in H2|subst; done].
Qed.

(** ** Where the vector code differs *)

(** Sixteen floats with the sign bit only count as zero memory. *)
Lemma memoryIsZero_negative_zeros : memoryIsZero (concat (replicate 16 [0; 0; 0; 128])) = true.
Proof. reflexivity. Qed.

(** Sixteen bytes of 128 in a filter keep no array, fifteen keep all. *)
Lemma filter_above_127 :
  filterArraysImpl (replicate 16 7) (ends 0 (replicate 16 [7])) (replicate 16 128) = Returns ([], []) /\
  filterArraysImpl (replicate 15 7) (ends 0 (replicate 15 [7])) (replicate 15 128) = Returns (replicate 15 7, ends 0 (replicate 15 [7])).
Proof. split; reflexivity. Qed.
