(* ===== verification/PODArray.v ===== *)
(** * Arrays of plain data

    [PODArray] (dbms/src/Common/PODArray.h), in which columns keep their data: a
    growing array whose storage is longer than its contents by a padding, so
    that vector instructions may go over the end.  Elements are their bytes,
    [sizeof_T] each; pointers are offsets in the storage, and a write outside of
    the storage is the error [BUFFER_OVERRUN].  The contents of new memory are a
    parameter.  The arrays are those of the heap allocator, which is taken to give
    the memory it is asked for (its exceptions are in Allocators.v); stack memory
    is left out.

    Shown: [roundUpToPowerOfTwoOrZero] (dbms/src/Common/BitHelpers.h) is what its
    name says; for elements whose size is a power of two every sequence of
    operations stays in the storage, keeps the padding behind the contents and
    has the meaning of the operations of a vector; for other sizes [push_back]
    can write behind the storage. *)

From stdpp Require Import base list option numbers.
From Stdlib Require Import ZArith Lia.
From S2P Require Import Prelude IOMonad.
From S2P Require StringsColumn.
Import StringsColumn (zlen, zlen_app, zlen_nonneg).
From S2P Require Import ColumnsCommon.

#[local] Open Scope Z_scope.
#[local] Open Scope word_scope.

(** ** Rounding *)

Definition roundUpToPowerOfTwoOrZero (n : Z) : Z :=
  let n := n -64 1 in
  let n := n |64 (n >>64 1) in
  let n := n |64 (n >>64 2) in
  let n := n |64 (n >>64 4) in
  let n := n |64 (n >>64 8) in
  let n := n |64 (n >>64 16) in
  let n := n |64 (n >>64 32) in
  n +64 1.

(** ** The array *)

(** [c_end] and [c_end_of_storage] relative to [c_start]; an array that has not
    allocated has an empty storage. *)
Record PODArray := Pod { storage : list Z; c_end : Z; c_end_of_storage : Z }.

(** Writing bytes at an offset of the storage. *)
Definition store (a : PODArray) (at_ : Z) (bytes : list Z) : outcome PODArray :=
  if (0 <=? at_) && (at_ + zlen bytes <=? zlen (storage a)) then
    Returns (Pod (take (Z.to_nat at_) (storage a) ++ bytes ++ drop (Z.to_nat at_ + length bytes) (storage a)) (c_end a) (c_end_of_storage a))
  else Throws BUFFER_OVERRUN.

Definition set_end (a : PODArray) (e : Z) : PODArray := Pod (storage a) e (c_end_of_storage a).

Definition empty_array : PODArray := Pod [] 0 0.

Section Array.
Context (sizeof_T INITIAL_SIZE pad_right_ : Z) (fresh : Z -> list Z).

Definition pad_right : Z := (pad_right_ +64 sizeof_T -64 1) / sizeof_T *64 sizeof_T.

Definition byte_size (num_elements : Z) : Z := num_elements *64 sizeof_T.

Definition minimum_memory_for_elements (num_elements : Z) : Z := byte_size num_elements +64 pad_right.

Definition alloc (bytes : Z) : PODArray := Pod (fresh bytes) 0 (bytes - pad_right).

Definition alloc_for_num_elements (num_elements : Z) : PODArray := alloc (roundUpToPowerOfTwoOrZero (minimum_memory_for_elements num_elements)).

(** For an array that has not allocated this is [alloc]. *)
Definition realloc (a : PODArray) (bytes : Z) : PODArray :=
  Pod (take (Z.to_nat bytes) (storage a) ++ fresh (bytes - zlen (storage a))) (c_end a) (bytes - pad_right).

Definition allocated_bytes (a : PODArray) : Z := c_end_of_storage a +64 pad_right.
Definition size (a : PODArray) : Z := c_end a / sizeof_T.
Definition capacity (a : PODArray) : Z := c_end_of_storage a / sizeof_T.

Definition reserveForNextSize (a : PODArray) : PODArray :=
  if size a =? 0 then realloc a (Z.max (((INITIAL_SIZE -64 1) / sizeof_T +64 1) *64 sizeof_T) (minimum_memory_for_elements 1))
  else realloc a (allocated_bytes a *64 2).

Definition reserve (a : PODArray) (n : Z) : PODArray :=
  if capacity a <? n then realloc a (roundUpToPowerOfTwoOrZero (minimum_memory_for_elements n)) else a.

Definition resize_assume_reserved (a : PODArray) (n : Z) : PODArray := set_end a (byte_size n).

Definition resize (a : PODArray) (n : Z) : PODArray := resize_assume_reserved (reserve a n) n.

Definition resize_fill (a : PODArray) (n : Z) : outcome PODArray :=
  let old_size := size a in
  a ← (if old_size <? n then
         let a := reserve a n in
         store a (c_end a) (replicate (Z.to_nat (byte_size (n -64 old_size))) 0)
       else mret a);
  mret (set_end a (byte_size n)).

Definition resize_fill_value (a : PODArray) (n : Z) (value : list Z) : outcome PODArray :=
  let old_size := size a in
  a ← (if old_size <? n then
         let a := reserve a n in
         store a (c_end a) (concat (replicate (Z.to_nat (n -64 old_size)) value))
       else mret a);
  mret (set_end a (byte_size n)).

Definition clear (a : PODArray) : PODArray := set_end a 0.

Definition push_back (a : PODArray) (x : list Z) : outcome PODArray :=
  let a := if c_end a =? c_end_of_storage a then reserveForNextSize a else a in
  a ← store a (c_end a) x;
  mret (set_end a (c_end a + byte_size 1)).

Definition pop_back (a : PODArray) : PODArray := set_end a (c_end a - byte_size 1).

Definition insert_assume_reserved (a : PODArray) (from : list (list Z)) : outcome PODArray :=
  let bytes_to_copy := byte_size (zlen from) in
  a ← store a (c_end a) (concat from);
  mret (set_end a (c_end a + bytes_to_copy)).

Definition insert (a : PODArray) (from : list (list Z)) : outcome PODArray :=
  let required_capacity := size a +64 zlen from in
  let a := if capacity a <? required_capacity then reserve a (roundUpToPowerOfTwoOrZero required_capacity) else a in
  insert_assume_reserved a from.

Definition assign_value (a : PODArray) (n : Z) (x : list Z) : outcome PODArray :=
  let a := resize a n in
  store a 0 (concat (replicate (Z.to_nat (size a)) x)).

Definition assign (a : PODArray) (from : list (list Z)) : outcome PODArray :=
  let required_capacity := zlen from in
  let a := if capacity a <? required_capacity then reserve a (roundUpToPowerOfTwoOrZero required_capacity) else a in
  let bytes_to_copy := byte_size required_capacity in
  a ← store a 0 (concat from);
  mret (set_end a bytes_to_copy).

(** The constructors. *)
Definition PODArray_sized (n : Z) : PODArray :=
  let a := alloc_for_num_elements n in
  set_end a (c_end a + byte_size n).

Definition PODArray_filled (n : Z) (x : list Z) : outcome PODArray := assign_value (alloc_for_num_elements n) n x.

Definition PODArray_range (from : list (list Z)) : outcome PODArray := insert (alloc_for_num_elements (zlen from)) from.

(** [operator[]] *)
Definition element (a : PODArray) (n : Z) : outcome (list Z) := load (storage a) (n * sizeof_T) sizeof_T.

Fixpoint equal_loop (n : nat) (i : Z) (a b : PODArray) : outcome bool :=
  match n with
  | O => mret true
  | S n =>
      x ← element a i;
      y ← element b i;
      if bool_decide (x = y) then equal_loop n (i + 1) a b else mret false
  end.

Definition equal (a b : PODArray) : outcome bool :=
  if negb (size a =? size b) then mret false else equal_loop (Z.to_nat (size a)) 0 a b.
End Array.

(** What an array holds. *)
Definition contents (a : PODArray) : list Z := take (Z.to_nat (c_end a)) (storage a).

(** ** Rounding up *)

(** Bit [i] of a number that has been spread over [k] places. *)
Definition spread (k : nat) (m i : Z) : bool := existsb (fun j => Z.testbit m (i + Z.of_nat j)) (seq 0 k).

Lemma spread_true k m i : spread k m i = true <-> exists j, (j < k)%nat /\ Z.testbit m (i + Z.of_nat j) = true.
Proof.
  unfold spread. rewrite existsb_exists. split; intros (j & H1 & H2); exists j.
  - rewrite in_seq in H1. by split; [lia|].
  - rewrite in_seq. by split; [lia|].
Qed.

Lemma spread_step k m x :
  (forall i, 0 <= i -> Z.testbit x i = spread k m i) ->
  forall i, 0 <= i -> Z.testbit (x |64 (x >>64 (Z.of_nat k))) i = spread (k + k) m i.
Proof.
  intros Hx i Hi. rewrite Z.lor_spec, Z.shiftr_spec, !Hx by lia. apply eq_bool_prop_intro. rewrite orb_True, !Is_true_true, !spread_true. split.
  - intros [(j & Hj & E)|(j & Hj & E)]; [exists j|exists (k + j)%nat]; (split; [lia|]); rewrite <- E; f_equal; lia.
  - intros (j & Hj & E). destruct (Nat.lt_ge_cases j k); [left; by exists j|right]. exists (j - k)%nat. split; [lia|]. rewrite <- E. f_equal. lia.
Qed.

Lemma spread_log2 m i : 0 < m < 2 ^ 64 -> 0 <= i -> spread 64 m i = (i <=? Z.log2 m).
Proof.
  intros Hm Hi. pose proof (proj1 (Z.log2_lt_pow2 m 64 ltac:(lia)) ltac:(lia)) as Hl. pose proof (Z.log2_nonneg m).
  apply eq_bool_prop_intro. rewrite !Is_true_true, spread_true, Z.leb_le. split.
  - intros (j & Hj & E). destruct (Z.le_gt_cases (i + Z.of_nat j) (Z.log2 m)); [lia|]. by rewrite Z.bits_above_log2 in E by lia.
  - intros Hle. exists (Z.to_nat (Z.log2 m - i)). split; [lia|]. rewrite Z2Nat.id by lia. replace (i + _) with (Z.log2 m) by lia. apply Z.bit_log2. lia.
Qed.

Lemma smeared m :
  0 < m < 2 ^ 64 ->
  (let n := m in let n := n |64 (n >>64 1) in let n := n |64 (n >>64 2) in let n := n |64 (n >>64 4) in
   let n := n |64 (n >>64 8) in let n := n |64 (n >>64 16) in n |64 (n >>64 32)) = 2 ^ (Z.log2 m + 1) - 1.
Proof.
  intros Hm. cbv zeta. pose proof (Z.log2_nonneg m).
  assert (forall i, 0 <= i -> Z.testbit m i = spread 1 m i) as H1.
  { intros i Hi. unfold spread. cbn [seq existsb]. rewrite Z.add_0_r. by rewrite orb_false_r. }
  pose proof (spread_step 32 m _ (spread_step 16 m _ (spread_step 8 m _ (spread_step 4 m _ (spread_step 2 m _ (spread_step 1 m m H1)))))) as H64.
  apply Z.bits_inj_iff'. intros i Hi. etransitivity; [exact (H64 i Hi)|]. change (32 + 32)%nat with 64%nat. rewrite spread_log2 by lia.
  replace (2 ^ (Z.log2 m + 1) - 1) with (Z.ones (Z.log2 m + 1)) by (rewrite Z.ones_equiv; lia).
  destruct (Z.leb_spec i (Z.log2 m)); [rewrite Z.ones_spec_low by lia|rewrite Z.ones_spec_high by lia]; done.
Qed.

(** The smallest power of two that is not below. *)
Lemma round_up n : 0 < n <= 2 ^ 63 -> exists k, 0 <= k <= 63 /\ roundUpToPowerOfTwoOrZero n = 2 ^ k /\ n <= 2 ^ k < 2 * n.
Proof.
  intros Hn. destruct (Z.eq_dec n 1) as [->|Hn1]; [exists 0; done|].
  unfold roundUpToPowerOfTwoOrZero. rewrite (wrap_small 64 (n - 1)) by (unfold fits; lia). pose proof (smeared (n - 1) ltac:(lia)) as Hs. cbv zeta in Hs |- *. rewrite Hs.
  destruct (Z.log2_spec (n - 1) ltac:(lia)) as [L1 L2]. pose proof (Z.log2_nonneg (n - 1)).
  assert (Z.log2 (n - 1) < 63) as L3 by (apply Z.log2_lt_pow2; lia).
  exists (Z.log2 (n - 1) + 1). rewrite <- Z.add_1_r in L2. pose proof (Z.pow_le_mono_r 2 (Z.log2 (n - 1) + 1) 63 ltac:(lia) ltac:(lia)).
  rewrite wrap_small by (unfold fits; lia). rewrite Z.pow_add_r in * by lia. lia.
Qed.

Lemma pow2_divide j n k : 0 <= j -> 2 ^ j <= n -> n <= 2 ^ k -> 0 <= k -> (2 ^ j | 2 ^ k).
Proof.
  intros Hj H1 H2 Hk. assert (j <= k) by (apply (Z.pow_le_mono_r_iff 2); lia). exists (2 ^ (k - j)). rewrite <- Z.pow_add_r by lia. f_equal. lia.
Qed.

(** ** The storage *)

Lemma zlen_take_le {A} (l : list A) (n : Z) : 0 <= n <= zlen l -> zlen (take (Z.to_nat n) l) = n.
Proof. unfold zlen. intros H. rewrite length_take. lia. Qed.

Lemma store_inside a at_ bytes :
  0 <= at_ -> at_ + zlen bytes <= zlen (storage a) ->
  exists st, store a at_ bytes = Returns (Pod st (c_end a) (c_end_of_storage a)) /\ zlen st = zlen (storage a) /\
    take (Z.to_nat at_) st = take (Z.to_nat at_) (storage a) /\ take (Z.to_nat (at_ + zlen bytes)) st = take (Z.to_nat at_) (storage a) ++ bytes.
Proof.
  intros H0 H1. unfold store. rewrite (proj2 (Z.leb_le _ _) H0), (proj2 (Z.leb_le _ _) H1). cbn [andb]. eexists. split; [reflexivity|].
  pose proof (zlen_nonneg bytes). assert (length (take (Z.to_nat at_) (storage a)) = Z.to_nat at_) as El by (rewrite length_take; unfold zlen in *; lia). split_and!.
  - unfold zlen in *. rewrite !length_app, El, length_drop. lia.
  - rewrite take_app_le by lia. rewrite take_take. f_equal. lia.
  - rewrite app_assoc, take_app_le by (rewrite length_app, El; unfold zlen; lia). apply take_ge. rewrite length_app, El. unfold zlen in *. lia.
Qed.

(** ** Operations *)

(** Elements are given by their bytes. *)
Inductive pod_op :=
  | PushBack (x : list Z)
  | PopBack
  | Reserve (n : Z)
  | Resize (n : Z)
  | ResizeFill (n : Z)
  | ResizeFillValue (n : Z) (x : list Z)
  | Insert (from : list (list Z))
  | AssignValue (n : Z) (x : list Z)
  | Assign (from : list (list Z))
  | Clear.

Definition run_op (sz INITIAL_SIZE pad_right_ : Z) (fresh : Z -> list Z) (o : pod_op) (a : PODArray) : outcome PODArray :=
  match o with
  | PushBack x => push_back sz INITIAL_SIZE pad_right_ fresh a x
  | PopBack => mret (pop_back sz a)
  | Reserve n => mret (reserve sz pad_right_ fresh a n)
  | Resize n => mret (resize sz pad_right_ fresh a n)
  | ResizeFill n => resize_fill sz pad_right_ fresh a n
  | ResizeFillValue n x => resize_fill_value sz pad_right_ fresh a n x
  | Insert from => insert sz pad_right_ fresh a from
  | AssignValue n x => assign_value sz pad_right_ fresh a n x
  | Assign from => assign sz pad_right_ fresh a from
  | Clear => mret (clear a)
  end.

(** The number of bytes of the contents afterwards. *)
Definition size_after (sz : Z) (o : pod_op) (n : Z) : Z :=
  match o with
  | PushBack _ => n + sz
  | PopBack => n - sz
  | Reserve _ => n
  | Resize k | ResizeFill k | ResizeFillValue k _ | AssignValue k _ => k * sz
  | Insert from => n + zlen from * sz
  | Assign from => zlen from * sz
  | Clear => 0
  end.

(** Elements have their size, there is an element to remove, and the sizes do
    not come near the limits of 64 bits. *)
Definition op_ok (sz : Z) (o : pod_op) (n : Z) : Prop :=
  0 <= size_after sz o n <= 2 ^ 61 /\
  match o with
  | PushBack x => zlen x = sz
  | ResizeFillValue _ x | AssignValue _ x => zlen x = sz
  | Insert from | Assign from => Forall (fun x => zlen x = sz) from
  | Reserve k => 0 <= k * sz <= 2 ^ 61
  | _ => True
  end.

(** The operation on the contents; [Resize] leaves new elements open. *)
Definition means (sz : Z) (o : pod_op) (l l' : list Z) : Prop :=
  match o with
  | PushBack x => l' = l ++ x
  | PopBack => l' = take (Z.to_nat (zlen l - sz)) l
  | Reserve _ => l' = l
  | Resize n => zlen l' = n * sz /\ take (length l) l' = take (Z.to_nat (n * sz)) l
  | ResizeFill n => l' = take (Z.to_nat (n * sz)) l ++ replicate (Z.to_nat (n * sz - zlen l)) 0
  | ResizeFillValue n x => l' = take (Z.to_nat (n * sz)) l ++ concat (replicate (Z.to_nat (n - zlen l / sz)) x)
  | Insert from => l' = l ++ concat from
  | AssignValue n x => l' = concat (replicate (Z.to_nat n) x)
  | Assign from => l' = concat from
  | Clear => l' = []
  end.

(** The constructors. *)
Inductive pod_start :=
  | Default
  | Sized (n : Z)
  | Filled (n : Z) (x : list Z)
  | Range (from : list (list Z)).

Definition run_start (sz pad_right_ : Z) (fresh : Z -> list Z) (c : pod_start) : outcome PODArray :=
  match c with
  | Default => mret empty_array
  | Sized n => mret (PODArray_sized sz pad_right_ fresh n)
  | Filled n x => PODArray_filled sz pad_right_ fresh n x
  | Range from => PODArray_range sz pad_right_ fresh from
  end.

Definition start_size (sz : Z) (c : pod_start) : Z := match c with Default => 0 | Sized n | Filled n _ => n * sz | Range from => zlen from * sz end.

Definition start_ok (sz : Z) (c : pod_start) : Prop :=
  0 <= start_size sz c <= 2 ^ 61 /\
  match c with Filled _ x => zlen x = sz | Range from => Forall (fun x => zlen x = sz) from | _ => True end.

Definition start_means (sz : Z) (c : pod_start) (l : list Z) : Prop :=
  match c with
  | Default => l = []
  | Sized n => zlen l = n * sz
  | Filled n x => l = concat (replicate (Z.to_nat n) x)
  | Range from => l = concat from
  end.

Fixpoint run_ops (sz INITIAL_SIZE pad_right_ : Z) (fresh : Z -> list Z) (os : list pod_op) (a : PODArray) : outcome PODArray :=
  match os with
  | [] => mret a
  | o :: os => a ← run_op sz INITIAL_SIZE pad_right_ fresh o a; run_ops sz INITIAL_SIZE pad_right_ fresh os a
  end.

Fixpoint ops_ok (sz : Z) (os : list pod_op) (n : Z) : Prop :=
  match os with
  | [] => True
  | o :: os => op_ok sz o n /\ ops_ok sz os (size_after sz o n)
  end.

Fixpoint ops_mean (sz : Z) (os : list pod_op) (l l' : list Z) : Prop :=
  match os with
  | [] => l' = l
  | o :: os => exists l1, means sz o l l1 /\ ops_mean sz os l1 l'
  end.

Lemma zlen_concat_elements sz (from : list (list Z)) : Forall (fun x => zlen x = sz) from -> zlen (concat from) = zlen from * sz.
Proof.
  induction 1 as [|x from Hx _ IH]; [done|]. cbn [concat]. rewrite zlen_app, Hx, IH. unfold zlen. cbn [length]. lia.
Qed.

Lemma zlen_concat_replicate sz n (x : list Z) : zlen x = sz -> zlen (concat (replicate n x)) = Z.of_nat n * sz.
Proof. intros Hx. rewrite (zlen_concat_elements sz) by (by apply Forall_replicate). unfold zlen. by rewrite length_replicate. Qed.

Section Laws.
Context (j INITIAL_SIZE pad_right_ : Z) (fresh : Z -> list Z).
Context (Hj : 0 <= j <= 16) (HI : 0 < INITIAL_SIZE <= 2 ^ 32) (Hp : 0 <= pad_right_ <= 2 ^ 16) (Hfresh : forall n, zlen (fresh n) = Z.max 0 n).

#[local] Abbreviation sz := (2 ^ j).
#[local] Abbreviation pad := (pad_right sz pad_right_).

Lemma sz_range : 1 <= sz <= 2 ^ 16.
Proof. pose proof (Z.pow_le_mono_r 2 0 j ltac:(lia) ltac:(lia)). pose proof (Z.pow_le_mono_r 2 j 16 ltac:(lia) ltac:(lia)). lia. Qed.

Lemma pad_spec : pad_right_ <= pad < pad_right_ + sz /\ (sz | pad).
Proof.
  pose proof sz_range as R. unfold pad_right. rewrite wrap_sub_l. rewrite (wrap_small 64 (_ + _ - 1)) by (unfold fits; lia).
  pose proof (Z.div_mod (pad_right_ + sz - 1) sz ltac:(lia)) as E. pose proof (Z.mod_pos_bound (pad_right_ + sz - 1) sz ltac:(lia)) as B.
  rewrite wrap_small by (unfold fits; nia). split; [nia|]. exists ((pad_right_ + sz - 1) / sz). done.
Qed.

Lemma byte_size_small n : 0 <= n -> n * sz < 2 ^ 64 -> byte_size sz n = n * sz.
Proof. intros H1 H2. pose proof sz_range. unfold byte_size. apply wrap_small. unfold fits. nia. Qed.

(** The sizes are whole numbers of elements, and the padding is behind them. *)
Record wf (a : PODArray) : Prop := {
  wf_end : 0 <= c_end a <= c_end_of_storage a;
  wf_end_div : (sz | c_end a);
  wf_storage_div : (sz | c_end_of_storage a);
  wf_limit : c_end_of_storage a + pad <= 2 ^ 63;
  wf_storage : zlen (storage a) = c_end_of_storage a + pad \/ storage a = [] /\ c_end_of_storage a = 0
}.

Lemma wf_inside a : wf a -> c_end_of_storage a <= zlen (storage a).
Proof. intros [? ? ? ? [E|[E E']]]; pose proof pad_spec; [lia|]. rewrite E, E'. done. Qed.

Lemma zlen_contents a : wf a -> zlen (contents a) = c_end a.
Proof. intros W. pose proof (wf_inside a W). destruct W as [? _ _ _ _]. apply zlen_take_le. lia. Qed.

Lemma wf_empty : wf empty_array.
Proof. pose proof pad_spec. pose proof sz_range. split; cbn; [lia|apply Z.divide_0_r|apply Z.divide_0_r|lia|by right]. Qed.

Lemma realloc_wf a bytes :
  wf a -> (sz | bytes) -> c_end_of_storage a + pad <= bytes <= 2 ^ 63 ->
  wf (realloc sz pad_right_ fresh a bytes) /\ contents (realloc sz pad_right_ fresh a bytes) = contents a /\ c_end_of_storage (realloc sz pad_right_ fresh a bytes) = bytes - pad.
Proof.
  intros W Hd Hb. pose proof (wf_inside a W) as Hin. destruct W as [We Wd Ws Wl Wst]. pose proof pad_spec as [Hpad Hpd]. pose proof sz_range.
  assert (zlen (storage a) <= bytes) as Hlen. { destruct Wst as [->|[-> E]]; [lia|]. unfold zlen. cbn. lia. }
  unfold realloc. rewrite take_ge by (unfold zlen in Hlen; lia). split; [|split; [|done]].
  - split; cbn [c_end c_end_of_storage storage]; [lia|done|by apply Z.divide_sub_r|lia|]. left. rewrite zlen_app, Hfresh. lia.
  - unfold contents. cbn [c_end storage]. rewrite take_app_le; [done|]. unfold zlen in Hin. lia.
Qed.

Lemma capacity_bytes a : wf a -> capacity sz a * sz = c_end_of_storage a.
Proof. intros [_ _ Hd _ _]. pose proof sz_range. unfold capacity. destruct Hd as [q ->]. rewrite Z.div_mul by lia. lia. Qed.

Lemma size_bytes a : wf a -> size sz a * sz = c_end a.
Proof. intros [_ Hd _ _ _]. pose proof sz_range. unfold size. destruct Hd as [q ->]. rewrite Z.div_mul by lia. lia. Qed.

Lemma reserve_wf a n :
  wf a -> 0 <= n -> n * sz + pad <= 2 ^ 63 ->
  wf (reserve sz pad_right_ fresh a n) /\ contents (reserve sz pad_right_ fresh a n) = contents a /\ n * sz <= c_end_of_storage (reserve sz pad_right_ fresh a n) /\
  c_end (reserve sz pad_right_ fresh a n) = c_end a.
Proof.
  intros W Hn Hb. pose proof pad_spec as [Hpad Hpd]. pose proof sz_range. pose proof (capacity_bytes a W) as Hc. unfold reserve.
  destruct (Z.ltb_spec (capacity sz a) n) as [Hlt|Hge]; [|split_and!; [done|done|nia|done]].
  unfold minimum_memory_for_elements. rewrite byte_size_small by lia. rewrite wrap_small by (unfold fits; nia).
  destruct W as [We Wd Ws Wl Wst] eqn:EW. assert (0 <= capacity sz a) by (apply Z.div_pos; lia).
  destruct (round_up (n * sz + pad)) as (k & Hk & -> & Hr); [nia|]. pose proof (Z.pow_le_mono_r 2 k 63 ltac:(lia) ltac:(lia)).
  destruct (realloc_wf a (2 ^ k) W) as (W' & Ec & Es); [apply (pow2_divide j (n * sz + pad)); nia|nia|]. rewrite Es. split_and!; [done|done|lia|done].
Qed.

(** Writing behind the contents. *)
Lemma append_wf a bytes e :
  wf a -> c_end a + zlen bytes <= c_end_of_storage a -> (sz | zlen bytes) -> e = c_end a + zlen bytes ->
  exists a', (b ← store a (c_end a) bytes; mret (set_end b e)) = Returns a' /\ wf a' /\ contents a' = contents a ++ bytes.
Proof.
  intros W Hb Hd ->. pose proof (wf_inside a W). destruct W as [We Wd Ws Wl Wst]. pose proof (zlen_nonneg bytes).
  destruct (store_inside a (c_end a) bytes) as (st & -> & Hst & _ & Ht); [lia|lia|]. cbn [mbind outcome_bind]. eexists. split; [reflexivity|]. split.
  - split; cbn [set_end c_end c_end_of_storage storage]; [lia|by apply Z.divide_add_r|done|done|]. rewrite Hst. destruct Wst as [E|[E E']]; [by left|right].
    rewrite E in Hst. split; [|done]. apply nil_length_inv. unfold zlen in Hst. cbn in Hst. lia.
  - unfold contents. cbn [set_end c_end storage]. exact Ht.
Qed.

Lemma append_grows a bytes n :
  wf a -> c_end a + zlen bytes <= c_end_of_storage a -> (sz | zlen bytes) -> n = zlen bytes ->
  exists a', (b ← store a (c_end a) bytes; mret (set_end b (c_end b + n))) = Returns a' /\ wf a' /\ contents a' = contents a ++ bytes.
Proof.
  intros W Hb Hd ->. destruct (append_wf a bytes _ W Hb Hd eq_refl) as (a' & E & W' & Hc). exists a'. split; [|done]. rewrite <- E.
  unfold store. by destruct (_ && _).
Qed.

(** Shrinking. *)
Lemma set_end_wf a e : wf a -> 0 <= e <= c_end_of_storage a -> (sz | e) -> wf (set_end a e) /\ contents (set_end a e) = take (Z.to_nat e) (storage a).
Proof. intros [We Wd Ws Wl Wst] He Hd. split; [|done]. by split. Qed.

Lemma contents_shorter a e : wf a -> 0 <= e <= c_end a -> take (Z.to_nat e) (storage a) = take (Z.to_nat e) (contents a).
Proof. intros W He. unfold contents. rewrite take_take. f_equal. lia. Qed.

Lemma push_back_wf a x :
  wf a -> zlen x = sz -> c_end a + sz <= 2 ^ 61 -> exists a', push_back sz INITIAL_SIZE pad_right_ fresh a x = Returns a' /\ wf a' /\ contents a' = contents a ++ x.
Proof.
  intros W Hx Hb. pose proof pad_spec as [Hpad Hpd]. pose proof sz_range. unfold push_back.
  assert (byte_size sz 1 = sz) as Eb by (rewrite byte_size_small; lia). rewrite Eb.
  set (a1 := if c_end a =? c_end_of_storage a then _ else a).
  assert (wf a1 /\ contents a1 = contents a /\ c_end a1 = c_end a /\ c_end a + sz <= c_end_of_storage a1) as (W1 & Ec & Ee & Hroom).
  { unfold a1. destruct (Z.eqb_spec (c_end a) (c_end_of_storage a)) as [E|E].
    - unfold reserveForNextSize. pose proof (size_bytes a W) as Hs. destruct (Z.eqb_spec (size sz a) 0) as [E0|E0].
      + rewrite E0 in Hs. unfold minimum_memory_for_elements. rewrite Eb, (wrap_small 64 (sz + pad)) by (unfold fits; lia).
        rewrite (wrap_small 64 (INITIAL_SIZE - 1)) by (unfold fits; lia). pose proof (Z.div_pos (INITIAL_SIZE - 1) sz ltac:(lia) ltac:(lia)).
        pose proof (Z.mul_div_le (INITIAL_SIZE - 1) sz ltac:(lia)). rewrite (wrap_small 64 (_ / _ + 1)) by (unfold fits; nia). rewrite wrap_small by (unfold fits; nia).
        set (q := (INITIAL_SIZE - 1) / sz) in *. destruct (realloc_wf a (Z.max ((q + 1) * sz) (sz + pad)) W) as (W' & Ec & Es);
          [destruct (Z.max_spec ((q + 1) * sz) (sz + pad)) as [[_ ->]|[_ ->]]; [apply Z.divide_add_r; done|by exists (q + 1)]|nia|]. rewrite Es. split_and!; [done|done|done|lia].
      + assert (sz <= c_end a) by (assert (0 <= size sz a) by (apply Z.div_pos; [apply W|lia]); nia).
        unfold allocated_bytes. rewrite (wrap_small 64 (_ + _)) by (unfold fits; lia). rewrite wrap_small by (unfold fits; lia).
        destruct (realloc_wf a ((c_end_of_storage a + pad) * 2) W) as (W' & Ec & Es);
          [apply Z.divide_mul_l, Z.divide_add_r; [apply W|done]|lia|]. rewrite Es. split_and!; [done|done|done|lia].
    - split_and!; [done|done|done|]. destruct W as [We [q Eq] [r Er] Wl Wst]. rewrite Eq, Er in *. assert (q < r) by nia. nia. }
  destruct (append_grows a1 x sz W1) as (a' & -> & W' & Hc); [lia|by rewrite Hx|done|]. exists a'. by rewrite Hc, Ec.
Qed.

(** Room for the elements that [insert] and [assign] are given. *)
Lemma reserve_rounded a n :
  wf a -> 0 <= n -> n * sz <= 2 ^ 61 ->
  let a' := if capacity sz a <? n then reserve sz pad_right_ fresh a (roundUpToPowerOfTwoOrZero n) else a in
  wf a' /\ contents a' = contents a /\ n * sz <= c_end_of_storage a' /\ c_end a' = c_end a.
Proof.
  intros W Hn Hb. pose proof pad_spec as [Hpad Hpd]. pose proof sz_range. pose proof (capacity_bytes a W) as Hc. cbv zeta.
  destruct (Z.ltb_spec (capacity sz a) n) as [Hlt|Hge]; [|split_and!; [done|done|nia|done]].
  assert (0 <= capacity sz a) by (apply Z.div_pos; [destruct W; lia|lia]).
  destruct (round_up n) as (k & Hk & -> & Hr); [nia|]. destruct (reserve_wf a (2 ^ k) W) as (W' & Ec & Hs & Ee); [lia|nia|]. split_and!; [done|done|nia|done].
Qed.

Lemma insert_wf a from :
  wf a -> Forall (fun x => zlen x = sz) from -> c_end a + zlen from * sz <= 2 ^ 61 ->
  exists a', insert sz pad_right_ fresh a from = Returns a' /\ wf a' /\ contents a' = contents a ++ concat from.
Proof.
  intros W Hf Hb. pose proof sz_range. pose proof (zlen_nonneg from). pose proof (size_bytes a W) as Hs. assert (0 <= size sz a) by (apply Z.div_pos; [apply W|lia]).
  pose proof (zlen_concat_elements sz from Hf) as Hc. unfold insert. rewrite wrap_small by (unfold fits; nia).
  destruct (reserve_rounded a (size sz a + zlen from) W) as (W1 & Ec & Hroom & Ee); [lia|nia|]. cbv zeta in *.
  set (a1 := if capacity sz a <? size sz a + zlen from then _ else a) in *. unfold insert_assume_reserved. rewrite byte_size_small by nia.
  destruct (append_grows a1 (concat from) (zlen from * sz) W1) as (a' & E & W' & Hc'); [rewrite Hc, Ee; nia|rewrite Hc; by exists (zlen from)|done|].
  exists a'. by rewrite Hc', Ec.
Qed.

(** Writing over the contents from the beginning. *)
Lemma overwrite_wf a bytes :
  wf a -> zlen bytes <= c_end_of_storage a -> (sz | zlen bytes) ->
  exists a', (b ← store a 0 bytes; mret (set_end b (zlen bytes))) = Returns a' /\ wf a' /\ contents a' = bytes.
Proof.
  intros W Hb Hd. destruct (set_end_wf a 0 W) as [W0 _]; [pose proof (zlen_nonneg bytes); lia|apply Z.divide_0_r|].
  destruct (append_wf (set_end a 0) bytes (zlen bytes) W0) as (a' & E & W' & Hc); [cbn; lia|done|cbn; lia|].
  exists a'. split; [|split; [done|by rewrite Hc]]. rewrite <- E. unfold store. cbn [set_end storage c_end c_end_of_storage]. by destruct (_ && _).
Qed.

Lemma assign_wf a from :
  wf a -> Forall (fun x => zlen x = sz) from -> zlen from * sz <= 2 ^ 61 ->
  exists a', assign sz pad_right_ fresh a from = Returns a' /\ wf a' /\ contents a' = concat from.
Proof.
  intros W Hf Hb. pose proof sz_range. pose proof (zlen_nonneg from). pose proof (zlen_concat_elements sz from Hf) as Hc. unfold assign.
  destruct (reserve_rounded a (zlen from) W) as (W1 & Ec & Hroom & Ee); [lia|lia|]. cbv zeta in *.
  set (a1 := if capacity sz a <? zlen from then _ else a) in *. rewrite byte_size_small by nia. rewrite <- Hc in *.
  apply overwrite_wf; [done|lia|rewrite Hc; by exists (zlen from)].
Qed.

Lemma resize_wf a n :
  wf a -> 0 <= n -> n * sz <= 2 ^ 61 ->
  wf (resize sz pad_right_ fresh a n) /\ c_end (resize sz pad_right_ fresh a n) = n * sz /\
  take (length (contents a)) (contents (resize sz pad_right_ fresh a n)) = take (Z.to_nat (n * sz)) (contents a).
Proof.
  intros W Hn Hb. pose proof sz_range. pose proof pad_spec as [? _]. destruct (reserve_wf a n W) as (W1 & Ec & Hs & Ee); [lia|lia|].
  unfold resize, resize_assume_reserved. rewrite byte_size_small by lia. destruct (set_end_wf _ (n * sz) W1) as [W2 Ec2]; [nia|by exists n|]. split; [done|]. split; [done|].
  rewrite Ec2, <- Ec. unfold contents. rewrite length_take, !take_take. pose proof (wf_inside _ W1) as Hi. destruct W1 as [We _ _ _ _]. f_equal. unfold zlen in Hi. lia.
Qed.

Lemma assign_value_wf a n x :
  wf a -> zlen x = sz -> 0 <= n -> n * sz <= 2 ^ 61 ->
  exists a', assign_value sz pad_right_ fresh a n x = Returns a' /\ wf a' /\ contents a' = concat (replicate (Z.to_nat n) x).
Proof.
  intros W Hx Hn Hb. pose proof sz_range. destruct (resize_wf a n W Hn Hb) as (W1 & Ee & _). unfold assign_value.
  pose proof (size_bytes _ W1) as Hs. rewrite Ee in Hs. assert (size sz (resize sz pad_right_ fresh a n) = n) as -> by nia.
  pose proof (zlen_concat_replicate sz (Z.to_nat n) x Hx) as Hc. rewrite Z2Nat.id in Hc by lia.
  destruct (overwrite_wf (resize sz pad_right_ fresh a n) (concat (replicate (Z.to_nat n) x)) W1) as (a' & E & W' & Hc');
    [destruct W1; lia|rewrite Hc; by exists n|]. destruct (store _ 0 _) as [b|] eqn:Eb; [|done]. cbn [mbind outcome_bind] in E. injection E as <-.
  exists b. assert (c_end b = n * sz) as Hbe. { unfold store in Eb. destruct (_ && _); [|done]. injection Eb as <-. exact Ee. }
  assert (set_end b (zlen (concat (replicate (Z.to_nat n) x))) = b) as Eq. { rewrite Hc, <- Hbe. by destruct b. } rewrite Eq in *. done.
Qed.

(** The two fills differ in the bytes they append. *)
Lemma fill_wf a n bytes :
  wf a -> 0 <= n -> n * sz <= 2 ^ 61 -> (size sz a < n -> zlen bytes = n * sz - c_end a) -> (n <= size sz a -> bytes = []) ->
  exists a', (b ← (if size sz a <? n then store (reserve sz pad_right_ fresh a n) (c_end (reserve sz pad_right_ fresh a n)) bytes else mret a);
              mret (set_end b (byte_size sz n))) = Returns a' /\ wf a' /\ contents a' = take (Z.to_nat (n * sz)) (contents a) ++ bytes.
Proof.
  intros W Hn Hb H1 H2. pose proof sz_range. pose proof pad_spec as [? _]. pose proof (size_bytes a W) as Hs. pose proof (zlen_contents a W) as Hz.
  destruct W as [We Wd Ws Wl Wst] eqn:EW. rewrite byte_size_small by lia. destruct (Z.ltb_spec (size sz a) n) as [Hlt|Hge].
  - specialize (H1 Hlt). destruct (reserve_wf a n W) as (W1 & Ec & Hroom & Ee); [lia|lia|].
    destruct (append_wf _ bytes (n * sz) W1) as (a' & E & W' & Hc); [rewrite Ee; lia| |rewrite Ee; lia|].
    { rewrite H1. apply Z.divide_sub_r; [by exists n|done]. }
    exists a'. split; [done|]. split; [done|]. rewrite Hc, Ec. f_equal. rewrite take_ge; [done|]. unfold zlen in Hz. nia.
  - rewrite (H2 Hge), app_nil_r. cbn [mbind outcome_bind]. eexists. split; [reflexivity|]. destruct (set_end_wf a (n * sz) W) as [W2 Ec2]; [nia|by exists n|].
    split; [done|]. rewrite Ec2. apply contents_shorter; [done|nia].
Qed.

Lemma resize_fill_wf a n :
  wf a -> 0 <= n -> n * sz <= 2 ^ 61 ->
  exists a', resize_fill sz pad_right_ fresh a n = Returns a' /\ wf a' /\
    contents a' = take (Z.to_nat (n * sz)) (contents a) ++ replicate (Z.to_nat (n * sz - zlen (contents a))) 0.
Proof.
  intros W Hn Hb. pose proof sz_range. pose proof (size_bytes a W) as Hs. pose proof (zlen_contents a W) as ->. assert (0 <= size sz a) by (apply Z.div_pos; [apply W|lia]).
  assert (size sz a < n -> Z.to_nat (byte_size sz (n -64 size sz a)) = Z.to_nat (n * sz - c_end a)) as Eb.
  { intros Hlt. rewrite (wrap_small 64 (n - _)) by (unfold fits; nia). rewrite byte_size_small by nia. f_equal. nia. }
  unfold resize_fill. destruct (fill_wf a n (replicate (Z.to_nat (n * sz - c_end a)) 0) W Hn Hb) as (a' & E & H').
  - intros Hlt. unfold zlen. rewrite length_replicate. nia.
  - intros Hge. replace (Z.to_nat (n * sz - c_end a)) with 0%nat by nia. done.
  - exists a'. split; [|done]. rewrite <- E. destruct (Z.ltb_spec (size sz a) n) as [Hlt|]; [|done]. by rewrite Eb.
Qed.

Lemma resize_fill_value_wf a n x :
  wf a -> zlen x = sz -> 0 <= n -> n * sz <= 2 ^ 61 ->
  exists a', resize_fill_value sz pad_right_ fresh a n x = Returns a' /\ wf a' /\
    contents a' = take (Z.to_nat (n * sz)) (contents a) ++ concat (replicate (Z.to_nat (n - zlen (contents a) / sz)) x).
Proof.
  intros W Hx Hn Hb. pose proof sz_range. pose proof (size_bytes a W) as Hs. pose proof (zlen_contents a W) as ->. change (c_end a / sz) with (size sz a).
  assert (0 <= size sz a) by (apply Z.div_pos; [apply W|lia]).
  unfold resize_fill_value. destruct (fill_wf a n (concat (replicate (Z.to_nat (n - size sz a)) x)) W Hn Hb) as (a' & E & H').
  - intros Hlt. rewrite (zlen_concat_replicate sz) by done. nia.
  - intros Hge. replace (Z.to_nat (n - size sz a)) with 0%nat by lia. done.
  - exists a'. split; [|done]. rewrite <- E. destruct (Z.ltb_spec (size sz a) n) as [Hlt|]; [|done]. rewrite (wrap_small 64 (n - _)) by (unfold fits; nia). done.
Qed.

Lemma run_op_wf o a :
  wf a -> op_ok sz o (c_end a) ->
  exists a', run_op sz INITIAL_SIZE pad_right_ fresh o a = Returns a' /\ wf a' /\ means sz o (contents a) (contents a') /\ c_end a' = size_after sz o (c_end a).
Proof.
  intros W [Hsz Ho]. pose proof sz_range. pose proof pad_spec as [? _]. pose proof (zlen_contents a W) as Hz.
  cut (exists a', run_op sz INITIAL_SIZE pad_right_ fresh o a = Returns a' /\ wf a' /\ means sz o (contents a) (contents a') /\ zlen (contents a') = size_after sz o (c_end a)).
  { intros (a' & E & W' & Hm & Hl). exists a'. by rewrite <- (zlen_contents a' W'). }
  destruct o as [x| |n|n|n|n x|from|n x|from|]; cbn [run_op means size_after] in *.
  - destruct (push_back_wf a x W Ho) as (a' & E & W' & Hc); [lia|]. exists a'. rewrite Hc, zlen_app. split_and!; [done|done|done|lia].
  - destruct (set_end_wf a (c_end a - sz) W) as [W' Hc]; [destruct W; lia|apply Z.divide_sub_r; [apply W|done]|]. unfold pop_back. rewrite byte_size_small by lia. rewrite Z.mul_1_l.
    eexists. split; [reflexivity|]. split; [done|]. rewrite (zlen_contents _ W'). split; [|done]. rewrite Hc, Hz. apply contents_shorter; [done|lia].
  - destruct (reserve_wf a n W) as (W' & Ec & _ & Ee); [nia|lia|]. eexists. split; [reflexivity|]. split; [done|]. by rewrite Ec.
  - destruct (resize_wf a n W) as (W' & Ee & Ht); [nia|lia|]. eexists. split; [reflexivity|]. split; [done|]. rewrite (zlen_contents _ W'). done.
  - destruct (resize_fill_wf a n W) as (a' & E & W' & Hc); [nia|lia|]. exists a'. rewrite Hc. split_and!; [done|done|done|].
    rewrite zlen_app. unfold zlen in *. rewrite length_take, length_replicate. lia.
  - destruct (resize_fill_value_wf a n x W Ho) as (a' & E & W' & Hc); [nia|lia|]. exists a'. rewrite Hc. split_and!; [done|done|done|].
    rewrite zlen_app, (zlen_concat_replicate sz) by done. pose proof (size_bytes a W) as Hs. rewrite Hz in *. change (c_end a / sz) with (size sz a).
    unfold zlen in Hz |- *. rewrite length_take. nia.
  - destruct (insert_wf a from W Ho) as (a' & E & W' & Hc); [lia|]. exists a'. rewrite Hc, zlen_app, (zlen_concat_elements sz) by done. split_and!; [done|done|done|lia].
  - destruct (assign_value_wf a n x W Ho) as (a' & E & W' & Hc); [nia|lia|]. exists a'. rewrite Hc, (zlen_concat_replicate sz) by done. split_and!; [done|done|done|nia].
  - destruct (assign_wf a from W Ho) as (a' & E & W' & Hc); [lia|]. exists a'. rewrite Hc, (zlen_concat_elements sz) by done. split_and!; done.
  - destruct (set_end_wf a 0 W) as [W' Hc]; [destruct W; lia|apply Z.divide_0_r|]. eexists. split; [reflexivity|]. split; [done|]. unfold clear. by rewrite Hc.
Qed.

Lemma run_ops_wf os a :
  wf a -> ops_ok sz os (c_end a) ->
  exists a', run_ops sz INITIAL_SIZE pad_right_ fresh os a = Returns a' /\ wf a' /\ ops_mean sz os (contents a) (contents a').
Proof.
  revert a. induction os as [|o os IH]; intros a W Ho; [by exists a|]. destruct Ho as [Ho Hos]. cbn [run_ops ops_mean].
  destruct (run_op_wf o a W Ho) as (a1 & -> & W1 & Hm & He). cbn [mbind outcome_bind]. destruct (IH a1 W1) as (a' & E & W' & Hm'); [by rewrite He|].
  exists a'. split_and!; [done|done|]. by exists (contents a1).
Qed.

Lemma alloc_for_wf n :
  0 <= n -> n * sz <= 2 ^ 61 -> wf (alloc_for_num_elements sz pad_right_ fresh n) /\ n * sz <= c_end_of_storage (alloc_for_num_elements sz pad_right_ fresh n).
Proof.
  intros Hn Hb. pose proof pad_spec as [Hpad Hpd]. pose proof sz_range. unfold alloc_for_num_elements, minimum_memory_for_elements.
  rewrite byte_size_small by lia. rewrite wrap_small by (unfold fits; nia). destruct (Z.eq_dec (n * sz + pad) 0) as [E|E].
  - rewrite E. change (roundUpToPowerOfTwoOrZero 0) with 0. unfold alloc. split; [|cbn; nia].
    split; cbn [c_end c_end_of_storage storage]; [nia|apply Z.divide_0_r|apply Z.divide_sub_r; [apply Z.divide_0_r|done]|lia|]. left. rewrite Hfresh. lia.
  - destruct (round_up (n * sz + pad)) as (k & Hk & -> & Hr); [nia|]. pose proof (Z.pow_le_mono_r 2 k 63 ltac:(lia) ltac:(lia)).
    assert (sz | 2 ^ k) as Hd. { apply (pow2_divide j (n * sz + pad)); [lia| |lia|lia]. destruct Hpd as [q Eq]. assert (1 <= n + q) by (generalize dependent pad; intros; nia). nia. }
    unfold alloc. split; [|cbn; lia]. split; cbn [c_end c_end_of_storage storage]; [nia|apply Z.divide_0_r|by apply Z.divide_sub_r|lia|]. left. rewrite Hfresh. lia.
Qed.

Lemma run_start_wf c :
  start_ok sz c -> exists a, run_start sz pad_right_ fresh c = Returns a /\ wf a /\ start_means sz c (contents a) /\ c_end a = start_size sz c.
Proof.
  intros [Hs Hc]. pose proof sz_range.
  cut (exists a, run_start sz pad_right_ fresh c = Returns a /\ wf a /\ start_means sz c (contents a) /\ zlen (contents a) = start_size sz c).
  { intros (a & E & W & Hm & Hl). exists a. by rewrite <- (zlen_contents a W). }
  destruct c as [|n|n x|from]; cbn [run_start start_means start_size] in *.
  - exists empty_array. split_and!; [done|apply wf_empty|done|done].
  - destruct (alloc_for_wf n) as [W Hroom]; [nia|lia|]. unfold PODArray_sized. rewrite byte_size_small by nia. cbv zeta.
    destruct (set_end_wf _ (n * sz) W) as [W' Hc']; [nia|by exists n|]. exists (set_end (alloc_for_num_elements sz pad_right_ fresh n) (n * sz)).
    split; [done|]. split; [done|]. pose proof (zlen_contents _ W') as Hl. split; exact Hl.
  - destruct (alloc_for_wf n) as [W _]; [nia|lia|]. destruct (assign_value_wf _ n x W Hc) as (a & E & W' & Hc'); [nia|lia|]. exists a.
    rewrite Hc', (zlen_concat_replicate sz) by done. split_and!; [done|done|done|nia].
  - pose proof (zlen_nonneg from). destruct (alloc_for_wf (zlen from)) as [W _]; [lia|lia|]. destruct (insert_wf _ from W Hc) as (a & E & W' & Hc');
      [change (c_end (alloc_for_num_elements sz pad_right_ fresh (zlen from))) with 0; lia|]. exists a. rewrite Hc'. change (contents (alloc_for_num_elements sz pad_right_ fresh (zlen from))) with (@nil Z).
    cbn [app]. rewrite (zlen_concat_elements sz) by done. done.
Qed.
End Laws.

(** ** Properties *)

(** C11: An array of elements whose size is a power of two is a vector.  From
    every constructor, whatever the new memory contains, and when the allocator
    gives the memory that it is asked for, every sequence of operations succeeds, writes nowhere outside of the storage, has the meaning
    of the operations on the bytes of the elements, and leaves at least
    [pad_right_] bytes of storage behind the contents once memory has been
    allocated. *)
Theorem podarray_refines j INITIAL_SIZE pad_right_ fresh c os :
  0 <= j <= 16 -> 0 < INITIAL_SIZE <= 2 ^ 32 -> 0 <= pad_right_ <= 2 ^ 16 -> (forall n, zlen (fresh n) = Z.max 0 n) ->
  start_ok (2 ^ j) c -> ops_ok (2 ^ j) os (start_size (2 ^ j) c) ->
  exists a l, (a ← run_start (2 ^ j) pad_right_ fresh c; run_ops (2 ^ j) INITIAL_SIZE pad_right_ fresh os a) = Returns a /\
    start_means (2 ^ j) c l /\ ops_mean (2 ^ j) os l (contents a) /\ zlen (contents a) = c_end a /\
    (storage a = [] \/ c_end a + pad_right_ <= zlen (storage a)).
Proof.
  intros Hj HI Hp Hf Hc Ho. destruct (run_start_wf j pad_right_ fresh Hj Hp Hf c Hc) as (a0 & -> & W0 & Hm0 & He0). rewrite <- He0 in Ho.
  destruct (run_ops_wf j INITIAL_SIZE pad_right_ fresh Hj HI Hp Hf os a0 W0 Ho) as (a & E & W & Hm). exists a, (contents a0). split_and!; [done|done|done| |].
  - by eapply zlen_contents.
  - destruct W as [We _ _ _ [Es|[Es _]]]; [right|by left]. pose proof (pad_spec j pad_right_ Hj Hp). lia.
Qed.

(** With elements of other sizes [push_back] can write behind the storage.
    An array of one element of 24 bytes has a storage of 32 bytes; the end of
    the contents jumps over the end of the storage, and the next element is
    written over it. *)
Theorem push_back_overflows INITIAL_SIZE fresh x :
  (forall n, zlen (fresh n) = Z.max 0 n) -> zlen x = 24 ->
  push_back 24 INITIAL_SIZE 0 fresh (PODArray_sized 24 0 fresh 1) x = Throws BUFFER_OVERRUN.
Proof.
  intros Hf Hx. unfold push_back. change (PODArray_sized 24 0 fresh 1) with (Pod (fresh 32) 24 32). cbn [c_end c_end_of_storage]. change (24 =? 32) with false. cbv iota.
  unfold store. cbn [storage c_end]. by rewrite Hx, Hf.
Qed.

(** ** Witnesses *)

Definition demo_fresh (n : Z) : list Z := replicate (Z.to_nat n) 170.

Lemma demo_fresh_length n : zlen (demo_fresh n) = Z.max 0 n.
Proof. unfold demo_fresh, zlen. rewrite length_replicate. lia. Qed.

Lemma podarray_refines_witness :
  exists a l, (a ← run_start (2 ^ 1) 15 demo_fresh (Range [[1; 0]; [2; 0]]); run_ops (2 ^ 1) 4096 15 demo_fresh [PushBack [3; 0]; PopBack; ResizeFill 4] a) = Returns a /\
    start_means (2 ^ 1) (Range [[1; 0]; [2; 0]]) l /\ ops_mean (2 ^ 1) [PushBack [3; 0]; PopBack; ResizeFill 4] l (contents a) /\ zlen (contents a) = c_end a /\
    (storage a = [] \/ c_end a + 15 <= zlen (storage a)).
Proof.
  apply (podarray_refines 1 4096 15 demo_fresh (Range [[1; 0]; [2; 0]]) [PushBack [3; 0]; PopBack; ResizeFill 4]);
    [lia|lia|lia|exact demo_fresh_length| |]; cbn; repeat (split || constructor); done.
Defined.

Lemma push_back_overflows_witness : push_back 24 4096 0 demo_fresh (PODArray_sized 24 0 demo_fresh 1) (replicate 24 1) = Throws BUFFER_OVERRUN.
Proof. apply (push_back_overflows 4096 demo_fresh (replicate 24 1)); [exact demo_fresh_length|reflexivity]. Defined.
