(* ===== verification/ColumnString.v ===== *)
(** * Columns of strings on the host

    [ColumnString] (dbms/src/Columns/ColumnString.h and .cpp): strings one after
    another in [chars], each with a terminating zero, and in [offsets] the end
    of each.

    The specification of the class is a list of strings; the predicate [holds]
    relates a column to it.  Shown: each operation is the operation on lists
    that it stands for, on every column that holds a list, reads nothing outside
    of the arrays, and throws exactly for arguments that do not fit;
    [compareAt] is the lexicographic order of the strings, also of strings
    with zeros inside. *)

From stdpp Require Import base list option numbers.
From Stdlib Require Import ZArith Lia.
From S2P Require Import Prelude IOMonad.
From S2P Require StringsColumn.
Import StringsColumn (zlen, ends, row_start).
From S2P Require Import ColumnsCommon.

#[local] Open Scope Z_scope.
#[local] Open Scope word_scope.

Record ColumnString := CString { offsets : list Z; chars : list Z }.

(** [ColumnString::create()] *)
Definition create : ColumnString := CString [] [].

Definition size (c : ColumnString) : nat := length (offsets c).
Definition byteSize (c : ColumnString) : Z := zlen (chars c) +64 (zlen (offsets c) *64 8).

Definition offsetAt (c : ColumnString) (i : nat) : outcome Z := offset_at (offsets c) i.

Definition sizeAt (c : ColumnString) (i : nat) : outcome Z :=
  match i with
  | O => cell (offsets c) 0
  | S j => a ← cell (offsets c) i; b ← cell (offsets c) j; mret (a -64 b)
  end.

(** ** Reading *)

(** [operator[]] and [get] make a [Field] of the same bytes. *)
Definition getDataAt (c : ColumnString) (n : nat) : outcome (list Z) :=
  o ← offsetAt c n;
  s ← sizeAt c n;
  load (chars c) o (s -64 1).

Definition getDataAtWithTerminatingZero (c : ColumnString) (n : nat) : outcome (list Z) :=
  o ← offsetAt c n;
  s ← sizeAt c n;
  load (chars c) o s.

(** ** Appending *)

(** [offsets.push_back(new_size)] after [bytes] have been put behind [chars]. *)
Definition push (c : ColumnString) (new_size : Z) (bytes : list Z) : ColumnString :=
  CString (offsets c ++ [new_size]) (chars c ++ bytes).

(** The bytes of [s.c_str()] are those of [s] and a zero. *)
Definition insert (c : ColumnString) (s : list Z) : ColumnString :=
  push c (zlen (chars c) +64 (zlen s +64 1)) (s ++ [0]).

Definition insertData (c : ColumnString) (s : list Z) : ColumnString :=
  push c (zlen (chars c) +64 zlen s +64 1) (s ++ [0]).

Definition insertDataWithTerminatingZero (c : ColumnString) (s : list Z) : ColumnString :=
  push c (zlen (chars c) +64 zlen s) s.

Definition insertDefault (c : ColumnString) : outcome ColumnString :=
  back ← (if (size c =? 0)%nat then mret 0 else cell (offsets c) (size c - 1));
  mret (push c (if (size c =? 0)%nat then 1 else back +64 1) [0]).

Definition insertFrom (c src : ColumnString) (n : nat) : outcome ColumnString :=
  match n with
  | S m =>
      a ← cell (offsets src) n;
      offset ← cell (offsets src) m;
      let size_to_append := a -64 offset in
      if size_to_append =? 1 then mret (push c (zlen (chars c ++ [0])) [0])
      else
        bytes ← load (chars src) offset size_to_append;
        mret (push c (zlen (chars c) +64 size_to_append) bytes)
  | O =>
      size_to_append ← cell (offsets src) 0;
      bytes ← load (chars src) 0 size_to_append;
      mret (push c (zlen (chars c) +64 size_to_append) bytes)
  end.

(** [popBack] of more elements than there are, or on an empty column, is
    outside of the array. *)
Definition popBack (c : ColumnString) (n : nat) : outcome ColumnString :=
  if (size c =? 0)%nat || (size c <? n)%nat then Throws BUFFER_OVERRUN
  else
    back ← cell (offsets c) (size c - 1);
    o ← offsetAt c (size c - n);
    let nested_n := back -64 o in
    mret (CString (take (size c - n) (offsets c)) (take (Z.to_nat (zlen (chars c) -64 nested_n)) (chars c))).

Definition insertRangeFrom (c src : ColumnString) (start length : Z) : outcome ColumnString :=
  if length =? 0 then mret c
  else if zlen (offsets src) <? (start +64 length) then Throws PARAMETER_OUT_OF_BOUND
  else
    nested_offset ← offsetAt src (Z.to_nat start);
    nested_end ← cell (offsets src) (Z.to_nat (start +64 length -64 1));
    let nested_length := nested_end -64 nested_offset in
    bytes ← load (chars src) nested_offset nested_length;
    let chars' := chars c ++ bytes in
    if (start =? 0) && (size c =? 0)%nat then
      os ← load (offsets src) 0 length;
      mret (CString os chars')
    else
      prev_max_offset ← (if (size c =? 0)%nat then mret 0 else cell (offsets c) (size c - 1));
      os ← load (offsets src) start length;
      mret (CString (offsets c ++ map (fun o => o -64 nested_offset +64 prev_max_offset) os) chars').

(** ** New columns *)

Definition cloneResized (c : ColumnString) (to_size : nat) : outcome ColumnString :=
  if (to_size =? 0)%nat then mret create
  else
    let from_size := size c in
    if (to_size <=? from_size)%nat then
      n ← cell (offsets c) (to_size - 1);
      bytes ← load (chars c) 0 n;
      mret (CString (take to_size (offsets c)) bytes)
    else
      let extra := (to_size - from_size)%nat in
      offset ← (if (0 <? from_size)%nat then cell (offsets c) (from_size - 1) else mret 0);
      let kept_offsets := if (0 <? from_size)%nat then offsets c else [] in
      let kept_chars := if (0 <? from_size)%nat then chars c else [] in
      mret (CString (kept_offsets ++ map (fun i => offset +64 Z.of_nat (S i)) (seq 0 extra)) (kept_chars ++ replicate extra 0)).

Definition cloneEmpty (c : ColumnString) : outcome ColumnString := cloneResized c 0.

(** [IColumn::cut] *)
Definition cut (c : ColumnString) (start length : Z) : outcome ColumnString :=
  res ← cloneEmpty c;
  insertRangeFrom res c start length.

Definition filter (c : ColumnString) (filt : list Z) : outcome ColumnString :=
  if (size c =? 0)%nat then mret create
  else
    r ← filterArraysImpl (chars c) (offsets c) filt;
    mret (CString r.2 r.1).

(** The sizes of the strings that [permute] takes. *)
Fixpoint permuted_size (c : ColumnString) (perm : list nat) (acc : Z) : outcome Z :=
  match perm with
  | [] => mret acc
  | j :: perm =>
      n ← sizeAt c j;
      permuted_size c perm (acc +64 n)
  end.

(** The loop of [permute]; [res_chars] is the part that has been written, of
    an array of [capacity] bytes. *)
Fixpoint permute_loop (c : ColumnString) (capacity : Z) (perm : list nat) (current_new_offset : Z) (res_offsets res_chars : list Z)
    : outcome ColumnString :=
  match perm with
  | [] => mret (CString res_offsets res_chars)
  | j :: perm =>
      string_offset ← offsetAt c j;
      string_end ← cell (offsets c) j;
      let string_size := string_end -64 string_offset in
      bytes ← load (chars c) string_offset string_size;
      if capacity <? current_new_offset + string_size then Throws BUFFER_OVERRUN
      else
        let current := current_new_offset +64 string_size in
        permute_loop c capacity perm current (res_offsets ++ [current]) (res_chars ++ bytes)
  end.

(** [uninitialised n] is what the last [n] bytes of [res_chars] hold when the
    strings do not fill it. *)
Definition permute (uninitialised : nat -> list Z) (c : ColumnString) (perm : list nat) (limit : nat) : outcome ColumnString :=
  let limit := if (limit =? 0)%nat then size c else Nat.min (size c) limit in
  if (length perm <? limit)%nat then Throws SIZES_OF_COLUMNS_DOESNT_MATCH
  else if (limit =? 0)%nat then mret create
  else
    capacity ← (if (limit =? size c)%nat then mret (zlen (chars c)) else permuted_size c (take limit perm) 0);
    r ← permute_loop c capacity (take limit perm) 0 [] [];
    mret (CString (offsets r) (chars r ++ uninitialised (Z.to_nat capacity - length (chars r))%nat)).

(** The inner loop of [replicate]. *)
Fixpoint replicate_string (times : nat) (bytes : list Z) (current_new_offset : Z) (r : ColumnString) : Z * ColumnString :=
  match times with
  | O => (current_new_offset, r)
  | S k =>
      let current := current_new_offset +64 zlen bytes in
      replicate_string k bytes current (push r current bytes)
  end.

Fixpoint replicate_loop (c : ColumnString) (i : nat) (replicate_offsets : list Z) (prev_replicate_offset prev_string_offset current_new_offset : Z)
    (r : ColumnString) : outcome ColumnString :=
  match replicate_offsets with
  | [] => mret r
  | ro :: replicate_offsets =>
      let size_to_replicate := ro -64 prev_replicate_offset in
      string_end ← cell (offsets c) i;
      let string_size := string_end -64 prev_string_offset in
      bytes ← (if size_to_replicate =? 0 then mret [] else load (chars c) prev_string_offset string_size);
      let '(current, r) := replicate_string (Z.to_nat size_to_replicate) bytes current_new_offset r in
      replicate_loop c (S i) replicate_offsets ro string_end current r
  end.

Definition replicate_column (c : ColumnString) (replicate_offsets : list Z) : outcome ColumnString :=
  if negb (size c =? length replicate_offsets)%nat then Throws SIZES_OF_COLUMNS_DOESNT_MATCH
  else if (size c =? 0)%nat then mret create
  else replicate_loop c 0 replicate_offsets 0 0 0 create.

(** [IColumn::scatterImpl] *)
Fixpoint scatter_loop (c : ColumnString) (i : nat) (selector : list nat) (columns : list ColumnString) : outcome (list ColumnString) :=
  match selector with
  | [] => mret columns
  | s :: selector =>
      column ← cell columns s;
      column ← insertFrom column c i;
      scatter_loop c (S i) selector (<[s := column]> columns)
  end.

Definition scatter (c : ColumnString) (num_columns : nat) (selector : list nat) : outcome (list ColumnString) :=
  if negb (size c =? length selector)%nat then Throws SIZES_OF_COLUMNS_DOESNT_MATCH
  else
    column ← cloneEmpty c;
    scatter_loop c 0 selector (replicate num_columns column).

(** ** The arena *)

(** The bytes that [serializeValueIntoArena] puts into the arena. *)
Definition serializeValueIntoArena (c : ColumnString) (n : nat) : outcome (list Z) :=
  string_size ← sizeAt c n;
  offset ← offsetAt c n;
  bytes ← load (chars c) offset string_size;
  mret (le_bytes 8 string_size ++ bytes).

(** From the bytes at [pos]; the bytes behind the value come with the column. *)
Definition deserializeAndInsertFromArena (c : ColumnString) (pos : list Z) : outcome (ColumnString * list Z) :=
  head ← load pos 0 8;
  let string_size := le_value head in
  bytes ← load pos 8 string_size;
  mret (push c (zlen (chars c) +64 string_size) bytes, drop (8 + Z.to_nat string_size) pos).

(** ** Comparing *)

(** [memcmp] of two ranges of the same size, of whose result the sign counts. *)
Fixpoint memcmp (l k : list Z) : Z :=
  match l, k with
  | x :: l, y :: k => if x =? y then memcmp l k else if x <? y then -1 else 1
  | _, _ => 0
  end.

Definition compareAt (c : ColumnString) (n : nat) (rhs : ColumnString) (m : nat) : outcome Z :=
  s ← sizeAt c n;
  rhs_size ← sizeAt rhs m;
  o ← offsetAt c n;
  rhs_o ← offsetAt rhs m;
  l ← load (chars c) o (Z.min s rhs_size);
  k ← load (chars rhs) rhs_o (Z.min s rhs_size);
  let cmp := memcmp l k in
  if negb (cmp =? 0) then mret cmp
  else mret (if rhs_size <? s then 1 else if s <? rhs_size then -1 else 0).

(** [less<positive>] *)
Definition less (positive : bool) (parent : ColumnString) (lhs rhs : nat) : outcome bool :=
  left_len ← sizeAt parent lhs;
  right_len ← sizeAt parent rhs;
  o ← offsetAt parent lhs;
  o' ← offsetAt parent rhs;
  l ← load (chars parent) o (Z.min left_len right_len);
  k ← load (chars parent) o' (Z.min left_len right_len);
  let res := memcmp l k in
  if negb (res =? 0) then mret (if positive then res <? 0 else 0 <? res)
  else mret (if positive then left_len <? right_len else right_len <? left_len).

Fixpoint extremes_loop (c : ColumnString) (k : nat) (i min_idx max_idx : nat) : outcome (nat * nat) :=
  match k with
  | O => mret (min_idx, max_idx)
  | S k =>
      b ← less true c i min_idx;
      if b : bool then extremes_loop c k (S i) i max_idx
      else
        b ← less true c max_idx i;
        extremes_loop c k (S i) min_idx (if b : bool then i else max_idx)
  end.

Definition getExtremes (c : ColumnString) : outcome (list Z * list Z) :=
  if (size c =? 0)%nat then mret ([], [])
  else
    r ← extremes_loop c (size c - 1) 1 0 0;
    lo ← getDataAt c r.1;
    hi ← getDataAt c r.2;
    mret (lo, hi).

(** ** The column of a list of strings *)

Definition term (s : list Z) : list Z := s ++ [0].

Definition column_of (ss : list (list Z)) : ColumnString := CString (ends 0 (map term ss)) (concat (map term ss)).

(** The offsets have 64 bits. *)
Definition bounded (ss : list (list Z)) : Prop := zlen (concat (map term ss)) < 2 ^ 64.

Lemma zlen_term s : zlen (term s) = zlen s + 1.
Proof. unfold term. by rewrite StringsColumn.zlen_app. Qed.

Lemma size_column ss : size (column_of ss) = length ss.
Proof. unfold size. cbn. by rewrite StringsColumn.length_ends, length_map. Qed.

Lemma bounded_app ss ss' : bounded (ss ++ ss') -> bounded ss /\ bounded ss'.
Proof.
  unfold bounded. rewrite map_app, concat_app, StringsColumn.zlen_app.
  pose proof (StringsColumn.zlen_nonneg (concat (map term ss))). pose proof (StringsColumn.zlen_nonneg (concat (map term ss'))). lia.
Qed.

Section Rows.
Context (ss : list (list Z)).
Hypothesis Hb : bounded ss.
Let rows := map term ss.

Lemma row_at i s : ss !! i = Some s -> rows !! i = Some (term s).
Proof. intros H. unfold rows. change (map term ss) with (term <$> ss). by rewrite list_lookup_fmap, H. Qed.

Lemma row_start_range i : 0 <= row_start rows i <= zlen (concat rows).
Proof. split; [apply StringsColumn.zlen_nonneg|apply StringsColumn.row_start_le]. Qed.

Lemma offsetAt_column i : (i <= length ss)%nat -> offsetAt (column_of ss) i = Returns (row_start rows i).
Proof. intros. unfold offsetAt. apply offset_at_ends. unfold rows. by rewrite length_map. Qed.

Lemma cell_column i : (i < length ss)%nat -> cell (offsets (column_of ss)) i = Returns (row_start rows (S i)).
Proof. intros. apply cell_ends. unfold rows. by rewrite length_map. Qed.

Lemma row_step i s : ss !! i = Some s -> row_start rows (S i) = row_start rows i + zlen s + 1.
Proof. intros H. rewrite (StringsColumn.row_start_S _ _ _ (row_at i s H)), zlen_term. lia. Qed.

Lemma sizeAt_column i s : ss !! i = Some s -> sizeAt (column_of ss) i = Returns (zlen s + 1).
Proof.
  intros H. pose proof (lookup_lt_Some _ _ _ H) as Hi. pose proof (row_step i s H) as Hs. pose proof (row_start_range (S i)) as R1. pose proof (row_start_range i) as R0.
  destruct i as [|i]; cbn [sizeAt].
  - rewrite cell_column by lia. rewrite Hs. done.
  - rewrite !cell_column by lia. cbn [mbind outcome_bind]. unfold mret, outcome_ret. f_equal. fold rows in Hb.
    pose proof (StringsColumn.zlen_nonneg s). unfold bounded in Hb. fold rows in Hb. rewrite wrap_small; unfold fits; lia.
Qed.

Lemma load_column i s n :
  ss !! i = Some s -> 0 <= n <= zlen s + 1 -> load (chars (column_of ss)) (row_start rows i) n = Returns (take (Z.to_nat n) (term s)).
Proof.
  intros H Hn. unfold load. pose proof (row_step i s H) as Hs. pose proof (row_start_range (S i)) as R1. pose proof (row_start_range i) as R0. cbn [chars column_of]. fold rows.
  rewrite !(proj2 (Z.leb_le _ _)) by lia. cbn [andb]. f_equal. rewrite <- (StringsColumn.row_slice rows i (term s) (row_at i s H)) at 1.
  rewrite take_take. f_equal. unfold term. rewrite length_app. unfold zlen in Hn. cbn. lia.
Qed.

Lemma load_term i s : ss !! i = Some s -> load (chars (column_of ss)) (row_start rows i) (zlen s + 1) = Returns (term s).
Proof.
  intros H. pose proof (StringsColumn.zlen_nonneg s). rewrite (load_column i s) by (done || lia). rewrite take_ge; [done|]. unfold term. rewrite length_app. unfold zlen. cbn. lia.
Qed.

Lemma getDataAt_column i s : ss !! i = Some s -> getDataAt (column_of ss) i = Returns s.
Proof.
  intros H. pose proof (lookup_lt_Some _ _ _ H) as Hi. unfold getDataAt. rewrite offsetAt_column, (sizeAt_column i s) by (done || lia). cbn [mbind outcome_bind].
  pose proof (StringsColumn.zlen_nonneg s). pose proof (row_step i s H). pose proof (row_start_range (S i)) as R1. pose proof (row_start_range i) as R0.
  unfold bounded in Hb. fold rows in Hb.
  rewrite wrap_small by (unfold fits; lia). replace (zlen s + 1 - 1) with (zlen s) by lia. rewrite (load_column i s) by (done || lia).
  unfold zlen, term. rewrite Nat2Z.id. by rewrite take_app_length.
Qed.

Lemma getDataAtWithTerminatingZero_column i s : ss !! i = Some s -> getDataAtWithTerminatingZero (column_of ss) i = Returns (term s).
Proof.
  intros H. pose proof (lookup_lt_Some _ _ _ H) as Hi. unfold getDataAtWithTerminatingZero. rewrite offsetAt_column, (sizeAt_column i s) by (done || lia). cbn [mbind outcome_bind].
  by apply load_term.
Qed.

(** Columns are put together from their rows. *)
Lemma push_column s : push (column_of ss) (zlen (chars (column_of ss)) + zlen s + 1) (term s) = column_of (ss ++ [s]).
Proof.
  unfold push, column_of. cbn [offsets chars]. rewrite map_app, concat_app, ends_app. cbn [map ends concat]. rewrite app_nil_r, zlen_term, Z.add_0_l. f_equal. f_equal. f_equal. lia.
Qed.

Lemma bounded_push s : bounded (ss ++ [s]) -> 0 <= zlen (chars (column_of ss)) /\ zlen (chars (column_of ss)) + zlen s + 1 < 2 ^ 64.
Proof.
  unfold bounded, column_of. cbn [chars]. rewrite map_app, concat_app, StringsColumn.zlen_app. cbn [map concat]. rewrite app_nil_r, zlen_term.
  pose proof (StringsColumn.zlen_nonneg (concat (map term ss))). lia.
Qed.
End Rows.

(** ** Appending refines appending *)

Section Append.
Context (ss : list (list Z)).

Lemma insert_column s : bounded (ss ++ [s]) -> insert (column_of ss) s = column_of (ss ++ [s]).
Proof.
  intros Hb. pose proof (bounded_push ss s Hb). pose proof (StringsColumn.zlen_nonneg s). rewrite <- push_column. unfold insert, term.
  f_equal. rewrite !wrap_small; unfold fits; try lia. rewrite wrap_small; unfold fits; lia.
Qed.

Lemma insertData_column s : bounded (ss ++ [s]) -> insertData (column_of ss) s = column_of (ss ++ [s]).
Proof.
  intros Hb. pose proof (bounded_push ss s Hb). pose proof (StringsColumn.zlen_nonneg s). rewrite <- push_column. unfold insertData, term.
  f_equal. rewrite wrap_add_l, wrap_small; unfold fits; lia.
Qed.

Lemma insertDataWithTerminatingZero_column s : bounded (ss ++ [s]) -> insertDataWithTerminatingZero (column_of ss) (term s) = column_of (ss ++ [s]).
Proof.
  intros Hb. pose proof (bounded_push ss s Hb). pose proof (StringsColumn.zlen_nonneg s). rewrite <- push_column. unfold insertDataWithTerminatingZero.
  f_equal. rewrite zlen_term, wrap_small; unfold fits; lia.
Qed.

(** The end of the last string. *)
Lemma back_column : ss <> [] -> cell (offsets (column_of ss)) (size (column_of ss) - 1) = Returns (zlen (chars (column_of ss))).
Proof.
  intros Hne. rewrite size_column. destruct ss as [|s l] eqn:E; [done|]. rewrite <- E in *. assert (0 < length ss)%nat by (rewrite E; cbn; lia).
  rewrite cell_column by lia. replace (S (length ss - 1)) with (length ss) by lia. unfold row_start, column_of. cbn [chars]. rewrite take_ge; [done|]. by rewrite length_map.
Qed.

Lemma insertDefault_column : bounded (ss ++ [[]]) -> insertDefault (column_of ss) = Returns (column_of (ss ++ [[]])).
Proof.
  intros Hb. pose proof (bounded_push ss [] Hb) as Hp. change (zlen []) with 0 in Hp. unfold insertDefault. rewrite <- push_column. rewrite size_column.
  destruct (decide (ss = [])) as [->|Hne]; [done|]. destruct (Nat.eqb_spec (length ss) 0) as [E%nil_length_inv|_]; [done|].
  rewrite <- size_column, back_column by done. cbn [mbind outcome_bind]. unfold mret, outcome_ret. do 2 f_equal. rewrite wrap_small; [|unfold fits; lia].
  change (zlen []) with 0. lia.
Qed.

Lemma insertFrom_column src i s : bounded src -> src !! i = Some s -> bounded (ss ++ [s]) -> insertFrom (column_of ss) (column_of src) i = Returns (column_of (ss ++ [s])).
Proof.
  intros Hsrc Hi Hb. pose proof (lookup_lt_Some _ _ _ Hi) as Hl. pose proof (bounded_push ss s Hb). pose proof (StringsColumn.zlen_nonneg s).
  pose proof (load_term src i s Hi) as Hload. pose proof (row_step src i s Hi) as Hstep. pose proof (row_start_range src (S i)) as R1. pose proof (row_start_range src i) as R0.
  rewrite <- push_column. unfold bounded in Hsrc. destruct i as [|i]; cbn [insertFrom].
  - rewrite cell_column by lia. cbn [mbind outcome_bind]. change (row_start (map term src) 0) with 0 in *. rewrite Hstep, Z.add_0_l, Hload. cbn [mbind outcome_bind].
    unfold mret, outcome_ret. do 2 f_equal. rewrite wrap_small; unfold fits; lia.
  - rewrite !cell_column by lia. cbn [mbind outcome_bind]. replace (row_start (map term src) (S (S i)) -64 row_start (map term src) (S i)) with (zlen s + 1) by (rewrite wrap_small; unfold fits; lia).
    destruct (Z.eqb_spec (zlen s + 1) 1) as [E|E].
    + assert (s = []) as -> by (apply nil_length_inv; unfold zlen in E; lia). unfold mret, outcome_ret. do 2 f_equal. rewrite StringsColumn.zlen_app. cbn. unfold zlen. cbn. lia.
    + rewrite Hload. cbn [mbind outcome_bind]. unfold mret, outcome_ret. do 2 f_equal. rewrite wrap_small; unfold fits; lia.
Qed.
End Append.

(** ** Ranges *)

Lemma take_column ss k : CString (take k (offsets (column_of ss))) (concat (take k (map term ss))) = column_of (take k ss).
Proof. unfold column_of. cbn [offsets]. by rewrite take_ends, firstn_map. Qed.

Lemma take_concat {A} (rows : list (list A)) k n : n = length (concat (take k rows)) -> take n (concat rows) = concat (take k rows).
Proof. intros ->. rewrite <- (take_drop k rows) at 2. rewrite concat_app. apply take_app_length. Qed.

Lemma popBack_column ss n : bounded ss -> ss <> [] -> (n <= length ss)%nat -> popBack (column_of ss) n = Returns (column_of (take (length ss - n) ss)).
Proof.
  intros Hb Hne Hn. unfold popBack. assert (length ss <> 0%nat) by (by intros ->%nil_length_inv). rewrite back_column by done. rewrite size_column.
  rewrite (proj2 (Nat.eqb_neq _ _)), (proj2 (Nat.ltb_ge _ _)) by lia. cbn [orb mbind outcome_bind]. rewrite offsetAt_column by lia. cbn [mbind outcome_bind].
  unfold mret, outcome_ret. f_equal. rewrite <- take_column. f_equal. pose proof (row_start_range ss (length ss - n)) as R.
  unfold bounded in Hb. cbn [chars column_of]. set (N := zlen (concat (map term ss))) in *.
  assert (N -64 (N -64 row_start (map term ss) (length ss - n)) = row_start (map term ss) (length ss - n)) as ->.
  { rewrite (wrap_small _ (N - row_start (map term ss) (length ss - n))) by (unfold fits; lia). rewrite wrap_small; unfold fits; lia. }
  apply take_concat. unfold row_start, zlen. by rewrite Nat2Z.id.
Qed.

(** The offsets of a range, moved behind what the column has. *)
Lemma load_ends (rows : list (list Z)) i k : (i + k <= length rows)%nat -> load (ends 0 rows) (Z.of_nat i) (Z.of_nat k) = Returns (ends (row_start rows i) (take k (drop i rows))).
Proof.
  intros H. unfold load, zlen. rewrite StringsColumn.length_ends. rewrite !(proj2 (Z.leb_le _ _)) by lia. cbn [andb].
  rewrite !Nat2Z.id, drop_ends, take_ends. done.
Qed.

Lemma column_app ss ss' :
  CString (offsets (column_of ss) ++ ends (zlen (concat (map term ss))) (map term ss')) (chars (column_of ss) ++ concat (map term ss')) = column_of (ss ++ ss').
Proof. unfold column_of. cbn [offsets chars]. by rewrite map_app, concat_app, ends_app, Z.add_0_l. Qed.

Lemma moved_ends a b n rows :
  0 <= a -> 0 <= b -> a + zlen (concat rows) < n -> b + zlen (concat rows) < 2 ^ 64 -> n <= 2 ^ 64 ->
  map (fun o => o -64 a +64 b) (ends a rows : list Z) = ends b (rows : list (list Z)).
Proof.
  intros Ha Hb Hn Hb' Hn'. transitivity (ends (a + (b - a)) rows); [|f_equal; lia]. rewrite ends_shift. apply map_ext_in. intros o Ho.
  pose proof (proj1 (Forall_forall _ _) (ends_range a rows) o Ho) as R. cbv beta in R.
  rewrite (wrap_small _ (o - a)) by (unfold fits; lia). rewrite wrap_small; unfold fits; lia.
Qed.

Lemma insertRangeFrom_column ss src (start length_ : nat) :
  bounded src -> (start + length_ <= length src)%nat -> Z.of_nat (length src) < 2 ^ 64 -> bounded (ss ++ take length_ (drop start src)) ->
  insertRangeFrom (column_of ss) (column_of src) (Z.of_nat start) (Z.of_nat length_) = Returns (column_of (ss ++ take length_ (drop start src))).
Proof.
  intros Hsrc Hl Hs Hb. unfold insertRangeFrom. destruct (Z.eqb_spec (Z.of_nat length_) 0) as [E|E].
  { assert (length_ = 0%nat) as -> by lia. cbn [take]. by rewrite app_nil_r. }
  rewrite (wrap_small 64 (Z.of_nat start + _)) by (unfold fits; lia). unfold zlen at 1. fold (size (column_of src)). rewrite size_column.
  rewrite (proj2 (Z.ltb_ge _ _)) by lia. rewrite Nat2Z.id, offsetAt_column by lia. cbn [mbind outcome_bind].
  rewrite (wrap_small 64 (_ - 1)) by (unfold fits; lia). replace (Z.to_nat (Z.of_nat start + Z.of_nat length_ - 1)) with (start + length_ - 1)%nat by lia.
  rewrite (cell_column src) by lia. replace (S (start + length_ - 1)) with (start + length_)%nat by lia. cbn [mbind outcome_bind].
  set (rows := map term src). set (moved := map term (take length_ (drop start src))).
  assert (take length_ (drop start rows) = moved) as Em by (unfold rows, moved; by rewrite skipn_map, firstn_map).
  pose proof (row_start_mid rows start length_) as Hmid. rewrite Em in Hmid. pose proof (row_start_range src start) as R0. pose proof (row_start_range src (start + length_)) as R1. fold rows in R0, R1.
  pose proof (StringsColumn.zlen_nonneg (concat moved)). unfold bounded in Hsrc, Hb. fold rows in Hsrc. rewrite map_app, concat_app, StringsColumn.zlen_app in Hb. fold moved in Hb.
  pose proof (StringsColumn.zlen_nonneg (concat (map term ss))).
  replace (row_start rows (start + length_) -64 row_start rows start) with (zlen (concat moved)) by (rewrite wrap_small; unfold fits; lia).
  pose proof (load_rows rows start length_) as Hload. rewrite Em in Hload. cbn [chars column_of] in *. fold rows. rewrite Hload. cbn [mbind outcome_bind].
  pose proof (load_ends rows start length_) as Ho. rewrite Em in Ho. assert (length rows = length src) as Er by (unfold rows; apply length_map). specialize (Ho ltac:(lia)).
  rewrite <- column_app. fold moved. rewrite size_column. destruct (decide (ss = [])) as [->|Hne].
  - cbn [length Nat.eqb]. cbn [mbind outcome_bind offsets column_of] in *. fold rows. destruct (Z.eqb_spec (Z.of_nat start) 0) as [Es|Es]; cbn [andb].
    + rewrite Es in Ho. rewrite Ho. cbn. assert (start = 0%nat) as -> by lia. done.
    + rewrite Ho. unfold mret, outcome_ret. cbn [mbind outcome_bind]. do 3 f_equal. change (zlen (concat (map term []))) with 0 in *.
      apply (moved_ends _ _ (2 ^ 64)); lia.
  - destruct (Nat.eqb_spec (length ss) 0) as [El%nil_length_inv|_]; [done|]. rewrite andb_false_r. rewrite <- (size_column ss), back_column by done. cbn [mbind outcome_bind]. cbn [offsets column_of] in *. fold rows.
    rewrite Ho. cbn [mbind outcome_bind]. unfold mret, outcome_ret. do 3 f_equal. change (chars (column_of ss)) with (concat (map term ss)). apply (moved_ends _ _ (2 ^ 64)); lia.
Qed.

Lemma insertRangeFrom_throws ss src (start length_ : nat) :
  (length src < start + length_)%nat -> (length_ <> 0)%nat -> Z.of_nat (start + length_) < 2 ^ 64 ->
  insertRangeFrom (column_of ss) (column_of src) (Z.of_nat start) (Z.of_nat length_) = Throws PARAMETER_OUT_OF_BOUND.
Proof.
  intros H1 H2 H3. unfold insertRangeFrom. rewrite (proj2 (Z.eqb_neq _ _)) by lia. rewrite wrap_small by (unfold fits; lia).
  unfold zlen. fold (size (column_of src)). rewrite size_column. by rewrite (proj2 (Z.ltb_lt _ _)) by lia.
Qed.

(** ** New columns *)

Lemma cloneEmpty_column ss : cloneEmpty (column_of ss) = Returns (column_of []).
Proof. done. Qed.

Lemma ends_empties acc n : ends acc (map term (replicate n [])) = map (fun i => acc + Z.of_nat (S i)) (seq 0 n).
Proof.
  revert acc. induction n as [|n IH]; intros acc; [done|]. cbn [replicate map seq ends]. rewrite zlen_term. f_equal.
  rewrite IH, <- (seq_shift n 0), map_map. apply map_ext. intros i. change (zlen []) with 0. lia.
Qed.

Lemma concat_empties n : concat (map term (replicate n [])) = replicate n 0.
Proof. induction n as [|n IH]; [done|]. cbn. by rewrite IH. Qed.

Lemma cloneResized_column ss n : bounded (resize n [] ss) -> bounded ss -> cloneResized (column_of ss) n = Returns (column_of (resize n [] ss)).
Proof.
  intros Hb Hs. unfold cloneResized. rewrite size_column. destruct (Nat.eqb_spec n 0) as [->|Hn]; [by rewrite resize_0|].
  destruct (Nat.leb_spec n (length ss)) as [Hle|Hgt].
  - rewrite cell_column by lia. replace (S (n - 1)) with n by lia. cbn [mbind outcome_bind].
    pose proof (load_rows (map term ss) 0 n) as Hl. change (drop 0 ?l) with l in Hl. change (row_start ?l 0) with 0 in Hl.
    cbn [chars column_of]. unfold row_start. rewrite Hl. cbn [mbind outcome_bind]. rewrite resize_le by lia. unfold mret, outcome_ret. by rewrite <- take_column.
  - rewrite resize_ge in * by lia. rewrite <- column_app. set (k := (n - length ss)%nat) in *. unfold bounded in Hb. rewrite map_app, concat_app, StringsColumn.zlen_app, concat_empties in Hb.
    unfold zlen in Hb at 2. rewrite length_replicate in Hb. pose proof (StringsColumn.zlen_nonneg (concat (map term ss))).
    assert (forall a, 0 <= a -> a + Z.of_nat k < 2 ^ 64 -> map (fun i => a +64 Z.of_nat (S i)) (seq 0 k) = ends a (map term (replicate k []))) as Hm.
    { intros a H1 H2. rewrite ends_empties. apply map_ext_in. intros i [_ Hi]%in_seq. apply wrap_small. unfold fits. lia. }
    destruct (decide (ss = [])) as [->|Hne].
    + change (zlen (concat (map term []))) with 0 in *. cbn [length Nat.ltb Nat.leb offsets chars column_of]. unfold mret, outcome_ret. cbn [mbind outcome_bind].
      by rewrite concat_empties, (Hm 0) by lia.
    + destruct (Nat.ltb_spec 0 (length ss)) as [Hlt|El]; [|assert (ss = []) by (apply nil_length_inv; lia); done].
      rewrite <- (size_column ss), back_column by done. change (chars (column_of ss)) with (concat (map term ss)). cbn [mbind outcome_bind].
      by rewrite concat_empties, Hm by lia.
Qed.

Lemma cut_column ss (start length_ : nat) :
  bounded ss -> (start + length_ <= length ss)%nat -> Z.of_nat (length ss) < 2 ^ 64 ->
  cut (column_of ss) (Z.of_nat start) (Z.of_nat length_) = Returns (column_of (take length_ (drop start ss))).
Proof.
  intros Hb Hl Hs. unfold cut. rewrite cloneEmpty_column. cbn [mbind outcome_bind]. rewrite insertRangeFrom_column; try done.
  rewrite <- (take_drop start ss), <- (take_drop length_ (drop start ss)) in Hb. apply bounded_app in Hb as [_ Hb]. by apply bounded_app in Hb as [Hb _].
Qed.

Lemma select_map {X Y} (f : X -> Y) filt l : select filt (map f l) = map f (select filt l).
Proof. revert l. induction filt as [|b filt IH]; intros [|x l]; cbn; [done..|]. rewrite IH. by destruct (b =? 0). Qed.

Lemma filter_column ss filt : bounded ss -> length filt = length ss -> Forall (fun b => 0 <= b < 128) filt -> filter (column_of ss) filt = Returns (column_of (select filt ss)).
Proof.
  intros Hb Hl Hf. unfold filter. rewrite size_column. destruct (Nat.eqb_spec (length ss) 0) as [->%nil_length_inv|Hne].
  { by destruct filt. }
  cbn [chars offsets column_of]. rewrite filterArraysImpl_keeps; [|by rewrite length_map|done|done]. cbn [mbind outcome_bind fst snd]. by rewrite select_map.
Qed.

Lemma filter_throws ss filt : length filt <> length ss -> ss <> [] -> filter (column_of ss) filt = Throws SIZES_OF_COLUMNS_DOESNT_MATCH.
Proof.
  intros Hl Hne. unfold filter. rewrite size_column. destruct (Nat.eqb_spec (length ss) 0) as [->%nil_length_inv|_]; [done|].
  by rewrite filterArraysImpl_sizes by (cbn; rewrite StringsColumn.length_ends, length_map; done).
Qed.

(** ** Permutations *)

(** The strings of the given numbers. *)
Definition pick (ss : list (list Z)) (perm : list nat) : list (list Z) := omap (fun j => ss !! j) perm.

Lemma pick_cons ss j s perm : ss !! j = Some s -> pick ss (j :: perm) = s :: pick ss perm.
Proof. intros H. unfold pick. cbn. by rewrite H. Qed.

Lemma permuted_size_column ss perm acc :
  bounded ss -> 0 <= acc -> Forall (fun j => (j < length ss)%nat) perm -> acc + zlen (concat (map term (pick ss perm))) < 2 ^ 64 ->
  permuted_size (column_of ss) perm acc = Returns (acc + zlen (concat (map term (pick ss perm)))).
Proof.
  intros Hb Ha Hp. revert acc Ha. induction Hp as [|j perm Hj _ IH]; intros acc Ha Hs; cbn [permuted_size]; [cbn; by rewrite Z.add_0_r|].
  destruct (lookup_lt_is_Some_2 _ _ Hj) as [s Hs']. rewrite (pick_cons _ _ _ _ Hs') in *. cbn [map concat] in *. rewrite StringsColumn.zlen_app, zlen_term in *.
  rewrite (sizeAt_column ss Hb j s Hs'). cbn [mbind outcome_bind]. pose proof (StringsColumn.zlen_nonneg s). pose proof (StringsColumn.zlen_nonneg (concat (map term (pick ss perm)))).
  rewrite wrap_small by (unfold fits; lia). rewrite IH by lia. f_equal. lia.
Qed.

Lemma permute_loop_column ss capacity perm done_ :
  bounded ss -> capacity < 2 ^ 64 -> Forall (fun j => (j < length ss)%nat) perm -> zlen (concat (map term (done_ ++ pick ss perm))) <= capacity ->
  permute_loop (column_of ss) capacity perm (zlen (concat (map term done_))) (offsets (column_of done_)) (chars (column_of done_)) = Returns (column_of (done_ ++ pick ss perm)).
Proof.
  intros Hb Hc Hp. revert done_. induction Hp as [|j perm Hj _ IH]; intros done_ Hs; cbn [permute_loop]; [by rewrite app_nil_r|].
  destruct (lookup_lt_is_Some_2 _ _ Hj) as [s Hs']. rewrite (pick_cons _ _ _ _ Hs') in *. rewrite offsetAt_column, cell_column by lia. cbn [mbind outcome_bind].
  pose proof (row_step ss j s Hs') as Hst. pose proof (row_start_range ss j) as R0. pose proof (row_start_range ss (S j)) as R1. unfold bounded in Hb.
  replace (row_start (map term ss) (S j) -64 row_start (map term ss) j) with (zlen s + 1) by (rewrite wrap_small; unfold fits; pose proof (StringsColumn.zlen_nonneg s); lia).
  rewrite (load_term ss j s Hs'). cbn [mbind outcome_bind].
  replace (done_ ++ s :: pick ss perm) with ((done_ ++ [s]) ++ pick ss perm) in * by (by rewrite <- app_assoc).
  assert (zlen (concat (map term (done_ ++ [s]))) = zlen (concat (map term done_)) + (zlen s + 1)) as En.
  { rewrite map_app, concat_app, StringsColumn.zlen_app. cbn [map concat]. by rewrite app_nil_r, zlen_term. }
  assert (zlen (concat (map term (done_ ++ [s]))) <= capacity) as Hcap.
  { rewrite (map_app term (done_ ++ [s])), concat_app, StringsColumn.zlen_app in Hs. pose proof (StringsColumn.zlen_nonneg (concat (map term (pick ss perm)))). lia. }
  rewrite (proj2 (Z.ltb_ge _ _)) by lia. pose proof (StringsColumn.zlen_nonneg (concat (map term done_))). pose proof (StringsColumn.zlen_nonneg s).
  rewrite wrap_small by (unfold fits; lia). rewrite <- En. rewrite <- IH by done. f_equal.
  - rewrite En. rewrite <- (push_column done_ s). cbn [push offsets chars column_of]. f_equal. f_equal. lia.
  - unfold column_of. cbn [chars]. rewrite map_app, concat_app. cbn. by rewrite app_nil_r.
Qed.

Lemma pick_seq ss : pick ss (seq 0 (length ss)) = ss.
Proof.
  enough (forall pre, omap (fun j => (pre ++ ss) !! j) (seq (length pre) (length ss)) = ss) as H by exact (H []).
  induction ss as [|s ss IH]; intros pre; [done|]. cbn [length seq omap list_omap]. rewrite lookup_app_r, Nat.sub_diag by lia. cbn. f_equal.
  specialize (IH (pre ++ [s])). rewrite length_app in IH. cbn in IH. rewrite Nat.add_1_r in IH. rewrite <- app_assoc in IH. exact IH.
Qed.

(** Different numbers pick different strings. *)
Lemma pick_permutation ss perm : NoDup perm -> Forall (fun j => (j < length ss)%nat) perm -> exists rest, ss ≡ₚ pick ss perm ++ rest /\ (length perm = length ss -> rest = []).
Proof.
  intros Hd Hp. assert (perm ⊆+ seq 0 (length ss)) as [k Hk]%submseteq_Permutation.
  { apply NoDup_submseteq; [done|]. intros j Hj%list_elem_of_In. apply list_elem_of_In, in_seq. pose proof (proj1 (Forall_forall _ _) Hp j Hj) as Hlt. cbv beta in Hlt. lia. }
  exists (pick ss k). split.
  - rewrite <- (pick_seq ss) at 1. unfold pick. rewrite <- omap_app. by rewrite Hk.
  - intros E. apply Permutation_length in Hk. rewrite length_app, length_seq in Hk. destruct k; [done|]. cbn in Hk. lia.
Qed.

Lemma concat_permutation ss ss' : ss ≡ₚ ss' -> zlen (concat (map term ss)) = zlen (concat (map term ss')).
Proof. intros H. unfold zlen. f_equal. apply Permutation_length. by rewrite H. Qed.

Lemma permute_column uninitialised ss perm limit :
  bounded ss -> (forall k, length (uninitialised k) = k) ->
  let k := if (limit =? 0)%nat then length ss else Nat.min (length ss) limit in
  (k <= length perm)%nat -> Forall (fun j => (j < length ss)%nat) (take k perm) -> NoDup (take k perm) ->
  permute uninitialised (column_of ss) perm limit = Returns (column_of (pick ss (take k perm))).
Proof.
  intros Hb Hu k Hk Hp Hd. unfold permute. rewrite size_column. fold k. rewrite (proj2 (Nat.ltb_ge _ _)) by lia.
  destruct (Nat.eqb_spec k 0) as [E|E]; [by rewrite E|]. set (p := take k perm) in *. assert (length p = k) as Elen by (unfold p; rewrite length_take; lia).
  destruct (pick_permutation ss p Hd Hp) as (rest & Hss & Hrest). pose proof (concat_permutation _ _ Hss) as Hsz. rewrite map_app, concat_app, StringsColumn.zlen_app in Hsz.
  pose proof (StringsColumn.zlen_nonneg (concat (map term rest))). unfold bounded in Hb. set (N := zlen (concat (map term (pick ss p)))) in *.
  assert ((if (k =? length ss)%nat then mret (zlen (chars (column_of ss))) else permuted_size (column_of ss) p 0) = Returns N) as ->.
  { destruct (Nat.eqb_spec k (length ss)) as [El|_].
    - rewrite (Hrest ltac:(lia)) in Hsz. change (zlen (concat (map term []))) with 0 in Hsz. cbn [chars column_of]. rewrite Hsz, Z.add_0_r. done.
    - rewrite permuted_size_column; [done|done|lia|done|fold N; lia]. }
  cbn [mbind outcome_bind]. pose proof (permute_loop_column ss N p [] Hb ltac:(lia) Hp) as Hl. cbn [app] in Hl. specialize (Hl ltac:(unfold N; lia)).
  change (zlen (concat (map term []))) with 0 in Hl. change (offsets (column_of [])) with (@nil Z) in Hl. change (chars (column_of [])) with (@nil Z) in Hl. rewrite Hl. cbn [mbind outcome_bind].
  replace (Z.to_nat N - length (chars (column_of (pick ss p))))%nat with 0%nat by (unfold N, zlen; cbn [chars column_of]; lia).
  specialize (Hu 0%nat). apply nil_length_inv in Hu. rewrite Hu, app_nil_r. done.
Qed.

Lemma permute_throws uninitialised ss perm limit :
  (length perm < (if (limit =? 0)%nat then length ss else Nat.min (length ss) limit))%nat ->
  permute uninitialised (column_of ss) perm limit = Throws SIZES_OF_COLUMNS_DOESNT_MATCH.
Proof. intros H. unfold permute. rewrite size_column. by rewrite (proj2 (Nat.ltb_lt _ _)). Qed.

(** ** Replication *)

(** Every string as many times as its offset is above the one before. *)
Fixpoint repeat_by (prev : Z) (ro : list Z) (ss : list (list Z)) : list (list Z) :=
  match ro, ss with
  | o :: ro, s :: ss => replicate (Z.to_nat (o - prev)) s ++ repeat_by o ro ss
  | _, _ => []
  end.

Fixpoint ascending (prev : Z) (ro : list Z) : Prop :=
  match ro with
  | [] => True
  | o :: ro => prev <= o < 2 ^ 64 /\ ascending o ro
  end.

Lemma replicate_string_column k s acc :
  bounded (acc ++ replicate k s) ->
  replicate_string k (term s) (zlen (concat (map term acc))) (column_of acc) = (zlen (concat (map term (acc ++ replicate k s))), column_of (acc ++ replicate k s)).
Proof.
  revert acc. induction k as [|k IH]; intros acc Hb; cbn [replicate_string replicate]; [by rewrite app_nil_r|]. cbn [replicate] in Hb.
  replace (acc ++ s :: replicate k s) with ((acc ++ [s]) ++ replicate k s) in * by (by rewrite <- app_assoc). rewrite <- (IH (acc ++ [s])) by done.
  apply bounded_app in Hb as [Hb _]. pose proof (bounded_push acc s Hb) as Hp. cbn [chars column_of] in Hp. pose proof (StringsColumn.zlen_nonneg s).
  assert (zlen (concat (map term acc)) +64 zlen (term s) = zlen (concat (map term (acc ++ [s])))) as ->.
  { rewrite map_app, concat_app, StringsColumn.zlen_app. cbn [map concat]. rewrite app_nil_r, zlen_term, wrap_small; unfold fits; lia. }
  f_equal. rewrite <- push_column. f_equal. rewrite map_app, concat_app, StringsColumn.zlen_app. cbn [map concat chars column_of]. rewrite app_nil_r, zlen_term. lia.
Qed.

Lemma replicate_loop_column ss i ro prev acc :
  bounded ss -> (i + length ro = length ss)%nat -> 0 <= prev -> ascending prev ro -> bounded (acc ++ repeat_by prev ro (drop i ss)) ->
  replicate_loop (column_of ss) i ro prev (row_start (map term ss) i) (zlen (concat (map term acc))) (column_of acc) = Returns (column_of (acc ++ repeat_by prev ro (drop i ss))).
Proof.
  intros Hs. revert i prev acc. induction ro as [|o ro IH]; intros i prev acc Hi Hp Ha Hb; cbn [replicate_loop]; [by rewrite app_nil_r|].
  cbn [length] in Hi. cbn [ascending] in Ha. destruct Ha as [Ho Ha]. destruct (lookup_lt_is_Some_2 ss i ltac:(lia)) as [s Hx]. rewrite (drop_S _ _ _ Hx) in Hb |- *. cbn [repeat_by] in Hb |- *.
  rewrite cell_column by lia. cbn [mbind outcome_bind]. rewrite (wrap_small _ (o - prev)) by (unfold fits; lia).
  pose proof (row_step ss i s Hx) as Hst. pose proof (row_start_range ss i) as R0. pose proof (row_start_range ss (S i)) as R1. pose proof Hs as Hs'. unfold bounded in Hs'.
  replace (row_start (map term ss) (S i) -64 row_start (map term ss) i) with (zlen s + 1) by (rewrite wrap_small; unfold fits; pose proof (StringsColumn.zlen_nonneg s); lia).
  rewrite app_assoc in Hb |- *. pose proof (proj1 (bounded_app _ _ Hb)) as Hb1. rewrite <- IH by (done || lia).
  destruct (Z.eqb_spec (o - prev) 0) as [E|E].
  - rewrite E. cbn. by rewrite app_nil_r.
  - rewrite (load_term ss i s Hx). cbn [mbind outcome_bind]. by rewrite (replicate_string_column _ _ _ Hb1).
Qed.

Lemma replicate_column_spec ss ro :
  bounded ss -> length ro = length ss -> ascending 0 ro -> bounded (repeat_by 0 ro ss) -> replicate_column (column_of ss) ro = Returns (column_of (repeat_by 0 ro ss)).
Proof.
  intros Hs Hl Ha Hb. unfold replicate_column. rewrite size_column, Hl, Nat.eqb_refl. cbn [negb]. destruct (Nat.eqb_spec (length ss) 0) as [->%nil_length_inv|_].
  { by destruct ro. }
  exact (replicate_loop_column ss 0 ro 0 [] Hs Hl ltac:(lia) Ha Hb).
Qed.

Lemma replicate_column_throws ss ro : length ro <> length ss -> replicate_column (column_of ss) ro = Throws SIZES_OF_COLUMNS_DOESNT_MATCH.
Proof. intros H. unfold replicate_column. by rewrite size_column, (proj2 (Nat.eqb_neq _ _)) by done. Qed.

(** ** Scattering *)

(** The strings that go to column [j]. *)
Fixpoint chosen (j : nat) (selector : list nat) (ss : list (list Z)) : list (list Z) :=
  match selector, ss with
  | a :: selector, s :: ss => (if (a =? j)%nat then [s] else []) ++ chosen j selector ss
  | _, _ => []
  end.

Lemma chosen_size (j : nat) selector ss : zlen (concat (map term (chosen j selector ss))) <= zlen (concat (map term ss)).
Proof.
  revert ss. induction selector as [|a selector IH]; intros [|s ss]; cbn [chosen]; try apply StringsColumn.zlen_nonneg. specialize (IH ss).
  rewrite map_app, concat_app, StringsColumn.zlen_app. cbn [map concat]. rewrite StringsColumn.zlen_app. pose proof (StringsColumn.zlen_nonneg (term s)).
  destruct (a =? j)%nat; cbn [map concat]; rewrite ?app_nil_r; change (zlen (@nil Z)) with 0; lia.
Qed.

Lemma scatter_loop_column ss i selector parts :
  bounded ss -> (i + length selector = length ss)%nat -> Forall (fun j => (j < length parts)%nat) selector ->
  (forall j p, parts !! j = Some p -> bounded (p ++ chosen j selector (drop i ss))) ->
  scatter_loop (column_of ss) i selector (map column_of parts) = Returns (map column_of (imap (fun j p => p ++ chosen j selector (drop i ss)) parts)).
Proof.
  intros Hs. revert i parts. induction selector as [|a selector IH]; intros i parts Hi Hf Hb; cbn [scatter_loop].
  - unfold mret, outcome_ret. do 2 f_equal. apply list_eq. intros j. rewrite list_lookup_imap. destruct (parts !! j); cbn; by rewrite ?app_nil_r.
  - cbn [length] in Hi. apply list.Forall_cons in Hf as [Ha Hf]. destruct (lookup_lt_is_Some_2 ss i ltac:(lia)) as [s Hx]. destruct (lookup_lt_is_Some_2 parts a Ha) as [p Hp].
    rewrite (drop_S _ _ _ Hx) in Hb |- *. pose proof (Hb a p Hp) as Hba. cbn [chosen] in Hba. rewrite Nat.eqb_refl, app_assoc in Hba. pose proof (proj1 (bounded_app _ _ Hba)) as Hb1.
    assert (cell (map column_of parts) a = Returns (column_of p)) as ->.
    { apply cell_lookup. change (map column_of parts) with (column_of <$> parts). by rewrite list_lookup_fmap, Hp. }
    cbn [mbind outcome_bind]. rewrite (insertFrom_column p ss i s Hs Hx Hb1). cbn [mbind outcome_bind].
    change (map column_of parts) with (column_of <$> parts). rewrite <- list_fmap_insert. change (column_of <$> ?l) with (map column_of l). rewrite IH.
    + do 2 f_equal. apply list_eq. intros j. rewrite !list_lookup_imap. destruct (decide (a = j)) as [<-|Hne].
      * rewrite list_lookup_insert_eq, Hp by done. cbn [fmap option_fmap option_map chosen]. rewrite Nat.eqb_refl. by rewrite <- app_assoc.
      * rewrite list_lookup_insert_ne by done. destruct (parts !! j); [|done]. cbn [fmap option_fmap option_map chosen]. by rewrite (proj2 (Nat.eqb_neq _ _)) by done.
    + lia.
    + eapply Forall_impl; [|exact Hf]. cbn. intros. by rewrite length_insert.
    + intros j q Hq. destruct (decide (a = j)) as [<-|Hne].
      * rewrite list_lookup_insert_eq in Hq by done. injection Hq as <-. done.
      * rewrite list_lookup_insert_ne in Hq by done. specialize (Hb j q Hq). cbn [chosen] in Hb. by rewrite (proj2 (Nat.eqb_neq _ _)) in Hb by done.
Qed.

Lemma scatter_column ss n selector :
  bounded ss -> length selector = length ss -> Forall (fun j => (j < n)%nat) selector ->
  scatter (column_of ss) n selector = Returns (map (fun j => column_of (chosen j selector ss)) (seq 0 n)).
Proof.
  intros Hs Hl Hf. unfold scatter. rewrite size_column, Hl, Nat.eqb_refl. cbn [negb]. rewrite cloneEmpty_column. cbn [mbind outcome_bind].
  replace (replicate n (column_of [])) with (map column_of (replicate n [])) by (exact (fmap_replicate column_of n [])).
  rewrite (scatter_loop_column ss 0) ; [|done|done|by rewrite length_replicate|].
  - do 2 f_equal. apply list_eq. intros j. change (map ?f ?l) with (f <$> l). rewrite !list_lookup_fmap, list_lookup_imap.
    destruct (decide (j < n)%nat) as [Hj|Hj].
    + rewrite lookup_replicate_2, lookup_seq_lt by done. done.
    + rewrite !lookup_ge_None_2; rewrite ?length_replicate, ?length_seq; try lia. done.
  - intros j p [-> _]%lookup_replicate. cbn [app]. change (drop 0 ss) with ss. unfold bounded in *. pose proof (chosen_size j selector ss). lia.
Qed.

(** ** The arena *)

Lemma serialize_column ss i s : bounded ss -> ss !! i = Some s -> serializeValueIntoArena (column_of ss) i = Returns (le_bytes 8 (zlen s + 1) ++ term s).
Proof.
  intros Hb H. pose proof (lookup_lt_Some _ _ _ H). unfold serializeValueIntoArena. rewrite (sizeAt_column ss Hb i s H), offsetAt_column by lia.
  cbn [mbind outcome_bind]. by rewrite (load_term ss i s H).
Qed.

Lemma deserialize_column ss s rest :
  bounded (ss ++ [s]) -> deserializeAndInsertFromArena (column_of ss) ((le_bytes 8 (zlen s + 1) ++ term s) ++ rest) = Returns (column_of (ss ++ [s]), rest).
Proof.
  intros Hb. pose proof (bounded_push ss s Hb) as Hp. pose proof (StringsColumn.zlen_nonneg s). unfold deserializeAndInsertFromArena. rewrite <- app_assoc.
  pose proof (load_slice [] (le_bytes 8 (zlen s + 1)) (term s ++ rest) 0 8 eq_refl
    ltac:(unfold zlen; by rewrite length_le_bytes)) as L1. rewrite app_nil_l in L1. rewrite L1. cbn [mbind outcome_bind].
  rewrite le_value_bytes by (change (256 ^ Z.of_nat 8) with (2 ^ 64); lia).
  rewrite (load_slice (le_bytes 8 (zlen s + 1)) (term s) rest); [|unfold zlen; by rewrite length_le_bytes|by rewrite zlen_term]. cbn [mbind outcome_bind].
  unfold mret, outcome_ret. do 2 f_equal.
  - rewrite <- push_column. f_equal. rewrite wrap_small; unfold fits; lia.
  - rewrite app_assoc. apply drop_app_length'. unfold term. rewrite !length_app, length_le_bytes. unfold zlen. cbn. lia.
Qed.

(** ** The order of strings *)

Fixpoint lex (l k : list Z) : Z :=
  match l, k with
  | [], [] => 0
  | [], _ :: _ => -1
  | _ :: _, [] => 1
  | x :: l, y :: k => if x =? y then lex l k else if x <? y then -1 else 1
  end.

Definition is_bytes (s : list Z) : Prop := Forall (fun x => 0 <= x < 256) s.

(** Comparing up to the shorter size, terminating zero included, and then the
    sizes, is the lexicographic order. *)
Lemma memcmp_lex s t :
  is_bytes s -> is_bytes t ->
  let n := Z.to_nat (Z.min (zlen s + 1) (zlen t + 1)) in
  lex s t = if negb (memcmp (take n (term s)) (take n (term t)) =? 0) then memcmp (take n (term s)) (take n (term t))
            else if zlen t + 1 <? zlen s + 1 then 1 else if zlen s + 1 <? zlen t + 1 then -1 else 0.
Proof.
  intros Hs. cbn zeta. replace (Z.to_nat (Z.min (zlen s + 1) (zlen t + 1))) with (S (Nat.min (length s) (length t))) by (unfold zlen; lia).
  revert t. induction Hs as [|x s Hx Hs IH]; intros t Ht.
  - destruct Ht as [|y t Hy Ht]; [done|]. cbn -[Z.ltb Z.eqb]. unfold zlen. cbn [length]. destruct (Z.eqb_spec 0 y) as [<-|Hne].
    + cbn [negb Z.eqb]. rewrite (proj2 (Z.ltb_ge _ _)), (proj2 (Z.ltb_lt _ _)) by lia. done.
    + by rewrite (proj2 (Z.ltb_lt _ _)) by lia.
  - destruct Ht as [|y t Hy Ht].
    + cbn -[Z.ltb Z.eqb]. unfold zlen. cbn [length]. destruct (Z.eqb_spec x 0) as [->|Hne].
      * cbn [negb Z.eqb]. by rewrite (proj2 (Z.ltb_lt _ _)) by lia.
      * by rewrite (proj2 (Z.ltb_ge _ _)) by lia.
    + cbn [lex length Nat.min term app take memcmp]. destruct (x =? y).
      * rewrite (IH t Ht). unfold zlen. cbn [length]. rewrite !Nat2Z.inj_succ.
        replace (Z.succ (Z.of_nat (length t)) + 1 <? Z.succ (Z.of_nat (length s)) + 1) with (Z.of_nat (length t) + 1 <? Z.of_nat (length s) + 1) by (destruct (Z.ltb_spec (Z.of_nat (length t) + 1) (Z.of_nat (length s) + 1)); symmetry; [apply Z.ltb_lt|apply Z.ltb_ge]; lia).
        replace (Z.succ (Z.of_nat (length s)) + 1 <? Z.succ (Z.of_nat (length t)) + 1) with (Z.of_nat (length s) + 1 <? Z.of_nat (length t) + 1) by (destruct (Z.ltb_spec (Z.of_nat (length s) + 1) (Z.of_nat (length t) + 1)); symmetry; [apply Z.ltb_lt|apply Z.ltb_ge]; lia).
        done.
      * by destruct (x <? y).
Qed.

Lemma lex_antisym s t : lex t s = - lex s t.
Proof.
  revert t. induction s as [|x s IH]; intros [|y t]; cbn; try done. rewrite (Z.eqb_sym y x). destruct (Z.eqb_spec x y) as [->|Hne]; [apply IH|].
  destruct (Z.ltb_spec x y), (Z.ltb_spec y x); done || lia.
Qed.

Lemma lex_refl s : lex s s = 0.
Proof. pose proof (lex_antisym s s). lia. Qed.

Lemma lex_eq s t : lex s t = 0 -> s = t.
Proof.
  revert t. induction s as [|x s IH]; intros [|y t]; cbn; try done. destruct (Z.eqb_spec x y) as [->|Hne]; [intros H; by rewrite (IH t H)|]. by destruct (x <? y).
Qed.

Lemma lex_trans s t u : lex s t <= 0 -> lex t u <= 0 -> lex s u <= 0.
Proof.
  revert t u. induction s as [|x s IH]; intros [|y t] [|z u]; cbn; try lia.
  destruct (Z.eqb_spec x y) as [->|Hxy].
  - destruct (Z.eqb_spec y z); [apply IH|done].
  - destruct (Z.ltb_spec x y); [|lia]. intros _. destruct (Z.eqb_spec y z) as [->|Hyz].
    + intros _. rewrite (proj2 (Z.eqb_neq _ _)) by lia. by rewrite (proj2 (Z.ltb_lt _ _)) by lia.
    + destruct (Z.ltb_spec y z); [|lia]. intros _. rewrite (proj2 (Z.eqb_neq _ _)) by lia. by rewrite (proj2 (Z.ltb_lt _ _)) by lia.
Qed.

Lemma lex_sign s t : lex s t = -1 \/ lex s t = 0 \/ lex s t = 1.
Proof. revert t. induction s as [|x s IH]; intros [|y t]; cbn; try tauto. destruct (x =? y); [apply IH|]. destruct (x <? y); tauto. Qed.

Lemma compareAt_column ss i s tt_ j t :
  bounded ss -> bounded tt_ -> ss !! i = Some s -> tt_ !! j = Some t -> is_bytes s -> is_bytes t -> compareAt (column_of ss) i (column_of tt_) j = Returns (lex s t).
Proof.
  intros Hb Hb' Hs Ht Bs Bt. pose proof (lookup_lt_Some _ _ _ Hs). pose proof (lookup_lt_Some _ _ _ Ht). unfold compareAt.
  rewrite (sizeAt_column ss Hb i s Hs), (sizeAt_column tt_ Hb' j t Ht), !offsetAt_column by lia. cbn [mbind outcome_bind].
  pose proof (StringsColumn.zlen_nonneg s). pose proof (StringsColumn.zlen_nonneg t).
  rewrite (load_column ss i s), (load_column tt_ j t) by (done || lia). cbn [mbind outcome_bind]. rewrite (memcmp_lex s t Bs Bt). by destruct (negb _).
Qed.

Lemma less_column positive ss i s j t :
  bounded ss -> ss !! i = Some s -> ss !! j = Some t -> is_bytes s -> is_bytes t -> less positive (column_of ss) i j = Returns (if positive then lex s t <? 0 else 0 <? lex s t).
Proof.
  intros Hb Hs Ht Bs Bt. pose proof (lookup_lt_Some _ _ _ Hs). pose proof (lookup_lt_Some _ _ _ Ht). unfold less.
  rewrite (sizeAt_column ss Hb i s Hs), (sizeAt_column ss Hb j t Ht), !offsetAt_column by lia. cbn [mbind outcome_bind].
  pose proof (StringsColumn.zlen_nonneg s). pose proof (StringsColumn.zlen_nonneg t).
  rewrite (load_column ss i s), (load_column ss j t) by (done || lia). cbn [mbind outcome_bind]. rewrite (memcmp_lex s t Bs Bt). destruct (negb _); [by destruct positive|].
  destruct (Z.ltb_spec (zlen t + 1) (zlen s + 1)), (Z.ltb_spec (zlen s + 1) (zlen t + 1)); destruct positive; done || lia.
Qed.

Lemma extremes_loop_column ss k i a b lo hi :
  bounded ss -> Forall is_bytes ss -> (i + k = length ss)%nat -> ss !! a = Some lo -> ss !! b = Some hi ->
  Forall (fun s => lex lo s <= 0 /\ lex s hi <= 0) (take i ss) -> lex lo hi <= 0 ->
  exists a' b' lo' hi', extremes_loop (column_of ss) k i a b = Returns (a', b') /\ ss !! a' = Some lo' /\ ss !! b' = Some hi' /\
    Forall (fun s => lex lo' s <= 0 /\ lex s hi' <= 0) ss.
Proof.
  intros Hb Hby. revert i a b lo hi. induction k as [|k IH]; intros i a b lo hi Hi Ha Hh Hf Hle; cbn [extremes_loop].
  { exists a, b, lo, hi. split_and!; [done..|]. by rewrite take_ge in Hf by lia. }
  destruct (lookup_lt_is_Some_2 ss i ltac:(lia)) as [s Hs].
  assert (forall x, x ∈ ss -> is_bytes x) as Hin by (intros x Hx%list_elem_of_In; by apply (proj1 (Forall_forall _ _) Hby)).
  rewrite (less_column true ss i s a lo Hb Hs Ha), (less_column true ss b hi i s Hb Hh Hs); try (apply Hin; by eapply list_elem_of_lookup_2). cbn [mbind outcome_bind].
  pose proof (lex_antisym s lo) as An1. pose proof (lex_antisym s hi) as An2.
  assert (forall lo' hi', lex lo' lo <= 0 -> lex hi hi' <= 0 -> lex lo' s <= 0 -> lex s hi' <= 0 -> Forall (fun s => lex lo' s <= 0 /\ lex s hi' <= 0) (take (S i) ss)) as Hext.
  { intros lo' hi' H1 H2 H3 H4. rewrite (take_S_r _ _ _ Hs). apply Forall_app. split; [|by repeat constructor].
    eapply Forall_impl; [|exact Hf]. cbn. intros x [Hx1 Hx2]. split; [by apply (lex_trans _ lo)|by apply (lex_trans _ hi)]. }
  destruct (Z.ltb_spec (lex s lo) 0) as [H1|H1].
  - assert (lex s hi <= 0) by (eapply lex_trans; [|exact Hle]; lia).
    apply (IH (S i) i b s hi); try done; [lia|]. apply Hext; [lia|by rewrite lex_refl|by rewrite lex_refl|done].
  - destruct (Z.ltb_spec (lex hi s) 0) as [H2|H2].
    + assert (lex lo s <= 0) by lia. apply (IH (S i) a i lo s); try done; [lia|]. apply Hext; [by rewrite lex_refl|lia|done|by rewrite lex_refl].
    + apply (IH (S i) a b lo hi); try done; [lia|]. apply Hext; rewrite ?lex_refl; lia.
Qed.

Lemma getExtremes_column ss : bounded ss -> Forall is_bytes ss -> ss <> [] ->
  exists lo hi, getExtremes (column_of ss) = Returns (lo, hi) /\ lo ∈ ss /\ hi ∈ ss /\ Forall (fun s => lex lo s <= 0 /\ lex s hi <= 0) ss.
Proof.
  intros Hb Hby Hne. destruct ss as [|s l] eqn:E; [done|]. rewrite <- E in *. assert (ss !! 0%nat = Some s) as H0 by (by rewrite E). assert (0 < length ss)%nat by (rewrite E; cbn; lia).
  destruct (extremes_loop_column ss (length ss - 1) 1 0 0 s s Hb Hby ltac:(lia) H0 H0) as (a & b & lo & hi & El & Ha & Hh & Hf).
  { rewrite (take_S_r _ _ _ H0). change (take 0 ss) with (@nil (list Z)). constructor; [|constructor]. by rewrite lex_refl. }
  { by rewrite lex_refl. }
  exists lo, hi. split_and!; [|by eapply list_elem_of_lookup_2..|done]. unfold getExtremes. rewrite size_column, (proj2 (Nat.eqb_neq _ _)) by lia. rewrite El. cbn [mbind outcome_bind fst snd].
  by rewrite (getDataAt_column ss Hb a lo Ha), (getDataAt_column ss Hb b hi Hh).
Qed.

(** ** Sequences of operations *)

(** The operations of the class that make a column from a column; columns they
    take from are given by their strings. *)
Inductive operation :=
  | Insert (s : list Z)
  | InsertData (s : list Z)
  | InsertDataWithTerminatingZero (s : list Z)
  | InsertDefault
  | InsertFrom (src : list (list Z)) (n : nat)
  | InsertRangeFrom (src : list (list Z)) (start length_ : nat)
  | PopBack (n : nat)
  | CloneResized (n : nat)
  | Cut (start length_ : nat)
  | Filter (filt : list Z)
  | Permute (perm : list nat) (limit : nat)
  | Replicate (ro : list Z).

(** On columns. *)
Definition run (uninitialised : nat -> list Z) (o : operation) (c : ColumnString) : outcome ColumnString :=
  match o with
  | Insert s => mret (insert c s)
  | InsertData s => mret (insertData c s)
  | InsertDataWithTerminatingZero s => mret (insertDataWithTerminatingZero c (term s))
  | InsertDefault => insertDefault c
  | InsertFrom src n => insertFrom c (column_of src) n
  | InsertRangeFrom src start length_ => insertRangeFrom c (column_of src) (Z.of_nat start) (Z.of_nat length_)
  | PopBack n => popBack c n
  | CloneResized n => cloneResized c n
  | Cut start length_ => cut c (Z.of_nat start) (Z.of_nat length_)
  | Filter filt => filter c filt
  | Permute perm limit => permute uninitialised c perm limit
  | Replicate ro => replicate_column c ro
  end.

Definition permuted (limit n : nat) : nat := if (limit =? 0)%nat then n else Nat.min n limit.

(** On lists of strings. *)
Definition meaning (o : operation) (ss : list (list Z)) : outcome (list (list Z)) :=
  match o with
  | Insert s | InsertData s | InsertDataWithTerminatingZero s => Returns (ss ++ [s])
  | InsertDefault => Returns (ss ++ [[]])
  | InsertFrom src n => match src !! n with Some s => Returns (ss ++ [s]) | None => Throws BUFFER_OVERRUN end
  | InsertRangeFrom src start length_ =>
      if (length_ =? 0)%nat then Returns ss
      else if (start + length_ <=? length src)%nat then Returns (ss ++ take length_ (drop start src)) else Throws PARAMETER_OUT_OF_BOUND
  | PopBack n => Returns (take (length ss - n) ss)
  | CloneResized n => Returns (resize n [] ss)
  | Cut start length_ =>
      if (length_ =? 0)%nat then Returns []
      else if (start + length_ <=? length ss)%nat then Returns (take length_ (drop start ss)) else Throws PARAMETER_OUT_OF_BOUND
  | Filter filt =>
      if (length ss =? 0)%nat then Returns []
      else if (length filt =? length ss)%nat then Returns (select filt ss) else Throws SIZES_OF_COLUMNS_DOESNT_MATCH
  | Permute perm limit =>
      let k := permuted limit (length ss) in
      if (k <=? length perm)%nat then Returns (pick ss (take k perm)) else Throws SIZES_OF_COLUMNS_DOESNT_MATCH
  | Replicate ro => if (length ro =? length ss)%nat then Returns (repeat_by 0 ro ss) else Throws SIZES_OF_COLUMNS_DOESNT_MATCH
  end.

(** What the caller has to see to; everything else is checked. *)
Definition precondition (o : operation) (ss : list (list Z)) : Prop :=
  match o with
  | InsertFrom src n => bounded src /\ (n < length src)%nat
  | InsertRangeFrom src start length_ => bounded src /\ Z.of_nat (length src) < 2 ^ 64 /\ Z.of_nat (start + length_) < 2 ^ 64
  | PopBack n => ss <> [] /\ (n <= length ss)%nat
  | Cut start length_ => Z.of_nat (length ss) < 2 ^ 64 /\ Z.of_nat (start + length_) < 2 ^ 64
  | Filter filt => Forall (fun b => 0 <= b < 128) filt
  | Permute perm limit => let p := take (permuted limit (length ss)) perm in NoDup p /\ Forall (fun j => (j < length ss)%nat) p
  | Replicate ro => ascending 0 ro
  | _ => True
  end.

Fixpoint run_all (uninitialised : nat -> list Z) (os : list operation) (c : ColumnString) : outcome ColumnString :=
  match os with
  | [] => mret c
  | o :: os => c ← run uninitialised o c; run_all uninitialised os c
  end.

Fixpoint meaning_all (os : list operation) (ss : list (list Z)) : outcome (list (list Z)) :=
  match os with
  | [] => mret ss
  | o :: os => ss ← meaning o ss; meaning_all os ss
  end.

(** The preconditions along the way, and that no column has 2^64 bytes. *)
Fixpoint allowed (os : list operation) (ss : list (list Z)) : Prop :=
  match os with
  | [] => True
  | o :: os => precondition o ss /\ match meaning o ss with Returns ss' => bounded ss' /\ allowed os ss' | Throws _ => True end
  end.

Definition to_column (r : outcome (list (list Z))) : outcome ColumnString := ss ← r; mret (column_of ss).

Lemma insertRangeFrom_meaning ss src start length_ :
  precondition (InsertRangeFrom src start length_) ss -> bounded ss ->
  match meaning (InsertRangeFrom src start length_) ss with Returns ss' => bounded ss' | Throws _ => True end ->
  insertRangeFrom (column_of ss) (column_of src) (Z.of_nat start) (Z.of_nat length_) = to_column (meaning (InsertRangeFrom src start length_) ss).
Proof.
  cbn [precondition meaning]. intros (H1 & H2 & H3) Hb Hm. destruct (Nat.eqb_spec length_ 0) as [->|Hn]; [done|].
  destruct (Nat.leb_spec (start + length_) (length src)); cbn in Hm |- *; [by apply insertRangeFrom_column|by apply insertRangeFrom_throws].
Qed.

Lemma run_meaning uninitialised o ss :
  (forall k, length (uninitialised k) = k) -> bounded ss -> precondition o ss -> match meaning o ss with Returns ss' => bounded ss' | Throws _ => True end ->
  run uninitialised o (column_of ss) = to_column (meaning o ss).
Proof.
  intros Hu Hb Hp Hm. destruct o; cbn [run].
  - cbn [meaning precondition] in *. by rewrite insert_column.
  - cbn [meaning precondition] in *. by rewrite insertData_column.
  - cbn [meaning precondition] in *. by rewrite insertDataWithTerminatingZero_column.
  - cbn [meaning precondition] in *. by rewrite insertDefault_column.
  - cbn [meaning precondition] in *. destruct Hp as [Hs [s Hx]%lookup_lt_is_Some_2]. rewrite Hx in *. by rewrite (insertFrom_column _ _ _ s).
  - by apply insertRangeFrom_meaning.
  - cbn [meaning precondition] in *. destruct Hp. by rewrite popBack_column.
  - cbn [meaning precondition] in *. by rewrite cloneResized_column.
  - cbn [meaning] in *. destruct Hp as [H1 H2]. unfold cut. rewrite cloneEmpty_column. cbn [mbind outcome_bind].
    rewrite (insertRangeFrom_meaning [] ss); [done|done|done|]. cbn [meaning]. destruct (length_ =? 0)%nat; [done|]. by destruct (_ <=? _)%nat.
  - cbn [meaning] in *. destruct (Nat.eqb_spec (length ss) 0) as [->%nil_length_inv|Hne]; [done|].
    destruct (Nat.eqb_spec (length filt) (length ss)); cbn; [by apply filter_column|]. apply filter_throws; [done|]. by intros ->.
  - cbn [meaning precondition] in *. destruct Hp as [H1 H2]. destruct (Nat.leb_spec (permuted limit (length ss)) (length perm)); cbn; [by apply permute_column|by apply permute_throws].
  - cbn [meaning precondition] in *. destruct (Nat.eqb_spec (length ro) (length ss)); cbn; [by apply replicate_column_spec|by apply replicate_column_throws].
Qed.

(** ** Properties *)

(** C10: [ColumnString] is a list of strings.  Take a sequence of operations that
    the caller may call: the row of [insertFrom] is there, ranges end below 2^64,
    [popBack] takes no more rows than there are, of a column with rows, the bytes of a filter are below
    128, the used part of a permutation has rows of the column without
    repetition, the offsets of [replicate] ascend, and no column comes to 2^64
    bytes.  Carried out on the column of a list it gives the column of the list that the operations on
    lists give, or throws what they throw; in particular no operation reads or
    writes outside of the arrays. *)
Theorem operations_refine uninitialised os ss :
  (forall k, length (uninitialised k) = k) -> bounded ss -> allowed os ss ->
  run_all uninitialised os (column_of ss) = to_column (meaning_all os ss).
Proof.
  intros Hu. revert ss. induction os as [|o os IH]; intros ss Hb Ha; [done|]. cbn [run_all meaning_all allowed] in *. destruct Ha as [Hp Ha].
  rewrite run_meaning by (try done; by destruct (meaning o ss); [apply Ha|]). destruct (meaning o ss) as [ss'|e]; [|done]. cbn [to_column mbind outcome_bind]. by apply IH; apply Ha.
Qed.

(** [scatter] distributes the rows.  Column [j] gets, in their order, the
    strings whose selector is [j]. *)
Theorem scatter_splits ss n selector :
  bounded ss -> length selector = length ss -> Forall (fun j => (j < n)%nat) selector ->
  scatter (column_of ss) n selector = Returns (map (fun j => column_of (chosen j selector ss)) (seq 0 n)).
Proof. apply scatter_column. Qed.

(** A value goes through the arena unchanged.  What
    [serializeValueIntoArena] writes for a row is read back by
    [deserializeAndInsertFromArena], whatever follows in memory, and nothing
    more is consumed. *)
Theorem arena_roundtrip ss i s dst rest :
  bounded ss -> ss !! i = Some s -> bounded (dst ++ [s]) ->
  exists bytes, serializeValueIntoArena (column_of ss) i = Returns bytes /\
    deserializeAndInsertFromArena (column_of dst) (bytes ++ rest) = Returns (column_of (dst ++ [s]), rest).
Proof. intros Hb Hs Hd. eexists. split; [by apply serialize_column|]. by apply deserialize_column. Qed.

(** [compareAt] is the lexicographic order of the strings.  It is zero for
    equal strings only, changes its sign when the arguments are exchanged, and
    is transitive, also for strings that have zeros inside. *)
Theorem compareAt_orders ss i s tt_ j t uu k u :
  bounded ss -> bounded tt_ -> bounded uu -> ss !! i = Some s -> tt_ !! j = Some t -> uu !! k = Some u -> is_bytes s -> is_bytes t -> is_bytes u ->
  exists a b c, compareAt (column_of ss) i (column_of tt_) j = Returns a /\ compareAt (column_of tt_) j (column_of uu) k = Returns b /\
    compareAt (column_of ss) i (column_of uu) k = Returns c /\ a = lex s t /\
    (a = 0 <-> s = t) /\ compareAt (column_of tt_) j (column_of ss) i = Returns (- a) /\ (a <= 0 -> b <= 0 -> c <= 0).
Proof.
  intros B1 B2 B3 Hs Ht Hu Ys Yt Yu. exists (lex s t), (lex t u), (lex s u).
  rewrite (compareAt_column ss i s tt_ j t), (compareAt_column tt_ j t uu k u), (compareAt_column ss i s uu k u), (compareAt_column tt_ j t ss i s), (lex_antisym s t) by done.
  split_and!; try done; [split; [apply lex_eq|intros ->; apply lex_refl]|apply lex_trans].
Qed.

(** [getExtremes] gives the least and the greatest string of the column. *)
Theorem getExtremes_extremal ss :
  bounded ss -> Forall is_bytes ss -> ss <> [] ->
  exists lo hi, getExtremes (column_of ss) = Returns (lo, hi) /\ lo ∈ ss /\ hi ∈ ss /\ Forall (fun s => lex lo s <= 0 /\ lex s hi <= 0) ss.
Proof. apply getExtremes_column. Qed.

(** ** Witnesses *)

Definition demo_strings : list (list Z) := [[97; 98]; []; [97; 0]; [97]].
Definition demo_operations : list operation :=
  [InsertData [98]; InsertFrom demo_strings 1; Permute [3; 0; 5]%nat 3; Filter [1; 0; 1]; InsertRangeFrom demo_strings 1 2; Replicate [1; 3; 3; 4]; PopBack 1; CloneResized 5].

Lemma demo_bounded : bounded demo_strings.
Proof. unfold bounded. vm_compute. done. Qed.

Lemma operations_refine_witness :
  run_all (fun k => replicate k 7) demo_operations (column_of demo_strings) = Returns (column_of [[97]; []; []; []; []]).
Proof.
  refine (operations_refine (fun k => replicate k 7) demo_operations demo_strings (fun k => length_replicate k 7) demo_bounded _).
  unfold demo_operations. cbn [allowed]. split; [exact I|]. apply (bool_decide_unpack _). vm_compute. exact I.
Defined.

Lemma scatter_splits_witness : scatter (column_of demo_strings) 2 [1; 0; 1; 1]%nat = Returns [column_of [[]]; column_of [[97; 98]; [97; 0]; [97]]].
Proof. refine (scatter_splits demo_strings 2 [1; 0; 1; 1]%nat demo_bounded eq_refl _). repeat constructor; lia. Defined.

Lemma arena_roundtrip_witness :
  exists bytes, serializeValueIntoArena (column_of demo_strings) 2 = Returns bytes /\
    deserializeAndInsertFromArena (column_of []) (bytes ++ [5]) = Returns (column_of [[97; 0]], [5]).
Proof. refine (arena_roundtrip demo_strings 2 [97; 0] [] [5] demo_bounded eq_refl _). vm_compute. done. Defined.

Lemma compareAt_orders_witness :
  exists a b c, compareAt (column_of demo_strings) 3 (column_of demo_strings) 2 = Returns a /\ compareAt (column_of demo_strings) 2 (column_of demo_strings) 0 = Returns b /\
    compareAt (column_of demo_strings) 3 (column_of demo_strings) 0 = Returns c /\ a = lex [97] [97; 0] /\
    (a = 0 <-> [97] = [97; 0]) /\ compareAt (column_of demo_strings) 2 (column_of demo_strings) 3 = Returns (- a) /\ (a <= 0 -> b <= 0 -> c <= 0).
Proof.
  refine (compareAt_orders demo_strings 3 [97] demo_strings 2 [97; 0] demo_strings 0 [97; 98] demo_bounded demo_bounded demo_bounded eq_refl eq_refl eq_refl _ _ _);
    repeat constructor; lia.
Defined.

Lemma getExtremes_extremal_witness :
  exists lo hi, getExtremes (column_of demo_strings) = Returns (lo, hi) /\ lo ∈ demo_strings /\ hi ∈ demo_strings /\ Forall (fun s => lex lo s <= 0 /\ lex s hi <= 0) demo_strings.
Proof. refine (getExtremes_extremal demo_strings demo_bounded _ _); [repeat constructor; lia|done]. Defined.
