(* ===== verification/ColumnVector.v ===== *)
(** * Columns of numbers on the host

    [ColumnVector<T>] (dbms/src/Columns/ColumnVector.h and .cpp) for the
    unsigned integer types: an array of values of [w] bytes.

    The specification is the list of the values.  Shown: filtering, with its
    vector code, permuting, replicating and inserting are the operations on
    lists; a value goes through the arena unchanged.  [cloneResized] to a
    larger size clears bytes where it should clear values: with one byte per
    value the new values are zero, with more they are not. *)

From stdpp Require Import base list option numbers.
From Stdlib Require Import ZArith Lia.
From S2P Require Import Prelude IOMonad.
From S2P Require StringsColumn.
Import StringsColumn (zlen).
From S2P Require Import ColumnsCommon.
From S2P Require ColumnString.
Import ColumnString (ascending, permuted).

#[local] Open Scope Z_scope.
#[local] Open Scope word_scope.

(** The member [data] of a column; [w] is [sizeof(T)]. *)
Definition ColumnVector : Type := list Z.

Section Vector.
Context (w : nat).

(** Arrays as memory. *)
Definition to_bytes (data : ColumnVector) : list Z := concat (map (le_bytes w) data).

Fixpoint of_bytes (n : nat) (bytes : list Z) : ColumnVector :=
  match n with
  | O => []
  | S k => le_value (take w bytes) :: of_bytes k (drop w bytes)
  end.

Definition insert (data : ColumnVector) (value : Z) : ColumnVector := data ++ [value].

Definition insertFrom (data src : ColumnVector) (n : nat) : outcome ColumnVector :=
  x ← cell src n;
  mret (data ++ [x]).

(** [insertData(pos, length)] takes one value at [pos]. *)
Definition insertData (data : ColumnVector) (pos : list Z) : outcome ColumnVector :=
  bytes ← load pos 0 (Z.of_nat w);
  mret (data ++ [le_value bytes]).

Definition insertDefault (data : ColumnVector) : ColumnVector := data ++ [0].

Definition popBack (data : ColumnVector) (n : nat) : outcome ColumnVector :=
  if (length data <? n)%nat then Throws BUFFER_OVERRUN else mret (take (length data - n) data).

Definition serializeValueIntoArena (data : ColumnVector) (n : nat) : outcome (list Z) :=
  x ← cell data n;
  mret (le_bytes w x).

Definition deserializeAndInsertFromArena (data : ColumnVector) (pos : list Z) : outcome (ColumnVector * list Z) :=
  bytes ← load pos 0 (Z.of_nat w);
  mret (data ++ [le_value bytes], drop w pos).

(** [CompareHelper<T>::compare] of integers. *)
Definition compareAt (data : ColumnVector) (n : nat) (rhs : ColumnVector) (m : nat) : outcome Z :=
  a ← cell data n;
  b ← cell rhs m;
  mret (if b <? a then 1 else if a <? b then -1 else 0).

(** [data.resize(size)] does not initialise what it adds: [uninitialised k] is
    what [k] fresh bytes hold.  [memset] is given a number of values and clears
    that many bytes. *)
Definition cloneResized (uninitialised : nat -> list Z) (data : ColumnVector) (size : nat) : ColumnVector :=
  if (0 <? size)%nat then
    let count := Nat.min (length data) size in
    let fresh := uninitialised (w * (size - count))%nat in
    let fresh := if (count <? size)%nat then replicate (size - count) 0 ++ drop (size - count) fresh else fresh in
    of_bytes size (to_bytes (take count data) ++ fresh)
  else [].

Definition insertRangeFrom (data src : ColumnVector) (start length_ : Z) : outcome ColumnVector :=
  if zlen src <? (start +64 length_) then Throws PARAMETER_OUT_OF_BOUND
  else
    values ← load src start length_;
    mret (data ++ values).

(** The loops of [filter] over single values. *)
Fixpoint filter_values (filt : list Z) (data res : ColumnVector) : outcome ColumnVector :=
  match filt, data with
  | [], _ => mret res
  | f :: filt, x :: data => filter_values filt data (if f =? 0 then res else res ++ [x])
  | _ :: _, [] => Throws BUFFER_OVERRUN
  end.

Fixpoint filter_chunks (chunks : nat) (filt : list Z) (data res : ColumnVector) : outcome ColumnVector :=
  match chunks with
  | O => mret res
  | S k =>
      let mask := mask16 filt in
      res ← (if mask =? 0 then mret res
             else if mask =? 0xffff then values ← load data 0 16; mret (res ++ values)
             else filter_values (take 16 filt) data res);
      filter_chunks k (drop 16 filt) (drop 16 data) res
  end.

Definition filter (data : ColumnVector) (filt : list Z) : outcome ColumnVector :=
  let size := length data in
  if negb (size =? length filt)%nat then Throws SIZES_OF_COLUMNS_DOESNT_MATCH
  else
    let chunks := (size / 16)%nat in
    res ← filter_chunks chunks filt data [];
    filter_values (drop (chunks * 16) filt) (drop (chunks * 16) data) res.

Fixpoint permute_loop (data : ColumnVector) (perm : list nat) (res : ColumnVector) : outcome ColumnVector :=
  match perm with
  | [] => mret res
  | j :: perm =>
      x ← cell data j;
      permute_loop data perm (res ++ [x])
  end.

Definition permute (data : ColumnVector) (perm : list nat) (limit : nat) : outcome ColumnVector :=
  let limit := if (limit =? 0)%nat then length data else Nat.min (length data) limit in
  if (length perm <? limit)%nat then Throws SIZES_OF_COLUMNS_DOESNT_MATCH
  else permute_loop data (take limit perm) [].

Fixpoint replicate_loop (data : ColumnVector) (offsets : list Z) (prev_offset : Z) (res : ColumnVector) : ColumnVector :=
  match data, offsets with
  | x :: data, o :: offsets =>
      let size_to_replicate := o -64 prev_offset in
      replicate_loop data offsets o (res ++ replicate (Z.to_nat size_to_replicate) x)
  | _, _ => res
  end.

Definition replicate_column (data : ColumnVector) (offsets : list Z) : outcome ColumnVector :=
  if negb (length data =? length offsets)%nat then Throws SIZES_OF_COLUMNS_DOESNT_MATCH
  else if (length data =? 0)%nat then mret []
  else mret (replicate_loop data offsets 0 []).

(** Integers are never NaN. *)
Fixpoint extremes_loop (data : ColumnVector) (has_value : bool) (cur_min cur_max : Z) : Z * Z :=
  match data with
  | [] => (cur_min, cur_max)
  | x :: data =>
      if negb has_value then extremes_loop data true x x
      else if x <? cur_min then extremes_loop data true x cur_max
      else if cur_max <? x then extremes_loop data true cur_min x
      else extremes_loop data true cur_min cur_max
  end.

Definition getExtremes (data : ColumnVector) : Z * Z :=
  if (length data =? 0)%nat then (0, 0) else extremes_loop data false 0 0.
End Vector.

(** ** Filtering *)

Lemma filter_values_select filt data res k :
  length filt = length data -> filter_values filt (data ++ k) res = Returns (res ++ select filt data).
Proof.
  revert data res. induction filt as [|f filt IH]; intros [|x data] res Hl; cbn in Hl; try lia; cbn [filter_values select app]; [by rewrite app_nil_r|].
  rewrite IH by lia. destruct (f =? 0); [done|]. by rewrite <- app_assoc.
Qed.

Lemma filter_chunks_select k filt data res :
  length filt = length data -> (k * 16 <= length data)%nat -> Forall (fun b => 0 <= b < 128) filt ->
  filter_chunks k filt data res = Returns (res ++ select (take (k * 16) filt) (take (k * 16) data)).
Proof.
  revert filt data res. induction k as [|k IH]; intros filt data res Hl Hk Hb; cbn [filter_chunks]; [by rewrite app_nil_r|]. cbn [Nat.mul] in Hk.
  assert ((if mask16 filt =? 0 then mret res else if mask16 filt =? 0xffff then values ← load data 0 16; mret (res ++ values) else filter_values (take 16 filt) data res) =
    Returns (res ++ select (take 16 filt) (take 16 data))) as ->.
  { destruct (Z.eqb_spec (mask16 filt) 0) as [E|_]; [|destruct (Z.eqb_spec (mask16 filt) 0xffff) as [E|_]].
    - apply mask16_zero in E. rewrite select_none; [by rewrite app_nil_r|].
      eapply Forall_impl; [|apply Forall_and; [by apply Forall_take|exact E]]. cbn. intros b [Hb' Eb]. rewrite positive_byte in Eb by done. destruct (Z.eqb_spec b 0); done.
    - apply mask16_full in E; [|lia]. rewrite select_all; [|rewrite !length_take; lia|].
      + rewrite <- (take_drop 16 data) at 1. pose proof (load_slice [] (take 16 data) (drop 16 data) 0 16 eq_refl) as Hld. rewrite app_nil_l in Hld.
        rewrite Hld; [done|]. unfold zlen. rewrite length_take. lia.
      + eapply Forall_impl; [|exact E]. cbn. intros b Eb ->. done.
    - rewrite <- (take_drop 16 data) at 1. apply filter_values_select. rewrite !length_take. lia. }
  cbn [mbind outcome_bind]. rewrite IH by (rewrite ?length_drop; try apply Forall_drop; try done; lia). rewrite <- app_assoc. do 2 f_equal.
  pose proof (select_step filt data 16 (k * 16) Hl ltac:(lia)) as Hst. cbn [Nat.mul Nat.add] in *. by rewrite Hst.
Qed.

(** ** Bytes *)

Lemma of_to_bytes w data rest : Forall (fits (8 * Z.of_nat w)) data -> of_bytes w (length data) (to_bytes w data ++ rest) = data.
Proof.
  unfold to_bytes. induction 1 as [|x data Hx _ IH]; [done|]. cbn [length of_bytes map concat]. rewrite <- app_assoc.
  rewrite take_app_length', drop_app_length' by (symmetry; apply length_le_bytes). rewrite IH. f_equal. apply le_value_bytes.
  unfold fits in Hx. replace (256 ^ Z.of_nat w) with (2 ^ (8 * Z.of_nat w)); [lia|]. rewrite Z.pow_mul_r by lia. done.
Qed.

Lemma of_bytes_app w n m l k : length l = (n * w)%nat -> of_bytes w (n + m) (l ++ k) = of_bytes w n l ++ of_bytes w m k.
Proof.
  revert l. induction n as [|n IH]; intros l Hl; [cbn in *; by apply nil_length_inv in Hl as ->|]. cbn [Nat.add of_bytes app]. cbn in Hl.
  rewrite take_app_le, drop_app_le by lia. rewrite IH by (rewrite length_drop; lia). done.
Qed.

Lemma length_to_bytes w data : length (to_bytes w data) = (length data * w)%nat.
Proof. unfold to_bytes. induction data as [|x data IH]; [done|]. cbn. by rewrite length_app, length_le_bytes, IH. Qed.

(** ** Properties *)

(** C39: [filter] keeps the values whose byte is not zero.  The sixteen values
    at a time and the single ones together give the same as a scan of the
    filter, for filters with bytes below 128; a filter of another size is
    refused. *)
Theorem filter_selects data filt :
  Forall (fun b => 0 <= b < 128) filt ->
  filter data filt = if decide (length filt = length data) then Returns (select filt data) else Throws SIZES_OF_COLUMNS_DOESNT_MATCH.
Proof.
  intros Hb. unfold filter. destruct (decide (length filt = length data)) as [Hl|Hl]; [|by rewrite (proj2 (Nat.eqb_neq _ _)) by done].
  rewrite (proj2 (Nat.eqb_eq _ _)) by done. cbn [negb]. set (k := (length data / 16)%nat).
  assert (k * 16 <= length data)%nat by (unfold k; rewrite Nat.mul_comm; apply Nat.Div0.mul_div_le).
  rewrite filter_chunks_select by done. cbn [mbind outcome_bind app]. rewrite <- (app_nil_r (drop (k * 16) data)), filter_values_select by (rewrite !length_drop; lia).
  rewrite <- select_app by (rewrite !length_take; lia). by rewrite !take_drop.
Qed.

Lemma permute_picks data perm limit :
  let k := permuted limit (length data) in
  (k <= length perm)%nat -> Forall (fun j => (j < length data)%nat) (take k perm) -> permute data perm limit = Returns (omap (fun j => data !! j) (take k perm)).
Proof.
  cbn zeta. unfold permute. fold (permuted limit (length data)). intros Hk Hp. rewrite (proj2 (Nat.ltb_ge _ _)) by lia.
  enough (forall res, permute_loop data (take (permuted limit (length data)) perm) res = Returns (res ++ omap (fun j => data !! j) (take (permuted limit (length data)) perm))) as H by exact (H []).
  induction Hp as [|j p Hj _ IH]; intros res; cbn [permute_loop]; [by rewrite app_nil_r|]. destruct (lookup_lt_is_Some_2 _ _ Hj) as [x Hx].
  rewrite (cell_lookup _ _ _ Hx). cbn [mbind outcome_bind]. rewrite IH. cbn. by rewrite Hx, <- app_assoc.
Qed.

Lemma replicate_repeats data offsets :
  length offsets = length data -> ascending 0 offsets ->
  exists counts, length counts = length data /\ replicate_column data offsets = Returns (concat (zip_with (fun n x => replicate n x) counts data)) /\
    forall i, (i < length data)%nat -> rd offsets (Z.of_nat i) = zsum (map Z.of_nat (take (S i) counts)).
Proof.
  intros Hl Ha.
  enough (forall prev res, 0 <= prev -> ascending prev offsets -> exists counts, length counts = length data /\
    replicate_loop data offsets prev res = res ++ concat (zip_with (fun n x => replicate n x) counts data) /\
    forall i, (i < length data)%nat -> rd offsets (Z.of_nat i) = prev + zsum (map Z.of_nat (take (S i) counts))) as H.
  { destruct (H 0 [] ltac:(lia) Ha) as (cs & L & E & R). exists cs. split; [done|]. split; [|done]. unfold replicate_column.
    rewrite Hl, Nat.eqb_refl. cbn [negb]. destruct (Nat.eqb_spec (length data) 0) as [E0%nil_length_inv|_]; [|by rewrite E]. subst data. by destruct cs. }
  clear Ha. revert offsets Hl. induction data as [|x data IH]; intros [|o offsets] Hl prev res Hp Ha; cbn in Hl; try lia.
  { exists []. split; [done|]. split; [by rewrite app_nil_r|]. cbn. lia. }
  cbn [ascending] in Ha. destruct Ha as [Ho Ha]. cbn [replicate_loop]. rewrite wrap_small by (unfold fits; lia).
  destruct (IH offsets ltac:(lia) o (res ++ replicate (Z.to_nat (o - prev)) x) ltac:(lia) Ha) as (cs & L & E & R). exists (Z.to_nat (o - prev) :: cs). split; [cbn; lia|]. split.
  - rewrite E. cbn. by rewrite <- app_assoc.
  - intros [|i] Hi; cbn [take map zsum]; [change (rd (o :: offsets) (Z.of_nat 0)) with o; destruct cs; cbn [take map zsum]; lia|]. cbn in Hi. specialize (R i ltac:(lia)). cbn [take] in R. unfold rd in *. rewrite Nat2Z.id in *. cbn [nth]. rewrite R. lia.
Qed.

(** [cloneResized] to a smaller size cuts; with one byte per value, to a larger
    size it appends zeros. *)
Lemma cloneResized_cuts w uninitialised data size :
  Forall (fits (8 * Z.of_nat w)) data -> (size <= length data)%nat -> cloneResized w uninitialised data size = take size data.
Proof.
  intros Hf Hs. unfold cloneResized. destruct (Nat.ltb_spec 0 size); [|by assert (size = 0%nat) as -> by lia]. rewrite Nat.min_r by lia.
  pose proof (of_to_bytes w (take size data) (if (size <? size)%nat then replicate (size - size) 0 ++ drop (size - size) (uninitialised (w * (size - size))%nat) else uninitialised (w * (size - size))%nat)) as H'.
  rewrite length_take_le in H' by lia. apply H'. by apply Forall_take.
Qed.

Lemma cloneResized_bytes uninitialised data size :
  Forall (fits 8) data -> (forall k, length (uninitialised k) = k) -> (length data < size)%nat -> cloneResized 1 uninitialised data size = data ++ replicate (size - length data) 0.
Proof.
  intros Hf Hu Hs. unfold cloneResized. rewrite (proj2 (Nat.ltb_lt 0 _)) by lia. rewrite Nat.min_l, take_ge by lia. rewrite (proj2 (Nat.ltb_lt _ _)) by done.
  rewrite (drop_ge (uninitialised _)) by (rewrite Hu; lia). rewrite app_nil_r. replace size with (length data + (size - length data))%nat at 1 by lia.
  rewrite of_bytes_app by apply length_to_bytes. rewrite <- (app_nil_r (to_bytes 1 data)), of_to_bytes by done. f_equal.
  generalize (size - length data)%nat. intros n. induction n as [|n IH]; [done|]. cbn [of_bytes replicate]. change (drop 1 (0 :: replicate n 0)) with (replicate n 0). rewrite IH. by destruct n.
Qed.

(** [cloneResized] does not clear what it adds.  A column of 64-bit values
    grown by eight values has only the first of them zero; the others are what
    the memory held before. *)
Theorem cloneResized_keeps_garbage :
  cloneResized 8 (fun k => replicate k 7) [] 8 = 0 :: replicate 7 (le_value (replicate 8 7)).
Proof. reflexivity. Qed.

Lemma filter_selects_witness : filter [5; 6; 7] [1; 0; 1] = Returns [5; 7].
Proof. refine (filter_selects [5; 6; 7] [1; 0; 1] _). repeat constructor; lia. Defined.
