(* ===== verification/DataTypeBulk.v ===== *)
(** * Columns as bytes

    The binary form of columns: [serializeBinaryBulk] and
    [deserializeBinaryBulk] of strings (dbms/src/DataTypes/DataTypeString.cpp)
    and of numbers (dbms/src/DataTypes/DataTypeNumberBase.cpp).  Strings are read
    into a [PODArray]; when the working buffer and the storage reach far enough
    they are copied in blocks of 16 to 64 bytes that go over the end of the
    string.

    Shown: what is written is read back, from every buffer and with every hint
    about the sizes; the copy in blocks reads and writes nothing outside of the
    working buffer and the storage. *)

From stdpp Require Import base list option numbers.
From Stdlib Require Import ZArith Lia.
From S2P Require Import Prelude IOMonad ReadBuffers BufferSources WriteBuffers VarInt.
From S2P Require StringsColumn.
Import StringsColumn (zlen, zlen_app, zlen_nonneg, ends, row_start).
From S2P Require Import ColumnsCommon.
From S2P Require ColumnString ColumnVector PODArray.
Import ColumnString (ColumnString, CString, offsets, chars, column_of, bounded, term).
Import ColumnVector (ColumnVector).
Import PODArray (PODArray, storage, c_end, c_end_of_storage, contents, empty_array).

#[local] Open Scope Z_scope.
#[local] Open Scope word_scope.

(** ** Writing *)

Section Writing.
Context {D : Type} `{WriteBuffer D}.

(** The loop over rows behind the first, from [i] on. *)
Fixpoint string_rows (c : ColumnString) (i n : nat) : M (wbuf D) unit :=
  match n with
  | O => mret tt
  | S n =>
      o ← lift (cell (offsets c) i);
      prev ← lift (cell (offsets c) (i - 1));
      let str_size := o -64 prev -64 1 in
      _ ← writeVarUInt str_size;
      bytes ← lift (load (chars c) prev str_size);
      _ ← write bytes;
      string_rows c (S i) n
  end.

Definition string_serializeBinaryBulk (c : ColumnString) (offset limit : Z) : M (wbuf D) unit :=
  let size := Z.of_nat (ColumnString.size c) in
  if size =? 0 then mret tt
  else
    let end_ := if negb (limit =? 0) && (offset +64 limit <? size) then offset +64 limit else size in
    if offset =? 0 then
      o ← lift (cell (offsets c) 0);
      let str_size := o -64 1 in
      _ ← writeVarUInt str_size;
      bytes ← lift (load (chars c) 0 str_size);
      _ ← write bytes;
      string_rows c 1 (Z.to_nat (end_ - 1))
    else string_rows c (Z.to_nat offset) (Z.to_nat (end_ - offset)).

(** [w] is [sizeof(T)]. *)
Definition number_serializeBinaryBulk (w : nat) (x : ColumnVector) (offset limit : Z) : M (wbuf D) unit :=
  let size := zlen x in
  let limit := if (limit =? 0) || (size <? offset +64 limit) then size -64 offset else limit in
  values ← lift (load x offset limit);
  write (ColumnVector.to_bytes w values).
End Writing.

(** ** Reading *)

(** [readBig], which derived classes may override. *)
Class BigReader (D : Type) := readBig : nat -> M (rbuf D) (list Z).

(** The base class. *)
Definition base_readBig {D : Type} `{ReadBuffer D} : BigReader D := fun n => read n.

(** [fresh] gives the contents of new memory of an array. *)
Section Reading.
Context {D : Type} `{ReadBuffer D} (fresh : Z -> list Z).

(** [UNROLL_TIMES] registers at a time, [n] times. *)
Fixpoint sse_copy (UNROLL_TIMES n : nat) (mem : list Z) (src dst : Z) (data : PODArray) : outcome PODArray :=
  match n with
  | O => mret data
  | S n =>
      let step := 16 * Z.of_nat UNROLL_TIMES in
      bytes ← load mem src step;
      data ← PODArray.store data dst bytes;
      sse_copy UNROLL_TIMES n mem (src + step) (dst + step) data
  end.

(** The bytes of a string that ends in front of [offset - 1]. *)
Definition read_bytes (UNROLL_TIMES : nat) (data : PODArray) (offset size : Z) : M (rbuf D) PODArray :=
  position ← get rb_pos;
  buffer_end ← get rb_end;
  mem ← get rb_mem;
  let step := 16 * Z.of_nat UNROLL_TIMES in
  if (offset +64 step <=? PODArray.allocated_bytes 1 15 data) && (Z.of_nat position + size + step <=? Z.of_nat buffer_end) then
    data ← lift (sse_copy UNROLL_TIMES (Z.to_nat ((size + (step - 1)) / 16 / Z.of_nat UNROLL_TIMES)) mem (Z.of_nat position) (offset -64 size -64 1) data);
    _ ← advance (Z.to_nat size);
    mret data
  else
    bytes ← readStrict (Z.to_nat size);
    lift (PODArray.store data (offset -64 size -64 1) bytes).

Fixpoint deserializeBinarySSE2 (UNROLL_TIMES limit : nat) (offset : Z) (data : PODArray) (os : list Z) : M (rbuf D) (PODArray * list Z) :=
  match limit with
  | O => mret (data, os)
  | S limit =>
      e ← eof;
      if e : bool then mret (data, os)
      else
        size ← readVarUInt;
        let offset := offset +64 (size +64 1) in
        let os := os ++ [offset] in
        let data := PODArray.resize 1 15 fresh data offset in
        data ← (if negb (size =? 0) then read_bytes UNROLL_TIMES data offset size else mret data);
        data ← lift (PODArray.store data (offset -64 1) [0]);
        deserializeBinarySSE2 UNROLL_TIMES limit offset data os
  end.

(** What follows from the average size of a string, a floating point number:
    the size to reserve and the range it is in. *)
Inductive avg_chars := Small | From32 | From48 | From64.
Record size_hint := Hint { chars_to_reserve : Z; avg_chars_size : avg_chars }.

Definition string_deserializeBinaryBulk (hint : size_hint) (data : PODArray) (os : list Z) (limit : nat) : M (rbuf D) (PODArray * list Z) :=
  let data := PODArray.reserve 1 15 fresh data (PODArray.size 1 data +64 chars_to_reserve hint) in
  let offset := PODArray.size 1 data in
  match avg_chars_size hint with
  | From64 => deserializeBinarySSE2 4 limit offset data os
  | From48 => deserializeBinarySSE2 3 limit offset data os
  | From32 => deserializeBinarySSE2 2 limit offset data os
  | Small => deserializeBinarySSE2 1 limit offset data os
  end.

(** The numbers that have been read as a whole. *)
Definition number_deserializeBinaryBulk `{BigReader D} (w : nat) (x : ColumnVector) (limit : nat) : M (rbuf D) ColumnVector :=
  bytes ← readBig (w * limit);
  mret (x ++ ColumnVector.of_bytes w (length bytes / w) bytes).
End Reading.

(** ** What is written *)

Definition encode (s : list Z) : list Z := writeVarUInt_mem (zlen s) ++ s.

Section Written.
Context {D : Type} `{L : WriteBufferLaws D}.

Lemma writes_lift {A B} (r : outcome A) a (k : A -> M (wbuf D) B) c w : r = Returns a -> writes (k a) c w -> writes (lift r ≫= k) c w.
Proof. intros -> Hk b d t St. exact (Hk b d t St). Qed.

Lemma writes_row ss i s {B} (k : unit -> M (wbuf D) B) c w :
  bounded ss -> ss !! i = Some s -> writes (k tt) c w ->
  writes (_ ← writeVarUInt (zlen s); bytes ← lift (load (chars (column_of ss)) (row_start (map term ss) i) (zlen s)); _ ← write bytes; k tt) c (encode s ++ w).
Proof.
  intros Hb Hi Hk. unfold encode. rewrite <- app_assoc. eapply writes_bind; [apply writeVarUInt_spec|]. pose proof (zlen_nonneg s).
  eapply writes_lift; [apply (ColumnString.load_column ss i s (zlen s) Hi); lia|]. eapply writes_bind; [|exact Hk].
  unfold zlen, term. rewrite Nat2Z.id, take_app_length. apply writes_write.
Qed.

Lemma row_start_bounds ss i s : bounded ss -> ss !! i = Some s ->
  row_start (map term ss) (S i) = row_start (map term ss) i + zlen s + 1 /\ 0 <= row_start (map term ss) i /\ row_start (map term ss) (S i) < 2 ^ 64 /\ 0 <= zlen s.
Proof.
  intros Hb Hi. pose proof (ColumnString.row_step ss i s Hi). pose proof (ColumnString.row_start_range ss i). pose proof (ColumnString.row_start_range ss (S i)).
  pose proof (zlen_nonneg s). unfold bounded in Hb. lia.
Qed.

Lemma writes_rows ss i n :
  bounded ss -> (1 <= i)%nat -> (i + n <= length ss)%nat -> writes (D := D) (string_rows (column_of ss) i n) tt (concat (map encode (take n (drop i ss)))).
Proof.
  intros Hb. revert i. induction n as [|n IH]; intros i Hi Hn; [apply writes_ret|]. cbn [string_rows].
  destruct (lookup_lt_is_Some_2 ss i ltac:(lia)) as [s Hs]. destruct (row_start_bounds ss i s Hb Hs) as (Es & R0 & R1 & R2).
  eapply writes_lift; [apply (ColumnString.cell_column ss i); lia|]. eapply writes_lift; [apply (ColumnString.cell_column ss (i - 1)); lia|].
  replace (S (i - 1)) with i by lia. cbv zeta. rewrite wrap_sub_l. replace (u64 _) with (zlen s) by (rewrite wrap_small; unfold fits; lia).
  rewrite (drop_S _ s) by done. cbn [take map concat]. apply (writes_row ss i s (fun _ => string_rows (column_of ss) (S i) n)); [done|done|]. apply IH; lia.
Qed.

(** [offset] and [limit] choose a range of the rows; without limit it goes to
    the end. *)
Lemma writes_string_bulk ss (offset limit : nat) :
  bounded ss -> (offset <= length ss)%nat -> Z.of_nat (offset + limit) < 2 ^ 64 ->
  writes (D := D) (string_serializeBinaryBulk (column_of ss) (Z.of_nat offset) (Z.of_nat limit)) tt
    (concat (map encode (if (limit =? 0)%nat then drop offset ss else take limit (drop offset ss)))).
Proof.
  intros Hb Ho Hl. unfold string_serializeBinaryBulk. rewrite ColumnString.size_column. rewrite (wrap_small 64) by (unfold fits; lia).
  destruct (Z.eqb_spec (Z.of_nat (length ss)) 0) as [E|E].
  { assert (ss = []) as -> by (apply nil_length_inv; lia). rewrite drop_nil, take_nil. destruct (limit =? 0)%nat; apply writes_ret. }
  set (n := if negb (Z.of_nat limit =? 0) && (Z.of_nat offset + Z.of_nat limit <? Z.of_nat (length ss)) then Z.of_nat offset + Z.of_nat limit else Z.of_nat (length ss)).
  assert (exists m, n = Z.of_nat (offset + m) /\ (offset + m <= length ss)%nat /\ (if (limit =? 0)%nat then drop offset ss else take limit (drop offset ss)) = take m (drop offset ss))
    as (m & En & Hm & ->).
  { unfold n. destruct (Nat.eqb_spec limit 0) as [->|Hl0].
    - change (Z.of_nat 0 =? 0) with true. cbn [negb andb]. exists (length ss - offset)%nat. split; [lia|]. split; [lia|]. rewrite take_ge; [done|]. rewrite length_drop. lia.
    - destruct (Z.eqb_spec (Z.of_nat limit) 0); [lia|]. cbn [negb andb]. destruct (Z.ltb_spec (Z.of_nat offset + Z.of_nat limit) (Z.of_nat (length ss))); [exists limit; split_and!; [lia|lia|done]|].
      exists (length ss - offset)%nat. split; [lia|]. split; [lia|]. rewrite !take_ge; [done|rewrite length_drop; lia..]. }
  cbv zeta. rewrite En. destruct (Z.eqb_spec (Z.of_nat offset) 0) as [E0|E0].
  - assert (offset = 0%nat) as -> by lia. destruct ss as [|s ss]; [done|]. pose proof (row_start_bounds (s :: ss) 0 s Hb eq_refl) as (Es & R0 & R1 & R2).
    eapply writes_lift; [apply (ColumnString.cell_column (s :: ss) 0); cbn; lia|]. change (row_start (map term (s :: ss)) 0) with 0 in *.
    replace (_ -64 1) with (zlen s) by (rewrite wrap_small; unfold fits; lia).
    destruct m as [|m].
    + exfalso. unfold n in En. destruct (Z.eqb_spec (Z.of_nat limit) 0); cbn [negb andb] in En; [cbn in En; lia|]. destruct (_ <? _) in En; cbn in En; lia.
    + cbn [drop take map concat]. replace (Z.to_nat _) with m by lia.
      apply (writes_row (s :: ss) 0 s (fun _ => string_rows (column_of (s :: ss)) 1 m)); [done|done|].
      apply (writes_rows (s :: ss) 1 m); [done|lia|cbn in *; lia].
  - rewrite Nat2Z.id. replace (Z.to_nat _) with m by lia. apply writes_rows; [done|lia|lia].
Qed.

Lemma writes_number_bulk w x : zlen x < 2 ^ 64 -> writes (D := D) (number_serializeBinaryBulk w x 0 0) tt (ColumnVector.to_bytes w x).
Proof.
  intros Hx. pose proof (zlen_nonneg x). unfold number_serializeBinaryBulk. cbn [Z.eqb orb]. rewrite Z.sub_0_r, wrap_small by (unfold fits; lia).
  eapply writes_lift; [|apply writes_write]. unfold load. rewrite !(proj2 (Z.leb_le _ _)) by lia. cbn [andb Z.to_nat drop]. f_equal. apply take_ge. unfold zlen. lia.
Qed.
End Written.

(** ** Reading back *)

(** [m] in front of [l] returns some value with [P] and stops in front of [l']. *)
Definition gives {D : Type} `{L : ReadBufferLaws D} {A} (m : M (rbuf D) A) (l : list Z) (P : A -> Prop) (l' : list Z) : Prop :=
  forall b t, state b l t -> exists a b', m b = (Returns a, b') /\ P a /\ state b' l' t.

Section Gives.
Context {D : Type} `{L : ReadBufferLaws D}.

Lemma gives_bind {A B} (m : M (rbuf D) A) (k : A -> M (rbuf D) B) l P l1 Q l2 :
  gives m l P l1 -> (forall a, P a -> gives (k a) l1 Q l2) -> gives (m ≫= k) l Q l2.
Proof.
  intros Hm Hk b t St. destruct (Hm b t St) as (a & b1 & E1 & Ha & St1). destruct (Hk a Ha b1 t St1) as (c & b2 & E2 & Hc & St2).
  exists c, b2. by rewrite (bind_returns _ _ _ _ _ E1).
Qed.

Lemma gives_reads {A} (m : M (rbuf D) A) l a l' (P : A -> Prop) : reads m l (Returns a) l' -> P a -> gives m l P l'.
Proof. intros Hm Ha b t St. destruct (Hm b t St) as (b' & E & St'). by exists a, b'. Qed.

Lemma gives_step {A B} (m : M (rbuf D) A) (k : A -> M (rbuf D) B) l a l1 Q l2 : reads m l (Returns a) l1 -> gives (k a) l1 Q l2 -> gives (m ≫= k) l Q l2.
Proof. intros Hm Hk. eapply (gives_bind _ _ _ (fun x => x = a)); [by eapply gives_reads|]. by intros ? ->. Qed.

Lemma gives_lift {A B} (r : outcome A) a (k : A -> M (rbuf D) B) l Q l' : r = Returns a -> gives (k a) l Q l' -> gives (lift r ≫= k) l Q l'.
Proof. intros -> Hk b t St. exact (Hk b t St). Qed.

Lemma gives_weaken {A} (m : M (rbuf D) A) l (P Q : A -> Prop) l' : gives m l P l' -> (forall a, P a -> Q a) -> gives m l Q l'.
Proof. intros Hm HQ b t St. destruct (Hm b t St) as (a & b' & E & Ha & St'). exists a, b'. auto. Qed.

(** A function of the value, where [P] determines it. *)
Lemma gives_value {A B} (m : M (rbuf D) A) (f : A -> B) l P r l' :
  gives m l P l' -> (forall a, P a -> f a = r) -> reads (a ← m; mret (f a)) l (Returns r) l'.
Proof.
  intros Hm Hf b t St. destruct (Hm b t St) as (a & b' & E & Ha & St'). exists b'. split; [|done]. rewrite (bind_returns _ _ _ _ _ E). by rewrite <- (Hf a Ha).
Qed.
End Gives.

(** The copy in blocks. *)
Lemma sse_copy_copies U n mem src dst a :
  0 <= src -> src + Z.of_nat n * (16 * Z.of_nat U) <= zlen mem -> 0 <= dst -> dst + Z.of_nat n * (16 * Z.of_nat U) <= zlen (storage a) ->
  exists st, sse_copy U n mem src dst a = Returns (PODArray.Pod st (c_end a) (c_end_of_storage a)) /\ zlen st = zlen (storage a) /\
    take (Z.to_nat dst) st = take (Z.to_nat dst) (storage a) /\
    take (Z.to_nat (dst + Z.of_nat n * (16 * Z.of_nat U))) st = take (Z.to_nat dst) (storage a) ++ take (n * (16 * U)) (drop (Z.to_nat src) mem).
Proof.
  revert src dst a. induction n as [|n IH]; intros src dst a Hs Hs' Hd Hd'.
  - exists (storage a). split; [by destruct a|]. split; [done|]. split; [done|]. rewrite Nat.mul_0_l, take_0, app_nil_r. f_equal. lia.
  - cbn [sse_copy]. set (k := 16 * Z.of_nat U) in *. assert (load mem src k = Returns (take (Z.to_nat k) (drop (Z.to_nat src) mem))) as ->.
    { unfold load. rewrite !(proj2 (Z.leb_le _ _)) by (unfold k; lia). done. }
    cbn [mbind outcome_bind]. set (bytes := take (Z.to_nat k) (drop (Z.to_nat src) mem)).
    assert (zlen bytes = k) as Hl by (unfold bytes, zlen, k in *; rewrite length_take, length_drop; lia).
    destruct (PODArray.store_inside a dst bytes) as (st1 & -> & L1 & T1 & T2); [done|unfold k in *; lia|]. cbn [mbind outcome_bind].
    destruct (IH (src + k) (dst + k) (PODArray.Pod st1 (c_end a) (c_end_of_storage a))) as (st & -> & L2 & T3 & T4); [unfold k in *; cbn [storage]; lia..|].
    cbn [storage c_end c_end_of_storage] in *. exists st. split; [done|]. split; [lia|]. rewrite Hl in T2. split.
    + apply (f_equal (take (Z.to_nat dst))) in T3. rewrite !take_take in T3. replace (Nat.min (Z.to_nat dst) (Z.to_nat (dst + k))) with (Z.to_nat dst) in T3 by (unfold k; lia).
      by rewrite T3, T1.
    + replace (dst + Z.of_nat (S n) * k) with (dst + k + Z.of_nat n * k) by lia. rewrite T4, T2, <- app_assoc. f_equal.
      replace (S n * (16 * U))%nat with (Z.to_nat k + n * (16 * U))%nat by (unfold k; lia). rewrite <- (take_take_drop (drop _ mem)). unfold bytes.
      f_equal. f_equal. rewrite drop_drop. f_equal. unfold k in *. lia.
Qed.

(** The number of blocks is enough for the string and stays within a block of
    its end. *)
Lemma blocks_cover size U : 0 <= size -> (0 < U)%nat ->
  let n := (size + (16 * Z.of_nat U - 1)) / 16 / Z.of_nat U in size <= n * (16 * Z.of_nat U) < size + 16 * Z.of_nat U.
Proof.
  intros Hs HU. cbv zeta. rewrite Z.div_div by lia. set (k := 16 * Z.of_nat U). pose proof (Z.div_mod (size + (k - 1)) k ltac:(unfold k; lia)).
  pose proof (Z.mod_pos_bound (size + (k - 1)) k ltac:(unfold k; lia)). lia.
Qed.

Section ReadBack.
Context {D : Type} `{L : ReadBufferLaws D} (fresh : Z -> list Z) (Hfresh : forall n, zlen (fresh n) = Z.max 0 n).

#[local] Abbreviation wf := (PODArray.wf 0 15).

Lemma store_wf a at_ bytes :
  wf a -> 0 <= at_ -> at_ + zlen bytes <= c_end_of_storage a ->
  exists a', PODArray.store a at_ bytes = Returns a' /\ wf a' /\ c_end a' = c_end a /\
    take (Z.to_nat (at_ + zlen bytes)) (storage a') = take (Z.to_nat at_) (storage a) ++ bytes.
Proof.
  intros W H0 H1. pose proof (PODArray.wf_inside 0 15 ltac:(lia) ltac:(lia) a W) as Hin. destruct (PODArray.store_inside a at_ bytes) as (st & -> & Hl & _ & Ht); [done|lia|].
  eexists. split; [reflexivity|]. split_and!; [|done|exact Ht]. destruct W as [We Wd Ws Wl Wst]. split; cbn [storage c_end c_end_of_storage]; [done..|]. rewrite Hl.
  destruct Wst as [E|[E E']]; [by left|right]. split; [|done]. rewrite E in Hl. apply nil_length_inv. unfold zlen in Hl. cbn in Hl. lia.
Qed.

Lemma storage_length a : wf a -> 0 < c_end a -> zlen (storage a) = c_end_of_storage a + 15 /\ c_end a <= c_end_of_storage a /\ c_end_of_storage a + 15 <= 2 ^ 63.
Proof. intros [We _ _ Wl Wst] Hp. change (PODArray.pad_right (2 ^ 0) 15) with 15 in *. destruct Wst as [E|[_ E]]; lia. Qed.

Lemma read_strictly a offset s l :
  wf a -> c_end a = offset -> zlen s + 1 <= offset -> offset <= 2 ^ 61 ->
  gives (bytes ← readStrict (Z.to_nat (zlen s)); lift (PODArray.store a (offset - zlen s - 1) bytes)) (s ++ l)
    (fun a' => wf a' /\ c_end a' = offset /\ take (Z.to_nat (offset - 1)) (storage a') = take (Z.to_nat (offset - zlen s - 1)) (storage a) ++ s) l.
Proof.
  intros W Ee Hs Ho. pose proof (zlen_nonneg s) as Hn. destruct (storage_length a W) as (Hst & Hc & Hlim); [lia|].
  pose proof (reads_readStrict (Z.to_nat (zlen s)) (s ++ l)) as Hr. unfold zlen in Hr at 2 3 4. rewrite Nat2Z.id, take_app_length, drop_app_length, (proj2 (Nat.leb_le _ _)) in Hr by (rewrite length_app; lia).
  eapply gives_step; [exact Hr|]. destruct (store_wf a (offset - zlen s - 1) s W) as (a' & -> & W' & Ee' & Ht); [lia|lia|].
  intros b t St. exists a', b. split; [done|]. split; [|done]. split_and!; [done|lia|]. replace (offset - 1) with (offset - zlen s - 1 + zlen s) by lia. done.
Qed.

Lemma read_bytes_reads U a offset s l :
  (0 < U <= 4)%nat -> wf a -> c_end a = offset -> zlen s + 1 <= offset -> offset <= 2 ^ 61 ->
  gives (read_bytes U a offset (zlen s)) (s ++ l)
    (fun a' => wf a' /\ c_end a' = offset /\ take (Z.to_nat (offset - 1)) (storage a') = take (Z.to_nat (offset - zlen s - 1)) (storage a) ++ s) l.
Proof.
  intros HU W Ee Hs Ho b t St. pose proof (zlen_nonneg s) as Hn. destruct (storage_length a W) as (Hst & Hc & Hlim); [lia|].
  unfold read_bytes. rewrite !bind_get. cbv zeta. set (step := 16 * Z.of_nat U).
  rewrite (wrap_small 64 (offset + step)) by (unfold fits, step; lia). unfold PODArray.allocated_bytes. change (PODArray.pad_right 1 15) with 15.
  rewrite (wrap_small 64 (c_end_of_storage a + 15)) by (unfold fits; lia). rewrite wrap_sub_l, (wrap_small 64 (offset - zlen s - 1)) by (unfold fits; lia).
  destruct (Z.leb_spec (offset + step) (c_end_of_storage a + 15)) as [H1|H1]; cbn [andb].
  destruct (Z.leb_spec (Z.of_nat (rb_pos b) + zlen s + step) (Z.of_nat (rb_end b))) as [H2|H2].
  - pose proof (blocks_cover (zlen s) U Hn ltac:(lia)) as Hb. cbv zeta in Hb. fold step in Hb. set (n := (zlen s + (step - 1)) / 16 / Z.of_nat U) in *.
    assert (0 <= n) by (unfold step in *; nia). pose proof St as (Wb & _). destruct Wb as [Wp We].
    destruct (sse_copy_copies U (Z.to_nat n) (rb_mem b) (Z.of_nat (rb_pos b)) (offset - zlen s - 1) a) as (st & -> & L1 & T1 & T2);
      [lia|fold step; unfold zlen; nia|lia|fold step; nia|]. rewrite bind_lift. fold step in T2. rewrite Z2Nat.id in T2 by lia.
    assert (length s <= available b)%nat as Hav by (unfold available, zlen in *; lia).
    rewrite (bind_returns _ _ _ tt (set_pos (rb_pos b + length s) b)).
    2:{ unfold advance, zlen. rewrite Nat2Z.id. by rewrite (proj2 (Nat.leb_le _ _) Hav). }
    eexists _, _. split; [reflexivity|]. split; [|pose proof (state_advance b _ t (length s) St Hav) as St'; by rewrite drop_app_length in St'].
    cbn [storage c_end]. split_and!; [|done|].
    + destruct W as [? ? ? ? Wst]. split; cbn [storage c_end c_end_of_storage]; [done..|]. left. change (PODArray.pad_right (2 ^ 0) 15) with 15. lia.
    + apply (f_equal (take (Z.to_nat (offset - 1)))) in T2. rewrite take_take in T2. replace (Nat.min _ _) with (Z.to_nat (offset - 1)) in T2 by lia. rewrite T2.
      assert (length (take (Z.to_nat (offset - zlen s - 1)) (storage a)) = Z.to_nat (offset - zlen s - 1)) as El by (rewrite length_take; unfold zlen in *; lia).
      rewrite take_app, El. rewrite (take_ge (take _ (storage a))) by lia. f_equal. rewrite take_take, Nat2Z.id.
      replace (Nat.min _ _) with (length s) by (unfold zlen, step in *; nia).
      destruct (state_data _ _ _ St) as [_ Ep]. apply (f_equal (take (length s))) in Ep. unfold pending, slice, available in *. rewrite !take_take in Ep.
      replace (Nat.min (length s) (rb_end b - rb_pos b)) with (length s) in Ep by lia. by rewrite Ep, take_app_length.
  - by apply read_strictly.
  - by apply read_strictly.
Qed.

Lemma encode_nonempty s l : encode s ++ l <> [].
Proof. unfold encode, writeVarUInt_mem. cbn [writeVarUInt_mem_loop]. by destruct (zlen s <=? 127). Qed.

(** New space behind the contents. *)
Lemma resize_bytes a n :
  wf a -> c_end a <= n <= 2 ^ 61 ->
  wf (PODArray.resize 1 15 fresh a n) /\ c_end (PODArray.resize 1 15 fresh a n) = n /\ take (Z.to_nat (c_end a)) (storage (PODArray.resize 1 15 fresh a n)) = contents a.
Proof.
  intros W Hn. pose proof (PODArray.zlen_contents 0 15 ltac:(lia) ltac:(lia) a W) as Hz. pose proof (proj1 (PODArray.wf_end _ _ _ W)).
  destruct (PODArray.resize_wf 0 15 fresh ltac:(lia) ltac:(lia) Hfresh a n W) as (W' & Ee & Ht); [lia|change (2 ^ 0) with 1; lia|]. change (2 ^ 0) with 1 in *. rewrite Z.mul_1_r in *.
  split_and!; [done|done|]. rewrite (take_ge (contents a)) in Ht by (unfold zlen in Hz; lia). rewrite <- Ht. unfold contents at 2. rewrite take_take, Ee. f_equal. unfold zlen in Hz. lia.
Qed.

(** One string. *)
Lemma string_reads {B} U a s l (k : PODArray -> M (rbuf D) B) Q l' :
  (0 < U <= 4)%nat -> wf a -> c_end a + zlen s + 1 <= 2 ^ 61 ->
  (forall a', wf a' -> c_end a' = c_end a + zlen s + 1 -> contents a' = contents a ++ term s -> gives (k a') l Q l') ->
  gives (a' ← (if negb (zlen s =? 0) then read_bytes U (PODArray.resize 1 15 fresh a (c_end a + zlen s + 1)) (c_end a + zlen s + 1) (zlen s)
               else mret (PODArray.resize 1 15 fresh a (c_end a + zlen s + 1)));
         a'' ← lift (PODArray.store a' (c_end a + zlen s) [0]); k a'') (s ++ l) Q l'.
Proof.
  intros HU W Hb Hk. pose proof (zlen_nonneg s). pose proof (proj1 (PODArray.wf_end _ _ _ W)). destruct (resize_bytes a (c_end a + zlen s + 1) W) as (W1 & E1 & T1); [lia|].
  set (a1 := PODArray.resize 1 15 fresh a (c_end a + zlen s + 1)) in *. set (o := c_end a + zlen s + 1) in *.
  eapply (gives_bind _ _ _ (fun a' => wf a' /\ c_end a' = o /\ take (Z.to_nat (o - 1)) (storage a') = take (Z.to_nat (o - zlen s - 1)) (storage a1) ++ s) l).
  { destruct (Z.eqb_spec (zlen s) 0) as [E0|E0]; cbn [negb]; [|apply read_bytes_reads; unfold o in *; done || lia].
    assert (s = []) as -> by (apply nil_length_inv; unfold zlen in E0; lia). intros b t St. exists a1, b. split_and!; [done|done|done| |done].
    rewrite app_nil_r. f_equal. unfold zlen. cbn. lia. }
  intros a2 (W2 & E2 & T2). destruct (storage_length a2 W2) as (_ & Hc & _); [lia|].
  destruct (store_wf a2 (c_end a + zlen s) [0] W2) as (a3 & E3 & W3 & Ee3 & T3); [lia|unfold o, zlen in *; cbn [length]; lia|].
  eapply gives_lift; [exact E3|]. apply Hk; [done|lia|]. unfold contents at 1. rewrite Ee3, E2. change (zlen [0]) with 1 in T3. unfold o. rewrite T3.
  replace (c_end a + zlen s) with (o - 1) by (unfold o; lia). rewrite T2. replace (o - zlen s - 1) with (c_end a) by (unfold o; lia). rewrite T1. unfold term. by rewrite app_assoc.
Qed.

Lemma strings_read U ss a os l :
  (0 < U <= 4)%nat -> wf a -> c_end a + zlen (concat (map term ss)) <= 2 ^ 61 ->
  gives (deserializeBinarySSE2 fresh U (length ss) (c_end a) a os) (concat (map encode ss) ++ l)
    (fun r => wf r.1 /\ contents r.1 = contents a ++ concat (map term ss) /\ r.2 = os ++ ends (c_end a) (map term ss)) l.
Proof.
  intros HU. revert a os. induction ss as [|s ss IH]; intros a os W Hb.
  - intros b t St. exists (a, os), b. cbn. by rewrite !app_nil_r.
  - cbn [length deserializeBinarySSE2 map concat ends] in *. rewrite zlen_app, ColumnString.zlen_term in Hb. pose proof (zlen_nonneg s). pose proof (proj1 (PODArray.wf_end _ _ _ W)).
    pose proof (zlen_nonneg (concat (map term ss))). eapply gives_step; [apply reads_eof|]. rewrite bool_decide_eq_false_2 by (rewrite <- app_assoc; apply encode_nonempty). cbv iota.
    unfold encode at 1. rewrite <- !app_assoc. eapply gives_step; [apply reads_varuint; lia|]. rewrite Z.mod_small by lia. cbv zeta.
    rewrite wrap_add_r, (wrap_small 64 (c_end a + (zlen s + 1))) by (unfold fits; lia). rewrite (wrap_small 64 (c_end a + (zlen s + 1) - 1)) by (unfold fits; lia).
    replace (c_end a + (zlen s + 1) - 1) with (c_end a + zlen s) by lia. rewrite !Z.add_assoc.
    apply (string_reads U a s _ (fun d => deserializeBinarySSE2 fresh U (length ss) (c_end a + zlen s + 1) d (os ++ [c_end a + zlen s + 1]))); [done|done|lia|].
    intros a' W' Ee' Hc'. rewrite <- Ee'. eapply gives_weaken; [apply (IH a' (os ++ [c_end a']) W'); lia|]. intros r (Wr & Hr & Hos). split; [done|]. rewrite Hr, Hos, Hc', Ee', ColumnString.zlen_term.
    rewrite <- !app_assoc. cbn [app]. by rewrite !Z.add_assoc.
Qed.

(** The hint is taken into account by a reservation and by the size of the
    blocks; neither changes what is read. *)
Lemma string_bulk_reads hint ss l :
  0 <= chars_to_reserve hint <= 2 ^ 61 -> zlen (concat (map term ss)) <= 2 ^ 61 ->
  gives (string_deserializeBinaryBulk fresh hint empty_array [] (length ss)) (concat (map encode ss) ++ l) (fun r => CString r.2 (contents r.1) = column_of ss) l.
Proof.
  intros Hh Hb. unfold string_deserializeBinaryBulk. change (PODArray.size 1 empty_array) with 0. rewrite Z.add_0_l, (wrap_small 64) by (unfold fits; lia).
  destruct (PODArray.reserve_wf 0 15 fresh ltac:(lia) ltac:(lia) Hfresh empty_array (chars_to_reserve hint)) as (W & Hc & _ & Ee);
    [apply PODArray.wf_empty; lia|lia|change (PODArray.pad_right (2 ^ 0) 15) with 15; change (2 ^ 0) with 1; lia|]. change (2 ^ 0) with 1 in *.
  set (a := PODArray.reserve 1 15 fresh empty_array (chars_to_reserve hint)) in *. cbn [c_end empty_array] in Ee.
  assert (forall U, (0 < U <= 4)%nat ->
    gives (deserializeBinarySSE2 fresh U (length ss) (PODArray.size 1 a) a []) (concat (map encode ss) ++ l) (fun r => CString r.2 (contents r.1) = column_of ss) l) as Hall.
  { intros U HU. replace (PODArray.size 1 a) with (c_end a) by (unfold PODArray.size; rewrite Z.div_1_r; done).
    eapply gives_weaken; [apply strings_read; [done|done|lia]|]. intros r (_ & Hr & Hos). by rewrite Hr, Hos, Hc, Ee. }
  cbv zeta. destruct (avg_chars_size hint); apply Hall; lia.
Qed.
End ReadBack.

(** What overriding functions promise. *)
Class BigReaderLaws (D : Type) `{L : ReadBufferLaws D} `{BigReader D} : Prop := big_reads : forall n l, reads (readBig n) l (Returns (take n l)) (drop n l).

#[export] Instance base_readBig_laws {D : Type} `{L : ReadBufferLaws D} : @BigReaderLaws D _ L base_readBig.
Proof. intros n l. apply reads_read. Qed.

Lemma number_bulk_reads {D : Type} `{L : ReadBufferLaws D} `{BR : BigReader D} `{BL : !BigReaderLaws D} w x l :
  (0 < w)%nat -> Forall (fits (8 * Z.of_nat w)) x ->
  reads (number_deserializeBinaryBulk w [] (length x)) (ColumnVector.to_bytes w x ++ l) (Returns x) l.
Proof.
  intros Hw Hx. pose proof (big_reads (w * length x) (ColumnVector.to_bytes w x ++ l)) as Hr. pose proof (ColumnVector.length_to_bytes w x) as Hl. rewrite Nat.mul_comm in Hl.
  rewrite <- Hl, take_app_length, drop_app_length in Hr. unfold number_deserializeBinaryBulk. rewrite <- Hl. eapply reads_bind; [exact Hr|].
  rewrite Hl, Nat.mul_comm, Nat.div_mul by lia. pose proof (ColumnVector.of_to_bytes w x [] Hx) as Ho. rewrite app_nil_r in Ho. rewrite Ho. apply reads_ret.
Qed.

(** ** Properties *)

(** C34: A range of a column of strings that is written is read back as a column
    of these strings, over all buffers, with every hint about the sizes of
    strings, when memory for the column can be allocated: neither the reservation nor the copy in blocks of 16 to 64 bytes,
    which goes over the end of the string, changes the result, reads outside of
    the working buffer or writes outside of the storage. *)
Theorem string_bulk_roundtrip {W R} `{LW : WriteBufferLaws W} `{LR : ReadBufferLaws R} fresh ss (offset limit : nat) hint rest :
  (forall n, zlen (fresh n) = Z.max 0 n) -> 0 <= chars_to_reserve hint <= 2 ^ 61 ->
  zlen (concat (map term ss)) <= 2 ^ 61 -> (offset <= length ss)%nat -> Z.of_nat (offset + limit) < 2 ^ 64 ->
  let range := if (limit =? 0)%nat then drop offset ss else take limit (drop offset ss) in
  exists w, writes (D := W) (string_serializeBinaryBulk (column_of ss) (Z.of_nat offset) (Z.of_nat limit)) tt w /\
    reads (D := R) (r ← string_deserializeBinaryBulk fresh hint empty_array [] (length range); mret (CString r.2 (contents r.1))) (w ++ rest)
      (Returns (column_of range)) rest.
Proof.
  intros Hf Hh Hb Ho Hl range. eexists. split; [apply writes_string_bulk; [unfold bounded; lia|done|done]|]. fold range.
  eapply gives_value; [apply string_bulk_reads; [done|done|]|done].
  assert (zlen (concat (map term range)) <= zlen (concat (map term ss))) as Hr; [|lia].
  assert (forall n (l : list (list Z)), zlen (concat (map term (take n l))) <= zlen (concat (map term l)) /\ zlen (concat (map term (drop n l))) <= zlen (concat (map term l))) as Hsub.
  { intros n l. rewrite <- (take_drop n l) at 2 4. rewrite map_app, concat_app, zlen_app. pose proof (zlen_nonneg (concat (map term (take n l)))).
    pose proof (zlen_nonneg (concat (map term (drop n l)))). lia. }
  unfold range. destruct (limit =? 0)%nat; [apply Hsub|]. etransitivity; apply Hsub.
Qed.

(** ** Witnesses *)

Lemma string_bulk_roundtrip_witness :
  exists w, writes (D := from_string) (string_serializeBinaryBulk (column_of [[97]; []; [98; 99]; [100]]) (Z.of_nat 1) (Z.of_nat 2)) tt w /\
    reads (D := concatenated from_memory) (r ← string_deserializeBinaryBulk PODArray.demo_fresh (Hint 100 From32) empty_array [] 2; mret (CString r.2 (contents r.1))) (w ++ [7])
      (Returns (column_of [[]; [98; 99]])) [7].
Proof.
  apply (string_bulk_roundtrip (W := from_string) (R := concatenated from_memory) PODArray.demo_fresh [[97]; []; [98; 99]; [100]] 1 2 (Hint 100 From32) [7]);
    [exact PODArray.demo_fresh_length|cbn; lia|vm_compute; discriminate|cbn; lia|cbn; lia].
Defined.
