(* ===== verification/Blocks.v ===== *)
(** * Blocks of columns

    [Block] (dbms/src/Core/Block.h and .cpp), the unit of data that the query
    pipeline passes on: columns with their types and names, and an index from
    names to positions.  Columns are strings ([ColumnString]), 64-bit numbers
    ([ColumnUInt64]) or constants of them ([ColumnConst],
    dbms/src/Columns/ColumnConst.h and .cpp); a data type is known by its virtual
    functions.

    Shown: every operation keeps the index free of dangling entries, and exact
    as long as names are not inserted twice; lookups by name and by position
    then agree; errors are thrown exactly for positions and names that are not
    there.  A constant column behaves as the column of equal values that
    [convertToFullColumn] makes of it. *)

From stdpp Require Import base list option numbers gmap.
From Stdlib Require Import ZArith Lia.
From S2P Require Import Prelude IOMonad.
From S2P Require StringsColumn.
Import StringsColumn (zlen).
From S2P Require Import ColumnsCommon.
From S2P Require ColumnString ColumnVector.
Import ColumnString (ColumnString, column_of, bounded).
Import ColumnVector (ColumnVector).

#[local] Open Scope Z_scope.
#[local] Open Scope word_scope.

(** ** Columns *)

(** [ColumnConst] has the number of its values and a column with the value. *)
Inductive IColumn :=
  | StringColumn (c : ColumnString)
  | UInt64Column (data : ColumnVector)
  | ConstColumn (data : IColumn) (s : nat).

Definition column_size (c : IColumn) : nat :=
  match c with
  | StringColumn c => ColumnString.size c
  | UInt64Column data => length data
  | ConstColumn _ s => s
  end.

Definition isColumnConst (c : IColumn) : bool := match c with ConstColumn _ _ => true | _ => false end.

(** The constructor of [ColumnConst]: constants of constants are squashed. *)
Fixpoint squash (data : IColumn) : IColumn := match data with ConstColumn data _ => squash data | _ => data end.

Definition ColumnConst_create (data : IColumn) (s : nat) : outcome IColumn :=
  let data := squash data in
  if negb (column_size data =? 1)%nat then Throws SIZES_OF_COLUMNS_DOESNT_MATCH else mret (ConstColumn data s).

(** [replicate], for constants too. *)
Definition column_replicate (c : IColumn) (offsets : list Z) : outcome IColumn :=
  match c with
  | StringColumn c => r ← ColumnString.replicate_column c offsets; mret (StringColumn r)
  | UInt64Column data => r ← ColumnVector.replicate_column data offsets; mret (UInt64Column r)
  | ConstColumn data s =>
      if negb (s =? length offsets)%nat then Throws SIZES_OF_COLUMNS_DOESNT_MATCH
      else
        replicated_size ← (if (0 =? s)%nat then mret 0 else cell offsets (length offsets - 1));
        ColumnConst_create data (Z.to_nat replicated_size)
  end.

Definition convertToFullColumn (data : IColumn) (s : nat) : outcome IColumn := column_replicate data [Z.of_nat s].

(** The result is null for columns that are not constant. *)
Definition convertToFullColumnIfConst (c : IColumn) : outcome (option IColumn) :=
  match c with
  | ConstColumn data s => r ← convertToFullColumn data s; mret (Some r)
  | _ => mret None
  end.

Definition column_filter (c : IColumn) (filt : list Z) : outcome IColumn :=
  match c with
  | StringColumn c => r ← ColumnString.filter c filt; mret (StringColumn r)
  | UInt64Column data => r ← ColumnVector.filter data filt; mret (UInt64Column r)
  | ConstColumn data s =>
      if negb (s =? length filt)%nat then Throws SIZES_OF_COLUMNS_DOESNT_MATCH
      else ColumnConst_create data (Z.to_nat (countBytesInFilter filt))
  end.

Definition column_permute (uninitialised : nat -> list Z) (c : IColumn) (perm : list nat) (limit : nat) : outcome IColumn :=
  match c with
  | StringColumn c => r ← ColumnString.permute uninitialised c perm limit; mret (StringColumn r)
  | UInt64Column data => r ← ColumnVector.permute data perm limit; mret (UInt64Column r)
  | ConstColumn data s =>
      let limit := if (limit =? 0)%nat then s else Nat.min s limit in
      if (length perm <? limit)%nat then Throws SIZES_OF_COLUMNS_DOESNT_MATCH else ColumnConst_create data limit
  end.

Definition column_cloneEmpty (c : IColumn) : outcome IColumn :=
  match c with
  | StringColumn c => r ← ColumnString.cloneEmpty c; mret (StringColumn r)
  | UInt64Column data => mret (UInt64Column (ColumnVector.cloneResized 8 (fun _ => []) data 0))
  | ConstColumn data _ => ColumnConst_create data 0
  end.

(** [IColumn::cut]: [insertRangeFrom] of a constant only counts. *)
Definition column_cut (c : IColumn) (start length_ : nat) : outcome IColumn :=
  match c with
  | StringColumn c => r ← ColumnString.cut c (Z.of_nat start) (Z.of_nat length_); mret (StringColumn r)
  | UInt64Column data =>
      r ← ColumnVector.insertRangeFrom (ColumnVector.cloneResized 8 (fun _ => []) data 0) data (Z.of_nat start) (Z.of_nat length_); mret (UInt64Column r)
  | ConstColumn data _ => r ← ColumnConst_create data 0; match r with ConstColumn data s => mret (ConstColumn data (s + length_)) | c => mret c end
  end.

(** [insertData] of the bytes of a string. *)
Definition column_insertData (c : IColumn) (s : list Z) : outcome IColumn :=
  match c with
  | StringColumn c => mret (StringColumn (ColumnString.insertData c s))
  | UInt64Column data => r ← ColumnVector.insertData 8 data s; mret (UInt64Column r)
  | ConstColumn data n => mret (ConstColumn data (S n))
  end.

(** ** Data types *)

Record IDataType := DataType { isNullable : bool; isString : bool; createColumn : IColumn }.

Definition DataTypeString : IDataType := DataType false true (StringColumn ColumnString.create).
Definition DataTypeUInt64 : IDataType := DataType false false (UInt64Column []).

(** ** Blocks *)

(** Names are strings of bytes; the column may be null. *)
Record ColumnWithTypeAndName := Elem { column : option IColumn; type : IDataType; name : list Z }.

(** The constructor that makes an empty column. *)
Definition Elem_of (t : IDataType) (n : list Z) : ColumnWithTypeAndName := Elem (Some (createColumn t)) t n.

Definition elem_cloneEmpty (e : ColumnWithTypeAndName) : outcome ColumnWithTypeAndName :=
  match column e with
  | Some c => r ← column_cloneEmpty c; mret (Elem (Some r) (type e) (name e))
  | None => mret (Elem None (type e) (name e))
  end.

Record Block := MkBlock { data : list ColumnWithTypeAndName; index_by_name : gmap (list Z) nat }.

Definition empty_block : Block := MkBlock [] ∅.

(** [operator bool] *)
Definition nonempty (b : Block) : bool := negb (length (data b) =? 0)%nat.

Definition columns (b : Block) : nat := length (data b).

Fixpoint initializeIndexByName (i : nat) (l : list ColumnWithTypeAndName) (m : gmap (list Z) nat) : gmap (list Z) nat :=
  match l with
  | [] => m
  | e :: l => initializeIndexByName (S i) l (<[name e := i]> m)
  end.

Definition Block_of (l : list ColumnWithTypeAndName) : Block := MkBlock l (initializeIndexByName 0 l ∅).

(** [insert(position, elem)] *)
Definition insert_at (b : Block) (position : nat) (e : ColumnWithTypeAndName) : outcome Block :=
  if (length (data b) <? position)%nat then Throws POSITION_OUT_OF_BOUND
  else
    let moved := (fun i => if (position <=? i)%nat then S i else i) <$> index_by_name b in
    mret (MkBlock (take position (data b) ++ e :: drop position (data b)) (<[name e := position]> moved)).

Definition insert (b : Block) (e : ColumnWithTypeAndName) : Block :=
  MkBlock (data b ++ [e]) (<[name e := length (data b)]> (index_by_name b)).

Definition insertUnique (b : Block) (e : ColumnWithTypeAndName) : Block :=
  match index_by_name b !! name e with None => insert b e | Some _ => b end.

Definition eraseImpl (b : Block) (position : nat) : Block :=
  MkBlock (delete position (data b))
    (omap (fun i => if (i =? position)%nat then None else Some (if (position <? i)%nat then (i - 1)%nat else i)) (index_by_name b)).

Definition erase (b : Block) (position : nat) : outcome Block :=
  if (length (data b) =? 0)%nat then Throws POSITION_OUT_OF_BOUND
  else if (length (data b) <=? position)%nat then Throws POSITION_OUT_OF_BOUND
  else mret (eraseImpl b position).

Definition erase_name (b : Block) (n : list Z) : outcome Block :=
  match index_by_name b !! n with
  | None => Throws NOT_FOUND_COLUMN_IN_BLOCK
  | Some i => mret (eraseImpl b i)
  end.

Definition getByPosition (b : Block) (position : nat) : outcome ColumnWithTypeAndName := cell (data b) position.

Definition safeGetByPosition (b : Block) (position : nat) : outcome ColumnWithTypeAndName :=
  if (length (data b) =? 0)%nat then Throws POSITION_OUT_OF_BOUND
  else if (length (data b) <=? position)%nat then Throws POSITION_OUT_OF_BOUND
  else cell (data b) position.

Definition getByName (b : Block) (n : list Z) : outcome ColumnWithTypeAndName :=
  match index_by_name b !! n with
  | None => Throws NOT_FOUND_COLUMN_IN_BLOCK
  | Some i => cell (data b) i
  end.

Definition has (b : Block) (n : list Z) : bool := match index_by_name b !! n with Some _ => true | None => false end.

Definition getPositionByName (b : Block) (n : list Z) : outcome nat :=
  match index_by_name b !! n with
  | None => Throws NOT_FOUND_COLUMN_IN_BLOCK
  | Some i => mret i
  end.

Fixpoint check_rows (l : list ColumnWithTypeAndName) (rows : option nat) : outcome unit :=
  match l with
  | [] => mret tt
  | e :: l =>
      match column e with
      | None => Throws SIZES_OF_COLUMNS_DOESNT_MATCH
      | Some c =>
          match rows with
          | None => check_rows l (Some (column_size c))
          | Some n => if (n =? column_size c)%nat then check_rows l rows else Throws SIZES_OF_COLUMNS_DOESNT_MATCH
          end
      end
  end.

Definition checkNumberOfRows (b : Block) : outcome unit := check_rows (data b) None.

Fixpoint first_size (l : list ColumnWithTypeAndName) : nat :=
  match l with
  | [] => 0
  | e :: l => match column e with Some c => column_size c | None => first_size l end
  end.

Definition rows (b : Block) : nat := first_size (data b).

Fixpoint column_byteSize (c : IColumn) : Z :=
  match c with
  | StringColumn c => ColumnString.byteSize c
  | UInt64Column data => zlen data *64 8
  | ConstColumn data _ => column_byteSize data +64 8
  end.

Fixpoint add_bytes (l : list ColumnWithTypeAndName) (res : Z) : outcome Z :=
  match l with
  | [] => mret res
  | e :: l => match column e with Some c => add_bytes l (res +64 column_byteSize c) | None => Throws NULL_POINTER end
  end.

Definition bytes (b : Block) : outcome Z := add_bytes (data b) 0.

Fixpoint clone_elems (l : list ColumnWithTypeAndName) (b : Block) : outcome Block :=
  match l with
  | [] => mret b
  | e :: l => e ← elem_cloneEmpty e; clone_elems l (insert b e)
  end.

Definition cloneEmpty (b : Block) : outcome Block := clone_elems (data b) empty_block.

(** [setColumns] and [cloneWithColumns], with a column for each element. *)
Definition with_column (e : ColumnWithTypeAndName) (c : IColumn) : ColumnWithTypeAndName := Elem (Some c) (type e) (name e).

Fixpoint set_columns (l : list ColumnWithTypeAndName) (cs : list IColumn) : outcome (list ColumnWithTypeAndName) :=
  match l, cs with
  | [], _ => mret []
  | e :: l, c :: cs => r ← set_columns l cs; mret (with_column e c :: r)
  | _ :: _, [] => Throws BUFFER_OVERRUN
  end.

Definition setColumns (b : Block) (cs : list IColumn) : outcome Block :=
  l ← set_columns (data b) cs; mret (MkBlock l (index_by_name b)).

Definition cloneWithColumns (b : Block) (cs : list IColumn) : outcome Block :=
  l ← set_columns (data b) cs; mret (foldl insert empty_block l).

(** [res.getByPosition(i).column = c] *)
Definition set_column (b : Block) (i : nat) (c : IColumn) : outcome Block :=
  e ← cell (data b) i;
  mret (MkBlock (<[i := with_column e c]> (data b)) (index_by_name b)).

Definition clear (b : Block) : Block := empty_block.

(** [materializeBlock]; a null column is dereferenced. *)
Fixpoint materialize_elems (l : list ColumnWithTypeAndName) : outcome (list ColumnWithTypeAndName) :=
  match l with
  | [] => mret []
  | e :: l =>
      match column e with
      | None => Throws NULL_POINTER
      | Some c =>
          converted ← convertToFullColumnIfConst c;
          r ← materialize_elems l;
          mret (match converted with Some c => with_column e c | None => e end :: r)
      end
  end.

Definition materializeBlock (b : Block) : outcome Block :=
  if negb (nonempty b) then mret b
  else l ← materialize_elems (data b); mret (MkBlock l (index_by_name b)).

(** ** The index *)

(** No dangling entries. *)
Definition sound (b : Block) : Prop := forall n i, index_by_name b !! n = Some i -> exists e, data b !! i = Some e /\ name e = n.

(** The index is the inverse of the names. *)
Definition indexed (b : Block) : Prop := forall n i, index_by_name b !! n = Some i <-> exists e, data b !! i = Some e /\ name e = n.

Lemma indexed_sound b : indexed b -> sound b.
Proof. intros H n i. apply H. Qed.

Lemma indexed_names b : indexed b -> forall i j e f, data b !! i = Some e -> data b !! j = Some f -> name e = name f -> i = j.
Proof.
  intros H i j e f Hi Hj E. assert (index_by_name b !! name e = Some i) as H1 by (apply H; eauto). assert (index_by_name b !! name e = Some j) as H2 by (apply H; eauto). congruence.
Qed.

(** The name [n] is not in the block. *)
Definition fresh (n : list Z) (b : Block) : Prop := Forall (fun e => name e <> n) (data b).

Lemma fresh_lookup n b i e : fresh n b -> data b !! i = Some e -> name e <> n.
Proof. intros H Hi. exact (proj1 (Forall_lookup _ _) H i e Hi). Qed.

Lemma indexed_fresh n b : indexed b -> fresh n b <-> index_by_name b !! n = None.
Proof.
  intros Hx. split.
  - intros Hf. destruct (index_by_name b !! n) as [i|] eqn:E; [|done]. apply Hx in E as (e & He & En). by apply (fresh_lookup n b i e) in Hf.
  - intros Hn. apply Forall_lookup. intros i e He <-. assert (index_by_name b !! name e = Some i) by (apply Hx; eauto). congruence.
Qed.

Lemma empty_indexed : indexed empty_block.
Proof. intros n i. cbn. rewrite lookup_empty. split; [done|]. by intros (e & ? & ?). Qed.

Lemma insert_sound b e : sound b -> sound (insert b e).
Proof.
  intros H n i. cbn. destruct (decide (name e = n)) as [<-|Hne].
  - rewrite lookup_insert_eq. intros [= <-]. exists e. split; [|done]. by rewrite lookup_app_r, Nat.sub_diag by lia.
  - rewrite lookup_insert_ne by done. intros (f & Hf & En)%H. exists f. split; [|done]. by apply lookup_app_l_Some.
Qed.

Lemma insert_indexed b e : indexed b -> fresh (name e) b -> indexed (insert b e).
Proof.
  intros H Hf n i. split; [apply insert_sound; by apply indexed_sound|]. cbn. intros (f & Hi & <-).
  apply lookup_app_Some in Hi as [Hi|[Hge Hi]].
  - rewrite lookup_insert_ne by (intros E; by apply (fresh_lookup _ _ _ _ Hf Hi)). apply H. eauto.
  - apply list_lookup_singleton_Some in Hi as [Hi <-]. rewrite lookup_insert_eq. f_equal. lia.
Qed.

(** Where the elements are after an insertion. *)
Lemma lookup_inserted {A} (l : list A) p x j :
  (p <= length l)%nat -> (take p l ++ x :: drop p l) !! (if (p <=? j)%nat then S j else j) = l !! j /\ (take p l ++ x :: drop p l) !! p = Some x.
Proof.
  intros Hp. assert (length (take p l) = p) as Ht by (rewrite length_take; lia). split.
  - destruct (Nat.leb_spec p j).
    + rewrite lookup_app_r by lia. rewrite Ht. replace (S j - p)%nat with (S (j - p)) by lia. change ((x :: drop p l) !! S (j - p)) with (drop p l !! (j - p)%nat). rewrite lookup_drop. f_equal. lia.
    + rewrite lookup_app_l by lia. by rewrite lookup_take_lt.
  - rewrite lookup_app_r by lia. by rewrite Ht, Nat.sub_diag.
Qed.

Lemma lookup_inserted_inv {A} (l : list A) p x i y :
  (p <= length l)%nat -> (take p l ++ x :: drop p l) !! i = Some y -> (i = p /\ y = x) \/ exists j, i = (if (p <=? j)%nat then S j else j) /\ l !! j = Some y.
Proof.
  intros Hp Hi. destruct (decide (i = p)) as [->|Hne].
  - left. destruct (lookup_inserted l p x 0 Hp) as [_ E]. rewrite E in Hi. by injection Hi as <-.
  - right. exists (if (p <? i)%nat then (i - 1)%nat else i). assert (i = (if (p <=? (if (p <? i)%nat then i - 1 else i))%nat then S (if (p <? i)%nat then i - 1 else i) else (if (p <? i)%nat then i - 1 else i))%nat) as Ei.
    { destruct (Nat.ltb_spec p i); [rewrite (proj2 (Nat.leb_le _ _)) by lia; lia|rewrite (proj2 (Nat.leb_gt _ _)) by lia; done]. }
    split; [done|]. rewrite Ei in Hi. by rewrite (proj1 (lookup_inserted l p x _ Hp)) in Hi.
Qed.

Lemma insert_at_sound b p e b' : sound b -> insert_at b p e = Returns b' -> sound b'.
Proof.
  unfold insert_at. destruct (Nat.ltb_spec (length (data b)) p) as [|Hp]; [done|]. intros H [= <-] n i. cbn. destruct (decide (name e = n)) as [<-|Hne].
  - rewrite lookup_insert_eq. intros [= <-]. exists e. split; [|done]. by apply (lookup_inserted _ _ _ 0).
  - rewrite lookup_insert_ne by done. rewrite lookup_fmap. destruct (index_by_name b !! n) as [j|] eqn:Ej; [|done]. cbn. intros [= <-].
    apply H in Ej as (f & Hf & En). exists f. split; [|done]. by rewrite (proj1 (lookup_inserted _ _ _ _ Hp)).
Qed.

Lemma insert_at_indexed b p e b' : indexed b -> fresh (name e) b -> insert_at b p e = Returns b' -> indexed b'.
Proof.
  intros H Hf E n i. split; [eapply insert_at_sound; [by apply indexed_sound|exact E]|]. unfold insert_at in E.
  destruct (Nat.ltb_spec (length (data b)) p) as [|Hp]; [done|]. injection E as <-. cbn. intros (f & Hi & <-).
  destruct (lookup_inserted_inv _ _ _ _ _ Hp Hi) as [[-> ->]|(j & -> & Hj)].
  - by rewrite lookup_insert_eq.
  - rewrite lookup_insert_ne by (intros E; by apply (fresh_lookup _ _ _ _ Hf Hj)). rewrite lookup_fmap. assert (index_by_name b !! name f = Some j) as -> by (apply H; eauto). done.
Qed.

(** Where the elements are after an erasure. *)
Lemma lookup_erased {A} (l : list A) p j : (p < length l)%nat -> j <> p -> delete p l !! (if (p <? j)%nat then (j - 1)%nat else j) = l !! j.
Proof.
  intros Hp Hne. destruct (Nat.ltb_spec p j).
  - rewrite list_lookup_delete_ge by lia. f_equal. lia.
  - by rewrite list_lookup_delete_lt by lia.
Qed.

Lemma eraseImpl_sound b p : sound b -> (p < length (data b))%nat -> sound (eraseImpl b p).
Proof.
  intros H Hp n i. cbn. rewrite lookup_omap. destruct (index_by_name b !! n) as [j|] eqn:Ej; [|done]. cbn. destruct (Nat.eqb_spec j p) as [|Hne]; [done|]. intros [= <-].
  apply H in Ej as (e & He & En). exists e. split; [|done]. exact (eq_trans (lookup_erased _ _ _ Hp Hne) He).
Qed.

Lemma eraseImpl_indexed b p : indexed b -> (p < length (data b))%nat -> indexed (eraseImpl b p).
Proof.
  intros H Hp n i. split; [apply eraseImpl_sound; [by apply indexed_sound|done]|]. unfold eraseImpl. cbn [data index_by_name]. intros (e & Hi & <-). rewrite lookup_omap.
  set (j := if (i <? p)%nat then i else S i). assert (data b !! j = Some e) as Hj.
  { unfold j. destruct (Nat.ltb_spec i p); [by rewrite list_lookup_delete_lt in Hi by lia|by rewrite list_lookup_delete_ge in Hi by lia]. }
  assert (index_by_name b !! name e = Some j) as -> by (apply H; eauto). cbn [mbind option_bind]. unfold j. destruct (Nat.ltb_spec i p).
  - rewrite (proj2 (Nat.eqb_neq _ _)), (proj2 (Nat.ltb_ge _ _)) by lia. done.
  - rewrite (proj2 (Nat.eqb_neq _ _)), (proj2 (Nat.ltb_lt _ _)) by lia. f_equal. lia.
Qed.

(** ** Blocks as lists *)

Inductive block_op :=
  | InsertAt (position : nat) (e : ColumnWithTypeAndName)
  | Insert (e : ColumnWithTypeAndName)
  | InsertUnique (e : ColumnWithTypeAndName)
  | Erase (position : nat)
  | EraseName (n : list Z)
  | SetColumns (cs : list IColumn)
  | Clear.

Definition run_op (o : block_op) (b : Block) : outcome Block :=
  match o with
  | InsertAt position e => insert_at b position e
  | Insert e => mret (insert b e)
  | InsertUnique e => mret (insertUnique b e)
  | Erase position => erase b position
  | EraseName n => erase_name b n
  | SetColumns cs => setColumns b cs
  | Clear => mret (clear b)
  end.

(** The position of a name. *)
Definition find_name (n : list Z) (l : list ColumnWithTypeAndName) : option nat := fst <$> list_find (fun e => name e = n) l.

Definition list_op (o : block_op) (l : list ColumnWithTypeAndName) : outcome (list ColumnWithTypeAndName) :=
  match o with
  | InsertAt p e => if (length l <? p)%nat then Throws POSITION_OUT_OF_BOUND else Returns (take p l ++ e :: drop p l)
  | Insert e => Returns (l ++ [e])
  | InsertUnique e => match find_name (name e) l with Some _ => Returns l | None => Returns (l ++ [e]) end
  | Erase p => if (length l <=? p)%nat then Throws POSITION_OUT_OF_BOUND else Returns (delete p l)
  | EraseName n => match find_name n l with Some i => Returns (delete i l) | None => Throws NOT_FOUND_COLUMN_IN_BLOCK end
  | SetColumns cs => set_columns l cs
  | Clear => Returns []
  end.

(** [insert] does not look whether the name is there already. *)
Definition new_name (o : block_op) (l : list ColumnWithTypeAndName) : Prop :=
  match o with
  | InsertAt _ e | Insert e => Forall (fun f => name f <> name e) l
  | _ => True
  end.

Lemma index_find b n : indexed b -> index_by_name b !! n = find_name n (data b).
Proof.
  intros H. unfold find_name. destruct (list_find _ (data b)) as [[i e]|] eqn:E; cbn.
  - apply list_find_Some in E as (Hi & Hn & _). apply H. eauto.
  - apply list_find_None in E. destruct (index_by_name b !! n) as [i|] eqn:Ei; [|done]. apply H in Ei as (e & He & En). by apply (proj1 (Forall_lookup _ _) E) in He.
Qed.

Lemma set_columns_names l cs l' : set_columns l cs = Returns l' -> map name l' = map name l.
Proof.
  revert cs l'. induction l as [|e l IH]; intros [|c cs] l' E; cbn in E; try done; try (by injection E as <-).
  destruct (set_columns l cs) as [r|] eqn:Er; [|done]. cbn in E. injection E as <-. cbn. by rewrite (IH _ _ Er).
Qed.

Lemma indexed_renamed b l : indexed b -> map name l = map name (data b) -> indexed (MkBlock l (index_by_name b)).
Proof.
  intros H E n i. rewrite (H n i). cbn [data]. assert (forall (k : list ColumnWithTypeAndName), (exists e, k !! i = Some e /\ name e = n) <-> map name k !! i = Some n) as Hk.
  { intros k. change (map name k) with (name <$> k). rewrite list_lookup_fmap_Some. split; intros (e & ? & ?); exists e; auto. }
  by rewrite !Hk, E.
Qed.

Lemma run_op_refines o b :
  indexed b -> new_name o (data b) ->
  match run_op o b with
  | Returns b' => list_op o (data b) = Returns (data b') /\ indexed b'
  | Throws e => list_op o (data b) = Throws e
  end.
Proof.
  intros H Hn. destruct o; cbn [run_op list_op new_name] in *.
  - pose proof (insert_at_indexed b position e) as Hi. unfold insert_at in *. destruct (length (data b) <? position)%nat; [done|]. split; [done|]. by eapply Hi.
  - split; [done|]. by apply insert_indexed.
  - unfold insertUnique. destruct (index_by_name b !! name e) eqn:E; cbn; rewrite <- index_find, E by done; (split; [done|]); [done|]. apply insert_indexed; [done|]. by apply indexed_fresh.
  - unfold erase. destruct (Nat.eqb_spec (length (data b)) 0) as [E|_]; [by rewrite E|]. destruct (Nat.leb_spec (length (data b)) position); [done|]. split; [done|]. by apply eraseImpl_indexed.
  - unfold erase_name. rewrite index_find by done. destruct (find_name n (data b)) as [i|] eqn:E; [|done]. split; [done|]. apply eraseImpl_indexed; [done|].
    rewrite <- index_find in E by done. apply H in E as (e & He & _). by apply lookup_lt_Some in He.
  - unfold setColumns. destruct (set_columns (data b) cs) as [l|] eqn:E; cbn; [|done]. split; [done|]. apply indexed_renamed; [done|]. by eapply set_columns_names.
  - split; [done|]. apply empty_indexed.
Qed.

Fixpoint run_ops (os : list block_op) (b : Block) : outcome Block :=
  match os with [] => mret b | o :: os => b ← run_op o b; run_ops os b end.

Fixpoint list_ops (os : list block_op) (l : list ColumnWithTypeAndName) : outcome (list ColumnWithTypeAndName) :=
  match os with [] => mret l | o :: os => l ← list_op o l; list_ops os l end.

Fixpoint new_names (os : list block_op) (l : list ColumnWithTypeAndName) : Prop :=
  match os with
  | [] => True
  | o :: os => new_name o l /\ match list_op o l with Returns l' => new_names os l' | Throws _ => True end
  end.

(** Also with names that occur twice, no entry of the index dangles. *)
Lemma run_op_sound o b b' : sound b -> run_op o b = Returns b' -> sound b'.
Proof.
  intros H E. destruct o; cbn [run_op] in E.
  - by eapply insert_at_sound.
  - injection E as <-. by apply insert_sound.
  - injection E as <-. unfold insertUnique. destruct (_ !! _); [done|]. by apply insert_sound.
  - unfold erase in E. destruct (_ =? 0)%nat; [done|]. destruct (Nat.leb_spec (length (data b)) position); [done|]. injection E as <-. by apply eraseImpl_sound.
  - unfold erase_name in E. destruct (index_by_name b !! n) as [i|] eqn:Ei; [|done]. injection E as <-. apply eraseImpl_sound; [done|]. apply H in Ei as (e & He & _). by apply lookup_lt_Some in He.
  - unfold setColumns in E. destruct (set_columns (data b) cs) as [l|] eqn:El; [|done]. injection E as <-. intros n i Hi. apply H in Hi as (e & He & <-). cbn.
    apply set_columns_names in El. assert (map name l !! i = Some (name e)) as Hl by (rewrite El; change (map name (data b)) with (name <$> data b); by rewrite list_lookup_fmap, He).
    change (map name l) with (name <$> l) in Hl. rewrite list_lookup_fmap_Some in Hl. destruct Hl as (f & ? & ?). eauto.
  - injection E as <-. apply indexed_sound, empty_indexed.
Qed.

(** ** Constant columns *)

Lemma repeat_by_one n x : ColumnString.repeat_by 0 [Z.of_nat n] [x] = replicate n x.
Proof. cbn [ColumnString.repeat_by]. by rewrite Z.sub_0_r, Nat2Z.id, app_nil_r. Qed.

Lemma bounded_prefix n m x : (n <= m)%nat -> bounded (replicate m x) -> bounded (replicate n x).
Proof. intros H. replace m with (n + (m - n))%nat by lia. rewrite replicate_add. intros Hb. by apply ColumnString.bounded_app in Hb as [Hb _]. Qed.

Lemma bounded_length ss : bounded ss -> zlen ss < 2 ^ 64.
Proof.
  unfold bounded. enough (zlen ss <= zlen (concat (map ColumnString.term ss))) by lia. induction ss as [|s ss IH]; [done|]. cbn [map concat].
  rewrite StringsColumn.zlen_app, ColumnString.zlen_term. unfold zlen in *. cbn [length]. lia.
Qed.

Definition constant (x : list Z) (n : nat) : IColumn := ConstColumn (StringColumn (column_of [x])) n.
Definition full (x : list Z) (n : nat) : IColumn := StringColumn (column_of (replicate n x)).

Lemma constant_full x n : bounded [x] -> bounded (replicate n x) -> convertToFullColumnIfConst (constant x n) = Returns (Some (full x n)).
Proof.
  intros H1 Hb. cbn [constant convertToFullColumnIfConst]. unfold convertToFullColumn. cbn [column_replicate]. rewrite <- (repeat_by_one n x) in Hb.
  rewrite ColumnString.replicate_column_spec; [|done|done| |done].
  - rewrite repeat_by_one. done.
  - cbn [ColumnString.ascending]. rewrite repeat_by_one in Hb. apply bounded_length in Hb. unfold zlen in Hb. rewrite length_replicate in Hb. lia.
Qed.

(** A column with the strings [ss], as such or as a constant. *)
Inductive string_column : IColumn -> list (list Z) -> Prop :=
  | plain_strings ss : string_column (StringColumn (column_of ss)) ss
  | constant_strings x n : bounded [x] -> string_column (constant x n) (replicate n x).

Lemma string_column_size c ss : string_column c ss -> column_size c = length ss.
Proof. intros [ss'|x n _]; cbn [column_size constant]; [apply ColumnString.size_column|by rewrite length_replicate]. Qed.

Lemma full_string c ss :
  string_column c ss -> bounded ss -> (converted ← convertToFullColumnIfConst c; mret (default c converted)) = Returns (StringColumn (column_of ss)).
Proof. intros [ss'|x n Hx] Hb; [done|]. by rewrite constant_full. Qed.

Lemma select_replicate {X} filt (x : X) n : length filt = n -> Forall (fun b => 0 <= b < 128) filt -> select filt (replicate n x) = replicate (Z.to_nat (positives filt)) x.
Proof.
  intros <- Hf. induction Hf as [|b filt Hb _ IH]; [done|]. cbn [length replicate select]. unfold positives in *. cbn [map zsum]. rewrite positive_byte by done.
  pose proof (positives_range filt) as R. unfold positives in R. destruct (b =? 0); cbn [negb Z.b2z]; [by rewrite IH|]. rewrite IH. rewrite Z2Nat.inj_add by lia. done.
Qed.

Lemma constant_create x n : ColumnConst_create (StringColumn (column_of [x])) n = Returns (constant x n).
Proof. unfold ColumnConst_create. cbn [squash column_size]. by rewrite ColumnString.size_column. Qed.

(** ** Rows *)

Lemma safeGet_lookup b i e : data b !! i = Some e -> safeGetByPosition b i = Returns e.
Proof.
  intros E. pose proof (lookup_lt_Some _ _ _ E). unfold safeGetByPosition, cell. rewrite E.
  destruct (Nat.eqb_spec (length (data b)) 0); [lia|]. destruct (Nat.leb_spec (length (data b)) i); [lia|]. done.
Qed.

Lemma check_rows_sizes l n : check_rows l (Some n) = Returns tt -> Forall (fun e => exists c, column e = Some c /\ column_size c = n) l.
Proof.
  induction l as [|e l IH]; [by constructor|]. cbn [check_rows]. destruct (column e) as [c|] eqn:Ec; [|done].
  destruct (Nat.eqb_spec n (column_size c)) as [->|]; [|done]. intros H%IH. constructor; [by exists c|done].
Qed.

Lemma checked_sizes b : checkNumberOfRows b = Returns tt -> Forall (fun e => exists c, column e = Some c /\ column_size c = rows b) (data b).
Proof.
  unfold checkNumberOfRows, rows. destruct (data b) as [|e l]; [by constructor|]. cbn [check_rows first_size]. destruct (column e) as [c|] eqn:Ec; [|done].
  intros H%check_rows_sizes. constructor; [by exists c|done].
Qed.

(** ** Properties *)

(** C16: A block is a list of columns with a name each.  As long as no name is
    inserted twice, every sequence of operations gives the columns that the
    operations on lists give, or throws the same error, and the index stays
    the inverse of the names, so that lookups by name find the column of that
    name. *)
Theorem blocks_refine os b :
  indexed b -> new_names os (data b) ->
  match run_ops os b with
  | Returns b' => list_ops os (data b) = Returns (data b') /\ indexed b' /\
      forall n, getByName b' n = match find_name n (data b') with Some i => cell (data b') i | None => Throws NOT_FOUND_COLUMN_IN_BLOCK end
  | Throws e => list_ops os (data b) = Throws e
  end.
Proof.
  revert b. induction os as [|o os IH]; intros b Hx Hn; cbn [run_ops list_ops new_names] in *.
  - split_and!; [done|done|]. intros n. unfold getByName. by rewrite index_find.
  - destruct Hn as [Hn Hns]. pose proof (run_op_refines o b Hx Hn) as Ho. destruct (run_op o b) as [b1|e]; cbn [mbind outcome_bind].
    + destruct Ho as [E Hx1]. rewrite E in *. cbn [mbind outcome_bind]. by apply IH.
    + by rewrite Ho.
Qed.

(** The index of a block never dangles.  Whatever operations have been done,
    also with names that occur twice, an entry of the index leads to a column
    of that name, so [getByName] returns a column of the name it was asked for
    or throws [NOT_FOUND_COLUMN_IN_BLOCK]. *)
Theorem index_never_dangles os b n :
  run_ops os empty_block = Returns b ->
  match getByName b n with
  | Returns e => name e = n /\ e ∈ data b
  | Throws e => e = NOT_FOUND_COLUMN_IN_BLOCK /\ has b n = false
  end.
Proof.
  intros E. assert (sound b) as Hb.
  { assert (sound empty_block) as H0 by (apply indexed_sound, empty_indexed). revert H0 E. generalize empty_block. induction os as [|o os IH]; intros b0 H0 E; cbn in E; [by injection E as <-|].
    destruct (run_op o b0) as [b1|] eqn:Eo; [|done]. apply (IH b1); [by eapply run_op_sound|done]. }
  unfold getByName, has. destruct (index_by_name b !! n) as [i|] eqn:Ei; [|done]. destruct (Hb n i Ei) as (e & He & En). rewrite (cell_lookup _ _ _ He).
  split; [done|]. by eapply list_elem_of_lookup_2.
Qed.

(** A constant column stands for its full column.  Filtering, permuting and
    cutting a constant gives a constant, and materialising it gives what the
    same operation gives on the materialised column. *)
Theorem constant_columns x n filt perm limit start length_ uninitialised :
  bounded [x] -> bounded (replicate n x) -> length filt = n -> Forall (fun b => 0 <= b < 128) filt ->
  (forall k, length (uninitialised k) = k) -> (ColumnString.permuted limit n <= length perm)%nat ->
  NoDup (take (ColumnString.permuted limit n) perm) -> Forall (fun j => (j < n)%nat) (take (ColumnString.permuted limit n) perm) -> (start + length_ <= n)%nat ->
  convertToFullColumnIfConst (constant x n) = Returns (Some (full x n)) /\
  (exists m, column_filter (constant x n) filt = Returns (constant x m) /\ column_filter (full x n) filt = Returns (full x m) /\
    convertToFullColumnIfConst (constant x m) = Returns (Some (full x m))) /\
  (exists m, column_permute uninitialised (constant x n) perm limit = Returns (constant x m) /\ column_permute uninitialised (full x n) perm limit = Returns (full x m) /\
    convertToFullColumnIfConst (constant x m) = Returns (Some (full x m))) /\
  column_cut (constant x n) start length_ = Returns (constant x length_) /\ column_cut (full x n) start length_ = Returns (full x length_).
Proof.
  intros Hx Hb Hl Hf Hu Hk Hd Hj Hc. pose proof (bounded_length _ Hb) as Hz. unfold zlen in Hz. rewrite length_replicate in Hz.
  assert (zlen filt < 2 ^ 64) by (unfold zlen; lia). pose proof (positives_range filt) as R. unfold zlen in R.
  split_and!; [by apply constant_full|exists (Z.to_nat (positives filt))|exists (ColumnString.permuted limit n)| |].
  - split_and!; [| |apply constant_full; [done|]; apply (bounded_prefix _ n); [lia|done]].
    + cbn [column_filter constant]. rewrite (proj2 (Nat.eqb_eq _ _)) by lia. cbn [negb]. rewrite countBytesInFilter_counts by done. apply constant_create.
    + cbn [column_filter full]. rewrite ColumnString.filter_column; [|done|by rewrite length_replicate|done]. by rewrite select_replicate.
  - assert (ColumnString.permuted limit n <= n)%nat by (unfold ColumnString.permuted; destruct (limit =? 0)%nat; lia).
    split_and!; [| |apply constant_full; [done|]; apply (bounded_prefix _ n); [lia|done]].
    + cbn [column_permute constant]. fold (ColumnString.permuted limit n). rewrite (proj2 (Nat.ltb_ge _ _)) by lia. apply constant_create.
    + cbn [column_permute full]. pose proof (ColumnString.permute_column uninitialised (replicate n x) perm limit Hb Hu) as Hp. rewrite length_replicate in Hp. fold (ColumnString.permuted limit n) in Hp.
      rewrite Hp by done. cbn [mbind outcome_bind]. unfold mret, outcome_ret, full. do 3 f_equal. revert Hj Hk. set (k := ColumnString.permuted limit n). intros Hj Hk.
      transitivity (replicate (length (take k perm)) x); [|rewrite length_take; f_equal; lia]. induction Hj as [|j p Hj _ IH]; [done|].
      rewrite (ColumnString.pick_cons _ _ x) by (by apply lookup_replicate). cbn [length replicate]. f_equal. apply IH.
  - cbn [column_cut constant]. rewrite constant_create. done.
  - cbn [column_cut full]. rewrite ColumnString.cut_column; [|done|rewrite length_replicate; lia|rewrite length_replicate; lia]. cbn [mbind outcome_bind].
    unfold mret, outcome_ret, full. do 3 f_equal. rewrite drop_replicate, take_replicate. f_equal. lia.
Qed.

(** ** Witnesses *)

Definition demo_elem (n : list Z) : ColumnWithTypeAndName := Elem_of DataTypeString n.

Lemma blocks_refine_witness :
  match run_ops [Insert (demo_elem [97]); InsertAt 0 (demo_elem [98]); InsertUnique (demo_elem [97]); EraseName [98]] empty_block with
  | Returns b' => list_ops [Insert (demo_elem [97]); InsertAt 0 (demo_elem [98]); InsertUnique (demo_elem [97]); EraseName [98]] [] = Returns (data b') /\ indexed b' /\
      forall n, getByName b' n = match find_name n (data b') with Some i => cell (data b') i | None => Throws NOT_FOUND_COLUMN_IN_BLOCK end
  | Throws e => list_ops [Insert (demo_elem [97]); InsertAt 0 (demo_elem [98]); InsertUnique (demo_elem [97]); EraseName [98]] [] = Throws e
  end.
Proof.
  refine (blocks_refine [Insert (demo_elem [97]); InsertAt 0 (demo_elem [98]); InsertUnique (demo_elem [97]); EraseName [98]] empty_block empty_indexed _).
  cbn. repeat split; repeat constructor; done.
Defined.

Lemma index_never_dangles_witness :
  exists b, run_ops [Insert (demo_elem [97]); Insert (demo_elem [97]); Erase 1] empty_block = Returns b /\
    match getByName b [97] with
    | Returns e => name e = [97] /\ e ∈ data b
    | Throws e => e = NOT_FOUND_COLUMN_IN_BLOCK /\ has b [97] = false
    end.
Proof. eexists. split; [reflexivity|]. exact (index_never_dangles [Insert (demo_elem [97]); Insert (demo_elem [97]); Erase 1] _ [97] eq_refl). Defined.

(** With a name that occurs twice, erasing one column makes the other
    invisible to lookups by name. *)
Lemma duplicate_name_lost :
  exists b e, run_ops [Insert (demo_elem [97]); Insert (demo_elem [97]); Erase 1] empty_block = Returns b /\ data b = [e] /\ name e = [97] /\ has b [97] = false.
Proof. do 2 eexists. split; [reflexivity|]. split_and!; reflexivity. Qed.

Lemma constant_columns_witness :
  convertToFullColumnIfConst (constant [97] 3) = Returns (Some (full [97] 3)) /\
  (exists m, column_filter (constant [97] 3) [1; 0; 1] = Returns (constant [97] m) /\ column_filter (full [97] 3) [1; 0; 1] = Returns (full [97] m) /\
    convertToFullColumnIfConst (constant [97] m) = Returns (Some (full [97] m))) /\
  (exists m, column_permute (fun k => replicate k 7) (constant [97] 3) [2; 0]%nat 2 = Returns (constant [97] m) /\ column_permute (fun k => replicate k 7) (full [97] 3) [2; 0]%nat 2 = Returns (full [97] m) /\
    convertToFullColumnIfConst (constant [97] m) = Returns (Some (full [97] m))) /\
  column_cut (constant [97] 3) 1 2 = Returns (constant [97] 2) /\ column_cut (full [97] 3) 1 2 = Returns (full [97] 2).
Proof.
  refine (constant_columns [97] 3 [1; 0; 1] [2; 0]%nat 2 1 2 (fun k => replicate k 7) _ _ eq_refl _ (fun k => length_replicate k 7) _ _ _ _); try (vm_compute; done);
    try (repeat constructor; lia). apply (bool_decide_unpack _). vm_compute. exact I.
Defined.
