(* ===== verification/NativeFormat.v ===== *)
(** * Blocks as bytes

    The Native format, in which servers exchange blocks and store them in files:
    [NativeBlockOutputStream] and [NativeBlockInputStream]
    (dbms/src/DataStreams), with [BlockInfo] (dbms/src/Core/BlockInfo.h and .cpp).
    The streams are those without an index, which only files use.  The
    information about a block is kept beside it.  Data types are made from their
    names by the factory of the server, which is a parameter.

    Shown: a block that is written is read back, with its information, its names
    and types, and constants as full columns, over all buffers; over compressed
    buffers too, whose [readBig] takes another way; a stream that ends inside of
    the numbers of a column is refused. *)

From stdpp Require Import base list option numbers.
From Stdlib Require Import ZArith Lia.
From S2P Require Import Prelude IOMonad ReadBuffers BufferSources WriteBuffers VarInt TextStrings TextFormat.
From S2P Require StringsColumn.
Import StringsColumn (zlen, zlen_app, zlen_nonneg).
From S2P Require ColumnString ColumnVector PODArray.
Import ColumnString (ColumnString, CString, column_of, bounded, term).
Import ColumnVector (ColumnVector).
From S2P Require Import CompressedBuffers.
From S2P Require Import DataTypeBulk.
From S2P Require Import Blocks.

#[local] Open Scope Z_scope.
#[local] Open Scope word_scope.

(** ** Information about a block *)

(** [bucket_num] is an [Int32]. *)
Record BlockInfo := MkInfo { is_overflows : bool; bucket_num : Z }.

Definition default_info : BlockInfo := MkInfo false (-1).

Definition int32 (x : Z) : Z := signed 32 (u32 x).

Definition info_write {D} `{WriteBuffer D} (i : BlockInfo) : M (wbuf D) unit :=
  _ ← writeVarUInt 1;
  _ ← WriteBuffers.write [Z.b2z (is_overflows i)];
  _ ← writeVarUInt 2;
  _ ← WriteBuffers.write (le_bytes 4 (u32 (bucket_num i)));
  writeVarUInt 0.

(** Fields come in any order until number 0. *)
Fixpoint info_read {D} `{ReadBuffer D} (fuel : nat) (i : BlockInfo) : M (rbuf D) BlockInfo :=
  match fuel with
  | O => throw NO_FUEL
  | S fuel =>
      field_num ← readVarUInt;
      if field_num =? 0 then mret i
      else if field_num =? 1 then
        bytes ← readStrict 1;
        info_read fuel (MkInfo (negb (le_value bytes =? 0)) (bucket_num i))
      else if field_num =? 2 then
        bytes ← readStrict 4;
        info_read fuel (MkInfo (is_overflows i) (int32 (le_value bytes)))
      else throw UNKNOWN_BLOCK_INFO_FIELD
  end.

(** ** Data types *)

(** The names of the types whose columns are modelled. *)
Definition String_name : list Z := [83; 116; 114; 105; 110; 103].
Definition UInt64_name : list Z := [85; 73; 110; 116; 54; 52].

Definition getName (t : IDataType) : list Z := match createColumn t with StringColumn _ => String_name | _ => UInt64_name end.

(** The virtual functions of the type; the casts of columns are checked. *)
Definition serializeBinaryBulk {D} `{WriteBuffer D} (t : IDataType) (c : IColumn) (offset limit : Z) : M (wbuf D) unit :=
  match createColumn t, c with
  | StringColumn _, StringColumn c => string_serializeBinaryBulk c offset limit
  | UInt64Column _, UInt64Column x => number_serializeBinaryBulk 8 x offset limit
  | _, _ => throw BAD_CAST
  end.

(** Into a column that [createColumn] has made. *)
Definition deserializeBinaryBulk {D} `{ReadBuffer D} `{BigReader D} (fresh : Z -> list Z) (hint : size_hint) (t : IDataType) (limit : nat) : M (rbuf D) IColumn :=
  match createColumn t with
  | StringColumn c =>
      let chars := ColumnString.chars c in
      r ← string_deserializeBinaryBulk fresh hint (PODArray.Pod chars (zlen chars) (zlen chars)) (ColumnString.offsets c) limit;
      mret (StringColumn (CString r.2 (PODArray.contents r.1)))
  | UInt64Column x => r ← number_deserializeBinaryBulk 8 x limit; mret (UInt64Column r)
  | ConstColumn _ _ => throw BAD_CAST
  end.

(** ** Writing *)

Section Output.
Context {D : Type} `{WriteBuffer D}.

Definition writeData (t : IDataType) (column_ : option IColumn) (offset limit : Z) : M (wbuf D) unit :=
  match column_ with
  | None => throw NULL_POINTER
  | Some c =>
      converted ← lift (convertToFullColumnIfConst c);
      serializeBinaryBulk t (default c converted) offset limit
  end.

Definition DBMS_MIN_REVISION_WITH_TIME_ZONE_PARAMETER_IN_DATETIME_DATA_TYPE : Z := 54337.

Definition DateTime_name : list Z := [68; 97; 116; 101; 84; 105; 109; 101].

Definition startsWith (s prefix : list Z) : bool := bool_decide (take (length prefix) s = prefix).

Definition sent_name (client_revision : Z) (t : IDataType) : list Z :=
  let type_name := getName t in
  if (client_revision <? DBMS_MIN_REVISION_WITH_TIME_ZONE_PARAMETER_IN_DATETIME_DATA_TYPE) && startsWith type_name (DateTime_name ++ [40])
  then DateTime_name else type_name.

Fixpoint write_columns (client_revision : Z) (b : Block) (rows_ : nat) (i n : nat) : M (wbuf D) unit :=
  match n with
  | O => mret tt
  | S n =>
      e ← lift (safeGetByPosition b i);
      _ ← writeStringBinary (name e);
      _ ← writeStringBinary (sent_name client_revision (type e));
      _ ← (if negb (rows_ =? 0)%nat then writeData (type e) (column e) 0 0 else mret tt);
      write_columns client_revision b rows_ (S i) n
  end.

Definition write (client_revision : Z) (info : BlockInfo) (b : Block) : M (wbuf D) unit :=
  _ ← (if 0 <? client_revision then info_write info else mret tt);
  _ ← lift (checkNumberOfRows b);
  _ ← writeVarUInt (Z.of_nat (columns b));
  _ ← writeVarUInt (Z.of_nat (rows b));
  write_columns client_revision b (rows b) 0 (columns b).
End Output.

(** ** Reading *)

Section Input.
Context {D : Type} `{ReadBuffer D} `{BigReader D} (fresh : Z -> list Z).
Context (data_type_factory : list Z -> outcome IDataType).

Definition DEFAULT_MAX_STRING_SIZE : Z := 16777215.

Definition readData (t : IDataType) (rows_ : nat) (hint : size_hint) : M (rbuf D) IColumn :=
  c ← deserializeBinaryBulk fresh hint t rows_;
  if negb (column_size c =? rows_)%nat then throw CANNOT_READ_ALL_DATA else mret c.

(** [hints] are the hints about the columns. *)
Fixpoint read_columns (hints : nat -> size_hint) (rows_ : nat) (i n : nat) (res : Block) : M (rbuf D) Block :=
  match n with
  | O => mret res
  | S n =>
      name_ ← readStringBinary DEFAULT_MAX_STRING_SIZE;
      type_name ← readStringBinary DEFAULT_MAX_STRING_SIZE;
      t ← lift (data_type_factory type_name);
      c ← (if negb (rows_ =? 0)%nat then readData t rows_ (hints i) else mret (createColumn t));
      read_columns hints rows_ (S i) n (insert res (Elem (Some c) t name_))
  end.

Definition readImpl (fuel : nat) (server_revision : Z) (hints : nat -> size_hint) : M (rbuf D) (BlockInfo * Block) :=
  e ← eof;
  if e : bool then mret (default_info, empty_block)
  else
    info ← (if 0 <? server_revision then info_read fuel default_info else mret default_info);
    columns_ ← readVarUInt;
    rows_ ← readVarUInt;
    res ← read_columns hints (Z.to_nat rows_) 0 (Z.to_nat columns_) empty_block;
    mret (info, res).
End Input.

(** ** The values of columns *)

Inductive value :=
  | Strings (ss : list (list Z))
  | Numbers (x : list Z).

Definition value_type (v : value) : IDataType := match v with Strings _ => DataTypeString | Numbers _ => DataTypeUInt64 end.
Definition value_column (v : value) : IColumn := match v with Strings ss => StringColumn (column_of ss) | Numbers x => UInt64Column x end.
Definition value_bytes (v : value) : list Z := match v with Strings ss => concat (map encode ss) | Numbers x => ColumnVector.to_bytes 8 x end.
Definition value_size (v : value) : nat := match v with Strings ss => length ss | Numbers x => length x end.

(** Sizes far from the limits of 64 bits. *)
Definition value_ok (v : value) : Prop :=
  match v with
  | Strings ss => zlen (concat (map term ss)) <= 2 ^ 61
  | Numbers x => Forall (fits 64) x /\ zlen x <= 2 ^ 61
  end.

(** A column with these values, as such or as a constant. *)
Inductive column_value : IColumn -> value -> Prop :=
  | string_value c ss : string_column c ss -> column_value c (Strings ss)
  | number_value x : column_value (UInt64Column x) (Numbers x)
  | number_constant x n : column_value (ConstColumn (UInt64Column [x]) n) (Numbers (replicate n x)).

Definition elem_value (e : ColumnWithTypeAndName) (v : value) : Prop := type e = value_type v /\ exists c, column e = Some c /\ column_value c v.

(** The element with a full column. *)
Definition full_elem (e : ColumnWithTypeAndName) (v : value) : ColumnWithTypeAndName := Elem (Some (value_column v)) (type e) (name e).

Lemma column_value_size c v : column_value c v -> column_size c = value_size v.
Proof. intros [c' ss Hs|x|x n]; cbn; [by apply string_column_size|done|by rewrite length_replicate]. Qed.

Lemma column_value_full c v : column_value c v -> value_ok v -> (converted ← convertToFullColumnIfConst c; mret (default c converted)) = Returns (value_column v).
Proof.
  intros [c' ss Hs|x|x n] Hv; [apply full_string; [done|unfold bounded; cbn in Hv; lia]|done|]. cbn [value_column value_ok] in *. destruct Hv as [_ Hn].
  unfold zlen in Hn. rewrite length_replicate in Hn. cbn [convertToFullColumnIfConst]. unfold convertToFullColumn. cbn [column_replicate ColumnVector.replicate_column].
  unfold ColumnVector.replicate_column. cbn [length Nat.eqb negb ColumnVector.replicate_loop app]. unfold mret, outcome_ret. cbn [mbind outcome_bind default].
  rewrite Z.sub_0_r, wrap_small by (unfold fits; lia). by rewrite Nat2Z.id.
Qed.

(** ** What is written *)

Definition string_bytes (s : list Z) : list Z := writeVarUInt_mem (Z.of_nat (length s)) ++ s.

Definition info_bytes (i : BlockInfo) : list Z :=
  writeVarUInt_mem 1 ++ [Z.b2z (is_overflows i)] ++ writeVarUInt_mem 2 ++ le_bytes 4 (u32 (bucket_num i)) ++ writeVarUInt_mem 0.

Definition elem_bytes (rows_ : nat) (e : ColumnWithTypeAndName) (v : value) : list Z :=
  string_bytes (name e) ++ string_bytes (getName (type e)) ++ (if (rows_ =? 0)%nat then [] else value_bytes v).

Definition block_bytes (revision : Z) (info : BlockInfo) (b : Block) (vs : list value) : list Z :=
  (if 0 <? revision then info_bytes info else []) ++ writeVarUInt_mem (Z.of_nat (columns b)) ++ writeVarUInt_mem (Z.of_nat (rows b)) ++
  concat (zip_with (elem_bytes (rows b)) (data b) vs).

Section Written.
Context {D : Type} `{L : WriteBufferLaws D}.

Lemma writes_info i : writes (D := D) (info_write i) tt (info_bytes i).
Proof. repeat (eapply writes_bind; [first [apply writeVarUInt_spec|apply writes_write]|]). apply writeVarUInt_spec. Qed.

Lemma writes_data c v : column_value c v -> value_ok v -> writes (D := D) (writeData (value_type v) (Some c) 0 0) tt (value_bytes v).
Proof.
  intros Hc Hv. pose proof (column_value_full c v Hc Hv) as Hf. cbn [writeData].
  destruct (convertToFullColumnIfConst c) as [converted|]; [|done]. cbn [mbind outcome_bind] in Hf. injection Hf as Hf. eapply writes_lift; [reflexivity|]. rewrite Hf.
  destruct v as [ss|x]; cbn [value_type value_column value_bytes value_ok] in *.
  - pose proof (writes_string_bulk (D := D) ss 0 0) as Hw. cbn [Nat.eqb drop] in Hw. apply Hw; [unfold bounded; lia|lia|cbn; lia].
  - apply (writes_number_bulk (D := D) 8 x). lia.
Qed.

Lemma sent_name_known r v : sent_name r (value_type v) = getName (value_type v).
Proof. unfold sent_name. destruct v; cbn; by rewrite andb_false_r. Qed.

Lemma writes_columns r b vs i n :
  Forall2 elem_value (data b) vs -> Forall value_ok vs -> (i + n <= length (data b))%nat ->
  writes (D := D) (write_columns r b (rows b) i n) tt (concat (take n (drop i (zip_with (elem_bytes (rows b)) (data b) vs)))).
Proof.
  intros Hvs Hok. revert i. induction n as [|n IH]; intros i Hn; [apply writes_ret|]. cbn [write_columns].
  destruct (lookup_lt_is_Some_2 (data b) i ltac:(lia)) as [e He]. destruct (Forall2_lookup_l _ _ _ _ _ Hvs He) as (v & Hv & Ht & c & Ec & Hc).
  pose proof (proj1 (list.Forall_lookup _ _) Hok _ _ Hv) as Hvok. eapply writes_lift; [by apply safeGet_lookup|].
  erewrite (drop_S (zip_with _ _ _)) by (rewrite lookup_zip_with, He, Hv; reflexivity). cbn [take concat]. unfold elem_bytes. rewrite <- !app_assoc.
  eapply writes_bind; [apply writes_stringBinary|]. eapply writes_bind; [rewrite Ht, sent_name_known; apply writes_stringBinary|].
  eapply writes_bind; [|apply IH; lia]. destruct (rows b =? 0)%nat; cbn [negb]; [apply writes_ret|]. rewrite Ht, Ec. by apply writes_data.
Qed.

Lemma writes_block r info b vs :
  checkNumberOfRows b = Returns tt -> Forall2 elem_value (data b) vs -> Forall value_ok vs -> writes (D := D) (write r info b) tt (block_bytes r info b vs).
Proof.
  intros Hc Hvs Hok. unfold write, block_bytes. eapply writes_bind; [destruct (0 <? r); [apply writes_info|apply writes_ret]|].
  eapply writes_lift; [exact Hc|]. do 2 (eapply writes_bind; [apply writeVarUInt_spec|]).
  pose proof (writes_columns r b vs 0 (columns b) Hvs Hok (Nat.le_refl _)) as Hw. rewrite drop_0, take_ge in Hw; [done|]. rewrite length_zip_with. unfold columns. lia.
Qed.
End Written.

(** ** What is read *)

Lemma reads_lift {D : Type} `{L : ReadBufferLaws D} {A B} (r : outcome A) a (k : A -> M (rbuf D) B) l r' l' :
  r = Returns a -> reads (k a) l r' l' -> reads (lift r ≫= k) l r' l'.
Proof. intros -> Hk b t St. exact (Hk b t St). Qed.

Lemma info_bytes_nonempty i l : info_bytes i ++ l <> [].
Proof. done. Qed.

Lemma varuint_nonempty x l : writeVarUInt_mem x ++ l <> [].
Proof. unfold writeVarUInt_mem. cbn [writeVarUInt_mem_loop]. by destruct (_ =? 0). Qed.

Lemma int32_signed x : - 2 ^ 31 <= x < 2 ^ 31 -> int32 (u32 x) = x.
Proof.
  intros Hx. unfold int32, signed. rewrite wrap_wrap by lia. unfold u32, wrap. destruct (Z.ltb_spec (x mod 2 ^ 32) (2 ^ (32 - 1))); change (2 ^ (32 - 1)) with (2 ^ 31) in *;
    change (2 ^ 32) with 4294967296 in *; change (2 ^ 31) with 2147483648 in *; dlia.
Qed.

Section ReadBack.
Context {D : Type} `{L : ReadBufferLaws D} `{BR : BigReader D} `{BL : !BigReaderLaws D}.
Context (fresh : Z -> list Z) (Hfresh : forall n, zlen (fresh n) = Z.max 0 n).
Context (data_type_factory : list Z -> outcome IDataType).
Context (HString : data_type_factory String_name = Returns DataTypeString) (HUInt64 : data_type_factory UInt64_name = Returns DataTypeUInt64).

Lemma reads_strict s l : reads (readStrict (length s)) (s ++ l) (Returns s) l.
Proof.
  pose proof (reads_readStrict (length s) (s ++ l)) as Hr. rewrite take_app_length, drop_app_length, (proj2 (Nat.leb_le _ _)) in Hr by (rewrite length_app; lia). exact Hr.
Qed.

Lemma reads_info fuel i l :
  (3 <= fuel)%nat -> - 2 ^ 31 <= bucket_num i < 2 ^ 31 -> reads (info_read fuel default_info) (info_bytes i ++ l) (Returns i) l.
Proof.
  intros Hf Hi. do 3 (destruct fuel as [|fuel]; [lia|]). unfold info_bytes. rewrite <- !app_assoc. cbn [info_read].
  eapply reads_bind; [apply reads_varuint; lia|]. change (1 mod 2 ^ 63) with 1. cbn [Z.eqb Pos.eqb].
  eapply reads_bind; [apply (reads_strict [Z.b2z (is_overflows i)])|]. eapply reads_bind; [apply reads_varuint; lia|]. change (2 mod 2 ^ 63) with 2. cbn [Z.eqb Pos.eqb].
  pose proof (reads_strict (le_bytes 4 (u32 (bucket_num i)))) as Hs. rewrite length_le_bytes in Hs. eapply reads_bind; [apply Hs|].
  eapply reads_bind; [apply reads_varuint; lia|]. change (0 mod 2 ^ 63) with 0. cbn [Z.eqb].
  assert (MkInfo (negb (le_value [Z.b2z (is_overflows i)] =? 0)) (int32 (le_value (le_bytes 4 (u32 (bucket_num i))))) = i) as E.
  { rewrite le_value_bytes by (apply (wrap_fits 32); lia). rewrite int32_signed by done. destruct i as [[|] n]; done. }
  cbn [is_overflows bucket_num]. rewrite E. apply reads_ret.
Qed.

Lemma reads_data v hint l :
  value_ok v -> 0 <= chars_to_reserve hint <= 2 ^ 61 -> reads (readData fresh (value_type v) (value_size v) hint) (value_bytes v ++ l) (Returns (value_column v)) l.
Proof.
  intros Hv Hh. unfold readData. eapply (reads_bind _ _ _ (value_column v)).
  - destruct v as [ss|x]; cbn [value_type value_size value_bytes value_ok value_column] in *.
    + unfold deserializeBinaryBulk. cbn [createColumn DataTypeString]. change (PODArray.Pod _ _ _) with PODArray.empty_array.
      apply (gives_value _ (fun r => StringColumn (CString r.2 (PODArray.contents r.1))) _ _ _ _ (string_bulk_reads fresh Hfresh hint ss l Hh Hv)). intros a Ha. by rewrite Ha.
    + destruct Hv as [Hx _]. unfold deserializeBinaryBulk. cbn [createColumn DataTypeUInt64]. eapply reads_bind; [apply (number_bulk_reads 8 x); [lia|done]|]. apply reads_ret.
  - assert (column_size (value_column v) = value_size v) as -> by (destruct v; cbn; [apply ColumnString.size_column|done]). rewrite Nat.eqb_refl. apply reads_ret.
Qed.

Lemma reads_name s l : zlen s <= DEFAULT_MAX_STRING_SIZE -> reads (readStringBinary DEFAULT_MAX_STRING_SIZE) (string_bytes s ++ l) (Returns s) l.
Proof. intros Hs. unfold string_bytes. rewrite <- app_assoc. apply reads_readStringBinary; unfold zlen, DEFAULT_MAX_STRING_SIZE in *; lia. Qed.

Lemma reads_columns hints rows_ i es vs res l :
  (forall i, 0 <= chars_to_reserve (hints i) <= 2 ^ 61) -> Forall2 elem_value es vs -> Forall value_ok vs -> Forall (fun v => value_size v = rows_) vs ->
  Forall (fun e => zlen (name e) <= DEFAULT_MAX_STRING_SIZE) es ->
  reads (read_columns fresh data_type_factory hints rows_ i (length es) res) (concat (zip_with (elem_bytes rows_) es vs) ++ l)
    (Returns (foldl insert res (zip_with full_elem es vs))) l.
Proof.
  intros Hh Hvs. revert i res. induction Hvs as [|e v es vs [Ht _] Hvs IH]; intros i res Hok Hsz Hn; [apply reads_ret|].
  apply list.Forall_cons in Hok as [Hv Hok]. apply list.Forall_cons in Hsz as [Hs Hsz]. apply list.Forall_cons in Hn as [Hname Hn].
  cbn [length read_columns zip_with concat foldl]. unfold elem_bytes at 1. rewrite <- !app_assoc. eapply reads_bind; [by apply reads_name|].
  eapply reads_bind; [apply reads_name; rewrite Ht; by destruct v|]. eapply (reads_lift _ (type e)); [rewrite Ht; by destruct v|].
  eapply (reads_bind _ _ _ (value_column v) (concat (zip_with (elem_bytes rows_) es vs) ++ l)).
  - destruct (Nat.eqb_spec rows_ 0) as [E0|E0]; cbn [negb app]; [rewrite <- Hs in E0|rewrite Ht, <- Hs; by apply reads_data].
    assert (createColumn (type e) = value_column v) as -> by (rewrite Ht; destruct v as [ss|x]; cbn in E0; apply nil_length_inv in E0 as ->; done). apply reads_ret.
  - apply (IH (S i) (insert res (full_elem e v)) Hok Hsz Hn).
Qed.
End ReadBack.

(** [CompressedReadBuffer] overrides [readBig]. *)
#[export] Instance compressed_readBig {D : Type} `{ReadBuffer D} `{Codecs} : BigReader (compressed_source D) := CompressedBuffers.readBig.

#[export] Instance compressed_readBig_laws {D : Type} `{L : ReadBufferLaws D} `{CL : CodecLaws} : BigReaderLaws (L := compressed_read_laws) (compressed_source D).
Proof. intros n l. apply CompressedBuffers.reads_readBig. Qed.

(** What a block must be like. *)
Record sendable (info : BlockInfo) (b : Block) (vs : list value) : Prop := {
  sd_rows : checkNumberOfRows b = Returns tt;
  sd_values : Forall2 elem_value (data b) vs;
  sd_ok : Forall value_ok vs;
  sd_names : Forall (fun e => zlen (name e) <= DEFAULT_MAX_STRING_SIZE) (data b);
  sd_columns_num : Z.of_nat (columns b) < 2 ^ 63;
  sd_rows_num : Z.of_nat (rows b) < 2 ^ 63;
  sd_bucket : - 2 ^ 31 <= bucket_num info < 2 ^ 31
}.

(** The server's side of reading: memory, the factory, hints. *)
Record receiver (fresh : Z -> list Z) (data_type_factory : list Z -> outcome IDataType) (hints : nat -> size_hint) : Prop := {
  rc_fresh : forall n, zlen (fresh n) = Z.max 0 n;
  rc_string : data_type_factory String_name = Returns DataTypeString;
  rc_uint64 : data_type_factory UInt64_name = Returns DataTypeUInt64;
  rc_hints : forall i, 0 <= chars_to_reserve (hints i) <= 2 ^ 61
}.

Definition received (revision : Z) (info : BlockInfo) (b : Block) (vs : list value) : BlockInfo * Block :=
  (if 0 <? revision then info else default_info, foldl insert empty_block (zip_with full_elem (data b) vs)).

Lemma value_sizes b vs : checkNumberOfRows b = Returns tt -> Forall2 elem_value (data b) vs -> Forall (fun v => value_size v = rows b) vs.
Proof.
  intros Hc Hvs. apply list.Forall_lookup. intros i v Hv. destruct (Forall2_lookup_r _ _ _ _ _ Hvs Hv) as (e & He & _ & c & Ec & Hcv).
  destruct (proj1 (list.Forall_lookup _ _) (checked_sizes b Hc) i e He) as (c' & Ec' & Hs). rewrite <- (column_value_size c v Hcv). by assert (c = c') as -> by congruence.
Qed.

Lemma reads_block {R} `{LR : ReadBufferLaws R} `{BR : BigReader R} `{BL : !BigReaderLaws R} fresh data_type_factory revision info b vs hints fuel rest :
  receiver fresh data_type_factory hints -> sendable info b vs -> (3 <= fuel)%nat ->
  reads (D := R) (readImpl fresh data_type_factory fuel revision hints) (block_bytes revision info b vs ++ rest) (Returns (received revision info b vs)) rest.
Proof.
  intros [Hfresh HS HU Hh] [Hc Hvs Hok Hn Hcols Hrows Hi] Hf. pose proof (value_sizes b vs Hc Hvs) as Hsz.
  unfold readImpl, block_bytes. eapply reads_bind; [apply reads_eof|].
  rewrite bool_decide_eq_false_2 by (destruct (0 <? revision); [done|]; cbn [app]; rewrite <- app_assoc; apply varuint_nonempty). cbv iota. rewrite <- !app_assoc.
  eapply (reads_bind _ _ _ (if 0 <? revision then info else default_info)); [destruct (0 <? revision); [by apply reads_info|apply reads_ret]|].
  eapply reads_bind; [apply reads_varuint; lia|]. eapply reads_bind; [apply reads_varuint; lia|]. rewrite !Z.mod_small by lia. rewrite !Nat2Z.id.
  eapply reads_bind; [by apply reads_columns|]. apply reads_ret.
Qed.

(** ** Properties *)

(** A block that is written in the Native format is read back, over all
    buffers, whatever the revision, the hints about sizes and the contents of new
    memory: the information about the block, its names and types, and its
    columns, where constants have become full columns; what follows in the
    stream is left. *)
Theorem native_write_read {W R} `{LW : WriteBufferLaws W} `{LR : ReadBufferLaws R} `{BR : BigReader R} `{BL : !BigReaderLaws R}
    fresh data_type_factory revision info b vs hints fuel rest :
  receiver fresh data_type_factory hints -> sendable info b vs -> (3 <= fuel)%nat ->
  exists w, writes (D := W) (write revision info b) tt w /\
    reads (D := R) (readImpl fresh data_type_factory fuel revision hints) (w ++ rest) (Returns (received revision info b vs)) rest.
Proof. intros Hr Hs Hf. exists (block_bytes revision info b vs). split; [apply writes_block; apply Hs|by apply reads_block]. Qed.

(** C6: A block that goes through the Native format and compression arrives.  A
    block with columns of strings and of numbers, full or constant, of equal
    sizes, with names that a reader accepts ([sendable]), is written to a
    [CompressedWriteBuffer] with any method and any size of its buffer for which
    a compressed block of the buffer cannot be larger than the readers accept
    ([DBMS_MAX_COMPRESSED_SIZE]), which is then flushed; a [CompressedReadBuffer]
    over any buffer that delivers the bytes that came out reads the block,
    columns of numbers with its own [readBig]. *)
Theorem native_compressed {W} `{LW : WriteBufferLaws W} `{CL : CodecLaws} (out : wbuf W) t s mem fresh data_type_factory revision info b vs hints fuel :
  receiver fresh data_type_factory hints -> sendable info b vs -> (3 <= fuel)%nat ->
  wstate out [] t -> (0 < length mem)%nat -> CompressedBuffers.size_ok (length mem) ->
  exists o o' raw, write revision info b (CompressedWriteBuffer out s mem) = (Returns tt, o) /\ wnext o = (Returns tt, o') /\
    (exists t', wstate (CompressedBuffers.cw_out_buf o') raw t') /\
    forall R (RD : ReadBuffer R) (LR : ReadBufferLaws R) (i : rbuf R) u, state i raw u ->
      exists o'', readImpl fresh data_type_factory fuel revision hints (CompressedReadBuffer i) = (Returns (received revision info b vs), o'').
Proof.
  intros Hr Hs Hf St Hm Hsz.
  assert (writes (L := compressed_write_laws []) (write revision info b) tt (block_bytes revision info b vs)) as Hw by (apply (writes_block (L := compressed_write_laws [])); apply Hs).
  destruct (CompressedBuffers.compressed_pipe out t s mem (write revision info b) tt _ St Hm Hsz Hw) as (o & o' & raw & E1 & E2 & E3 & Hread).
  exists o, o', raw. split_and!; [done|done|done|]. intros R RD LR i u Si. eapply Hread; [exact Si|].
  pose proof (reads_block (LR := compressed_read_laws (D := R)) fresh data_type_factory revision info b vs hints fuel [] Hr Hs Hf) as H'. rewrite app_nil_r in H'. exact H'.
Qed.

(** A stream that ends inside of the numbers of a column is refused. *)
Theorem native_truncated {R} `{LR : ReadBufferLaws R} `{BR : BigReader R} `{BL : !BigReaderLaws R} fresh x hint l k :
  ColumnVector.to_bytes 8 x = l ++ k -> k <> [] -> reads (D := R) (readData fresh DataTypeUInt64 (length x) hint) l (Throws CANNOT_READ_ALL_DATA) [].
Proof.
  intros E Hk. pose proof (ColumnVector.length_to_bytes 8 x) as Hl. rewrite E, length_app in Hl. assert (0 < length k)%nat by (destruct k; [done|cbn; lia]).
  unfold readData, deserializeBinaryBulk, number_deserializeBinaryBulk. cbn [createColumn DataTypeUInt64].
  pose proof (big_reads (D := R) (8 * length x) l) as Hr. rewrite take_ge, drop_ge in Hr by lia.
  eapply reads_bind; [eapply reads_bind; [eapply reads_bind; [exact Hr|apply reads_ret]|apply reads_ret]|]. cbn [column_size app].
  assert (forall n m, length (ColumnVector.of_bytes 8 n m) = n) as Hlen by (induction n as [|n IH]; intros m; cbn; [done|by rewrite IH]).
  rewrite Hlen. destruct (Nat.eqb_spec (length l / 8) (length x)) as [E'|E']; [|apply reads_throw].
  pose proof (Nat.div_mod_eq (length l) 8). pose proof (Nat.mod_upper_bound (length l) 8 ltac:(lia)). lia.
Qed.

(** ** Witnesses *)

#[local] Existing Instances CompressedBuffers.storing CompressedBuffers.storing_laws.

Definition demo_block : Block :=
  Block_of [Elem (Some (constant [120; 121] 2)) DataTypeString [97]; Elem (Some (UInt64Column [5; 256])) DataTypeUInt64 [98]].

Definition demo_values : list value := [Strings [[120; 121]; [120; 121]]; Numbers [5; 256]].

Definition demo_info : BlockInfo := MkInfo true (-3).

Definition demo_factory (s : list Z) : outcome IDataType :=
  if bool_decide (s = String_name) then Returns DataTypeString else if bool_decide (s = UInt64_name) then Returns DataTypeUInt64 else Throws UNKNOWN_TYPE.

Definition demo_hints (i : nat) : size_hint := Hint 40 (if (i =? 0)%nat then From32 else Small).

Lemma demo_sendable : sendable demo_info demo_block demo_values.
Proof.
  split; [done| | | |done|done|cbn; lia].
  - constructor; [|constructor; [|constructor]]; (split; [done|]); eexists; (split; [reflexivity|]); [|constructor].
    apply string_value. exact (constant_strings [120; 121] 2 ltac:(done)).
  - repeat constructor; done.
  - repeat constructor; done.
Qed.

Lemma demo_receiver : receiver PODArray.demo_fresh demo_factory demo_hints.
Proof. split; [exact PODArray.demo_fresh_length|done|done|]. intros i. cbn. lia. Qed.

Lemma native_write_read_witness :
  exists w, writes (D := from_string) (write 54328 demo_info demo_block) tt w /\
    reads (D := concatenated from_memory) (readImpl (H0 := base_readBig) PODArray.demo_fresh demo_factory 3 54328 demo_hints) (w ++ [7])
      (Returns (received 54328 demo_info demo_block demo_values)) [7].
Proof.
  apply (native_write_read (W := from_string) (R := concatenated from_memory) (BR := base_readBig) PODArray.demo_fresh demo_factory 54328 demo_info demo_block demo_values demo_hints 3 [7]
    demo_receiver demo_sendable). lia.
Defined.

Lemma native_compressed_witness :
  exists o o' raw, write 0 demo_info demo_block (CompressedWriteBuffer demo_out (CompressionSettings_of LZ4) [0; 0; 0; 0; 0]) = (Returns tt, o) /\
    wnext o = (Returns tt, o') /\ (exists t', wstate (cw_out_buf o') raw t') /\
    forall R (RD : ReadBuffer R) (LR : ReadBufferLaws R) (i : rbuf R) u, state i raw u ->
      exists o'', readImpl PODArray.demo_fresh demo_factory 3 0 demo_hints (CompressedReadBuffer i) = (Returns (received 0 demo_info demo_block demo_values), o'').
Proof.
  apply (native_compressed demo_out 0 (CompressionSettings_of LZ4) [0; 0; 0; 0; 0] PODArray.demo_fresh demo_factory 0
    demo_info demo_block demo_values demo_hints 3 demo_receiver demo_sendable); [lia|exact demo_out_state|cbn; lia|vm_compute; congruence].
Defined.

Lemma native_truncated_witness :
  reads (D := from_memory) (readData (H0 := base_readBig) PODArray.demo_fresh DataTypeUInt64 2 (demo_hints 0)) [5; 0; 0; 0; 0; 0; 0; 0; 0; 1] (Throws CANNOT_READ_ALL_DATA) [].
Proof.
  apply (native_truncated (R := from_memory) (BR := base_readBig) PODArray.demo_fresh [5; 256] (demo_hints 0) [5; 0; 0; 0; 0; 0; 0; 0; 0; 1] [0; 0; 0; 0; 0; 0]); [reflexivity|discriminate].
Defined.
