(* ===== verification/AggregatorCalls.v ===== *)
(** * The strings aggregator as its caller sees it

    [CudaAggregator] owns one object of [CudaStringsAggregator]: it makes it,
    starts its threads, queues the columns of its blocks, waits for the result
    and reads it.  [StringsAggregatorCalls] is the interface of these calls, and
    [FollowsProtocol] says that they are runs of the protocol of the chunks
    (ChunkProtocol.v, StringsAggregator.v) under some interleaving, with the
    errors that come out of it.  The client is verified against the interface.

    [scheduled] is an implementation for one chunk that can be executed: in
    every call the calling thread moves when it can and otherwise a worker, until
    the call has ended.  That it always ends is shown with the measure of the
    protocol. *)

From stdpp Require Import base list option numbers gmap relations.
From Stdlib Require Import ZArith Lia Eqdep_dec.
From S2P Require Import Prelude IOMonad DeviceMemory.
From S2P Require StringsColumn ColumnString StringsHashTable.
Import StringsColumn (zlen, ends).
Import ColumnString (ColumnString, CString).
From S2P Require AggregateFunctions.
Import AggregateFunctions (CudaAggregateFunction, agg_data, AggregateLaws, BulkReturns).
From S2P Require ChunkState ChunkProtocol StringsAggregator AggregatorResult.
Import ChunkState (b_keys, b_vals, block).
Import ChunkProtocol (sys, main, data, terminated, MQueue, MFlush, MDone, MThrow, NotEnoughSpace, any_step, between, more, at_main, startProcessing).
Import StringsAggregator (agg, agg_chunks, agg_dev, agg_chunk_data, copies, read_error, OutsideOfBuffer, Duplicates, waitProcessed_result).

#[local] Open Scope Z_scope.

(** ** The interface *)

(** The number of rows, the keys and the values: the arguments of [queueData]
    are those of the columns. *)
Definition queue_args : Type := nat * ColumnString * ColumnString.

(** [create] is the constructor with the settings, [queue_data] is [queueData]
    with [waitQueueData] behind it, and [get_result] the entries of [getResult()]
    in the order of an iteration.  [joinable] tells that the threads have been
    started and not joined. *)
Class StringsAggregatorCalls (F : CudaAggregateFunction) := {
  object : Type;
  create : outcome object;
  start_processing : M object unit;
  queue_data : queue_args -> M object unit;
  wait_processed : M object unit;
  get_result : object -> list (list Z * agg_data);
  joinable : object -> bool
}.

(** The columns with the rows of a block. *)
Definition args_of (b : block) : queue_args :=
  (length (b_keys b), CString (ends 0 (b_keys b)) (concat (b_keys b)), CString (ends 0 (b_vals b)) (concat (b_vals b))).

(** What [waitProcessed] behind the joins throws. *)
Definition result_error (r : StringsHashTable.add_error + read_error) : error :=
  match r with
  | inl _ => RUNTIME_ERROR
  | inr OutsideOfBuffer => BUFFER_OVERRUN
  | inr Duplicates => RUNTIME_ERROR
  end.

(** A block did not fit into an empty buffer, or a worker has thrown. *)
Definition failed {F : CudaAggregateFunction} (s : sys (block := block) (G := agg F)) : Prop := main s = MThrow NotEnoughSpace \/ terminated s = true.

Section interface.
Context {F : CudaAggregateFunction} {L : AggregateLaws F} {B : BulkReturns F L}.
(** The settings, the device and the memory it gives. *)
Context (n str n_buf sz_buf : Z) (d : StringsHashTable.device) (l : list (AggregatorResult.allocations F)) (HN : (0 < length l)%nat).

#[local] Abbreviation protocol := (agg_chunk_data (length l) HN).
#[local] Abbreviation steps := (rtc (any_step (D := protocol))).
#[local] Abbreviation quiet := (rtc (between (D := protocol))).

(** The object runs, with the blocks [bs] queued. *)
Definition runs_with {C : StringsAggregatorCalls F} (sys_of : object -> sys (block := block) (G := agg F)) (g : agg F) (bs : list block) (o : object) : Prop :=
  quiet (startProcessing g bs) (sys_of o) /\ main (sys_of o) = MQueue [] /\ terminated (sys_of o) = false /\ joinable o = true.

(** The calls are runs of the protocol: other threads move during a call and
    between the calls. *)
Class FollowsProtocol (C : StringsAggregatorCalls F) := {
  sys_of : object -> sys (block := block) (G := agg F);

  create_ok : forall o, create = Returns o ->
    exists g o', AggregatorResult.construct n str n_buf sz_buf d l = inr g /\ start_processing o = (Returns tt, o') /\ runs_with sys_of g [] o';

  queue_ok : forall g bs o b, AggregatorResult.construct n str n_buf sz_buf d l = inr g -> runs_with sys_of g bs o ->
    exists r o', queue_data (args_of b) o = (r, o') /\ quiet (more [b] (sys_of o)) (sys_of o') /\ joinable o' = true /\
      match r with
      | Returns _ => main (sys_of o') = MQueue [] /\ terminated (sys_of o') = false
      | Throws e => main (sys_of o') = MThrow NotEnoughSpace /\ e = RUNTIME_ERROR \/ terminated (sys_of o') = true /\ e = TERMINATED
      end;

  wait_ok : forall g bs o, AggregatorResult.construct n str n_buf sz_buf d l = inr g -> runs_with sys_of g bs o ->
    exists r o', wait_processed o = (r, o') /\ steps (sys_of o) (sys_of o') /\
      (terminated (sys_of o') = true /\ r = Throws TERMINATED /\ joinable o' = true \/
       main (sys_of o') = MDone /\ joinable o' = false /\
       exists os, Forall2 copies os (tail (agg_chunks (data (sys_of o')))) /\
         match waitProcessed_result os (agg_dev (data (sys_of o'))) (agg_chunks (data (sys_of o'))) with
         | Some (inr (inr R)) => r = Returns tt /\ get_result o' ≡ₚ map_to_list R
         | Some (inr (inl e)) => r = Throws (result_error (inr e))
         | Some (inl e) => r = Throws (result_error (inl e))
         | None => False
         end)
}.

(** ** Queueing several blocks *)

Fixpoint feed {C : StringsAggregatorCalls F} (args : list queue_args) : M object unit :=
  match args with
  | [] => mret tt
  | a :: args => _ ← queue_data a; feed args
  end.

Context {C : StringsAggregatorCalls F} {P : FollowsProtocol C} (g : agg F).
Hypothesis Hg : AggregatorResult.construct n str n_buf sz_buf d l = inr g.
Hypothesis Hfresh : ChunkProtocol.fresh (D := protocol) g.

(** All blocks are queued, or an error ends the run. *)
Lemma feed_runs bs : forall queued o, runs_with sys_of g queued o ->
  exists r o', feed (map args_of bs) o = (r, o') /\ joinable o' = true /\
    match r with
    | Returns _ => runs_with sys_of g (queued ++ bs) o'
    | Throws e => (e = RUNTIME_ERROR \/ e = TERMINATED) /\
        exists bs', bs' `prefix_of` queued ++ bs /\ steps (startProcessing g bs') (sys_of o') /\ failed (sys_of o')
    end.
Proof.
  induction bs as [|b bs IH]; intros queued o Ho.
  { exists (Returns tt), o. rewrite app_nil_r. split; [done|]. split; [apply Ho|done]. }
  destruct (queue_ok g queued o b Hg Ho) as (r & o1 & E & Hq & Hj & Hr). pose proof (ChunkProtocol.quiet_queue g queued b _ _ Hfresh (proj1 Ho) Hq) as Hs. cbn [map feed]. destruct r as [[]|e].
  - rewrite (bind_returns _ _ _ _ _ E). destruct Hr as [Hm Ht].
    destruct (IH (queued ++ [b]) o1 (conj Hs (conj Hm (conj Ht Hj)))) as (r & o2 & E2 & Hj2 & Hr). exists r, o2.
    rewrite <- app_assoc in Hr. by split_and!.
  - rewrite (bind_throws _ _ _ _ _ E). exists (Throws e), o1. split_and!; [done..| |].
    + destruct Hr as [[_ ->]|[_ ->]]; auto.
    + exists (queued ++ [b]). split_and!; [exists bs; by rewrite <- app_assoc|by apply ChunkProtocol.between_any|].
      destruct Hr as [[Hm _]|[Ht _]]; [by left|by right].
Qed.
End interface.

Arguments sys_of {F L B n str n_buf sz_buf d l HN C _} o.
Arguments create_ok {F L B n str n_buf sz_buf d l HN C _} o.
Arguments queue_ok {F L B n str n_buf sz_buf d l HN C _} g bs o b.
Arguments wait_ok {F L B n str n_buf sz_buf d l HN C _} g bs o.
Arguments feed_runs {F L B n str n_buf sz_buf d l HN C _} g.

(** ** An implementation that can be executed *)

(** The rows of a column. *)
Fixpoint cut_rows (start : Z) (offs : list Z) (chars : list Z) : list (list Z) :=
  match offs with
  | [] => []
  | e :: offs => take (Z.to_nat (e - start)) chars :: cut_rows e offs (drop (Z.to_nat (e - start)) chars)
  end.

Lemma cut_ends acc rows : cut_rows acc (ends acc rows) (concat rows) = rows.
Proof.
  revert acc. induction rows as [|r rows IH]; intros acc; [done|]. cbn [ends cut_rows concat].
  replace (Z.to_nat (acc + zlen r - acc)) with (length r) by (unfold zlen; lia). by rewrite take_app_length, drop_app_length, IH.
Qed.

Definition block_of (a : queue_args) : option block :=
  let ks := cut_rows 0 (ColumnString.offsets a.1.2) (ColumnString.chars a.1.2) in
  let vs := cut_rows 0 (ColumnString.offsets a.2) (ColumnString.chars a.2) in
  match Bool.bool_dec (ChunkState.block_okb ks vs) true with
  | left H => Some (ChunkState.Block ks vs H)
  | right _ => None
  end.

Lemma block_of_args b : block_of (args_of b) = Some b.
Proof.
  destruct b as [ks vs H]. unfold block_of, args_of. cbn [fst snd b_keys b_vals ColumnString.offsets ColumnString.chars]. rewrite !cut_ends.
  destruct (Bool.bool_dec _ _) as [H'|]; [|done]. f_equal. f_equal. apply (UIP_dec Bool.bool_dec).
Qed.

Section scheduled.
Context {F : CudaAggregateFunction} {L : AggregateLaws F} {B : BulkReturns F L}.
Context (n str n_buf sz_buf : Z) (d : StringsHashTable.device) (a : AggregatorResult.allocations F) (HN : (0 < 1)%nat).

#[local] Abbreviation one := (agg_chunk_data 1 HN).

Record scheduled_object := Scheduled { so_sys : sys (block := block) (G := agg F); so_joinable : bool; so_result : list (list Z * agg_data) }.

(** The aggregation of a buffer: with few turns, and if they have not been enough,
    with turns that are. *)
Definition scheduled_process (g : agg F) (i : nat) : option (option (agg F)) :=
  match AggregatorResult.fair_process g i with
  | Some r => Some r
  | None => StringsAggregator.full_process g i
  end.

(** The calling thread goes on until the call has ended. *)
Definition scheduled_call (s : sys (block := block) (G := agg F)) : sys := ChunkProtocol.call (D := one) scheduled_process s.

Definition call_outcome (s : sys (block := block) (G := agg F)) : outcome unit :=
  if terminated s then Throws TERMINATED else match main s with MThrow _ => Throws RUNTIME_ERROR | _ => Returns tt end.

Definition scheduled_queue (x : queue_args) : M scheduled_object unit := fun o =>
  match block_of x with
  | None => (Throws BUFFER_OVERRUN, o)
  | Some b => let s := scheduled_call (more [b] (so_sys o)) in (call_outcome s, Scheduled s (so_joinable o) (so_result o))
  end.

Definition scheduled_wait : M scheduled_object unit := fun o =>
  let s := scheduled_call (ChunkProtocol.goto (so_sys o) MFlush) in
  match call_outcome s with
  | Throws e => (Throws e, Scheduled s (so_joinable o) (so_result o))
  | Returns _ =>
      match waitProcessed_result [] (agg_dev (data s)) (agg_chunks (data s)) with
      | Some (inr (inr R)) => (Returns tt, Scheduled s false (map_to_list R))
      | Some (inr (inl e)) => (Throws (result_error (inr e)), Scheduled s false [])
      | Some (inl e) => (Throws (result_error (inl e)), Scheduled s false [])
      | None => (Throws NO_FUEL, Scheduled s false [])
      end
  end.

Definition scheduled : StringsAggregatorCalls F := {|
  object := scheduled_object;
  create := match AggregatorResult.construct n str n_buf sz_buf d [a] with
            | inl _ => Throws RUNTIME_ERROR
            | inr g => Returns (Scheduled (startProcessing g []) false [])
            end;
  start_processing := modify (fun o => Scheduled (so_sys o) true (so_result o));
  queue_data := scheduled_queue;
  wait_processed := scheduled_wait;
  get_result := so_result;
  joinable := so_joinable
|}.

Hypothesis Hsz : AggregatorResult.sizes_ok n str n_buf sz_buf.
Hypothesis Hmem : mem_ok (StringsHashTable.dev_mem d).
Hypothesis Hal : AggregatorResult.alloc_ok str sz_buf [a].

#[local] Abbreviation runs_ := (runs_with (C := scheduled) [a] HN so_sys).

Lemma scheduled_fresh g : AggregatorResult.construct n str n_buf sz_buf d [a] = inr g -> ChunkProtocol.fresh (D := one) g.
Proof. exact (AggregatorResult.construct_fresh n str n_buf sz_buf d [a] HN g Hsz Hmem Hal). Qed.

Lemma scheduled_over blocks s : ChunkProtocol.inv (D := one) blocks s -> ChunkProtocol.over (scheduled_call s) = true /\ rtc (between (D := one)) s (scheduled_call s).
Proof.
  apply ChunkProtocol.call_over; intros g i.
  - intros r. unfold scheduled_process. destruct (AggregatorResult.fair_process g i) eqn:E; [intros [= <-]; by apply AggregatorResult.fair_process_ok|].
    apply StringsAggregator.full_process_spec.
  - intros Hg Hi Hs. unfold scheduled_process. destruct (AggregatorResult.fair_process g i); [by eexists|]. by apply (StringsAggregator.full_process_returns 1).
Qed.

Lemma scheduled_inv g bs o : AggregatorResult.construct n str n_buf sz_buf d [a] = inr g -> runs_ g bs o -> ChunkProtocol.inv (D := one) bs (so_sys o).
Proof. intros Hg (Hr & _). apply (ChunkProtocol.inv_reachable (D := one) bs g); [by apply scheduled_fresh|]. by apply ChunkProtocol.between_any. Qed.

Lemma scheduled_queue_ok g bs (o : scheduled_object) b :
  AggregatorResult.construct n str n_buf sz_buf d [a] = inr g -> runs_ g bs o ->
  let s := scheduled_call (more [b] (so_sys o)) in
  scheduled_queue (args_of b) o = (call_outcome s, Scheduled s (so_joinable o) (so_result o)) /\ rtc (between (D := one)) (more [b] (so_sys o)) s /\
  match call_outcome s with
  | Returns _ => main s = MQueue [] /\ terminated s = false
  | Throws e => main s = MThrow NotEnoughSpace /\ e = RUNTIME_ERROR \/ terminated s = true /\ e = TERMINATED
  end.
Proof.
  intros Hg Hr s. unfold scheduled_queue. rewrite block_of_args. split; [done|].
  assert (rtc (between (D := one)) (startProcessing g (bs ++ [b])) (more [b] (so_sys o))) as Hq.
  { by apply (ChunkProtocol.quiet_queue g bs b (so_sys o) _ (scheduled_fresh g Hg) (proj1 Hr)). }
  pose proof (ChunkProtocol.inv_reachable (D := one) _ _ _ (scheduled_fresh g Hg) (ChunkProtocol.between_any _ _ Hq)) as I.
  destruct (scheduled_over _ _ I) as [Ho Hb]. fold s in Ho, Hb. split; [done|].
  assert (ChunkProtocol.queueing (main s) = true) as Q by (by apply (ChunkProtocol.quiet_queueing _ _ (transitivity Hq Hb))).
  unfold call_outcome. unfold ChunkProtocol.over in Ho. destruct (terminated s) eqn:Ht; [by right|]. cbn [orb] in Ho.
  destruct (main s) as [[|]| | | | |[]]; try done. by left.
Qed.

Lemma scheduled_wait_ok g bs (o : scheduled_object) :
  AggregatorResult.construct n str n_buf sz_buf d [a] = inr g -> runs_ g bs o ->
  exists r o', scheduled_wait o = (r, o') /\ rtc (any_step (D := one)) (so_sys o) (so_sys o') /\
    (terminated (so_sys o') = true /\ r = Throws TERMINATED /\ so_joinable o' = true \/
     main (so_sys o') = MDone /\ so_joinable o' = false /\
     exists os, Forall2 copies os (tail (agg_chunks (data (so_sys o')))) /\
       match waitProcessed_result os (agg_dev (data (so_sys o'))) (agg_chunks (data (so_sys o'))) with
       | Some (inr (inr R)) => r = Returns tt /\ so_result o' ≡ₚ map_to_list R
       | Some (inr (inl e)) => r = Throws (result_error (inr e))
       | Some (inl e) => r = Throws (result_error (inl e))
       | None => False
       end).
Proof.
  intros Hg Hr. pose proof (scheduled_inv g bs o Hg Hr) as I. destruct Hr as (Hr & Hm & Ht & Hj).
  assert (rtc (any_step (D := one)) (so_sys o) (ChunkProtocol.goto (so_sys o) MFlush)) as Hs.
  { apply rtc_once. left. apply ChunkProtocol.step_main; [done|]. unfold ChunkProtocol.main_step, ChunkProtocol.main_chunk. rewrite Hm.
    destruct (ChunkProtocol.blocked (so_sys o)) eqn:Hb; [|done]. destruct (ChunkProtocol.i_blocked _ _ I Hb) as (i & Hi & _).
    unfold ChunkProtocol.main_chunk in Hi. by rewrite Hm in Hi. }
  pose proof (ChunkProtocol.inv_reachable (D := one) bs g _ (scheduled_fresh g Hg) (transitivity (ChunkProtocol.between_any _ _ Hr) Hs)) as I1.
  destruct (scheduled_over _ _ I1) as [Ho Hb]. set (s := scheduled_call (ChunkProtocol.goto (so_sys o) MFlush)) in *.
  pose proof (ChunkProtocol.between_any _ _ Hb) as Ha.
  pose proof (ChunkProtocol.inv_reachable (D := one) bs g _ (scheduled_fresh g Hg)
    (transitivity (transitivity (ChunkProtocol.between_any _ _ Hr) Hs) Ha)) as I2.
  assert (ChunkProtocol.queueing (main s) = false) as Q by (by apply (ChunkProtocol.rtc_queueing _ _ Ha)).
  assert (rtc (any_step (D := one)) (so_sys o) s) as Hall by (by etrans).
  unfold scheduled_wait. cbv zeta. fold s. unfold call_outcome. unfold ChunkProtocol.over in Ho. destruct (terminated s) eqn:Hts.
  { eexists _, _. split; [done|]. split; [done|]. by left. }
  cbn [orb] in Ho. destruct (main s) as [[|]| | | | |[]] eqn:Ems; try done; [|by destruct (ChunkProtocol.i_throw _ _ I2)].
  destruct (agg_chunks (data s)) as [|c0 [|]] eqn:Ec; pose proof (StringsAggregator.ag_num _ _ (ChunkProtocol.i_data _ _ I2)) as Hl; rewrite Ec in Hl; [done| |done].
  cbn [waitProcessed_result StringsAggregator.combine_chunks mbind option_bind].
  destruct (StringsAggregator.read_result _ c0) as [e|R] eqn:ER; eexists _, _; (split; [done|]); (split; [done|]); right; (split; [done|]); (split; [done|]); exists [];
    cbn [so_sys so_result]; rewrite Ec; (split; [constructor|]); cbn [waitProcessed_result StringsAggregator.combine_chunks mbind option_bind]; by rewrite ER.
Qed.

#[refine] Instance scheduled_follows : FollowsProtocol n str n_buf sz_buf d [a] HN scheduled := { sys_of := so_sys }.
Proof.
  - cbn [create start_processing scheduled]. intros o E. destruct (AggregatorResult.construct _ _ _ _ _ _) as [|g] eqn:Hg; [done|]. injection E as <-.
    eexists _, _. split; [done|]. split; [done|]. by split_and!.
  - intros g bs o b Hg Hr. destruct (scheduled_queue_ok g bs o b Hg Hr) as (E & Hq & Hout). eexists _, _. split; [exact E|]. split; [exact Hq|].
    split; [apply Hr|exact Hout].
  - intros g bs o Hg Hr. exact (scheduled_wait_ok g bs o Hg Hr).
Defined.
End scheduled.
