(* ===== verification/CudaAggregator.v ===== *)
(** * GROUP BY on the device, seen from the query pipeline

    [CudaAggregator] (dbms/src/Interpreters/Cuda/CudaAggregator.h and .cpp) takes
    the blocks of a stream apart into strings for [CudaStringsAggregator] and
    makes a block of its result; [CudaAggregatingBlockInputStream]
    (dbms/src/DataStreams/Cuda) is the stream that does this when it is read.

    [CudaStringsAggregator] is behind its interface (AggregatorCalls.v).

    Shown: the constructor lets exactly the supported queries through; the rows
    that reach the device are the rows of the blocks, constants included; with
    one chunk the block that is returned has the keys of these rows, each once,
    with the number of its rows beside it; the errors of the device come out of
    the read, and end the process when the threads have not been joined; for an
    empty stream an assertion fails, or without assertions a null pointer is
    used. *)

From stdpp Require Import base list option numbers gmap relations.
From Stdlib Require Import ZArith Lia.
From S2P Require Import Prelude IOMonad DeviceMemory.
From S2P Require StringsColumn.
Import StringsColumn (zlen, ends).
From S2P Require Import ColumnsCommon.
From S2P Require ColumnString ColumnVector.
Import ColumnString (ColumnString, CString, column_of, bounded, term).
From S2P Require StringsHashTable AggregateFunctions.
Import AggregateFunctions (CudaAggregateFunction, agg_data, getResult, AggregateLaws, agg_repr, BulkReturns, CudaAggregateFunctionCount, CudaAggregateFunctionUniq).
From S2P Require ChunkState ChunkProtocol StringsAggregator AggregatorResult.
Import StringsAggregator (rows_with).
Import ChunkState (b_keys, b_vals, rows_of, chunk).
From S2P Require Import Blocks AggregatorCalls.

#[local] Existing Instances AggregateFunctions.count_laws AggregateFunctions.count_returns.

#[local] Open Scope Z_scope.

(** ** Aggregate functions *)

(** [IAggregateFunction], by the functions that are called here. *)
Record IAggregateFunction := AggregateFunction {
  getReturnType : IDataType;
  createCudaFunction : outcome CudaAggregateFunction
}.

Definition AggregateFunctionCount : IAggregateFunction := AggregateFunction DataTypeUInt64 (Returns CudaAggregateFunctionCount).

(** All variants of the function, exact ones too, get the same counter. *)
Definition AggregateFunctionUniq : IAggregateFunction := AggregateFunction DataTypeUInt64 (Returns CudaAggregateFunctionUniq).

(** The base class. *)
Definition UnsupportedFunction (t : IDataType) : IAggregateFunction := AggregateFunction t (Throws CUDA_UNSUPPORTED_AGGREGATE_FUNCTION).

Record AggregateDescription := Aggregate { function : IAggregateFunction; arguments : list nat; column_name : list Z }.

(** [Aggregator::Params]; [keys_size] and [aggregates_size] are the lengths. *)
Record Params := MkParams { src_header : Block; intermediate_header : Block; keys : list nat; aggregates : list AggregateDescription }.

(** ** The header of the result *)

Section Header.
(** The type of intermediate states, of another part of the server, made of the
    function with its parameters and the types of the arguments. *)
Context (DataTypeAggregateFunction : AggregateDescription -> list IDataType -> IDataType).

Fixpoint insert_keys (h : Block) (ks : list nat) (res : Block) : outcome Block :=
  match ks with
  | [] => mret res
  | k :: ks =>
      e ← safeGetByPosition h k;
      e ← elem_cloneEmpty e;
      insert_keys h ks (insert res e)
  end.

Fixpoint argument_types (h : Block) (args : list nat) : outcome (list IDataType) :=
  match args with
  | [] => mret []
  | j :: args =>
      e ← safeGetByPosition h j;
      ts ← argument_types h args;
      mret (type e :: ts)
  end.

Fixpoint insert_aggregates (final : bool) (h : Block) (aggs : list AggregateDescription) (res : Block) : outcome Block :=
  match aggs with
  | [] => mret res
  | a :: aggs =>
      ts ← argument_types h (arguments a);
      let t := if final then getReturnType (function a) else DataTypeAggregateFunction a ts in
      insert_aggregates final h aggs (insert res (Elem_of t (column_name a)))
  end.

(** The columns of the aggregates of an intermediate header, from [i] on. *)
Fixpoint finalize_columns (i : nat) (aggs : list AggregateDescription) (res : Block) : outcome Block :=
  match aggs with
  | [] => mret res
  | a :: aggs =>
      e ← getByPosition res i;
      let t := getReturnType (function a) in
      finalize_columns (S i) aggs (MkBlock (<[i := Elem (Some (createColumn t)) t (name e)]> (data res)) (index_by_name res))
  end.

Definition getHeader (p : Params) (final : bool) : outcome Block :=
  res ← (if nonempty (src_header p) then
           res ← insert_keys (src_header p) (keys p) empty_block;
           insert_aggregates final (src_header p) (aggregates p) res
         else if nonempty (intermediate_header p) then
           res ← cloneEmpty (intermediate_header p);
           if final then finalize_columns (length (keys p)) (aggregates p) res else mret res
         else mret empty_block);
  materializeBlock res.

End Header.

(** ** The constructor *)

Definition construct (p : Params) : outcome CudaAggregateFunction :=
  if negb (length (keys p) =? 1)%nat then Throws CUDA_UNSUPPORTED_CASE
  else if negb (length (aggregates p) =? 1)%nat then Throws CUDA_UNSUPPORTED_CASE
  else
    key_pos ← cell (keys p) 0;
    let header := if nonempty (src_header p) then src_header p else intermediate_header p in
    e ← safeGetByPosition header key_pos;
    if isNullable (type e) then Throws CUDA_UNSUPPORTED_CASE
    else if negb (isString (type e)) then Throws CUDA_UNSUPPORTED_CASE
    else
      a ← cell (aggregates p) 0;
      cuda_agg_function ← createCudaFunction (function a);
      if negb (length (arguments a) =? 1)%nat then Throws CUDA_UNSUPPORTED_CASE
      else
        arg_pos ← cell (arguments a) 0;
        e ← safeGetByPosition header arg_pos;
        if isNullable (type e) then Throws CUDA_UNSUPPORTED_CASE
        else if negb (isString (type e)) then Throws CUDA_UNSUPPORTED_CASE
        else mret cuda_agg_function.

(** ** Blocks in *)

(** A column of the block, materialised when it is constant. *)
Definition full_column (b : Block) (position : nat) : outcome IColumn :=
  e ← safeGetByPosition b position;
  match column e with
  | None => Throws NULL_POINTER
  | Some c =>
      converted ← convertToFullColumnIfConst c;
      mret (default c converted)
  end.

Fixpoint full_columns (b : Block) (positions : list nat) : outcome (list IColumn) :=
  match positions with
  | [] => mret []
  | i :: positions =>
      c ← full_column b i;
      cs ← full_columns b positions;
      mret (c :: cs)
  end.

Fixpoint aggregate_columns (b : Block) (aggs : list AggregateDescription) : outcome (list (list IColumn)) :=
  match aggs with
  | [] => mret []
  | a :: aggs =>
      cs ← full_columns b (arguments a);
      r ← aggregate_columns b aggs;
      mret (cs :: r)
  end.

(** ** The data of an aggregation *)

Section Execute.
(** [NDEBUG] leaves the assertions out. *)
Context {F : CudaAggregateFunction} {C : StringsAggregatorCalls F} (NDEBUG : bool).

Record CudaAggregatedDataVariants := Variants { empty_ : bool; strings_agg : option object }.

Definition assert_ (b : bool) : M CudaAggregatedDataVariants unit := if NDEBUG || b then mret tt else throw ASSERTION_FAILED.

(** A call through [strings_agg]. *)
Definition through {A} (m : M object A) : M CudaAggregatedDataVariants A := fun r =>
  match strings_agg r with
  | None => (Throws NULL_POINTER, r)
  | Some o => let x := m o in (x.1, Variants (empty_ r) (Some x.2))
  end.

Definition init : M CudaAggregatedDataVariants unit :=
  o ← lift create;
  _ ← modify (fun r => Variants (empty_ r) (Some o));
  modify (fun r => Variants false (strings_agg r)).

Definition startProcessing : M CudaAggregatedDataVariants unit :=
  e ← get empty_;
  _ ← assert_ (negb e);
  through start_processing.

Definition waitProcessed : M CudaAggregatedDataVariants unit :=
  e ← get empty_;
  _ ← assert_ (negb e);
  through wait_processed.

(** The casts to [ColumnString] are unchecked. *)
Definition executeOnBlock (p : Params) (b : Block) : M CudaAggregatedDataVariants bool :=
  key_columns ← lift (full_columns b (keys p));
  agg_columns ← lift (aggregate_columns b (aggregates p));
  e ← get empty_;
  _ ← (if e : bool then _ ← init; startProcessing else mret tt);
  k ← lift (cell key_columns 0);
  vs ← lift (cell agg_columns 0);
  v ← lift (cell vs 0);
  match k, v with
  | StringColumn k, StringColumn v => _ ← through (queue_data (rows b, k, v)); mret true
  | _, _ => throw BUFFER_OVERRUN
  end.

(** The loop of [execute]: it stops at an empty block. *)
Fixpoint read_all (p : Params) (stream : list Block) : M CudaAggregatedDataVariants unit :=
  match stream with
  | [] => mret tt
  | b :: stream =>
      if nonempty b then
        src_bytes ← lift (bytes b);
        go ← executeOnBlock p b;
        if go : bool then read_all p stream else mret tt
      else mret tt
  end.

Definition execute (p : Params) (stream : list Block) : M CudaAggregatedDataVariants unit :=
  _ ← read_all p stream;
  _ ← waitProcessed;
  rows ← through (get (fun o => length (get_result o)));
  mret tt.

(** The destructor, that of a thread that has not been joined included. *)
Definition destroy (r : CudaAggregatedDataVariants) : outcome unit :=
  match strings_agg r with
  | Some o => if joinable o then Throws TERMINATED else Returns tt
  | None => Returns tt
  end.
End Execute.

(** ** Blocks out *)

Section Convert.
Context (DataTypeAggregateFunction : AggregateDescription -> list IDataType -> IDataType).
#[local] Abbreviation getHeader := (getHeader DataTypeAggregateFunction).


(** [elems] are the entries of [getResult()] in the order of the iteration;
    [estimate] is what [getResult] of a large counter computes. *)
Fixpoint convertToBlockImplFinal {F : CudaAggregateFunction} (estimate : agg_data -> Z) (elems : list (list Z * agg_data)) (key_column final_aggregate_column : IColumn)
    : outcome (IColumn * IColumn) :=
  match elems with
  | [] => mret (key_column, final_aggregate_column)
  | (key, place) :: elems =>
      key_column ← column_insertData key_column key;
      let res := default (estimate place) (getResult place) in
      match final_aggregate_column with
      | UInt64Column l => convertToBlockImplFinal estimate elems key_column (UInt64Column (ColumnVector.insert l res))
      | _ => Throws BUFFER_OVERRUN
      end
  end.

Fixpoint key_types (h : Block) (i n : nat) : outcome (list IColumn) :=
  match n with
  | O => mret []
  | S n =>
      e ← safeGetByPosition h i;
      cs ← key_types h (S i) n;
      mret (createColumn (type e) :: cs)
  end.

Fixpoint place_columns (b : Block) (i : nat) (cs : list IColumn) : outcome Block :=
  match cs with
  | [] => mret b
  | c :: cs => b ← set_column b i c; place_columns b (S i) cs
  end.

(** The loop over the columns that are constants. *)
Fixpoint cut_constants (b : Block) (i n rows_ : nat) : outcome Block :=
  match n with
  | O => mret b
  | S n =>
      e ← getByPosition b i;
      match column e with
      | None => Throws NULL_POINTER
      | Some c =>
          b ← (if isColumnConst c then c ← column_cut c 0 rows_; set_column b i c else mret b);
          cut_constants b (S i) n rows_
      end
  end.

Definition prepareBlockAndFill {F : CudaAggregateFunction} (estimate : agg_data -> Z) (p : Params) (final : bool) (elems : list (list Z * agg_data)) : outcome Block :=
  header ← getHeader p final;
  key_columns ← key_types header 0 (length (keys p));
  let final_columns := map (fun a => createColumn (getReturnType (function a))) (aggregates p) in
  k ← cell key_columns 0;
  f ← cell final_columns 0;
  filled ← convertToBlockImplFinal estimate elems k f;
  res ← cloneEmpty header;
  res ← place_columns res 0 (<[0%nat := filled.1]> key_columns);
  res ← place_columns res (length (keys p)) (<[0%nat := filled.2]> final_columns);
  cut_constants res 0 (columns header) (length elems).

(** [None] is the state in which nothing has been aggregated. *)
Definition convertToBlocks {F : CudaAggregateFunction} (estimate : agg_data -> Z) (p : Params) (data_variants : option (list (list Z * agg_data))) (final : bool) : outcome (list Block) :=
  if negb final then Throws CUDA_UNSUPPORTED_CASE
  else
    match data_variants with
    | None => mret []
    | Some elems =>
        b ← prepareBlockAndFill estimate p final elems;
        size ← bytes b;
        mret [b]
    end.
End Convert.

(** ** The stream *)

Record stream_state := StreamState { executed : bool; blocks : list Block }.

(** [readImpl]; [compute] is [execute] with [convertToBlocks]. *)
Definition readImpl (compute : outcome (list Block)) : M stream_state Block :=
  e ← get executed;
  _ ← (if e : bool then mret tt
       else
         _ ← modify (fun s => StreamState true (blocks s));
         match compute with
         | Throws e => throw e
         | Returns bs => modify (fun s => StreamState (executed s) bs)
         end);
  bs ← get blocks;
  match bs with
  | [] => mret empty_block
  | [b] => _ ← modify (fun s => StreamState (executed s) []); mret b
  | _ => throw LOGICAL_ERROR
  end.

(** ** Rows of blocks *)

Definition string_elem (b : Block) (i : nat) (ss : list (list Z)) : Prop :=
  exists e c, data b !! i = Some e /\ column e = Some c /\ string_column c ss.

(** The block has the rows of [blk], with keys at [kp] and values at [ap]. *)
Definition carries (kp ap : nat) (b : Block) (blk : ChunkState.block) : Prop :=
  exists ks vs, string_elem b kp ks /\ string_elem b ap vs /\ checkNumberOfRows b = Returns tt /\
    b_keys blk = map term ks /\ b_vals blk = map term vs.

Lemma lookup_nonempty b i e : data b !! i = Some e -> nonempty b = true.
Proof. intros E. unfold nonempty. by destruct (data b). Qed.

Lemma full_column_string b i ss : string_elem b i ss -> bounded ss -> full_column b i = Returns (StringColumn (column_of ss)).
Proof.
  intros (e & c & E & Ec & Hc) Hb. unfold full_column. rewrite (safeGet_lookup b i e E). cbn [mbind outcome_bind]. rewrite Ec. by apply full_string.
Qed.

Lemma bytes_returns b : Forall (fun e => exists c, column e = Some c) (data b) -> exists n, bytes b = Returns n.
Proof.
  unfold bytes. generalize 0. induction (data b) as [|e l IH]; intros z H; [by eexists|].
  apply list.Forall_cons in H as [[c Ec] H]. cbn [add_bytes]. rewrite Ec. by apply IH.
Qed.

Lemma blk_bounded blk ks vs : b_keys blk = map term ks -> b_vals blk = map term vs -> bounded ks /\ bounded vs.
Proof.
  destruct blk as [bk bv Hok]. cbn [b_keys b_vals]. intros -> ->. unfold ChunkState.block_okb in Hok. rewrite !andb_true_iff, !Z.ltb_lt in Hok.
  unfold bounded, zlen. lia.
Qed.

Lemma carries_bytes kp ap b blk : carries kp ap b blk -> nonempty b = true /\ exists z, bytes b = Returns z.
Proof.
  intros (ks & vs & (e & c & E & _) & _ & Hc & _). split; [by eapply lookup_nonempty|]. apply bytes_returns. eapply list.Forall_impl; [by apply checked_sizes|].
  intros x (c' & Hx & _). by exists c'.
Qed.

(** ** From the blocks to the device *)

Section Feed.
Context {F : CudaAggregateFunction} {C : StringsAggregatorCalls F} (NDEBUG : bool).
Context (p : Params) (kp ap : nat) (f : IAggregateFunction) (n : list Z).
Context (Ek : keys p = [kp]) (Ea : aggregates p = [Aggregate f [ap] n]).

Lemma through_returns {A} (m : M object A) e o x o' : m o = (x, o') -> through m (Variants e (Some o)) = (x, Variants e (Some o')).
Proof. intros E. unfold through. cbn [strings_agg empty_]. by rewrite E. Qed.

(** The columns of a block. *)
Lemma block_columns b blk :
  carries kp ap b blk ->
  exists k v, full_columns b (keys p) = Returns [StringColumn k] /\ aggregate_columns b (aggregates p) = Returns [[StringColumn v]] /\ (rows b, k, v) = args_of blk.
Proof.
  intros (ks & vs & Hk & Hv & Hc & Ebk & Ebv). destruct (blk_bounded _ _ _ Ebk Ebv) as [Bk Bv]. exists (column_of ks), (column_of vs).
  rewrite Ek, Ea. cbn [full_columns aggregate_columns arguments]. rewrite (full_column_string b kp ks), (full_column_string b ap vs) by done.
  split_and!; [done..|]. unfold args_of. rewrite Ebk, Ebv, length_map.
  destruct Hk as (e & c & E & Ec & Hs). pose proof (checked_sizes b Hc) as Hr. rewrite list.Forall_lookup in Hr.
  destruct (Hr kp e E) as (c' & Ec' & Hsz). assert (c' = c) as -> by congruence. by rewrite <- Hsz, (string_column_size c ks).
Qed.

(** The rows of a block are queued as they are. *)
Lemma executeOnBlock_args b blk r :
  carries kp ap b blk ->
  executeOnBlock NDEBUG p b r =
    (_ ← (if empty_ r then _ ← init; startProcessing NDEBUG else mret tt); _ ← through (queue_data (args_of blk)); mret true) r.
Proof.
  intros (k & v & E1 & E2 & E3)%block_columns. unfold executeOnBlock. rewrite E1, E2, !bind_lift, bind_get, <- E3. by apply bind_ext.
Qed.

Lemma read_all_feeds stream blks o :
  Forall2 (carries kp ap) stream blks ->
  read_all NDEBUG p stream (Variants false (Some o)) = through (feed (map args_of blks)) (Variants false (Some o)).
Proof.
  intros H. revert o. induction H as [|b blk stream blks Hb H IH]; intros o; [done|]. cbn [read_all map feed].
  destruct (carries_bytes _ _ _ _ Hb) as [-> [z ->]]. rewrite bind_lift. unfold through. cbn [strings_agg empty_].
  destruct (queue_data (args_of blk) o) as [[[]|e] o1] eqn:Eq.
  - rewrite (bind_returns _ _ _ _ _ Eq). rewrite (bind_returns _ _ _ true (Variants false (Some o1))).
    + rewrite IH. unfold through. done.
    + rewrite (executeOnBlock_args b blk) by done. cbn [empty_]. rewrite bind_ret. by rewrite (bind_returns _ _ _ _ _ (through_returns _ false _ _ _ Eq)).
  - rewrite (bind_throws _ _ _ _ _ Eq). apply bind_throws.
    rewrite (executeOnBlock_args b blk) by done. cbn [empty_]. rewrite bind_ret. by apply bind_throws, through_returns.
Qed.

Lemma init_start o o' :
  create = Returns o -> start_processing o = (Returns tt, o') -> (_ ← init; startProcessing NDEBUG) (Variants true None) = (Returns tt, Variants false (Some o')).
Proof.
  intros Ec Es. rewrite (bind_returns _ _ _ tt (Variants false (Some o))) by (unfold init; by rewrite Ec, bind_lift).
  unfold startProcessing. rewrite bind_get. unfold assert_. cbn [empty_ negb]. rewrite orb_true_r, bind_ret. by apply through_returns.
Qed.

(** The first block makes the object and starts its threads. *)
Lemma read_all_first stream blks o o' :
  Forall2 (carries kp ap) stream blks -> blks <> [] -> create = Returns o -> start_processing o = (Returns tt, o') ->
  read_all NDEBUG p stream (Variants true None) = through (feed (map args_of blks)) (Variants false (Some o')).
Proof.
  intros H Hne Ec Es. rewrite <- (read_all_feeds stream blks) by done. destruct H as [|b blk stream blks Hb H]; [done|]. cbn [read_all].
  destruct (carries_bytes _ _ _ _ Hb) as [-> [z ->]]. rewrite !bind_lift.
  assert (executeOnBlock NDEBUG p b (Variants true None) = executeOnBlock NDEBUG p b (Variants false (Some o'))) as E.
  { rewrite !(executeOnBlock_args b blk) by done. cbn [empty_]. by rewrite (bind_returns _ _ _ _ _ (init_start o o' Ec Es)), bind_ret. }
  unfold mbind, M_bind. by rewrite E.
Qed.

Lemma read_all_no_object stream blks e :
  Forall2 (carries kp ap) stream blks -> blks <> [] -> create = Throws e -> read_all NDEBUG p stream (Variants true None) = (Throws e, Variants true None).
Proof.
  intros H Hne Ec. destruct H as [|b blk stream blks Hb H]; [done|]. cbn [read_all].
  destruct (carries_bytes _ _ _ _ Hb) as [-> [z ->]]. rewrite bind_lift. apply bind_throws. rewrite (executeOnBlock_args b blk) by done. cbn [empty_].
  unfold init. rewrite Ec. done.
Qed.
End Feed.

(** ** The block of the result *)

Section Result.
Context (DataTypeAggregateFunction : AggregateDescription -> list IDataType -> IDataType).
Context {F : CudaAggregateFunction} (estimate : agg_data -> Z).

Definition result_value (place : agg_data) : Z := default (estimate place) (getResult place).

Lemma convert_final elems ks rs :
  bounded (ks ++ elems.*1) ->
  convertToBlockImplFinal estimate elems (StringColumn (column_of ks)) (UInt64Column rs) =
    Returns (StringColumn (column_of (ks ++ elems.*1)), UInt64Column (rs ++ map result_value elems.*2)).
Proof.
  revert ks rs. induction elems as [|[k q] elems IH]; intros ks rs Hb; [by rewrite !app_nil_r|].
  cbn [fmap list_fmap fst snd] in Hb. rewrite cons_middle, app_assoc in Hb.
  cbn [convertToBlockImplFinal column_insertData]. unfold mret at 1, outcome_ret. cbn [mbind outcome_bind].
  rewrite ColumnString.insertData_column.
  - rewrite IH by done. unfold ColumnVector.insert. cbn [fmap list_fmap fst snd map]. by rewrite <- !app_assoc.
  - unfold bounded in *. rewrite map_app, concat_app, StringsColumn.zlen_app in Hb. pose proof (StringsColumn.zlen_nonneg (concat (map term elems.*1))). lia.
Qed.

(** Without rows a column of strings is an empty column, or a constant. *)
Lemma cloneEmpty_string c ss : string_column c ss -> exists c', column_cloneEmpty c = Returns c' /\ string_column c' [].
Proof.
  intros [ss'|x n Hx].
  - exists (StringColumn (column_of [])). split; [|constructor]. cbn [column_cloneEmpty]. by rewrite ColumnString.cloneEmpty_column.
  - exists (constant x 0). split; [|by apply (constant_strings x 0)]. cbn [column_cloneEmpty constant]. apply constant_create.
Qed.

Lemma bounded_nil : bounded [].
Proof. done. Qed.

Context (p : Params) (kp ap : nat) (f : IAggregateFunction) (n : list Z).
Context (Ek : keys p = [kp]) (Ea : aggregates p = [Aggregate f [ap] n]).
Context (he ha : ColumnWithTypeAndName) (hc : IColumn) (hs : list (list Z)).
Context (Hk : data (src_header p) !! kp = Some he) (Ha : data (src_header p) !! ap = Some ha).
Context (Hhc : column he = Some hc) (Hhs : string_column hc hs) (Tk : type he = DataTypeString).
Context (Tf : getReturnType f = DataTypeUInt64).

Lemma getHeader_final :
  exists i, getHeader DataTypeAggregateFunction p true = Returns (MkBlock [Elem_of DataTypeString (name he); Elem_of DataTypeUInt64 n] i).
Proof.
  unfold getHeader. rewrite (lookup_nonempty _ _ _ Hk), Ek, Ea. cbn [insert_keys insert_aggregates argument_types arguments function column_name].
  rewrite (safeGet_lookup _ _ _ Hk), (safeGet_lookup _ _ _ Ha). cbn [mbind outcome_bind].
  destruct (cloneEmpty_string hc hs Hhs) as (c & Ec & Hc). unfold elem_cloneEmpty. rewrite Hhc, Ec. unfold mret, outcome_ret. cbn [mbind outcome_bind].
  rewrite Tf. unfold materializeBlock, insert. cbn [data app nonempty length negb Nat.eqb empty_block materialize_elems column Elem_of createColumn DataTypeUInt64].
  pose proof (full_string c [] Hc bounded_nil) as Hf. destruct (convertToFullColumnIfConst c) as [o|]; [|done]. cbn in Hf |- *.
  eexists. do 2 f_equal. f_equal. rewrite <- Tk. destruct o as [c'|]; cbn in Hf |- *; injection Hf as ->; unfold Elem_of; rewrite Tk; done.
Qed.

Lemma prepare_result elems :
  bounded elems.*1 ->
  exists b, prepareBlockAndFill DataTypeAggregateFunction estimate p true elems = Returns b /\
    data b = [Elem (Some (StringColumn (column_of elems.*1))) DataTypeString (name he);
              Elem (Some (UInt64Column (map result_value elems.*2))) DataTypeUInt64 n].
Proof.
  intros Hb. destruct getHeader_final as [i Hh]. unfold prepareBlockAndFill. rewrite Hh, Ek, Ea. cbn [mbind outcome_bind length key_types map].
  rewrite (safeGet_lookup (MkBlock _ i) 0 (Elem_of DataTypeString (name he))) by done. unfold mret, outcome_ret. cbn [mbind outcome_bind].
  cbn [type Elem_of createColumn DataTypeString cell lookup list_lookup]. unfold cell. cbn [lookup list_lookup function]. rewrite Tf.
  cbn [createColumn DataTypeUInt64 mbind outcome_bind]. change ColumnString.create with (column_of []).
  rewrite (convert_final elems [] []) by done. cbn [app]. eexists. split; reflexivity.
Qed.

Lemma convert_result elems :
  bounded elems.*1 ->
  exists b, convertToBlocks DataTypeAggregateFunction estimate p (Some elems) true = Returns [b] /\
    data b = [Elem (Some (StringColumn (column_of elems.*1))) DataTypeString (name he);
              Elem (Some (UInt64Column (map result_value elems.*2))) DataTypeUInt64 n].
Proof.
  intros Hb. destruct (prepare_result elems Hb) as (b & E & Hd). exists b. split; [|done]. cbn [convertToBlocks negb]. rewrite E. cbn [mbind outcome_bind].
  destruct (bytes_returns b) as [z Hz]; [|by rewrite Hz]. rewrite Hd. repeat constructor; by eexists.
Qed.
End Result.

(** ** From the stream to the result *)

(** What [readImpl] computes: [execute], [convertToBlocks], and at the end of
    the scope the destructor of [data_variants], also when an exception passes. *)
Definition aggregate_stream (DataTypeAggregateFunction : AggregateDescription -> list IDataType -> IDataType) {F : CudaAggregateFunction} {C : StringsAggregatorCalls F}
    (NDEBUG : bool) (estimate : agg_data -> Z) (p : Params) (stream : list Block) (final : bool) : outcome (list Block) :=
  let x := execute NDEBUG p stream (Variants true None) in
  let converted :=
    _ ← x.1;
    convertToBlocks DataTypeAggregateFunction estimate p (if empty_ x.2 then None else get_result <$> strings_agg x.2) final in
  match converted with
  | Throws e => if is_exception e then _ ← destroy x.2; Throws e else Throws e
  | Returns blocks => _ ← destroy x.2; mret blocks
  end.

(** The number of rows with the key. *)
Definition count_rows (k : list Z) (blks : list ChunkState.block) : nat := length (rows_with (term k) (rows_of blks)).

(** A query that the aggregator supports, over a header of string columns. *)
Record supported (p : Params) (kp ap : nat) (f : IAggregateFunction) (n : list Z) (he : ColumnWithTypeAndName) : Prop := {
  sp_keys : keys p = [kp];
  sp_aggregates : aggregates p = [Aggregate f [ap] n];
  sp_key : data (src_header p) !! kp = Some he;
  sp_key_type : type he = DataTypeString;
  sp_key_column : exists c ss, column he = Some c /\ string_column c ss;
  sp_argument : exists ha, data (src_header p) !! ap = Some ha /\ type ha = DataTypeString
}.

Lemma safeGet_inv b i e : safeGetByPosition b i = Returns e -> data b !! i = Some e.
Proof.
  unfold safeGetByPosition, cell. destruct (_ =? 0)%nat; [done|]. destruct (_ <=? i)%nat; [done|]. destruct (data b !! i); [by intros [= ->]|done].
Qed.

Lemma cell_head {A} (x : A) l : cell (x :: l) 0 = Returns x.
Proof. done. Qed.

Lemma construct_returns p kp ap f n he F : supported p kp ap f n he -> createCudaFunction f = Returns F -> construct p = Returns F.
Proof.
  intros [Ek Ea Hk Tk _ (ha & Ha & Ta)] Hf. unfold construct. rewrite Ek, Ea. cbn [length Nat.eqb negb]. rewrite (lookup_nonempty _ _ _ Hk), !cell_head.
  cbn [mbind outcome_bind]. rewrite (safeGet_lookup _ _ _ Hk). cbn [mbind outcome_bind]. rewrite Tk. cbn [isNullable isString DataTypeString negb function arguments].
  rewrite Hf. cbn [mbind outcome_bind length Nat.eqb negb]. rewrite cell_head. cbn [mbind outcome_bind]. rewrite (safeGet_lookup _ _ _ Ha).
  cbn [mbind outcome_bind]. by rewrite Ta.
Qed.

Lemma zlen_concat_submseteq {A} (l k : list (list A)) : l ⊆+ k -> zlen (concat l) <= zlen (concat k).
Proof.
  induction 1 as [|x l k H IH|x y l|x l k H IH|l1 l2 l3 H1 IH1 H2 IH2]; cbn [concat]; rewrite ?StringsColumn.zlen_app; try lia.
  pose proof (StringsColumn.zlen_nonneg x). lia.
Qed.

#[local] Instance term_inj : Inj (=) (=) term.
Proof. intros s t H. by apply app_inj_tail in H as [-> _]. Qed.

(** The entries of a result, in any order. *)
Section Entries.
Context {F : CudaAggregateFunction} {L : AggregateLaws F} (blks : list ChunkState.block) (rs : list (list Z * list Z)) (R : gmap (list Z) agg_data).
Context (Hrs : rs ≡ₚ rows_of blks).
Context (HR : forall k, match R !! k with
  | Some q => rows_with (k ++ [0]) rs <> [] /\ agg_repr q (rows_with (k ++ [0]) rs)
  | None => rows_with (k ++ [0]) rs = []
  end).
Context (order : list (list Z * agg_data)) (Ho : order ≡ₚ map_to_list R).

Lemma entry_lookup k q : (k, q) ∈ order <-> R !! k = Some q.
Proof. rewrite Ho. apply elem_of_map_to_list. Qed.

Lemma entries_nodup : NoDup order.*1.
Proof. rewrite Ho. apply NoDup_fst_map_to_list. Qed.

Lemma count_rows_length k : count_rows k blks = length (rows_with (k ++ [0]) rs).
Proof. symmetry. apply Permutation_length, (StringsAggregator.rows_with_perm (k ++ [0])), Hrs. Qed.

Lemma count_rows_none k : count_rows k blks = 0%nat <-> rows_with (k ++ [0]) rs = [].
Proof. rewrite count_rows_length. split; [apply nil_length_inv|by intros ->]. Qed.

Lemma entries_keys k : k ∈ order.*1 <-> (0 < count_rows k blks)%nat.
Proof.
  rewrite list_elem_of_fmap. pose proof (HR k) as Hk. split.
  - intros ([k' q] & -> & Hq%entry_lookup). cbn in *. rewrite Hq in Hk. destruct Hk as [Hne _]. destruct (count_rows k' blks) eqn:E; [|lia].
    by apply count_rows_none in E.
  - intros Hpos. destruct (R !! k) as [q|] eqn:E; [|apply count_rows_none in Hk; lia]. exists (k, q). split; [done|]. by apply entry_lookup.
Qed.

Lemma entries_states k q : (k, q) ∈ order -> agg_repr q (rows_with (k ++ [0]) rs).
Proof. intros Hq%entry_lookup. pose proof (HR k) as Hk. rewrite Hq in Hk. apply Hk. Qed.

Lemma entries_bounded : zlen (concat (concat (map b_keys blks))) < 2 ^ 64 -> bounded order.*1.
Proof.
  intros Hb. unfold bounded. eapply Z.le_lt_trans; [|exact Hb]. apply zlen_concat_submseteq, NoDup_submseteq.
  - apply NoDup_fmap_2; [apply _|]. apply entries_nodup.
  - intros x Hx. change (x ∈ term <$> order.*1) in Hx. apply list_elem_of_fmap in Hx as (k & -> & Hk%entries_keys).
    rewrite <- ChunkState.rows_of_keys. destruct (decide (term k ∈ (rows_of blks).*1)) as [|Hn]; [done|].
    apply StringsAggregator.rows_with_nil in Hn. unfold count_rows in Hk. rewrite Hn in Hk. cbn in Hk. lia.
Qed.
End Entries.

Lemma read_first compute b : compute = Returns [b] -> readImpl compute (StreamState false []) = (Returns b, StreamState true []).
Proof. by intros ->. Qed.

Lemma read_again compute : readImpl compute (StreamState true []) = (Returns empty_block, StreamState true []).
Proof. done. Qed.

(** The block that is made of a result, for any function. *)
Lemma stream_block DT {F : CudaAggregateFunction} {C : StringsAggregatorCalls F} NDEBUG (estimate : agg_data -> Z) p kp ap f n he stream o :
  supported p kp ap f n he -> getReturnType f = DataTypeUInt64 -> bounded (get_result o).*1 -> joinable o = false ->
  execute NDEBUG p stream (Variants true None) = (Returns tt, Variants false (Some o)) ->
  exists b, readImpl (aggregate_stream DT NDEBUG estimate p stream true) (StreamState false []) = (Returns b, StreamState true []) /\
    data b = [Elem (Some (StringColumn (column_of (get_result o).*1))) DataTypeString (name he);
              Elem (Some (UInt64Column (map (result_value estimate) (get_result o).*2))) DataTypeUInt64 n].
Proof.
  intros [Ek Ea Hk Tk (c & ss & Hc & Hs) (ha & Ha & Ta)] Tf Hb Hj He.
  destruct (convert_result DT estimate p kp ap f n Ek Ea he ha c ss Hk Ha Hc Hs Tk Tf (get_result o) Hb) as (b & E & Hd). exists b. split; [|done].
  apply read_first. unfold aggregate_stream. rewrite He. cbn [fst snd mbind outcome_bind empty_ strings_agg fmap option_fmap option_map]. rewrite E.
  unfold destroy. cbn [strings_agg]. by rewrite Hj.
Qed.

(** An error is thrown by the read, and ends the process when there are threads
    that have not been joined. *)
Lemma stream_error DT {F : CudaAggregateFunction} {C : StringsAggregatorCalls F} NDEBUG (estimate : agg_data -> Z) p stream final e r :
  execute NDEBUG p stream (Variants true None) = (Throws e, r) ->
  readImpl (aggregate_stream DT NDEBUG estimate p stream final) (StreamState false []) =
    (Throws (if is_exception e && match strings_agg r with Some o => joinable o | None => false end then TERMINATED else e), StreamState true []).
Proof.
  intros He. unfold aggregate_stream. rewrite He. cbn [fst snd mbind outcome_bind]. unfold destroy.
  destruct (is_exception e); [|done]. destruct (strings_agg r) as [o|]; [|done]. by destruct (joinable o).
Qed.

(** Without a block there is no object to wait for. *)
Lemma no_blocks {F : CudaAggregateFunction} {C : StringsAggregatorCalls F} NDEBUG p stream :
  (forall b, head stream = Some b -> nonempty b = false) ->
  execute NDEBUG p stream (Variants true None) = (Throws (if NDEBUG then NULL_POINTER else ASSERTION_FAILED), Variants true None).
Proof.
  intros H. assert (read_all NDEBUG p stream (Variants true None) = (Returns tt, Variants true None)) as E.
  { destruct stream as [|b stream]; [done|]. cbn [read_all]. by rewrite (H b). }
  unfold execute. rewrite (bind_returns _ _ _ _ _ E). by destruct NDEBUG.
Qed.

(** ** Properties *)

(** The runs of an object with one chunk, from the first block to the result. *)
Section OneChunk.
Context {F : CudaAggregateFunction} {L : AggregateLaws F} {B : BulkReturns F L} (NDEBUG : bool).
Context (n str n_buf sz_buf : Z) (d : StringsHashTable.device) (a : AggregatorResult.allocations F) (HN : (0 < 1)%nat).
Context (S1 : AggregatorResult.sizes_ok n str n_buf sz_buf) (S2 : mem_ok (StringsHashTable.dev_mem d)) (S3 : AggregatorResult.alloc_ok str sz_buf [a]).
Context {C : StringsAggregatorCalls F} {P : FollowsProtocol n str n_buf sz_buf d [a] HN C}.

(** Some run with blocks of the stream fails. *)
Definition run_fails (blks : list ChunkState.block) : Prop :=
  exists g bs s, AggregatorResult.construct n str n_buf sz_buf d [a] = inr g /\ bs `prefix_of` blks /\
    rtc (ChunkProtocol.any_step (D := StringsAggregator.agg_chunk_data 1 HN)) (ChunkProtocol.startProcessing g bs) s /\ failed s.

(** The waiting. *)
Lemma wait_result g blks o :
  AggregatorResult.construct n str n_buf sz_buf d [a] = inr g -> runs_with [a] HN sys_of g blks o ->
  (exists o', wait_processed o = (Throws TERMINATED, o') /\ run_fails blks) \/
  exists o' rs R, wait_processed o = (Returns tt, o') /\ joinable o' = false /\ get_result o' ≡ₚ map_to_list R /\ rs ≡ₚ rows_of blks /\
    forall k, match R !! k with
      | Some q => rows_with (k ++ [0]) rs <> [] /\ agg_repr q (rows_with (k ++ [0]) rs)
      | None => rows_with (k ++ [0]) rs = []
      end.
Proof.
  intros Hg Hr. destruct (wait_ok g blks o Hg Hr) as (r & o' & E & Hs & [(Ht & -> & _)|(Hm & Hj & os & Hos & Hres)]).
  - left. exists o'. split; [done|]. exists g, blks, (sys_of o'). split_and!; [done..| |by right].
    etrans; [apply ChunkProtocol.between_any, Hr|exact Hs].
  - right. assert (rtc (ChunkProtocol.any_step (D := StringsAggregator.agg_chunk_data 1 HN)) (ChunkProtocol.startProcessing g blks) (sys_of o')) as Hall
      by (etrans; [apply ChunkProtocol.between_any, Hr|exact Hs]).
    destruct (AggregatorResult.one_chunk_rows n str n_buf sz_buf d a HN g blks (sys_of o') S1 S2 S3 Hg Hall Hm) as (rs & R & Hrs & ER & HR).
    assert (os = []) as ->.
    { pose proof (ChunkProtocol.inv_reachable (D := StringsAggregator.agg_chunk_data 1 HN) blks g _
        (AggregatorResult.construct_fresh n str n_buf sz_buf d [a] HN g S1 S2 S3 Hg) Hall) as I.
      pose proof (StringsAggregator.ag_num _ _ (ChunkProtocol.i_data _ _ I)) as Hl. apply Forall2_length in Hos. rewrite length_tl, Hl in Hos. by destruct os. }
    rewrite ER in Hres. destruct Hres as [-> Hp]. by exists o', rs, R.
Qed.

Context (p : Params) (kp ap : nat) (f : IAggregateFunction) (nm : list Z) (Ek : keys p = [kp]) (Ea : aggregates p = [Aggregate f [ap] nm]).

Lemma execute_result stream blks :
  Forall2 (carries kp ap) stream blks -> blks <> [] ->
  (exists e, create = Throws e /\ execute NDEBUG p stream (Variants true None) = (Throws e, Variants true None)) \/
  (exists e o, execute NDEBUG p stream (Variants true None) = (Throws e, Variants false (Some o)) /\
     (e = TERMINATED \/ e = RUNTIME_ERROR /\ joinable o = true) /\ run_fails blks) \/
  exists o rs R, execute NDEBUG p stream (Variants true None) = (Returns tt, Variants false (Some o)) /\ joinable o = false /\
    get_result o ≡ₚ map_to_list R /\ rs ≡ₚ rows_of blks /\
    forall k, match R !! k with
      | Some q => rows_with (k ++ [0]) rs <> [] /\ agg_repr q (rows_with (k ++ [0]) rs)
      | None => rows_with (k ++ [0]) rs = []
      end.
Proof.
  intros Hst Hne. destruct create as [o0|e] eqn:Ec.
  - right. destruct (create_ok o0 Ec) as (g & o1 & Hg & Es & Hr).
    pose proof (AggregatorResult.construct_fresh n str n_buf sz_buf d [a] HN g S1 S2 S3 Hg) as Hf.
    pose proof (read_all_first NDEBUG p kp ap f nm Ek Ea stream blks o0 o1 Hst Hne Ec Es) as Er.
    destruct (feed_runs g Hg Hf blks [] o1 Hr) as (r & o2 & E2 & Hj & Hr2).
    rewrite (through_returns _ false _ _ _ E2) in Er. unfold execute. destruct r as [[]|e].
    + rewrite (bind_returns _ _ _ _ _ Er). assert (waitProcessed NDEBUG (Variants false (Some o2)) = through wait_processed (Variants false (Some o2))) as Ew.
      { unfold waitProcessed. rewrite bind_get. unfold assert_. cbn [empty_ negb]. by rewrite orb_true_r. }
      destruct (wait_result g blks o2 Hg Hr2) as [(o3 & E3 & Hfl)|(o3 & rs & R & E3 & Hj3 & Hrest)]; rewrite (through_returns _ false _ _ _ E3) in Ew.
      * left. exists TERMINATED, o3. split; [by apply bind_throws|]. auto.
      * right. exists o3, rs, R. split; [by rewrite (bind_returns _ _ _ _ _ Ew)|done].
    + left. destruct Hr2 as (He & bs & Hpre & Hs & Hfl). exists e, o2. split; [by apply bind_throws|]. split; [destruct He; auto|].
      by exists g, bs, (sys_of o2).
  - left. exists e. split; [done|]. unfold execute. by apply bind_throws, (read_all_no_object NDEBUG p kp ap f nm Ek Ea stream blks).
Qed.
End OneChunk.

(** C1: [SELECT key, count(value) GROUP BY key] on the device, with one chunk.
    The settings, and the memory of the device, are such that the aggregator can
    work ([sizes_ok], [alloc_ok]), its calls follow the protocol of the chunks
    under any interleaving of the threads and of the kernels, and the stream has
    at least one block, with keys of less than 2^64 bytes together.  Then the
    constructor accepts the query, and the rows of the blocks of the stream are
    queued as they are, columns of constants included.  The first read either
    gives a block with the keys of the rows, each once, with the number of its
    rows beside it, and the stream ends behind it; or it throws the error with
    which the aggregator could not be made; or the process ends, and then there
    is a run in which a block does not fit into an empty buffer or the table of a
    worker is full.  So a wrong result is never given. *)
Theorem group_by_count DT NDEBUG estimate p kp ap name_ he stream blks n str n_buf sz_buf d a (HN : (0 < 1)%nat)
    (C : StringsAggregatorCalls CudaAggregateFunctionCount) (P : FollowsProtocol n str n_buf sz_buf d [a] HN C) :
  supported p kp ap AggregateFunctionCount name_ he ->
  Forall2 (carries kp ap) stream blks -> blks <> [] -> zlen (concat (concat (map b_keys blks))) < 2 ^ 64 ->
  AggregatorResult.sizes_ok n str n_buf sz_buf -> mem_ok (StringsHashTable.dev_mem d) -> AggregatorResult.alloc_ok str sz_buf [a] ->
  let read := readImpl (aggregate_stream DT (C := C) NDEBUG estimate p stream true) in
  construct p = Returns CudaAggregateFunctionCount /\
  (forall o, read_all (C := C) NDEBUG p stream (Variants false (Some o)) = through (feed (map args_of blks)) (Variants false (Some o))) /\
  ((exists b ks, read (StreamState false []) = (Returns b, StreamState true []) /\
      data b = [Elem (Some (StringColumn (column_of ks))) DataTypeString (name he);
                Elem (Some (UInt64Column (map (fun k => u64 (Z.of_nat (count_rows k blks))) ks))) DataTypeUInt64 name_] /\
      NoDup ks /\ (forall k, k ∈ ks <-> (0 < count_rows k blks)%nat) /\
      read (StreamState true []) = (Returns empty_block, StreamState true [])) \/
   (exists e, create (StringsAggregatorCalls := C) = Throws e /\ read (StreamState false []) = (Throws e, StreamState true [])) \/
   (read (StreamState false []) = (Throws TERMINATED, StreamState true []) /\ run_fails n str n_buf sz_buf d a HN blks)).
Proof.
  intros Sp Hst Hne Hsz S1 S2 S3 read. split; [by eapply construct_returns|].
  split; [intros o; eapply read_all_feeds; [apply Sp|apply Sp|done]|].
  destruct (execute_result NDEBUG n str n_buf sz_buf d a HN S1 S2 S3 p kp ap _ name_ (sp_keys _ _ _ _ _ _ Sp) (sp_aggregates _ _ _ _ _ _ Sp) stream blks Hst Hne)
    as [(e & Ec & E)|[(e & o & E & He & Hf)|(o & rs & R & E & Hj & Ho & Hrs & HR)]].
  - right. left. exists e. split; [done|]. unfold read. rewrite (stream_error DT NDEBUG estimate p stream true e _ E). cbn [strings_agg]. by rewrite andb_false_r.
  - right. right. split; [|done]. unfold read. rewrite (stream_error DT NDEBUG estimate p stream true e _ E). cbn [strings_agg].
    destruct He as [->|[-> ->]]; done.
  - left. pose proof (entries_bounded blks rs R Hrs HR (get_result o) Ho Hsz) as Hb.
    destruct (stream_block DT NDEBUG estimate p kp ap _ name_ he stream o Sp eq_refl Hb Hj E) as (b & Er & Hd).
    exists b, (get_result o).*1. split; [done|]. split.
    + rewrite Hd. do 5 f_equal. change (map ?f (get_result o).*1) with (f <$> (get_result o).*1). change (map ?f (get_result o).*2) with (f <$> (get_result o).*2).
      rewrite <- !list_fmap_compose. apply list_fmap_ext. intros i [k q] Hq%list_elem_of_lookup_2.
      pose proof (entries_states rs R HR (get_result o) Ho k q Hq) as Hr. cbn in Hr |- *. rewrite (count_rows_length blks rs Hrs). exact Hr.
    + split; [by eapply entries_nodup|]. split; [by eapply entries_keys|]. apply read_again.
Qed.

(** C33: The constructor lets exactly the supported queries through: one key,
    one aggregate function with one argument, both columns there, of type
    String and not Nullable, and a function with a version for the device.  For
    others it throws. *)
Theorem construct_accepts p F :
  construct p = Returns F <->
  exists kp ap a ek ea, let header := if nonempty (src_header p) then src_header p else intermediate_header p in
    keys p = [kp] /\ aggregates p = [a] /\ arguments a = [ap] /\ data header !! kp = Some ek /\ data header !! ap = Some ea /\
    (isString (type ek) = true /\ isNullable (type ek) = false) /\ (isString (type ea) = true /\ isNullable (type ea) = false) /\
    createCudaFunction (function a) = Returns F.
Proof.
  cbv zeta. unfold construct. cbv zeta. generalize (if nonempty (src_header p) then src_header p else intermediate_header p). intros h. split.
  - destruct (keys p) as [|kp [|]]; try done. destruct (aggregates p) as [|a [|]]; try done. cbn [length Nat.eqb negb]. rewrite !cell_head. cbn [mbind outcome_bind].
    destruct (safeGetByPosition h kp) as [ek|] eqn:Ek; [|done]. cbn [mbind outcome_bind]. destruct (isNullable (type ek)) eqn:Nk; [done|].
    destruct (isString (type ek)) eqn:Sk; [|done]. cbn [negb]. destruct (createCudaFunction (function a)) as [F'|] eqn:Ef; [|done]. cbn [mbind outcome_bind].
    destruct (arguments a) as [|ap [|]] eqn:Ea; try done. cbn [length Nat.eqb negb]. rewrite cell_head. cbn [mbind outcome_bind].
    destruct (safeGetByPosition h ap) as [ea|] eqn:Eea; [|done]. cbn [mbind outcome_bind]. destruct (isNullable (type ea)) eqn:Na; [done|].
    destruct (isString (type ea)) eqn:Sa; [|done]. intros [= <-]. exists kp, ap, a, ek, ea. rewrite Ea. by apply safeGet_inv in Ek, Eea.
  - intros (kp & ap & a & ek & ea & -> & -> & Ea & Hk & Ha & [Sk Nk] & [Sa Na] & Ef). cbn [length Nat.eqb negb]. rewrite !cell_head. cbn [mbind outcome_bind].
    rewrite (safeGet_lookup _ _ _ Hk). cbn [mbind outcome_bind]. rewrite Nk, Sk. cbn [negb]. rewrite Ef. cbn [mbind outcome_bind]. rewrite Ea. cbn [length Nat.eqb negb].
    rewrite cell_head. cbn [mbind outcome_bind]. rewrite (safeGet_lookup _ _ _ Ha). cbn [mbind outcome_bind]. by rewrite Na, Sa.
Qed.

(** ** Witnesses *)

Definition demo_strings (c : IColumn) (n : list Z) : ColumnWithTypeAndName := Elem (Some c) DataTypeString n.

(** Two columns, k and v; in the first block the values are a constant. *)
Definition demo_stream : list Block :=
  [Block_of [demo_strings (StringColumn (column_of [[97]; [98]; [97]])) [107]; demo_strings (constant [] 3) [118]];
   Block_of [demo_strings (StringColumn (column_of [[97]; [99]])) [107]; demo_strings (StringColumn (column_of [[]; []])) [118]]].

Definition demo_params (f : IAggregateFunction) : Params :=
  MkParams (Block_of [Elem_of DataTypeString [107]; Elem_of DataTypeString [118]]) empty_block [0]%nat [Aggregate f [1]%nat [110]].

Lemma demo_supported f : supported (demo_params f) 0 1 f [110] (Elem_of DataTypeString [107]).
Proof.
  split; try done.
  - exists (StringColumn (column_of [])), []. split; [done|constructor].
  - exists (Elem_of DataTypeString [118]). done.
Qed.

Lemma demo_carried : Forall2 (carries 0 1) demo_stream [AggregatorResult.demo_block1; AggregatorResult.demo_block2].
Proof.
  constructor; [|constructor; [|constructor]].
  - exists [[97]; [98]; [97]], [[]; []; []]. split_and!; [| |done|done|done].
    + eexists _, _. split_and!; [done|done|constructor].
    + eexists _, _. split_and!; [done|done|]. apply (constant_strings [] 3). done.
  - exists [[97]; [99]], [[]; []]. split_and!; [| |done|done|done]; eexists _, _; (split_and!; [done|done|constructor]).
Qed.

(** The object for the demonstration, and the read that uses it. *)
Definition demo_object : StringsAggregatorCalls CudaAggregateFunctionCount :=
  scheduled 4 64 8 64 AggregatorResult.demo_memory (AggregatorResult.demo_allocations CudaAggregateFunctionCount [] 0) Nat.lt_0_1.

Definition demo_read : outcome Block * stream_state :=
  readImpl (aggregate_stream (fun _ _ => DataTypeString) (C := demo_object) false (fun _ => 0) (demo_params AggregateFunctionCount) demo_stream true) (StreamState false []).

Lemma demo_read_returns : match demo_read.1 with Returns _ => true | Throws _ => false end = true.
Proof. vm_compute. reflexivity. Qed.

Lemma demo_read_throws e s : demo_read <> (Throws e, s).
Proof. intros E. pose proof demo_read_returns as H. rewrite E in H. discriminate H. Qed.

Lemma group_by_count_witness :
  exists b ks, demo_read = (Returns b, StreamState true []) /\
    data b = [Elem (Some (StringColumn (column_of ks))) DataTypeString [107];
              Elem (Some (UInt64Column (map (fun k => u64 (Z.of_nat (count_rows k [AggregatorResult.demo_block1; AggregatorResult.demo_block2]))) ks))) DataTypeUInt64 [110]].
Proof.
  destruct (group_by_count (fun _ _ => DataTypeString) false (fun _ => 0) (demo_params AggregateFunctionCount) 0 1 [110] (Elem_of DataTypeString [107]) demo_stream
    [AggregatorResult.demo_block1; AggregatorResult.demo_block2] 4 64 8 64 AggregatorResult.demo_memory
    (AggregatorResult.demo_allocations CudaAggregateFunctionCount [] 0) Nat.lt_0_1 demo_object
    (scheduled_follows 4 64 8 64 _ _ Nat.lt_0_1 AggregatorResult.demo_one_sizes AggregatorResult.demo_memory_ok AggregatorResult.demo_one_alloc_ok)
    (demo_supported _) demo_carried ltac:(discriminate) ltac:(reflexivity) AggregatorResult.demo_one_sizes AggregatorResult.demo_memory_ok
    AggregatorResult.demo_one_alloc_ok) as (_ & _ & [(b & ks & H1 & H2 & _)|[(e & _ & H)|[H _]]]).
  - exists b, ks. split; [exact H1|exact H2].
  - destruct (demo_read_throws _ _ H).
  - destruct (demo_read_throws _ _ H).
Defined.

Lemma construct_accepts_witness : construct (demo_params AggregateFunctionUniq) = Returns CudaAggregateFunctionUniq.
Proof.
  apply (construct_accepts (demo_params AggregateFunctionUniq) CudaAggregateFunctionUniq). exists 0%nat, 1%nat.
  eexists _, _, _. cbv zeta. split_and!; reflexivity.
Defined.
