(* ===== verification/LinearProbing.v ===== *)
(** * Linear probing and growth in place

    The arrangement of the cells of an open-addressing table, without the
    program: an arrangement gives the key at each of [N] places, a key has a
    home among them, and the cells from the home of a key on, in circular
    order, are searched for it.  The table is searched correctly when no
    search meets an empty cell before the key it looks for ([probing]).

    HashTable::resize (dbms/src/Common/HashTable/HashTable.h) grows a table in
    place: the homes change with the size, and two passes over the cells put
    every key where the new homes want it.  The lemmas here show that these
    passes restore [probing] from any arrangement ([main_step], [tail_start],
    [tail_step], [tail_end]). *)

From stdpp Require Import base list option numbers.
From Stdlib Require Import ZArith Lia.

#[local] Open Scope Z_scope.

Section Probing.
Context {K : Type} (N : Z).
Implicit Types (v : Z -> option K) (x k : K) (home : K -> Z).

(** The places that a search from [p] passes before it comes to [j]. *)
Definition between (p j i : Z) : Prop := p <= i < j \/ (j < p /\ (p <= i < N \/ 0 <= i < j)).

Definition occupied_path v (p j : Z) : Prop := forall i, between p j i -> v i <> None.

Definition probing home v : Prop := forall j k, v j = Some k -> occupied_path v (home k) j.

Definition inside v : Prop := forall j k, v j = Some k -> 0 <= j < N.

Definition injective v : Prop := forall i j k, v i = Some k -> v j = Some k -> i = j.

(** Where a search for [x] stops, and the first such place from [q] on. *)
Definition stops v x (p : Z) : Prop := v p = None \/ v p = Some x.

Definition first_stop v x (q p : Z) : Prop :=
  0 <= p < N /\ stops v x p /\ forall i, between q p i -> ~ stops v x i.

Definition put v (p : Z) (o : option K) : Z -> option K := fun j => if j =? p then o else v j.

Lemma put_eq v p o : put v p o p = o.
Proof. unfold put. by rewrite Z.eqb_refl. Qed.

Lemma put_ne v p o j : j <> p -> put v p o j = v j.
Proof. intros H. unfold put. by rewrite (proj2 (Z.eqb_neq j p) H). Qed.

Lemma first_stop_path v x q p : first_stop v x q p -> occupied_path v q p.
Proof. intros (_ & _ & H) i Hi E. apply (H i Hi). by left. Qed.

(** A search from the home of a key finds it. *)
Lemma first_stop_present home v x j p :
  probing home v -> inside v -> injective v -> 0 <= home x < N -> v j = Some x -> first_stop v x (home x) p -> p = j.
Proof.
  intros Hp Hi Hu Hh Hj (Hb & Hs & Hf). destruct (Z.eq_dec p j) as [|Hne]; [done|]. pose proof (Hi _ _ Hj).
  assert (between (home x) j p \/ between (home x) p j) as [B|B] by (unfold between; lia).
  - destruct Hs as [Hs|Hs]; [by destruct (Hp _ _ Hj p B)|]. exact (Hu _ _ _ Hs Hj).
  - destruct (Hf j B). by right.
Qed.

Lemma first_stop_absent v x q p : (forall j, v j <> Some x) -> first_stop v x q p -> v p = None.
Proof. intros Ha (_ & [H|H] & _); [done|]. by destruct (Ha p). Qed.

(** Filling an empty cell makes no path shorter; putting a key where its
    search stops keeps every key in reach. *)
Lemma occupied_path_put v p k q j : occupied_path v q j -> occupied_path (put v p (Some k)) q j.
Proof. intros H i Hi. unfold put. destruct (i =? p); [done|]. exact (H i Hi). Qed.

Lemma probing_put home v x p : probing home v -> first_stop v x (home x) p -> probing home (put v p (Some x)).
Proof.
  intros Hp Hf j k E. apply occupied_path_put. destruct (Z.eq_dec j p) as [->|Hne].
  - rewrite put_eq in E. injection E as <-. exact (first_stop_path _ _ _ _ Hf).
  - rewrite put_ne in E by done. exact (Hp _ _ E).
Qed.

(** ** Growth in place *)

(** The effect of HashTable::reinsert on the cell [i]. *)
Definition reinserted home v (i : Z) (v' : Z -> option K) : Prop :=
  match v i with
  | None => forall j, v' j = v j
  | Some x => exists p, first_stop v x (home x) p /\
      ((v p = Some x /\ forall j, v' j = v j) \/ (v p = None /\ forall j, v' j = put (put v p (Some x)) i None j))
  end.

(** Before the cell [i] of the first pass over the [o] old cells: the keys of
    the cells passed are settled, and so are the keys that moved above [o] or
    they are in the run of cells that starts at [o]. *)
Record main_pass home v (o i : Z) : Prop := {
  main_inside : inside v;
  main_injective : injective v;
  main_settled : forall j k, v j = Some k -> j < i -> occupied_path v (home k) j /\ (home k <= j \/ o <= home k);
  main_above : forall j k, v j = Some k -> o <= j ->
    (o <= home k <= j /\ occupied_path v (home k) j) \/ (home k < o /\ occupied_path v o j)
}.

(** Before the cell [i] of the second pass, over the run that ends at [e]. *)
Record tail_pass home v (o i e : Z) : Prop := {
  tail_inside : inside v;
  tail_injective : injective v;
  tail_range : o <= i <= e /\ e < N;
  tail_stop : v e = None;
  tail_run : forall j, i <= j < e -> v j <> None;
  tail_settled : forall j k, v j = Some k -> j < i -> occupied_path v (home k) j /\ (home k <= j \/ e < home k);
  tail_left : forall j k, v j = Some k -> i <= j < e -> home k <= j;
  tail_right : forall j k, v j = Some k -> e < j -> e < home k <= j /\ occupied_path v (home k) j
}.
End Probing.

Section Growth.
Context {K : Type} (N o : Z) (home : K -> Z).
Hypothesis o_range : 0 < o < N.
Hypothesis home_range : forall k, 0 <= home k < N.
Implicit Types (v : Z -> option K).

(** A key that stays or moves leaves the same keys, each at one place. *)
Lemma reinserted_inside v i v' : inside N v -> reinserted N home v i v' -> inside N v'.
Proof.
  intros Hi Hr j k E. unfold reinserted in Hr. destruct (v i) as [x|] eqn:Ei; [|rewrite Hr in E; by apply (Hi _ _ E)].
  destruct Hr as (p & (Hp & _) & [[_ Hv]|[_ Hv]]); rewrite Hv in E; [by apply (Hi _ _ E)|].
  destruct (Z.eq_dec j i) as [->|H1]; [by rewrite put_eq in E|]. rewrite put_ne in E by done.
  destruct (Z.eq_dec j p) as [->|H2]; [done|]. rewrite put_ne in E by done. by apply (Hi _ _ E).
Qed.

Lemma reinserted_injective v i v' : injective v -> reinserted N home v i v' -> injective v'.
Proof.
  intros Hu Hr a b k Ea Eb. unfold reinserted in Hr. destruct (v i) as [x|] eqn:Ei; [|rewrite Hr in Ea, Eb; by apply (Hu _ _ _ Ea)].
  destruct Hr as (p & _ & [[_ Hv]|[Hn Hv]]); rewrite Hv in Ea, Eb; [by apply (Hu _ _ _ Ea)|].
  assert (forall c, put (put v p (Some x)) i None c = Some k -> c = p \/ (c <> i /\ v c = Some k)) as Hc.
  { intros c E. destruct (Z.eq_dec c i) as [->|H1]; [by rewrite put_eq in E|]. rewrite put_ne in E by done.
    destruct (Z.eq_dec c p) as [->|H2]; [by left|]. rewrite put_ne in E by done. by right. }
  assert (forall c, put (put v p (Some x)) i None c = Some k -> c = p -> k = x) as Hp.
  { intros c E ->. destruct (Z.eq_dec p i) as [->|H1]; [by rewrite put_eq in E|]. rewrite put_ne, put_eq in E by done. congruence. }
  destruct (Hc _ Ea) as [A|[A1 A2]], (Hc _ Eb) as [B|[B1 B2]]; [congruence| | |by apply (Hu _ _ _ A2)].
  - destruct B1. rewrite (Hp _ Ea A) in B2. exact (Hu _ _ _ B2 Ei).
  - destruct A1. rewrite (Hp _ Eb B) in A2. exact (Hu _ _ _ A2 Ei).
Qed.

(** A key that is reinserted stays, or moves to the empty cell [p]. *)
Lemma reinserted_cases v i v' x :
  inside N v -> injective v -> v i = Some x -> reinserted N home v i v' ->
  exists p, 0 <= p < N /\ occupied_path N v (home x) p /\ ~ between N (home x) p i /\
    ((p = i /\ forall j, v' j = v j) \/
     (p <> i /\ v p = None /\ v' i = None /\ v' p = Some x /\ forall j, j <> i -> j <> p -> v' j = v j)).
Proof.
  intros Hi Hu Ei Hr. unfold reinserted in Hr. rewrite Ei in Hr. destruct Hr as (p & Hf & Hc). exists p.
  pose proof (first_stop_path _ _ _ _ _ Hf) as Hpath. destruct Hf as (Hp & _ & Hf). split_and!; [lia|lia|done| |].
  - intros B. apply (Hf i B). by right.
  - destruct Hc as [[E Hv]|[E Hv]]; [left; split; [exact (Hu _ _ _ E Ei)|done]|]. right.
    assert (p <> i) as Hne by (intros ->; congruence). split_and!; [done|done|by rewrite Hv, put_eq|by rewrite Hv, put_ne, put_eq|].
    intros j H1 H2. by rewrite Hv, !put_ne.
Qed.

Lemma moved_path v v' i p q j :
  (forall l, l <> i -> l <> p -> v' l = v l) -> v' p <> None -> occupied_path N v q j -> ~ between N q j i -> occupied_path N v' q j.
Proof.
  intros Hv Hp Ho Hi l Hl. destruct (Z.eq_dec l p) as [->|H1]; [done|]. rewrite Hv; [exact (Ho l Hl)| |done]. by intros ->.
Qed.

Lemma same_path v v' q j : (forall l, v' l = v l) -> occupied_path N v q j -> occupied_path N v' q j.
Proof. intros Hv Ho l Hl. rewrite Hv. exact (Ho l Hl). Qed.

(** The first pass.  [e] is an empty cell above the old cells. *)
Lemma main_start v : inside N v -> injective v -> (forall j, o <= j -> v j = None) -> main_pass N home v o 0.
Proof.
  intros Hi Hu Hn. split; [done|done| |].
  - intros j k E Hj. pose proof (Hi _ _ E). lia.
  - intros j k E Hj. rewrite Hn in E by done. done.
Qed.

Lemma main_step v v' i e :
  main_pass N home v o i -> 0 <= i < o -> o <= e < N -> v e = None -> reinserted N home v i v' -> main_pass N home v' o (i + 1).
Proof.
  intros [Hi Hu Hs Ha] Hio He Hve Hr. pose proof (reinserted_inside _ _ _ Hi Hr). pose proof (reinserted_injective _ _ _ Hu Hr).
  destruct (v i) as [x|] eqn:Ei.
  2: { unfold reinserted in Hr. rewrite Ei in Hr. split; [done|done| |].
    - intros j k E Hj. rewrite Hr in E. assert (j <> i) by congruence. destruct (Hs _ _ E) as [P Q]; [lia|]. split; [by apply (same_path v)|done].
    - intros j k E Hj. rewrite Hr in E. destruct (Ha _ _ E Hj) as [[P Q]|[P Q]]; [left|right]; (split; [done|]); by apply (same_path v). }
  pose proof (home_range x) as Hx. destruct (reinserted_cases _ _ _ _ Hi Hu Ei Hr) as (p & Hp & Hpath & Hni & [[-> Hv]|(Hne & Hn & Hv'i & Hv'p & Hv)]).
  - assert (home x <= i \/ o <= home x) as Hhome. { destruct (decide (home x <= i \/ o <= home x)) as [|D]; [done|]. destruct (Hpath e); [|done]. unfold between. lia. }
    split; [done|done| |].
    + intros j k E Hj. rewrite Hv in E. destruct (Z.eq_dec j i) as [->|]; [assert (k = x) as -> by congruence; split; [by apply (same_path v)|done]|].
      destruct (Hs _ _ E) as [P Q]; [lia|]. split; [by apply (same_path v)|done].
    + intros j k E Hj. rewrite Hv in E. destruct (Ha _ _ E Hj) as [[P Q]|[P Q]]; [left|right]; (split; [done|]); by apply (same_path v).
  - assert (forall q j, occupied_path N v q j -> ~ between N q j i -> occupied_path N v' q j) as Hmove.
    { intros q j. apply (moved_path v v' i p); [done|]. by rewrite Hv'p. }
    assert (p < i -> home x <= p \/ o <= home x) as Hlow.
    { intros Hlt. destruct (decide (home x <= p \/ o <= home x)) as [|D]; [done|]. destruct (Hpath e); [|done]. unfold between. lia. }
    split; [done|done| |].
    + intros j k E Hj. destruct (Z.eq_dec j i) as [->|]; [congruence|]. destruct (Z.eq_dec j p) as [->|].
      { assert (k = x) as -> by congruence. split; [by apply Hmove|]. apply Hlow. lia. }
      rewrite Hv in E by done. destruct (Hs _ _ E) as [P Q]; [lia|]. split; [|done]. apply Hmove; [done|]. pose proof (Hi _ _ E). unfold between. lia.
    + intros j k E Hj. destruct (Z.eq_dec j p) as [->|].
      { assert (k = x) as -> by congruence. destruct (Z_lt_le_dec (home x) o) as [D|D].
        - right. split; [done|]. apply Hmove; [|unfold between; lia]. intros l Hl. apply Hpath. unfold between in *. lia.
        - destruct (Z_lt_le_dec p (home x)) as [D'|D'].
          + destruct Hni. unfold between. lia.
          + left. split; [lia|]. by apply Hmove. }
      rewrite Hv in E by lia. destruct (Ha _ _ E Hj) as [[P Q]|[P Q]]; [left|right]; (split; [done|]); apply Hmove; try done; unfold between; lia.
Qed.

(** The second pass. *)
Lemma tail_start v e0 : main_pass N home v o o -> o <= e0 < N -> v e0 = None -> exists e, tail_pass N home v o o e.
Proof.
  intros [Hi Hu Hs Ha] He0 Hn.
  assert (exists e, o <= e < N /\ v e = None /\ forall j, o <= j < e -> v j <> None) as (e & He & Hve & Hrun).
  { clear Hs Ha. set (P n := forall e, e = o + Z.of_nat n -> o <= e < N -> v e = None -> exists e, o <= e < N /\ v e = None /\ forall j, o <= j < e -> v j <> None).
    enough (forall n, P n) as HP by (apply (HP (Z.to_nat (e0 - o)) e0); [lia|done|done]).
    intros n. induction (lt_wf n) as [n _ IH]. intros e -> Hb Hne.
    destruct (Exists_dec (fun j => v (o + Z.of_nat j) = None) (seq 0 n)) as [D|D]; [intros j; destruct (v (o + Z.of_nat j)); [by right|by left]| |].
    - apply list.Exists_exists in D as (j & Hj & Ej). apply elem_of_seq in Hj. apply (IH j ltac:(lia) (o + Z.of_nat j)); [done|lia|done].
    - exists (o + Z.of_nat n). split_and!; [lia|lia|done|]. intros j Hj Ej. apply D. apply list.Exists_exists. exists (Z.to_nat (j - o)).
      split; [apply elem_of_seq; lia|]. by replace (o + Z.of_nat (Z.to_nat (j - o))) with j by lia. }
  exists e. assert (forall j k, v j = Some k -> o <= home k -> (home k <= e -> ~ between N (home k) j e)) as Hhome.
  { intros j k E Hok _ B. destruct (Z_lt_le_dec j o) as [D|D].
    - destruct (Hs _ _ E D) as [P _]. by destruct (P e B).
    - destruct (Ha _ _ E D) as [[_ P]|[Q _]]; [by destruct (P e B)|lia]. }
  split; [done|done|lia|done|done| | |].
  - intros j k E Hj. destruct (Hs _ _ E Hj) as [P Q]. split; [done|]. destruct Q as [|Q]; [by left|]. pose proof (Hi _ _ E).
    destruct (Z_lt_le_dec j (home k)) as [D|D]; [|by left]. right. destruct (Z_lt_le_dec e (home k)) as [|D']; [done|].
    destruct (Hhome _ _ E Q D'). unfold between. lia.
  - intros j k E Hj. destruct (Ha _ _ E) as [[P _]|[P _]]; lia.
  - intros j k E Hj. destruct (Ha _ _ E) as [[P Q]|[P Q]]; [lia| |].
    + split; [|done]. destruct (Z_lt_le_dec e (home k)) as [|D']; [lia|]. destruct (Hhome _ _ E (proj1 P) D'). unfold between. lia.
    + destruct (Q e); [unfold between; lia|done].
Qed.

Lemma tail_step v v' i e : tail_pass N home v o i e -> i < e -> reinserted N home v i v' -> tail_pass N home v' o (i + 1) e.
Proof.
  intros [Hi Hu Hr He Hrun Hs Hl Hg] Hie Hre. pose proof (reinserted_inside _ _ _ Hi Hre). pose proof (reinserted_injective _ _ _ Hu Hre).
  destruct (v i) as [x|] eqn:Ei; [|by destruct (Hrun i ltac:(lia))]. pose proof (Hl i x Ei ltac:(lia)) as Hhx. pose proof (home_range x).
  destruct (reinserted_cases _ _ _ _ Hi Hu Ei Hre) as (p & Hp & Hpath & Hni & [[-> Hv]|(Hne & Hn & Hv'i & Hv'p & Hv)]).
  - split; [done|done|lia|by rewrite Hv| | | |].
    + intros j Hj. rewrite Hv. apply Hrun. lia.
    + intros j k E Hj. rewrite Hv in E. destruct (Z.eq_dec j i) as [->|]; [assert (k = x) as -> by congruence; split; [by apply (same_path v)|by left]|].
      destruct (Hs _ _ E) as [P Q]; [lia|]. split; [by apply (same_path v)|done].
    + intros j k E Hj. rewrite Hv in E. apply (Hl _ _ E). lia.
    + intros j k E Hj. rewrite Hv in E. destruct (Hg _ _ E Hj) as [P Q]. split; [done|]. by apply (same_path v).
  - assert (home x <= p < i) as Hpi by (unfold between in Hni; lia).
    assert (forall q j, occupied_path N v q j -> ~ between N q j i -> occupied_path N v' q j) as Hmove.
    { intros q j. apply (moved_path v v' i p); [done|]. by rewrite Hv'p. }
    split; [done|done|lia|rewrite Hv by lia; done| | | |].
    + intros j Hj. rewrite Hv by lia. apply Hrun. lia.
    + intros j k E Hj. destruct (Z.eq_dec j i) as [->|]; [congruence|]. destruct (Z.eq_dec j p) as [->|].
      { assert (k = x) as -> by congruence. split; [by apply Hmove|lia]. }
      rewrite Hv in E by done. destruct (Hs _ _ E) as [P Q]; [lia|]. split; [|done]. apply Hmove; [done|]. pose proof (Hi _ _ E). unfold between. lia.
    + intros j k E Hj. rewrite Hv in E by lia. apply (Hl _ _ E). lia.
    + intros j k E Hj. rewrite Hv in E by lia. destruct (Hg _ _ E Hj) as [P Q]. split; [done|]. apply Hmove; [done|]. unfold between. lia.
Qed.

Lemma tail_end v e : tail_pass N home v o e e -> probing N home v.
Proof.
  intros [Hi Hu Hr He Hrun Hs Hl Hg] j k E. destruct (Z_lt_le_dec j e) as [D|D]; [exact (proj1 (Hs _ _ E D))|].
  destruct (Z.eq_dec j e) as [->|]; [congruence|]. exact (proj2 (Hg j k E ltac:(lia))).
Qed.
End Growth.
