(* ===== verification/Hash.v ===== *)
(** * Hash functions of the hash tables

    dbms/src/Common/HashTable/Hash.h: intHash64 and the function objects over it
    (intHash32 is in MurmurHash.v, with its device version).  intHash64 is shown to be injective: keys of up to 64
    bits collide in a hash table only by their place, never by their hash
    value. *)

From stdpp Require Import base list option numbers.
From Stdlib Require Import ZArith Lia.
From S2P Require Import Prelude.

#[local] Open Scope Z_scope.
#[local] Open Scope word_scope.

Definition intHash64 (x : Z) : Z :=
  let x := x ^64 (x >>64 33) in
  let x := x *64 0xff51afd7ed558ccd in
  let x := x ^64 (x >>64 33) in
  let x := x *64 0xc4ceb9fe1a85ec53 in
  x ^64 (x >>64 33).

(** DefaultHash64: the key in the low bytes of a zeroed UInt64; [w] is the
    width of the key type in bits and a negative key is its two's complement. *)
Definition DefaultHash64 (w key : Z) : Z := intHash64 (wrap w key).

(** TrivialHash: the key converted to size_t. *)
Definition TrivialHash (key : Z) : Z := u64 key.

Lemma xorshift_inverse x : fits 64 x -> let y := x ^64 (x >>64 33) in y ^64 (y >>64 33) = x.
Proof.
  intros Hx y. unfold y. rewrite Z.shiftr_lxor, Z.shiftr_shiftr by lia. replace (Z.shiftr x (33 + 33)) with 0.
  - rewrite Z.lxor_0_r, Z.lxor_assoc, Z.lxor_nilpotent. apply Z.lxor_0_r.
  - symmetry. rewrite Z.shiftr_div_pow2 by lia. apply Z.div_small. unfold fits in Hx. lia.
Qed.

Lemma mul_inverse x c i : fits 64 x -> (c * i) mod 2 ^ 64 = 1 -> (x *64 c) *64 i = x.
Proof.
  intros Hx Hc. unfold wrap. rewrite Zmult_mod_idemp_l, <- Z.mul_assoc, <- Zmult_mod_idemp_r, Hc, Z.mul_1_r. apply Z.mod_small. exact Hx.
Qed.

(** The inverse function. *)
Definition unhash64 (x : Z) : Z :=
  let x := x ^64 (x >>64 33) in
  let x := x *64 0x9cb4b2f8129337db in
  let x := x ^64 (x >>64 33) in
  let x := x *64 0x4f74430c22a54005 in
  x ^64 (x >>64 33).

Lemma unhash_intHash64 x : fits 64 x -> unhash64 (intHash64 x) = x.
Proof.
  intros Hx. unfold unhash64, intHash64. assert (forall y, fits 64 (wrap 64 y)) as Hw by (intros; apply wrap_fits; lia).
  set (x1 := x ^64 (x >>64 33)). assert (fits 64 x1) as H1 by (apply fits_lxor; [lia|done|]; by apply fits_shiftr).
  set (x2 := x1 *64 _). set (x3 := x2 ^64 (x2 >>64 33)). assert (fits 64 x3) as H3 by (apply fits_lxor; [lia|apply Hw|]; apply fits_shiftr; [lia|apply Hw]).
  set (x4 := x3 *64 _). cbv zeta. rewrite (xorshift_inverse x4) by apply Hw. unfold x4. rewrite mul_inverse by done. unfold x3. rewrite (xorshift_inverse x2) by apply Hw.
  unfold x2. rewrite mul_inverse by done. by apply xorshift_inverse.
Qed.

Lemma intHash64_fits x : fits 64 x -> fits 64 (intHash64 x).
Proof.
  intros Hx. unfold intHash64. assert (forall y, fits 64 (wrap 64 y)) as Hw by (intros; apply wrap_fits; lia).
  apply fits_lxor; [lia|apply Hw|]. apply fits_shiftr; [lia|apply Hw].
Qed.

(** Different keys have different hash values. *)
Theorem intHash64_injective x y : fits 64 x -> fits 64 y -> intHash64 x = intHash64 y -> x = y.
Proof. intros Hx Hy E. by rewrite <- (unhash_intHash64 x Hx), E, unhash_intHash64. Qed.

Lemma intHash64_injective_witness : intHash64 5 = intHash64 5 /\ 5 = 5.
Proof. split; [reflexivity|]. apply (intHash64_injective 5 5); [unfold fits; lia|unfold fits; lia|reflexivity]. Defined.
