(* ===== verification/MemoryTracker.v ===== *)
(** * The memory trackers

    MemoryTracker (dbms/src/Common/MemoryTracker.h and .cpp): the amount of
    memory of a query, of its user and of the server, each a tracker whose
    [next] is the wider one.  The state is the chain from the tracker of the
    thread on (empty when there is none) and the counter that the last tracker
    adds to (CurrentMetrics).  The operations are those of one thread.

    Whether a fault is injected (fault_probability and drand48) is the
    parameter [fault].

    Shown: a successful alloc leaves every limit of the chain respected and is
    undone by free.  An alloc that throws does not leave the chain as it was:
    the trackers above the one that refused lose the amount, and those below
    keep it. *)

From stdpp Require Import base list option numbers.
From Stdlib Require Import ZArith Lia.
From S2P Require Import Prelude IOMonad.

#[local] Open Scope Z_scope.

(** Int64 arithmetic. *)
Definition s64 (x : Z) : Z := let y := wrap 64 x in if y <? 2 ^ 63 then y else y - 2 ^ 64.

Lemma s64_small x : - 2 ^ 63 <= x < 2 ^ 63 -> s64 x = x.
Proof.
  intros Hx. unfold s64, wrap. destruct (Z_lt_le_dec x 0) as [Hn|Hn].
  - assert (x mod 2 ^ 64 = x + 2 ^ 64) as -> by (symmetry; apply (Z.mod_unique_pos _ _ (-1)); lia). destruct (Z.ltb_spec (x + 2 ^ 64) (2 ^ 63)); lia.
  - rewrite Z.mod_small by lia. destruct (Z.ltb_spec x (2 ^ 63)); lia.
Qed.

Record tracker := Tracker { amount : Z; peak : Z; limit : Z }.

(** A chain and the counter of its last tracker. *)
Record trackers := Trackers { chain : list tracker; metric : Z }.

Definition set_amount (x : Z) (t : tracker) : tracker := Tracker x (peak t) (limit t).

(** MemoryTracker::free on the first tracker of a chain. *)
Fixpoint free_chain (sz : Z) (ts : list tracker) (m : Z) : list tracker * Z :=
  match ts with
  | [] => ([], m)
  | t :: rest =>
      let new_amount := s64 (amount t - sz) in
      let t := set_amount (if new_amount <? 0 then s64 (new_amount - new_amount) else new_amount) t in
      let sz := if new_amount <? 0 then s64 (sz + new_amount) else sz in
      match rest with
      | [] => ([t], s64 (m - sz))
      | _ => let r := free_chain sz rest m in (t :: r.1, r.2)
      end
  end.

Section Alloc.
Context (fault : tracker -> bool).

(** MemoryTracker::alloc on the first tracker of a chain. *)
Fixpoint alloc_chain (sz : Z) (ts : list tracker) (m : Z) : outcome unit * (list tracker * Z) :=
  match ts with
  | [] => (Returns tt, ([], m))
  | t :: rest =>
      let will_be := s64 (sz + amount t) in
      let t := set_amount will_be t in
      let m := match rest with [] => s64 (m + sz) | _ => m end in
      let current_limit := limit t in
      if fault t then (Throws MEMORY_LIMIT_EXCEEDED, free_chain sz (t :: rest) m)
      else if negb (current_limit =? 0) && (current_limit <? will_be) then (Throws MEMORY_LIMIT_EXCEEDED, free_chain sz (t :: rest) m)
      else
        let t := if peak t <? will_be then Tracker (amount t) will_be (limit t) else t in
        match rest with
        | [] => (Returns tt, ([t], m))
        | _ => let r := alloc_chain sz rest m in (r.1, (t :: r.2.1, r.2.2))
        end
  end.

(** namespace CurrentMemoryTracker; a size_t argument becomes an Int64. *)
Definition tracker_alloc (sz : Z) : M trackers unit := fun s =>
  let r := alloc_chain (s64 sz) (chain s) (metric s) in (r.1, Trackers r.2.1 r.2.2).

Definition tracker_realloc (old_size new_size : Z) : M trackers unit := tracker_alloc (s64 new_size - s64 old_size).

Definition tracker_free (sz : Z) : M trackers unit := fun s =>
  let r := free_chain (s64 sz) (chain s) (metric s) in (Returns tt, Trackers r.1 r.2).
End Alloc.

(** MemoryTracker::reset on the tracker of the thread. *)
Definition tracker_reset (s : trackers) : trackers :=
  match chain s with
  | [] => s
  | t :: rest => Trackers (Tracker 0 0 0 :: rest) (match rest with [] => s64 (metric s - amount t) | _ => metric s end)
  end.

(** MemoryTracker::setOrRaiseLimit *)
Definition setOrRaiseLimit (value : Z) (t : tracker) : tracker :=
  if limit t <? value then Tracker (amount t) (peak t) value else t.

(** ** Properties *)

(** No overflow of Int64: amounts and sizes up to 2^61. *)
Definition small (t : tracker) : Prop := 0 <= amount t <= 2 ^ 61.

Definition respected (t : tracker) : Prop := limit t = 0 \/ amount t <= limit t.

Lemma alloc_chain_ok fault sz ts : forall m,
  0 <= sz <= 2 ^ 61 -> Forall small ts -> - 2 ^ 61 <= m <= 2 ^ 61 ->
  match alloc_chain fault sz ts m with
  | (Returns _, (ts', m')) => Forall respected ts' /\ map amount ts' = map (fun t => amount t + sz) ts /\ map limit ts' = map limit ts /\
      m' = (match ts with [] => m | _ => m + sz end) /\ free_chain sz ts' m' = (map (fun t => set_amount (amount t - sz) t) ts', m)
  | (Throws e, _) => e = MEMORY_LIMIT_EXCEEDED
  end.
Proof.
  induction ts as [|t rest IH]; intros m Hs Hts Hm; [cbn; by split_and!|].
  apply list.Forall_cons in Hts as [Ht Hrest]. unfold small in Ht. cbn [alloc_chain]. rewrite (s64_small (sz + amount t)) by lia. cbn [amount limit peak set_amount].
  destruct (fault _); [done|]. destruct (negb (limit t =? 0) && (limit t <? sz + amount t)) eqn:El; [done|].
  assert (limit t = 0 \/ sz + amount t <= limit t) as Hl.
  { destruct (Z.eqb_spec (limit t) 0); [by left|]. cbn [negb andb] in El. apply Z.ltb_ge in El. by right. }
  set (t' := if peak t <? sz + amount t then _ else _). assert (amount t' = sz + amount t /\ limit t' = limit t) as [Ea Elim] by (unfold t'; by destruct (peak t <? _)).
  destruct rest as [|u rest].
  - rewrite s64_small by lia. split_and!; [constructor; [unfold respected; lia|constructor]|cbn [map]; by rewrite Ea, Z.add_comm|cbn [map]; by rewrite Elim|done|].
    cbn [free_chain map]. rewrite Ea. replace (sz + amount t - sz) with (amount t) by lia. rewrite s64_small by lia. rewrite (proj2 (Z.ltb_ge _ _)) by lia. rewrite s64_small by lia. repeat f_equal; lia.
  - specialize (IH m Hs Hrest Hm). destruct (alloc_chain fault sz (u :: rest) m) as [[[]|e] [ts' m']]; cbn [fst snd]; [|done].
    destruct IH as (H1 & H2 & H3 & H4 & H5). split_and!; [constructor; [unfold respected; lia|done]|cbn [map]; rewrite Ea, H2; f_equal; lia|cbn [map]; by rewrite Elim, H3|done|].
    destruct ts' as [|u' ts']; [done|]. cbn [map] in H5 |- *. cbn [free_chain]. rewrite Ea. replace (sz + amount t - sz) with (amount t) by lia.
    rewrite s64_small by lia. rewrite (proj2 (Z.ltb_ge _ _)) by lia. cbn [free_chain] in H5. rewrite H5. done.
Qed.

(** A refusal by the first tracker: it takes its own addition back, and with
    it the amount of the wider tracker, to which nothing had been added. *)
Lemma refused_first c p m sz :
  0 <= sz <= 2 ^ 61 -> small c -> small p -> - 2 ^ 61 <= m <= 2 ^ 61 -> limit c <> 0 -> limit c < amount c + sz -> sz <= amount p ->
  alloc_chain (fun _ => false) sz [c; p] m = (Throws MEMORY_LIMIT_EXCEEDED, ([c; set_amount (amount p - sz) p], m - sz)).
Proof.
  intros Hs Hc Hp Hm Hl0 Hl Hle. unfold small in *. cbn [alloc_chain]. rewrite (s64_small (sz + amount c)) by lia. cbn [amount limit set_amount].
  rewrite (proj2 (Z.eqb_neq _ _) Hl0), (proj2 (Z.ltb_lt _ _)) by lia. cbn [negb andb free_chain amount set_amount]. replace (sz + amount c - sz) with (amount c) by lia.
  rewrite (s64_small (amount c)) by lia. rewrite !(proj2 (Z.ltb_ge _ _)) by (rewrite ?s64_small; lia). rewrite !s64_small by (rewrite ?s64_small; lia).
  by destruct c.
Qed.

(** A refusal by the wider tracker leaves the addition in the first one. *)
Lemma refused_second c p m sz :
  0 <= sz <= 2 ^ 61 -> small c -> small p -> - 2 ^ 61 <= m <= 2 ^ 61 -> limit c = 0 \/ amount c + sz <= limit c -> limit p <> 0 -> limit p < amount p + sz ->
  exists c', alloc_chain (fun _ => false) sz [c; p] m = (Throws MEMORY_LIMIT_EXCEEDED, ([c'; p], m)) /\ amount c' = amount c + sz.
Proof.
  intros Hs Hc Hp Hm Hl Hl0 Hlp. unfold small in *. cbn [alloc_chain]. rewrite (s64_small (sz + amount c)) by lia. cbn [amount limit set_amount].
  assert (negb (limit c =? 0) && (limit c <? sz + amount c) = false) as -> by (destruct (Z.eqb_spec (limit c) 0); [done|]; apply Z.ltb_ge; lia).
  rewrite (s64_small (sz + amount p)) by lia. rewrite (proj2 (Z.eqb_neq (limit p) 0) Hl0), (proj2 (Z.ltb_lt (limit p) _)) by lia.
  cbn [negb andb free_chain amount set_amount fst snd peak limit]. replace (sz + amount p - sz) with (amount p) by lia.
  rewrite !(s64_small (m + sz)), (s64_small (amount p)) by lia. rewrite !(proj2 (Z.ltb_ge (amount p) 0)) by lia. replace (m + sz - sz) with m by lia. rewrite s64_small by lia.
  eexists. split; [by destruct p|]. destruct (peak c <? sz + amount c); cbn; lia.
Qed.

(** A refused allocation leaves the chain changed: refused by the first
    tracker, the wider one loses the amount although nothing was freed;
    refused by the wider one, the first keeps an amount that was not
    allocated. *)
Theorem refused_alloc c p m sz :
  0 <= sz <= 2 ^ 61 -> small c -> small p -> - 2 ^ 61 <= m <= 2 ^ 61 ->
  (limit c <> 0 -> limit c < amount c + sz -> sz <= amount p ->
    tracker_alloc (fun _ => false) sz (Trackers [c; p] m) = (Throws MEMORY_LIMIT_EXCEEDED, Trackers [c; set_amount (amount p - sz) p] (m - sz))) /\
  (limit c = 0 \/ amount c + sz <= limit c -> limit p <> 0 -> limit p < amount p + sz ->
    exists c', tracker_alloc (fun _ => false) sz (Trackers [c; p] m) = (Throws MEMORY_LIMIT_EXCEEDED, Trackers [c'; p] m) /\ amount c' = amount c + sz).
Proof.
  intros Hs Hc Hp Hm. unfold tracker_alloc. cbn [chain metric]. rewrite s64_small by lia. split.
  - intros. by rewrite refused_first.
  - intros. destruct (refused_second c p m sz) as (c' & -> & Ha); [done..|]. by exists c'.
Qed.

Lemma refused_alloc_witness :
  (tracker_alloc (fun _ => false) 50 (Trackers [Tracker 0 0 10; Tracker 100 100 0] 100) = (Throws MEMORY_LIMIT_EXCEEDED, Trackers [Tracker 0 0 10; Tracker 50 100 0] 50)) /\
  exists c', tracker_alloc (fun _ => false) 50 (Trackers [Tracker 0 0 0; Tracker 100 100 120] 100) = (Throws MEMORY_LIMIT_EXCEEDED, Trackers [c'; Tracker 100 100 120] 100) /\ amount c' = 50.
Proof.
  split.
  - apply (refused_alloc (Tracker 0 0 10) (Tracker 100 100 0) 100 50); unfold small; cbn; lia.
  - apply (refused_alloc (Tracker 0 0 0) (Tracker 100 100 120) 100 50); unfold small; cbn; lia.
Defined.
