(* ===== verification/Allocators.v ===== *)
(** * Allocators

    The interface of Allocator (dbms/src/Common/Allocator.h) that the
    containers are templates over, what they rely on ([AllocatorLaws]), and
    the allocator of the tree (Allocator.cpp): it takes its memory from the
    pool of pinned memory (PinnedMemPool.v) after it has told the memory
    tracker of the thread (MemoryTracker.v).  Its laws hold for any pool, any
    trackers and any injected faults. *)

From stdpp Require Import base list option numbers.
From Stdlib Require Import ZArith Lia.
From S2P Require Import Prelude IOMonad DeviceMemory MemoryTracker.
From S2P Require PinnedMemPool.

#[local] Open Scope Z_scope.

(** alloc, realloc and free give and take the address and the size of a range
    of memory. *)
Class Allocator (A : Type) := {
  alloc_range : Z -> M A Z;
  realloc_range : Z -> Z -> Z -> M A Z;
  free_range : Z -> Z -> M A unit
}.

(** [alloc_inv a live]: [live] are the ranges that are in use, with their
    sizes.  An operation that throws leaves them as they are.  Addresses
    have 48 bits. *)
Class AllocatorLaws (A : Type) `{Allocator A} := {
  alloc_inv : A -> list (Z * Z) -> Prop;
  alloc_inv_perm a l l' : l ≡ₚ l' -> alloc_inv a l -> alloc_inv a l';
  alloc_inv_range a live p n : alloc_inv a ((p, n) :: live) -> 0 < p /\ p + n <= 2 ^ 48;
  alloc_range_ok a live n : alloc_inv a live -> 0 < n < 2 ^ 60 ->
    match alloc_range n a with
    | (Returns p, a') => alloc_inv a' ((p, n) :: live) /\ p <> 0 /\ n <= 2 ^ 48
    | (Throws _, a') => alloc_inv a' live
    end;
  realloc_range_ok a live p old new : alloc_inv a ((p, old) :: live) -> 0 < old < new -> new < 2 ^ 60 ->
    match realloc_range p old new a with
    | (Returns p', a') => alloc_inv a' ((p', new) :: live) /\ p' <> 0 /\ new <= 2 ^ 48
    | (Throws _, a') => alloc_inv a' ((p, old) :: live)
    end;
  free_range_ok a live p n : alloc_inv a ((p, n) :: live) -> exists a', free_range p n a = (Returns tt, a') /\ alloc_inv a' live
}.

(** ** Allocator<true> on the pool *)

Record pool_allocator := PoolAllocator { host_pool : PinnedMemPool.pool; tracked : trackers }.

Section PoolAllocator.
Context (fault : tracker -> bool).

Definition on_trackers {X} (m : M trackers X) : M pool_allocator X := zoom tracked (fun t s => PoolAllocator (host_pool s) t) m.

(** A call of the pool: std::runtime_error when there is not enough memory. *)
Definition on_pool {X} (f : PinnedMemPool.pool -> result PinnedMemPool.pool_error (PinnedMemPool.pool * X)) : M pool_allocator X := fun s =>
  match f (host_pool s) with
  | Ok (P, x) => (Returns x, PoolAllocator P (tracked s))
  | Throw PinnedMemPool.NotEnoughMemory => (Throws RUNTIME_ERROR, s)
  | Throw PinnedMemPool.Diverges => (Throws NO_FUEL, s)
  end.

(** memset(p, 0, n) *)
Definition memset_zero (m : memory) (p n : Z) : memory := fun x => if (p <=? x) && (x <? p + n) then 0 else m x.

Definition clear_range (p n : Z) : M pool_allocator unit :=
  modify (fun s => PoolAllocator (PinnedMemPool.set_heap (host_pool s) (memset_zero (PinnedMemPool.heap (host_pool s)) p n)) (tracked s)).

Definition Allocator_alloc (size : Z) : M pool_allocator Z :=
  _ ← on_trackers (tracker_alloc fault size);
  buf ← on_pool (fun P => PinnedMemPool.alloc P size 0);
  _ ← clear_range buf size;
  mret buf.

Definition Allocator_free (buf size : Z) : M pool_allocator unit :=
  _ ← on_pool (fun P => match PinnedMemPool.free P buf with Ok P => Ok (P, tt) | Throw e => Throw e end);
  on_trackers (tracker_free size).

Definition Allocator_realloc (buf old_size new_size : Z) : M pool_allocator Z :=
  _ ← on_trackers (tracker_realloc fault old_size new_size);
  new_buf ← on_pool (fun P => PinnedMemPool.realloc P buf old_size new_size 0);
  _ ← (if old_size <? new_size then clear_range (new_buf + old_size) (new_size - old_size) else mret tt);
  mret new_buf.

Definition pool_alloc : Allocator pool_allocator := {|
  alloc_range := Allocator_alloc;
  realloc_range := Allocator_realloc;
  free_range := Allocator_free
|}.
End PoolAllocator.

(** The live ranges are those of the clients of the pool. *)
Definition pool_live (a : pool_allocator) (live : list (Z * Z)) : Prop :=
  exists lo hi, PinnedMemPool.clients_inv lo hi (PinnedMemPool.Clients (host_pool a) live) /\ lo + hi <= 2 ^ 48.

Lemma pool_live_perm a l l' : l ≡ₚ l' -> pool_live a l -> pool_live a l'.
Proof.
  intros Hp (lo & hi & ((F & I) & E1 & E2 & Hs) & Hhi). exists lo, hi. split; [|done]. cbn [PinnedMemPool.c_pool PinnedMemPool.c_live] in *.
  split_and!; [|done|done|cbn; by rewrite <- Hp]. exists F.
  apply (PinnedMemPool.pool_inv_perm _ (map PinnedMemPool.block_of l)); [by rewrite Hp|done].
Qed.

Lemma memset_ok m p n : mem_ok m -> mem_ok (memset_zero m p n).
Proof. intros Hm x. unfold memset_zero. destruct (_ && _); [unfold fits; lia|apply Hm]. Qed.

(** Clearing a part of a live range. *)
Lemma clear_live P t live p n q k :
  pool_live (PoolAllocator P t) ((p, n) :: live) -> p <= q -> q + k <= p + n ->
  pool_live (PoolAllocator (PinnedMemPool.set_heap P (memset_zero (PinnedMemPool.heap P) q k)) t) ((p, n) :: live).
Proof.
  intros (lo & hi & ((F & I) & E1 & E2 & Hs) & Hhi) H1 H2. exists lo, hi. split; [|done]. cbn [PinnedMemPool.c_pool PinnedMemPool.c_live host_pool] in *.
  split_and!; [|done|done|done]. exists F. apply PinnedMemPool.write_spec; [done|apply memset_ok, I|]. intros x Hx. unfold memset_zero.
  destruct (Z.leb_spec q x); [|done]. destruct (Z.ltb_spec x (q + k)); [|done]. exfalso. apply Hx. apply list.Forall_cons in Hs as [[S1 S2] _]. cbn [fst snd] in S1, S2.
  destruct (PinnedMemPool.alloc_size_spec n S1 S2) as (A1 & A2 & A3 & A4). exists (PinnedMemPool.block_of (p, n)). split; [by left|]. cbn. lia.
Qed.

Lemma live_range a live p n : pool_live a ((p, n) :: live) -> 0 < p /\ p + n <= 2 ^ 48.
Proof.
  intros (lo & hi & ((F & I) & E1 & E2 & Hs) & Hhi). cbn [PinnedMemPool.c_pool PinnedMemPool.c_live] in *.
  apply list.Forall_cons in Hs as [[S1 S2] _]. cbn [fst snd] in S1, S2. destruct (PinnedMemPool.alloc_size_spec n S1 S2) as (A1 & A2 & A3 & A4).
  destruct (PinnedMemPool.pv_block _ _ _ I (PinnedMemPool.block_of (p, n))) as (B1 & B2 & B3 & B4 & B5); [apply elem_of_app; right; by left|].
  destruct (PinnedMemPool.pv_pool _ _ _ I) as (P1 & P2 & P3 & P4 & P5). cbn in *. lia.
Qed.

Lemma live_bound a p n live : pool_live a ((p, n) :: live) -> p <> 0 /\ n <= 2 ^ 48.
Proof. intros H. destruct (live_range a live p n H). lia. Qed.

Section Laws.
Context (fault : tracker -> bool).

Lemma on_trackers_live {X} (m : M trackers X) a live : pool_live a live -> pool_live (on_trackers m a).2 live.
Proof. done. Qed.

Lemma Allocator_alloc_ok a live n :
  pool_live a live -> 0 < n < 2 ^ 60 ->
  match Allocator_alloc fault n a with
  | (Returns p, a') => pool_live a' ((p, n) :: live) /\ p <> 0 /\ n <= 2 ^ 48
  | (Throws _, a') => pool_live a' live
  end.
Proof.
  intros Ha Hn. pose proof (on_trackers_live (tracker_alloc fault n) a live Ha) as Ha1. unfold Allocator_alloc. unfold mbind at 1, M_bind at 1.
  destruct (on_trackers (tracker_alloc fault n) a) as [[[]|e] a1]; [|done]. cbn [snd] in Ha1. unfold mbind at 1, M_bind at 1, on_pool.
  destruct Ha1 as (lo & hi & C & Hhi). pose proof C as ((F & I) & _). cbn [PinnedMemPool.c_pool PinnedMemPool.c_live] in I.
  destruct (PinnedMemPool.alloc_spec (host_pool a1) _ F n 0 I ltac:(lia) ltac:(lia) ltac:(lia)) as [(P' & b & F' & E & _)|[E _]]; rewrite E; [|by exists lo, hi].
  pose proof (PinnedMemPool.step_inv lo hi _ _ C (PinnedMemPool.step_alloc _ live n 0 P' _ ltac:(lia) ltac:(lia) ltac:(lia) E)) as C'.
  assert (pool_live (PoolAllocator P' (tracked a1)) ((b.1 + 16, n) :: live)) as Hl by (by exists lo, hi).
  unfold clear_range. rewrite bind_modify. cbn. split; [apply (clear_live _ _ _ _ _ _ _ Hl); lia|]. by eapply live_bound.
Qed.

Lemma Allocator_realloc_ok a live p old new :
  pool_live a ((p, old) :: live) -> 0 < old < new -> new < 2 ^ 60 ->
  match Allocator_realloc fault p old new a with
  | (Returns p', a') => pool_live a' ((p', new) :: live) /\ p' <> 0 /\ new <= 2 ^ 48
  | (Throws _, a') => pool_live a' ((p, old) :: live)
  end.
Proof.
  intros Ha Hn Hn'. pose proof (on_trackers_live (tracker_realloc fault old new) a _ Ha) as Ha1. unfold Allocator_realloc. unfold mbind at 1, M_bind at 1.
  destruct (on_trackers (tracker_realloc fault old new) a) as [[[]|e] a1]; [|done]. cbn [snd] in Ha1. unfold mbind at 1, M_bind at 1, on_pool.
  destruct Ha1 as (lo & hi & C & Hhi). pose proof C as ((F & I) & _ & _ & Hs). cbn [PinnedMemPool.c_pool PinnedMemPool.c_live] in I, Hs.
  apply list.Forall_cons in Hs as [[S1 S2] _]. cbn [fst snd] in S1, S2. destruct (PinnedMemPool.alloc_size_spec old S1 S2) as (A1 & A2 & A3 & A4).
  pose proof (PinnedMemPool.realloc_spec (host_pool a1) _ _ F (PinnedMemPool.block_of (p, old)) old new 0 I (reflexivity _) ltac:(lia) ltac:(lia) ltac:(lia) ltac:(lia) ltac:(cbn; lia)) as Hr.
  rewrite PinnedMemPool.block_of_data in Hr. destruct Hr as [(P' & c & F' & E & _)|[E _]]; rewrite E; [|by exists lo, hi].
  pose proof (PinnedMemPool.step_inv lo hi _ _ C (PinnedMemPool.step_realloc _ _ live p old new 0 P' _ (reflexivity _) ltac:(lia) ltac:(lia) ltac:(lia) E)) as C'.
  assert (pool_live (PoolAllocator P' (tracked a1)) ((c + 16, new) :: live)) as Hl by (by exists lo, hi).
  rewrite (proj2 (Z.ltb_lt old new)) by lia. unfold clear_range. rewrite bind_modify. cbn. split; [apply (clear_live _ _ _ _ _ _ _ Hl); lia|]. by eapply live_bound.
Qed.

Lemma Allocator_free_ok a live p n : pool_live a ((p, n) :: live) -> exists a', Allocator_free p n a = (Returns tt, a') /\ pool_live a' live.
Proof.
  intros (lo & hi & C & Hhi). pose proof C as ((F & I) & _). cbn [PinnedMemPool.c_pool PinnedMemPool.c_live] in I.
  destruct (PinnedMemPool.free_spec (host_pool a) _ _ F (PinnedMemPool.block_of (p, n)) I (reflexivity _)) as (P' & F' & E & _). rewrite PinnedMemPool.block_of_data in E.
  pose proof (PinnedMemPool.step_inv lo hi _ _ C (PinnedMemPool.step_free _ _ live p n P' (reflexivity _) E)) as C'.
  unfold Allocator_free. unfold mbind, M_bind, on_pool. rewrite E. eexists. split; [reflexivity|]. by exists lo, hi.
Qed.

Definition pool_alloc_laws : @AllocatorLaws pool_allocator (pool_alloc fault) :=
  @Build_AllocatorLaws pool_allocator (pool_alloc fault) pool_live pool_live_perm live_range Allocator_alloc_ok Allocator_realloc_ok Allocator_free_ok.
End Laws.

(** A pool of a mebibyte without a tracker. *)
Definition demo_allocator : pool_allocator := PoolAllocator (PinnedMemPool.reset (PinnedMemPool.Pool (2 ^ 20) 0 0 4096 0 (fun _ => 7))) (Trackers [] 0).

Lemma demo_live : pool_live demo_allocator [].
Proof.
  exists 4096, (2 ^ 20). split; [|lia]. split_and!; [|done|done|by constructor]. exists [(4096, 2 ^ 20)].
  apply (PinnedMemPool.reset_spec (PinnedMemPool.Pool (2 ^ 20) 0 0 4096 0 (fun _ => 7))); [done|]. intros x. unfold fits. cbn. lia.
Qed.

Definition on_the_pool : Allocator pool_allocator := pool_alloc (fun _ => false).
Definition on_the_pool_laws : @AllocatorLaws pool_allocator on_the_pool := pool_alloc_laws (fun _ => false).
