(* ===== verification/HashTableCells.v ===== *)
(** * The cells of the hash tables

    dbms/src/Common/HashTable/HashTable.h describes the "compile-time
    interface for cell of the hash table"; the hash tables are templates over
    a type with this interface.  It is the class [Cell] here, and the cell
    types of the tree are its instances: HashTableCell (HashTable.h),
    HashMapCell (HashMap.h), the derived cells that remember the hash value
    (HashMap.h, HashSet.h), and ClearableHashTableCell
    (ClearableHashSet.h), derived from one of the others.

    [CellLaws] states what a hash table relies on.  It is shown for all of
    them from [BaseLaws], the laws that the members hold without regard to
    which cells count as empty. *)

From stdpp Require Import base list option numbers.
From Stdlib Require Import ZArith Lia.
From S2P Require Import Prelude.

#[local] Open Scope Z_scope.

(** namespace ZeroTraits: [check] and [set] of a key type. *)
Class ZeroTraits (Key : Type) := {
  zero_check : Key -> bool;
  zero_set : Key -> Key
}.

(** The interface.  [zeroed] is the cell whose memory is all zero bytes, and
    [new_Cell] is placement new over the memory of a cell: what the
    constructor does not initialise keeps its value. *)
Class Cell (Key Value State C : Type) := {
  sizeof_Cell : Z;
  zeroed : C;
  new_Cell : Key -> State -> C -> C;
  getValue : C -> Value;
  getKey : Value -> Key;
  keyEquals : C -> Key -> bool;
  keyEquals_hash : C -> Key -> Z -> bool;
  setHash : Z -> C -> C;
  getHash : (Key -> Z) -> C -> Z;
  isZero : C -> State -> bool;
  isZero_key : Key -> State -> bool;
  setZero : C -> C;
  need_zero_value_storage : bool;
  isDeleted : C -> bool;
  setMapped : Value -> C -> C
}.

Definition key_of `{Cell Key Value State C} (c : C) : Key := getKey (getValue c).

Section Cells.
Context {Key : Type} `{EqDecision Key, ZeroTraits Key}.

(** struct HashTableCell *)
Record HashTableCell := TableCell { key : Key }.

Definition hash_table_cell {State : Type} (size : Z) (zero_key : Key) : Cell Key Key State HashTableCell := {|
  sizeof_Cell := size;
  zeroed := TableCell zero_key;
  new_Cell := fun key_ _ _ => TableCell key_;
  getValue := key;
  getKey := fun value => value;
  keyEquals := fun c key_ => bool_decide (key c = key_);
  keyEquals_hash := fun c key_ _ => bool_decide (key c = key_);
  setHash := fun _ c => c;
  getHash := fun hash c => hash (key c);
  isZero := fun c _ => zero_check (key c);
  isZero_key := fun k _ => zero_check k;
  setZero := fun c => TableCell (zero_set (key c));
  need_zero_value_storage := true;
  isDeleted := fun _ => false;
  setMapped := fun _ c => c
|}.

(** struct PairNoInit and struct HashMapCell.  The constructor from a key
    leaves the mapped value uninitialised. *)
Record PairNoInit {Mapped : Type} := Pair { first : Key; second : Mapped }.
#[global] Arguments PairNoInit : clear implicits.

Record HashMapCell {Mapped : Type} := MapCell { value : PairNoInit Mapped }.
#[global] Arguments HashMapCell : clear implicits.

Definition hash_map_cell {Mapped State : Type} (size : Z) (zero_key : Key) (zero_mapped : Mapped) : Cell Key (PairNoInit Mapped) State (HashMapCell Mapped) := {|
  sizeof_Cell := size;
  zeroed := MapCell _ (Pair _ zero_key zero_mapped);
  new_Cell := fun key_ _ c => MapCell _ (Pair _ key_ (second (value c)));
  getValue := value;
  getKey := first;
  keyEquals := fun c key_ => bool_decide (first (value c) = key_);
  keyEquals_hash := fun c key_ _ => bool_decide (first (value c) = key_);
  setHash := fun _ c => c;
  getHash := fun hash c => hash (first (value c));
  isZero := fun c _ => zero_check (first (value c));
  isZero_key := fun k _ => zero_check k;
  setZero := fun c => MapCell _ (Pair _ (zero_set (first (value c))) (second (value c)));
  need_zero_value_storage := true;
  isDeleted := fun _ => false;
  setMapped := fun value_ c => MapCell _ (Pair _ (first (value c)) (second value_))
|}.
End Cells.

Arguments HashTableCell : clear implicits.
Arguments TableCell {Key} key.
Arguments PairNoInit : clear implicits.
Arguments Pair {Key Mapped} first second.
Arguments first {Key Mapped} _.
Arguments second {Key Mapped} _.
Arguments HashMapCell : clear implicits.
Arguments MapCell {Key Mapped} value.
Arguments value {Key Mapped} _.

(** ** Derived cells *)

(** HashMapCellWithSavedHash and HashSetCellWithSavedHash: the same additions
    to the two base classes. *)
Record WithSavedHash (C : Type) := Saved { saved_base : C; saved_hash : Z }.
Arguments Saved {C} saved_base saved_hash.
Arguments saved_base {C} _.
Arguments saved_hash {C} _.

Definition saved_hash_cell {Key Value State C : Type} (size : Z) (B : Cell Key Value State C) : Cell Key Value State (WithSavedHash C) := {|
  sizeof_Cell := size;
  zeroed := Saved zeroed 0;
  new_Cell := fun key_ state c => Saved (new_Cell key_ state (saved_base c)) (saved_hash c);
  getValue := fun c => getValue (saved_base c);
  getKey := getKey;
  keyEquals := fun c key_ => keyEquals (saved_base c) key_;
  keyEquals_hash := fun c key_ hash_ => (saved_hash c =? hash_) && keyEquals (saved_base c) key_;
  setHash := fun hash_value c => Saved (saved_base c) hash_value;
  getHash := fun _ c => saved_hash c;
  isZero := fun c state => isZero (saved_base c) state;
  isZero_key := isZero_key;
  setZero := fun c => Saved (setZero (saved_base c)) (saved_hash c);
  need_zero_value_storage := need_zero_value_storage;
  isDeleted := fun c => isDeleted (saved_base c);
  setMapped := fun value_ c => Saved (setMapped value_ (saved_base c)) (saved_hash c)
|}.

(** struct ClearableHashSetState and struct ClearableHashTableCell: a cell is
    empty when its version is not that of the table. *)
Record ClearableHashSetState := Clearable { state_version : Z }.

Record ClearableHashTableCell (C : Type) := Versioned { clearable_base : C; version : Z }.
Arguments Versioned {C} clearable_base version.
Arguments clearable_base {C} _.
Arguments version {C} _.

Definition clearable_cell {Key Value C : Type} (size : Z) (B : Cell Key Value ClearableHashSetState C) : Cell Key Value ClearableHashSetState (ClearableHashTableCell C) := {|
  sizeof_Cell := size;
  zeroed := Versioned zeroed 0;
  new_Cell := fun key_ state c => Versioned (new_Cell key_ state (clearable_base c)) (state_version state);
  getValue := fun c => getValue (clearable_base c);
  getKey := getKey;
  keyEquals := fun c key_ => keyEquals (clearable_base c) key_;
  keyEquals_hash := fun c key_ hash_ => keyEquals_hash (clearable_base c) key_ hash_;
  setHash := fun hash_value c => Versioned (setHash hash_value (clearable_base c)) (version c);
  getHash := fun hash c => getHash hash (clearable_base c);
  isZero := fun c state => negb (version c =? state_version state);
  isZero_key := fun _ _ => false;
  setZero := fun c => Versioned (clearable_base c) 0;
  need_zero_value_storage := false;
  isDeleted := fun c => isDeleted (clearable_base c);
  setMapped := fun value_ c => Versioned (setMapped value_ (clearable_base c)) (version c)
|}.

(** ** What a hash table relies on *)

(** [state_ok]: the states of the table in which zeroed memory is empty
    cells.  [cell_ok s c]: the cell [c] is one that the members leave in a
    table in the state [s]. *)
Class CellLaws {Key Value State C : Type} (hash : Key -> Z) (I : Cell Key Value State C) := {
  state_ok : State -> Prop;
  cell_ok : State -> C -> Prop;
  sizeof_pos : 0 < sizeof_Cell;
  zeroed_ok s : state_ok s -> cell_ok s zeroed /\ isZero zeroed s = true;
  setZero_ok s c : state_ok s -> cell_ok s c -> cell_ok s (setZero c) /\ isZero (setZero c) s = true;
  new_ok s c k : state_ok s -> cell_ok s c -> isZero_key k s = false ->
    let c' := setHash (hash k) (new_Cell k s c) in cell_ok s c' /\ isZero c' s = false /\ key_of c' = k;
  getHash_ok s c : cell_ok s c -> isZero c s = false -> getHash hash c = hash (key_of c);
  setHash_ok s c : cell_ok s c -> isZero c s = false -> cell_ok s (setHash (hash (key_of c)) c);
  setHash_isZero s c h : isZero (setHash h c) s = isZero c s;
  setHash_value c h : getValue (setHash h c) = getValue c;
  keyEquals_ok s c k : cell_ok s c -> isZero c s = false -> keyEquals_hash c k (hash k) = true <-> key_of c = k;
  nonzero_key s c : cell_ok s c -> isZero c s = false -> isZero_key (key_of c) s = false;
  isDeleted_ok c : isDeleted c = false;
  setMapped_ok s c x : cell_ok s c -> isZero c s = false -> getKey x = key_of c -> cell_ok s (setMapped x c);
  setMapped_isZero s c x : isZero (setMapped x c) s = isZero c s;
  setMapped_value c x : getKey x = key_of c -> getValue (setMapped x c) = x;
  zero_unique s k k' : isZero_key k s = true -> isZero_key k' s = true -> k = k';
  zero_never s k : need_zero_value_storage = false -> isZero_key k s = false;
  zero_storage s c : need_zero_value_storage = true -> isZero_key (key_of (setZero c)) s = true /\ isZero (setZero c) s = true
}.

(** The laws of the members that do not say which cells are empty. *)
Class BaseLaws {Key Value State C : Type} (hash : Key -> Z) (I : Cell Key Value State C) := {
  base_new k s c : key_of (new_Cell k s c) = k;
  base_setHash_value c h : getValue (setHash h c) = getValue c;
  base_setHash c : getHash hash (setHash (hash (key_of c)) c) = hash (key_of c);
  base_keyEquals c k : getHash hash c = hash (key_of c) -> keyEquals_hash c k (hash k) = true <-> key_of c = k;
  base_keyEquals_key c k : keyEquals c k = true <-> key_of c = k;
  base_isDeleted c : isDeleted c = false;
  base_setMapped_key c x : key_of (setMapped x c) = key_of c;
  base_setMapped_value c x : getKey x = key_of c -> getValue (setMapped x c) = x;
  base_setMapped_hash c x : getKey x = key_of c -> getHash hash (setMapped x c) = getHash hash c
}.

Class ZeroLaws (Key : Type) `{ZeroTraits Key} := {
  zero_check_set (k : Key) : zero_check (zero_set k) = true;
  zero_check_unique (k k' : Key) : zero_check k = true -> zero_check k' = true -> k = k'
}.

Section Bases.
Context {Key : Type} `{EqDecision Key, ZeroTraits Key} (hash : Key -> Z).

#[export] Instance hash_table_cell_base {State} size zk : BaseLaws hash (hash_table_cell (State := State) size zk).
Proof. split; try done; intros; cbn; apply bool_decide_eq_true. Qed.

#[export] Instance hash_map_cell_base {Mapped State} size zk (zm : Mapped) : BaseLaws hash (hash_map_cell (State := State) size zk zm).
Proof.
  split; try done; intros; cbn in *; try apply bool_decide_eq_true. destruct x. cbn in *. by subst.
Qed.

#[export] Instance saved_hash_cell_base {Value State C} size (B : Cell Key Value State C) `{L : !BaseLaws hash B} : BaseLaws hash (saved_hash_cell size B).
Proof.
  split; intros; unfold key_of in *; cbn in *.
  - apply base_new.
  - done.
  - done.
  - rewrite andb_true_iff, Z.eqb_eq. setoid_rewrite base_keyEquals_key. unfold key_of. split; [by intros []|]. intros E. split; [congruence|done].
  - apply base_keyEquals_key.
  - apply base_isDeleted.
  - apply base_setMapped_key.
  - by apply base_setMapped_value.
  - done.
Qed.
End Bases.

(** A cell that is empty when its key is zero. *)
Lemma zero_key_laws {Key Value State C} `{ZeroLaws Key} (hash : Key -> Z) (I : Cell Key Value State C) `{L : !BaseLaws hash I} :
  0 < sizeof_Cell ->
  (forall c s, isZero c s = zero_check (key_of c)) -> (forall k s, isZero_key k s = zero_check k) ->
  zero_check (key_of zeroed) = true -> (forall c, key_of (setZero c) = zero_set (key_of c)) -> need_zero_value_storage = true ->
  CellLaws hash I.
Proof.
  intros Hs Hz Hk Hzero Hset Hneed.
  refine {| state_ok := fun _ => True; cell_ok := fun _ c => zero_check (key_of c) = false -> getHash hash c = hash (key_of c) |}; intros; rewrite ?Hz, ?Hk in *; try done.
  - split; [|done]. intros. congruence.
  - rewrite Hset, zero_check_set. done.
  - assert (key_of c' = k) as Ek by (unfold c', key_of; rewrite base_setHash_value; apply base_new). rewrite Ek. split_and!; try done.
    intros _. unfold c'. pose proof (base_setHash (new_Cell k s c)) as E. by rewrite base_new in E.
  - auto.
  - rewrite base_setHash. unfold key_of. by rewrite base_setHash_value.
  - unfold key_of. by rewrite base_setHash_value.
  - apply base_setHash_value.
  - apply base_keyEquals. auto.
  - apply base_isDeleted.
  - rewrite base_setMapped_hash, base_setMapped_key by done. auto.
  - by rewrite base_setMapped_key.
  - by apply base_setMapped_value.
  - by apply zero_check_unique.
  - congruence.
  - rewrite Hset, zero_check_set. done.
Defined.

#[export] Instance hash_table_cell_laws {Key State} `{EqDecision Key, ZeroLaws Key} (hash : Key -> Z) size zk :
  0 < size -> zero_check zk = true -> CellLaws hash (hash_table_cell (State := State) size zk).
Proof. intros. by apply zero_key_laws; [apply _|..]. Defined.

#[export] Instance hash_map_cell_laws {Key Mapped State} `{EqDecision Key, ZeroLaws Key} (hash : Key -> Z) size zk (zm : Mapped) :
  0 < size -> zero_check zk = true -> CellLaws hash (hash_map_cell (State := State) size zk zm).
Proof. intros. by apply zero_key_laws; [apply _|..]. Defined.

Lemma saved_hash_cell_laws {Key Value State C} `{ZeroLaws Key} (hash : Key -> Z) size (B : Cell Key Value State C) `{L : !BaseLaws hash B} :
  0 < size ->
  (forall c s, isZero c s = zero_check (key_of c)) -> (forall k s, isZero_key k s = zero_check k) ->
  zero_check (key_of zeroed) = true -> (forall c, key_of (setZero c) = zero_set (key_of c)) -> need_zero_value_storage = true ->
  CellLaws hash (saved_hash_cell size B).
Proof. intros ? Hz Hk H0' Hset Hn. apply zero_key_laws; [apply _|done| | |done| |done]; intros; [apply Hz|apply Hk|apply Hset]. Defined.

(** A cell of a clearable table.  The version 0 is that of zeroed memory: no
    table may come to it.  No cell has a version above that of the table. *)
#[export, refine] Instance clearable_cell_laws {Key Value C} (hash : Key -> Z) size (B : Cell Key Value ClearableHashSetState C) `{L : !BaseLaws hash B} (Hs : 0 < size) :
  CellLaws hash (clearable_cell size B) := {|
  state_ok := fun s => 0 < state_version s;
  cell_ok := fun s c => version c <= state_version s /\ (version c = state_version s -> getHash hash (clearable_base c) = hash (key_of (clearable_base c)))
|}.
Proof.
  all: intros; cbn [sizeof_Cell zeroed new_Cell getValue getKey keyEquals keyEquals_hash setHash getHash isZero isZero_key setZero need_zero_value_storage isDeleted setMapped clearable_cell version clearable_base] in *; try done.
  - split; [lia|]. rewrite (proj2 (Z.eqb_neq 0 (state_version s))) by lia. done.
  - split; [lia|]. rewrite (proj2 (Z.eqb_neq 0 (state_version s))) by lia. done.
  - rewrite Z.eqb_refl. unfold key_of. cbn. rewrite base_setHash_value. split_and!; [lia| |done|apply base_new].
    intros _. pose proof (base_setHash (new_Cell k s (clearable_base c))) as E. rewrite base_new in E. rewrite E. f_equal. symmetry. apply base_new.
  - unfold key_of. cbn. apply H. apply negb_false_iff, Z.eqb_eq in H0. done.
  - split; [lia|]. intros E. change (hash (key_of c)) with (hash (key_of (clearable_base c))). rewrite base_setHash. unfold key_of. by rewrite base_setHash_value.
  - apply base_setHash_value.
  - change (key_of c) with (key_of (clearable_base c)). apply base_keyEquals. apply H. apply negb_false_iff, Z.eqb_eq in H0. done.
  - apply base_isDeleted.
  - split; [lia|]. intros E. rewrite base_setMapped_hash, base_setMapped_key by done. exact (proj2 H E).
  - by apply base_setMapped_value.
Defined.

(** ** Key types *)

(** The generic ZeroTraits, for an integer key. *)
#[export] Instance integer_zero : ZeroTraits Z := {| zero_check := fun x => x =? 0; zero_set := fun _ => 0 |}.

#[export] Instance integer_zero_laws : ZeroLaws Z.
Proof. split; [done|]. cbn. intros k k' ?%Z.eqb_eq ?%Z.eqb_eq. congruence. Qed.

(** ZeroTraits for StringRef (libs/libcommon/include/common/StringRef.h): a
    string is its bytes. *)
#[export] Instance StringRef_zero : ZeroTraits (list Z) := {| zero_check := fun x => (0 =? length x)%nat; zero_set := fun _ => [] |}.

#[export] Instance StringRef_zero_laws : ZeroLaws (list Z).
Proof. split; [done|]. by intros [|] [|]. Qed.
