(* ===== verification/HashTable.v ===== *)
(** * The hash tables of the server

    dbms/src/Common/HashTable/HashTable.h: the template HashTable with its
    HashTableGrower and ZeroValueStorage, over any cell type ([Cell]) and any
    allocator ([Allocator]).  Open addressing with linear probing; the size is
    a power of two; a key that counts as zero is stored outside the cells; the
    table grows in place.

    The memory at [buf] is the list [cells]; [buf] is its address, 0 for
    nullptr.  The allocator clears new memory and keeps the contents of
    reallocated memory, which the operations here do to [cells].  A cell outside the memory gives BUFFER_OVERRUN.  The searches
    are bounded by the number of cells, which is shown to be enough.  The
    destructors of the elements are those of trivially destructible cells,
    which the code skips. *)

From stdpp Require Import base list option numbers.
From Stdlib Require Import ZArith Lia.
From S2P Require Import Prelude IOMonad Allocators HashTableCells.

#[local] Open Scope Z_scope.
#[local] Open Scope word_scope.

(** ** HashTableGrower *)

Definition bufSize (size_degree : Z) : Z := 1 <<64 size_degree.
Definition maxFill (size_degree : Z) : Z := 1 <<64 (size_degree - 1).
Definition mask (size_degree : Z) : Z := bufSize size_degree -64 1.
Definition place (size_degree x : Z) : Z := Z.land x (mask size_degree).
Definition next_place (size_degree pos : Z) : Z := Z.land (pos +64 1) (mask size_degree).
Definition overflow (size_degree elems : Z) : bool := maxFill size_degree <? elems.

(** The growers differ in the degree from which the size is doubled instead of
    quadrupled: 23 in HashTableGrower, 15 in TwoLevelHashTableGrower
    (TwoLevelHashTable.h). *)
Class Grower := { large_degree : Z; large_degree_ok : 1 < large_degree }.

Definition HashTableGrower : Grower := {| large_degree := 23; large_degree_ok := eq_refl |}.
Definition TwoLevelHashTableGrower : Grower := {| large_degree := 15; large_degree_ok := eq_refl |}.

Definition increaseSize `{Grower} (size_degree : Z) : Z := wrap 8 (size_degree + (if large_degree <=? size_degree then 1 else 2)).

(** [log2 x] is static_cast<size_t>(log2(x)), of the C library. *)
Definition set_size (log2 : Z -> Z) (initial_size_degree num_elems : Z) : Z :=
  wrap 8 (if num_elems <=? 1 then initial_size_degree
          else if log2 (num_elems - 1) +64 2 <? initial_size_degree then initial_size_degree
          else log2 (num_elems - 1) +64 2).

(** static_cast<size_t>(log2(x) + 1) is static_cast<size_t>(log2(x)) + 1. *)
Definition setBufSize (log2 : Z -> Z) (buf_size_ : Z) : Z := wrap 8 (log2 (buf_size_ -64 1) + 1).

(** ** The table *)

Record HashTable (C State : Type) := Table {
  m_size : Z;
  buf : Z;
  cells : list C;
  size_degree : Z;
  has_zero : bool;
  zero_value : C;
  table_state : State
}.
Arguments Table {C State}.
Arguments m_size {C State} _.
Arguments buf {C State} _.
Arguments cells {C State} _.
Arguments size_degree {C State} _.
Arguments has_zero {C State} _.
Arguments zero_value {C State} _.
Arguments table_state {C State} _.

(** A pointer to a cell: the one for the zero key or one of the buffer. *)
Inductive cell_ptr := ZeroValue | At (i : Z).

#[export] Instance cell_ptr_eq_dec : EqDecision cell_ptr.
Proof. solve_decision. Defined.

Section Setters.
Context {C State : Type}.
Implicit Types t : HashTable C State.

Definition set_m_size (n : Z) t := Table n (buf t) (cells t) (size_degree t) (has_zero t) (zero_value t) (table_state t).
Definition set_buf (p : Z) (b : list C) t := Table (m_size t) p b (size_degree t) (has_zero t) (zero_value t) (table_state t).
Definition set_cells (b : list C) t := set_buf (buf t) b t.
Definition set_grower (d : Z) t := Table (m_size t) (buf t) (cells t) d (has_zero t) (zero_value t) (table_state t).
Definition set_has_zero (z : bool) t := Table (m_size t) (buf t) (cells t) (size_degree t) z (zero_value t) (table_state t).
Definition set_zero_value (c : C) t := Table (m_size t) (buf t) (cells t) (size_degree t) (has_zero t) c (table_state t).
Definition set_table_state (s : State) t := Table (m_size t) (buf t) (cells t) (size_degree t) (has_zero t) (zero_value t) s.
End Setters.

Section Operations.
Context {Key Value State C A : Type} `{I : !Cell Key Value State C} `{!Allocator A}.
Context (hash : Key -> Z) `{G : Grower} (log2 : Z -> Z) (initial_size_degree : Z).

(** The allocator and the table. *)
Definition world : Type := A * HashTable C State.

Definition tget {X} (f : HashTable C State -> X) : M world X := get (fun w => f w.2).
Definition tset (f : HashTable C State -> HashTable C State) : M world unit := modify (fun w => (w.1, f w.2)).
Definition on_allocator {X} (m : M A X) : M world X := zoom fst (fun a w => (a, w.2)) m.

Definition nth_cell (b : list C) (i : Z) : outcome C :=
  match (if 0 <=? i then b !! Z.to_nat i else None) with
  | Some c => Returns c
  | None => Throws BUFFER_OVERRUN
  end.

Definition deref (p : cell_ptr) : M world C :=
  t ← tget id;
  match p with
  | ZeroValue => mret (zero_value t)
  | At i => lift (nth_cell (cells t) i)
  end.

Definition assign (p : cell_ptr) (c : C) : M world unit :=
  _ ← deref p;
  match p with
  | ZeroValue => tset (set_zero_value c)
  | At i => tset (fun t => set_cells (<[Z.to_nat i := c]> (cells t)) t)
  end.

(** *** Searching *)

Fixpoint findCell_loop (fuel : nat) (b : list C) (st : State) (d : Z) (x : Key) (hash_value place_value : Z) : outcome Z :=
  match fuel with
  | O => Throws NO_FUEL
  | S fuel' =>
      c ← nth_cell b place_value;
      if negb (isZero c st) && negb (keyEquals_hash c x hash_value) then findCell_loop fuel' b st d x hash_value (next_place d place_value)
      else mret place_value
  end.

Definition findCell (x : Key) (hash_value place_value : Z) : M world Z :=
  t ← tget id;
  lift (findCell_loop (S (length (cells t))) (cells t) (table_state t) (size_degree t) x hash_value place_value).

Fixpoint findEmptyCell_loop (fuel : nat) (b : list C) (st : State) (d place_value : Z) : outcome Z :=
  match fuel with
  | O => Throws NO_FUEL
  | S fuel' =>
      c ← nth_cell b place_value;
      if negb (isZero c st) then findEmptyCell_loop fuel' b st d (next_place d place_value)
      else mret place_value
  end.

Definition findEmptyCell (place_value : Z) : M world Z :=
  t ← tget id;
  lift (findEmptyCell_loop (S (length (cells t))) (cells t) (table_state t) (size_degree t) place_value).

Definition hash_end (t : HashTable C State) : cell_ptr := At (bufSize (size_degree t)).

(** The overloads without the hash value compute it. *)
Definition find_hash (x : Key) (hash_value : Z) : M world cell_ptr :=
  t ← tget id;
  if isZero_key x (table_state t) then mret (if has_zero t then ZeroValue else hash_end t)
  else
    place_value ← findCell x hash_value (place (size_degree t) hash_value);
    c ← deref (At place_value);
    mret (if negb (isZero c (table_state t)) then At place_value else hash_end t).

Definition find (x : Key) : M world cell_ptr := find_hash x (hash x).

Definition has_hash (x : Key) (hash_value : Z) : M world bool :=
  t ← tget id;
  if isZero_key x (table_state t) then mret (has_zero t)
  else
    place_value ← findCell x hash_value (place (size_degree t) hash_value);
    c ← deref (At place_value);
    mret (negb (isZero c (table_state t))).

Definition has (x : Key) : M world bool := has_hash x (hash x).

(** *** Memory *)

Definition getBufferSizeInBytes (t : HashTable C State) : Z := bufSize (size_degree t) *64 sizeof_Cell.

Definition alloc (new_grower : Z) : M world unit :=
  let bytes := bufSize new_grower *64 sizeof_Cell in
  p ← on_allocator (alloc_range bytes);
  _ ← tset (set_buf p (replicate (Z.to_nat (bytes / sizeof_Cell)) zeroed));
  tset (set_grower new_grower).

Definition free : M world unit :=
  t ← tget id;
  if negb (buf t =? 0) then
    _ ← on_allocator (free_range (buf t) (getBufferSizeInBytes t));
    tset (set_buf 0 [])
  else mret tt.

(** *** Growing *)

Definition reinsert (i hash_value : Z) : M world unit :=
  t ← tget id;
  let place_value := place (size_degree t) hash_value in
  if i =? place_value then mret tt
  else
    x ← deref (At i);
    place_value ← findCell (key_of x) hash_value place_value;
    c ← deref (At place_value);
    if negb (isZero c (table_state t)) then mret tt
    else
      let x := setHash hash_value x in
      _ ← assign (At i) x;
      _ ← assign (At place_value) x;
      assign (At i) (setZero x).

(** for (; i < old_size; ++i), [n] cells being left *)
Fixpoint reinsert_old (n : nat) (i : Z) : M world unit :=
  match n with
  | O => mret tt
  | S n' =>
      c ← deref (At i);
      st ← tget table_state;
      _ ← (if negb (isZero c st) && negb (isDeleted c) then reinsert i (getHash hash c) else mret tt);
      reinsert_old n' (i + 1)
  end.

(** for (; !buf[i].isZero() && !buf[i].isDeleted(); ++i) *)
Fixpoint reinsert_tail (fuel : nat) (i : Z) : M world unit :=
  match fuel with
  | O => throw NO_FUEL
  | S fuel' =>
      c ← deref (At i);
      st ← tget table_state;
      if negb (isZero c st) && negb (isDeleted c) then
        _ ← reinsert i (getHash hash c);
        reinsert_tail fuel' (i + 1)
      else mret tt
  end.

(** The size that [resize] chooses, if it does not return at once. *)
Definition resize_grower (grower for_num_elems for_buf_size : Z) : option Z :=
  let old_size := bufSize grower in
  if negb (for_num_elems =? 0) then
    let new_grower := set_size log2 initial_size_degree for_num_elems in
    if bufSize new_grower <=? old_size then None else Some new_grower
  else if negb (for_buf_size =? 0) then
    let new_grower := setBufSize log2 for_buf_size in
    if bufSize new_grower <=? old_size then None else Some new_grower
  else Some (increaseSize grower).

Definition resize (for_num_elems for_buf_size : Z) : M world unit :=
  t ← tget id;
  let old_size := bufSize (size_degree t) in
  match resize_grower (size_degree t) for_num_elems for_buf_size with
  | None => mret tt
  | Some new_grower =>
      let bytes := bufSize new_grower *64 sizeof_Cell in
      p ← on_allocator (realloc_range (buf t) (getBufferSizeInBytes t) bytes);
      let n := Z.to_nat (bytes / sizeof_Cell) in
      _ ← tset (set_buf p (take n (cells t) ++ replicate (n - length (cells t)) zeroed));
      _ ← tset (set_grower new_grower);
      _ ← reinsert_old (Z.to_nat old_size) 0;
      reinsert_tail (Z.to_nat (bufSize new_grower)) old_size
  end.

(** *** Inserting *)

(** ZeroValueStorage::setHasZero *)
Definition setHasZero : M world unit :=
  if need_zero_value_storage then tset (set_has_zero true) else throw LOGICAL_ERROR.

(** The iterator and [inserted], or nothing when it returns false. *)
Definition emplaceIfZero (x : Key) (hash_value : Z) : M world (option (cell_ptr * bool)) :=
  if negb need_zero_value_storage then mret None
  else
    t ← tget id;
    if isZero_key x (table_state t) then
      if negb (has_zero t) then
        _ ← tset (fun t => set_m_size (m_size t +64 1) t);
        _ ← setHasZero;
        _ ← tset (fun t => set_zero_value (setHash hash_value (zero_value t)) t);
        mret (Some (ZeroValue, true))
      else mret (Some (ZeroValue, false))
    else mret None.

Definition emplaceNonZero (x : Key) (hash_value : Z) : M world (cell_ptr * bool) :=
  t ← tget id;
  place_value ← findCell x hash_value (place (size_degree t) hash_value);
  c ← deref (At place_value);
  if negb (isZero c (table_state t)) then mret (At place_value, false)
  else
    _ ← assign (At place_value) (setHash hash_value (new_Cell x (table_state t) c));
    _ ← tset (fun t => set_m_size (m_size t +64 1) t);
    m ← tget m_size;
    if overflow (size_degree t) m then
      _ ← try_catch (resize 0 0) (fun e =>
        _ ← tset (fun t => set_m_size (m_size t -64 1) t);
        c ← deref (At place_value);
        _ ← assign (At place_value) (setZero c);
        throw e);
      it ← find_hash x hash_value;
      mret (it, true)
    else mret (At place_value, true).

Definition emplace_hash (x : Key) (hash_value : Z) : M world (cell_ptr * bool) :=
  r ← emplaceIfZero x hash_value;
  match r with
  | Some r => mret r
  | None => emplaceNonZero x hash_value
  end.

Definition emplace (x : Key) : M world (cell_ptr * bool) := emplace_hash x (hash x).

Definition insert (x : Value) : M world (cell_ptr * bool) :=
  let hash_value := hash (getKey x) in
  res ← emplace_hash (getKey x) hash_value;
  _ ← (if (res.2 : bool) then c ← deref res.1; assign res.1 (setMapped x c) else mret tt);
  mret res.

Definition insertUniqueNonZero (cell : C) (hash_value : Z) : M world unit :=
  d ← tget size_degree;
  place_value ← findEmptyCell (place d hash_value);
  _ ← assign (At place_value) cell;
  _ ← tset (fun t => set_m_size (m_size t +64 1) t);
  m ← tget m_size;
  if overflow d m then resize 0 0 else mret tt.

(** *** Iterating *)

(** while (ptr < buf + bufSize() && ptr->isZero()) ++ptr *)
Fixpoint skip_empty (fuel : nat) (t : HashTable C State) (i : Z) : outcome cell_ptr :=
  match fuel with
  | O => Throws NO_FUEL
  | S fuel' =>
      if i <? bufSize (size_degree t) then
        c ← nth_cell (cells t) i;
        if isZero c (table_state t) then skip_empty fuel' t (i + 1) else mret (At i)
      else mret (At i)
  end.

Definition begin : M world cell_ptr :=
  t ← tget id;
  if buf t =? 0 then mret (hash_end t)
  else if has_zero t then mret ZeroValue
  else lift (skip_empty (S (length (cells t))) t 0).

(** operator++ of the iterators; an increment beyond the storage of the zero
    value is undefined. *)
Definition next_ptr (p : cell_ptr) : M world cell_ptr :=
  t ← tget id;
  c ← deref p;
  i ← (if isZero c (table_state t) then mret 0 else match p with At i => mret (i + 1) | ZeroValue => throw BUFFER_OVERRUN end);
  lift (skip_empty (S (length (cells t))) t i).

(** for (it = begin(); it != end(); ++it): the cells it stands on. *)
Fixpoint iterate (fuel : nat) (p : cell_ptr) : M world (list C) :=
  match fuel with
  | O => throw NO_FUEL
  | S fuel' =>
      t ← tget id;
      if bool_decide (p = hash_end t) then mret []
      else
        c ← deref p;
        p' ← next_ptr p;
        l ← iterate fuel' p';
        mret (c :: l)
  end.

Definition for_each : M world (list C) :=
  p ← begin;
  n ← tget (fun t => length (cells t));
  iterate (S (S n)) p.

(** *** Construction and clearing *)

(** A constructed object before [alloc]: [garbage] is what the memory of the
    zero value held. *)
Definition fresh_table (garbage : C) (st : State) (grower : Z) : HashTable C State :=
  Table 0 0 [] grower false (if need_zero_value_storage then setZero garbage else garbage) st.

Definition HashTable_new (garbage : C) (st : State) : M world unit :=
  _ ← tset (fun _ => fresh_table garbage st initial_size_degree);
  alloc initial_size_degree.

Definition HashTable_reserve (garbage : C) (st : State) (reserve_for_num_elements : Z) : M world unit :=
  let grower := set_size log2 initial_size_degree reserve_for_num_elements in
  _ ← tset (fun _ => fresh_table garbage st grower);
  alloc grower.

Definition size (t : HashTable C State) : Z := m_size t.
Definition empty_table (t : HashTable C State) : bool := 0 =? m_size t.

(** memset on nullptr is undefined for a non-zero size. *)
Definition clear : M world unit :=
  _ ← tset (fun t => set_m_size 0 (set_has_zero false t));
  t ← tget id;
  if buf t =? 0 then throw NULL_POINTER
  else tset (fun t => set_cells (replicate (length (cells t)) zeroed) t).

Definition clearAndShrink : M world unit :=
  _ ← tset (fun t => set_m_size 0 (set_has_zero false t));
  free.
End Operations.
