(* ===== verification/HashTableProofs.v ===== *)
(** * Searching and growing hash tables

    The cells of a table (HashTable.v) as an arrangement of keys
    (LinearProbing.v): [entries] are the elements in a buffer and [view] the
    keys at its places.  [cells_ok] holds of the cells without regard to their
    order, [buffer_ok] of cells in which every key is found.  Shown: the
    searches stop at the first cell that is empty or has the key, and within
    the number of cells; [resize] turns any buffer with few enough elements
    into one that is in order and has the same elements, or throws what the
    allocator threw and changes nothing. *)

From stdpp Require Import base list option numbers gmap.
From Stdlib Require Import ZArith Lia.
From S2P Require Import Prelude IOMonad Allocators LinearProbing HashTableCells HashTable.

#[local] Open Scope Z_scope.
#[local] Open Scope word_scope.

(** ** The grower *)

Lemma bufSize_pow d : 0 <= d < 64 -> bufSize d = 2 ^ d.
Proof.
  intros Hd. unfold bufSize. rewrite Z.shiftl_1_l. apply wrap_small. split; [lia|]. apply Z.pow_lt_mono_r; lia.
Qed.

Lemma maxFill_pow d : 1 <= d < 64 -> maxFill d = 2 ^ (d - 1).
Proof. intros Hd. unfold maxFill. change (1 <<64 (d - 1)) with (bufSize (d - 1)). apply bufSize_pow. lia. Qed.

Lemma land_mask d x : 0 <= d < 64 -> Z.land x (mask d) = x mod 2 ^ d.
Proof.
  intros Hd. unfold mask. rewrite bufSize_pow by done. pose proof (Z.pow_pos_nonneg 2 d ltac:(lia) ltac:(lia)).
  assert (2 ^ d <= 2 ^ 63) by (apply Z.pow_le_mono_r; lia). rewrite wrap_small by (unfold fits; lia).
  rewrite <- Z.land_ones by lia. by rewrite Z.ones_equiv, Z.sub_1_r.
Qed.

Lemma place_range d x : 0 <= d < 64 -> 0 <= place d x < 2 ^ d.
Proof. intros Hd. unfold place. rewrite land_mask by done. apply Z.mod_pos_bound. apply Z.pow_pos_nonneg; lia. Qed.

Lemma next_place_mod d i : 0 <= d < 64 -> 0 <= i < 2 ^ d -> next_place d i = (i + 1) mod 2 ^ d.
Proof.
  intros Hd Hi. unfold next_place. rewrite land_mask by done. assert (2 ^ d <= 2 ^ 63) by (apply Z.pow_le_mono_r; lia).
  by rewrite wrap_small by (unfold fits; lia).
Qed.

Lemma increaseSize_small `{Grower} d : 0 <= d <= 128 -> d < increaseSize d <= d + 2 /\ (d < large_degree -> increaseSize d = d + 2).
Proof. intros Hd. unfold increaseSize. destruct (Z.leb_spec large_degree d); rewrite wrap_small by (unfold fits; lia); lia. Qed.

(** ** The elements of a buffer *)

Section Entries.
Context {Key Value State C : Type} `{I : !Cell Key Value State C}.
Implicit Types (b : list C) (st : State).

Definition entries st b : list Value := getValue <$> filter (fun c => isZero c st = false) b.

Definition view st b : Z -> option Key := fun i =>
  match (if 0 <=? i then b !! Z.to_nat i else None) with
  | Some c => if isZero c st then None else Some (key_of c)
  | None => None
  end.

Lemma entries_app st b b' : entries st (b ++ b') = entries st b ++ entries st b'.
Proof. unfold entries. by rewrite filter_app, fmap_app. Qed.

Lemma entries_zero st c : isZero c st = true -> entries st [c] = [].
Proof. intros E. unfold entries. rewrite filter_cons_False; [done|]. congruence. Qed.

Lemma entries_nonzero st c : isZero c st = false -> entries st [c] = [getValue c].
Proof. intros E. unfold entries. by rewrite filter_cons_True. Qed.

Lemma entries_replicate st n c : isZero c st = true -> entries st (replicate n c) = [].
Proof.
  intros E. induction n as [|n IH]; [done|]. cbn [replicate]. change (c :: replicate n c) with ([c] ++ replicate n c).
  by rewrite entries_app, IH, entries_zero.
Qed.

(** A cell of the buffer apart from the others. *)
Lemma entries_split st b i c : b !! i = Some c -> entries st b ≡ₚ entries st [c] ++ entries st (delete i b).
Proof. intros E. rewrite <- entries_app. unfold entries. rewrite (delete_Permutation b i c E) at 1. done. Qed.

Lemma entries_insert st b i c c' : b !! i = Some c -> entries st (<[i:=c']> b) ≡ₚ entries st [c'] ++ entries st (delete i b).
Proof.
  intros E. assert (i < length b)%nat as Hi by (by apply lookup_lt_Some in E).
  rewrite (entries_split st (<[i:=c']> b) i c') by (by apply list_lookup_insert_eq). f_equiv. f_equiv.
  by rewrite !delete_take_drop, take_insert_ge, drop_insert_lt by lia.
Qed.

Lemma entries_drop st b n : (length (entries st (drop n b)) <= length (entries st b))%nat.
Proof. rewrite <- (take_drop n b) at 2. rewrite entries_app, length_app. lia. Qed.

Lemma view_Some st b i k :
  view st b i = Some k <-> exists c, 0 <= i /\ b !! Z.to_nat i = Some c /\ isZero c st = false /\ key_of c = k.
Proof.
  unfold view. destruct (Z.leb_spec 0 i); [|split; [done|intros (? & ? & _); lia]].
  destruct (b !! Z.to_nat i) as [c|]; [|split; [done|by intros (? & _ & ? & _)]].
  destruct (isZero c st) eqn:Ez; split; try done.
  - intros (? & _ & [= <-] & ? & _). congruence.
  - intros [= <-]. by exists c.
  - by intros (? & _ & [= <-] & _ & <-).
Qed.

Lemma view_cell st b i c : 0 <= i -> b !! Z.to_nat i = Some c -> view st b i = if isZero c st then None else Some (key_of c).
Proof. intros Hi E. unfold view. by rewrite (proj2 (Z.leb_le 0 i) Hi), E. Qed.

Lemma view_insert st b i c j :
  0 <= i < Z.of_nat (length b) -> view st (<[Z.to_nat i := c]> b) j = put (view st b) i (if isZero c st then None else Some (key_of c)) j.
Proof.
  intros Hi. destruct (Z.eq_dec j i) as [->|Hne].
  - rewrite put_eq. apply view_cell; [lia|]. apply list_lookup_insert_eq. lia.
  - rewrite put_ne by done. unfold view. destruct (Z.leb_spec 0 j); [|done]. by rewrite list_lookup_insert_ne by lia.
Qed.

Lemma view_inside st b : inside (Z.of_nat (length b)) (view st b).
Proof. intros j k E. apply view_Some in E as (c & Hj & E & _). apply lookup_lt_Some in E. lia. Qed.

Lemma view_injective st b : NoDup (getKey <$> entries st b) -> injective (view st b).
Proof.
  intros Hn i j k Ei Ej. apply view_Some in Ei as (c & Hi & Ei & Zi & Ki), Ej as (c' & Hj & Ej & Zj & Kj).
  destruct (Z.eq_dec i j) as [|Hne]; [done|exfalso].
  rewrite (entries_split st b _ c Ei), entries_nonzero in Hn by done. cbn in Hn. apply NoDup_cons in Hn as [Hn _]. apply Hn.
  apply list_elem_of_fmap. exists (getValue c'). split; [unfold key_of in *; congruence|]. apply list_elem_of_fmap. exists c'. split; [done|].
  apply list_elem_of_filter. split; [done|]. destruct (Z_lt_le_dec i j) as [D|D].
  - apply (list_elem_of_lookup_2 _ (Z.to_nat j - 1)). rewrite list_lookup_delete_ge by lia. by replace (S (Z.to_nat j - 1)) with (Z.to_nat j) by lia.
  - apply (list_elem_of_lookup_2 _ (Z.to_nat j)). by rewrite list_lookup_delete_lt by lia.
Qed.

(** Keys among the elements are keys of the view. *)
Lemma view_elem st b k : k ∈ (getKey <$> entries st b) <-> exists i, view st b i = Some k.
Proof.
  unfold entries. rewrite !list_elem_of_fmap. split.
  - intros (v & -> & (c & -> & Hc)%list_elem_of_fmap). apply list_elem_of_filter in Hc as [Hz Hc].
    apply list_elem_of_lookup in Hc as [i Hi]. exists (Z.of_nat i). apply view_Some. exists c. rewrite Nat2Z.id. split_and!; [lia|done..].
  - intros (i & E). apply view_Some in E as (c & _ & E & Hz & <-). exists (getValue c). split; [done|].
    apply list_elem_of_fmap. exists c. split; [done|]. apply list_elem_of_filter. split; [done|]. by eapply list_elem_of_lookup_2.
Qed.

(** When fewer elements are left than there are cells from [o] on, one of
    these is empty. *)
Lemma view_empty st b o :
  0 <= o <= Z.of_nat (length b) -> Z.of_nat (length (entries st b)) < Z.of_nat (length b) - o ->
  exists e, o <= e < Z.of_nat (length b) /\ view st b e = None.
Proof.
  intros Ho Hn. destruct (Exists_dec (fun c => isZero c st = true) (drop (Z.to_nat o) b)) as [D|D].
  - apply list.Exists_exists in D as (c & Hc & Hz). apply list_elem_of_lookup in Hc as [i Hi]. rewrite lookup_drop in Hi.
    exists (Z.of_nat (Z.to_nat o + i)). pose proof (lookup_lt_Some _ _ _ Hi). split; [lia|].
    rewrite (view_cell _ _ _ c); [by rewrite Hz|lia|]. by rewrite Nat2Z.id.
  - exfalso. pose proof (entries_drop st b (Z.to_nat o)) as Hd.
    assert (length (entries st (drop (Z.to_nat o) b)) = (length b - Z.to_nat o)%nat); [|lia].
    unfold entries. rewrite length_fmap, <- length_drop. f_equal. clear Hd Hn. induction (drop (Z.to_nat o) b) as [|c l IH]; [done|].
    rewrite Exists_cons in D. rewrite filter_cons_True; [by rewrite IH by tauto|]. destruct (isZero c st) eqn:E; [tauto|done].
Qed.
End Entries.

(** ** Searching *)

Section Search.
Context {Key Value State C : Type} `{I : !Cell Key Value State C} (hash : Key -> Z) `{L : !CellLaws hash I}.
Implicit Types (b : list C) (st : State).

Definition home (d : Z) (k : Key) : Z := place d (hash k).

(** The cells of a table of the degree [d], without regard to their order. *)
Record cells_ok st (d : Z) b : Prop := {
  cells_degree : 1 <= d <= 50;
  cells_length : Z.of_nat (length b) = 2 ^ d;
  cells_each : Forall (cell_ok st) b;
  cells_nodup : NoDup (getKey <$> entries st b)
}.

(** In their order: every key can be found. *)
Record buffer_ok st (d : Z) b : Prop := {
  buffer_cells : cells_ok st d b;
  buffer_probing : probing (2 ^ d) (home d) (view st b)
}.

Lemma home_in d k : 0 <= d < 64 -> 0 <= home d k < 2 ^ d.
Proof. apply place_range. Qed.

Lemma nth_cell_in b i : 0 <= i < Z.of_nat (length b) -> exists c, nth_cell b i = Returns c /\ b !! Z.to_nat i = Some c.
Proof.
  intros Hi. destruct (lookup_lt_is_Some_2 b (Z.to_nat i)) as [c E]; [lia|]. exists c. split; [|done].
  unfold nth_cell. by rewrite (proj2 (Z.leb_le 0 i)), E by lia.
Qed.

Lemma stop_cell st b x i c :
  cell_ok st c -> 0 <= i -> b !! Z.to_nat i = Some c ->
  negb (isZero c st) && negb (keyEquals_hash c x (hash x)) = false <-> stops (view st b) x i.
Proof.
  intros Hc Hi E. unfold stops. rewrite (view_cell st b i c Hi E). destruct (isZero c st) eqn:Ez; cbn [negb andb]; [split; [by left|done]|].
  rewrite negb_false_iff, (keyEquals_ok st c x Hc Ez). split; [by intros ->; right|by intros [|[= ->]]].
Qed.

Lemma between_steps N q n i :
  0 <= q < N -> 0 <= n < N -> between N q ((q + n) mod N) i -> exists m, 0 <= m < n /\ i = (q + m) mod N.
Proof.
  intros Hq Hn B. assert (((q + n) mod N = q + n /\ q + n < N) \/ ((q + n) mod N = q + n - N /\ N <= q + n)) as E.
  { destruct (Z_lt_le_dec (q + n) N); [left; split; [apply Z.mod_small|]; lia|right]. split; [|lia].
    symmetry. apply (Z.mod_unique_pos _ _ 1); lia. }
  unfold between in B. destruct (Z_lt_le_dec i q) as [D|D].
  - exists (i - q + N). split; [lia|]. apply (Z.mod_unique_pos _ _ 1); lia.
  - exists (i - q). split; [lia|]. replace (q + (i - q)) with i by lia. symmetry. apply Z.mod_small. lia.
Qed.

Lemma mod_succ N q n : 0 < N -> ((q + n) mod N + 1) mod N = (q + (n + 1)) mod N.
Proof. intros. rewrite Zplus_mod_idemp_l. f_equal. lia. Qed.

Lemma findCell_loop_spec st d b x q fuel n :
  1 <= d <= 50 -> Z.of_nat (length b) = 2 ^ d -> Forall (cell_ok st) b -> 0 <= q < 2 ^ d ->
  0 <= n -> 2 ^ d <= n + Z.of_nat fuel -> (forall m, 0 <= m < n -> ~ stops (view st b) x ((q + m) mod 2 ^ d)) ->
  (exists m, n <= m < 2 ^ d /\ stops (view st b) x ((q + m) mod 2 ^ d)) ->
  exists p, findCell_loop fuel b st d x (hash x) ((q + n) mod 2 ^ d) = Returns p /\ first_stop (2 ^ d) (view st b) x q p.
Proof.
  intros Hd Hl Hc Hq. revert n. induction fuel as [|fuel IH]; intros n Hn Hf Hpass (m & Hm & Hs); [lia|].
  pose proof (Z.mod_pos_bound (q + n) (2 ^ d) ltac:(lia)) as Hp. destruct (nth_cell_in b ((q + n) mod 2 ^ d)) as (c & En & Eb); [lia|].
  assert (cell_ok st c) as Hcc by (by eapply list.Forall_lookup_1 in Eb).
  pose proof (stop_cell st b x _ c Hcc (proj1 Hp) Eb) as Hstop. cbn [findCell_loop]. rewrite En. unfold mbind, outcome_bind.
  destruct (_ && _) eqn:Et.
  - rewrite next_place_mod by (lia || exact Hp). rewrite mod_succ by lia. apply IH; [lia|lia| |].
    + intros m' Hm'. destruct (Z.eq_dec m' n) as [->|]; [|apply Hpass; lia]. intros S. apply Hstop in S. congruence.
    + exists m. split; [|done]. destruct (Z.eq_dec m n) as [->|]; [|lia]. apply Hstop in Hs. congruence.
  - exists ((q + n) mod 2 ^ d). split; [done|]. split; [lia|]. split; [by apply Hstop|].
    intros i B. apply between_steps in B as (m' & Hm' & ->); [|lia|lia]. by apply Hpass.
Qed.

Lemma findCell_loop_first st d b x q :
  1 <= d <= 50 -> Z.of_nat (length b) = 2 ^ d -> Forall (cell_ok st) b -> 0 <= q < 2 ^ d ->
  (exists e, 0 <= e < 2 ^ d /\ view st b e = None) ->
  exists p, findCell_loop (S (length b)) b st d x (hash x) q = Returns p /\ first_stop (2 ^ d) (view st b) x q p.
Proof.
  intros Hd Hl Hc Hq (e & He & Hn). destruct (findCell_loop_spec st d b x q (S (length b)) 0) as (p & E & Hp); [done..|lia|lia|intros; lia| |].
  - exists ((e - q) mod 2 ^ d). pose proof (Z.mod_pos_bound (e - q) (2 ^ d) ltac:(lia)). split; [lia|].
    rewrite Zplus_mod_idemp_r. replace (q + (e - q)) with e by lia. rewrite Z.mod_small by lia. by left.
  - exists p. rewrite Z.add_0_r, Z.mod_small in E by lia. done.
Qed.

(** findEmptyCell is the search for a key that is not there. *)
Lemma findEmptyCell_loop_spec st d b x q fuel :
  Forall (cell_ok st) b -> (forall i, view st b i <> Some x) -> Z.of_nat (length b) = 2 ^ d -> 1 <= d <= 50 -> 0 <= q < 2 ^ d ->
  findEmptyCell_loop fuel b st d q = findCell_loop fuel b st d x (hash x) q.
Proof.
  intros Hc Hx Hl Hd. revert q. induction fuel as [|fuel IH]; intros q Hq; [done|]. cbn [findEmptyCell_loop findCell_loop].
  destruct (nth_cell_in b q) as (c & En & Eb); [lia|]. rewrite En. unfold mbind, outcome_bind.
  assert (cell_ok st c) as Hcc by (by eapply list.Forall_lookup_1 in Eb).
  destruct (isZero c st) eqn:Ez; cbn [negb andb]; [done|]. destruct (keyEquals_hash c x (hash x)) eqn:Ek; cbn [negb].
  - apply (keyEquals_ok st c x Hcc Ez) in Ek. destruct (Hx q). by rewrite (view_cell st b q c), Ez, Ek by (lia || done).
  - apply IH. rewrite next_place_mod by lia. apply Z.mod_pos_bound. lia.
Qed.

(** At most half of the cells are occupied: there is an empty one. *)
Lemma some_empty st d b : cells_ok st d b -> Z.of_nat (length (entries st b)) < 2 ^ d -> exists e, 0 <= e < 2 ^ d /\ view st b e = None.
Proof. intros [Hd Hl _ _] Hn. rewrite <- Hl in Hn |- *. apply (view_empty st b 0); lia. Qed.
End Search.

(** ** Changing one cell *)

Section OneCell.
Context {Key Value State C : Type} `{I : !Cell Key Value State C}.
Implicit Types (b : list C) (st : State).

Lemma entries_fill st b i c c' : b !! i = Some c -> isZero c st = true -> isZero c' st = false -> entries st (<[i:=c']> b) ≡ₚ getValue c' :: entries st b.
Proof. intros E Hc Hc'. rewrite (entries_insert st b i c c' E), (entries_split st b i c E). by rewrite (entries_zero st c), (entries_nonzero st c'). Qed.

Lemma entries_erase st b i c c' : b !! i = Some c -> isZero c st = false -> isZero c' st = true -> entries st b ≡ₚ getValue c :: entries st (<[i:=c']> b).
Proof. intros E Hc Hc'. rewrite (entries_insert st b i c c' E), (entries_split st b i c E). by rewrite (entries_zero st c'), (entries_nonzero st c). Qed.

Lemma entries_same st b i c c' : b !! i = Some c -> isZero c' st = isZero c st -> (isZero c st = false -> getValue c' = getValue c) -> entries st (<[i:=c']> b) ≡ₚ entries st b.
Proof.
  intros E Hz Hv. rewrite (entries_insert st b i c c' E), (entries_split st b i c E). destruct (isZero c st) eqn:Ec.
  - by rewrite !entries_zero.
  - by rewrite !entries_nonzero, Hv by done.
Qed.
End OneCell.

(** ** Growth *)

Section Grow.
Context {Key Value State C A : Type} `{I : !Cell Key Value State C} `{!Allocator A} (hash : Key -> Z) `{L : !CellLaws hash I}.
Context `{G : Grower} (log2 : Z -> Z) (initial_size_degree : Z).
Implicit Types (t : HashTable C State) (a : A).

Lemma set_cells_id t : set_cells (cells t) t = t.
Proof. by destruct t. Qed.

Lemma deref_at a t i c : 0 <= i -> cells t !! Z.to_nat i = Some c -> deref (At i) (a, t) = (Returns c, (a, t)).
Proof. intros Hi E. unfold deref, tget, lift. rewrite bind_get. cbn. unfold nth_cell. by rewrite (proj2 (Z.leb_le 0 i) Hi), E. Qed.

Lemma assign_at a t i c c' : 0 <= i -> cells t !! Z.to_nat i = Some c -> assign (At i) c' (a, t) = (Returns tt, (a, set_cells (<[Z.to_nat i := c']> (cells t)) t)).
Proof. intros Hi E. unfold assign. by rewrite (bind_returns _ _ _ _ _ (deref_at a t i c Hi E)). Qed.

Lemma findCell_first a t x q :
  cells_ok hash (table_state t) (size_degree t) (cells t) -> 0 <= q < 2 ^ size_degree t ->
  (exists e, 0 <= e < 2 ^ size_degree t /\ view (table_state t) (cells t) e = None) ->
  exists p, findCell x (hash x) q (a, t) = (Returns p, (a, t)) /\ first_stop (2 ^ size_degree t) (view (table_state t) (cells t)) x q p.
Proof.
  intros [Hd Hl Hc _] Hq He. destruct (findCell_loop_first hash _ _ _ x q Hd Hl Hc Hq He) as (p & E & Hp). exists p. split; [|done].
  unfold findCell, tget, lift. rewrite bind_get. cbn [snd id]. by rewrite E.
Qed.

(** A cell that moves to an empty place. *)
Lemma move_cell st d b i p c c' :
  state_ok st -> cells_ok hash st d b -> 0 <= i -> 0 <= p -> b !! Z.to_nat i = Some c -> isZero c st = false -> b !! Z.to_nat p = Some c' -> isZero c' st = true ->
  let x := setHash (hash (key_of c)) c in
  let b' := <[Z.to_nat i := setZero x]> (<[Z.to_nat p := x]> (<[Z.to_nat i := x]> b)) in
  cells_ok hash st d b' /\ entries st b' ≡ₚ entries st b /\ forall j, view st b' j = put (put (view st b) p (Some (key_of c))) i None j.
Proof.
  intros Hst [Hd Hl Hc Hn] Hi Hp Ei Zi Ep Zp x b'. assert (Z.to_nat i <> Z.to_nat p) as Hne by congruence.
  assert (cell_ok st c) as Hcc by (by eapply list.Forall_lookup_1 in Ei).
  assert (isZero x st = false) as Zx by (unfold x; by rewrite setHash_isZero).
  assert (getValue x = getValue c) as Vx by (unfold x; apply setHash_value).
  assert (cell_ok st x) as Hx by (by apply setHash_ok). destruct (setZero_ok st x Hst Hx) as [Hz Zz].
  pose proof (lookup_lt_Some _ _ _ Ei) as Li. pose proof (lookup_lt_Some _ _ _ Ep) as Lp.
  assert (entries st b' ≡ₚ entries st b) as Hperm.
  { apply (Permutation_cons_inv (a := getValue x)). unfold b'.
    rewrite <- (entries_erase st _ (Z.to_nat i) x) by (done || (rewrite list_lookup_insert_ne by done; by apply list_lookup_insert_eq)).
    rewrite (entries_fill st _ (Z.to_nat p) c') by (done || by rewrite list_lookup_insert_ne). f_equiv.
    apply (entries_same st b _ c); [done|congruence|done]. }
  split_and!; [|done|].
  - split; [done|by unfold b'; rewrite !length_insert| |by rewrite Hperm].
    unfold b'. by repeat apply Forall_insert.
  - intros j. unfold b'. rewrite view_insert by (rewrite !length_insert; lia). rewrite Zz.
    destruct (Z.eq_dec j i) as [->|H1]; [by rewrite !put_eq|]. rewrite !(put_ne _ i) by done. rewrite view_insert by (rewrite length_insert; lia).
    rewrite Zx. unfold key_of at 1. rewrite Vx. destruct (Z.eq_dec j p) as [->|H2]; [by rewrite !put_eq|]. rewrite !(put_ne _ p) by done.
    rewrite view_insert by lia. by rewrite put_ne.
Qed.

Lemma reinsert_spec a t i c :
  let st := table_state t in let d := size_degree t in
  state_ok st -> cells_ok hash st d (cells t) -> 0 <= i -> cells t !! Z.to_nat i = Some c -> isZero c st = false ->
  (exists e, 0 <= e < 2 ^ d /\ view st (cells t) e = None) ->
  exists b', reinsert i (getHash hash c) (a, t) = (Returns tt, (a, set_cells b' t)) /\ cells_ok hash st d b' /\
    entries st b' ≡ₚ entries st (cells t) /\ reinserted (2 ^ d) (home hash d) (view st (cells t)) i (view st b').
Proof.
  intros st d Hst Hok Hi Ei Zi He. pose proof Hok as [Hd Hl Hc Hn]. assert (cell_ok st c) as Hcc by (by eapply list.Forall_lookup_1 in Ei).
  rewrite (getHash_ok st c Hcc Zi). pose proof (home_in hash d (key_of c) ltac:(lia)) as Hh. pose proof (lookup_lt_Some _ _ _ Ei) as Li.
  assert (view st (cells t) i = Some (key_of c)) as Vi by (rewrite (view_cell st _ i c Hi Ei); by rewrite Zi).
  unfold reinsert, reinserted, tget. rewrite bind_get, Vi. cbn [snd id]. change (place (size_degree t) (hash (key_of c))) with (home hash d (key_of c)).
  destruct (Z.eqb_spec i (home hash d (key_of c))) as [->|Hne].
  { exists (cells t). rewrite set_cells_id. split_and!; [done|done|done|]. eexists. split; [|left; done].
    split; [lia|]. split; [by right|]. unfold between. intros; lia. }
  rewrite (bind_returns _ _ _ _ _ (deref_at a t i c Hi Ei)). destruct (findCell_first a t (key_of c) _ Hok Hh He) as (p & Ef & Hf). fold st d in Hf.
  rewrite (bind_returns _ _ _ _ _ Ef). pose proof Hf as (Hp & Hs & _). destruct (lookup_lt_is_Some_2 (cells t) (Z.to_nat p)) as [c' Ep]; [lia|].
  rewrite (bind_returns _ _ _ _ _ (deref_at a t p c' ltac:(lia) Ep)). pose proof (view_cell st _ p c' ltac:(lia) Ep) as Vp.
  destruct (isZero c' (table_state t)) eqn:Zp; fold st in Zp; rewrite Zp in Vp; cbn [negb].
  - set (x := setHash (hash (key_of c)) c). rewrite (bind_returns _ _ _ _ _ (assign_at a t i c x Hi Ei)).
    destruct (move_cell st d (cells t) i p c c' Hst Hok Hi ltac:(lia) Ei Zi Ep Zp) as (Hok' & Hperm & Hv). fold x in Hok', Hperm, Hv.
    assert (Z.to_nat i <> Z.to_nat p) as Hnn by congruence.
    rewrite (bind_returns _ _ _ _ _ (assign_at a (set_cells (<[Z.to_nat i := x]> (cells t)) t) p c' x ltac:(lia) ltac:(cbn [cells set_cells set_buf]; by rewrite list_lookup_insert_ne))).
    rewrite (assign_at a _ i x (setZero x) Hi) by (cbn [cells set_cells set_buf]; rewrite list_lookup_insert_ne by done; by apply list_lookup_insert_eq).
    eexists. split; [reflexivity|]. cbn [cells set_cells set_buf]. split_and!; [done|done|]. exists p. split; [done|by right].
  - exists (cells t). rewrite set_cells_id. split_and!; [done|done|done|]. exists p. split; [done|]. left. split; [|done]. destruct Hs as [Hs|Hs]; congruence.
Qed.

(** The first pass over the old cells and the second over the run behind them. *)
Lemma reinsert_old_spec o a n : forall t i,
  let st := table_state t in let d := size_degree t in
  state_ok st -> cells_ok hash st d (cells t) -> 0 < o < 2 ^ d -> 0 <= i -> i + Z.of_nat n = o ->
  Z.of_nat (length (entries st (cells t))) < 2 ^ d - o ->
  main_pass (2 ^ d) (home hash d) (view st (cells t)) o i ->
  exists b', reinsert_old hash n i (a, t) = (Returns tt, (a, set_cells b' t)) /\ cells_ok hash st d b' /\
    entries st b' ≡ₚ entries st (cells t) /\ main_pass (2 ^ d) (home hash d) (view st b') o o.
Proof.
  induction n as [|n IH]; intros t i st d Hst Hok Ho Hi Hin Hn Hm.
  { exists (cells t). rewrite set_cells_id. split_and!; [done..|]. by replace o with i at 2 by lia. }
  pose proof Hok as [Hd Hl _ _]. destruct (view_empty st (cells t) o) as (e & He & Hve); [lia|lia|]. rewrite Hl in He.
  destruct (lookup_lt_is_Some_2 (cells t) (Z.to_nat i)) as [c Ei]; [lia|]. cbn [reinsert_old].
  rewrite (bind_returns _ _ _ _ _ (deref_at a t i c Hi Ei)). unfold tget at 1. rewrite bind_get. cbn [snd]. rewrite isDeleted_ok, andb_true_r.
  assert (forall k, 0 <= home hash d k < 2 ^ d) as Hhome by (intros; apply home_in; lia).
  destruct (isZero c (table_state t)) eqn:Zi; cbn [negb].
  - rewrite bind_ret. apply (IH t (i + 1)); try done; [lia|lia|]. fold st d. apply (main_step (2 ^ d) o (home hash d) Ho Hhome (view st (cells t)) _ i e); [done|lia|lia|done|].
    unfold reinserted. rewrite (view_cell st _ i c Hi Ei). unfold st. by rewrite Zi.
  - destruct (reinsert_spec a t i c Hst Hok Hi Ei Zi) as (b' & E & Hok' & Hperm & Hr); [exists e; fold st d; split; [lia|done]|].
    fold st d in Hok', Hperm, Hr.
    rewrite (bind_returns _ _ _ _ _ E). destruct (IH (set_cells b' t) (i + 1)) as (b'' & E' & Hok'' & Hperm' & Hm'); try done; [lia|lia| | |].
    + cbn [cells set_cells set_buf table_state size_degree]. fold st. by rewrite Hperm.
    + apply (main_step (2 ^ d) o (home hash d) Ho Hhome (view st (cells t)) _ i e); [done|lia|lia|done|done].
    + exists b''. rewrite E'. split_and!; [done|done| |done]. cbn [cells set_cells set_buf table_state] in Hperm'. fold st in Hperm'. by rewrite Hperm'.
Qed.

Lemma reinsert_tail_spec o e a fuel : forall t i,
  let st := table_state t in let d := size_degree t in
  state_ok st -> cells_ok hash st d (cells t) -> 0 < o < 2 ^ d -> e - i < Z.of_nat fuel ->
  tail_pass (2 ^ d) (home hash d) (view st (cells t)) o i e ->
  exists b', reinsert_tail hash fuel i (a, t) = (Returns tt, (a, set_cells b' t)) /\ buffer_ok hash st d b' /\ entries st b' ≡ₚ entries st (cells t).
Proof.
  induction fuel as [|fuel IH]; intros t i st d Hst Hok Ho Hf Ht; pose proof (tail_range _ _ _ _ _ _ Ht) as Hie; [lia|].
  pose proof Hok as [Hd Hl _ _]. destruct (lookup_lt_is_Some_2 (cells t) (Z.to_nat i)) as [c Ei]; [lia|]. cbn [reinsert_tail].
  rewrite (bind_returns _ _ _ _ _ (deref_at a t i c ltac:(lia) Ei)). unfold tget at 1. rewrite bind_get. cbn [snd]. rewrite isDeleted_ok, andb_true_r.
  pose proof (view_cell st _ i c ltac:(lia) Ei) as Vi. fold st. pose proof (tail_stop _ _ _ _ _ _ Ht) as Hve.
  assert (forall k, 0 <= home hash d k < 2 ^ d) as Hhome by (intros; apply home_in; lia).
  destruct (isZero c st) eqn:Zi; cbn [negb].
  - exists (cells t). rewrite set_cells_id. split_and!; [done| |done]. split; [done|].
    destruct (Z.eq_dec i e) as [->|Hne]; [by eapply tail_end|].
    by destruct (tail_run _ _ _ _ _ _ Ht i ltac:(lia)).
  - assert (i <> e) as Hne by (intros ->; congruence).
    destruct (reinsert_spec a t i c Hst Hok ltac:(lia) Ei Zi) as (b' & E & Hok' & Hperm & Hr); [exists e; fold st d; split; [lia|done]|].
    fold st d in Hok', Hperm, Hr.
    rewrite (bind_returns _ _ _ _ _ E). destruct (IH (set_cells b' t) (i + 1)) as (b'' & E' & Hok'' & Hperm'); try done; [lia| |].
    + apply (tail_step (2 ^ d) o (home hash d) Hhome (view st (cells t))); [done|lia|done].
    + exists b''. rewrite E'. split_and!; [done|done|]. cbn [cells set_cells set_buf table_state] in Hperm'. fold st in Hperm'. by rewrite Hperm'.
Qed.
End Grow.

Section Resize.
Context {Key Value State C A : Type} `{I : !Cell Key Value State C} `{LA : AllocatorLaws A} (hash : Key -> Z) `{L : !CellLaws hash I}.
Context `{G : Grower} (log2 : Z -> Z) (initial_size_degree : Z).
Implicit Types (t : HashTable C State) (a : A).

Definition bytes_of (d : Z) : Z := 2 ^ d * sizeof_Cell.

(** The buffer of the table is a range of the allocator. *)
Definition owns a (live : list (Z * Z)) t : Prop :=
  alloc_inv a ((buf t, bytes_of (size_degree t)) :: live) /\ bytes_of (size_degree t) <= 2 ^ 48 /\ buf t <> 0.

Lemma bytes_of_size d : 0 <= d < 64 -> bytes_of d < 2 ^ 60 -> bufSize d *64 sizeof_Cell = bytes_of d.
Proof.
  intros Hd Hb. rewrite bufSize_pow by done. apply wrap_small. pose proof (sizeof_pos (hash := hash)).
  pose proof (Z.pow_pos_nonneg 2 d ltac:(lia) ltac:(lia)). unfold fits, bytes_of in *. nia.
Qed.

Lemma degree_bytes d : 0 <= d < 64 -> bytes_of d <= 2 ^ 48 -> d <= 48.
Proof.
  intros Hd Hb. pose proof (sizeof_pos (hash := hash)). apply (Z.pow_le_mono_r_iff 2); [lia|lia|]. unfold bytes_of in Hb.
  pose proof (Z.pow_pos_nonneg 2 d ltac:(lia) ltac:(lia)). nia.
Qed.

Lemma entries_grown st b n : state_ok st -> entries st (b ++ replicate n zeroed) = entries st b.
Proof. intros Hst. rewrite entries_app, (entries_replicate st n zeroed), app_nil_r; [done|]. by apply zeroed_ok. Qed.

(** The grown buffer: the old cells and empty ones. *)
Lemma grown_cells st d d' b :
  state_ok st -> cells_ok hash st d b -> d < d' <= 50 ->
  let b' := b ++ replicate (Z.to_nat (2 ^ d' - 2 ^ d)) zeroed in
  cells_ok hash st d' b' /\ (forall j, 2 ^ d <= j -> view st b' j = None).
Proof.
  intros Hst [Hd Hl Hc Hn] Hd' b'. assert (2 ^ d < 2 ^ d') as Hlt by (apply Z.pow_lt_mono_r; lia). destruct (zeroed_ok st Hst) as [Z1 Z2]. split.
  - split; [lia| | |by unfold b'; rewrite entries_grown].
    + unfold b'. rewrite length_app, length_replicate. lia.
    + apply Forall_app. split; [done|]. by apply Forall_replicate.
  - intros j Hj. unfold view. destruct (Z.leb_spec 0 j); [|done]. unfold b'. rewrite lookup_app_r by lia.
    destruct (replicate _ zeroed !! _) as [c|] eqn:E; [|done]. apply lookup_replicate in E as [-> _]. by rewrite Z2.
Qed.

(** The two passes over the grown buffer. *)
Lemma rehash_spec a t o :
  let st := table_state t in let d := size_degree t in
  state_ok st -> cells_ok hash st d (cells t) -> 0 < o < 2 ^ d -> Z.of_nat (length (entries st (cells t))) < 2 ^ d - o ->
  (forall j, o <= j -> view st (cells t) j = None) ->
  exists b', (_ ← reinsert_old hash (Z.to_nat o) 0; reinsert_tail hash (Z.to_nat (2 ^ d)) o) (a, t) = (Returns tt, (a, set_cells b' t)) /\
    buffer_ok hash st d b' /\ entries st b' ≡ₚ entries st (cells t).
Proof.
  intros st d Hst Hok Ho Hn Hup. pose proof Hok as [Hd Hl _ Hnd].
  assert (forall k, 0 <= home hash d k < 2 ^ d) as Hhome by (intros; apply home_in; lia).
  destruct (reinsert_old_spec hash o a (Z.to_nat o) t 0) as (b1 & E1 & Hok1 & Hp1 & Hm1); try done; [lia| |].
  { apply (main_start (2 ^ d) o (home hash d)); [|by apply view_injective|done]. fold d. rewrite <- Hl. apply view_inside. }
  fold st d in Hok1, Hp1, Hm1. rewrite (bind_returns _ _ _ _ _ E1).
  destruct (view_empty st b1 o) as (e0 & He0 & Hve0); [destruct Hok1; lia|rewrite Hp1; destruct Hok1; lia|].
  destruct (tail_start (2 ^ d) o (home hash d) (view st b1) e0 Hm1) as (e & Ht); [destruct Hok1; lia|done|].
  pose proof (tail_range _ _ _ _ _ _ Ht) as Hr.
  destruct (reinsert_tail_spec hash o e a (Z.to_nat (2 ^ d)) (set_cells b1 t) o) as (b2 & E2 & Hok2 & Hp2); try done; [lia|].
  exists b2. rewrite E2. split_and!; [done|done|]. cbn [cells set_cells set_buf table_state] in Hp2. fold st in Hp2. by rewrite Hp2.
Qed.

(** [resize] to a larger degree, or what the allocator throws. *)
Lemma resize_spec a live t x y d' :
  let st := table_state t in let d := size_degree t in
  state_ok st -> cells_ok hash st d (cells t) -> owns a live t ->
  resize_grower log2 initial_size_degree d x y = Some d' -> d < d' < 64 -> bytes_of d' < 2 ^ 60 ->
  Z.of_nat (length (entries st (cells t))) < 2 ^ d' - 2 ^ d ->
  match resize hash log2 initial_size_degree x y (a, t) with
  | (Returns _, (a', t')) => exists p b', t' = set_grower d' (set_buf p b' t) /\ owns a' live t' /\
      buffer_ok hash st d' b' /\ entries st b' ≡ₚ entries st (cells t)
  | (Throws e, (a', t')) => t' = t /\ owns a' live t /\ exists new, realloc_range (buf t) (bytes_of d) new a = (Throws e, a')
  end.
Proof.
  intros st d Hst Hok (Hinv & Hb & Hbuf) Hg Hd' Hb' Hn. pose proof Hok as [Hd Hl _ _].
  unfold resize, tget. rewrite bind_get. cbn [snd id]. fold d. rewrite Hg. unfold getBufferSizeInBytes. fold d.
  pose proof (sizeof_pos (hash := hash)) as Hsz. assert (2 ^ d < 2 ^ d') as Hlt by (apply Z.pow_lt_mono_r; lia).
  rewrite (bytes_of_size d') by lia. rewrite (bytes_of_size d) by (lia || (change (2 ^ 48) with 281474976710656 in Hb; fold d in Hb; lia)).
  assert (bytes_of d' / sizeof_Cell = 2 ^ d') as Hdiv by (apply Z.div_mul; lia).
  pose proof (realloc_range_ok a live (buf t) (bytes_of d) (bytes_of d') Hinv ltac:(unfold bytes_of; nia) Hb') as Hr.
  rewrite (bufSize_pow d) by lia. rewrite (bufSize_pow d') by lia. rewrite Hdiv.
  unfold on_allocator, zoom. unfold mbind at 1, M_bind at 1. cbn [fst snd].
  destruct (realloc_range (buf t) (bytes_of d) (bytes_of d') a) as [[p|e] a'] eqn:Er; cbn [fst snd]; [|split_and!; [done|by split_and!|by exists (bytes_of d')]].
  destruct Hr as (Hinv' & Hp & H48). pose proof (degree_bytes d' ltac:(lia) H48) as Hd48.
  unfold tset. rewrite !bind_modify. cbn [fst snd].
  rewrite take_ge by lia. replace (Z.to_nat (2 ^ d') - length (cells t))%nat with (Z.to_nat (2 ^ d' - 2 ^ d)) by lia.
  destruct (grown_cells st d d' (cells t) Hst Hok ltac:(lia)) as [Hok' Hup]. set (b1 := cells t ++ _) in *.
  destruct (rehash_spec a' (set_grower d' (set_buf p b1 t)) (2 ^ d)) as (b2 & E & Hbok & Hperm); try done.
  - cbn [size_degree set_grower]. lia.
  - cbn [cells set_grower set_buf table_state size_degree]. fold st. unfold b1. rewrite entries_grown by done. fold d. lia.
  - cbn [cells set_grower set_buf table_state size_degree] in Hperm, E. rewrite E. exists p, b2. split_and!; [done|by split_and!|done|].
    fold st in Hperm. rewrite Hperm. unfold b1. by rewrite entries_grown.
Qed.
End Resize.
