(* ===== verification/HashTableMap.v ===== *)
(** * The hash tables are maps

    A table (HashTable.v) stands for the finite map of its elements
    ([table_map]).  [table_ok] is the invariant: the cells are in order
    ([buffer_ok]), at most half of them are occupied, the zero key is in its
    place, the elements are counted and the buffer is a live range of the
    allocator.  Shown: every operation keeps the invariant and does to the map
    what it says, or throws what the allocator threw and leaves the map as it
    was; iteration visits every element once. *)

From stdpp Require Import base list option numbers gmap.
From Stdlib Require Import ZArith Lia.
From S2P Require Import Prelude IOMonad Allocators LinearProbing HashTableCells HashTable HashTableProofs.

#[local] Open Scope Z_scope.
#[local] Open Scope word_scope.

Section Invariant.
Context {Key Value State C A : Type} `{Countable Key} `{I : !Cell Key Value State C} `{LA : AllocatorLaws A}.
Context (hash : Key -> Z) `{L : !CellLaws hash I}.
Implicit Types (t : HashTable C State) (a : A) (live : list (Z * Z)).

Definition zero_entry t : list Value := if has_zero t then [getValue (zero_value t)] else [].

Definition contents t : list Value := zero_entry t ++ entries (table_state t) (cells t).

Definition table_map t : gmap Key Value := list_to_map ((fun v => (getKey v, v)) <$> contents t).

Record table_ok a live t : Prop := {
  ok_state : state_ok (table_state t);
  ok_buffer : buffer_ok hash (table_state t) (size_degree t) (cells t);
  ok_owns : owns a live t;
  ok_load : Z.of_nat (length (entries (table_state t) (cells t))) <= 2 ^ (size_degree t - 1);
  ok_size : m_size t = Z.of_nat (length (contents t));
  ok_zero_cell : need_zero_value_storage = true -> isZero_key (key_of (zero_value t)) (table_state t) = true /\ isZero (zero_value t) (table_state t) = true;
  ok_zero : has_zero t = true -> need_zero_value_storage = true
}.

(** A pointer to an element. *)
Definition points t (p : cell_ptr) (v : Value) : Prop :=
  match p with
  | ZeroValue => has_zero t = true /\ getValue (zero_value t) = v
  | At i => exists c, 0 <= i /\ cells t !! Z.to_nat i = Some c /\ isZero c (table_state t) = false /\ getValue c = v
  end.

Lemma entry_nonzero st d b v : cells_ok hash st d b -> v ∈ entries st b -> isZero_key (getKey v) st = false.
Proof.
  intros [_ _ Hc _] Hv. apply list_elem_of_fmap in Hv as (c & -> & [Hz Hin]%list_elem_of_filter). rewrite list.Forall_forall in Hc.
  exact (nonzero_key st c (Hc c Hin) Hz).
Qed.

Lemma zero_entry_key a live t : table_ok a live t -> forall v, v ∈ zero_entry t -> isZero_key (getKey v) (table_state t) = true.
Proof.
  intros Ht v. unfold zero_entry. destruct (has_zero t) eqn:Ez; [|by intros ?%elem_of_nil]. intros ->%list_elem_of_singleton.
  apply (ok_zero_cell _ _ _ Ht (ok_zero _ _ _ Ht Ez)).
Qed.

Lemma contents_nodup a live t : table_ok a live t -> NoDup (getKey <$> contents t).
Proof.
  intros Ht. unfold contents. rewrite fmap_app. apply NoDup_app. split_and!.
  - unfold zero_entry. destruct (has_zero t); [apply NoDup_singleton|apply NoDup_nil_2].
  - intros k (v & -> & Hv)%list_elem_of_fmap (w & E & Hw)%list_elem_of_fmap. pose proof (zero_entry_key _ _ _ Ht v Hv) as Hz.
    apply (entry_nonzero _ _ _ w (buffer_cells _ _ _ _ (ok_buffer _ _ _ Ht))) in Hw. congruence.
  - apply (buffer_cells _ _ _ _ (ok_buffer _ _ _ Ht)).
Qed.

Lemma table_map_keys (l : list Value) : ((fun v => (getKey v, v)) <$> l).*1 = getKey <$> l.
Proof. rewrite <- list_fmap_compose. by apply list_fmap_ext. Qed.

Lemma table_map_lookup a live t k v : table_ok a live t -> table_map t !! k = Some v <-> v ∈ contents t /\ getKey v = k.
Proof.
  intros Ht. unfold table_map. rewrite <- elem_of_list_to_map by (rewrite table_map_keys; by eapply contents_nodup).
  rewrite list_elem_of_fmap. split; [by intros (w & [= -> ->] & Hw)|]. intros [Hv <-]. by exists v.
Qed.

Lemma table_map_perm t t' : NoDup (getKey <$> contents t) -> contents t' ≡ₚ contents t -> table_map t' = table_map t.
Proof.
  intros Hn Hp. unfold table_map. symmetry. apply list_to_map_proper; [by rewrite table_map_keys|]. by rewrite Hp.
Qed.

Lemma table_map_cons t t' v : NoDup (getKey <$> v :: contents t) -> contents t' ≡ₚ v :: contents t -> table_map t' = <[getKey v := v]> (table_map t).
Proof.
  intros Hn Hp. unfold table_map. change (<[getKey v := v]> _) with (list_to_map (M := gmap Key Value) ((fun v => (getKey v, v)) <$> v :: contents t)).
  apply list_to_map_proper; [|by rewrite Hp]. by rewrite table_map_keys, Hp.
Qed.

Lemma table_map_replace t t' v v' (R : list Value) :
  NoDup (getKey <$> contents t) -> contents t ≡ₚ v :: R -> contents t' ≡ₚ v' :: R -> getKey v' = getKey v ->
  table_map t' = <[getKey v' := v']> (table_map t).
Proof.
  intros Hn Hp Hp' Hk. unfold table_map. assert (NoDup (getKey <$> contents t')) as Hn'.
  { rewrite Hp', fmap_cons, Hk. by rewrite Hp, fmap_cons in Hn. }
  rewrite (list_to_map_proper ((fun v => (getKey v, v)) <$> contents t) ((fun v => (getKey v, v)) <$> v :: R)) by (rewrite ?table_map_keys, ?Hp; by rewrite <- ?Hp).
  rewrite (list_to_map_proper ((fun v => (getKey v, v)) <$> contents t') ((fun v => (getKey v, v)) <$> v' :: R)) by (rewrite ?table_map_keys, ?Hp'; by rewrite <- ?Hp').
  cbn. by rewrite Hk, insert_insert_eq.
Qed.

Lemma degree_range a live t : table_ok a live t -> 1 <= size_degree t <= 48.
Proof.
  intros Ht. destruct (ok_buffer _ _ _ Ht) as [[Hd _ _ _] _]. destruct (ok_owns _ _ _ Ht) as (_ & Hb & _).
  pose proof (degree_bytes hash (size_degree t) ltac:(lia) Hb). lia.
Qed.

(** There is an empty cell. *)
Lemma has_empty a live t : table_ok a live t -> exists e, 0 <= e < 2 ^ size_degree t /\ view (table_state t) (cells t) e = None.
Proof.
  intros Ht. pose proof (degree_range _ _ _ Ht) as Hd. apply (some_empty hash); [apply (ok_buffer _ _ _ Ht)|]. pose proof (ok_load _ _ _ Ht).
  assert (2 ^ (size_degree t - 1) < 2 ^ size_degree t) by (apply Z.pow_lt_mono_r; lia). lia.
Qed.

(** What the search for [x] from its place stops at. *)
Lemma search_spec a live t x :
  table_ok a live t ->
  exists p c, findCell x (hash x) (place (size_degree t) (hash x)) (a, t) = (Returns p, (a, t)) /\ 0 <= p < 2 ^ size_degree t /\
    cells t !! Z.to_nat p = Some c /\ first_stop (2 ^ size_degree t) (view (table_state t) (cells t)) x (home hash (size_degree t) x) p /\
    (if isZero c (table_state t) then x ∉ getKey <$> entries (table_state t) (cells t)
     else key_of c = x /\ getValue c ∈ entries (table_state t) (cells t)).
Proof.
  intros Ht. pose proof (degree_range _ _ _ Ht) as Hd. destruct (ok_buffer _ _ _ Ht) as [Hok Hp]. pose proof Hok as [_ Hl _ Hn].
  set (v := view (table_state t) (cells t)) in *. pose proof (home_in hash (size_degree t) x ltac:(lia)) as Hh.
  destruct (findCell_first hash a t x _ Hok Hh (has_empty _ _ _ Ht)) as (p & E & Hf). fold v in Hf. pose proof Hf as (Hpr & Hs & _).
  destruct (lookup_lt_is_Some_2 (cells t) (Z.to_nat p)) as [c Ec]; [lia|]. exists p, c. split_and!; [done|lia|lia|done|done|].
  pose proof (view_cell (table_state t) _ p c ltac:(lia) Ec) as Vp. fold v in Vp. destruct (isZero c (table_state t)) eqn:Zc.
  - rewrite view_elem. fold v. intros (j & Ej). assert (inside (2 ^ size_degree t) v) as Hin by (rewrite <- Hl; apply view_inside).
    pose proof (first_stop_present _ _ _ x j p Hp Hin (view_injective _ _ Hn) Hh Ej Hf) as ->. congruence.
  - split; [destruct Hs; congruence|]. apply list_elem_of_fmap. exists c. split; [done|]. apply list_elem_of_filter. split; [done|]. by eapply list_elem_of_lookup_2.
Qed.

Lemma not_end t i : 0 <= size_degree t < 64 -> i < 2 ^ size_degree t -> At i <> hash_end t.
Proof. intros Hd Hi. unfold hash_end. rewrite bufSize_pow by done. intros [= ->]. lia. Qed.

(** The zero key. *)
Lemma zero_lookup a live t x :
  table_ok a live t -> isZero_key x (table_state t) = true ->
  table_map t !! x = if has_zero t then Some (getValue (zero_value t)) else None.
Proof.
  intros Ht Hx. destruct (has_zero t) eqn:Ez.
  - apply (table_map_lookup _ _ _ _ _ Ht). unfold contents, zero_entry. rewrite Ez. split; [by left|].
    destruct (ok_zero_cell _ _ _ Ht (ok_zero _ _ _ Ht Ez)) as [Hk _]. by apply (zero_unique (table_state t)).
  - apply eq_None_not_Some. intros (v & Hv). apply (table_map_lookup _ _ _ _ _ Ht) in Hv as [Hv <-]. unfold contents, zero_entry in Hv. rewrite Ez in Hv.
    apply (entry_nonzero _ _ _ _ (buffer_cells _ _ _ _ (ok_buffer _ _ _ Ht))) in Hv. congruence.
Qed.

(** A key that is not zero is in the map when it is in the cells. *)
Lemma nonzero_lookup a live t x v :
  table_ok a live t -> isZero_key x (table_state t) = false -> table_map t !! x = Some v <-> v ∈ entries (table_state t) (cells t) /\ getKey v = x.
Proof.
  intros Ht Hx. rewrite (table_map_lookup _ _ _ _ _ Ht). unfold contents. rewrite elem_of_app. split; [|tauto]. intros [[Hv|Hv] <-]; [|done].
  apply (zero_entry_key _ _ _ Ht) in Hv. congruence.
Qed.

Lemma nonzero_absent a live t x :
  table_ok a live t -> isZero_key x (table_state t) = false -> x ∉ getKey <$> entries (table_state t) (cells t) -> table_map t !! x = None.
Proof.
  intros Ht Hx Hn. apply eq_None_not_Some. intros (v & Hv). apply (nonzero_lookup _ _ _ _ _ Ht Hx) in Hv as [Hv <-]. apply Hn. by apply list_elem_of_fmap_2.
Qed.

Lemma table_find_spec a live t x :
  table_ok a live t ->
  exists p, find hash x (a, t) = (Returns p, (a, t)) /\
    match table_map t !! x with Some v => points t p v /\ p <> hash_end t | None => p = hash_end t end.
Proof.
  intros Ht. pose proof (degree_range _ _ _ Ht) as Hd. unfold find, find_hash, tget. rewrite bind_get. cbn [snd id].
  destruct (isZero_key x (table_state t)) eqn:Hx.
  - eexists. split; [reflexivity|]. rewrite (zero_lookup _ _ _ _ Ht Hx). destruct (has_zero t) eqn:Ez; [|done]. by split_and!.
  - destruct (search_spec _ _ _ x Ht) as (p & c & E & Hp & Ec & _ & Hc). rewrite (bind_returns _ _ _ _ _ E).
    rewrite (bind_returns _ _ _ _ _ (deref_at a t p c ltac:(lia) Ec)). eexists. split; [reflexivity|].
    destruct (isZero c (table_state t)) eqn:Zc; cbn [negb].
    + by rewrite (nonzero_absent _ _ _ _ Ht Hx Hc).
    + destruct Hc as [Hk Hin]. rewrite (proj2 (nonzero_lookup _ _ _ _ (getValue c) Ht Hx) (conj Hin Hk)). split; [|apply not_end; lia].
      exists c. split_and!; [lia|done..].
Qed.

Lemma has_spec a live t x : table_ok a live t -> has hash x (a, t) = (Returns (bool_decide (is_Some (table_map t !! x))), (a, t)).
Proof.
  intros Ht. unfold has, has_hash, tget. rewrite bind_get. cbn [snd id]. destruct (isZero_key x (table_state t)) eqn:Hx.
  - rewrite (zero_lookup _ _ _ _ Ht Hx). by destruct (has_zero t).
  - destruct (search_spec _ _ _ x Ht) as (p & c & E & Hp & Ec & _ & Hc). rewrite (bind_returns _ _ _ _ _ E).
    rewrite (bind_returns _ _ _ _ _ (deref_at a t p c ltac:(lia) Ec)). destruct (isZero c (table_state t)) eqn:Zc; cbn [negb].
    + by rewrite (nonzero_absent _ _ _ _ Ht Hx Hc).
    + destruct Hc as [Hk Hin]. by rewrite (proj2 (nonzero_lookup _ _ _ _ (getValue c) Ht Hx) (conj Hin Hk)).
Qed.
End Invariant.

(** ** Inserting *)

Section Inserting.
Context {Key Value State C A : Type} `{Countable Key} `{I : !Cell Key Value State C} `{LA : AllocatorLaws A}.
Context (hash : Key -> Z) `{L : !CellLaws hash I} `{G : Grower} (log2 : Z -> Z) (initial_size_degree : Z).
Implicit Types (t : HashTable C State) (a : A) (live : list (Z * Z)).

(** A cell with a new key, put where the search for the key stops. *)
Lemma put_cell st d b x p c c1 :
  buffer_ok hash st d b -> 0 <= p -> b !! Z.to_nat p = Some c -> isZero c st = true ->
  first_stop (2 ^ d) (view st b) x (home hash d x) p -> x ∉ getKey <$> entries st b ->
  cell_ok st c1 -> isZero c1 st = false -> key_of c1 = x ->
  buffer_ok hash st d (<[Z.to_nat p := c1]> b) /\ entries st (<[Z.to_nat p := c1]> b) ≡ₚ getValue c1 :: entries st b.
Proof.
  intros [[Hd Hl Hc Hn] Hp] Hp0 Ec Zc Hf Hx Hc1 Z1 K1. pose proof (entries_fill st b _ c c1 Ec Zc Z1) as Hperm. split; [|done]. split.
  - split; [done|by rewrite length_insert|by apply Forall_insert|]. rewrite Hperm, fmap_cons. change (getKey (getValue c1)) with (key_of c1). rewrite K1. by constructor.
  - pose proof (probing_put _ _ _ _ _ Hp Hf) as Hpp. pose proof (lookup_lt_Some _ _ _ Ec).
    assert (forall j, view st (<[Z.to_nat p := c1]> b) j = put (view st b) p (Some x) j) as Hv by (intros j; rewrite view_insert by lia; by rewrite Z1, K1).
    intros j k E. rewrite Hv in E. intros i Hi. rewrite Hv. exact (Hpp j k E i Hi).
Qed.

(** Growing a table that has one element too many. *)
Lemma resize_full a live t :
  state_ok (table_state t) -> buffer_ok hash (table_state t) (size_degree t) (cells t) -> owns a live t ->
  Z.of_nat (length (entries (table_state t) (cells t))) <= 2 ^ (size_degree t - 1) + 1 ->
  m_size t = Z.of_nat (length (contents t)) ->
  (need_zero_value_storage = true -> isZero_key (key_of (zero_value t)) (table_state t) = true /\ isZero (zero_value t) (table_state t) = true) ->
  (has_zero t = true -> need_zero_value_storage = true) ->
  match resize hash log2 initial_size_degree 0 0 (a, t) with
  | (Returns _, (a', t')) => table_ok hash a' live t' /\ contents t' ≡ₚ contents t /\ size_degree t' = increaseSize (size_degree t)
  | (Throws e, (a', t')) => t' = t /\ owns a' live t /\ exists old new, realloc_range (buf t) old new a = (Throws e, a')
  end.
Proof.
  intros Hst Hbuf Hown Hn Hm Hz1 Hz2. pose proof Hbuf as [Hok _]. pose proof Hok as [Hd _ _ _]. pose proof Hown as (_ & H48 & _).
  pose proof (degree_bytes hash (size_degree t) ltac:(lia) H48) as Hd48. set (d := size_degree t) in *. destruct (increaseSize_small d ltac:(lia)) as [Hi1 Hi2]. pose proof large_degree_ok as Hlarge.
  assert (2 ^ d = 2 * 2 ^ (d - 1)) as E1 by (rewrite <- Z.pow_succ_r by lia; f_equal; lia). pose proof (Z.pow_pos_nonneg 2 (d - 1) ltac:(lia) ltac:(lia)) as Hpos.
  assert (2 * 2 ^ d <= 2 ^ increaseSize d <= 4 * 2 ^ d /\ (d = 1 -> 2 ^ increaseSize d = 4 * 2 ^ d)) as [E2 E3].
  { assert (increaseSize d = d + 1 \/ increaseSize d = d + 2) as [E|E] by lia; rewrite E, Z.pow_add_r by lia; change (2 ^ 1) with 2; change (2 ^ 2) with 4; lia. }
  assert (d = 1 \/ 2 <= 2 ^ (d - 1)) as E4 by (destruct (Z.eq_dec d 1); [by left|right; change 2 with (2 ^ 1) at 1; apply Z.pow_le_mono_r; lia]).
  pose proof (sizeof_pos (hash := hash)) as Hs. assert (bytes_of (increaseSize d) < 2 ^ 60) as Hb by (unfold bytes_of in *; nia).
  pose proof (resize_spec (G := G) hash log2 initial_size_degree a live t 0 0 (increaseSize d) Hst Hok Hown eq_refl ltac:(fold d; lia) Hb) as Hr. fold d in Hr.
  specialize (Hr ltac:(destruct E4 as [E4|E4]; [rewrite (E3 E4); rewrite E4 in *; lia|lia])).
  destruct (resize hash log2 initial_size_degree 0 0 (a, t)) as [[[]|e] [a' t']]; [|by destruct Hr as (-> & ? & new & ?); eauto].
  destruct Hr as (p & b' & -> & Hown' & Hbuf' & Hperm). assert (contents (set_grower (increaseSize d) (set_buf p b' t)) ≡ₚ contents t) as Hcont.
  { unfold contents, zero_entry. cbn [cells table_state set_grower set_buf has_zero zero_value]. by rewrite Hperm. }
  split; [|by split]. split; cbn [cells table_state set_grower set_buf has_zero zero_value size_degree m_size]; try done.
  - rewrite Hperm. assert (2 ^ d <= 2 ^ (increaseSize d - 1)) by (apply Z.pow_le_mono_r; lia). lia.
  - by rewrite Hcont.
Qed.

(** The table left by an operation that threw what the allocator threw. *)
Definition unchanged a live t (e : error) (w : world (C := C) (State := State) (A := A)) : Prop :=
  table_ok hash w.1 live w.2 /\ table_map w.2 = table_map t /\ exists old new, realloc_range (buf t) old new a = (Throws e, w.1).

(** What emplace does for the key [x]. *)
Definition emplaced a live t (x : Key) (r : outcome (cell_ptr * bool) * world) : Prop :=
  match r with
  | (Returns (p, inserted), w) => table_ok hash w.1 live w.2 /\
      match table_map t !! x with
      | Some v => inserted = false /\ w = (a, t) /\ points t p v
      | None => inserted = true /\ exists v, getKey v = x /\ contents w.2 ≡ₚ v :: contents t /\ points w.2 p v
      end
  | (Throws e, w) => table_map t !! x = None /\ unchanged a live t e w
  end.

Lemma points_contents a live t p v : table_ok hash a live t -> points t p v -> v ∈ contents t.
Proof.
  intros Ht. unfold contents, zero_entry. destruct p as [|i]; cbn [points].
  - intros [-> <-]. by left.
  - intros (c & Hi & E & Zc & <-). apply elem_of_app. right. apply list_elem_of_fmap. exists c. split; [done|]. apply list_elem_of_filter. split; [done|].
    by eapply list_elem_of_lookup_2.
Qed.

(** The table with one more element, before it is known whether it is full. *)
Lemma add_element a live t x p c c1 :
  table_ok hash a live t -> 0 <= p -> cells t !! Z.to_nat p = Some c -> isZero c (table_state t) = true ->
  first_stop (2 ^ size_degree t) (view (table_state t) (cells t)) x (home hash (size_degree t) x) p -> x ∉ getKey <$> entries (table_state t) (cells t) ->
  cell_ok (table_state t) c1 -> isZero c1 (table_state t) = false -> key_of c1 = x ->
  let t1 := set_m_size (m_size t +64 1) (set_cells (<[Z.to_nat p := c1]> (cells t)) t) in
  buffer_ok hash (table_state t) (size_degree t) (cells t1) /\ contents t1 ≡ₚ getValue c1 :: contents t /\
  m_size t1 = Z.of_nat (length (contents t1)) /\ Z.of_nat (length (entries (table_state t) (cells t1))) <= 2 ^ (size_degree t - 1) + 1 /\
  m_size t1 -64 1 = m_size t /\ (overflow (size_degree t) (m_size t1) = false -> table_ok hash a live t1).
Proof.
  intros Ht Hp Ec Zc Hf Hx Hc1 Z1 K1 t1. pose proof (degree_range _ _ _ _ Ht) as Hd. pose proof Ht as [Hst Hbuf Hown Hload Hsize Hz1 Hz2].
  destruct (put_cell _ _ _ _ _ _ _ Hbuf Hp Ec Zc Hf Hx Hc1 Z1 K1) as [Hbuf1 Hperm].
  assert (contents t1 ≡ₚ getValue c1 :: contents t) as Hcont.
  { unfold contents, zero_entry, t1. cbn [cells table_state set_m_size set_cells set_buf has_zero zero_value]. rewrite Hperm. solve_Permutation. }
  assert (Z.of_nat (length (contents t)) <= 2 ^ (size_degree t - 1) + 1) as Hlen.
  { unfold contents, zero_entry. rewrite length_app. destruct (has_zero t); cbn [length]; lia. }
  assert (2 ^ (size_degree t - 1) <= 2 ^ 47) as Hpow by (apply Z.pow_le_mono_r; lia).
  assert (m_size t1 = Z.of_nat (length (contents t1))) as Hsz.
  { rewrite Hcont. cbn [m_size t1 set_m_size length]. rewrite wrap_small; [lia|]. unfold fits. lia. }
  assert (Z.of_nat (length (entries (table_state t) (cells t1))) <= 2 ^ (size_degree t - 1) + 1) as Hent.
  { cbn [cells t1 set_m_size set_cells set_buf]. rewrite Hperm. cbn [length]. lia. }
  split_and!; [done|done|done|done| |].
  { cbn [m_size t1 set_m_size]. rewrite !wrap_small; rewrite ?wrap_small; unfold fits; lia. }
  unfold overflow. rewrite maxFill_pow by lia. intros Ho%Z.ltb_ge. split; try done.
  cbn [cells table_state t1 set_m_size set_cells set_buf size_degree]. rewrite Hsz in Ho. cbn [length] in Ho. rewrite Hcont in Ho. cbn [length] in Ho.
  rewrite Hperm. cbn [length]. unfold contents in Ho. rewrite length_app in Ho. lia.
Qed.

(** The handler of emplaceNonZero takes the new cell out again. *)
Lemma rollback a live t p c c1 a' :
  table_ok hash a live t -> 0 <= p -> cells t !! Z.to_nat p = Some c -> isZero c (table_state t) = true -> cell_ok (table_state t) c1 -> owns a' live t ->
  let t2 := set_m_size (m_size t) (set_cells (<[Z.to_nat p := setZero c1]> (cells t)) t) in
  table_ok hash a' live t2 /\ contents t2 ≡ₚ contents t.
Proof.
  intros Ht Hp Ec Zc Hc1 Hown' t2. pose proof Ht as [Hst [[Hd Hl Hc Hn] Hprob] Hown Hload Hsize Hz1 Hz2]. destruct (setZero_ok _ _ Hst Hc1) as [Hz Zz].
  pose proof (lookup_lt_Some _ _ _ Ec).
  assert (entries (table_state t) (<[Z.to_nat p := setZero c1]> (cells t)) ≡ₚ entries (table_state t) (cells t)) as Hperm by (apply (entries_same _ _ _ c); congruence || done).
  assert (contents t2 ≡ₚ contents t) as Hcont.
  { unfold contents, zero_entry, t2. cbn [cells table_state set_m_size set_cells set_buf has_zero zero_value]. by rewrite Hperm. }
  assert (forall j, view (table_state t) (<[Z.to_nat p := setZero c1]> (cells t)) j = view (table_state t) (cells t) j) as Hv.
  { intros j. rewrite view_insert, Zz by lia. unfold put. destruct (Z.eqb_spec j p) as [->|]; [|done]. by rewrite (view_cell _ _ p c), Zc. }
  split; [|done]. split; cbn [cells table_state t2 set_m_size set_cells set_buf size_degree m_size has_zero zero_value]; try done.
  - split; [split; [done|by rewrite length_insert|by apply Forall_insert|by rewrite Hperm]|].
    intros j k E. rewrite Hv in E. intros i Hi. rewrite Hv. exact (Hprob j k E i Hi).
  - by rewrite Hperm.
  - by rewrite Hcont.
Qed.

Lemma emplaceNonZero_spec a live t x :
  table_ok hash a live t -> isZero_key x (table_state t) = false ->
  emplaced a live t x (emplaceNonZero hash log2 initial_size_degree x (hash x) (a, t)).
Proof.
  intros Ht Hx. unfold emplaceNonZero, tget. rewrite bind_get. cbn [snd id].
  destruct (search_spec hash _ _ _ x Ht) as (p & c & E & Hp & Ec & Hf & Hc). rewrite (bind_returns _ _ _ _ _ E).
  rewrite (bind_returns _ _ _ _ _ (deref_at a t p c ltac:(lia) Ec)). destruct (isZero c (table_state t)) eqn:Zc; cbn [negb].
  2: { split; [done|]. destruct Hc as [Hk Hin]. rewrite (proj2 (nonzero_lookup hash _ _ _ _ (getValue c) Ht Hx) (conj Hin Hk)). split_and!; [done|done|].
    exists c. split_and!; [lia|done..]. }
  pose proof (nonzero_absent hash _ _ _ _ Ht Hx Hc) as Habs. pose proof Ht as [Hst Hbuf Hown Hload Hsize Hz1 Hz2].
  assert (cell_ok (table_state t) c) as Hcc by (eapply list.Forall_lookup_1; [apply Hbuf|exact Ec]).
  destruct (new_ok (hash := hash) (table_state t) c x Hst Hcc Hx) as (Hc1 & Z1 & K1). set (c1 := setHash (hash x) (new_Cell x (table_state t) c)) in *.
  rewrite (bind_returns _ _ _ _ _ (assign_at a t p c c1 ltac:(lia) Ec)). unfold tset. rewrite bind_modify, bind_get. cbn [fst snd].
  destruct (add_element a live t x p c c1 Ht ltac:(lia) Ec Zc Hf Hc Hc1 Z1 K1) as (Hbuf1 & Hcont & Hsz & Hent & Hback & Hok1).
  set (t1 := set_m_size (m_size t +64 1) (set_cells (<[Z.to_nat p := c1]> (cells t)) t)) in *.
  assert (t1 = set_m_size (m_size (set_cells (<[Z.to_nat p := c1]> (cells t)) t) +64 1) (set_cells (<[Z.to_nat p := c1]> (cells t)) t)) as <- by done.
  assert (cells t1 !! Z.to_nat p = Some c1) as Ec1 by (apply list_lookup_insert_eq; by eapply lookup_lt_Some).
  destruct (overflow (size_degree t) (m_size t1)).
  2: { split; [by apply Hok1|]. rewrite Habs. split; [done|]. exists (getValue c1). split_and!; [done|done|]. exists c1. split_and!; [lia|done..]. }
  unfold try_catch. unfold mbind at 1, M_bind at 1.
  pose proof (resize_full a live t1 Hst Hbuf1 Hown Hent Hsz Hz1 Hz2) as Hr. destruct (resize _ _ _ 0 0 (a, t1)) as [[[]|e] [a' t']].
  - destruct Hr as (Ht' & Hperm & _). destruct (table_find_spec hash a' live t' x Ht') as (q & Eq & Hq). unfold find in Eq. rewrite (bind_returns _ _ _ _ _ Eq).
    assert (getValue c1 ∈ contents t' /\ getKey (getValue c1) = x) as Hin by (split; [rewrite Hperm, Hcont; by left|done]).
    rewrite (proj2 (table_map_lookup hash _ _ _ _ _ Ht') Hin) in Hq. split; [done|]. rewrite Habs. split; [done|]. exists (getValue c1).
    split_and!; [done|by rewrite Hperm|apply Hq].
  - destruct Hr as (-> & Hown' & old & new & Er). rewrite bind_modify. cbn [fst snd].
    rewrite Hback. change (set_m_size (m_size t) t1) with (set_m_size (m_size t) (set_cells (<[Z.to_nat p := c1]> (cells t)) t)).
    set (t2 := set_m_size (m_size t) (set_cells _ t)). rewrite (bind_returns _ _ _ _ _ (deref_at a' t2 p c1 ltac:(lia) Ec1)).
    rewrite (bind_returns _ _ _ _ _ (assign_at a' t2 p c1 (setZero c1) ltac:(lia) Ec1)).
    destruct (rollback a live t p c c1 a' Ht ltac:(lia) Ec Zc Hc1 Hown') as [Ht2 Hcont2].
    assert (set_cells (<[Z.to_nat p := setZero c1]> (cells t2)) t2 = set_m_size (m_size t) (set_cells (<[Z.to_nat p := setZero c1]> (cells t)) t)) as ->.
    { unfold t2, set_cells, set_m_size. cbn [cells set_buf buf size_degree has_zero zero_value table_state m_size]. unfold set_buf. cbn. by rewrite list_insert_insert_eq. }
    unfold throw. split; [done|]. split; [done|]. split; [|by exists old, new]. apply table_map_perm; [by eapply contents_nodup|done].
Qed.

(** The zero key is put into its place. *)
Lemma add_zero a live t c :
  table_ok hash a live t -> need_zero_value_storage = true -> has_zero t = false ->
  getValue c = getValue (zero_value t) -> isZero c (table_state t) = isZero (zero_value t) (table_state t) ->
  let t1 := set_zero_value c (set_has_zero true (set_m_size (m_size t +64 1) t)) in
  table_ok hash a live t1 /\ contents t1 ≡ₚ getValue (zero_value t) :: contents t.
Proof.
  intros Ht Hneed Hz Hv Hzc t1. pose proof (degree_range _ _ _ _ Ht) as Hd. pose proof Ht as [Hst Hbuf Hown Hload Hsize Hz1 Hz2].
  assert (contents t1 = getValue (zero_value t) :: contents t) as Hcont.
  { unfold contents, zero_entry, t1. cbn [cells table_state set_m_size set_has_zero set_zero_value has_zero zero_value]. by rewrite Hz, Hv. }
  assert (2 ^ (size_degree t - 1) <= 2 ^ 47) as Hpow by (apply Z.pow_le_mono_r; lia).
  split; [|by rewrite Hcont]. split; try done.
  - rewrite Hcont. cbn [m_size t1 set_zero_value set_has_zero set_m_size length]. rewrite Hsize. unfold contents, zero_entry. rewrite Hz. cbn [app]. rewrite wrap_small; [lia|].
    unfold fits. lia.
  - intros _. cbn [t1 zero_value set_zero_value table_state set_has_zero set_m_size]. unfold key_of. rewrite Hv, Hzc. by apply Hz1.
Qed.

Lemma emplace_spec a live t x : table_ok hash a live t -> emplaced a live t x (emplace hash log2 initial_size_degree x (a, t)).
Proof.
  intros Ht. unfold emplace, emplace_hash, emplaceIfZero. destruct need_zero_value_storage eqn:Hneed; cbn [negb].
  2: { rewrite bind_ret. apply emplaceNonZero_spec; [done|]. by apply zero_never. }
  rewrite bind_assoc. unfold tget at 1. rewrite bind_get. cbn [snd id]. destruct (isZero_key x (table_state t)) eqn:Hx; [|by apply emplaceNonZero_spec].
  pose proof (zero_lookup hash _ _ _ _ Ht Hx) as Hl. destruct (has_zero t) eqn:Ez; cbn [negb].
  - rewrite bind_ret. split; [done|]. rewrite Hl. by split_and!.
  - unfold tset, setHasZero. rewrite Hneed, !bind_assoc, bind_modify, bind_assoc. unfold tset. rewrite bind_modify, bind_assoc, bind_modify, bind_ret. cbn [fst snd].
    destruct (add_zero a live t (setHash (hash x) (zero_value t)) Ht Hneed Ez (setHash_value _ _) (setHash_isZero _ _ _)) as [Ht1 Hcont]. split; [done|]. rewrite Hl. split; [done|]. exists (getValue (zero_value t)).
    pose proof (ok_zero_cell _ _ _ _ Ht Hneed) as [Hk _]. split_and!; [by apply (zero_unique (table_state t))|done|].
    cbn [points has_zero zero_value set_zero_value set_has_zero set_m_size]. split; [done|]. apply setHash_value.
Qed.

(** A cell that an element is in, changed through a pointer to it. *)
Lemma assign_element a live t p c v c' :
  table_ok hash a live t -> points t p v -> deref p (a, t) = (Returns c, (a, t)) ->
  cell_ok (table_state t) c' \/ p = ZeroValue -> isZero c' (table_state t) = isZero c (table_state t) -> key_of c' = key_of c ->
  exists t', assign p c' (a, t) = (Returns tt, (a, t')) /\ table_ok hash a live t' /\
    table_map t' = <[key_of c' := getValue c']> (table_map t) /\ points t' p (getValue c').
Proof.
  intros Ht Hp Hd Hc Hz Hk. pose proof Ht as [Hst [[Hdg Hl Hcs Hn] Hprob] Hown Hload Hsize Hz1 Hz2]. destruct p as [|i]; cbn [points] in Hp.
  - destruct Hp as [Hhz <-]. unfold deref, tget in Hd. rewrite bind_get in Hd. injection Hd as <-. exists (set_zero_value c' t). split; [done|].
    assert (contents (set_zero_value c' t) ≡ₚ getValue c' :: entries (table_state t) (cells t)) as Hcont'.
    { unfold contents, zero_entry. cbn [has_zero set_zero_value zero_value]. by rewrite Hhz. }
    assert (contents t ≡ₚ getValue (zero_value t) :: entries (table_state t) (cells t)) as Hcont by (unfold contents, zero_entry; by rewrite Hhz).
    split_and!; [| |done].
    + split; try done; [by rewrite Hcont'; rewrite Hcont in Hsize|]. intros Hneed. cbn [zero_value set_zero_value table_state]. rewrite Hk, Hz. by apply Hz1.
    + by apply (table_map_replace t _ (getValue (zero_value t)) (getValue c') (entries (table_state t) (cells t))); [eapply contents_nodup|..].
  - destruct Hp as (c0 & Hi & Ec & Zc & <-). rewrite (deref_at a t i c0 Hi Ec) in Hd. injection Hd as ->. destruct Hc as [Hc|]; [|done].
    exists (set_cells (<[Z.to_nat i := c']> (cells t)) t). split; [by apply (assign_at a t i c)|]. rewrite Zc in Hz. pose proof (lookup_lt_Some _ _ _ Ec) as Hlt.
    set (R := entries (table_state t) (delete (Z.to_nat i) (cells t))).
    assert (entries (table_state t) (cells t) ≡ₚ getValue c :: R) as HR by (rewrite (entries_split _ _ _ c Ec), entries_nonzero by done; done).
    assert (entries (table_state t) (<[Z.to_nat i := c']> (cells t)) ≡ₚ getValue c' :: R) as HR' by (rewrite (entries_insert _ _ _ c c' Ec), entries_nonzero by done; done).
    assert (contents t ≡ₚ getValue c :: (zero_entry t ++ R)) as Hcont by (unfold contents; rewrite HR; solve_Permutation).
    assert (contents (set_cells (<[Z.to_nat i := c']> (cells t)) t) ≡ₚ getValue c' :: (zero_entry t ++ R)) as Hcont'.
    { unfold contents. cbn [cells set_cells set_buf table_state]. rewrite HR'. change (zero_entry (set_cells _ t)) with (zero_entry t). solve_Permutation. }
    split_and!; [| |exists c'; split_and!; [done|by apply list_lookup_insert_eq|done|done]].
    + split; cbn [cells table_state set_cells set_buf size_degree m_size has_zero zero_value]; try done.
      * split; [split; [done|by rewrite length_insert|by apply Forall_insert|]|].
        { rewrite HR', fmap_cons. change (getKey (getValue c')) with (key_of c'). rewrite Hk. by rewrite HR, fmap_cons in Hn. }
        assert (forall j, view (table_state t) (<[Z.to_nat i := c']> (cells t)) j = view (table_state t) (cells t) j) as Hv.
        { intros j. rewrite view_insert by lia. unfold put. destruct (Z.eqb_spec j i) as [->|]; [|done]. by rewrite (view_cell _ _ i c), Hz, Zc, Hk. }
        intros j k E. rewrite Hv in E. intros l Hb. rewrite Hv. exact (Hprob j k E l Hb).
      * rewrite HR'. rewrite HR in Hload. done.
      * rewrite Hcont'. rewrite Hcont in Hsize. done.
    + by apply (table_map_replace t _ (getValue c) (getValue c') (zero_entry t ++ R)); [eapply contents_nodup|..].
Qed.

Lemma points_deref a live t p v :
  table_ok hash a live t -> points t p v ->
  exists c, deref p (a, t) = (Returns c, (a, t)) /\ getValue c = v /\ ((cell_ok (table_state t) c /\ isZero c (table_state t) = false) \/ p = ZeroValue).
Proof.
  intros Ht Hp. destruct p as [|i]; cbn [points] in Hp.
  - destruct Hp as [_ <-]. exists (zero_value t). split_and!; [done|done|by right].
  - destruct Hp as (c & Hi & Ec & Zc & <-). exists c. split_and!; [by apply deref_at|done|]. left. split; [|done].
    eapply list.Forall_lookup_1; [apply (ok_buffer _ _ _ _ Ht)|exact Ec].
Qed.

Lemma points_lookup a live t p v : table_ok hash a live t -> points t p v -> table_map t !! getKey v = Some v.
Proof. intros Ht Hp. apply (table_map_lookup hash _ _ _ _ _ Ht). split; [by eapply points_contents|done]. Qed.

(** The map after insert. *)
Definition insert_map (x : Value) (m : gmap Key Value) : gmap Key Value :=
  match m !! getKey x with Some _ => m | None => <[getKey x := x]> m end.

Lemma table_insert_spec a live t x :
  table_ok hash a live t ->
  match insert hash log2 initial_size_degree x (a, t) with
  | (Returns (p, inserted), w) => table_ok hash w.1 live w.2 /\ table_map w.2 = insert_map x (table_map t) /\
      inserted = bool_decide (table_map t !! getKey x = None) /\ exists v, points w.2 p v /\ getKey v = getKey x
  | (Throws e, w) => table_map t !! getKey x = None /\ unchanged a live t e w
  end.
Proof.
  intros Ht. unfold insert, insert_map. pose proof (emplace_spec a live t (getKey x) Ht) as He. unfold emplace in He. unfold mbind at 1, M_bind at 1.
  destruct (emplace_hash hash log2 initial_size_degree (getKey x) (hash (getKey x)) (a, t)) as [[[p ins]|e] [a' t']]; [|done].
  cbn [fst snd]. unfold emplaced in He. cbn [fst snd] in He. destruct He as [Ht' He]. destruct (table_map t !! getKey x) as [v|] eqn:Hx.
  - destruct He as (-> & [= -> ->] & Hp). rewrite bind_ret. split_and!; [done|done|done|]. exists v. split; [done|].
    pose proof (points_lookup _ _ _ _ _ Ht Hp) as Hv. apply (table_map_lookup hash _ _ _ _ _ Ht) in Hx. tauto.
  - destruct He as (-> & v & Hk & Hcont & Hp). destruct (points_deref _ _ _ _ _ Ht' Hp) as (c & Ed & Hv & Hc).
    rewrite bind_assoc, (bind_returns _ _ _ _ _ Ed). assert (getKey x = key_of c) as Hxk by (unfold key_of; congruence).
    destruct (assign_element a' live t' p c v (setMapped x c) Ht' Hp Ed) as (t2 & Ea & Ht2 & Hm & Hp2).
    + destruct Hc as [[H1 H2]|]; [left; by apply (setMapped_ok (hash := hash))|by right].
    + apply setMapped_isZero.
    + unfold key_of at 1. rewrite setMapped_value; congruence.
    + rewrite (bind_returns _ _ _ _ _ Ea). rewrite setMapped_value in Hm, Hp2 by done. split_and!; [done| |done|by exists x].
      cbn [fst snd]. rewrite Hm. unfold key_of. rewrite setMapped_value by done.
      rewrite (table_map_cons t t' v); [by rewrite Hk, insert_insert_eq| |done]. rewrite <- Hcont. by eapply contents_nodup.
Qed.

(** The table that an insertion by insertUniqueNonZero makes too full stays so
    when the allocator throws: the element is in it. *)
Lemma insertUniqueNonZero_spec a live t c :
  table_ok hash a live t -> cell_ok (table_state t) c -> isZero c (table_state t) = false -> table_map t !! key_of c = None ->
  match insertUniqueNonZero hash log2 initial_size_degree c (hash (key_of c)) (a, t) with
  | (Returns _, w) => table_ok hash w.1 live w.2 /\ table_map w.2 = <[key_of c := getValue c]> (table_map t)
  | (Throws e, w) => contents w.2 ≡ₚ getValue c :: contents t /\ owns w.1 live w.2 /\ size_degree w.2 = size_degree t /\
      exists old new, realloc_range (buf t) old new a = (Throws e, w.1)
  end.
Proof.
  intros Ht Hc Zc Hx. pose proof (degree_range _ _ _ _ Ht) as Hd. unfold insertUniqueNonZero, tget. rewrite bind_get. cbn [snd].
  pose proof (nonzero_key (table_state t) c Hc Zc) as Hk. destruct (search_spec hash _ _ _ (key_of c) Ht) as (p & c0 & E & Hp & Ec & Hf & Hc0).
  pose proof Ht as [Hst Hbuf Hown Hload Hsize Hz1 Hz2]. pose proof Hbuf as [[Hdg Hl Hcs Hn] _].
  assert (key_of c ∉ getKey <$> entries (table_state t) (cells t)) as Habs.
  { intros (v & Hv & Hin)%list_elem_of_fmap. rewrite (proj2 (nonzero_lookup hash _ _ _ _ v Ht Hk)) in Hx; done. }
  assert (isZero c0 (table_state t) = true) as Z0.
  { destruct (isZero c0 (table_state t)) eqn:Z0; [done|]. destruct Hc0 as [H1 H2]. destruct Habs. rewrite <- H1. unfold key_of. by apply list_elem_of_fmap_2. }
  assert (findEmptyCell (place (size_degree t) (hash (key_of c))) (a, t) = (Returns p, (a, t))) as Ee.
  { unfold findCell, tget in E. rewrite bind_get in E. unfold findEmptyCell, tget. rewrite bind_get. cbn [snd id] in E |- *.
    rewrite (findEmptyCell_loop_spec hash _ _ _ (key_of c)); try done.
    - intros i Ei. apply Habs, view_elem. by exists i.
    - apply home_in. lia. }
  rewrite (bind_returns _ _ _ _ _ Ee), (bind_returns _ _ _ _ _ (assign_at a t p c0 c ltac:(lia) Ec)). unfold tset. rewrite bind_modify. unfold tget. rewrite bind_get. cbn [fst snd].
  destruct (add_element a live t (key_of c) p c0 c Ht ltac:(lia) Ec Z0 Hf Habs Hc Zc eq_refl) as (Hbuf1 & Hcont & Hsz & Hent & _ & Hok1).
  set (t1 := set_m_size (m_size t +64 1) (set_cells (<[Z.to_nat p := c]> (cells t)) t)) in *.
  change (set_m_size (m_size (set_cells (<[Z.to_nat p := c]> (cells t)) t) +64 1) (set_cells (<[Z.to_nat p := c]> (cells t)) t)) with t1.
  assert (forall t', NoDup (getKey <$> contents t') -> contents t' ≡ₚ contents t1 -> table_map t' = <[key_of c := getValue c]> (table_map t)) as Hmap.
  { intros t' Hn' Hp'. rewrite Hcont in Hp'. apply table_map_cons; [by rewrite <- Hp'|done]. }
  destruct (overflow (size_degree t) (m_size t1)).
  - pose proof (resize_full a live t1 Hst Hbuf1 Hown Hent Hsz Hz1 Hz2) as Hr. destruct (resize _ _ _ 0 0 (a, t1)) as [[[]|e] [a' t']].
    + destruct Hr as (Ht' & Hperm & _). split; [done|]. apply Hmap; [by eapply contents_nodup|done].
    + destruct Hr as (-> & Hown' & Er). by split_and!.
  - split; [by apply Hok1|]. apply Hmap; [|done]. eapply contents_nodup. by apply Hok1.
Qed.

(** C13: The table grows in place: the two passes of resize over the cells, the
    second over those that wrapped around the end of the old buffer, make a
    table of the next size in which every element is found and no other, with
    the cells in memory that realloc may have moved; or the allocator throws
    and the table is as it was. *)
Theorem resize_in_place a live t :
  table_ok hash a live t ->
  match resize hash log2 initial_size_degree 0 0 (a, t) with
  | (Returns _, (a', t')) => table_ok hash a' live t' /\ size_degree t' = increaseSize (size_degree t) /\ contents t' ≡ₚ contents t /\
      forall k, exists p, find hash k (a', t') = (Returns p, (a', t')) /\
        match table_map t !! k with Some v => points t' p v /\ p <> hash_end t' | None => p = hash_end t' end
  | (Throws e, (a', t')) => t' = t /\ table_ok hash a' live t /\ exists old new, realloc_range (buf t) old new a = (Throws e, a')
  end.
Proof.
  intros Ht. destruct Ht as [Hst Hbuf Hown Hload Hm Hz1 Hz2] eqn:Et. clear Et. pose proof (resize_full a live t Hst Hbuf Hown ltac:(lia) Hm Hz1 Hz2) as Hr.
  destruct (resize hash log2 initial_size_degree 0 0 (a, t)) as [[u|e] [a' t']].
  - destruct Hr as (Ht' & Hp & Hd). split_and!; [done|done|done|]. intros k. rewrite <- (table_map_perm t t' (contents_nodup hash _ _ _ Ht) Hp). by eapply table_find_spec.
  - destruct Hr as (-> & Hown' & Hr). split_and!; [done|by split|done].
Qed.
End Inserting.

(** ** Iterating, constructing and clearing *)

Section Iterating.
Context {Key Value State C A : Type} `{Countable Key} `{I : !Cell Key Value State C} `{LA : AllocatorLaws A}.
Context (hash : Key -> Z) `{L : !CellLaws hash I} `{G : Grower} (log2 : Z -> Z) (initial_size_degree : Z).
Implicit Types (t : HashTable C State) (a : A) (live : list (Z * Z)).

Lemma entries_drop_cons st (b : list C) i c : b !! i = Some c -> entries st (drop i b) = entries st [c] ++ entries st (drop (S i) b).
Proof. intros E. by rewrite (drop_S b c i E), <- entries_app. Qed.

(** The first element from a place on. *)
Lemma skip_empty_spec t fuel i :
  1 <= size_degree t <= 48 -> Z.of_nat (length (cells t)) = 2 ^ size_degree t -> 0 <= i <= 2 ^ size_degree t -> 2 ^ size_degree t - i < Z.of_nat fuel ->
  exists j, skip_empty fuel t i = Returns (At j) /\ i <= j <= 2 ^ size_degree t /\
    entries (table_state t) (drop (Z.to_nat i) (cells t)) = entries (table_state t) (drop (Z.to_nat j) (cells t)) /\
    (j < 2 ^ size_degree t -> exists c, cells t !! Z.to_nat j = Some c /\ isZero c (table_state t) = false).
Proof.
  intros Hd Hl. revert i. induction fuel as [|fuel IH]; intros i Hi Hf; [lia|]. cbn [skip_empty]. rewrite bufSize_pow by lia.
  destruct (Z.ltb_spec i (2 ^ size_degree t)) as [Hlt|Hge]; [|exists i; split_and!; [done|lia|lia|done|lia]].
  destruct (nth_cell_in (cells t) i) as (c & En & Ec); [lia|]. rewrite En. unfold mbind, outcome_bind. destruct (isZero c (table_state t)) eqn:Zc.
  - destruct (IH (i + 1)) as (j & Ej & Hj & Eent & Hc); [lia|lia|]. exists j. split_and!; [done|lia|lia| |done].
    rewrite <- Eent, (entries_drop_cons _ _ _ c Ec), entries_zero by done. cbn [app]. do 2 f_equal. lia.
  - exists i. split_and!; [done|lia|lia|done|]. intros _. by exists c.
Qed.

Lemma iterate_step a t fuel p :
  iterate (S fuel) p (a, t) =
  (if bool_decide (p = hash_end t) then mret [] else c ← deref p; p' ← next_ptr p; l ← iterate fuel p'; mret (c :: l)) (a, t).
Proof. reflexivity. Qed.

Lemma iterate_spec a live t fuel i :
  table_ok hash a live t -> 0 <= i <= 2 ^ size_degree t -> 2 ^ size_degree t - i < Z.of_nat fuel ->
  (i < 2 ^ size_degree t -> exists c, cells t !! Z.to_nat i = Some c /\ isZero c (table_state t) = false) ->
  exists l, iterate fuel (At i) (a, t) = (Returns l, (a, t)) /\ getValue <$> l = entries (table_state t) (drop (Z.to_nat i) (cells t)) /\
    Forall (fun c => c ∈ cells t /\ isZero c (table_state t) = false) l.
Proof.
  intros Ht. pose proof (degree_range _ _ _ _ Ht) as Hd. pose proof (ok_buffer _ _ _ _ Ht) as [[_ Hl _ _] _].
  revert i. induction fuel as [|fuel IH]; intros i Hi Hf Hc; [lia|]. rewrite iterate_step. unfold hash_end. rewrite bufSize_pow by lia.
  case_bool_decide as E.
  - injection E as ->. exists []. split_and!; [done|by rewrite drop_ge by lia|constructor].
  - assert (i < 2 ^ size_degree t) as Hlt by (destruct (Z.eq_dec i (2 ^ size_degree t)); [congruence|lia]). destruct (Hc Hlt) as (c & Ec & Zc).
    rewrite (bind_returns _ _ _ _ _ (deref_at a t i c ltac:(lia) Ec)). unfold next_ptr, tget. rewrite bind_assoc, bind_get, bind_assoc. cbn [snd id].
    rewrite (bind_returns _ _ _ _ _ (deref_at a t i c ltac:(lia) Ec)), Zc, bind_assoc, bind_ret.
    destruct (skip_empty_spec t (S (length (cells t))) (i + 1) Hd Hl ltac:(lia) ltac:(lia)) as (j & Ej & Hj & Eent & Hcj). rewrite Ej, bind_lift.
    destruct (IH j) as (l & El & Hel & Hin); [lia|lia|done|]. rewrite (bind_returns _ _ _ _ _ El). exists (c :: l).
    split_and!; [done| |constructor; [split; [by eapply list_elem_of_lookup_2|done]|done]]. cbn [fmap list_fmap]. rewrite Hel, <- Eent.
    rewrite (entries_drop_cons _ _ _ c Ec), entries_nonzero by done. cbn [app]. do 3 f_equal. lia.
Qed.

(** The cells of the elements, that of the zero key first. *)
Lemma for_each_cells a live t :
  table_ok hash a live t ->
  exists l, for_each (a, t) = (Returns ((if has_zero t then [zero_value t] else []) ++ l), (a, t)) /\ getValue <$> l = entries (table_state t) (cells t) /\
    Forall (fun c => c ∈ cells t /\ isZero c (table_state t) = false) l.
Proof.
  intros Ht. pose proof (degree_range _ _ _ _ Ht) as Hd. pose proof (ok_buffer _ _ _ _ Ht) as [[_ Hl _ _] _]. destruct (ok_owns _ _ _ _ Ht) as (_ & _ & Hb).
  destruct (skip_empty_spec t (S (length (cells t))) 0 Hd Hl ltac:(lia) ltac:(lia)) as (j & Ej & Hj & Eent & Hcj). change (drop (Z.to_nat 0) (cells t)) with (cells t) in Eent.
  unfold for_each, begin, tget. rewrite bind_assoc, bind_get. cbn [snd id]. rewrite (proj2 (Z.eqb_neq (buf t) 0) Hb).
  destruct (has_zero t) eqn:Ez.
  - rewrite bind_ret, bind_get. cbn [snd]. rewrite iterate_step, bool_decide_false by done.
    assert (deref ZeroValue (a, t) = (Returns (zero_value t), (a, t))) as Ed by done. rewrite (bind_returns _ _ _ _ _ Ed). unfold next_ptr, tget. rewrite bind_assoc, bind_get, bind_assoc. cbn [snd id].
    rewrite (bind_returns _ _ _ _ _ Ed), bind_assoc. destruct (ok_zero_cell _ _ _ _ Ht (ok_zero _ _ _ _ Ht Ez)) as [_ ->]. rewrite bind_ret, Ej, bind_lift.
    destruct (iterate_spec a live t (S (length (cells t))) j Ht) as (l & El & Hel & Hin); [lia|lia|done|]. rewrite (bind_returns _ _ _ _ _ El).
    exists l. split_and!; [done|by rewrite Hel, Eent|done].
  - rewrite Ej, bind_lift, bind_get. cbn [snd]. destruct (iterate_spec a live t (S (S (length (cells t)))) j Ht) as (l & El & Hel & Hin); [lia|lia|done|].
    exists l. split_and!; [done|by rewrite Hel, Eent|done].
Qed.

Lemma for_each_spec a live t : table_ok hash a live t -> exists l, for_each (a, t) = (Returns l, (a, t)) /\ getValue <$> l = contents t.
Proof.
  intros Ht. destruct (for_each_cells a live t Ht) as (l & E & Hl & _). eexists. split; [exact E|]. rewrite fmap_app, Hl. unfold contents, zero_entry. by destruct (has_zero t).
Qed.

(** An empty table of the degree [d]. *)
Lemma fresh_ok a live t p d :
  state_ok (table_state t) -> 1 <= d -> d < 64 -> m_size t = 0 -> has_zero t = false ->
  (need_zero_value_storage = true -> isZero_key (key_of (zero_value t)) (table_state t) = true /\ isZero (zero_value t) (table_state t) = true) ->
  alloc_inv a ((p, bytes_of d) :: live) -> p <> 0 -> bytes_of d <= 2 ^ 48 ->
  let t' := set_grower d (set_buf p (replicate (Z.to_nat (2 ^ d)) zeroed) t) in table_ok hash a live t' /\ table_map t' = ∅.
Proof.
  intros Hst Hd1 Hd2 Hm Hz Hzc Hinv Hp H48 t'. pose proof (degree_bytes hash d ltac:(lia) H48) as Hd. destruct (zeroed_ok _ Hst) as [Z1 Z2].
  assert (entries (table_state t) (replicate (Z.to_nat (2 ^ d)) zeroed) = []) as He by (by apply entries_replicate).
  assert (contents t' = []) as Hcont by (unfold contents, zero_entry, t'; cbn [has_zero cells table_state set_grower set_buf]; by rewrite Hz, He).
  split; [|by unfold table_map; rewrite Hcont]. pose proof (Z.pow_pos_nonneg 2 d ltac:(lia) ltac:(lia)).
  split; cbn [cells table_state t' set_grower set_buf size_degree m_size has_zero zero_value]; try done.
  - split; [split; [lia|rewrite length_replicate; lia|by apply Forall_replicate|rewrite He; apply NoDup_nil_2]|].
    intros j k (c & _ & Ec & Zc & _)%view_Some. apply lookup_replicate in Ec as [-> _]. congruence.
  - rewrite He. pose proof (Z.pow_nonneg 2 (d - 1) ltac:(lia)). cbn [length]. lia.
  - change (m_size t') with (m_size t). by rewrite Hcont, Hm.
  - congruence.
Qed.

Lemma table_alloc_spec a live t d :
  alloc_inv a live -> state_ok (table_state t) -> 1 <= d < 64 -> bytes_of d < 2 ^ 60 -> m_size t = 0 -> has_zero t = false ->
  (need_zero_value_storage = true -> isZero_key (key_of (zero_value t)) (table_state t) = true /\ isZero (zero_value t) (table_state t) = true) ->
  match alloc d (a, t) with
  | (Returns _, (a', t')) => table_ok hash a' live t' /\ table_map t' = ∅ /\ table_state t' = table_state t
  | (Throws e, (a', t')) => t' = t /\ alloc_inv a' live /\ alloc_range (bytes_of d) a = (Throws e, a')
  end.
Proof.
  intros Hinv Hst Hd Hb Hm Hz Hzc. unfold alloc, on_allocator, zoom. rewrite (bytes_of_size hash) by lia. unfold mbind at 1, M_bind at 1. cbn [fst snd].
  pose proof (sizeof_pos (hash := hash)). pose proof (Z.pow_pos_nonneg 2 d ltac:(lia) ltac:(lia)).
  pose proof (alloc_range_ok a live (bytes_of d) Hinv ltac:(split; [unfold bytes_of; nia|done])) as Ha.
  destruct (alloc_range (bytes_of d) a) as [[p|e] a']; cbn [fst snd]; [|done]. destruct Ha as (Hinv' & Hp & H48).
  unfold tset. rewrite bind_modify. unfold modify. cbn [fst snd]. replace (bytes_of d / sizeof_Cell) with (2 ^ d) by (symmetry; apply Z.div_mul; lia).
  destruct (fresh_ok a' live t p d Hst ltac:(lia) ltac:(lia) Hm Hz Hzc Hinv' Hp H48) as [Hok Hmap]. by split_and!.
Qed.

Lemma fresh_table_zero garbage st d :
  need_zero_value_storage = true -> isZero_key (key_of (zero_value (fresh_table garbage st d))) st = true /\ isZero (zero_value (fresh_table garbage st d)) st = true.
Proof. intros Hn. unfold fresh_table. cbn [zero_value]. rewrite Hn. by apply zero_storage. Qed.

(** The constructor. *)
Lemma HashTable_new_spec a live t garbage st :
  alloc_inv a live -> state_ok st -> 1 <= initial_size_degree < 64 -> bytes_of initial_size_degree < 2 ^ 60 ->
  match HashTable_new initial_size_degree garbage st (a, t) with
  | (Returns _, (a', t')) => table_ok hash a' live t' /\ table_map t' = ∅ /\ table_state t' = st
  | (Throws e, (a', _)) => alloc_inv a' live /\ alloc_range (bytes_of initial_size_degree) a = (Throws e, a')
  end.
Proof.
  intros Hinv Hst Hd Hb. unfold HashTable_new, tset. rewrite bind_modify. cbn [fst snd].
  pose proof (table_alloc_spec a live (fresh_table garbage st initial_size_degree) initial_size_degree Hinv Hst Hd Hb eq_refl eq_refl (fresh_table_zero _ _ _)) as Ha.
  destruct (alloc initial_size_degree _) as [[[]|e] [a' t']]; [done|]. destruct Ha as (_ & H1 & H2). by split.
Qed.

Lemma clear_spec a live t :
  table_ok hash a live t -> exists t', clear (a, t) = (Returns tt, (a, t')) /\ table_ok hash a live t' /\ table_map t' = ∅ /\ table_state t' = table_state t.
Proof.
  intros Ht. pose proof (degree_range _ _ _ _ Ht) as Hd. pose proof Ht as [Hst [[Hdg Hl _ _] _] (Hinv & H48 & Hb) _ _ Hz1 Hz2].
  unfold clear, tset, tget. rewrite bind_modify, bind_get. cbn [fst snd id buf set_m_size set_has_zero]. rewrite (proj2 (Z.eqb_neq (buf t) 0) Hb). eexists. split; [reflexivity|].
  destruct (fresh_ok a live (set_m_size 0 (set_has_zero false t)) (buf t) (size_degree t) Hst ltac:(lia) ltac:(lia) eq_refl eq_refl Hz1 Hinv Hb H48) as [Hok Hmap].
  rewrite <- Hl, Nat2Z.id in Hok, Hmap. by split_and!.
Qed.

Lemma clearAndShrink_spec a live t :
  table_ok hash a live t -> exists a' t', clearAndShrink (a, t) = (Returns tt, (a', t')) /\ alloc_inv a' live /\ m_size t' = 0 /\ begin (a', t') = (Returns (hash_end t'), (a', t')).
Proof.
  intros Ht. pose proof (degree_range _ _ _ _ Ht) as Hd. destruct (ok_owns _ _ _ _ Ht) as (Hinv & H48 & Hb). unfold clearAndShrink, free, tset, tget.
  rewrite bind_modify, bind_get. cbn [fst snd id buf set_m_size set_has_zero]. rewrite (proj2 (Z.eqb_neq (buf t) 0) Hb). cbn [negb].
  unfold getBufferSizeInBytes. cbn [size_degree set_m_size set_has_zero]. rewrite (bytes_of_size hash) by (change (2 ^ 48) with 281474976710656 in H48; lia).
  destruct (free_range_ok a live _ _ Hinv) as (a' & Ef & Hinv'). unfold on_allocator, zoom. unfold mbind at 1, M_bind at 1. cbn [fst snd]. rewrite Ef. cbn [fst snd].
  eexists a', _. split; [reflexivity|]. by split_and!.
Qed.
(** The number of elements. *)
Lemma contents_bound a live t : table_ok hash a live t -> Z.of_nat (length (contents t)) <= 2 ^ 47 + 1 /\ 4 * Z.of_nat (length (contents t)) * sizeof_Cell < 2 ^ 60.
Proof.
  intros Ht. pose proof (degree_range _ _ _ _ Ht) as Hd. pose proof (ok_load _ _ _ _ Ht) as Hl. destruct (ok_owns _ _ _ _ Ht) as (_ & H48 & _). pose proof (sizeof_pos (hash := hash)) as Hs.
  unfold contents. rewrite length_app. assert (length (zero_entry t) <= 1)%nat by (unfold zero_entry; destruct (has_zero t); cbn; lia). unfold bytes_of in H48.
  replace (size_degree t) with (1 + (size_degree t - 1)) in H48 by lia. rewrite Z.pow_add_r in H48 by lia. assert (1 <= 2 ^ (size_degree t - 1)) by (apply (Z.pow_le_mono_r 2 0); lia).
  assert (2 ^ (size_degree t - 1) <= 2 ^ 47) by (apply Z.pow_le_mono_r; lia). change (2 ^ 1) with 2 in H48. change (2 ^ 47) with 140737488355328 in *. change (2 ^ 48) with 281474976710656 in *.
  change (2 ^ 60) with 1152921504606846976. split; [lia|]. nia.
Qed.

End Iterating.
