(* ===== verification/HashMaps.v ===== *)
(** * HashMap, HashSet and the clearable tables

    The classes derived from HashTable: HashMapTable::operator[]
    (dbms/src/Common/HashTable/HashMap.h), HashSetTable::merge (HashSet.h) and
    the clear of the tables with a version (ClearableHashSet.h,
    ClearableHashMap.h).  The operations of the base class are shown to refine
    those of a finite map for any sequence of calls and any allocator
    ([hash_table_refines]); counting with a map counts ([map_counts]); merging
    sets is their union ([set_merge]). *)

From stdpp Require Import base list option numbers gmap.
From Stdlib Require Import ZArith Lia.
From S2P Require Import Prelude IOMonad MemoryTracker Allocators Hash LinearProbing HashTableCells HashTable HashTableProofs HashTableMap.

#[local] Open Scope Z_scope.
#[local] Open Scope word_scope.

(** ** Operations *)

Section Maps.
Context {Key Mapped State C A : Type} `{I : !Cell Key (PairNoInit Key Mapped) State C} `{!Allocator A}.
Context (hash : Key -> Z) `{G : Grower} (log2 : Z -> Z) (initial_size_degree : Z).

(** HashMapTable::operator[], which is also ClearableHashMap::operator[].  The
    result is the reference to the mapped value; [mapped_type()] is
    [zero_mapped]. *)
Definition subscript (zero_mapped : Mapped) (x : Key) : M (world (C := C) (State := State) (A := A)) cell_ptr :=
  r ← emplace hash log2 initial_size_degree x;
  _ ← (if (r.2 : bool) then c ← deref r.1; assign r.1 (setMapped (Pair (key_of c) zero_mapped) c) else mret tt);
  mret r.1.

(** A change of the mapped value that a reference refers to. *)
Definition update_mapped (f : Mapped -> Mapped) (p : cell_ptr) : M (world (C := C) (State := State) (A := A)) unit :=
  c ← deref p;
  assign p (setMapped (Pair (key_of c) (f (second (getValue c)))) c).
End Maps.

(** HashSetTable::merge *)
Section Sets.
Context {Key State C A : Type} `{I : !Cell Key Key State C} `{!Allocator A}.
Context (hash : Key -> Z) `{G : Grower} (log2 : Z -> Z) (initial_size_degree : Z).

Fixpoint merge_cells (b : list C) : M (world (C := C) (State := State) (A := A)) unit :=
  match b with
  | [] => mret tt
  | c :: b' =>
      st ← tget table_state;
      _ ← (if negb (isZero c st) then _ ← insert hash log2 initial_size_degree (getKey (getValue c)); mret tt else mret tt);
      merge_cells b'
  end.

Definition merge (rhs : HashTable C State) : M world unit :=
  z ← tget has_zero;
  _ ← (if negb z && has_zero rhs then _ ← setHasZero; tset (fun t => set_m_size (m_size t +64 1) t) else mret tt);
  merge_cells (cells rhs).
End Sets.

(** ClearableHashSet::clear, ClearableHashSetWithSavedHash::clear and
    ClearableHashMap::clear *)
Definition clear_version {C A : Type} : M (A * HashTable (ClearableHashTableCell C) ClearableHashSetState) unit :=
  modify (fun w => (w.1, set_m_size 0 (set_table_state (Clearable (wrap 32 (state_version (table_state w.2) + 1))) w.2))).

(** ** The table refines a map *)

Section Refinement.
Context {Key Value State C A : Type} `{Countable Key} `{I : !Cell Key Value State C} `{LA : AllocatorLaws A}.
Context (hash : Key -> Z) `{L : !CellLaws hash I} `{G : Grower} (log2 : Z -> Z) (initial_size_degree : Z).
Implicit Types (t : HashTable C State) (a : A) (live : list (Z * Z)) (m : gmap Key Value).

Inductive call := Insert (x : Value) | Find (k : Key) | Has (k : Key) | Size | Elements | Clear.

Inductive answer := Inserted (b : bool) | Failed (e : error) | Found (v : option Value) | Told (b : bool) | Count (n : Z) | Listed (l : list Value) | Done.

Definition run_call (o : call) : M world answer :=
  match o with
  | Insert x => try_catch (r ← insert hash log2 initial_size_degree x; mret (Inserted r.2)) (fun e => mret (Failed e))
  | Find k =>
      p ← find hash k;
      t ← tget id;
      if bool_decide (p = hash_end t) then mret (Found None) else c ← deref p; mret (Found (Some (getValue c)))
  | Has k => b ← has hash k; mret (Told b)
  | Size => n ← tget size; mret (Count n)
  | Elements => l ← for_each; mret (Listed (getValue <$> l))
  | Clear => _ ← clear; mret Done
  end.

Fixpoint run_calls (l : list call) : M world (list answer) :=
  match l with
  | [] => mret []
  | o :: l' => r ← run_call o; rs ← run_calls l'; mret (r :: rs)
  end.

(** The same calls on a map.  An insertion of a new key can fail, with an
    error of the allocator, and then does nothing. *)
Definition allocator_error (e : error) : Prop := exists (a a' : A) p old new, realloc_range p old new a = (Throws e, a').

Inductive map_call : call -> gmap Key Value -> answer -> gmap Key Value -> Prop :=
| map_insert_new x m : m !! getKey x = None -> map_call (Insert x) m (Inserted true) (<[getKey x := x]> m)
| map_insert_old x m v : m !! getKey x = Some v -> map_call (Insert x) m (Inserted false) m
| map_insert_fails x m e : m !! getKey x = None -> allocator_error e -> map_call (Insert x) m (Failed e) m
| map_find k m : map_call (Find k) m (Found (m !! k)) m
| map_has k m : map_call (Has k) m (Told (bool_decide (is_Some (m !! k)))) m
| map_size m : map_call Size m (Count (Z.of_nat (stdpp.base.size m))) m
| map_elements m l : (fun v => (getKey v, v)) <$> l ≡ₚ map_to_list m -> map_call Elements m (Listed l) m
| map_clear m : map_call Clear m Done ∅.

Inductive map_calls : list call -> gmap Key Value -> list answer -> gmap Key Value -> Prop :=
| map_calls_nil m : map_calls [] m [] m
| map_calls_cons o l m r m' rs m'' : map_call o m r m' -> map_calls l m' rs m'' -> map_calls (o :: l) m (r :: rs) m''.

Lemma contents_map a live t : table_ok hash a live t -> (fun v => (getKey v, v)) <$> contents t ≡ₚ map_to_list (table_map t).
Proof. intros Ht. unfold table_map. rewrite map_to_list_to_map; [done|]. rewrite table_map_keys. by eapply contents_nodup. Qed.

Lemma contents_size a live t : table_ok hash a live t -> m_size t = Z.of_nat (stdpp.base.size (table_map t)).
Proof.
  intros Ht. rewrite (ok_size _ _ _ _ Ht). f_equal. rewrite <- length_map_to_list, <- (contents_map a live t Ht). by rewrite length_fmap.
Qed.

Lemma run_call_spec a live t o :
  table_ok hash a live t ->
  exists r a' t', run_call o (a, t) = (Returns r, (a', t')) /\ table_ok hash a' live t' /\ map_call o (table_map t) r (table_map t').
Proof.
  intros Ht. destruct o as [x|k|k| | |]; cbn [run_call].
  - pose proof (table_insert_spec hash log2 initial_size_degree a live t x Ht) as Hi. unfold try_catch. unfold mbind, M_bind.
    destruct (insert _ _ _ x (a, t)) as [[[p ins]|e] [a' t']]; cbn [fst snd] in *.
    + destruct Hi as (Ht' & Hm & -> & _). eexists _, a', t'. split; [reflexivity|]. split; [done|]. rewrite Hm. unfold insert_map. cbn [snd].
      destruct (table_map t !! getKey x) eqn:E; [by eapply map_insert_old|by apply map_insert_new].
    + destruct Hi as (Hnew & Ht' & Hm & old & new & Er). cbn [fst snd] in *. eexists _, a', t'. split; [reflexivity|]. split; [done|]. rewrite Hm. apply map_insert_fails; [done|].
      by exists a, a', (buf t), old, new.
  - destruct (table_find_spec hash a live t k Ht) as (p & E & Hp). rewrite (bind_returns _ _ _ _ _ E). unfold tget. rewrite bind_get. cbn [snd id].
    exists (Found (table_map t !! k)), a, t. split_and!; [|done|apply map_find]. destruct (table_map t !! k) as [v|].
    + destruct Hp as [Hp Hne]. rewrite bool_decide_false by done. destruct (points_deref hash a live t p v Ht Hp) as (c & Ed & <- & _). by rewrite (bind_returns _ _ _ _ _ Ed).
    + by rewrite bool_decide_true.
  - rewrite (bind_returns _ _ _ _ _ (has_spec hash a live t k Ht)). eexists _, a, t. split_and!; [reflexivity|done|apply map_has].
  - eexists _, a, t. split_and!; [reflexivity|done|]. change (map_call Size (table_map t) (Count (m_size t)) (table_map t)). rewrite (contents_size a live t Ht). apply map_size.
  - destruct (for_each_spec hash a live t Ht) as (l & E & Hl). rewrite (bind_returns _ _ _ _ _ E). eexists _, a, t. split_and!; [reflexivity|done|]. rewrite Hl.
    apply map_elements. by eapply contents_map.
  - destruct (clear_spec hash a live t Ht) as (t' & E & Ht' & Hm & _). rewrite (bind_returns _ _ _ _ _ E). eexists _, a, t'. split_and!; [reflexivity|done|]. rewrite Hm. apply map_clear.
Qed.

Lemma run_calls_spec live l : forall a t,
  table_ok hash a live t ->
  exists rs a' t', run_calls l (a, t) = (Returns rs, (a', t')) /\ table_ok hash a' live t' /\ map_calls l (table_map t) rs (table_map t').
Proof.
  induction l as [|o l IH]; intros a t Ht; cbn [run_calls].
  - exists [], a, t. split_and!; [done|done|constructor].
  - destruct (run_call_spec a live t o Ht) as (r & a1 & t1 & E1 & Ht1 & M1). rewrite (bind_returns _ _ _ _ _ E1).
    destruct (IH a1 t1 Ht1) as (rs & a2 & t2 & E2 & Ht2 & M2). rewrite (bind_returns _ _ _ _ _ E2). exists (r :: rs), a2, t2. split_and!; [done|done|]. by econstructor.
Qed.

(** C4: A hash table refines a finite map.  It is constructed, or the
    allocator throws and nothing is kept; then any sequence of insertions,
    searches, iterations and clearings returns, and gives the answers of the
    map, where an insertion of a new key may fail with an error of the
    allocator and then changes nothing; in the end clearAndShrink gives the
    memory back.  This holds for all cells and allocators that keep their
    laws, all hash functions and all sizes. *)
Theorem hash_table_refines a live t garbage st l :
  alloc_inv a live -> state_ok st -> 1 <= initial_size_degree < 64 -> bytes_of (I := I) initial_size_degree < 2 ^ 60 ->
  match HashTable_new initial_size_degree garbage st (a, t) with
  | (Returns _, w) => exists rs a1 t1 a2 t2, run_calls l w = (Returns rs, (a1, t1)) /\ map_calls l ∅ rs (table_map t1) /\
      clearAndShrink (a1, t1) = (Returns tt, (a2, t2)) /\ alloc_inv a2 live
  | (Throws e, (a', _)) => alloc_inv a' live /\ alloc_range (bytes_of initial_size_degree) a = (Throws e, a')
  end.
Proof.
  intros Hinv Hst Hd Hb. pose proof (HashTable_new_spec hash initial_size_degree a live t garbage st Hinv Hst Hd Hb) as Hn.
  destruct (HashTable_new initial_size_degree garbage st (a, t)) as [[u|e] [a1 t1]]; [|done]. destruct Hn as (Ht & Hm & _).
  destruct (run_calls_spec live l a1 t1 Ht) as (rs & a2 & t2 & E & Ht2 & Hl). destruct (clearAndShrink_spec hash a2 live t2 Ht2) as (a3 & t3 & Ec & Hinv3 & _).
  exists rs, a2, t2, a3, t3. rewrite Hm in Hl. by split_and!.
Qed.
End Refinement.

(** ** HashMap *)

Section MapProofs.
Context {Key Mapped State C A : Type} `{Countable Key} `{I : !Cell Key (PairNoInit Key Mapped) State C} `{LA : AllocatorLaws A}.
Context (hash : Key -> Z) `{L : !CellLaws hash I} `{G : Grower} (log2 : Z -> Z) (initial_size_degree : Z).
Context (getKey_first : forall x : PairNoInit Key Mapped, getKey x = first x).
Implicit Types (t : HashTable C State) (a : A) (live : list (Z * Z)).

(** The mapped values. *)
Definition mapped_map t : gmap Key Mapped := second <$> table_map t.

Lemma mapped_key a live t k v : table_ok hash a live t -> table_map t !! k = Some v -> first v = k.
Proof. intros Ht E. apply (table_map_lookup hash _ _ _ _ _ Ht) in E as [_ <-]. by rewrite getKey_first. Qed.

(** Writing a mapped value through a reference. *)
Lemma write_mapped a live t p v c f :
  table_ok hash a live t -> points t p v -> deref p (a, t) = (Returns c, (a, t)) -> getValue c = v ->
  ((cell_ok (table_state t) c /\ isZero c (table_state t) = false) \/ p = ZeroValue) ->
  exists t', assign p (setMapped (Pair (key_of c) f) c) (a, t) = (Returns tt, (a, t')) /\ table_ok hash a live t' /\
    mapped_map t' = <[first v := f]> (mapped_map t) /\ points t' p (Pair (first v) f).
Proof.
  intros Ht Hp Ed <- Hc. set (x := Pair (key_of c) f). assert (getKey x = key_of c) as Hx by (by rewrite getKey_first).
  assert (key_of c = first (getValue c)) as Hk by (unfold key_of; apply getKey_first).
  destruct (assign_element hash a live t p c (getValue c) (setMapped x c) Ht Hp Ed) as (t' & Ea & Ht' & Hm & Hp').
  - destruct Hc as [[H1 H2]|]; [left; by apply (setMapped_ok (hash := hash))|by right].
  - apply setMapped_isZero.
  - unfold key_of at 1. by rewrite setMapped_value.
  - exists t'. rewrite setMapped_value in Hm, Hp' by done. split_and!; [done|done| |by rewrite <- Hk].
    unfold mapped_map. rewrite Hm, fmap_insert. unfold key_of. rewrite setMapped_value by done. rewrite Hx, Hk. done.
Qed.

Lemma subscript_spec a live t zm x :
  table_ok hash a live t ->
  match subscript hash log2 initial_size_degree zm x (a, t) with
  | (Returns p, w) => table_ok hash w.1 live w.2 /\ mapped_map w.2 = (match mapped_map t !! x with Some _ => mapped_map t | None => <[x := zm]> (mapped_map t) end) /\
      exists v, points w.2 p v /\ first v = x
  | (Throws e, w) => unchanged hash a live t e w
  end.
Proof.
  intros Ht. unfold subscript. pose proof (emplace_spec hash log2 initial_size_degree a live t x Ht) as He. unfold mbind at 1, M_bind at 1.
  destruct (emplace hash log2 initial_size_degree x (a, t)) as [[[p ins]|e] [a' t']]; [|apply He]. unfold emplaced in He. cbn [fst snd] in *. destruct He as [Ht' He].
  unfold mapped_map at 2 3 4. rewrite lookup_fmap. destruct (table_map t !! x) as [v|] eqn:Ex; cbn [fmap option_fmap option_map].
  - destruct He as (-> & [= -> ->] & Hp). rewrite bind_ret. split_and!; [done|done|]. exists v. split; [done|]. by eapply mapped_key.
  - destruct He as (-> & v & Hk & Hcont & Hp). rewrite getKey_first in Hk. destruct (points_deref hash _ _ _ _ _ Ht' Hp) as (c & Ed & Hv & Hc).
    rewrite bind_assoc, (bind_returns _ _ _ _ _ Ed). destruct (write_mapped a' live t' p v c zm Ht' Hp Ed Hv Hc) as (t2 & Ea & Ht2 & Hm & Hp2).
    rewrite (bind_returns _ _ _ _ _ Ea). split_and!; [done| |by exists (Pair (first v) zm)]. cbn [snd]. rewrite Hm, Hk. unfold mapped_map.
    rewrite (table_map_cons t t' v); [|rewrite <- Hcont; by eapply contents_nodup|done]. rewrite fmap_insert, getKey_first, Hk. by rewrite insert_insert_eq.
Qed.

Lemma update_mapped_spec a live t p v f :
  table_ok hash a live t -> points t p v ->
  exists t', update_mapped f p (a, t) = (Returns tt, (a, t')) /\ table_ok hash a live t' /\ mapped_map t' = <[first v := f (second v)]> (mapped_map t).
Proof.
  intros Ht Hp. destruct (points_deref hash _ _ _ _ _ Ht Hp) as (c & Ed & Hv & Hc). unfold update_mapped. rewrite (bind_returns _ _ _ _ _ Ed). rewrite Hv.
  destruct (write_mapped a live t p v c (f (second v)) Ht Hp Ed Hv Hc) as (t' & Ea & Ht' & Hm & _). by exists t'.
Qed.
End MapProofs.

(** *** Counting: for (x : keys) ++map[x] *)

Section Counting.
Context {Key State C A : Type} `{Countable Key} `{I : !Cell Key (PairNoInit Key Z) State C} `{LA : AllocatorLaws A}.
Context (hash : Key -> Z) `{L : !CellLaws hash I} `{G : Grower} (log2 : Z -> Z) (initial_size_degree : Z).
Context (getKey_first : forall x : PairNoInit Key Z, getKey x = first x).
Implicit Types (t : HashTable C State) (a : A) (live : list (Z * Z)).

Fixpoint count_keys (l : list Key) : M (world (C := C) (State := State) (A := A)) unit :=
  match l with
  | [] => mret tt
  | x :: l' =>
      p ← subscript hash log2 initial_size_degree 0 x;
      _ ← update_mapped (fun n => n +64 1) p;
      count_keys l'
  end.

Definition occurrences (k : Key) (l : list Key) : Z := Z.of_nat (length (filter (fun x => x = k) l)).

Lemma count_keys_spec live l : forall a t,
  table_ok hash a live t ->
  match count_keys l (a, t) with
  | (Returns _, w) => table_ok hash w.1 live w.2 /\
      forall k, mapped_map w.2 !! k = if bool_decide (k ∈ l) then Some (wrap 64 (default 0 (mapped_map t !! k) + occurrences k l)) else mapped_map t !! k
  | (Throws e, w) => table_ok hash w.1 live w.2 /\ allocator_error (A := A) e
  end.
Proof.
  induction l as [|x l IH]; intros a t Ht; cbn [count_keys].
  { split; [done|]. intros k. by rewrite bool_decide_false by apply not_elem_of_nil. }
  pose proof (subscript_spec hash log2 initial_size_degree getKey_first a live t 0 x Ht) as Hs. unfold mbind at 1, M_bind at 1.
  destruct (subscript hash log2 initial_size_degree 0 x (a, t)) as [[p|e] [a1 t1]]; cbn [fst snd] in *.
  2: { destruct Hs as (Ht1 & _ & old & new & Er). split; [done|]. by exists a, a1, (buf t), old, new. }
  destruct Hs as (Ht1 & Hm1 & v & Hp & Hv). destruct (update_mapped_spec hash getKey_first a1 live t1 p v (fun n => n +64 1) Ht1 Hp) as (t2 & E2 & Ht2 & Hm2).
  rewrite (bind_returns _ _ _ _ _ E2). specialize (IH a1 t2 Ht2). destruct (count_keys l (a1, t2)) as [[[]|e] w]; [|done].
  destruct IH as [Hw IH]. split; [done|]. intros k. rewrite IH.
  assert (mapped_map t1 !! x = Some (second v)) as Hx1.
  { unfold mapped_map. rewrite lookup_fmap. pose proof (points_lookup hash _ _ _ _ _ Ht1 Hp) as Hl. rewrite getKey_first, Hv in Hl. by rewrite Hl. }
  assert (second v = default 0 (mapped_map t !! x)) as Hsv.
  { rewrite Hm1 in Hx1. destruct (mapped_map t !! x) as [u|] eqn:Eu; [by rewrite Eu in Hx1; injection Hx1|]. rewrite lookup_insert_eq in Hx1. by injection Hx1. }
  assert (forall k, k <> x -> mapped_map t2 !! k = mapped_map t !! k) as Hother.
  { intros k' Hne. rewrite Hm2, Hv, lookup_insert_ne by done. rewrite Hm1. destruct (mapped_map t !! x); [done|]. by rewrite lookup_insert_ne. }
  unfold occurrences. rewrite filter_cons. destruct (decide (k = x)) as [->|Hne].
  - rewrite (bool_decide_true (x ∈ x :: l)) by (by left). rewrite decide_True by done. cbn [length]. rewrite Hm2, Hv, lookup_insert_eq, Hsv. cbn [default].
    case_bool_decide as Hin; [f_equal; unfold id; rewrite wrap_add_l; f_equal; lia|]. do 2 f_equal.
    assert (filter (fun y => y = x) l = []) as ->; [|cbn; lia]. apply elem_of_nil_inv. intros y [-> Hy]%list_elem_of_filter. done.
  - rewrite (decide_False (P := x = k)) by congruence. rewrite Hother by done.
    assert (bool_decide (k ∈ x :: l) = bool_decide (k ∈ l)) as -> by (apply bool_decide_ext; rewrite elem_of_cons; split; [by intros [|]|by right]). done.
Qed.

(** C30: Counting with a hash map: after for (x : keys) ++map[x] on a new map,
    the value of a key is the number of its occurrences modulo 2^64, and the
    map has no other keys; the elements move while the table grows. *)
Theorem map_counts a live t garbage st l :
  alloc_inv a live -> state_ok st -> 1 <= initial_size_degree < 64 -> bytes_of (I := I) initial_size_degree < 2 ^ 60 ->
  match (_ ← HashTable_new initial_size_degree garbage st; count_keys l) (a, t) with
  | (Returns _, w) => table_ok hash w.1 live w.2 /\ forall k, mapped_map w.2 !! k = if bool_decide (k ∈ l) then Some (wrap 64 (occurrences k l)) else None
  | (Throws e, _) => allocator_error (A := A) e \/ exists a', alloc_range (bytes_of initial_size_degree) a = (Throws e, a')
  end.
Proof.
  intros Hinv Hst Hd Hb. pose proof (HashTable_new_spec hash initial_size_degree a live t garbage st Hinv Hst Hd Hb) as Hn. unfold mbind, M_bind.
  destruct (HashTable_new initial_size_degree garbage st (a, t)) as [[u|e] [a1 t1]]; [|right; exists a1; apply Hn]. destruct Hn as (Ht & Hm & _).
  pose proof (count_keys_spec live l a1 t1 Ht) as Hc. destruct (count_keys l (a1, t1)) as [[u'|e] w]; [|left; apply Hc]. destruct Hc as [Hw Hc]. split; [done|]. intros k. rewrite Hc.
  assert (mapped_map t1 = ∅) as -> by (unfold mapped_map; rewrite Hm; apply fmap_empty). by rewrite lookup_empty.
Qed.
End Counting.

(** ** HashSet *)

Section SetView.
Context {Key State C A : Type} `{Countable Key} `{I : !Cell Key Key State C} `{LA : AllocatorLaws A} (hash : Key -> Z) `{L : !CellLaws hash I}.
Implicit Types (t : HashTable C State) (a : A) (live : list (Z * Z)).

Definition set_of t : gset Key := dom (table_map t).

Lemma elem_of_set_of a live t k : (forall x : Key, getKey x = x) -> table_ok hash a live t -> k ∈ set_of t <-> k ∈ contents t.
Proof.
  intros getKey_id Ht. unfold set_of. rewrite elem_of_dom. split.
  - intros (v & E). apply (table_map_lookup hash _ _ _ _ _ Ht) in E as [Hv <-]. by rewrite getKey_id.
  - intros Hk. exists k. by apply (table_map_lookup hash _ _ _ _ _ Ht).
Qed.

Lemma dom_insert_map x (m : gmap Key Key) : (forall x : Key, getKey x = x) -> dom (insert_map x m) = {[x]} ∪ dom m.
Proof.
  intros getKey_id. unfold insert_map. rewrite getKey_id. destruct (m !! x) eqn:E; [|by rewrite dom_insert_L]. apply elem_of_dom_2 in E. set_solver.
Qed.

End SetView.

Section SetProofs.
Context {Key State C A : Type} `{Countable Key} `{I : !Cell Key Key State C} `{LA : AllocatorLaws A}.
Context (hash : Key -> Z) `{L : !CellLaws hash I} `{G : Grower} (log2 : Z -> Z) (initial_size_degree : Z).
Context (getKey_id : forall x : Key, getKey x = x) (one_state : forall s s' : State, s = s').
Implicit Types (t : HashTable C State) (a : A) (live : list (Z * Z)).

Lemma merge_cells_spec live st b : forall a t,
  table_ok hash a live t ->
  match merge_cells hash log2 initial_size_degree b (a, t) with
  | (Returns _, w) => table_ok hash w.1 live w.2 /\ set_of w.2 = set_of t ∪ list_to_set (entries st b)
  | (Throws e, w) => table_ok hash w.1 live w.2 /\ set_of t ⊆ set_of w.2 ⊆ set_of t ∪ list_to_set (entries st b) /\ allocator_error (A := A) e
  end.
Proof.
  induction b as [|c b IH]; intros a t Ht; cbn [merge_cells].
  { split; [done|]. cbn. set_solver. }
  unfold tget. rewrite bind_get. cbn [snd]. rewrite (one_state (table_state t) st). change (c :: b) with ([c] ++ b). rewrite entries_app.
  destruct (isZero c st) eqn:Zc; cbn [negb].
  { rewrite entries_zero by done. rewrite bind_ret. apply IH. done. }
  rewrite entries_nonzero, getKey_id by done. pose proof (table_insert_spec hash log2 initial_size_degree a live t (getValue c) Ht) as Hi.
  unfold mbind at 1 2, M_bind at 1 2. destruct (insert hash log2 initial_size_degree (getValue c) (a, t)) as [[[p ins]|e] [a1 t1]]; cbn [fst snd] in Hi.
  2: { destruct Hi as (_ & Ht1 & Hm1 & old & new & Er). cbn [fst snd] in *. split; [done|]. unfold set_of. rewrite Hm1. split; [set_solver|]. by exists a, a1, (buf t), old, new. }
  destruct Hi as (Ht1 & Hm1 & _). unfold mret, M_ret. specialize (IH a1 t1 Ht1). assert (set_of t1 = {[getValue c]} ∪ set_of t) as Hs by (unfold set_of; rewrite Hm1; by apply dom_insert_map).
  destruct (merge_cells hash log2 initial_size_degree b (a1, t1)) as [[[]|e] w]; rewrite Hs in IH.
  - destruct IH as [Hw ->]. split; [done|]. cbn [app list_to_set]. set_solver.
  - destruct IH as (Hw & Hsub & He). split_and!; [done|cbn [app list_to_set]; set_solver..|done].
Qed.

(** The zero key of the other set. *)
Lemma merge_zero a live t rhs a' live' :
  table_ok hash a live t -> table_ok hash a' live' rhs ->
  exists t1, (if negb (has_zero t) && has_zero rhs then _ ← setHasZero; tset (fun t => set_m_size (m_size t +64 1) t) else mret tt) (a, t) = (Returns tt, (a, t1)) /\
    table_ok hash a live t1 /\ set_of t1 = set_of t ∪ list_to_set (zero_entry rhs).
Proof.
  intros Ht Hr. unfold zero_entry. destruct (has_zero rhs) eqn:Zr; [|rewrite andb_false_r; exists t; split_and!; [done|done|cbn; set_solver]].
  pose proof (ok_zero _ _ _ _ Hr Zr) as Hneed. destruct (ok_zero_cell _ _ _ _ Hr Hneed) as [Hzr _]. destruct (ok_zero_cell _ _ _ _ Ht Hneed) as [Hzt _].
  rewrite (one_state (table_state rhs) (table_state t)) in Hzr. pose proof (zero_unique _ _ _ Hzr Hzt) as Ek. unfold key_of in Ek. rewrite !getKey_id in Ek. rewrite Ek, andb_true_r.
  destruct (has_zero t) eqn:Zt; cbn [negb].
  - exists t. split_and!; [done|done|]. assert (getValue (zero_value t) ∈ set_of t); [|cbn; set_solver]. apply (elem_of_set_of hash _ _ _ _ getKey_id Ht). unfold contents, zero_entry. rewrite Zt. by left.
  - unfold setHasZero. rewrite Hneed. unfold tset. rewrite bind_modify. eexists. split; [reflexivity|]. cbn [fst snd].
    destruct (add_zero hash a live t (zero_value t) Ht Hneed Zt eq_refl eq_refl) as [Ht1 Hcont].
    assert (set_m_size (m_size (set_has_zero true t) +64 1) (set_has_zero true t) = set_zero_value (zero_value t) (set_has_zero true (set_m_size (m_size t +64 1) t))) as -> by done.
    split; [done|]. apply set_eq. intros k. rewrite elem_of_union, (elem_of_set_of hash _ _ _ _ getKey_id Ht1), (elem_of_set_of hash _ _ _ _ getKey_id Ht), Hcont. set_solver.
Qed.

Lemma set_merge_spec a live t rhs a' live' :
  table_ok hash a live t -> table_ok hash a' live' rhs ->
  match merge hash log2 initial_size_degree rhs (a, t) with
  | (Returns _, w) => table_ok hash w.1 live w.2 /\ set_of w.2 = set_of t ∪ set_of rhs
  | (Throws e, w) => table_ok hash w.1 live w.2 /\ set_of t ⊆ set_of w.2 ⊆ set_of t ∪ set_of rhs /\ allocator_error (A := A) e
  end.
Proof.
  intros Ht Hr. unfold merge, tget. rewrite bind_get. cbn [snd].
  assert (set_of rhs = list_to_set (zero_entry rhs) ∪ list_to_set (entries (table_state rhs) (cells rhs))) as ->.
  { apply set_eq. intros k. rewrite (elem_of_set_of hash _ _ _ _ getKey_id Hr). unfold contents. set_solver. }
  destruct (merge_zero a live t rhs a' live' Ht Hr) as (t1 & E & Ht1 & Hs1). rewrite (bind_returns _ _ _ _ _ E).
  pose proof (merge_cells_spec live (table_state rhs) (cells rhs) a t1 Ht1) as Hm. rewrite Hs1 in Hm. rewrite union_assoc_L.
  destruct (merge_cells hash log2 initial_size_degree (cells rhs) (a, t1)) as [[[]|e] w]; [done|]. destruct Hm as (Hw & Hsub & He). split_and!; [done|set_solver..|done].
Qed.

(** HashSet::merge makes the union of two sets: the elements of the other
    set, that with the zero key included, are inserted and none is lost, while
    the other set is only read.  When the allocator throws, the set holds its
    own elements and some of the other's, and is in order. *)
Theorem set_merge a live t rhs a' live' :
  table_ok hash a live t -> table_ok hash a' live' rhs ->
  match merge hash log2 initial_size_degree rhs (a, t) with
  | (Returns _, w) => table_ok hash w.1 live w.2 /\ set_of w.2 = set_of t ∪ set_of rhs /\ m_size w.2 = Z.of_nat (stdpp.base.size (set_of t ∪ set_of rhs))
  | (Throws e, w) => table_ok hash w.1 live w.2 /\ set_of t ⊆ set_of w.2 ⊆ set_of t ∪ set_of rhs /\ allocator_error (A := A) e
  end.
Proof.
  intros Ht Hr. pose proof (set_merge_spec a live t rhs a' live' Ht Hr) as Hm. destruct (merge hash log2 initial_size_degree rhs (a, t)) as [[u|e] w]; [|done].
  destruct Hm as [Hw Hs]. split_and!; [done|done|]. rewrite <- Hs, (contents_size hash w.1 live w.2 Hw). unfold set_of. by rewrite size_dom.
Qed.
End SetProofs.

(** ** The clearable tables *)

Section ClearableProofs.
Context {Key Value C A : Type} `{Countable Key} (hash : Key -> Z) (size : Z) (size_pos : 0 < size).
Context (B : Cell Key Value ClearableHashSetState C) `{LB : !BaseLaws hash B} `{LA : AllocatorLaws A}.
#[local] Existing Instance clearable_cell.
#[local] Instance clearable_laws : CellLaws hash (clearable_cell size B) := clearable_cell_laws hash size B size_pos.
Implicit Types (t : HashTable (ClearableHashTableCell C) ClearableHashSetState).

(** Below the last version, clear empties the table. *)
Lemma clear_version_spec (a : A) live t :
  table_ok (I := clearable_cell size B) hash a live t -> state_version (table_state t) < 2 ^ 32 - 1 ->
  exists t', clear_version (a, t) = (Returns tt, (a, t')) /\ table_ok (I := clearable_cell size B) hash a live t' /\ table_map (I := clearable_cell size B) t' = ∅.
Proof.
  intros [Hst [[Hd Hl Hc Hn] Hp] Hown Hload Hsize Hz1 Hz2] Hv. eexists. split; [reflexivity|]. cbn [fst snd]. set (v := state_version (table_state t)) in *.
  assert (0 < v) as Hv0 by exact Hst. rewrite (wrap_small 32 (v + 1)) by (unfold fits; lia).
  assert (entries (I := clearable_cell size B) (Clearable (v + 1)) (cells t) = []) as He.
  { unfold entries. replace (filter _ (cells t)) with (@nil (ClearableHashTableCell C)); [done|]. symmetry. apply elem_of_nil_inv. intros c [Hz Hin]%list_elem_of_filter.
    rewrite list.Forall_forall in Hc. destruct (Hc c Hin) as [Hle _]. cbn [isZero clearable_cell state_version] in Hz. apply negb_false_iff, Z.eqb_eq in Hz. fold v in Hle. lia. }
  assert (has_zero t = false) as Hz by (destruct (has_zero t); [by specialize (Hz2 eq_refl)|done]).
  set (t' := set_m_size 0 _). assert (contents (I := clearable_cell size B) t' = []) as Hcont.
  { unfold contents, zero_entry, t'. cbn [has_zero cells table_state set_m_size set_table_state]. by rewrite Hz, He. }
  split; [|by unfold table_map; rewrite Hcont]. split; cbn [table_state cells size_degree m_size has_zero zero_value t' set_m_size set_table_state]; try done.
  - cbn. lia.
  - split; [split; [done|done| |rewrite He; apply NoDup_nil_2]|].
    + eapply list.Forall_impl; [exact Hc|]. intros c [Hle _]. fold v in Hle. split; cbn [state_version]; lia.
    + intros j k Hj. assert (k ∈ getKey (Cell := clearable_cell size B) <$> entries (I := clearable_cell size B) (Clearable (v + 1)) (cells t)) as Hk by (apply view_elem; by exists j).
      rewrite He in Hk. by apply not_elem_of_nil in Hk.
  - rewrite He. apply Z.pow_nonneg. lia.
  - change (m_size t') with 0. by rewrite Hcont.
Qed.

(** The version wraps around to 0, which is that of cleared memory: every
    cell counts as occupied, and the search for a key that no cell has does
    not end. *)
Lemma clear_version_wraps (b : list (ClearableHashTableCell C)) d k fuel q :
  1 <= d <= 50 -> Z.of_nat (length b) = 2 ^ d -> Forall (fun c => version c = 0) b -> (forall c, keyEquals_hash (clearable_base c) k (hash k) = false) -> 0 <= q < 2 ^ d ->
  findCell_loop (I := clearable_cell size B) fuel b (Clearable (wrap 32 (2 ^ 32 - 1 + 1))) d k (hash k) q = Throws NO_FUEL.
Proof.
  intros Hd Hl Hz Hk. revert q. induction fuel as [|fuel IH]; intros q Hq; [done|]. cbn [findCell_loop].
  destruct (nth_cell_in b q) as (c & En & Ec); [lia|]. rewrite En. unfold mbind, outcome_bind. cbn [isZero keyEquals_hash clearable_cell]. rewrite Hk.
  assert (version c = 0) as -> by (by eapply list.Forall_lookup_1 in Ec; [|exact Hz]). change (negb (negb (0 =? state_version (Clearable (wrap 32 (2 ^ 32 - 1 + 1))))) && negb false) with true.
  apply IH. rewrite next_place_mod by lia. apply Z.mod_pos_bound. lia.
Qed.
End ClearableProofs.

(** ** Instances *)

(** HashSet<UInt64> and HashMap<UInt64, UInt64> on the pool. *)
Definition uint64_set : Cell Z Z unit (HashTableCell Z) := hash_table_cell 8 0.
Definition uint64_map : Cell Z (PairNoInit Z Z) unit (HashMapCell Z Z) := hash_map_cell 16 0 0.
Definition uint64_set_laws : CellLaws intHash64 uint64_set := hash_table_cell_laws intHash64 8 0 eq_refl eq_refl.
Definition uint64_map_laws : CellLaws intHash64 uint64_map := hash_map_cell_laws intHash64 16 0 0 eq_refl eq_refl.

#[local] Existing Instance uint64_set | 0.
#[local] Existing Instance uint64_map | 0.
#[local] Existing Instance uint64_set_laws | 0.
#[local] Existing Instance uint64_map_laws | 0.
#[local] Existing Instance on_the_pool | 0.
#[local] Existing Instance on_the_pool_laws | 0.
#[local] Existing Instance HashTableGrower.

Definition demo_set (d : Z) : HashTable (HashTableCell Z) unit := fresh_table (I := uint64_set) (TableCell 7) tt d.
Definition demo_map (d : Z) : HashTable (HashMapCell Z Z) unit := fresh_table (I := uint64_map) (MapCell (Pair 7 7)) tt d.

(** A set that has been constructed and filled. *)
Definition demo_inserted (l : list Z) : outcome (list answer) * world (C := HashTableCell Z) (State := unit) (A := pool_allocator) :=
  (_ ← HashTable_new 2 (TableCell 7) tt; run_calls (I := uint64_set) intHash64 Z.log2 2 (Insert <$> l)) (demo_allocator, demo_set 2).

Lemma hash_table_refines_witness :
  exists rs a1 t1 a2 t2,
    (_ ← HashTable_new 2 (TableCell 7) tt; run_calls (I := uint64_set) intHash64 Z.log2 2 [Insert 5; Insert 0; Insert 5; Insert 6; Insert 9; Find 6; Has 7; Size; Elements; Clear; Size])
      (demo_allocator, demo_set 2) = (Returns rs, (a1, t1)) /\
    map_calls (I := uint64_set) (A := pool_allocator) [Insert 5; Insert 0; Insert 5; Insert 6; Insert 9; Find 6; Has 7; Size; Elements; Clear; Size] ∅ rs (table_map t1) /\
    clearAndShrink (a1, t1) = (Returns tt, (a2, t2)) /\ pool_live a2 [].
Proof.
  pose proof (hash_table_refines (I := uint64_set) intHash64 Z.log2 2 demo_allocator [] (demo_set 2) (TableCell 7) tt
    [Insert 5; Insert 0; Insert 5; Insert 6; Insert 9; Find 6; Has 7; Size; Elements; Clear; Size] demo_live I ltac:(lia) eq_refl) as Hr.
  assert ((HashTable_new 2 (TableCell 7) tt (demo_allocator, demo_set 2)).1 = Returns tt) as E by (vm_compute; reflexivity).
  unfold mbind, M_bind. destruct (HashTable_new 2 (TableCell 7) tt (demo_allocator, demo_set 2)) as [r w]. cbn [fst] in E. rewrite E in Hr |- *. exact Hr.
Defined.

Lemma demo_inserted_ok l : exists rs a t, demo_inserted l = (Returns rs, (a, t)) /\ table_ok (I := uint64_set) intHash64 a [] t.
Proof.
  pose proof (HashTable_new_spec (I := uint64_set) intHash64 2 demo_allocator [] (demo_set 2) (TableCell 7) tt demo_live I ltac:(lia) eq_refl) as Hn.
  assert ((HashTable_new (I := uint64_set) 2 (TableCell 7) tt (demo_allocator, demo_set 2)).1 = Returns tt) as E by (vm_compute; reflexivity).
  unfold demo_inserted, mbind, M_bind. destruct (HashTable_new 2 (TableCell 7) tt (demo_allocator, demo_set 2)) as [r [a t]]. cbn [fst] in E. rewrite E in Hn |- *. destruct Hn as (Ht & _).
  destruct (run_calls_spec (I := uint64_set) intHash64 Z.log2 2 [] (Insert <$> l) a t Ht) as (rs & a1 & t1 & E1 & Ht1 & _). by exists rs, a1, t1.
Qed.

Lemma map_counts_witness :
  exists w, (_ ← HashTable_new (I := uint64_map) 1 (MapCell (Pair 7 7)) tt; count_keys intHash64 Z.log2 1 [3; 0; 5; 3; 6; 0; 3]) (demo_allocator, demo_map 1) = (Returns tt, w) /\
    mapped_map w.2 !! 3 = Some 3 /\ mapped_map w.2 !! 0 = Some 2 /\ mapped_map w.2 !! 4 = None.
Proof.
  pose proof (map_counts (I := uint64_map) intHash64 Z.log2 1 (fun _ => eq_refl) demo_allocator [] (demo_map 1) (MapCell (Pair 7 7)) tt [3; 0; 5; 3; 6; 0; 3] demo_live I ltac:(lia) eq_refl) as Hc.
  assert (((_ ← HashTable_new (I := uint64_map) 1 (MapCell (Pair 7 7)) tt; count_keys intHash64 Z.log2 1 [3; 0; 5; 3; 6; 0; 3]) (demo_allocator, demo_map 1)).1 = Returns tt) as E by (vm_compute; reflexivity).
  destruct ((_ ← HashTable_new (I := uint64_map) 1 (MapCell (Pair 7 7)) tt; count_keys intHash64 Z.log2 1 [3; 0; 5; 3; 6; 0; 3]) (demo_allocator, demo_map 1)) as [r w]. cbn [fst] in E. rewrite E in Hc |- *.
  exists w. destruct Hc as [_ Hc]. split_and!; [done|rewrite Hc; reflexivity..].
Defined.

Lemma set_merge_witness :
  exists r a t r' a' t', demo_inserted [5; 0; 6] = (Returns r, (a, t)) /\ demo_inserted [6; 7] = (Returns r', (a', t')) /\
    match merge intHash64 Z.log2 2 t (a', t') with
    | (Returns _, w) => table_ok (I := uint64_set) intHash64 w.1 [] w.2 /\ set_of w.2 = set_of t' ∪ set_of t /\ m_size w.2 = Z.of_nat (stdpp.base.size (set_of t' ∪ set_of t))
    | (Throws e, w) => table_ok (I := uint64_set) intHash64 w.1 [] w.2 /\ set_of t' ⊆ set_of w.2 ⊆ set_of t' ∪ set_of t /\ allocator_error (A := pool_allocator) e
    end.
Proof.
  destruct (demo_inserted_ok [5; 0; 6]) as (r & a & t & E & Ht). destruct (demo_inserted_ok [6; 7]) as (r' & a' & t' & E' & Ht'). exists r, a, t, r', a', t'. split_and!; [done|done|].
  apply (set_merge (I := uint64_set) intHash64 Z.log2 2 (fun _ => eq_refl) (fun s s' => match s, s' with tt, tt => eq_refl end) a' [] t' t a [] Ht' Ht).
Defined.

Lemma resize_in_place_witness :
  exists r a t, demo_inserted [5; 0; 6] = (Returns r, (a, t)) /\
    match resize (I := uint64_set) intHash64 Z.log2 2 0 0 (a, t) with
    | (Returns _, (a', t')) => table_ok (I := uint64_set) intHash64 a' [] t' /\ size_degree t' = increaseSize (size_degree t) /\ contents (I := uint64_set) t' ≡ₚ contents (I := uint64_set) t /\
        forall k, exists p, find (I := uint64_set) intHash64 k (a', t') = (Returns p, (a', t')) /\
          match table_map (I := uint64_set) t !! k with Some v => points (I := uint64_set) t' p v /\ p <> hash_end t' | None => p = hash_end t' end
    | (Throws e, (a', t')) => t' = t /\ table_ok (I := uint64_set) intHash64 a' [] t /\ exists old new, realloc_range (buf t) old new a = (Throws e, a')
    end.
Proof.
  destruct (demo_inserted_ok [5; 0; 6]) as (r & a & t & E & Ht). exists r, a, t. split; [exact E|]. exact (resize_in_place (I := uint64_set) intHash64 Z.log2 2 a [] t Ht).
Defined.
