(* ===== verification/HashTableIO.v ===== *)
(** * Hash tables in files and on the network

    HashTable::write, ::read and the class Reader
    (dbms/src/Common/HashTable/HashTable.h), HashSetTable::readAndMerge
    (HashSet.h), over the buffers of the IO layer: the number of elements as a
    VarUInt, then the element with the zero key if there is one, then the
    others in the order of the cells.  The tables are those with
    HashTableNoState, which reads and writes nothing.

    Shown: what a table writes is read back as the same set, by any buffer and
    in any allocator that has the memory; a Reader gives the elements one by
    one; and a size that makes the number of bytes overflow makes [read]
    allocate too little and write outside of it. *)

From stdpp Require Import base list option numbers gmap.
From Stdlib Require Import ZArith Lia.
From S2P Require Import Prelude IOMonad ReadBuffers BufferSources WriteBuffers VarInt MemoryTracker Allocators Hash LinearProbing HashTableCells.
From S2P Require Import HashTable HashTableProofs HashTableMap HashMaps.

#[local] Open Scope Z_scope.
#[local] Open Scope word_scope.

(** The members write and read of a cell. *)
Class CellIO (C : Type) := {
  write_cell {D : Type} `{WriteBuffer D} : C -> M (wbuf D) unit;
  read_cell {D : Type} `{ReadBuffer D} : C -> M (rbuf D) C
}.

(** ** Operations *)

Section Writing.
Context {Key Value State C D : Type} `{I : !Cell Key Value State C} `{!CellIO C} `{!WriteBuffer D}.

(** for (size_t i = 0; i < grower.bufSize(); ++i), [n] cells being left *)
Fixpoint write_cells (t : HashTable C State) (n : nat) (i : Z) : M (wbuf D) unit :=
  match n with
  | O => mret tt
  | S n' =>
      c ← lift (nth_cell (cells t) i);
      _ ← (if negb (isZero c (table_state t)) then write_cell c else mret tt);
      write_cells t n' (i + 1)
  end.

Definition write_table (t : HashTable C State) : M (wbuf D) unit :=
  _ ← writeVarUInt (m_size t);
  _ ← (if has_zero t then write_cell (zero_value t) else mret tt);
  write_cells t (Z.to_nat (bufSize (size_degree t))) 0.
End Writing.

Section Reading.
Context {Key State C A D : Type} `{I : !Cell Key Key State C} `{!CellIO C} `{!Allocator A} `{!ReadBuffer D}.
Context (hash : Key -> Z) `{G : Grower} (log2 : Z -> Z) (initial_size_degree : Z).

(** The table and the buffer it is read from. *)
Definition reading : Type := world (C := C) (State := State) (A := A) * rbuf D.
Definition on_table {X} (m : M (world (C := C) (State := State) (A := A)) X) : M reading X := zoom fst (fun w s => (w, s.2)) m.
Definition on_buffer {X} (m : M (rbuf D) X) : M reading X := zoom snd (fun b s => (s.1, b)) m.

(** Cell x; x.read(rb); insert(Cell::getKey(x.getValue())), [n] times.
    [garbage] is the uninitialised cell. *)
Fixpoint read_elements (garbage : C) (n : nat) : M reading unit :=
  match n with
  | O => mret tt
  | S n' =>
      x ← on_buffer (read_cell garbage);
      _ ← on_table (insert hash log2 initial_size_degree (getKey (getValue x)));
      read_elements garbage n'
  end.

Definition read_table (garbage : C) : M reading unit :=
  _ ← on_table (tset (fun t => set_m_size 0 (set_has_zero false t)));
  new_size ← on_buffer readVarUInt;
  _ ← on_table free;
  _ ← on_table (alloc (set_size log2 initial_size_degree new_size));
  read_elements garbage (Z.to_nat new_size).

Definition readAndMerge (garbage : C) : M reading unit :=
  new_size ← on_buffer readVarUInt;
  _ ← on_table (resize hash log2 initial_size_degree new_size 0);
  read_elements garbage (Z.to_nat new_size).
End Reading.

(** class HashTable::Reader *)
Record Reader (C : Type) := MkReader {
  reader_cell : C;
  read_count : Z;
  reader_size : Z;
  is_eof : bool;
  is_initialized : bool
}.
Arguments MkReader {C}.
Arguments reader_cell {C} _.
Arguments read_count {C} _.
Arguments reader_size {C} _.
Arguments is_eof {C} _.
Arguments is_initialized {C} _.

Section ReaderOperations.
Context {Key Value State C D : Type} `{I : !Cell Key Value State C} `{!CellIO C} `{!ReadBuffer D}.

(** [garbage] are the members that the constructor does not initialise. *)
Definition Reader_new (garbage : C) (size : Z) : Reader C := MkReader garbage 0 size false false.

Definition reader_next : M (Reader C * rbuf D) bool :=
  r ← get fst;
  _ ← (if negb (is_initialized r) then
         n ← zoom snd (fun b s => (s.1, b)) readVarUInt;
         modify (fun s => (MkReader (reader_cell s.1) (read_count s.1) n (is_eof s.1) true, s.2))
       else mret tt);
  r ← get fst;
  if read_count r =? reader_size r then
    _ ← modify (fun s => (MkReader (reader_cell s.1) (read_count s.1) (reader_size s.1) true (is_initialized s.1), s.2));
    mret false
  else
    c ← zoom snd (fun b s => (s.1, b)) (read_cell (reader_cell r));
    _ ← modify (fun s => (MkReader c (read_count s.1 +64 1) (reader_size s.1) (is_eof s.1) (is_initialized s.1), s.2));
    mret true.

Definition reader_get (r : Reader C) : outcome Value :=
  if negb (is_initialized r) || is_eof r then Throws NO_AVAILABLE_DATA else Returns (getValue (reader_cell r)).

(** while (reader.next()) use(reader.get()) *)
Fixpoint reader_all (fuel : nat) : M (Reader C * rbuf D) (list Value) :=
  match fuel with
  | O => throw NO_FUEL
  | S fuel' =>
      b ← reader_next;
      if b : bool then
        r ← get fst;
        v ← lift (reader_get r);
        l ← reader_all fuel';
        mret (v :: l)
      else mret []
  end.
End ReaderOperations.

(** ** Cells in binary *)

(** [w] and [w'] are the sizes of the key and of the mapped value; POD values
    are their bytes. *)
Definition hash_table_cell_io (w : nat) : CellIO (HashTableCell Z) := {|
  write_cell := fun D _ c => write (le_bytes w (key c));
  read_cell := fun D _ _ => s ← readStrict w; mret (TableCell (le_value s))
|}.

Definition hash_map_cell_io (w w' : nat) : CellIO (HashMapCell Z Z) := {|
  write_cell := fun D _ c => _ ← write (le_bytes w (first (value c))); write (le_bytes w' (second (value c)));
  read_cell := fun D _ _ => s ← readStrict w; s' ← readStrict w'; mret (MapCell (Pair (le_value s) (le_value s')))
|}.

(** What a table relies on: the bytes of an element are written and read back. *)
Class CellIOLaws {Key Value State C : Type} (I : Cell Key Value State C) (IO : CellIO C) := {
  value_ok : Value -> Prop;
  value_bytes : Value -> list Z;
  write_cell_ok {D} `{WriteBufferLaws D} c : writes (write_cell c) tt (value_bytes (getValue c));
  read_cell_ok {D} `{ReadBufferLaws D} c v l : value_ok v -> exists c', reads (read_cell c) (value_bytes v ++ l) (Returns c') l /\ getValue c' = v
}.

Lemma reads_bytes {D} `{ReadBufferLaws D} s l : reads (readStrict (length s)) (s ++ l) (Returns s) l.
Proof.
  pose proof (reads_readStrict (length s) (s ++ l)) as Hr. rewrite take_app_length, drop_app_length, (proj2 (Nat.leb_le _ _)) in Hr by (rewrite length_app; lia). exact Hr.
Qed.

Lemma reads_number {D} `{ReadBufferLaws D} {B} w v l (k : list Z -> M (rbuf D) B) r l' :
  reads (k (le_bytes w v)) l r l' -> reads (readStrict w ≫= k) (le_bytes w v ++ l) r l'.
Proof. intros Hk. eapply reads_bind; [|exact Hk]. rewrite <- (length_le_bytes w v) at 1. apply reads_bytes. Qed.

#[refine] Definition hash_table_cell_io_laws {State} w size zk : CellIOLaws (hash_table_cell (State := State) size zk) (hash_table_cell_io w) := {|
  value_ok := fun k => 0 <= k < 256 ^ Z.of_nat w;
  value_bytes := fun k => le_bytes w k
|}.
Proof.
  - intros. cbn. apply writes_write.
  - intros D ? ? c v l Hv. exists (TableCell v). split; [|done]. cbn. apply (reads_number w v l (fun s => mret (TableCell (le_value s)))). rewrite le_value_bytes by done. apply reads_ret.
Defined.

#[refine] Definition hash_map_cell_io_laws {State} w w' size zk zm : CellIOLaws (hash_map_cell (State := State) size zk zm) (hash_map_cell_io w w') := {|
  value_ok := fun v => 0 <= first v < 256 ^ Z.of_nat w /\ 0 <= second v < 256 ^ Z.of_nat w';
  value_bytes := fun v => le_bytes w (first v) ++ le_bytes w' (second v)
|}.
Proof.
  - intros. cbn. eapply writes_bind; apply writes_write.
  - intros D ? ? c [k m] l [Hk Hm]. exists (MapCell (Pair k m)). split; [|done]. cbn [first second] in *. rewrite <- app_assoc. cbn.
    apply (reads_number w k _ (fun s => s' ← readStrict w'; mret (MapCell (Pair (le_value s) (le_value s'))))). rewrite le_value_bytes by done.
    apply (reads_number w' m l (fun s' => mret (MapCell (Pair k (le_value s'))))). rewrite le_value_bytes by done. apply reads_ret.
Defined.

(** ** Proofs *)

Section WritingProofs.
Context {Key Value State C A : Type} `{Countable Key} `{I : !Cell Key Value State C} `{LA : AllocatorLaws A} (hash : Key -> Z) `{L : !CellLaws hash I}.
Context `{IO : !CellIO C} `{LIO : !CellIOLaws I IO} {D : Type} `{LD : WriteBufferLaws D}.
Implicit Types (t : HashTable C State).

Definition elements_bytes (l : list Value) : list Z := concat (value_bytes <$> l).

Lemma elements_bytes_app l k : elements_bytes (l ++ k) = elements_bytes l ++ elements_bytes k.
Proof. unfold elements_bytes. by rewrite fmap_app, concat_app. Qed.

Lemma writes_returned {X B} (x : X) (k : X -> M (wbuf D) B) r w : writes (k x) r w -> writes (lift (Returns x) ≫= k) r w.
Proof. intros Hk. exact Hk. Qed.

Lemma write_cells_spec t n : forall i,
  0 <= i -> i + Z.of_nat n = Z.of_nat (length (cells t)) -> writes (write_cells t n i) tt (elements_bytes (entries (table_state t) (drop (Z.to_nat i) (cells t)))).
Proof.
  induction n as [|n IH]; intros i Hi Hn; cbn [write_cells].
  - rewrite drop_ge by lia. apply writes_ret.
  - destruct (nth_cell_in (cells t) i) as (c & En & Ec); [lia|]. rewrite En. apply writes_returned. rewrite (entries_drop_cons _ _ _ c Ec), elements_bytes_app.
    eapply writes_bind; [|replace (S (Z.to_nat i)) with (Z.to_nat (i + 1)) by lia; apply IH; lia].
    destruct (isZero c (table_state t)) eqn:Zc; cbn [negb].
    + rewrite entries_zero by done. apply writes_ret.
    + rewrite entries_nonzero by done. unfold elements_bytes. cbn. rewrite app_nil_r. apply write_cell_ok.
Qed.

Lemma write_table_spec (a : A) live t : table_ok hash a live t -> writes (write_table t) tt (writeVarUInt_mem (m_size t) ++ elements_bytes (contents t)).
Proof.
  intros Ht. pose proof (degree_range _ _ _ _ Ht) as Hd. destruct (ok_buffer _ _ _ _ Ht) as [[_ Hl _ _] _]. unfold write_table, contents. rewrite elements_bytes_app.
  eapply writes_bind; [apply writeVarUInt_spec|]. eapply writes_bind.
  - unfold zero_entry. destruct (has_zero t); [|apply writes_ret]. unfold elements_bytes. cbn. rewrite app_nil_r. apply write_cell_ok.
  - apply (write_cells_spec t (Z.to_nat (bufSize (size_degree t))) 0); [lia|]. rewrite bufSize_pow by lia. lia.
Qed.
End WritingProofs.

(** log2 of the C library is exact on the sizes of tables. *)
Definition exact_log2 (log2 : Z -> Z) : Prop := forall x, 1 <= x <= 2 ^ 47 -> log2 x = Z.log2 x.

Section ReadingProofs.
Context {Key State C A : Type} `{Countable Key} `{I : !Cell Key Key State C} `{LA : AllocatorLaws A} (hash : Key -> Z) `{L : !CellLaws hash I}.
Context `{G : Grower} (log2 : Z -> Z) (initial_size_degree : Z) (getKey_id : forall x : Key, getKey x = x).
Context `{IO : !CellIO C} `{LIO : !CellIOLaws I IO} {D : Type} `{LD : ReadBufferLaws D}.
Implicit Types (t : HashTable C State) (a : A) (live : list (Z * Z)) (b : rbuf D).

Lemma on_buffer_reads {X} (m : M (rbuf D) X) l r l' (w : world (C := C) (State := State) (A := A)) b p :
  reads m l r l' -> state b l p -> exists b', on_buffer m (w, b) = (r, (w, b')) /\ state b' l' p.
Proof. intros Hm Hs. destruct (Hm b p Hs) as (b' & E & Hs'). exists b'. unfold on_buffer, zoom. cbn [snd fst]. by rewrite E. Qed.

Lemma on_table_step {X} (m : M (world (C := C) (State := State) (A := A)) X) w b : on_table (D := D) m (w, b) = ((m w).1, ((m w).2, b)).
Proof. done. Qed.

Lemma read_elements_spec live garbage rest p ks : forall a t b,
  table_ok hash a live t -> Forall value_ok ks -> state b (elements_bytes ks ++ rest) p ->
  match read_elements hash log2 initial_size_degree garbage (length ks) ((a, t), b) with
  | (Returns _, (w, b')) => table_ok hash w.1 live w.2 /\ set_of w.2 = set_of t ∪ list_to_set ks /\ state b' rest p
  | (Throws e, (w, b')) => table_ok hash w.1 live w.2 /\ allocator_error (A := A) e
  end.
Proof.
  induction ks as [|k ks IH]; intros a t b Ht Hk Hs; cbn [read_elements length].
  { split_and!; [done|cbn; set_solver|done]. }
  apply list.Forall_cons in Hk as [Hk Hks]. change (elements_bytes (k :: ks)) with (value_bytes k ++ elements_bytes ks) in Hs. rewrite <- app_assoc in Hs.
  destruct (read_cell_ok garbage k (elements_bytes ks ++ rest) Hk) as (c & Hr & Hv). destruct (on_buffer_reads _ _ _ _ (a, t) b p Hr Hs) as (b1 & E1 & Hs1).
  rewrite (bind_returns _ _ _ _ _ E1), Hv, getKey_id. unfold mbind at 1, M_bind at 1. rewrite on_table_step.
  pose proof (table_insert_spec hash log2 initial_size_degree a live t k Ht) as Hi. destruct (insert hash log2 initial_size_degree k (a, t)) as [[[q ins]|e] [a1 t1]]; cbn [fst snd] in *.
  2: { destruct Hi as (_ & Ht1 & _ & old & new & Er). split; [done|]. by exists a, a1, (buf t), old, new. }
  destruct Hi as (Ht1 & Hm & _). specialize (IH a1 t1 b1 Ht1 Hks Hs1). assert (set_of t1 = {[k]} ∪ set_of t) as Hset by (unfold set_of; rewrite Hm; by apply dom_insert_map).
  match goal with |- match ?r with _ => _ end => change r with (read_elements hash log2 initial_size_degree garbage (length ks) ((a1, t1), b1)) end.
  destruct (read_elements hash log2 initial_size_degree garbage (length ks) (a1, t1, b1)) as [[u|e] [w b']]; [|exact IH]. destruct IH as (Hw & Hsw & Hs'). split_and!; [done| |done].
  rewrite Hsw, Hset. cbn [list_to_set]. set_solver.
Qed.

(** The degree for [n] elements. *)
Lemma set_size_range n :
  exact_log2 log2 -> 1 <= initial_size_degree <= 50 -> bytes_of (I := I) initial_size_degree < 2 ^ 60 ->
  0 <= n <= 2 ^ 47 + 1 -> 4 * n * sizeof_Cell < 2 ^ 60 ->
  1 <= set_size log2 initial_size_degree n < 64 /\ bytes_of (I := I) (set_size log2 initial_size_degree n) < 2 ^ 60.
Proof.
  intros Hlog Hi Hb Hn Hn'. unfold set_size. destruct (Z.leb_spec n 1); [rewrite wrap_small by (unfold fits; lia); lia|].
  rewrite Hlog by lia. pose proof (Z.log2_nonneg (n - 1)). assert (Z.log2 (n - 1) < 48) as Hlt by (apply Z.log2_lt_pow2; lia).
  rewrite (wrap_small 64 (Z.log2 (n - 1) + 2)) by (unfold fits; lia). destruct (Z.ltb_spec (Z.log2 (n - 1) + 2) initial_size_degree); rewrite wrap_small by (unfold fits; lia); [lia|].
  split; [lia|]. unfold bytes_of. rewrite Z.pow_add_r by lia. change (2 ^ 2) with 4. destruct (Z.log2_spec (n - 1) ltac:(lia)) as [Hle _]. pose proof (sizeof_pos (hash := hash)). nia.
Qed.

Definition memory_error (e : error) : Prop := allocator_error (A := A) e \/ exists (a a' : A) n, alloc_range n a = (Throws e, a').

(** [read] up to the allocation: the size is read and the old buffer freed. *)
Lemma read_table_start a live t garbage n l b p :
  table_ok hash a live t -> 0 <= n < 2 ^ 63 -> state b (writeVarUInt_mem n ++ l) p ->
  exists a1 t1 b1,
    read_table hash log2 initial_size_degree garbage ((a, t), b) =
      (_ ← on_table (alloc (set_size log2 initial_size_degree n)); read_elements hash log2 initial_size_degree garbage (Z.to_nat n)) ((a1, t1), b1) /\
    state b1 l p /\ alloc_inv a1 live /\ free_range (buf t) (bytes_of (size_degree t)) a = (Returns tt, a1) /\
    table_state t1 = table_state t /\ m_size t1 = 0 /\ has_zero t1 = false /\ zero_value t1 = zero_value t.
Proof.
  intros Ht Hn Hs. unfold read_table. pose proof (degree_range _ _ _ _ Ht) as Hd. destruct (ok_owns _ _ _ _ Ht) as (Hinv & H48 & Hb).
  destruct (free_range_ok a live _ _ Hinv) as (a1 & Ef & Hinv1). set (t0 := set_m_size 0 (set_has_zero false t)).
  unfold mbind at 1, M_bind at 1. rewrite on_table_step. unfold tset at 1. cbn [fst snd modify]. fold t0.
  destruct (on_buffer_reads _ _ _ _ (a, t0) b p (reads_varuint n l ltac:(lia)) Hs) as (b1 & E1 & Hs1). exists a1, (set_buf 0 [] t0), b1.
  rewrite (bind_returns _ _ _ _ _ E1), Z.mod_small by lia. unfold mbind at 1, M_bind at 1. rewrite on_table_step.
  assert (free (a, t0) = (Returns tt, (a1, set_buf 0 [] t0))) as ->; [|by split_and!].
  unfold free, tget. rewrite bind_get. cbn [snd id]. change (buf t0) with (buf t). rewrite (proj2 (Z.eqb_neq (buf t) 0) Hb). cbn [negb].
  unfold getBufferSizeInBytes. change (size_degree t0) with (size_degree t). rewrite (bytes_of_size hash) by (change (2 ^ 48) with 281474976710656 in H48; lia).
  unfold on_allocator, zoom, mbind, M_bind. cbn [fst snd]. by rewrite Ef.
Qed.

Lemma read_table_spec a live t garbage ks rest b p :
  exact_log2 log2 -> 1 <= initial_size_degree <= 50 -> bytes_of (I := I) initial_size_degree < 2 ^ 60 ->
  Z.of_nat (length ks) <= 2 ^ 47 + 1 -> 4 * Z.of_nat (length ks) * sizeof_Cell < 2 ^ 60 ->
  table_ok hash a live t -> Forall value_ok ks -> state b (writeVarUInt_mem (Z.of_nat (length ks)) ++ elements_bytes ks ++ rest) p ->
  match read_table hash log2 initial_size_degree garbage ((a, t), b) with
  | (Returns _, (w, b')) => table_ok hash w.1 live w.2 /\ set_of w.2 = list_to_set ks /\ state b' rest p
  | (Throws e, _) => memory_error e
  end.
Proof.
  intros Hlog Hi Hib Hn Hn' Ht Hks Hs. destruct (read_table_start a live t garbage (Z.of_nat (length ks)) _ b p Ht ltac:(lia) Hs) as (a1 & t1 & b1 & Er & Hs1 & Hinv1 & _ & Est & Em & Ez & Ezv). rewrite Er.
  destruct (set_size_range (Z.of_nat (length ks)) Hlog Hi Hib ltac:(lia) Hn') as [Hd Hb]. set (d := set_size log2 initial_size_degree (Z.of_nat (length ks))) in *.
  pose proof (table_alloc_spec hash a1 live t1 d Hinv1) as Ha. rewrite Est, Ezv in Ha. specialize (Ha (ok_state _ _ _ _ Ht) Hd Hb Em Ez (ok_zero_cell _ _ _ _ Ht)).
  unfold mbind at 1, M_bind at 1. rewrite on_table_step. destruct (alloc d (a1, t1)) as [[[]|e] [a2 t2]]; cbn [fst snd] in *; [|right; exists a1, a2, (bytes_of d); apply Ha].
  destruct Ha as (Ht2 & Hm2 & _). rewrite Nat2Z.id. pose proof (read_elements_spec live garbage rest p ks a2 t2 b1 Ht2 Hks Hs1) as Hr.
  match goal with |- match ?r with _ => _ end => change r with (read_elements hash log2 initial_size_degree garbage (length ks) ((a2, t2), b1)) end.
  destruct (read_elements _ _ _ _ _ _) as [[[]|e] [w b']]; [|left; apply Hr]. destruct Hr as (Hw & Hsw & Hs'). split_and!; [done| |done]. rewrite Hsw. unfold set_of. rewrite Hm2, dom_empty_L. apply (left_id_L _ _).
Qed.

(** [resize] for a number of elements keeps the elements, whether the table
    grows or is large enough. *)
Lemma resize_for a live t n :
  exact_log2 log2 -> 1 <= initial_size_degree <= 50 -> bytes_of (I := I) initial_size_degree < 2 ^ 60 ->
  0 <= n <= 2 ^ 47 + 1 -> 4 * n * sizeof_Cell < 2 ^ 60 -> table_ok hash a live t ->
  match resize hash log2 initial_size_degree n 0 (a, t) with
  | (Returns _, w) => table_ok hash w.1 live w.2 /\ set_of w.2 = set_of t
  | (Throws e, w) => table_ok hash w.1 live w.2 /\ set_of w.2 = set_of t /\ allocator_error (A := A) e
  end.
Proof.
  intros Hlog Hi Hib Hn Hn' Ht. pose proof (degree_range _ _ _ _ Ht) as Hd. destruct Ht as [Hst Hbuf Hown Hload Hm Hz1 Hz2] eqn:Et. clear Et. pose proof Hbuf as [Hok _].
  assert (forall a' t', owns a' live t' -> t' = t -> table_ok hash a' live t') as Hkeep by (intros a' t' Ho ->; by split).
  destruct (Z.eq_dec n 0) as [->|Hn0].
  - pose proof (resize_full hash log2 initial_size_degree a live t Hst Hbuf Hown ltac:(lia) Hm Hz1 Hz2) as Hr.
    destruct (resize hash log2 initial_size_degree 0 0 (a, t)) as [[u|e] [a' t']]; cbn [fst snd] in *.
    + destruct Hr as (Hok' & Hp & _). split; [done|]. unfold set_of. f_equal. apply table_map_perm; [by eapply contents_nodup|done].
    + destruct Hr as (-> & Ho & old & new & Er). split_and!; [by apply Hkeep|done|]. by exists a, a', (buf t), old, new.
  - destruct (set_size_range n Hlog Hi Hib Hn Hn') as [Hd' Hb']. set (d' := set_size log2 initial_size_degree n) in *.
    destruct (resize_grower log2 initial_size_degree (size_degree t) n 0) as [g|] eqn:Eg.
    2: { unfold resize, tget. rewrite bind_get. cbn [snd id]. rewrite Eg. done. }
    assert (g = d' /\ size_degree t < d') as [-> Hlt].
    { unfold resize_grower in Eg. rewrite (proj2 (Z.eqb_neq n 0)) in Eg by done. cbn [negb] in Eg. fold d' in Eg. destruct (Z.leb_spec (bufSize d') (bufSize (size_degree t))) as [|Hlt]; [done|].
      injection Eg as <-. split; [done|]. rewrite !bufSize_pow in Hlt by lia. by apply Z.pow_lt_mono_r_iff in Hlt; [|lia..]. }
    assert (2 ^ size_degree t + 2 ^ size_degree t <= 2 ^ d') as Hp2 by (rewrite Z.add_diag, <- Z.pow_succ_r by lia; apply Z.pow_le_mono_r; lia).
    assert (2 ^ (size_degree t - 1) < 2 ^ size_degree t) as Hp1 by (apply Z.pow_lt_mono_r; lia).
    pose proof (resize_spec hash log2 initial_size_degree a live t n 0 d' Hst Hok Hown Eg ltac:(lia) Hb' ltac:(lia)) as Hr.
    destruct (resize hash log2 initial_size_degree n 0 (a, t)) as [[u|e] [a' t']]; cbn [fst snd] in *.
    2: { destruct Hr as (-> & Ho & new & Er). split_and!; [by apply Hkeep|done|]. by eexists a, a', (buf t), _, new. }
    destruct Hr as (p & b' & -> & Ho & Hbuf' & Hperm).
    assert (contents (set_grower d' (set_buf p b' t)) ≡ₚ contents t) as Hcont by (unfold contents, zero_entry; cbn [cells table_state set_grower set_buf has_zero zero_value]; by rewrite Hperm).
    split; [|unfold set_of; f_equal; apply table_map_perm; [by eapply contents_nodup|done]].
    split; cbn [cells table_state set_grower set_buf has_zero zero_value size_degree m_size]; try done; [|by rewrite Hcont].
    rewrite Hperm. assert (2 ^ size_degree t <= 2 ^ (d' - 1)) by (apply Z.pow_le_mono_r; lia). lia.
Qed.

Lemma readAndMerge_spec a live t garbage ks rest b p :
  exact_log2 log2 -> 1 <= initial_size_degree <= 50 -> bytes_of (I := I) initial_size_degree < 2 ^ 60 ->
  Z.of_nat (length ks) <= 2 ^ 47 + 1 -> 4 * Z.of_nat (length ks) * sizeof_Cell < 2 ^ 60 ->
  table_ok hash a live t -> Forall value_ok ks -> state b (writeVarUInt_mem (Z.of_nat (length ks)) ++ elements_bytes ks ++ rest) p ->
  match readAndMerge hash log2 initial_size_degree garbage ((a, t), b) with
  | (Returns _, (w, b')) => table_ok hash w.1 live w.2 /\ set_of w.2 = set_of t ∪ list_to_set ks /\ state b' rest p
  | (Throws e, (w, _)) => table_ok hash w.1 live w.2 /\ allocator_error (A := A) e
  end.
Proof.
  intros Hlog Hi Hib Hn Hn' Ht Hks Hs. unfold readAndMerge.
  destruct (on_buffer_reads _ _ _ _ (a, t) b p (reads_varuint (Z.of_nat (length ks)) (elements_bytes ks ++ rest) ltac:(lia)) Hs) as (b1 & E1 & Hs1).
  rewrite (bind_returns _ _ _ _ _ E1), Z.mod_small by lia. unfold mbind at 1, M_bind at 1. rewrite on_table_step.
  pose proof (resize_for a live t (Z.of_nat (length ks)) Hlog Hi Hib ltac:(lia) Hn' Ht) as Hr.
  destruct (resize hash log2 initial_size_degree (Z.of_nat (length ks)) 0 (a, t)) as [[u|e] [a1 t1]]; cbn [fst snd] in *; [|tauto].
  destruct Hr as [Ht1 Hset]. rewrite Nat2Z.id. pose proof (read_elements_spec live garbage rest p ks a1 t1 b1 Ht1 Hks Hs1) as Hr.
  match goal with |- match ?r with _ => _ end => change r with (read_elements hash log2 initial_size_degree garbage (length ks) ((a1, t1), b1)) end.
  rewrite Hset in Hr. destruct (read_elements _ _ _ _ _ _) as [[[]|e] [w b']]; exact Hr.
Qed.
End ReadingProofs.

Section ReaderProofs.
Context {Key Value State C : Type} `{I : !Cell Key Value State C} `{IO : !CellIO C} `{LIO : !CellIOLaws I IO} {D : Type} `{LD : ReadBufferLaws D}.
Implicit Types (b : rbuf D) (vs : list Value).

Lemma reader_zoom {X B} (m : M (rbuf D) X) (k : X -> M (Reader C * rbuf D) B) l x l' r b p :
  reads m l (Returns x) l' -> state b l p -> exists b', (zoom snd (fun b s => (s.1, b)) m ≫= k) (r, b) = k x (r, b') /\ state b' l' p.
Proof. intros Hm Hs. destruct (Hm b p Hs) as (b' & E & Hs'). exists b'. unfold mbind, M_bind, zoom. cbn [snd fst]. by rewrite E. Qed.

(** After the size, each [next] reads an element. *)
Lemma reader_rest n rest p vs : forall c k b fuel,
  0 <= k -> k + Z.of_nat (length vs) = n -> n < 2 ^ 63 -> Forall value_ok vs -> (length vs < fuel)%nat -> state b (elements_bytes vs ++ rest) p ->
  exists c' b', reader_all fuel (MkReader c k n false true, b) = (Returns vs, (MkReader c' n n true true, b')) /\ state b' rest p.
Proof.
  induction vs as [|v vs IH]; intros c k b [|fuel] Hk Hn Hb Hv Hf Hs; cbn [length] in *; try lia; cbn [reader_all]; unfold reader_next; rewrite bind_assoc, bind_get; cbn [fst is_initialized negb].
  - rewrite bind_assoc, bind_ret, bind_assoc, bind_get. cbn [fst read_count reader_size]. rewrite (proj2 (Z.eqb_eq k n)) by lia. exists c, b. replace k with n by lia. done.
  - apply list.Forall_cons in Hv as [Hv Hvs]. change (elements_bytes (v :: vs)) with (value_bytes v ++ elements_bytes vs) in Hs. rewrite <- app_assoc in Hs.
    rewrite bind_assoc, bind_ret, bind_assoc, bind_get. cbn [fst read_count reader_size reader_cell]. rewrite (proj2 (Z.eqb_neq k n)) by lia. rewrite bind_assoc.
    destruct (read_cell_ok c v (elements_bytes vs ++ rest) Hv) as (c1 & Hr & Hg).
    match goal with |- context [(_ ≫= ?K) _] => destruct (reader_zoom _ K _ _ _ (MkReader c k n false true) b p Hr Hs) as (b1 & E1 & Hs1) end. rewrite E1.
    rewrite bind_assoc, bind_modify, bind_ret. cbn [fst snd reader_cell read_count reader_size is_eof is_initialized]. rewrite bind_get, (wrap_small 64 (k + 1)) by (unfold fits; lia).
    unfold reader_get at 1. cbn [fst is_initialized is_eof negb orb reader_cell]. rewrite bind_lift, Hg.
    destruct (IH c1 (k + 1) b1 fuel ltac:(lia) ltac:(lia) Hb Hvs ltac:(lia) Hs1) as (c' & b' & E & Hs'). rewrite (bind_returns _ _ _ _ _ E). by exists c', b'.
Qed.

Lemma reader_all_spec garbage size rest p vs b fuel :
  Z.of_nat (length vs) < 2 ^ 63 -> Forall value_ok vs -> (length vs < fuel)%nat ->
  state b (writeVarUInt_mem (Z.of_nat (length vs)) ++ elements_bytes vs ++ rest) p ->
  exists r b', reader_all fuel (Reader_new garbage size, b) = (Returns vs, (r, b')) /\ reader_get r = Throws NO_AVAILABLE_DATA /\ state b' rest p.
Proof.
  intros Hn Hv Hf Hs. set (n := Z.of_nat (length vs)) in *.
  destruct (reads_varuint n (elements_bytes vs ++ rest) ltac:(lia) b p Hs) as (b1 & E1 & Hs1). rewrite Z.mod_small in E1 by lia.
  destruct (reader_rest n rest p vs garbage 0 b1 fuel ltac:(lia) ltac:(lia) Hn Hv Hf Hs1) as (c' & b' & E & Hs').
  exists (MkReader c' n n true true), b'. split_and!; [|done|done]. rewrite <- E. destruct fuel as [|fuel]; [lia|]. cbn [reader_all].
  assert (reader_next (Reader_new garbage size, b) = reader_next (MkReader garbage 0 n false true, b1)) as En; [|unfold mbind at 1 3, M_bind at 1 3; by rewrite En].
  unfold reader_next, Reader_new. rewrite !bind_get. cbn [fst is_initialized negb]. rewrite bind_assoc.
  assert (zoom snd (fun b s => (s.1, b)) readVarUInt (MkReader garbage 0 size false false, b) = (Returns n, (MkReader garbage 0 size false false, b1))) as Ez by (unfold zoom; cbn [snd fst]; by rewrite E1).
  rewrite (bind_returns _ _ _ _ _ Ez). done.
Qed.
End ReaderProofs.

(** ** A size that is too large *)

Section Overflow.
Context {Key State C A : Type} `{Countable Key} `{I : !Cell Key Key State C} `{LA : AllocatorLaws A} (hash : Key -> Z) `{L : !CellLaws hash I}.
Context `{G : Grower} (log2 : Z -> Z) (initial_size_degree : Z) (getKey_id : forall x : Key, getKey x = x).
Context `{IO : !CellIO C} `{LIO : !CellIOLaws I IO} {D : Type} `{LD : ReadBufferLaws D}.
Implicit Types (t : HashTable C State) (a : A) (live : list (Z * Z)) (b : rbuf D).

(** Without cells, an insertion looks outside of the memory. *)
Lemma insert_no_cells a t x : isZero_key (getKey x) (table_state t) = false -> cells t = [] -> exists w, insert hash log2 initial_size_degree x (a, t) = (Throws BUFFER_OVERRUN, w).
Proof.
  intros Hz Hc. exists (a, t). unfold insert, emplace_hash, emplaceIfZero. rewrite bind_assoc.
  assert (forall (k : option (cell_ptr * bool) -> M (world (C := C) (State := State) (A := A)) (cell_ptr * bool)),
    ((if negb need_zero_value_storage then mret None else
      t ← tget id;
      if isZero_key (getKey x) (table_state t) then
        if negb (has_zero t) then
          _ ← tset (fun t => set_m_size (m_size t +64 1) t); _ ← setHasZero;
          _ ← tset (fun t => set_zero_value (setHash (hash (getKey x)) (zero_value t)) t); mret (Some (ZeroValue, true))
        else mret (Some (ZeroValue, false))
      else mret None) ≫= k) (a, t) = k None (a, t)) as Hk.
  { intros k. destruct (negb need_zero_value_storage); [done|]. unfold tget. rewrite bind_assoc, bind_get. cbn [snd id]. by rewrite Hz. }
  rewrite Hk. unfold emplaceNonZero, tget. rewrite bind_assoc, bind_get. unfold findCell, tget. rewrite !bind_assoc, bind_get. cbn [snd id]. rewrite Hc. cbn [length findCell_loop].
  set (q := place _ _). assert (nth_cell (C := C) [] q = Throws BUFFER_OVERRUN) as En by (unfold nth_cell; by destruct (0 <=? q)). rewrite En. done.
Qed.

(** [bufSize * sizeof(Cell)] is 2^64. *)
Lemma overflowing_alloc a t q a' : sizeof_Cell = 8 -> alloc_range 0 a = (Returns q, a') -> alloc 61 (a, t) = (Returns tt, (a', set_grower 61 (set_buf q [] t))).
Proof.
  intros Hs Ha. unfold alloc. rewrite Hs. change (bufSize 61 *64 8) with 0. unfold on_allocator, zoom, mbind, M_bind. cbn [fst snd]. rewrite Ha. done.
Qed.

(** A stream that claims between 2^59 + 1 and 2^60 elements of eight bytes
    makes read ask for 2^61 * 8 bytes, which is 0 in size_t: nothing is
    refused, no cell is allocated, and the first element with a key other than
    zero is stored outside of the memory. *)
Theorem read_size_overflow a live t garbage n k rest b p :
  sizeof_Cell = 8 -> initial_size_degree <= 61 -> log2 (n - 1) = 59 -> 2 ^ 59 < n <= 2 ^ 60 ->
  (forall a1, free_range (buf t) (bytes_of (size_degree t)) a = (Returns tt, a1) -> exists q a2, alloc_range 0 a1 = (Returns q, a2)) ->
  table_ok hash a live t -> isZero_key k (table_state t) = false -> value_ok k ->
  state b (writeVarUInt_mem n ++ elements_bytes [k] ++ rest) p ->
  exists s, read_table hash log2 initial_size_degree garbage ((a, t), b) = (Throws BUFFER_OVERRUN, s).
Proof.
  intros Hsz Hi Hlog Hn Hzero Ht Hz Hk Hs. destruct (read_table_start hash log2 initial_size_degree a live t garbage n _ b p Ht ltac:(lia) Hs) as (a1 & t1 & b1 & Er & Hs1 & _ & Ef & Est & _).
  assert (set_size log2 initial_size_degree n = 61) as Ed.
  { unfold set_size. rewrite (proj2 (Z.leb_gt n 1)), Hlog by lia. change (59 +64 2) with 61. by rewrite (proj2 (Z.ltb_ge 61 initial_size_degree)) by lia. }
  destruct (Hzero a1 Ef) as (q & a2 & Ea). rewrite Er, Ed.
  assert (on_table (D := D) (alloc 61) ((a1, t1), b1) = (Returns tt, ((a2, set_grower 61 (set_buf q [] t1)), b1))) as Et by (unfold on_table, zoom; cbn [fst snd]; by rewrite (overflowing_alloc a1 t1 q a2 Hsz Ea)).
  rewrite (bind_returns _ _ _ _ _ Et). cbn [fst snd].
  destruct (Z.to_nat n) as [|m] eqn:Em; [lia|]. cbn [read_elements]. unfold elements_bytes in Hs1. cbn [fmap list_fmap concat] in Hs1. rewrite app_nil_r in Hs1.
  destruct (read_cell_ok garbage k rest Hk) as (c & Hr & Hv). set (t2 := set_grower 61 (set_buf q [] t1)).
  destruct (on_buffer_reads _ _ _ _ (a2, t2) b1 p Hr Hs1) as (b2 & E2 & _). rewrite (bind_returns _ _ _ _ _ E2), Hv, getKey_id.
  destruct (insert_no_cells a2 t2 k) as (w & Ew); [by rewrite getKey_id; cbn [table_state t2 set_grower set_buf]; rewrite Est|done|]. 
  eexists. apply bind_throws. unfold on_table, zoom. cbn [fst snd]. by rewrite Ew.
Qed.
End Overflow.

(** ** Theorems *)

Section SetsOnTheWire.
Context {Key State C A : Type} `{Countable Key} `{I : !Cell Key Key State C} `{LA : AllocatorLaws A} (hash : Key -> Z) `{L : !CellLaws hash I}.
Context `{G : Grower} (log2 : Z -> Z) (initial_size_degree : Z) (getKey_id : forall x : Key, getKey x = x) (Hlog : exact_log2 log2).
Context (Hdegree : 1 <= initial_size_degree <= 50) (Hbytes : bytes_of (I := I) initial_size_degree < 2 ^ 60).
Context `{IO : !CellIO C} `{LIO : !CellIOLaws I IO}.
Implicit Types (t : HashTable C State) (a : A) (live : list (Z * Z)).

Lemma contents_set a live t : table_ok hash a live t -> list_to_set (contents t) = set_of t.
Proof. intros Ht. apply set_eq. intros k. by rewrite (elem_of_set_of hash a live t k getKey_id Ht), elem_of_list_to_set. Qed.

(** C17: A set that is written is read back, over all buffers and cells: read
    makes a table with the same elements, readAndMerge the union, or they throw
    what the allocator threw; a Reader yields the elements one by one, and then
    has no available data.  What follows in the stream is left. *)
Theorem set_write_read {W R} `{LW : WriteBufferLaws W} `{LR : ReadBufferLaws R} a live t a' live' t' garbage rest :
  table_ok hash a live t -> Forall value_ok (contents t) -> table_ok hash a' live' t' ->
  exists w, writes (D := W) (write_table t) tt w /\ forall (b : rbuf R) p, state b (w ++ rest) p ->
    match read_table hash log2 initial_size_degree garbage ((a', t'), b) with
    | (Returns _, (s, b')) => table_ok hash s.1 live' s.2 /\ set_of s.2 = set_of t /\ state b' rest p
    | (Throws e, _) => memory_error (A := A) e
    end /\
    match readAndMerge hash log2 initial_size_degree garbage ((a', t'), b) with
    | (Returns _, (s, b')) => table_ok hash s.1 live' s.2 /\ set_of s.2 = set_of t' ∪ set_of t /\ state b' rest p
    | (Throws e, (s, _)) => table_ok hash s.1 live' s.2 /\ allocator_error (A := A) e
    end /\
    exists r b', reader_all (S (length (contents t))) (Reader_new garbage 0, b) = (Returns (contents t), (r, b')) /\
      reader_get r = Throws NO_AVAILABLE_DATA /\ state b' rest p.
Proof.
  intros Ht Hv Ht'. exists (writeVarUInt_mem (m_size t) ++ elements_bytes (contents t)). split; [by eapply write_table_spec|]. intros b p Hs. rewrite <- app_assoc, (ok_size _ _ _ _ Ht) in Hs.
  destruct (contents_bound hash a live t Ht) as [Hn Hn']. rewrite <- (contents_set a live t Ht). split_and!.
  - exact (read_table_spec hash log2 initial_size_degree getKey_id a' live' t' garbage _ rest b p Hlog Hdegree Hbytes Hn Hn' Ht' Hv Hs).
  - exact (readAndMerge_spec hash log2 initial_size_degree getKey_id a' live' t' garbage _ rest b p Hlog Hdegree Hbytes Hn Hn' Ht' Hv Hs).
  - apply (reader_all_spec garbage 0 rest p (contents t) b); [lia|exact Hv|lia|exact Hs].
Qed.
End SetsOnTheWire.

(** ** Instances *)

#[local] Existing Instance uint64_set | 0.
#[local] Existing Instance uint64_set_laws | 0.
#[local] Existing Instance on_the_pool | 0.
#[local] Existing Instance on_the_pool_laws | 0.
#[local] Existing Instance HashTableGrower.

Definition uint64_set_io : CellIO (HashTableCell Z) := hash_table_cell_io 8.
Definition uint64_set_io_laws : CellIOLaws uint64_set uint64_set_io := hash_table_cell_io_laws 8 8 0.
#[local] Existing Instance uint64_set_io.
#[local] Existing Instance uint64_set_io_laws.

Lemma demo_contents : Forall (value_ok (CellIOLaws := uint64_set_io_laws)) (contents (I := uint64_set) (demo_inserted [5; 0; 6]).2.2).
Proof.
  assert (contents (I := uint64_set) (demo_inserted [5; 0; 6]).2.2 = [0; 5; 6] \/ contents (I := uint64_set) (demo_inserted [5; 0; 6]).2.2 = [0; 6; 5]) as [-> | ->] by (vm_compute; tauto);
    repeat constructor; cbn; lia.
Qed.

Lemma set_write_read_witness :
  exists r a t, demo_inserted [5; 0; 6] = (Returns r, (a, t)) /\
  exists w, writes (D := from_string) (write_table t) tt w /\ forall (b : rbuf from_memory) p, state b (w ++ [9]) p ->
    match read_table intHash64 Z.log2 2 (TableCell 3) ((a, t), b) with
    | (Returns _, (s, b')) => table_ok intHash64 s.1 [] s.2 /\ set_of s.2 = set_of t /\ state b' [9] p
    | (Throws e, _) => memory_error (A := pool_allocator) e
    end /\
    match readAndMerge intHash64 Z.log2 2 (TableCell 3) ((a, t), b) with
    | (Returns _, (s, b')) => table_ok intHash64 s.1 [] s.2 /\ set_of s.2 = set_of t ∪ set_of t /\ state b' [9] p
    | (Throws e, (s, _)) => table_ok intHash64 s.1 [] s.2 /\ allocator_error (A := pool_allocator) e
    end /\
    exists r b', reader_all (S (length (contents t))) (Reader_new (TableCell 3) 0, b) = (Returns (contents t), (r, b')) /\
      reader_get r = Throws NO_AVAILABLE_DATA /\ state b' [9] p.
Proof.
  pose proof demo_contents as Hc. destruct (demo_inserted_ok [5; 0; 6]) as (r & a & t & E & Ht). exists r, a, t. split; [done|]. rewrite E in Hc. cbn [fst snd] in Hc.
  apply (set_write_read (I := uint64_set) (W := from_string) (R := from_memory) intHash64 Z.log2 2 (fun _ => eq_refl) (fun _ _ => eq_refl) ltac:(lia) eq_refl a [] t a [] t (TableCell 3) [9] Ht Hc Ht).
Defined.

Lemma read_size_overflow_witness :
  exists r a t, demo_inserted [] = (Returns r, (a, t)) /\
  exists s, read_table intHash64 Z.log2 2 (TableCell 3) ((a, t), ReadBufferFromMemory (writeVarUInt_mem (2 ^ 59 + 1) ++ le_bytes 8 5)) = (Throws BUFFER_OVERRUN, s).
Proof.
  assert (match free_range (buf (demo_inserted []).2.2) (bytes_of (I := uint64_set) (size_degree (demo_inserted []).2.2)) (demo_inserted []).2.1 with
    | (Returns _, a1) => match (alloc_range 0 a1).1 with Returns _ => true | Throws _ => false end | _ => false end = true) as Hz by (vm_compute; reflexivity).
  destruct (demo_inserted_ok []) as (r & a & t & E & Ht). exists r, a, t. split; [done|]. rewrite E in Hz. cbn [fst snd] in Hz.
  eapply (read_size_overflow (I := uint64_set) (LD := memory_laws) intHash64 Z.log2 2 (fun _ => eq_refl) a [] t (TableCell 3) (2 ^ 59 + 1) 5 [] _ _ eq_refl ltac:(lia) ltac:(reflexivity) ltac:(lia)); [|exact Ht|reflexivity|cbn; lia|].
  - intros a1 Ef. rewrite Ef in Hz. destruct (alloc_range 0 a1) as [[q|e] a2]; [exists q, a2; exact eq_refl|discriminate Hz].
  - apply (memory_state (writeVarUInt_mem (2 ^ 59 + 1) ++ le_bytes 8 5)).
Defined.
