(* ===== verification/TwoLevelHashTable.v ===== *)
(** * Two-level hash tables

    dbms/src/Common/HashTable/TwoLevelHashTable.h and operator[] of
    TwoLevelHashMap.h: 256 hash tables (HashTable.v), of which a byte of the
    hash of a key chooses one.  They share an allocator; the state is the
    allocator and the list of the tables [impls].

    Shown: the table refines one finite map ([two_level_refines]), a table of
    one level is converted into one of two levels with the same elements
    ([two_level_of_table]), and what is written is read back
    ([two_write_read]). *)

From stdpp Require Import base list option numbers gmap.
From Stdlib Require Import ZArith Lia.
From S2P Require Import Prelude IOMonad ReadBuffers BufferSources WriteBuffers VarInt MemoryTracker Allocators Hash LinearProbing HashTableCells.
From S2P Require Import HashTable HashTableProofs HashTableMap HashMaps HashTableIO.

#[local] Open Scope Z_scope.
#[local] Open Scope word_scope.

(** ** Operations *)

Definition BITS_FOR_BUCKET : Z := 8.
Definition NUM_BUCKETS : Z := 1 <<64 BITS_FOR_BUCKET.
Definition MAX_BUCKET : Z := NUM_BUCKETS -64 1.

Definition getBucketFromHash (hash_value : Z) : Z := Z.land (hash_value >>64 (32 -64 BITS_FOR_BUCKET)) MAX_BUCKET.

Section Operations.
Context {Key Value State C A : Type} `{I : !Cell Key Value State C} `{!Allocator A}.
Context (hash : Key -> Z) `{G : Grower} (log2 : Z -> Z) (initial_size_degree : Z).

Definition two_world : Type := A * list (HashTable C State).

(** A call of a member of [impls[i]]. *)
Definition on_impl {X} (i : Z) (m : M (world (C := C) (State := State) (A := A)) X) : M two_world X := fun s =>
  match s.2 !! Z.to_nat i with
  | Some t => let '(r, (a, t')) := m (s.1, t) in (r, (a, <[Z.to_nat i := t']> s.2))
  | None => (Throws BUFFER_OVERRUN, s)
  end.

(** An iterator: the bucket and the iterator in it. *)
Definition two_ptr : Type := Z * cell_ptr.

Definition two_end : M two_world two_ptr :=
  e ← on_impl MAX_BUCKET (tget hash_end);
  mret (MAX_BUCKET, e).

(** The bucket is taken by reference; the result has its new value. *)
Fixpoint beginOfNextNonEmptyBucket (fuel : nat) (bucket : Z) : M two_world two_ptr :=
  match fuel with
  | O => throw NO_FUEL
  | S fuel' =>
      if bucket =? NUM_BUCKETS then
        e ← on_impl MAX_BUCKET (tget hash_end);
        mret (bucket -64 1, e)
      else
        b ← on_impl bucket (tget empty_table);
        if b : bool then beginOfNextNonEmptyBucket fuel' (bucket +64 1)
        else
          p ← on_impl bucket begin;
          mret (bucket, p)
  end.

Definition buckets_fuel : nat := S (Z.to_nat NUM_BUCKETS).

Definition two_begin : M two_world two_ptr := beginOfNextNonEmptyBucket buckets_fuel 0.

Definition two_deref (q : two_ptr) : M two_world C := on_impl q.1 (deref q.2).

(** operator++ *)
Definition two_next (q : two_ptr) : M two_world two_ptr :=
  p ← on_impl q.1 (next_ptr q.2);
  e ← on_impl q.1 (tget hash_end);
  if bool_decide (p = e) then beginOfNextNonEmptyBucket buckets_fuel (q.1 +64 1)
  else mret (q.1, p).

(** for (it = begin(); it != end(); ++it) *)
Fixpoint two_iterate (fuel : nat) (q : two_ptr) : M two_world (list C) :=
  match fuel with
  | O => throw NO_FUEL
  | S fuel' =>
      e ← two_end;
      if bool_decide (q = e) then mret []
      else
        c ← two_deref q;
        q' ← two_next q;
        l ← two_iterate fuel' q';
        mret (c :: l)
  end.

Definition two_emplace_hash (x : Key) (hash_value : Z) : M two_world (two_ptr * bool) :=
  let buck := getBucketFromHash hash_value in
  r ← on_impl buck (emplace_hash hash log2 initial_size_degree x hash_value);
  mret ((buck, r.1), r.2).

Definition two_emplace (x : Key) : M two_world (two_ptr * bool) := two_emplace_hash x (hash x).

Definition two_insert (x : Value) : M two_world (two_ptr * bool) :=
  let hash_value := hash (getKey x) in
  res ← two_emplace_hash (getKey x) hash_value;
  _ ← (if (res.2 : bool) then c ← two_deref res.1; on_impl res.1.1 (assign res.1.2 (setMapped x c)) else mret tt);
  mret res.

Definition two_find (x : Key) : M two_world two_ptr :=
  let hash_value := hash x in
  let buck := getBucketFromHash hash_value in
  found ← on_impl buck (find_hash x hash_value);
  e ← on_impl buck (tget hash_end);
  if negb (bool_decide (found = e)) then mret (buck, found) else two_end.

(** for (size_t i = 0; i < NUM_BUCKETS; ++i) res += impls[i].size() *)
Definition two_size (ts : list (HashTable C State)) : Z := foldl (fun res t => res +64 size t) 0 ts.

Fixpoint two_empty (ts : list (HashTable C State)) : bool :=
  match ts with
  | [] => true
  | t :: ts' => if negb (empty_table t) then false else two_empty ts'
  end.

Definition two_getBufferSizeInBytes (ts : list (HashTable C State)) : Z := foldl (fun res t => res +64 getBufferSizeInBytes t) 0 ts.

(** *** Construction and destruction *)

(** The destructor of a table. *)
Definition destroy_table (t : HashTable C State) : M A unit := fun a => let '(r, (a', _)) := free (a, t) in (r, a').

(** The members are destroyed in the reverse order. *)
Fixpoint destroy_impls (ts : list (HashTable C State)) : M A unit :=
  match ts with
  | [] => mret tt
  | t :: ts' => _ ← destroy_impls ts'; destroy_table t
  end.

Definition new_table (garbage : C) (st : State) : M A (HashTable C State) := fun a =>
  match HashTable_new initial_size_degree garbage st (a, fresh_table garbage st initial_size_degree) with
  | (Returns _, (a', t)) => (Returns t, a')
  | (Throws e, (a', _)) => (Throws e, a')
  end.

(** The tables are constructed in order; when one cannot be, those before it
    are destroyed. *)
Fixpoint new_impls (garbage : C) (st : State) (n : nat) : M A (list (HashTable C State)) :=
  match n with
  | O => mret []
  | S n' =>
      t ← new_table garbage st;
      ts ← try_catch (new_impls garbage st n') (fun e => _ ← destroy_table t; throw e);
      mret (t :: ts)
  end.

Definition TwoLevelHashTable_new (garbage : C) (st : State) : M A (list (HashTable C State)) := new_impls garbage st (Z.to_nat NUM_BUCKETS).

Fixpoint insert_unique_cells (l : list C) : M two_world unit :=
  match l with
  | [] => mret tt
  | cell :: l' =>
      let hash_value := getHash hash cell in
      _ ← on_impl (getBucketFromHash hash_value) (insertUniqueNonZero hash log2 initial_size_degree cell hash_value);
      insert_unique_cells l'
  end.

(** The body of the constructor from a table of one level. *)
Definition insert_source (src : HashTable C State) : M two_world unit :=
  cs ← get (fun s : two_world => (for_each (s.1, src)).1);
  l ← lift cs;
  match l with
  | c :: l' => if isZero c (table_state src) then _ ← two_insert (getValue c); insert_unique_cells l' else insert_unique_cells l
  | [] => mret tt
  end.

(** A constructor whose body is [m]: when it throws, the members are
    destroyed. *)
Definition construct (m : M two_world unit) (impls : list (HashTable C State)) : M A (list (HashTable C State)) := fun a =>
  match m (a, impls) with
  | (Returns _, (a', ts)) => (Returns ts, a')
  | (Throws e, (a', ts)) => (_ ← destroy_impls ts; throw e) a'
  end.

Definition TwoLevelHashTable_of (garbage : C) (st : State) (src : HashTable C State) : M A (list (HashTable C State)) :=
  impls ← TwoLevelHashTable_new garbage st;
  construct (insert_source src) impls.
End Operations.

(** TwoLevelHashMapTable::operator[] *)
Definition two_subscript {Key Mapped State C A : Type} `{I : !Cell Key (PairNoInit Key Mapped) State C} `{!Allocator A} (hash : Key -> Z) `{G : Grower} (log2 : Z -> Z)
    (initial_size_degree : Z) (zero_mapped : Mapped) (x : Key) : M (two_world (C := C) (State := State) (A := A)) two_ptr :=
  res ← two_emplace hash log2 initial_size_degree x;
  _ ← (if (res.2 : bool) then c ← two_deref res.1; on_impl res.1.1 (assign res.1.2 (setMapped (Pair (key_of c) zero_mapped) c)) else mret tt);
  mret res.1.

(** ** The invariant *)

Lemma bucket_range h : 0 <= getBucketFromHash h < 256.
Proof.
  unfold getBucketFromHash. change MAX_BUCKET with (Z.ones 8). rewrite Z.land_ones by lia. apply Z.mod_pos_bound. lia.
Qed.

Lemma delete_insert_list {X} (l : list X) i x : delete i (<[i := x]> l) = delete i l.
Proof. revert i. induction l as [|y l IH]; intros [|i]; [done|done|done|]. cbn. f_equal. apply IH. Qed.

Section Invariant.
Context {Key Value State C A : Type} `{Countable Key} `{I : !Cell Key Value State C} `{LA : AllocatorLaws A} (hash : Key -> Z) `{L : !CellLaws hash I}.
Implicit Types (t : HashTable C State) (ts : list (HashTable C State)) (a : A) (live : list (Z * Z)).

Definition range t : Z * Z := (buf t, bytes_of (I := I) (size_degree t)).

(** The table is in order whenever its memory is allocated. *)
Definition intact t : Prop := forall a live, alloc_inv a (range t :: live) -> table_ok hash a live t.

Definition homed (i : Z) t : Prop := forall v, v ∈ contents t -> getBucketFromHash (hash (getKey v)) = i.

Record two_ok a live ts : Prop := {
  two_length : length ts = 256%nat;
  two_ranges : alloc_inv a ((range <$> ts) ++ live);
  two_intact : forall i t, ts !! i = Some t -> intact t /\ homed (Z.of_nat i) t
}.

Definition two_contents ts : list Value := concat (contents <$> ts).

Definition two_map ts : gmap Key Value := list_to_map ((fun v => (getKey v, v)) <$> two_contents ts).

Lemma ok_intact a live t : table_ok hash a live t -> intact t.
Proof. intros [? ? (_ & ? & ?) ? ? ? ?] a' live' Ha. by split. Qed.

Lemma two_at a live ts i t : two_ok a live ts -> ts !! i = Some t -> table_ok hash a ((range <$> delete i ts) ++ live) t.
Proof.
  intros Ho Et. apply (two_intact _ _ _ Ho i t Et). eapply alloc_inv_perm; [|apply Ho]. by rewrite (delete_Permutation ts i t Et) at 1.
Qed.

Lemma two_put a live ts i t a' t' :
  two_ok a live ts -> ts !! i = Some t -> table_ok hash a' ((range <$> delete i ts) ++ live) t' -> homed (Z.of_nat i) t' -> two_ok a' live (<[i := t']> ts).
Proof.
  intros Ho Et Ht' Hh. pose proof (lookup_lt_Some _ _ _ Et) as Hi. split.
  - rewrite length_insert. apply Ho.
  - destruct (ok_owns _ _ _ _ Ht') as (Hinv & _). eapply alloc_inv_perm; [|exact Hinv]. rewrite (delete_Permutation (<[i := t']> ts) i t') by (by rewrite list_lookup_insert_eq).
    by rewrite delete_insert_list.
  - intros j u Ej. destruct (decide (i = j)) as [<-|Hne].
    + rewrite list_lookup_insert_eq in Ej by done. injection Ej as <-. split; [by eapply ok_intact|done].
    + rewrite list_lookup_insert_ne in Ej by done. by apply Ho.
Qed.

Lemma two_bucket a live ts h : two_ok a live ts -> exists t, ts !! Z.to_nat (getBucketFromHash h) = Some t.
Proof. intros Ho. apply lookup_lt_is_Some. rewrite (two_length _ _ _ Ho). pose proof (bucket_range h). lia. Qed.

Lemma elem_of_two_contents ts v : v ∈ two_contents ts <-> exists i t, ts !! i = Some t /\ v ∈ contents t.
Proof.
  unfold two_contents. rewrite list_elem_of_In, in_concat. setoid_rewrite <- list_elem_of_In. split.
  - intros (l & (t & -> & Ht)%list_elem_of_fmap & Hv). apply list_elem_of_lookup in Ht as [i Ei]. by exists i, t.
  - intros (i & t & Ei & Hv). exists (contents t). split; [|done]. apply list_elem_of_fmap_2. by eapply list_elem_of_lookup_2.
Qed.

Lemma two_nodup_from n ts :
  (forall i t, ts !! i = Some t -> NoDup (getKey <$> contents t) /\ homed (Z.of_nat (n + i)) t) -> NoDup (getKey <$> two_contents ts).
Proof.
  revert n. induction ts as [|t ts IH]; intros n Hall; [apply NoDup_nil_2|]. change (two_contents (t :: ts)) with (contents t ++ two_contents ts). rewrite fmap_app. apply NoDup_app. split_and!.
  - by apply (Hall 0%nat).
  - intros k (v & -> & Hv)%list_elem_of_fmap (v' & Ek & Hv')%list_elem_of_fmap. apply elem_of_two_contents in Hv' as (i & u & Ei & Hu).
    destruct (Hall 0%nat t eq_refl) as [_ Hz]. destruct (Hall (S i) u Ei) as [_ Hi]. specialize (Hz v Hv). specialize (Hi v' Hu). rewrite Ek in Hz. lia.
  - apply (IH (S n)). intros i u Ei. destruct (Hall (S i) u Ei) as [H1 H2]. split; [done|]. by replace (S n + i)%nat with (n + S i)%nat by lia.
Qed.

Lemma two_nodup a live ts : two_ok a live ts -> NoDup (getKey <$> two_contents ts).
Proof.
  intros Ho. apply (two_nodup_from 0). intros i t Ei. split; [|by apply Ho]. eapply contents_nodup. by eapply two_at.
Qed.

Lemma two_map_lookup a live ts k v : two_ok a live ts -> two_map ts !! k = Some v <-> v ∈ two_contents ts /\ getKey v = k.
Proof.
  intros Ho. unfold two_map. rewrite <- elem_of_list_to_map by (rewrite table_map_keys; by eapply two_nodup). rewrite list_elem_of_fmap. split.
  - by intros (u & [= -> ->] & Hu).
  - intros [Hv <-]. by exists v.
Qed.

(** A key is looked for in its bucket. *)
Lemma two_lookup a live ts k t : two_ok a live ts -> ts !! Z.to_nat (getBucketFromHash (hash k)) = Some t -> two_map ts !! k = table_map t !! k.
Proof.
  intros Ho Et. apply option_eq. intros v. rewrite (two_map_lookup a live ts k v Ho), elem_of_two_contents.
  rewrite (table_map_lookup hash _ _ _ k v (two_at _ _ _ _ _ Ho Et)). split; [|intros [Hv Hk]; split; [by eexists _, t|done]].
  intros [(i & u & Ei & Hu) Hk]. split; [|done]. destruct (two_intact _ _ _ Ho i u Ei) as [_ Hh]. specialize (Hh v Hu). rewrite Hk in Hh. rewrite Hh, Nat2Z.id in Et. congruence.
Qed.

(** The map after a change of one bucket. *)
Lemma two_update a live ts i t a' t' k :
  two_ok a live ts -> ts !! i = Some t -> two_ok a' live (<[i := t']> ts) ->
  two_map (<[i := t']> ts) !! k = if decide (Z.to_nat (getBucketFromHash (hash k)) = i) then table_map t' !! k else two_map ts !! k.
Proof.
  intros Ho Et Ho'. destruct (two_bucket a live ts (hash k) Ho) as (u & Eu). pose proof (lookup_lt_Some _ _ _ Et) as Hi. destruct (decide _) as [Ek|Hne].
  - apply (two_lookup a' live); [done|]. rewrite Ek. by rewrite list_lookup_insert_eq.
  - rewrite (two_lookup a live ts k u Ho Eu). apply (two_lookup a' live); [done|]. by rewrite list_lookup_insert_ne by done.
Qed.
End Invariant.

(** ** Inserting and searching *)

Section Single.
Context {Key Value State C A : Type} `{Countable Key} `{I : !Cell Key Value State C} `{LA : AllocatorLaws A} (hash : Key -> Z) `{L : !CellLaws hash I}.
Context `{G : Grower} (log2 : Z -> Z) (initial_size_degree : Z).
Implicit Types (t : HashTable C State) (ts : list (HashTable C State)) (a : A) (live : list (Z * Z)).

Lemma on_impl_run {X} (m : M (world (C := C) (State := State) (A := A)) X) i a ts t r a' t' :
  ts !! Z.to_nat i = Some t -> m (a, t) = (r, (a', t')) -> on_impl i m (a, ts) = (r, (a', <[Z.to_nat i := t']> ts)).
Proof. intros Et Em. unfold on_impl. cbn [fst snd]. by rewrite Et, Em. Qed.

Lemma on_impl_same {X} (m : M (world (C := C) (State := State) (A := A)) X) i a ts t r a' :
  ts !! Z.to_nat i = Some t -> m (a, t) = (r, (a', t)) -> on_impl i m (a, ts) = (r, (a', ts)).
Proof. intros Et Em. rewrite (on_impl_run m i a ts t r a' t Et Em). by rewrite list_insert_id. Qed.

(** emplace, then [f] on the new cell: insert and operator[]. *)
Definition emplace_with (f : C -> C) (x : Key) : M (world (C := C) (State := State) (A := A)) (cell_ptr * bool) :=
  res ← emplace_hash hash log2 initial_size_degree x (hash x);
  _ ← (if (res.2 : bool) then c ← deref res.1; assign res.1 (f c) else mret tt);
  mret res.

Definition two_emplace_with (f : C -> C) (x : Key) : M (two_world (C := C) (State := State) (A := A)) (two_ptr * bool) :=
  res ← two_emplace_hash hash log2 initial_size_degree x (hash x);
  _ ← (if (res.2 : bool) then c ← two_deref res.1; on_impl res.1.1 (assign res.1.2 (f c)) else mret tt);
  mret res.

(** What is done with a new cell is done in the bucket. *)
Lemma emplace_then_impl (f : C -> C) a ts t x :
  let buck := getBucketFromHash (hash x) in
  ts !! Z.to_nat buck = Some t ->
  two_emplace_with f x (a, ts) =
  match emplace_with f x (a, t) with
  | (Returns r, (a', t')) => (Returns ((buck, r.1), r.2), (a', <[Z.to_nat buck := t']> ts))
  | (Throws e, (a', t')) => (Throws e, (a', <[Z.to_nat buck := t']> ts))
  end.
Proof.
  intros buck Et. pose proof (lookup_lt_Some _ _ _ Et) as Hlt. unfold two_emplace_with, emplace_with, two_emplace_hash. fold buck. rewrite bind_assoc.
  destruct (emplace_hash hash log2 initial_size_degree x (hash x) (a, t)) as [[[p ins]|e] [a1 t1]] eqn:E.
  2: { rewrite (bind_throws _ _ _ _ _ (on_impl_run _ _ _ _ _ _ _ _ Et E)), (bind_throws _ _ _ _ _ E). done. }
  rewrite (bind_returns _ _ _ _ _ (on_impl_run _ _ _ _ _ _ _ _ Et E)), (bind_returns _ _ _ _ _ E), bind_ret. cbn [fst snd]. destruct ins; [|done]. unfold two_deref. cbn [fst snd].
  assert (<[Z.to_nat buck := t1]> ts !! Z.to_nat buck = Some t1) as E1 by (by rewrite list_lookup_insert_eq). rewrite !bind_assoc.
  destruct (deref p (a1, t1)) as [[c|e] [a2 t2]] eqn:Ed.
  2: { rewrite (bind_throws _ _ _ _ _ (on_impl_run _ _ _ _ _ _ _ _ E1 Ed)), (bind_throws _ _ _ _ _ Ed). by rewrite list_insert_insert_eq. }
  rewrite (bind_returns _ _ _ _ _ (on_impl_run _ _ _ _ _ _ _ _ E1 Ed)), (bind_returns _ _ _ _ _ Ed), list_insert_insert_eq.
  assert (<[Z.to_nat buck := t2]> ts !! Z.to_nat buck = Some t2) as E2 by (by rewrite list_lookup_insert_eq).
  destruct (assign p (f c) (a2, t2)) as [[u|e] [a3 t3]] eqn:Ea.
  - rewrite (bind_returns _ _ _ _ _ (on_impl_run _ _ _ _ _ _ _ _ E2 Ea)), (bind_returns _ _ _ _ _ Ea), list_insert_insert_eq. done.
  - rewrite (bind_throws _ _ _ _ _ (on_impl_run _ _ _ _ _ _ _ _ E2 Ea)), (bind_throws _ _ _ _ _ Ea), list_insert_insert_eq. done.
Qed.

Lemma homed_map a live t i : table_ok hash a live t -> homed hash i t <-> forall k v, table_map t !! k = Some v -> getBucketFromHash (hash k) = i.
Proof.
  intros Ht. split.
  - intros Hh k v E. apply (table_map_lookup hash _ _ _ _ _ Ht) in E as [Hv <-]. by apply Hh.
  - intros Hh v Hv. apply (Hh _ v). by apply (table_map_lookup hash _ _ _ _ _ Ht).
Qed.

(** A bucket that gets an element with a key of its own, or none. *)
Lemma two_put_insert a live ts t a' t' x :
  let i := Z.to_nat (getBucketFromHash (hash (getKey x))) in
  two_ok hash a live ts -> ts !! i = Some t -> table_ok hash a' ((range <$> delete i ts) ++ live) t' ->
  (table_map t' = insert_map x (table_map t) -> two_ok hash a' live (<[i := t']> ts) /\ two_map (<[i := t']> ts) = insert_map x (two_map ts)) /\
  (table_map t' = table_map t -> two_ok hash a' live (<[i := t']> ts) /\ two_map (<[i := t']> ts) = two_map ts).
Proof.
  intros i Ho Et Ht'. pose proof (two_at hash _ _ _ _ _ Ho Et) as Ht. pose proof (bucket_range (hash (getKey x))) as Hb.
  pose proof (proj1 (homed_map _ _ _ _ Ht) (proj2 (two_intact _ _ _ _ Ho i t Et))) as Hh.
  assert (Z.of_nat i = getBucketFromHash (hash (getKey x))) as Ei by lia. pose proof (two_lookup hash a live ts (getKey x) t Ho Et) as Ex. split; intros Hm.
  - assert (two_ok hash a' live (<[i := t']> ts)) as Ho'.
    { apply (two_put hash a live ts i t a' t' Ho Et Ht'). apply (homed_map _ _ _ _ Ht'). intros k v. rewrite Hm. unfold insert_map.
      destruct (table_map t !! getKey x); [apply Hh|]. rewrite lookup_insert_Some. intros [[<- _]|[_ E]]; [done|by eapply Hh]. }
    split; [done|]. apply map_eq. intros k. rewrite (two_update hash a live ts i t a' t' k Ho Et Ho'), Hm. unfold insert_map. rewrite Ex. destruct (decide _) as [Ek|Hne].
    + assert (two_map ts !! k = table_map t !! k) as Ek' by (apply (two_lookup hash a live); [done|by rewrite Ek]). destruct (table_map t !! getKey x); [done|]. by rewrite !lookup_insert, Ek'.
    + destruct (table_map t !! getKey x); [done|]. rewrite lookup_insert_ne; [done|]. intros <-. done.
  - assert (two_ok hash a' live (<[i := t']> ts)) as Ho'.
    { apply (two_put hash a live ts i t a' t' Ho Et Ht'). apply (homed_map _ _ _ _ Ht'). by rewrite Hm. }
    split; [done|]. apply map_eq. intros k. rewrite (two_update hash a live ts i t a' t' k Ho Et Ho'), Hm. destruct (decide _) as [Ek|]; [|done]. symmetry. apply (two_lookup hash a live); [done|]. by rewrite Ek.
Qed.

Lemma two_insert_spec a live ts x :
  two_ok hash a live ts ->
  match two_insert hash log2 initial_size_degree x (a, ts) with
  | (Returns (q, inserted), w) => two_ok hash w.1 live w.2 /\ two_map w.2 = insert_map x (two_map ts) /\ inserted = bool_decide (two_map ts !! getKey x = None)
  | (Throws e, w) => two_ok hash w.1 live w.2 /\ two_map w.2 = two_map ts /\ allocator_error (A := A) e /\ two_map ts !! getKey x = None
  end.
Proof.
  intros Ho. destruct (two_bucket hash a live ts (hash (getKey x)) Ho) as (t & Et). pose proof (two_at hash _ _ _ _ _ Ho Et) as Ht.
  change (two_insert hash log2 initial_size_degree x) with (two_emplace_with (setMapped x) (getKey x)). rewrite (emplace_then_impl (setMapped x) a ts t (getKey x) Et), (two_lookup hash a live ts (getKey x) t Ho Et).
  change (emplace_with (setMapped x) (getKey x) (a, t)) with (insert hash log2 initial_size_degree x (a, t)).
  pose proof (table_insert_spec hash log2 initial_size_degree a _ t x Ht) as Hi. destruct (insert hash log2 initial_size_degree x (a, t)) as [[[p ins]|e] [a' t']]; cbn [fst snd] in *.
  - destruct Hi as (Ht' & Hm & -> & _). destruct (proj1 (two_put_insert a live ts t a' t' x Ho Et Ht') Hm). by split_and!.
  - destruct Hi as (Hnew & Ht' & Hm & old & new & Er). cbn [fst snd] in *. destruct (proj2 (two_put_insert a live ts t a' t' x Ho Et Ht') Hm). split_and!; [done|done| |done]. by exists a, a', (buf t), old, new.
Qed.

Lemma two_last a live ts : two_ok hash a live ts -> exists t, ts !! Z.to_nat MAX_BUCKET = Some t.
Proof. intros Ho. apply lookup_lt_is_Some. rewrite (two_length _ _ _ _ Ho). change (Z.to_nat MAX_BUCKET) with 255%nat. lia. Qed.

Lemma tget_run {X} (f : HashTable C State -> X) a t : tget f (a, t) = (Returns (f t), (a, t)).
Proof. done. Qed.

Lemma two_end_run a ts t : ts !! Z.to_nat MAX_BUCKET = Some t -> two_end (a, ts) = (Returns (MAX_BUCKET, hash_end t), (a, ts)).
Proof. intros Et. unfold two_end. by rewrite (bind_returns _ _ _ _ _ (on_impl_same _ _ _ _ _ _ _ Et (tget_run hash_end a t))). Qed.

Lemma two_find_spec a live ts x :
  two_ok hash a live ts ->
  match two_map ts !! x with
  | Some v => exists q c, two_find hash x (a, ts) = (Returns q, (a, ts)) /\ (two_end (a, ts)).1 <> Returns q /\ two_deref q (a, ts) = (Returns c, (a, ts)) /\ getValue c = v
  | None => two_find hash x (a, ts) = two_end (a, ts)
  end.
Proof.
  intros Ho. destruct (two_bucket hash a live ts (hash x) Ho) as (t & Et). pose proof (two_at hash _ _ _ _ _ Ho Et) as Ht. rewrite (two_lookup hash a live ts x t Ho Et).
  destruct (table_find_spec hash a _ t x Ht) as (p & E & Hp). unfold find in E. unfold two_find.
  rewrite (bind_returns _ _ _ _ _ (on_impl_same _ _ _ _ _ _ _ Et E)), (bind_returns _ _ _ _ _ (on_impl_same _ _ _ _ _ _ _ Et (tget_run hash_end a t))).
  destruct (table_map t !! x) as [v|]; [|by rewrite bool_decide_true]. destruct Hp as [Hp Hne]. rewrite bool_decide_false by done. cbn [negb].
  destruct (points_deref hash _ _ _ _ _ Ht Hp) as (c & Ed & Hv & _). exists (getBucketFromHash (hash x), p), c. split_and!; [done| |by apply (on_impl_same _ _ _ _ _ _ _ Et)|done].
  destruct (two_last a live ts Ho) as (u & Eu). rewrite (two_end_run a ts u Eu). cbn [fst]. intros [= Eb Ep]. rewrite <- Eb in Et. congruence.
Qed.
End Single.

(** ** Sizes and iteration *)

Section Whole.
Context {Key Value State C A : Type} `{Countable Key} `{I : !Cell Key Value State C} `{LA : AllocatorLaws A} (hash : Key -> Z) `{L : !CellLaws hash I}.
Implicit Types (t : HashTable C State) (ts : list (HashTable C State)) (a : A) (live : list (Z * Z)).

Lemma two_map_list a live ts : two_ok hash a live ts -> (fun v => (getKey v, v)) <$> two_contents ts ≡ₚ map_to_list (two_map ts).
Proof. intros Ho. unfold two_map. rewrite map_to_list_to_map; [done|]. rewrite table_map_keys. by eapply two_nodup. Qed.

Lemma two_map_size a live ts : two_ok hash a live ts -> stdpp.base.size (two_map ts) = length (two_contents ts).
Proof. intros Ho. rewrite <- length_map_to_list, <- (two_map_list a live ts Ho). by rewrite length_fmap. Qed.

Lemma sizes_sum ts : forall acc,
  0 <= acc -> Forall (fun t => m_size t = Z.of_nat (length (contents t))) ts -> acc + Z.of_nat (length (two_contents ts)) < 2 ^ 64 ->
  foldl (fun res t => res +64 size t) acc ts = acc + Z.of_nat (length (two_contents ts)).
Proof.
  induction ts as [|t ts IH]; intros acc Ha Hall Hb; cbn [foldl]; [unfold two_contents; cbn; lia|]. apply list.Forall_cons in Hall as [Ht Hts].
  change (two_contents (t :: ts)) with (contents t ++ two_contents ts) in *. rewrite length_app in *. unfold size at 2. rewrite Ht, wrap_small by (unfold fits; lia). rewrite IH; [lia|lia|done|lia].
Qed.

Lemma two_contents_bound ts n : Forall (fun t => Z.of_nat (length (contents t)) <= n) ts -> Z.of_nat (length (two_contents ts)) <= Z.of_nat (length ts) * n.
Proof.
  induction 1 as [|t ts Ht _ IH]; [done|]. change (two_contents (t :: ts)) with (contents t ++ two_contents ts). rewrite length_app. cbn [length]. lia.
Qed.

Lemma two_size_spec a live ts : two_ok hash a live ts -> two_size ts = Z.of_nat (stdpp.base.size (two_map ts)).
Proof.
  intros Ho. rewrite (two_map_size a live ts Ho). unfold two_size. rewrite sizes_sum; [lia|lia| |].
  - apply list.Forall_lookup. intros i t Ei. eapply ok_size. by eapply two_at.
  - pose proof (two_contents_bound ts (2 ^ 47 + 1)) as Hb. rewrite (two_length _ _ _ _ Ho) in Hb.
    assert (Forall (fun t => Z.of_nat (length (contents t)) <= 2 ^ 47 + 1) ts) as Hall; [|specialize (Hb Hall); lia].
    apply list.Forall_lookup. intros i t Ei. eapply (contents_bound hash). by eapply two_at.
Qed.

Lemma two_empty_spec a live ts : two_ok hash a live ts -> two_empty ts = bool_decide (two_map ts = ∅).
Proof.
  intros Ho. assert (Forall (fun t => m_size t = Z.of_nat (length (contents t))) ts) as Hall.
  { apply list.Forall_lookup. intros i t Ei. eapply ok_size. by eapply two_at. }
  transitivity (bool_decide (two_contents ts = [])).
  - clear Ho. induction Hall as [|t ts Ht _ IH]; [done|]. cbn [two_empty]. change (two_contents (t :: ts)) with (contents t ++ two_contents ts). unfold empty_table. rewrite Ht.
    destruct (contents t) as [|v l]; cbn [length app]; [exact IH|]. rewrite bool_decide_false by done. rewrite (proj2 (Z.eqb_neq 0 (Z.of_nat (S (length l))))) by lia. done.
  - apply bool_decide_ext. rewrite <- map_size_empty_iff, (two_map_size a live ts Ho). by rewrite length_zero_iff_nil.
Qed.

(** *** The iterators change nothing *)

Lemma deref_pure a t p : exists r, deref p (a, t) = (r, (a, t)).
Proof. unfold deref, tget. rewrite bind_get. destruct p; by eexists. Qed.

Lemma begin_pure a t : exists r, begin (a, t) = (r, (a, t)).
Proof. unfold begin, tget. rewrite bind_get. cbn [snd id]. destruct (buf t =? 0); [by eexists|]. destruct (has_zero t); by eexists. Qed.

Lemma next_ptr_pure a t p : exists r, next_ptr p (a, t) = (r, (a, t)).
Proof.
  unfold next_ptr, tget. rewrite bind_get. destruct (deref_pure a t p) as [[c|e] E]; [|rewrite (bind_throws _ _ _ _ _ E); by eexists].
  rewrite (bind_returns _ _ _ _ _ E). cbn [snd id]. destruct (isZero c (table_state t)); [by eexists|]. destruct p; by eexists.
Qed.

Lemma iterate_inv a t fuel p l :
  iterate fuel p (a, t) = (Returns l, (a, t)) ->
  match l with
  | [] => p = hash_end t
  | c :: l' => p <> hash_end t /\ deref p (a, t) = (Returns c, (a, t)) /\
      exists p' fuel', next_ptr p (a, t) = (Returns p', (a, t)) /\ iterate fuel' p' (a, t) = (Returns l', (a, t))
  end.
Proof.
  destruct fuel as [|fuel]; [done|]. rewrite iterate_step. case_bool_decide as Hp; [by intros [= <-]|].
  destruct (deref_pure a t p) as [[c|e] Ed]; [|by rewrite (bind_throws _ _ _ _ _ Ed)]. rewrite (bind_returns _ _ _ _ _ Ed).
  destruct (next_ptr_pure a t p) as [[p'|e] En]; [|by rewrite (bind_throws _ _ _ _ _ En)]. rewrite (bind_returns _ _ _ _ _ En).
  unfold mbind, M_bind. destruct (iterate fuel p' (a, t)) as [[l'|e] s] eqn:Ei; [|done]. intros [= <- ->]. split_and!; [done|done|]. by exists p', fuel.
Qed.

Lemma for_each_begin a live t :
  table_ok hash a live t -> exists p fuel l, begin (a, t) = (Returns p, (a, t)) /\ iterate fuel p (a, t) = (Returns l, (a, t)) /\ getValue <$> l = contents t.
Proof.
  intros Ht. destruct (for_each_spec hash a live t Ht) as (l & E & Hl). unfold for_each in E.
  destruct (begin_pure a t) as [[p|e] Eb]; [|by rewrite (bind_throws _ _ _ _ _ Eb) in E]. rewrite (bind_returns _ _ _ _ _ Eb) in E. unfold tget in E. rewrite bind_get in E. by eexists p, _, l.
Qed.

Lemma two_next_run a ts t i p p' :
  ts !! Z.to_nat i = Some t -> next_ptr p (a, t) = (Returns p', (a, t)) ->
  two_next (i, p) (a, ts) = if bool_decide (p' = hash_end t) then beginOfNextNonEmptyBucket buckets_fuel (i +64 1) (a, ts) else (Returns (i, p'), (a, ts)).
Proof.
  intros Et En. unfold two_next. cbn [fst snd]. rewrite (bind_returns _ _ _ _ _ (on_impl_same _ _ _ _ _ _ _ Et En)).
  rewrite (bind_returns _ _ _ _ _ (on_impl_same _ _ _ _ _ _ _ Et (tget_run hash_end a t))). by destruct (bool_decide _).
Qed.

Lemma two_iterate_step a ts u fuel q :
  ts !! Z.to_nat MAX_BUCKET = Some u ->
  two_iterate (S fuel) q (a, ts) =
  (if bool_decide (q = (MAX_BUCKET, hash_end u)) then mret [] else c ← two_deref q; q' ← two_next q; l ← two_iterate fuel q'; mret (c :: l)) (a, ts).
Proof. intros Eu. cbn [two_iterate]. by rewrite (bind_returns _ _ _ _ _ (two_end_run a ts u Eu)). Qed.

(** Through the elements of a bucket and on to the next. *)
Lemma two_iterate_bucket a ts t u i q r n l : forall p fuel,
  ts !! Z.to_nat MAX_BUCKET = Some u -> ts !! Z.to_nat i = Some t -> 0 <= i -> iterate fuel p (a, t) = (Returns l, (a, t)) -> l <> [] ->
  beginOfNextNonEmptyBucket buckets_fuel (i +64 1) (a, ts) = (Returns q, (a, ts)) -> two_iterate n q (a, ts) = (Returns r, (a, ts)) ->
  two_iterate (length l + n) (i, p) (a, ts) = (Returns (l ++ r), (a, ts)).
Proof.
  induction l as [|c l IH]; intros p fuel Eu Et Hi Eit Hne Eb Er; [done|]. apply iterate_inv in Eit as (Hp & Ed & p' & fuel' & En & Eit'). cbn [length Nat.add].
  rewrite (two_iterate_step a ts u _ _ Eu), bool_decide_false.
  2: { intros [= Ei Ep]. rewrite Ei in Et. congruence. }
  unfold two_deref at 1. cbn [fst snd]. rewrite (bind_returns _ _ _ _ _ (on_impl_same _ _ _ _ _ _ _ Et Ed)). pose proof (two_next_run a ts t i p p' Et En) as E2.
  destruct l as [|c' l].
  - apply iterate_inv in Eit'. rewrite bool_decide_true in E2 by done. rewrite Eb in E2. rewrite (bind_returns _ _ _ _ _ E2), (bind_returns _ _ _ _ _ Er). done.
  - pose proof (iterate_inv _ _ _ _ _ Eit') as (Hp' & _). rewrite bool_decide_false in E2 by done. rewrite (bind_returns _ _ _ _ _ E2).
    rewrite (bind_returns _ _ _ _ _ (IH p' fuel' Eu Et Hi Eit' ltac:(done) Eb Er)). done.
Qed.

Lemma two_contents_drop ts i t : ts !! i = Some t -> two_contents (drop i ts) = contents t ++ two_contents (drop (S i) ts).
Proof. intros Ei. by rewrite (drop_S ts t i Ei). Qed.

Lemma next_bucket a live ts k : forall j fuel,
  two_ok hash a live ts -> 0 <= j -> j + Z.of_nat k = 256 -> (k < fuel)%nat ->
  exists q r, beginOfNextNonEmptyBucket fuel j (a, ts) = (Returns q, (a, ts)) /\ getValue <$> r = two_contents (drop (Z.to_nat j) ts) /\
    forall n, (length r < n)%nat -> two_iterate n q (a, ts) = (Returns r, (a, ts)).
Proof.
  induction k as [|k IH]; intros j [|fuel] Ho Hj Hk Hf; try lia; destruct (two_last hash a live ts Ho) as (u & Eu); cbn [beginOfNextNonEmptyBucket].
  - replace j with 256 by lia. change (256 =? NUM_BUCKETS) with true. cbn iota. rewrite (bind_returns _ _ _ _ _ (on_impl_same _ _ _ _ _ _ _ Eu (tget_run hash_end a u))).
    exists (MAX_BUCKET, hash_end u), []. split_and!; [done|by rewrite drop_ge by (rewrite (two_length _ _ _ _ Ho); lia)|]. intros [|n] Hn; [cbn in Hn; lia|].
    rewrite (two_iterate_step a ts u _ _ Eu), bool_decide_true by done. done.
  - change NUM_BUCKETS with 256. rewrite (proj2 (Z.eqb_neq j 256)) by lia. destruct (lookup_lt_is_Some_2 ts (Z.to_nat j)) as (t & Et); [rewrite (two_length _ _ _ _ Ho); lia|].
    pose proof (two_at hash _ _ _ _ _ Ho Et) as Ht. rewrite (bind_returns _ _ _ _ _ (on_impl_same _ _ _ _ _ _ _ Et (tget_run empty_table a t))).
    rewrite (two_contents_drop _ _ _ Et). replace (S (Z.to_nat j)) with (Z.to_nat (j + 1)) by lia.
    unfold empty_table. rewrite (ok_size _ _ _ _ Ht), (wrap_small 64 (j + 1)) by (unfold fits; lia). destruct (for_each_begin a _ t Ht) as (p & f & l & Eb & Eit & Hl). rewrite <- Hl, length_fmap.
    destruct l as [|c l]; cbn [length].
    + apply (IH (j + 1) fuel Ho); lia.
    + rewrite (proj2 (Z.eqb_neq 0 (Z.of_nat (S (length l))))) by lia. cbn iota. rewrite (bind_returns _ _ _ _ _ (on_impl_same _ _ _ _ _ _ _ Et Eb)).
      destruct (IH (j + 1) buckets_fuel Ho ltac:(lia) ltac:(lia)) as (q & r & Eq & Hr & Hit); [change buckets_fuel with 257%nat; lia|].
      exists (j, p), ((c :: l) ++ r). split_and!; [done|by rewrite fmap_app, Hr|]. intros n Hn. rewrite length_app in Hn. cbn [length] in Hn.
      replace n with (length (c :: l) + (n - S (length l)))%nat by (cbn [length]; lia).
      apply (two_iterate_bucket a ts t u j q r _ _ p f Eu Et Hj Eit ltac:(done)); [by rewrite wrap_small by (unfold fits; lia)|]. apply Hit. lia.
Qed.

(** for (it = begin(); it != end(); ++it) goes through all elements. *)
Lemma two_elements_spec a live ts :
  two_ok hash a live ts -> exists l, (q ← two_begin; n ← get (fun s => S (Z.to_nat (two_size s.2))); two_iterate n q) (a, ts) = (Returns l, (a, ts)) /\ getValue <$> l = two_contents ts.
Proof.
  intros Ho. destruct (next_bucket a live ts 256 0 buckets_fuel Ho) as (q & r & Eq & Hr & Hit); [lia|lia|change buckets_fuel with 257%nat; lia|].
  exists r. split; [|done]. unfold two_begin. rewrite (bind_returns _ _ _ _ _ Eq), bind_get. cbn [snd]. apply Hit.
  rewrite (two_size_spec a live ts Ho), (two_map_size a live ts Ho). assert (two_contents ts = getValue <$> r) as -> by done. rewrite length_fmap. lia.
Qed.
End Whole.

(** ** Construction *)

Section Construction.
Context {Key Value State C A : Type} `{Countable Key} `{I : !Cell Key Value State C} `{LA : AllocatorLaws A} (hash : Key -> Z) `{L : !CellLaws hash I}.
Context `{G : Grower} (log2 : Z -> Z) (initial_size_degree : Z).
Implicit Types (t : HashTable C State) (ts : list (HashTable C State)) (a : A) (live : list (Z * Z)).

(** The table has memory. *)
Definition allocated t : Prop := 0 <= size_degree t < 64 /\ bytes_of (I := I) (size_degree t) <= 2 ^ 48 /\ buf t <> 0.

Lemma ok_allocated a live t : table_ok hash a live t -> allocated t.
Proof. intros Ht. pose proof (degree_range _ _ _ _ Ht). destruct (ok_owns _ _ _ _ Ht) as (_ & H48 & Hb). split_and!; [lia|lia|done|done]. Qed.

Lemma destroy_table_spec a live t : allocated t -> alloc_inv a (range t :: live) -> exists a', destroy_table t a = (Returns tt, a') /\ alloc_inv a' live.
Proof.
  intros (Hd & H48 & Hb) Hinv. destruct (free_range_ok a live _ _ Hinv) as (a' & Ef & Hinv'). exists a'. split; [|done].
  unfold destroy_table, free, tget. rewrite bind_get. cbn [snd id]. rewrite (proj2 (Z.eqb_neq (buf t) 0) Hb). cbn [negb]. unfold getBufferSizeInBytes.
  rewrite (bytes_of_size hash) by (change (2 ^ 48) with 281474976710656 in H48; lia). unfold on_allocator, zoom, mbind, M_bind. cbn [fst snd]. by rewrite Ef.
Qed.

Lemma destroy_impls_spec ts : forall a live, Forall allocated ts -> alloc_inv a ((range <$> ts) ++ live) -> exists a', destroy_impls ts a = (Returns tt, a') /\ alloc_inv a' live.
Proof.
  induction ts as [|t ts IH]; intros a live Hall Hinv; cbn [destroy_impls]; [by exists a|]. apply list.Forall_cons in Hall as [Ht Hts].
  destruct (IH a (range t :: live) Hts) as (a1 & E1 & Hinv1); [eapply alloc_inv_perm; [|exact Hinv]; cbn [fmap list_fmap]; by rewrite <- Permutation_middle|].
  rewrite (bind_returns _ _ _ _ _ E1). by apply destroy_table_spec.
Qed.

Definition new_ok_table (st : State) t : Prop := intact hash t /\ contents t = [] /\ table_state t = st.

Lemma empty_contents a live t : table_ok hash a live t -> table_map t = ∅ -> contents t = [].
Proof.
  intros Ht Hm. pose proof (contents_map hash a live t Ht) as Hp. rewrite Hm, map_to_list_empty in Hp. apply Permutation_nil_r in Hp. by apply fmap_nil_inv in Hp.
Qed.

Lemma new_impls_spec garbage st n : forall a live,
  alloc_inv a live -> state_ok st -> 1 <= initial_size_degree < 64 -> bytes_of (I := I) initial_size_degree < 2 ^ 60 ->
  match new_impls initial_size_degree garbage st n a with
  | (Returns ts, a') => length ts = n /\ alloc_inv a' ((range <$> ts) ++ live) /\ Forall (new_ok_table st) ts
  | (Throws e, a') => alloc_inv a' live /\ memory_error (A := A) e
  end.
Proof.
  induction n as [|n IH]; intros a live Hinv Hst Hd Hb; cbn [new_impls]; [by split_and!|].
  pose proof (HashTable_new_spec hash initial_size_degree a live (fresh_table garbage st initial_size_degree) garbage st Hinv Hst Hd Hb) as Hn.
  unfold mbind at 1, M_bind at 1. unfold new_table at 1.
  destruct (HashTable_new initial_size_degree garbage st (a, fresh_table garbage st initial_size_degree)) as [[u|e] [a1 t]].
  2: { destruct Hn as [Hn Ha]. split; [done|]. right. by eexists a, a1, _. }
  destruct Hn as (Ht & Hm & Hs). destruct (ok_owns _ _ _ _ Ht) as (Hinv1 & _). specialize (IH a1 (range t :: live) Hinv1 Hst Hd Hb).
  unfold try_catch. unfold mbind at 1, M_bind at 1. destruct (new_impls initial_size_degree garbage st n a1) as [[ts|e] a2].
  - destruct IH as (Hl & Hinv2 & Hall). split_and!; [cbn; by rewrite Hl| |].
    + eapply alloc_inv_perm; [|exact Hinv2]. cbn [fmap list_fmap]. by rewrite <- Permutation_middle.
    + constructor; [|done]. split_and!; [by eapply ok_intact|by eapply empty_contents|done].
  - destruct IH as [IH He]. destruct (destroy_table_spec a2 live t (ok_allocated _ _ _ Ht) IH) as (a3 & E3 & Hinv3). rewrite (bind_returns _ _ _ _ _ E3). by split.
Qed.

Lemma two_contents_nil ts : Forall (fun t => contents t = []) ts -> two_contents ts = [].
Proof. induction 1 as [|t ts Ht _ IH]; [done|]. change (two_contents (t :: ts)) with (contents t ++ two_contents ts). by rewrite Ht, IH. Qed.

Lemma TwoLevelHashTable_new_spec a live garbage st :
  alloc_inv a live -> state_ok st -> 1 <= initial_size_degree < 64 -> bytes_of (I := I) initial_size_degree < 2 ^ 60 ->
  match TwoLevelHashTable_new initial_size_degree garbage st a with
  | (Returns ts, a') => two_ok hash a' live ts /\ two_map ts = ∅ /\ Forall (fun t => table_state t = st) ts
  | (Throws e, a') => alloc_inv a' live /\ memory_error (A := A) e
  end.
Proof.
  intros Hinv Hst Hd Hb. pose proof (new_impls_spec garbage st 256 a live Hinv Hst Hd Hb) as Hn. unfold TwoLevelHashTable_new. change (Z.to_nat NUM_BUCKETS) with 256%nat.
  destruct (new_impls initial_size_degree garbage st 256 a) as [[ts|e] a']; [|done]. destruct Hn as (Hl & Hinv' & Hall). split_and!.
  - split; [done|done|]. intros i t Ei. rewrite list.Forall_lookup in Hall. destruct (Hall i t Ei) as (Hi & Hc & _). split; [done|]. intros v Hv. rewrite Hc in Hv. by apply not_elem_of_nil in Hv.
  - unfold two_map. rewrite two_contents_nil; [done|]. eapply list.Forall_impl; [exact Hall|]. intros t Ht. apply Ht.
  - eapply list.Forall_impl; [exact Hall|]. intros t Ht. apply Ht.
Qed.
End Construction.

(** ** Conversion from one level *)

Section Conversion.
Context {Key Value State C A : Type} `{Countable Key} `{I : !Cell Key Value State C} `{LA : AllocatorLaws A} (hash : Key -> Z) `{L : !CellLaws hash I}.
Context `{G : Grower} (log2 : Z -> Z) (initial_size_degree : Z) (one_state : forall s s' : State, s = s').
Implicit Types (t : HashTable C State) (ts : list (HashTable C State)) (a : A) (live : list (Z * Z)).

Definition cells_map (l : list C) : gmap Key Value := list_to_map ((fun c => (key_of c, getValue c)) <$> l).

(** What is left when a constructor throws: tables with memory. *)
Definition owned a live ts : Prop := Forall allocated ts /\ alloc_inv a ((range <$> ts) ++ live).

Lemma two_owned a live ts : two_ok hash a live ts -> owned a live ts.
Proof. intros Ho. split; [|apply Ho]. apply list.Forall_lookup. intros i t Ei. eapply ok_allocated. by eapply two_at. Qed.

Lemma insert_unique_cells_spec st l : forall a live ts,
  two_ok hash a live ts -> Forall (fun c => cell_ok st c /\ isZero c st = false) l -> NoDup (key_of <$> l) -> Forall (fun c => two_map ts !! key_of c = None) l ->
  match insert_unique_cells hash log2 initial_size_degree l (a, ts) with
  | (Returns _, w) => two_ok hash w.1 live w.2 /\ two_map w.2 = cells_map l ∪ two_map ts
  | (Throws e, w) => owned w.1 live w.2 /\ allocator_error (A := A) e
  end.
Proof.
  induction l as [|c l IH]; intros a live ts Ho Hl Hn Hx; cbn [insert_unique_cells]; [split; [done|]; unfold cells_map; cbn; by rewrite map_empty_union|].
  apply list.Forall_cons in Hl as [[Hc Zc] Hl]. apply NoDup_cons in Hn as [Hcn Hn]. apply list.Forall_cons in Hx as [Hcx Hx]. rewrite (getHash_ok st c Hc Zc).
  destruct (two_bucket hash a live ts (hash (key_of c)) Ho) as (t & Et). pose proof (two_at hash _ _ _ _ _ Ho Et) as Ht. pose proof (lookup_lt_Some _ _ _ Et) as Hlt.
  rewrite (two_lookup hash a live ts _ t Ho Et) in Hcx. rewrite (one_state st (table_state t)) in Hc, Zc.
  pose proof (insertUniqueNonZero_spec hash log2 initial_size_degree a _ t c Ht Hc Zc Hcx) as Hi. set (i := Z.to_nat (getBucketFromHash (hash (key_of c)))) in *.
  destruct (insertUniqueNonZero hash log2 initial_size_degree c (hash (key_of c)) (a, t)) as [[u|e] [a1 t1]] eqn:E; cbn [fst snd] in *.
  - destruct Hi as [Ht1 Hm]. rewrite (bind_returns _ _ _ _ _ (on_impl_run _ _ _ _ _ _ _ _ Et E)). fold i.
    assert (table_map t1 = insert_map (getValue c) (table_map t)) as Hm' by (unfold insert_map; change (getKey (getValue c)) with (key_of c); by rewrite Hcx).
    destruct (proj1 (two_put_insert hash a live ts t a1 t1 (getValue c) Ho Et Ht1) Hm') as [Ho1 Hmap]. fold i in Ho1, Hmap. unfold insert_map in Hmap.
    change (getKey (getValue c)) with (key_of c) in Ho1, Hmap. fold i in Ho1, Hmap. rewrite (two_lookup hash a live ts _ t Ho Et), Hcx in Hmap.
    specialize (IH a1 live _ Ho1 Hl Hn). rewrite Hmap in IH.
    assert (Forall (fun c' => <[key_of c := getValue c]> (two_map ts) !! key_of c' = None) l) as Hx'.
    { apply list.Forall_forall. rewrite list.Forall_forall in Hx. intros c' Hc'. rewrite lookup_insert_ne; [by apply Hx|]. intros E'. apply Hcn. rewrite E'. by apply list_elem_of_fmap_2. }
    specialize (IH Hx'). destruct (insert_unique_cells hash log2 initial_size_degree l (a1, <[i := t1]> ts)) as [[u'|e] w].
    + destruct IH as [Hw ->]. split; [done|]. unfold cells_map. cbn [fmap list_fmap list_to_map foldr]. rewrite <- insert_union_r, insert_union_l; [done|].
      apply not_elem_of_list_to_map. by rewrite <- list_fmap_compose.
    + exact IH.
  - destruct Hi as (_ & Hown & Hdeg & old & new & Er). rewrite (bind_throws _ _ _ _ _ (on_impl_run _ _ _ _ _ _ _ _ Et E)). split; [|by exists a, a1, (buf t), old, new]. cbn [fst snd]. destruct Hown as (Hinv & H48 & Hb). split.
    + apply list.Forall_insert; [apply (two_owned a live ts Ho)|]. pose proof (degree_range _ _ _ _ Ht). split_and!; [rewrite Hdeg; lia|rewrite Hdeg; lia|done|done].
    + eapply alloc_inv_perm; [|exact Hinv]. fold i. rewrite (delete_Permutation (<[i := t1]> ts) i t1) by (by rewrite list_lookup_insert_eq). by rewrite delete_insert_list.
Qed.

Lemma cells_map_entries st (l : list C) b : getValue <$> l = entries st b -> cells_map l = list_to_map ((fun v => (getKey v, v)) <$> entries st b).
Proof. intros <-. unfold cells_map. by rewrite <- list_fmap_compose. Qed.

Lemma insert_source_spec a live ts src :
  two_ok hash a (range src :: live) ts -> two_map ts = ∅ -> intact hash src ->
  match insert_source hash log2 initial_size_degree src (a, ts) with
  | (Returns _, w) => two_ok hash w.1 (range src :: live) w.2 /\ two_map w.2 = table_map src
  | (Throws e, w) => owned w.1 (range src :: live) w.2 /\ allocator_error (A := A) e
  end.
Proof.
  intros Ho Hm Hs. assert (table_ok hash a ((range <$> ts) ++ live) src) as Hsrc by (apply Hs; eapply alloc_inv_perm; [|apply Ho]; by rewrite <- Permutation_middle).
  destruct (for_each_cells hash a _ src Hsrc) as (l & E & Hl & Hin). unfold insert_source. rewrite bind_get. cbn [fst]. rewrite E. cbn [fst]. rewrite bind_lift.
  pose proof (contents_nodup hash _ _ _ Hsrc) as Hn. pose proof (ok_buffer _ _ _ _ Hsrc) as [[_ _ Hcs _] _].
  assert (Forall (fun c => cell_ok (table_state src) c /\ isZero c (table_state src) = false) l) as Hcells.
  { rewrite list.Forall_forall in Hin, Hcs |- *. intros c Hc. destruct (Hin c Hc) as [H1 H2]. split; [by apply Hcs|done]. }
  assert (NoDup (key_of <$> l) /\ cells_map l = list_to_map ((fun v => (getKey v, v)) <$> entries (table_state src) (cells src))) as [Hnl Hmap].
  { split; [|by apply cells_map_entries]. change (key_of <$> l) with (getKey ∘ getValue <$> l). rewrite list_fmap_compose, Hl.
    unfold contents in Hn. rewrite fmap_app in Hn. by apply NoDup_app in Hn as (_ & _ & ?). }
  unfold table_map, contents, zero_entry in *. destruct (has_zero src) eqn:Ez; cbn [app] in *.
  - destruct (ok_zero_cell _ _ _ _ Hsrc (ok_zero _ _ _ _ Hsrc Ez)) as [_ ->]. pose proof (two_insert_spec hash log2 initial_size_degree a _ ts (getValue (zero_value src)) Ho) as Hi.
    unfold mbind, M_bind. destruct (two_insert hash log2 initial_size_degree (getValue (zero_value src)) (a, ts)) as [[[q ins]|e] [a1 ts1]]; cbn [fst snd] in *.
    2: { destruct Hi as (Ho1 & _ & He & _). split; [by apply two_owned|done]. }
    destruct Hi as (Ho1 & Hm1 & _). rewrite Hm in Hm1. unfold insert_map in Hm1. rewrite lookup_empty in Hm1. cbn [fmap list_fmap] in Hn. apply NoDup_cons in Hn as [Hz Hn].
    pose proof (insert_unique_cells_spec (table_state src) l a1 _ ts1 Ho1 Hcells Hnl) as Hu. rewrite Hm1 in Hu.
    assert (Forall (fun c => <[getKey (getValue (zero_value src)) := getValue (zero_value src)]> (∅ : gmap Key Value) !! key_of c = None) l) as Hx.
    { apply list.Forall_forall. intros c Hc. rewrite lookup_insert_ne; [done|]. intros Ek. apply Hz. rewrite Ek, <- Hl. unfold key_of. apply list_elem_of_fmap_2. by apply list_elem_of_fmap_2. }
    specialize (Hu Hx). destruct (insert_unique_cells hash log2 initial_size_degree l (a1, ts1)) as [[u|e] w]; [|done]. destruct Hu as [Hw ->]. split; [done|].
    rewrite Hmap. cbn [fmap list_fmap list_to_map foldr]. rewrite <- insert_union_r, map_union_empty; [done|]. apply not_elem_of_list_to_map. by rewrite table_map_keys.
  - pose proof (insert_unique_cells_spec (table_state src) l a _ ts Ho Hcells Hnl) as Hu. rewrite Hm in Hu. specialize (Hu ltac:(apply list.Forall_forall; intros; apply lookup_empty)).
    assert (match l with c :: l' => if isZero c (table_state src) then _ ← two_insert hash log2 initial_size_degree (getValue c); insert_unique_cells hash log2 initial_size_degree l'
              else insert_unique_cells hash log2 initial_size_degree l | [] => mret tt end = insert_unique_cells hash log2 initial_size_degree l) as ->.
    { destruct l as [|c l]; [done|]. apply list.Forall_cons in Hcells as [[_ ->] _]. done. }
    destruct (insert_unique_cells hash log2 initial_size_degree l (a, ts)) as [[u|e] w]; [|done]. destruct Hu as [Hw ->]. split; [done|]. by rewrite Hmap, map_union_empty.
Qed.

Lemma TwoLevelHashTable_of_spec a live src garbage st :
  table_ok hash a live src -> state_ok st -> 1 <= initial_size_degree < 64 -> bytes_of (I := I) initial_size_degree < 2 ^ 60 ->
  match TwoLevelHashTable_of hash log2 initial_size_degree garbage st src a with
  | (Returns ts, a') => two_ok hash a' (range src :: live) ts /\ two_map ts = table_map src
  | (Throws e, a') => table_ok hash a' live src /\ memory_error (A := A) e
  end.
Proof.
  intros Hsrc Hst Hd Hb. pose proof (ok_intact hash _ _ _ Hsrc) as Hi. destruct (ok_owns _ _ _ _ Hsrc) as (Hinv & _).
  pose proof (TwoLevelHashTable_new_spec hash initial_size_degree a (range src :: live) garbage st Hinv Hst Hd Hb) as Hn. unfold TwoLevelHashTable_of, mbind, M_bind.
  destruct (TwoLevelHashTable_new initial_size_degree garbage st a) as [[ts|e] a1]; [|destruct Hn as [Hn He]; split; [by apply Hi|done]]. destruct Hn as (Ho & Hm & _).
  pose proof (insert_source_spec a1 live ts src Ho Hm Hi) as Hs. unfold construct. destruct (insert_source hash log2 initial_size_degree src (a1, ts)) as [[u|e] [a2 ts2]]; [done|]. cbn [fst snd] in Hs.
  destruct Hs as [[Hall Hinv2] He]. destruct (destroy_impls_spec hash ts2 a2 _ Hall Hinv2) as (a3 & E3 & Hinv3). rewrite (bind_returns _ _ _ _ _ E3). split; [by apply Hi|by left].
Qed.
End Conversion.

(** ** Maps *)

Section TwoLevelMaps.
Context {Key Mapped State C A : Type} `{Countable Key} `{I : !Cell Key (PairNoInit Key Mapped) State C} `{LA : AllocatorLaws A} (hash : Key -> Z) `{L : !CellLaws hash I}.
Context `{G : Grower} (log2 : Z -> Z) (initial_size_degree : Z) (getKey_first : forall x : PairNoInit Key Mapped, getKey x = first x).
Implicit Types (t : HashTable C State) (ts : list (HashTable C State)) (a : A) (live : list (Z * Z)).

Lemma table_of_mapped a live t k : table_ok hash a live t -> table_map t !! k = Pair k <$> mapped_map t !! k.
Proof.
  intros Ht. unfold mapped_map. rewrite lookup_fmap. destruct (table_map t !! k) as [v|] eqn:E; [|done]. cbn. rewrite <- (mapped_key hash getKey_first a live t k v Ht E). by destruct v.
Qed.

Lemma two_subscript_spec a live ts zm x :
  two_ok hash a live ts ->
  match two_subscript hash log2 initial_size_degree zm x (a, ts) with
  | (Returns q, w) => two_ok hash w.1 live w.2 /\ two_map w.2 = insert_map (Pair x zm) (two_map ts)
  | (Throws e, w) => two_ok hash w.1 live w.2 /\ two_map w.2 = two_map ts /\ allocator_error (A := A) e
  end.
Proof.
  intros Ho. destruct (two_bucket hash a live ts (hash x) Ho) as (t & Et). pose proof (two_at hash _ _ _ _ _ Ho Et) as Ht.
  set (f := fun c => setMapped (Pair (key_of c) zm) c).
  assert (two_subscript hash log2 initial_size_degree zm x (a, ts) = (two_emplace_with hash log2 initial_size_degree f x ≫= (fun res => mret res.1)) (a, ts)) as ->.
  { unfold two_subscript, two_emplace, two_emplace_with. rewrite bind_assoc. apply bind_ext. intros res s. by rewrite bind_assoc. }
  pose proof (subscript_spec hash log2 initial_size_degree getKey_first a _ t zm x Ht) as Hs.
  assert (subscript hash log2 initial_size_degree zm x (a, t) = (emplace_with hash log2 initial_size_degree f x ≫= (fun res => mret res.1)) (a, t)) as Heq.
  { unfold subscript, emplace, emplace_with. rewrite bind_assoc. apply bind_ext. intros res s. by rewrite bind_assoc. }
  rewrite Heq in Hs. unfold mbind, M_bind in *. rewrite (emplace_then_impl hash log2 initial_size_degree f a ts t x Et).
  destruct (emplace_with hash log2 initial_size_degree f x (a, t)) as [[[p ins]|e] [a' t']]; cbn [fst snd mret M_ret] in *.
  - destruct Hs as (Ht' & Hm & _). pose proof (two_put_insert hash a live ts t a' t' (Pair x zm)) as Hp. rewrite getKey_first in Hp. apply (Hp Ho Et Ht').
    apply map_eq. intros k. rewrite (table_of_mapped a' _ t' k Ht'), Hm. unfold insert_map. rewrite getKey_first. cbn [first]. rewrite (table_of_mapped a _ t x Ht).
    destruct (mapped_map t !! x) as [m|] eqn:Ex; cbn [fmap option_fmap option_map]; [by rewrite (table_of_mapped a _ t k Ht)|].
    destruct (decide (x = k)) as [<-|Hne]; [by rewrite !lookup_insert_eq|]. rewrite !lookup_insert_ne by done. by rewrite (table_of_mapped a _ t k Ht).
  - destruct Hs as (Ht' & Hm & old & new & Er). cbn [fst snd] in *.
    pose proof (two_put_insert hash a live ts t a' t' (Pair x zm)) as Hp. rewrite getKey_first in Hp. destruct (proj2 (Hp Ho Et Ht') Hm) as [Ho' Hm'].
    split_and!; [done|done|]. by exists a, a', (buf t), old, new.
Qed.
End TwoLevelMaps.

(** ** Writing and reading *)

Section TwoLevelWriting.
Context {Key Value State C D : Type} `{I : !Cell Key Value State C} `{!CellIO C} `{!WriteBuffer D}.

Fixpoint two_write (ts : list (HashTable C State)) : M (wbuf D) unit :=
  match ts with
  | [] => mret tt
  | t :: ts' => _ ← write_table t; two_write ts'
  end.
End TwoLevelWriting.

Section TwoLevelReading.
Context {Key State C A D : Type} `{I : !Cell Key Key State C} `{!CellIO C} `{!Allocator A} `{!ReadBuffer D}.
Context (hash : Key -> Z) `{G : Grower} (log2 : Z -> Z) (initial_size_degree : Z).

Definition two_reading : Type := two_world (C := C) (State := State) (A := A) * rbuf D.

(** impls[i].read(rb) *)
Definition read_impl (garbage : C) (i : Z) : M two_reading unit := fun s =>
  match s.1.2 !! Z.to_nat i with
  | Some t => let '(r, ((a, t'), b)) := read_table hash log2 initial_size_degree garbage ((s.1.1, t), s.2) in (r, ((a, <[Z.to_nat i := t']> s.1.2), b))
  | None => (Throws BUFFER_OVERRUN, s)
  end.

(** for (size_t i = 0; i < NUM_BUCKETS; ++i), [n] tables being left *)
Fixpoint read_impls (garbage : C) (n : nat) (i : Z) : M two_reading unit :=
  match n with
  | O => mret tt
  | S n' => _ ← read_impl garbage i; read_impls garbage n' (i + 1)
  end.

Definition two_read (garbage : C) : M two_reading unit := read_impls garbage (Z.to_nat NUM_BUCKETS) 0.
End TwoLevelReading.

Section TwoLevelIO.
Context {Key State C A : Type} `{Countable Key} `{I : !Cell Key Key State C} `{LA : AllocatorLaws A} (hash : Key -> Z) `{L : !CellLaws hash I}.
Context `{G : Grower} (log2 : Z -> Z) (initial_size_degree : Z) (getKey_id : forall x : Key, getKey x = x) (Hlog : exact_log2 log2).
Context (Hdegree : 1 <= initial_size_degree <= 50) (Hbytes : bytes_of (I := I) initial_size_degree < 2 ^ 60).
Context `{IO : !CellIO C} `{LIO : !CellIOLaws I IO}.
Implicit Types (t : HashTable C State) (ts src : list (HashTable C State)) (a : A) (live : list (Z * Z)).

Definition table_bytes t : list Z := writeVarUInt_mem (m_size t) ++ elements_bytes (contents t).
Definition two_bytes ts : list Z := concat (table_bytes <$> ts).

Lemma two_write_spec {D} `{LD : WriteBufferLaws D} ts : Forall (fun t => exists a live, table_ok hash (A := A) a live t) ts -> writes (D := D) (two_write ts) tt (two_bytes ts).
Proof.
  induction 1 as [|t ts (a & live & Ht) _ IH]; cbn [two_write]; [apply writes_ret|]. eapply writes_bind; [by eapply write_table_spec|exact IH].
Qed.

Lemma read_impl_spec {D} `{LD : ReadBufferLaws D} a live ts a0 live0 u t garbage rest i (b : rbuf D) p :
  two_ok hash a live ts -> ts !! Z.to_nat i = Some t -> 0 <= i -> table_ok hash a0 live0 u -> homed hash i u -> Forall value_ok (contents u) ->
  state b (table_bytes u ++ rest) p ->
  match read_impl hash log2 initial_size_degree garbage i ((a, ts), b) with
  | (Returns _, (w, b')) => exists t', w.2 = <[Z.to_nat i := t']> ts /\ two_ok hash w.1 live w.2 /\ set_of t' = set_of u /\ state b' rest p
  | (Throws e, _) => memory_error (A := A) e
  end.
Proof.
  intros Ho Et Hi Hu Hh Hv Hs. unfold read_impl. cbn [fst snd]. rewrite Et. pose proof (two_at hash _ _ _ _ _ Ho Et) as Ht. unfold table_bytes in Hs. rewrite <- app_assoc, (ok_size _ _ _ _ Hu) in Hs.
  destruct (contents_bound hash a0 live0 u Hu) as [Hn Hn'].
  pose proof (read_table_spec hash log2 initial_size_degree getKey_id a _ t garbage (contents u) rest b p Hlog Hdegree Hbytes Hn Hn' Ht Hv Hs) as Hr.
  match goal with |- context [match ?r with _ => _ end] => match r with match ?x with _ => _ end => change x with (read_table hash log2 initial_size_degree garbage ((a, t), b)) end end.
  destruct (read_table hash log2 initial_size_degree garbage ((a, t), b)) as [[[]|e] [[a' t'] b']]; cbn [fst snd] in *; [|done].
  destruct Hr as (Ht' & Hset & Hs'). exists t'. rewrite (contents_set hash getKey_id a0 live0 u Hu) in Hset. split_and!; [done| |done|done].
  apply (two_put hash a live ts _ t a' t' Ho Et Ht'). intros v Hin. rewrite Z2Nat.id by done. apply Hh. apply (elem_of_set_of hash a0 live0 u v getKey_id Hu). rewrite <- Hset.
  by apply (elem_of_set_of hash a' _ t' v getKey_id Ht').
Qed.

Lemma read_impls_spec {D} `{LD : ReadBufferLaws D} a0 live0 src garbage rest p n : forall a live ts i (b : rbuf D),
  two_ok hash a0 live0 src -> Forall (fun t => Forall value_ok (contents t)) src -> two_ok hash a live ts -> 0 <= i -> i + Z.of_nat n = 256 ->
  state b (two_bytes (drop (Z.to_nat i) src) ++ rest) p ->
  match read_impls hash log2 initial_size_degree garbage n i ((a, ts), b) with
  | (Returns _, (w, b')) => two_ok hash w.1 live w.2 /\ state b' rest p /\ (forall j, (j < Z.to_nat i)%nat -> w.2 !! j = ts !! j) /\
      (forall j, (Z.to_nat i <= j)%nat -> set_of <$> w.2 !! j = set_of <$> src !! j)
  | (Throws e, _) => memory_error (A := A) e
  end.
Proof.
  induction n as [|n IH]; intros a live ts i b Hsrc Hv Ho Hi Hn Hs; cbn [read_impls].
  - rewrite drop_ge in Hs by (rewrite (two_length _ _ _ _ Hsrc); lia). split_and!; [done|done|done|]. intros j Hj. cbn [fst snd].
    rewrite !lookup_ge_None_2; [done|rewrite (two_length _ _ _ _ Hsrc); lia|rewrite (two_length _ _ _ _ Ho); lia].
  - destruct (lookup_lt_is_Some_2 src (Z.to_nat i)) as (u & Eu); [rewrite (two_length _ _ _ _ Hsrc); lia|].
    destruct (lookup_lt_is_Some_2 ts (Z.to_nat i)) as (t & Et); [rewrite (two_length _ _ _ _ Ho); lia|].
    assert (two_bytes (drop (Z.to_nat i) src) = table_bytes u ++ two_bytes (drop (Z.to_nat (i + 1)) src)) as Eb by (rewrite (drop_S src u _ Eu); by replace (Z.to_nat (i + 1)) with (S (Z.to_nat i)) by lia).
    rewrite Eb, <- app_assoc in Hs. destruct (two_intact _ _ _ _ Hsrc _ u Eu) as [_ Hh]. rewrite Z2Nat.id in Hh by done.
    pose proof (read_impl_spec a live ts a0 _ u t garbage _ i b p Ho Et Hi (two_at hash _ _ _ _ _ Hsrc Eu) Hh (list.Forall_lookup_1 _ _ _ _ Hv Eu) Hs) as Hr.
    unfold mbind, M_bind. destruct (read_impl hash log2 initial_size_degree garbage i ((a, ts), b)) as [[[]|e] [[a1 ts1] b1]]; [|done]. cbn [fst snd] in *.
    destruct Hr as (t' & -> & Ho1 & Hset & Hs1). specialize (IH a1 live _ (i + 1) b1 Hsrc Hv Ho1 ltac:(lia) ltac:(lia) Hs1).
    match goal with |- match ?r with _ => _ end => change r with (read_impls hash log2 initial_size_degree garbage n (i + 1) ((a1, <[Z.to_nat i := t']> ts), b1)) end.
    destruct (read_impls hash log2 initial_size_degree garbage n (i + 1) _) as [[[]|e] [w b']]; [|done]. destruct IH as (Hw & Hs' & Hlow & Hhigh). split_and!; [done|done| |].
    + intros j Hj. rewrite Hlow by lia. by rewrite list_lookup_insert_ne by lia.
    + intros j Hj. destruct (decide (j = Z.to_nat i)) as [->|Hne]; [|apply Hhigh; lia]. rewrite Hlow by lia. rewrite list_lookup_insert_eq by (by eapply lookup_lt_Some). rewrite Eu. cbn. by rewrite Hset.
Qed.

Lemma two_sets ts src a live a0 live0 :
  two_ok hash a live ts -> two_ok hash a0 live0 src -> (forall j, set_of <$> ts !! j = set_of <$> src !! j) -> dom (two_map ts) = dom (two_map src).
Proof.
  intros Ho Hsrc Hall. apply set_eq. intros k. destruct (two_bucket hash a live ts (hash k) Ho) as (t & Et). destruct (two_bucket hash a0 live0 src (hash k) Hsrc) as (u & Eu).
  rewrite !elem_of_dom, (two_lookup hash a live ts k t Ho Et), (two_lookup hash a0 live0 src k u Hsrc Eu). specialize (Hall (Z.to_nat (getBucketFromHash (hash k)))). rewrite Et, Eu in Hall.
  injection Hall as Hs. unfold set_of in Hs. rewrite <- !elem_of_dom. by rewrite Hs.
Qed.

(** A set of two levels that is written is read back, bucket by bucket,
    into any other, over all buffers; or read throws what the allocator
    threw. *)
Theorem two_write_read {W R} `{LW : WriteBufferLaws W} `{LR : ReadBufferLaws R} a0 live0 src a live ts garbage rest :
  two_ok hash a0 live0 src -> Forall (fun t => Forall value_ok (contents t)) src -> two_ok hash a live ts ->
  exists w, writes (D := W) (two_write src) tt w /\ forall (b : rbuf R) p, state b (w ++ rest) p ->
    match two_read hash log2 initial_size_degree garbage ((a, ts), b) with
    | (Returns _, (s, b')) => two_ok hash s.1 live s.2 /\ dom (two_map s.2) = dom (two_map src) /\ state b' rest p
    | (Throws e, _) => memory_error (A := A) e
    end.
Proof.
  intros Hsrc Hv Ho. exists (two_bytes src). split.
  - apply (two_write_spec (LD := LW)). apply list.Forall_lookup. intros i t Ei. eexists a0, _. by eapply two_at.
  - intros b p Hs. pose proof (read_impls_spec a0 live0 src garbage rest p 256 a live ts 0 b Hsrc Hv Ho ltac:(lia) ltac:(lia) Hs) as Hr. unfold two_read. change (Z.to_nat NUM_BUCKETS) with 256%nat.
    match goal with |- match ?r with _ => _ end => change r with (read_impls hash log2 initial_size_degree garbage 256 0 ((a, ts), b)) end.
    destruct (read_impls hash log2 initial_size_degree garbage 256 0 _) as [[[]|e] [s b']]; [|done]. destruct Hr as (Hw & Hs' & _ & Hall). split_and!; [done| |done].
    apply (two_sets _ _ _ _ _ _ Hw Hsrc). intros j. apply Hall. lia.
Qed.
End TwoLevelIO.

(** ** Refinement *)

Section TwoLevelRefinement.
Context {Key Value State C A : Type} `{Countable Key} `{I : !Cell Key Value State C} `{LA : AllocatorLaws A} (hash : Key -> Z) `{L : !CellLaws hash I}.
Context `{G : Grower} (log2 : Z -> Z) (initial_size_degree : Z).
Implicit Types (t : HashTable C State) (ts : list (HashTable C State)) (a : A) (live : list (Z * Z)).

(** The calls that a table of two levels has. *)
Inductive two_call := TwoInsert (x : Value) | TwoFind (k : Key) | TwoSize | TwoElements.

Definition as_call (o : two_call) : call (Key := Key) (Value := Value) :=
  match o with TwoInsert x => Insert x | TwoFind k => Find k | TwoSize => Size | TwoElements => Elements end.

Definition run_two_call (o : two_call) : M (two_world (C := C) (State := State) (A := A)) (answer (Value := Value)) :=
  match o with
  | TwoInsert x => try_catch (r ← two_insert hash log2 initial_size_degree x; mret (Inserted r.2)) (fun e => mret (Failed e))
  | TwoFind k =>
      q ← two_find hash k;
      e ← two_end;
      if bool_decide (q = e) then mret (Found None) else c ← two_deref q; mret (Found (Some (getValue c)))
  | TwoSize => n ← get (fun s => two_size s.2); mret (Count n)
  | TwoElements =>
      l ← (q ← two_begin; n ← get (fun s => S (Z.to_nat (two_size s.2))); two_iterate n q);
      mret (Listed (getValue <$> l))
  end.

Fixpoint run_two_calls (l : list two_call) : M (two_world (C := C) (State := State) (A := A)) (list (answer (Value := Value))) :=
  match l with
  | [] => mret []
  | o :: l' => r ← run_two_call o; rs ← run_two_calls l'; mret (r :: rs)
  end.

Lemma run_two_call_spec a live ts o :
  two_ok hash a live ts ->
  exists r a' ts', run_two_call o (a, ts) = (Returns r, (a', ts')) /\ two_ok hash a' live ts' /\ map_call (A := A) (as_call o) (two_map ts) r (two_map ts').
Proof.
  intros Ho. destruct o as [x|k| |]; cbn [run_two_call as_call].
  - pose proof (two_insert_spec hash log2 initial_size_degree a live ts x Ho) as Hi. unfold try_catch, mbind, M_bind.
    destruct (two_insert hash log2 initial_size_degree x (a, ts)) as [[[q ins]|e] [a' ts']]; cbn [fst snd] in *.
    + destruct Hi as (Ho' & Hm & ->). eexists _, a', ts'. split; [reflexivity|]. split; [done|]. rewrite Hm. unfold insert_map. cbn [snd].
      destruct (two_map ts !! getKey x) eqn:E; [by eapply map_insert_old|by apply map_insert_new].
    + destruct Hi as (Ho' & Hm & He & Hnew). eexists _, a', ts'. split; [reflexivity|]. split; [done|]. rewrite Hm. by apply map_insert_fails.
  - pose proof (two_find_spec hash a live ts k Ho) as Hf. destruct (two_last hash a live ts Ho) as (u & Eu). pose proof (two_end_run a ts u Eu) as Ee.
    exists (Found (two_map ts !! k)), a, ts. split; [|split; [done|apply map_find]]. destruct (two_map ts !! k) as [v|].
    + destruct Hf as (q & c & E & Hne & Ed & <-). rewrite Ee in Hne. rewrite (bind_returns _ _ _ _ _ E), (bind_returns _ _ _ _ _ Ee), bool_decide_false by (intros ->; done). by rewrite (bind_returns _ _ _ _ _ Ed).
    + rewrite Ee in Hf. rewrite (bind_returns _ _ _ _ _ Hf), (bind_returns _ _ _ _ _ Ee), bool_decide_true by done. done.
  - eexists _, a, ts. rewrite bind_get. cbn [snd]. split; [reflexivity|]. split; [done|]. rewrite (two_size_spec hash a live ts Ho). apply map_size.
  - destruct (two_elements_spec hash a live ts Ho) as (l & E & Hl). rewrite (bind_returns _ _ _ _ _ E). eexists _, a, ts. split; [reflexivity|]. split; [done|]. rewrite Hl.
    apply map_elements. by eapply two_map_list.
Qed.

Lemma run_two_calls_spec live l : forall a ts,
  two_ok hash a live ts ->
  exists rs a' ts', run_two_calls l (a, ts) = (Returns rs, (a', ts')) /\ two_ok hash a' live ts' /\ map_calls (A := A) (as_call <$> l) (two_map ts) rs (two_map ts').
Proof.
  induction l as [|o l IH]; intros a ts Ho; cbn [run_two_calls].
  - exists [], a, ts. split_and!; [done|done|constructor].
  - destruct (run_two_call_spec a live ts o Ho) as (r & a1 & ts1 & E1 & Ho1 & M1). rewrite (bind_returns _ _ _ _ _ E1).
    destruct (IH a1 ts1 Ho1) as (rs & a2 & ts2 & E2 & Ho2 & M2). rewrite (bind_returns _ _ _ _ _ E2). exists (r :: rs), a2, ts2. split_and!; [done|done|]. by econstructor.
Qed.

(** C9: A table of two levels refines one finite map, like a table of one
    level: it is constructed, or the allocator throws and the buckets that were
    constructed are destroyed; then any sequence of insertions, searches and
    iterations returns and gives the answers of the map; in the end the memory
    of all buckets is given back. *)
Theorem two_level_refines a live garbage st l :
  alloc_inv a live -> state_ok st -> 1 <= initial_size_degree < 64 -> bytes_of (I := I) initial_size_degree < 2 ^ 60 ->
  match TwoLevelHashTable_new initial_size_degree garbage st a with
  | (Returns ts, a1) => exists rs a2 ts2 a3, run_two_calls l (a1, ts) = (Returns rs, (a2, ts2)) /\ map_calls (A := A) (as_call <$> l) ∅ rs (two_map ts2) /\
      destroy_impls ts2 a2 = (Returns tt, a3) /\ alloc_inv a3 live
  | (Throws e, a1) => alloc_inv a1 live /\ memory_error (A := A) e
  end.
Proof.
  intros Hinv Hst Hd Hb. pose proof (TwoLevelHashTable_new_spec hash initial_size_degree a live garbage st Hinv Hst Hd Hb) as Hn.
  destruct (TwoLevelHashTable_new initial_size_degree garbage st a) as [[ts|e] a1]; [|done]. destruct Hn as (Ho & Hm & _).
  destruct (run_two_calls_spec live l a1 ts Ho) as (rs & a2 & ts2 & E & Ho2 & Hl). destruct (two_owned hash a2 live ts2 Ho2) as [Hall Hinv2].
  destruct (destroy_impls_spec hash ts2 a2 live Hall Hinv2) as (a3 & E3 & Hinv3). exists rs, a2, ts2, a3. rewrite Hm in Hl. by split_and!.
Qed.

(** C25: The conversion of a table of one level into one of two levels, for cells
    without state, keeps the elements and leaves the source as it is; when the allocator throws, all
    memory but that of the source is given back. *)
Theorem two_level_of_table a live src garbage st :
  (forall s s' : State, s = s') -> table_ok hash a live src -> state_ok st -> 1 <= initial_size_degree < 64 -> bytes_of (I := I) initial_size_degree < 2 ^ 60 ->
  match TwoLevelHashTable_of hash log2 initial_size_degree garbage st src a with
  | (Returns ts, a') => two_ok hash a' (range src :: live) ts /\ two_map ts = table_map src /\ two_size ts = m_size src
  | (Throws e, a') => table_ok hash a' live src /\ memory_error (A := A) e
  end.
Proof.
  intros Hone Hsrc Hst Hd Hb. pose proof (TwoLevelHashTable_of_spec hash log2 initial_size_degree Hone a live src garbage st Hsrc Hst Hd Hb) as Hc.
  destruct (TwoLevelHashTable_of hash log2 initial_size_degree garbage st src a) as [[ts|e] a']; [|done]. destruct Hc as [Ho Hm]. split_and!; [done|done|].
  by rewrite (two_size_spec hash a' _ ts Ho), Hm, (contents_size hash a live src Hsrc).
Qed.
End TwoLevelRefinement.

(** ** Instances *)

#[local] Existing Instance uint64_set | 0.
#[local] Existing Instance uint64_set_laws | 0.
#[local] Existing Instance on_the_pool | 0.
#[local] Existing Instance on_the_pool_laws | 0.
#[local] Existing Instance TwoLevelHashTableGrower.
#[local] Existing Instance uint64_set_io.
#[local] Existing Instance uint64_set_io_laws.

Definition demo_two : outcome (list (HashTable (HashTableCell Z) unit)) * pool_allocator := TwoLevelHashTable_new (I := uint64_set) 2 (TableCell 7) tt demo_allocator.

Lemma demo_two_returns : match demo_two.1 with Returns ts => length ts = 256%nat | Throws _ => False end.
Proof. vm_compute. reflexivity. Qed.

Lemma demo_two_new : demo_two = TwoLevelHashTable_new (I := uint64_set) 2 (TableCell 7) tt demo_allocator.
Proof. reflexivity. Qed.

Lemma demo_two_ok : exists ts a, demo_two = (Returns ts, a) /\ two_ok (I := uint64_set) intHash64 a [] ts /\ two_map (I := uint64_set) ts = ∅.
Proof.
  pose proof demo_two_returns as Hr. pose proof (TwoLevelHashTable_new_spec (I := uint64_set) intHash64 2 demo_allocator [] (TableCell 7) tt demo_live I ltac:(lia) eq_refl) as Hn.
  rewrite <- demo_two_new in Hn. destruct demo_two as [[ts|e] a]; [|destruct Hr]. destruct Hn as (Ho & Hm & _). exists ts, a. split; [reflexivity|split; assumption].
Qed.

Lemma two_level_refines_witness :
  exists ts a1 rs a2 ts2 a3, demo_two = (Returns ts, a1) /\
    run_two_calls (I := uint64_set) intHash64 Z.log2 2 [TwoInsert 5; TwoInsert 0; TwoInsert 5; TwoFind 5; TwoFind 6; TwoSize; TwoElements] (a1, ts) = (Returns rs, (a2, ts2)) /\
    map_calls (I := uint64_set) (A := pool_allocator) [Insert 5; Insert 0; Insert 5; Find 5; Find 6; Size; Elements] ∅ rs (two_map ts2) /\
    destroy_impls ts2 a2 = (Returns tt, a3) /\ pool_live a3 [].
Proof.
  pose proof demo_two_returns as Hr. pose proof (two_level_refines (I := uint64_set) intHash64 Z.log2 2 demo_allocator [] (TableCell 7) tt
    [TwoInsert 5; TwoInsert 0; TwoInsert 5; TwoFind 5; TwoFind 6; TwoSize; TwoElements] demo_live I ltac:(lia) eq_refl) as Hn.
  rewrite <- demo_two_new in Hn. destruct demo_two as [[ts|e] a1]; [|destruct Hr].
  destruct Hn as (rs & a2 & ts2 & a3 & Hn). exists ts, a1, rs, a2, ts2, a3. split; [reflexivity|exact Hn].
Defined.

Lemma two_level_of_table_witness :
  exists r a t, demo_inserted [5; 0; 6] = (Returns r, (a, t)) /\
  match TwoLevelHashTable_of (I := uint64_set) intHash64 Z.log2 2 (TableCell 7) tt t a with
  | (Returns ts, a') => two_ok (I := uint64_set) intHash64 a' [range (I := uint64_set) t] ts /\ two_map ts = table_map t /\ two_size ts = m_size t
  | (Throws e, a') => table_ok (I := uint64_set) intHash64 a' [] t /\ memory_error (A := pool_allocator) e
  end.
Proof.
  destruct (demo_inserted_ok [5; 0; 6]) as (r & a & t & E & Ht). exists r, a, t. split; [exact E|].
  apply (two_level_of_table (I := uint64_set) intHash64 Z.log2 2 a [] t (TableCell 7) tt (fun s s' => match s, s' with tt, tt => eq_refl end) Ht I ltac:(lia) eq_refl).
Defined.

Lemma two_write_read_witness :
  exists ts a, demo_two = (Returns ts, a) /\
  exists w, writes (D := from_string) (two_write ts) tt w /\ forall (b : rbuf from_memory) p, state b (w ++ [9]) p ->
    match two_read (I := uint64_set) intHash64 Z.log2 2 (TableCell 3) ((a, ts), b) with
    | (Returns _, (s, b')) => two_ok (I := uint64_set) intHash64 s.1 [] s.2 /\ dom (two_map s.2) = dom (two_map ts) /\ state b' [9] p
    | (Throws e, _) => memory_error (A := pool_allocator) e
    end.
Proof.
  destruct demo_two_ok as (ts & a & E & Ho & Hm). exists ts, a. split; [exact E|]. clear E.
  apply (two_write_read (I := uint64_set) (W := from_string) (R := from_memory) intHash64 Z.log2 2 (fun _ => eq_refl) (fun _ _ => eq_refl) ltac:(lia) eq_refl a [] ts a [] ts (TableCell 3) [9] Ho); [|exact Ho].
  apply list.Forall_lookup. intros i t Ei. rewrite (empty_contents (I := uint64_set) intHash64 _ _ t (two_at intHash64 _ _ _ _ _ Ho Ei)); [constructor|].
  apply map_empty. intros k. destruct (table_map t !! k) as [v|] eqn:Ek; [|done].
  assert (v ∈ two_contents ts) as Hv by (apply elem_of_two_contents; exists i, t; split; [done|]; apply (table_map_lookup intHash64 _ _ _ _ _ (two_at intHash64 _ _ _ _ _ Ho Ei)) in Ek; tauto).
  assert (two_map ts !! getKey v = Some v) as Hk by (by apply (two_map_lookup intHash64 a [] ts)). by rewrite Hm in Hk.
Defined.
