(* ===== verification/SmallTable.v ===== *)
(** * Tables of a few elements

    dbms/src/Common/HashTable/SmallTable.h: SmallTable with its Reader,
    SmallSet and SmallMapTable::operator[].  An array of [capacity] cells of
    which the first [m_size] are in use, searched from the beginning.

    A cell outside the array gives BUFFER_OVERRUN.  The cells have
    HashTableNoState or another state that is only passed on; it reads and
    writes nothing.  The elements are trivially destructible.  Shown: the table
    is a finite map of at most [capacity] keys ([small_refines]); what is
    written is read back, and a larger size is refused ([small_write_read],
    [small_read_too_large]); operator[] forgets the value of a key that is
    there ([small_subscript_resets]). *)

From stdpp Require Import base list option numbers gmap.
From Stdlib Require Import ZArith Lia.
From S2P Require Import Prelude IOMonad ReadBuffers BufferSources WriteBuffers VarInt Hash HashTableCells HashTable HashMaps HashTableIO.

#[local] Open Scope Z_scope.
#[local] Open Scope word_scope.

(** ** Operations *)

Record SmallTable (C : Type) := Small { s_size : Z; s_buf : list C }.
Arguments Small {C} s_size s_buf.
Arguments s_size {C} _.
Arguments s_buf {C} _.

Section Operations.
Context {Key Value State C : Type} `{I : !Cell Key Value State C} (st : State) (capacity : Z).

(** while (it < buf + m_size), [n] cells being left *)
Fixpoint small_findCell_loop (b : list C) (x : Key) (n : nat) (it : Z) : outcome Z :=
  match n with
  | O => mret it
  | S n' =>
      c ← nth_cell b it;
      if keyEquals c x then mret it else small_findCell_loop b x n' (it + 1)
  end.

Definition small_findCell (x : Key) : M (SmallTable C) Z :=
  t ← get id;
  lift (small_findCell_loop (s_buf t) x (Z.to_nat (s_size t)) 0).

(** A store to [buf[i]]. *)
Definition small_assign (i : Z) (c : C) : M (SmallTable C) unit :=
  t ← get id;
  _ ← lift (nth_cell (s_buf t) i);
  modify (fun t => Small (s_size t) (<[Z.to_nat i := c]> (s_buf t))).

Definition small_cell (i : Z) : M (SmallTable C) C := t ← get id; lift (nth_cell (s_buf t) i).

Definition grow_size : M (SmallTable C) unit := modify (fun t => Small (s_size t +64 1) (s_buf t)).

Definition small_end (t : SmallTable C) : Z := s_size t.
Definition full (t : SmallTable C) : bool := s_size t =? capacity.

Definition small_emplace (x : Key) : M (SmallTable C) (Z * bool) :=
  res ← small_findCell x;
  n ← get s_size;
  let inserted := res =? n in
  _ ← (if inserted then
         c ← small_cell res;
         _ ← small_assign res (new_Cell x st c);
         grow_size
       else mret tt);
  mret (res, inserted).

(** The iterator, [inserted] and the result. *)
Definition small_tryEmplace (x : Key) : M (SmallTable C) (Z * bool * bool) :=
  res ← small_findCell x;
  n ← get s_size;
  let inserted := res =? n in
  if inserted then
    if res =? capacity then mret (res, inserted, false)
    else
      c ← small_cell res;
      _ ← small_assign res (new_Cell x st c);
      _ ← grow_size;
      mret (res, inserted, true)
  else mret (res, inserted, true).

Definition small_insert (x : Value) : M (SmallTable C) (Z * bool) :=
  res ← small_emplace (getKey x);
  _ ← (if (res.2 : bool) then c ← small_cell res.1; small_assign res.1 (setMapped x c) else mret tt);
  mret res.

Definition insertUnique_cell (cell : C) : M (SmallTable C) unit :=
  n ← get s_size;
  _ ← small_assign n cell;
  grow_size.

Definition insertUnique_key (x : Key) : M (SmallTable C) unit :=
  n ← get s_size;
  c ← small_cell n;
  _ ← small_assign n (new_Cell x st c);
  grow_size.

Definition small_find (x : Key) : M (SmallTable C) Z := small_findCell x.

Definition small_size (t : SmallTable C) : Z := s_size t.
Definition small_empty (t : SmallTable C) : bool := 0 =? s_size t.
Definition small_clear : M (SmallTable C) unit := modify (fun t => Small 0 (s_buf t)).
End Operations.

(** SmallMapTable::operator[] *)
Definition small_subscript {Key Mapped State C : Type} `{I : !Cell Key (PairNoInit Key Mapped) State C} (st : State) (zero_mapped : Mapped) (x : Key) : M (SmallTable C) Z :=
  r ← small_emplace st x;
  c ← small_cell r.1;
  _ ← small_assign r.1 (setMapped (Pair (key_of c) zero_mapped) c);
  mret r.1.

Section SmallIO.
Context {Key Value State C D : Type} `{I : !Cell Key Value State C} `{!CellIO C}.

(** for (size_t i = 0; i < m_size; ++i), [n] cells being left *)
Fixpoint small_write_cells `{!WriteBuffer D} (b : list C) (n : nat) (i : Z) : M (wbuf D) unit :=
  match n with
  | O => mret tt
  | S n' =>
      c ← lift (nth_cell b i);
      _ ← write_cell c;
      small_write_cells b n' (i + 1)
  end.

Definition small_write `{!WriteBuffer D} (t : SmallTable C) : M (wbuf D) unit :=
  _ ← writeVarUInt (s_size t);
  small_write_cells (s_buf t) (Z.to_nat (s_size t)) 0.

Definition small_on_table `{!ReadBuffer D} {X} (m : M (SmallTable C) X) : M (SmallTable C * rbuf D) X := zoom fst (fun t s => (t, s.2)) m.
Definition small_on_buffer `{!ReadBuffer D} {X} (m : M (rbuf D) X) : M (SmallTable C * rbuf D) X := zoom snd (fun b s => (s.1, b)) m.

Fixpoint small_read_cells `{!ReadBuffer D} (n : nat) (i : Z) : M (SmallTable C * rbuf D) unit :=
  match n with
  | O => mret tt
  | S n' =>
      c ← small_on_table (small_cell i);
      c' ← small_on_buffer (read_cell c);
      _ ← small_on_table (small_assign i c');
      small_read_cells n' (i + 1)
  end.

(** throw DB::Exception("Illegal size") has no code. *)
Definition small_read `{!ReadBuffer D} (capacity : Z) : M (SmallTable C * rbuf D) unit :=
  _ ← small_on_table (modify (fun t => Small 0 (s_buf t)));
  new_size ← small_on_buffer readVarUInt;
  if capacity <? new_size then throw NO_CODE
  else
    _ ← small_read_cells (Z.to_nat new_size) 0;
    small_on_table (modify (fun t => Small new_size (s_buf t))).

(** SmallTable::Reader differs from HashTable::Reader in the check of the size. *)
Definition small_reader_next `{!ReadBuffer D} (capacity : Z) : M (Reader C * rbuf D) bool :=
  r ← get fst;
  _ ← (if negb (is_initialized r) then
         n ← zoom snd (fun b s => (s.1, b)) readVarUInt;
         _ ← modify (fun s => (MkReader (reader_cell s.1) (read_count s.1) n (is_eof s.1) (is_initialized s.1), s.2));
         if capacity <? n then throw NO_CODE
         else modify (fun s => (MkReader (reader_cell s.1) (read_count s.1) (reader_size s.1) (is_eof s.1) true, s.2))
       else mret tt);
  r ← get fst;
  if read_count r =? reader_size r then
    _ ← modify (fun s => (MkReader (reader_cell s.1) (read_count s.1) (reader_size s.1) true (is_initialized s.1), s.2));
    mret false
  else
    c ← zoom snd (fun b s => (s.1, b)) (read_cell (reader_cell r));
    _ ← modify (fun s => (MkReader c (read_count s.1 +64 1) (reader_size s.1) (is_eof s.1) (is_initialized s.1), s.2));
    mret true.
End SmallIO.

(** ** The table is a map of bounded size *)

Section Refinement.
Context {Key Value State C : Type} `{Countable Key} `{I : !Cell Key Value State C} (hash : Key -> Z) `{L : !BaseLaws hash I} (st : State) (capacity : Z).
Implicit Types (t : SmallTable C) (x : Key).

Definition used t : list C := take (Z.to_nat (s_size t)) (s_buf t).
Definition small_map t : gmap Key Value := list_to_map ((fun c => (key_of c, getValue c)) <$> used t).

Record small_ok t : Prop := {
  small_length : Z.of_nat (length (s_buf t)) = capacity;
  small_bound : 0 <= s_size t <= capacity;
  small_nodup : NoDup (key_of <$> used t)
}.

Lemma length_used t : small_ok t -> Z.of_nat (length (used t)) = s_size t.
Proof. intros [Hl Hb _]. unfold used. rewrite length_take. lia. Qed.

Lemma small_map_lookup t x v : small_ok t -> small_map t !! x = Some v <-> exists c, c ∈ used t /\ key_of c = x /\ getValue c = v.
Proof.
  intros Ht. unfold small_map. rewrite <- elem_of_list_to_map by (rewrite <- list_fmap_compose; apply Ht). rewrite list_elem_of_fmap. split.
  - intros (c & [= -> ->] & Hc). by exists c.
  - intros (c & Hc & <- & <-). by exists c.
Qed.

Lemma small_map_None t x : small_ok t -> small_map t !! x = None <-> x ∉ key_of <$> used t.
Proof. intros Ht. unfold small_map. rewrite <- not_elem_of_list_to_map. by rewrite <- list_fmap_compose. Qed.

Lemma small_map_size t : small_ok t -> Z.of_nat (stdpp.base.size (small_map t)) = s_size t.
Proof.
  intros Ht. rewrite <- (length_used t Ht), <- length_map_to_list. unfold small_map. rewrite map_to_list_to_map by (rewrite <- list_fmap_compose; apply Ht). by rewrite length_fmap.
Qed.

Lemma find_loop_spec (b : list C) x n : forall it,
  0 <= it -> it + Z.of_nat n <= Z.of_nat (length b) ->
  exists j, small_findCell_loop b x n it = Returns j /\ it <= j <= it + Z.of_nat n /\
    (j < it + Z.of_nat n -> exists c, b !! Z.to_nat j = Some c /\ key_of c = x) /\ (forall k c, it <= Z.of_nat k < j -> b !! k = Some c -> key_of c <> x).
Proof.
  induction n as [|n IH]; intros it Hi Hn; cbn [small_findCell_loop]; [exists it; split_and!; [done|lia|lia|lia|lia]|].
  assert (Z.to_nat it < length b)%nat as Hlt by lia. destruct (lookup_lt_is_Some_2 b _ Hlt) as (c & Ec). assert (nth_cell b it = Returns c) as ->.
  { unfold nth_cell. rewrite (proj2 (Z.leb_le 0 it) Hi). by rewrite Ec. }
  unfold mbind, outcome_bind. destruct (keyEquals c x) eqn:Ek.
  - exists it. apply (base_keyEquals_key (hash := hash)) in Ek. split_and!; [done|lia|lia|by exists c|lia].
  - destruct (IH (it + 1) ltac:(lia) ltac:(lia)) as (j & Ej & Hj & Hin & Hbefore). exists j. split_and!; [done|lia|lia|intros; apply Hin; lia|].
    intros k c' Hk Ec'. destruct (Z.eq_dec (Z.of_nat k) it) as [<-|Hne]; [|apply (Hbefore k); [lia|done]]. rewrite Nat2Z.id, Ec' in Ec. injection Ec as <-.
    intros Hx. apply (base_keyEquals_key (hash := hash)) in Hx. congruence.
Qed.

(** A search stands on the cell of the key or behind the last. *)
Lemma small_findCell_spec t x :
  small_ok t ->
  (exists i c, small_findCell x t = (Returns (Z.of_nat i), t) /\ used t !! i = Some c /\ key_of c = x /\ Z.of_nat i < s_size t /\ small_map t !! x = Some (getValue c)) \/
  (small_findCell x t = (Returns (s_size t), t) /\ small_map t !! x = None).
Proof.
  intros Ht. pose proof Ht as [Hl Hb Hn]. destruct (find_loop_spec (s_buf t) x (Z.to_nat (s_size t)) 0) as (j & Ej & Hj & Hin & Hbefore); [lia|lia|].
  assert (small_findCell x t = (Returns j, t)) as Ef by (unfold small_findCell; rewrite bind_get; unfold lift; cbn [id]; by rewrite Ej).
  destruct (Z.eq_dec j (s_size t)) as [->|Hne].
  - right. split; [done|]. apply (small_map_None t x Ht). intros (c & Ec & Hc)%list_elem_of_fmap. apply list_elem_of_lookup in Hc as [k Ek].
    unfold used in Ek. apply lookup_take_Some in Ek as [Ek Hk]. apply (Hbefore k c); [lia|done|done].
  - left. destruct Hin as (c & Ec & Hc); [lia|]. assert (used t !! Z.to_nat j = Some c) as Eu by (unfold used; rewrite lookup_take_lt by lia; done).
    exists (Z.to_nat j), c. rewrite Z2Nat.id by lia. split_and!; [done|done|done|lia|]. apply (small_map_lookup t x _ Ht). exists c. split_and!; [by eapply list_elem_of_lookup_2|done|done].
Qed.

Lemma small_cell_run t i c : 0 <= i -> s_buf t !! Z.to_nat i = Some c -> small_cell i t = (Returns c, t).
Proof. intros Hi Ec. unfold small_cell. rewrite bind_get. unfold lift, nth_cell. cbn [id]. by rewrite (proj2 (Z.leb_le 0 i) Hi), Ec. Qed.

Lemma small_assign_run t i c c' : 0 <= i -> s_buf t !! Z.to_nat i = Some c' -> small_assign i c t = (Returns tt, Small (s_size t) (<[Z.to_nat i := c]> (s_buf t))).
Proof. intros Hi Ec. unfold small_assign. rewrite bind_get. unfold nth_cell. cbn [id]. by rewrite (proj2 (Z.leb_le 0 i) Hi), Ec, bind_lift. Qed.

(** A cell put behind the last. *)
Lemma small_push t c :
  small_ok t -> s_size t < capacity -> capacity < 2 ^ 64 -> small_map t !! key_of c = None ->
  let t' := Small (s_size t + 1) (<[Z.to_nat (s_size t) := c]> (s_buf t)) in
  small_ok t' /\ used t' = used t ++ [c] /\ small_map t' = <[key_of c := getValue c]> (small_map t).
Proof.
  intros Ht Hlt Hc Hx t'. pose proof Ht as [Hl Hb Hn]. assert (used t' = used t ++ [c]) as Hu.
  { unfold used, t'. cbn [s_size s_buf]. replace (Z.to_nat (s_size t + 1)) with (S (Z.to_nat (s_size t))) by lia.
    erewrite take_S_r by (apply list_lookup_insert_eq; lia). by rewrite take_insert_ge by lia. }
  apply (small_map_None t _ Ht) in Hx. split_and!; [split|done|].
  - unfold t'. cbn [s_buf]. by rewrite length_insert.
  - unfold t'. cbn [s_size]. lia.
  - rewrite Hu, fmap_app. apply NoDup_app. split_and!; [done| |apply NoDup_singleton]. intros k Hk [->|[]%not_elem_of_nil]%elem_of_cons. done.
  - unfold small_map at 1. rewrite Hu, fmap_app. cbn [fmap list_fmap]. rewrite list_to_map_app. cbn [list_to_map foldr fst snd].
    rewrite <- insert_union_r by (apply not_elem_of_list_to_map; by rewrite <- list_fmap_compose). by rewrite map_union_empty.
Qed.

(** The mapped value of the last cell. *)
Lemma small_set_last t c (x : Value) :
  small_ok t -> s_size t < capacity -> capacity < 2 ^ 64 -> small_map t !! getKey x = None -> key_of c = getKey x ->
  let t' := Small (s_size t + 1) (<[Z.to_nat (s_size t) := setMapped x c]> (s_buf t)) in
  small_ok t' /\ small_map t' = <[getKey x := x]> (small_map t).
Proof.
  intros Ht Hlt Hc Hx Hk t'. assert (key_of (setMapped x c) = getKey x) as Hk' by (rewrite <- Hk; apply (base_setMapped_key (hash := hash))).
  destruct (small_push t (setMapped x c) Ht Hlt Hc) as (Ht' & _ & Hm); [by rewrite Hk'|]. split; [exact Ht'|]. rewrite Hk', (base_setMapped_value (hash := hash)) in Hm by done. exact Hm.
Qed.

(** *** The operations *)

Lemma small_emplace_spec t x :
  small_ok t -> s_size t < capacity \/ small_map t !! x <> None -> capacity < 2 ^ 64 ->
  match small_map t !! x with
  | Some v => exists i c, small_emplace st x t = (Returns (Z.of_nat i, false), t) /\ used t !! i = Some c /\ key_of c = x /\ getValue c = v
  | None => exists c, key_of c = x /\ small_emplace st x t = (Returns (s_size t, true), Small (s_size t + 1) (<[Z.to_nat (s_size t) := c]> (s_buf t)))
  end.
Proof.
  intros Ht Hroom Hc. pose proof Ht as [Hl Hb _]. unfold small_emplace. destruct (small_findCell_spec t x Ht) as [(i & c & E & Eu & Hk & Hi & Hm)|[E Hm]]; rewrite (bind_returns _ _ _ _ _ E), bind_get, Hm.
  - rewrite (proj2 (Z.eqb_neq (Z.of_nat i) (s_size t))) by lia. by exists i, c.
  - rewrite Z.eqb_refl. destruct Hroom as [Hroom|Hroom]; [|congruence]. destruct (lookup_lt_is_Some_2 (s_buf t) (Z.to_nat (s_size t))) as (c & Ec); [lia|].
    exists (new_Cell x st c). split; [apply (base_new (hash := hash))|]. rewrite !bind_assoc, (bind_returns _ _ _ _ _ (small_cell_run t (s_size t) c ltac:(lia) Ec)).
    rewrite bind_assoc, (bind_returns _ _ _ _ _ (small_assign_run t (s_size t) (new_Cell x st c) c ltac:(lia) Ec)). unfold grow_size. rewrite bind_modify. cbn [s_size s_buf]. by rewrite wrap_small by (unfold fits; lia).
Qed.

(** Full, and the key is not there: emplace stores behind the array. *)
Lemma small_emplace_overrun t x : small_ok t -> s_size t = capacity -> small_map t !! x = None -> small_emplace st x t = (Throws BUFFER_OVERRUN, t).
Proof.
  intros Ht Hfull Hx. pose proof Ht as [Hl Hb _]. unfold small_emplace. destruct (small_findCell_spec t x Ht) as [(i & c & E & Eu & Hk & Hi & Hm)|[E Hm]]; [congruence|].
  rewrite (bind_returns _ _ _ _ _ E), bind_get, Z.eqb_refl. apply bind_throws. apply bind_throws. unfold small_cell. rewrite bind_get. unfold lift, nth_cell. cbn [id].
  rewrite (proj2 (Z.leb_le 0 (s_size t))) by lia. by rewrite lookup_ge_None_2 by lia.
Qed.

Lemma small_insert_spec t (v : Value) :
  small_ok t -> s_size t < capacity \/ small_map t !! getKey v <> None -> capacity < 2 ^ 64 ->
  exists i t', small_insert st v t = (Returns (i, bool_decide (small_map t !! getKey v = None)), t') /\ small_ok t' /\
    small_map t' = match small_map t !! getKey v with Some _ => small_map t | None => <[getKey v := v]> (small_map t) end.
Proof.
  intros Ht Hroom Hc. pose proof Ht as [Hl Hb _]. pose proof (small_emplace_spec t (getKey v) Ht Hroom Hc) as He. unfold small_insert. destruct (small_map t !! getKey v) as [u|] eqn:Hx.
  - destruct He as (i & c & E & _). rewrite (bind_returns _ _ _ _ _ E). cbn [snd]. rewrite bind_ret. by eexists _, t.
  - destruct Hroom as [Hroom|]; [|done]. destruct He as (c & Hk & E). rewrite (bind_returns _ _ _ _ _ E). cbn [fst snd]. rewrite bind_assoc.
    assert (<[Z.to_nat (s_size t) := c]> (s_buf t) !! Z.to_nat (s_size t) = Some c) as Ec by (apply list_lookup_insert_eq; lia).
    rewrite (bind_returns _ _ _ _ _ (small_cell_run (Small (s_size t + 1) (<[Z.to_nat (s_size t) := c]> (s_buf t))) (s_size t) c ltac:(lia) Ec)).
    rewrite (bind_returns _ _ _ _ _ (small_assign_run (Small (s_size t + 1) (<[Z.to_nat (s_size t) := c]> (s_buf t))) (s_size t) (setMapped v c) c ltac:(lia) Ec)).
    cbn [s_size s_buf]. rewrite list_insert_insert_eq. destruct (small_set_last t c v Ht Hroom Hc Hx Hk) as [Ht' Hm]. eexists _, _. split; [reflexivity|]. by split.
Qed.

(** if (find(x) == end()) and not full(): insert *)
Definition try_insert (v : Value) : M (SmallTable C) (option bool) :=
  i ← small_find (getKey v);
  t ← get id;
  if i =? small_end t then
    if negb (full capacity t) then r ← small_insert st v; mret (Some r.2) else mret None
  else mret (Some false).

(** The same with tryEmplace. *)
Definition try_emplace (v : Value) : M (SmallTable C) (option bool) :=
  r ← small_tryEmplace st capacity (getKey v);
  if negb r.2 then mret None
  else
    _ ← (if (r.1.2 : bool) then c ← small_cell r.1.1; small_assign r.1.1 (setMapped v c) else mret tt);
    mret (Some r.1.2).

(** What they do to a map. *)
Definition insert_bounded (v : Value) (m : gmap Key Value) : option bool * gmap Key Value :=
  match m !! getKey v with
  | Some _ => (Some false, m)
  | None => if Z.of_nat (stdpp.base.size m) <? capacity then (Some true, <[getKey v := v]> m) else (None, m)
  end.

Lemma try_insert_spec t v :
  small_ok t -> capacity < 2 ^ 64 -> exists t', try_insert v t = (Returns (insert_bounded v (small_map t)).1, t') /\ small_ok t' /\ small_map t' = (insert_bounded v (small_map t)).2.
Proof.
  intros Ht Hc. pose proof Ht as [Hl Hb _]. unfold try_insert, small_find, insert_bounded. rewrite (small_map_size t Ht).
  destruct (small_findCell_spec t (getKey v) Ht) as [(i & c & E & Eu & Hk & Hi & Hm)|[E Hm]]; rewrite (bind_returns _ _ _ _ _ E), bind_get, Hm; unfold small_end; cbn [id].
  - rewrite (proj2 (Z.eqb_neq (Z.of_nat i) (s_size t))) by lia. by exists t.
  - rewrite Z.eqb_refl. unfold full. destruct (Z.eqb_spec (s_size t) capacity) as [Ef|Ef]; cbn [negb].
    + rewrite (proj2 (Z.ltb_ge (s_size t) capacity)) by lia. by exists t.
    + rewrite (proj2 (Z.ltb_lt (s_size t) capacity)) by lia. destruct (small_insert_spec t v Ht ltac:(left; lia) Hc) as (i & t' & Ei & Ht' & Hm'). rewrite Hm in Ei, Hm'.
      rewrite (bind_returns _ _ _ _ _ Ei). by exists t'.
Qed.

Lemma try_emplace_spec t v :
  small_ok t -> capacity < 2 ^ 64 -> exists t', try_emplace v t = (Returns (insert_bounded v (small_map t)).1, t') /\ small_ok t' /\ small_map t' = (insert_bounded v (small_map t)).2.
Proof.
  intros Ht Hc. pose proof Ht as [Hl Hb _]. unfold try_emplace, small_tryEmplace, insert_bounded. rewrite bind_assoc, (small_map_size t Ht).
  destruct (small_findCell_spec t (getKey v) Ht) as [(i & c & E & Eu & Hk & Hi & Hm)|[E Hm]]; rewrite (bind_returns _ _ _ _ _ E), bind_assoc, bind_get, Hm.
  - rewrite (proj2 (Z.eqb_neq (Z.of_nat i) (s_size t))) by lia. by exists t.
  - rewrite Z.eqb_refl. destruct (Z.eqb_spec (s_size t) capacity) as [Ef|Ef].
    + rewrite (proj2 (Z.ltb_ge (s_size t) capacity)) by lia. by exists t.
    + rewrite (proj2 (Z.ltb_lt (s_size t) capacity)) by lia. destruct (lookup_lt_is_Some_2 (s_buf t) (Z.to_nat (s_size t))) as (c & Ec); [lia|].
      set (c1 := new_Cell (getKey v) st c). assert (key_of c1 = getKey v) as Hk by apply (base_new (hash := hash)).
      rewrite bind_assoc, (bind_returns _ _ _ _ _ (small_cell_run t (s_size t) c ltac:(lia) Ec)), bind_assoc, (bind_returns _ _ _ _ _ (small_assign_run t (s_size t) c1 c ltac:(lia) Ec)).
      unfold grow_size. rewrite bind_assoc, bind_modify, bind_ret. cbn [s_size s_buf fst snd negb]. rewrite wrap_small by (unfold fits; lia). rewrite bind_assoc.
      assert (<[Z.to_nat (s_size t) := c1]> (s_buf t) !! Z.to_nat (s_size t) = Some c1) as Ec1 by (apply list_lookup_insert_eq; lia).
      rewrite (bind_returns _ _ _ _ _ (small_cell_run (Small (s_size t + 1) (<[Z.to_nat (s_size t) := c1]> (s_buf t))) (s_size t) c1 ltac:(lia) Ec1)).
      rewrite (bind_returns _ _ _ _ _ (small_assign_run (Small (s_size t + 1) (<[Z.to_nat (s_size t) := c1]> (s_buf t))) (s_size t) (setMapped v c1) c1 ltac:(lia) Ec1)).
      cbn [s_size s_buf]. rewrite list_insert_insert_eq. destruct (small_set_last t c1 v Ht ltac:(lia) Hc Hm Hk) as [Ht' Hm']. eexists. split; [reflexivity|]. by split.
Qed.

(** *** Sequences of calls *)

Inductive small_call := SmallInsert (v : Value) | SmallTryEmplace (v : Value) | SmallFind (k : Key) | SmallSize | SmallClear.
Inductive small_answer := Took (r : option bool) | SmallFound (v : option Value) | SmallCount (n : Z) | SmallDone.

Definition run_small_call (o : small_call) : M (SmallTable C) small_answer :=
  match o with
  | SmallInsert v => r ← try_insert v; mret (Took r)
  | SmallTryEmplace v => r ← try_emplace v; mret (Took r)
  | SmallFind k =>
      i ← small_find k;
      t ← get id;
      if i =? small_end t then mret (SmallFound None) else c ← small_cell i; mret (SmallFound (Some (getValue c)))
  | SmallSize => n ← get small_size; mret (SmallCount n)
  | SmallClear => _ ← small_clear; mret SmallDone
  end.

Fixpoint run_small_calls (l : list small_call) : M (SmallTable C) (list small_answer) :=
  match l with
  | [] => mret []
  | o :: l' => r ← run_small_call o; rs ← run_small_calls l'; mret (r :: rs)
  end.

Definition bounded_call (o : small_call) (m : gmap Key Value) : small_answer * gmap Key Value :=
  match o with
  | SmallInsert v | SmallTryEmplace v => let '(r, m') := insert_bounded v m in (Took r, m')
  | SmallFind k => (SmallFound (m !! k), m)
  | SmallSize => (SmallCount (Z.of_nat (stdpp.base.size m)), m)
  | SmallClear => (SmallDone, ∅)
  end.

Fixpoint bounded_calls (l : list small_call) (m : gmap Key Value) : list small_answer * gmap Key Value :=
  match l with
  | [] => ([], m)
  | o :: l' => let '(r, m1) := bounded_call o m in let '(rs, m2) := bounded_calls l' m1 in (r :: rs, m2)
  end.

Lemma cleared_ok t : small_ok t -> small_ok (Small 0 (s_buf t)).
Proof. intros [Hl Hb _]. split; cbn [s_size s_buf]; [done|lia|]. unfold used. cbn. apply NoDup_nil_2. Qed.

Lemma run_small_call_spec t o :
  small_ok t -> capacity < 2 ^ 64 ->
  exists t', run_small_call o t = (Returns (bounded_call o (small_map t)).1, t') /\ small_ok t' /\ small_map t' = (bounded_call o (small_map t)).2.
Proof.
  intros Ht Hc. pose proof Ht as [Hl Hb _]. destruct o as [v|v|k| |]; cbn [run_small_call bounded_call].
  - destruct (try_insert_spec t v Ht Hc) as (t' & E & Ht' & Hm). rewrite (bind_returns _ _ _ _ _ E). exists t'. by destruct (insert_bounded v (small_map t)).
  - destruct (try_emplace_spec t v Ht Hc) as (t' & E & Ht' & Hm). rewrite (bind_returns _ _ _ _ _ E). exists t'. by destruct (insert_bounded v (small_map t)).
  - exists t. split; [|done]. unfold small_find, small_end.
    destruct (small_findCell_spec t k Ht) as [(i & c & E & Eu & Hk & Hi & Hm)|[E Hm]]; rewrite (bind_returns _ _ _ _ _ E), bind_get, Hm; cbn [id fst].
    + rewrite (proj2 (Z.eqb_neq (Z.of_nat i) (s_size t))) by lia. unfold used in Eu. apply lookup_take_Some in Eu as [Eu _].
      by rewrite (bind_returns _ _ _ _ _ (small_cell_run t (Z.of_nat i) c ltac:(lia) ltac:(by rewrite Nat2Z.id))).
    + by rewrite Z.eqb_refl.
  - exists t. rewrite bind_get. cbn [fst snd]. unfold small_size. by rewrite (small_map_size t Ht).
  - unfold small_clear. rewrite bind_modify. eexists. split; [reflexivity|]. split; [by apply cleared_ok|done].
Qed.

Lemma run_small_calls_spec l : forall t,
  small_ok t -> capacity < 2 ^ 64 ->
  exists t', run_small_calls l t = (Returns (bounded_calls l (small_map t)).1, t') /\ small_ok t' /\ small_map t' = (bounded_calls l (small_map t)).2.
Proof.
  induction l as [|o l IH]; intros t Ht Hc; cbn [run_small_calls bounded_calls]; [by exists t|].
  destruct (run_small_call_spec t o Ht Hc) as (t1 & E1 & Ht1 & M1). rewrite (bind_returns _ _ _ _ _ E1). destruct (IH t1 Ht1 Hc) as (t2 & E2 & Ht2 & M2). rewrite (bind_returns _ _ _ _ _ E2).
  rewrite M1 in M2 |- *. destruct (bounded_call o (small_map t)) as [r m1]. cbn [fst snd] in *. destruct (bounded_calls l m1) as [rs m2]. by exists t2.
Qed.

(** C37: A SmallTable refines a finite map of at most [capacity] keys: any
    sequence of guarded insertions, tryEmplace, searches and clearings, on an
    array with any contents, returns and gives the answers of the map; a new
    key is refused exactly when the table is full. *)
Theorem small_refines (b : list C) l :
  Z.of_nat (length b) = capacity -> capacity < 2 ^ 64 ->
  exists t', run_small_calls l (Small 0 b) = (Returns (bounded_calls l ∅).1, t') /\ small_ok t' /\ small_map t' = (bounded_calls l ∅).2.
Proof.
  intros Hb Hc. apply (run_small_calls_spec l (Small 0 b)); [|done]. split; cbn [s_size s_buf]; [done|lia|]. unfold used. cbn. apply NoDup_nil_2.
Qed.
End Refinement.

Lemma small_refines_witness : exists t',
  run_small_calls (I := uint64_set) tt 2 [SmallInsert 5; SmallInsert 5; SmallTryEmplace 0; SmallInsert 6; SmallFind 0; SmallClear; SmallSize] (Small 0 [TableCell 7; TableCell 7]) =
    (Returns (bounded_calls (I := uint64_set) 2 [SmallInsert 5; SmallInsert 5; SmallTryEmplace 0; SmallInsert 6; SmallFind 0; SmallClear; SmallSize] ∅).1, t') /\
  small_ok (I := uint64_set) 2 t' /\ small_map (I := uint64_set) t' = (bounded_calls (I := uint64_set) 2 [SmallInsert 5; SmallInsert 5; SmallTryEmplace 0; SmallInsert 6; SmallFind 0; SmallClear; SmallSize] ∅).2.
Proof. apply (small_refines (I := uint64_set) intHash64 tt 2 [TableCell 7; TableCell 7]); [reflexivity|lia]. Defined.

(** ** SmallMapTable::operator[] *)

Section SmallMaps.
Context {Key Mapped State C : Type} `{Countable Key} `{I : !Cell Key (PairNoInit Key Mapped) State C} (hash : Key -> Z) `{L : !BaseLaws hash I} (st : State) (capacity : Z).
Context (getKey_first : forall x : PairNoInit Key Mapped, getKey x = first x).

(** For a key that is in the table, the mapped value is replaced by the
    default: map[x] does not read the value. *)
Theorem small_subscript_resets (t : SmallTable C) x v zm :
  small_ok capacity t -> capacity < 2 ^ 64 -> small_map t !! x = Some v ->
  exists i t' c, small_subscript st zm x t = (Returns i, t') /\ s_buf t' !! Z.to_nat i = Some c /\ getValue c = Pair x zm.
Proof.
  intros Ht Hc Hx. pose proof Ht as [Hl Hb _]. pose proof (small_emplace_spec hash st capacity t x Ht ltac:(right; by rewrite Hx) Hc) as He. rewrite Hx in He. destruct He as (i & c & E & Eu & Hk & _).
  unfold small_subscript. rewrite (bind_returns _ _ _ _ _ E). cbn [fst]. unfold used in Eu. apply lookup_take_Some in Eu as [Eu Hi].
  assert (s_buf t !! Z.to_nat (Z.of_nat i) = Some c) as Ec by (by rewrite Nat2Z.id). rewrite (bind_returns _ _ _ _ _ (small_cell_run t (Z.of_nat i) c ltac:(lia) Ec)).
  rewrite (bind_returns _ _ _ _ _ (small_assign_run t (Z.of_nat i) _ c ltac:(lia) Ec)). eexists _, _, (setMapped (Pair (key_of c) zm) c). split; [reflexivity|]. cbn [s_buf]. split.
  - apply list_lookup_insert_eq. lia.
  - rewrite Hk, (base_setMapped_value (hash := hash)); [done|]. by rewrite getKey_first.
Qed.
End SmallMaps.

(** ** Writing and reading *)

Section SmallRoundTrip.
Context {Key Value State C : Type} `{Countable Key} `{I : !Cell Key Value State C} `{IO : !CellIO C} `{LIO : !CellIOLaws I IO} (capacity : Z).
Implicit Types (t : SmallTable C).

Lemma small_write_cells_spec {W} `{LW : WriteBufferLaws W} (b : list C) n : forall i,
  0 <= i -> i + Z.of_nat n <= Z.of_nat (length b) -> writes (D := W) (small_write_cells b n i) tt (elements_bytes (getValue <$> take n (drop (Z.to_nat i) b))).
Proof.
  induction n as [|n IH]; intros i Hi Hn; cbn [small_write_cells]; [rewrite take_0; apply writes_ret|].
  destruct (lookup_lt_is_Some_2 b (Z.to_nat i)) as (c & Ec); [lia|]. assert (nth_cell b i = Returns c) as -> by (unfold nth_cell; rewrite (proj2 (Z.leb_le 0 i) Hi); by rewrite Ec).
  apply writes_returned. rewrite (drop_S b c _ Ec). cbn [take fmap list_fmap]. change (elements_bytes (getValue c :: ?l)) with (value_bytes (getValue c) ++ elements_bytes l).
  eapply writes_bind; [apply write_cell_ok|]. replace (S (Z.to_nat i)) with (Z.to_nat (i + 1)) by lia. apply IH; lia.
Qed.

Definition small_bytes t : list Z := writeVarUInt_mem (s_size t) ++ elements_bytes (getValue <$> used t).

Lemma small_write_spec {W} `{LW : WriteBufferLaws W} t : 0 <= s_size t <= Z.of_nat (length (s_buf t)) -> writes (D := W) (small_write t) tt (small_bytes t).
Proof. intros Hb. unfold small_write. eapply writes_bind; [apply writeVarUInt_spec|]. apply (small_write_cells_spec (s_buf t) (Z.to_nat (s_size t)) 0); lia. Qed.

Lemma on_buffer_small {R} `{LR : ReadBufferLaws R} {X} (m : M (rbuf R) X) l r l' t (b : rbuf R) p :
  reads m l r l' -> state b l p -> exists b', small_on_buffer m (t, b) = (r, (t, b')) /\ state b' l' p.
Proof. intros Hm Hs. destruct (Hm b p Hs) as (b' & E & Hs'). exists b'. unfold small_on_buffer, zoom. cbn [snd fst]. by rewrite E. Qed.

Lemma on_table_small {R} `{!ReadBuffer R} {X} (m : M (SmallTable C) X) t t' (b : rbuf R) r : m t = (r, t') -> small_on_table m (t, b) = (r, (t', b)).
Proof. intros E. unfold small_on_table, zoom. cbn [fst snd]. by rewrite E. Qed.

Lemma small_read_cells_spec {R} `{LR : ReadBufferLaws R} vs rest p : forall i t (b : rbuf R),
  0 <= i -> i + Z.of_nat (length vs) <= Z.of_nat (length (s_buf t)) -> Forall value_ok vs -> state b (elements_bytes vs ++ rest) p ->
  exists t' b', small_read_cells (length vs) i (t, b) = (Returns tt, (t', b')) /\ state b' rest p /\ s_size t' = s_size t /\ length (s_buf t') = length (s_buf t) /\
    take (Z.to_nat i) (s_buf t') = take (Z.to_nat i) (s_buf t) /\ getValue <$> take (length vs) (drop (Z.to_nat i) (s_buf t')) = vs.
Proof.
  induction vs as [|v vs IH]; intros i t b Hi Hn Hv Hs; cbn [length small_read_cells] in *; [exists t, b; split_and!; done|].
  apply list.Forall_cons in Hv as [Hv Hvs]. change (elements_bytes (v :: vs)) with (value_bytes v ++ elements_bytes vs) in Hs. rewrite <- app_assoc in Hs.
  destruct (lookup_lt_is_Some_2 (s_buf t) (Z.to_nat i)) as (c & Ec); [lia|]. rewrite (bind_returns _ _ _ _ _ (on_table_small _ _ _ b _ (small_cell_run t i c Hi Ec))).
  destruct (read_cell_ok c v (elements_bytes vs ++ rest) Hv) as (c1 & Hr & Hg). destruct (on_buffer_small _ _ _ _ t b p Hr Hs) as (b1 & E1 & Hs1).
  rewrite (bind_returns _ _ _ _ _ E1), (bind_returns _ _ _ _ _ (on_table_small _ _ _ b1 _ (small_assign_run t i c1 c Hi Ec))). set (t1 := Small _ _).
  assert (length (s_buf t1) = length (s_buf t)) as Hl1 by (cbn [t1 s_buf]; apply length_insert).
  destruct (IH (i + 1) t1 b1 ltac:(lia) ltac:(lia) Hvs Hs1) as (t' & b' & E & Hs' & Hsz & Hlen & Htake & Hval). exists t', b'. replace (Z.to_nat (i + 1)) with (S (Z.to_nat i)) in Htake, Hval by lia.
  assert (s_buf t' !! Z.to_nat i = Some c1) as Ec1.
  { rewrite <- (lookup_take_lt (s_buf t') (S (Z.to_nat i))) by lia. rewrite Htake, lookup_take_lt by lia. cbn [t1 s_buf]. apply list_lookup_insert_eq. lia. }
  split_and!; [exact E|done|done|congruence| |rewrite (drop_S _ c1 _ Ec1); cbn [take fmap list_fmap]; by rewrite Hg, Hval].
  assert (take (Z.to_nat i) (take (S (Z.to_nat i)) (s_buf t')) = take (Z.to_nat i) (take (S (Z.to_nat i)) (s_buf t1))) as Ht by (by rewrite Htake).
  rewrite !take_take, !Nat.min_l in Ht by lia. rewrite Ht. cbn [t1 s_buf]. by rewrite take_insert_ge by lia.
Qed.

(** The round trip, into a table with any contents. *)
Lemma small_read_spec {R} `{LR : ReadBufferLaws R} t t' rest (b : rbuf R) p :
  small_ok capacity t -> capacity < 2 ^ 63 -> Z.of_nat (length (s_buf t')) = capacity -> Forall value_ok (getValue <$> used t) -> state b (small_bytes t ++ rest) p ->
  exists t'' b', small_read capacity (t', b) = (Returns tt, (t'', b')) /\ state b' rest p /\ s_size t'' = s_size t /\ length (s_buf t'') = length (s_buf t') /\ getValue <$> used t'' = getValue <$> used t.
Proof.
  intros Ht Hc Hl Hv Hs. pose proof (length_used capacity t Ht) as Hn. pose proof Ht as [_ Hb _]. unfold small_read, small_bytes in *. rewrite <- app_assoc in Hs.
  rewrite (bind_returns _ _ _ _ _ (on_table_small (modify (fun t => Small 0 (s_buf t))) t' (Small 0 (s_buf t')) b (Returns tt) eq_refl)).
  destruct (on_buffer_small _ _ _ _ (Small 0 (s_buf t')) b p (reads_varuint (s_size t) (elements_bytes (getValue <$> used t) ++ rest) ltac:(lia)) Hs) as (b1 & E1 & Hs1).
  rewrite (bind_returns _ _ _ _ _ E1), Z.mod_small by lia. rewrite (proj2 (Z.ltb_ge capacity (s_size t))) by lia.
  assert (length (getValue <$> used t) = Z.to_nat (s_size t)) as Hlen by (rewrite length_fmap; lia).
  destruct (small_read_cells_spec (getValue <$> used t) rest p 0 (Small 0 (s_buf t')) b1 ltac:(lia) ltac:(rewrite Hlen; cbn [s_buf]; lia) Hv Hs1) as (t1 & b2 & E2 & Hs2 & _ & Hl1 & _ & Hval). rewrite Hlen in E2, Hval.
  rewrite (bind_returns _ _ _ _ _ E2). eexists _, b2. split; [reflexivity|]. cbn [fst snd s_size s_buf]. split_and!; [done|done|exact Hl1|exact Hval].
Qed.

(** A SmallTable that is written is read back, over all buffers and into a
    table with any contents. *)
Theorem small_write_read {W R} `{LW : WriteBufferLaws W} `{LR : ReadBufferLaws R} t t' rest :
  small_ok capacity t -> capacity < 2 ^ 63 -> Z.of_nat (length (s_buf t')) = capacity -> Forall value_ok (getValue <$> used t) ->
  exists w, writes (D := W) (small_write t) tt w /\ forall (b : rbuf R) p, state b (w ++ rest) p ->
    exists t'' b', small_read capacity (t', b) = (Returns tt, (t'', b')) /\ state b' rest p /\ small_ok capacity t'' /\ small_map t'' = small_map t.
Proof.
  intros Ht Hc Hl Hv. exists (small_bytes t). split; [apply (small_write_spec (LW := LW)); destruct Ht; lia|]. intros b p Hs.
  destruct (small_read_spec t t' rest b p Ht Hc Hl Hv Hs) as (t'' & b' & E & Hs' & Hsz & Hlen & Hu). exists t'', b'.
  assert (forall t, key_of <$> used t = getKey <$> (getValue <$> used t)) as Hkeys by (intros u; by rewrite <- list_fmap_compose).
  split_and!; [done|done|split; [lia|rewrite Hsz; apply Ht|rewrite Hkeys, Hu, <- Hkeys; apply Ht]|].
  assert (forall t, small_map t = list_to_map ((fun v => (getKey v, v)) <$> (getValue <$> used t))) as Hmap by (intros u; unfold small_map; by rewrite <- list_fmap_compose). by rewrite !Hmap, Hu.
Qed.

(** A size beyond the capacity is refused; the table is empty then. *)
Theorem small_read_too_large {R} `{LR : ReadBufferLaws R} t n rest (b : rbuf R) p :
  capacity < n < 2 ^ 63 -> 0 <= n -> state b (writeVarUInt_mem n ++ rest) p -> exists b', small_read capacity (t, b) = (Throws NO_CODE, (Small 0 (s_buf t), b')) /\ state b' rest p.
Proof.
  intros Hn Hn0 Hs. unfold small_read. rewrite (bind_returns _ _ _ _ _ (on_table_small (modify (fun t => Small 0 (s_buf t))) t (Small 0 (s_buf t)) b (Returns tt) eq_refl)).
  destruct (on_buffer_small _ _ _ _ (Small 0 (s_buf t)) b p (reads_varuint n rest Hn0) Hs) as (b1 & E1 & Hs1). exists b1. rewrite (bind_returns _ _ _ _ _ E1), Z.mod_small by lia.
  by rewrite (proj2 (Z.ltb_lt capacity n)) by lia.
Qed.
End SmallRoundTrip.
