(* ===== verification/CompactArray.v ===== *)
(** * Arrays of numbers of a few bits

    dbms/src/Common/CompactArray.h: [bucket_count] cells of [content_width]
    bits (between 1 and 7) that follow one another in an array of bytes, with
    the class Locus that finds the bytes of a cell and the class Reader that
    reads cells from a buffer one by one.

    The state is the list of the bytes.  The last cell, when it ends with a
    byte, makes the code look at the byte after the array, of which no bit is
    used: [after] is that byte.  Shown: the cells are the digits of the number
    that the bytes are ([get_digit], [set_digits]), so an assignment changes
    its cell and no other ([compact_get_set]); a Reader gives the cells in order
    ([next_cell]). *)

From stdpp Require Import base list option numbers.
From Stdlib Require Import ZArith Lia.
From S2P Require Import Prelude IOMonad ReadBuffers BufferSources.

#[local] Open Scope Z_scope.
#[local] Open Scope word_scope.

(** ** Operations *)

(** class Locus, without the pointers: they are to the bytes [index_l] and
    [index_r]. *)
Record Locus := MkLocus { index_l : Z; offset_l : Z; index_r : Z; offset_r : Z }.

Section Operations.
Context (content_width bucket_count : Z).

Definition BITSET_SIZE : Z := (bucket_count *64 content_width +64 7) / 8.

(** BucketIndex is UInt32. *)
Definition Locus_init (bucket_index : Z) : Locus :=
  let l := bucket_index *64 content_width in
  let r := wrap 32 (bucket_index + 1) *64 content_width in
  MkLocus (l >>64 3) (Z.land l 7) (r >>64 3) (Z.land r 7).

(** The expressions are of type int and become UInt8. *)
Definition locus_read (L : Locus) (value_l : Z) : Z :=
  wrap 8 (Z.land (Z.shiftr value_l (offset_l L)) (Z.shiftl 1 content_width - 1)).

Definition locus_read2 (L : Locus) (value_l value_r : Z) : Z :=
  wrap 8 (Z.lor (Z.land (Z.shiftr value_l (offset_l L)) (Z.shiftl 1 (8 - offset_l L) - 1))
                (Z.shiftl (Z.land value_r (Z.shiftl 1 (offset_r L) - 1)) (8 - offset_l L))).

Definition byte_at (after : Z) (bitset : list Z) (i : Z) : outcome Z :=
  match (bitset ++ [after]) !! Z.to_nat i with Some v => Returns v | None => Throws BUFFER_OVERRUN end.

(** operator[] const, and operator[] with the conversion of the Locus *)
Definition compact_get (after : Z) (bitset : list Z) (bucket_index : Z) : outcome Z :=
  let L := Locus_init bucket_index in
  l ← byte_at after bitset (index_l L);
  if index_l L =? index_r L then mret (locus_read L l)
  else
    r ← byte_at after bitset (index_r L);
    mret (locus_read2 L l r).

(** *content &= ~mask; *content |= value *)
Definition replace_bits (v mask value : Z) : Z := wrap 8 (Z.lor (wrap 8 (Z.land v (Z.lnot mask))) value).

Definition store_byte (bitset : list Z) (i v : Z) : outcome (list Z) :=
  if (Z.to_nat i <? length bitset)%nat then Returns (<[Z.to_nat i := v]> bitset) else Throws BUFFER_OVERRUN.

(** operator[] and Locus::operator= *)
Definition compact_set (bitset : list Z) (bucket_index content : Z) : outcome (list Z) :=
  let L := Locus_init bucket_index in
  l ← byte_at 0 bitset (index_l L);
  if (index_l L =? index_r L) || (index_l L =? BITSET_SIZE -64 1) then
    store_byte bitset (index_l L) (replace_bits l (Z.shiftl (Z.shiftl 1 content_width - 1) (offset_l L)) (Z.shiftl content (offset_l L)))
  else
    let left := 8 -64 offset_l L in
    b ← store_byte bitset (index_l L)
          (replace_bits l (Z.shiftl (Z.shiftl 1 left - 1) (offset_l L)) (Z.shiftl (Z.land content (Z.shiftl 1 left - 1)) (offset_l L)));
    r ← byte_at 0 b (index_r L);
    store_byte b (index_r L) (replace_bits r (Z.shiftl 1 (offset_r L) - 1) (Z.shiftr content left)).

(** *** Reader *)

Record CompactReader := MkCompactReader {
  r_locus : Locus;
  current_bucket_index : Z;
  r_count : Z;
  value_l : Z;
  value_r : Z;
  r_eof : bool;
  fits_in_byte : bool
}.

(** The members without an initialiser are those of [garbage]. *)
Definition CompactReader_new (garbage : CompactReader) : CompactReader :=
  MkCompactReader (r_locus garbage) 0 0 (value_l garbage) (value_r garbage) false (fits_in_byte garbage).

Context {D : Type} `{!ReadBuffer D}.

Definition read_byte : M (CompactReader * rbuf D) Z :=
  s ← zoom snd (fun b s => (s.1, b)) (readStrict 1);
  mret (le_value s).

Definition update_reader (f : CompactReader -> CompactReader) : M (CompactReader * rbuf D) unit := modify (fun s => (f s.1, s.2)).

Definition set_value_l (v : Z) (r : CompactReader) := MkCompactReader (r_locus r) (current_bucket_index r) (r_count r) v (value_r r) (r_eof r) (fits_in_byte r).
Definition set_value_r (v : Z) (r : CompactReader) := MkCompactReader (r_locus r) (current_bucket_index r) (r_count r) (value_l r) v (r_eof r) (fits_in_byte r).
Definition count_byte (r : CompactReader) := MkCompactReader (r_locus r) (current_bucket_index r) (r_count r +64 1) (value_l r) (value_r r) (r_eof r) (fits_in_byte r).
Definition set_fits (f : bool) (r : CompactReader) := MkCompactReader (r_locus r) (current_bucket_index r) (r_count r) (value_l r) (value_r r) (r_eof r) f.

Definition compact_next : M (CompactReader * rbuf D) bool :=
  i ← get (fun s => current_bucket_index s.1);
  if i =? bucket_count then
    _ ← update_reader (fun r => MkCompactReader (r_locus r) (current_bucket_index r) (r_count r) (value_l r) (value_r r) true (fits_in_byte r));
    mret false
  else
    let L := Locus_init i in
    _ ← update_reader (fun r => MkCompactReader L (current_bucket_index r) (r_count r) (value_l r) (value_r r) (r_eof r) (fits_in_byte r));
    _ ← (if i =? 0 then
           v ← read_byte;
           update_reader (fun r => count_byte (set_value_l v r))
         else update_reader (fun r => set_value_l (value_r r) r));
    _ ← (if negb (index_l L =? index_r L) then
           n ← get (fun s => r_count s.1);
           if n =? BITSET_SIZE then update_reader (set_fits true)
           else
             _ ← update_reader (set_fits false);
             v ← read_byte;
             update_reader (fun r => count_byte (set_value_r v r))
         else update_reader (fun r => set_value_r (value_l r) (set_fits true r)));
    _ ← update_reader (fun r => MkCompactReader (r_locus r) (wrap 32 (current_bucket_index r + 1)) (r_count r) (value_l r) (value_r r) (r_eof r) (fits_in_byte r));
    mret true.

Definition compact_reader_get (r : CompactReader) : outcome (Z * Z) :=
  if (current_bucket_index r =? 0) || r_eof r then Throws NO_AVAILABLE_DATA
  else if fits_in_byte r then Returns (wrap 32 (current_bucket_index r - 1), locus_read (r_locus r) (value_l r))
  else Returns (wrap 32 (current_bucket_index r - 1), locus_read2 (r_locus r) (value_l r) (value_r r)).
End Operations.

(** ** The cells are digits *)

Definition byte (x : Z) : Prop := 0 <= x < 256.

Lemma bytes_testbit b n : Forall byte b -> 0 <= n -> Z.testbit (le_value b) n = Z.testbit (nth (Z.to_nat (n / 8)) b 0) (n mod 8).
Proof.
  intros Hb. revert n. induction Hb as [|x b Hx Hb IH]; intros n Hn; cbn [le_value].
  - rewrite Z.testbit_0_l. destruct (Z.to_nat (n / 8)); by rewrite Z.testbit_0_l.
  - unfold byte in Hx. destruct (Z.lt_ge_cases n 8) as [Hlt|Hge].
    + rewrite <- (Z.mod_pow2_bits_low (x + 256 * le_value b) 8 n) by lia. change (2 ^ 8) with 256. rewrite (Z.mul_comm 256), Z.mod_add, (Z.mod_small x), (Z.mod_small n 8), (Z.div_small n 8) by lia. done.
    + replace n with ((n - 8) + 8) at 1 by lia. rewrite <- Z.div_pow2_bits by lia. change (2 ^ 8) with 256. rewrite (Z.mul_comm 256), Z.div_add, (Z.div_small x) by lia. cbn [Z.add]. rewrite IH by lia.
      replace (n - 8) with (n + (-1) * 8) by lia. rewrite Z.div_add, Z.mod_add by lia. replace (Z.to_nat (n / 8)) with (S (Z.to_nat (n / 8 + -1))); [done|].
      assert (1 <= n / 8) by (apply Z.div_le_lower_bound; lia). lia.
Qed.

(** The rest of the number after a byte was replaced. *)
Lemma bytes_insert b i v n : Forall byte b -> byte v -> (i < length b)%nat -> 0 <= n ->
  Z.testbit (le_value (<[i := v]> b)) n = if n / 8 =? Z.of_nat i then Z.testbit v (n mod 8) else Z.testbit (le_value b) n.
Proof.
  intros Hb Hv Hi Hn. assert (0 <= n / 8) by (apply Z.div_pos; lia). rewrite !bytes_testbit by (done || by apply list.Forall_insert). destruct (Z.eqb_spec (n / 8) (Z.of_nat i)) as [E|E].
  - rewrite E, Nat2Z.id. by rewrite (nth_lookup_Some _ _ _ v) by (by apply list_lookup_insert_eq).
  - rewrite !nth_lookup. by rewrite list_lookup_insert_ne by lia.
Qed.

Section Digits.
Context (w bucket_count : Z) (Hw : 1 <= w < 8) (Hc : 1 <= bucket_count < 2 ^ 32).
Implicit Types b : list Z.

Definition digit (V i : Z) : Z := (V / 2 ^ (i * w)) mod 2 ^ w.

Record compact_ok b : Prop := {
  compact_length : Z.of_nat (length b) = BITSET_SIZE w bucket_count;
  compact_bytes : Forall byte b
}.

Lemma digit_testbit V i k : 0 <= i -> 0 <= k -> Z.testbit (digit V i) k = (k <? w) && Z.testbit V (i * w + k).
Proof. intros Hi Hk. unfold digit. rewrite Z.testbit_mod_pow2 by lia. rewrite Z.div_pow2_bits by nia. f_equal. f_equal. lia. Qed.

Lemma BITSET_SIZE_spec : BITSET_SIZE w bucket_count = (bucket_count * w + 7) / 8.
Proof. unfold BITSET_SIZE. rewrite (wrap_small 64 (bucket_count * w)) by (unfold fits; nia). rewrite wrap_small by (unfold fits; nia). done. Qed.

Lemma Locus_spec i : 0 <= i < bucket_count -> Locus_init w i = MkLocus (i * w / 8) ((i * w) mod 8) ((i * w + w) / 8) ((i * w + w) mod 8).
Proof.
  intros Hi. unfold Locus_init. rewrite (wrap_small 32 (i + 1)) by (unfold fits; lia). rewrite !wrap_small by (unfold fits; nia). rewrite !Z.shiftr_div_pow2 by lia. change (2 ^ 3) with 8.
  change 7 with (Z.ones 3). rewrite !Z.land_ones by lia. change (2 ^ 3) with 8. replace ((i + 1) * w) with (i * w + w) by lia. done.
Qed.

(** The geometry of a cell: it ends in its first byte or in the next one. *)
Lemma cell_bytes i : 0 <= i < bucket_count ->
  let l := i * w / 8 in let o := (i * w) mod 8 in
  i * w = 8 * l + o /\ 0 <= o < 8 /\ 0 <= l < BITSET_SIZE w bucket_count /\ i * w + w <= 8 * BITSET_SIZE w bucket_count /\
  ((o + w < 8 /\ (i * w + w) / 8 = l /\ (i * w + w) mod 8 = o + w) \/ (8 <= o + w /\ (i * w + w) / 8 = l + 1 /\ (i * w + w) mod 8 = o + w - 8)).
Proof.
  intros Hi l o. pose proof (Z.div_mod (i * w) 8 ltac:(lia)) as E. pose proof (Z.mod_pos_bound (i * w) 8 ltac:(lia)) as Ho. fold l o in E, Ho.
  rewrite BITSET_SIZE_spec. pose proof (Z.div_mod (bucket_count * w + 7) 8 ltac:(lia)) as Es. pose proof (Z.mod_pos_bound (bucket_count * w + 7) 8 ltac:(lia)) as Hs.
  assert (i * w + w <= bucket_count * w) as Hle by nia. assert (0 <= i * w) by nia. split_and!; [lia|lia|lia|lia|lia|lia|].
  destruct (Z.lt_ge_cases (o + w) 8); [left|right]; (split; [lia|]).
  - split; [symmetry; apply (Z.div_unique_pos _ _ l (o + w)); lia|symmetry; apply (Z.mod_unique_pos _ _ l (o + w)); lia].
  - split; [symmetry; apply (Z.div_unique_pos _ _ (l + 1) (o + w - 8)); lia|symmetry; apply (Z.mod_unique_pos _ _ (l + 1) (o + w - 8)); lia].
Qed.

Lemma byte_at_spec after b i : 0 <= i <= Z.of_nat (length b) -> byte_at after b i = Returns (if i =? Z.of_nat (length b) then after else nth (Z.to_nat i) b 0).
Proof.
  intros Hi. unfold byte_at. destruct (Z.eqb_spec i (Z.of_nat (length b))) as [->|Hne].
  - by rewrite Nat2Z.id, lookup_app_r, Nat.sub_diag by lia.
  - rewrite lookup_app_l by lia. destruct (lookup_lt_is_Some_2 b (Z.to_nat i)) as (v & Ev); [lia|]. rewrite Ev. by rewrite (nth_lookup_Some _ _ _ v).
Qed.

Lemma ones_shift n : Z.shiftl 1 n - 1 = Z.ones n.
Proof. rewrite Z.ones_equiv, Z.shiftl_1_l. lia. Qed.
End Digits.

(** Bits of the results of the expressions. *)
Ltac bits := repeat first
  [ rewrite Z.lor_spec | rewrite Z.land_spec | rewrite Z.lnot_spec by lia | rewrite Z.shiftr_spec by lia | rewrite Z.shiftl_spec by lia
  | rewrite Z.testbit_ones by lia | rewrite Z.testbit_mod_pow2 by lia ].

Ltac bound x y := destruct (Z.ltb_spec x y); try (exfalso; lia); cbn [andb orb negb].

Section Cells.
Context (w bucket_count : Z) (Hw : 1 <= w < 8) (Hc : 1 <= bucket_count < 2 ^ 32).
Implicit Types b : list Z.

Lemma byte_high v k : byte v -> 8 <= k -> Z.testbit v k = false.
Proof. intros Hv Hk. unfold byte in Hv. rewrite <- (Z.mod_small v (2 ^ 8)) by (change (2 ^ 8) with 256; lia). apply Z.mod_pow2_bits_high. lia. Qed.

(** The bit [8 i + o] of the bytes. *)
Lemma testbit_at b i o : Forall byte b -> 0 <= i -> 0 <= o < 8 -> Z.testbit (le_value b) (8 * i + o) = Z.testbit (nth (Z.to_nat i) b 0) o.
Proof.
  intros Hb Hi Ho. rewrite bytes_testbit by (done || lia). f_equal; [do 2 f_equal|].
  - symmetry. apply (Z.div_unique_pos _ _ i o); lia.
  - symmetry. apply (Z.mod_unique_pos _ _ i o); lia.
Qed.

Lemma nth_byte b i : Forall byte b -> byte (nth i b 0).
Proof. intros Hb. rewrite nth_lookup. destruct (b !! i) as [v|] eqn:E; [|unfold byte; cbn; lia]. by apply (list.Forall_lookup_1 _ _ _ _ Hb E). Qed.

(** A cell within a byte. *)
Lemma read_one_digit b i l o L :
  Forall byte b -> i * w = 8 * l + o -> 0 <= l -> 0 <= i -> 0 <= o -> o + w <= 8 -> offset_l L = o -> locus_read w L (nth (Z.to_nat l) b 0) = digit w (le_value b) i.
Proof.
  intros Hb E Hl Hi Ho Hw8 EL. apply Z.bits_inj'. intros k Hk. rewrite digit_testbit by lia. unfold locus_read, wrap. rewrite EL, ones_shift. bits.
  rewrite (proj2 (Z.leb_le 0 k)) by lia. cbn [andb]. bound k w; [|by rewrite andb_false_r, andb_false_r]. bound k 8. rewrite andb_true_r.
  rewrite E. replace (8 * l + o + k) with (8 * l + (o + k)) by lia. rewrite testbit_at by (done || lia). f_equal. lia.
Qed.

(** A read gives the digit, whatever the byte after the array is. *)
Lemma get_digit after b i : compact_ok w bucket_count b -> 0 <= i < bucket_count -> compact_get w after b i = Returns (digit w (le_value b) i).
Proof.
  intros [Hl Hb] Hi. unfold compact_get. rewrite (Locus_spec w bucket_count Hw Hc i Hi). cbn [index_l index_r].
  destruct (cell_bytes w bucket_count Hw Hc i Hi) as (E & Ho & Hil & Hend & Hgeo). set (l := i * w / 8) in *. set (o := (i * w) mod 8) in *.
  rewrite (byte_at_spec after b l) by lia. rewrite (proj2 (Z.eqb_neq l (Z.of_nat (length b)))) by lia. set (vl := nth (Z.to_nat l) b 0). pose proof (nth_byte b (Z.to_nat l) Hb) as Hvl. fold vl in Hvl.
  unfold mbind, outcome_bind, mret, outcome_ret. destruct Hgeo as [(Hg & -> & Eo)|(Hg & -> & Eo)].
  - rewrite Z.eqb_refl. f_equal. by apply (read_one_digit b i l o); (lia || done).
  - rewrite (proj2 (Z.eqb_neq l (l + 1))) by lia. rewrite (byte_at_spec after b (l + 1)) by lia. set (vr := if l + 1 =? _ then _ else _). f_equal. apply Z.bits_inj'. intros k Hk. rewrite digit_testbit by lia.
    unfold locus_read2, wrap. cbn [offset_l offset_r]. rewrite !ones_shift, Eo. rewrite Z.testbit_mod_pow2, Z.lor_spec, Z.land_spec, Z.shiftr_spec by lia. rewrite Z.testbit_ones by lia.
    rewrite (proj2 (Z.leb_le 0 k)) by lia. cbn [andb]. rewrite E. destruct (Z.lt_ge_cases k (8 - o)) as [Hlow|Hhigh].
    + rewrite (Z.shiftl_spec_low _ (8 - o)) by lia. rewrite orb_false_r. bound k (8 - o). bound k 8. bound k w. rewrite andb_true_r.
      replace (8 * l + o + k) with (8 * l + (o + k)) by lia. rewrite testbit_at by (done || lia). f_equal. lia.
    + rewrite Z.shiftl_spec_high by lia. rewrite Z.land_spec, Z.testbit_ones by lia. rewrite (proj2 (Z.leb_le 0 (k - (8 - o)))) by lia. bound k (8 - o). rewrite andb_false_r. cbn [orb andb].
      bound k w; bound (k - (8 - o)) (o + w - 8); rewrite ?andb_false_r, ?andb_true_r; [|done..]. bound k 8.
      replace (8 * l + o + k) with (8 * (l + 1) + (o + k - 8)) by lia. rewrite testbit_at by (done || lia). unfold vr. rewrite (proj2 (Z.eqb_neq (l + 1) (Z.of_nat (length b)))) by lia. f_equal. lia.
Qed.

Lemma store_byte_run b i v : 0 <= i < Z.of_nat (length b) -> store_byte b i v = Returns (<[Z.to_nat i := v]> b).
Proof. intros Hi. unfold store_byte. by rewrite (proj2 (Nat.ltb_lt _ _)) by lia. Qed.

Lemma replace_bits_byte v m x : byte (replace_bits v m x).
Proof. unfold replace_bits, wrap, byte. change 256 with (2 ^ 8). apply Z.mod_pos_bound. lia. Qed.

Lemma replace_bits_spec v m x k : byte v -> 0 <= k -> Z.testbit (replace_bits v m x) k = (k <? 8) && (Z.testbit v k && negb (Z.testbit m k) || Z.testbit x k).
Proof. intros Hv Hk. unfold replace_bits, wrap. rewrite Z.testbit_mod_pow2, Z.lor_spec, Z.testbit_mod_pow2, Z.land_spec, Z.lnot_spec by lia. by bound k 8. Qed.

Lemma content_high c k : 0 <= c < 2 ^ w -> w <= k -> Z.testbit c k = false.
Proof. intros Hv Hk. rewrite <- (Z.mod_small c (2 ^ w)) by lia. apply Z.mod_pow2_bits_high. lia. Qed.

Lemma testbit_range c k : Z.testbit c k = (0 <=? k) && Z.testbit c k.
Proof. destruct (Z.leb_spec 0 k); [done|]. by rewrite Z.testbit_neg_r. Qed.

(** The bits of the bytes after the cell [i] was assigned. *)
Definition assigned b i c b' : Prop :=
  compact_ok w bucket_count b' /\
  forall n, 0 <= n -> Z.testbit (le_value b') n = if (i * w <=? n) && (n <? i * w + w) then Z.testbit c (n - i * w) else Z.testbit (le_value b) n.

Lemma set_one_byte b i c l o :
  compact_ok w bucket_count b -> 0 <= c < 2 ^ w -> i * w = 8 * l + o -> 0 <= o -> o + w <= 8 -> 0 <= l < Z.of_nat (length b) ->
  assigned b i c (<[Z.to_nat l := replace_bits (nth (Z.to_nat l) b 0) (Z.shiftl (Z.ones w) o) (Z.shiftl c o)]> b).
Proof.
  intros [Hl Hb] Hcc E Ho Hw8 Hil. pose proof (nth_byte b (Z.to_nat l) Hb) as Hvl. split.
  { split; [by rewrite length_insert|]. apply list.Forall_insert; [done|apply replace_bits_byte]. }
  intros n Hn. rewrite bytes_insert by (done || lia || apply replace_bits_byte). rewrite Z2Nat.id, E by lia.
  pose proof (Z.div_mod n 8 ltac:(lia)) as En. pose proof (Z.mod_pos_bound n 8 ltac:(lia)) as Hm. set (q := n / 8) in *. set (m := n mod 8) in *.
  destruct (Z.eqb_spec q l) as [Eq|Hne].
  - rewrite replace_bits_spec by (done || lia). rewrite !Z.shiftl_spec, Z.testbit_ones by lia. bound m 8. rewrite <- (testbit_at b l m Hb ltac:(lia) Hm).
    replace (8 * l + m) with n by lia. replace (n - (8 * l + o)) with (m - o) by lia. destruct (Z.leb_spec (8 * l + o) n) as [Hin|Hin].
    + rewrite (proj2 (Z.leb_le 0 (m - o))) by lia. bound (m - o) w; bound n (8 * l + o + w); [by rewrite andb_false_r|]. rewrite (content_high c (m - o)) by lia. by rewrite andb_true_r, orb_false_r.
    + rewrite (proj2 (Z.leb_gt 0 (m - o))) by lia. cbn [andb negb]. rewrite (Z.testbit_neg_r c (m - o)) by lia. by rewrite andb_true_r, orb_false_r.
  - destruct (Z.leb_spec (8 * l + o) n); [|done]. by bound n (8 * l + o + w).
Qed.

Lemma set_two_bytes b i c l o :
  compact_ok w bucket_count b -> 0 <= c < 2 ^ w -> i * w = 8 * l + o -> 0 <= o < 8 -> 8 <= o + w -> 0 <= l -> l + 1 < Z.of_nat (length b) ->
  let b1 := <[Z.to_nat l := replace_bits (nth (Z.to_nat l) b 0) (Z.shiftl (Z.ones (8 - o)) o) (Z.shiftl (Z.land c (Z.ones (8 - o))) o)]> b in
  assigned b i c (<[Z.to_nat (l + 1) := replace_bits (nth (Z.to_nat (l + 1)) b 0) (Z.ones (o + w - 8)) (Z.shiftr c (8 - o))]> b1).
Proof.
  intros [Hl Hb] Hcc E Ho Hw8 Hil Hil' b1. pose proof (nth_byte b (Z.to_nat l) Hb) as Hvl. pose proof (nth_byte b (Z.to_nat (l + 1)) Hb) as Hvr.
  assert (Forall byte b1) as Hb1 by (apply list.Forall_insert; [done|apply replace_bits_byte]). assert (length b1 = length b) as Hl1 by apply length_insert. split.
  { split; [rewrite length_insert; lia|]. apply list.Forall_insert; [done|apply replace_bits_byte]. }
  intros n Hn. rewrite bytes_insert by (done || lia || apply replace_bits_byte). rewrite Z2Nat.id, E by lia.
  pose proof (Z.div_mod n 8 ltac:(lia)) as En. pose proof (Z.mod_pos_bound n 8 ltac:(lia)) as Hm. set (q := n / 8) in *. set (m := n mod 8) in *.
  destruct (Z.eqb_spec q (l + 1)) as [Eq|Hne].
  - rewrite replace_bits_spec by (done || lia). rewrite Z.shiftr_spec, Z.testbit_ones by lia. bound m 8. rewrite <- (testbit_at b (l + 1) m Hb ltac:(lia) Hm).
    replace (8 * (l + 1) + m) with n by lia. replace (n - (8 * l + o)) with (m + (8 - o)) by lia. rewrite (proj2 (Z.leb_le (8 * l + o) n)), (proj2 (Z.leb_le 0 m)) by lia.
    bound m (o + w - 8); bound n (8 * l + o + w); [by rewrite andb_false_r|]. rewrite (content_high c (m + (8 - o))) by lia. by rewrite andb_true_r, orb_false_r.
  - unfold b1. rewrite bytes_insert by (done || lia || apply replace_bits_byte). rewrite Z2Nat.id by lia. fold q. fold m. destruct (Z.eqb_spec q l) as [Eq|Hne'].
    + rewrite replace_bits_spec by (done || lia). rewrite !Z.shiftl_spec by lia. rewrite Z.land_spec, Z.testbit_ones by lia. bound m 8. rewrite <- (testbit_at b l m Hb ltac:(lia) Hm).
      replace (8 * l + m) with n by lia. replace (n - (8 * l + o)) with (m - o) by lia. bound (m - o) (8 - o). bound n (8 * l + o + w). rewrite !andb_true_r.
      destruct (Z.leb_spec (8 * l + o) n) as [Hin|Hin].
      * rewrite (proj2 (Z.leb_le 0 (m - o))) by lia. cbn [negb andb]. by rewrite andb_false_r, andb_true_r.
      * rewrite (proj2 (Z.leb_gt 0 (m - o))) by lia. cbn [negb andb]. rewrite (Z.testbit_neg_r c (m - o)) by lia. by rewrite andb_true_r, orb_false_r.
    + destruct (Z.leb_spec (8 * l + o) n); [|done]. by bound n (8 * l + o + w).
Qed.

Lemma set_assigned b i c : compact_ok w bucket_count b -> 0 <= i < bucket_count -> 0 <= c < 2 ^ w -> exists b', compact_set w bucket_count b i c = Returns b' /\ assigned b i c b'.
Proof.
  intros Hok Hi Hcc. pose proof Hok as [Hl Hb]. unfold compact_set. rewrite (Locus_spec w bucket_count Hw Hc i Hi). cbn [index_l index_r offset_l offset_r].
  destruct (cell_bytes w bucket_count Hw Hc i Hi) as (E & Ho & Hil & Hend & Hgeo). set (l := i * w / 8) in *. set (o := (i * w) mod 8) in *.
  assert (BITSET_SIZE w bucket_count < 2 ^ 40) as Hsmall.
  { rewrite (BITSET_SIZE_spec w bucket_count Hw Hc). apply Z.div_lt_upper_bound; [lia|]. nia. }
  rewrite (byte_at_spec 0 b l), (proj2 (Z.eqb_neq l (Z.of_nat (length b)))) by lia. rewrite (wrap_small 64 (BITSET_SIZE w bucket_count - 1)), (wrap_small 64 (8 - o)) by (unfold fits; lia).
  unfold mbind, outcome_bind. rewrite !ones_shift. destruct Hgeo as [(Hg & -> & Eo)|(Hg & -> & Eo)].
  - rewrite Z.eqb_refl. cbn [orb]. rewrite store_byte_run by lia. eexists. split; [reflexivity|]. apply set_one_byte; (done || lia).
  - rewrite (proj2 (Z.eqb_neq l (l + 1))) by lia. cbn [orb]. destruct (Z.eqb_spec l (BITSET_SIZE w bucket_count - 1)) as [El|Hne].
    + rewrite store_byte_run by lia. eexists. split; [reflexivity|]. apply set_one_byte; (done || lia).
    + rewrite store_byte_run by lia. set (b1 := <[Z.to_nat l := _]> b). assert (length b1 = length b) as Hl1 by apply length_insert.
      rewrite (byte_at_spec 0 b1 (l + 1)), (proj2 (Z.eqb_neq (l + 1) (Z.of_nat (length b1)))), store_byte_run by lia. eexists. split; [reflexivity|]. rewrite Eo.
      assert (nth (Z.to_nat (l + 1)) b1 0 = nth (Z.to_nat (l + 1)) b 0) as -> by (rewrite !nth_lookup; unfold b1; by rewrite list_lookup_insert_ne by lia).
      apply set_two_bytes; (done || lia).
Qed.

(** An assignment changes its cell and no other. *)
Lemma set_digits b i c :
  compact_ok w bucket_count b -> 0 <= i < bucket_count -> 0 <= c < 2 ^ w ->
  exists b', compact_set w bucket_count b i c = Returns b' /\ compact_ok w bucket_count b' /\
    forall j, 0 <= j < bucket_count -> digit w (le_value b') j = if j =? i then c else digit w (le_value b) j.
Proof.
  intros Hok Hi Hcc. destruct (set_assigned b i c Hok Hi Hcc) as (b' & E & Hok' & Hbits). exists b'. split_and!; [done|done|]. intros j Hj.
  destruct (Z.eqb_spec j i) as [->|Hne]; apply Z.bits_inj'; intros k Hk; rewrite !digit_testbit by lia.
  - rewrite Hbits by nia. bound k w; [|by rewrite content_high by lia]. rewrite (proj2 (Z.leb_le (i * w) (i * w + k))) by lia. bound (i * w + k) (i * w + w). f_equal. lia.
  - bound k w; [|done]. rewrite Hbits by nia. destruct (Z.leb_spec (i * w) (j * w + k)); [|done]. bound (j * w + k) (i * w + w); [|done]. nia.
Qed.

(** C36: The cells of a CompactArray are independent, although they share
    bytes: after an assignment of a value of [content_width] bits, the cell has
    the value and every other cell has the one it had, whatever the byte after
    the array is. *)
Theorem compact_get_set b i c :
  compact_ok w bucket_count b -> 0 <= i < bucket_count -> 0 <= c < 2 ^ w ->
  exists b', compact_set w bucket_count b i c = Returns b' /\ compact_ok w bucket_count b' /\
    forall after j, 0 <= j < bucket_count -> compact_get w after b' j = if j =? i then Returns c else compact_get w after b j.
Proof.
  intros Hok Hi Hcc. destruct (set_digits b i c Hok Hi Hcc) as (b' & E & Hok' & Hd). exists b'. split_and!; [done|done|]. intros after j Hj.
  rewrite (get_digit after b' j Hok' Hj), (get_digit after b j Hok Hj), Hd by done. by destruct (j =? i).
Qed.
End Cells.

Lemma compact_get_set_witness : exists b', compact_set 5 4 [0x21; 0x43; 0x65] 1 0x1f = Returns b' /\ compact_ok 5 4 b' /\
  forall after j, 0 <= j < 4 -> compact_get 5 after b' j = if j =? 1 then Returns 0x1f else compact_get 5 after [0x21; 0x43; 0x65] j.
Proof.
  apply (compact_get_set 5 4 ltac:(lia) ltac:(lia) [0x21; 0x43; 0x65] 1 0x1f); [|lia|lia]. split; [reflexivity|]. repeat apply Forall_cons_2; [unfold byte; lia..|apply Forall_nil_2].
Defined.

(** ** Reader *)

Section ReaderProofs.
Context (w bucket_count : Z) (Hw : 1 <= w < 8) (Hc : 1 <= bucket_count < 2 ^ 32).
Context {D : Type} `{LD : ReadBufferLaws D}.
Implicit Types (b : list Z) (r : CompactReader) (s : rbuf D).

Lemma read_byte_run r s x l p : byte x -> state s (x :: l) p -> exists s', read_byte (r, s) = (Returns x, (r, s')) /\ state s' l p.
Proof.
  intros Hx Hs. destruct (reads_readStrict 1 (x :: l) s p Hs) as (s' & E & Hs'). exists s'. split; [|exact Hs']. unfold read_byte, mbind, M_bind, zoom. cbn [fst snd]. rewrite E. cbn. unfold mret, M_ret. by rewrite Z.add_0_r.
Qed.

(** The reader stands before the cell [i] of the bytes [b], the rest of which
    and [rest] are in the buffer. *)
Definition at_cell b rest p (i : Z) r s : Prop :=
  current_bucket_index r = i /\ r_eof r = false /\ r_count r = (if i =? 0 then 0 else i * w / 8 + 1) /\ (i <> 0 -> value_r r = nth (Z.to_nat (i * w / 8)) b 0) /\
  state s (drop (Z.to_nat (r_count r)) b ++ rest) p.

Lemma drop_nth b n : (n < length b)%nat -> drop n b = nth n b 0 :: drop (S n) b.
Proof. intros Hn. destruct (lookup_lt_is_Some_2 b n Hn) as (x & Ex). rewrite (drop_S b x n Ex). by rewrite (nth_lookup_Some _ _ _ x). Qed.

(** The first byte of a cell is that of the last one or is read. *)
Lemma reader_first b rest p i r s :
  compact_ok w bucket_count b -> 0 <= i < bucket_count -> at_cell b rest p i r s ->
  exists s', (if i =? 0 then v ← read_byte; update_reader (fun r => count_byte (set_value_l v r)) else update_reader (fun r => set_value_l (value_r r) r)) (r, s) =
      (Returns tt, (MkCompactReader (r_locus r) (current_bucket_index r) (i * w / 8 + 1) (nth (Z.to_nat (i * w / 8)) b 0) (value_r r) (r_eof r) (fits_in_byte r), s')) /\
    state s' (drop (Z.to_nat (i * w / 8 + 1)) b ++ rest) p.
Proof.
  intros [Hl Hb] Hi (H1 & H2 & H3 & H4 & Hs). destruct (cell_bytes w bucket_count Hw Hc i Hi) as (_ & _ & Hil & _). destruct (Z.eqb_spec i 0) as [->|Hne].
  - rewrite H3 in Hs. change (0 * w) with 0 in *. change (0 / 8) with 0 in *. rewrite (drop_nth b (Z.to_nat 0)) in Hs by lia. cbn [app] in Hs.
    destruct (read_byte_run r s _ _ p (nth_byte b _ Hb) Hs) as (s' & E & Hs'). exists s'. rewrite (bind_returns _ _ _ _ _ E). split; [|exact Hs']. unfold update_reader, modify, count_byte, set_value_l. cbn. by rewrite H3.
  - exists s. rewrite <- H3. split; [|by rewrite H3 in Hs |- *]. unfold update_reader, modify, set_value_l. cbn [fst snd]. by rewrite (H4 Hne).
Qed.

(** The second byte: what the reader gives is the digit, and it has read the
    byte in which the next cell begins. *)
Lemma reader_second b rest p i r s :
  compact_ok w bucket_count b -> 0 <= i < bucket_count -> r_count r = i * w / 8 + 1 -> value_l r = nth (Z.to_nat (i * w / 8)) b 0 ->
  state s (drop (Z.to_nat (i * w / 8 + 1)) b ++ rest) p ->
  let L := Locus_init w i in
  exists n v f s', (if negb (index_l L =? index_r L) then
           n ← get (fun q => r_count q.1);
           if n =? BITSET_SIZE w bucket_count then update_reader (set_fits true)
           else
             _ ← update_reader (set_fits false);
             v ← read_byte;
             update_reader (fun r => count_byte (set_value_r v r))
         else update_reader (fun r => set_value_r (value_l r) (set_fits true r))) (r, s) =
      (Returns tt, (MkCompactReader (r_locus r) (current_bucket_index r) n (value_l r) v (r_eof r) f, s')) /\
    (if (f : bool) then locus_read w L (value_l r) else locus_read2 L (value_l r) v) = digit w (le_value b) i /\
    state s' (drop (Z.to_nat n) b ++ rest) p /\
    (if i + 1 =? bucket_count then Z.of_nat (length b) <= n else n = (i + 1) * w / 8 + 1 /\ v = nth (Z.to_nat ((i + 1) * w / 8)) b 0).
Proof.
  intros Hok Hi Hn Hv Hs L. pose proof Hok as [Hl Hb]. destruct (cell_bytes w bucket_count Hw Hc i Hi) as (E & Ho & Hil & Hend & Hgeo). pose proof (get_digit w bucket_count Hw Hc 0 b i Hok Hi) as Eget.
  unfold compact_get in Eget. subst L. rewrite (Locus_spec w bucket_count Hw Hc i Hi) in Eget |- *. cbn [index_l index_r] in Eget |- *. set (l := i * w / 8) in *. set (o := (i * w) mod 8) in *.
  rewrite (byte_at_spec 0 b l), (proj2 (Z.eqb_neq l (Z.of_nat (length b)))) in Eget by lia. assert ((i + 1) * w = i * w + w) as -> by lia. unfold mbind, outcome_bind, mret, outcome_ret in Eget.
  assert (BITSET_SIZE w bucket_count = (bucket_count * w + 7) / 8 /\ BITSET_SIZE w bucket_count < 2 ^ 60) as [Eb Hsmall].
  { rewrite (BITSET_SIZE_spec w bucket_count Hw Hc). split; [done|]. apply Z.div_lt_upper_bound; nia. }
  pose proof (Z.div_mod (bucket_count * w + 7) 8 ltac:(lia)) as Edm. pose proof (Z.mod_pos_bound (bucket_count * w + 7) 8 ltac:(lia)) as Hdm. rewrite <- Eb in Edm.
  destruct Hgeo as [(Hg & Er & Eo)|(Hg & Er & Eo)]; rewrite Er in *.
  - rewrite Z.eqb_refl in Eget |- *. injection Eget as Eget. eexists _, _, true, s. split; [reflexivity|]. cbn [fst r_count set_value_r set_fits value_l]. rewrite Hv, Hn. split_and!; [done|done|].
    destruct (Z.eqb_spec (i + 1) bucket_count) as [<-|]; [nia|done].
  - rewrite (proj2 (Z.eqb_neq l (l + 1))) in Eget |- * by lia. cbn [negb]. rewrite bind_get. cbn [fst]. rewrite Hn. destruct (Z.eqb_spec (l + 1) (BITSET_SIZE w bucket_count)) as [Elast|Hne].
    + eexists _, _, true, s. split; [reflexivity|]. cbn [fst r_count set_fits value_l]. rewrite Hv, Hn. split_and!; [by apply (read_one_digit w Hw b i l o); (done || lia)|done|].
      rewrite (proj2 (Z.eqb_eq (i + 1) bucket_count)) by nia. lia.
    + unfold update_reader. rewrite bind_modify. cbn [fst snd]. rewrite (drop_nth b (Z.to_nat (l + 1))) in Hs by lia. cbn [app] in Hs.
      destruct (read_byte_run (set_fits false r) s _ _ p (nth_byte b _ Hb) Hs) as (s2 & E2 & Hs2). rewrite (bind_returns _ _ _ _ _ E2).
      rewrite (byte_at_spec 0 b (l + 1)), (proj2 (Z.eqb_neq (l + 1) (Z.of_nat (length b)))) in Eget by lia. injection Eget as Eget.
      eexists _, _, false, s2. split; [reflexivity|]. cbn [fst r_count set_fits set_value_r]. rewrite Hv, Hn, (wrap_small 64 (l + 1 + 1)) by (unfold fits; lia).
      split_and!; [done|by replace (Z.to_nat (l + 1 + 1)) with (S (Z.to_nat (l + 1))) by lia|]. destruct (Z.eqb_spec (i + 1) bucket_count) as [<-|]; [nia|done].
Qed.

Lemma next_cell b rest p i r s :
  compact_ok w bucket_count b -> 0 <= i < bucket_count -> at_cell b rest p i r s ->
  exists r' s', compact_next w bucket_count (r, s) = (Returns true, (r', s')) /\ compact_reader_get w r' = Returns (i, digit w (le_value b) i) /\
    if i + 1 =? bucket_count then current_bucket_index r' = bucket_count /\ state s' rest p else at_cell b rest p (i + 1) r' s'.
Proof.
  intros Hok Hi Hat. pose proof Hok as [Hl Hb]. pose proof Hat as (H1 & H2 & _).
  unfold compact_next. rewrite bind_get. cbn [fst]. rewrite H1, (proj2 (Z.eqb_neq i bucket_count)) by lia.
  rewrite (bind_returns (update_reader _) _ (r, s) tt (MkCompactReader (Locus_init w i) (current_bucket_index r) (r_count r) (value_l r) (value_r r) (r_eof r) (fits_in_byte r), s) eq_refl).
  set (r0 := MkCompactReader _ _ _ _ _ _ _). assert (at_cell b rest p i r0 s) as Hat0 by done.
  destruct (reader_first b rest p i r0 s Hok Hi Hat0) as (s1 & E1 & Hs1). rewrite (bind_returns _ _ _ _ _ E1). clear E1. set (r1 := MkCompactReader (r_locus r0) _ _ _ _ _ _).
  destruct (reader_second b rest p i r1 s1 Hok Hi eq_refl eq_refl Hs1) as (n & v & f & s2 & E2 & Hd & Hs2 & Hnext). rewrite (bind_returns _ _ _ _ _ E2). clear E2.
  assert (wrap 32 (i + 1) = i + 1 /\ wrap 32 (i + 1 - 1) = i) as [Ew Ew'] by (split; [|replace (i + 1 - 1) with i by lia]; apply wrap_small; unfold fits; lia).
  unfold update_reader. rewrite bind_modify. cbn [fst snd r_locus current_bucket_index r_count value_l value_r r_eof fits_in_byte r1 r0] in *. rewrite H1, H2, Ew in *.
  eexists _, s2. split; [reflexivity|]. unfold compact_reader_get. cbn [r_locus current_bucket_index value_l value_r r_eof fits_in_byte]. rewrite (proj2 (Z.eqb_neq (i + 1) 0)), Ew' by lia. cbn [orb]. split.
  - destruct f; by rewrite Hd.
  - destruct (Z.eqb_spec (i + 1) bucket_count) as [Elast|Hne]; [split; [done|]; by rewrite drop_ge in Hs2 by lia|]. destruct Hnext as [-> ->].
    unfold at_cell. cbn [current_bucket_index r_eof r_count value_r]. rewrite (proj2 (Z.eqb_neq (i + 1) 0)) by lia. by split_and!.
Qed.
End ReaderProofs.
