(* ===== verification/HyperLogLogHost.v ===== *)
(** * The distinct counter of the server

    dbms/src/Common/HyperLogLogCounter.h and
    HyperLogLogWithSmallSetOptimization.h, in the instance that uniqHLL12 uses:
    a small set of 16, precision 12, 32-bit hash values, the stable denominator
    (the numbers of the buckets of each rank).  The ranks are in a CompactArray
    of 5-bit cells; the byte after it, at which CompactArray looks, is the
    first of the denominator.  Sets become large through the memory tracker,
    which can refuse.  The estimate, which is floating point, is not modelled.

    Shown: a counter represents the set of the values inserted, whatever their
    order and however counters are merged ([counter_represents]), and up to
    sixteen values has them exactly; what is written is read and merged
    ([counter_write_read]); the large counter is, bucket for bucket, that of
    the GPU ([gpu_counter_agrees]). *)

From stdpp Require Import base list option numbers gmap.
From Stdlib Require Import ZArith Lia.
From S2P Require Import Prelude IOMonad ReadBuffers BufferSources WriteBuffers VarInt MemoryTracker HashTableCells HashTable HashMaps HashTableIO SmallTable CompactArray.
From S2P Require MurmurHash HyperLogLog.

#[local] Open Scope Z_scope.
#[local] Open Scope word_scope.

(** ** HyperLogLogCounter *)

Definition precision : Z := 12.
Definition bucket_count : Z := 1 <<64 precision.
Definition rank_width : Z := 5.
Definition max_rank : Z := 4 * 8 - precision + 1.

Definition extractBitSequence (val begin_ end_ : Z) : Z := u32 (Z.land (Z.shiftr val begin_) (u64 (Z.shiftl 1 (end_ - begin_)) - 1)).

(** __builtin_ctz *)
Fixpoint ctz_pos (p : positive) : Z :=
  match p with
  | xO p' => 1 + ctz_pos p'
  | _ => 0
  end.

Definition ctz (v : Z) : Z := match v with Zpos p => ctz_pos p | _ => 0 end.

(** unlikely(x) is 0 or 1, and that is what is compared with [max_rank]. *)
Definition calculateRank (val : Z) : Z :=
  if val =? 0 then max_rank
  else
    let zeros_plus_one := ctz val + 1 in
    if max_rank <? (if negb (zeros_plus_one =? 0) then 1 else 0) then max_rank else u8 zeros_plus_one.

Record HyperLogLogCounter := Counter { rank_store : list Z; rank_count : list Z; zeros : Z }.

Definition set_rank_store (b : list Z) (h : HyperLogLogCounter) := Counter b (rank_count h) (zeros h).
Definition set_rank_count (c : list Z) (h : HyperLogLogCounter) := Counter (rank_store h) c (zeros h).
Definition set_zeros (z : Z) (h : HyperLogLogCounter) := Counter (rank_store h) (rank_count h) z.

(** The default initialisers; [zeros] is UInt16, the counts are UInt32. *)
Definition Counter_new : HyperLogLogCounter :=
  Counter (replicate (Z.to_nat (BITSET_SIZE rank_width bucket_count)) 0) (u32 bucket_count :: replicate (Z.to_nat max_rank) 0) (wrap 16 bucket_count).

(** The byte behind the ranks in the packed object. *)
Definition after (h : HyperLogLogCounter) : Z := nth 0 (rank_count h) 0 mod 256.

(** rank_count[r] += d *)
Definition add_count (r d : Z) : M HyperLogLogCounter unit :=
  c ← get rank_count;
  if (Z.to_nat r <? length c)%nat then modify (set_rank_count (<[Z.to_nat r := wrap 32 (nth (Z.to_nat r) c 0 + d)]> c)) else throw BUFFER_OVERRUN.

Definition denominator_update (cur_rank new_rank : Z) : M HyperLogLogCounter unit :=
  _ ← add_count cur_rank (-1);
  add_count new_rank 1.

Definition update (bucket rank : Z) : M HyperLogLogCounter unit :=
  h ← get id;
  cur_rank ← lift (compact_get rank_width (after h) (rank_store h) bucket);
  if cur_rank <? rank then
    _ ← (if cur_rank =? 0 then modify (fun h => set_zeros (wrap 16 (zeros h - 1)) h) else mret tt);
    _ ← denominator_update cur_rank rank;
    b ← lift (compact_set rank_width bucket_count (rank_store h) bucket rank);
    modify (set_rank_store b)
  else mret tt.

Section Values.
Context (hash : Z -> Z).

Definition bucket_of (value : Z) : Z := extractBitSequence (hash value) 0 precision.
Definition rank_of (value : Z) : Z := calculateRank (extractBitSequence (hash value) precision 32).

Definition hll_insert (value : Z) : M HyperLogLogCounter unit := update (bucket_of value) (rank_of value).
End Values.

(** for (bucket = 0; bucket < bucket_count; ++bucket), [n] being left *)
Fixpoint merge_buckets (rhs : HyperLogLogCounter) (n : nat) (bucket : Z) : M HyperLogLogCounter unit :=
  match n with
  | O => mret tt
  | S n' =>
      r ← lift (compact_get rank_width (after rhs) (rank_store rhs) bucket);
      _ ← update bucket r;
      merge_buckets rhs n' (bucket + 1)
  end.

Definition hll_merge (rhs : HyperLogLogCounter) : M HyperLogLogCounter unit := merge_buckets rhs (Z.to_nat bucket_count) 0.

(** The object in memory: the class is packed. *)
Definition hll_bytes (h : HyperLogLogCounter) : list Z := rank_store h ++ concat (le_bytes 4 <$> rank_count h) ++ le_bytes 2 (zeros h).

Definition sizeof_RankStore : nat := Z.to_nat (BITSET_SIZE rank_width bucket_count).
Definition counts : nat := S (Z.to_nat max_rank).
Definition sizeof_rest : nat := 4 * counts + 2.
Definition sizeof_Counter : nat := sizeof_RankStore + sizeof_rest.

Fixpoint words4 (n : nat) (l : list Z) : list Z :=
  match n with
  | O => []
  | S n' => le_value (take 4 l) :: words4 n' (drop 4 l)
  end.

Definition hll_of_bytes (s : list Z) : HyperLogLogCounter :=
  Counter (take sizeof_RankStore s) (words4 counts (drop sizeof_RankStore s)) (le_value (drop (sizeof_RankStore + 4 * counts) s)).

Section CounterIO.
Context {D : Type}.

Definition hll_write `{!WriteBuffer D} (h : HyperLogLogCounter) : M (wbuf D) unit := WriteBuffers.write (hll_bytes h).

Definition hll_read `{!ReadBuffer D} : M (HyperLogLogCounter * rbuf D) unit :=
  s ← zoom snd (fun b s => (s.1, b)) (readStrict sizeof_Counter);
  modify (fun t => (hll_of_bytes s, t.2)).

Definition hll_skip `{!ReadBuffer D} : M (rbuf D) unit := ignore (sizeof_RankStore + sizeof_rest).

(** while (reader.next()) update(data.first, data.second) *)
Fixpoint merge_reader `{!ReadBuffer D} (fuel : nat) : M (HyperLogLogCounter * (CompactReader * rbuf D)) unit :=
  match fuel with
  | O => throw NO_FUEL
  | S fuel' =>
      b ← zoom snd (fun x s => (s.1, x)) (compact_next rank_width bucket_count);
      if b : bool then
        r ← get (fun s => s.2.1);
        data ← lift (compact_reader_get rank_width r);
        _ ← zoom fst (fun x s => (x, s.2)) (update data.1 data.2);
        merge_reader fuel'
      else mret tt
  end.

Definition hll_readAndMerge `{!ReadBuffer D} (garbage : CompactReader) : M (HyperLogLogCounter * rbuf D) unit := fun s =>
  let '(r, (h, (_, b))) := merge_reader (S (Z.to_nat bucket_count)) (s.1, (CompactReader_new garbage, s.2)) in
  match r with
  | Returns _ => zoom snd (fun b s => (s.1, b)) (ignore sizeof_rest) (h, b)
  | Throws e => (Throws e, (h, b))
  end.
End CounterIO.

(** *** The ranks *)

Lemma ctz_pos_le p : 0 <= ctz_pos p /\ 2 ^ ctz_pos p <= Zpos p.
Proof.
  induction p as [p IH|p IH|]; cbn [ctz_pos]; [lia| |lia]. destruct IH as [H0 IH]. split; [lia|]. rewrite Z.pow_add_r by lia. change (2 ^ 1) with 2. lia.
Qed.

Lemma extract_range h n : 0 <= extractBitSequence h 0 12 < 4096 /\ (n = 12 -> 0 <= extractBitSequence h n 32 < 2 ^ 20).
Proof.
  unfold extractBitSequence. split; [|intros ->].
  - change (u64 (Z.shiftl 1 (12 - 0)) - 1) with (Z.ones 12). rewrite Z.land_ones by lia. pose proof (Z.mod_pos_bound (Z.shiftr h 0) (2 ^ 12) ltac:(lia)). rewrite wrap_small by (unfold fits; lia). lia.
  - change (u64 (Z.shiftl 1 (32 - 12)) - 1) with (Z.ones 20). rewrite Z.land_ones by lia. pose proof (Z.mod_pos_bound (Z.shiftr h 12) (2 ^ 20) ltac:(lia)). rewrite wrap_small by (unfold fits; lia). lia.
Qed.

Lemma host_bucket_range hash v : 0 <= bucket_of hash v < 4096.
Proof. apply (extract_range (hash v) 12). Qed.

(** The rank of a tail other than zero. *)
Lemma calculateRank_spec t : 0 <= t < 2 ^ 20 -> calculateRank t = if t =? 0 then 21 else ctz t + 1.
Proof.
  intros Ht. unfold calculateRank. change max_rank with 21. destruct (Z.eqb_spec t 0) as [|Hne]; [done|]. destruct t as [|p|p]; [done| |lia]. cbn [ctz]. destruct (ctz_pos_le p) as [H0 Hle].
  assert (ctz_pos p < 20) by (apply (Z.pow_lt_mono_r_iff 2); lia). rewrite (proj2 (Z.ltb_ge 21 _)) by (destruct (negb _); lia). apply wrap_small. unfold fits. lia.
Qed.

Lemma host_rank_range hash v : 1 <= rank_of hash v <= 21.
Proof.
  unfold rank_of. destruct (extract_range (hash v) 12) as [_ Ht]. specialize (Ht eq_refl). change precision with 12. set (t := extractBitSequence _ _ _) in *. rewrite (calculateRank_spec t Ht). destruct (Z.eqb_spec t 0); [lia|].
  destruct t as [|p|p]; [done| |lia]. cbn [ctz]. destruct (ctz_pos_le p) as [H0 Hle]. assert (ctz_pos p < 20) by (apply (Z.pow_lt_mono_r_iff 2); lia). lia.
Qed.

Definition hrank (h : HyperLogLogCounter) (b : Z) : Z := digit 5 (le_value (rank_store h)) b.

(** The number of buckets with rank [r]. *)
Definition hcnt (h : HyperLogLogCounter) (r : Z) : Z := zsum (map (fun b => if hrank h b =? r then 1 else 0) (seqZ 0 4096)).

Record hll_ok (h : HyperLogLogCounter) : Prop := {
  hll_store : compact_ok 5 4096 (rank_store h);
  hll_count : length (rank_count h) = 22%nat;
  hll_ranks : forall b, 0 <= b < 4096 -> 0 <= hrank h b <= 21;
  hll_zeros : zeros h = hcnt h 0;
  hll_counts : forall r, 0 <= r < 22 -> nth (Z.to_nat r) (rank_count h) 0 = hcnt h r
}.

Lemma zsum_le_length (f : Z -> Z) l : (forall b, f b <= 1) -> zsum (map f l) <= Z.of_nat (length l).
Proof. intros Hf. induction l as [|b l IH]; [done|]. cbn [map zsum length]. specialize (Hf b). lia. Qed.

Lemma hcnt_range h r : 0 <= hcnt h r <= 4096.
Proof.
  unfold hcnt. split; [apply zsum_map_nonneg; intros b; destruct (_ =? r); lia|].
  pose proof (zsum_le_length (fun b => if hrank h b =? r then 1 else 0) (seqZ 0 4096)) as Hle. rewrite length_seqZ in Hle. apply Hle. intros b. destruct (_ =? r); lia.
Qed.

Lemma hcnt_pos h b : 0 <= b < 4096 -> 1 <= hcnt h (hrank h b).
Proof.
  intros Hb. unfold hcnt. assert (seqZ 0 4096 !! Z.to_nat b = Some b) as Eb by (rewrite lookup_seqZ_lt by lia; f_equal; lia).
  pose proof (zsum_map_ge (fun b' => if hrank h b' =? hrank h b then 1 else 0) _ _ _ ltac:(intros x; cbn beta; destruct (hrank h x =? hrank h b); lia) Eb) as Hge. cbn beta in Hge. by rewrite Z.eqb_refl in Hge.
Qed.

Lemma hcnt_change h h' b v r :
  0 <= b < 4096 -> (forall j, 0 <= j < 4096 -> hrank h' j = if j =? b then v else hrank h j) ->
  hcnt h' r = hcnt h r - (if hrank h b =? r then 1 else 0) + (if v =? r then 1 else 0).
Proof.
  intros Hb Hr. unfold hcnt.
  assert (map (fun b' => if hrank h' b' =? r then 1 else 0) (seqZ 0 4096) = map (fun b' => if (if b' =? b then v else hrank h b') =? r then 1 else 0) (seqZ 0 4096)) as ->.
  { apply map_ext_in. intros b' Hb'. apply list_elem_of_In, elem_of_seqZ in Hb'. by rewrite Hr by lia. }
  rewrite (zsum_point (fun b' => if hrank h b' =? r then 1 else 0) _ (seqZ 0 4096) b).
  - by rewrite Z.eqb_refl.
  - apply NoDup_seqZ.
  - apply elem_of_seqZ. lia.
  - intros y Hy. by rewrite (proj2 (Z.eqb_neq y b)).
Qed.

Lemma add_count_run h r d : 0 <= r < 22 -> length (rank_count h) = 22%nat ->
  add_count r d h = (Returns tt, set_rank_count (<[Z.to_nat r := wrap 32 (nth (Z.to_nat r) (rank_count h) 0 + d)]> (rank_count h)) h).
Proof. intros Hr Hl. unfold add_count. rewrite bind_get. rewrite (proj2 (Nat.ltb_lt _ _)) by lia. done. Qed.

Lemma nth_insert (l : list Z) i j x : (i < length l)%nat -> nth j (<[i := x]> l) 0 = if decide (j = i) then x else nth j l 0.
Proof.
  intros Hi. destruct (decide (j = i)) as [->|Hne]; [by rewrite (nth_lookup_Some _ _ _ x) by (by apply list_lookup_insert_eq)|]. rewrite !nth_lookup. by rewrite list_lookup_insert_ne.
Qed.

(** update raises the rank of a bucket and keeps the counts right. *)
Lemma host_update_spec h b r :
  hll_ok h -> 0 <= b < 4096 -> 0 <= r <= 21 ->
  exists h', update b r h = (Returns tt, h') /\ hll_ok h' /\ forall j, 0 <= j < 4096 -> hrank h' j = if j =? b then Z.max (hrank h b) r else hrank h j.
Proof.
  intros Hok Hb Hr. pose proof Hok as [Hs Hl Hranks Hz Hcs]. pose proof (Hranks b Hb) as Hcur. unfold update. rewrite bind_get. cbn [id]. change rank_width with 5. change bucket_count with 4096.
  rewrite (get_digit 5 4096 ltac:(lia) ltac:(lia) (after h) (rank_store h) b Hs Hb), bind_lift. change (digit 5 (le_value (rank_store h)) b) with (hrank h b). set (c := hrank h b) in *.
  destruct (Z.ltb_spec c r) as [Hlt|Hge].
  2: { exists h. split_and!; [done|done|]. intros j Hj. destruct (Z.eqb_spec j b) as [->|]; [fold c; lia|done]. }
  set (h1 := if c =? 0 then set_zeros (wrap 16 (zeros h - 1)) h else h).
  assert ((if c =? 0 then modify (fun h => set_zeros (wrap 16 (zeros h - 1)) h) else mret tt) h = (Returns tt, h1)) as E1 by (unfold h1; by destruct (c =? 0)).
  rewrite (bind_returns _ _ _ _ _ E1). assert (rank_count h1 = rank_count h /\ rank_store h1 = rank_store h) as [Ec1 Es1] by (unfold h1; by destruct (c =? 0)).
  unfold denominator_update. rewrite bind_assoc, (bind_returns _ _ _ _ _ (add_count_run h1 c (-1) ltac:(lia) ltac:(by rewrite Ec1))). rewrite Ec1. set (c1 := <[Z.to_nat c := _]> (rank_count h)).
  assert (length c1 = 22%nat) as Hl1 by (unfold c1; by rewrite length_insert). rewrite (bind_returns _ _ _ _ _ (add_count_run (set_rank_count c1 h1) r 1 ltac:(lia) Hl1)). cbn [rank_count set_rank_count].
  destruct (set_digits 5 4096 ltac:(lia) ltac:(lia) (rank_store h) b r Hs Hb ltac:(lia)) as (s' & Es & Hs' & Hd). rewrite Es, bind_lift. eexists. split; [reflexivity|]. set (c2 := <[Z.to_nat r := _]> c1). set (h' := set_rank_store s' _).
  assert (forall j, 0 <= j < 4096 -> hrank h' j = if j =? b then r else hrank h j) as Hrank by exact Hd.
  assert (forall x, 0 <= x < 22 -> hcnt h' x = hcnt h x - (if c =? x then 1 else 0) + (if r =? x then 1 else 0)) as Hcnt by (intros x Hx; by apply hcnt_change).
  split; [|intros j Hj; rewrite (Hrank j Hj); destruct (j =? b); lia]. split.
  - done.
  - cbn. unfold c2. by rewrite length_insert.
  - intros j Hj. rewrite (Hrank j Hj). destruct (j =? b); [lia|by apply Hranks].
  - rewrite (Hcnt 0), (proj2 (Z.eqb_neq r 0)) by lia. unfold h', h1. pose proof (hcnt_range h 0). destruct (Z.eqb_spec c 0) as [E0|]; cbn [zeros set_zeros set_rank_store set_rank_count]; rewrite Hz; [|lia].
    pose proof (hcnt_pos h b Hb) as Hp. fold c in Hp. rewrite E0 in Hp. rewrite wrap_small by (unfold fits; lia). lia.
  - intros x Hx. cbn [rank_count h' set_rank_store set_rank_count]. rewrite (Hcnt x Hx). pose proof (hcnt_range h x). pose proof (hcnt_pos h b Hb) as Hp. fold c in Hp. pose proof (hcnt_range h r). pose proof (hcnt_range h c).
    unfold c2, c1. rewrite !nth_insert by (rewrite ?length_insert; lia). rewrite !Hcs by lia. rewrite (decide_False (P := Z.to_nat r = Z.to_nat c)) by lia.
    destruct (Z.eqb_spec c x) as [Ecx|Ncx]; destruct (Z.eqb_spec r x) as [Erx|Nrx]; [lia|..].
    + rewrite decide_False, decide_True by lia. rewrite Ecx in *. rewrite wrap_small by (unfold fits; lia). lia.
    + rewrite decide_True by lia. rewrite Erx in *. rewrite wrap_small by (unfold fits; lia). lia.
    + rewrite !decide_False by lia. lia.
Qed.

Lemma digit_zero i : digit 5 0 i = 0.
Proof. unfold digit. by rewrite Zdiv_0_l, Zmod_0_l. Qed.

Lemma zeroed_value n : le_value (replicate n 0) = 0.
Proof. induction n as [|n IH]; [done|]. cbn [replicate le_value]. by rewrite IH. Qed.

Lemma new_rank b : hrank Counter_new b = 0.
Proof. unfold hrank, Counter_new. cbn [rank_store]. by rewrite zeroed_value, digit_zero. Qed.

Lemma nth_repeat_zero k n : nth k (replicate n 0) 0 = 0.
Proof. revert k. induction n as [|n IH]; intros [|k]; cbn; done. Qed.

Lemma new_ok : hll_ok Counter_new.
Proof.
  assert (forall r, hcnt Counter_new r = if 0 =? r then 4096 else 0) as Hc.
  { intros r. unfold hcnt. assert (map (fun b => if hrank Counter_new b =? r then 1 else 0) (seqZ 0 4096) = map (fun b => if 0 =? r then 1 else 0) (seqZ 0 4096)) as -> by (apply map_ext; intros b; by rewrite new_rank).
    destruct (0 =? r); reflexivity. }
  split.
  - split; [cbn; reflexivity|]. cbn [rank_store Counter_new]. apply Forall_replicate. unfold byte. lia.
  - reflexivity.
  - intros b _. rewrite new_rank. lia.
  - by rewrite Hc.
  - intros r Hr. rewrite Hc. assert (r = 0 \/ r <> 0) as [-> | Hne] by lia; [done|]. rewrite (proj2 (Z.eqb_neq 0 r)) by lia. cbn [rank_count Counter_new].
    destruct (Z.to_nat r) as [|k] eqn:Ek; [lia|]. change (nth (S k) (u32 bucket_count :: replicate (Z.to_nat max_rank) 0) 0) with (nth k (replicate (Z.to_nat max_rank) 0) 0). apply nth_repeat_zero.
Qed.

(** Taking the larger rank of every bucket from [i] on. *)
Definition maxed (h h' : HyperLogLogCounter) (f : Z -> Z) (i : Z) : Prop := forall j, 0 <= j < 4096 -> hrank h' j = if i <=? j then Z.max (hrank h j) (f j) else hrank h j.

Lemma merge_buckets_spec rhs n : forall i h,
  hll_ok rhs -> hll_ok h -> 0 <= i -> i + Z.of_nat n = 4096 -> exists h', merge_buckets rhs n i h = (Returns tt, h') /\ hll_ok h' /\ maxed h h' (hrank rhs) i.
Proof.
  induction n as [|n IH]; intros i h Hr Hh Hi Hn; cbn [merge_buckets].
  - exists h. split_and!; [done|done|]. intros j Hj. by rewrite (proj2 (Z.leb_gt i j)) by lia.
  - change rank_width with 5. rewrite (get_digit 5 4096 ltac:(lia) ltac:(lia) (after rhs) (rank_store rhs) i (hll_store rhs Hr) ltac:(lia)), bind_lift.
    destruct (host_update_spec h i (hrank rhs i) Hh ltac:(lia) (hll_ranks rhs Hr i ltac:(lia))) as (h1 & E1 & Hh1 & Hm1). unfold hrank at 1 in E1. rewrite (bind_returns _ _ _ _ _ E1).
    destruct (IH (i + 1) h1 Hr Hh1 ltac:(lia) ltac:(lia)) as (h2 & E2 & Hh2 & Hm2). exists h2. split_and!; [done|done|]. intros j Hj. rewrite (Hm2 j Hj), (Hm1 j Hj).
    destruct (Z.leb_spec (i + 1) j), (Z.leb_spec i j), (Z.eqb_spec j i); try lia. subst j. done.
Qed.

(** ** What a counter represents *)

Section Represents.
Context (hash : Z -> Z).

Record hll_repr (h : HyperLogLogCounter) (V : gset Z) : Prop := {
  hr_ok : hll_ok h;
  hr_rank : forall b, 0 <= b < 4096 ->
    (forall v, v ∈ V -> bucket_of hash v = b -> rank_of hash v <= hrank h b) /\ (hrank h b = 0 \/ exists v, v ∈ V /\ bucket_of hash v = b /\ rank_of hash v = hrank h b)
}.

Lemma new_repr : hll_repr Counter_new ∅.
Proof. split; [apply new_ok|]. intros b Hb. split; [set_solver|]. left. apply new_rank. Qed.

(** The ranks are those of [V ∪ W] when they are the larger of both. *)
Lemma maxed_repr h h' f V W :
  hll_repr h V -> hll_ok h' -> maxed h h' f 0 ->
  (forall b, 0 <= b < 4096 -> (forall v, v ∈ W -> bucket_of hash v = b -> rank_of hash v <= f b) /\ (f b = 0 \/ exists v, v ∈ W /\ bucket_of hash v = b /\ rank_of hash v = f b)) ->
  hll_repr h' (V ∪ W).
Proof.
  intros [Hh Hv] Hok Hm Hw. split; [done|]. intros b Hb. specialize (Hm b Hb). rewrite (proj2 (Z.leb_le 0 b)) in Hm by lia. destruct (Hv b Hb) as [V1 V2]. destruct (Hw b Hb) as [W1 W2]. split.
  - intros v [Hin|Hin]%elem_of_union Eb; [specialize (V1 v Hin Eb)|specialize (W1 v Hin Eb)]; lia.
  - destruct (Z.max_spec (hrank h b) (f b)) as [[Hlt E]|[Hge E]]; rewrite E in Hm.
    + destruct W2 as [W2|(v & Hin & Eb & Er)]; [left; lia|]. right. exists v. split_and!; [set_solver|done|congruence].
    + destruct V2 as [V2|(v & Hin & Eb & Er)]; [left; lia|]. right. exists v. split_and!; [set_solver|done|congruence].
Qed.

Lemma hll_insert_spec h V v : hll_repr h V -> exists h', hll_insert hash v h = (Returns tt, h') /\ hll_repr h' (V ∪ {[v]}).
Proof.
  intros Hr. pose proof Hr as [Hok _]. pose proof (host_rank_range hash v) as Hrk. destruct (host_update_spec h (bucket_of hash v) (rank_of hash v) Hok (host_bucket_range hash v) ltac:(lia)) as (h' & E & Hok' & Hm).
  exists h'. split; [done|]. apply (maxed_repr h h' (fun b => if b =? bucket_of hash v then rank_of hash v else 0) V {[v]} Hr Hok').
  - intros j Hj. rewrite (Hm j Hj), (proj2 (Z.leb_le 0 j)) by lia. pose proof (hll_ranks h Hok j Hj). destruct (Z.eqb_spec j (bucket_of hash v)) as [->|]; lia.
  - intros b Hb. split.
    + intros x ->%elem_of_singleton <-. by rewrite Z.eqb_refl.
    + destruct (Z.eqb_spec b (bucket_of hash v)) as [->|]; [right; exists v; set_solver|by left].
Qed.

Lemma hll_merge_spec h V rhs W : hll_repr h V -> hll_repr rhs W -> exists h', hll_merge rhs h = (Returns tt, h') /\ hll_repr h' (V ∪ W).
Proof.
  intros Hh [Hr Hw]. pose proof Hh as [Hok _]. destruct (merge_buckets_spec rhs 4096 0 h Hr Hok ltac:(lia) ltac:(lia)) as (h' & E & Hok' & Hm). exists h'. split; [exact E|]. by eapply maxed_repr.
Qed.

(** Inserting a list. *)
Fixpoint hll_insert_all (l : list Z) : M HyperLogLogCounter unit :=
  match l with
  | [] => mret tt
  | x :: l' => _ ← hll_insert hash x; hll_insert_all l'
  end.

Lemma hll_insert_all_spec l : forall h V, hll_repr h V -> exists h', hll_insert_all l h = (Returns tt, h') /\ hll_repr h' (V ∪ list_to_set l).
Proof.
  induction l as [|x l IH]; intros h V Hr; cbn [hll_insert_all]; [exists h; split; [done|]; cbn [list_to_set]; by rewrite union_empty_r_L|].
  destruct (hll_insert_spec h V x Hr) as (h1 & E1 & Hr1). rewrite (bind_returns _ _ _ _ _ E1). destruct (IH h1 _ Hr1) as (h2 & E2 & Hr2). exists h2. split; [done|]. cbn [list_to_set]. by rewrite union_assoc_L.
Qed.

(** The counter is determined by the set. *)
Lemma repr_rank h h' V b : hll_repr h V -> hll_repr h' V -> 0 <= b < 4096 -> hrank h b = hrank h' b.
Proof.
  intros [Hok Hr] [Hok' Hr'] Hb. destruct (Hr b Hb) as [H1 H2]. destruct (Hr' b Hb) as [H1' H2']. pose proof (hll_ranks h Hok b Hb). pose proof (hll_ranks h' Hok' b Hb).
  apply Z.le_antisymm.
  - destruct H2 as [H2|(v & Hv & Eb & <-)]; [lia|by apply H1'].
  - destruct H2' as [H2'|(v & Hv & Eb & <-)]; [lia|by apply H1].
Qed.
End Represents.

(** ** The bytes of a counter *)

Lemma words4_bytes l : forall rest, Forall (fits 32) l -> words4 (length l) (concat (le_bytes 4 <$> l) ++ rest) = l.
Proof.
  induction l as [|x l IH]; intros rest Hl; [done|]. apply list.Forall_cons in Hl as [Hx Hl]. cbn [fmap list_fmap concat length words4]. rewrite <- app_assoc.
  assert (length (le_bytes 4 x) = 4%nat) as E4 by apply length_le_bytes. rewrite <- E4 at 1. rewrite take_app_length. rewrite <- E4 at 2. rewrite drop_app_length. rewrite IH by done. f_equal. apply le_value_bytes.
  unfold fits in Hx. change (256 ^ Z.of_nat 4) with (2 ^ 32). lia.
Qed.

Lemma concat_length4 (l : list Z) : length (concat (le_bytes 4 <$> l)) = (4 * length l)%nat.
Proof. induction l as [|x l IH]; [done|]. change (concat (le_bytes 4 <$> x :: l)) with (le_bytes 4 x ++ concat (le_bytes 4 <$> l)). rewrite length_app, length_le_bytes, IH. cbn [length]. lia. Qed.

Lemma counts_fit h : hll_ok h -> Forall (fits 32) (rank_count h).
Proof.
  intros Hok. apply list.Forall_lookup. intros i x Ei. pose proof (lookup_lt_Some _ _ _ Ei) as Hlt. rewrite (hll_count h Hok) in Hlt.
  pose proof (hll_counts h Hok (Z.of_nat i) ltac:(lia)) as Hc. rewrite Nat2Z.id, (nth_lookup_Some _ _ _ x Ei) in Hc. pose proof (hcnt_range h (Z.of_nat i)). unfold fits. lia.
Qed.

Lemma store_length h : hll_ok h -> length (rank_store h) = sizeof_RankStore.
Proof. intros Hok. destruct (hll_store h Hok) as [Hl _]. change (BITSET_SIZE 5 4096) with 2560 in Hl. change sizeof_RankStore with 2560%nat. lia. Qed.

Lemma hll_bytes_length h : hll_ok h -> length (hll_bytes h) = sizeof_Counter.
Proof. intros Hok. unfold hll_bytes. rewrite !length_app, (store_length h Hok), concat_length4, (hll_count h Hok), length_le_bytes. done. Qed.

Lemma hll_bytes_inverse h : hll_ok h -> hll_of_bytes (hll_bytes h) = h.
Proof.
  intros Hok. unfold hll_of_bytes, hll_bytes. pose proof (store_length h Hok) as Hl. rewrite <- Hl at 1. rewrite take_app_length. rewrite <- Hl at 1. rewrite drop_app_length.
  rewrite <- Hl at 1. rewrite drop_app_add. assert (4 * counts = length (concat (le_bytes 4 <$> rank_count h)))%nat as Ec by (rewrite concat_length4, (hll_count h Hok); done). rewrite Ec, drop_app_length.
  change counts with 22%nat. rewrite <- (hll_count h Hok) at 1. rewrite words4_bytes by (by apply counts_fit). rewrite le_value_bytes; [by destruct h|].
  rewrite (hll_zeros h Hok). pose proof (hcnt_range h 0). change (256 ^ Z.of_nat 2) with 65536. lia.
Qed.

Section CounterIOProofs.
Context {D : Type} `{LD : ReadBufferLaws D}.
Implicit Types (s : rbuf D).

Lemma hll_read_spec h h0 rest s p : hll_ok h -> state s (hll_bytes h ++ rest) p -> exists s', hll_read (h0, s) = (Returns tt, (h, s')) /\ state s' rest p.
Proof.
  intros Hok Hs. destruct (reads_bytes (hll_bytes h) rest s p Hs) as (s' & E & Hs'). rewrite (hll_bytes_length h Hok) in E. exists s'. split; [|done].
  unfold hll_read, mbind, M_bind, zoom. cbn [fst snd]. rewrite E. cbn [modify fst snd]. unfold modify. cbn [snd]. by rewrite (hll_bytes_inverse h Hok).
Qed.

Lemma merge_reader_spec g rest p n : forall i h r s,
  hll_ok g -> hll_ok h -> 0 <= i -> i + Z.of_nat n = 4096 -> (if i =? 4096 then current_bucket_index r = 4096 /\ state s rest p else at_cell 5 (rank_store g) rest p i r s) ->
  exists h' r' s', merge_reader (S n) (h, (r, s)) = (Returns tt, (h', (r', s'))) /\ hll_ok h' /\ maxed h h' (hrank g) i /\ state s' rest p.
Proof.
  induction n as [|n IH]; intros i h r s Hg Hh Hi Hn Hat; cbn [merge_reader]; change rank_width with 5; change bucket_count with 4096.
  - replace i with 4096 in * by lia. cbn in Hat. destruct Hat as [Hc Hs]. assert (exists r', zoom snd (fun x q => (q.1, x)) (compact_next 5 4096) (h, (r, s)) = (Returns false, (h, (r', s)))) as (r' & E).
    { eexists. unfold zoom, compact_next. cbn [snd fst]. rewrite bind_get. cbn [fst]. rewrite Hc, Z.eqb_refl. reflexivity. }
    rewrite (bind_returns _ _ _ _ _ E). exists h, r', s. split_and!; [done|done| |done]. intros j Hj. by rewrite (proj2 (Z.leb_gt 4096 j)) by lia.
  - rewrite (proj2 (Z.eqb_neq i 4096)) in Hat by lia. destruct (next_cell 5 4096 ltac:(lia) ltac:(lia) (rank_store g) rest p i r s (hll_store g Hg) ltac:(lia) Hat) as (r1 & s1 & E1 & Eg & Hnext).
    assert (zoom snd (fun x q => (q.1, x)) (compact_next 5 4096) (h, (r, s)) = (Returns true, (h, (r1, s1)))) as E by (unfold zoom; cbn [snd fst]; by rewrite E1).
    rewrite (bind_returns _ _ _ _ _ E), bind_get. cbn [fst snd]. rewrite Eg, bind_lift. cbn [fst snd].
    destruct (host_update_spec h i (hrank g i) Hh ltac:(lia) (hll_ranks g Hg i ltac:(lia))) as (h1 & E2 & Hh1 & Hm1).
    assert (zoom fst (fun x q => (x, q.2)) (update i (digit 5 (le_value (rank_store g)) i)) (h, (r1, s1)) = (Returns tt, (h1, (r1, s1)))) as E3 by (unfold zoom; cbn [snd fst]; unfold hrank in E2; by rewrite E2).
    rewrite (bind_returns _ _ _ _ _ E3). destruct (IH (i + 1) h1 r1 s1 Hg Hh1 ltac:(lia) ltac:(lia)) as (h2 & r2 & s2 & E4 & Hh2 & Hm2 & Hs2); [by destruct (i + 1 =? 4096)|].
    exists h2, r2, s2. split_and!; [exact E4|done| |done]. intros j Hj. rewrite (Hm2 j Hj), (Hm1 j Hj). destruct (Z.leb_spec (i + 1) j), (Z.leb_spec i j), (Z.eqb_spec j i); try lia. subst j. done.
Qed.

Lemma hll_readAndMerge_spec hash garbage h V g W rest s p :
  hll_repr hash h V -> hll_repr hash g W -> state s (hll_bytes g ++ rest) p -> exists h' s', hll_readAndMerge garbage (h, s) = (Returns tt, (h', s')) /\ hll_repr hash h' (V ∪ W) /\ state s' rest p.
Proof.
  intros Hh [Hg Hw] Hs. pose proof Hh as [Hok _]. set (tail := concat (le_bytes 4 <$> rank_count g) ++ le_bytes 2 (zeros g)). assert (hll_bytes g ++ rest = rank_store g ++ tail ++ rest) as Eb by (unfold hll_bytes, tail; by rewrite <- !app_assoc).
  rewrite Eb in Hs. destruct (merge_reader_spec g (tail ++ rest) p 4096 0 h (CompactReader_new garbage) s Hg Hok ltac:(lia) ltac:(lia)) as (h' & r' & s' & E & Hok' & Hm & Hs').
  { cbn. split_and!; [done|done|done|done|]. cbn. exact Hs. }
  unfold hll_readAndMerge. change (Z.to_nat bucket_count) with 4096%nat. cbn [fst snd]. rewrite E.
  assert (length tail = sizeof_rest) as Ht by (unfold tail; rewrite length_app, concat_length4, length_le_bytes, (hll_count g Hg); done).
  destruct (reads_ignore sizeof_rest (tail ++ rest) s' p Hs') as (s'' & Ei & Hs''). rewrite length_app, (proj2 (Nat.leb_le _ _)) in Ei by lia. rewrite <- Ht in Hs'' at 1. rewrite drop_app_length in Hs''.
  exists h', s''. split_and!; [unfold zoom; cbn [fst snd]; by rewrite Ei| |done]. by eapply maxed_repr.
Qed.
End CounterIOProofs.

(** ** HyperLogLogWithSmallSetOptimization *)

Record UniqCounter := MkUniq { small_set : SmallTable (HashTableCell Z); large : option HyperLogLogCounter }.

Definition small_set_size : Z := 16.

#[local] Existing Instance uint64_set | 0.
#[local] Existing Instance uint64_set_io.
#[local] Existing Instance uint64_set_io_laws.

Section UniqOperations.
Context (hash : Z -> Z) (fault : tracker -> bool).

(** The trackers of the thread and the object. *)
Definition uniq_state : Type := trackers * UniqCounter.

Definition isLarge (c : UniqCounter) : bool := match large c with Some _ => true | None => false end.

Definition on_tracker {X} (m : M trackers X) : M uniq_state X := zoom fst (fun t s => (t, s.2)) m.
Definition on_small {X} (m : M (SmallTable (HashTableCell Z)) X) : M uniq_state X := zoom (fun s => small_set s.2) (fun t s => (s.1, MkUniq t (large s.2))) m.

(** A call through [large]. *)
Definition on_large {X} (m : M HyperLogLogCounter X) : M uniq_state X := fun s =>
  match large s.2 with
  | Some h => let '(r, h') := m h in (r, (s.1, MkUniq (small_set s.2) (Some h')))
  | None => (Throws NULL_POINTER, s)
  end.

(** The elements of the small set, from begin() to end(). *)
Definition small_values (t : SmallTable (HashTableCell Z)) : list Z := getValue <$> used t.

Definition toLarge : M uniq_state unit :=
  _ ← on_tracker (tracker_alloc fault (Z.of_nat sizeof_Counter));
  c ← get snd;
  let '(r, tmp_large) := hll_insert_all hash (small_values (small_set c)) Counter_new in
  _ ← lift r;
  modify (fun s => (s.1, MkUniq (small_set s.2) (Some tmp_large))).

Definition uniq_insert (value : Z) : M uniq_state unit :=
  c ← get snd;
  if negb (isLarge c) then
    i ← on_small (small_find value);
    t ← get (fun s => small_set s.2);
    if i =? small_end t then
      if negb (full small_set_size t) then _ ← on_small (small_insert tt value); mret tt
      else _ ← toLarge; on_large (hll_insert hash value)
    else mret tt
  else on_large (hll_insert hash value).

(** HyperLogLogCounter::size is floating point: [estimate]. *)
Definition uniq_size (estimate : HyperLogLogCounter -> Z) (c : UniqCounter) : Z :=
  match large c with None => small_size (small_set c) | Some h => estimate h end.

Fixpoint uniq_insert_all (l : list Z) : M uniq_state unit :=
  match l with
  | [] => mret tt
  | x :: l' => _ ← uniq_insert x; uniq_insert_all l'
  end.

Definition uniq_merge (rhs : UniqCounter) : M uniq_state unit :=
  match large rhs with
  | Some g =>
      c ← get snd;
      _ ← (if negb (isLarge c) then toLarge else mret tt);
      on_large (hll_merge g)
  | None => uniq_insert_all (small_values (small_set rhs))
  end.

Definition uniq_destroy : M uniq_state unit :=
  c ← get snd;
  if isLarge c then on_tracker (tracker_free (Z.of_nat sizeof_Counter)) else mret tt.
End UniqOperations.

Section UniqIO.
Context (hash : Z -> Z) (fault : tracker -> bool) {D : Type}.

(** A bool is a byte. *)
Definition uniq_write `{!WriteBuffer D} (c : UniqCounter) : M (wbuf D) unit :=
  _ ← WriteBuffers.write (le_bytes 1 (if isLarge c then 1 else 0));
  match large c with
  | Some h => hll_write h
  | None => small_write (small_set c)
  end.

Context `{!ReadBuffer D}.
Definition uniq_reading : Type := uniq_state * rbuf D.

Definition on_uniq {X} (m : M uniq_state X) : M uniq_reading X := zoom fst (fun c s => (c, s.2)) m.
Definition from_buffer {X} (m : M (rbuf D) X) : M uniq_reading X := zoom snd (fun b s => (s.1, b)) m.

Definition readBool : M uniq_reading bool := s ← from_buffer (readStrict 1); mret (negb (le_value s =? 0)).

(** Calls of the parts with the buffer. *)
Definition small_from_buffer {X} (m : M (SmallTable (HashTableCell Z) * rbuf D) X) : M uniq_reading X :=
  zoom (fun s => (small_set s.1.2, s.2)) (fun x s => ((s.1.1, MkUniq x.1 (large s.1.2)), x.2)) m.

Definition large_from_buffer {X} (m : M (HyperLogLogCounter * rbuf D) X) : M uniq_reading X := fun s =>
  match large s.1.2 with
  | Some h => let '(r, (h', b)) := m (h, s.2) in (r, ((s.1.1, MkUniq (small_set s.1.2) (Some h')), b))
  | None => (Throws NULL_POINTER, s)
  end.

Definition uniq_read : M uniq_reading unit :=
  is_large ← readBool;
  if is_large : bool then _ ← on_uniq (toLarge hash fault); large_from_buffer hll_read
  else small_from_buffer (small_read small_set_size).

(** while (reader.next()) insert(reader.get()) *)
Fixpoint insert_reader (fuel : nat) : M (uniq_state * (Reader (HashTableCell Z) * rbuf D)) unit :=
  match fuel with
  | O => throw NO_FUEL
  | S fuel' =>
      b ← zoom snd (fun x s => (s.1, x)) (small_reader_next small_set_size);
      if b : bool then
        r ← get (fun s => s.2.1);
        v ← lift (reader_get r);
        _ ← zoom fst (fun x s => (x, s.2)) (uniq_insert hash fault v);
        insert_reader fuel'
      else mret tt
  end.

(** With a new reader, whose cell and size are not initialised. *)
Definition insert_from (garbage : Reader (HashTableCell Z)) : M uniq_reading unit := fun s =>
  let '(r, (u, (_, b))) := insert_reader (S (S (Z.to_nat small_set_size))) (s.1, (MkReader (reader_cell garbage) 0 (reader_size garbage) false false, s.2)) in (r, (u, b)).

Definition uniq_readAndMerge (garbage : Reader (HashTableCell Z)) (garbage' : CompactReader) : M uniq_reading unit :=
  is_rhs_large ← readBool;
  c ← get (fun s => s.1.2);
  _ ← (if negb (isLarge c) && is_rhs_large then on_uniq (toLarge hash fault) else mret tt);
  if negb is_rhs_large then insert_from garbage else large_from_buffer (hll_readAndMerge garbage').
End UniqIO.

(** *** What the object represents *)

Lemma alloc_chain_throws fault sz ts : forall m e r, alloc_chain fault sz ts m = (Throws e, r) -> e = MEMORY_LIMIT_EXCEEDED.
Proof.
  induction ts as [|t rest IH]; intros m e r; cbn [alloc_chain]; [done|]. destruct (fault _); [by intros [= <- _]|]. destruct (negb _ && _); [by intros [= <- _]|]. destruct rest as [|u rest]; [done|].
  destruct (alloc_chain fault sz (u :: rest) m) as [[[]|e'] r'] eqn:E; cbn [fst snd]; [done|]. intros [= <- _]. by eapply IH.
Qed.

#[local] Instance uint64_set_base hash : BaseLaws hash uint64_set := hash_table_cell_base hash 8 0.

Section UniqProofs.
Context (hash : Z -> Z) (fault : tracker -> bool).
Implicit Types (c : UniqCounter) (V W : gset Z) (tr : trackers).

Definition uniq_repr c V : Prop :=
  match large c with
  | None => small_ok 16 (small_set c) /\ V = list_to_set (small_values (small_set c))
  | Some h => hll_repr hash h V /\ (16 < stdpp.base.size V)%nat
  end.

Lemma set_keys t : key_of <$> used t = small_values t.
Proof. done. Qed.

Lemma set_lookup t v : small_ok 16 t -> small_map t !! v = (if decide (v ∈ small_values t) then Some v else None).
Proof.
  intros Ht. destruct (decide _) as [Hin|Hout].
  - apply (small_map_lookup 16 t v v Ht). apply list_elem_of_fmap in Hin as (x & -> & Hx). by exists x.
  - apply (small_map_None 16 t v Ht). by rewrite set_keys.
Qed.

Lemma values_size t : small_ok 16 t -> Z.of_nat (stdpp.base.size (list_to_set (small_values t) : gset Z)) = s_size t.
Proof. intros Ht. rewrite size_list_to_set by (rewrite <- set_keys; apply Ht). unfold small_values. rewrite length_fmap. by apply (length_used 16). Qed.

Lemma on_tracker_run m tr c : on_tracker m (tr, c) = ((m tr).1, ((m tr).2, c)) :> outcome unit * uniq_state.
Proof. unfold on_tracker, zoom. cbn [fst snd]. by destruct (m tr). Qed.

Lemma toLarge_spec tr c :
  match toLarge hash fault (tr, c) with
  | (Returns _, (tr', c')) => small_set c' = small_set c /\ exists h, large c' = Some h /\ hll_repr hash h (list_to_set (small_values (small_set c)))
  | (Throws e, (tr', c')) => c' = c /\ e = MEMORY_LIMIT_EXCEEDED
  end.
Proof.
  unfold toLarge. unfold mbind at 1, M_bind at 1. rewrite on_tracker_run. unfold tracker_alloc. cbn [fst snd]. destruct (alloc_chain fault _ (chain tr) (metric tr)) as [[[]|e] r] eqn:E; cbn [fst snd].
  2: { split; [done|]. by eapply alloc_chain_throws. }
  rewrite bind_get. cbn [snd]. destruct (hll_insert_all_spec hash (small_values (small_set c)) Counter_new ∅ (new_repr hash)) as (h & Eh & Hr). rewrite Eh, bind_lift. rewrite union_empty_l_L in Hr.
  unfold modify. cbn [fst snd small_set large]. split; [done|]. by exists h.
Qed.

Lemma on_small_run {X} (m : M (SmallTable (HashTableCell Z)) X) tr c r t : m (small_set c) = (r, t) -> on_small m (tr, c) = (r, (tr, MkUniq t (large c))).
Proof. intros E. unfold on_small, zoom. cbn [fst snd]. by rewrite E. Qed.

Lemma on_large_run {X} (m : M HyperLogLogCounter X) tr c h r h' : large c = Some h -> m h = (r, h') -> on_large m (tr, c) = (r, (tr, MkUniq (small_set c) (Some h'))).
Proof. intros El E. unfold on_large. cbn [fst snd]. by rewrite El, E. Qed.

Lemma uniq_insert_spec tr c V v :
  uniq_repr c V ->
  match uniq_insert hash fault v (tr, c) with
  | (Returns _, (tr', c')) => uniq_repr c' (V ∪ {[v]})
  | (Throws e, (tr', c')) => c' = c /\ e = MEMORY_LIMIT_EXCEEDED
  end.
Proof.
  intros Hr. unfold uniq_insert. rewrite bind_get. cbn [snd]. unfold isLarge. unfold uniq_repr in Hr. destruct (large c) as [h|] eqn:El; cbn [negb].
  - destruct Hr as [Hr Hsz]. destruct (hll_insert_spec hash h V v Hr) as (h' & E & Hr'). rewrite (on_large_run _ tr c h _ h' El E). unfold uniq_repr. cbn [large]. split; [done|].
    eapply Nat.lt_le_trans; [exact Hsz|]. apply subseteq_size. set_solver.
  - destruct Hr as [Hok ->]. pose proof Hok as [Hl Hb _]. set (t := small_set c) in *. unfold small_find.
    destruct (small_findCell_spec hash 16 t v Hok) as [(i & x & E & Eu & Hk & Hi & Hm)|[E Hm]]; rewrite (bind_returns _ _ _ _ _ (on_small_run _ tr c _ t E)), bind_get; cbn [snd small_set]; unfold small_end; rewrite (set_lookup t v Hok) in Hm.
    + rewrite (proj2 (Z.eqb_neq (Z.of_nat i) (s_size t))) by lia. unfold uniq_repr. cbn [mret M_ret large small_set]. rewrite El. split; [done|]. destruct (decide (v ∈ small_values t)); [|done]. set_solver.
    + rewrite Z.eqb_refl. destruct (decide (v ∈ small_values t)) as [|Hout]; [done|]. unfold full. change small_set_size with 16. destruct (Z.eqb_spec (s_size t) 16) as [Ef|Ef]; cbn [negb].
      * pose proof (toLarge_spec tr (MkUniq t (large c))) as Ht. unfold mbind, M_bind. destruct (toLarge hash fault (tr, MkUniq t (large c))) as [[[]|e] [tr' c']]; [|destruct Ht as [-> ->]; split; [by destruct c|done]].
        destruct Ht as (_ & h & El' & Hh). cbn [small_set] in Hh. destruct (hll_insert_spec hash h _ v Hh) as (h' & E' & Hr'). rewrite (on_large_run _ tr' c' h _ h' El' E'). unfold uniq_repr. cbn [large]. split; [done|].
        rewrite size_union, size_singleton by set_solver. pose proof (values_size t Hok). lia.
      * destruct (small_insert_spec hash tt 16 t v Hok ltac:(left; lia) ltac:(lia)) as (i & t' & Ei & Hok' & Hm'). rewrite (bind_returns _ _ _ _ _ (on_small_run _ tr (MkUniq t (large c)) _ t' Ei)).
        unfold uniq_repr. cbn [mret M_ret large small_set]. rewrite El. split; [done|]. change (getKey v) with v in Hm'. rewrite (set_lookup t v Hok), decide_False in Hm' by done.
        apply set_eq. intros k. rewrite elem_of_union, elem_of_singleton, !elem_of_list_to_set. pose proof (set_lookup t' k Hok') as Hk. rewrite Hm' in Hk. pose proof (set_lookup t k Hok) as Hk'.
        destruct (decide (k = v)) as [->|Hne]; [rewrite lookup_insert_eq in Hk|rewrite lookup_insert_ne in Hk by done; rewrite Hk' in Hk]; destruct (decide (_ ∈ small_values t')), (decide (_ ∈ small_values t)); naive_solver.
Qed.

(** When a call threw: some of the values have been taken. *)
Definition partly c V W (e : error) : Prop := e = MEMORY_LIMIT_EXCEEDED /\ exists U, V ⊆ U ⊆ V ∪ W /\ uniq_repr c U.

Lemma uniq_insert_all_spec l : forall tr c V,
  uniq_repr c V ->
  match uniq_insert_all hash fault l (tr, c) with
  | (Returns _, (tr', c')) => uniq_repr c' (V ∪ list_to_set l)
  | (Throws e, (tr', c')) => partly c' V (list_to_set l) e
  end.
Proof.
  induction l as [|x l IH]; intros tr c V Hr; cbn [uniq_insert_all]; [cbn [mret M_ret list_to_set]; by rewrite union_empty_r_L|].
  pose proof (uniq_insert_spec tr c V x Hr) as Hi. unfold mbind, M_bind. destruct (uniq_insert hash fault x (tr, c)) as [[[]|e] [tr1 c1]].
  - specialize (IH tr1 c1 _ Hi). destruct (uniq_insert_all hash fault l (tr1, c1)) as [[[]|e] [tr2 c2]]; cbn [list_to_set].
    + by rewrite union_assoc_L.
    + destruct IH as (-> & U & HU & Hr'). split; [done|]. exists U. split; [set_solver|done].
  - destruct Hi as [-> ->]. split; [done|]. exists V. split; [set_solver|done].
Qed.

Lemma to_large_repr tr c V :
  uniq_repr c V ->
  match (if negb (isLarge c) then toLarge hash fault else mret tt) (tr, c) with
  | (Returns _, (tr', c')) => exists h, large c' = Some h /\ hll_repr hash h V
  | (Throws e, (tr', c')) => c' = c /\ e = MEMORY_LIMIT_EXCEEDED
  end.
Proof.
  intros Hr. unfold isLarge. unfold uniq_repr in Hr. destruct (large c) as [h|] eqn:El; cbn [negb]; [exists h; split; [done|]; apply Hr|].
  pose proof (toLarge_spec tr c) as Ht. destruct (toLarge hash fault (tr, c)) as [[[]|e] [tr' c']]; [|done]. destruct Hr as [_ ->]. apply Ht.
Qed.

Lemma uniq_merge_spec tr c V rhs W :
  uniq_repr c V -> uniq_repr rhs W ->
  match uniq_merge hash fault rhs (tr, c) with
  | (Returns _, (tr', c')) => uniq_repr c' (V ∪ W)
  | (Throws e, (tr', c')) => partly c' V W e
  end.
Proof.
  intros Hr Hw. unfold uniq_merge. unfold uniq_repr in Hw. destruct (large rhs) as [g|] eqn:Eg.
  - destruct Hw as [Hg Hsz]. rewrite bind_get. cbn [snd]. pose proof (to_large_repr tr c V Hr) as Ht. unfold mbind, M_bind. destruct ((if negb (isLarge c) then toLarge hash fault else mret tt) (tr, c)) as [[[]|e] [tr' c']].
    + destruct Ht as (h & El & Hh). destruct (hll_merge_spec hash h V g W Hh Hg) as (h' & E & Hr'). rewrite (on_large_run _ tr' c' h _ h' El E). unfold uniq_repr. cbn [large]. split; [done|].
      eapply Nat.lt_le_trans; [exact Hsz|]. apply subseteq_size. set_solver.
    + destruct Ht as [-> ->]. split; [done|]. exists V. split; [set_solver|done].
  - destruct Hw as [_ ->]. by apply uniq_insert_all_spec.
Qed.

(** *** Reading and writing *)

Definition uniq_bytes c : list Z := le_bytes 1 (if isLarge c then 1 else 0) ++ match large c with Some h => hll_bytes h | None => small_bytes (small_set c) end.

Lemma uniq_write_spec {D} `{LD : WriteBufferLaws D} c V : uniq_repr c V -> writes (D := D) (uniq_write c) tt (uniq_bytes c).
Proof.
  intros Hr. unfold uniq_write, uniq_bytes. eapply writes_bind; [apply writes_write|]. unfold uniq_repr in Hr. destruct (large c) as [h|]; [apply writes_write|].
  destruct Hr as [[Hl Hb _] _]. apply small_write_spec. lia.
Qed.

Section Readers.
Context {D : Type} `{LD : ReadBufferLaws D}.
Implicit Types (b : rbuf D).

Lemma readBool_run (x : bool) l u b p : state b (le_bytes 1 (if x then 1 else 0) ++ l) p -> exists b', readBool (u, b) = (Returns x, (u, b')) /\ state b' l p.
Proof.
  intros Hs. destruct (reads_bytes _ l b p Hs) as (b' & E & Hs'). exists b'. split; [|done]. unfold readBool, from_buffer, mbind, M_bind, zoom. cbn [fst snd]. rewrite (length_le_bytes 1) in E. rewrite E. by destruct x.
Qed.

(** Small::Reader with insert: [k] elements have been read. *)
Lemma insert_reader_spec vs rest p : forall fuel tr c V b x k n,
  uniq_repr c V -> Forall value_ok vs -> 0 <= k -> k + Z.of_nat (length vs) = n -> n <= 16 -> (length vs < fuel)%nat -> state b (elements_bytes vs ++ rest) p ->
  match insert_reader hash fault fuel ((tr, c), (MkReader x k n false true, b)) with
  | (Returns _, ((tr', c'), (_, b'))) => uniq_repr c' (V ∪ list_to_set vs) /\ state b' rest p
  | (Throws e, ((tr', c'), _)) => partly c' V (list_to_set vs) e
  end.
Proof.
  induction vs as [|v vs IH]; intros [|fuel] tr c V b x k n Hr Hv Hk Hn Hn16 Hf Hs; cbn [length] in *; try lia; cbn [insert_reader].
  - assert (exists r, zoom snd (fun x q => (q.1, x)) (small_reader_next small_set_size) ((tr, c), (MkReader x k n false true, b)) = (Returns false, ((tr, c), (r, b)))) as (r & E).
    { eexists. unfold zoom, small_reader_next. cbn [fst snd]. rewrite bind_get. cbn [fst is_initialized negb]. rewrite bind_ret, bind_get. cbn [fst read_count reader_size]. rewrite (proj2 (Z.eqb_eq k n)) by lia. reflexivity. }
    rewrite (bind_returns _ _ _ _ _ E). cbn [mret M_ret list_to_set]. rewrite union_empty_r_L. by split.
  - apply list.Forall_cons in Hv as [Hv Hvs]. change (elements_bytes (v :: vs)) with (value_bytes v ++ elements_bytes vs) in Hs. rewrite <- app_assoc in Hs.
    destruct (read_cell_ok x v (elements_bytes vs ++ rest) Hv) as (y & Hrd & Hy). destruct (Hrd b p Hs) as (b1 & Eb & Hs1).
    assert (zoom snd (fun x q => (q.1, x)) (small_reader_next small_set_size) ((tr, c), (MkReader x k n false true, b)) = (Returns true, ((tr, c), (MkReader y (k + 1) n false true, b1)))) as E.
    { unfold zoom at 1. unfold small_reader_next. cbn [fst snd]. rewrite bind_get. cbn [fst is_initialized negb]. rewrite bind_ret, bind_get. cbn [fst read_count reader_size reader_cell]. rewrite (proj2 (Z.eqb_neq k n)) by lia.
      unfold mbind, M_bind, zoom. cbn [fst snd]. rewrite Eb. cbn. rewrite (wrap_small 64 (k + 1)) by (unfold fits; lia). done. }
    rewrite (bind_returns _ _ _ _ _ E), bind_get. cbn [fst snd]. unfold reader_get at 1. cbn [is_initialized is_eof negb orb reader_cell]. rewrite bind_lift, Hy. unfold mbind, M_bind. unfold zoom at 1. cbn [fst snd].
    pose proof (uniq_insert_spec tr c V v Hr) as Hi. destruct (uniq_insert hash fault v (tr, c)) as [[[]|e] [tr1 c1]]; cbn [fst snd].
    + specialize (IH fuel tr1 c1 _ b1 y (k + 1) n Hi Hvs ltac:(lia) ltac:(lia) Hn16 ltac:(lia) Hs1).
      match goal with |- match ?r with _ => _ end => change r with (insert_reader hash fault fuel ((tr1, c1), (MkReader y (k + 1) n false true, b1))) end.
      destruct (insert_reader hash fault fuel ((tr1, c1), (MkReader y (k + 1) n false true, b1))) as [[[]|e] [[tr2 c2] [r2 b2]]]; cbn [list_to_set].
      * rewrite union_assoc_L. exact IH.
      * destruct IH as (-> & U & HU & Hr'). split; [done|]. exists U. split; [set_solver|done].
    + destruct Hi as [-> ->]. split; [done|]. exists V. split; [set_solver|done].
Qed.

(** The first next() of the reader reads the number of elements. *)
Lemma insert_reader_start n l p fuel u b x k : 0 <= n <= 16 -> state b (writeVarUInt_mem n ++ l) p ->
  exists b', state b' l p /\ insert_reader hash fault (S fuel) (u, (MkReader x 0 k false false, b)) = insert_reader hash fault (S fuel) (u, (MkReader x 0 n false true, b')).
Proof.
  intros Hn Hs. destruct (reads_varuint n l ltac:(lia) b p Hs) as (b' & E & Hs'). rewrite Z.mod_small in E by lia. exists b'. split; [done|]. cbn [insert_reader].
  assert (small_reader_next small_set_size (MkReader x 0 k false false, b) = small_reader_next small_set_size (MkReader x 0 n false true, b')) as Ez.
  { assert (zoom snd (fun b (s : Reader (HashTableCell Z) * rbuf D) => (s.1, b)) readVarUInt (MkReader x 0 k false false, b) = (Returns n, (MkReader x 0 k false false, b'))) as Ev by (unfold zoom; cbn [fst snd]; by rewrite E).
    unfold small_reader_next. rewrite !bind_get. cbn [fst is_initialized negb]. rewrite bind_ret, bind_assoc, (bind_returns _ _ _ _ _ Ev), bind_assoc, bind_modify. cbn [fst snd].
    change small_set_size with 16. rewrite (proj2 (Z.ltb_ge 16 n)) by lia. by rewrite bind_modify. }
  unfold mbind, M_bind. assert (forall q, zoom snd (fun x (q : uniq_state * (Reader (HashTableCell Z) * rbuf D)) => (q.1, x)) (small_reader_next small_set_size) (u, q) = let '(r, y) := small_reader_next small_set_size q in (r, (u, y))) as Hz by (intros q; unfold zoom; cbn [fst snd]; by destruct (small_reader_next small_set_size q)).
  by rewrite !Hz, Ez.
Qed.

Lemma insert_from_spec t rest p garbage tr c V b :
  uniq_repr c V -> small_ok 16 t -> Forall value_ok (small_values t) -> state b (small_bytes t ++ rest) p ->
  match insert_from hash fault garbage ((tr, c), b) with
  | (Returns _, ((tr', c'), b')) => uniq_repr c' (V ∪ list_to_set (small_values t)) /\ state b' rest p
  | (Throws e, ((tr', c'), _)) => partly c' V (list_to_set (small_values t)) e
  end.
Proof.
  intros Hr Ht Hv Hs. pose proof (length_used 16 t Ht) as Hn. pose proof Ht as [_ Hb _]. unfold small_bytes in Hs. rewrite <- app_assoc in Hs. unfold insert_from. change (Z.to_nat small_set_size) with 16%nat. cbn [fst snd].
  destruct (insert_reader_start (s_size t) _ p 17 (tr, c) b (reader_cell garbage) (reader_size garbage) Hb Hs) as (b' & Hs' & ->).
  pose proof (insert_reader_spec (small_values t) rest p 18 tr c V b' (reader_cell garbage) 0 (s_size t) Hr Hv ltac:(lia)) as Hi. unfold small_values in Hi at 1 2. rewrite length_fmap in Hi. specialize (Hi ltac:(lia) ltac:(lia) ltac:(lia) Hs').
  match goal with |- match (let '(_, _) := ?r in _) with _ => _ end => change r with (insert_reader hash fault 18 ((tr, c), (MkReader (reader_cell garbage) 0 (s_size t) false true, b'))) end.
  by destruct (insert_reader hash fault 18 _) as [[[]|e] [[tr2 c2] [r2 b2]]].
Qed.

(** A call on the object leaves the buffer alone. *)
Lemma on_uniq_run {X} (m : M uniq_state X) u b : on_uniq m (u, b) = ((m u).1, ((m u).2, b)).
Proof. unfold on_uniq, zoom. cbn [fst snd]. by destruct (m u) as [r u']. Qed.

Lemma uniq_read_spec c W tr d b rest p :
  uniq_repr c W -> Forall value_ok (elements W) -> large d = None -> small_ok 16 (small_set d) -> state b (uniq_bytes c ++ rest) p ->
  match uniq_read hash fault ((tr, d), b) with
  | (Returns _, ((tr', d'), b')) => uniq_repr d' W /\ state b' rest p
  | (Throws e, _) => e = MEMORY_LIMIT_EXCEEDED
  end.
Proof.
  intros Hr Hv Hd Hsd Hs. unfold uniq_bytes in Hs. rewrite <- app_assoc in Hs. destruct (readBool_run _ _ (tr, d) b p Hs) as (b1 & E1 & Hs1). unfold uniq_read. rewrite (bind_returns _ _ _ _ _ E1).
  unfold isLarge. unfold uniq_repr in Hr. destruct (large c) as [h|] eqn:El.
  - pose proof (toLarge_spec tr d) as Ht. unfold mbind, M_bind. rewrite on_uniq_run. destruct (toLarge hash fault (tr, d)) as [[[]|e] [tr' d']]; cbn [fst snd]; [|apply Ht].
    destruct Ht as (_ & h' & El' & _). destruct Hr as [Hh Hsz]. pose proof Hh as [Hok _]. destruct (hll_read_spec h h' rest b1 p Hok Hs1) as (b2 & E2 & Hs2). unfold large_from_buffer. cbn [fst snd]. rewrite El', E2.
    split; [|done]. unfold uniq_repr. cbn [large]. done.
  - destruct Hr as [Ht HW]. destruct (small_read_spec 16 (small_set c) (small_set d) rest b1 p Ht ltac:(lia) (small_length _ _ Hsd)) as (t' & b2 & E2 & Hs2 & Hsz & Hl & Hu); [|exact Hs1|].
    { apply list.Forall_forall. intros x Hx. rewrite list.Forall_forall in Hv. apply Hv, elem_of_elements. rewrite HW. by apply elem_of_list_to_set. }
    unfold small_from_buffer, zoom. cbn [fst snd]. change small_set_size with 16. rewrite E2. split; [|done]. unfold uniq_repr. cbn [large small_set fst snd]. rewrite Hd. split.
    + destruct Ht as [_ Hb Hnd], Hsd as [Hl' _ _]. split; [lia|lia|]. rewrite set_keys. unfold small_values. rewrite Hu. exact Hnd.
    + unfold small_values. rewrite Hu. exact HW.
Qed.

Lemma uniq_readAndMerge_spec c W garbage garbage' tr d V b rest p :
  uniq_repr c W -> Forall value_ok (elements W) -> uniq_repr d V -> state b (uniq_bytes c ++ rest) p ->
  match uniq_readAndMerge hash fault garbage garbage' ((tr, d), b) with
  | (Returns _, ((tr', d'), b')) => uniq_repr d' (V ∪ W) /\ state b' rest p
  | (Throws e, ((tr', d'), _)) => partly d' V W e
  end.
Proof.
  intros Hr Hv Hd Hs. unfold uniq_bytes in Hs. rewrite <- app_assoc in Hs. destruct (readBool_run _ _ (tr, d) b p Hs) as (b1 & E1 & Hs1). unfold uniq_readAndMerge. rewrite (bind_returns _ _ _ _ _ E1), bind_get. cbn [fst snd].
  assert (isLarge c = match large c with Some _ => true | None => false end) as -> by done. unfold uniq_repr in Hr. destruct (large c) as [h|] eqn:El; cbn [negb andb].
  - destruct Hr as [Hh Hsz]. rewrite andb_true_r. pose proof (to_large_repr tr d V Hd) as Ht.
    assert ((if negb (isLarge d) then on_uniq (toLarge hash fault) else mret tt) ((tr, d), b1) = on_uniq (if negb (isLarge d) then toLarge hash fault else mret tt) ((tr, d), b1)) as Em by by destruct (isLarge d).
    rewrite on_uniq_run in Em. destruct ((if negb (isLarge d) then toLarge hash fault else mret tt) (tr, d)) as [[[]|e] [tr' d']]; cbn [fst snd] in Em.
    + rewrite (bind_returns _ _ _ _ _ Em). destruct Ht as (h' & El' & Hh'). destruct (hll_readAndMerge_spec hash garbage' h' V h W rest b1 p Hh' Hh Hs1) as (h2 & b2 & E2 & Hr2 & Hs2). unfold large_from_buffer. cbn [fst snd]. rewrite El', E2. split; [|done].
      unfold uniq_repr. cbn [large]. split; [done|]. eapply Nat.lt_le_trans; [exact Hsz|]. apply subseteq_size. set_solver.
    + rewrite (bind_throws _ _ _ _ _ Em). destruct Ht as [-> ->]. split; [done|]. exists V. split; [set_solver|done].
  - rewrite andb_false_r, bind_ret. destruct Hr as [Ht ->]. apply insert_from_spec; [done|done| |done].
    apply list.Forall_forall. intros x Hx. rewrite list.Forall_forall in Hv. apply Hv, elem_of_elements. by apply elem_of_list_to_set.
Qed.
End Readers.

(** ** The calls of a client *)

Inductive uniq_call := CallInsert (v : Z) | CallMerge (rhs : UniqCounter).

Definition call_uniq (k : uniq_call) : M uniq_state unit := match k with CallInsert v => uniq_insert hash fault v | CallMerge rhs => uniq_merge hash fault rhs end.

Fixpoint run_uniq (l : list uniq_call) : M uniq_state unit :=
  match l with
  | [] => mret tt
  | k :: l' => _ ← call_uniq k; run_uniq l'
  end.

(** The values that a call brings. *)
Definition brings (k : uniq_call) (W : gset Z) : Prop := match k with CallInsert v => W = {[v]} | CallMerge rhs => uniq_repr rhs W end.

Lemma run_uniq_spec l Ws : Forall2 brings l Ws -> forall tr c V, uniq_repr c V ->
  match run_uniq l (tr, c) with
  | (Returns _, (tr', c')) => uniq_repr c' (V ∪ ⋃ Ws)
  | (Throws e, (tr', c')) => partly c' V (⋃ Ws) e
  end.
Proof.
  induction 1 as [|k W l Ws Hb _ IH]; intros tr c V Hr; [cbn; by rewrite union_empty_r_L|].
  assert (match call_uniq k (tr, c) with (Returns _, (_, c')) => uniq_repr c' (V ∪ W) | (Throws e, (_, c')) => partly c' V W e end) as Hk.
  { destruct k as [v|rhs]; cbn [brings call_uniq] in *; [subst W|by apply uniq_merge_spec].
    pose proof (uniq_insert_spec tr c V v Hr) as Hi. destruct (uniq_insert hash fault v (tr, c)) as [[[]|e] [tr' c']]; [done|]. destruct Hi as [-> ->]. split; [done|]. exists V. split; [set_solver|done]. }
  change (⋃ (W :: Ws)) with (W ∪ ⋃ Ws). cbn [run_uniq]. unfold mbind, M_bind. destruct (call_uniq k (tr, c)) as [[[]|e] [tr1 c1]].
  - specialize (IH tr1 c1 _ Hk). destruct (run_uniq l (tr1, c1)) as [[[]|e] [tr2 c2]]; [by rewrite union_assoc_L|]. destruct IH as (-> & U & HU & Hr'). split; [done|]. exists U. split; [set_solver|done].
  - destruct Hk as (-> & U & HU & Hr'). split; [done|]. exists U. split; [set_solver|done].
Qed.

(** The constructor leaves the cells uninitialised. *)
Definition Uniq_new (garbage : list (HashTableCell Z)) : UniqCounter := MkUniq (Small 0 garbage) None.

Lemma new_uniq garbage : length garbage = 16%nat -> uniq_repr (Uniq_new garbage) ∅.
Proof. intros Hl. unfold uniq_repr, Uniq_new. cbn [large small_set]. split; [|done]. split; [cbn; lia|cbn; lia|apply NoDup_nil_2]. Qed.

(** A small counter has its values exactly, and it is small as long as there are at most sixteen. *)
Lemma uniq_small c V : uniq_repr c V -> if isLarge c then (16 < stdpp.base.size V)%nat else s_size (small_set c) = Z.of_nat (stdpp.base.size V) /\ (stdpp.base.size V <= 16)%nat.
Proof.
  unfold uniq_repr, isLarge. destruct (large c) as [h|]; [by intros [_ ?]|]. intros [Ht ->]. pose proof (length_used 16 _ Ht) as Hl. pose proof Ht as [_ Hb Hn]. rewrite set_keys in Hn.
  rewrite size_list_to_set by done. unfold small_values. rewrite length_fmap. lia.
Qed.
End UniqProofs.

(** C15: The distinct counter of the server.  A new counter on which values are
    inserted and other counters merged, in any order, represents the union of
    all those values: as long as there are at most sixteen it is small and
    [size] is their exact number; beyond that it is large and every bucket has
    the largest rank.  The only exception is that of the memory tracker when the
    large counter is allocated; then the counter represents a part of the
    values still. *)
Theorem counter_represents hash fault garbage l Ws tr :
  length garbage = 16%nat -> Forall2 (brings hash) l Ws ->
  match run_uniq hash fault l (tr, Uniq_new garbage) with
  | (Returns _, (tr', c)) =>
      let V := ⋃ Ws in
      if decide (stdpp.base.size V <= 16)%nat then large c = None /\ list_to_set (small_values (small_set c)) = V /\ forall estimate, uniq_size estimate c = Z.of_nat (stdpp.base.size V)
      else exists h, large c = Some h /\ hll_repr hash h V
  | (Throws e, (tr', c)) => e = MEMORY_LIMIT_EXCEEDED /\ exists V, V ⊆ ⋃ Ws /\ uniq_repr hash c V
  end.
Proof.
  intros Hg Hl. pose proof (run_uniq_spec hash fault l Ws Hl tr _ ∅ (new_uniq hash garbage Hg)) as Hr. destruct (run_uniq hash fault l (tr, Uniq_new garbage)) as [[[]|e] [tr' c]].
  - rewrite union_empty_l_L in Hr. pose proof (uniq_small hash c _ Hr) as Hs. unfold uniq_repr in Hr. unfold isLarge in Hs. unfold uniq_size. destruct (large c) as [h|]; cbn zeta.
    + rewrite decide_False by lia. exists h. split; [done|apply Hr].
    + rewrite decide_True by lia. destruct Hr as [_ Hr]. split_and!; [done|done|intros _; apply Hs].
  - destruct Hr as (-> & U & HU & Hr). split; [done|]. exists U. split; [set_solver|done].
Qed.

#[local] Definition demo_garbage : list (HashTableCell Z) := replicate 16 (TableCell 77).
#[local] Definition demo_trackers : trackers := Trackers [] 0.

#[local] Definition demo_calls : list uniq_call := [CallInsert 5; CallInsert 0; CallMerge (MkUniq (Small 2 (TableCell 9 :: TableCell 5 :: replicate 14 (TableCell 0))) None)].

Lemma demo_brings : Forall2 (brings (MurmurHash.intHash32 0)) demo_calls [{[5]}; {[0]}; {[9; 5]}].
Proof.
  apply Forall2_cons; split; [reflexivity|]. apply Forall2_cons; split; [reflexivity|]. apply Forall2_cons; split; [|apply Forall2_nil_2].
  unfold brings, uniq_repr. cbn [large small_set]. split; [|apply (bool_decide_unpack _); vm_compute; exact I].
  split; [reflexivity|cbn [s_size]; lia|]. apply (bool_decide_unpack _). vm_compute. exact I.
Qed.

Lemma counter_represents_witness : exists c,
  run_uniq (MurmurHash.intHash32 0) (fun _ => false) demo_calls (demo_trackers, Uniq_new demo_garbage) = (Returns tt, (demo_trackers, c)) /\
  small_values (small_set c) = [5; 0; 9] /\ forall estimate, uniq_size estimate c = Z.of_nat (stdpp.base.size (⋃ [{[5]}; {[0]}; {[9; 5]}] : gset Z)).
Proof.
  set (c := MkUniq (Small 3 (TableCell 5 :: TableCell 0 :: TableCell 9 :: replicate 13 (TableCell 77))) None).
  assert (run_uniq (MurmurHash.intHash32 0) (fun _ => false) demo_calls (demo_trackers, Uniq_new demo_garbage) = (Returns tt, (demo_trackers, c))) as E by (vm_compute; reflexivity).
  pose proof (counter_represents (MurmurHash.intHash32 0) (fun _ => false) demo_garbage demo_calls [{[5]}; {[0]}; {[9; 5]}] demo_trackers eq_refl demo_brings) as Hc. rewrite E in Hc. cbn zeta in Hc.
  exists c. split; [exact E|]. split; [reflexivity|]. rewrite decide_True in Hc; [apply Hc|]. vm_compute. lia.
Defined.

(** C29: The binary format of the distinct counter.  What [write] puts into any
    buffer, [read] into a counter that is not large turns into a counter of the
    same values, and [readAndMerge] adds to the values of the counter, whether
    either is small or large; the bytes that follow are left. The only
    exception is that of the memory tracker. *)
Theorem counter_write_read {A B} `{LA : WriteBufferLaws A} `{LB : ReadBufferLaws B} hash fault c W rest garbage garbage' :
  uniq_repr hash c W -> Forall (fun v => 0 <= v < 2 ^ 64) (elements W) ->
  exists w, writes (D := A) (uniq_write c) tt w /\ forall (b : rbuf B) p tr d, state b (w ++ rest) p ->
    (large d = None -> small_ok 16 (small_set d) ->
     match uniq_read hash fault ((tr, d), b) with
     | (Returns _, ((tr', d'), b')) => uniq_repr hash d' W /\ state b' rest p
     | (Throws e, _) => e = MEMORY_LIMIT_EXCEEDED
     end) /\
    forall V, uniq_repr hash d V ->
    match uniq_readAndMerge hash fault garbage garbage' ((tr, d), b) with
    | (Returns _, ((tr', d'), b')) => uniq_repr hash d' (V ∪ W) /\ state b' rest p
    | (Throws e, ((tr', d'), _)) => e = MEMORY_LIMIT_EXCEEDED /\ exists U, V ⊆ U ⊆ V ∪ W /\ uniq_repr hash d' U
    end.
Proof.
  intros Hr Hv. exists (uniq_bytes c). split; [exact (uniq_write_spec hash c W Hr)|]. intros b p tr d Hs. split.
  - intros Hd Hsd. by eapply uniq_read_spec.
  - intros V HV. by eapply uniq_readAndMerge_spec.
Qed.

Lemma counter_write_read_witness :
  exists w, writes (D := from_string) (uniq_write (Uniq_new demo_garbage)) tt w /\ forall (b : rbuf from_memory) p, state b (w ++ [9]) p ->
    match uniq_read (MurmurHash.intHash32 0) (fun _ => false) ((demo_trackers, Uniq_new demo_garbage), b) with
    | (Returns _, ((tr', d'), b')) => uniq_repr (MurmurHash.intHash32 0) d' ∅ /\ state b' [9] p
    | (Throws e, _) => e = MEMORY_LIMIT_EXCEEDED
    end.
Proof.
  pose proof (new_uniq (MurmurHash.intHash32 0) demo_garbage eq_refl) as Hn.
  destruct (counter_write_read (A := from_string) (B := from_memory) (MurmurHash.intHash32 0) (fun _ => false) (Uniq_new demo_garbage) ∅ [9] (MkReader (TableCell 0) 0 0 false false) (MkCompactReader (MkLocus 0 0 0 0) 0 0 0 0 false false) Hn) as (w & Hw & Hr).
  - rewrite elements_empty. apply Forall_nil_2.
  - exists w. split; [exact Hw|]. intros b p Hs. apply (Hr b p demo_trackers (Uniq_new demo_garbage) Hs); [reflexivity|]. apply Hn.
Defined.

(** ** The counter of the GPU *)

Section Device.
(** The hash of uniqHLL12. *)
Definition host_hash : Z -> Z := MurmurHash.intHash32 0.

Lemma ffs_ctz p : HyperLogLog.ffs_pos p = ctz_pos p + 1.
Proof. induction p as [p IH|p IH|]; cbn [HyperLogLog.ffs_pos ctz_pos]; lia. Qed.

Lemma hash_device v : HyperLogLog.getHash v = host_hash v.
Proof. unfold HyperLogLog.getHash, host_hash, MurmurHash.cudaIntHash32, MurmurHash.intHash32. reflexivity. Qed.

Lemma extract_device z b e : HyperLogLog.extractBitSequence z b e = extractBitSequence z b e.
Proof. reflexivity. Qed.

Lemma rank_same z : HyperLogLog.calculateRank (extractBitSequence z 12 32) = calculateRank (extractBitSequence z 12 32).
Proof.
  destruct (extract_range z 12) as [_ Ht]. specialize (Ht eq_refl). set (t := extractBitSequence _ _ _) in *. rewrite (calculateRank_spec t Ht). unfold HyperLogLog.calculateRank. change HyperLogLog.max_rank with 21.
  destruct (Z.eqb_spec t 0); [done|]. destruct t as [|p|p]; [done| |lia]. cbn [ctz HyperLogLog.ffs]. rewrite ffs_ctz. destruct (ctz_pos_le p) as [H0 Hle]. assert (ctz_pos p < 20) by (apply (Z.pow_lt_mono_r_iff 2); lia).
  rewrite (proj2 (Z.ltb_ge _ _)) by lia. lia.
Qed.

Lemma bucket_device v : HyperLogLog.bucket_of v = bucket_of host_hash v.
Proof.
  assert (HyperLogLog.bucket_of v = HyperLogLog.extractBitSequence (HyperLogLog.getHash v) 0 12) as -> by (unfold HyperLogLog.bucket_of; reflexivity).
  rewrite hash_device, extract_device. unfold bucket_of. reflexivity.
Qed.

Lemma rank_device v : HyperLogLog.rank_of v = rank_of host_hash v.
Proof.
  assert (HyperLogLog.rank_of v = HyperLogLog.calculateRank (HyperLogLog.extractBitSequence (HyperLogLog.getHash v) 12 32)) as -> by (unfold HyperLogLog.rank_of; reflexivity).
  rewrite hash_device, extract_device, rank_same. unfold rank_of. reflexivity.
Qed.

Lemma device_rank U h V b : HyperLogLog.repr U V -> hll_repr host_hash h V -> 0 <= b < 4096 -> HyperLogLog.rank U b = hrank h b.
Proof.
  intros HU [Hok Hr] Hb. destruct (HyperLogLog.rp_rank _ _ HU b Hb) as [D1 D2]. destruct (Hr b Hb) as [H1 H2]. setoid_rewrite rank_device in D1. setoid_rewrite rank_device in D2. setoid_rewrite bucket_device in D1. setoid_rewrite bucket_device in D2.
  pose proof (hll_ranks h Hok b Hb). apply Z.le_antisymm.
  - destruct D2 as [D2|(v & Hv & Eb & <-)]; [lia|by apply H1].
  - destruct H2 as [->|(v & Hv & Eb & <-)]; [|by apply D1]. unfold HyperLogLog.rank, HyperLogLog.byte. apply Z.mod_pos_bound. lia.
Qed.

Lemma device_cnt U h V r : HyperLogLog.repr U V -> hll_repr host_hash h V -> HyperLogLog.cnt U r = hcnt h r.
Proof.
  intros HU Hh. unfold HyperLogLog.cnt, hcnt. f_equal. apply map_ext_in. intros b Hb. apply list_elem_of_In, elem_of_seqZ in Hb. by rewrite (device_rank U h V b HU Hh) by lia.
Qed.
End Device.

(** C8: The distinct counters of the GPU and of the server agree.  Let the
    threads of a grid insert values into a new counter of the GPU, under any
    schedule in which all of them return, and the server insert the same values
    one by one without an exception.  If the server's counter became large, the
    ranks, the numbers of the buckets of each rank and [zeros] are the same in
    both; if not, the counter of the GPU is small too and its small set has the
    very same values. (With zero and 16 other values the server's counter is
    large and that of the GPU still small, since the GPU keeps zero beside its 16
    cells.) *)
Theorem gpu_counter_agrees fault garbage vals s tr tr' c :
  length garbage = 16%nat -> HyperLogLog.all_done (HyperLogLog.run HyperLogLog.uniq_init s (HyperLogLog.launch HyperLogLog.uniq_init vals)) = true ->
  run_uniq host_hash fault (CallInsert <$> vals) (tr, Uniq_new garbage) = (Returns tt, (tr', c)) ->
  let U := HyperLogLog.place (HyperLogLog.run HyperLogLog.uniq_init s (HyperLogLog.launch HyperLogLog.uniq_init vals)) in
  match large c with
  | Some h => (forall b, 0 <= b < 4096 -> compact_get rank_width (after h) (rank_store h) b = Returns (HyperLogLog.rank U b)) /\
              (forall r, 0 <= r < 22 -> nth (Z.to_nat r) (rank_count h) 0 = rd (HyperLogLog.rank_count U) r) /\ zeros h = HyperLogLog.zeros U
  | None => HyperLogLog.is_large U = false /\ forall v, HyperLogLog.in_small U v <-> v ∈ small_values (small_set c)
  end.
Proof.
  intros Hg Hd E U. pose proof (HyperLogLog.grid_repr HyperLogLog.uniq_init ∅ vals s HyperLogLog.uniq_init_repr Hd) as HU. fold U in HU. rewrite union_empty_l_L in HU.
  assert (Forall2 (brings host_hash) (CallInsert <$> vals) (singleton <$> vals)) as Hb by (apply Forall2_fmap, Forall_Forall2_diag, list.Forall_forall; done).
  pose proof (run_uniq_spec host_hash fault _ _ Hb tr _ ∅ (new_uniq _ garbage Hg)) as Hr. rewrite E, union_empty_l_L in Hr.
  assert (⋃ (singleton <$> vals) = list_to_set vals :> gset Z) as EV by (clear; induction vals as [|v l IH]; [done|]; cbn; by rewrite <- IH). rewrite EV in Hr. pose proof (uniq_small _ c _ Hr) as Hs. unfold uniq_repr in Hr. unfold isLarge in Hs.
  destruct (large c) as [h|].
  - destruct Hr as [Hh _]. pose proof Hh as [Hok _]. split_and!.
    + intros b Hb'. rewrite (device_rank U h _ b HU Hh Hb'). apply (get_digit 5 4096); [lia|lia|apply Hok|done].
    + intros r Hr. rewrite (hll_counts h Hok r Hr), (HyperLogLog.rp_count _ _ HU r Hr). symmetry. by eapply device_cnt.
    + rewrite (hll_zeros h Hok), (HyperLogLog.rp_zeros _ _ HU). symmetry. by eapply device_cnt.
  - destruct Hr as [_ Hr]. assert (HyperLogLog.is_large U = false) as El.
    { destruct (HyperLogLog.is_large U) eqn:El; [|done]. pose proof (HyperLogLog.rp_large _ _ HU El) as Hc. pose proof (subseteq_size (HyperLogLog.nonzero (list_to_set vals)) (list_to_set vals) ltac:(unfold HyperLogLog.nonzero; set_solver)). unfold HyperLogLog.capacity in Hc. lia. }
    split; [done|]. intros v. assert (v ∈ small_values (small_set c) <-> v ∈ (list_to_set vals : gset Z)) as -> by (rewrite Hr; symmetry; apply elem_of_list_to_set).
    split; [apply (HyperLogLog.rp_sub _ _ HU)|by apply (HyperLogLog.rp_small _ _ HU)].
Qed.

Lemma gpu_counter_agrees_witness : exists U c, HyperLogLog.place (HyperLogLog.run HyperLogLog.uniq_init (round_robin 3 60) (HyperLogLog.launch HyperLogLog.uniq_init [5; 0; 5])) = U /\
  small_values (small_set c) = [5; 0] /\ HyperLogLog.is_large U = false /\ forall v, HyperLogLog.in_small U v <-> v ∈ small_values (small_set c).
Proof.
  eexists _, (MkUniq (Small 2 (TableCell 5 :: TableCell 0 :: replicate 14 (TableCell 77))) None). split; [reflexivity|]. split; [reflexivity|].
  apply (gpu_counter_agrees (fun _ => false) demo_garbage [5; 0; 5] (round_robin 3 60) demo_trackers demo_trackers (MkUniq (Small 2 (TableCell 5 :: TableCell 0 :: replicate 14 (TableCell 77))) None)); [reflexivity| |].
  - vm_compute. reflexivity.
  - vm_compute. reflexivity.
Defined.
