(* ===== verification/Arena.v ===== *)
(** * Arenas

    dbms/src/Common/Arena.h: memory from which pieces are taken and never given
    back one by one.  The state is the list of the chunks, the head last, next
    to the allocator that they come from; a chunk has its three addresses
    and its bytes, which are arbitrary at first ([garbage]).  A pointer has its
    address and the number of the chunk it points into.

    Shown: the pieces that an arena gave lie inside its chunks, do not overlap
    and keep their bytes whatever is allocated, written elsewhere, rolled back or
    continued ([arena_keeps]), or the allocator throws and the arena is as it
    was; [allocContinue] returns for pieces below a part of the linear growth
    threshold ([allocContinue_spec]) and does not for larger ones
    ([allocContinue_diverges]). *)

From stdpp Require Import base list option numbers.
From Stdlib Require Import ZArith Lia.
From S2P Require Import Prelude IOMonad Allocators.

#[local] Open Scope Z_scope.
#[local] Open Scope word_scope.

Record Chunk := MkChunk { c_begin : Z; c_pos : Z; c_end : Z; c_bytes : list Z }.

Record Arena := MkArena { growth_factor : Z; linear_growth_threshold : Z; chunks : list Chunk; size_in_bytes : Z }.

(** [below] is the number of the chunks that are older. *)
Record pointer := Ptr { below : nat; address : Z }.

Definition set_pos (p : Z) (c : Chunk) : Chunk := MkChunk (c_begin c) p (c_end c) (c_bytes c).
Definition set_bytes (b : list Z) (c : Chunk) : Chunk := MkChunk (c_begin c) (c_pos c) (c_end c) b.
Definition set_chunks (l : list Chunk) (r : Arena) : Arena := MkArena (growth_factor r) (linear_growth_threshold r) l (size_in_bytes r).
Definition add_size (n : Z) (r : Arena) : Arena := MkArena (growth_factor r) (linear_growth_threshold r) (chunks r) (size_in_bytes r +64 n).

(** ** Operations *)

Definition chunk_size (c : Chunk) : Z := c_end c -64 c_begin c.
Definition remaining (c : Chunk) : Z := c_end c -64 c_pos c.

Definition roundUpToPageSize (s : Z) : Z := (s +64 4096 -64 1) / 4096 *64 4096.

Definition nextSize (r : Arena) (head : Chunk) (min_next_size : Z) : Z :=
  let size_after_grow := if chunk_size head <? linear_growth_threshold r then chunk_size head *64 growth_factor r else linear_growth_threshold r in
  let size_after_grow := if size_after_grow <? min_next_size then min_next_size else size_after_grow in
  roundUpToPageSize size_after_grow.

Section Operations.
Context {A : Type} `{!Allocator A} (garbage : Z -> nat -> list Z).

Definition arena_world : Type := A * Arena.

Definition Chunk_new (size_ : Z) : M A Chunk :=
  b ← alloc_range size_;
  mret (MkChunk b b (b +64 size_) (garbage b (Z.to_nat size_))).

Definition on_allocator {X} (m : M A X) : M arena_world X := zoom fst (fun a s => (a, s.2)) m.
Definition on_arena (f : Arena -> Arena) : M arena_world unit := modify (fun s => (s.1, f s.2)).

Definition head : M arena_world Chunk :=
  l ← get (fun s => chunks s.2);
  lift (match l !! (length l - 1)%nat with Some c => Returns c | None => Throws NULL_POINTER end).

Definition set_head (c : Chunk) : M arena_world unit := on_arena (fun r => set_chunks (<[(length (chunks r) - 1)%nat := c]> (chunks r)) r).

Definition addChunk (min_size : Z) : M arena_world unit :=
  h ← head;
  r ← get snd;
  c ← on_allocator (Chunk_new (nextSize r h min_size));
  on_arena (fun r => add_size (chunk_size c) (set_chunks (chunks r ++ [c]) r)).

Definition Arena_new (initial_size_ growth_factor_ linear_growth_threshold_ : Z) : M A Arena :=
  c ← Chunk_new initial_size_;
  mret (MkArena growth_factor_ linear_growth_threshold_ [c] (chunk_size c)).

(** Taking [size] bytes of the head. *)
Definition take_bytes (size : Z) : M arena_world pointer :=
  h ← head;
  n ← get (fun s => length (chunks s.2));
  _ ← set_head (set_pos (c_pos h +64 size) h);
  mret (Ptr (n - 1) (c_pos h)).

Definition alloc (size : Z) : M arena_world pointer :=
  h ← head;
  _ ← (if c_end h <? c_pos h +64 size then addChunk size else mret tt);
  take_bytes size.

Definition rollback (size : Z) : M arena_world unit :=
  h ← head;
  set_head (set_pos (c_pos h -64 size) h).

(** Access to the [n] bytes at a pointer. *)
Definition chunk_at (r : Arena) (i : nat) : outcome Chunk := match chunks r !! i with Some c => Returns c | None => Throws BUFFER_OVERRUN end.

Definition load (p : pointer) (n : Z) : M arena_world (list Z) :=
  r ← get snd;
  c ← lift (chunk_at r (below p));
  let i := address p - c_begin c in
  if (0 <=? i) && (0 <=? n) && (i + n <=? Z.of_nat (length (c_bytes c))) then mret (take (Z.to_nat n) (drop (Z.to_nat i) (c_bytes c)))
  else throw BUFFER_OVERRUN.

Definition store (p : pointer) (data : list Z) : M arena_world unit :=
  r ← get snd;
  c ← lift (chunk_at r (below p));
  let i := address p - c_begin c in
  if (0 <=? i) && (i + Z.of_nat (length data) <=? Z.of_nat (length (c_bytes c))) then
    let b := take (Z.to_nat i) (c_bytes c) ++ data ++ drop (Z.to_nat i + length data) (c_bytes c) in
    on_arena (fun r => set_chunks (<[below p := set_bytes b c]> (chunks r)) r)
  else throw BUFFER_OVERRUN.

(** [data] is what memcpy reads. *)
Definition insert (data : list Z) : M arena_world pointer :=
  res ← alloc (Z.of_nat (length data));
  _ ← store res data;
  mret res.

Definition realloc (old_data : option pointer) (old_size new_size : Z) : M arena_world pointer :=
  res ← alloc new_size;
  _ ← (match old_data with Some p => d ← load p old_size; store res d | None => mret tt end);
  mret res.

(** The new value of the argument [begin] is the second result. *)
Fixpoint allocContinue (fuel : nat) (size : Z) (begin : option pointer) : M arena_world (pointer * pointer) :=
  match fuel with
  | O => throw NO_FUEL
  | S fuel' =>
      let finish := res ← take_bytes size; mret (res, default res begin) in
      h ← head;
      if c_end h <? c_pos h +64 size then
        let prev_end := c_pos h in
        _ ← addChunk size;
        match begin with
        | Some p =>
            d ← load p (prev_end -64 address p);
            b ← insert d;
            allocContinue fuel' size (Some b)
        | None => finish
        end
      else finish
  end.

(** ~Chunk, from the head to the oldest one. *)
Fixpoint delete_chunks (l : list Chunk) : M A unit :=
  match l with
  | [] => mret tt
  | c :: l' => _ ← free_range (c_begin c) (chunk_size c); delete_chunks l'
  end.

Definition Arena_delete (r : Arena) : M A unit := delete_chunks (reverse (chunks r)).

Definition remainingSpaceInCurrentChunk : M arena_world Z := h ← head; mret (remaining h).
End Operations.

(** ** The pieces *)

Section Pieces.
Context {A : Type} `{LA : AllocatorLaws A} (garbage : Z -> nat -> list Z) (garbage_length : forall p n, length (garbage p n) = n).
#[local] Abbreviation world := (arena_world (A := A)).
Implicit Types (r : Arena) (c : Chunk) (d : list Z) (w : world).

#[local] Abbreviation len d := (Z.of_nat (length d)).

Record chunk_ok c : Prop := {
  ck_begin : 0 < c_begin c;
  ck_pos : c_begin c <= c_pos c <= c_end c;
  ck_end : c_begin c < c_end c <= 2 ^ 48;
  ck_bytes : len (c_bytes c) = c_end c - c_begin c
}.

(** The bytes [i .. i + n) of a chunk. *)
Definition part c (i n : Z) : list Z := take (Z.to_nat n) (drop (Z.to_nat i) (c_bytes c)).

(** [d] is a piece at [p]. *)
Definition piece_in r (x : pointer * list Z) : Prop :=
  exists c, chunks r !! below x.1 = Some c /\ c_begin c <= address x.1 /\ address x.1 + len x.2 <= c_end c /\ (x.2 = [] \/ address x.1 + len x.2 <= c_pos c) /\ part c (address x.1 - c_begin c) (len x.2) = x.2.

Definition apart (x y : pointer * list Z) : Prop :=
  x.2 = [] \/ y.2 = [] \/ below x.1 <> below y.1 \/ address x.1 + len x.2 <= address y.1 \/ address y.1 + len y.2 <= address x.1.

Definition ranges r : list (Z * Z) := (fun c => (c_begin c, c_end c - c_begin c)) <$> chunks r.

Record arena_ok (a : A) (live : list (Z * Z)) r (ps : list (pointer * list Z)) : Prop := {
  ar_chunks : chunks r <> [];
  ar_chunk : Forall chunk_ok (chunks r);
  ar_memory : alloc_inv a (ranges r ++ live);
  ar_factor : 1 <= growth_factor r <= 256;
  ar_threshold : 1 <= linear_growth_threshold r <= 2 ^ 50;
  ar_pieces : Forall (piece_in r) ps;
  ar_apart : forall i j x y, i <> j -> ps !! i = Some x -> ps !! j = Some y -> apart x y
}.

Lemma head_some r : chunks r <> [] -> exists c, chunks r !! (length (chunks r) - 1)%nat = Some c.
Proof. intros Hne. apply lookup_lt_is_Some_2. destruct (chunks r); [done|]. cbn. lia. Qed.

Lemma head_run w c : chunks w.2 !! (length (chunks w.2) - 1)%nat = Some c -> head w = (Returns c, w).
Proof. intros E. unfold head. rewrite bind_get, E. by destruct w. Qed.

Lemma round_bounds n : 0 < n <= 2 ^ 59 -> n <= roundUpToPageSize n < 2 ^ 60.
Proof. intros Hn. unfold roundUpToPageSize. rewrite (wrap_small 64 (n + 4096)) by (unfold fits; lia). rewrite (wrap_small 64 (n + 4096 - 1)) by (unfold fits; lia). rewrite wrap_small by (unfold fits; dlia). dlia. Qed.

Lemma chunk_size_ok c : chunk_ok c -> chunk_size c = c_end c - c_begin c.
Proof. intros [H1 H2 H3 H4]. unfold chunk_size. apply wrap_small. unfold fits. lia. Qed.

Lemma nextSize_bounds a live r ps c n : arena_ok a live r ps -> chunk_ok c -> 0 <= n <= 2 ^ 50 -> n <= nextSize r c n < 2 ^ 60 /\ 0 < nextSize r c n.
Proof.
  intros [_ _ _ Hf Ht _ _] Hc Hn. unfold nextSize. rewrite (chunk_size_ok c Hc). destruct Hc as [H1 H2 H3 H4]. set (x := if c_end c - c_begin c <? _ then _ else _).
  assert (0 < x <= 2 ^ 57) as Hx.
  { unfold x. destruct (Z.ltb_spec (c_end c - c_begin c) (linear_growth_threshold r)); [|lia]. rewrite wrap_small by (unfold fits; nia). nia. }
  destruct (Z.ltb_spec x n); [pose proof (round_bounds n ltac:(lia))|pose proof (round_bounds x ltac:(lia))]; lia.
Qed.

Lemma chunk_in a live r ps i c : arena_ok a live r ps -> chunks r !! i = Some c -> chunk_ok c.
Proof. intros [_ Hc _ _ _ _ _] Hi. by eapply list.Forall_lookup_1 in Hi. Qed.

Lemma piece_grows r r' x : (forall i c, chunks r !! i = Some c -> exists c', chunks r' !! i = Some c' /\ c_begin c' = c_begin c /\ c_end c' = c_end c /\ c_pos c <= c_pos c' /\ c_bytes c' = c_bytes c) -> piece_in r x -> piece_in r' x.
Proof. intros Hg (c & E & H1 & H2 & H2' & H3). destruct (Hg _ _ E) as (c' & E' & Eb & Ee & Hp & Ed). exists c'. unfold part in *. rewrite Eb, Ed, Ee. split_and!; [done|done|done|destruct H2'; [by left|right; lia]|done]. Qed.

(** What the allocator threw. *)
Definition arena_error (e : error) : Prop := exists m (a : A), (alloc_range m a).1 = Throws e.

Lemma addChunk_spec a live r ps h n :
  arena_ok a live r ps -> chunks r !! (length (chunks r) - 1)%nat = Some h -> 0 <= n <= 2 ^ 50 ->
  match addChunk garbage n (a, r) with
  | (Returns _, (a', r')) => arena_ok a' live r' ps /\ growth_factor r' = growth_factor r /\ linear_growth_threshold r' = linear_growth_threshold r /\
      exists c, chunks r' = chunks r ++ [c] /\ c_pos c = c_begin c /\ c_end c = c_begin c + nextSize r h n /\ chunk_ok c
  | (Throws e, (a', r')) => r' = r /\ arena_ok a' live r ps /\ arena_error e
  end.
Proof.
  intros Hok Eh Hn. pose proof (chunk_in _ _ _ _ _ _ Hok Eh) as Hh. destruct (nextSize_bounds a live r ps h n Hok Hh Hn) as [Hs Hs0]. set (m := nextSize r h n) in *.
  unfold addChunk. rewrite (bind_returns _ _ _ _ _ (head_run (a, r) h Eh)), bind_get. cbn [snd]. fold m. unfold Chunk_new, on_allocator. destruct Hok as [Hne Hc Hm Hf Ht Hp Ha].
  pose proof (alloc_range_ok a _ m Hm ltac:(lia)) as Hal. unfold mbind, M_bind, zoom. cbn [fst snd]. destruct (alloc_range m a) as [[p|e] a'] eqn:E; cbn [mret M_ret].
  2: { split_and!; [done|by split|]. exists m, a. by rewrite E. }
  destruct Hal as (Hinv & Hp0 & Hm48). pose proof (alloc_inv_range a' _ p m Hinv) as [Hp1 Hp2]. set (c := MkChunk p p (p +64 m) (garbage p (Z.to_nat m))).
  assert (c_end c = p + m) as Ee by (apply wrap_small; unfold fits; lia).
  assert (chunk_ok c) as Hck by (split; cbn [c_begin c_pos c_bytes c]; rewrite ?Ee, ?garbage_length; lia).
  unfold on_arena, modify. cbn [fst snd]. split; [|split_and!; [done|done|exists c; split_and!; [done|done|done|done]]]. split; cbn [chunks add_size set_chunks growth_factor linear_growth_threshold].
  - by destruct (chunks r).
  - apply Forall_app_2; [done|]. by apply Forall_cons_2; [|apply Forall_nil_2].
  - eapply alloc_inv_perm; [|exact Hinv]. unfold ranges. cbn [chunks add_size set_chunks]. rewrite fmap_app. cbn [fmap list_fmap]. rewrite Ee. cbn [c_begin c]. replace (p + m - p) with m by lia. rewrite <- app_assoc. cbn [app]. apply Permutation_middle.
  - done.
  - done.
  - eapply list.Forall_impl; [exact Hp|]. intros x. apply piece_grows. intros i c0 Hi. exists c0. cbn [chunks add_size set_chunks]. rewrite lookup_app_l by (by eapply lookup_lt_Some). by split_and!.
  - done.
Qed.

(** The piece that is taken starts where all others of the chunk have ended. *)
Lemma take_spec a live r ps h n :
  arena_ok a live r ps -> chunks r !! (length (chunks r) - 1)%nat = Some h -> 0 <= n -> c_pos h + n <= c_end h ->
  let p := Ptr (length (chunks r) - 1) (c_pos h) in
  take_bytes n (a, r) = (Returns p, (a, set_chunks (<[(length (chunks r) - 1)%nat := set_pos (c_pos h + n) h]> (chunks r)) r)) /\
  exists d, len d = n /\ arena_ok a live (set_chunks (<[(length (chunks r) - 1)%nat := set_pos (c_pos h + n) h]> (chunks r)) r) ((p, d) :: ps).
Proof.
  intros Hok Eh Hn Hfit p. pose proof (chunk_in _ _ _ _ _ _ Hok Eh) as Hh. destruct Hh as [H1 H2 H3 H4] eqn:EH. clear EH. split.
  - unfold take_bytes. rewrite (bind_returns _ _ _ _ _ (head_run (a, r) h Eh)), bind_get. cbn [snd]. rewrite wrap_small by (unfold fits; lia). reflexivity.
  - set (r' := set_chunks _ r). exists (part h (c_pos h - c_begin h) n). assert (len (part h (c_pos h - c_begin h) n) = n) as Hl by (unfold part; rewrite length_take, length_drop; lia). split; [done|].
    assert (forall x, piece_in r x -> piece_in r' x) as Hgrow.
    { intros x. apply piece_grows. intros i c Hi. cbn [r' chunks set_chunks]. destruct (decide (i = (length (chunks r) - 1)%nat)) as [->|Hne].
      - rewrite list_lookup_insert_eq by (by eapply lookup_lt_Some). rewrite Eh in Hi. injection Hi as <-. eexists. split; [done|]. cbn. split_and!; [done|done|lia|done].
      - exists c. rewrite list_lookup_insert_ne by done. by split_and!. }
    destruct Hok as [Hne Hc Hm Hf Ht Hp Ha]. split; cbn [r' chunks set_chunks growth_factor linear_growth_threshold].
    + destruct (chunks r); [done|]. intros E%(f_equal length). rewrite length_insert in E. cbn in E. lia.
    + apply list.Forall_insert; [done|]. split; cbn [c_begin c_pos c_end c_bytes set_pos]; lia.
    + unfold ranges. cbn [chunks set_chunks r']. rewrite list_fmap_insert. cbn [c_end c_begin set_pos]. rewrite list_insert_id; [exact Hm|]. by rewrite list_lookup_fmap, Eh.
    + done.
    + done.
    + apply list.Forall_cons. split; [|by eapply list.Forall_impl]. exists (set_pos (c_pos h + n) h). cbn [fst snd p below address]. rewrite Hl. unfold part at 1. cbn [c_bytes c_begin c_pos set_pos r' chunks set_chunks].
      split_and!; [apply list_lookup_insert_eq; by eapply lookup_lt_Some|lia|cbn; lia|right; lia|done].
    + assert (forall y, y ∈ ps -> apart (p, part h (c_pos h - c_begin h) n) y) as Hap.
      { intros y Hy. rewrite list.Forall_forall in Hp. destruct (Hp y Hy) as (c & Ec & B1 & B2 & [B3|B3] & _); [right; by left|]. unfold apart. cbn [fst snd p below address]. right. right. destruct (decide (below y.1 = (length (chunks r) - 1)%nat)) as [E|]; [|left; congruence].
        right. right. rewrite E, Eh in Ec. injection Ec as ->. lia. }
      intros i j x y Hij Hx Hy. destruct i as [|i], j as [|j]; [done| | |by eapply (Ha i j); [congruence|..]].
      * injection Hx as <-. apply Hap. by eapply list_elem_of_lookup_2.
      * injection Hy as <-. pose proof (Hap x ltac:(by eapply list_elem_of_lookup_2)) as [?|[?|[?|[?|?]]]]; [by right; left|by left|right; right; left; congruence|by right; right; right; right|by right; right; right; left].
Qed.

Lemma arena_alloc_spec a live r ps n :
  arena_ok a live r ps -> 0 <= n <= 2 ^ 50 ->
  match alloc garbage n (a, r) with
  | (Returns p, (a', r')) => exists d, len d = n /\ arena_ok a' live r' ((p, d) :: ps)
  | (Throws e, (a', r')) => r' = r /\ arena_ok a' live r ps /\ arena_error e
  end.
Proof.
  intros Hok Hn. destruct (head_some r (ar_chunks _ _ _ _ Hok)) as (h & Eh). pose proof (chunk_in _ _ _ _ _ _ Hok Eh) as Hh. unfold alloc. rewrite (bind_returns _ _ _ _ _ (head_run (a, r) h Eh)).
  destruct Hh as [H1 H2 H3 H4]. rewrite (wrap_small 64 (c_pos h + n)) by (unfold fits; lia). destruct (Z.ltb_spec (c_end h) (c_pos h + n)) as [Hlt|Hge].
  - pose proof (addChunk_spec a live r ps h n Hok Eh Hn) as Hadd. unfold mbind, M_bind. destruct (addChunk garbage n (a, r)) as [[[]|e] [a' r']]; [|done]. destruct Hadd as (Hok' & _ & _ & c & Ec & Ep & Ee & Hc).
    destruct (nextSize_bounds a live r ps h n Hok (chunk_in _ _ _ _ _ _ Hok Eh) Hn) as [Hs _].
    assert (chunks r' !! (length (chunks r') - 1)%nat = Some c) as El by (rewrite Ec, length_app; cbn [length]; replace (length (chunks r) + 1 - 1)%nat with (length (chunks r)) by lia; by rewrite lookup_app_r, Nat.sub_diag by lia).
    destruct (take_spec a' live r' ps c n Hok' El ltac:(lia) ltac:(lia)) as (-> & Hd). exact Hd.
  - rewrite bind_ret. destruct (take_spec a live r ps h n Hok Eh ltac:(lia) ltac:(lia)) as (-> & Hd). exact Hd.
Qed.

(** A part of a piece. *)
Definition shift (p : pointer) (i : Z) : pointer := Ptr (below p) (address p + i).

Lemma load_spec a live r ps p d i n :
  arena_ok a live r ps -> (p, d) ∈ ps -> 0 <= i -> 0 <= n -> i + n <= len d -> load (shift p i) n (a, r) = (Returns (take (Z.to_nat n) (drop (Z.to_nat i) d)), (a, r)).
Proof.
  intros Hok Hp Hi Hn Hin. pose proof (ar_pieces _ _ _ _ Hok) as HP. rewrite list.Forall_forall in HP. destruct (HP _ Hp) as (c & Ec & H1 & H2 & _ & H3). cbn [fst snd] in *.
  destruct (chunk_in _ _ _ _ _ _ Hok Ec) as [C1 C2 C3 C4]. unfold load. rewrite bind_get. cbn [snd]. unfold chunk_at. cbn [shift below address]. rewrite Ec, bind_lift. cbn [shift below address].
  rewrite !(proj2 (Z.leb_le _ _)) by lia. cbn [andb]. unfold mret, M_ret. do 2 f_equal. rewrite <- H3. unfold part. rewrite skipn_firstn_comm, take_take, drop_drop. f_equal; [lia|]. f_equal. lia.
Qed.

(** Writing a part of a piece changes it and no other. *)
Definition splice (d : list Z) (i : Z) (e : list Z) : list Z := take (Z.to_nat i) d ++ e ++ drop (Z.to_nat i + length e) d.

Lemma splice_length d i e : 0 <= i -> i + len e <= len d -> length (splice d i e) = length d.
Proof. intros Hi He. unfold splice. rewrite !length_app, length_take, length_drop. lia. Qed.

Lemma splice_nil d i : splice d i [] = d.
Proof. unfold splice. cbn [length app]. rewrite Nat.add_0_r. apply take_drop. Qed.

(** Outside of what is written, a part of the bytes stays. *)
Lemma splice_other d i e j n : 0 <= i -> i + len e <= len d -> 0 <= j -> 0 <= n -> j + n <= i \/ i + len e <= j -> take (Z.to_nat n) (drop (Z.to_nat j) (splice d i e)) = take (Z.to_nat n) (drop (Z.to_nat j) d).
Proof.
  intros Hi He Hj Hn Hd. unfold splice. destruct Hd as [Hd|Hd].
  - rewrite drop_app_le by (rewrite length_take; lia). rewrite take_app_le by (rewrite length_drop, length_take; lia). rewrite skipn_firstn_comm, take_take. f_equal. lia.
  - rewrite app_assoc, drop_app_ge by (rewrite length_app, length_take; lia). rewrite drop_drop. do 2 f_equal. rewrite length_app, length_take. lia.
Qed.

(** The part of the bytes that contains what is written. *)
Lemma splice_part b j i n e : 0 <= i -> 0 <= j -> i + len e <= n -> j + n <= len b -> take (Z.to_nat n) (drop (Z.to_nat j) (splice b (j + i) e)) = splice (take (Z.to_nat n) (drop (Z.to_nat j) b)) i e.
Proof.
  intros Hi Hj He Hb. unfold splice. rewrite drop_app_le by (rewrite length_take; lia). rewrite skipn_firstn_comm, take_take. replace (Z.to_nat (j + i) - Z.to_nat j)%nat with (Z.to_nat i) by lia.
  rewrite Nat.min_l by lia. rewrite take_app_ge by (rewrite length_take, length_drop; lia). rewrite length_take, length_drop, Nat.min_l by lia. f_equal. rewrite take_app_ge by lia. f_equal.
  rewrite skipn_firstn_comm, drop_drop. f_equal; [lia|]. f_equal. lia.
Qed.

Lemma store_spec a live r ps k p d i e :
  arena_ok a live r ps -> ps !! k = Some (p, d) -> 0 <= i -> i + len e <= len d ->
  exists r', store (shift p i) e (a, r) = (Returns tt, (a, r')) /\ arena_ok a live r' (<[k := (p, splice d i e)]> ps) /\
    (c_begin <$> chunks r') = (c_begin <$> chunks r) /\ (c_pos <$> chunks r') = (c_pos <$> chunks r) /\ (c_end <$> chunks r') = (c_end <$> chunks r) /\
    growth_factor r' = growth_factor r /\ linear_growth_threshold r' = linear_growth_threshold r.
Proof.
  intros Hok Hk Hi He. destruct Hok as [Hne Hc Hm Hf Ht HP Ha] eqn:EO. clear EO. pose proof (proj1 (list.Forall_lookup _ _) HP _ _ Hk) as (c & Ec & H1 & H2 & H2' & H3). cbn [fst snd] in *.
  destruct (chunk_in _ _ _ _ _ _ Hok Ec) as [C1 C2 C3 C4] eqn:EC. clear EC. set (b := splice (c_bytes c) (address p - c_begin c + i) e).
  assert (length b = length (c_bytes c)) as Hb by (apply splice_length; lia). set (r' := set_chunks (<[below p := set_bytes b c]> (chunks r)) r). exists r'.
  assert (forall {T} (f : Chunk -> T), f (set_bytes b c) = f c -> (f <$> chunks r') = (f <$> chunks r)) as Hsame.
  { intros T f Ef. cbn [r' chunks set_chunks]. rewrite list_fmap_insert, Ef. apply list_insert_id. by rewrite list_lookup_fmap, Ec. }
  split; [|split; [|split_and!; (done || by apply Hsame)]].
  - unfold store. rewrite bind_get. cbn [snd]. unfold chunk_at. cbn [shift below address]. rewrite Ec, bind_lift. cbn [shift below address]. rewrite !(proj2 (Z.leb_le _ _)) by lia. cbn [andb].
    replace (address p + i - c_begin c) with (address p - c_begin c + i) by lia. reflexivity.
  - assert (forall x, piece_in r x -> (e <> [] -> x.2 <> [] -> below x.1 = below p -> address x.1 + len x.2 <= address p + i \/ address p + i + len e <= address x.1) -> piece_in r' x) as Hother.
    { intros x (c0 & E0 & B1 & B2 & B2' & B3) Hx. destruct (decide (below x.1 = below p)) as [E|Hn].
      - rewrite E, Ec in E0. injection E0 as <-. exists (set_bytes b c). cbn [r' chunks set_chunks]. rewrite E, list_lookup_insert_eq by (by eapply lookup_lt_Some). split_and!; [done|done|done|done|].
        unfold part in *. cbn [c_begin c_bytes set_bytes]. destruct (decide (x.2 = [])) as [Ex|Ex]; [by rewrite Ex|]. rewrite <- B3 at 2. unfold b. destruct (decide (e = [])) as [->|Ee]; [by rewrite splice_nil|]. specialize (Hx Ee Ex E). apply splice_other; lia.
      - exists c0. cbn [r' chunks set_chunks]. rewrite list_lookup_insert_ne by done. by split_and!. }
    split; cbn [r' chunks set_chunks growth_factor linear_growth_threshold].
    + destruct (chunks r); [done|]. intros E%(f_equal length). rewrite length_insert in E. cbn in E. lia.
    + apply list.Forall_insert; [done|]. split; cbn [c_begin c_pos c_end c_bytes set_bytes]; [done|done|done|lia].
    + change (alloc_inv a (ranges r' ++ live)). unfold ranges. by rewrite Hsame.
    + done.
    + done.
    + apply list.Forall_lookup. intros j x Hx. destruct (decide (j = k)) as [->|Hjk].
      * rewrite list_lookup_insert_eq in Hx by (by eapply lookup_lt_Some). injection Hx as <-. exists (set_bytes b c). cbn [fst snd r' chunks set_chunks]. rewrite splice_length by lia.
        rewrite list_lookup_insert_eq by (by eapply lookup_lt_Some). split_and!; [done|done|done| |].
        { destruct H2' as [->|?]; [|by right]. left. apply nil_length_inv. rewrite splice_length by (cbn in *; lia). done. }
        unfold part in *. cbn [c_begin c_bytes set_bytes]. unfold b. rewrite splice_part by lia. by rewrite H3.
      * rewrite list_lookup_insert_ne in Hx by done. apply Hother; [by eapply (proj1 (list.Forall_lookup _ _) HP)|]. intros Ee Ex E. destruct (Ha j k x (p, d) Hjk Hx Hk) as [?|[?|[?|[?|?]]]]; cbn [fst snd] in *; [done|subst d; destruct e; [done|cbn in *; lia]|done|left; lia|right; lia].
    + assert (forall j x, <[k := (p, splice d i e)]> ps !! j = Some x -> exists x', ps !! j = Some x' /\ x'.1 = x.1 /\ length x'.2 = length x.2) as Hold.
      { intros j x Hx. destruct (decide (j = k)) as [->|Hjk]; [|rewrite list_lookup_insert_ne in Hx by done; by exists x].
        rewrite list_lookup_insert_eq in Hx by (by eapply lookup_lt_Some). injection Hx as <-. exists (p, d). cbn. rewrite splice_length by lia. done. }
      intros j1 j2 x y Hj Hx Hy. destruct (Hold _ _ Hx) as (x' & Hx' & E1 & E2). destruct (Hold _ _ Hy) as (y' & Hy' & E3 & E4). pose proof (Ha j1 j2 x' y' Hj Hx' Hy') as Hap. unfold apart in *. rewrite <- E1, <- E2, <- E3, <- E4. assert (forall l l' : list Z, length l = length l' -> l = [] -> l' = []) as Hnil by (intros l l' El ->; by destruct l').
      destruct Hap as [Hn|[Hn|Hap]]; [left; by eapply Hnil|right; left; by eapply Hnil|right; right; exact Hap].
Qed.

Lemma splice_all d e : length e = length d -> splice d 0 e = e.
Proof. intros E. unfold splice. cbn [Z.to_nat take app Nat.add]. by rewrite drop_ge, app_nil_r by lia. Qed.

Lemma shift_0 p : shift p 0 = p.
Proof. unfold shift. rewrite Z.add_0_r. by destruct p. Qed.

Lemma arena_insert_spec a live r ps e :
  arena_ok a live r ps -> len e <= 2 ^ 50 ->
  match insert garbage e (a, r) with
  | (Returns p, (a', r')) => arena_ok a' live r' ((p, e) :: ps)
  | (Throws x, (a', r')) => r' = r /\ arena_ok a' live r ps /\ arena_error x
  end.
Proof.
  intros Hok He. pose proof (arena_alloc_spec a live r ps (len e) Hok ltac:(lia)) as Hal. unfold insert. unfold mbind, M_bind. destruct (alloc garbage (len e) (a, r)) as [[p|x] [a' r']]; [|done].
  destruct Hal as (d & Hd & Hok'). destruct (store_spec a' live r' _ 0 p d 0 e Hok' eq_refl ltac:(lia) ltac:(lia)) as (r2 & E & Hok2 & _). rewrite shift_0 in E. rewrite E. cbn [list_insert] in Hok2. rewrite splice_all in Hok2 by lia. exact Hok2.
Qed.

(** *** Continued pieces *)

Lemma pieces_sub a live r ps ps' :
  arena_ok a live r ps -> Forall (piece_in r) ps' -> (forall i j x y, i <> j -> ps' !! i = Some x -> ps' !! j = Some y -> apart x y) -> arena_ok a live r ps'.
Proof. intros [H1 H2 H3 H4 H5 _ _] H6 H7. by split. Qed.

Lemma pieces_apart_sym x y : apart x y -> apart y x.
Proof. unfold apart. intros [?|[?|[?|[?|?]]]]; auto 10. Qed.

(** The list of the pieces without its first. *)
Lemma forget_piece a live r x ps : arena_ok a live r (x :: ps) -> arena_ok a live r ps.
Proof.
  intros Hok. apply (pieces_sub _ _ _ _ ps Hok); [by pose proof (ar_pieces _ _ _ _ Hok) as [_ ?]%list.Forall_cons|]. intros i j y z Hij Hy Hz. apply (ar_apart _ _ _ _ Hok (S i) (S j) y z); [congruence|done|done].
Qed.

(** A piece and the one that follows it are one piece. *)
Lemma merge_pieces a live r p d e ps : arena_ok a live r ((shift p (len d), e) :: (p, d) :: ps) -> arena_ok a live r ((p, d ++ e) :: ps).
Proof.
  intros Hok. destruct (decide (d = [])) as [->|Hd].
  { cbn [length app] in *. rewrite shift_0 in Hok. pose proof (ar_pieces _ _ _ _ Hok) as [He [_ Hp]%list.Forall_cons]%list.Forall_cons. apply (pieces_sub _ _ _ _ _ Hok); [by apply list.Forall_cons|].
    intros [|i] [|j] x y Hij Hx Hy; [done|apply (ar_apart _ _ _ _ Hok 0 (S (S j)) x y)|apply (ar_apart _ _ _ _ Hok (S (S i)) 0 x y)|apply (ar_apart _ _ _ _ Hok (S (S i)) (S (S j)) x y)]; done || lia. }
  pose proof (ar_pieces _ _ _ _ Hok) as Hp. apply list.Forall_cons in Hp as [(c & E1 & A1 & A2 & A3 & A4) Hp]. apply list.Forall_cons in Hp as [(c' & E2 & B1 & B2 & B3 & B4) Hp]. cbn [fst snd shift below address] in *.
  rewrite E1 in E2. injection E2 as <-. destruct B3 as [|B3]; [done|]. destruct (chunk_in _ _ _ _ _ _ Hok E1) as [C1 C2 C3 C4].
  apply (pieces_sub _ _ _ _ _ Hok).
  - apply list.Forall_cons. split; [|done]. exists c. cbn [fst snd]. rewrite length_app. split_and!; [done|done|lia|right; destruct A3 as [->|A3]; cbn; lia|]. unfold part in *. rewrite Nat2Z.id in A4, B4.
    replace (Z.to_nat (address p + len d - c_begin c)) with (length d + Z.to_nat (address p - c_begin c))%nat in A4 by lia. rewrite Nat.add_comm, <- drop_drop in A4.
    replace (Z.to_nat (Z.of_nat (length d + length e))) with (length d + length e)%nat by lia. etransitivity; [symmetry; apply take_take_drop|]. by rewrite A4, B4.
  - assert (forall j y, ps !! j = Some y -> apart (p, d ++ e) y) as Hap.
    { intros j y Hy. pose proof (ar_apart _ _ _ _ Hok 0 (S (S j)) _ y ltac:(lia) eq_refl Hy) as H1. pose proof (ar_apart _ _ _ _ Hok 1 (S (S j)) _ y ltac:(lia) eq_refl Hy) as H2.
      destruct (decide (y.2 = [])) as [|Hy0]; [right; by left|]. assert (0 < len y.2) by (destruct (y.2); [done|cbn; lia]). unfold apart in *. cbn [fst snd shift below address] in *. rewrite length_app.
      destruct H2 as [?|[?|[?|H2]]]; [done|done|tauto|]. destruct H1 as [->|[?|[?|H1]]]; [cbn [length]; right; right; right; lia|done|tauto|]. right. right. right. lia. }
    intros [|i] [|j] x y Hij Hx Hy; [done| | |].
    + injection Hx as <-. by eapply Hap.
    + injection Hy as <-. apply pieces_apart_sym. by eapply Hap.
    + apply (ar_apart _ _ _ _ Hok (S (S i)) (S (S j)) x y); [lia|done|done].
Qed.

(** [(p, d)] ends where the head chunk is free. *)
Definition at_end r (p : pointer) d : Prop := exists h, chunks r !! (length (chunks r) - 1)%nat = Some h /\ below p = (length (chunks r) - 1)%nat /\ address p + len d = c_pos h.

Lemma take_end a live r ps h p d n :
  arena_ok a live r ((p, d) :: ps) -> chunks r !! (length (chunks r) - 1)%nat = Some h -> below p = (length (chunks r) - 1)%nat -> address p + len d = c_pos h -> 0 <= n -> c_pos h + n <= c_end h ->
  exists r' e, take_bytes n (a, r) = (Returns (shift p (len d)), (a, r')) /\ len e = n /\ arena_ok a live r' ((p, d ++ e) :: ps) /\ at_end r' p (d ++ e).
Proof.
  intros Hok Eh Hb Ha Hn Hf. destruct (take_spec a live r _ h n Hok Eh Hn Hf) as (E & e & He & Hok'). set (r' := set_chunks _ r) in *. exists r', e. assert (Ptr (length (chunks r) - 1) (c_pos h) = shift p (len d)) as Ep by (unfold shift; by rewrite Hb, Ha).
  rewrite Ep in *. split_and!; [done|done|by apply merge_pieces|]. exists (set_pos (c_pos h + n) h). cbn [r' chunks set_chunks]. rewrite length_insert. split_and!; [|done|cbn; rewrite length_app; lia].
  apply list_lookup_insert_eq. by eapply lookup_lt_Some.
Qed.

(** Insertion where there is room. *)
Lemma insert_fits a live r ps h e :
  arena_ok a live r ps -> chunks r !! (length (chunks r) - 1)%nat = Some h -> c_pos h + len e <= c_end h -> len e <= 2 ^ 50 ->
  exists r' h', insert garbage e (a, r) = (Returns (Ptr (length (chunks r) - 1) (c_pos h)), (a, r')) /\ arena_ok a live r' ((Ptr (length (chunks r) - 1) (c_pos h), e) :: ps) /\
    length (chunks r') = length (chunks r) /\ chunks r' !! (length (chunks r) - 1)%nat = Some h' /\ c_begin h' = c_begin h /\ c_end h' = c_end h /\ c_pos h' = c_pos h + len e /\
    growth_factor r' = growth_factor r /\ linear_growth_threshold r' = linear_growth_threshold r.
Proof.
  intros Hok Eh Hf He. destruct (chunk_in _ _ _ _ _ _ Hok Eh) as [C1 C2 C3 C4]. destruct (take_spec a live r ps h (len e) Hok Eh ltac:(lia) Hf) as (E & d & Hd & Hok1). set (r1 := set_chunks _ r) in *. set (p := Ptr _ _) in *.
  destruct (store_spec a live r1 _ 0 p d 0 e Hok1 eq_refl ltac:(lia) ltac:(lia)) as (r2 & E2 & Hok2 & Eb & Ep & Ee & Eg & Et). rewrite shift_0 in E2. cbn [list_insert] in Hok2. rewrite splice_all in Hok2 by lia.
  assert (length (chunks r2) = length (chunks r)) as Hl by (rewrite <- (length_fmap c_begin), Eb, length_fmap; cbn [r1 chunks set_chunks]; by rewrite length_insert).
  assert ((length (chunks r) - 1 < length (chunks r))%nat) as Hlt by (by eapply lookup_lt_Some). destruct (lookup_lt_is_Some_2 (chunks r2) (length (chunks r) - 1)) as [h' Eh']; [lia|].
  assert (forall {T} (f : Chunk -> T), (f <$> chunks r2) = (f <$> chunks r1) -> f h' = f (set_pos (c_pos h + len e) h)) as Hf'.
  { intros T f Ef. apply (f_equal (fun l => l !! (length (chunks r) - 1)%nat)) in Ef. rewrite !list_lookup_fmap, Eh' in Ef. cbn [r1 chunks set_chunks] in Ef. rewrite list_lookup_insert_eq in Ef by lia. by injection Ef. }
  exists r2, h'. split_and!; [|done|done|done|by rewrite (Hf' _ c_begin Eb)|by rewrite (Hf' _ c_end Ee)|by rewrite (Hf' _ c_pos Ep)|done|done].
  unfold insert, alloc. rewrite !bind_assoc, (bind_returns _ _ _ _ _ (head_run (a, r) h Eh)). rewrite (wrap_small 64 (c_pos h + len e)) by (unfold fits; lia). rewrite (proj2 (Z.ltb_ge _ _)) by lia.
  rewrite bind_assoc, bind_ret, (bind_returns _ _ _ _ _ E), (bind_returns _ _ _ _ _ E2). done.
Qed.

(** One round of the loop of [allocContinue]: the piece is copied to a new chunk that has room for it. *)
Lemma allocContinue_round a live r ps h p d n fuel :
  arena_ok a live r ((p, d) :: ps) -> chunks r !! (length (chunks r) - 1)%nat = Some h -> below p = (length (chunks r) - 1)%nat -> address p + len d = c_pos h ->
  0 <= n <= 2 ^ 50 -> c_end h < c_pos h + n -> len d <= nextSize r h n -> len d <= 2 ^ 50 ->
  exists a',
    (exists e, allocContinue garbage (S fuel) n (Some p) (a, r) = (Throws e, (a', r)) /\ arena_error e /\ arena_ok a' live r ((p, d) :: ps)) \/
    (exists r' b h', allocContinue garbage (S fuel) n (Some p) (a, r) = allocContinue garbage fuel n (Some b) (a', r') /\ arena_ok a' live r' ((b, d) :: ps) /\
      chunks r' !! (length (chunks r') - 1)%nat = Some h' /\ below b = (length (chunks r') - 1)%nat /\ address b = c_begin h' /\ c_pos h' = c_begin h' + len d /\ c_end h' = c_begin h' + nextSize r h n /\
      growth_factor r' = growth_factor r /\ linear_growth_threshold r' = linear_growth_threshold r).
Proof.
  intros Hok Eh Hb Ha Hn Hlt Hroom Hd. destruct (chunk_in _ _ _ _ _ _ Hok Eh) as [C1 C2 C3 C4]. cbn [allocContinue]. rewrite (bind_returns _ _ _ _ _ (head_run (a, r) h Eh)), (wrap_small 64 (c_pos h + n)) by (unfold fits; lia).
  rewrite (proj2 (Z.ltb_lt _ _)) by lia. pose proof (addChunk_spec a live r _ h n Hok Eh Hn) as Hadd. destruct (addChunk garbage n (a, r)) as [[[]|e] [a' r1]] eqn:EA.
  2: { exists a'. left. exists e. rewrite (bind_throws _ _ _ _ _ EA). destruct Hadd as (-> & Hok' & He). by split_and!. }
  destruct Hadd as (Hok1 & Eg & Et & c & Ec & Ep & Ee & Hc). exists a'. right. rewrite (bind_returns _ _ _ _ _ EA).
  assert (chunks r1 !! (length (chunks r1) - 1)%nat = Some c) as El by (rewrite Ec, length_app; cbn [length]; replace (length (chunks r) + 1 - 1)%nat with (length (chunks r)) by lia; by rewrite lookup_app_r, Nat.sub_diag by lia).
  pose proof (load_spec a' live r1 _ p d 0 (len d) Hok1 ltac:(by left) ltac:(lia) ltac:(lia) ltac:(lia)) as Eld. rewrite shift_0 in Eld. rewrite Nat2Z.id, drop_0, take_ge in Eld by lia.
  replace (c_pos h -64 address p) with (len d) by (rewrite <- Ha, wrap_small; [lia|unfold fits; lia]).
  destruct (insert_fits a' live r1 _ c d Hok1 El ltac:(lia) Hd) as (r2 & h2 & Ei & Hok2 & Hl2 & Eh2 & B1 & B2 & B3 & B4 & B5). set (b := Ptr _ _) in *. exists r2, b, h2. rewrite !(bind_returns _ _ _ _ _ Eld), (bind_returns _ _ _ _ _ Ei). split; [done|].
  split_and!; [|by rewrite Hl2|by rewrite Hl2|cbn; lia|lia|lia|congruence|congruence].
  pose proof (ar_pieces _ _ _ _ Hok2) as [Hp0 [_ Hp]%list.Forall_cons]%list.Forall_cons. apply (pieces_sub _ _ _ _ _ Hok2); [by apply list.Forall_cons|].
  intros [|i] [|j] x y Hij Hx Hy; [done|apply (ar_apart _ _ _ _ Hok2 0 (S (S j)) x y)|apply (ar_apart _ _ _ _ Hok2 (S (S i)) 0 x y)|apply (ar_apart _ _ _ _ Hok2 (S (S i)) (S (S j)) x y)]; done || lia.
Qed.

Lemma allocContinue_fits a live r ps h p d n fuel :
  arena_ok a live r ((p, d) :: ps) -> chunks r !! (length (chunks r) - 1)%nat = Some h -> below p = (length (chunks r) - 1)%nat -> address p + len d = c_pos h ->
  0 <= n <= 2 ^ 50 -> c_pos h + n <= c_end h ->
  exists r' e, allocContinue garbage (S fuel) n (Some p) (a, r) = (Returns (shift p (len d), p), (a, r')) /\ len e = n /\ arena_ok a live r' ((p, d ++ e) :: ps) /\ at_end r' p (d ++ e).
Proof.
  intros Hok Eh Hb Ha Hn Hge. destruct (chunk_in _ _ _ _ _ _ Hok Eh) as [C1 C2 C3 C4]. destruct (take_end a live r ps h p d n Hok Eh Hb Ha ltac:(lia) Hge) as (r' & e & E & He & Hok' & Hend). exists r', e. split; [|done].
  cbn [allocContinue]. rewrite (bind_returns _ _ _ _ _ (head_run (a, r) h Eh)), (wrap_small 64 (c_pos h + n)) by (unfold fits; lia). rewrite (proj2 (Z.ltb_ge _ _)) by lia. by rewrite (bind_returns _ _ _ _ _ E).
Qed.

(** The size of the next chunk, for the default growth and below the threshold. *)
Lemma nextSize_grows a live r ps h n : arena_ok a live r ps -> chunk_ok h -> 2 <= growth_factor r -> 0 <= n <= 2 ^ 50 ->
  n <= nextSize r h n /\ (linear_growth_threshold r <= nextSize r h n \/ 2 * (c_end h - c_begin h) <= nextSize r h n).
Proof.
  intros Hok Hh Hg Hn. split; [by eapply nextSize_bounds|]. destruct Hok as [_ _ _ Hf Ht _ _]. unfold nextSize. rewrite (chunk_size_ok h Hh). destruct Hh as [H1 H2 H3 H4]. set (x := if c_end h - c_begin h <? _ then _ else _).
  assert (0 < x <= 2 ^ 57 /\ (linear_growth_threshold r <= x \/ 2 * (c_end h - c_begin h) <= x)) as [Hx Hx'].
  { unfold x. destruct (Z.ltb_spec (c_end h - c_begin h) (linear_growth_threshold r)); [|lia]. rewrite wrap_small by (unfold fits; nia). nia. }
  destruct (Z.ltb_spec x n); [pose proof (round_bounds n ltac:(lia))|pose proof (round_bounds x ltac:(lia))]; lia.
Qed.

(** A piece is continued in place, or moved once or twice: three rounds are
    enough up to the linear growth threshold. *)
Lemma allocContinue_spec a live r ps p d n :
  arena_ok a live r ((p, d) :: ps) -> at_end r p d -> 2 <= growth_factor r -> 0 <= n -> len d + n <= linear_growth_threshold r ->
  match allocContinue garbage 3 n (Some p) (a, r) with
  | (Returns (res, b), (a', r')) => exists e, len e = n /\ res = shift b (len d) /\ arena_ok a' live r' ((b, d ++ e) :: ps) /\ at_end r' b (d ++ e)
  | (Throws e, (a', r')) => arena_error e /\ exists b, arena_ok a' live r' ((b, d) :: ps)
  end.
Proof.
  intros Hok (h & Eh & Hb & Ha) Hg Hn Hmax. pose proof (ar_threshold _ _ _ _ Hok) as Ht. destruct (chunk_in _ _ _ _ _ _ Hok Eh) as [C1 C2 C3 C4] eqn:EC. clear EC.
  pose proof (ar_pieces _ _ _ _ Hok) as [(c0 & E0 & B1 & _)%id _]%list.Forall_cons. cbn [fst snd] in *. rewrite Hb, Eh in E0. injection E0 as <-.
  destruct (Z.leb_spec (c_pos h + n) (c_end h)) as [Hfit|Hno].
  { destruct (allocContinue_fits a live r ps h p d n 2 Hok Eh Hb Ha ltac:(lia) Hfit) as (r' & e & -> & He & Hok' & Hend). by exists e. }
  destruct (nextSize_grows a live r _ h n Hok (chunk_in _ _ _ _ _ _ Hok Eh) Hg ltac:(lia)) as [Hs1 Hs2].
  destruct (allocContinue_round a live r ps h p d n 2 Hok Eh Hb Ha ltac:(lia) ltac:(lia) ltac:(lia) ltac:(lia)) as (a1 & [(e & -> & He & Hok')|(r1 & b1 & h1 & -> & Hok1 & Eh1 & Hb1 & Ha1 & Hp1 & He1 & Hg1 & Ht1)]); [split; [done|by exists p]|].
  destruct (Z.leb_spec (c_pos h1 + n) (c_end h1)) as [Hfit1|Hno1].
  { destruct (allocContinue_fits a1 live r1 ps h1 b1 d n 1 Hok1 Eh1 Hb1 ltac:(lia) ltac:(lia) Hfit1) as (r' & e & -> & He & Hok' & Hend). by exists e. }
  destruct (nextSize_grows a1 live r1 _ h1 n Hok1 (chunk_in _ _ _ _ _ _ Hok1 Eh1) ltac:(lia) ltac:(lia)) as [Hs3 Hs4].
  destruct (allocContinue_round a1 live r1 ps h1 b1 d n 1 Hok1 Eh1 Hb1 ltac:(lia) ltac:(lia) ltac:(lia) ltac:(lia) ltac:(lia)) as (a2 & [(e & -> & He & Hok')|(r2 & b2 & h2 & -> & Hok2 & Eh2 & Hb2 & Ha2 & Hp2 & He2 & Hg2 & Ht2)]); [split; [done|by exists b1]|].
  destruct (allocContinue_fits a2 live r2 ps h2 b2 d n 0 Hok2 Eh2 Hb2 ltac:(lia) ltac:(lia) ltac:(lia)) as (r' & e & -> & He & Hok' & Hend). by exists e.
Qed.

(** Insertion where there is no room. *)
Lemma insert_grows a live r ps h e :
  arena_ok a live r ps -> chunks r !! (length (chunks r) - 1)%nat = Some h -> c_end h < c_pos h + len e -> len e <= 2 ^ 50 ->
  exists a',
    (exists x w, insert garbage e (a, r) = (Throws x, w) /\ arena_error x) \/
    (exists r' b h', insert garbage e (a, r) = (Returns b, (a', r')) /\ arena_ok a' live r' ((b, e) :: ps) /\ chunks r' !! (length (chunks r') - 1)%nat = Some h' /\ below b = (length (chunks r') - 1)%nat /\
      address b = c_begin h' /\ c_pos h' = c_begin h' + len e /\ c_end h' = c_begin h' + nextSize r h (len e) /\ growth_factor r' = growth_factor r /\ linear_growth_threshold r' = linear_growth_threshold r).
Proof.
  intros Hok Eh Hno He. destruct (chunk_in _ _ _ _ _ _ Hok Eh) as [C1 C2 C3 C4]. pose proof (addChunk_spec a live r ps h (len e) Hok Eh ltac:(lia)) as Hadd. destruct (addChunk garbage (len e) (a, r)) as [[[]|x] [a1 r1]] eqn:EA.
  2: { exists a. left. exists x, (a1, r1). split; [|apply Hadd]. unfold insert, alloc. rewrite !bind_assoc, (bind_returns _ _ _ _ _ (head_run (a, r) h Eh)). rewrite (wrap_small 64 (c_pos h + len e)) by (unfold fits; lia).
       rewrite (proj2 (Z.ltb_lt _ _)) by lia. by rewrite bind_assoc, (bind_throws _ _ _ _ _ EA). }
  destruct Hadd as (Hok1 & Eg & Et & c & Ec & Ep & Ee & Hc). destruct (nextSize_bounds a live r ps h (len e) Hok (chunk_in _ _ _ _ _ _ Hok Eh) ltac:(lia)) as [Hs _].
  assert (chunks r1 !! (length (chunks r1) - 1)%nat = Some c) as El by (rewrite Ec, length_app; cbn [length]; replace (length (chunks r) + 1 - 1)%nat with (length (chunks r)) by lia; by rewrite lookup_app_r, Nat.sub_diag by lia).
  destruct (insert_fits a1 live r1 ps c e Hok1 El ltac:(lia) He) as (r2 & h2 & Ei & Hok2 & Hl2 & Eh2 & B1 & B2 & B3 & B4 & B5). exists a1. right. eexists r2, _, h2. split_and!; [|exact Hok2|by rewrite Hl2|by rewrite Hl2|cbn; lia|lia|lia|congruence|congruence].
  rewrite <- Ei. unfold insert, alloc. rewrite !bind_assoc, (bind_returns _ _ _ _ _ (head_run (a, r) h Eh)), (bind_returns _ _ _ _ _ (head_run (a1, r1) c El)). rewrite (wrap_small 64 (c_pos h + len e)) by (unfold fits; lia). rewrite (proj2 (Z.ltb_lt _ _)) by lia.
  rewrite bind_assoc, (bind_returns _ _ _ _ _ EA). destruct Hc as [K1 K2 K3 K4]. rewrite (wrap_small 64 (c_pos c + len e)) by (unfold fits; lia). rewrite (proj2 (Z.ltb_ge _ _)) by lia. by rewrite bind_assoc, bind_ret.
Qed.

(** With a head of the threshold's size the next chunk has no more than what is asked for. *)
Lemma nextSize_linear r h n : chunk_ok h -> linear_growth_threshold r <= c_end h - c_begin h -> nextSize r h n = roundUpToPageSize (Z.max (linear_growth_threshold r) n).
Proof. intros Hh Hl. unfold nextSize. rewrite (chunk_size_ok h Hh), (proj2 (Z.ltb_ge (c_end h - c_begin h) (linear_growth_threshold r)) Hl). f_equal. destruct (Z.ltb_spec (linear_growth_threshold r) n); lia. Qed.

Lemma round_pages n : 0 < n <= 2 ^ 59 -> n mod 4096 = 0 -> roundUpToPageSize n = n.
Proof. intros Hn Hm. unfold roundUpToPageSize. rewrite (wrap_small 64 (n + 4096)) by (unfold fits; lia). rewrite (wrap_small 64 (n + 4096 - 1)) by (unfold fits; lia). rewrite wrap_small by (unfold fits; dlia). dlia. Qed.

(** [allocContinue] does not return for a piece of whole pages that is larger
    than a chunk of linear growth and fills its chunk: every round makes a new
    chunk of exactly the size of the piece.  It runs until the allocator
    throws. *)
Lemma allocContinue_diverges fuel : forall a live r ps h p d n,
  arena_ok a live r ((p, d) :: ps) -> chunks r !! (length (chunks r) - 1)%nat = Some h -> below p = (length (chunks r) - 1)%nat -> address p + len d = c_pos h -> c_pos h = c_end h ->
  len d mod 4096 = 0 -> roundUpToPageSize (linear_growth_threshold r) < len d <= 2 ^ 50 -> 0 < n <= linear_growth_threshold r ->
  exists e w, allocContinue garbage fuel n (Some p) (a, r) = (Throws e, w) /\ (e = NO_FUEL \/ arena_error e).
Proof.
  induction fuel as [|fuel IH]; intros a live r ps h p d n Hok Eh Hb Ha Hfull Hmod Hd Hn; [eexists _, _; split; [done|by left]|].
  pose proof (ar_threshold _ _ _ _ Hok) as Ht. pose proof (round_bounds (linear_growth_threshold r) ltac:(lia)) as Hrd. pose proof (chunk_in _ _ _ _ _ _ Hok Eh) as Hh. pose proof Hh as [C1 C2 C3 C4].
  pose proof (ar_pieces _ _ _ _ Hok) as [(c0 & E0 & B1 & _)%id _]%list.Forall_cons. cbn [fst snd] in *. rewrite Hb, Eh in E0. injection E0 as <-.
  cbn [allocContinue]. rewrite (bind_returns _ _ _ _ _ (head_run (a, r) h Eh)), (wrap_small 64 (c_pos h + n)) by (unfold fits; lia). rewrite (proj2 (Z.ltb_lt _ _)) by lia.
  pose proof (addChunk_spec a live r _ h n Hok Eh ltac:(lia)) as Hadd. destruct (addChunk garbage n (a, r)) as [[[]|e] [a1 r1]] eqn:EA; [|eexists e, _; split; [by rewrite (bind_throws _ _ _ _ _ EA)|right; apply Hadd]].
  destruct Hadd as (Hok1 & Eg & Et & c & Ec & Ep & Ee & Hc). rewrite (nextSize_linear r h n Hh ltac:(lia)), Z.max_l in Ee by lia. rewrite (bind_returns _ _ _ _ _ EA).
  assert (chunks r1 !! (length (chunks r1) - 1)%nat = Some c) as El by (rewrite Ec, length_app; cbn [length]; replace (length (chunks r) + 1 - 1)%nat with (length (chunks r)) by lia; by rewrite lookup_app_r, Nat.sub_diag by lia).
  pose proof (load_spec a1 live r1 _ p d 0 (len d) Hok1 ltac:(by left) ltac:(lia) ltac:(lia) ltac:(lia)) as Eld. rewrite shift_0 in Eld. rewrite Nat2Z.id, drop_0, take_ge in Eld by lia.
  replace (c_pos h -64 address p) with (len d) by (rewrite <- Ha, wrap_small; [lia|unfold fits; lia]). rewrite (bind_returns _ _ _ _ _ Eld).
  destruct (insert_grows a1 live r1 _ c d Hok1 El ltac:(lia) ltac:(lia)) as (a2 & [(x & w & Ei & Hx)|(r2 & b & h2 & Ei & Hok2 & Eh2 & K1 & K2 & K3 & K4 & K5 & K6)]).
  { eexists x, w. split; [by rewrite (bind_throws _ _ _ _ _ Ei)|by right]. }
  rewrite (bind_returns _ _ _ _ _ Ei). rewrite (nextSize_linear r1 c (len d) Hc ltac:(lia)), Z.max_r, round_pages in K4 by lia.
  apply (IH a2 live r2 _ h2 b d n Hok2 Eh2 K1); [lia|lia|done|rewrite K6, Et; lia|rewrite K6, Et; lia].
Qed.

(** *** The other operations *)

Lemma Arena_new_spec a live n g t :
  alloc_inv a live -> 0 < n < 2 ^ 60 -> 1 <= g <= 256 -> 1 <= t <= 2 ^ 50 ->
  match Arena_new garbage n g t a with
  | (Returns r, a') => arena_ok a' live r [] /\ growth_factor r = g /\ linear_growth_threshold r = t
  | (Throws e, a') => alloc_inv a' live /\ arena_error e
  end.
Proof.
  intros Hinv Hn Hg Ht. unfold Arena_new, Chunk_new. pose proof (alloc_range_ok a live n Hinv Hn) as Hal. unfold mbind, M_bind. destruct (alloc_range n a) as [[p|e] a'] eqn:E; [|split; [done|exists n, a; by rewrite E]].
  destruct Hal as (Hinv' & Hp & Hn48). pose proof (alloc_inv_range a' live p n Hinv') as [Hp1 Hp2]. cbn [mret M_ret]. assert (p +64 n = p + n) as Ee by (apply wrap_small; unfold fits; lia). split; [|done]. split; cbn [chunks growth_factor linear_growth_threshold]; [done| | |done|done|done|done].
  - apply Forall_cons_2; [|apply Forall_nil_2]. split; cbn [c_begin c_pos c_end c_bytes]; rewrite ?Ee, ?garbage_length; lia.
  - unfold ranges. cbn [chunks fmap list_fmap app c_begin c_end]. rewrite Ee. by replace (p + n - p) with n by lia.
Qed.

Lemma arena_realloc_spec a live r ps p d n :
  arena_ok a live r ps -> (p, d) ∈ ps -> len d <= n <= 2 ^ 50 ->
  match realloc garbage (Some p) (len d) n (a, r) with
  | (Returns q, (a', r')) => exists e, len (d ++ e) = n /\ arena_ok a' live r' ((q, d ++ e) :: ps)
  | (Throws e, (a', r')) => r' = r /\ arena_ok a' live r ps /\ arena_error e
  end.
Proof.
  intros Hok Hp Hn. pose proof (arena_alloc_spec a live r ps n Hok ltac:(lia)) as Hal. unfold realloc. unfold mbind at 1, M_bind at 1. destruct (alloc garbage n (a, r)) as [[q|e] [a' r']]; [|done]. destruct Hal as (d' & Hd' & Hok').
  pose proof (load_spec a' live r' _ p d 0 (len d) Hok' ltac:(by right) ltac:(lia) ltac:(lia) ltac:(lia)) as El. rewrite shift_0, Nat2Z.id, drop_0, take_ge in El by lia. rewrite bind_assoc, (bind_returns _ _ _ _ _ El).
  destruct (store_spec a' live r' _ 0 q d' 0 d Hok' eq_refl ltac:(lia) ltac:(lia)) as (r2 & Es & Hok2 & _). rewrite shift_0 in Es. rewrite (bind_returns _ _ _ _ _ Es). cbn [mret M_ret]. exists (drop (length d) d'). split; [rewrite length_app, length_drop; lia|exact Hok2].
Qed.

(** Taking back the end of the last piece. *)
Lemma rollback_spec a live r ps p d n :
  arena_ok a live r ((p, d) :: ps) -> at_end r p d -> 0 <= n <= len d ->
  exists r', rollback n (a, r) = (Returns tt, (a, r')) /\ arena_ok a live r' ((p, take (Z.to_nat (len d - n)) d) :: ps) /\ at_end r' p (take (Z.to_nat (len d - n)) d).
Proof.
  intros Hok (h & Eh & Hb & Ha) Hn. pose proof (chunk_in _ _ _ _ _ _ Hok Eh) as [C1 C2 C3 C4]. pose proof (ar_pieces _ _ _ _ Hok) as [(c0 & E0 & B1 & B2 & B3 & B4)%id Hp]%list.Forall_cons. cbn [fst snd] in *. rewrite Hb, Eh in E0. injection E0 as <-.
  unfold rollback. rewrite (bind_returns _ _ _ _ _ (head_run (a, r) h Eh)). rewrite (wrap_small 64 (c_pos h - n)) by (unfold fits; lia). set (r' := set_chunks (<[(length (chunks r) - 1)%nat := set_pos (c_pos h - n) h]> (chunks r)) r). exists r'. split; [done|].
  set (d' := take (Z.to_nat (len d - n)) d). assert (len d' = len d - n) as Hd' by (unfold d'; rewrite length_take; lia). assert ((length (chunks r) - 1 < length (chunks r))%nat) as Hlt by (by eapply lookup_lt_Some).
  split.
  2: { exists (set_pos (c_pos h - n) h). cbn [r' chunks set_chunks]. rewrite length_insert. split_and!; [by apply list_lookup_insert_eq|done|cbn; lia]. }
  assert (forall x, x ∈ ps -> piece_in r' x) as Hother.
  { intros x Hx. pose proof (proj1 (list.Forall_forall _ _) Hp x Hx) as (c & E & D1 & D2 & D3 & D4). destruct (decide (below x.1 = (length (chunks r) - 1)%nat)) as [El|Hne].
    - rewrite El, Eh in E. injection E as <-. exists (set_pos (c_pos h - n) h). cbn [r' chunks set_chunks c_begin c_end c_pos set_pos]. rewrite El. split_and!; [by apply list_lookup_insert_eq|done|done| |done].
      destruct (decide (x.2 = [])) as [|Hx0]; [by left|]. assert (0 < len x.2) by (destruct (x.2); [done|cbn; lia]). right. destruct D3 as [|D3]; [done|]. apply list_elem_of_lookup in Hx as [j Hj].
      destruct (ar_apart _ _ _ _ Hok 0 (S j) _ x ltac:(lia) eq_refl Hj) as [Hd0|[?|[?|[?|?]]]]; cbn [fst snd] in *; [subst d; cbn in *; lia|done|congruence|lia|lia].
    - exists c. cbn [r' chunks set_chunks]. rewrite list_lookup_insert_ne by done. by split_and!. }
  destruct Hok as [Hne Hc Hm Hf Ht _ Hap]. split; cbn [r' chunks set_chunks growth_factor linear_growth_threshold].
  - intros E%(f_equal length). rewrite length_insert in E. cbn in E. lia.
  - apply list.Forall_insert; [done|]. split; cbn [c_begin c_pos c_end c_bytes set_pos]; lia.
  - unfold ranges. cbn [chunks set_chunks r']. rewrite list_fmap_insert. cbn [c_end c_begin set_pos]. rewrite list_insert_id; [exact Hm|]. by rewrite list_lookup_fmap, Eh.
  - done.
  - done.
  - apply list.Forall_cons. split; [|apply list.Forall_forall; exact Hother]. exists (set_pos (c_pos h - n) h). cbn [fst snd r' chunks set_chunks c_begin c_end c_pos set_pos]. rewrite Hb, Hd'. unfold part in *. cbn [c_bytes set_pos].
    split_and!; [by apply list_lookup_insert_eq|done|lia|right; lia|]. unfold d'. transitivity (take (Z.to_nat (len d - n)) (take (Z.to_nat (len d)) (drop (Z.to_nat (address p - c_begin h)) (c_bytes h)))); [rewrite take_take; f_equal; lia|by rewrite B4].
  - assert (forall j y, ps !! j = Some y -> apart (p, d') y) as Hd0.
    { intros j y Hy. destruct (Hap 0%nat (S j) _ y ltac:(lia) eq_refl Hy) as [Hx|[Hx|[Hx|[Hx|Hx]]]]; cbn [fst snd] in *; unfold apart; cbn [fst snd]; [left; apply nil_length_inv; subst d; unfold d'; by rewrite take_nil|by right; left|by right; right; left|right; right; right; left; lia|right; right; right; right; done]. }
    intros [|i] [|j] x y Hij Hx Hy; [done| | |apply (Hap (S i) (S j) x y); [lia|done|done]].
    + injection Hx as <-. by eapply Hd0.
    + injection Hy as <-. apply pieces_apart_sym. by eapply Hd0.
Qed.

(** *** A client of an arena *)

(** The states that calls reach, with the pieces the client has: what it
    inserted, what it found in the memory it was given, what it wrote. *)
Inductive arena_client (live : list (Z * Z)) : world -> list (pointer * list Z) -> Prop :=
| client_new a n g t a' r : alloc_inv a live -> 0 < n < 2 ^ 60 -> 1 <= g <= 256 -> 1 <= t <= 2 ^ 50 -> Arena_new garbage n g t a = (Returns r, a') -> arena_client live (a', r) []
| client_insert w ps e p w' : arena_client live w ps -> len e <= 2 ^ 50 -> insert garbage e w = (Returns p, w') -> arena_client live w' ((p, e) :: ps)
| client_alloc w ps n p d w' : arena_client live w ps -> 0 <= n <= 2 ^ 50 -> alloc garbage n w = (Returns p, w') -> load p n w' = (Returns d, w') -> arena_client live w' ((p, d) :: ps)
| client_write w ps k p d i e w' : arena_client live w ps -> ps !! k = Some (p, d) -> 0 <= i -> i + len e <= len d -> store (shift p i) e w = (Returns tt, w') -> arena_client live w' (<[k := (p, splice d i e)]> ps)
| client_realloc w ps p d n q e w' : arena_client live w ps -> (p, d) ∈ ps -> len d <= n <= 2 ^ 50 -> realloc garbage (Some p) (len d) n w = (Returns q, w') -> load q n w' = (Returns e, w') -> arena_client live w' ((q, e) :: ps)
| client_continue w ps p d n res b e w' : arena_client live w ((p, d) :: ps) -> at_end w.2 p d -> 2 <= growth_factor w.2 -> 0 <= n -> len d + n <= linear_growth_threshold w.2 ->
    allocContinue garbage 3 n (Some p) w = (Returns (res, b), w') -> load b (len d + n) w' = (Returns e, w') -> arena_client live w' ((b, e) :: ps)
| client_rollback w ps p d n w' : arena_client live w ((p, d) :: ps) -> at_end w.2 p d -> 0 <= n <= len d -> rollback n w = (Returns tt, w') -> arena_client live w' ((p, take (Z.to_nat (len d - n)) d) :: ps)
| client_throw w ps n e w' : arena_client live w ps -> 0 <= n <= 2 ^ 50 -> alloc garbage n w = (Throws e, w') -> arena_client live w' ps.

Lemma load_piece a live r ps p d : arena_ok a live r ps -> (p, d) ∈ ps -> load p (len d) (a, r) = (Returns d, (a, r)).
Proof. intros Hok Hp. pose proof (load_spec a live r ps p d 0 (len d) Hok Hp ltac:(lia) ltac:(lia) ltac:(lia)) as E. by rewrite shift_0, Nat2Z.id, drop_0, take_ge in E by lia. Qed.

(** What is read of the first piece is the piece. *)
Lemma loaded_piece a live r ps p d n e w : arena_ok a live r ((p, d) :: ps) -> len d = n -> load p n (a, r) = (Returns e, w) -> e = d.
Proof. intros Hok <- E. pose proof (load_piece a live r _ p d Hok ltac:(by left)) as E'. congruence. Qed.

Lemma client_ok live w ps : arena_client live w ps -> arena_ok w.1 live w.2 ps.
Proof.
  induction 1 as [a n g t a' r Hinv Hn Hg Ht E|w ps e p w' _ IH He E|w ps n p d w' _ IH Hn E El|w ps k p d i e w' _ IH Hk Hi He E|w ps p d n q e w' _ IH Hp Hn E El|w ps p d n res b e w' _ IH Hend Hg Hn Hm E El|w ps p d n w' _ IH Hend Hn E|w ps n e w' _ IH Hn E];
    try destruct w as [a r]; try destruct w' as [a' r']; cbn [fst snd] in *.
  - pose proof (Arena_new_spec a live n g t Hinv Hn Hg Ht) as Hs. rewrite E in Hs. apply Hs.
  - pose proof (arena_insert_spec a live r ps e IH He) as Hs. by rewrite E in Hs.
  - pose proof (arena_alloc_spec a live r ps n IH Hn) as Hs. rewrite E in Hs. destruct Hs as (d' & Hd & Hs). by rewrite (loaded_piece _ _ _ _ _ _ _ _ _ Hs Hd El).
  - destruct (store_spec a live r ps k p d i e IH Hk Hi He) as (r2 & E2 & Hs & _). rewrite E2 in E. injection E as <- <-. exact Hs.
  - pose proof (arena_realloc_spec a live r ps p d n IH Hp Hn) as Hs. rewrite E in Hs. destruct Hs as (e' & He & Hs). by rewrite (loaded_piece _ _ _ _ _ _ _ _ _ Hs He El).
  - pose proof (allocContinue_spec a live r ps p d n IH Hend Hg Hn Hm) as Hs. rewrite E in Hs. destruct Hs as (e' & He & _ & Hs & _). assert (len (d ++ e') = len d + n) as Hl by (rewrite length_app; lia). by rewrite (loaded_piece _ _ _ _ _ _ _ _ _ Hs Hl El).
  - destruct (rollback_spec a live r ps p d n IH Hend Hn) as (r2 & E2 & Hs & _). rewrite E2 in E. injection E as <- <-. exact Hs.
  - pose proof (arena_alloc_spec a live r ps n IH Hn) as Hs. rewrite E in Hs. by destruct Hs as (-> & Hs & _).
Qed.

(** C18: Addresses from an arena stay valid.  In every state that a client
    reaches by insertions, allocations, writes into its pieces, reallocations,
    continued allocations, roll backs and failed allocations, each of its pieces
    is in the arena with its bytes, and pieces do not overlap; a further
    insertion returns, or throws what the allocator threw and changes nothing. *)
Theorem arena_keeps live w ps :
  arena_client live w ps ->
  (forall p d, (p, d) ∈ ps -> load p (len d) w = (Returns d, w)) /\
  (forall i j x y, i <> j -> ps !! i = Some x -> ps !! j = Some y -> apart x y) /\
  forall e, len e <= 2 ^ 50 ->
    match insert garbage e w with
    | (Returns p, w') => forall q d, (q, d) ∈ (p, e) :: ps -> load q (len d) w' = (Returns d, w')
    | (Throws x, w') => w'.2 = w.2 /\ arena_error x
    end.
Proof.
  intros Hc. pose proof (client_ok live w ps Hc) as Hok. destruct w as [a r]. cbn [fst snd] in *. split_and!.
  - intros p d. by eapply load_piece.
  - apply Hok.
  - intros e He. pose proof (arena_insert_spec a live r ps e Hok He) as Hs. destruct (insert garbage e (a, r)) as [[p|x] [a' r']]; [|split; apply Hs]. intros q d. by eapply load_piece.
Qed.
End Pieces.

#[local] Definition demo_bytes (_ : Z) (n : nat) : list Z := replicate n 7.
#[local] Existing Instance on_the_pool.
#[local] Existing Instance on_the_pool_laws.
#[local] Definition demo_new := Arena_new demo_bytes 4096 2 (2 ^ 27) demo_allocator.

Lemma arena_keeps_witness : exists r a, demo_new = (Returns r, a) /\
  match insert demo_bytes [1; 2; 3] (a, r) with
  | (Returns p, w') => forall q d, (q, d) ∈ [(p, [1; 2; 3])] -> load q (Z.of_nat (length d)) w' = (Returns d, w')
  | (Throws x, w') => w'.2 = r /\ arena_error (A := pool_allocator) x
  end.
Proof.
  assert (match demo_new.1 with Returns _ => true | Throws _ => false end = true) as Hr by (vm_compute; reflexivity).
  destruct demo_new as [[r|e] a] eqn:E; [|discriminate Hr]. exists r, a. split; [reflexivity|].
  apply (arena_keeps demo_bytes (fun _ n => length_replicate n 7) [] (a, r) []); [|cbn; lia].
  eapply (client_new demo_bytes [] demo_allocator 4096 2 (2 ^ 27)); [exact demo_live|lia|lia|lia|exact E].
Defined.
